(* ===== verification/_CoqProject ===== *)
-Q . S2P
Prelude.v
Compare.v
Timely.v
BTree.v
Schema.v
Paths.v
Consensus.v
Batch.v
Order.v
Blob.v
Diff.v
BatchFacts.v
Spine.v
SpineFacts.v
SpineCorrect.v
Trace.v
FlatTrace.v
TraceFacts.v
FlatFacts.v
SpineKeep.v
State.v
StateDiff.v
StateDiffFacts.v
StateFacts.v
Reads.v
Tombstone.v
Machine.v
MachineFacts.v
DiffChain.v
PartKeys.v
Versions.v
VersionsFacts.v
Gc.v
DeleteFacts.v
GcFacts.v
History.v
System.v
Append.v
Examples.v
RunExamples.v
Migrate.v
MigrateFacts.v
ShardProps.v
ReadProps.v
SystemProps.v
SpineProps.v
DiffProps.v
VersionProps.v
MigrateProps.v
TxnCache.v
TxnCacheFacts.v
TxnLog.v
TxnFollow.v
TxnQuery.v
Txns.v
TxnWorld.v
TxnWorldFacts.v
TxnLogic.v
TxnSync.v
TxnApplyFacts.v
TxnRegister.v
TxnReads.v
TxnReadTask.v
TxnReadFacts.v
TxnReadSystem.v
TxnReadInv.v
TxnReadSafe.v
TxnCommit.v
TxnClients.v
TxnBuild.v
TxnCodec.v
TxnExamples.v
TxnProps.v
TxnReadExamples.v
TxnReadProps.v
