(* ===== verification/Prelude.v ===== *)
(** * A verification library for the persist storage engine of Materialize

    Persist stores a collection of timestamped updates, a _shard_, on two
    external services: consensus, a log of versions with compare-and-set, and
    blob storage.  The library models the part of it that decides what a
    shard contains: the state of a shard with the merge tree of its batches,
    the commands that change it, the versions of the state in the two stores,
    the processes that race on them, and the garbage collector that deletes
    what is no longer needed.  On top of it, txn-wal makes writes to several
    shards atomic: the library also models its log of transactions and the
    clients that share it.  The code is under src/src/persist-client/src
    ("client" below), most of it in its directory internal/, and under
    src/src/persist/src, src/src/persist-types/src and src/src/txn-wal/src.

    ** The parts and where they are modelled

    - Foundations: [Prelude] (code that panics or fails, machine integers),
      [Compare] (Ord::cmp), [BTree] (BTreeMap), [Timely] (the parts of the
      timely and differential crates that the code calls, as a class with its
      laws and 64-bit times as an instance).
    - Keys and schemas: [Paths] (internal/paths.rs: blob keys, printed and
      parsed), [Schema] (persist-types schema.rs: which types may evolve into
      which, and the migration), [Migrate], [MigrateFacts] (schema.rs,
      arrow.rs: running a migration on arrays, and the order of their rows).
    - The stores: [Consensus] and [Blob] (persist location.rs, mem.rs): each
      trait as a class with the laws its documentation states, each in-memory
      implementation as an instance.  All clients are proved against the
      classes.
    - Batches: [Batch], [Order], [BatchFacts] (internal/state.rs:
      HollowBatch, parts, runs, their orders).
    - The trace: [Spine] (internal/trace.rs: levels, fueled merges),
      [Trace] (appending, compaction requests and results, claims),
      [FlatTrace] (the stored form).  Their theorems: [SpineFacts],
      [SpineCorrect], [SpineKeep], [TraceFacts], [FlatFacts].
    - The state of a shard: [State] (internal/state.rs: StateCollections and
      State with every transition; a transition returns the changed
      collections, or breaks), [StateFacts] (its invariant), [Reads] (snapshots
      and listens), [Tombstone] (how a finished shard shrinks).
    - Commands: [Machine] (internal/machine.rs, apply.rs:
      compute_next_state_locked and the sixteen commands), [MachineFacts]
      (their refinement of the abstract [Shard]), [Append] (the retry loop of
      compare_and_append_idempotent as a step relation), [System] (several
      processes with caches racing on one log, as a step relation).
    - Differences: [Diff], [StateDiff], [StateDiffFacts], [DiffChain]
      (internal/state_diff.rs: differences of two states, taken and applied,
      and chains of them), [PartKeys] (the keys of parts are never used twice).
    - Versions: [Versions], [VersionsFacts] (internal/state_versions.rs,
      encoding.rs: rollups, live differences in pages, fetching, creating a
      shard, refreshing a cached state).
    - Garbage collection: [Gc], [DeleteFacts], [GcFacts] (internal/gc.rs,
      client batch.rs: finding, deleting and truncating).
    - Whole runs: [History]: a [World] has the history of states, the log and
      both stores; a [world_step] writes blobs, commits a command or collects
      garbage; a reader sees the stores of different times ([seen]).
    - Transactions across shards: [TxnCache] (txn-wal txn_cache.rs: what a
      process knows of the txns shard), [TxnCacheFacts], [TxnLog], [TxnFollow],
      [TxnQuery] (what the cache says of the log it follows), [Txns] (txns.rs,
      txn_write.rs, txn_read.rs, lib.rs: the operations as programs whose calls
      to persist are explicit), [TxnWorld], [TxnWorldFacts], [TxnLogic] (what
      persist promises of the calls, the invariant of the protocol, and a logic
      for any number of programs that run concurrently), [TxnSync],
      [TxnApplyFacts], [TxnRegister], [TxnReads], [TxnCommit] (the operations,
      verified in that logic), [TxnClients] (clients with scripts of commands),
      [TxnBuild] (collecting writes), [TxnCodec] (the encoding of entries).
    - Shared caches: [TxnReadTask] (txn_read.rs: the task that owns a cache,
      the one that follows the txns shard, waits and subscriptions),
      [TxnReadFacts], [TxnReadSystem] (both tasks, their queue and the callers
      next to other clients, as a step relation), [TxnReadInv], [TxnReadSafe]
      (its invariant).
    - Witnesses: [Examples], [RunExamples] (a shard with 64-bit times, taken
      through commands, a compaction, rollups and a collection), [TxnExamples]
      (two clients that register, commit and read), [TxnReadExamples] (callers
      of a shared cache that wait, read, subscribe and give up).
    - The main theorems: [ShardProps], [ReadProps], [SystemProps],
      [SpineProps], [DiffProps], [VersionProps], [MigrateProps], [TxnProps],
      [TxnReadProps].

    ** What the theorems show

    - Commands ([ShardProps]): every state that commands reach satisfies its
      invariant and passes the code's own validation; every command refines an
      abstract shard (a since, an upper, batches in order of time); the loop
      that retries appends commits exactly once; tombstones are final and are
      reached.
    - Processes ([SystemProps]): whatever the interleaving and whatever
      answers are lost, there is one history, and every cache is in it.
    - The trace ([SpineProps]): appends, background work and compaction
      results never panic and keep the data in order; the informal fuel
      argument in the documentation of Spine is carried out.
    - Reads ([ReadProps]): a snapshot has exactly the updates up to its time,
      a listen continues it without gap or overlap and is never stuck; the
      collector's requests stay below what readers hold.
    - Differences ([DiffProps]): the difference that a command records takes
      any copy of the state before to the state after.
    - Versions and garbage ([VersionProps]): in every run the log, the rollups
      and all blobs of the live states are there; fetching returns a state of
      the history no older than the one current when it began, and goes on
      only as long as others make progress; a collection deletes what only
      dead states refer to, and nothing else; interrupted deletions can be
      repeated.
    - Migrations ([MigrateProps]): a migration never panics and reads every
      row at the new type; when it claims to preserve the order, it does.
    - Transactions ([TxnProps]): however the calls of the clients interleave,
      whoever crashes, and with direct writes to unregistered data shards and
      compactions in between, reads return exactly what was committed,
      commits are atomic and isolated, what a client was told stays true, and
      every operation ends; a cache implements the history of the txns shard.
    - Shared caches ([TxnReadProps]): the tasks never panic, tokens and
      subscriptions are sound, every wait is answered as soon as the cache has
      progressed that far, at most once, and abandoned waits are forgotten.

    ** How code becomes definitions

    Sequence numbers, sizes and clocks are [Z] with the operations that wrap,
    saturate or check written out; ids are numbers or bytes.  [outcome] is code
    that may panic, [result] is Result, [ControlFlow] the standard one.  Code
    outside the repository is a class with laws that some theorem's witness
    instantiates: timestamps ([Timely]), uuids ([UuidCodec]), versions
    ([SemVer]), the codecs of parts, schemas and arrow types ([PartCodec],
    [SchemaCodec], [DataTypeCodec]), arrow arrays ([Arrow]), consolidation
    ([Consolidate]), the encoding of batches with a fresh uuid
    ([IdBatchCodec]), the hash of a token ([hashed]).

    Loops: where the source loops on its data the definition is structural
    or has a turn per element; [PartDeletes.delete] takes a fuel, and the
    theorems ask for the number of runs below the parts ([weight]), which
    suffices; loops that read the stores again take the stores that each
    turn sees, and their result is [None] when the loop is still going on.
    Theorems say what happens then: each such turn costs another process a
    commit.  External calls that are retried until they succeed are one call.
    The retry loops of txn-wal take a fuel and end in [Going] without it; every
    turn raises a 64-bit timestamp, so [fuel_ok], 2^64 + 1 turns, suffices, and
    the theorems show that [Going] is not reached.  Futures that are awaited
    together are interleaved at every call ([par], [join]).  A subscription
    catches up in two steps ([listen_turns]); more would end in [Going].  The assertions
    of soft and of debug builds are switches; theorems hold with and without
    the soft ones, and for the cache of release builds ([debug] is false).

    ** What is not modelled

    Reading and writing columnar data (batch building, compaction's merge,
    fetching, statistics, arrow and parquet), the protobuf encodings, and the
    back ends on S3, Azure, Postgres and files: they are input and output and
    generated code around the modelled core; stored values are kept as the
    values they encode.  Metrics, tracing, configuration, pubsub
    notifications (correctness does not depend on them), the async runtime
    (tasks, channels, cancellation), and deletions that run concurrently
    (they are done in order).  The client handles above the machine: txn-wal
    is proved against what they promise ([TxnWorld]).  Of txn-wal, the closing
    of data shards, the registration of schemas (the id of a handle's schema
    is kept), the cursor, stream and statistics variants of a snapshot, and
    the dataflow operator.  The timestamp oracle and the rest of Materialize
    (SQL, dataflow, adapters, operations) are not modelled. *)

From stdpp Require Export base tactics numbers list option strings gmap sorting.
From Stdlib Require Export ZArith Lia.

Local Open Scope Z_scope.

(** ** Panicking code

    Rust code that can panic is modelled by [outcome]: [Ret] is a normal
    return, [Panic] an [assert!], [expect], [panic!] or out-of-range index. *)

Inductive outcome (A : Type) : Type :=
| Ret (a : A)
| Panic.
Arguments Ret {A} a.
Arguments Panic {A}.

Definition obind {A B} (m : outcome A) (f : A -> outcome B) : outcome B :=
  match m with Ret a => f a | Panic => Panic end.

Declare Scope outcome_scope.
Delimit Scope outcome_scope with outcome.
Notation "'let!' x := m 'in' k" := (obind m (fun x => k))
  (at level 10, x pattern, m at level 100, k at level 200,
   format "'[v' 'let!'  x  :=  m  'in' '/' k ']'") : outcome_scope.
#[global] Open Scope outcome_scope.

(** [Result<A, E>] of the source. *)
Inductive result (A E : Type) : Type :=
| Ok (a : A)
| Err (e : E).
Arguments Ok {A E} a.
Arguments Err {A E} e.

(** The [?] operator. *)
Definition rbind {A B E} (m : result A E) (f : A -> result B E) : result B E :=
  match m with Ok a => f a | Err e => Err e end.

Notation "'let?' x := m 'in' k" := (rbind m (fun x => k))
  (at level 10, x pattern, m at level 100, k at level 200,
   format "'[v' 'let?'  x  :=  m  'in' '/' k ']'") : outcome_scope.

(** [std::ops::ControlFlow<B, C>]: [Break] aborts a command, [Continue]
    commits its new state. *)
Inductive ControlFlow (B C : Type) : Type :=
| Break (b : B)
| Continue (c : C).
Arguments Break {B C} b.
Arguments Continue {B C} c.

Definition expect {A} (o : option A) : outcome A :=
  match o with Some a => Ret a | None => Panic end.

(** The computation does not panic. *)
Definition is_ret {A} (m : outcome A) : Prop := exists a, m = Ret a.

(** [slice[i]]: panics out of range. *)
Definition index {A} (l : list A) (i : nat) : outcome A := expect (l !! i).

(** [assert!(b)]. *)
Definition assert_ (b : bool) : outcome unit := if b then Ret tt else Panic.

(** A [for] loop over a fixed list of items that threads a state. *)
Fixpoint foldM {A St} (f : St -> A -> outcome St) (l : list A) (s : St) : outcome St :=
  match l with
  | [] => Ret s
  | x :: l' => let! s' := f s x in foldM f l' s'
  end.

(** [map(f).collect()] for a panicking [f]. *)
Fixpoint omapM {A B} (f : A -> outcome B) (l : list A) : outcome (list B) :=
  match l with
  | [] => Ret []
  | x :: l' => let! y := f x in let! ys := omapM f l' in Ret (y :: ys)
  end.

(** ** Machine integers: [usize] and [u64] are 64 bits wide *)

Definition usize_max : Z := 2 ^ 64 - 1.
Definition isize_max : Z := 2 ^ 63 - 1.
Definition u64_max : Z := 2 ^ 64 - 1.

(** [x << s]: the bits shifted out are lost and the shift amount is masked. *)
Definition usize_shl (x : Z) (s : nat) : Z :=
  Z.shiftl x (Z.of_nat s mod 64) mod 2 ^ 64.

(** [x.checked_shl(s)]: only the shift amount is checked. *)
Definition usize_checked_shl (x : Z) (s : nat) : option Z :=
  if (s <? 64)%nat then Some (Z.shiftl x (Z.of_nat s) mod 2 ^ 64) else None.

Definition usize_checked_mul (x y : Z) : option Z :=
  if x * y <=? usize_max then Some (x * y) else None.

Definition usize_checked_add (x y : Z) : option Z :=
  if x + y <=? usize_max then Some (x + y) else None.

Definition isize_try_from (x : Z) : option Z :=
  if x <=? isize_max then Some x else None.

Definition u64_saturating_add (x y : Z) : Z := Z.min (x + y) u64_max.
Definition u64_saturating_sub (x y : Z) : Z := Z.max (x - y) 0.

(** [x.next_power_of_two()] as compiled in release mode: 0 on overflow. *)
Definition next_power_of_two (x : Z) : Z :=
  let p := if x <=? 1 then 1 else 2 ^ Z.log2_up x in
  if p <=? usize_max then p else 0.

Fixpoint pos_trailing_zeros (p : positive) : nat :=
  match p with
  | xO q => S (pos_trailing_zeros q)
  | _ => 0
  end.

Definition trailing_zeros (x : Z) : nat :=
  match x with
  | Zpos p => pos_trailing_zeros p
  | _ => 64
  end.

Definition sumZ (l : list Z) : Z := foldr Z.add 0 l.

(** ** Lemmas on outcomes *)

Lemma obind_Ret_inv {A B} (m : outcome A) (f : A -> outcome B) b :
  obind m f = Ret b -> exists a, m = Ret a /\ f a = Ret b.
Proof. destruct m as [a|]; simpl; intros; [eauto | discriminate]. Qed.

Lemma foldM_app {A St} (f : St -> A -> outcome St) l1 l2 s :
  foldM f (l1 ++ l2) s = (let! s' := foldM f l1 s in foldM f l2 s').
Proof.
  revert s; induction l1 as [|x l1 IH]; intros s; simpl; [done|].
  destruct (f s x); simpl; auto.
Qed.

(** The loop rule: an invariant indexed by the items already visited. *)
Lemma foldM_inv {A St} (f : St -> A -> outcome St) (P : nat -> St -> Prop) l s :
  P 0%nat s ->
  (forall i x s0, l !! i = Some x -> P i s0 ->
     exists s1, f s0 x = Ret s1 /\ P (S i) s1) ->
  exists s', foldM f l s = Ret s' /\ P (length l) s'.
Proof.
  revert P s; induction l as [|x l IH]; intros P s H0 Hstep; simpl; [eauto|].
  destruct (Hstep 0%nat x s eq_refl H0) as (s1 & Hf & H1). rewrite Hf; simpl.
  apply (IH (fun i => P (S i)) s1 H1).
  intros i y s0 Hl HP. apply (Hstep (S i) y s0); auto.
Qed.

Lemma index_lt {A} (l : list A) i : (i < length l)%nat -> exists x, index l i = Ret x /\ l !! i = Some x.
Proof. intros H. unfold index. destruct (lookup_lt_is_Some_2 l i H) as [x Hx]. rewrite Hx. eauto. Qed.

(** ** Lemmas on machine integers *)

Lemma pos_trailing_zeros_pow2 (n : nat) p :
  Zpos p = 2 ^ Z.of_nat n -> pos_trailing_zeros p = n.
Proof.
  revert p; induction n as [|n IH]; intros p Hp.
  - simpl in Hp. injection Hp as ->. done.
  - rewrite Nat2Z.inj_succ, Z.pow_succ_r in Hp by lia.
    destruct p as [q|q|]; simpl; [lia| |lia].
    f_equal. apply IH. lia.
Qed.

Lemma trailing_zeros_pow2 (n : nat) : trailing_zeros (2 ^ Z.of_nat n) = n.
Proof.
  destruct (2 ^ Z.of_nat n) as [|p|p] eqn:E.
  - pose proof (Z.pow_pos_nonneg 2 (Z.of_nat n)); lia.
  - simpl. by apply pos_trailing_zeros_pow2.
  - pose proof (Z.pow_pos_nonneg 2 (Z.of_nat n)); lia.
Qed.

Lemma pow2_pos (n : nat) : 0 < 2 ^ Z.of_nat n.
Proof. apply Z.pow_pos_nonneg; lia. Qed.

Lemma pow2_S (n : nat) : 2 ^ Z.of_nat (S n) = 2 * 2 ^ Z.of_nat n.
Proof. rewrite Nat2Z.inj_succ, Z.pow_succ_r; lia. Qed.

Lemma pow2_mono (m n : nat) : (m <= n)%nat -> 2 ^ Z.of_nat m <= 2 ^ Z.of_nat n.
Proof. intros. apply Z.pow_le_mono_r; lia. Qed.

Lemma pow2_lt_inv (m n : nat) : 2 ^ Z.of_nat m < 2 ^ Z.of_nat n -> (m < n)%nat.
Proof.
  intros H. destruct (decide (n <= m)%nat) as [Hle|]; [|lia].
  pose proof (pow2_mono n m Hle). lia.
Qed.

(** ** Filters that keep all or nothing *)

Lemma filter_all {A} (P : A -> Prop) `{!forall x, Decision (P x)} (l : list A) : Forall P l -> filter P l = l.
Proof. induction 1 as [|x l Hx _ IH]; [done|]. by rewrite filter_cons_True, IH. Qed.

Lemma filter_none {A} (P : A -> Prop) `{!forall x, Decision (P x)} (l : list A) : Forall (fun x => ~ P x) l -> filter P l = [].
Proof. induction 1 as [|x l Hx _ IH]; [done|]. by rewrite filter_cons_False, IH. Qed.
