(* ===== verification/Compare.v ===== *)
(** * Comparisons

    [Ord::cmp] of the standard library: how tuples, slices and options are
    compared, and the laws that a comparison keeps.  The comparisons of the
    batches are in [Order]. *)

From S2P Require Import Prelude.

Local Open Scope Z_scope.

(** ** Comparisons *)

(** What [Ord] promises: the two directions agree, and the relation composes. *)
Class CmpLaws {A : Type} (cmp : A -> A -> comparison) : Prop := {
  cmp_opp : forall x y, cmp y x = CompOpp (cmp x y);
  cmp_trans : forall x y z r, cmp x y = r -> cmp y z = r -> cmp x z = r;
  cmp_eq_l : forall x y z, cmp x y = Eq -> cmp x z = cmp y z;
}.

(** [Ordering::then]: tuples are compared field by field. *)
Definition then_cmp (a b : comparison) : comparison := match a with Eq => b | _ => a end.

(** Slices and vectors are compared element by element. *)
Fixpoint list_cmp {A} (cmp : A -> A -> comparison) (xs ys : list A) : comparison :=
  match xs, ys with
  | [], [] => Eq
  | [], _ :: _ => Lt
  | _ :: _, [] => Gt
  | x :: xs, y :: ys => then_cmp (cmp x y) (list_cmp cmp xs ys)
  end.

(** [None] is less than [Some]. *)
Definition option_cmp {A} (cmp : A -> A -> comparison) (a b : option A) : comparison :=
  match a, b with
  | None, None => Eq
  | None, Some _ => Lt
  | Some _, None => Gt
  | Some x, Some y => cmp x y
  end.

(** Comparison by a projection. *)
Definition by_cmp {A B} (f : A -> B) (cmp : B -> B -> comparison) (x y : A) : comparison := cmp (f x) (f y).

Section laws.
Context {A : Type}.

Lemma cmp_refl (cmp : A -> A -> comparison) `{!CmpLaws cmp} x : cmp x x = Eq.
Proof. pose proof (cmp_opp x x) as H. by destruct (cmp x x). Qed.

Lemma cmp_eq_r (cmp : A -> A -> comparison) `{!CmpLaws cmp} x y z : cmp x y = Eq -> cmp z x = cmp z y.
Proof. intros H. rewrite (cmp_opp x z), (cmp_opp y z). f_equal. by apply cmp_eq_l. Qed.

#[export] Instance then_laws (c1 c2 : A -> A -> comparison) `{!CmpLaws c1} `{!CmpLaws c2} :
  CmpLaws (fun x y => then_cmp (c1 x y) (c2 x y)).
Proof.
  split.
  - intros x y. rewrite (cmp_opp (cmp := c1) x y), (cmp_opp (cmp := c2) x y). by destruct (c1 x y).
  - intros x y z r. destruct (c1 x y) eqn:E1; simpl.
    + rewrite (cmp_eq_l x y z E1). destruct (c1 y z); simpl; [apply cmp_trans|by intros <-|by intros <-].
    + intros <-. destruct (c1 y z) eqn:E2; simpl; try done; intros _.
      * by rewrite <- (cmp_eq_r c1 y z x E2), E1.
      * by rewrite (cmp_trans x y z Lt E1 E2).
    + intros <-. destruct (c1 y z) eqn:E2; simpl; try done; intros _.
      * by rewrite <- (cmp_eq_r c1 y z x E2), E1.
      * by rewrite (cmp_trans x y z Gt E1 E2).
  - intros x y z. destruct (c1 x y) eqn:E1; simpl; try done. intros E2.
    by rewrite (cmp_eq_l x y z E1), (cmp_eq_l x y z E2).
Qed.

#[export] Instance by_laws {B} (f : A -> B) (c : B -> B -> comparison) `{!CmpLaws c} : CmpLaws (by_cmp f c).
Proof.
  split; unfold by_cmp.
  - intros x y. apply cmp_opp.
  - intros x y z r. apply cmp_trans.
  - intros x y z. apply cmp_eq_l.
Qed.

#[export] Instance option_laws (c : A -> A -> comparison) `{!CmpLaws c} : CmpLaws (option_cmp c).
Proof.
  split.
  - intros [x|] [y|]; simpl; try done. apply cmp_opp.
  - intros [x|] [y|] [z|] r; simpl; try (by intros <-); try (by intros -> ); try apply cmp_trans; by intros <- ?.
  - intros [x|] [y|] [z|]; simpl; try done. apply cmp_eq_l.
Qed.
End laws.

#[export] Instance list_cmp_laws {A} (c : A -> A -> comparison) `{!CmpLaws c} : CmpLaws (list_cmp c).
Proof.
  split.
  - induction x as [|x xs IH]; intros [|y ys]; simpl; try done.
    rewrite (cmp_opp x y), IH. by destruct (c x y).
  - induction x as [|x xs IH]; intros [|y ys] [|z zs] r; simpl; try (by intros <-); try (by intros -> ); try (by intros <- ?).
    destruct (c x y) eqn:E1; simpl.
    + rewrite (cmp_eq_l x y z E1). destruct (c y z); simpl; [apply IH|by intros <-|by intros <-].
    + intros <-. destruct (c y z) eqn:E2; simpl; try done; intros _.
      * by rewrite <- (cmp_eq_r c y z x E2), E1.
      * by rewrite (cmp_trans x y z Lt E1 E2).
    + intros <-. destruct (c y z) eqn:E2; simpl; try done; intros _.
      * by rewrite <- (cmp_eq_r c y z x E2), E1.
      * by rewrite (cmp_trans x y z Gt E1 E2).
  - induction x as [|x xs IH]; intros [|y ys] [|z zs]; simpl; try done; destruct (c x y) eqn:E1; simpl; try done.
    intros E2. by rewrite (cmp_eq_l x y z E1), (IH ys zs E2).
Qed.

(** ** Plain data *)

#[export] Instance Z_cmp_laws : CmpLaws Z.compare.
Proof.
  split.
  - intros x y. apply Z.compare_antisym.
  - intros x y z []; rewrite ?Z.compare_eq_iff, ?Z.compare_lt_iff, ?Z.compare_gt_iff; lia.
  - intros x y z ->%Z.compare_eq_iff. done.
Qed.

#[export] Instance N_cmp_laws : CmpLaws N.compare.
Proof.
  split.
  - intros x y. apply N.compare_antisym.
  - intros x y z []; rewrite ?N.compare_eq_iff, ?N.compare_lt_iff, ?N.compare_gt_iff; lia.
  - intros x y z ->%N.compare_eq_iff. done.
Qed.

#[export] Instance nat_cmp_laws : CmpLaws Nat.compare.
Proof.
  split.
  - intros x y. apply Nat.compare_antisym.
  - intros x y z []; rewrite ?Nat.compare_eq_iff, ?Nat.compare_lt_iff, ?Nat.compare_gt_iff; lia.
  - intros x y z ->%Nat.compare_eq_iff. done.
Qed.

Ltac cmp_laws := repeat first [simple apply then_laws | simple apply by_laws | simple apply option_laws | simple apply list_cmp_laws | apply _].

(** ** Comparisons that tell equal from different *)

Class CmpEq {A : Type} (cmp : A -> A -> comparison) : Prop :=
  cmp_eq : forall x y, cmp x y = Eq -> x = y.

#[export] Instance Z_cmp_eq : CmpEq Z.compare.
Proof. intros x y. apply Z.compare_eq. Qed.
#[export] Instance N_cmp_eq : CmpEq N.compare.
Proof. intros x y. apply N.compare_eq_iff. Qed.
#[export] Instance nat_cmp_eq : CmpEq Nat.compare.
Proof. intros x y. apply Nat.compare_eq. Qed.

#[export] Instance option_cmp_eq {A} (c : A -> A -> comparison) `{!CmpEq c} : CmpEq (option_cmp c).
Proof. intros [x|] [y|]; simpl; try done. by intros ->%cmp_eq. Qed.

#[export] Instance list_cmp_eq {A} (c : A -> A -> comparison) `{!CmpEq c} : CmpEq (list_cmp c).
Proof.
  intros xs. induction xs as [|x xs IH]; intros [|y ys]; simpl; try done.
  destruct (c x y) eqn:E; simpl; try done. apply cmp_eq in E as ->. by intros ->%IH.
Qed.

#[export] Instance by_cmp_eq {A B} (f : A -> B) (c : B -> B -> comparison) `{!CmpEq c} `{!Inj (=) (=) f} : CmpEq (by_cmp f c).
Proof. intros x y E. by apply (inj f), cmp_eq. Qed.

(** A tuple is equal when its fields are. *)
Lemma then_cmp_Eq a b : then_cmp a b = Eq <-> a = Eq /\ b = Eq.
Proof. destruct a; simpl; naive_solver. Qed.
