(* ===== verification/Timely.v ===== *)
(** * Timestamps, antichains and batch descriptions

    [Antichain], [Lattice] and [Description] come from the timely and
    differential-dataflow crates, which are not part of this repository.
    The class [Timely] names the operations the persist code calls and
    [TimelyLaws] what it relies on: the order on frontiers is a partial
    order with the minimum time's frontier at the bottom and the empty
    antichain at the top, [join] and [meet] are its least upper and greatest
    lower bounds.  [TimelyTotal] adds the [TotalOrder] of the timestamps
    that Materialize uses. *)

From S2P Require Import Prelude.

Local Open Scope Z_scope.

Class Timely (T : Type) : Type := {
  Antichain : Type;
(** Antichains are compared as sets of times. *)
antichain_eqdec :: EqDecision Antichain;
(** [Antichain::new()]: no times at all. *)
antichain_new : Antichain;
(** [Antichain::from_elem] *)
from_elem : T -> Antichain;
(** [PartialOrder::less_equal] on frontiers. *)
less_equal : Antichain -> Antichain -> bool;
(** [Lattice::join] and [Lattice::meet] *)
fjoin : Antichain -> Antichain -> Antichain;
fmeet : Antichain -> Antichain -> Antichain;
(** [Timestamp::minimum] *)
minimum : T;
Description : Type;
description_eqdec :: EqDecision Description;
(** [Description::new(lower, upper, since)] and its accessors. *)
desc_new : Antichain -> Antichain -> Antichain -> Description;
d_lower : Description -> Antichain;
d_upper : Description -> Antichain;
d_since : Description -> Antichain;
}.
Arguments Antichain T {_}.
Arguments Description T {_}.

(** [PartialOrder::less_than] of timely. *)
Definition less_than {T} `{Timely T} (a b : Antichain T) : bool :=
  less_equal a b && negb (bool_decide (a = b)).

Definition min_frontier {T} `{Timely T} : Antichain T := from_elem minimum.

Class TimelyLaws (T : Type) `{Timely T} : Prop := {
  le_refl : forall a : Antichain T, less_equal a a = true;
  le_trans : forall a b c : Antichain T,
    less_equal a b = true -> less_equal b c = true -> less_equal a c = true;
  le_antisym : forall a b : Antichain T,
    less_equal a b = true -> less_equal b a = true -> a = b;
  le_min : forall a : Antichain T, less_equal min_frontier a = true;
  min_not_empty : min_frontier <> antichain_new (T := T);
  le_empty : forall a : Antichain T, less_equal a antichain_new = true;
  join_l : forall a b : Antichain T, less_equal a (fjoin a b) = true;
  join_r : forall a b : Antichain T, less_equal b (fjoin a b) = true;
  join_lub : forall a b c : Antichain T,
    less_equal a c = true -> less_equal b c = true -> less_equal (fjoin a b) c = true;
  meet_l : forall a b : Antichain T, less_equal (fmeet a b) a = true;
  meet_r : forall a b : Antichain T, less_equal (fmeet a b) b = true;
  meet_glb : forall a b c : Antichain T,
    less_equal c a = true -> less_equal c b = true -> less_equal c (fmeet a b) = true;
  lower_new : forall l u s : Antichain T, d_lower (desc_new l u s) = l;
  upper_new : forall l u s : Antichain T, d_upper (desc_new l u s) = u;
  since_new : forall l u s : Antichain T, d_since (desc_new l u s) = s;
  desc_eta : forall d : Description T, desc_new (d_lower d) (d_upper d) (d_since d) = d;
}.

Class TimelyTotal (T : Type) `{Timely T} : Prop :=
  le_total : forall a b : Antichain T, less_equal a b = true \/ less_equal b a = true.

Create HintDb timely.
Create Rewrite HintDb timely_rw.
#[export] Hint Resolve le_refl le_min le_empty join_l join_r join_lub meet_l meet_r meet_glb : timely.
#[export] Hint Rewrite @lower_new @upper_new @since_new using (typeclasses eauto) : timely_rw.

Section facts.
Context {T : Type} `{TimelyLaws T}.
Implicit Types a b c : Antichain T.

Lemma less_than_iff a b : less_than a b = true <-> less_equal a b = true /\ a <> b.
Proof.
  unfold less_than. rewrite andb_true_iff, negb_true_iff, bool_decide_eq_false. done.
Qed.

Lemma less_than_irrefl a : less_than a a = false.
Proof. unfold less_than. rewrite bool_decide_eq_true_2 by done. by rewrite andb_false_r. Qed.

Lemma less_than_le a b : less_than a b = true -> less_equal a b = true.
Proof. rewrite less_than_iff; tauto. Qed.

Lemma le_lt_trans a b c : less_equal a b = true -> less_than b c = true -> less_than a c = true.
Proof.
  rewrite !less_than_iff. intros Hab [Hbc Hne]. split; [eauto using le_trans|].
  intros ->. apply Hne, le_antisym; auto.
Qed.

Lemma lt_le_trans a b c : less_than a b = true -> less_equal b c = true -> less_than a c = true.
Proof.
  rewrite !less_than_iff. intros [Hab Hne] Hbc. split; [eauto using le_trans|].
  intros ->. apply Hne, le_antisym; auto.
Qed.

Lemma le_not_lt a b : less_equal a b = true -> less_than b a = false.
Proof.
  intros Hle. destruct (less_than b a) eqn:E; [|done]. pose proof (le_lt_trans _ _ _ Hle E) as Hx.
  by rewrite less_than_irrefl in Hx.
Qed.

Lemma lt_not_le a b : less_than a b = true -> less_equal b a = false.
Proof. intros Hlt. destruct (less_equal b a) eqn:E; [|done]. apply le_not_lt in E. congruence. Qed.

Lemma join_absorb a b : less_equal a b = true -> fjoin a b = b.
Proof. intros. apply le_antisym; auto with timely. Qed.

Lemma not_less_than `{!TimelyTotal T} a b : less_than a b = false -> less_equal b a = true.
Proof.
  intros Hn. destruct (le_total a b) as [Hle|]; [|done].
  destruct (decide (a = b)) as [->|Hne]; [apply le_refl|].
  assert (less_than a b = true) by (by apply less_than_iff). congruence.
Qed.
End facts.

(** ** The frontiers of a totally ordered 64-bit timestamp

    [mz_repr::Timestamp] is a [u64]; an antichain of totally ordered times
    has at most one element.  This instance is what the witnesses run. *)

#[export] Instance u64_timely : Timely N := {|
  Antichain := option N;
  antichain_new := None;
  from_elem := Some;
  less_equal a b :=
    match a, b with
    | _, None => true
    | None, Some _ => false
    | Some x, Some y => (x <=? y)%N
    end;
  fjoin a b := match a, b with Some x, Some y => Some (N.max x y) | _, _ => None end;
  fmeet a b := match a, b with Some x, Some y => Some (N.min x y) | None, y => y | x, None => x end;
  minimum := 0%N;
  Description := option N * option N * option N;
  desc_new l u s := (l, u, s);
  d_lower d := d.1.1;
  d_upper d := d.1.2;
  d_since d := d.2;
|}.

#[export] Instance u64_laws : TimelyLaws N.
Proof.
  split; intros; repeat match goal with a : Antichain N |- _ => destruct a as [?|] end;
    cbn in *; rewrite ?N.leb_le in *; try done; try lia; try (f_equal; lia).
  by destruct d as [[? ?] ?].
Qed.

#[export] Instance u64_total : TimelyTotal N.
Proof. intros [x|] [y|]; cbn; rewrite ?N.leb_le; auto; lia. Qed.
