(* ===== verification/BTree.v ===== *)
(** * Ordered maps

    [BTreeMap<K, V>] of the standard library: the list of its entries in
    ascending order of the keys. *)

From S2P Require Import Prelude.

Local Open Scope Z_scope.

(** The order of the keys. *)
Class KeyOrd (K : Type) : Type := {
  key_eqdec :: EqDecision K;
  key_ltb : K -> K -> bool;
  key_irrefl : forall k, key_ltb k k = false;
  key_trans : forall a b c, key_ltb a b = true -> key_ltb b c = true -> key_ltb a c = true;
  key_total : forall a b, key_ltb a b = false -> key_ltb b a = false -> a = b;
}.

#[export] Program Instance Z_keyord : KeyOrd Z := {| key_ltb := Z.ltb |}.
Next Obligation. apply Z.ltb_irrefl. Qed.
Next Obligation. intros a b c. rewrite !Z.ltb_lt. lia. Qed.
Next Obligation. intros a b. rewrite !Z.ltb_ge. lia. Qed.

Abbreviation BTreeMap K V := (list (K * V)).

Module BTree.
Section ops.
Context {K V : Type} `{KeyOrd K}.
Implicit Types (m : BTreeMap K V) (k : K) (v : V).

Fixpoint get k m : option V :=
  match m with
  | [] => None
  | (k', v) :: m' => if decide (k = k') then Some v else get k m'
  end.

Fixpoint insert k v m : BTreeMap K V :=
  match m with
  | [] => [(k, v)]
  | (k', v') :: m' =>
      if key_ltb k k' then (k, v) :: m
      else if key_ltb k' k then (k', v') :: insert k v m'
      else (k, v) :: m'
  end.

Definition remove k m : BTreeMap K V := filter (fun kv => kv.1 <> k) m.

Definition contains k m : bool := match get k m with Some _ => true | None => false end.
Definition keys m : list K := fst <$> m.
Definition values m : list V := snd <$> m.
Definition is_empty m : bool := match m with [] => true | _ => false end.
Definition first_key_value m : option (K * V) := head m.
Definition last_key_value m : option (K * V) := last m.
Definition retain (f : K -> V -> bool) m : BTreeMap K V := filter (fun kv => f kv.1 kv.2 = true) m.

(** [get_mut] followed by an update of the value. *)
Definition update k (f : V -> V) m : BTreeMap K V :=
  (fun kv : K * V => if decide (kv.1 = k) then (kv.1, f kv.2) else kv) <$> m.

(** Ascending keys. *)
Fixpoint sorted m : Prop :=
  match m with
  | [] => True
  | (k, _) :: m' => Forall (fun kv => key_ltb k kv.1 = true) m' /\ sorted m'
  end.
End ops.

Section facts.
Context {K V : Type} `{KeyOrd K}.
Implicit Types (m : BTreeMap K V) (k : K) (v : V).

Lemma get_insert_eq k v m : get k (insert k v m) = Some v.
Proof.
  induction m as [|[k' v'] m IH]; simpl; [by rewrite decide_True|].
  destruct (key_ltb k k') eqn:E1; simpl; [by rewrite decide_True|].
  destruct (key_ltb k' k) eqn:E2; simpl; [|by rewrite decide_True].
  rewrite decide_False; [done|]. intros ->. by rewrite key_irrefl in E2.
Qed.

Lemma get_insert_ne k k' v m : k <> k' -> get k (insert k' v m) = get k m.
Proof.
  intros Hne. induction m as [|[j w] m IH]; simpl; [by rewrite decide_False|].
  destruct (key_ltb k' j) eqn:E1; simpl; [by rewrite decide_False|].
  destruct (key_ltb j k') eqn:E2; simpl; [by rewrite IH|].
  rewrite decide_False by done. rewrite decide_False; [done|]. intros ->. by apply Hne, key_total.
Qed.

Lemma get_remove_eq k m : get k (remove k m) = None.
Proof.
  unfold remove. induction m as [|[j w] m IH]; [done|]. rewrite filter_cons. simpl.
  destruct (decide (j <> k)) as [Hj|Hj]; simpl; [by rewrite decide_False|done].
Qed.

Lemma get_remove_ne k k' m : k <> k' -> get k (remove k' m) = get k m.
Proof.
  intros Hne. unfold remove. induction m as [|[j w] m IH]; [done|]. rewrite filter_cons. simpl.
  destruct (decide (j <> k')) as [Hj|Hj]; simpl; [by rewrite IH|]. rewrite decide_False; [done|]. intros <-. by apply Hj.
Qed.

Lemma elem_of_insert kv k v m : kv ∈ insert k v m -> kv = (k, v) \/ kv ∈ m.
Proof.
  induction m as [|[j w] m IH]; simpl; [rewrite list_elem_of_singleton; tauto|].
  destruct (key_ltb k j); [rewrite elem_of_cons; tauto|].
  destruct (key_ltb j k); rewrite !elem_of_cons; [|tauto]. intros [->|?%IH]; tauto.
Qed.

Lemma elem_of_remove kv k m : kv ∈ remove k m <-> kv ∈ m /\ kv.1 <> k.
Proof. unfold remove. rewrite list_elem_of_filter. tauto. Qed.

Lemma elem_of_get k v m : get k m = Some v -> (k, v) ∈ m.
Proof.
  induction m as [|[j w] m IH]; simpl; [done|]. rewrite elem_of_cons.
  destruct (decide (k = j)) as [->|]; [intros [= ->]; by left|right; by apply IH].
Qed.

Lemma elem_of_update kv k f m :
  kv ∈ update k f m -> kv ∈ m \/ exists v, (k, v) ∈ m /\ kv = (k, f v).
Proof.
  unfold update. intros ([j w] & -> & Hin)%list_elem_of_fmap. simpl.
  destruct (decide (j = k)) as [->|]; [right; by exists w|by left].
Qed.

Lemma get_update_eq k f m : get k (update k f m) = f <$> get k m.
Proof.
  unfold update. induction m as [|[j w] m IH]; [done|]. rewrite fmap_cons. simpl.
  destruct (decide (j = k)) as [->|]; simpl; [by rewrite decide_True, decide_True|].
  rewrite !decide_False by congruence. exact IH.
Qed.

Lemma get_retain f k v m : get k m = Some v -> f k v = true -> get k (retain f m) = Some v.
Proof.
  unfold retain. induction m as [|[k' v'] m IH]; simpl; [done|]. destruct (decide (k = k')) as [<-|Hne].
  - intros [= ->] Hf. rewrite filter_cons_True by done. simpl. by rewrite decide_True.
  - intros Hg Hf. rewrite filter_cons. destruct (decide _); simpl; [rewrite decide_False by done|]; by apply IH.
Qed.

Lemma sorted_insert k v m : sorted m -> sorted (insert k v m).
Proof.
  induction m as [|[j w] m IH]; simpl; [done|]. intros [Hall Hs].
  destruct (key_ltb k j) eqn:E1; simpl.
  - split; [|done]. constructor; [done|]. eapply Forall_impl; [exact Hall|]. intros kv ?. by eapply key_trans.
  - destruct (key_ltb j k) eqn:E2; simpl.
    + split; [|by apply IH]. apply Forall_forall. intros kv [->|Hin]%elem_of_insert; [done|].
      rewrite Forall_forall in Hall. by apply Hall.
    + split; [|done]. by rewrite (key_total _ _ E1 E2).
Qed.

Lemma sorted_filter (P : K * V -> Prop) `{!forall x, Decision (P x)} m : sorted m -> sorted (filter P m).
Proof.
  induction m as [|[j w] m IH]; [done|]. intros [Hall Hs]. rewrite filter_cons. destruct (decide _); [|by apply IH].
  split; [|by apply IH]. apply Forall_forall. intros kv [_ Hin]%list_elem_of_filter. rewrite Forall_forall in Hall. by apply Hall.
Qed.

Lemma sorted_remove k m : sorted m -> sorted (remove k m).
Proof. apply sorted_filter. Qed.

(** A key above all others goes to the end. *)
Lemma insert_last k v m : Forall (fun kv => key_ltb kv.1 k = true) m -> insert k v m = m ++ [(k, v)].
Proof.
  induction 1 as [|[j w] m Hj _ IH]; [done|]. simpl in *. rewrite Hj, IH.
  destruct (key_ltb k j) eqn:E; [|done]. pose proof (key_trans _ _ _ E Hj) as Hk. by rewrite key_irrefl in Hk.
Qed.

(** The first entry has the least key. *)
Lemma sorted_first m k v : sorted m -> first_key_value m = Some (k, v) ->
  forall kv, kv ∈ m -> kv = (k, v) \/ key_ltb k kv.1 = true.
Proof.
  destruct m as [|[j w] m]; [done|]. intros [Hall _] [= -> ->] kv [->|Hin]%elem_of_cons; [by left|].
  right. rewrite Forall_forall in Hall. by apply Hall.
Qed.

Lemma get_keys k m : is_Some (get k m) <-> k ∈ keys m.
Proof.
  unfold keys. induction m as [|[j w] m IH]; simpl; [split; [by intros []|by intros ?%not_elem_of_nil]|].
  rewrite elem_of_cons, <- IH. destruct (decide (k = j)); [split; [by left|by eexists]|]. simpl. intuition congruence.
Qed.

Lemma contains_keys k m : contains k m = true <-> k ∈ keys m.
Proof. rewrite <- get_keys. unfold contains. destruct (get k m); split; done. Qed.

Lemma keys_insert k k' v m : k ∈ keys (insert k' v m) <-> k = k' \/ k ∈ keys m.
Proof.
  rewrite <- !get_keys. destruct (decide (k = k')) as [->|Hne].
  - rewrite get_insert_eq. split; [by left|by eexists].
  - rewrite get_insert_ne by done. tauto.
Qed.
End facts.
End BTree.
