(* ===== verification/Schema.v ===== *)
(** * Schema evolution (src/src/persist-types/src/schema.rs)

    When a shard's schema evolves, the data written with the old one is
    migrated on the way out.  [backward_compatible] decides whether a type may
    evolve into another and computes the migration; [Migrate] has the code
    that runs it.  Arrow's types are data here.  Field metadata is left out:
    nothing in the repository sets it. *)

From S2P Require Import Prelude.

Local Open Scope Z_scope.

(** An arrow [Field]. *)
Record FieldOf (D : Type) := mkField { f_name : string; f_type : D; f_nullable : bool }.
Arguments mkField {D}.
Arguments f_name {D}.
Arguments f_type {D}.
Arguments f_nullable {D}.

Inductive Primitive :=
| PBoolean | PInt8 | PInt16 | PInt32 | PInt64 | PUInt8 | PUInt16 | PUInt32 | PUInt64
| PFloat16 | PFloat32 | PFloat64 | PBinary | PUtf8 | PDate32 | PDate64 | PLargeBinary
| PBinaryView | PLargeUtf8 | PUtf8View.

#[export] Instance Primitive_eqdec : EqDecision Primitive.
Proof. solve_decision. Defined.

(** Arrow's [DataType].  [TUnused] stands for the types that [mz] does not
    use (timestamps, unions, dictionaries and so on). *)
Inductive DataType :=
| TNull
| TPrim (p : Primitive)
| TFixedSizeBinary (n : Z)
| TStruct (fields : list (FieldOf DataType))
| TList (f : FieldOf DataType)
| TMap (f : FieldOf DataType) (sorted : bool)
| TUnused (code : N).

Abbreviation Field := (FieldOf DataType).

(** ** Decidable equality *)

Fixpoint all2 {A} (f : A -> A -> bool) (xs ys : list A) : bool :=
  match xs, ys with
  | [], [] => true
  | x :: xs, y :: ys => f x y && all2 f xs ys
  | _, _ => false
  end.

Definition field_eqb (teq : DataType -> DataType -> bool) (a b : Field) : bool :=
  bool_decide (f_name a = f_name b) && teq (f_type a) (f_type b) && Bool.eqb (f_nullable a) (f_nullable b).

Fixpoint type_eqb (a b : DataType) {struct a} : bool :=
  match a, b with
  | TNull, TNull => true
  | TPrim p, TPrim q => bool_decide (p = q)
  | TFixedSizeBinary m, TFixedSizeBinary n => m =? n
  | TStruct fs, TStruct gs => all2 (field_eqb type_eqb) fs gs
  | TList f, TList g => field_eqb type_eqb f g
  | TMap f s, TMap g s' => field_eqb type_eqb f g && Bool.eqb s s'
  | TUnused m, TUnused n => (m =? n)%N
  | _, _ => false
  end.

Section type_ind.
Variable P : DataType -> Prop.
Hypothesis Hnull : P TNull.
Hypothesis Hprim : forall p, P (TPrim p).
Hypothesis Hfixed : forall n, P (TFixedSizeBinary n).
Hypothesis Hstruct : forall fs, Forall (fun f => P (f_type f)) fs -> P (TStruct fs).
Hypothesis Hlist : forall f, P (f_type f) -> P (TList f).
Hypothesis Hmap : forall f s, P (f_type f) -> P (TMap f s).
Hypothesis Hunused : forall n, P (TUnused n).

(** Induction that reaches the fields. *)
Fixpoint type_ind' (t : DataType) : P t :=
  match t with
  | TNull => Hnull
  | TPrim p => Hprim p
  | TFixedSizeBinary n => Hfixed n
  | TStruct fs =>
      Hstruct fs ((fix go (l : list Field) : Forall (fun f => P (f_type f)) l :=
                     match l with
                     | [] => Forall_nil_2 _
                     | f :: l' => Forall_cons_2 _ _ _ (type_ind' (f_type f)) (go l')
                     end) fs)
  | TList f => Hlist f (type_ind' (f_type f))
  | TMap f s => Hmap f s (type_ind' (f_type f))
  | TUnused n => Hunused n
  end.
End type_ind.

Lemma field_eqb_eq (a b : Field) :
  (forall t, type_eqb (f_type a) t = true <-> f_type a = t) ->
  field_eqb type_eqb a b = true <-> a = b.
Proof.
  intros Ht. unfold field_eqb. rewrite !andb_true_iff, bool_decide_eq_true, Ht, Bool.eqb_true_iff.
  destruct a, b; simpl. split; [intros [[-> ->] ->]; done|by intros [= -> -> ->]].
Qed.

Lemma type_eqb_eq (a b : DataType) : type_eqb a b = true <-> a = b.
Proof.
  revert b. induction a as [|p|n|fs IH|f IH|f s IH|n] using type_ind'; intros [|q|m|gs|g|g s'|m]; simpl; try done.
  - rewrite bool_decide_eq_true. split; congruence.
  - rewrite Z.eqb_eq. split; congruence.
  - assert (all2 (field_eqb type_eqb) fs gs = true <-> fs = gs) as ->; [|split; congruence].
    revert gs. induction IH as [|f fs Hf _ IHfs]; intros [|g gs]; simpl; try done.
    rewrite andb_true_iff, IHfs, field_eqb_eq by done. split; [by intros [-> ->]|by intros [= -> ->]].
  - rewrite field_eqb_eq by done. split; congruence.
  - rewrite andb_true_iff, field_eqb_eq, Bool.eqb_true_iff by done. split; [by intros [-> ->]|by intros [= -> ->]].
  - rewrite N.eqb_eq. split; congruence.
Qed.

#[export] Instance DataType_eqdec : EqDecision DataType.
Proof.
  intros a b. destruct (type_eqb a b) eqn:E.
  - left. by apply type_eqb_eq.
  - right. intros ->. assert (type_eqb b b = true) by by apply type_eqb_eq. congruence.
Defined.

#[export] Instance Field_eqdec : EqDecision Field.
Proof. solve_decision. Defined.

(** ** Migrations *)

(** The step on one field of a struct; [M] is the migration of its type. *)
Inductive StructArrayMigrationOf (M : Type) :=
| AddFieldNullableAtEnd (name : string) (typ : DataType)
| DropField (name : string)
| MakeNull (name : string)
| AlterFieldNullable (name : string)
| Recurse (name : string) (m : M).
Arguments AddFieldNullableAtEnd {M}.
Arguments DropField {M}.
Arguments MakeNull {M}.
Arguments AlterFieldNullable {M}.
Arguments Recurse {M}.

Inductive ArrayMigration :=
| NoOp
| MStruct (migrations : list (StructArrayMigrationOf ArrayMigration))
| MList (f : Field) (m : ArrayMigration).

Abbreviation StructArrayMigration := (StructArrayMigrationOf ArrayMigration).

(** [StructArrayMigration::contains_drop]; [contains_drop] is the call on the
    migration of the field's type. *)
Definition struct_contains_drop {M} (contains_drop : M -> bool) (m : StructArrayMigrationOf M) : bool :=
  match m with
  | AddFieldNullableAtEnd _ _ => false
  | DropField _ | MakeNull _ => true
  | AlterFieldNullable _ => false
  | Recurse _ m => contains_drop m
  end.

Fixpoint contains_drop (m : ArrayMigration) : bool :=
  match m with
  | NoOp => false
  | MStruct xs => existsb (struct_contains_drop contains_drop) xs
  | MList _ x => contains_drop x
  end.

(** [Migration::preserves_order] *)
Definition preserves_order (m : ArrayMigration) : bool := negb (contains_drop m).

(** Whether a migration only makes fields nullable: the closure on the steps
    of a struct, then the function. *)
Definition child_all_nullable {M} (recursively_all_nullable : M -> bool) (m : StructArrayMigrationOf M) : bool :=
  match m with
  | AddFieldNullableAtEnd _ _ | DropField _ | MakeNull _ => false
  | AlterFieldNullable _ => true
  | Recurse _ m => recursively_all_nullable m
  end.

Fixpoint recursively_all_nullable (m : ArrayMigration) : bool :=
  match m with
  | NoOp => true
  | MList _ child => recursively_all_nullable child
  | MStruct children => forallb (child_all_nullable recursively_all_nullable) children
  end.

(** [Fields::find]: the first field of a name and its index. *)
Definition fields_find (name : string) (fs : list Field) : option (nat * Field) :=
  list_find (fun f => f_name f = name) fs.

Definition is_struct (t : DataType) : bool := match t with TStruct _ => true | _ => false end.
Definition is_noop (m : ArrayMigration) : bool := match m with NoOp => true | _ => false end.
Definition is_list (t : DataType) : bool := match t with TList _ => true | _ => false end.

(** The loop over the new fields of [backward_compatible_struct]; [bc] is the
    recursive call. *)
Definition field_migrations (bc : DataType -> DataType -> outcome (option ArrayMigration)) (old : list Field) :
    list Field -> bool -> list StructArrayMigration -> outcome (option (list StructArrayMigration)) :=
  fix go ns added acc :=
    match ns with
    | [] => Ret (Some acc)
    | n :: ns' =>
        match fields_find (f_name n) old with
        | Some (_, o) =>
            if added then Ret None
            else if f_nullable o && negb (f_nullable n) then Ret None
            else if is_struct (f_type o) && f_nullable o && bool_decide (f_type n = TNull) then
              go ns' added (acc ++ [MakeNull (f_name n)])
            else
              let make_nullable := negb (f_nullable o) && f_nullable n in
              let! m := bc (f_type n) (f_type o) in
              match m with
              | None => Ret None
              | Some NoOp =>
                  if make_nullable then go ns' added (acc ++ [AlterFieldNullable (f_name n)])
                  else go ns' added acc
              | Some m =>
                  if make_nullable then
                    if recursively_all_nullable m
                    then go ns' added (acc ++ [AlterFieldNullable (f_name n); Recurse (f_name n) m])
                    else Ret None
                  else go ns' added (acc ++ [Recurse (f_name n) m])
              end
        | None =>
            if negb (f_nullable n) then Ret None
            else go ns' true (acc ++ [AddFieldNullableAtEnd (f_name n) (f_type n)])
        end
    end.

(** The fields of [old] that [new] lacks. *)
Definition dropped_fields (old new : list Field) : list StructArrayMigration :=
  omap (fun o => match fields_find (f_name o) new with
                 | None => Some (DropField (f_name o))
                 | Some _ => None
                 end) old.

Fixpoint windows_le (l : list nat) : bool :=
  match l with
  | i :: ((j :: _) as l') => (i <=? j)%nat && windows_le l'
  | _ => true
  end.

Definition same_order (old new : list Field) : bool :=
  windows_le (omap (fun n => fst <$> fields_find (f_name n) old) new).

Definition backward_compatible_struct (bc : DataType -> DataType -> outcome (option ArrayMigration))
    (old new : list Field) : outcome (option ArrayMigration) :=
  let! ms := field_migrations bc old new false [] in
  match ms with
  | None => Ret None
  | Some ms =>
      let ms := ms ++ dropped_fields old new in
      if negb (same_order old new) then Ret None
      else match ms with
           | [] => Ret (Some NoOp)
           | _ => Ret (Some (MStruct ms))
           end
  end.

(** The entries of list-like types. *)
Definition backward_compatible_list (bc : DataType -> DataType -> outcome (option ArrayMigration))
    (old_is_list : bool) (o n : Field) : outcome (option ArrayMigration) :=
  if f_nullable o && negb (f_nullable n) then Ret None
  else
    let! nested := bc (f_type n) (f_type o) in
    match nested with
    | None => Ret None
    | Some nested =>
        Ret (Some (if old_is_list && bool_decide (o = n) && is_noop nested then NoOp else MList n nested))
    end.

(** Recursion is on the new type; the types that are not used panic. *)
Fixpoint backward_compatible_typ (new old : DataType) {struct new} : outcome (option ArrayMigration) :=
  let same := if bool_decide (old = new) then Ret (Some NoOp) else Ret None in
  match old, new with
  | TNull, TStruct fields =>
      if forallb f_nullable fields
      then Ret (Some (MStruct ((fun f => AddFieldNullableAtEnd (f_name f) (f_type f)) <$> fields)))
      else same
  | TNull, _ | TPrim _, _ => same
  | TFixedSizeBinary o, TFixedSizeBinary n => Ret (if o =? n then Some NoOp else None)
  | TFixedSizeBinary _, _ => Ret None
  | TStruct o, TStruct n => backward_compatible_struct backward_compatible_typ o n
  | TStruct _, _ => Ret None
  | TList o, TList n => backward_compatible_list backward_compatible_typ true o n
  | TMap o _, TList n => backward_compatible_list backward_compatible_typ false o n
  | TList _, _ => Ret None
  | TMap o _, TMap n _ => Ret (if bool_decide (o = n) then Some NoOp else None)
  | TMap _ _, _ => Ret None
  | TUnused _, _ => Panic
  end.

Definition backward_compatible (old new : DataType) : outcome (option ArrayMigration) :=
  backward_compatible_typ new old.
