(* ===== verification/Paths.v ===== *)
(** * Blob keys (src/src/persist-client/src/internal/paths.rs)

    The textual keys under which persist stores batches and rollups in blob
    storage, and how they are parsed back.  Uuids are printed and parsed by
    the [uuid] crate and versions belong to the [semver] crate: both are
    parameters ([UuidCodec], [SemVer]). *)

From S2P Require Import Prelude.
From Stdlib Require Import Ascii.

Local Open Scope Z_scope.

(** Strings are their UTF-8 bytes. *)
Abbreviation str := (list ascii).
Abbreviation lit s := (String.list_ascii_of_string s%string).

(** The 16 bytes of a uuid, as a big-endian number. *)
Record Uuid := { uuid_bits : N; uuid_ok : (uuid_bits <? 2 ^ 128)%N = true }.

#[export] Instance Uuid_eqdec : EqDecision Uuid.
Proof.
  intros [a Ha] [b Hb]. destruct (decide (a = b)) as [->|Hn].
  - left. f_equal. apply Eqdep_dec.UIP_dec, bool_eq_dec.
  - right. congruence.
Defined.

Definition uuid_leb (a b : Uuid) : bool := (uuid_bits a <=? uuid_bits b)%N.

Class UuidCodec : Type := {
  (** [Uuid]'s [Display] and [Uuid::parse_str]. *)
  uuid_to_string : Uuid -> str;
  uuid_parse_str : str -> option Uuid;
}.

(** The hyphenated form parses back and has no ['/']. *)
Class UuidLaws `{UuidCodec} : Prop := {
  uuid_roundtrip : forall u : Uuid, uuid_parse_str (uuid_to_string u) = Some u;
  uuid_no_slash : forall u : Uuid, "/"%char ∉ uuid_to_string u;
}.

Class SemVer (Version : Type) : Type := {
  major : Version -> N;
  minor : Version -> N;
  patch : Version -> N;
  (** [PartialOrd] of [semver::Version], pre-releases included *)
  version_leb : Version -> Version -> bool;
  (** [cmp_precedence], which ignores build metadata: at most *)
  precedence_leb : Version -> Version -> bool;
}.

(** ** Formatting and parsing of the standard library *)

Definition digit (d : N) : ascii := ascii_of_N (48 + d).

(** [{}] on an unsigned integer; 20 digits are enough for a [u64]. *)
Fixpoint fmt_dec_aux (fuel : nat) (n : N) (acc : str) : str :=
  let acc' := digit (n mod 10) :: acc in
  match fuel with
  | O => acc'
  | S fuel' => if (n <? 10)%N then acc' else fmt_dec_aux fuel' (n / 10) acc'
  end.

Definition fmt_dec (n : N) : str := fmt_dec_aux 19 n [].

(** [{:0w}]: left-padded with zeros to width [w]. *)
Definition fmt_pad (w : nat) (n : N) : str :=
  let s := fmt_dec n in replicate (w - length s) "0"%char ++ s.

(** [u64::from_str]: an optional sign ['+'], then at least one digit, checked
    for overflow. *)
Definition parse_digit (c : ascii) : option N :=
  let v := N_of_ascii c in
  if ((48 <=? v) && (v <=? 57))%N then Some (v - 48)%N else None.

Fixpoint parse_digits (s : str) (acc : N) : option N :=
  match s with
  | [] => Some acc
  | c :: s' =>
      d ← parse_digit c;
      let acc' := (acc * 10 + d)%N in
      if (Z.of_N acc' <=? u64_max) then parse_digits s' acc' else None
  end.

Definition parse_u64 (s : str) : option N :=
  match s with
  | [] => None
  | c :: s' =>
      if bool_decide (c = "+"%char) then
        match s' with [] => None | _ => parse_digits s' 0 end
      else parse_digits s 0
  end.

(** [str::split_once(c)]. *)
Fixpoint split_once (c : ascii) (s : str) : option (str * str) :=
  match s with
  | [] => None
  | x :: s' =>
      if bool_decide (x = c) then Some ([], s')
      else '(a, b) ← split_once c s'; Some (x :: a, b)
  end.

(** [str::strip_prefix] for a one-character prefix. *)
Definition strip_prefix (c : ascii) (s : str) : option str :=
  match s with
  | x :: s' => if bool_decide (x = c) then Some s' else None
  | [] => None
  end.

Definition starts_with (c : ascii) (s : str) : bool :=
  match s with x :: _ => bool_decide (x = c) | [] => false end.

(** [String]'s [Ord]: lexicographic on bytes. *)
Fixpoint str_leb (a b : str) : bool :=
  match a, b with
  | [], _ => true
  | _ :: _, [] => false
  | x :: a', y :: b' =>
      if (N_of_ascii x <? N_of_ascii y)%N then true
      else if (N_of_ascii y <? N_of_ascii x)%N then false
      else str_leb a' b'
  end.

(** ** Identifiers *)

Record PartId := { part_uuid : Uuid }.
Record RollupId := { rollup_uuid : Uuid }.
Record WriterId := { writer_uuid : Uuid }.
Record ShardId := { shard_uuid : Uuid }.

Inductive WriterKey :=
| WKId (w : WriterId)
| WKVersion (v : str).

#[export] Instance ShardId_eqdec : EqDecision ShardId.
Proof. solve_decision. Defined.
#[export] Instance WriterId_eqdec : EqDecision WriterId.
Proof. solve_decision. Defined.

Inductive PartialBlobKey :=
| PBKBatch (w : WriterKey) (p : PartId)
| PBKRollup (s : N) (r : RollupId).

Section ids.
Context `{UuidCodec}.

(** [parse_id]: the errors carry only a message. *)
Definition parse_id (prefix : ascii) (encoded : str) : option Uuid :=
  uuid_encoded ← strip_prefix prefix encoded; uuid_parse_str uuid_encoded.

Definition PartId_fmt (p : PartId) : str := "p"%char :: uuid_to_string (part_uuid p).
Definition PartId_from_str (s : str) : option PartId := Build_PartId <$> parse_id "p" s.
Definition RollupId_fmt (r : RollupId) : str := "r"%char :: uuid_to_string (rollup_uuid r).
Definition RollupId_from_str (s : str) : option RollupId := Build_RollupId <$> parse_id "r" s.
Definition WriterId_fmt (w : WriterId) : str := "w"%char :: uuid_to_string (writer_uuid w).
Definition WriterId_from_str (s : str) : option WriterId := Build_WriterId <$> parse_id "w" s.
Definition ShardId_fmt (x : ShardId) : str := "s"%char :: uuid_to_string (shard_uuid x).
Definition ShardId_from_str (s : str) : option ShardId :=
  uuid_encoded ← strip_prefix "s" s; Build_ShardId <$> uuid_parse_str uuid_encoded.

(** A [SeqNo] prints as ['v'] and its number. *)
Definition SeqNo_fmt (n : N) : str := "v"%char :: fmt_dec n.
Definition SeqNo_from_str (s : str) : option N :=
  encoded ← strip_prefix "v" s; parse_u64 encoded.

Definition for_version {V} `{SemVer V} (v : V) : outcome WriterKey :=
  let! _ := assert_ (major v <=? 99)%N in
  let! _ := assert_ (minor v <=? 999)%N in
  let! _ := assert_ (patch v <=? 99)%N in
  Ret (WKVersion (fmt_pad 2 (major v) ++ fmt_pad 3 (minor v) ++ fmt_pad 2 (patch v))).

(** [&s[..1]] panics unless the first character is a single byte. *)
Definition WriterKey_from_str (s : str) : outcome (option WriterKey) :=
  match s with
  | [] => Ret None
  | c :: s' =>
      if (128 <=? N_of_ascii c)%N then Panic
      else if bool_decide (c = "w"%char) then Ret (WKId <$> WriterId_from_str s)
      else if bool_decide (c = "n"%char) then Ret (Some (WKVersion s'))
      else Ret None
  end.

Definition WriterKey_fmt (k : WriterKey) : str :=
  match k with
  | WKId w => WriterId_fmt w
  | WKVersion v => "n"%char :: v
  end.

(** The derived [Ord]: every [Id] is below every [Version]. *)
Definition WriterKey_leb (a b : WriterKey) : bool :=
  match a, b with
  | WKId x, WKId y => uuid_leb (writer_uuid x) (writer_uuid y)
  | WKId _, WKVersion _ => true
  | WKVersion _, WKId _ => false
  | WKVersion x, WKVersion y => str_leb x y
  end.

(** ** Keys *)

Definition split_batch_key (key : str) : outcome (option (WriterKey * PartId)) :=
  match split_once "/" key with
  | None => Ret None
  | Some (writer_key, part_id) =>
      let! wk := WriterKey_from_str writer_key in
      Ret (w ← wk; p ← PartId_from_str part_id; Some (w, p))
  end.

Definition PartialBatchKey_new (version : WriterKey) (part_id : PartId) : str :=
  WriterKey_fmt version ++ "/"%char :: PartId_fmt part_id.

Definition PartialBatchKey_split (key : str) : outcome (option (WriterKey * PartId)) :=
  split_batch_key key.

Definition PartialRollupKey_new (seqno : N) (rollup_id : RollupId) : str :=
  SeqNo_fmt seqno ++ "/"%char :: RollupId_fmt rollup_id.

(** [PartialBatchKey::complete] and [PartialRollupKey::complete]. *)
Definition complete_key (key : str) (shard_id : ShardId) : str :=
  ShardId_fmt shard_id ++ "/"%char :: key.

(** [BlobKey::parse_ids] *)
Definition parse_ids (key : str) : outcome (option (ShardId * PartialBlobKey)) :=
  match split_once "/" key with
  | None => Ret None
  | Some (shard, blob) =>
      match ShardId_from_str shard with
      | None => Ret None
      | Some shard_id =>
          if starts_with "w" blob || starts_with "n" blob then
            let! wp := split_batch_key blob in
            Ret ('(w, p) ← wp; Some (shard_id, PBKBatch w p))
          else
            Ret ('(seqno, rollup) ← split_once "/" blob;
                 s ← SeqNo_from_str seqno;
                 r ← RollupId_from_str rollup;
                 Some (shard_id, PBKRollup s r))
      end
  end.
End ids.

(** ** Theorems *)

#[local] Ltac Zify.zify_post_hook ::= Z.to_euclidean_division_equations.

(** [w] decimal digits of [n], most significant first. *)
Fixpoint dec_fixed (w : nat) (n : N) : str :=
  match w with
  | O => []
  | S w' => dec_fixed w' (n / 10) ++ [digit (n mod 10)]
  end.

Lemma N_of_digit d : (d < 10)%N -> N_of_ascii (digit d) = (48 + d)%N.
Proof. intros. unfold digit. apply N_ascii_embedding. lia. Qed.

Lemma div10_lt n w : (n < 10 ^ N.of_nat (S w))%N -> (n / 10 < 10 ^ N.of_nat w)%N.
Proof.
  intros H. apply N.Div0.div_lt_upper_bound.
  rewrite Nat2N.inj_succ, N.pow_succ_r in H by lia. lia.
Qed.

Lemma fmt_dec_aux_fixed fuel n acc :
  (n < 10 ^ N.of_nat (S fuel))%N ->
  exists w, (0 < w <= S fuel)%nat /\ (n < 10 ^ N.of_nat w)%N /\
    (w = 1%nat \/ (10 ^ N.of_nat (pred w) <= n)%N) /\
    fmt_dec_aux fuel n acc = dec_fixed w n ++ acc.
Proof.
  revert n acc; induction fuel as [|fuel IH]; intros n acc Hn.
  - exists 1%nat. split_and!; [lia|lia|exact Hn|by left|done].
  - cbn [fmt_dec_aux]. destruct (N.ltb_spec n 10).
    + exists 1%nat. split_and!; [lia|lia|simpl; lia|by left|done].
    + destruct (IH (n / 10)%N (digit (n mod 10) :: acc)) as (w & Hw & Hlt & Hmin & ->); [by apply div10_lt|].
      exists (S w). split_and!; [lia|lia| | |].
      * rewrite Nat2N.inj_succ, N.pow_succ_r by lia.
        pose proof (N.div_mod' n 10). pose proof (N.mod_lt n 10). lia.
      * right. simpl pred. destruct Hmin as [->|Hmin].
        -- simpl. lia.
        -- destruct w as [|w]; [lia|]. simpl pred in Hmin.
           rewrite Nat2N.inj_succ, N.pow_succ_r by lia.
           pose proof (N.div_mod' n 10). lia.
      * simpl. rewrite <- app_assoc. done.
Qed.

Lemma fmt_dec_fixed n :
  Z.of_N n <= u64_max ->
  exists w, (0 < w)%nat /\ (n < 10 ^ N.of_nat w)%N /\
    (w = 1%nat \/ (10 ^ N.of_nat (pred w) <= n)%N) /\ fmt_dec n = dec_fixed w n.
Proof.
  intros Hn. destruct (fmt_dec_aux_fixed 19 n []) as (w & Hw & Hlt & Hmin & He).
  - unfold u64_max in Hn. simpl in Hn. assert (10 ^ N.of_nat 20 = 100000000000000000000)%N as -> by reflexivity. lia.
  - exists w. rewrite app_nil_r in He. split_and!; auto; lia.
Qed.

Lemma dec_fixed_length w n : length (dec_fixed w n) = w.
Proof. revert n; induction w as [|w IH]; intros n; simpl; [done|]. rewrite length_app, IH. simpl. lia. Qed.

Lemma dec_fixed_zero w : dec_fixed w 0 = replicate w "0"%char.
Proof.
  induction w as [|w IH]; [done|]. cbn [dec_fixed]. change (0 / 10)%N with 0%N. rewrite IH.
  change (digit (0 mod 10)) with "0"%char. by rewrite <- replicate_S_end.
Qed.

Lemma dec_fixed_pad k w n :
  (k <= w)%nat -> (n < 10 ^ N.of_nat k)%N ->
  dec_fixed w n = replicate (w - k) "0"%char ++ dec_fixed k n.
Proof.
  revert w n; induction k as [|k IH]; intros w n Hk Hn.
  - assert (n = 0%N) as -> by (simpl in Hn; lia).
    rewrite dec_fixed_zero, Nat.sub_0_r. by rewrite app_nil_r.
  - destruct w as [|w]; [lia|]. cbn [dec_fixed].
    rewrite (IH w (n / 10)%N) by (auto using div10_lt; lia).
    by rewrite <- app_assoc.
Qed.

Lemma fmt_pad_fixed w n :
  (0 < w)%nat -> Z.of_N n <= u64_max -> (n < 10 ^ N.of_nat w)%N -> fmt_pad w n = dec_fixed w n.
Proof.
  intros Hw Hu Hn. destruct (fmt_dec_fixed n Hu) as (k & Hk & Hlt & Hmin & He).
  unfold fmt_pad. rewrite He, dec_fixed_length.
  assert (k <= w)%nat.
  { destruct Hmin as [->|Hmin]; [lia|].
    destruct (decide (k <= w)%nat); [done|].
    assert (10 ^ N.of_nat w <= 10 ^ N.of_nat (pred k))%N by (apply N.pow_le_mono_r; lia). lia. }
  symmetry. by apply dec_fixed_pad.
Qed.

Lemma parse_digits_app s1 s2 a :
  parse_digits (s1 ++ s2) a = (b ← parse_digits s1 a; parse_digits s2 b).
Proof.
  revert a; induction s1 as [|c s1 IH]; intros a; simpl; [done|].
  destruct (parse_digit c); simpl; [|done]. case_match; simpl; auto.
Qed.

Lemma parse_digit_digit d : (d < 10)%N -> parse_digit (digit d) = Some d.
Proof.
  intros. unfold parse_digit. rewrite N_of_digit by done.
  rewrite (proj2 (N.leb_le _ _)), (proj2 (N.leb_le _ _)) by lia. simpl. f_equal. lia.
Qed.

Lemma parse_digits_fixed w n a :
  (n < 10 ^ N.of_nat w)%N -> Z.of_N (a * 10 ^ N.of_nat w + n) <= u64_max ->
  parse_digits (dec_fixed w n) a = Some (a * 10 ^ N.of_nat w + n)%N.
Proof.
  revert n; induction w as [|w IH]; intros n Hn Hu; cbn [dec_fixed].
  - simpl in *. f_equal. lia.
  - pose proof (N.div_mod' n 10). pose proof (N.mod_lt n 10 ltac:(lia)).
    rewrite Nat2N.inj_succ, N.pow_succ_r in Hu |- * by lia.
    rewrite parse_digits_app, IH by (auto using div10_lt; nia). simpl.
    rewrite parse_digit_digit by done. simpl.
    rewrite (proj2 (Z.leb_le _ _)) by nia. f_equal. nia.
Qed.

Lemma dec_fixed_no w n c :
  (forall d, (d < 10)%N -> digit d <> c) -> c ∉ dec_fixed w n.
Proof.
  intros Hc. revert n; induction w as [|w IH]; intros n; simpl; [by apply not_elem_of_nil|].
  rewrite elem_of_app, list_elem_of_singleton. intros [?|Heq]; [by eapply IH|].
  symmetry in Heq. by apply Hc in Heq; [|apply N.mod_lt].
Qed.

Lemma digit_ne d c : (d < 10)%N -> (N_of_ascii c < 48)%N -> digit d <> c.
Proof. intros Hd Hc <-. rewrite N_of_digit in Hc by done. lia. Qed.

Lemma parse_fmt_u64 n : Z.of_N n <= u64_max -> parse_u64 (fmt_dec n) = Some n.
Proof.
  intros Hu. destruct (fmt_dec_fixed n Hu) as (w & Hw & Hlt & _ & ->).
  unfold parse_u64. destruct (dec_fixed w n) as [|c s] eqn:E.
  { apply (f_equal length) in E. rewrite dec_fixed_length in E. simpl in E. lia. }
  rewrite bool_decide_eq_false_2.
  - rewrite <- E, parse_digits_fixed; [f_equal; lia|done|lia].
  - intros ->. apply (dec_fixed_no w n "+"%char); [intros; by apply digit_ne|].
    rewrite E. by left.
Qed.

Lemma split_once_app c a b : c ∉ a -> split_once c (a ++ c :: b) = Some (a, b).
Proof.
  induction a as [|x a IH]; intros Hc; simpl.
  - by rewrite bool_decide_eq_true_2.
  - apply not_elem_of_cons in Hc as [Hx Ha].
    rewrite bool_decide_eq_false_2 by congruence. by rewrite IH.
Qed.

Lemma str_leb_fixed w a b s t :
  (a < 10 ^ N.of_nat w)%N -> (b < 10 ^ N.of_nat w)%N ->
  str_leb (dec_fixed w a ++ s) (dec_fixed w b ++ t) =
  if (a <? b)%N then true else if (b <? a)%N then false else str_leb s t.
Proof.
  revert a b s t; induction w as [|w IH]; intros a b s t Ha Hb; cbn [dec_fixed].
  - simpl in *. assert (a = 0%N) as -> by lia. assert (b = 0%N) as -> by lia. done.
  - rewrite <- !app_assoc, IH by auto using div10_lt. simpl.
    pose proof (N.div_mod' a 10). pose proof (N.mod_lt a 10 ltac:(lia)).
    pose proof (N.div_mod' b 10). pose proof (N.mod_lt b 10 ltac:(lia)).
    rewrite !N_of_digit by done.
    repeat match goal with |- context [(?x <? ?y)%N] => destruct (N.ltb_spec x y) end; try done; lia.
Qed.

Lemma str_leb_refl s : str_leb s s = true.
Proof. induction s as [|c s IH]; simpl; [done|]. by rewrite N.ltb_irrefl. Qed.

Section theorems.
Context `{UuidLaws}.

Lemma fmt_id_no_slash c (u : Uuid) : c <> "/"%char -> "/"%char ∉ (c :: uuid_to_string u).
Proof. intros Hc. apply not_elem_of_cons. split; [congruence|apply uuid_no_slash]. Qed.

Lemma parse_id_fmt c (u : Uuid) : parse_id c (c :: uuid_to_string u) = Some u.
Proof. unfold parse_id. simpl. rewrite bool_decide_eq_true_2 by done. simpl. apply uuid_roundtrip. Qed.

Lemma ShardId_roundtrip (x : ShardId) : ShardId_from_str (ShardId_fmt x) = Some x.
Proof. unfold ShardId_from_str, ShardId_fmt. simpl. rewrite uuid_roundtrip. by destruct x. Qed.

(** A writer key that batches can be filed under: its text has no ['/']. *)
Definition writer_key_ok (k : WriterKey) : Prop :=
  match k with WKId _ => True | WKVersion v => "/"%char ∉ v end.

Lemma WriterKey_no_slash k : writer_key_ok k -> "/"%char ∉ WriterKey_fmt k.
Proof.
  destruct k as [w|v]; simpl; intros Hk; [by apply fmt_id_no_slash|].
  apply not_elem_of_cons. by split.
Qed.

Lemma WriterKey_roundtrip k : WriterKey_from_str (WriterKey_fmt k) = Ret (Some k).
Proof.
  destruct k as [[u]|v]; [|done]. unfold WriterKey_from_str, WriterKey_fmt, WriterId_fmt, WriterId_from_str.
  cbn [writer_uuid N_of_ascii]. simpl. by rewrite parse_id_fmt.
Qed.

Lemma split_batch_key_new k p :
  writer_key_ok k -> split_batch_key (PartialBatchKey_new k p) = Ret (Some (k, p)).
Proof.
  intros Hk. unfold split_batch_key, PartialBatchKey_new.
  rewrite split_once_app by (by apply WriterKey_no_slash).
  rewrite WriterKey_roundtrip. simpl. unfold PartId_from_str, PartId_fmt. rewrite parse_id_fmt. by destruct p.
Qed.

(** C36: the batch key written for a writer and a part, completed with a shard,
    parses back to exactly these three ids. *)
Theorem batch_key_roundtrip (k : WriterKey) (p : PartId) (x : ShardId) :
  writer_key_ok k ->
  parse_ids (complete_key (PartialBatchKey_new k p) x) = Ret (Some (x, PBKBatch k p)).
Proof.
  intros Hk. unfold parse_ids, complete_key.
  rewrite split_once_app by (by apply fmt_id_no_slash).
  rewrite ShardId_roundtrip.
  assert (starts_with "w" (PartialBatchKey_new k p) || starts_with "n" (PartialBatchKey_new k p) = true) as ->
    by (by destruct k).
  by rewrite split_batch_key_new.
Qed.

Lemma parse_rollup_key (n : N) (r : RollupId) (x : ShardId) :
  Z.of_N n <= u64_max ->
  parse_ids (complete_key (PartialRollupKey_new n r) x) = Ret (Some (x, PBKRollup n r)).
Proof.
  intros Hn. unfold parse_ids, complete_key.
  rewrite split_once_app by (by apply fmt_id_no_slash).
  rewrite ShardId_roundtrip. unfold PartialRollupKey_new.
  change (starts_with _ _ || _) with false. cbn match.
  rewrite split_once_app.
  - unfold SeqNo_fmt, SeqNo_from_str. simpl. rewrite parse_fmt_u64 by done. simpl.
    unfold RollupId_from_str, RollupId_fmt. rewrite parse_id_fmt. by destruct r.
  - unfold SeqNo_fmt. destruct (fmt_dec_fixed n Hn) as (w & _ & _ & _ & ->).
    apply not_elem_of_cons. split; [done|]. apply dec_fixed_no. intros. by apply digit_ne.
Qed.

(** The rollup key written for a sequence number and a rollup id,
    completed with a shard, parses back to exactly these, for every 64-bit
    sequence number. *)
Theorem rollup_key_roundtrip (n : N) (r : RollupId) (x : ShardId) :
  Z.of_N n <= u64_max ->
  parse_ids (complete_key (PartialRollupKey_new n r) x) = Ret (Some (x, PBKRollup n r)).
Proof. apply parse_rollup_key. Qed.
End theorems.

(** The precedence of [semver] on release numbers: major, minor, patch. *)
Definition version_le {V} `{SemVer V} (a b : V) : Prop :=
  (major a < major b)%N \/ major a = major b /\
  ((minor a < minor b)%N \/ minor a = minor b /\ (patch a <= patch b)%N).

(** The writer keys of versions are ordered as the versions are, because
    their numbers are padded to fixed widths; [for_version] asserts that the
    numbers fit. *)
Theorem for_version_monotone {V} `{SemVer V} (a b : V) (ka kb : WriterKey) :
  for_version a = Ret ka -> for_version b = Ret kb -> version_le a b ->
  WriterKey_leb ka kb = true.
Proof.
  unfold for_version, assert_. intros Ha Hb Hle.
  repeat match type of Ha with context [(?x <=? ?y)%N] => destruct (N.leb_spec x y); simpl in Ha; [|done] end.
  repeat match type of Hb with context [(?x <=? ?y)%N] => destruct (N.leb_spec x y); simpl in Hb; [|done] end.
  injection Ha as <-. injection Hb as <-. simpl.
  rewrite !fmt_pad_fixed; try (unfold u64_max; simpl; lia).
  rewrite str_leb_fixed by (simpl; lia).
  rewrite str_leb_fixed by (simpl; lia).
  rewrite <- (app_nil_r (dec_fixed 2 (patch a))), <- (app_nil_r (dec_fixed 2 (patch b))).
  rewrite str_leb_fixed by (simpl; lia).
  unfold version_le in Hle.
  repeat match goal with |- context [(?x <? ?y)%N] => destruct (N.ltb_spec x y) end; try done; lia.
Qed.
