(* ===== verification/Consensus.v ===== *)
(** * Consensus (src/src/persist/src/location.rs, mem.rs)

    The [Consensus] trait as a class: the operations, and the log of versions
    that its documentation describes; [MemConsensus], the implementation in
    memory, as an instance.  Clients are verified against the class. *)

From stdpp Require Import gmap.
From S2P Require Import Prelude Paths.

Local Open Scope Z_scope.

(** [VersionedData]; the payload is opaque to consensus. *)
Record VersionedData (P : Type) := { vd_seqno : Z; vd_data : P }.
Arguments vd_seqno {P}.
Arguments vd_data {P}.

Inductive CaSResult := Committed | ExpectationMismatch.

(** [SeqNo::previous] *)
Definition SeqNo_previous (s : Z) : option Z := if s =? 0 then None else Some (s - 1).

Definition i64_max : Z := 2 ^ 63 - 1.

(** The limit of a scan for all versions. *)
Definition SCAN_ALL : Z := i64_max.

(** Consecutive sequence numbers from [n] on. *)
Fixpoint consecutive {P} (n : Z) (log : list (VersionedData P)) : Prop :=
  match log with
  | [] => True
  | v :: log' => vd_seqno v = n /\ consecutive (n + 1) log'
  end.

(** A log of versions: consecutive sequence numbers that start at zero or,
    after a truncation, later. *)
Definition log_ok {P} (log : list (VersionedData P)) : Prop := exists n, 0 <= n /\ consecutive n log.

Section logs.
Context {P : Type}.
Implicit Types (v : VersionedData P) (log : list (VersionedData P)) (n : Z).

Lemma consecutive_app n log1 log2 :
  consecutive n (log1 ++ log2) <-> consecutive n log1 /\ consecutive (n + Z.of_nat (length log1)) log2.
Proof.
  revert n. induction log1 as [|v log1 IH]; intros n; simpl; [by rewrite Z.add_0_r; split; [|intros []]|].
  rewrite IH. replace (n + Z.of_nat (S (length log1))) with (n + 1 + Z.of_nat (length log1)) by lia. tauto.
Qed.

Lemma consecutive_lookup n log i v : consecutive n log -> log !! i = Some v -> vd_seqno v = n + Z.of_nat i.
Proof.
  revert n i. induction log as [|w log IH]; intros n i; simpl; [done|]. intros [<- Hc].
  destruct i as [|i]; simpl; [intros [= ->]; lia|]. intros Hi. rewrite (IH _ _ Hc Hi). lia.
Qed.

(** Versions below a bound come first. *)
Lemma consecutive_split n log (s : Z) : consecutive n log ->
  exists k, filter (fun v => s <= vd_seqno v) log = drop k log /\
    Forall (fun v => vd_seqno v < s) (take k log) /\ Forall (fun v => s <= vd_seqno v) (drop k log).
Proof.
  revert n. induction log as [|v log IH]; intros n; simpl; [exists O; repeat constructor|]. intros [Hv Hc].
  destruct (Z.leb_spec s (vd_seqno v)) as [Hle|Hlt].
  - exists O. simpl. assert (Hall : Forall (fun w => s <= vd_seqno w) (v :: log)).
    { constructor; [done|]. apply Forall_forall. intros w [i Hi]%list_elem_of_lookup_1.
      rewrite (consecutive_lookup _ _ _ _ Hc Hi). lia. }
    split_and!; [by apply filter_all|constructor|done].
  - destruct (IH _ Hc) as (k & Hf & Ht & Hd). exists (S k). rewrite filter_cons_False by lia. simpl.
    split_and!; try done. by constructor.
Qed.
End logs.

(** ** The contract *)

Class Consensus (P : Type) : Type := {
  cs_store : Type;
  cs_empty : cs_store;
  cs_head : cs_store -> str -> option (VersionedData P);
  cs_compare_and_set : cs_store -> str -> VersionedData P -> cs_store * result CaSResult unit;
  cs_scan : cs_store -> str -> Z -> Z -> list (VersionedData P);
  cs_truncate : cs_store -> str -> Z -> cs_store * result (option nat) unit;
  (** the versions that are stored under a key *)
  cs_log : cs_store -> str -> list (VersionedData P);
}.

Class ConsensusLaws (P : Type) `{Consensus P} : Prop := {
  cs_log_empty : forall key, cs_log cs_empty key = [];
  cs_head_log : forall s key, cs_head s key = last (cs_log s key);
  (** a version goes to the end of the log, if it is the next one *)
  cs_cas_ok : forall s key (new : VersionedData P), 0 <= vd_seqno new <= i64_max ->
    SeqNo_previous (vd_seqno new) = vd_seqno <$> last (cs_log s key) ->
    exists s', cs_compare_and_set s key new = (s', Ok Committed) /\
      cs_log s' key = cs_log s key ++ [new] /\ forall key', key' <> key -> cs_log s' key' = cs_log s key';
  cs_cas_mismatch : forall s key (new : VersionedData P), 0 <= vd_seqno new <= i64_max ->
    SeqNo_previous (vd_seqno new) <> vd_seqno <$> last (cs_log s key) ->
    cs_compare_and_set s key new = (s, Ok ExpectationMismatch);
  cs_cas_range : forall s key (new : VersionedData P), i64_max < vd_seqno new ->
    cs_compare_and_set s key new = (s, Err tt);
  (** in ascending order, from a sequence number on *)
  cs_scan_log : forall s key from limit, log_ok (cs_log s key) -> 0 <= limit ->
    cs_scan s key from limit = take (Z.to_nat limit) (filter (fun v => from <= vd_seqno v) (cs_log s key));
  (** what is older goes away, if the head is not *)
  cs_truncate_ok : forall s key seqno v, last (cs_log s key) = Some v -> seqno <= vd_seqno v ->
    exists s' n, cs_truncate s key seqno = (s', Ok (Some n)) /\
      cs_log s' key = filter (fun v => seqno <= vd_seqno v) (cs_log s key) /\
      (n + length (cs_log s' key) = length (cs_log s key))%nat /\
      forall key', key' <> key -> cs_log s' key' = cs_log s key';
  cs_truncate_high : forall s key seqno,
    match last (cs_log s key) with Some v => vd_seqno v < seqno | None => True end ->
    cs_truncate s key seqno = (s, Err tt);
}.

(** ** The implementation in memory *)

Module MemConsensus.
(** The [BTreeMap] under the mutex; an operation holds the lock. *)
Abbreviation store P := (gmap str (list (VersionedData P))).

Section ops.
Context {P : Type}.
Implicit Types (s : store P) (key : str).

Definition default : store P := ∅.

(** [slice::partition_point]: the length of the first part of a slice on
    which the predicate is true first and then false. *)
Fixpoint partition_point {A} (p : A -> bool) (l : list A) : nat :=
  match l with
  | [] => O
  | x :: l' => if p x then S (partition_point p l') else O
  end.

Definition scan_store s key (from limit : Z) : list (VersionedData P) :=
  match s !! key with
  | Some values =>
      let from_idx := partition_point (fun x => vd_seqno x <? from) values in
      let from_values := drop from_idx values in
      take (Z.to_nat (Z.min limit (Z.of_nat (length from_values)))) from_values
  | None => []
  end.

Definition head s key : option (VersionedData P) :=
  match s !! key with
  | None => None
  | Some values => last values
  end.

Definition compare_and_set s key (new : VersionedData P) : store P * result CaSResult unit :=
  let expected := SeqNo_previous (vd_seqno new) in
  if i64_max <? vd_seqno new then (s, Err tt)
  else
    let data := match s !! key with None => None | Some values => last values end in
    let seqno := vd_seqno <$> data in
    if negb (bool_decide (seqno = expected)) then (s, Ok ExpectationMismatch)
    else (<[key := option.default [] (s !! key) ++ [new]]> s, Ok Committed).

(** The head is read before the lock is taken for the deletion; [s0] is the
    store at that time. *)
Definition truncate_from s0 s key (seqno : Z) : store P * result (option nat) unit :=
  if match head s0 key with Some data => vd_seqno data <? seqno | None => true end then (s, Err tt)
  else match s !! key with
       | Some values =>
           let kept := filter (fun val => seqno <= vd_seqno val) values in
           (<[key := kept]> s, Ok (Some (length values - length kept)%nat))
       | None => (s, Ok (Some O))
       end.

Definition truncate s key (seqno : Z) : store P * result (option nat) unit := truncate_from s s key seqno.

Definition log s key : list (VersionedData P) := option.default [] (s !! key).
End ops.
End MemConsensus.

#[export] Instance mem_consensus (P : Type) : Consensus P := {|
  cs_store := MemConsensus.store P;
  cs_empty := MemConsensus.default;
  cs_head := MemConsensus.head;
  cs_compare_and_set := MemConsensus.compare_and_set;
  cs_scan := MemConsensus.scan_store;
  cs_truncate := MemConsensus.truncate;
  cs_log := MemConsensus.log;
|}.

Section mem.
Context {P : Type}.
Implicit Types (s : MemConsensus.store P) (key : str).

Lemma partition_point_app {A} (p : A -> bool) (l1 l2 : list A) : Forall (fun x => p x = true) l1 -> Forall (fun x => p x = false) l2 ->
  take (MemConsensus.partition_point p (l1 ++ l2)) (l1 ++ l2) = l1.
Proof.
  intros Hl1 Hl2. induction Hl1 as [|x l1 Hx _ IH]; simpl; [|by rewrite Hx; simpl; f_equal].
  destruct Hl2 as [|y l2 Hy _]; simpl; [done|]. by rewrite Hy.
Qed.

Lemma partition_point_drop (log : list (VersionedData P)) n from : consecutive n log ->
  drop (MemConsensus.partition_point (fun x => vd_seqno x <? from) log) log = filter (fun v => from <= vd_seqno v) log.
Proof.
  revert n. induction log as [|v log IH]; intros n; simpl; [done|]. intros [Hv Hc].
  destruct (Z.ltb_spec (vd_seqno v) from) as [Hlt|Hge].
  - rewrite filter_cons_False by lia. simpl. by eapply IH.
  - simpl. symmetry. apply filter_all. constructor; [done|]. apply Forall_forall.
    intros w [i Hi]%list_elem_of_lookup_1. rewrite (consecutive_lookup _ _ _ _ Hc Hi). lia.
Qed.

Lemma mem_head s key : MemConsensus.head s key = last (MemConsensus.log s key).
Proof. unfold MemConsensus.head, MemConsensus.log. by destruct (s !! key). Qed.

Lemma mem_last s key : (match s !! key with None => None | Some values => last values end) = last (MemConsensus.log s key).
Proof. unfold MemConsensus.log. by destruct (s !! key). Qed.

Lemma mem_scan s key from limit : log_ok (MemConsensus.log s key) -> 0 <= limit ->
  MemConsensus.scan_store s key from limit = take (Z.to_nat limit) (filter (fun v => from <= vd_seqno v) (MemConsensus.log s key)).
Proof.
  intros (n & _ & Hc) Hl. unfold MemConsensus.scan_store, MemConsensus.log in *.
  destruct (s !! key) as [values|]; simpl in *; [|by rewrite filter_nil, take_nil].
  rewrite (partition_point_drop _ n) by done. set (l := filter _ _).
  destruct (Z.le_gt_cases limit (Z.of_nat (length l))); [by rewrite Z.min_l|].
  rewrite Z.min_r, Nat2Z.id, !take_ge by lia. done.
Qed.

Lemma mem_truncate s key seqno v : last (MemConsensus.log s key) = Some v -> seqno <= vd_seqno v ->
  exists s' n, MemConsensus.truncate s key seqno = (s', Ok (Some n)) /\
    MemConsensus.log s' key = filter (fun v => seqno <= vd_seqno v) (MemConsensus.log s key) /\
    (n + length (MemConsensus.log s' key) = length (MemConsensus.log s key))%nat /\
    forall key', key' <> key -> MemConsensus.log s' key' = MemConsensus.log s key'.
Proof.
  intros Hl Hle. unfold MemConsensus.truncate, MemConsensus.truncate_from. rewrite mem_head, Hl.
  destruct (Z.ltb_spec (vd_seqno v) seqno); [lia|]. unfold MemConsensus.log in *.
  destruct (s !! key) as [values|] eqn:E; [|done]. simpl. eexists _, _. split; [done|].
  rewrite lookup_insert_eq. simpl. split_and!; [done| |].
  - pose proof (length_filter (fun v => seqno <= vd_seqno v) values). lia.
  - intros key' Hne. by rewrite lookup_insert_ne.
Qed.
End mem.

#[export] Instance mem_consensus_laws (P : Type) : ConsensusLaws P.
Proof.
  split; simpl.
  - done.
  - apply mem_head.
  - intros s key new Hr He. unfold MemConsensus.compare_and_set. rewrite mem_last.
    destruct (Z.ltb_spec i64_max (vd_seqno new)); [lia|]. rewrite bool_decide_eq_true_2 by done. simpl.
    eexists. split; [done|]. unfold MemConsensus.log. rewrite lookup_insert_eq. split; [done|].
    intros key' Hne. by rewrite lookup_insert_ne.
  - intros s key new Hr He. unfold MemConsensus.compare_and_set. rewrite mem_last.
    destruct (Z.ltb_spec i64_max (vd_seqno new)); [lia|]. by rewrite bool_decide_eq_false_2.
  - intros s key new Hr. unfold MemConsensus.compare_and_set. by destruct (Z.ltb_spec i64_max (vd_seqno new)); [|lia].
  - apply mem_scan.
  - apply mem_truncate.
  - intros s key seqno Hl. unfold MemConsensus.truncate, MemConsensus.truncate_from. rewrite mem_head.
    destruct (last _); [|done]. by destruct (Z.ltb_spec (vd_seqno v) seqno); [|lia].
Qed.

(** *** Logs stay logs *)

Section keep.
Context {P : Type} `{ConsensusLaws P}.
Implicit Types (s : cs_store) (key : str).

Lemma log_append (log : list (VersionedData P)) new : log_ok log -> 0 <= vd_seqno new ->
  SeqNo_previous (vd_seqno new) = vd_seqno <$> last log -> log_ok (log ++ [new]).
Proof.
  intros (n & Hn & Hc) Hv Hp. unfold SeqNo_previous in Hp. destruct (last log) as [v|] eqn:El.
  - exists n. split; [done|]. apply consecutive_app. split; [done|]. split; [|done].
    destruct (Z.eqb_spec (vd_seqno new) 0); [done|]. injection Hp as Hp.
    rewrite last_lookup in El. rewrite (consecutive_lookup _ _ _ _ Hc El) in Hp. apply lookup_lt_Some in El. lia.
  - apply last_None in El as ->. exists (vd_seqno new). by repeat split.
Qed.

Lemma log_truncate (log : list (VersionedData P)) (n0 : Z) : log_ok log -> log_ok (filter (fun v => n0 <= vd_seqno v) log).
Proof.
  intros (n & Hn & Hc). destruct (consecutive_split n log n0 Hc) as (k & -> & _ & _).
  rewrite <- (take_drop k log) in Hc. apply consecutive_app in Hc as [_ Hc]. eexists. split; [|exact Hc]. lia.
Qed.

Lemma cas_keeps_log s key (new : VersionedData P) s' r : log_ok (cs_log s key) -> 0 <= vd_seqno new ->
  cs_compare_and_set s key new = (s', r) -> log_ok (cs_log s' key).
Proof.
  intros Hl Hv He. destruct (Z.ltb_spec i64_max (vd_seqno new)) as [Hb|Hb].
  { rewrite cs_cas_range in He by done. by injection He as <- _. }
  destruct (decide (SeqNo_previous (vd_seqno new) = vd_seqno <$> last (cs_log s key))) as [E|E].
  - destruct (cs_cas_ok s key new) as (s1 & Hs1 & Hlog & _); [lia|done|]. rewrite Hs1 in He. injection He as <- _.
    rewrite Hlog. by apply log_append.
  - rewrite cs_cas_mismatch in He by done. by injection He as <- _.
Qed.

Lemma truncate_keeps_log s key seqno s' r : log_ok (cs_log s key) ->
  cs_truncate s key seqno = (s', r) -> log_ok (cs_log s' key) /\ cs_head s' key = cs_head s key.
Proof.
  intros Hl He. rewrite !cs_head_log. destruct (last (cs_log s key)) as [v|] eqn:El.
  - destruct (Z.ltb_spec (vd_seqno v) seqno) as [Hlt|Hge].
    { rewrite cs_truncate_high in He by by rewrite El. by injection He as <- _. }
    destruct (cs_truncate_ok s key seqno v El Hge) as (s1 & n & Hs1 & Hlog & _). rewrite Hs1 in He. injection He as <- _.
    rewrite Hlog. split; [by apply log_truncate|]. apply last_Some in El as [l El]. rewrite El, filter_app.
    rewrite (filter_cons_True _ v), filter_nil by done. by rewrite !last_snoc.
  - rewrite cs_truncate_high in He by by rewrite El. by injection He as <- _.
Qed.
End keep.
