(* ===== verification/Batch.v ===== *)
(** * Hollow batches (src/src/persist-client/src/internal/state.rs)

    A [HollowBatch] is a batch of updates whose data lives in blob storage:
    a description of its times, a number of updates, and parts grouped into
    runs.  The encoded payloads (statistics, key bounds, inline updates) are
    kept as the bytes the source keeps; what decodes them (prost, arrow, the
    diff codec) is the parameter [PartCodec]. *)

From S2P Require Import Prelude Timely Paths.
From Stdlib Require Import Ascii.
From Stdlib.Strings Require Import Byte.

Local Open Scope Z_scope.

Abbreviation Bytes := (list Byte.byte).

#[export] Instance byte_eqdec : EqDecision Byte.byte := Byte.byte_eq_dec.

Record SchemaId := { schema_id_num : N }.
Record RunId := { run_uuid : Uuid }.

#[export] Instance SchemaId_eqdec : EqDecision SchemaId.
Proof. solve_decision. Defined.
#[export] Instance RunId_eqdec : EqDecision RunId.
Proof. solve_decision. Defined.

(** [MetadataMap]: well-known names to protobuf-encoded values. *)
Abbreviation MetadataMap := (gmap string Bytes).

(** Decoders of the payload bytes: the value of a metadata flag ([prost]),
    and the contents of an inline part. *)
Class PartCodec (D : Type) : Type := {
(** [bool]'s protobuf wrapper; [None] is a decode error. *)
decode_bool : Bytes -> option bool;
encode_bool : bool -> Bytes;
(** The diff type: [Monoid] of differential and [Codec64::decode]. *)
diff_eqdec :: EqDecision D;
diff_zero : D;
diff_plus : D -> D -> D;
diff_decode : Bytes -> D;
(** [LazyInlineBatchPart::decode] followed by [updates.diffs_sum()], and
    whether the decoded updates are structured; [None] is a decode error. *)
inline_diffs_sum : Bytes -> option D;
inline_structured : Bytes -> option bool;
}.

Inductive BatchColumnarFormat :=
| FormatRow
| FormatBoth (version : N)
| FormatStructured.

Inductive RunOrder :=
| Unordered
| Codec
| Structured.

#[export] Instance BatchColumnarFormat_eqdec : EqDecision BatchColumnarFormat.
Proof. solve_decision. Defined.
#[export] Instance RunOrder_eqdec : EqDecision RunOrder.
Proof. solve_decision. Defined.

(** Metadata shared across a run. *)
Record RunMeta := {
  rm_order : option RunOrder;
  rm_schema : option SchemaId;
  rm_deprecated_schema : option SchemaId;
  rm_id : option RunId;
  rm_len : option Z;
  rm_meta : MetadataMap;
}.

#[export] Instance RunMeta_eqdec : EqDecision RunMeta.
Proof. solve_decision. Defined.

Definition RunMeta_default : RunMeta := {|
  rm_order := None; rm_schema := None; rm_deprecated_schema := None;
  rm_id := None; rm_len := None; rm_meta := ∅ |}.

Definition RUN_META_BOUNDS_TRUNCATED : string := "truncated".

Definition bounds_truncated {D} `{PartCodec D} (m : RunMeta) : bool :=
  default false (rm_meta m !! RUN_META_BOUNDS_TRUNCATED ≫= decode_bool).

Definition set_bounds_truncated {D} `{PartCodec D} (m : RunMeta) : RunMeta := {|
  rm_order := rm_order m; rm_schema := rm_schema m;
  rm_deprecated_schema := rm_deprecated_schema m;
  rm_id := rm_id m; rm_len := rm_len m;
  rm_meta := <[RUN_META_BOUNDS_TRUNCATED := encode_bool true]> (rm_meta m) |}.

Section batch.
Context (T : Type) `{Timely T}.

(** A subset of a batch, one-to-one with a blob. *)
Record HollowBatchPart := {
  hbp_key : str;
  hbp_meta : MetadataMap;
  hbp_encoded_size_bytes : Z;
  hbp_key_lower : Bytes;
  hbp_structured_key_lower : option Bytes;
  hbp_stats : option Bytes;
  hbp_ts_rewrite : option (Antichain T);
  hbp_diffs_sum : option Bytes;
  hbp_format : option BatchColumnarFormat;
  hbp_schema_id : option SchemaId;
  hbp_deprecated_schema_id : option SchemaId;
}.

Inductive BatchPart :=
| Hollow (x : HollowBatchPart)
| Inline (updates : Bytes) (ts_rewrite : option (Antichain T))
    (schema_id : option SchemaId) (deprecated_schema_id : option SchemaId).

Record HollowRunRef := {
  hrr_key : str;
  hrr_hollow_bytes : Z;
  hrr_max_part_bytes : Z;
  hrr_key_lower : Bytes;
  hrr_structured_key_lower : option Bytes;
  hrr_diffs_sum : option Bytes;
}.

Inductive RunPart :=
| Single (p : BatchPart)
| Many (r : HollowRunRef).

Record HollowBatch := {
  hb_desc : Description T;
  hb_len : Z;
  hb_parts : list RunPart;
  hb_run_splits : list nat;
  hb_run_meta : list RunMeta;
}.
End batch.

Arguments hbp_key {T _}.
Arguments hbp_meta {T _}.
Arguments hbp_encoded_size_bytes {T _}.
Arguments hbp_key_lower {T _}.
Arguments hbp_structured_key_lower {T _}.
Arguments hbp_stats {T _}.
Arguments hbp_ts_rewrite {T _}.
Arguments hbp_diffs_sum {T _}.
Arguments hbp_format {T _}.
Arguments hbp_schema_id {T _}.
Arguments hbp_deprecated_schema_id {T _}.
Arguments Hollow {T _}.
Arguments Inline {T _}.
Arguments Single {T _}.
Arguments Many {T _}.
Arguments hb_desc {T _}.
Arguments hb_len {T _}.
Arguments hb_parts {T _}.
Arguments hb_run_splits {T _}.
Arguments hb_run_meta {T _}.

(** ** Parts *)

Module BatchPart.
Section part.
Context {T : Type} `{Timely T}.

(** [LazyInlineBatchPart::encoded_size_bytes] *)
Definition inline_size (updates : Bytes) : Z := Z.of_nat (length updates).

Definition hollow_bytes (p : BatchPart T) : Z :=
  match p with Hollow x => hbp_encoded_size_bytes x | Inline _ _ _ _ => 0 end.

Definition is_inline (p : BatchPart T) : bool :=
  match p with Hollow _ => false | Inline _ _ _ _ => true end.

Definition inline_bytes (p : BatchPart T) : Z :=
  match p with Hollow _ => 0 | Inline updates _ _ _ => inline_size updates end.

Definition writer_key `{UuidCodec} (p : BatchPart T) : outcome (option WriterKey) :=
  match p with
  | Hollow x => let! wp := PartialBatchKey_split (hbp_key x) in Ret (fst <$> wp)
  | Inline _ _ _ _ => Ret None
  end.

Definition encoded_size_bytes (p : BatchPart T) : Z :=
  match p with Hollow x => hbp_encoded_size_bytes x | Inline updates _ _ _ => inline_size updates end.

Definition printable_name (p : BatchPart T) : str :=
  match p with Hollow x => hbp_key x | Inline _ _ _ _ => lit "<inline>" end.

Definition stats (p : BatchPart T) : option Bytes :=
  match p with Hollow x => hbp_stats x | Inline _ _ _ _ => None end.

Definition key_lower (p : BatchPart T) : Bytes :=
  match p with Hollow x => hbp_key_lower x | Inline _ _ _ _ => [] end.

Definition ts_rewrite (p : BatchPart T) : option (Antichain T) :=
  match p with Hollow x => hbp_ts_rewrite x | Inline _ r _ _ => r end.

Definition schema_id (p : BatchPart T) : option SchemaId :=
  match p with Hollow x => hbp_schema_id x | Inline _ _ s _ => s end.

Definition deprecated_schema_id (p : BatchPart T) : option SchemaId :=
  match p with Hollow x => hbp_deprecated_schema_id x | Inline _ _ _ s => s end.

Definition is_structured_only {D} `{PartCodec D} (p : BatchPart T) : outcome bool :=
  match p with
  | Hollow x => Ret (bool_decide (hbp_format x = Some FormatStructured))
  | Inline updates _ _ _ => expect (inline_structured updates)
  end.

Definition diffs_sum {D} `{PartCodec D} (p : BatchPart T) : outcome (option D) :=
  match p with
  | Hollow x => Ret (diff_decode <$> hbp_diffs_sum x)
  | Inline updates _ _ _ => let! d := expect (inline_diffs_sum updates) in Ret (Some d)
  end.
End part.
End BatchPart.

Module RunPart.
Section part.
Context {T : Type} `{Timely T}.

Definition hollow_bytes (p : RunPart T) : Z :=
  match p with Single p => BatchPart.hollow_bytes p | Many r => hrr_hollow_bytes r end.

Definition is_inline (p : RunPart T) : bool :=
  match p with Single p => BatchPart.is_inline p | Many _ => false end.

Definition inline_bytes (p : RunPart T) : Z :=
  match p with Single p => BatchPart.inline_bytes p | Many _ => 0 end.

Definition max_part_bytes (p : RunPart T) : Z :=
  match p with Single p => BatchPart.encoded_size_bytes p | Many r => hrr_max_part_bytes r end.

Definition writer_key `{UuidCodec} (p : RunPart T) : outcome (option WriterKey) :=
  match p with
  | Single p => BatchPart.writer_key p
  | Many r => let! wp := PartialBatchKey_split (hrr_key r) in Ret (fst <$> wp)
  end.

Definition encoded_size_bytes (p : RunPart T) : Z :=
  match p with Single p => BatchPart.encoded_size_bytes p | Many r => hrr_hollow_bytes r end.

Definition schema_id (p : RunPart T) : option SchemaId :=
  match p with Single p => BatchPart.schema_id p | Many _ => None end.

Definition printable_name (p : RunPart T) : str :=
  match p with Single p => BatchPart.printable_name p | Many r => hrr_key r end.

Definition stats (p : RunPart T) : option Bytes :=
  match p with Single p => BatchPart.stats p | Many _ => None end.

Definition key_lower (p : RunPart T) : Bytes :=
  match p with Single p => BatchPart.key_lower p | Many r => hrr_key_lower r end.

Definition ts_rewrite (p : RunPart T) : option (Antichain T) :=
  match p with Single p => BatchPart.ts_rewrite p | Many _ => None end.

Definition diffs_sum {D} `{PartCodec D} (p : RunPart T) : outcome (option D) :=
  match p with
  | Single p => BatchPart.diffs_sum p
  | Many r => Ret (diff_decode <$> hrr_diffs_sum r)
  end.
End part.
End RunPart.

#[export] Instance HollowBatch_eqdec {T} `{Timely T} : EqDecision (HollowBatch T).
Proof.
  assert (EqDecision (HollowBatchPart T)) by solve_decision.
  assert (EqDecision HollowRunRef) by solve_decision.
  assert (EqDecision (BatchPart T)) by solve_decision.
  assert (EqDecision (RunPart T)) by solve_decision.
  solve_decision.
Defined.

(** ** Batches *)

Module HollowBatch.
Section batch.
Context {T : Type} `{Timely T}.

Definition new (desc : Description T) (parts : list (RunPart T)) (len : Z)
    (run_meta : list RunMeta) (run_splits : list nat) : HollowBatch T := {|
  hb_desc := desc; hb_len := len; hb_parts := parts;
  hb_run_splits := run_splits; hb_run_meta := run_meta |}.

(** The conditions that [HollowBatch::new] asserts in debug builds. *)
Fixpoint is_strictly_sorted (l : list nat) : bool :=
  match l with
  | a :: ((b :: _) as l') => (a <? b)%nat && is_strictly_sorted l'
  | _ => true
  end.

Definition new_checks (parts : list (RunPart T)) (run_meta : list RunMeta)
    (run_splits : list nat) : bool :=
  is_strictly_sorted run_splits
  && match head run_splits with Some i => (0 <? i)%nat | None => true end
  && match last run_splits with Some i => (i <? length parts)%nat | None => true end
  && (bool_decide (parts = []) || (length run_meta =? length run_splits + 1)%nat).

Definition new_run (desc : Description T) (parts : list (RunPart T)) (len : Z) : HollowBatch T := {|
  hb_desc := desc; hb_len := len; hb_parts := parts; hb_run_splits := [];
  hb_run_meta := match parts with [] => [] | _ => [RunMeta_default] end |}.

Definition empty (desc : Description T) : HollowBatch T := {|
  hb_desc := desc; hb_len := 0; hb_parts := []; hb_run_splits := []; hb_run_meta := [] |}.

(** The [scan] of [runs]: consecutive ranges between the split points. *)
Fixpoint scan_ranges (start : nat) (ends : list nat) : list (nat * nat) :=
  match ends with
  | [] => []
  | e :: ends' => (start, e) :: scan_ranges e ends'
  end.

(** [&parts[s..e]] for a nonempty range. *)
Definition slice {A} (l : list A) (r : nat * nat) : outcome (list A) :=
  if (r.2 <=? length l)%nat then Ret (take (r.2 - r.1) (drop r.1 l)) else Panic.

(** [zip_eq]: panics at the item where one of the sides ends first. *)
Fixpoint zip_eq {A B} (xs : list A) (ys : list (outcome B)) : list (outcome (A * B)) :=
  match xs, ys with
  | [], [] => []
  | x :: xs', y :: ys' => (let! b := y in Ret (x, b)) :: zip_eq xs' ys'
  | _, _ => [Panic]
  end.

(** [runs] is a lazy iterator: the items, each of which panics or not when
    it is pulled. *)
Definition runs (b : HollowBatch T) : list (outcome (RunMeta * list (RunPart T))) :=
  let run_ends := hb_run_splits b ++ [length (hb_parts b)] in
  let ranges := filter (fun r => r.1 < r.2)%nat (scan_ranges 0 run_ends) in
  zip_eq (hb_run_meta b) (slice (hb_parts b) <$> ranges).

Definition inline_bytes (b : HollowBatch T) : Z :=
  sumZ (RunPart.inline_bytes <$> hb_parts b).

Definition is_empty (b : HollowBatch T) : bool := bool_decide (hb_parts b = []).

Definition part_count (b : HollowBatch T) : nat := length (hb_parts b).

Definition encoded_size_bytes (b : HollowBatch T) : Z :=
  sumZ (RunPart.encoded_size_bytes <$> hb_parts b).

(** The errors of [rewrite_ts], in the order of its checks. *)
Inductive RewriteErr :=
| FrontierNotBelowUpper
| UpperBelowBatchUpper
| FrontierBelowBatchLower
| SinceNotMinimum
| FrontierBelowBatchRewrite.

Definition rewrite_part (frontier : Antichain T) (p : RunPart T) : outcome (RunPart T) :=
  match p with
  | Single (Hollow x) =>
      Ret (Single (Hollow {|
        hbp_key := hbp_key x; hbp_meta := hbp_meta x;
        hbp_encoded_size_bytes := hbp_encoded_size_bytes x;
        hbp_key_lower := hbp_key_lower x;
        hbp_structured_key_lower := hbp_structured_key_lower x;
        hbp_stats := hbp_stats x;
        hbp_ts_rewrite := Some frontier;
        hbp_diffs_sum := hbp_diffs_sum x; hbp_format := hbp_format x;
        hbp_schema_id := hbp_schema_id x;
        hbp_deprecated_schema_id := hbp_deprecated_schema_id x |}))
  | Single (Inline u _ s d) => Ret (Single (Inline u (Some frontier) s d))
  | Many _ => Panic
  end.

Definition rewrite_ts (b : HollowBatch T) (frontier new_upper : Antichain T) :
    outcome (result (HollowBatch T) RewriteErr) :=
  if negb (less_than frontier new_upper) then Ret (Err FrontierNotBelowUpper)
  else if less_than new_upper (d_upper (hb_desc b)) then Ret (Err UpperBelowBatchUpper)
  else if less_than frontier (d_lower (hb_desc b)) then Ret (Err FrontierBelowBatchLower)
  else if negb (bool_decide (d_since (hb_desc b) = min_frontier)) then Ret (Err SinceNotMinimum)
  else if existsb (fun p => match RunPart.ts_rewrite p with
                            | Some r => less_than frontier r
                            | None => false
                            end) (hb_parts b)
  then Ret (Err FrontierBelowBatchRewrite)
  else
    let! parts := omapM (rewrite_part frontier) (hb_parts b) in
    Ret (Ok {| hb_desc := desc_new (d_lower (hb_desc b)) new_upper (d_since (hb_desc b));
               hb_len := hb_len b; hb_parts := parts;
               hb_run_splits := hb_run_splits b; hb_run_meta := hb_run_meta b |}).
End batch.
End HollowBatch.
