(* ===== verification/Order.v ===== *)
(** * Total orders (the [Ord] implementations of state.rs)

    [BTreeMap] and sorting go by [Ord::cmp].  This file has the comparisons
    the source derives or writes out for batches and their parts, and the laws
    that make them usable as the order of a map.  A run reference is compared
    by its key alone, so two batches can compare as equal without being so:
    the order is a total preorder. *)

From Stdlib Require Import Ascii.
From Stdlib.Strings Require Import Byte.
From stdpp Require Import sorting.
From S2P Require Import Prelude Compare Timely Paths Batch.

Local Open Scope Z_scope.

(** ** Plain data *)

Definition bytes_cmp : Bytes -> Bytes -> comparison := list_cmp (by_cmp Byte.to_N N.compare).
Definition str_cmp : str -> str -> comparison := list_cmp (by_cmp N_of_ascii N.compare).
Definition string_cmp : string -> string -> comparison := by_cmp String.list_ascii_of_string str_cmp.

#[export] Instance bytes_cmp_laws : CmpLaws bytes_cmp.
Proof. unfold bytes_cmp. apply _. Qed.
#[export] Instance str_cmp_laws : CmpLaws str_cmp.
Proof. unfold str_cmp. apply _. Qed.
#[export] Instance string_cmp_laws : CmpLaws string_cmp.
Proof. unfold string_cmp. apply _. Qed.

(** The entries of a [MetadataMap] in the order of its keys. *)
Definition meta_entries (m : MetadataMap) : list (string * Bytes) :=
  merge_sort (fun a b => string_cmp a.1 b.1 <> Gt) (map_to_list m).

Definition meta_cmp : MetadataMap -> MetadataMap -> comparison :=
  by_cmp meta_entries (list_cmp (fun a b => then_cmp (by_cmp fst string_cmp a b) (by_cmp snd bytes_cmp a b))).

#[export] Instance meta_cmp_laws : CmpLaws meta_cmp.
Proof. unfold meta_cmp. apply by_laws, list_cmp_laws, then_laws; apply _. Qed.

Definition SchemaId_cmp : SchemaId -> SchemaId -> comparison := by_cmp schema_id_num N.compare.

Definition format_rank (f : BatchColumnarFormat) : N * N :=
  match f with FormatRow => (0, 0) | FormatBoth version => (1, version) | FormatStructured => (2, 0) end%N.

Definition BatchColumnarFormat_cmp : BatchColumnarFormat -> BatchColumnarFormat -> comparison := fun a b =>
  then_cmp (by_cmp (fst ∘ format_rank) N.compare a b) (by_cmp (snd ∘ format_rank) N.compare a b).

Definition order_rank (o : RunOrder) : N := match o with Unordered => 0 | Codec => 1 | Structured => 2 end%N.

(** The derived order of [RunMeta]. *)
Definition RunMeta_cmp : RunMeta -> RunMeta -> comparison := fun a b =>
  then_cmp (by_cmp rm_order (option_cmp (by_cmp order_rank N.compare)) a b)
 (then_cmp (by_cmp rm_schema (option_cmp SchemaId_cmp) a b)
 (then_cmp (by_cmp rm_deprecated_schema (option_cmp SchemaId_cmp) a b)
 (then_cmp (by_cmp rm_id (option_cmp (by_cmp (uuid_bits ∘ run_uuid) N.compare)) a b)
 (then_cmp (by_cmp rm_len (option_cmp Z.compare) a b)
           (by_cmp rm_meta meta_cmp a b))))).

#[export] Instance SchemaId_cmp_laws : CmpLaws SchemaId_cmp.
Proof. unfold SchemaId_cmp. cmp_laws. Qed.
#[export] Instance BatchColumnarFormat_cmp_laws : CmpLaws BatchColumnarFormat_cmp.
Proof. unfold BatchColumnarFormat_cmp. cmp_laws. Qed.
#[export] Instance RunMeta_cmp_laws : CmpLaws RunMeta_cmp.
Proof. unfold RunMeta_cmp. cmp_laws. Qed.

(** ** Batches *)

(** [elements().cmp()] on antichains: the [Ord] of the timestamp on the
    elements in the order they are stored.  For the totally ordered times of
    Materialize an antichain has at most one element. *)
Class TimelyOrd (T : Type) `{Timely T} : Type :=
  elements_cmp : Antichain T -> Antichain T -> comparison.

Class TimelyOrdLaws (T : Type) `{TimelyOrd T} : Prop := {
  elements_laws :: CmpLaws (elements_cmp (T := T));
  elements_eq : forall a b : Antichain T, elements_cmp a b = Eq -> a = b;
}.

#[export] Instance u64_ord : TimelyOrd N := option_cmp N.compare.

#[export] Instance u64_ord_laws : TimelyOrdLaws N.
Proof.
  split; [unfold elements_cmp, u64_ord; apply _|].
  intros [x|] [y|]; cbn; try done. by intros ->%N.compare_eq_iff.
Qed.

Section batches.
Context {T : Type} `{TimelyOrd T}.

Definition HollowBatchPart_cmp : HollowBatchPart T -> HollowBatchPart T -> comparison := fun a b =>
  then_cmp (by_cmp hbp_key str_cmp a b)
 (then_cmp (by_cmp hbp_meta meta_cmp a b)
 (then_cmp (by_cmp hbp_encoded_size_bytes Z.compare a b)
 (then_cmp (by_cmp hbp_key_lower bytes_cmp a b)
 (then_cmp (by_cmp hbp_structured_key_lower (option_cmp bytes_cmp) a b)
 (then_cmp (by_cmp hbp_stats (option_cmp bytes_cmp) a b)
 (then_cmp (by_cmp hbp_ts_rewrite (option_cmp elements_cmp) a b)
 (then_cmp (by_cmp hbp_diffs_sum (option_cmp bytes_cmp) a b)
 (then_cmp (by_cmp hbp_format (option_cmp BatchColumnarFormat_cmp) a b)
 (then_cmp (by_cmp hbp_schema_id (option_cmp SchemaId_cmp) a b)
           (by_cmp hbp_deprecated_schema_id (option_cmp SchemaId_cmp) a b)))))))))).

Definition BatchPart_cmp (a b : BatchPart T) : comparison :=
  match a, b with
  | Hollow s, Hollow o => HollowBatchPart_cmp s o
  | Inline s_updates s_ts_rewrite s_schema_id s_deprecated, Inline o_updates o_ts_rewrite o_schema_id o_deprecated =>
      then_cmp (bytes_cmp s_updates o_updates)
     (then_cmp (option_cmp elements_cmp s_ts_rewrite o_ts_rewrite)
     (then_cmp (option_cmp SchemaId_cmp s_schema_id o_schema_id)
               (option_cmp SchemaId_cmp s_deprecated o_deprecated)))
  | Hollow _, Inline _ _ _ _ => Lt
  | Inline _ _ _ _, Hollow _ => Gt
  end.

(** A run reference is compared by its key alone. *)
Definition HollowRunRef_cmp : HollowRunRef -> HollowRunRef -> comparison := by_cmp hrr_key str_cmp.

Definition RunPart_cmp (a b : RunPart T) : comparison :=
  match a, b with
  | Single a, Single b => BatchPart_cmp a b
  | Single _, Many _ => Lt
  | Many _, Single _ => Gt
  | Many a, Many b => HollowRunRef_cmp a b
  end.

Definition HollowBatch_cmp : HollowBatch T -> HollowBatch T -> comparison := fun a b =>
  then_cmp (by_cmp (d_lower ∘ hb_desc) elements_cmp a b)
 (then_cmp (by_cmp (d_upper ∘ hb_desc) elements_cmp a b)
 (then_cmp (by_cmp (d_since ∘ hb_desc) elements_cmp a b)
 (then_cmp (by_cmp hb_parts (list_cmp RunPart_cmp) a b)
 (then_cmp (by_cmp hb_len Z.compare a b)
 (then_cmp (by_cmp hb_run_splits (list_cmp Nat.compare) a b)
           (by_cmp hb_run_meta (list_cmp RunMeta_cmp) a b)))))).
End batches.

Section batch_laws.
Context {T : Type} `{TimelyOrdLaws T}.

#[export] Instance HollowBatchPart_cmp_laws : CmpLaws (HollowBatchPart_cmp (T := T)).
Proof. unfold HollowBatchPart_cmp. cmp_laws. Qed.

(** The fields of an inline part as a tuple. *)
Definition inline_fields (p : BatchPart T) : Bytes * option (Antichain T) * option SchemaId * option SchemaId :=
  match p with Inline u t s d => (u, t, s, d) | Hollow _ => ([], None, None, None) end.

Definition inline_cmp : (Bytes * option (Antichain T) * option SchemaId * option SchemaId) -> _ -> comparison := fun a b =>
  then_cmp (by_cmp (fun x => x.1.1.1) bytes_cmp a b)
 (then_cmp (by_cmp (fun x => x.1.1.2) (option_cmp elements_cmp) a b)
 (then_cmp (by_cmp (fun x => x.1.2) (option_cmp SchemaId_cmp) a b)
           (by_cmp (fun x => x.2) (option_cmp SchemaId_cmp) a b))).

#[export] Instance inline_cmp_laws : CmpLaws inline_cmp.
Proof. unfold inline_cmp. cmp_laws. Qed.

#[export] Instance BatchPart_cmp_laws : CmpLaws (BatchPart_cmp (T := T)).
Proof.
  assert (Hi : forall u t s d u' t' s' d', BatchPart_cmp (Inline u t s d) (Inline u' t' s' d') =
    inline_cmp (inline_fields (Inline u t s d)) (inline_fields (Inline u' t' s' d'))) by done.
  assert (Hh : forall x y, BatchPart_cmp (Hollow x) (Hollow y) = HollowBatchPart_cmp (T := T) x y) by done.
  split.
  - intros [x|u t s d] [y|u' t' s' d']; rewrite ?Hi, ?Hh; try done; apply cmp_opp.
  - intros [x|u t s d] [y|u' t' s' d'] [z|u2 t2 s2 d2] r; rewrite ?Hi, ?Hh; try apply cmp_trans;
      simpl; try (by intros <-); try (by intros ->); by intros <- ?.
  - intros [x|u t s d] [y|u' t' s' d'] [z|u2 t2 s2 d2]; rewrite ?Hi, ?Hh; try done; apply cmp_eq_l.
Qed.

#[export] Instance HollowRunRef_cmp_laws : CmpLaws HollowRunRef_cmp.
Proof. unfold HollowRunRef_cmp. apply _. Qed.

#[export] Instance RunPart_cmp_laws : CmpLaws (RunPart_cmp (T := T)).
Proof.
  split.
  - intros [x|x] [y|y]; simpl; try done; apply cmp_opp.
  - intros [x|x] [y|y] [z|z] r; simpl; try apply cmp_trans; try (by intros <-); try (by intros ->); by intros <- ?.
  - intros [x|x] [y|y] [z|z]; simpl; try done; apply cmp_eq_l.
Qed.

#[export] Instance HollowBatch_cmp_laws : CmpLaws (HollowBatch_cmp (T := T)).
Proof. unfold HollowBatch_cmp. cmp_laws. Qed.

(** Batches that start at different frontiers are ordered by them. *)
Lemma HollowBatch_cmp_lower (a b : HollowBatch T) : d_lower (hb_desc a) <> d_lower (hb_desc b) ->
  HollowBatch_cmp a b = elements_cmp (d_lower (hb_desc a)) (d_lower (hb_desc b)).
Proof.
  intros Hne. unfold HollowBatch_cmp, by_cmp at 1. simpl.
  destruct (elements_cmp _ _) eqn:E; [|done|done]. by apply elements_eq in E.
Qed.
End batch_laws.

(** ** What comparing as equal says *)

#[export] Instance byte_to_N_inj : Inj (=) (=) Byte.to_N.
Proof. intros a b E. apply (f_equal Byte.of_N) in E. rewrite !Byte.of_to_N in E. congruence. Qed.

#[export] Instance N_of_ascii_inj : Inj (=) (=) N_of_ascii.
Proof. intros a b E. by rewrite <- (ascii_N_embedding a), <- (ascii_N_embedding b), E. Qed.

#[export] Instance list_ascii_inj : Inj (=) (=) String.list_ascii_of_string.
Proof. intros a b E. by rewrite <- (String.string_of_list_ascii_of_string a), <- (String.string_of_list_ascii_of_string b), E. Qed.

#[export] Instance bytes_cmp_eq : CmpEq bytes_cmp.
Proof. unfold bytes_cmp. apply _. Qed.
#[export] Instance str_cmp_eq : CmpEq str_cmp.
Proof. unfold str_cmp. apply _. Qed.
#[export] Instance string_cmp_eq : CmpEq string_cmp.
Proof. unfold string_cmp. apply _. Qed.

#[export] Instance meta_entries_inj : Inj (=) (=) meta_entries.
Proof.
  intros a b E. rewrite <- (list_to_map_to_list a), <- (list_to_map_to_list b).
  apply list_to_map_proper; [apply NoDup_fst_map_to_list|].
  rewrite <- (merge_sort_Permutation (fun x y => string_cmp x.1 y.1 <> Gt) (map_to_list a)).
  rewrite <- (merge_sort_Permutation (fun x y => string_cmp x.1 y.1 <> Gt) (map_to_list b)).
  unfold meta_entries in E. by rewrite E.
Qed.

#[export] Instance meta_cmp_eq : CmpEq meta_cmp.
Proof.
  unfold meta_cmp. apply by_cmp_eq; [|apply _]. apply list_cmp_eq. intros [a1 a2] [b1 b2] [E1 E2]%then_cmp_Eq.
  unfold by_cmp in E1, E2. apply cmp_eq in E1, E2. simpl in *. by subst.
Qed.

#[export] Instance SchemaId_cmp_eq : CmpEq SchemaId_cmp.
Proof. intros [a] [b]. unfold SchemaId_cmp, by_cmp. simpl. by intros ->%cmp_eq. Qed.

#[export] Instance BatchColumnarFormat_cmp_eq : CmpEq BatchColumnarFormat_cmp.
Proof.
  intros a b [E1 E2]%then_cmp_Eq. unfold by_cmp in *. apply cmp_eq in E1, E2.
  destruct a, b; simpl in *; try done. by subst.
Qed.

(** Takes the equations of all fields from a comparison that is [Eq]. *)
Ltac fields_eq :=
  repeat match goal with
         | E : then_cmp _ _ = Eq |- _ => apply then_cmp_Eq in E as [? ?]
         end;
  unfold by_cmp in *;
  repeat match goal with
         | E : ?c ?x ?y = Eq |- _ => apply (cmp_eq (cmp := c)) in E
         end.

#[export] Instance order_cmp_eq : CmpEq (by_cmp order_rank N.compare).
Proof. intros a b E. unfold by_cmp in E. apply cmp_eq in E. by destruct a, b. Qed.

#[export] Instance RunId_cmp_eq : CmpEq (by_cmp (uuid_bits ∘ run_uuid) N.compare).
Proof.
  intros [[a Ha]] [[b Hb]] E. unfold by_cmp in E. apply cmp_eq in E. simpl in E. subst b. do 2 f_equal.
  apply Eqdep_dec.UIP_dec, bool_eq_dec.
Qed.

#[export] Instance RunMeta_cmp_eq : CmpEq RunMeta_cmp.
Proof. intros a b E. unfold RunMeta_cmp in E. fields_eq. destruct a, b. simpl in *. by subst. Qed.

Section batch_eq.
Context {T : Type} `{TL : TimelyLaws T} `{TO : !TimelyOrd T} `{TOL : !TimelyOrdLaws T}.

#[export] Instance elements_cmp_eq : CmpEq (elements_cmp (T := T)).
Proof. intros a b. apply elements_eq. Qed.

#[export] Instance HollowBatchPart_cmp_eq : CmpEq (HollowBatchPart_cmp (T := T)).
Proof. intros a b E. unfold HollowBatchPart_cmp in E. fields_eq. destruct a, b. simpl in *. by subst. Qed.

#[export] Instance BatchPart_cmp_eq : CmpEq (BatchPart_cmp (T := T)).
Proof.
  intros [a|u s i d] [b|u' s' i' d'] E; simpl in E; try done.
  - by apply cmp_eq in E as ->.
  - fields_eq. by subst.
Qed.

(** A run reference is named by its key. *)
Definition refs_agree (ps qs : list (RunPart T)) : Prop :=
  forall r r', Many r ∈ ps -> Many r' ∈ qs -> hrr_key r = hrr_key r' -> r = r'.

Lemma RunPart_cmp_Eq (p q : RunPart T) : RunPart_cmp p q = Eq -> refs_agree [p] [q] -> p = q.
Proof.
  destruct p as [p|r], q as [q|r']; simpl; try done.
  - by intros ->%cmp_eq.
  - intros E Hr. unfold HollowRunRef_cmp, by_cmp in E. apply cmp_eq in E. f_equal. apply Hr; [by apply elem_of_cons; left..|done].
Qed.

Lemma RunParts_cmp_Eq (ps qs : list (RunPart T)) : list_cmp RunPart_cmp ps qs = Eq -> refs_agree ps qs -> ps = qs.
Proof.
  revert qs. induction ps as [|p ps IH]; intros [|q qs] E Hr; try done.
  simpl in E. apply then_cmp_Eq in E as [E1 E2]. f_equal.
  - apply RunPart_cmp_Eq; [done|]. intros r r' <-%list_elem_of_singleton <-%list_elem_of_singleton.
    apply Hr; by apply elem_of_cons; left.
  - apply IH; [done|]. intros r r' ??. apply Hr; by apply elem_of_cons; right.
Qed.

Lemma HollowBatch_cmp_Eq (a b : HollowBatch T) : HollowBatch_cmp a b = Eq -> refs_agree (hb_parts a) (hb_parts b) -> a = b.
Proof.
  intros E Hr. unfold HollowBatch_cmp in E.
  repeat match goal with E : then_cmp _ _ = Eq |- _ => apply then_cmp_Eq in E as [? ?] end. unfold by_cmp in *. simpl in *.
  assert (hb_parts a = hb_parts b) by (by apply RunParts_cmp_Eq).
  assert (hb_desc a = hb_desc b).
  { rewrite <- (desc_eta (hb_desc a)), <- (desc_eta (hb_desc b)). f_equal; by apply elements_eq. }
  repeat match goal with E : ?c ?x ?y = Eq |- _ => apply (cmp_eq (cmp := c)) in E end.
  destruct a, b. simpl in *. by subst.
Qed.
End batch_eq.
