(* ===== verification/Blob.v ===== *)
(** * Blob storage (src/src/persist/src/location.rs, mem.rs)

    The [Blob] trait as a class: the operations, and what its documentation
    promises of them; [MemBlob], the implementation in memory, as an
    instance, with and without tombstones.  Clients are verified against the
    class. *)

From S2P Require Import Prelude Compare BTree Paths Order.

Local Open Scope Z_scope.

(** Strings in the order of their bytes. *)
Definition str_ltb (a b : str) : bool := match str_cmp a b with Lt => true | _ => false end.

Lemma str_ltb_lt a b : str_ltb a b = true <-> str_cmp a b = Lt.
Proof. unfold str_ltb. by destruct (str_cmp a b). Qed.

#[export] Instance str_keyord : KeyOrd str.
Proof.
  refine {| key_ltb := str_ltb |}.
  - intros k. unfold str_ltb. by rewrite (cmp_refl str_cmp).
  - intros a b c. rewrite !str_ltb_lt. apply (cmp_trans (cmp := str_cmp)).
  - intros a b. unfold str_ltb. rewrite (cmp_opp (cmp := str_cmp) a b). destruct (str_cmp a b) eqn:E; simpl; try done. by apply cmp_eq in E.
Defined.

(** [str::str_starts_with] *)
Fixpoint str_starts_with (prefix s : str) : bool :=
  match prefix, s with
  | [], _ => true
  | c :: prefix, d :: s => bool_decide (c = d) && str_starts_with prefix s
  | _ :: _, [] => false
  end.

(** ** The contract *)

Class Blob (P : Type) : Type := {
  bl_store : Type;
  bl_len : P -> Z;
  bl_get : bl_store -> str -> option P;
  bl_list_keys_and_metadata : bl_store -> str -> list (str * Z);
  bl_set : bl_store -> str -> P -> bl_store;
  bl_delete : bl_store -> str -> bl_store * option Z;
  bl_restore : bl_store -> str -> bl_store * result unit unit;
}.

Class BlobLaws (P : Type) `{Blob P} : Type := {
  bl_ok : bl_store -> Prop;
  bl_set_ok : forall s key v, bl_ok s -> bl_ok (bl_set s key v);
  bl_delete_ok : forall s key, bl_ok s -> bl_ok (bl_delete s key).1;
  bl_restore_ok : forall s key, bl_ok s -> bl_ok (bl_restore s key).1;
  bl_get_set : forall s key v key', bl_ok s ->
    bl_get (bl_set s key v) key' = if decide (key' = key) then Some v else bl_get s key';
  bl_get_delete : forall s key key', bl_ok s ->
    bl_get (bl_delete s key).1 key' = if decide (key' = key) then None else bl_get s key';
  (** the size of what was there *)
  bl_deleted : forall s key, bl_ok s -> (bl_delete s key).2 = bl_len <$> bl_get s key;
  (** every key once, with its size *)
  bl_listed : forall s prefix key n, bl_ok s -> (key, n) ∈ bl_list_keys_and_metadata s prefix <->
    str_starts_with prefix key = true /\ bl_len <$> bl_get s key = Some n;
  bl_listed_once : forall s prefix, bl_ok s -> NoDup (bl_list_keys_and_metadata s prefix).*1;
  (** success means that the key exists afterwards, which is so if it existed
      before; nothing else changes *)
  bl_restored : forall s key, bl_ok s -> (bl_restore s key).2 = Ok tt <-> is_Some (bl_get (bl_restore s key).1 key);
  bl_get_restore : forall s key key', bl_ok s -> key' <> key \/ is_Some (bl_get s key') ->
    bl_get (bl_restore s key).1 key' = bl_get s key';
}.

(** ** The implementation in memory *)

Section types.
Context (P : Type).

Record MemBlobCore := {
  mb_dataz : BTreeMap str (P * bool);
  mb_tombstone : bool;
}.
End types.
Arguments mb_dataz {P}.
Arguments mb_tombstone {P}.

Module MemBlob.
Section ops.
Context {P : Type} (len : P -> Z).
Implicit Types (s : MemBlobCore P) (key : str).

Definition with_dataz s m : MemBlobCore P := {| mb_dataz := m; mb_tombstone := mb_tombstone s |}.

Definition get s key : option P :=
  match BTree.get key (mb_dataz s) with
  | Some (x, exists_) => if exists_ : bool then Some x else None
  | None => None
  end.

Definition set s key (value : P) : MemBlobCore P := with_dataz s (BTree.insert key (value, true) (mb_dataz s)).

Definition list_keys_and_metadata s (key_prefix : str) : list (str * Z) :=
  omap (fun kv : str * (P * bool) =>
    let '(key, (value, exists_)) := kv in
    if negb exists_ || negb (str_starts_with key_prefix key) then None else Some (key, len value)) (mb_dataz s).

Definition delete s key : MemBlobCore P * option Z :=
  if mb_tombstone s then
    match BTree.get key (mb_dataz s) with
    | Some (x, exists_) =>
        (with_dataz s (BTree.update key (fun v => (v.1, false)) (mb_dataz s)),
         if exists_ : bool then Some (len x) else None)
    | None => (s, None)
    end
  else (with_dataz s (BTree.remove key (mb_dataz s)), len ∘ fst <$> BTree.get key (mb_dataz s)).

Definition restore s key : MemBlobCore P * result unit unit :=
  match BTree.get key (mb_dataz s) with
  | None => (s, Err tt)
  | Some _ => (with_dataz s (BTree.update key (fun v => (v.1, true)) (mb_dataz s)), Ok tt)
  end.

(** Keys in order; without tombstones what is there exists. *)
Definition core_ok s : Prop :=
  BTree.sorted (mb_dataz s) /\ (mb_tombstone s = false -> Forall (fun kv => kv.2.2 = true) (mb_dataz s)).
End ops.
End MemBlob.

Section updates.
Context {K V : Type} `{KeyOrd K}.

Lemma sorted_update k (f : V -> V) (m : BTreeMap K V) : BTree.sorted m -> BTree.sorted (BTree.update k f m).
Proof.
  unfold BTree.update. induction m as [|[j w] m IH]; [done|]. intros [Hall Hs].
  rewrite fmap_cons. simpl. destruct (decide (j = k)); simpl; (split; [|by apply IH]); apply Forall_fmap;
    eapply Forall_impl; try exact Hall; intros kv; simpl; by destruct (decide _).
Qed.

Lemma get_update_ne k k' (f : V -> V) (m : BTreeMap K V) : k <> k' -> BTree.get k (BTree.update k' f m) = BTree.get k m.
Proof.
  intros Hne. unfold BTree.update. induction m as [|[j w] m IH]; [done|]. rewrite fmap_cons. simpl.
  destruct (decide (j = k')) as [->|]; simpl; [by rewrite !decide_False|]. destruct (decide (k = j)); [done|exact IH].
Qed.

Lemma sorted_get k v (m : BTreeMap K V) : BTree.sorted m -> (k, v) ∈ m <-> BTree.get k m = Some v.
Proof.
  intros Hs. split; [|apply BTree.elem_of_get]. revert Hs. induction m as [|[j w] m IH]; simpl; [by intros _ ?%not_elem_of_nil|].
  intros [Hall Hs] [[= -> ->]|Hin]%elem_of_cons; [by rewrite decide_True|]. rewrite decide_False; [by apply IH|].
  intros ->. rewrite Forall_forall in Hall. specialize (Hall _ Hin). simpl in Hall. by rewrite key_irrefl in Hall.
Qed.

Lemma sorted_nodup (m : BTreeMap K V) : BTree.sorted m -> NoDup m.*1.
Proof.
  induction m as [|[j w] m IH]; [constructor|]. intros [Hall Hs]. rewrite fmap_cons. constructor; [|by apply IH].
  intros ([k v] & Hk & Hin)%list_elem_of_fmap. simpl in Hk. subst k. rewrite Forall_forall in Hall. specialize (Hall _ Hin).
  simpl in Hall. by rewrite key_irrefl in Hall.
Qed.
End updates.

(** ** It keeps the contract *)

Section mem_laws.
Context {P : Type} (len : P -> Z).
Implicit Types (s : MemBlobCore P) (key : str).

Definition mem_blob : Blob P := {|
  bl_store := MemBlobCore P;
  bl_len := len;
  bl_get := MemBlob.get;
  bl_list_keys_and_metadata := MemBlob.list_keys_and_metadata len;
  bl_set := MemBlob.set;
  bl_delete := MemBlob.delete len;
  bl_restore := MemBlob.restore;
|}.
#[export] Existing Instance mem_blob.

Lemma present s key x e : MemBlob.core_ok s -> mb_tombstone s = false -> BTree.get key (mb_dataz s) = Some (x, e) -> e = true.
Proof. intros [_ Ha] Ht Hg. apply BTree.elem_of_get in Hg. specialize (Ha Ht). rewrite Forall_forall in Ha. exact (Ha _ Hg). Qed.

Lemma mem_set_ok s key v : MemBlob.core_ok s -> MemBlob.core_ok (MemBlob.set s key v).
Proof.
  intros [Hs Ha]. split; [by apply BTree.sorted_insert|]. intros Ht. specialize (Ha Ht). rewrite Forall_forall in *.
  intros kv [->|Hin]%BTree.elem_of_insert; [done|by apply Ha].
Qed.

Lemma mem_delete_ok s key : MemBlob.core_ok s -> MemBlob.core_ok (MemBlob.delete len s key).1.
Proof.
  intros [Hs Ha]. unfold MemBlob.delete. destruct (mb_tombstone s) eqn:Et.
  - destruct (BTree.get key (mb_dataz s)) as [[x e]|]; (split; simpl; [try apply sorted_update; exact Hs|by rewrite Et]).
  - split; simpl; [by apply BTree.sorted_remove|]. intros _. specialize (Ha eq_refl). rewrite Forall_forall in *.
    intros kv [Hin _]%BTree.elem_of_remove. by apply Ha.
Qed.

Lemma mem_restore_ok s key : MemBlob.core_ok s -> MemBlob.core_ok (MemBlob.restore s key).1.
Proof.
  intros [Hs Ha]. unfold MemBlob.restore. destruct (BTree.get key (mb_dataz s)) as [[x e]|]; [|exact (conj Hs Ha)].
  split; simpl; [by apply sorted_update|]. intros Ht. specialize (Ha Ht). rewrite Forall_forall in *.
  intros kv [Hin|(v & _ & ->)]%BTree.elem_of_update; [by apply Ha|done].
Qed.

Lemma mem_get_delete s key key' : MemBlob.core_ok s ->
  MemBlob.get (MemBlob.delete len s key).1 key' = if decide (key' = key) then None else MemBlob.get s key'.
Proof.
  intros Hs. unfold MemBlob.delete, MemBlob.get. destruct (mb_tombstone s) eqn:Et.
  - destruct (BTree.get key (mb_dataz s)) as [[x e]|] eqn:Eg; simpl.
    + destruct (decide (key' = key)) as [->|Hne]; [by rewrite BTree.get_update_eq, Eg|by rewrite get_update_ne].
    + destruct (decide (key' = key)) as [->|Hne]; [by rewrite Eg|done].
  - simpl. destruct (decide (key' = key)) as [->|Hne]; [by rewrite BTree.get_remove_eq|by rewrite BTree.get_remove_ne].
Qed.

Lemma mem_deleted s key : MemBlob.core_ok s -> (MemBlob.delete len s key).2 = len <$> MemBlob.get s key.
Proof.
  intros Hs. unfold MemBlob.delete, MemBlob.get. destruct (mb_tombstone s) eqn:Et;
    destruct (BTree.get key (mb_dataz s)) as [[x e]|] eqn:Eg; try done; simpl; [by destruct e|].
  by rewrite (present _ _ _ _ Hs Et Eg).
Qed.

Lemma mem_listed s prefix key n : MemBlob.core_ok s -> (key, n) ∈ MemBlob.list_keys_and_metadata len s prefix <->
  str_starts_with prefix key = true /\ len <$> MemBlob.get s key = Some n.
Proof.
  intros [Hs _]. unfold MemBlob.list_keys_and_metadata, MemBlob.get. rewrite list_elem_of_omap. split.
  - intros ([k [v e]] & Hin & Hf). apply (sorted_get _ _ _ Hs) in Hin.
    destruct e, (str_starts_with prefix k) eqn:Ep; try done. simpl in Hf. injection Hf as -> <-. by rewrite Hin, Ep.
  - intros [Hp Hg]. destruct (BTree.get key (mb_dataz s)) as [[v e]|] eqn:Eg; [|done]. destruct e; [|done]. injection Hg as <-.
    exists (key, (v, true)). split; [by apply (sorted_get _ _ _ Hs)|]. simpl. by rewrite Hp.
Qed.

Lemma mem_listed_once s prefix : MemBlob.core_ok s -> NoDup (MemBlob.list_keys_and_metadata len s prefix).*1.
Proof.
  intros [Hs _]. apply sorted_nodup in Hs. unfold MemBlob.list_keys_and_metadata. revert Hs.
  induction (mb_dataz s) as [|[k [v e]] m IH]; [constructor|]. rewrite fmap_cons. simpl. intros [Hk Hm]%NoDup_cons.
  destruct (negb e || negb (str_starts_with prefix k)); [by apply IH|]. rewrite fmap_cons. constructor; [|by apply IH].
  intros ([k' n] & E & Hin)%list_elem_of_fmap. simpl in E. subst k'. apply Hk.
  apply list_elem_of_omap in Hin as ([k' [v' e']] & Hin & Hf). destruct (negb e' || _); [done|]. injection Hf as -> _.
  apply list_elem_of_fmap. by exists (k, (v', e')).
Qed.

Lemma mem_restored s key : (MemBlob.restore s key).2 = Ok tt <-> is_Some (MemBlob.get (MemBlob.restore s key).1 key).
Proof.
  unfold MemBlob.restore, MemBlob.get. destruct (BTree.get key (mb_dataz s)) as [[x e]|] eqn:Eg; simpl.
  - rewrite BTree.get_update_eq, Eg. simpl. split; [by eexists|done].
  - rewrite Eg. split; [done|]. by intros [? ?].
Qed.

Lemma mem_get_restore s key key' : key' <> key \/ is_Some (MemBlob.get s key') ->
  MemBlob.get (MemBlob.restore s key).1 key' = MemBlob.get s key'.
Proof.
  unfold MemBlob.restore, MemBlob.get. destruct (BTree.get key (mb_dataz s)) as [[x e]|] eqn:Eg; [|done]. simpl.
  destruct (decide (key' = key)) as [->|Hne]; [|by rewrite get_update_ne]. intros [?|[v Hv]]; [done|].
  rewrite BTree.get_update_eq, Eg in *. by destruct e.
Qed.

#[export] Instance mem_blob_laws : BlobLaws P.
Proof.
  refine {| bl_ok := MemBlob.core_ok |}.
  - apply mem_set_ok.
  - apply mem_delete_ok.
  - apply mem_restore_ok.
  - intros s key v key' _. simpl. unfold MemBlob.get, MemBlob.set. simpl. destruct (decide (key' = key)) as [->|Hne];
      [by rewrite BTree.get_insert_eq|by rewrite BTree.get_insert_ne].
  - apply mem_get_delete.
  - apply mem_deleted.
  - apply mem_listed.
  - apply mem_listed_once.
  - intros s key _. apply mem_restored.
  - intros s key key' _. apply mem_get_restore.
Defined.
End mem_laws.
