(* ===== verification/Diff.v ===== *)
(** * Differences of ordered maps (src/src/persist-client/src/internal/state_diff.rs)

    A change of a field of the state is recorded as a list of insertions,
    updates and deletions, and applied by the other processes.  Maps are kept
    in the order of [Ord::cmp], which may take different keys for equal, and
    values are compared with [PartialEq::eq], which may ignore fields.  The
    theorem: what [diff_field_sorted_iter] records, [apply_diffs_map]
    restores, up to what the two comparisons cannot see. *)

From stdpp Require Import sorting.
From S2P Require Import Prelude Compare Timely BTree Paths Batch Order.

Local Open Scope Z_scope.

(** [Ord::cmp] and [PartialEq::eq] *)
Class KeyCmp (K : Type) : Type := key_cmp : K -> K -> comparison.
Class ValEq (V : Type) : Type := val_eqb : V -> V -> bool.

(** The keys whose order tells different ones apart. *)
#[export] Instance ord_key_cmp {K} `{KeyOrd K} : KeyCmp K := fun a b =>
  if key_ltb a b then Lt else if key_ltb b a then Gt else Eq.

#[export] Instance batch_key_cmp {T} `{TimelyOrd T} : KeyCmp (HollowBatch T) := HollowBatch_cmp.

#[export] Instance unit_key_cmp : KeyCmp unit := fun _ _ => Eq.

(** The derived [PartialEq]. *)
#[export] Instance derived_eq {V} `{EqDecision V} : ValEq V | 10 := fun a b => bool_decide (a = b).

Section ord.
Context {K : Type} `{KeyOrd K}.

Lemma ord_key_lt (a b : K) : key_cmp a b = Lt <-> key_ltb a b = true.
Proof. unfold key_cmp, ord_key_cmp. destruct (key_ltb a b); [done|]. by destruct (key_ltb b a). Qed.

Lemma ord_key_gt (a b : K) : key_cmp a b = Gt <-> key_ltb b a = true.
Proof.
  unfold key_cmp, ord_key_cmp. destruct (key_ltb a b) eqn:E; [|by destruct (key_ltb b a)].
  split; [done|]. intros E'. pose proof (key_trans _ _ _ E E') as Hx. by rewrite key_irrefl in Hx.
Qed.

Lemma ord_key_refl (a : K) : key_cmp a a = Eq.
Proof. unfold key_cmp, ord_key_cmp. by rewrite !key_irrefl. Qed.

#[export] Instance ord_key_eq : CmpEq (key_cmp (K := K)).
Proof.
  intros a b. unfold key_cmp, ord_key_cmp. destruct (key_ltb a b) eqn:E; [done|].
  destruct (key_ltb b a) eqn:E'; [done|]. intros _. by apply key_total.
Qed.

#[export] Instance ord_key_laws : CmpLaws (key_cmp (K := K)).
Proof.
  split.
  - intros a b. destruct (key_cmp a b) eqn:E; simpl.
    + apply cmp_eq in E as ->. apply ord_key_refl.
    + by apply ord_key_gt, ord_key_lt.
    + by apply ord_key_lt, ord_key_gt.
  - intros a b c r <-. destruct (key_cmp a b) eqn:E.
    + by apply cmp_eq in E as ->.
    + rewrite !ord_key_lt in *. intros. by eapply key_trans.
    + rewrite !ord_key_gt in *. intros. by eapply key_trans.
  - intros a b c E. by apply cmp_eq in E as ->.
Qed.
End ord.

#[export] Instance batch_key_laws {T} `{TimelyOrdLaws T} : CmpLaws (key_cmp (K := HollowBatch T)).
Proof. unfold key_cmp, batch_key_cmp. apply _. Qed.

#[export] Instance unit_key_laws : CmpLaws (key_cmp (K := unit)).
Proof. by split. Qed.

(** ** Maps by comparison *)

Module CMap.
Section ops.
Context {K V : Type} `{KeyCmp K}.
Implicit Types (m : BTreeMap K V) (k : K) (v : V).

Fixpoint get k m : option V :=
  match m with
  | [] => None
  | (k', v') :: m' => match key_cmp k k' with Eq => Some v' | _ => get k m' end
  end.

(** An entry whose key compares as equal keeps its key and gets the value. *)
Fixpoint insert k v m : BTreeMap K V :=
  match m with
  | [] => [(k, v)]
  | (k', v') :: m' =>
      match key_cmp k k' with
      | Lt => (k, v) :: m
      | Eq => (k', v) :: m'
      | Gt => (k', v') :: insert k v m'
      end
  end.

Fixpoint remove k m : BTreeMap K V :=
  match m with
  | [] => []
  | (k', v') :: m' => match key_cmp k k' with Eq => remove k m' | _ => (k', v') :: remove k m' end
  end.

(** Strictly ascending keys. *)
Definition sorted m : Prop := StronglySorted (fun a b => key_cmp a.1 b.1 = Lt) m.
End ops.

Section facts.
Context {K V : Type} `{KeyCmp K} `{!CmpLaws (key_cmp (K := K))}.
Implicit Types (m a b : BTreeMap K V) (k : K) (v : V).

(** All keys of [m] are below, or above, [k]. *)
Definition below m k : Prop := Forall (fun kv => key_cmp kv.1 k = Lt) m.
Definition above k m : Prop := Forall (fun kv => key_cmp k kv.1 = Lt) m.

Lemma key_gt k k' : key_cmp k' k = Lt -> key_cmp k k' = Gt.
Proof. intros E. rewrite (cmp_opp k' k), E. done. Qed.

Lemma get_skip k m m' : below m k -> get k (m ++ m') = get k m'.
Proof. induction 1 as [|[k' v'] m Hk _ IH]; [done|]. simpl in *. by rewrite (key_gt _ _ Hk). Qed.

Lemma insert_skip k v m m' : below m k -> insert k v (m ++ m') = m ++ insert k v m'.
Proof. induction 1 as [|[k' v'] m Hk _ IH]; [done|]. simpl in *. by rewrite (key_gt _ _ Hk), IH. Qed.

Lemma remove_skip k m m' : below m k -> remove k (m ++ m') = m ++ remove k m'.
Proof. induction 1 as [|[k' v'] m Hk _ IH]; [done|]. simpl in *. by rewrite (key_gt _ _ Hk), IH. Qed.

Lemma get_above k m : above k m -> get k m = None.
Proof. induction 1 as [|[k' v'] m Hk _ IH]; [done|]. simpl in *. by rewrite Hk. Qed.

Lemma insert_above k v m : above k m -> insert k v m = (k, v) :: m.
Proof. destruct 1 as [|[k' v'] m Hk _]; [done|]. simpl in *. by rewrite Hk. Qed.

Lemma remove_above k m : above k m -> remove k m = m.
Proof. induction 1 as [|[k' v'] m Hk _ IH]; [done|]. simpl in *. by rewrite Hk, IH. Qed.

Lemma get_here k k' v m : key_cmp k k' = Eq -> get k ((k', v) :: m) = Some v.
Proof. simpl. by intros ->. Qed.

Lemma above_trans k k' m : key_cmp k k' = Lt -> above k' m -> above k m.
Proof. intros E Ha. eapply Forall_impl; [exact Ha|]. intros kv ?. by eapply cmp_trans. Qed.

Lemma above_eq k k' m : key_cmp k k' = Eq -> above k' m -> above k m.
Proof. intros E Ha. eapply Forall_impl; [exact Ha|]. simpl. intros kv ?. by rewrite (cmp_eq_l k k'). Qed.

Lemma cmap_sorted_cons kv m : sorted (kv :: m) <-> above kv.1 m /\ sorted m.
Proof. split; [by inversion_clear 1|intros []; by constructor]. Qed.

Lemma cmap_elem_of_get k v m : sorted m -> (k, v) ∈ m -> get k m = Some v.
Proof.
  induction m as [|[k' v'] m IH]; [by intros _ ?%not_elem_of_nil|].
  intros [Ha Hs]%cmap_sorted_cons [[= -> ->]|Hin]%elem_of_cons; [apply get_here, cmp_refl; done|].
  simpl. apply (proj1 (Forall_forall _ _) Ha) in Hin as Hk. simpl in Hk. rewrite (key_gt _ _ Hk). by apply IH.
Qed.

Lemma get_elem_of k v m : get k m = Some v -> exists k', key_cmp k k' = Eq /\ (k', v) ∈ m.
Proof.
  induction m as [|[k' v'] m IH]; [done|]. simpl. destruct (key_cmp k k') eqn:E.
  - intros [= ->]. exists k'. by rewrite elem_of_cons; auto.
  - intros (j & ? & ?)%IH. exists j. by rewrite elem_of_cons; auto.
  - intros (j & ? & ?)%IH. exists j. by rewrite elem_of_cons; auto.
Qed.

Lemma cmap_elem_of_remove kv k m : kv ∈ remove k m <-> kv ∈ m /\ key_cmp k kv.1 <> Eq.
Proof.
  induction m as [|[k' v'] m IH]; simpl; [rewrite elem_of_nil; tauto|].
  assert (Hk : key_cmp k k' <> Eq -> kv = (k', v') -> key_cmp k kv.1 <> Eq) by (by intros ? ->).
  assert (Hk' : key_cmp k k' = Eq -> kv = (k', v') -> key_cmp k kv.1 = Eq) by (by intros ? ->).
  destruct (key_cmp k k') eqn:E; rewrite ?elem_of_cons, IH; intuition congruence.
Qed.

Lemma cmap_sorted_remove k m : sorted m -> sorted (remove k m).
Proof.
  induction m as [|[k' v'] m IH]; [done|]. intros [Ha Hs]%cmap_sorted_cons. simpl.
  destruct (key_cmp k k'); [by apply IH| |]; (apply cmap_sorted_cons; split; [|by apply IH]);
    apply Forall_forall; intros kv [Hin _]%cmap_elem_of_remove; by apply (proj1 (Forall_forall _ _) Ha).
Qed.

Lemma cmap_elem_of_insert kv k v m : get k m = None -> kv ∈ insert k v m <-> kv = (k, v) \/ kv ∈ m.
Proof.
  induction m as [|[k' v'] m IH]; simpl; [rewrite list_elem_of_singleton, elem_of_nil; tauto|].
  destruct (key_cmp k k') eqn:E; [done| |]; intros Hg; rewrite ?elem_of_cons; [done|].
  rewrite IH by done. tauto.
Qed.

Lemma insert_perm k v m : get k m = None -> insert k v m ≡ₚ (k, v) :: m.
Proof.
  induction m as [|[k' v'] m IH]; simpl; [done|]. destruct (key_cmp k k') eqn:E; [done|done|].
  intros Hg. rewrite IH by done. apply perm_swap.
Qed.

Lemma cmap_sorted_insert k v m : sorted m -> get k m = None -> sorted (insert k v m).
Proof.
  induction m as [|[k' v'] m IH]; simpl; [intros; repeat constructor|].
  intros [Ha Hs]%cmap_sorted_cons. destruct (key_cmp k k') eqn:E; [done| |]; intros Hg.
  - apply cmap_sorted_cons. split; [|by apply cmap_sorted_cons]. constructor; [done|]. by eapply above_trans.
  - apply cmap_sorted_cons. split; [|by apply IH]. apply Forall_forall. intros kv [->|Hin]%cmap_elem_of_insert; [|
      by apply (proj1 (Forall_forall _ _) Ha)|done]. simpl. rewrite (cmp_opp k k'), E. done.
Qed.

(** A map is determined by its entries. *)
Lemma sorted_unique m m' : sorted m -> sorted m' -> m ≡ₚ m' -> m = m'.
Proof.
  intros Hs Hs'. apply (StronglySorted_unique_strong (fun a b : K * V => key_cmp a.1 b.1 = Lt)); [|done|done].
  intros x1 x2 _ _ E1 E2. pose proof (cmp_trans _ _ _ _ E1 E2) as E. by rewrite (cmp_refl _) in E.
Qed.
End facts.

(** On keys that their order tells apart these are the maps of [BTree]. *)
Section btree.
Context {K V : Type} `{KeyOrd K}.
Implicit Types (m : BTreeMap K V) (k : K) (v : V).

Lemma get_btree k m : get k m = BTree.get k m.
Proof.
  induction m as [|[k' v'] m IH]; [done|]. simpl. destruct (decide (k = k')) as [->|Hne]; [by rewrite ord_key_refl|].
  destruct (key_cmp k k') eqn:E; [|done|done]. by apply cmp_eq in E.
Qed.

Lemma insert_btree k v m : insert k v m = BTree.insert k v m.
Proof.
  induction m as [|[k' v'] m IH]; [done|]. simpl. rewrite <- IH. destruct (key_cmp k k') eqn:E.
  - apply cmp_eq in E as ->. by rewrite !key_irrefl.
  - apply ord_key_lt in E. by rewrite E.
  - apply ord_key_gt in E as E'. rewrite E'. destruct (key_ltb k k') eqn:E2; [|done]. apply ord_key_lt in E2. congruence.
Qed.

Lemma remove_btree k m : remove k m = BTree.remove k m.
Proof.
  unfold BTree.remove. induction m as [|[k' v'] m IH]; [done|]. rewrite filter_cons. simpl. rewrite <- IH.
  destruct (decide (k' <> k)) as [Hne|Heq]; [|apply dec_stable in Heq as ->; by rewrite ord_key_refl].
  destruct (key_cmp k k') eqn:E; [|done|done]. by apply cmp_eq in E.
Qed.

Lemma sorted_btree m : sorted m <-> BTree.sorted m.
Proof.
  induction m as [|[k v] m IH]; [split; constructor|]. rewrite cmap_sorted_cons, IH. simpl. unfold above. simpl.
  split; intros [Ha ?]; (split; [|done]); eapply Forall_impl; try exact Ha; intros kv; apply ord_key_lt.
Qed.
End btree.
End CMap.

(** ** Differences *)

Inductive StateFieldValDiff (V : Type) :=
| Insert (v : V)
| Update (from to : V)
| Delete (v : V).
Arguments Insert {V}.
Arguments Update {V}.
Arguments Delete {V}.

Record StateFieldDiff (K V : Type) := FieldDiff { fd_key : K; fd_val : StateFieldValDiff V }.
Arguments FieldDiff {K V}.
Arguments fd_key {K V}.
Arguments fd_val {K V}.

(** The messages of the apply functions, without the names of the fields. *)
Inductive FieldErr :=
| InsertFoundExisting
| UpdateDidntMatch
| DeleteDidntMatch
| CannotInsertField
| CannotDeleteField.

Section fields.
Context {K V : Type} `{KeyCmp K} `{ValEq V}.
Implicit Types (from to m : BTreeMap K V).

(** [Option<&V>] compared with [PartialEq]. *)
Definition opt_eqb (a b : option V) : bool :=
  match a, b with
  | Some a, Some b => val_eqb a b
  | None, None => true
  | _, _ => false
  end.

Definition diff_field_single (from to : V) : list (StateFieldDiff unit V) :=
  if val_eqb from to then [] else [FieldDiff tt (Update from to)].

Definition apply_diff_single (diff : StateFieldDiff unit V) (single : V) : result V FieldErr :=
  match fd_val diff with
  | Update from to => if negb (val_eqb single from) then Err UpdateDidntMatch else Ok to
  | Insert _ => Err CannotInsertField
  | Delete _ => Err CannotDeleteField
  end.

(** A mismatch is only counted. *)
Definition force_apply_diff_single (diff : StateFieldDiff unit V) (single : V) : result V FieldErr :=
  match fd_val diff with
  | Update _ to => Ok to
  | Insert _ => Err CannotInsertField
  | Delete _ => Err CannotDeleteField
  end.

Definition apply_diff_single_option (diff : StateFieldDiff unit V) (single : option V) : result (option V) FieldErr :=
  match fd_val diff with
  | Update from to => if negb (opt_eqb single (Some from)) then Err UpdateDidntMatch else Ok (Some to)
  | Insert to => match single with Some _ => Err InsertFoundExisting | None => Ok (Some to) end
  | Delete from => if negb (opt_eqb single (Some from)) then Err DeleteDidntMatch else Ok None
  end.

(** The merge of two ascending iterators. *)
Fixpoint diff_field_sorted_iter from : BTreeMap K V -> list (StateFieldDiff K V) :=
  fix go to :=
    match from, to with
    | [], [] => []
    | (fk, fv) :: from', (tk, tv) :: to' =>
        match key_cmp fk tk with
        | Lt => FieldDiff fk (Delete fv) :: diff_field_sorted_iter from' to
        | Gt => FieldDiff tk (Insert tv) :: go to'
        | Eq => (if negb (val_eqb fv tv) then [FieldDiff fk (Update fv tv)] else [])
                ++ diff_field_sorted_iter from' to'
        end
    | [], (tk, tv) :: to' => FieldDiff tk (Insert tv) :: go to'
    | (fk, fv) :: from', [] => FieldDiff fk (Delete fv) :: diff_field_sorted_iter from' []
    end.

Definition apply_diff_map (diff : StateFieldDiff K V) m : result (BTreeMap K V) FieldErr :=
  let prev := CMap.get (fd_key diff) m in
  match fd_val diff with
  | Insert to =>
      match prev with Some _ => Err InsertFoundExisting | None => Ok (CMap.insert (fd_key diff) to m) end
  | Update from to =>
      if negb (opt_eqb prev (Some from)) then Err UpdateDidntMatch else Ok (CMap.insert (fd_key diff) to m)
  | Delete from =>
      if negb (opt_eqb prev (Some from)) then Err DeleteDidntMatch else Ok (CMap.remove (fd_key diff) m)
  end.
End fields.

(** The loops [for diff in diffs { apply(diff)? }]. *)
Fixpoint apply_each {A B E} (f : A -> B -> result B E) (l : list A) (b : B) : result B E :=
  match l with
  | [] => Ok b
  | a :: l' => let? b' := f a b in apply_each f l' b'
  end.

Lemma apply_each_app {A B E} (f : A -> B -> result B E) l l' b :
  apply_each f (l ++ l') b = (let? b' := apply_each f l b in apply_each f l' b').
Proof. revert b; induction l as [|a l IH]; intros b; simpl; [done|]. destruct (f a b); simpl; auto. Qed.

Section apply.
Context {K V : Type} `{KeyCmp K} `{ValEq V}.

Definition apply_diffs_single (diffs : list (StateFieldDiff unit V)) : V -> result V FieldErr :=
  apply_each apply_diff_single diffs.
Definition force_apply_diffs_single (diffs : list (StateFieldDiff unit V)) : V -> result V FieldErr :=
  apply_each force_apply_diff_single diffs.
Definition apply_diffs_single_option (diffs : list (StateFieldDiff unit V)) : option V -> result (option V) FieldErr :=
  apply_each apply_diff_single_option diffs.
Definition apply_diffs_map (diffs : list (StateFieldDiff K V)) : BTreeMap K V -> result (BTreeMap K V) FieldErr :=
  apply_each apply_diff_map diffs.
End apply.

(** ** Round trips *)

Section roundtrip.
Context {K V : Type} `{KeyCmp K} `{!CmpLaws (key_cmp (K := K))} `{ValEq V}.
Hypothesis val_refl : forall v : V, val_eqb v v = true.
Implicit Types (from to m pre : BTreeMap K V).

(** What is in the result for an entry of the target: the entry, or one of
    the source that the two comparisons take for it. *)
Definition entry_from from (a b : K * V) : Prop :=
  a = b \/ a ∈ from /\ key_cmp a.1 b.1 = Eq /\ val_eqb a.2 b.2 = true.

(** Keys that compare as equal are equal, across the two maps. *)
Definition keys_agree from to : Prop :=
  forall a b, a ∈ from -> b ∈ to -> key_cmp a.1 b.1 = Eq -> a.1 = b.1.

Lemma entry_from_mono from from' to m : (forall a, a ∈ from -> a ∈ from') ->
  Forall2 (entry_from from) m to -> Forall2 (entry_from from') m to.
Proof. intros Hsub Hall. eapply Forall2_impl; [exact Hall|]. intros a b [->|(?&?&?)]; [by left|right]. auto. Qed.

Lemma below_snoc pre k k' (v : V) : CMap.below pre k -> key_cmp k k' = Lt -> CMap.below (pre ++ [(k, v)]) k'.
Proof.
  intros Hb E. apply Forall_app. split; [|by repeat constructor].
  eapply Forall_impl; [exact Hb|]. intros kv Hkv. exact (cmp_trans _ _ _ _ Hkv E).
Qed.

(** [pre] is what has been settled already. *)
Definition settled pre m : Prop := Forall (fun kv => CMap.below pre kv.1) m.

Lemma settled_tail pre kv m : settled pre (kv :: m) -> CMap.below pre kv.1 /\ settled pre m.
Proof. by inversion_clear 1. Qed.

Lemma settled_snoc pre k v m : CMap.below pre k -> CMap.above k m -> settled (pre ++ [(k, v)]) m.
Proof. intros Hb Ha. eapply Forall_impl; [exact Ha|]. intros kv. by apply below_snoc. Qed.

Lemma apply_delete pre fk fv from : CMap.below pre fk -> CMap.above fk from ->
  apply_diff_map (FieldDiff fk (Delete fv)) (pre ++ (fk, fv) :: from) = Ok (pre ++ from).
Proof.
  intros Hb Ha. unfold apply_diff_map. simpl. rewrite (CMap.get_skip fk), CMap.get_here by (done || by apply cmp_refl).
  simpl. rewrite val_refl. simpl. rewrite (CMap.remove_skip fk) by done. simpl. rewrite (cmp_refl _).
  by rewrite CMap.remove_above.
Qed.

Lemma apply_insert pre tk tv from : CMap.below pre tk -> CMap.above tk from ->
  apply_diff_map (FieldDiff tk (Insert tv)) (pre ++ from) = Ok (pre ++ (tk, tv) :: from).
Proof.
  intros Hb Ha. unfold apply_diff_map. simpl.
  by rewrite (CMap.get_skip tk), CMap.get_above, (CMap.insert_skip tk), CMap.insert_above by done.
Qed.

Lemma apply_update pre k (fv tv : V) from : CMap.below pre k ->
  apply_diff_map (FieldDiff k (Update fv tv)) (pre ++ (k, fv) :: from) = Ok (pre ++ (k, tv) :: from).
Proof.
  intros Hb. unfold apply_diff_map. simpl. rewrite (CMap.get_skip k), CMap.get_here by (done || by apply cmp_refl).
  simpl. rewrite val_refl. simpl. rewrite (CMap.insert_skip k) by done. simpl. by rewrite (cmp_refl _).
Qed.

Lemma diff_apply_pre from to pre : CMap.sorted from -> CMap.sorted to -> keys_agree from to ->
  settled pre from -> settled pre to ->
  exists m, apply_diffs_map (diff_field_sorted_iter from to) (pre ++ from) = Ok (pre ++ m) /\
            Forall2 (entry_from from) m to.
Proof.
  revert to pre. induction from as [|[fk fv] from IHf].
  - induction to as [|[tk tv] to IHt]; intros pre Hf Ht Hk Hpf Hpt; [by exists []|].
    apply CMap.cmap_sorted_cons in Ht as [Ha Ht]. apply settled_tail in Hpt as [Hb Hpt].
    destruct (IHt (pre ++ [(tk, tv)])) as (m & Hm & Hall); try done.
    { by intros ?? ?%not_elem_of_nil. } { constructor. } { by apply settled_snoc. }
    exists ((tk, tv) :: m). split; [|constructor; [by left|done]].
    unfold apply_diffs_map in *. cbn [diff_field_sorted_iter apply_each].
    rewrite apply_insert by (done || constructor). rewrite <- !app_assoc in Hm. exact Hm.
  - induction to as [|[tk tv] to IHt]; intros pre Hf Ht Hk Hpf Hpt;
      apply CMap.cmap_sorted_cons in Hf as Hf'; destruct Hf' as [Haf Hf']; apply settled_tail in Hpf as Hpf'; destruct Hpf' as [Hbf Hpf'].
    { destruct (IHf [] pre) as (m & Hm & Hall); try done. { by intros ??? ?%not_elem_of_nil. }
      exists m. split; [|eapply entry_from_mono; [|exact Hall]; intros; by apply elem_of_cons; right].
      unfold apply_diffs_map in *. cbn [diff_field_sorted_iter apply_each]. by rewrite apply_delete. }
    apply CMap.cmap_sorted_cons in Ht as Ht'. destruct Ht' as [Hat Ht']. apply settled_tail in Hpt as Hpt'. destruct Hpt' as [Hbt Hpt'].
    unfold apply_diffs_map in *. cbn [diff_field_sorted_iter]. destruct (key_cmp fk tk) eqn:E.
    + assert (fk = tk) as <- by (by apply (Hk (fk, fv) (tk, tv)); rewrite ?elem_of_cons; auto).
      destruct (IHf to (pre ++ [(fk, if val_eqb fv tv then fv else tv)])) as (m & Hm & Hall); try done.
      { intros a b ??. apply Hk; by apply elem_of_cons; right. } { by apply settled_snoc. } { by apply settled_snoc. }
      exists ((fk, if val_eqb fv tv then fv else tv) :: m). rewrite <- !app_assoc in Hm. split.
      * rewrite apply_each_app. destruct (val_eqb fv tv); simpl; [exact Hm|]. by rewrite apply_update.
      * constructor; [|eapply entry_from_mono; [|exact Hall]; intros; by apply elem_of_cons; right].
        destruct (val_eqb fv tv) eqn:Ev; [right|by left]. split; [apply elem_of_cons; by left|]. split; [by apply cmp_refl|done].
    + destruct (IHf ((tk, tv) :: to) pre) as (m & Hm & Hall); try done.
      { intros a b ??. apply Hk; [by apply elem_of_cons; right|done]. }
      exists m. split; [|eapply entry_from_mono; [|exact Hall]; intros; by apply elem_of_cons; right].
      cbn [apply_each]. by rewrite apply_delete.
    + assert (Hgt : key_cmp tk fk = Lt) by (by rewrite (cmp_opp fk tk), E).
      destruct (IHt (pre ++ [(tk, tv)])) as (m & Hm & Hall); try done.
      { intros a b ??. apply Hk; [done|by apply elem_of_cons; right]. }
      { apply settled_snoc; [done|]. constructor; [done|]. by eapply CMap.above_trans. } { by apply settled_snoc. }
      exists ((tk, tv) :: m). rewrite <- !app_assoc in Hm. split; [|constructor; [by left|done]].
      cbn [apply_each]. rewrite apply_insert; [exact Hm|done|].
      constructor; [done|]. by eapply CMap.above_trans.
Qed.

Lemma diff_apply_map from to : CMap.sorted from -> CMap.sorted to -> keys_agree from to ->
  exists m, apply_diffs_map (diff_field_sorted_iter from to) from = Ok m /\ Forall2 (entry_from from) m to.
Proof.
  intros Hf Ht Hk. destruct (diff_apply_pre from to []) as (m & Hm & Hall); try done;
    [apply Forall_forall; intros; constructor..|]. by exists m.
Qed.
End roundtrip.

(** With a comparison of values that is equality the target is restored. *)
Lemma diff_apply_exact {K V : Type} `{KeyCmp K} `{!CmpLaws (key_cmp (K := K))} `{EqDecision V} (from to : BTreeMap K V) :
  CMap.sorted from -> CMap.sorted to -> keys_agree from to ->
  apply_diffs_map (diff_field_sorted_iter from to) from = Ok to.
Proof.
  intros Hf Ht Hk. destruct (diff_apply_map (fun v => bool_decide_eq_true_2 _ eq_refl) from to Hf Ht Hk) as (m & -> & Hall).
  f_equal.
  assert (Hin : Forall (fun b => b ∈ to) to) by (by apply Forall_forall).
  clear Ht. revert Hall Hin. generalize to at 1 3 4 as to'. intros to'.
  induction 1 as [|a b m' to' Hab _ IH]; intros Hin; [done|]. inversion_clear Hin. f_equal; [|by apply IH].
  destruct Hab as [->|(Ha & Ek & Ev)]; [done|]. apply bool_decide_eq_true in Ev.
  apply Hk in Ek; [|done|done]. destruct a, b. simpl in *. congruence.
Qed.
