(* ===== verification/BatchFacts.v ===== *)
(** The runs of a hollow batch partition its parts, and timestamp rewrites
    compose. *)

From S2P Require Import Prelude Timely Batch.
Local Open Scope Z_scope.

Section runs.
Context {T : Type} `{Timely T}.
Abbreviation run := (RunMeta * list (RunPart T))%type.
Implicit Types (rs : list run) (b : HollowBatch T).

(** The ends of consecutive runs that start at [p]. *)
Fixpoint ends (p : nat) rs : list nat :=
  match rs with
  | [] => []
  | r :: rs' => (p + length r.2)%nat :: ends (p + length r.2) rs'
  end.

Definition nonempty_run (r : run) : Prop := r.2 <> [].

Lemma ends_snoc p rs r :
  ends p (rs ++ [r]) = ends p rs ++ [(p + length (concat (snd <$> rs ++ [r])))%nat].
Proof.
  revert p. induction rs as [|r' rs IH]; intros p.
  - simpl. by rewrite app_nil_r.
  - rewrite <- app_comm_cons, fmap_cons. cbn [ends concat]. rewrite IH, (length_app r'.2), <- app_comm_cons.
    do 3 f_equal. lia.
Qed.

(** Slicing at the ends gives the runs back. *)
Lemma slices_of_ends pre rs :
  Forall nonempty_run rs ->
  HollowBatch.slice (pre ++ concat (snd <$> rs)) <$>
    filter (fun r : nat * nat => r.1 < r.2)%nat (HollowBatch.scan_ranges (length pre) (ends (length pre) rs)) =
  Ret ∘ snd <$> rs.
Proof.
  intros Hrs. revert pre. induction Hrs as [|[meta parts] rs Hr _ IH]; intros pre; [done|].
  simpl. unfold nonempty_run in Hr. simpl in Hr.
  assert (0 < length parts)%nat by (destruct parts; simpl; [done|lia]).
  rewrite filter_cons_True by (simpl; lia). simpl. f_equal.
  - unfold HollowBatch.slice. simpl. rewrite !length_app, (proj2 (Nat.leb_le _ _)) by lia.
    rewrite drop_app_length. replace (length pre + length parts - length pre)%nat with (length parts) by lia.
    by rewrite take_app_length.
  - specialize (IH (pre ++ parts)). rewrite length_app, <- app_assoc in IH. done.
Qed.

Lemma zip_eq_map rs : HollowBatch.zip_eq (fst <$> rs) (Ret ∘ snd <$> rs) = Ret <$> rs.
Proof. induction rs as [|[m p] rs IH]; [done|]. rewrite !fmap_cons. simpl. f_equal. exact IH. Qed.

(** A batch assembled from runs: its split points are all their ends but
    the last. *)
Definition assembled b rs : Prop :=
  Forall nonempty_run rs /\ hb_parts b = concat (snd <$> rs) /\ hb_run_meta b = fst <$> rs /\
  hb_run_splits b = take (length rs - 1) (ends 0 rs).

Lemma ends_length p rs : length (ends p rs) = length rs.
Proof. revert p. induction rs; intros p; simpl; congruence. Qed.

Lemma assembled_runs b rs : assembled b rs -> HollowBatch.runs b = Ret <$> rs.
Proof.
  intros (Hne & Hp & Hm & Hs). unfold HollowBatch.runs. rewrite Hm, Hp, Hs.
  destruct rs as [|r rs _] using rev_ind; [done|].
  rewrite ends_snoc, length_app. cbn [length]. rewrite take_app_le by (rewrite ends_length; lia).
  rewrite take_ge by (rewrite ends_length; lia).
  pose proof (ends_snoc 0 rs r) as He. rewrite Nat.add_0_l in He. rewrite <- He. rewrite <- zip_eq_map. f_equal. apply (slices_of_ends []). done.
Qed.

(** *** Every batch that passes the checks of [HollowBatch::new] is
    assembled from runs *)

Definition runs_ok b : Prop :=
  HollowBatch.new_checks (hb_parts b) (hb_run_meta b) (hb_run_splits b) = true /\
  (hb_parts b = [] -> hb_run_meta b = []).

Lemma sorted_cons (x y : nat) l : HollowBatch.is_strictly_sorted (x :: y :: l) = true <->
  (x < y)%nat /\ HollowBatch.is_strictly_sorted (y :: l) = true.
Proof. cbn [HollowBatch.is_strictly_sorted]. rewrite andb_true_iff, Nat.ltb_lt. done. Qed.

(** Cutting a list at increasing points. *)
Lemma cut_ok (parts : list (RunPart T)) metas splits start :
  HollowBatch.is_strictly_sorted (start :: splits) = true ->
  (default start (last splits) < length parts)%nat -> length metas = S (length splits) ->
  exists rs, Forall nonempty_run rs /\ drop start parts = concat (snd <$> rs) /\ metas = fst <$> rs /\
    splits = take (length rs - 1) (ends start rs).
Proof.
  revert metas start. induction splits as [|e splits IH]; intros [|m metas] start Hs Hl Hm; simpl in Hm; try done.
  - destruct metas; [|done]. exists [(m, drop start parts)]. simpl. rewrite app_nil_r. split_and!; try done.
    apply Forall_singleton. unfold nonempty_run. simpl. intros E. apply (f_equal length) in E.
    rewrite length_drop in E. simpl in *. lia.
  - apply sorted_cons in Hs as [Hlt Hs]. destruct (IH metas e) as (rs & Hne & Hd & Hf & He); [done| |lia|].
    { destruct (last splits) eqn:E; [by rewrite last_cons, E in Hl|]. apply last_None in E. by subst. }
    assert (Hlen : (e < length parts)%nat).
    { clear -Hs Hl. revert e Hs Hl. induction splits as [|x splits IH]; intros e Hs Hl; [done|].
      apply sorted_cons in Hs as [Hlt Hs]. specialize (IH x Hs). rewrite last_cons_cons in Hl.
      specialize (IH Hl). lia. }
    assert (Hrs : rs <> []) by (intros ->; by destruct metas; simpl in *).
    exists ((m, take (e - start) (drop start parts)) :: rs). rewrite !fmap_cons. cbn [fst snd ends concat length].
    rewrite length_take, length_drop, Nat.min_l by lia. replace (start + (e - start))%nat with e by lia.
    split_and!.
    + constructor; [|done]. unfold nonempty_run. simpl. intros E. apply (f_equal length) in E.
      rewrite length_take, length_drop in E. simpl in E. lia.
    + rewrite <- Hd. rewrite <- (take_drop (e - start) (drop start parts)) at 1. rewrite drop_drop. do 2 f_equal. lia.
    + by rewrite Hf.
    + destruct rs as [|r rs]; [done|]. cbn [length Nat.sub take] in *. rewrite Nat.sub_0_r in *. by f_equal.
Qed.

Lemma runs_ok_assembled b : runs_ok b -> exists rs, assembled b rs.
Proof.
  intros [Hc Hm]. unfold HollowBatch.new_checks in Hc. rewrite !andb_true_iff, orb_true_iff in Hc.
  destruct Hc as [[[Hs Hh] Hl] [Hp%bool_decide_eq_true|Hn%Nat.eqb_eq]].
  - exists []. rewrite Hp in Hl. destruct (last (hb_run_splits b)) eqn:E; [apply Nat.ltb_lt in Hl; simpl in Hl; lia|].
    apply last_None in E. unfold assembled. rewrite Hp, E, Hm by done. by split_and!.
  - destruct (decide (hb_parts b = [])) as [Hp|Hp].
    { rewrite (Hm Hp) in Hn. simpl in Hn. lia. }
    assert (0 < length (hb_parts b))%nat by (destruct (hb_parts b); simpl; [done|lia]).
    destruct (cut_ok (hb_parts b) (hb_run_meta b) (hb_run_splits b) 0) as (rs & Hrs).
    + destruct (hb_run_splits b) as [|e l]; [done|]. apply sorted_cons. simpl in Hh. by apply Nat.ltb_lt in Hh.
    + destruct (last (hb_run_splits b)); simpl; [by apply Nat.ltb_lt in Hl|done].
    + lia.
    + exists rs. destruct Hrs as (? & Hd & ? & ?). by rewrite drop_0 in Hd.
Qed.
End runs.

Section rewrites.
Context {T : Type} `{TimelyLaws T}.
Implicit Types (b : HollowBatch T) (f u : Antichain T) (p : RunPart T).

Definition is_single p : Prop := match p with Single _ => True | Many _ => False end.

Definition with_rewrite f p : RunPart T :=
  match HollowBatch.rewrite_part f p with Ret p' => p' | Panic => p end.

Definition rewritten b f u : HollowBatch T := {|
  hb_desc := desc_new (d_lower (hb_desc b)) u (d_since (hb_desc b));
  hb_len := hb_len b; hb_parts := with_rewrite f <$> hb_parts b;
  hb_run_splits := hb_run_splits b; hb_run_meta := hb_run_meta b |}.

(** The checks of [rewrite_ts]. *)
Definition rewritable b f u : Prop :=
  less_than f u = true /\ less_than u (d_upper (hb_desc b)) = false /\
  less_than f (d_lower (hb_desc b)) = false /\ d_since (hb_desc b) = min_frontier /\
  Forall (fun p => forall r, RunPart.ts_rewrite p = Some r -> less_than f r = false) (hb_parts b).

Lemma omapM_rewrite f l : Forall is_single l ->
  omapM (HollowBatch.rewrite_part f) l = Ret (with_rewrite f <$> l).
Proof.
  induction 1 as [|p l Hp _ IH]; [done|]. simpl. rewrite IH. unfold with_rewrite at 2.
  by destruct p as [[]|].
Qed.

Lemma rewrite_checked f l :
  existsb (fun p => match RunPart.ts_rewrite p with Some r => less_than f r | None => false end) l = false <->
  Forall (fun p => forall r, RunPart.ts_rewrite p = Some r -> less_than f r = false) l.
Proof.
  induction l as [|p l IH]; [done|]. simpl. rewrite orb_false_iff, Forall_cons, IH.
  destruct (RunPart.ts_rewrite p) as [r|]; split; intros [H1 H2]; split; try done; [by intros ? [= <-]|by apply H1].
Qed.

Lemma rewrite_ts_ok b f u : Forall is_single (hb_parts b) -> rewritable b f u ->
  HollowBatch.rewrite_ts b f u = Ret (Ok (rewritten b f u)).
Proof.
  intros Hsi (H1 & H2 & H3 & H4 & H5%rewrite_checked). unfold HollowBatch.rewrite_ts.
  by rewrite H1, H2, H3, bool_decide_eq_true_2, H5, omapM_rewrite.
Qed.

Lemma rewrite_ts_inv b f u b' : HollowBatch.rewrite_ts b f u = Ret (Ok b') ->
  Forall is_single (hb_parts b) /\ rewritable b f u /\ b' = rewritten b f u.
Proof.
  unfold HollowBatch.rewrite_ts. destruct (less_than f u) eqn:H1; [|done].
  destruct (less_than u _) eqn:H2; [done|]. destruct (less_than f (d_lower _)) eqn:H3; [done|].
  simpl. case_bool_decide as H4; [|done]. destruct (existsb _ _) eqn:H5; [done|]. simpl.
  intros E. assert (Hsi : Forall is_single (hb_parts b)).
  { clear -E. destruct (omapM _ _) as [ps|] eqn:Ho; [|done]. clear E. revert ps Ho.
    induction (hb_parts b) as [|p l IH]; intros ps Ho; [done|]. simpl in Ho.
    destruct p; simpl in Ho; [|done]. constructor; [done|].
    destruct p; simpl in Ho; (destruct (omapM _ l); [|done]); by eapply IH. }
  rewrite omapM_rewrite in E by done. simpl in E. simplify_eq. split_and!; try done.
  split_and!; try done. by apply rewrite_checked.
Qed.

Lemma with_rewrite_ts f p : is_single p -> RunPart.ts_rewrite (with_rewrite f p) = Some f.
Proof. by destruct p as [[]|]. Qed.

Lemma with_rewrite_twice f f' p : is_single p -> with_rewrite f' (with_rewrite f p) = with_rewrite f' p.
Proof. by destruct p as [[]|]. Qed.

Lemma with_rewrite_single f p : is_single p -> is_single (with_rewrite f p).
Proof. by destruct p as [[]|]. Qed.

(** A later rewrite subsumes an earlier one. *)
Lemma rewrite_twice b f u b' f' u' :
  HollowBatch.rewrite_ts b f u = Ret (Ok b') -> less_equal f f' = true -> less_than f' u' = true ->
  less_equal u u' = true ->
  HollowBatch.rewrite_ts b' f' u' = Ret (Ok (rewritten b f' u')) /\
  HollowBatch.rewrite_ts b f' u' = Ret (Ok (rewritten b f' u')).
Proof.
  intros (Hsi & (H1 & H2 & H3 & H4 & H5) & ->)%rewrite_ts_inv Hf Hfu Hu.
  assert (Hback : forall a c, less_equal a c = true -> forall r, less_than a r = false -> less_than c r = false).
  { intros a c Hac r Har. destruct (less_than c r) eqn:E; [|done].
    pose proof (le_lt_trans _ _ _ Hac E). congruence. }
  split.
  - rewrite rewrite_ts_ok.
    + unfold rewritten. simpl. rewrite lower_new, since_new, <- list_fmap_compose. do 3 f_equal.
      eapply list_fmap_ext. intros i p Hp. rewrite Forall_forall in Hsi.
      apply with_rewrite_twice, Hsi. by eapply list_elem_of_lookup_2.
    + simpl. apply Forall_fmap. eapply Forall_impl; [exact Hsi|]. intros p. apply with_rewrite_single.
    + unfold rewritable. simpl. rewrite upper_new, lower_new, since_new. split_and!; try done.
      * destruct (less_than u' u) eqn:E; [|done]. pose proof (le_lt_trans _ _ _ Hu E) as E'.
        by rewrite less_than_irrefl in E'.
      * by eapply Hback.
      * apply Forall_fmap. eapply Forall_impl; [exact Hsi|]. intros p Hp r. simpl.
        rewrite with_rewrite_ts by done. intros [= <-]. eapply Hback; [exact Hf|]. apply less_than_irrefl.
  - apply rewrite_ts_ok; [done|]. split_and!; try done; try by eapply Hback.
    eapply Forall_impl; [exact H5|]. intros p Hp r Hr. eapply Hback; [exact Hf|]. by apply Hp.
Qed.
End rewrites.
