(* ===== verification/Spine.v ===== *)
(** * The spine of a trace (src/src/persist-client/src/internal/trace.rs)

    Persist's fork of differential dataflow's [Spine]: levels of at most two
    batches each; a full level carries a merge that is paid for with fuel.
    This file has the data and the operations; [SpineFacts] the theorems. *)

From S2P Require Import Prelude Timely Paths Batch.

Local Open Scope Z_scope.

(** [SpineId(lo, hi)]: the half-open range of insertions a batch covers. *)
Record SpineId := SId { sid_lo : N; sid_hi : N }.

#[export] Instance SpineId_eqdec : EqDecision SpineId.
Proof. solve_decision. Defined.

Definition SpineId_covers (self other : SpineId) : bool :=
  ((sid_lo self <=? sid_lo other) && (sid_hi other <=? sid_hi self))%N.

Record ActiveCompaction := { ac_start_ms : Z }.

(** The maximum number of batches per level. *)
Definition BATCHES_PER_LEVEL : nat := 2.

Section types.
Context (T : Type) `{Timely T}.

Record IdHollowBatch := { ihb_id : SpineId; ihb_batch : HollowBatch T }.

Record SpineBatch := {
  sb_id : SpineId;
  sb_desc : Description T;
  sb_parts : list IdHollowBatch;
  sb_active_compaction : option ActiveCompaction;
  sb_len : Z;
}.

Record FueledMergeReq := {
  fmr_id : SpineId;
  fmr_desc : Description T;
  fmr_inputs : list IdHollowBatch;
}.

Record FuelingMerge := { fm_since : Antichain T; fm_remaining_work : Z }.

Record IdFuelingMerge := { ifm_id : SpineId; ifm_merge : FuelingMerge }.

(** A level: at most [BATCHES_PER_LEVEL] batches and, when full, their
    merge in progress. *)
Record MergeState := {
  ms_batches : list SpineBatch;
  ms_merge : option IdFuelingMerge;
}.

Record Spine := {
  sp_effort : Z;
  sp_next_id : N;
  sp_since : Antichain T;
  sp_upper : Antichain T;
  sp_merging : list MergeState;
}.

(** A log of the merge requests generated during a spine operation. *)
Inductive SpineLog :=
| LogEnabled (merge_reqs : list FueledMergeReq)
| LogDisabled.
End types.

Arguments ihb_id {T _}.
Arguments ihb_batch {T _}.
Arguments sb_id {T _}.
Arguments sb_desc {T _}.
Arguments sb_parts {T _}.
Arguments sb_active_compaction {T _}.
Arguments sb_len {T _}.
Arguments fmr_id {T _}.
Arguments fmr_desc {T _}.
Arguments fmr_inputs {T _}.
Arguments fm_since {T _}.
Arguments fm_remaining_work {T _}.
Arguments ifm_id {T _}.
Arguments ifm_merge {T _}.
Arguments ms_batches {T _}.
Arguments ms_merge {T _}.
Arguments sp_effort {T _}.
Arguments sp_next_id {T _}.
Arguments sp_since {T _}.
Arguments sp_upper {T _}.
Arguments sp_merging {T _}.
Arguments LogEnabled {T _}.
Arguments LogDisabled {T _}.

Module SpineBatch.
Section ops.
Context {T : Type} `{Timely T}.

Definition merged (batch : IdHollowBatch T) : SpineBatch T := {|
  sb_id := ihb_id batch;
  sb_desc := hb_desc (ihb_batch batch);
  sb_len := hb_len (ihb_batch batch);
  sb_parts := [batch];
  sb_active_compaction := None |}.

Definition lower (b : SpineBatch T) : Antichain T := d_lower (sb_desc b).
Definition upper (b : SpineBatch T) : Antichain T := d_upper (sb_desc b).
Definition since (b : SpineBatch T) : Antichain T := d_since (sb_desc b).

(** [id] soft-asserts [id_checks] and returns the id. *)
Definition id (b : SpineBatch T) : SpineId := sb_id b.
Definition id_checks (b : SpineBatch T) : bool :=
  bool_decide ((fun p => sid_lo (ihb_id p)) <$> head (sb_parts b) = Some (sid_lo (sb_id b)))
  && bool_decide ((fun p => sid_hi (ihb_id p)) <$> last (sb_parts b) = Some (sid_hi (sb_id b))).

Definition run_count (b : SpineBatch T) : nat :=
  sum_list ((fun p => length (hb_run_meta (ihb_batch p))) <$> sb_parts b).

Definition is_compact (b : SpineBatch T) : bool := (run_count b <=? 1)%nat.

Definition is_merging (b : SpineBatch T) : bool :=
  match sb_active_compaction b with Some _ => true | None => false end.

(** [len] returns the cached field, which it debug-asserts to be the sum. *)
Definition parts_len (parts : list (IdHollowBatch T)) : Z :=
  sumZ ((fun p => hb_len (ihb_batch p)) <$> parts).
Definition len (b : SpineBatch T) : Z := sb_len b.

Definition is_empty (b : SpineBatch T) : bool := len b =? 0.

Definition empty (i : SpineId) (lower upper since : Antichain T) : SpineBatch T :=
  merged {| ihb_id := i; ihb_batch := HollowBatch.empty (desc_new lower upper since) |}.

Definition begin_merge (bs : list (SpineBatch T)) (compaction_frontier : option (Antichain T)) :
    option (IdFuelingMerge T) :=
  first ← head bs;
  last_ ← last bs;
  let i := SId (sid_lo (id first)) (sid_hi (id last_)) in
  let since0 := foldl (fun s b => fjoin s (since b)) (since first) bs in
  let since1 := match compaction_frontier with
                | Some f => fjoin since0 f
                | None => since0
                end in
  Some {| ifm_id := i;
          ifm_merge := {| fm_since := since1; fm_remaining_work := sumZ (len <$> bs) |} |}.
End ops.
End SpineBatch.

Module FuelingMerge.
Section ops.
Context {T : Type} `{Timely T}.

(** [work] spends [fuel] (an [isize], possibly negative) and returns what is
    left of it. *)
Definition work (m : FuelingMerge T) (fuel : Z) : FuelingMerge T * Z :=
  let available := if 0 <=? fuel then fuel else 0 in
  let used := Z.min available (fm_remaining_work m) in
  ({| fm_since := fm_since m;
      fm_remaining_work := Z.max (fm_remaining_work m - used) 0 |}, fuel - used).

Definition done (m : FuelingMerge T) (bs : list (SpineBatch T)) (log : SpineLog T) :
    outcome (option (SpineBatch T) * SpineLog T) :=
  match head bs, last bs with
  | Some first, Some last_ =>
      let i := SId (sid_lo (SpineBatch.id first)) (sid_hi (SpineBatch.id last_)) in
      let! _ := assert_ (sid_lo i <? sid_hi i)%N in
      let lower := SpineBatch.lower first in
      let upper := SpineBatch.upper last_ in
      let since := fm_since m in
      if forallb SpineBatch.is_empty bs then
        Ret (Some (SpineBatch.empty i lower upper since), log)
      else
        let desc := desc_new lower upper since in
        let merged_parts := concat (sb_parts <$> bs) in
        let log' := match log with
                    | LogEnabled reqs =>
                        LogEnabled (reqs ++ [{| fmr_id := i; fmr_desc := desc;
                                                fmr_inputs := merged_parts |}])
                    | LogDisabled => LogDisabled
                    end in
        Ret (Some {| sb_id := i; sb_desc := desc; sb_len := sumZ (SpineBatch.len <$> bs);
                     sb_parts := merged_parts; sb_active_compaction := None |}, log')
  | _, _ => Ret (None, log)
  end.
End ops.
End FuelingMerge.

Module MergeState.
Section ops.
Context {T : Type} `{Timely T}.

Definition default : MergeState T := {| ms_batches := []; ms_merge := None |}.

Definition id (s : MergeState T) : option SpineId :=
  match head (ms_batches s), last (ms_batches s) with
  | Some first, Some last_ => Some (SId (sid_lo (SpineBatch.id first)) (sid_hi (SpineBatch.id last_)))
  | _, _ => None
  end.

(** The messages of [try_push_batch]. *)
Inductive PushErr :=
| IdDoesNotChain
| LowerDoesNotMatch
| IncompleteMerge
| FullLayer.

Definition is_full (s : MergeState T) : bool :=
  (length (ms_batches s) =? BATCHES_PER_LEVEL)%nat.

Definition try_push_batch (s : MergeState T) (batch : SpineBatch T) : result (MergeState T) PushErr :=
  let chain_err :=
    match last (ms_batches s) with
    | Some last_ =>
        if negb (bool_decide (sid_hi (SpineBatch.id last_) = sid_lo (SpineBatch.id batch)))
        then Some IdDoesNotChain
        else if negb (bool_decide (SpineBatch.upper last_ = SpineBatch.lower batch))
        then Some LowerDoesNotMatch
        else None
    | None => None
    end in
  match chain_err with
  | Some e => Err e
  | None =>
      match ms_merge s with
      | Some _ => Err IncompleteMerge
      | None =>
          if is_full s then Err FullLayer
          else Ok {| ms_batches := ms_batches s ++ [batch]; ms_merge := ms_merge s |}
      end
  end.

Definition push_batch (s : MergeState T) (batch : SpineBatch T) : outcome (MergeState T) :=
  match try_push_batch s batch with Ok s' => Ret s' | Err _ => Panic end.

Definition single (batch : SpineBatch T) : outcome (MergeState T) := push_batch default batch.

Definition len (s : MergeState T) : Z := sumZ (SpineBatch.len <$> ms_batches s).

Definition is_empty (s : MergeState T) : bool := forallb SpineBatch.is_empty (ms_batches s).

Definition is_vacant (s : MergeState T) : bool := bool_decide (length (ms_batches s) = 0%nat).

Definition is_single (s : MergeState T) : bool := (length (ms_batches s) =? 1)%nat.

(** [complete] takes the level, leaving [default] behind; [self.batches] in
    its fallback is the taken, hence empty, level. *)
Definition complete (s : MergeState T) (log : SpineLog T) :
    outcome (option (SpineBatch T) * SpineLog T) :=
  let self := default in
  if (length (ms_batches s) <=? 1)%nat then Ret (last (ms_batches s), log)
  else
    match (match ms_merge s with
           | Some m => Some m
           | None => SpineBatch.begin_merge (ms_batches self) None
           end) with
    | None => Ret (None, log)
    | Some id_merge => FuelingMerge.done (ifm_merge id_merge) (ms_batches s) log
    end.

Definition is_complete (s : MergeState T) : bool :=
  match ms_merge s with
  | Some m => fm_remaining_work (ifm_merge m) =? 0
  | None => false
  end.

Definition work (s : MergeState T) (fuel : Z) : MergeState T * Z :=
  match ms_merge s with
  | Some m =>
      let '(m', fuel') := FuelingMerge.work (ifm_merge m) fuel in
      ({| ms_batches := ms_batches s;
          ms_merge := Some {| ifm_id := ifm_id m; ifm_merge := m' |} |}, fuel')
  | None => (s, fuel)
  end.
End ops.
End MergeState.

Module Spine.
Section ops.
Context {T : Type} `{Timely T}.

Definition with_merging (s : Spine T) (m : list (MergeState T)) : Spine T := {|
  sp_effort := sp_effort s; sp_next_id := sp_next_id s; sp_since := sp_since s;
  sp_upper := sp_upper s; sp_merging := m |}.

Definition with_upper (s : Spine T) (u : Antichain T) : Spine T := {|
  sp_effort := sp_effort s; sp_next_id := sp_next_id s; sp_since := sp_since s;
  sp_upper := u; sp_merging := sp_merging s |}.

Definition with_since (s : Spine T) (since : Antichain T) : Spine T := {|
  sp_effort := sp_effort s; sp_next_id := sp_next_id s; sp_since := since;
  sp_upper := sp_upper s; sp_merging := sp_merging s |}.

(** All batches, oldest to newest. *)
Definition spine_batches (s : Spine T) : list (SpineBatch T) :=
  concat (ms_batches <$> rev (sp_merging s)).

Definition new : Spine T := {|
  sp_effort := 1; sp_next_id := 0%N; sp_since := min_frontier;
  sp_upper := min_frontier; sp_merging := [] |}.

Definition next_id (s : Spine T) : SpineId * Spine T :=
  (SId (sp_next_id s) (sp_next_id s + 1)%N,
   {| sp_effort := sp_effort s; sp_next_id := (sp_next_id s + 1)%N; sp_since := sp_since s;
      sp_upper := sp_upper s; sp_merging := sp_merging s |}).

Definition reduced (s : Spine T) : bool :=
  (sum_list (SpineBatch.run_count <$> spine_batches s) <? 2)%nat.

(** [while self.merging.len() <= index { push(default) }] *)
Definition pad (m : list (MergeState T)) (index : nat) : list (MergeState T) :=
  m ++ replicate (S index - length m) MergeState.default.

Definition insert_at (s : Spine T) (batch : SpineBatch T) (i : nat) : outcome (Spine T) :=
  let merging := pad (sp_merging s) i in
  let! m := index merging i in
  let! m := MergeState.push_batch m batch in
  let m := if MergeState.is_full m
           then {| ms_batches := ms_batches m;
                   ms_merge := SpineBatch.begin_merge (ms_batches m) (Some (sp_since s)) |}
           else m in
  Ret (with_merging s (<[i := m]> merging)).

(** Returns what was completed and leaves the level vacant. *)
Definition complete_at (s : Spine T) (i : nat) (log : SpineLog T) :
    outcome (Spine T * option (SpineBatch T) * SpineLog T) :=
  let! m := index (sp_merging s) i in
  let! (c, log) := MergeState.complete m log in
  Ret (with_merging s (<[i := MergeState.default]> (sp_merging s)), c, log).

Definition apply_fuel_step (fuel : Z) (st : Spine T * SpineLog T) (i : nat) :
    outcome (Spine T * SpineLog T) :=
  let '(s, log) := st in
  let! m := index (sp_merging s) i in
  let m := (MergeState.work m fuel).1 in
  let s := with_merging s (<[i := m]> (sp_merging s)) in
  if MergeState.is_complete m then
    let! (s, c, log) := complete_at s i log in
    let! complete := expect c in
    let! s := insert_at s complete (S i) in
    Ret (s, log)
  else Ret (s, log).

Definition apply_fuel (s : Spine T) (fuel : Z) (log : SpineLog T) : outcome (Spine T * SpineLog T) :=
  foldM (apply_fuel_step fuel) (seq 0 (length (sp_merging s))) (s, log).

Definition roll_up_step (st : Spine T * option (SpineBatch T) * SpineLog T) (i : nat) :
    outcome (Spine T * option (SpineBatch T) * SpineLog T) :=
  let '(s, merged, log) := st in
  let! s := match merged with Some b => insert_at s b i | None => Ret s end in
  complete_at s i log.

Definition roll_up (s : Spine T) (i : nat) (log : SpineLog T) : outcome (Spine T * SpineLog T) :=
  let s := with_merging s (pad (sp_merging s) i) in
  if existsb (fun m => negb (MergeState.is_vacant m)) (take i (sp_merging s)) then
    let! (s, merged, log) := foldM roll_up_step (seq 0 i) (s, None, log) in
    let! s := match merged with Some b => insert_at s b i | None => Ret s end in
    let! m := index (sp_merging s) i in
    if MergeState.is_full m then
      let! (s, c, log) := complete_at s i log in
      let! merged := expect c in
      let! s := insert_at s merged (S i) in
      Ret (s, log)
    else Ret (s, log)
  else Ret (s, log).

(** One turn of the loop of [tidy_layers]; [None] is the [break]. *)
Definition smaller_records (ms : list (MergeState T)) : Z :=
  sumZ (imap (fun i m => usize_shl (Z.of_nat (length (ms_batches m))) i) ms).

Definition tidy_step (s : Spine T) : outcome (Spine T * bool) :=
  let length_ := length (sp_merging s) in
  let! current := index (sp_merging s) (length_ - 2) in
  if MergeState.is_vacant current then
    Ret (with_merging s (delete (length_ - 2)%nat (sp_merging s)), true)
  else if negb (MergeState.is_full current) then
    let smaller := smaller_records (take (length_ - 2) (sp_merging s)) in
    if smaller <=? usize_shl 1 length_ / 8 then
      let s := with_merging s (delete (length_ - 2)%nat (sp_merging s)) in
      let! _ := assert_ (length (ms_batches current) =? 1)%nat in
      let! s := foldM (fun s b => insert_at s b (length_ - 2)) (ms_batches current) s in
      Ret (s, false)
    else Ret (s, false)
  else Ret (s, false).

(** Every turn that continues removes a level, so the number of levels
    bounds the number of turns. *)
Fixpoint tidy_loop (turns : nat) (appropriate_level : nat) (s : Spine T) : outcome (Spine T) :=
  match turns with
  | O => Ret s
  | S turns =>
      if (appropriate_level <? length (sp_merging s) - 1)%nat then
        let! (s, continue) := tidy_step s in
        if continue then tidy_loop turns appropriate_level s else Ret s
      else Ret s
  end.

Definition level_of (len : Z) : nat := trailing_zeros (next_power_of_two len).

Definition tidy_layers (s : Spine T) : outcome (Spine T) :=
  match last (sp_merging s) with
  | None => Ret s
  | Some top =>
      if MergeState.is_single top then
        tidy_loop (length (sp_merging s)) (level_of (MergeState.len top)) s
      else Ret s
  end.

(** Step 0 of [introduce_batch]: the fuel for a batch at a level. *)
Definition fuel_for (effort : Z) (batch_index : nat) : Z :=
  default isize_max
    (fuel ← usize_checked_shl 8 batch_index;
     fuel ← usize_checked_mul fuel effort;
     isize_try_from fuel).

Definition introduce_batch (s : Spine T) (batch : SpineBatch T) (batch_index : nat) (log : SpineLog T) :
    outcome (Spine T * SpineLog T) :=
  let fuel := fuel_for (sp_effort s) batch_index in
  let! (s, log) := apply_fuel s fuel log in
  let! (s, log) := roll_up s batch_index log in
  let! s := insert_at s batch batch_index in
  let! s := tidy_layers s in
  Ret (s, log).

(** [exert] reports whether it did work. *)
Definition exert (s : Spine T) (effort : Z) (log : SpineLog T) : outcome (Spine T * bool * SpineLog T) :=
  let! s := tidy_layers s in
  if reduced s then Ret (s, false, log)
  else if existsb (fun m => match ms_merge m with Some _ => true | None => false end) (sp_merging s) then
    let fuel := default isize_max (isize_try_from effort) in
    let! (s, log) := apply_fuel s fuel log in
    Ret (s, true, log)
  else
    let level := level_of effort in
    let '(i, s) := next_id s in
    let! (s, log) :=
      introduce_batch s (SpineBatch.empty i (sp_upper s) (sp_upper s) (sp_since s)) level log in
    Ret (s, true, log).

(** [self.merging.iter().position(|m| !m.is_vacant())] *)
Definition first_nonvacant (ms : list (MergeState T)) : option (nat * MergeState T) :=
  list_find (fun m => MergeState.is_vacant m = false) ms.

Definition insert (s : Spine T) (batch : HollowBatch T) (log : SpineLog T) :
    outcome (Spine T * SpineLog T) :=
  let! _ := assert_ (negb (bool_decide (d_lower (hb_desc batch) = d_upper (hb_desc batch)))) in
  let! _ := assert_ (bool_decide (d_lower (hb_desc batch) = sp_upper s)) in
  let '(i, s) := next_id s in
  let batch := SpineBatch.merged {| ihb_id := i; ihb_batch := batch |} in
  let s := with_upper s (SpineBatch.upper batch) in
  match (if SpineBatch.is_empty batch then
           match first_nonvacant (sp_merging s) with
           | Some (position, m) =>
               if MergeState.is_single m && MergeState.is_empty m then Some position else None
           | None => None
           end
         else None) with
  | Some position =>
      let! s := insert_at s batch position in
      let! (s, merged, log) := complete_at s position log in
      match merged with
      | Some merged =>
          let! m := MergeState.single merged in
          Ret (with_merging s (<[position := m]> (sp_merging s)), log)
      | None => Ret (s, log)
      end
  | None => introduce_batch s batch (level_of (SpineBatch.len batch)) log
  end.

(** The messages of [validate]. *)
Inductive ValidateErr :=
| FullWithoutMerge
| MergeWithoutFull
| MergeIdMismatch
| BatchIdMismatch
| BatchLowerMismatch
| BatchSincePastSpine
| NextIdMismatch
| UpperMismatch.

Definition validate_level (x : MergeState T) : option ValidateErr :=
  if negb (Bool.eqb (MergeState.is_full x) (match ms_merge x with Some _ => true | None => false end))
  then Some FullWithoutMerge
  else match ms_merge x with
       | Some m =>
           if negb (MergeState.is_full x) then Some MergeWithoutFull
           else if negb (bool_decide (MergeState.id x = Some (ifm_id m))) then Some MergeIdMismatch
           else None
       | None => None
       end.

Fixpoint validate_batches (since : Antichain T) (bs : list (SpineBatch T)) (hi : N) (frontier : Antichain T) :
    result (N * Antichain T) ValidateErr :=
  match bs with
  | [] => Ok (hi, frontier)
  | b :: bs' =>
      if negb (bool_decide (sid_lo (SpineBatch.id b) = hi)) then Err BatchIdMismatch
      else if negb (bool_decide (SpineBatch.lower b = frontier)) then Err BatchLowerMismatch
      else if negb (less_equal (SpineBatch.since b) since) then Err BatchSincePastSpine
      else validate_batches since bs' (sid_hi (SpineBatch.id b)) (SpineBatch.upper b)
  end.

Fixpoint validate_levels (since : Antichain T) (xs : list (MergeState T)) (hi : N) (frontier : Antichain T) :
    result (N * Antichain T) ValidateErr :=
  match xs with
  | [] => Ok (hi, frontier)
  | x :: xs' =>
      match validate_level x with
      | Some e => Err e
      | None =>
          match validate_batches since (ms_batches x) hi frontier with
          | Err e => Err e
          | Ok (hi, frontier) => validate_levels since xs' hi frontier
          end
      end
  end.

Definition validate (s : Spine T) : result unit ValidateErr :=
  match validate_levels (sp_since s) (rev (sp_merging s)) 0%N min_frontier with
  | Err e => Err e
  | Ok (hi, frontier) =>
      if negb (bool_decide (sp_next_id s = hi)) then Err NextIdMismatch
      else if negb (bool_decide (sp_upper s = frontier)) then Err UpperMismatch
      else Ok tt
  end.
End ops.
End Spine.

(** A run: seven one-update batches and the levels they end up in. *)
Example spine_run :
  let desc i := desc_new (T := N) (Some i) (Some (i + 1)%N) (Some 0%N) in
  let ins st i := let! (s, log) := st in
                  Spine.insert s {| hb_desc := desc i; hb_len := 1; hb_parts := [];
                                    hb_run_splits := []; hb_run_meta := [] |} log in
  (let! (s, _) := foldl ins (Ret (Spine.new, LogDisabled)) [0; 1; 2; 3; 4; 5; 6]%N in
   Ret ((fun m => length (ms_batches m)) <$> sp_merging s, Spine.validate s))
  = Ret ([1; 1; 1]%nat, Ok tt).
Proof. vm_compute. reflexivity. Qed.
