(* ===== verification/SpineFacts.v ===== *)
(** * The spine's invariants

    The documentation of [Spine] argues informally that the fuel given to
    every merge is enough for it to complete before the levels below can
    produce a batch that collides with it, and leaves "verify fuel and level
    invariants" as a TODO of [validate].  This file carries the argument out:
    [spine_ok] is preserved by every operation, none of which panics. *)

From S2P Require Import Prelude Timely Paths Batch Spine.

Local Open Scope Z_scope.

(** ** Segments: ids and descriptions that tile an interval *)

Section segments.
Context {T : Type} `{Timely T}.

Definition seg : Type := SpineId * Description T.

(** The segments line up from [(lo, f)] to [(hi, u)]. *)
Fixpoint chain (lo : N) (f : Antichain T) (l : list seg) (hi : N) (u : Antichain T) : Prop :=
  match l with
  | [] => lo = hi /\ f = u
  | (i, d) :: l' => sid_lo i = lo /\ d_lower d = f /\ chain (sid_hi i) (d_upper d) l' hi u
  end.

Lemma chain_app lo f a b hi u :
  chain lo f (a ++ b) hi u <-> exists m g, chain lo f a m g /\ chain m g b hi u.
Proof.
  revert lo f; induction a as [|[i d] a IH]; intros lo f; simpl.
  - split; [intros; by exists lo, f|]. intros (m & g & [-> ->] & ?). done.
  - split.
    + intros (? & ? & (m & g & ? & ?)%IH). by exists m, g.
    + intros (m & g & (? & ? & ?) & ?). split_and!; try done. apply IH. by exists m, g.
Qed.

Lemma chain_last lo f l i d hi u :
  chain lo f (l ++ [(i, d)]) hi u -> sid_hi i = hi /\ d_upper d = u.
Proof. intros (m & g & _ & Hc)%chain_app. simpl in Hc. tauto. Qed.

(** Increasing ids: a nonempty chain of nonempty id ranges is one. *)
Lemma chain_lo_hi lo f l hi u :
  chain lo f l hi u -> Forall (fun s => (sid_lo s.1 < sid_hi s.1)%N) l ->
  (lo <= hi)%N /\ (l <> [] -> (lo < hi)%N).
Proof.
  revert lo f; induction l as [|[i d] l IH]; intros lo f Hc Hf; simpl in *.
  - destruct Hc as [-> _]. split; [lia|done].
  - destruct Hc as (<- & _ & Hc). inversion_clear Hf as [|?? Hi Hl].
    destruct (IH _ _ Hc Hl) as [? _]. simpl in Hi. split; [lia|intros; lia].
Qed.

Definition batch_seg (b : SpineBatch T) : seg := (sb_id b, sb_desc b).
Definition part_seg (p : IdHollowBatch T) : seg := (ihb_id p, hb_desc (ihb_batch p)).

(** The nonempty hollow batches, in order: what a reader of the trace sees. *)
Definition data_of (bs : list (SpineBatch T)) : list (HollowBatch T) :=
  filter (fun h => hb_len h <> 0) (ihb_batch <$> concat (sb_parts <$> bs)).

Lemma data_of_app a b : data_of (a ++ b) = data_of a ++ data_of b.
Proof. unfold data_of. by rewrite fmap_app, concat_app, fmap_app, filter_app. Qed.

(** The batches of levels, newest level first. *)
Definition batches_of (ms : list (MergeState T)) : list (SpineBatch T) :=
  concat (ms_batches <$> rev ms).

Lemma batches_of_app a b : batches_of (a ++ b) = batches_of b ++ batches_of a.
Proof. unfold batches_of. by rewrite rev_app_distr, fmap_app, concat_app. Qed.

Lemma batches_of_cons m ms : batches_of (m :: ms) = batches_of ms ++ ms_batches m.
Proof.
  change (m :: ms) with ([m] ++ ms). rewrite batches_of_app.
  unfold batches_of at 2. simpl. by rewrite app_nil_r.
Qed.

Lemma batches_of_nil : batches_of [] = [].
Proof. done. Qed.
End segments.

Lemma sumZ_app a b : sumZ (a ++ b) = sumZ a + sumZ b.
Proof. unfold sumZ. induction a; simpl; lia. Qed.

Lemma sumZ_nonneg l : Forall (fun x => 0 <= x) l -> 0 <= sumZ l.
Proof. unfold sumZ. induction 1; simpl; lia. Qed.

Lemma sumZ_zero l : Forall (fun x => 0 <= x) l -> sumZ l = 0 -> Forall (fun x => x = 0) l.
Proof.
  induction 1 as [|x l Hx Hl IH]; simpl; intros Hs; constructor;
    pose proof (sumZ_nonneg l Hl); unfold sumZ in *; simpl in *; [lia|apply IH; lia].
Qed.

(** ** The invariant *)

Section invariant.
Context {T : Type} `{TimelyLaws T}.
Implicit Types (b : SpineBatch T) (m : MergeState T) (ms : list (MergeState T)) (s : Spine T).

(** A hollow batch: an ordered range of times, which is not empty unless
    the batch is, and lengths that are not negative. *)
Record hollow_ok (h : HollowBatch T) : Prop := {
  ho_ordered : less_equal (d_lower (hb_desc h)) (d_upper (hb_desc h)) = true;
  ho_times : hb_parts h = [] \/ d_lower (hb_desc h) <> d_upper (hb_desc h);
  ho_len : 0 <= hb_len h;
  ho_metas : Forall (fun rm => 0 <= default 0 (rm_len rm)) (hb_run_meta h);
}.

(** A spine batch: its parts tile its id range and its times, its cached
    length is theirs, and its since has been reached. *)
Record batch_wf (since : Antichain T) b : Prop := {
  bw_id : (sid_lo (sb_id b) < sid_hi (sb_id b))%N;
  bw_chain : chain (sid_lo (sb_id b)) (SpineBatch.lower b) (part_seg <$> sb_parts b)
               (sid_hi (sb_id b)) (SpineBatch.upper b);
  bw_len : sb_len b = SpineBatch.parts_len (sb_parts b);
  bw_parts : Forall (fun p => hollow_ok (ihb_batch p)) (sb_parts b);
  bw_part_ids : Forall (fun p => (sid_lo (ihb_id p) < sid_hi (ihb_id p))%N) (sb_parts b);
  bw_since : less_equal (SpineBatch.since b) since = true;
}.

(** The shape of a level: the full levels are the merging ones, and the
    merge is one of the batches there. *)
Definition shape_ok (since : Antichain T) m : Prop :=
  match ms_merge m with
  | None => (length (ms_batches m) < 2)%nat
  | Some im =>
      length (ms_batches m) = 2%nat /\ MergeState.id m = Some (ifm_id im) /\
      less_equal (fm_since (ifm_merge im)) since = true /\
      0 <= fm_remaining_work (ifm_merge im)
  end.

(** The fuel argument: a merge at level [k] with [n] virtual records below
    it and [r] units of work left completes before the records below reach
    [2 ^ k], each record introduced bringing four units of fuel.  [credit]
    is fuel already spent on records not introduced yet. *)
Definition fuel_ok (credit n : Z) (k : nat) m : Prop :=
  match ms_merge m with
  | None => True
  | Some im => 4 * n + Z.max (fm_remaining_work (ifm_merge im)) 1 + credit <= 4 * 2 ^ Z.of_nat k
  end.

Definition level_ok (since : Antichain T) (credit n : Z) (k : nat) m : Prop :=
  shape_ok since m /\ fuel_ok credit n k m /\
  Forall (fun b => batch_wf since b /\ sb_len b <= 2 ^ Z.of_nat k) (ms_batches m).

(** A batch at level [k] counts as [2 ^ k] virtual records. *)
Definition level_records (k : nat) m : Z := Z.of_nat (length (ms_batches m)) * 2 ^ Z.of_nat k.

Fixpoint records (k : nat) ms : Z :=
  match ms with
  | [] => 0
  | m :: ms' => level_records k m + records (S k) ms'
  end.

Fixpoint levels_ok (since : Antichain T) (credit : Z) (k : nat) (n : Z) ms : Prop :=
  match ms with
  | [] => True
  | m :: ms' => level_ok since credit n k m /\ levels_ok since credit (S k) (n + level_records k m) ms'
  end.

(** The topmost level is occupied. *)
Definition top_ok ms : Prop :=
  match last ms with Some m => ms_batches m <> [] | None => True end.

Record spine_ok s : Prop := {
  so_levels : levels_ok (sp_since s) 0 0 0 (sp_merging s);
  so_chain : chain 0 min_frontier (batch_seg <$> Spine.spine_batches s) (sp_next_id s) (sp_upper s);
  so_top : top_ok (sp_merging s);
  so_effort : sp_effort s = 1;
}.

(** *** Records *)

Lemma level_records_nonneg k m : 0 <= level_records k m.
Proof. unfold level_records. pose proof (pow2_pos k). nia. Qed.

Lemma records_nonneg k ms : 0 <= records k ms.
Proof.
  revert k; induction ms as [|m ms IH]; intros k; simpl; [lia|].
  pose proof (level_records_nonneg k m). pose proof (IH (S k)). lia.
Qed.

Lemma records_app k xs ys : records k (xs ++ ys) = records k xs + records (k + length xs) ys.
Proof.
  revert k; induction xs as [|m xs IH]; intros k; simpl; [by rewrite Nat.add_0_r|].
  rewrite IH. replace (S k + length xs)%nat with (k + S (length xs))%nat by lia. lia.
Qed.

Lemma levels_ok_app since c k n xs ys :
  levels_ok since c k n (xs ++ ys) <->
  levels_ok since c k n xs /\ levels_ok since c (k + length xs) (n + records k xs) ys.
Proof.
  revert k n; induction xs as [|m xs IH]; intros k n; simpl.
  - rewrite Nat.add_0_r, Z.add_0_r. tauto.
  - rewrite IH. replace (S k + length xs)%nat with (k + S (length xs))%nat by lia.
    replace (n + level_records k m + records (S k) xs) with (n + (level_records k m + records (S k) xs)) by lia.
    tauto.
Qed.

(** Credit pays for new records below. *)
Lemma fuel_ok_credit c c' n n' k m :
  fuel_ok c n k m -> 4 * n' + c' <= 4 * n + c -> fuel_ok c' n' k m.
Proof. unfold fuel_ok. destruct (ms_merge m); [lia|done]. Qed.

Lemma levels_ok_credit since c c' k n n' ms :
  levels_ok since c k n ms -> 4 * n' + c' <= 4 * n + c -> levels_ok since c' k n' ms.
Proof.
  revert k n n'; induction ms as [|m ms IH]; intros k n n' Hl Hle; simpl in *; [done|].
  destruct Hl as [(Hs & Hf & Hb) Hl]. split.
  - split_and!; eauto using fuel_ok_credit.
  - eapply IH; [exact Hl|lia].
Qed.

Lemma levels_ok_no_merge since c c' k n ms :
  levels_ok since c k n ms -> Forall (fun m => ms_merge m = None) ms -> levels_ok since c' k n ms.
Proof.
  revert k n; induction ms as [|m ms IH]; intros k n Hl Hm; simpl in *; [done|].
  inversion_clear Hm as [|?? Hm1 Hm2]. destruct Hl as [(Hs & Hf & Hb) Hl]. split; [|by apply IH].
  split_and!; [done| |done]. unfold fuel_ok. by rewrite Hm1.
Qed.

Lemma level_ok_default since c n k : level_ok since c n k MergeState.default.
Proof. split_and!; [|done|constructor]. unfold shape_ok. simpl. lia. Qed.

Lemma level_records_default k : level_records k MergeState.default = 0.
Proof. done. Qed.

Lemma levels_ok_replicate since c k n j :
  levels_ok since c k n (replicate j MergeState.default).
Proof.
  revert k n; induction j as [|j IH]; intros k n; simpl; [done|].
  split; [apply level_ok_default|apply IH].
Qed.

Lemma records_replicate k j : records k (replicate j MergeState.default) = 0.
Proof. revert k; induction j as [|j IH]; intros k; simpl; [done|]. rewrite IH. done. Qed.

Lemma levels_ok_lookup since c k n ms a m rest :
  ms = a ++ m :: rest -> levels_ok since c k n ms ->
  level_ok since c (n + records k a) (k + length a) m.
Proof. intros -> [_ Hl]%levels_ok_app. simpl in Hl. tauto. Qed.

(** A level whose merge still has work after [credit] units has a level
    number that [credit] does not reach. *)
Lemma credit_no_merge since c n k m :
  level_ok since c n k m -> 0 <= n -> 4 * 2 ^ Z.of_nat k <= c -> ms_merge m = None.
Proof.
  intros (_ & Hf & _) Hn Hc. unfold fuel_ok in Hf. destruct (ms_merge m); [lia|done].
Qed.

Lemma shape_no_merge since m : shape_ok since m -> ms_merge m = None -> (length (ms_batches m) <= 1)%nat.
Proof. unfold shape_ok. intros Hs Hm. rewrite Hm in Hs. lia. Qed.

Lemma shape_short since m : shape_ok since m -> (length (ms_batches m) <= 1)%nat -> ms_merge m = None.
Proof. unfold shape_ok. destruct (ms_merge m); [lia|done]. Qed.
End invariant.

(** ** One level at a time *)

Section levels.
Context {T : Type} `{TimelyLaws T}.
Implicit Types (b : SpineBatch T) (m : MergeState T) (ms : list (MergeState T)) (s : Spine T).

Lemma bw_nonneg since b : batch_wf since b -> Forall (fun p => 0 <= hb_len (ihb_batch p)) (sb_parts b).
Proof. intros Hb. eapply Forall_impl; [apply (bw_parts _ _ Hb)|]. by intros p []. Qed.

(** In a tiling of ordered parts every frontier is past the first one. *)
Lemma chain_le lo f (ps : list (IdHollowBatch T)) hi u :
  chain lo f (part_seg <$> ps) hi u -> Forall (fun p => hollow_ok (ihb_batch p)) ps ->
  less_equal f u = true /\ Forall (fun p => less_equal f (d_lower (hb_desc (ihb_batch p))) = true) ps.
Proof.
  revert lo f. induction ps as [|p ps IH]; intros lo f Ht Ho.
  - destruct Ht as [_ ->]. split; [apply le_refl|done].
  - destruct Ht as (_ & Hf & Ht). inversion_clear Ho as [|?? [Hp _ _ _] Ho']. simpl in Hf. subst f.
    destruct (IH _ _ Ht Ho') as [Hu Hl]. split; [by eapply le_trans|]. constructor; [apply le_refl|].
    eapply Forall_impl; [exact Hl|]. intros q Hq. by eapply le_trans.
Qed.

Lemma batch_wf_ordered since b : batch_wf since b -> less_equal (SpineBatch.lower b) (SpineBatch.upper b) = true.
Proof. intros Hb. eapply chain_le; [apply (bw_chain _ _ Hb)|apply (bw_parts _ _ Hb)]. Qed.

Lemma batch_wf_nonneg since b : batch_wf since b -> 0 <= sb_len b.
Proof.
  intros Hb. rewrite (bw_len _ _ Hb). apply sumZ_nonneg, Forall_fmap.
  eapply Forall_impl; [apply (bw_nonneg _ _ Hb)|done].
Qed.

Lemma batch_wf_since since since' b :
  batch_wf since b -> less_equal since since' = true -> batch_wf since' b.
Proof. intros []. split; eauto using le_trans. Qed.

Lemma data_of_empty since b : batch_wf since b -> sb_len b = 0 -> data_of [b] = [].
Proof.
  intros Hb Hl. rewrite (bw_len _ _ Hb) in Hl. unfold data_of. simpl. rewrite app_nil_r.
  apply sumZ_zero in Hl.
  - induction (sb_parts b) as [|p ps IH]; [done|]. simpl in *.
    inversion_clear Hl. rewrite filter_cons_False by auto. by apply IH.
  - apply Forall_fmap. eapply Forall_impl; [apply (bw_nonneg _ _ Hb)|done].
Qed.

(** A batch that a new hollow batch becomes. *)
Lemma merged_wf since i (h : HollowBatch T) :
  (sid_lo i < sid_hi i)%N -> hollow_ok h -> less_equal (d_since (hb_desc h)) since = true ->
  batch_wf since (SpineBatch.merged {| ihb_id := i; ihb_batch := h |}).
Proof.
  intros Hi Hh Hs. split; simpl; try done.
  - unfold SpineBatch.parts_len. simpl. lia.
  - by apply Forall_singleton.
  - by apply Forall_singleton.
Qed.

Lemma empty_ok (d : Description T) : less_equal (d_lower d) (d_upper d) = true -> hollow_ok (HollowBatch.empty d).
Proof. split; try done. by left. Qed.

Lemma empty_wf since i (l u s : Antichain T) :
  (sid_lo i < sid_hi i)%N -> less_equal l u = true -> less_equal s since = true ->
  batch_wf since (SpineBatch.empty i l u s).
Proof.
  intros Hi Hl Hs. apply merged_wf; [done| |].
  - apply empty_ok. by rewrite lower_new, upper_new.
  - simpl. by rewrite since_new.
Qed.

(** What completing a level yields. *)
Definition completes (since : Antichain T) m (r : option (SpineBatch T)) (lo : N) (f : Antichain T)
    (hi : N) (u : Antichain T) : Prop :=
  match r with
  | None => ms_batches m = []
  | Some x =>
      ms_batches m <> [] /\ batch_wf since x /\ chain lo f [batch_seg x] hi u /\
      sb_len x = MergeState.len m /\ data_of [x] = data_of (ms_batches m)
  end.

Lemma done_ok since (fm : FuelingMerge T) b1 b2 log lo f hi u :
  batch_wf since b1 -> batch_wf since b2 -> less_equal (fm_since fm) since = true ->
  chain lo f (batch_seg <$> [b1; b2]) hi u ->
  exists x log', FuelingMerge.done fm [b1; b2] log = Ret (Some x, log') /\
    batch_wf since x /\ chain lo f [batch_seg x] hi u /\
    sb_len x = sb_len b1 + sb_len b2 /\ data_of [x] = data_of [b1; b2].
Proof.
  intros H1 H2 Hs Hc. simpl in Hc. destruct Hc as (Hlo & Hf & Hmid & Hg & Hhi & Hu).
  pose proof (bw_id _ _ H1). pose proof (bw_id _ _ H2).
  unfold FuelingMerge.done. simpl. unfold SpineBatch.id, assert_.
  rewrite (proj2 (N.ltb_lt _ _)) by lia. simpl. rewrite andb_true_r.
  destruct (SpineBatch.is_empty b1 && SpineBatch.is_empty b2) eqn:He.
  - apply andb_true_iff in He as [He1%Z.eqb_eq He2%Z.eqb_eq].
    unfold SpineBatch.len in *. eexists _, _. split; [done|]. refine (conj _ (conj _ (conj _ _))).
    + apply empty_wf; simpl; [lia| |done]. apply batch_wf_ordered in H1, H2.
      eapply le_trans; [exact H1|]. unfold SpineBatch.upper. by rewrite <- Hg.
    + simpl. rewrite lower_new, upper_new. by rewrite <- Hlo, <- Hf.
    + simpl. lia.
    + unfold data_of at 1. simpl.
      change [b1; b2] with ([b1] ++ [b2]).
      rewrite data_of_app, (data_of_empty since b1), (data_of_empty since b2); done.
  - eexists _, _. split; [done|]. refine (conj _ (conj _ (conj _ _))).
    + split; simpl; try lia.
      * unfold SpineBatch.lower, SpineBatch.upper. simpl. rewrite lower_new, upper_new, app_nil_r, fmap_app.
        apply chain_app. eexists _, _. split; [apply (bw_chain _ _ H1)|].
        rewrite <- Hmid. unfold SpineBatch.upper. rewrite <- Hg. apply (bw_chain _ _ H2).
      * rewrite app_nil_r. unfold SpineBatch.len, SpineBatch.parts_len. rewrite fmap_app, sumZ_app.
        rewrite (bw_len _ _ H1), (bw_len _ _ H2). unfold SpineBatch.parts_len, sumZ. lia.
      * rewrite app_nil_r. apply Forall_app. split; [apply (bw_parts _ _ H1)|apply (bw_parts _ _ H2)].
      * rewrite app_nil_r. apply Forall_app. split; [apply (bw_part_ids _ _ H1)|apply (bw_part_ids _ _ H2)].
      * unfold SpineBatch.since. simpl. by rewrite since_new.
    + simpl. rewrite lower_new, upper_new. by rewrite <- Hlo, <- Hf.
    + simpl. unfold SpineBatch.len, sumZ. lia.
    + unfold data_of. simpl. by rewrite !app_nil_r.
Qed.

Lemma complete_ok since m log lo f hi u :
  shape_ok since m -> Forall (batch_wf since) (ms_batches m) ->
  chain lo f (batch_seg <$> ms_batches m) hi u ->
  exists r log', MergeState.complete m log = Ret (r, log') /\ completes since m r lo f hi u.
Proof.
  intros Hs Hb Hc. unfold MergeState.complete, shape_ok, completes, MergeState.len in *.
  destruct (ms_batches m) as [|b1 [|b2 bs]] eqn:E; simpl.
  - by eexists None, _.
  - inversion_clear Hb as [|?? Hb1 _]. eexists (Some b1), _. split; [done|].
    refine (conj _ (conj Hb1 (conj Hc (conj _ eq_refl)))); [done|]. unfold SpineBatch.len, sumZ. simpl. lia.
  - destruct (ms_merge m) as [im|]; [|simpl in Hs; lia].
    destruct Hs as (Hl & _ & Hsi & _). destruct bs; [|simpl in Hl; lia].
    inversion_clear Hb as [|?? Hb1 Hb']. inversion_clear Hb' as [|?? Hb2 _].
    destruct (done_ok since (ifm_merge im) b1 b2 log lo f hi u) as (x & log' & Hd & Hx & Hcx & Hlx & Hdx);
      try done.
    exists (Some x), log'. split; [done|]. refine (conj _ (conj Hx (conj Hcx (conj _ Hdx)))); [done|].
    unfold SpineBatch.len, sumZ. simpl. lia.
Qed.

(** The level after a push. *)
Definition push_level (since : Antichain T) m b : MergeState T :=
  let bs := ms_batches m ++ [b] in
  {| ms_batches := bs;
     ms_merge := if (length bs =? 2)%nat then SpineBatch.begin_merge bs (Some since) else None |}.

Lemma push_level_batches since m b : ms_batches (push_level since m b) = ms_batches m ++ [b].
Proof. done. Qed.

Lemma push_level_records since k m b :
  level_records k (push_level since m b) = level_records k m + 2 ^ Z.of_nat k.
Proof. unfold level_records. simpl. rewrite length_app. simpl. lia. Qed.

Lemma push_returns m b lo f hi u :
  ms_merge m = None -> (length (ms_batches m) <= 1)%nat ->
  chain lo f (batch_seg <$> ms_batches m ++ [b]) hi u ->
  MergeState.push_batch m b = Ret {| ms_batches := ms_batches m ++ [b]; ms_merge := None |}.
Proof.
  intros Hm Hl Hc. unfold MergeState.push_batch, MergeState.try_push_batch. rewrite Hm.
  unfold MergeState.is_full, BATCHES_PER_LEVEL.
  destruct (ms_batches m) as [|b0 [|]]; simpl in *; [done| |lia].
  destruct Hc as (_ & _ & Hid & Hlow & _). unfold SpineBatch.id, SpineBatch.upper, SpineBatch.lower.
  rewrite !bool_decide_eq_true_2 by done. done.
Qed.

Lemma pad_long ms i : (i < length ms)%nat -> Spine.pad ms i = ms.
Proof. intros. unfold Spine.pad. replace (S i - length ms)%nat with 0%nat by lia. by rewrite app_nil_r. Qed.

Lemma list_insert_middle {A} (xs ys : list A) x y i :
  length xs = i -> <[i := y]> (xs ++ x :: ys) = xs ++ y :: ys.
Proof. intros <-. rewrite insert_app_r_alt by lia. by rewrite Nat.sub_diag. Qed.

Lemma index_middle {A} (xs ys : list A) x i : length xs = i -> index (xs ++ x :: ys) i = Ret x.
Proof. intros <-. unfold index. rewrite list_lookup_middle by done. done. Qed.

Lemma insert_at_spec s b i xs m ys lo f hi u :
  Spine.pad (sp_merging s) i = xs ++ m :: ys -> length xs = i ->
  ms_merge m = None -> (length (ms_batches m) <= 1)%nat ->
  chain lo f (batch_seg <$> ms_batches m ++ [b]) hi u ->
  Spine.insert_at s b i = Ret (Spine.with_merging s (xs ++ push_level (sp_since s) m b :: ys)).
Proof.
  intros Hp Hl Hm Hb Hc. unfold Spine.insert_at. rewrite Hp, index_middle by done. simpl.
  erewrite push_returns by done. simpl. unfold MergeState.is_full, BATCHES_PER_LEVEL. simpl.
  unfold push_level. rewrite list_insert_middle by done. by case_match.
Qed.

Lemma complete_at_spec s i log xs m ys :
  sp_merging s = xs ++ m :: ys -> length xs = i ->
  Spine.complete_at s i log =
  (let! (c, log) := MergeState.complete m log in
   Ret (Spine.with_merging s (xs ++ MergeState.default :: ys), c, log)).
Proof.
  intros Hs Hl. unfold Spine.complete_at. rewrite Hs, index_middle by done. simpl.
  by rewrite list_insert_middle.
Qed.

Lemma begin_merge_since since b1 b2 im :
  SpineBatch.begin_merge [b1; b2] (Some since) = Some im ->
  batch_wf since b1 -> batch_wf since b2 -> fm_since (ifm_merge im) = since.
Proof.
  unfold SpineBatch.begin_merge. simpl. intros [= <-] H1 H2. simpl.
  apply join_absorb. pose proof (bw_since _ _ H1). pose proof (bw_since _ _ H2).
  eauto 6 with timely.
Qed.

Lemma push_level_shape since m b :
  (length (ms_batches m) <= 1)%nat -> Forall (batch_wf since) (ms_batches m) -> batch_wf since b ->
  shape_ok since (push_level since m b).
Proof.
  intros Hl Hf Hb. unfold shape_ok, push_level.
  destruct (ms_batches m) as [|b0 [|]] eqn:E; simpl in *; [lia| |lia].
  inversion_clear Hf as [|?? Hb0 _]. split_and!; try done.
  - pose proof (begin_merge_since since b0 b _ eq_refl Hb0 Hb) as Hsince. simpl in Hsince. rewrite Hsince.
    apply le_refl.
  - unfold SpineBatch.len, sumZ. simpl. pose proof (batch_wf_nonneg _ _ Hb0). pose proof (batch_wf_nonneg _ _ Hb). lia.
Qed.

Lemma level_ok_wf since c n k m :
  level_ok since c n k m -> Forall (batch_wf since) (ms_batches m).
Proof. intros (_ & _ & Hf). eapply Forall_impl; [exact Hf|by intros ? [? _]]. Qed.

(** Pushing onto a level that is not full. *)
Lemma push_level_ok since c c' n n' k m b :
  level_ok since c n k m -> (length (ms_batches m) <= 1)%nat ->
  batch_wf since b -> sb_len b <= 2 ^ Z.of_nat k ->
  (length (ms_batches m) = 1%nat -> 4 * n' + (2 ^ Z.of_nat k + sb_len b) + c' <= 4 * 2 ^ Z.of_nat k) ->
  level_ok since c' n' k (push_level since m b).
Proof.
  intros Hm Hl Hb Hlen Hfuel. pose proof (level_ok_wf _ _ _ _ _ Hm) as Hwf.
  destruct Hm as (Hs & Hf & Hbs). split_and!.
  - by apply push_level_shape.
  - unfold fuel_ok, push_level. destruct (ms_batches m) as [|b0 [|]]; simpl in *; [done| |lia].
    specialize (Hfuel eq_refl). inversion_clear Hbs as [|?? [Hb0 Hl0] _].
    unfold SpineBatch.len, sumZ. simpl.
    pose proof (pow2_pos k). pose proof (batch_wf_nonneg _ _ Hb). lia.
  - rewrite push_level_batches. apply Forall_app. split; [done|]. by apply Forall_singleton.
Qed.
End levels.

(** ** Content: what the batches of a spine cover and hold *)

Section content.
Context {T : Type} `{TimelyLaws T}.
Implicit Types (b : SpineBatch T) (bs : list (SpineBatch T)).

(** The batches tile [[min, u)] and ids [[0, hi)], and hold the data [d]. *)
Definition content (hi : N) (u : Antichain T) (d : list (HollowBatch T)) bs : Prop :=
  chain 0 min_frontier (batch_seg <$> bs) hi u /\ data_of bs = d.

(** The middle of the batches can be exchanged for batches that cover the
    same segment and hold the same data. *)
Lemma content_middle hi u d xs bs ys :
  content hi u d (xs ++ bs ++ ys) ->
  exists lo f lo' f', chain lo f (batch_seg <$> bs) lo' f' /\
    forall bs', chain lo f (batch_seg <$> bs') lo' f' -> data_of bs' = data_of bs ->
           content hi u d (xs ++ bs' ++ ys).
Proof.
  intros [Hc Hd]. rewrite !fmap_app in Hc.
  apply chain_app in Hc as (lo & f & Hx & Hc). apply chain_app in Hc as (lo' & f' & Hb & Hy).
  exists lo, f, lo', f'. split; [done|]. intros bs' Hb' Hd'. split.
  - rewrite !fmap_app. apply chain_app. eexists _, _. split; [done|].
    apply chain_app. eexists _, _. by split.
  - rewrite !data_of_app in *. by rewrite Hd'.
Qed.

(** Appending a batch at the new end. *)
Lemma content_snoc hi u d bs b :
  content hi u d bs -> sid_lo (sb_id b) = hi -> SpineBatch.lower b = u ->
  content (sid_hi (sb_id b)) (SpineBatch.upper b) (d ++ data_of [b]) (bs ++ [b]).
Proof.
  intros [Hc Hd] Hi Hl. split.
  - rewrite fmap_app. apply chain_app. eexists _, _. split; [done|]. simpl. by rewrite <- Hl.
  - rewrite data_of_app. by rewrite Hd.
Qed.
End content.

(** ** Applying fuel *)

Section fuel.
Context {T : Type} `{TimelyLaws T}.
Implicit Types (b : SpineBatch T) (m : MergeState T) (ms xs ys : list (MergeState T)) (s : Spine T).

Lemma work_ok since n k m fuel :
  level_ok since 0 n k m -> 0 <= fuel ->
  let m' := (MergeState.work m fuel).1 in
  ms_batches m' = ms_batches m /\ shape_ok since m' /\
  (MergeState.is_complete m' = false -> level_ok since fuel n k m') /\
  (MergeState.is_complete m' = true -> length (ms_batches m) = 2%nat /\ 4 * n + 1 <= 4 * 2 ^ Z.of_nat k).
Proof.
  intros (Hs & Hf & Hb) Hfuel. unfold MergeState.work, MergeState.is_complete, level_ok, shape_ok, fuel_ok in *.
  destruct (ms_merge m) as [im|] eqn:E; simpl.
  - rewrite (proj2 (Z.leb_le 0 fuel)) by lia. destruct Hs as (Hl & Hid & Hsi & Hr).
    assert (MergeState.id {| ms_batches := ms_batches m;
              ms_merge := Some {| ifm_id := ifm_id im; ifm_merge :=
                {| fm_since := fm_since (ifm_merge im);
                   fm_remaining_work := Z.max (fm_remaining_work (ifm_merge im)
                      - Z.min fuel (fm_remaining_work (ifm_merge im))) 0 |} |} |} = Some (ifm_id im)) by done.
    split_and!; try done; try lia.
    intros Hc%Z.eqb_neq. split_and!; try done; lia.
  - rewrite E. by split_and!.
Qed.

Lemma top_ok_snoc xs m : top_ok (xs ++ [m]) <-> ms_batches m <> [].
Proof. unfold top_ok. by rewrite last_snoc. Qed.

Lemma top_ok_app xs ys : ys <> [] -> top_ok (xs ++ ys) <-> top_ok ys.
Proof.
  intros Hy. unfold top_ok. rewrite last_app. destruct (last ys) eqn:E; [done|].
  by apply last_None in E.
Qed.

Lemma push_level_nonempty since m b : ms_batches (push_level since m b) <> [].
Proof. simpl. intros Hn. by apply app_eq_nil in Hn as [_ ?]. Qed.

(** The state after the levels below [i] have been given fuel: they hold
    [fuel] units of credit, the levels above none yet. *)
Definition fuel_inv (s0 : Spine T) (L : nat) (fuel : Z) (hi : N) (u : Antichain T)
    (i : nat) (st : Spine T * SpineLog T) : Prop :=
  exists xs ys,
    st.1 = Spine.with_merging s0 (xs ++ ys) /\ length xs = i /\
    levels_ok (sp_since s0) fuel 0 0 xs /\
    levels_ok (sp_since s0) 0 i (records 0 xs) ys /\
    ((i < L)%nat -> length ys = (L - i)%nat) /\
    Forall (fun m => ms_merge m = None) (drop (L - i) ys) /\
    content hi u (data_of (batches_of (sp_merging s0))) (batches_of (xs ++ ys)) /\
    top_ok (xs ++ ys) /\
    records 0 (xs ++ ys) = records 0 (sp_merging s0).

(** A completed merge finds room in the level above it. *)
Lemma room_above since n k m m' ys :
  levels_ok since 0 (S k) (n + level_records k m) (m' :: ys) ->
  length (ms_batches m) = 2%nat -> 0 <= n -> ms_merge m' = None.
Proof.
  intros [(_ & Hf & _) _] Hl Hn. unfold fuel_ok, level_records in *. rewrite Hl in Hf.
  destruct (ms_merge m'); [|done]. rewrite pow2_S in Hf. lia.
Qed.

(** The level above the last of [ys] levels, a fresh one if need be. *)
Definition above ys n ys' : Prop :=
  ys = n :: ys' \/ (ys = [] /\ n = MergeState.default /\ ys' = []).

Lemma above_exists ys : exists n ys', above ys n ys'.
Proof. unfold above. destruct ys as [|n ys']; [by exists MergeState.default, []; right|by exists n, ys'; left]. Qed.

Lemma above_pad xs m ys n ys' i :
  above ys n ys' -> length xs = i -> Spine.pad (xs ++ m :: ys) (S i) = (xs ++ [m]) ++ n :: ys'.
Proof.
  intros [->|(-> & -> & ->)] <-; rewrite <- app_assoc.
  - by rewrite pad_long by (rewrite length_app; simpl; lia).
  - unfold Spine.pad. rewrite length_app. simpl.
    replace (S (S (length xs)) - (length xs + 1))%nat with 1%nat by lia. by rewrite <- app_assoc.
Qed.

Lemma above_levels since c k r ys n ys' :
  above ys n ys' -> levels_ok since c k r ys ->
  level_ok since c r k n /\ levels_ok since c (S k) (r + level_records k n) ys'.
Proof. intros [->|(-> & -> & ->)] Hl; [done|]. split; [apply level_ok_default|done]. Qed.

Lemma above_records k ys n ys' : above ys n ys' -> records k ys = level_records k n + records (S k) ys'.
Proof. intros [->|(-> & -> & ->)]; done. Qed.

Lemma above_batches ys n ys' : above ys n ys' -> batches_of ys = batches_of ys' ++ ms_batches n.
Proof. intros [->|(-> & -> & ->)]; [apply batches_of_cons|done]. Qed.

Lemma above_top xs m ys n ys' since x :
  above ys n ys' -> top_ok (xs ++ m :: ys) -> top_ok (xs ++ MergeState.default :: push_level since n x :: ys').
Proof.
  intros Ha Ht. change (MergeState.default :: push_level since n x :: ys') with
    ([MergeState.default; push_level since n x] ++ ys').
  destruct ys' as [|y ys'].
  - rewrite app_nil_r. rewrite top_ok_app by done. apply (top_ok_snoc [_]), push_level_nonempty.
  - destruct Ha as [->|(-> & -> & ?)]; [|done]. rewrite app_assoc, top_ok_app by done.
    change (m :: n :: y :: ys') with ([m; n] ++ y :: ys') in Ht.
    by rewrite app_assoc, top_ok_app in Ht by done.
Qed.

(** Completing a level and pushing the result onto the level above. *)
Lemma promote_ok s i log xs m ys n ys' hi u d :
  sp_merging s = xs ++ m :: ys -> length xs = i ->
  shape_ok (sp_since s) m -> Forall (batch_wf (sp_since s)) (ms_batches m) -> ms_batches m <> [] ->
  above ys n ys' -> ms_merge n = None -> (length (ms_batches n) <= 1)%nat ->
  content hi u d (batches_of (xs ++ m :: ys)) ->
  exists x log',
    (let! (s, c, log) := Spine.complete_at s i log in
     let! complete := expect c in
     let! s := Spine.insert_at s complete (S i) in
     Ret (s, log)) =
    Ret (Spine.with_merging s (xs ++ MergeState.default :: push_level (sp_since s) n x :: ys'), log') /\
    batch_wf (sp_since s) x /\ sb_len x = MergeState.len m /\
    content hi u d (batches_of (xs ++ MergeState.default :: push_level (sp_since s) n x :: ys')).
Proof.
  intros Hs Hlx Hsh Hwf Hne Ha Hnm Hnl Hc.
  rewrite batches_of_app, batches_of_cons, <- app_assoc in Hc.
  destruct (content_middle _ _ _ _ _ _ Hc) as (lo & f & lo' & f' & Hch & Hrepl).
  destruct (complete_ok (sp_since s) m log lo f lo' f') as (r & log' & Hcomp & Hr); [done..|].
  rewrite complete_at_spec with (xs := xs) (m := m) (ys := ys) by done.
  rewrite Hcomp. cbn [obind]. unfold completes in Hr.
  destruct r as [x|]; [|done]. destruct Hr as (_ & Hxwf & Hxc & Hxl & Hxd). cbn [expect obind].
  specialize (Hrepl [x] Hxc Hxd). rewrite (above_batches _ _ _ Ha), <- app_assoc, (app_assoc (ms_batches n)) in Hrepl.
  destruct (content_middle _ _ _ _ _ _ Hrepl) as (lo2 & f2 & lo2' & f2' & Hch2 & _).
  erewrite insert_at_spec with (xs := xs ++ [MergeState.default]) (m := n) (ys := ys');
    [| by apply above_pad | rewrite length_app; simpl; lia | done | done | exact Hch2].
  cbn [obind]. exists x, log'. rewrite <- app_assoc. split; [done|]. split_and!; try done.
  rewrite batches_of_app, !batches_of_cons, push_level_batches. simpl. rewrite app_nil_r.
  by rewrite <- app_assoc.
Qed.

Lemma len_two since c n k m :
  level_ok since c n k m -> length (ms_batches m) = 2%nat -> MergeState.len m <= 2 * 2 ^ Z.of_nat k.
Proof.
  intros (_ & _ & Hb) Hl. unfold MergeState.len.
  destruct (ms_batches m) as [|b1 [|b2 [|]]]; simpl in Hl; try lia.
  inversion_clear Hb as [|?? [_ ?] Hb']. inversion_clear Hb' as [|?? [_ ?] _].
  unfold SpineBatch.len, sumZ. simpl. lia.
Qed.

Lemma fuel_step_ok s0 L fuel hi u i st :
  0 <= fuel -> (i < L)%nat -> fuel_inv s0 L fuel hi u i st ->
  exists st', Spine.apply_fuel_step fuel st i = Ret st' /\ fuel_inv s0 L fuel hi u (S i) st'.
Proof.
  intros Hfuel Hi (xs & ys & Hst & Hlx & Hx & Hy & HL & Hext & Hcont & Htop & Hrec).
  destruct st as [s log]. simpl in Hst. subst s. specialize (HL Hi).
  destruct ys as [|m ys]; [simpl in HL; lia|]. simpl in Hy, HL. destruct Hy as [Hm Hy].
  destruct (work_ok _ _ _ _ fuel Hm Hfuel) as (Hwb & Hws & Hwn & Hwc).
  unfold Spine.apply_fuel_step. simpl sp_merging. rewrite index_middle by done.
  cbn [obind]. rewrite list_insert_middle by done. set (m1 := (MergeState.work m fuel).1) in *.
  pose proof (records_nonneg 0 xs) as Hn0.
  assert (Hrm : forall k, level_records k m1 = level_records k m) by (intros; unfold level_records; by rewrite Hwb).
  replace (L - i)%nat with (S (L - S i)) in Hext by lia. simpl in Hext.
  assert (Hb1 : batches_of (xs ++ m1 :: ys) = batches_of (xs ++ m :: ys)).
  { rewrite !batches_of_app, !batches_of_cons. by rewrite Hwb. }
  rewrite <- Hb1 in Hcont. destruct (MergeState.is_complete m1) eqn:Ec.
  - (* the merge completes and moves up a level *)
    destruct (Hwc eq_refl) as [Hl2 Hn4]. destruct (above_exists ys) as (n & ys' & Ha).
    destruct (above_levels _ _ _ _ _ _ _ Ha Hy) as [Hn Hys'].
    assert (ms_merge n = None) as Hnm.
    { eapply (room_above (sp_since s0) (records 0 xs) i m n ys'); [by split|done|lia]. }
    pose proof (shape_no_merge _ _ (proj1 Hn) Hnm) as Hnl.
    destruct (promote_ok (Spine.with_merging s0 (xs ++ m1 :: ys)) i log xs m1 ys n ys' hi u
      (data_of (batches_of (sp_merging s0)))) as (x & log' & He & Hxwf & Hxl & Hxc); try done.
    { rewrite Hwb. by eapply level_ok_wf. }
    { rewrite Hwb. intros E. by rewrite E in Hl2. }
    eexists. split; [exact He|].
    assert (Hlm : level_records i m = 2 ^ Z.of_nat (S i)) by (unfold level_records; rewrite Hl2, pow2_S; lia).
    assert (Hr0 : records 0 (xs ++ [MergeState.default]) = records 0 xs) by (rewrite records_app; simpl; rewrite level_records_default; lia).
    assert (sb_len x <= 2 ^ Z.of_nat (S i)).
    { rewrite Hxl, pow2_S. unfold MergeState.len. rewrite Hwb. by eapply len_two. }
    exists (xs ++ [MergeState.default]), (push_level (sp_since s0) n x :: ys').
    rewrite <- (app_assoc xs). split_and!; try done.
    + rewrite length_app. simpl. lia.
    + apply levels_ok_app. split; [done|]. simpl. split; [apply level_ok_default|done].
    + rewrite Hr0. split.
      * eapply push_level_ok; [exact Hn|done|done|done|]. intros _. rewrite !pow2_S in *. lia.
      * eapply levels_ok_credit; [exact Hys'|]. rewrite push_level_records. lia.
    + destruct Ha as [->|(-> & -> & ->)]; simpl in *; lia.
    + destruct Ha as [->|(-> & -> & ->)]; simpl in HL.
      * destruct (L - S i)%nat as [|j] eqn:Ej; [lia|done].
      * replace (L - S i)%nat with 0%nat by lia. by constructor.
    + by eapply above_top.
    + rewrite <- Hrec, !records_app. simpl. rewrite (above_records _ _ _ _ Ha), push_level_records, Hlx, Hlm.
      rewrite level_records_default. replace (i + 1)%nat with (S i) by lia. lia.
  - (* the merge, if any, goes on *)
    eexists. split; [done|]. exists (xs ++ [m1]), ys. rewrite <- app_assoc. simpl app. split_and!; try done.
    + rewrite length_app. simpl. lia.
    + apply levels_ok_app. split; [done|]. simpl. rewrite Hlx. split; [|done]. by apply Hwn.
    + rewrite records_app. simpl. rewrite Hlx, Hrm. by rewrite Z.add_0_r.
    + lia.
    + destruct ys as [|n ys]; [rewrite top_ok_snoc in Htop |- *; by rewrite Hwb|].
      rewrite top_ok_app in Htop |- * by done. by apply (top_ok_app [m]) in Htop.
    + rewrite records_app in Hrec |- *. simpl in *. by rewrite Hrm.
Qed.

Lemma with_merging_id s : Spine.with_merging s (sp_merging s) = s.
Proof. by destruct s. Qed.

(** [apply_fuel] never panics and leaves every merge with credit [fuel]. *)
Lemma apply_fuel_ok s fuel log hi u d :
  levels_ok (sp_since s) 0 0 0 (sp_merging s) -> top_ok (sp_merging s) -> 0 <= fuel ->
  content hi u d (batches_of (sp_merging s)) ->
  exists ms' log', Spine.apply_fuel s fuel log = Ret (Spine.with_merging s ms', log') /\
    levels_ok (sp_since s) fuel 0 0 ms' /\ top_ok ms' /\
    content hi u d (batches_of ms') /\ records 0 ms' = records 0 (sp_merging s).
Proof.
  intros Hl Ht Hf Hc. set (L := length (sp_merging s)).
  assert (data_of (batches_of (sp_merging s)) = d) as Hd by apply Hc.
  destruct (foldM_inv (Spine.apply_fuel_step fuel) (fuel_inv s L fuel hi u) (seq 0 L) (s, log))
    as ([s' log'] & He & Hinv).
  - exists [], (sp_merging s). rewrite !Nat.sub_0_r. split_and!; simpl; try done.
    + by rewrite with_merging_id.
    + subst L. by rewrite drop_all.
    + by rewrite Hd.
  - intros i x st Hx Hst. apply lookup_seq in Hx as [-> Hlt]. by apply fuel_step_ok.
  - rewrite length_seq in Hinv. destruct Hinv as (xs & ys & Hs' & Hlx & Hx & Hy & _ & Hext & Hcont & Htop & Hrec).
    simpl in Hs'. subst s'. exists (xs ++ ys), log'. split; [done|]. rewrite Hd in Hcont. split_and!; try done.
    apply levels_ok_app. rewrite Nat.sub_diag in Hext. simpl in Hext. split; [done|].
    rewrite Hlx. eapply levels_ok_no_merge; eauto.
Qed.
End fuel.

(** ** Rolling up *)

Section rolling.
Context {T : Type} `{TimelyLaws T}.
Implicit Types (b x : SpineBatch T) (m : MergeState T) (ms xs ys : list (MergeState T)) (s : Spine T).

(** The levels that [8 * 2 ^ idx] units of fuel reach are not merging. *)
Lemma reached_level since f idx ms xs m ys :
  levels_ok since f 0 0 ms -> 8 * 2 ^ Z.of_nat idx <= f -> ms = xs ++ m :: ys ->
  (length xs <= S idx)%nat -> ms_merge m = None /\ (length (ms_batches m) <= 1)%nat.
Proof.
  intros Hl Hf -> Hk. pose proof (levels_ok_lookup _ _ _ _ _ _ _ _ eq_refl Hl) as Hm.
  simpl in Hm. pose proof (records_nonneg 0 xs). pose proof (pow2_mono _ _ Hk) as Hp. rewrite pow2_S in Hp.
  assert (ms_merge m = None) by (eapply credit_no_merge; [exact Hm|lia|lia]).
  split; [done|]. eapply shape_no_merge; [apply Hm|done].
Qed.

Lemma vacant_levels since c k n xs :
  Forall (fun m => ms_batches m = []) xs -> levels_ok since c k n xs -> levels_ok since 0 k 0 xs /\ records k xs = 0.
Proof.
  intros Hv Hl.
  assert (Forall (fun m => ms_merge m = None) xs) as Hm.
  { clear -Hv Hl. revert k n Hl. induction Hv as [|m xs Hm _ IH]; intros k n Hl; constructor.
    - destruct Hl as [(Hs & _) _]. eapply shape_short; [done|]. rewrite Hm. simpl. lia.
    - destruct Hl as [_ Hl]. by eapply IH. }
  assert (records k xs = 0) as Hr.
  { clear Hl Hm. revert k. induction Hv as [|m xs Hm _ IH]; intros k; simpl; [done|].
    rewrite IH. unfold level_records. by rewrite Hm. }
  split; [|done]. clear Hr. revert k n Hl. induction Hv as [|m xs Hb _ IH]; intros k n Hl; [done|]. destruct Hl as [(Hs & _ & _) Hl].
  inversion_clear Hm as [|?? Hm1 Hm2]. split.
  - split_and!; [done| |by rewrite Hb]. unfold fuel_ok. by rewrite Hm1.
  - assert (level_records k m = 0) as -> by (unfold level_records; by rewrite Hb). eapply IH; [done|exact Hl].
Qed.

Lemma vacant_batches xs : Forall (fun m => ms_batches m = []) xs -> batches_of xs = [].
Proof. induction 1 as [|m xs Hm _ IH]; [done|]. by rewrite batches_of_cons, IH, Hm. Qed.

Lemma replicate_vacant j : Forall (fun m : MergeState T => ms_batches m = []) (replicate j MergeState.default).
Proof. by apply Forall_replicate. Qed.

(** What has been rolled up from the levels below [i] of [ms0]. *)
Definition rolled (since : Antichain T) (hi : N) (u : Antichain T) (d : list (HollowBatch T))
    ms0 (i : nat) (merged : option (SpineBatch T)) : Prop :=
  match merged with
  | None => records 0 (take i ms0) = 0 /\ content hi u d (batches_of (drop i ms0))
  | Some x => batch_wf since x /\ sb_len x <= 2 ^ Z.of_nat i - 1 /\
              content hi u d (batches_of (drop i ms0) ++ [x])
  end.

Definition roll_inv s0 ms0 hi u d (i : nat) (st : Spine T * option (SpineBatch T) * SpineLog T) : Prop :=
  st.1.1 = Spine.with_merging s0 (replicate i MergeState.default ++ drop i ms0) /\
  rolled (sp_since s0) hi u d ms0 i st.1.2.

(** Inserting what has been rolled up into the next level. *)
Lemma insert_rolled s0 hi u d ms0 i merged m ys c n :
  drop i ms0 = m :: ys -> (i < length ms0)%nat -> rolled (sp_since s0) hi u d ms0 i merged ->
  level_ok (sp_since s0) c n i m -> ms_merge m = None -> (length (ms_batches m) <= 1)%nat ->
  exists m', match merged with
             | Some b => Spine.insert_at (Spine.with_merging s0 (replicate i MergeState.default ++ m :: ys)) b i
             | None => Ret (Spine.with_merging s0 (replicate i MergeState.default ++ m :: ys))
             end = Ret (Spine.with_merging s0 (replicate i MergeState.default ++ m' :: ys)) /\
    shape_ok (sp_since s0) m' /\ Forall (batch_wf (sp_since s0)) (ms_batches m') /\
    content hi u d (batches_of ys ++ ms_batches m') /\
    match merged with
    | Some x => m' = push_level (sp_since s0) m x /\
                MergeState.len m' <= 2 * 2 ^ Z.of_nat i - 1 /\ sb_len x <= 2 ^ Z.of_nat i - 1 /\ batch_wf (sp_since s0) x
    | None => m' = m /\ MergeState.len m' <= 2 ^ Z.of_nat i /\ records 0 (take i ms0) = 0
    end.
Proof.
  intros Hd Hi Hr Hm Hmm Hml. unfold rolled in Hr. rewrite Hd in Hr.
  assert (Hlm : MergeState.len m <= 2 ^ Z.of_nat i).
  { destruct Hm as (_ & _ & Hb). unfold MergeState.len. pose proof (pow2_pos i).
    destruct (ms_batches m) as [|b0 [|]]; unfold sumZ; simpl in *; try lia.
    inversion_clear Hb as [|?? [_ ?] _]. unfold SpineBatch.len. lia. }
  destruct merged as [x|].
  - destruct Hr as (Hx & Hxl & Hc). rewrite batches_of_cons, <- app_assoc in Hc.
    assert (Hc' := Hc). rewrite <- (app_nil_r (ms_batches m ++ [x])) in Hc'.
    destruct (content_middle _ _ _ _ _ _ Hc') as (lo & f & lo' & f' & Hch & _).
    exists (push_level (sp_since s0) m x). split.
    { erewrite insert_at_spec with (m := m); [done| |by rewrite length_replicate|done|done|exact Hch].
      apply pad_long. rewrite length_app, length_replicate. simpl. lia. }
    split_and!; try done; try (rewrite push_level_batches).
    + apply push_level_shape; try done. by eapply level_ok_wf.
    + apply Forall_app. split; [by eapply level_ok_wf|by apply Forall_singleton].
    + unfold MergeState.len in *. rewrite push_level_batches, fmap_app, sumZ_app.
      unfold SpineBatch.len, sumZ in *. simpl. lia.
  - destruct Hr as [Hr Hc]. rewrite batches_of_cons in Hc. exists m. split_and!; try done.
    + apply Hm.
    + by eapply level_ok_wf.
Qed.

Lemma roll_step_ok s0 ms0 hi u d idx f i st :
  levels_ok (sp_since s0) f 0 0 ms0 -> 8 * 2 ^ Z.of_nat idx <= f -> (idx < length ms0)%nat ->
  (i < idx)%nat -> roll_inv s0 ms0 hi u d i st ->
  exists st', Spine.roll_up_step st i = Ret st' /\ roll_inv s0 ms0 hi u d (S i) st'.
Proof.
  intros Hl Hf Hidx Hi [Hs Hr]. destruct st as [[s merged] log]. simpl in Hs, Hr. subst s.
  destruct (lookup_lt_is_Some_2 ms0 i ltac:(lia)) as [m Hm]. pose proof (drop_S _ _ _ Hm) as Hd.
  pose proof (take_drop_middle _ _ _ Hm) as Hsplit. symmetry in Hsplit.
  destruct (reached_level _ _ _ _ _ _ _ Hl Hf Hsplit) as [Hmm Hml]; [rewrite length_take; lia|].
  pose proof (levels_ok_lookup _ _ _ _ _ _ _ _ Hsplit Hl) as Hmok.
  rewrite length_take, Nat.min_l in Hmok by lia. simpl in Hmok.
  unfold Spine.roll_up_step. rewrite Hd.
  destruct (insert_rolled s0 hi u d ms0 i merged m (drop (S i) ms0) _ _ Hd ltac:(lia) Hr Hmok Hmm Hml)
    as (m' & He & Hsh & Hwf & Hc & Hm').
  rewrite He. cbn [obind].
  assert (Hc' := Hc). rewrite <- (app_nil_r (ms_batches m')) in Hc'.
  destruct (content_middle _ _ _ _ _ _ Hc') as (lo & g & lo' & g' & Hch & Hrepl).
  rewrite complete_at_spec with (xs := replicate i MergeState.default) (m := m') (ys := drop (S i) ms0)
    by (done || by rewrite length_replicate).
  destruct (complete_ok (sp_since s0) m' log lo g lo' g') as (r & log' & Hcomp & Hrr); [done..|].
  rewrite Hcomp. cbn [obind]. eexists. split; [done|]. split.
  - simpl. replace (MergeState.default :: replicate i MergeState.default ++ drop (S i) ms0)
      with (replicate (S i) MergeState.default ++ drop (S i) ms0) by done.
    rewrite replicate_S_end, <- app_assoc. done.
  - simpl. unfold rolled, completes in *. destruct r as [y|].
    + destruct Hrr as (_ & Hywf & Hyc & Hyl & Hyd). split_and!; [done| |].
      * rewrite Hyl, pow2_S. pose proof (pow2_pos i). destruct merged as [x|]; destruct Hm' as (_ & ? & _); lia.
      * specialize (Hrepl [y] Hyc Hyd). by rewrite app_nil_r in Hrepl.
    + rewrite Hrr, app_nil_r in Hc. split; [|done].
      destruct merged as [x|]; destruct Hm' as (Hm' & _ & Hrec).
      { exfalso. subst m'. by eapply push_level_nonempty. }
      subst m'. rewrite (take_S_r _ _ _ Hm), records_app, Hrec. simpl.
      unfold level_records. rewrite Hrr. simpl. lia.
Qed.

(** A spine ready for an insertion at level [idx]: nothing below it, at
    most one batch there, and room above for one more. *)
Record ready s0 (hi : N) (u : Antichain T) (d : list (HollowBatch T)) (idx : nat) ms : Prop := {
  rd_split : exists xs m ys, ms = xs ++ m :: ys /\ length xs = idx /\
    Forall (fun m => ms_batches m = []) xs /\ levels_ok (sp_since s0) 0 0 0 xs /\
    level_ok (sp_since s0) 0 0 idx m /\ ms_merge m = None /\ (length (ms_batches m) <= 1)%nat /\
    levels_ok (sp_since s0) 0 (S idx) (level_records idx m + 2 ^ Z.of_nat idx) ys /\
    (ys = [] \/ top_ok ys);
  rd_content : content hi u d (batches_of ms);
  rd_records : records 0 ms <= records 0 (sp_merging s0) + 2 ^ Z.of_nat idx;
}.

Lemma pad_length ms i : (i < length (Spine.pad ms i))%nat.
Proof. unfold Spine.pad. rewrite length_app, length_replicate. lia. Qed.

Lemma pad_levels since c ms i : levels_ok since c 0 0 ms -> levels_ok since c 0 0 (Spine.pad ms i).
Proof. intros. apply levels_ok_app. split; [done|apply levels_ok_replicate]. Qed.

Lemma pad_records ms i : records 0 (Spine.pad ms i) = records 0 ms.
Proof. unfold Spine.pad. rewrite records_app, records_replicate. lia. Qed.

Lemma pad_batches ms i : batches_of (Spine.pad ms i) = batches_of ms.
Proof. unfold Spine.pad. rewrite batches_of_app, vacant_batches by apply replicate_vacant. done. Qed.

Lemma pad_top ms i xs m ys :
  top_ok ms -> Spine.pad ms i = xs ++ m :: ys -> length xs = i -> ys = [] \/ top_ok ys.
Proof.
  intros Ht Hp Hl. destruct ys as [|y ys]; [by left|right].
  assert (i < length ms)%nat.
  { apply (f_equal length) in Hp. revert Hp. unfold Spine.pad. rewrite !length_app, length_replicate. simpl. lia. }
  rewrite pad_long in Hp by done. rewrite Hp in Ht.
  change (m :: y :: ys) with ([m] ++ y :: ys) in Ht. rewrite app_assoc in Ht. by apply top_ok_app in Ht.
Qed.

(** Records below a reached level: at most one batch per level. *)
Lemma reached_records since f idx ms xs ys :
  levels_ok since f 0 0 ms -> 8 * 2 ^ Z.of_nat idx <= f -> ms = xs ++ ys -> (length xs <= S idx)%nat ->
  records 0 xs <= 2 ^ Z.of_nat (length xs) - 1.
Proof.
  revert ys. induction xs as [|m xs IH] using rev_ind; intros ys Hl Hf Hms Hk; [simpl; lia|].
  rewrite length_app in Hk |- *. simpl in Hk |- *. rewrite <- app_assoc in Hms.
  specialize (IH _ Hl Hf Hms ltac:(lia)).
  destruct (reached_level _ _ _ _ _ _ _ Hl Hf Hms ltac:(lia)) as [_ Hm].
  rewrite records_app. simpl. unfold level_records. rewrite Nat.add_comm, pow2_S.
  pose proof (pow2_pos (length xs)). destruct (length (ms_batches m)) as [|[|]]; lia.
Qed.

(** A level at or below [idx + 1] that is not merging has no fuel debt. *)
Lemma level_ok_fresh since c n k m : level_ok since c n k m -> ms_merge m = None -> level_ok since 0 0 k m.
Proof. intros (? & _ & ?) Hm. split_and!; try done. unfold fuel_ok. by rewrite Hm. Qed.

Lemma ready_vacant s hi u d idx f xs m ys :
  levels_ok (sp_since s) f 0 0 (xs ++ m :: ys) -> 8 * 2 ^ Z.of_nat idx <= f -> length xs = idx ->
  Forall (fun m => ms_batches m = []) xs -> content hi u d (batches_of (xs ++ m :: ys)) ->
  ys = [] \/ top_ok ys -> records 0 (xs ++ m :: ys) = records 0 (sp_merging s) ->
  ready s hi u d idx (xs ++ m :: ys).
Proof.
  intros Hl Hf Hx Hv Hc Ht Hr.
  destruct (reached_level _ _ _ _ _ _ _ Hl Hf eq_refl ltac:(lia)) as [Hmm Hml].
  apply levels_ok_app in Hl as [Hlx [Hm Hy]]. rewrite Hx in Hm, Hy. simpl in Hm, Hy.
  destruct (vacant_levels _ _ _ _ _ Hv Hlx) as [Hx0 Hrx]. pose proof (pow2_pos idx).
  split; [|done|lia]. exists xs, m, ys. split_and!; try done.
  - by eapply level_ok_fresh.
  - eapply levels_ok_credit; [exact Hy|]. lia.
Qed.

(** After the levels below [idx] have been merged into [x], [x] joins level
    [idx]; a full level is merged into the next one. *)
Lemma ready_single s hi u d idx f m ys x r :
  0 <= r -> levels_ok (sp_since s) f (S idx) (r + level_records idx m) ys ->
  8 * 2 ^ Z.of_nat idx <= f ->
  level_ok (sp_since s) f r idx m -> ms_batches m = [] ->
  batch_wf (sp_since s) x -> sb_len x <= 2 ^ Z.of_nat idx - 1 ->
  content hi u d (batches_of ys ++ ms_batches (push_level (sp_since s) m x)) ->
  ys = [] \/ top_ok ys -> r + level_records idx m + records (S idx) ys = records 0 (sp_merging s) ->
  ready s hi u d idx (replicate idx MergeState.default ++ push_level (sp_since s) m x :: ys).
Proof.
  intros Hr0 Hy Hf Hm Hb Hx Hxl Hc Ht Hr. pose proof (pow2_pos idx).
  assert (level_records idx m = 0) as Hlm by (unfold level_records; by rewrite Hb).
  split.
  - exists (replicate idx MergeState.default), (push_level (sp_since s) m x), ys.
    rewrite length_replicate. split_and!; try done.
    + apply replicate_vacant.
    + apply levels_ok_replicate.
    + eapply push_level_ok; [exact Hm|rewrite Hb; simpl; lia|done|lia|]. by rewrite Hb.
    + unfold push_level. simpl. by rewrite Hb.
    + rewrite push_level_batches, Hb. simpl. lia.
    + eapply levels_ok_credit; [exact Hy|]. rewrite push_level_records. lia.
  - rewrite batches_of_app, batches_of_cons, (vacant_batches (replicate _ _)) by apply replicate_vacant.
    by rewrite app_nil_r.
  - rewrite records_app, records_replicate, length_replicate. simpl. rewrite push_level_records. lia.
Qed.

Lemma ready_promoted s hi u d idx f m ys n ys' y r :
  0 <= r -> levels_ok (sp_since s) f (S idx) (r + level_records idx m) ys ->
  8 * 2 ^ Z.of_nat idx <= f -> length (ms_batches m) = 1%nat ->
  above ys n ys' -> (length (ms_batches n) <= 1)%nat ->
  batch_wf (sp_since s) y -> sb_len y <= 2 * 2 ^ Z.of_nat idx - 1 ->
  content hi u d (batches_of (replicate idx MergeState.default ++ MergeState.default :: push_level (sp_since s) n y :: ys')) ->
  ys = [] \/ top_ok ys -> r + level_records idx m + records (S idx) ys = records 0 (sp_merging s) ->
  ready s hi u d idx (replicate idx MergeState.default ++ MergeState.default :: push_level (sp_since s) n y :: ys').
Proof.
  intros Hr0 Hy Hf Hml Ha Hnl Hyw Hyl Hc Ht Hr. pose proof (pow2_pos idx).
  assert (level_records idx m = 2 ^ Z.of_nat idx) as Hlm by (unfold level_records; rewrite Hml; lia).
  destruct (above_levels _ _ _ _ _ _ _ Ha Hy) as [Hn Hy'].
  split; [|done|].
  - exists (replicate idx MergeState.default), MergeState.default, (push_level (sp_since s) n y :: ys').
    rewrite length_replicate, level_records_default. split_and!; try done.
    + apply replicate_vacant.
    + apply levels_ok_replicate.
    + apply level_ok_default.
    + simpl. lia.
    + split.
      * eapply push_level_ok; [exact Hn|done|done|rewrite pow2_S; lia|]. intros _. rewrite pow2_S. lia.
      * eapply levels_ok_credit; [exact Hy'|]. rewrite push_level_records, pow2_S. lia.
    + right. destruct Ht as [->|Ht].
      * destruct Ha as [?|(_ & -> & ->)]; [done|]. apply (top_ok_snoc []), push_level_nonempty.
      * change (push_level (sp_since s) n y :: ys') with ([push_level (sp_since s) n y] ++ ys').
        destruct Ha as [->|(-> & -> & ->)]; [|apply (top_ok_snoc []), push_level_nonempty].
        destruct ys' as [|z ys']; [apply (top_ok_snoc []), push_level_nonempty|].
        apply top_ok_app; [done|]. by apply (top_ok_app [n] (z :: ys')) in Ht.
  - rewrite records_app, records_replicate, length_replicate. simpl.
    rewrite (above_records _ _ _ _ Ha) in Hr. rewrite push_level_records, pow2_S, level_records_default. lia.
Qed.

Lemma roll_up_ok s idx f log hi u d :
  levels_ok (sp_since s) f 0 0 (sp_merging s) -> top_ok (sp_merging s) -> 8 * 2 ^ Z.of_nat idx <= f ->
  content hi u d (batches_of (sp_merging s)) ->
  exists ms' log', Spine.roll_up s idx log = Ret (Spine.with_merging s ms', log') /\ ready s hi u d idx ms'.
Proof.
  intros Hl Ht Hf Hc. unfold Spine.roll_up. set (ms0 := Spine.pad (sp_merging s) idx).
  assert (Hl0 : levels_ok (sp_since s) f 0 0 ms0) by by apply pad_levels.
  assert (Hlen : (idx < length ms0)%nat) by apply pad_length.
  assert (Hc0 : content hi u d (batches_of ms0)) by (unfold ms0; by rewrite pad_batches).
  assert (Hr0 : records 0 ms0 = records 0 (sp_merging s)) by apply pad_records.
  destruct (lookup_lt_is_Some_2 ms0 idx Hlen) as [m Hm]. pose proof (drop_S _ _ _ Hm) as Hd.
  pose proof (take_drop_middle _ _ _ Hm) as Hsplit. symmetry in Hsplit.
  assert (Hlt : length (take idx ms0) = idx) by (rewrite length_take; lia).
  pose proof (pad_top _ _ _ _ _ Ht Hsplit Hlt) as Htop.
  cbn [sp_merging Spine.with_merging]. destruct (existsb _ (take idx ms0)) eqn:Ex.
  2:{ (* nothing to roll up *)
    exists ms0, log. split; [done|]. rewrite Hsplit in Hl0, Hc0, Hr0 |- *.
    eapply ready_vacant; try done. apply Forall_forall. intros m0 Hm0%list_elem_of_In.
    destruct (ms_batches m0) eqn:E; [done|]. exfalso.
    apply not_true_iff_false in Ex. apply Ex, existsb_exists. exists m0. split; [done|].
    unfold MergeState.is_vacant. by rewrite E. }
  destruct (foldM_inv Spine.roll_up_step (roll_inv s ms0 hi u d) (seq 0 idx) (Spine.with_merging s ms0, None, log))
    as ([[s' merged] log'] & He & Hs' & Hr).
  { split; simpl; [done|]. split; [done|]. by rewrite drop_0. }
  { intros i x st Hx Hst. apply lookup_seq in Hx as [-> Hi]. by eapply roll_step_ok. }
  rewrite He. cbn [obind]. rewrite length_seq in Hs', Hr. simpl in Hs', Hr. subst s'. rewrite Hd.
  destruct (reached_level _ _ _ _ _ _ _ Hl0 Hf Hsplit ltac:(lia)) as [Hmm Hml].
  assert (Hms := Hl0). rewrite Hsplit in Hms. apply levels_ok_app in Hms as [Hlx [Hmok Hy]].
  rewrite Hlt in Hmok, Hy. simpl in Hmok, Hy. rewrite Hsplit, records_app, Hlt in Hr0. simpl in Hr0.
  pose proof (records_nonneg 0 (take idx ms0)).
  destruct (insert_rolled s hi u d ms0 idx merged m (drop (S idx) ms0) _ _ Hd Hlen Hr Hmok Hmm Hml)
    as (m' & He' & Hsh & Hwf & Hc' & Hm').
  rewrite He'. cbn [obind sp_merging Spine.with_merging]. rewrite index_middle by apply length_replicate.
  cbn [obind]. unfold MergeState.is_full, BATCHES_PER_LEVEL.
  destruct merged as [x|]; destruct Hm' as (-> & Hlen' & Hm').
  2:{ (* all levels were vacant after all *)
    destruct (Nat.eqb_spec (length (ms_batches m)) 2) as [?|_]; [lia|].
    eexists _, _. split; [done|]. eapply ready_vacant; try done.
    - apply levels_ok_app. rewrite length_replicate, records_replicate. split; [apply levels_ok_replicate|].
      simpl. rewrite Hm' in Hmok, Hy. by split.
    - apply length_replicate.
    - apply replicate_vacant.
    - rewrite batches_of_app, batches_of_cons, (vacant_batches (replicate _ _)) by apply replicate_vacant.
      by rewrite app_nil_r.
    - rewrite records_app, records_replicate, length_replicate. simpl. lia. }
  destruct Hm' as [Hxl Hxw]. destruct (Nat.eqb_spec (length (ms_batches (push_level (sp_since s) m x))) 2) as [H2|H2].
  - (* the level became full: merge it into the next *)
    rewrite push_level_batches, length_app in H2. simpl in H2.
    destruct (above_exists (drop (S idx) ms0)) as (n & ys' & Ha).
    destruct (above_levels _ _ _ _ _ _ _ Ha Hy) as [Hn Hy'].
    assert (ms_merge n = None) as Hnm.
    { eapply credit_no_merge; [exact Hn| |rewrite pow2_S; lia]. pose proof (level_records_nonneg idx m). lia. }
    pose proof (shape_no_merge _ _ (proj1 Hn) Hnm) as Hnl.
    edestruct (promote_ok (Spine.with_merging s (replicate idx MergeState.default ++ push_level (sp_since s) m x :: drop (S idx) ms0))
      idx log' (replicate idx MergeState.default) (push_level (sp_since s) m x) (drop (S idx) ms0) n ys' hi u d)
      as (y & log2 & He2 & Hyw & Hyl & Hyc); try done.
    { apply length_replicate. } { apply push_level_nonempty. }
    { rewrite batches_of_app, batches_of_cons, (vacant_batches (replicate _ _)) by apply replicate_vacant.
      by rewrite app_nil_r. }
    exists (replicate idx MergeState.default ++ MergeState.default :: push_level (sp_since s) n y :: ys'), log2.
    split; [exact He2|]. simpl in Hyl. eapply (ready_promoted s); try done; lia.
  - eexists _, _. split; [done|]. rewrite push_level_batches, length_app in H2. simpl in H2.
    eapply (ready_single s); try done; try lia. destruct (ms_batches m); [done|simpl in *; lia].
Qed.
End rolling.

(** ** Tidying the top *)

Section tidying.
Context {T : Type} `{TimelyLaws T}.
Implicit Types (b x t : SpineBatch T) (m : MergeState T) (ms xs ys : list (MergeState T)) (s : Spine T).

Lemma level_of_spec (x : Z) : 0 <= x <= 2 ^ 60 ->
  x <= 2 ^ Z.of_nat (Spine.level_of x) /\ (Spine.level_of x <= 60)%nat.
Proof.
  intros Hx. unfold Spine.level_of, next_power_of_two.
  assert (Hp : (if x <=? 1 then 1 else 2 ^ Z.log2_up x) = 2 ^ Z.of_nat (Z.to_nat (Z.log2_up x))).
  { rewrite Z2Nat.id by apply Z.log2_up_nonneg.
    destruct (Z.leb_spec x 1); [|done]. by rewrite Z.log2_up_eqn0. }
  assert (Hlog : Z.log2_up x <= 60) by (rewrite <- (Z.log2_up_pow2 60) by lia; apply Z.log2_up_le_mono; lia).
  rewrite Hp. rewrite (proj2 (Z.leb_le _ _)).
  - rewrite trailing_zeros_pow2. split; [|lia]. rewrite Z2Nat.id by apply Z.log2_up_nonneg.
    destruct (Z.le_gt_cases x 1); [rewrite Z.log2_up_eqn0 by done; lia|]. by apply Z.log2_up_spec.
  - pose proof (pow2_mono (Z.to_nat (Z.log2_up x)) 60 ltac:(lia)). unfold usize_max.
    change (Z.of_nat 60) with 60 in *. lia.
Qed.

Lemma usize_shl_small (x : Z) (i : nat) : 0 <= x -> x * 2 ^ Z.of_nat i < 2 ^ 64 -> (i < 64)%nat ->
  usize_shl x i = x * 2 ^ Z.of_nat i.
Proof.
  intros Hx Hb Hi. unfold usize_shl. rewrite (Z.mod_small (Z.of_nat i)) by lia.
  rewrite Z.shiftl_mul_pow2 by lia. apply Z.mod_small. pose proof (pow2_pos i). nia.
Qed.

(** The machine arithmetic of [tidy_layers] computes [records]. *)
Lemma smaller_records_spec k ms :
  records k ms <= 2 ^ 60 -> (k + length ms <= 62)%nat ->
  sumZ (imap (fun i m => usize_shl (Z.of_nat (length (ms_batches m))) (k + i)) ms) = records k ms.
Proof.
  revert k; induction ms as [|m ms IH]; intros k Hr Hk; [done|]. simpl in Hr, Hk |- *.
  pose proof (level_records_nonneg k m). pose proof (records_nonneg (S k) ms).
  rewrite Nat.add_0_r, usize_shl_small; [| lia | unfold level_records in *; lia | lia].
  unfold level_records at 1. f_equal. rewrite <- (IH (S k)) by lia. f_equal.
  apply imap_ext. intros i y _. simpl. f_equal. lia.
Qed.

Lemma smaller_records_eq ms : records 0 ms <= 2 ^ 60 -> (length ms <= 62)%nat ->
  Spine.smaller_records ms = records 0 ms.
Proof. intros. by rewrite <- smaller_records_spec. Qed.

(** An occupied top level weighs as much as its number says. *)
Lemma top_records xs m : ms_batches m <> [] -> 2 ^ Z.of_nat (length xs) <= records 0 (xs ++ [m]).
Proof.
  intros Hm. rewrite records_app. simpl. pose proof (records_nonneg 0 xs). pose proof (pow2_pos (length xs)).
  unfold level_records. destruct (ms_batches m); [done|]. simpl length. lia.
Qed.

(** The state of the loop of [tidy_layers]: a single batch on top that is
    small enough for level [a]. *)
Record tidy_inv s0 (hi : N) (u : Antichain T) (d : list (HollowBatch T)) (a : nat) (bound : Z) ms : Prop := {
  td_levels : levels_ok (sp_since s0) 0 0 0 ms;
  td_top : exists xs m t, ms = xs ++ [m] /\ ms_batches m = [t] /\ sb_len t <= 2 ^ Z.of_nat a;
  td_content : content hi u d (batches_of ms);
  td_records : records 0 ms <= bound;
}.

Definition tidied s0 hi u d bound ms : Prop :=
  levels_ok (sp_since s0) 0 0 0 ms /\ top_ok ms /\ content hi u d (batches_of ms) /\ records 0 ms <= bound.

Lemma tidy_inv_tidied s0 hi u d a bound ms : tidy_inv s0 hi u d a bound ms -> tidied s0 hi u d bound ms.
Proof.
  intros [Hl (xs & m & t & -> & Hm & _) Hc Hr]. split_and!; try done. rewrite top_ok_snoc. by rewrite Hm.
Qed.

Lemma single_top_levels xs m t : ms_batches m = [t] ->
  batches_of (xs ++ [m]) = t :: batches_of xs.
Proof. intros Hm. rewrite batches_of_app. unfold batches_of at 1. simpl. by rewrite Hm. Qed.

(** A single batch moves down into an emptier spine. *)
Lemma tidy_absorb_ok s0 hi u d a bound xs c m :
  tidy_inv s0 hi u d a bound (xs ++ [c; m]) -> ms_batches c = [] -> (a <= length xs)%nat ->
  tidy_inv s0 hi u d a bound (xs ++ [m]).
Proof.
  intros [Hl (ys & m' & t & E & Hm & Ht) Hcont Hr] Hc Ha.
  assert (xs ++ [c; m] = (xs ++ [c]) ++ [m]) as E2 by by rewrite <- app_assoc.
  rewrite E2 in E, Hcont. apply app_inj_tail in E as [<- <-].
  apply levels_ok_app in Hl as [Hx [_ [(Hs & _ & Hb) _]]]. simpl in Hx, Hs, Hb.
  rewrite Hm in Hb. apply Forall_singleton in Hb as [Hb _].
  pose proof (pow2_mono a (length xs) Ha). split.
  - apply levels_ok_app. split; [done|]. simpl. split; [|done]. split_and!; [done| |].
    + unfold fuel_ok. by rewrite (shape_short _ _ Hs) by (rewrite Hm; simpl; lia).
    + rewrite Hm. apply Forall_singleton. split; [done|lia].
  - by exists xs, m, t.
  - rewrite (single_top_levels _ _ t Hm) in Hcont. rewrite (single_top_levels _ _ t Hm), batches_of_app in *.
    unfold batches_of at 1 in Hcont. simpl in Hcont. by rewrite Hc in Hcont.
  - rewrite records_app in Hr |- *. simpl in Hr |- *. unfold level_records in *.
    rewrite Hc, pow2_S in Hr. simpl in Hr. pose proof (pow2_pos (length xs)). nia.
Qed.

(** Two single batches on top of each other become one merging level. *)
Lemma tidy_join_ok s0 hi u d a bound xs c m b :
  tidy_inv s0 hi u d a bound (xs ++ [c; m]) -> ms_batches c = [b] -> (a <= length xs)%nat ->
  8 * records 0 xs <= 4 * 2 ^ Z.of_nat (length xs) ->
  exists ms', Spine.insert_at (Spine.with_merging s0 (xs ++ [m])) b (length xs) = Ret (Spine.with_merging s0 ms') /\
    tidied s0 hi u d bound ms'.
Proof.
  intros [Hl (ys & m' & t & E & Hm & Ht) Hcont Hr] Hc Ha Hsm.
  assert (xs ++ [c; m] = (xs ++ [c]) ++ [m]) as E2 by by rewrite <- app_assoc.
  rewrite E2 in E, Hcont. apply app_inj_tail in E as [<- <-].
  apply levels_ok_app in Hl as [Hx [(_ & _ & Hb) [(Hs & _ & Htw) _]]]. simpl in Hx, Hs, Hb, Htw.
  rewrite Hc in Hb. apply Forall_singleton in Hb as [Hbw Hbl].
  rewrite Hm in Htw. apply Forall_singleton in Htw as [Htw _].
  pose proof (shape_short _ _ Hs ltac:(rewrite Hm; simpl; lia)) as Hmm.
  pose proof (pow2_mono a (length xs) Ha). pose proof (pow2_pos (length xs)).
  rewrite (single_top_levels _ _ t Hm), batches_of_app in Hcont.
  unfold batches_of at 1 in Hcont. simpl in Hcont. rewrite Hc, app_nil_r in Hcont.
  destruct (content_middle _ _ _ [] [t; b] (batches_of xs) Hcont) as (lo & f & lo' & f' & Hch & _).
  exists (xs ++ [push_level (sp_since s0) m b]). unfold tidied. split_and!.
  - erewrite insert_at_spec with (xs := xs) (m := m) (ys := []); try done.
    + cbn. apply pad_long. rewrite length_app. simpl. lia.
    + rewrite Hm. simpl. lia.
    + rewrite Hm. exact Hch.
  - apply levels_ok_app. split; [done|]. simpl. split; [|done].
    eapply (push_level_ok (sp_since s0) 0 0 0); [|rewrite Hm; simpl; lia|done|done|].
    + split_and!; [done| |].
      * unfold fuel_ok. by rewrite Hmm.
      * rewrite Hm. apply Forall_singleton. split; [done|lia].
    + intros _. lia.
  - rewrite top_ok_snoc. apply push_level_nonempty.
  - rewrite batches_of_app. unfold batches_of at 1. simpl. by rewrite Hm.
  - rewrite records_app in Hr |- *. simpl in Hr |- *. rewrite push_level_records. unfold level_records in *.
    rewrite Hc, Hm, pow2_S in *. simpl length in *. lia.
Qed.

Lemma tidy_step_ok s0 hi u d a bound ms :
  tidy_inv s0 hi u d a bound ms -> (a < length ms - 1)%nat -> bound <= 2 ^ 60 ->
  exists ms' go, Spine.tidy_step (Spine.with_merging s0 ms) = Ret (Spine.with_merging s0 ms', go) /\
    if go : bool then tidy_inv s0 hi u d a bound ms' /\ length ms = S (length ms')
    else tidied s0 hi u d bound ms'.
Proof.
  intros Hinv Ha Hbound.
  assert (exists xs c m, ms = xs ++ [c; m] /\ (length xs + 1 <= 60)%nat /\ records 0 xs <= 2 ^ 60)
    as (xs & c & m & -> & Hlen & Hrx).
  { destruct Hinv as [_ (xs & m & t & -> & Hm & Ht) _ Hr].
    rewrite length_app in Ha. simpl in Ha. destruct xs as [|c xs _] using rev_ind; [simpl in Ha; lia|].
    pose proof (top_records (xs ++ [c]) m ltac:(by rewrite Hm)) as Htr. rewrite length_app in Htr. simpl in Htr.
    exists xs, c, m. rewrite <- app_assoc. split_and!; [done| |].
    - destruct (decide (length xs + 1 <= 60)%nat); [done|].
      pose proof (pow2_mono 61 (length xs + 1) ltac:(lia)). change (Z.of_nat 61) with 61 in *. lia.
    - rewrite !records_app in Hr. simpl in Hr. pose proof (level_records_nonneg (length xs) c).
      pose proof (level_records_nonneg (length (xs ++ [c])) m). lia. }
  assert (Hlm : length (xs ++ [c; m]) = (length xs + 2)%nat) by (rewrite length_app; simpl; lia).
  rewrite Hlm in Ha |- *. unfold Spine.tidy_step. cbn [sp_merging Spine.with_merging]. rewrite Hlm.
  replace (length xs + 2 - 2)%nat with (length xs) by lia.
  rewrite index_middle by done. cbn [obind]. rewrite delete_middle, take_app_length.
  unfold MergeState.is_vacant. destruct (bool_decide_reflect (length (ms_batches c) = 0%nat)) as [Hv|Hv].
  { exists (xs ++ [m]), true. split; [done|]. rewrite length_app. simpl. split; [|lia].
    apply length_zero_iff_nil in Hv. eapply tidy_absorb_ok; try done. lia. }
  destruct (MergeState.is_full c) eqn:Hfull; simpl negb; cbn match.
  { eexists _, false. split; [done|]. by eapply tidy_inv_tidied. }
  assert (exists b, ms_batches c = [b]) as [b Hcb].
  { pose proof (td_levels _ _ _ _ _ _ _ Hinv) as Hl. apply levels_ok_app in Hl as [_ [[Hs _] _]].
    unfold MergeState.is_full, BATCHES_PER_LEVEL in Hfull. apply Nat.eqb_neq in Hfull. unfold shape_ok in Hs.
    destruct (ms_batches c) as [|b [|]]; simpl in *; [done|by exists b|]. destruct (ms_merge c); simpl in *; lia. }
  rewrite smaller_records_eq by lia.
  rewrite usize_shl_small
    by (try lia; pose proof (pow2_mono (length xs + 2) 61 ltac:(lia)); change (Z.of_nat 61) with 61 in *; lia).
  destruct (Z.leb_spec (records 0 xs) (1 * 2 ^ Z.of_nat (length xs + 2) / 8)) as [Hsm|Hsm];
    [|eexists _, false; split; [done|by eapply tidy_inv_tidied]].
  replace (length xs + 2)%nat with (S (S (length xs))) in Hsm by lia. rewrite !pow2_S in Hsm.
  pose proof (Z.mul_div_le (1 * (2 * (2 * 2 ^ Z.of_nat (length xs)))) 8 ltac:(lia)).
  destruct (tidy_join_ok _ _ _ _ _ _ _ _ _ b Hinv Hcb ltac:(lia) ltac:(lia)) as (ms' & He & Hms).
  rewrite Hcb. unfold assert_. simpl length. cbn [Nat.eqb obind foldM].
  change (Spine.with_merging (Spine.with_merging s0 (xs ++ [c; m])) (xs ++ [m])) with (Spine.with_merging s0 (xs ++ [m])).
  rewrite He. cbn [obind]. by eexists _, false.
Qed.

(** As many turns as levels are enough, and none panics. *)
Lemma tidy_loop_ok s0 hi u d a bound turns ms :
  tidy_inv s0 hi u d a bound ms -> bound <= 2 ^ 60 -> (length ms <= turns)%nat ->
  exists ms', Spine.tidy_loop turns a (Spine.with_merging s0 ms) = Ret (Spine.with_merging s0 ms') /\
    tidied s0 hi u d bound ms' /\
    forall turns', (length ms <= turns')%nat ->
      Spine.tidy_loop turns' a (Spine.with_merging s0 ms) = Ret (Spine.with_merging s0 ms').
Proof.
  intros Hinv Hb. revert ms Hinv. induction turns as [|turns IH]; intros ms Hinv Hlen.
  { destruct (td_top _ _ _ _ _ _ _ Hinv) as (xs & m & t & -> & _). rewrite length_app in Hlen. simpl in Hlen. lia. }
  assert (forall n, (length ms <= S n)%nat -> exists k, n = k) by eauto.
  simpl. destruct (Nat.ltb_spec a (length ms - 1)) as [Ha|Ha].
  - destruct (tidy_step_ok _ _ _ _ _ _ _ Hinv Ha Hb) as (ms' & go & He & Hgo).
    rewrite He. cbn [obind]. destruct go.
    + destruct Hgo as [Hinv' Hl']. destruct (IH ms' Hinv' ltac:(lia)) as (ms2 & He2 & Ht2 & Hall).
      exists ms2. split_and!; try done. intros [|turns'] Hlen'; [lia|]. simpl.
      rewrite (proj2 (Nat.ltb_lt _ _)) by lia. rewrite He. cbn [obind]. apply Hall. lia.
    + exists ms'. split_and!; try done. intros [|turns'] Hlen'; [lia|]. simpl.
      rewrite (proj2 (Nat.ltb_lt _ _)) by lia. by rewrite He.
  - exists ms. split_and!; [done|by eapply tidy_inv_tidied|]. intros [|turns'] Hlen'; [done|]. simpl.
    by rewrite (proj2 (Nat.ltb_ge _ _)) by lia.
Qed.

Lemma tidy_layers_ok s hi u d :
  levels_ok (sp_since s) 0 0 0 (sp_merging s) -> top_ok (sp_merging s) ->
  content hi u d (batches_of (sp_merging s)) -> records 0 (sp_merging s) <= 2 ^ 60 ->
  exists ms', Spine.tidy_layers s = Ret (Spine.with_merging s ms') /\
    tidied s hi u d (records 0 (sp_merging s)) ms'.
Proof.
  intros Hl Ht Hc Hr. unfold Spine.tidy_layers. destruct (last (sp_merging s)) as [m|] eqn:E.
  - apply last_Some in E as (xs & E). unfold MergeState.is_single.
    destruct (Nat.eqb_spec (length (ms_batches m)) 1) as [H1|H1].
    + destruct (ms_batches m) as [|t [|]] eqn:Em; simpl in H1; try lia.
      assert (Hlt : 0 <= sb_len t <= 2 ^ 60).
      { rewrite E in Hl, Hr. pose proof (top_records xs m ltac:(by rewrite Em)).
        apply levels_ok_app in Hl as [_ [(_ & _ & Hb) _]]. rewrite Em in Hb.
        apply Forall_singleton in Hb as [Hw Hb]. pose proof (batch_wf_nonneg _ _ Hw). simpl in Hb. lia. }
      destruct (level_of_spec _ Hlt) as [Hlev _].
      destruct (tidy_loop_ok s hi u d (Spine.level_of (MergeState.len m)) (records 0 (sp_merging s))
        (length (sp_merging s)) (sp_merging s)) as (ms' & He & Hms & _); try done.
      { split; try done. exists xs, m, t. split_and!; try done. unfold MergeState.len. rewrite Em.
        unfold sumZ. simpl. unfold SpineBatch.len. by rewrite Z.add_0_r. }
      exists ms'. rewrite with_merging_id in He. by split.
    + exists (sp_merging s). rewrite with_merging_id. split; [done|]. by split_and!.
  - exists (sp_merging s). rewrite with_merging_id. split; [done|]. by split_and!.
Qed.
End tidying.
