(* ===== verification/SpineCorrect.v ===== *)
(** The spine is correct: every batch it accepts is inserted without a panic,
    keeps the invariant of [SpineFacts], and leaves the data readable in the
    order in which it was inserted; [exert] changes the arrangement and not
    the data; every spine that is reachable this way passes [validate]. *)

From S2P Require Import Prelude Timely Batch Spine SpineFacts.
Local Open Scope Z_scope.

Section inserting.
Context {T : Type} `{TimelyLaws T}.
Implicit Types (b x : SpineBatch T) (m : MergeState T) (ms xs ys : list (MergeState T)) (s : Spine T).

(** A spine that [roll_up] prepared takes the batch. *)
Lemma insert_ready s hi u d idx ms b :
  ready s hi u d idx ms -> batch_wf (sp_since s) b -> sb_len b <= 2 ^ Z.of_nat idx ->
  sid_lo (sb_id b) = hi -> SpineBatch.lower b = u ->
  exists ms', Spine.insert_at (Spine.with_merging s ms) b idx = Ret (Spine.with_merging s ms') /\
    tidied s (sid_hi (sb_id b)) (SpineBatch.upper b) (d ++ data_of [b])
      (records 0 (sp_merging s) + 2 * 2 ^ Z.of_nat idx) ms'.
Proof.
  intros [(xs & m & ys & -> & Hx & Hv & Hlx & Hm & Hmm & Hm1 & Hy & Ht) Hc Hr] Hb Hlen Hlo Hlow.
  pose proof (content_snoc _ _ _ _ b Hc Hlo Hlow) as Hc'.
  assert (Hrx : records 0 xs = 0) by by eapply vacant_levels.
  rewrite batches_of_app, (batches_of_cons _ ys), (vacant_batches xs), app_nil_r, <- app_assoc in Hc' by exact Hv.
  exists (xs ++ push_level (sp_since s) m b :: ys). unfold tidied. split_and!.
  - rewrite <- (app_nil_r (ms_batches m ++ [b])) in Hc'.
    destruct (content_middle _ _ _ _ _ _ Hc') as (lo & f & lo' & f' & Hch & _).
    erewrite insert_at_spec with (xs := xs) (m := m) (ys := ys); try done.
    cbn. apply pad_long. rewrite length_app. simpl. lia.
  - apply levels_ok_app. split; [done|]. simpl. rewrite Hrx, Hx. simpl. split.
    + eapply push_level_ok; try done. lia.
    + rewrite push_level_records. done.
  - destruct Ht as [->|Ht]; [rewrite top_ok_snoc; apply push_level_nonempty|].
    destruct ys as [|y ys]; [rewrite top_ok_snoc; apply push_level_nonempty|].
    change (push_level (sp_since s) m b :: y :: ys) with ([push_level (sp_since s) m b] ++ y :: ys).
    by rewrite app_assoc, top_ok_app.
  - rewrite batches_of_app, (batches_of_cons _ ys), (vacant_batches xs), app_nil_r by exact Hv. done.
  - rewrite records_app in Hr |- *. simpl in Hr |- *. rewrite Hx in *. rewrite push_level_records. simpl in *. lia.
Qed.

Lemma fuel_for_exact idx : (idx <= 59)%nat -> Spine.fuel_for 1 idx = 8 * 2 ^ Z.of_nat idx.
Proof.
  intros Hi. pose proof (pow2_mono idx 59 Hi) as Hp. change (Z.of_nat 59) with 59 in Hp. pose proof (pow2_pos idx).
  unfold Spine.fuel_for, usize_checked_shl, usize_checked_mul, isize_try_from, usize_max, isize_max.
  rewrite (proj2 (Nat.ltb_lt idx 64)) by lia. simpl mbind.
  rewrite Z.shiftl_mul_pow2, Z.mod_small, Z.mul_1_r by lia.
  rewrite (proj2 (Z.leb_le _ _)) by lia. simpl mbind. by rewrite (proj2 (Z.leb_le _ _)) by lia.
Qed.

Lemma introduce_ok s b idx log hi u d :
  levels_ok (sp_since s) 0 0 0 (sp_merging s) -> top_ok (sp_merging s) -> sp_effort s = 1 ->
  content hi u d (batches_of (sp_merging s)) ->
  batch_wf (sp_since s) b -> sb_len b <= 2 ^ Z.of_nat idx ->
  sid_lo (sb_id b) = hi -> SpineBatch.lower b = u ->
  records 0 (sp_merging s) + 2 * 2 ^ Z.of_nat idx <= 2 ^ 60 ->
  exists ms' log', Spine.introduce_batch s b idx log = Ret (Spine.with_merging s ms', log') /\
    tidied s (sid_hi (sb_id b)) (SpineBatch.upper b) (d ++ data_of [b])
      (records 0 (sp_merging s) + 2 * 2 ^ Z.of_nat idx) ms'.
Proof.
  intros Hl Ht He Hc Hb Hlen Hlo Hlow Hbound.
  assert (Hidx : (idx <= 59)%nat).
  { pose proof (records_nonneg 0 (sp_merging s)). apply Nat.lt_succ_r, pow2_lt_inv.
    change (Z.of_nat 60) with 60. pose proof (pow2_pos idx). lia. }
  unfold Spine.introduce_batch. rewrite He, fuel_for_exact by done. pose proof (pow2_pos idx).
  destruct (apply_fuel_ok s (8 * 2 ^ Z.of_nat idx) log hi u d) as (ms1 & log1 & -> & Hl1 & Ht1 & Hc1 & Hr1); try done; [lia|].
  cbn [obind].
  destruct (roll_up_ok (Spine.with_merging s ms1) idx (8 * 2 ^ Z.of_nat idx) log1 hi u d)
    as (ms2 & log2 & -> & Hready); try done. cbn [obind].
  destruct (insert_ready (Spine.with_merging s ms1) hi u d idx ms2 b) as (ms3 & -> & Hl3 & Ht3 & Hc3 & Hr3); try done.
  cbn [obind sp_merging sp_since Spine.with_merging] in *. rewrite Hr1 in Hr3.
  edestruct (tidy_layers_ok (Spine.with_merging s ms3)) as (ms4 & He4 & Hl4 & Ht4 & Hc4 & Hr4);
    cbn [sp_merging sp_since Spine.with_merging] in *; try done; [lia|].
  change (Spine.with_merging (Spine.with_merging _ _) ms3) with (Spine.with_merging s ms3).
  rewrite He4. cbn [obind]. eexists ms4, log2. split; [done|]. split_and!; try done. lia.
Qed.

Lemma spine_content s : spine_ok s ->
  content (sp_next_id s) (sp_upper s) (data_of (Spine.spine_batches s)) (batches_of (sp_merging s)).
Proof. intros Hs. split; [apply (so_chain _ Hs)|done]. Qed.

(** What the result of an operation promises. *)
Definition arranged s (hi : N) (u : Antichain T) (d : list (HollowBatch T)) (bound : Z) (s' : Spine T) : Prop :=
  spine_ok s' /\ sp_since s' = sp_since s /\ sp_next_id s' = hi /\ sp_upper s' = u /\
  data_of (Spine.spine_batches s') = d /\ records 0 (sp_merging s') <= bound.

Lemma tidied_arranged s hi u d bound ms :
  tidied s hi u d bound ms -> sp_effort s = 1 -> sp_next_id s = hi -> sp_upper s = u ->
  arranged s hi u d bound (Spine.with_merging s ms).
Proof.
  intros (Hl & Ht & [Hc Hd] & Hr) He <- <-. unfold arranged. by split_and!.
Qed.

(** The data a hollow batch adds. *)
Definition data_in (h : HollowBatch T) : list (HollowBatch T) := if hb_len h =? 0 then [] else [h].

Lemma data_of_merged i (h : HollowBatch T) :
  data_of [SpineBatch.merged {| ihb_id := i; ihb_batch := h |}] = data_in h.
Proof.
  unfold data_of, data_in. simpl. destruct (Z.eqb_spec (hb_len h) 0).
  - rewrite filter_cons_False by tauto. done.
  - rewrite filter_cons_True by done. done.
Qed.

(** The first level that is occupied. *)
Lemma first_nonvacant_split ms i m :
  Spine.first_nonvacant ms = Some (i, m) ->
  exists xs ys, ms = xs ++ m :: ys /\ length xs = i /\ Forall (fun m => ms_batches m = []) xs.
Proof.
  unfold Spine.first_nonvacant. intros (Hl & _ & Hv)%list_find_Some.
  exists (take i ms), (drop (S i) ms). split_and!.
  - by rewrite take_drop_middle.
  - apply length_take_le. apply lookup_lt_Some in Hl. lia.
  - apply Forall_lookup. intros j y [Hy Hj]%lookup_take_Some.
    specialize (Hv j y Hy Hj). unfold MergeState.is_vacant in Hv.
    destruct (bool_decide_reflect (length (ms_batches y) = 0%nat)) as [E|E]; [|done].
    by apply length_zero_iff_nil in E.
Qed.

(** The branch of [insert] that fuses an empty batch with an empty level. *)
Lemma fuse_ok s b i m log hi u d :
  levels_ok (sp_since s) 0 0 0 (sp_merging s) -> top_ok (sp_merging s) ->
  content hi u d (batches_of (sp_merging s)) ->
  batch_wf (sp_since s) b -> sb_len b = 0 -> sid_lo (sb_id b) = hi -> SpineBatch.lower b = u ->
  Spine.first_nonvacant (sp_merging s) = Some (i, m) ->
  MergeState.is_single m = true -> MergeState.is_empty m = true ->
  exists ms' log',
    (let! s := Spine.insert_at s b i in
     let! (s, merged, log) := Spine.complete_at s i log in
     match merged with
     | Some merged =>
         let! m := MergeState.single merged in
         Ret (Spine.with_merging s (<[i := m]> (sp_merging s)), log)
     | None => Ret (s, log)
     end) = Ret (Spine.with_merging s ms', log') /\
    tidied s (sid_hi (sb_id b)) (SpineBatch.upper b) d (records 0 (sp_merging s)) ms'.
Proof.
  intros Hl Ht Hc Hb Hlen Hlo Hlow Hf Hsingle Hempty.
  pose proof (content_snoc _ _ _ _ b Hc Hlo Hlow) as Hc'. rewrite (data_of_empty _ _ Hb Hlen), app_nil_r in Hc'.
  destruct (first_nonvacant_split _ _ _ Hf) as (xs & ys & E & Hx & Hv). rewrite E in *.
  apply levels_ok_app in Hl as [Hlx [Hm Hly]]. rewrite Hx in *. simpl in Hm, Hly.
  unfold MergeState.is_single in Hsingle. apply Nat.eqb_eq in Hsingle.
  assert (Hempty' : MergeState.len m = 0).
  { unfold MergeState.is_empty in Hempty. unfold MergeState.len.
    destruct (ms_batches m) as [|b0 [|]]; simpl in *; try lia.
    rewrite andb_true_r in Hempty. apply Z.eqb_eq in Hempty. unfold sumZ. simpl. lia. }
  rewrite batches_of_app, (batches_of_cons _ ys), (vacant_batches xs), app_nil_r, <- app_assoc in Hc' by exact Hv.
  rewrite <- (app_nil_r (ms_batches m ++ [b])) in Hc'.
  destruct (content_middle _ _ _ _ _ _ Hc') as (lo & f & lo' & f' & Hch & Hre).
  erewrite insert_at_spec with (xs := xs) (m := m) (ys := ys); try done;
    [|rewrite E; apply pad_long; rewrite length_app; simpl; lia|eapply shape_short; [apply Hm|lia]|lia].
  cbn [obind]. erewrite complete_at_spec by done.
  destruct (complete_ok (sp_since s) (push_level (sp_since s) m b) log lo f lo' f') as (r & log' & He & Hr); try done.
  { apply push_level_shape; [lia|by eapply level_ok_wf|done]. }
  { rewrite push_level_batches. apply Forall_app. split; [by eapply level_ok_wf|by apply Forall_singleton]. }
  rewrite He. cbn [obind]. destruct r as [x|]; [|by destruct (push_level_nonempty (sp_since s) m b)].
  destruct Hr as (_ & Hx1 & Hx2 & Hx3 & Hx4).
  assert (Hlx0 : sb_len x = 0).
  { rewrite Hx3. unfold MergeState.len in *. rewrite push_level_batches, fmap_app, sumZ_app, Hempty'.
    unfold sumZ, SpineBatch.len. simpl. lia. }
  unfold MergeState.single. erewrite push_returns by (simpl; done || lia). cbn [obind].
  eexists _, log'. cbn [Spine.with_merging sp_merging]. rewrite list_insert_middle by done.
  split; [done|]. unfold tidied. split_and!.
  - apply levels_ok_app. split; [done|]. rewrite Hx. simpl. split.
    + split_and!; [unfold shape_ok; simpl; lia|done|]. apply Forall_singleton. split; [done|].
      pose proof (pow2_pos i). lia.
    + unfold level_records in *. simpl. by rewrite Hsingle in Hly.
  - destruct ys as [|y ys]; [by rewrite top_ok_snoc|].
    change (?a :: y :: ys) with ([a] ++ y :: ys) in *. rewrite app_assoc in Ht |- *.
    rewrite top_ok_app in Ht |- * by done. done.
  - rewrite batches_of_app, (batches_of_cons _ ys), (vacant_batches xs), app_nil_r by exact Hv. simpl.
    rewrite <- (app_nil_r [x]). by apply Hre.
  - rewrite !records_app. simpl. unfold level_records. simpl. rewrite Hsingle. lia.
Qed.

Lemma insert_ok s (h : HollowBatch T) log :
  spine_ok s -> d_lower (hb_desc h) <> d_upper (hb_desc h) -> d_lower (hb_desc h) = sp_upper s ->
  less_equal (d_since (hb_desc h)) (sp_since s) = true -> hollow_ok h -> hb_len h <= 2 ^ 60 ->
  records 0 (sp_merging s) + 2 * 2 ^ Z.of_nat (Spine.level_of (hb_len h)) <= 2 ^ 60 ->
  exists s' log', Spine.insert s h log = Ret (s', log') /\
    arranged s (sp_next_id s + 1)%N (d_upper (hb_desc h)) (data_of (Spine.spine_batches s) ++ data_in h)
      (records 0 (sp_merging s) + 2 * 2 ^ Z.of_nat (Spine.level_of (hb_len h))) s'.
Proof.
  intros Hs Hne Hlow Hsince Hh Hmax Hbound. pose proof (conj (ho_len _ Hh) Hmax) as Hlen. unfold Spine.insert, assert_.
  rewrite bool_decide_eq_false_2, bool_decide_eq_true_2 by done. cbn [negb obind Spine.next_id].
  set (s1 := Spine.with_upper _ _). set (b := SpineBatch.merged _).
  pose proof (spine_content _ Hs) as Hc. destruct Hs as [Hl _ Ht He].
  assert (Hb : batch_wf (sp_since s) b) by (apply merged_wf; simpl; [lia|done|done]).
  assert (Hlb : SpineBatch.lower b = sp_upper s) by done.
  destruct (level_of_spec _ Hlen) as [Hlev _].
  assert (Hintro : exists s' log', Spine.introduce_batch s1 b (Spine.level_of (SpineBatch.len b)) log = Ret (s', log') /\
    arranged s (sp_next_id s + 1)%N (d_upper (hb_desc h)) (data_of (Spine.spine_batches s) ++ data_in h)
      (records 0 (sp_merging s) + 2 * 2 ^ Z.of_nat (Spine.level_of (hb_len h))) s').
  { destruct (introduce_ok s1 b (Spine.level_of (hb_len h)) log (sp_next_id s) (sp_upper s)
      (data_of (Spine.spine_batches s))) as (ms & log' & Hi & Htd); try done.
    exists (Spine.with_merging s1 ms), log'. split; [done|]. rewrite <- (data_of_merged (SId (sp_next_id s) (sp_next_id s + 1))).
    by apply (tidied_arranged s1). }
  destruct (SpineBatch.is_empty b) eqn:Hz; [|done].
  destruct (Spine.first_nonvacant (sp_merging s1)) as [[i m]|] eqn:Hf; [|done].
  destruct (MergeState.is_single m && MergeState.is_empty m) eqn:Hm; [|done].
  apply andb_true_iff in Hm as [Hm1 Hm2]. apply Z.eqb_eq in Hz.
  edestruct (fuse_ok s1 b i m log) as (ms & log' & Hi & Htd); try done.
  exists (Spine.with_merging s1 ms), log'. split; [exact Hi|].
  apply tidied_arranged in Htd as (H1 & H2 & H3 & H4 & H5 & H6); try done.
  unfold arranged. split_and!; try done.
  - rewrite H5. unfold data_in. change (hb_len h) with (SpineBatch.len b). rewrite Hz. by rewrite app_nil_r.
  - pose proof (pow2_pos (Spine.level_of (hb_len h))). cbn in H6 |- *. lia.
Qed.
End inserting.

Section exerting.
Context {T : Type} `{TimelyLaws T}.
Implicit Types (b x : SpineBatch T) (m : MergeState T) (ms xs ys : list (MergeState T)) (s : Spine T).

Lemma isize_clamp_nonneg (x : Z) : 0 <= x -> 0 <= default isize_max (isize_try_from x).
Proof. intros. unfold isize_try_from. by destruct (x <=? isize_max). Qed.

Lemma exert_ok s effort log :
  spine_ok s -> 0 <= effort <= 2 ^ 60 ->
  records 0 (sp_merging s) + 2 * 2 ^ Z.of_nat (Spine.level_of effort) <= 2 ^ 60 ->
  exists s' worked log', Spine.exert s effort log = Ret (s', worked, log') /\
    arranged s (sp_next_id s') (sp_upper s) (data_of (Spine.spine_batches s))
      (records 0 (sp_merging s) + 2 * 2 ^ Z.of_nat (Spine.level_of effort)) s'.
Proof.
  intros Hs Heff Hbound. pose proof (spine_content _ Hs) as Hc. destruct Hs as [Hl _ Ht He].
  pose proof (pow2_pos (Spine.level_of effort)). destruct (level_of_spec _ Heff) as [Hlev _].
  destruct (tidy_layers_ok s (sp_next_id s) (sp_upper s) (data_of (Spine.spine_batches s)) Hl Ht Hc ltac:(lia))
    as (ms & Hti & Htd). assert (Htd' := Htd). destruct Htd' as (Hl1 & Ht1 & Hc1 & Hr1).
  unfold Spine.exert. rewrite Hti. cbn [obind]. set (s1 := Spine.with_merging s ms).
  destruct (Spine.reduced s1).
  { exists s1, false, log. split; [done|]. apply tidied_arranged in Htd; try done.
    destruct Htd as (?&?&?&?&?&?). unfold arranged. split_and!; try done. cbn. lia. }
  destruct (existsb _ _).
  - destruct (apply_fuel_ok s1 (default isize_max (isize_try_from effort)) log (sp_next_id s) (sp_upper s)
      (data_of (Spine.spine_batches s))) as (ms2 & log2 & Hap & Hl2 & Ht2 & Hc2 & Hr2); try done.
    { apply isize_clamp_nonneg. lia. }
    rewrite Hap. cbn [obind]. eexists _, true, log2. split; [done|].
    apply (tidied_arranged s (sp_next_id s)); try done. unfold tidied. split_and!; try done.
    + eapply levels_ok_credit; [exact Hl2|]. pose proof (isize_clamp_nonneg effort ltac:(lia)). lia.
    + cbn in Hr2. lia.
  - cbn [Spine.next_id]. set (s2 := {| sp_next_id := _ |}). set (b := SpineBatch.empty _ _ _ _).
    destruct (introduce_ok s2 b (Spine.level_of effort) log (sp_next_id s) (sp_upper s)
      (data_of (Spine.spine_batches s))) as (ms2 & log2 & Hap & Htd2); try done.
    + apply empty_wf; simpl; [lia| |]; apply le_refl.
    + simpl. lia.
    + unfold SpineBatch.lower. simpl. by rewrite lower_new.
    + cbn. lia.
    + change (sp_upper s1) with (sp_upper s). rewrite Hap. cbn [obind]. eexists _, true, log2. split; [done|].
      apply (tidied_arranged s2 (sp_next_id s + 1)); try done.
      unfold SpineBatch.upper in Htd2. simpl in Htd2. rewrite upper_new, app_nil_r in Htd2.
      destruct Htd2 as (?&?&?&Hr2). unfold tidied. split_and!; try done. cbn in Hr2. lia.
Qed.

(** Every batch of the spine is well-formed. *)
Lemma levels_batches_wf since c k n ms : levels_ok since c k n ms -> Forall (batch_wf since) (batches_of ms).
Proof.
  revert k n. induction ms as [|m ms IH]; intros k n Hl; [constructor|]. rewrite batches_of_cons.
  destruct Hl as [Hm Hl]. apply Forall_app. split; [by eapply IH|by eapply level_ok_wf].
Qed.

Lemma spine_batches_wf s : spine_ok s -> Forall (batch_wf (sp_since s)) (Spine.spine_batches s).
Proof. intros Hs. eapply levels_batches_wf, (so_levels _ Hs). Qed.

(** *** The empty spine and the since *)

Lemma new_ok : spine_ok (Spine.new (T := T)).
Proof. by split. Qed.

Lemma level_ok_since since since' c n k m :
  level_ok since c n k m -> less_equal since since' = true -> level_ok since' c n k m.
Proof.
  intros (Hs & Hf & Hb) Hle. split_and!; [|done|].
  - unfold shape_ok in *. destruct (ms_merge m); [|done]. destruct Hs as (?&?&?&?). split_and!; eauto using le_trans.
  - eapply Forall_impl; [exact Hb|]. intros b [Hw ?]. split; [by eapply batch_wf_since|done].
Qed.

Lemma levels_ok_since since since' c k n ms :
  levels_ok since c k n ms -> less_equal since since' = true -> levels_ok since' c k n ms.
Proof.
  revert k n. induction ms as [|m ms IH]; intros k n Hl Hle; [done|]. simpl in *. destruct Hl.
  split; eauto using level_ok_since.
Qed.

Lemma with_since_ok s since :
  spine_ok s -> less_equal (sp_since s) since = true -> spine_ok (Spine.with_since s since).
Proof. intros [] Hle. split; try done. by eapply levels_ok_since. Qed.

(** *** The run-time validation *)

Lemma validate_level_ok since c n k m : level_ok since c n k m -> Spine.validate_level m = None.
Proof.
  intros (Hs & _). unfold Spine.validate_level, MergeState.is_full, BATCHES_PER_LEVEL. unfold shape_ok in Hs.
  destruct (ms_merge m) as [im|].
  - destruct Hs as (Hl & Hid & _). rewrite Hl, Hid. simpl. by rewrite bool_decide_eq_true_2.
  - destruct (ms_batches m) as [|? [|]]; simpl in *; [done|done|lia].
Qed.

Lemma validate_batches_ok since lo f bs hi u :
  chain lo f (batch_seg <$> bs) hi u -> Forall (batch_wf since) bs ->
  Spine.validate_batches since bs lo f = Ok (hi, u).
Proof.
  revert lo f. induction bs as [|b bs IH]; intros lo f Hc Hb; simpl in *; [by destruct Hc as [-> ->]|].
  destruct Hc as (Hlo & Hf & Hc). inversion_clear Hb as [|?? Hb1 Hb2].
  unfold SpineBatch.id, SpineBatch.lower. rewrite !bool_decide_eq_true_2 by done. simpl.
  rewrite (bw_since _ _ Hb1). simpl. by apply IH.
Qed.

Lemma validate_levels_ok since lo f (ms : list (MergeState T)) hi u :
  Forall (fun m => exists c n k, level_ok since c n k m) ms ->
  chain lo f (batch_seg <$> concat (ms_batches <$> ms)) hi u ->
  Spine.validate_levels since ms lo f = Ok (hi, u).
Proof.
  revert lo f. induction ms as [|m ms IH]; intros lo f Hm Hc; simpl in *; [by destruct Hc as [-> ->]|].
  inversion_clear Hm as [|?? (c & n & k & Hm1) Hm2]. rewrite (validate_level_ok _ _ _ _ _ Hm1).
  rewrite fmap_app in Hc. apply chain_app in Hc as (lo' & f' & Hc1 & Hc2).
  rewrite (validate_batches_ok since _ _ _ _ _ Hc1) by (by eapply level_ok_wf). by apply IH.
Qed.

Lemma levels_ok_Forall since c k n ms :
  levels_ok since c k n ms -> Forall (fun m => exists c n k, level_ok since c n k m) ms.
Proof.
  revert k n. induction ms as [|m ms IH]; intros k n Hl; constructor; simpl in Hl; destruct Hl; eauto.
Qed.

Lemma validate_ok s : spine_ok s -> Spine.validate s = Ok tt.
Proof.
  intros [Hl Hc _ _]. unfold Spine.validate.
  rewrite (validate_levels_ok _ _ _ _ (sp_next_id s) (sp_upper s)).
  - by rewrite !bool_decide_eq_true_2.
  - apply Forall_rev. by eapply levels_ok_Forall.
  - done.
Qed.
End exerting.
