(* ===== verification/Trace.v ===== *)
(** * Traces (src/src/persist-client/src/internal/trace.rs)

    A [Trace] wraps a spine: it accepts batches and hands out requests to
    compact them, and it swaps the results of compactions in for the batches
    they were computed from.  The theorems are in [TraceFacts]. *)

From S2P Require Import Prelude Timely Paths Batch Spine.

Local Open Scope Z_scope.

Section types.
Context (T : Type) `{Timely T}.

(** What a compaction read.  A [BTreeSet<RunId>] is the list of its
    elements. *)
Inductive CompactionInput :=
| CLegacy
| CIdRange (i : SpineId)
| CPartialBatch (i : SpineId) (runs : list RunId).

Record FueledMergeRes := {
  fres_output : HollowBatch T;
  fres_input : CompactionInput;
  fres_new_active_compaction : option ActiveCompaction;
}.

Record Trace := {
  tr_spine : Spine T;
  tr_roundtrip_structure : bool;
}.
End types.

Arguments tr_spine {T _}.
Arguments tr_roundtrip_structure {T _}.
Arguments fres_output {T _}.
Arguments fres_input {T _}.
Arguments fres_new_active_compaction {T _}.

Inductive ApplyMergeResult :=
| AppliedExact
| AppliedSubset
| NotAppliedNoMatch
| NotAppliedInvalidSince
| NotAppliedTooManyUpdates.

Definition ApplyMergeResult_applied (r : ApplyMergeResult) : bool :=
  match r with AppliedExact | AppliedSubset => true | _ => false end.

Definition ApplyMergeResult_matched (r : ApplyMergeResult) : bool :=
  match r with AppliedExact | AppliedSubset | NotAppliedTooManyUpdates => true | _ => false end.

(** ** Ranges of spine ids *)

(** The derived order of [SpineId]. *)
Definition SpineId_ltb (a b : SpineId) : bool :=
  ((sid_lo a <? sid_lo b) || ((sid_lo a =? sid_lo b) && (sid_hi a <? sid_hi b)))%N.

(** [collect::<BTreeSet<SpineId>>()]: ascending and without duplicates. *)
Fixpoint id_set_insert (i : SpineId) (l : list SpineId) : list SpineId :=
  match l with
  | [] => [i]
  | j :: l' => if SpineId_ltb i j then i :: l
               else if SpineId_ltb j i then j :: id_set_insert i l'
               else l
  end.

Definition id_set (l : list SpineId) : list SpineId := foldl (fun s i => id_set_insert i s) [] l.

(** Panics on an empty set and on ids that are not contiguous. *)
Definition id_range (ids : list SpineId) : outcome SpineId :=
  match ids with
  | [] => Panic
  | first :: rest =>
      foldM (fun res i => let! _ := assert_ (sid_hi res =? sid_lo i)%N in
                          Ret (SId (sid_lo res) (sid_hi i))) rest first
  end.

(** [Itertools::minmax] on indices. *)
Definition minmax (l : list nat) : option (nat * nat) :=
  match l with
  | [] => None
  | x :: l' => Some (foldl Nat.min x l', foldl Nat.max x l')
  end.

(** ** Compaction results and the batch they replace *)

Module Replace.
Section ops.
Context {T : Type} `{Timely T} {D : Type} `{!PartCodec D}.

Fixpoint sum_parts (sum : D) (parts : list (RunPart T)) : outcome (option D) :=
  match parts with
  | [] => Ret (Some sum)
  | p :: parts' =>
      let! d := RunPart.diffs_sum p in
      match d with
      | Some d => sum_parts (diff_plus sum d) parts'
      | None => Ret None
      end
  end.

Definition diffs_sum (parts : list (RunPart T)) : outcome (option D) := sum_parts diff_zero parts.

Fixpoint sum_runs (sum : D) (runs : list (outcome (RunMeta * list (RunPart T)))) : outcome (option D) :=
  match runs with
  | [] => Ret (Some sum)
  | item :: runs' =>
      let! (meta, run) := item in
      if bounds_truncated (D := D) meta then Ret None
      else
        let! d := diffs_sum run in
        match d with
        | Some d => sum_runs (diff_plus sum d) runs'
        | None => Ret None
        end
  end.

Definition batch_diffs_sum (batch : HollowBatch T) : outcome (option D) :=
  sum_runs diff_zero (HollowBatch.runs batch).

Fixpoint sum_chosen_runs (run_ids : list RunId) (sum : D)
    (runs : list (outcome (RunMeta * list (RunPart T)))) : outcome (option D) :=
  match runs with
  | [] => Ret (if bool_decide (run_ids = []) then Some sum else None)
  | item :: runs' =>
      let! (meta, run) := item in
      match rm_id meta with
      | None => Ret None
      | Some i =>
          if bool_decide (i ∈ run_ids) then
            let run_ids := filter (fun j => j <> i) run_ids in
            if bounds_truncated (D := D) meta then Ret None
            else
              let! d := diffs_sum run in
              match d with
              | Some d => sum_chosen_runs run_ids (diff_plus sum d) runs'
              | None => Ret None
              end
          else sum_chosen_runs run_ids sum runs'
      end
  end.

Definition diffs_sum_for_runs (batch : HollowBatch T) (run_ids : list RunId) : outcome (option D) :=
  sum_chosen_runs run_ids diff_zero (HollowBatch.runs batch).

(** [try_fold] of [batch_diffs_sum] over parts. *)
Fixpoint sum_batches (sum : D) (parts : list (IdHollowBatch T)) : outcome (option D) :=
  match parts with
  | [] => Ret (Some sum)
  | p :: parts' =>
      let! d := batch_diffs_sum (ihb_batch p) in
      match d with
      | Some d => sum_batches (diff_plus sum d) parts'
      | None => Ret None
      end
  end.

Definition validate_diffs_sum_match (old new : option D) : outcome unit :=
  let new := default diff_zero new in
  match old with
  | Some old => assert_ (bool_decide (old = new))
  | None => Ret tt
  end.

(** The weaker comparison of the legacy path: only when both are known. *)
Definition validate_known_sums (old new : option D) : outcome unit :=
  match old, new with
  | Some old, Some new => assert_ (bool_decide (old = new))
  | _, _ => Ret tt
  end.
End ops.

Section batches.
Context {T : Type} `{Timely T}.

(** The loop of [find_replacement_range]: the latest part seen whose lower
    (upper) is the description's, until both are known. *)
Fixpoint find_bounds (desc : Description T) (i : nat) (parts : list (IdHollowBatch T))
    (lower upper : option (nat * N)) : option (nat * N) * option (nat * N) :=
  match parts with
  | [] => (lower, upper)
  | p :: parts' =>
      let lower := if bool_decide (d_lower (hb_desc (ihb_batch p)) = d_lower desc)
                   then Some (i, sid_lo (ihb_id p)) else lower in
      let upper := if bool_decide (d_upper (hb_desc (ihb_batch p)) = d_upper desc)
                   then Some (i, sid_hi (ihb_id p)) else upper in
      match lower, upper with
      | Some _, Some _ => (lower, upper)
      | _, _ => find_bounds desc (S i) parts' lower upper
      end
  end.

Definition find_replacement_range (b : SpineBatch T) (desc : Description T) :
    option (SpineId * (nat * nat)) :=
  match find_bounds desc 0 (sb_parts b) None None with
  | (Some (lower_idx, id_lower), Some (upper_idx, id_upper)) =>
      Some (SId id_lower id_upper, (lower_idx, S upper_idx))
  | _ => None
  end.

Definition perform_subset_replacement (b : SpineBatch T) (res : HollowBatch T) (spine_id : SpineId)
    (range : nat * nat) (new_active_compaction : option ActiveCompaction) :
    outcome (SpineBatch T * ApplyMergeResult) :=
  let parts := sb_parts b in
  let! _ := assert_ (range.1 <=? length parts)%nat in
  let! _ := assert_ (range.2 <=? length parts)%nat in
  let new_parts := take range.1 parts ++ [{| ihb_id := spine_id; ihb_batch := res |}] ++ drop range.2 parts in
  let r := if (range.2 - range.1 =? length parts)%nat then AppliedExact else AppliedSubset in
  let new_spine_batch := {|
    sb_id := sb_id b; sb_desc := sb_desc b; sb_len := SpineBatch.parts_len new_parts;
    sb_parts := new_parts; sb_active_compaction := new_active_compaction |} in
  if SpineBatch.len b <? SpineBatch.len new_spine_batch then Ret (b, NotAppliedTooManyUpdates)
  else Ret (new_spine_batch, r).

Definition exact_match (b : SpineBatch T) (desc : Description T) : bool :=
  bool_decide (d_lower desc = SpineBatch.lower b) && bool_decide (d_upper desc = SpineBatch.upper b).

Definition maybe_replace_with_tombstone (b : SpineBatch T) (desc : Description T) :
    outcome (SpineBatch T * ApplyMergeResult) :=
  let empty_batch := HollowBatch.empty desc in
  if exact_match b desc then
    Ret (SpineBatch.merged {| ihb_id := SpineBatch.id b; ihb_batch := empty_batch |}, AppliedExact)
  else match find_replacement_range b desc with
       | Some (i, range) => perform_subset_replacement b empty_batch i range None
       | None => Ret (b, NotAppliedNoMatch)
       end.

Definition maybe_replace_unchecked (b : SpineBatch T) (res : FueledMergeRes T) :
    outcome (SpineBatch T * ApplyMergeResult) :=
  if negb (less_equal (d_since (hb_desc (fres_output res))) (SpineBatch.since b)) then
    Ret (b, NotAppliedInvalidSince)
  else if exact_match b (hb_desc (fres_output res)) then
    if SpineBatch.len b <? hb_len (fres_output res) then Ret (b, NotAppliedTooManyUpdates)
    else Ret (SpineBatch.merged {| ihb_id := SpineBatch.id b; ihb_batch := fres_output res |}, AppliedExact)
  else match find_replacement_range b (hb_desc (fres_output res)) with
       | Some (i, range) =>
           perform_subset_replacement b (fres_output res) i range (fres_new_active_compaction res)
       | None => Ret (b, NotAppliedNoMatch)
       end.

(** The split points of [construct_batch_with_runs_replaced]. *)
Fixpoint splits_of (n i pointer : nat) (runs : list (RunMeta * list (RunPart T))) : list nat :=
  match runs with
  | [] => []
  | (_, parts) :: runs' =>
      if bool_decide (parts = []) then splits_of n (S i) pointer runs'
      else (if (i <? n - 1)%nat then [(pointer + length parts)%nat] else [])
           ++ splits_of n (S i) (pointer + length parts) runs'
  end.

(** The runs of [original] that are not to be replaced. *)
Fixpoint keep_runs (run_ids : list RunId) (runs : list (RunMeta * list (RunPart T))) :
    outcome (list (RunMeta * list (RunPart T))) :=
  match runs with
  | [] => Ret []
  | (meta, parts) :: runs' =>
      let! i := expect (rm_id meta) in
      let! rest := keep_runs run_ids runs' in
      Ret (if bool_decide (i ∈ run_ids) then rest else (meta, parts) :: rest)
  end.

Definition collect_runs (b : HollowBatch T) : outcome (list (RunMeta * list (RunPart T))) :=
  omapM (fun r => r) (HollowBatch.runs b).

Definition construct_batch_with_runs_replaced (original : HollowBatch T) (run_ids : list RunId)
    (replacement : HollowBatch T) : outcome (result (HollowBatch T) ApplyMergeResult) :=
  if bool_decide (run_ids = []) then Ret (Err NotAppliedNoMatch)
  else
    let! orig := collect_runs original in
    let orig_run_ids := omap (fun r => rm_id r.1) orig in
    if negb (forallb (fun i => bool_decide (i ∈ orig_run_ids)) run_ids) then Ret (Err NotAppliedNoMatch)
    else
      let! kept := keep_runs run_ids orig in
      let! new := collect_runs replacement in
      let runs := kept ++ new in
      let len := sumZ (omap (fun r => rm_len r.1) runs) in
      let run_meta := fst <$> runs in
      let parts := concat (snd <$> runs) in
      let run_splits := splits_of (length run_meta) 0 0 runs in
      Ret (Ok (HollowBatch.new (hb_desc replacement) parts len run_meta run_splits)).
End batches.

Section checked.
Context {T : Type} `{Timely T} (D : Type) `{!PartCodec D}.

Definition handle_id_range_replacement (b : SpineBatch T) (res : FueledMergeRes T) (i : SpineId)
    (new_diffs_sum : option D) : outcome (SpineBatch T * ApplyMergeResult) :=
  let range := filter (fun ip => SpineId_covers i (ihb_id ip.2) = true)
                 (imap (fun j p => (j, p)) (sb_parts b)) in
  let ids := id_set ((fun ip => ihb_id ip.2) <$> range) in
  let! mismatch := (if bool_decide (ids = []) then Ret true
                    else let! r := id_range ids in Ret (negb (bool_decide (i = r)))) in
  if mismatch then Ret (b, NotAppliedNoMatch)
  else match minmax (fst <$> range) with
       | None => Ret (b, NotAppliedNoMatch)
       | Some (min, max) =>
           let! replaced := HollowBatch.slice (sb_parts b) (min, S max) in
           let! old_diffs_sum := sum_batches (D := D) diff_zero replaced in
           let! _ := validate_diffs_sum_match old_diffs_sum new_diffs_sum in
           perform_subset_replacement b (fres_output res) i (min, S max) (fres_new_active_compaction res)
       end.

Definition handle_partial_batch_replacement (b : SpineBatch T) (res : FueledMergeRes T) (i : SpineId)
    (runs : list RunId) (new_diffs_sum : option D) : outcome (SpineBatch T * ApplyMergeResult) :=
  if bool_decide (runs = []) then Ret (b, NotAppliedNoMatch)
  else match list_find (fun p => ihb_id p = i) (sb_parts b) with
       | None => Ret (b, NotAppliedNoMatch)
       | Some (j, part) =>
           let replacement_desc := hb_desc (fres_output res) in
           let existing_desc := hb_desc (ihb_batch part) in
           let! _ := assert_ (bool_decide (d_lower replacement_desc = d_lower existing_desc)) in
           let! _ := assert_ (bool_decide (d_upper replacement_desc = d_upper existing_desc)) in
           if negb (less_equal (d_since existing_desc) (d_since replacement_desc)) then
             Ret (b, NotAppliedInvalidSince)
           else
             let batch := ihb_batch part in
             let! new_batch := construct_batch_with_runs_replaced batch runs (fres_output res) in
             match new_batch with
             | Err e => Ret (b, e)
             | Ok new_batch =>
                 let! old_diffs_sum := diffs_sum_for_runs (D := D) batch runs in
                 let! _ := validate_diffs_sum_match old_diffs_sum new_diffs_sum in
                 let! old_batch_diff_sum := batch_diffs_sum (D := D) batch in
                 let! new_batch_diff_sum := batch_diffs_sum (D := D) new_batch in
                 let! _ := validate_diffs_sum_match old_batch_diff_sum new_batch_diff_sum in
                 perform_subset_replacement b new_batch i (j, S j) (fres_new_active_compaction res)
             end
       end.

Definition maybe_replace_checked_classic (b : SpineBatch T) (res : FueledMergeRes T) :
    outcome (SpineBatch T * ApplyMergeResult) :=
  if negb (less_equal (d_since (hb_desc (fres_output res))) (SpineBatch.since b)) then
    Ret (b, NotAppliedInvalidSince)
  else
    let! new_diffs_sum := diffs_sum (D := D) (hb_parts (fres_output res)) in
    if exact_match b (hb_desc (fres_output res)) then
      let! old_diffs_sum := sum_batches (D := D) diff_zero (sb_parts b) in
      let! _ := validate_known_sums old_diffs_sum new_diffs_sum in
      if SpineBatch.len b <? hb_len (fres_output res) then Ret (b, NotAppliedTooManyUpdates)
      else Ret (SpineBatch.merged {| ihb_id := SpineBatch.id b; ihb_batch := fres_output res |}, AppliedExact)
    else match find_replacement_range b (hb_desc (fres_output res)) with
         | Some (i, range) =>
             let! replaced := (if (range.1 <=? range.2)%nat then HollowBatch.slice (sb_parts b) range else Panic) in
             let! old_diffs_sum := sum_batches (D := D) diff_zero replaced in
             let! _ := validate_known_sums old_diffs_sum new_diffs_sum in
             perform_subset_replacement b (fres_output res) i range (fres_new_active_compaction res)
         | None => Ret (b, NotAppliedNoMatch)
         end.

Definition maybe_replace_checked (b : SpineBatch T) (res : FueledMergeRes T) :
    outcome (SpineBatch T * ApplyMergeResult) :=
  if negb (less_equal (d_since (hb_desc (fres_output res))) (SpineBatch.since b)) then
    Ret (b, NotAppliedInvalidSince)
  else
    let! new_diffs_sum := diffs_sum (D := D) (hb_parts (fres_output res)) in
    let! (b', result) :=
      match fres_input res with
      | CIdRange i => handle_id_range_replacement b res i new_diffs_sum
      | CPartialBatch i runs => handle_partial_batch_replacement b res i runs new_diffs_sum
      | CLegacy => maybe_replace_checked_classic b res
      end in
    let! _ := assert_ (length (sb_parts b') <=? length (sb_parts b))%nat in
    Ret (b', result).
End checked.
End Replace.

(** ** The trace *)

Module Trace.
Section ops.
Context {T : Type} `{Timely T}.

Definition default : Trace T := {| tr_spine := Spine.new; tr_roundtrip_structure := true |}.

Definition with_spine (t : Trace T) (s : Spine T) : Trace T :=
  {| tr_spine := s; tr_roundtrip_structure := tr_roundtrip_structure t |}.

Definition since (t : Trace T) : Antichain T := sp_since (tr_spine t).
Definition upper (t : Trace T) : Antichain T := sp_upper (tr_spine t).

Definition batches (t : Trace T) : list (HollowBatch T) :=
  ihb_batch <$> concat (sb_parts <$> Spine.spine_batches (tr_spine t)).

(** Equality of traces ignores the levels. *)
Definition eqb (a b : Trace T) : bool := bool_decide (batches a = batches b).

Definition num_spine_batches (t : Trace T) : nat := length (Spine.spine_batches (tr_spine t)).

Definition downgrade_since (t : Trace T) (since : Antichain T) : Trace T :=
  with_spine t (Spine.with_since (tr_spine t) since).

Definition req_covers (b0 b1 : FueledMergeReq T) : bool :=
  SpineId_covers (fmr_id b0) (fmr_id b1) && bool_decide (d_since (fmr_desc b0) = d_since (fmr_desc b1)).

(** One turn of the loop of [remove_redundant_merge_reqs], which pops the
    requests from the back. *)
Definition redundant_step (ret : list (FueledMergeReq T)) (merge_req : FueledMergeReq T) :
    list (FueledMergeReq T) :=
  if existsb (fun r => req_covers r merge_req) ret then ret
  else filter (fun r => req_covers merge_req r = false) ret ++ [merge_req].

Definition remove_redundant_merge_reqs (merge_reqs : list (FueledMergeReq T)) : list (FueledMergeReq T) :=
  foldl redundant_step [] (rev merge_reqs).

Definition logged (log : SpineLog T) : list (FueledMergeReq T) :=
  match log with LogEnabled reqs => reqs | LogDisabled => [] end.

Definition push_batch (t : Trace T) (batch : HollowBatch T) :
    outcome (Trace T * list (FueledMergeReq T)) :=
  let! (s, log) := Spine.insert (tr_spine t) batch (LogEnabled []) in
  Ret (with_spine t s, remove_redundant_merge_reqs (logged log)).

Definition push_batch_no_merge_reqs (t : Trace T) (batch : HollowBatch T) : outcome (Trace T) :=
  let! (s, _) := Spine.insert (tr_spine t) batch LogDisabled in
  Ret (with_spine t s).

Definition exert (t : Trace T) (fuel : Z) : outcome (Trace T * list (FueledMergeReq T) * bool) :=
  let! (s, did_work, log) := Spine.exert (tr_spine t) fuel (LogEnabled []) in
  Ret (with_spine t s, remove_redundant_merge_reqs (logged log), did_work).

Definition validate (t : Trace T) : result unit Spine.ValidateErr := Spine.validate (tr_spine t).

(** [for batch in spine_batches_mut().rev()]: from the newest batch to the
    oldest, until [f] answers. *)
Fixpoint visit_batches {R} (f : SpineBatch T -> outcome (SpineBatch T * option R)) (bs : list (SpineBatch T)) :
    outcome (list (SpineBatch T) * option R) :=
  match bs with
  | [] => Ret ([], None)
  | b :: bs' =>
      let! (bs', r) := visit_batches f bs' in
      match r with
      | Some _ => Ret (b :: bs', r)
      | None => let! (b, r) := f b in Ret (b :: bs', r)
      end
  end.

Fixpoint visit_levels {R} (f : SpineBatch T -> outcome (SpineBatch T * option R)) (ms : list (MergeState T)) :
    outcome (list (MergeState T) * option R) :=
  match ms with
  | [] => Ret ([], None)
  | m :: ms' =>
      let! (bs, r) := visit_batches f (ms_batches m) in
      let m := {| ms_batches := bs; ms_merge := ms_merge m |} in
      match r with
      | Some _ => Ret (m :: ms', r)
      | None => let! (ms', r) := visit_levels f ms' in Ret (m :: ms', r)
      end
  end.

Definition visit {R} (f : SpineBatch T -> outcome (SpineBatch T * option R)) (t : Trace T) :
    outcome (Trace T * option R) :=
  let! (ms, r) := visit_levels f (sp_merging (tr_spine t)) in
  Ret (with_spine t (Spine.with_merging (tr_spine t) ms), r).

Definition claim_step (i : SpineId) (compaction : ActiveCompaction) (b : SpineBatch T) :
    outcome (SpineBatch T * option unit) :=
  if bool_decide (sb_id b = i) then
    Ret ({| sb_id := sb_id b; sb_desc := sb_desc b; sb_parts := sb_parts b;
            sb_active_compaction := Some compaction; sb_len := sb_len b |}, Some tt)
  else Ret (b, None).

Definition claim_compaction (t : Trace T) (i : SpineId) (compaction : ActiveCompaction) : outcome (Trace T) :=
  let! (t, _) := visit (claim_step i compaction) t in Ret t.

(** Stops at the first batch that matched. *)
Definition until_matched (f : SpineBatch T -> outcome (SpineBatch T * ApplyMergeResult)) (b : SpineBatch T) :
    outcome (SpineBatch T * option ApplyMergeResult) :=
  let! (b, r) := f b in
  Ret (b, if ApplyMergeResult_matched r then Some r else None).

Definition apply_merge (f : SpineBatch T -> outcome (SpineBatch T * ApplyMergeResult)) (t : Trace T) :
    outcome (Trace T * ApplyMergeResult) :=
  let! (t, r) := visit (until_matched f) t in
  Ret (t, stdpp.option.default NotAppliedNoMatch r).

Definition apply_merge_res_checked (D : Type) `{!PartCodec D} (t : Trace T) (res : FueledMergeRes T) :
    outcome (Trace T * ApplyMergeResult) :=
  apply_merge (fun b => Replace.maybe_replace_checked D b res) t.

Definition apply_merge_res_unchecked (t : Trace T) (res : FueledMergeRes T) :
    outcome (Trace T * ApplyMergeResult) :=
  apply_merge (fun b => Replace.maybe_replace_unchecked b res) t.

Definition apply_tombstone_merge (t : Trace T) (desc : Description T) :
    outcome (Trace T * ApplyMergeResult) :=
  apply_merge (fun b => Replace.maybe_replace_with_tombstone b desc) t.

(** [any] over a panicking test. *)
Fixpoint anyM {A} (f : A -> outcome bool) (l : list A) : outcome bool :=
  match l with
  | [] => Ret false
  | x :: l' => let! b := f x in if b : bool then Ret true else anyM f l'
  end.

Definition written_before `{UuidCodec} (min_writer : WriterKey) (p : RunPart T) : outcome bool :=
  let! w := RunPart.writer_key p in
  Ret (match w with
       | Some writer => negb (WriterKey_leb min_writer writer)
       | None => false
       end).

Definition needs_compaction `{UuidCodec} (threshold_writer : option WriterKey) (b : SpineBatch T) : outcome bool :=
  let noncompact := negb (SpineBatch.is_compact b) in
  let! old_writer :=
    match threshold_writer with
    | Some min_writer =>
        anyM (fun p => anyM (written_before min_writer) (hb_parts (ihb_batch p))) (sb_parts b)
    | None => Ret false
    end in
  Ret (noncompact || old_writer).

Definition unclaimed (threshold_ms : Z) (b : SpineBatch T) : bool :=
  match sb_active_compaction b with
  | Some c => ac_start_ms c <=? threshold_ms
  | None => true
  end.

Definition req_of (b : SpineBatch T) : FueledMergeReq T :=
  {| fmr_id := sb_id b; fmr_desc := sb_desc b; fmr_inputs := sb_parts b |}.

(** The lazy iterator of requests, oldest to newest: an item per batch,
    [None] where the filters skip it. *)
Definition fueled_merge_reqs_before_ms `{UuidCodec} (t : Trace T) (threshold_ms : Z)
    (threshold_writer : option WriterKey) : list (outcome (option (FueledMergeReq T))) :=
  (fun b => let! needed := needs_compaction threshold_writer b in
            Ret (if needed && unclaimed threshold_ms b then Some (req_of b) else None))
    <$> Spine.spine_batches (tr_spine t).

(** [take(n).collect()]: no further item is pulled once [n] were found. *)
Fixpoint take_reqs (n : nat) (items : list (outcome (option (FueledMergeReq T)))) :
    outcome (list (FueledMergeReq T)) :=
  match n, items with
  | O, _ | _, [] => Ret []
  | S n', item :: items' =>
      let! r := item in
      match r with
      | Some r => let! rs := take_reqs n' items' in Ret (r :: rs)
      | None => take_reqs n items'
      end
  end.

Record SpineMetrics := {
  compact_batches : Z;
  compacting_batches : Z;
  noncompact_batches : Z;
}.

Definition metrics_step (m : SpineMetrics) (b : SpineBatch T) : SpineMetrics :=
  if SpineBatch.is_compact b then
    {| compact_batches := compact_batches m + 1; compacting_batches := compacting_batches m;
       noncompact_batches := noncompact_batches m |}
  else if SpineBatch.is_merging b then
    {| compact_batches := compact_batches m; compacting_batches := compacting_batches m + 1;
       noncompact_batches := noncompact_batches m |}
  else
    {| compact_batches := compact_batches m; compacting_batches := compacting_batches m;
       noncompact_batches := noncompact_batches m + 1 |}.

Definition spine_metrics (t : Trace T) : SpineMetrics :=
  foldl metrics_step {| compact_batches := 0; compacting_batches := 0; noncompact_batches := 0 |}
    (Spine.spine_batches (tr_spine t)).
End ops.
End Trace.
