(* ===== verification/FlatTrace.v ===== *)
(** * Flattened traces (src/src/persist-client/src/internal/trace.rs)

    The form in which a trace is stored and in which differences of traces
    are taken: the hollow batches, the spine batches by id with the ids of
    their parts, and the merges.  [flatten] takes a trace apart, [unflatten]
    puts it together and checks what it is given.  The theorems are in
    [FlatFacts]. *)

From S2P Require Import Prelude Compare Timely BTree Paths Batch Order Diff Spine Trace.

Local Open Scope Z_scope.

#[export] Program Instance SpineId_ord : KeyOrd SpineId := {| key_ltb := SpineId_ltb |}.
Next Obligation. intros k. unfold SpineId_ltb. by rewrite !N.ltb_irrefl, andb_false_r. Qed.
Next Obligation.
  intros a b c. unfold SpineId_ltb. rewrite !orb_true_iff, !andb_true_iff, !N.ltb_lt, !N.eqb_eq. lia.
Qed.
Next Obligation.
  intros [a a'] [b b']. unfold SpineId_ltb. simpl. rewrite !orb_false_iff, !andb_false_iff, !N.ltb_ge, !N.eqb_neq.
  intros. f_equal; lia.
Qed.

#[export] Instance ActiveCompaction_eqdec : EqDecision ActiveCompaction.
Proof. solve_decision. Defined.

(** [usize::MAX >> 3] *)
Definition MAX_TOTAL_LEN : Z := usize_max / 8.
Definition MAX_LEVELS : nat := 256.

Section types.
Context (T : Type) `{Timely T}.

Record ThinSpineBatch := {
  tsb_level : nat;
  tsb_desc : Description T;
  tsb_parts : list SpineId;
  tsb_descs : list (Description T);
}.

Record ThinMerge := {
  tm_since : Antichain T;
  tm_remaining_work : Z;
  tm_active_compaction : option ActiveCompaction;
}.

(** [legacy_batches] is a map to [()]. *)
Record FlatTrace := {
  ft_since : Antichain T;
  ft_legacy_batches : BTreeMap (HollowBatch T) unit;
  ft_hollow_batches : BTreeMap SpineId (HollowBatch T);
  ft_spine_batches : BTreeMap SpineId ThinSpineBatch;
  ft_merges : BTreeMap SpineId ThinMerge;
}.
End types.

Arguments tsb_level {T _}.
Arguments tsb_desc {T _}.
Arguments tsb_parts {T _}.
Arguments tsb_descs {T _}.
Arguments tm_since {T _}.
Arguments tm_remaining_work {T _}.
Arguments tm_active_compaction {T _}.
Arguments ft_since {T _}.
Arguments ft_legacy_batches {T _}.
Arguments ft_hollow_batches {T _}.
Arguments ft_spine_batches {T _}.
Arguments ft_merges {T _}.

#[export] Instance ThinMerge_eqdec {T} `{Timely T} : EqDecision (ThinMerge T).
Proof. solve_decision. Defined.

(** Equality of thin batches ignores [descs]. *)
Definition ThinSpineBatch_eq {T} `{Timely T} : ValEq (ThinSpineBatch T) := fun a b =>
  bool_decide (tsb_level a = tsb_level b) && bool_decide (tsb_desc a = tsb_desc b)
  && bool_decide (tsb_parts a = tsb_parts b).
#[export] Existing Instance ThinSpineBatch_eq.

Module ThinMerge.
Section ops.
Context {T : Type} `{Timely T}.

Definition fueling (merge : FuelingMerge T) : ThinMerge T := {|
  tm_since := fm_since merge;
  tm_remaining_work := fm_remaining_work merge;
  tm_active_compaction := None |}.

Definition fueled (batch : SpineBatch T) : ThinMerge T := {|
  tm_since := d_since (sb_desc batch);
  tm_remaining_work := 0;
  tm_active_compaction := sb_active_compaction batch |}.
End ops.
End ThinMerge.

(** ** Taking a trace apart *)

Module Flatten.
Section ops.
Context {T : Type} `{TimelyOrd T}.
Implicit Types f : FlatTrace T.

Definition with_merges f m : FlatTrace T := {|
  ft_since := ft_since f; ft_legacy_batches := ft_legacy_batches f;
  ft_hollow_batches := ft_hollow_batches f; ft_spine_batches := ft_spine_batches f; ft_merges := m |}.

(** The loop body of [push_spine_batch]: batches with an empty range of
    times are stored by id, the others as legacy batches. *)
Definition push_part f (p : IdHollowBatch T) : FlatTrace T :=
  if bool_decide (d_lower (hb_desc (ihb_batch p)) = d_upper (hb_desc (ihb_batch p))) then {|
    ft_since := ft_since f; ft_legacy_batches := ft_legacy_batches f;
    ft_hollow_batches := CMap.insert (ihb_id p) (ihb_batch p) (ft_hollow_batches f);
    ft_spine_batches := ft_spine_batches f; ft_merges := ft_merges f |}
  else {|
    ft_since := ft_since f; ft_legacy_batches := CMap.insert (ihb_batch p) tt (ft_legacy_batches f);
    ft_hollow_batches := ft_hollow_batches f;
    ft_spine_batches := ft_spine_batches f; ft_merges := ft_merges f |}.

Definition thin (level : nat) (batch : SpineBatch T) : ThinSpineBatch T := {|
  tsb_level := level;
  tsb_desc := sb_desc batch;
  tsb_parts := ihb_id <$> sb_parts batch;
  tsb_descs := (fun p => hb_desc (ihb_batch p)) <$> sb_parts batch |}.

Definition push_spine_batch (level : nat) f (batch : SpineBatch T) : FlatTrace T :=
  let f := foldl push_part f (sb_parts batch) in {|
    ft_since := ft_since f; ft_legacy_batches := ft_legacy_batches f;
    ft_hollow_batches := ft_hollow_batches f;
    ft_spine_batches := CMap.insert (SpineBatch.id batch) (thin level batch) (ft_spine_batches f);
    ft_merges := ft_merges f |}.

(** [merges.insert(id, merge)], which must be new. *)
Definition record_merge f (i : SpineId) (m : ThinMerge T) : outcome (FlatTrace T) :=
  let! _ := assert_ (match CMap.get i (ft_merges f) with None => true | Some _ => false end) in
  Ret (with_merges f (CMap.insert i m (ft_merges f))).

Definition flatten_batch (level : nat) f (batch : SpineBatch T) : outcome (FlatTrace T) :=
  let f := push_spine_batch level f batch in
  match sb_active_compaction batch with
  | Some _ => record_merge f (sb_id batch) (ThinMerge.fueled batch)
  | None => Ret f
  end.

Definition flatten_level f (x : nat * MergeState T) : outcome (FlatTrace T) :=
  let! f := foldM (flatten_batch x.1) (ms_batches x.2) f in
  match ms_merge x.2 with
  | Some im => record_merge f (ifm_id im) (ThinMerge.fueling (ifm_merge im))
  | None => Ret f
  end.

Definition empty_flat (since : Antichain T) : FlatTrace T := {|
  ft_since := since; ft_legacy_batches := []; ft_hollow_batches := []; ft_spine_batches := []; ft_merges := [] |}.

Definition flatten (t : Trace T) : outcome (FlatTrace T) :=
  let! f := foldM flatten_level (imap (fun level m => (level, m)) (sp_merging (tr_spine t)))
              (empty_flat (sp_since (tr_spine t))) in
  if negb (tr_roundtrip_structure t) then
    let! _ := assert_ (BTree.is_empty (ft_hollow_batches f)) in
    Ret {| ft_since := ft_since f; ft_legacy_batches := ft_legacy_batches f;
           ft_hollow_batches := ft_hollow_batches f; ft_spine_batches := []; ft_merges := [] |}
  else Ret f.
End ops.
End Flatten.

(** ** Putting it together again *)

Module Unflatten.

(** The messages of [unflatten]. *)
Inductive UnflattenErr :=
| TotalLenExceeds
| HollowDescMismatch (i : SpineId)
| MissingHollowBatch (i : SpineId)
| LowerDidNotMatch
| UpperDidNotMatch
| LevelExceeds
| MoreDescsThanParts (i : SpineId)
| PartsDoNotTile (i : SpineId)
| LevelOutOfBounds (i : SpineId)
| PushFailed (e : MergeState.PushErr)
| LegacyBatchesLeft
| HollowBatchesLeft
| MergesLeft
| LegacyEmptyRange
| LegacyLowerMismatch
| FailedValidation (e : Spine.ValidateErr).

Section ops.
Context {T : Type} `{TimelyOrd T}.

Definition compare_chains (left right : Antichain T) : comparison :=
  if less_than left right then Lt else if less_than right left then Gt else Eq.

(** [sort_by], which is stable. *)
Fixpoint insert_by {A} (cmp : A -> A -> comparison) (x : A) (l : list A) : list A :=
  match l with
  | [] => [x]
  | y :: l' => match cmp x y with Gt => y :: insert_by cmp x l' | _ => x :: l end
  end.

Definition sort_by {A} (cmp : A -> A -> comparison) (l : list A) : list A := foldr (insert_by cmp) [] l.

(** The bound on the total length. *)
Fixpoint total_len_ok (total : Z) (batches : list (HollowBatch T)) : bool :=
  match batches with
  | [] => true
  | b :: batches' =>
      match (total ← usize_checked_add total (hb_len b); if total <=? MAX_TOTAL_LEN then Some total else None) with
      | Some total => total_len_ok total batches'
      | None => false
      end
  end.

(** The vector of legacy batches is descending and popped at its end: it is
    kept here in reverse, the next batch first. *)
Definition legacy_stack (legacy : BTreeMap (HollowBatch T) unit) : list (HollowBatch T) :=
  rev (sort_by (fun a b => CompOpp (compare_chains (d_lower (hb_desc a)) (d_lower (hb_desc b)))) (fst <$> legacy)).

(** The [while] loop that rolls empty batches in. *)
Fixpoint roll_in (legacy : list (HollowBatch T)) (new_upper upper : Antichain T) :
    Antichain T * list (HollowBatch T) :=
  match legacy with
  | next_batch :: legacy' =>
      if less_than new_upper upper then
        if HollowBatch.is_empty next_batch then roll_in legacy' (d_upper (hb_desc next_batch)) upper
        else (new_upper, legacy)
      else (new_upper, legacy)
  | [] => (new_upper, [])
  end.

(** Empty legacy batches are rearranged to what the spine batch expects. *)
Definition rearrange (batch : HollowBatch T) (legacy : list (HollowBatch T)) (expected_upper : Antichain T) :
    HollowBatch T * list (HollowBatch T) :=
  if bool_decide (hb_parts batch = []) && bool_decide (hb_run_splits batch = []) && (hb_len batch =? 0) then
    let '(new_upper, legacy) := roll_in legacy (d_upper (hb_desc batch)) expected_upper in
    let '(new_upper, legacy) :=
      if less_than expected_upper new_upper then
        (expected_upper,
         HollowBatch.empty (desc_new expected_upper new_upper (d_since (hb_desc batch))) :: legacy)
      else (new_upper, legacy) in
    (HollowBatch.empty (desc_new (d_lower (hb_desc batch)) new_upper (d_since (hb_desc batch))), legacy)
  else (batch, legacy).

Definition pop_batch (i : SpineId) (expected_desc : option (Description T))
    (hollow : BTreeMap SpineId (HollowBatch T)) (legacy : list (HollowBatch T)) :
    result (IdHollowBatch T * BTreeMap SpineId (HollowBatch T) * list (HollowBatch T)) UnflattenErr :=
  match CMap.get i hollow with
  | Some batch =>
      let hollow := CMap.remove i hollow in
      match expected_desc with
      | Some desc =>
          if negb (bool_decide (d_lower desc = d_lower (hb_desc batch)))
             || negb (bool_decide (d_upper desc = d_upper (hb_desc batch)))
          then Err (HollowDescMismatch i)
          else Ok ({| ihb_id := i; ihb_batch := batch |}, hollow, legacy)
      | None => Ok ({| ihb_id := i; ihb_batch := batch |}, hollow, legacy)
      end
  | None =>
      match legacy with
      | [] => Err (MissingHollowBatch i)
      | batch :: legacy =>
          match expected_desc with
          | None => Ok ({| ihb_id := i; ihb_batch := batch |}, hollow, legacy)
          | Some expected_desc =>
              if negb (bool_decide (d_lower expected_desc = d_lower (hb_desc batch))) then Err LowerDidNotMatch
              else
                let '(batch, legacy) := rearrange batch legacy (d_upper expected_desc) in
                if negb (bool_decide (d_upper expected_desc = d_upper (hb_desc batch))) then Err UpperDidNotMatch
                else Ok ({| ihb_id := i; ihb_batch := batch |}, hollow, legacy)
          end
      end
  end.

(** [parts.zip_eq(descs).map(pop_batch).collect()], the descriptions padded
    with [None]. *)
Fixpoint pop_batches (ids : list SpineId) (descs : list (Description T))
    (hollow : BTreeMap SpineId (HollowBatch T)) (legacy : list (HollowBatch T)) :
    result (list (IdHollowBatch T) * BTreeMap SpineId (HollowBatch T) * list (HollowBatch T)) UnflattenErr :=
  match ids with
  | [] => Ok ([], hollow, legacy)
  | i :: ids' =>
      let? (p, hollow, legacy) := pop_batch i (head descs) hollow legacy in
      let? (ps, hollow, legacy) := pop_batches ids' (tail descs) hollow legacy in
      Ok (p :: ps, hollow, legacy)
  end.

(** [windows(2).any(|w| w[0].id.1 != w[1].id.0)] *)
Fixpoint any_gap (parts : list (IdHollowBatch T)) : bool :=
  match parts with
  | p :: ((q :: _) as parts') => negb (bool_decide (sid_hi (ihb_id p) = sid_lo (ihb_id q))) || any_gap parts'
  | _ => false
  end.

Definition parts_tile (i : SpineId) (parts : list (IdHollowBatch T)) : bool :=
  bool_decide ((fun p => sid_lo (ihb_id p)) <$> head parts = Some (sid_lo i))
  && bool_decide ((fun p => sid_hi (ihb_id p)) <$> last parts = Some (sid_hi i))
  && negb (any_gap parts).

(** What the loop over the spine batches changes. *)
Record Progress := {
  pr_hollow : BTreeMap SpineId (HollowBatch T);
  pr_legacy : list (HollowBatch T);
  pr_merges : BTreeMap SpineId (ThinMerge T);
  pr_merging : list (MergeState T);
}.

(** A merge recorded for the batches of a level is resumed. *)
Definition resume_merge (state : MergeState T) (merges : BTreeMap SpineId (ThinMerge T)) :
    MergeState T * BTreeMap SpineId (ThinMerge T) :=
  match MergeState.id state with
  | Some i =>
      match CMap.get i merges with
      | Some merge =>
          ({| ms_batches := ms_batches state;
              ms_merge := Some {| ifm_id := i;
                                  ifm_merge := {| fm_since := tm_since merge;
                                                  fm_remaining_work := tm_remaining_work merge |} |} |},
           CMap.remove i merges)
      | None => (state, CMap.remove i merges)
      end
  | None => (state, merges)
  end.

Definition unflatten_batch (x : SpineId * ThinSpineBatch T) (p : Progress) : result Progress UnflattenErr :=
  let '(i, batch) := x in
  if (length (tsb_parts batch) <? length (tsb_descs batch))%nat then Err (MoreDescsThanParts i)
  else
    let? (parts, hollow, legacy) := pop_batches (tsb_parts batch) (tsb_descs batch) (pr_hollow p) (pr_legacy p) in
    if negb (parts_tile i parts) then Err (PartsDoNotTile i)
    else
      let active_compaction := merge ← CMap.get i (pr_merges p); tm_active_compaction merge in
      let merges := CMap.remove i (pr_merges p) in
      let b := {| sb_id := i; sb_desc := tsb_desc batch; sb_parts := parts;
                  sb_active_compaction := active_compaction;
                  sb_len := SpineBatch.parts_len parts |} in
      match pr_merging p !! tsb_level batch with
      | None => Err (LevelOutOfBounds i)
      | Some state =>
          match MergeState.try_push_batch state b with
          | Err e => Err (PushFailed e)
          | Ok state =>
              let '(state, merges) := resume_merge state merges in
              Ok {| pr_hollow := hollow; pr_legacy := legacy; pr_merges := merges;
                    pr_merging := <[tsb_level batch := state]> (pr_merging p) |}
          end
      end.

(** The legacy batches that are left over when the structure was not
    stored are pushed one after the other. *)
Fixpoint push_legacy (legacy : list (HollowBatch T)) (t : Trace T) : outcome (result (Trace T) UnflattenErr) :=
  match legacy with
  | [] => Ret (Ok t)
  | batch :: legacy' =>
      if bool_decide (d_lower (hb_desc batch) = d_upper (hb_desc batch)) then Ret (Err LegacyEmptyRange)
      else if negb (bool_decide (d_lower (hb_desc batch) = Trace.upper t)) then Ret (Err LegacyLowerMismatch)
      else let! t := Trace.push_batch_no_merge_reqs t batch in push_legacy legacy' t
  end.

Definition finish (p : Progress) (t : Trace T) : result (Trace T) UnflattenErr :=
  if negb (BTree.is_empty (pr_hollow p)) then Err HollowBatchesLeft
  else if negb (BTree.is_empty (pr_merges p)) then Err MergesLeft
  else match Trace.validate t with Err e => Err (FailedValidation e) | Ok _ => Ok t end.

Definition unflatten (value : FlatTrace T) : outcome (result (Trace T) UnflattenErr) :=
  let spine_batches := ft_spine_batches value in
  let roundtrip_structure := negb (BTree.is_empty spine_batches) || BTree.is_empty (ft_legacy_batches value) in
  if negb (total_len_ok 0 ((fst <$> ft_legacy_batches value) ++ (snd <$> ft_hollow_batches value)))
  then Ret (Err TotalLenExceeds)
  else
    let '(upper, next_id) := match BTree.last_key_value spine_batches with
                             | Some (i, batch) => (d_upper (tsb_desc batch), sid_hi i)
                             | None => (min_frontier, 0%N)
                             end in
    let levels := match BTree.first_key_value spine_batches with
                  | Some (_, batch) => S (tsb_level batch)
                  | None => 0%nat
                  end in
    if (MAX_LEVELS <? levels)%nat then Ret (Err LevelExceeds)
    else
      let start := {| pr_hollow := ft_hollow_batches value; pr_legacy := legacy_stack (ft_legacy_batches value);
                      pr_merges := ft_merges value; pr_merging := replicate levels MergeState.default |} in
      match apply_each unflatten_batch spine_batches start with
      | Err e => Ret (Err e)
      | Ok p =>
          let t := {| tr_spine := {| sp_effort := 1; sp_next_id := next_id; sp_since := ft_since value;
                                     sp_upper := upper; sp_merging := pr_merging p |};
                      tr_roundtrip_structure := roundtrip_structure |} in
          if roundtrip_structure then
            Ret (match pr_legacy p with [] => finish p t | _ => Err LegacyBatchesLeft end)
          else
            let! r := push_legacy (pr_legacy p) t in
            Ret (let? t := r in finish p t)
      end.
End ops.
End Unflatten.
