(* ===== verification/TraceFacts.v ===== *)
(** Compaction results are applied where they fit: replacing parts keeps the
    invariant of the spine, never makes a batch longer, and changes exactly
    the parts whose times the result covers.  Redundant merge requests are
    dropped without losing one that matters. *)

From S2P Require Import Prelude Timely Batch BatchFacts Spine SpineFacts SpineCorrect Trace.
Local Open Scope Z_scope.

(** ** Redundant merge requests *)

Section redundant.
Context {T : Type} `{Timely T}.
Implicit Types (q r : FueledMergeReq T) (qs ret : list (FueledMergeReq T)).

Lemma covers_refl r : Trace.req_covers r r = true.
Proof.
  unfold Trace.req_covers, SpineId_covers. rewrite bool_decide_eq_true_2 by done.
  rewrite !(proj2 (N.leb_le _ _)) by lia. done.
Qed.

Lemma covers_trans q r x :
  Trace.req_covers q r = true -> Trace.req_covers r x = true -> Trace.req_covers q x = true.
Proof.
  unfold Trace.req_covers, SpineId_covers. rewrite !andb_true_iff, !N.leb_le, !bool_decide_eq_true.
  intros [[? ?] ?] [[? ?] ?]. split_and!; [lia|lia|congruence].
Qed.

(** No request of the list covers another one. *)
Definition irredundant ret : Prop :=
  forall i j r r', ret !! i = Some r -> ret !! j = Some r' -> i <> j -> Trace.req_covers r r' = false.

Lemma irredundant_snoc ret q :
  irredundant ret -> (forall r, r ∈ ret -> Trace.req_covers r q = false) ->
  (forall r, r ∈ ret -> Trace.req_covers q r = false) -> irredundant (ret ++ [q]).
Proof.
  intros Hi Hq Hr i j r r' [H1|[H1 H1']]%lookup_app_Some [H2|[H2 H2']]%lookup_app_Some Hne.
  - eauto.
  - apply list_lookup_singleton_Some in H2' as [? <-]. apply Hq. by eapply list_elem_of_lookup_2.
  - apply list_lookup_singleton_Some in H1' as [? <-]. apply Hr. by eapply list_elem_of_lookup_2.
  - apply list_lookup_singleton_Some in H1' as [? _]. apply list_lookup_singleton_Some in H2' as [? _]. lia.
Qed.

Lemma irredundant_filter P `{!forall x, Decision (P x)} ret : irredundant ret -> irredundant (filter P ret).
Proof.
  intros Hi. induction ret as [|x ret IH]; [done|].
  assert (Hi' : irredundant ret) by (intros i j r r' H1 H2 Hne; apply (Hi (S i) (S j) r r'); [done|done|lia]).
  rewrite filter_cons. destruct (decide (P x)); [|by apply IH].
  intros [|i] [|j] r r' H1 H2 Hne; simpl in *; simplify_eq.
  - apply list_elem_of_lookup_2, list_elem_of_filter in H2 as [_ (k & H2)%list_elem_of_lookup_1].
    by apply (Hi 0%nat (S k)).
  - apply list_elem_of_lookup_2, list_elem_of_filter in H1 as [_ (k & H1)%list_elem_of_lookup_1].
    by apply (Hi (S k) 0%nat).
  - apply (IH Hi' i j); [done|done|lia].
Qed.

Lemma redundant_step_inv ret q :
  irredundant ret ->
  irredundant (Trace.redundant_step ret q) /\
  (forall r, r ∈ Trace.redundant_step ret q -> r = q \/ r ∈ ret) /\
  (forall x, x = q \/ (exists r, r ∈ ret /\ Trace.req_covers r x = true) ->
     exists r, r ∈ Trace.redundant_step ret q /\ Trace.req_covers r x = true).
Proof.
  intros Hi. unfold Trace.redundant_step. destruct (existsb _ ret) eqn:E.
  - apply existsb_exists in E as (r & Hr & Hc). apply list_elem_of_In in Hr.
    split_and!; [done|by right|]. intros x [->|Hx]; [by exists r|done].
  - assert (Hno : forall r, r ∈ ret -> Trace.req_covers r q = false).
    { intros r Hr. destruct (Trace.req_covers r q) eqn:Hc; [|done].
      assert (existsb (fun r => Trace.req_covers r q) ret = true); [|congruence].
      apply existsb_exists. exists r. by rewrite <- list_elem_of_In. }
    split_and!.
    + apply irredundant_snoc; [by apply irredundant_filter| |];
        intros r [? ?]%list_elem_of_filter; [by apply Hno|done].
    + intros r [[_ ?]%list_elem_of_filter| ->%list_elem_of_singleton]%elem_of_app; tauto.
    + intros x [->|(r & Hr & Hc)].
      * exists q. rewrite elem_of_app, list_elem_of_singleton. split; [tauto|apply covers_refl].
      * destruct (Trace.req_covers q r) eqn:Hqr.
        -- exists q. rewrite elem_of_app, list_elem_of_singleton. split; [tauto|by eapply covers_trans].
        -- exists r. rewrite elem_of_app, list_elem_of_filter. split; [tauto|done].
Qed.

Lemma redundant_fold_inv qs ret :
  irredundant ret ->
  let res := foldl Trace.redundant_step ret qs in
  irredundant res /\ (forall r, r ∈ res -> r ∈ qs \/ r ∈ ret) /\
  (forall x, x ∈ qs \/ (exists r, r ∈ ret /\ Trace.req_covers r x = true) ->
     exists r, r ∈ res /\ Trace.req_covers r x = true).
Proof.
  revert ret. induction qs as [|q qs IH]; intros ret Hi; simpl.
  { split_and!; [done|by right|]. intros x [Hx|Hx]; [by apply not_elem_of_nil in Hx|done]. }
  destruct (redundant_step_inv ret q Hi) as (H1 & H2 & H3).
  destruct (IH _ H1) as (H4 & H5 & H6). split_and!; [done| |].
  - intros r [Hr|[->|Hr]%H2]%H5; rewrite elem_of_cons; tauto.
  - intros x Hx. apply H6. rewrite elem_of_cons in Hx. destruct Hx as [[->|?]|?]; [right|by left|right]; apply H3; auto.
Qed.

Lemma remove_redundant_ok qs :
  irredundant (Trace.remove_redundant_merge_reqs qs) /\
  (forall r, r ∈ Trace.remove_redundant_merge_reqs qs -> r ∈ qs) /\
  (forall x, x ∈ qs -> exists r, r ∈ Trace.remove_redundant_merge_reqs qs /\ Trace.req_covers r x = true).
Proof.
  unfold Trace.remove_redundant_merge_reqs.
  destruct (redundant_fold_inv (rev qs) []) as (H1 & H2 & H3); [intros ????; by rewrite lookup_nil|].
  split_and!; [done| |].
  - intros r [Hr|Hr]%H2; [|by apply not_elem_of_nil in Hr].
    by rewrite list_elem_of_In, <- in_rev, <- list_elem_of_In in Hr.
  - intros x Hx. apply H3. left. by rewrite list_elem_of_In, <- in_rev, <- list_elem_of_In.
Qed.
End redundant.

(** ** Replacing parts of a batch *)

Section parts.
Context {T : Type} `{TimelyLaws T}.
Implicit Types (b : SpineBatch T) (p : IdHollowBatch T) (ps pre mid post : list (IdHollowBatch T)) (h : HollowBatch T).

Definition tiles lo f ps hi u : Prop := chain lo f (part_seg (T := T) <$> ps) hi u.

Lemma tiles_app lo f ps ps' hi u :
  tiles lo f (ps ++ ps') hi u <-> exists m g, tiles lo f ps m g /\ tiles m g ps' hi u.
Proof. unfold tiles. by rewrite fmap_app, chain_app. Qed.

(** A stretch of a tiling tiles what lies between its ends. *)
Lemma tiles_middle lo f pre p mid q post hi u :
  tiles lo f (pre ++ (p :: mid) ++ post) hi u -> last (p :: mid) = Some q ->
  tiles (sid_lo (ihb_id p)) (d_lower (hb_desc (ihb_batch p))) (p :: mid) (sid_hi (ihb_id q)) (d_upper (hb_desc (ihb_batch q))).
Proof.
  intros (m & g & _ & (m' & g' & Hm & _)%tiles_app)%tiles_app Hq.
  apply last_Some in Hq as (l & E). rewrite E in Hm. assert (Hm' := Hm). unfold tiles in Hm'.
  rewrite fmap_app in Hm'. apply chain_last in Hm' as [Hh Hu]. rewrite E.
  assert (Hp : sid_lo (ihb_id p) = m /\ d_lower (hb_desc (ihb_batch p)) = g).
  { rewrite <- E in Hm. unfold tiles in Hm. simpl in Hm. tauto. }
  simpl in Hh, Hu. destruct Hp as [-> ->]. by rewrite Hh, Hu.
Qed.

(** Exchanging a stretch for one part with the same ends. *)
Lemma tiles_replace lo f pre mid post hi u i h :
  tiles lo f (pre ++ mid ++ post) hi u -> mid <> [] ->
  tiles (sid_lo i) (d_lower (hb_desc h)) mid (sid_hi i) (d_upper (hb_desc h)) ->
  tiles lo f (pre ++ [{| ihb_id := i; ihb_batch := h |}] ++ post) hi u.
Proof.
  intros (m & g & Hpre & (m' & g' & Hm & Hpost)%tiles_app)%tiles_app Hne Hmid.
  destruct mid as [|p mid]; [done|].
  assert (m = sid_lo i /\ g = d_lower (hb_desc h)) as [-> ->].
  { unfold tiles in *. simpl in *. destruct Hm as (<- & <- & _). destruct Hmid as (<- & <- & _). done. }
  assert (m' = sid_hi i /\ g' = d_upper (hb_desc h)) as [-> ->].
  { destruct (last (p :: mid)) as [q|] eqn:E; [|by apply last_None in E].
    apply last_Some in E as (l & E). rewrite E in Hm, Hmid. unfold tiles in *. rewrite fmap_app in *.
    apply chain_last in Hm as [<- <-]. apply chain_last in Hmid as [<- <-]. done. }
  apply tiles_app. eexists _, _. split; [done|]. apply tiles_app. eexists _, _. split; [|done]. done.
Qed.

(** [b'] is [b] with a stretch of its parts replaced by [h]. *)
Record replaced_by b b' h : Prop := {
  rb_id : sb_id b' = sb_id b;
  rb_lower : SpineBatch.lower b' = SpineBatch.lower b;
  rb_upper : SpineBatch.upper b' = SpineBatch.upper b;
  rb_len : sb_len b' <= sb_len b;
  rb_parts : exists pre mid post i, sb_parts b = pre ++ mid ++ post /\ mid <> [] /\
    sb_parts b' = pre ++ [{| ihb_id := i; ihb_batch := h |}] ++ post /\
    tiles (sid_lo i) (d_lower (hb_desc h)) mid (sid_hi i) (d_upper (hb_desc h));
}.

(** What applying a result to a batch may do: nothing, or a replacement
    that keeps the batch well-formed. *)
Definition replace_post (since : Antichain T) b h (r : SpineBatch T * ApplyMergeResult) : Prop :=
  if ApplyMergeResult_applied r.2 then batch_wf since r.1 /\ replaced_by b r.1 h else r.1 = b.

Lemma parts_len_nonneg ps : Forall (fun p => 0 <= hb_len (ihb_batch p)) ps -> 0 <= SpineBatch.parts_len ps.
Proof. intros Hp. apply sumZ_nonneg, Forall_fmap. eapply Forall_impl; [exact Hp|done]. Qed.

Lemma tiles_ids lo f ps hi u : tiles lo f ps hi u -> ps <> [] ->
  Forall (fun p => (sid_lo (ihb_id p) < sid_hi (ihb_id p))%N) ps -> (lo < hi)%N.
Proof.
  intros Ht Hne Hp. apply chain_lo_hi in Ht as [_ Hlt].
  - apply Hlt. by destruct ps.
  - apply Forall_fmap. eapply Forall_impl; [exact Hp|done].
Qed.

Lemma perform_ok since b h pre mid post i nac :
  batch_wf since b -> sb_parts b = pre ++ mid ++ post -> mid <> [] -> hollow_ok h ->
  tiles (sid_lo i) (d_lower (hb_desc h)) mid (sid_hi i) (d_upper (hb_desc h)) ->
  exists r, Replace.perform_subset_replacement b h i (length pre, length pre + length mid)%nat nac = Ret r /\
    ApplyMergeResult_matched r.2 = true /\ replace_post since b h r.
Proof.
  intros Hb Hp Hne Hlen Ht. unfold Replace.perform_subset_replacement. rewrite Hp. simpl.
  rewrite !length_app, !(proj2 (Nat.leb_le _ _)) by lia. cbn [assert_ obind].
  rewrite take_app_length. replace (length pre + length mid)%nat with (length (pre ++ mid)) by by rewrite length_app.
  rewrite app_assoc, drop_app_length, length_app. cbn [sb_len SpineBatch.len].
  set (b' := {| sb_id := sb_id b |}).
  destruct (Z.ltb_spec (SpineBatch.len b) (SpineBatch.parts_len (pre ++ {| ihb_id := i; ihb_batch := h |} :: post))) as [Hgt|Hle].
  { eexists. split; [done|]. by split. }
  assert (Hgoal : batch_wf since b' /\ replaced_by b b' h);
    [|destruct (_ =? _)%nat; eexists (b', _); split; done].
  pose proof (bw_part_ids _ _ Hb) as Hids. pose proof (bw_parts _ _ Hb) as Hnn. rewrite Hp in Hids, Hnn.
  apply Forall_app in Hids as [Hi1 [Hi2 Hi3]%Forall_app]. apply Forall_app in Hnn as [Hn1 [_ Hn3]%Forall_app].
  split; split; simpl; try done; try apply Hb.
  - eapply (tiles_replace _ _ pre mid post); [|done|done]. rewrite <- Hp. apply (bw_chain _ _ Hb).
  - rewrite Forall_app, Forall_cons. done.
  - rewrite Forall_app, Forall_cons. split_and!; try done. by eapply tiles_ids.
  - by exists pre, mid, post, i.
Qed.

(** A result for all of a batch. *)
Lemma exact_ok since b h :
  batch_wf since b -> Replace.exact_match b (hb_desc h) = true -> sb_parts b <> [] ->
  hollow_ok h -> hb_len h <= sb_len b -> less_equal (d_since (hb_desc h)) since = true ->
  replace_post since b h (SpineBatch.merged {| ihb_id := SpineBatch.id b; ihb_batch := h |}, AppliedExact).
Proof.
  intros Hb Hm Hne Hh Hlen Hs. unfold Replace.exact_match in Hm.
  apply andb_true_iff in Hm as [Hl%bool_decide_eq_true Hu%bool_decide_eq_true].
  unfold replace_post. simpl. split; [|split; simpl; try done; try lia].
  - apply merged_wf; [apply (bw_id _ _ Hb)|done|done].
  - exists [], (sb_parts b), [], (sb_id b). rewrite app_nil_r. split_and!; try done.
    rewrite Hl, Hu. apply (bw_chain _ _ Hb).
Qed.

Lemma wf_parts_nonempty since b : batch_wf since b -> sb_parts b <> [].
Proof.
  intros Hb E. pose proof (bw_chain _ _ Hb) as Hc. rewrite E in Hc. simpl in Hc. pose proof (bw_id _ _ Hb). lia.
Qed.
End parts.

(** ** Finding the parts a result replaces *)

Section finding.
Context {T : Type} `{TimelyLaws T}.
Implicit Types (b : SpineBatch T) (p : IdHollowBatch T) (ps pre mid post : list (IdHollowBatch T)) (h : HollowBatch T).

Definition part_ok p : Prop := hollow_ok (ihb_batch p).

(** The upper found first: the lower is not found any more. *)
Lemma find_bounds_upper_first desc i ps lo f hi u acc :
  tiles lo f ps hi u -> Forall part_ok ps -> less_than (d_lower desc) f = true ->
  fst (Replace.find_bounds desc i ps None acc) = None.
Proof.
  revert i lo f acc. induction ps as [|p ps IH]; intros i lo f acc Ht Ho Hlt; [done|]. simpl.
  destruct (chain_le _ _ _ _ _ Ht Ho) as [_ Hle]. inversion_clear Hle as [|?? Hlp _].
  destruct Ht as (_ & Hf & Ht). inversion_clear Ho as [|?? Hp Ho']. simpl in Hf.
  rewrite bool_decide_eq_false_2.
  - eapply IH; [exact Ht|done|]. eapply lt_le_trans; [exact Hlt|]. eapply le_trans; [exact Hlp|]. apply (ho_ordered _ Hp).
  - intros E. rewrite <- E, Hf, less_than_irrefl in Hlt. done.
Qed.

(** The accumulator of the search remembers a part that starts at the
    lower. *)
Definition lower_acc desc (seen : list (IdHollowBatch T)) (acc : option (nat * N)) : Prop :=
  match acc with
  | None => True
  | Some (i, l) => exists p, seen !! i = Some p /\ sid_lo (ihb_id p) = l /\ d_lower (hb_desc (ihb_batch p)) = d_lower desc
  end.

Lemma find_bounds_ok desc seen ps lo f hi u acc i l j v :
  tiles lo f ps hi u -> Forall part_ok ps -> less_than (d_lower desc) (d_upper desc) = true ->
  lower_acc desc seen acc ->
  Replace.find_bounds desc (length seen) ps acc None = (Some (i, l), Some (j, v)) ->
  exists p q, (i <= j)%nat /\ (seen ++ ps) !! i = Some p /\ (seen ++ ps) !! j = Some q /\
    sid_lo (ihb_id p) = l /\ d_lower (hb_desc (ihb_batch p)) = d_lower desc /\
    sid_hi (ihb_id q) = v /\ d_upper (hb_desc (ihb_batch q)) = d_upper desc.
Proof.
  revert seen lo f acc. induction ps as [|p ps IH]; intros seen lo f acc Ht Ho Hlt Hacc; [by intros [= <-]|].
  cbn [Replace.find_bounds]. set (acc' := if bool_decide _ then _ else acc).
  assert (Hacc' : lower_acc desc (seen ++ [p]) acc').
  { unfold acc'. case_bool_decide as E.
    - exists p. by rewrite list_lookup_middle.
    - destruct acc as [[k x]|]; [|done]. destruct Hacc as (q & Hq & ?). exists q. split; [|done]. by apply lookup_app_l_Some. }
  destruct Ht as (_ & Hf & Ht). inversion_clear Ho as [|?? Hp Ho'].
  replace (seen ++ p :: ps) with ((seen ++ [p]) ++ ps) by by rewrite <- app_assoc.
  assert (Hs : S (length seen) = length (seen ++ [p])) by (rewrite length_app; simpl; lia).
  case_bool_decide as E.
  - destruct acc' as [[k x]|].
    + intros [= <- <- <- <-]. destruct Hacc' as (q & Hq & Hl & Hd). exists q, p.
      assert (k < length (seen ++ [p]))%nat by by eapply lookup_lt_Some.
      split_and!; try done; [lia|by apply lookup_app_l_Some|]. rewrite <- app_assoc. by apply list_lookup_middle.
    + intros Hfb. exfalso. rewrite Hs in Hfb.
      pose proof (find_bounds_upper_first desc (length (seen ++ [p])) ps _ _ _ _ (Some (length seen, sid_hi (ihb_id p))) Ht Ho') as Hn.
      simpl in Hn. rewrite E in Hn. specialize (Hn Hlt). by rewrite Hfb in Hn.
  - rewrite Hs. intros Hfb.
    assert (Hfb' : Replace.find_bounds desc (length (seen ++ [p])) ps acc' None = (Some (i, l), Some (j, v)))
      by (by destruct acc'). by eapply IH.
Qed.

(** What [find_replacement_range] finds is a stretch of parts that tiles
    the description. *)
Lemma find_replacement_ok since b desc i range :
  batch_wf since b -> less_than (d_lower desc) (d_upper desc) = true ->
  Replace.find_replacement_range b desc = Some (i, range) ->
  exists pre mid post, sb_parts b = pre ++ mid ++ post /\ mid <> [] /\
    range = (length pre, length pre + length mid)%nat /\
    tiles (sid_lo i) (d_lower desc) mid (sid_hi i) (d_upper desc).
Proof.
  intros Hb Hlt. unfold Replace.find_replacement_range. pose proof (bw_parts _ _ Hb) as Ho.
  destruct (Replace.find_bounds _ _ _ _ _) as [[[li l]|] [[ui v]|]] eqn:E; try done. intros [= <- <-].
  pose proof (bw_chain _ _ Hb) as Ht.
  destruct (find_bounds_ok desc [] (sb_parts b) _ _ _ _ None _ _ _ _ Ht Ho Hlt I E)
    as (p & q & Hle & Hp & Hq & <- & <- & <- & <-). simpl in Hp, Hq.
  assert (Hui : (ui < length (sb_parts b))%nat) by by eapply lookup_lt_Some.
  set (mid := take (S ui - li) (drop li (sb_parts b))).
  assert (Hsplit : sb_parts b = take li (sb_parts b) ++ mid ++ drop (S ui) (sb_parts b)).
  { unfold mid. rewrite <- (take_drop li (sb_parts b)) at 1. f_equal.
    rewrite <- (take_drop (S ui - li) (drop li (sb_parts b))) at 1. f_equal. rewrite drop_drop. f_equal. lia. }
  assert (Hmid : mid = p :: take (ui - li) (drop (S li) (sb_parts b))).
  { unfold mid. rewrite (drop_S _ _ _ Hp). by replace (S ui - li)%nat with (S (ui - li)) by lia. }
  assert (Hlast : last mid = Some q).
  { rewrite last_lookup. unfold mid. rewrite length_take, length_drop. rewrite lookup_take_lt by lia.
    rewrite lookup_drop. rewrite <- Hq. f_equal. lia. }
  exists (take li (sb_parts b)), mid, (drop (S ui) (sb_parts b)).
  split; [done|]. split; [by rewrite Hmid|]. split.
  - f_equal; [rewrite length_take; lia|]. unfold mid. rewrite !length_take, length_drop. lia.
  - rewrite Hmid in Hsplit, Hlast |- *. change (chain ?a ?b (part_seg <$> ?c) ?d ?e) with (tiles a b c d e) in Ht.
    rewrite Hsplit in Ht. by eapply tiles_middle.
Qed.
End finding.

(** ** Results for a range of ids *)

Section id_ranges.
Context {T : Type} `{TimelyLaws T}.
Implicit Types (b : SpineBatch T) (p q : IdHollowBatch T) (ps pre mid post : list (IdHollowBatch T)) (h : HollowBatch T) (i : SpineId).

Definition id_ok p : Prop := (sid_lo (ihb_id p) < sid_hi (ihb_id p))%N.

Lemma tiles_above lo f ps hi u : tiles lo f ps hi u -> Forall id_ok ps ->
  Forall (fun p => (lo <= sid_lo (ihb_id p) /\ lo < sid_hi (ihb_id p))%N) ps.
Proof.
  revert lo f. induction ps as [|p ps IH]; intros lo f Ht Ho; [constructor|].
  destruct Ht as (Hlo & _ & Ht). inversion_clear Ho as [|?? Hp Ho']. simpl in *. unfold id_ok in Hp.
  constructor; [lia|]. eapply Forall_impl; [by eapply IH|]. simpl. lia.
Qed.

(** The parts a range of ids covers are consecutive. *)
Lemma covered_prefix lo f ps hi u i : tiles lo f ps hi u -> Forall id_ok ps -> (sid_lo i <= lo)%N ->
  exists mid post, ps = mid ++ post /\ Forall (fun p => SpineId_covers i (ihb_id p) = true) mid /\
    Forall (fun p => SpineId_covers i (ihb_id p) = false) post.
Proof.
  revert lo f. induction ps as [|p ps IH]; intros lo f Ht Ho Hlo; [by exists [], []|].
  pose proof (tiles_above _ _ _ _ _ Ht Ho) as Ha. destruct Ht as (Hl & _ & Ht). simpl in *.
  inversion_clear Ho as [|?? Hp Ho']. inversion_clear Ha as [|?? _ Ha']. unfold id_ok in Hp. unfold SpineId_covers.
  destruct (decide (sid_hi (ihb_id p) <= sid_hi i)%N) as [Hc|Hc].
  - destruct (IH _ _ Ht Ho' ltac:(lia)) as (mid & post & -> & Hm & Hq). exists (p :: mid), post.
    split_and!; [done| |done]. constructor; [|done]. rewrite !(proj2 (N.leb_le _ _)) by lia. done.
  - exists [], (p :: ps). split_and!; [done|constructor|]. constructor.
    + rewrite (proj2 (N.leb_gt (sid_hi (ihb_id p)) _)) by lia. by rewrite andb_false_r.
    + eapply Forall_impl; [exact (tiles_above _ _ _ _ _ Ht Ho')|]. intros q [_ Hq]. simpl in Hq.
      rewrite (proj2 (N.leb_gt (sid_hi (ihb_id q)) _)) by lia. by rewrite andb_false_r.
Qed.

Lemma covered_stretch lo f ps hi u i : tiles lo f ps hi u -> Forall id_ok ps ->
  exists pre mid post, ps = pre ++ mid ++ post /\ Forall (fun p => SpineId_covers i (ihb_id p) = true) mid /\
    Forall (fun p => SpineId_covers i (ihb_id p) = false) (pre ++ post).
Proof.
  revert lo f. induction ps as [|p ps IH]; intros lo f Ht Ho; [by exists [], [], []|].
  destruct (decide (sid_lo i <= lo)%N) as [Hlo|Hlo].
  { destruct (covered_prefix _ _ _ _ _ i Ht Ho Hlo) as (mid & post & ? & ? & ?). by exists [], mid, post. }
  destruct Ht as (Hl & _ & Ht). inversion_clear Ho as [|?? _ Ho']. simpl in *.
  destruct (IH _ _ Ht Ho') as (pre & mid & post & -> & Hm & Hq). exists (p :: pre), mid, post.
  split_and!; [done|done|]. simpl. constructor; [|done]. unfold SpineId_covers.
  rewrite (proj2 (N.leb_gt (sid_lo i) _)) by lia. done.
Qed.

Lemma filter_indexed (P : IdHollowBatch T -> Prop) `{!forall p, Decision (P p)} (k : nat) pre mid post :
  Forall (fun p => ~ P p) (pre ++ post) -> Forall P mid ->
  filter (fun ip => P ip.2) (imap (fun j p => ((k + j)%nat, p)) (pre ++ mid ++ post)) =
  imap (fun j p => ((k + length pre + j)%nat, p)) mid.
Proof.
  intros [Hpre Hpost]%Forall_app Hmid. rewrite !imap_app, !filter_app.
  assert (Hnone : forall l g, Forall (fun p => ~ P p) l ->
    filter (fun ip : nat * IdHollowBatch T => P ip.2) (imap (fun (j : nat) p => (g j, p)) l) = []).
  { intros l g Hl. revert g. induction Hl as [|p l Hp _ IH]; intros g; [done|]. simpl.
    rewrite filter_cons_False by done. apply (IH (g ∘ S)). }
  rewrite (Hnone pre (fun j => (k + j)%nat)) by done.
  pose proof (Hnone post (fun j => (k + (length pre + (length mid + j)))%nat) Hpost) as Hp. simpl in Hp.
  rewrite Hp, app_nil_r. simpl. clear Hp Hpre Hpost Hnone.
  rewrite (imap_ext _ (fun j p => ((k + length pre + j)%nat, p)) mid) by (intros; simpl; f_equal; lia).
  generalize (k + length pre)%nat. induction Hmid as [|p mid Hp _ IH]; intros n; [done|]. simpl.
  rewrite filter_cons_True by done. f_equal.
  rewrite !(imap_ext ((fun (j : nat) p => ((n + j)%nat, p)) ∘ S) (fun j p => ((S n + j)%nat, p)) mid) by (intros; simpl; f_equal; lia).
  apply IH.
Qed.

Lemma id_set_insert_last l i : Forall (fun j => SpineId_ltb j i = true /\ SpineId_ltb i j = false) l ->
  id_set_insert i l = l ++ [i].
Proof. induction 1 as [|j l [H1 H2] _ IH]; [done|]. simpl. by rewrite H2, H1, IH. Qed.

(** The ids of a tiling are in order already. *)
Lemma id_set_tiles lo f ps hi u : tiles lo f ps hi u -> Forall id_ok ps ->
  id_set (ihb_id <$> ps) = ihb_id <$> ps.
Proof.
  revert hi u. induction ps as [|p ps IH] using rev_ind; [done|]. intros hi u (m & g & Ht & Hp)%tiles_app [Ho Hop]%Forall_app.
  assert (Hall : Forall (fun q => (sid_hi (ihb_id q) <= m)%N) ps).
  { clear IH Hp. revert lo f Ht. induction Ho as [|q ps Hq Ho IH]; intros lo f Ht; [constructor|].
    destruct Ht as (_ & _ & Ht). constructor; [|by eapply IH].
    simpl in Ht. apply chain_lo_hi in Ht as [? _]; [done|]. apply Forall_fmap. eapply Forall_impl; [exact Ho|done]. }
  specialize (IH _ _ Ht Ho) as IH'. unfold id_set in *. rewrite fmap_app, foldl_app. simpl. rewrite IH'.
  destruct Hp as (<- & _). simpl in Hall. apply id_set_insert_last, Forall_fmap.
  apply Forall_singleton in Hop. unfold id_ok in Hop.
  rewrite Forall_forall in Hall, Ho |- *. intros q Hq. specialize (Hall q Hq). specialize (Ho q Hq). unfold id_ok in Ho.
  unfold SpineId_ltb. simpl. split.
  - rewrite (proj2 (N.ltb_lt _ _)) by lia. done.
  - rewrite (proj2 (N.ltb_ge _ _)) by lia. rewrite (proj2 (N.eqb_neq _ _)) by lia. done.
Qed.

Lemma id_range_tiles lo f p ps hi u : tiles lo f (p :: ps) hi u -> id_range (ihb_id <$> p :: ps) = Ret (SId lo hi).
Proof.
  intros (Hlo & _ & Ht). simpl in *. destruct (ihb_id p) as [l h0] eqn:E. simpl in *. subst l.
  revert Ht. generalize (d_upper (hb_desc (ihb_batch p))) as g. clear E p f. revert h0.
  induction ps as [|p ps IH]; intros h0 g Ht; simpl.
  - by destruct Ht as [-> _].
  - destruct Ht as (Hl & _ & Ht). simpl in *. unfold assert_. rewrite (proj2 (N.eqb_eq _ _)) by done.
    cbn [obind]. by eapply IH.
Qed.

Lemma minmax_indexed n p mid :
  minmax (fst <$> imap (fun j (q : IdHollowBatch T) => ((n + j)%nat, q)) (p :: mid)) = Some (n, n + length mid)%nat.
Proof.
  simpl. f_equal. rewrite Nat.add_0_r. f_equal.
  - assert (Hmin : forall l (m : nat), Forall (fun x => (m <= x)%nat) l -> foldl Nat.min m l = m).
    { induction 1 as [|x l Hx _ IH]; [done|]. simpl. by rewrite Nat.min_l. }
    apply Hmin, Forall_fmap, Forall_lookup. intros k [x q] Hk. rewrite list_lookup_imap in Hk.
    destruct (mid !! k); [|done]. simplify_eq/=. lia.
  - assert (Hmax : forall l (m : nat), foldl Nat.max m (fst <$> imap (fun j (q : IdHollowBatch T) => ((S m + j)%nat, q)) l) = (m + length l)%nat).
    { intros l. induction l as [|x l IH]; intros m; [simpl; lia|]. simpl.
      rewrite Nat.max_r by lia. rewrite Nat.add_0_r.
      replace (m + S (length l))%nat with (S m + length l)%nat by lia. rewrite <- IH. do 2 f_equal.
      apply imap_ext. intros. simpl. f_equal. lia. }
    rewrite <- Hmax. do 2 f_equal. apply imap_ext. intros. simpl. f_equal. lia.
Qed.
End id_ranges.

(** ** Replacing runs inside a part *)

Section run_replacement.
Context {T : Type} `{TimelyLaws T}.
Abbreviation run := (RunMeta * list (RunPart T))%type.
Implicit Types (rs : list run) (h : HollowBatch T).

Lemma splits_of_ends (i p : nat) rs : Forall nonempty_run rs ->
  Replace.splits_of (i + length rs) i p rs = take (length rs - 1) (ends p rs).
Proof.
  intros Hrs. revert i p. induction Hrs as [|[m ps] rs Hr _ IH]; intros i p; [done|].
  cbn [Replace.splits_of ends length snd]. unfold nonempty_run in Hr. simpl in Hr. rewrite bool_decide_eq_false_2 by done.
  specialize (IH (S i) (p + length ps)%nat). replace (S i + length rs)%nat with (i + S (length rs))%nat in IH by lia.
  rewrite IH. destruct rs as [|r rs].
  - simpl. rewrite (proj2 (Nat.ltb_ge _ _)) by lia. done.
  - cbn [length]. rewrite (proj2 (Nat.ltb_lt _ _)) by lia. simpl. by rewrite Nat.sub_0_r.
Qed.

Lemma collect_runs_ok h rs : assembled h rs -> Replace.collect_runs h = Ret rs.
Proof.
  intros Ha. unfold Replace.collect_runs. rewrite (assembled_runs _ _ Ha). clear Ha.
  induction rs as [|r rs IH]; [done|]. rewrite fmap_cons. cbn [omapM obind]. by rewrite IH.
Qed.

(** The runs that stay. *)
Definition chosen (ids : list RunId) (r : run) : bool :=
  match rm_id r.1 with Some i => bool_decide (i ∈ ids) | None => false end.

Definition kept (ids : list RunId) rs : list run := filter (fun r => chosen ids r = false) rs.

Lemma keep_runs_ok ids rs : Forall (fun r => is_Some (rm_id r.1)) rs -> Replace.keep_runs ids rs = Ret (kept ids rs).
Proof.
  induction 1 as [|[m ps] rs [i Hi] _ IH]; [done|]. cbn [Replace.keep_runs]. simpl in Hi. rewrite Hi, IH.
  cbn [expect obind]. unfold kept. assert (Hc : chosen ids (m, ps) = bool_decide (i ∈ ids)) by (unfold chosen; simpl; by rewrite Hi).
  rewrite <- Hc. destruct (chosen ids (m, ps)) eqn:E; [by rewrite filter_cons_False by congruence|by rewrite filter_cons_True].
Qed.

Lemma kept_nonempty ids rs : Forall nonempty_run rs -> Forall nonempty_run (kept ids rs).
Proof. rewrite !Forall_forall. intros Hr r [_ Hin]%list_elem_of_filter. by apply Hr. Qed.

(** The result of replacing runs consists of the runs that stay followed by
    those of the replacement; its split points and metadata are theirs. *)
Lemma construct_ok original ids replacement rs rs' :
  assembled original rs -> assembled replacement rs' -> Forall (fun r => is_Some (rm_id r.1)) rs ->
  ids <> [] -> Forall (fun i => exists r, r ∈ rs /\ rm_id r.1 = Some i) ids ->
  exists h, Replace.construct_batch_with_runs_replaced original ids replacement = Ret (Ok h) /\
    assembled h (kept ids rs ++ rs') /\ hb_desc h = hb_desc replacement /\
    hb_len h = sumZ (omap (fun r => rm_len r.1) (kept ids rs ++ rs')).
Proof.
  intros Ho Hr Hids Hne Hin. unfold Replace.construct_batch_with_runs_replaced.
  rewrite bool_decide_eq_false_2 by done. rewrite (collect_runs_ok _ _ Ho). cbn [obind].
  rewrite (proj2 (forallb_forall _ _)).
  - simpl negb. cbn match. rewrite keep_runs_ok, (collect_runs_ok _ _ Hr) by done. cbn [obind].
    eexists. split; [done|]. split; [|done].
    assert (Hn : Forall nonempty_run (kept ids rs ++ rs')).
    { apply Forall_app. split; [apply kept_nonempty, Ho|apply Hr]. }
    split_and!; try done. simpl. rewrite length_fmap. by apply (splits_of_ends 0 0).
  - intros i Hi%list_elem_of_In. rewrite Forall_forall in Hin. destruct (Hin i Hi) as (r & Hr' & Hir).
    apply bool_decide_eq_true_2, list_elem_of_omap. by exists r.
Qed.
End run_replacement.

(** ** Applying results to one batch *)

Section applying.
Context {T : Type} `{TimelyLaws T}.
Implicit Types (b : SpineBatch T) (p q : IdHollowBatch T) (ps pre mid post : list (IdHollowBatch T)) (h : HollowBatch T).

(** The results that compaction produces: a nonempty range of times that
    agrees with the ids the compaction names. *)
Record result_fits b (res : FueledMergeRes T) : Prop := {
  rf_times : less_than (d_lower (hb_desc (fres_output res))) (d_upper (hb_desc (fres_output res))) = true;
  rf_output : hollow_ok (fres_output res);
  rf_range : forall i p, fres_input res = CIdRange i -> p ∈ sb_parts b ->
    (sid_lo (ihb_id p) = sid_lo i -> d_lower (hb_desc (ihb_batch p)) = d_lower (hb_desc (fres_output res))) /\
    (sid_hi (ihb_id p) = sid_hi i -> d_upper (hb_desc (ihb_batch p)) = d_upper (hb_desc (fres_output res)));
}.

Lemma subset_ok since b h nac :
  batch_wf since b -> hollow_ok h ->
  less_than (d_lower (hb_desc h)) (d_upper (hb_desc h)) = true ->
  exists r, match Replace.find_replacement_range b (hb_desc h) with
            | Some (i, range) => Replace.perform_subset_replacement b h i range nac
            | None => Ret (b, NotAppliedNoMatch)
            end = Ret r /\ replace_post since b h r.
Proof.
  intros Hb Hh Hlt. destruct (Replace.find_replacement_range b (hb_desc h)) as [[i range]|] eqn:E.
  - destruct (find_replacement_ok _ _ _ _ _ Hb Hlt E) as (pre & mid & post & Hp & Hne & -> & Ht).
    destruct (perform_ok since b h pre mid post i nac) as (r & He & _ & Hr); try done. by exists r.
  - by eexists.
Qed.

Lemma unchecked_ok since b res :
  batch_wf since b -> result_fits b res ->
  exists r, Replace.maybe_replace_unchecked b res = Ret r /\ replace_post since b (fres_output res) r.
Proof.
  intros Hb Hf. unfold Replace.maybe_replace_unchecked.
  destruct (less_equal _ _) eqn:Hs; simpl; [|by eexists].
  destruct (Replace.exact_match _ _) eqn:Hx.
  - destruct (Z.ltb_spec (SpineBatch.len b) (hb_len (fres_output res))) as [Hgt|Hle]; [by eexists|].
    eexists. split; [done|]. apply exact_ok; try done.
    + by eapply wf_parts_nonempty.
    + apply Hf.
    + eapply le_trans; [exact Hs|]. apply Hb.
  - apply subset_ok; try done; apply Hf.
Qed.

(** A tombstone may only be written when everything has been compacted
    away: its since is the trace's. *)
Lemma tombstone_ok since b desc :
  batch_wf since b -> less_than (d_lower desc) (d_upper desc) = true ->
  less_equal (d_since desc) since = true ->
  exists r, Replace.maybe_replace_with_tombstone b desc = Ret r /\
    replace_post since b (HollowBatch.empty desc) r.
Proof.
  intros Hb Hlt Hs. unfold Replace.maybe_replace_with_tombstone.
  destruct (Replace.exact_match b desc) eqn:Hx.
  - eexists. split; [done|]. apply exact_ok; try done.
    + by eapply wf_parts_nonempty.
    + by apply empty_ok, less_than_le.
    + simpl. by eapply batch_wf_nonneg.
  - change desc with (hb_desc (HollowBatch.empty desc)) at 1.
    apply (subset_ok since b (HollowBatch.empty desc) None); try done. by apply empty_ok, less_than_le.
Qed.
End applying.

Section applying_checked.
Context {T : Type} `{TimelyLaws T} (D : Type) `{!PartCodec D}.
Implicit Types (b : SpineBatch T) (p q : IdHollowBatch T) (ps pre mid post : list (IdHollowBatch T)) (h : HollowBatch T).

(** The replacement by ids, up to the comparison of the diff sums. *)
Definition id_range_result b (res : FueledMergeRes T) (i : SpineId) (new : option D) pre mid :
    outcome (SpineBatch T * ApplyMergeResult) :=
  match head mid, last mid with
  | Some p, Some q =>
      if bool_decide (i = SId (sid_lo (ihb_id p)) (sid_hi (ihb_id q))) then
        let! old := Replace.sum_batches diff_zero mid in
        let! _ := Replace.validate_diffs_sum_match old new in
        Replace.perform_subset_replacement b (fres_output res) i (length pre, length pre + length mid)%nat
          (fres_new_active_compaction res)
      else Ret (b, NotAppliedNoMatch)
  | _, _ => Ret (b, NotAppliedNoMatch)
  end.

(** The assertion that the ids are contiguous never fires: the parts that
    the range covers are consecutive. *)
Lemma handle_id_range_eq since b res i new : batch_wf since b ->
  exists pre mid post, sb_parts b = pre ++ mid ++ post /\
    Forall (fun p => SpineId_covers i (ihb_id p) = true) mid /\
    Forall (fun p => SpineId_covers i (ihb_id p) = false) (pre ++ post) /\
    Replace.handle_id_range_replacement D b res i new = id_range_result b res i new pre mid.
Proof.
  intros Hb. pose proof (bw_chain _ _ Hb) as Ht. pose proof (bw_part_ids _ _ Hb) as Hids.
  destruct (covered_stretch _ _ _ _ _ i Ht Hids) as (pre & mid & post & Hp & Hm & Hn).
  exists pre, mid, post. split_and!; try done.
  unfold Replace.handle_id_range_replacement.
  assert (Hrange : filter (fun ip : nat * IdHollowBatch T => SpineId_covers i (ihb_id ip.2) = true)
      (imap (fun j p => (j, p)) (sb_parts b)) = imap (fun j p => ((length pre + j)%nat, p)) mid).
  { rewrite Hp. refine (filter_indexed (fun p => SpineId_covers i (ihb_id p) = true) 0 pre mid post _ Hm).
    eapply Forall_impl; [exact Hn|]. intros q Hq. simpl in Hq. congruence. }
  cbn zeta. rewrite Hrange.
  assert (Hfst : forall (l : list (IdHollowBatch T)) k,
    (fun ip : nat * IdHollowBatch T => ihb_id ip.2) <$> imap (fun j p => ((k + j)%nat, p)) l = ihb_id <$> l).
  { intros l k. apply list_eq. intros j. rewrite !list_lookup_fmap, list_lookup_imap. by destruct (l !! j). }
  rewrite Hfst. change (chain ?a ?b (part_seg <$> ?c) ?d ?e) with (tiles a b c d e) in Ht. rewrite Hp in Ht, Hids.
  apply tiles_app in Ht as (m & g & _ & (m' & g' & Ht & _)%tiles_app).
  apply Forall_app in Hids as [_ [Hids _]%Forall_app]. rewrite (id_set_tiles _ _ _ _ _ Ht Hids).
  unfold id_range_result. destruct mid as [|p mid]; [done|].
  rewrite bool_decide_eq_false_2 by done. rewrite (id_range_tiles _ _ _ _ _ _ Ht). cbn [obind].
  rewrite minmax_indexed. change (head (p :: mid)) with (Some p). cbn match.
  destruct (last (p :: mid)) as [q|] eqn:El; [|by apply last_None in El].
  assert (m = sid_lo (ihb_id p) /\ m' = sid_hi (ihb_id q)) as [-> ->].
  { split; [by destruct Ht as (-> & _)|]. apply last_Some in El as (l & El). rewrite El in Ht. unfold tiles in Ht.
    rewrite fmap_app in Ht. by apply chain_last in Ht as [-> _]. }
  case_bool_decide as Hi; simpl negb; cbn match; [|done].
  unfold HollowBatch.slice. simpl fst. simpl snd. rewrite Hp, !length_app.
  rewrite (proj2 (Nat.leb_le _ _)) by (simpl; lia). cbn [obind].
  rewrite drop_app_length. cbn [length].
  replace (S (length pre + length mid) - length pre)%nat with (length (p :: mid)) by (simpl; lia).
  rewrite take_app_length. by replace (length pre + S (length mid))%nat with (S (length pre + length mid)) by lia.
Qed.

Lemma obind_Ret {A B} (m : outcome A) (f : A -> outcome B) x : obind m f = Ret x -> exists a, m = Ret a /\ f a = Ret x.
Proof. destruct m; [by eexists|done]. Qed.

(** The batch that takes the place of others: the result, or a part of
    which the result replaces some runs. *)
Definition made_of b (res : FueledMergeRes T) h : Prop :=
  h = fres_output res \/ exists p ids, p ∈ sb_parts b /\
    d_lower (hb_desc (ihb_batch p)) = d_lower (hb_desc h) /\ d_upper (hb_desc (ihb_batch p)) = d_upper (hb_desc h) /\
    Replace.construct_batch_with_runs_replaced (ihb_batch p) ids (fres_output res) = Ret (Ok h).

(** What a checked result may do to a batch. *)
Definition checked_post (since : Antichain T) b (res : FueledMergeRes T) (r : SpineBatch T * ApplyMergeResult) : Prop :=
  exists h, hb_desc h = hb_desc (fres_output res) /\ made_of b res h /\ replace_post since b h r.

Lemma checked_output since b res r : replace_post since b (fres_output res) r -> checked_post since b res r.
Proof. intros Hr. exists (fres_output res). split_and!; [done|by left|done]. Qed.

Lemma id_range_post since b res i new r : batch_wf since b -> result_fits b res -> fres_input res = CIdRange i ->
  Replace.handle_id_range_replacement D b res i new = Ret r -> checked_post since b res r.
Proof.
  intros Hb Hf Hi. destruct (handle_id_range_eq since b res i new Hb) as (pre & mid & post & Hp & Hm & _ & ->).
  unfold id_range_result. assert (Hnone : checked_post since b res (b, NotAppliedNoMatch)) by by apply checked_output.
  destruct mid as [|p mid]; [by intros [= <-]|]. change (head (p :: mid)) with (Some p). cbn match.
  destruct (last (p :: mid)) as [q|] eqn:El; [|by apply last_None in El].
  case_bool_decide as Hid; [|by intros [= <-]].
  intros (old & _ & (? & _ & Hr)%obind_Ret)%obind_Ret. apply checked_output.
  assert (Hq : q ∈ p :: mid) by (apply last_Some in El as (l & ->); rewrite elem_of_app, list_elem_of_singleton; tauto).
  pose proof (bw_chain _ _ Hb) as Ht. change (chain ?a ?b (part_seg <$> ?c) ?d ?e) with (tiles a b c d e) in Ht.
  rewrite Hp in Ht. pose proof (tiles_middle _ _ _ _ _ _ _ _ _ Ht El) as Hmid.
  assert (Hpin : p ∈ sb_parts b) by (rewrite Hp, !elem_of_app, elem_of_cons; tauto).
  assert (Hqin : q ∈ sb_parts b) by (rewrite Hp, !elem_of_app; tauto).
  destruct (rf_range _ _ Hf i p Hi Hpin) as [Hlo _]. destruct (rf_range _ _ Hf i q Hi Hqin) as [_ Hhi].
  rewrite Hid in Hlo, Hhi. simpl in Hlo, Hhi. rewrite (Hlo eq_refl), (Hhi eq_refl) in Hmid.
  destruct (perform_ok since b (fres_output res) pre (p :: mid) post i (fres_new_active_compaction res))
    as (r' & He & _ & Hpost); try done; [apply Hf|by rewrite Hid|]. rewrite He in Hr. by simplify_eq.
Qed.

Lemma zip_eq_fst {A B} (xs : list A) (ys : list (outcome B)) rs :
  omapM (fun r => r) (HollowBatch.zip_eq xs ys) = Ret rs -> fst <$> rs = xs.
Proof.
  revert ys rs. induction xs as [|x xs IH]; intros [|y ys] rs; simpl; try done; [by intros [= <-]|].
  intros ([] & (y' & -> & [= <- <-])%obind_Ret & (rs' & Hrs & [= <-])%obind_Ret)%obind_Ret.
  rewrite fmap_cons. f_equal. by eapply IH.
Qed.

Lemma keep_runs_sub ids (rs ks : list (RunMeta * list (RunPart T))) :
  Replace.keep_runs ids rs = Ret ks -> forall r, r ∈ ks -> r ∈ rs.
Proof.
  revert ks. induction rs as [|[m ps] rs IH]; intros ks; simpl; [by intros [= <-]|].
  intros (i & _ & (ks' & Hks & [= <-])%obind_Ret)%obind_Ret r. rewrite elem_of_cons.
  case_bool_decide; [by eauto|]. intros [->|Hr]%elem_of_cons; eauto.
Qed.

Lemma sum_lens_nonneg (rs : list (RunMeta * list (RunPart T))) :
  (forall r, r ∈ rs -> 0 <= default 0 (rm_len r.1)) -> 0 <= sumZ (omap (fun r => rm_len r.1) rs).
Proof.
  intros Hr. apply sumZ_nonneg, Forall_forall. intros x (r & Hin & Hx)%list_elem_of_omap.
  specialize (Hr r Hin). by rewrite Hx in Hr.
Qed.

Lemma construct_inv original ids replacement h :
  Forall (fun m => 0 <= default 0 (rm_len m)) (hb_run_meta original) ->
  Forall (fun m => 0 <= default 0 (rm_len m)) (hb_run_meta replacement) ->
  Replace.construct_batch_with_runs_replaced (T := T) original ids replacement = Ret (Ok h) ->
  hb_desc h = hb_desc replacement /\ 0 <= hb_len h /\ Forall (fun rm => 0 <= default 0 (rm_len rm)) (hb_run_meta h).
Proof.
  intros Ho Hr. unfold Replace.construct_batch_with_runs_replaced. case_bool_decide; [done|].
  intros (rs & Hrs & Hc)%obind_Ret. destruct (negb _); [done|].
  apply obind_Ret in Hc as (ks & Hks & (rs' & Hrs' & [= <-])%obind_Ret). split; [done|]. simpl.
  pose proof (zip_eq_fst _ _ _ Hrs) as E. pose proof (zip_eq_fst _ _ _ Hrs') as E'. rewrite <- E in Ho. rewrite <- E' in Hr.
  rewrite Forall_fmap, Forall_forall in Ho. rewrite Forall_fmap, Forall_forall in Hr.
  assert (Hall : forall r, r ∈ ks ++ rs' -> 0 <= default 0 (rm_len r.1)).
  { intros r [Hin|Hin]%elem_of_app; [|by apply Hr]. apply Ho. by eapply keep_runs_sub. }
  split; [by apply sum_lens_nonneg|]. by rewrite Forall_fmap, Forall_forall.
Qed.

Lemma partial_post since b res i runs new r :
  batch_wf since b -> result_fits b res ->
  Replace.handle_partial_batch_replacement D b res i runs new = Ret r -> checked_post since b res r.
Proof.
  intros Hb Hf. unfold Replace.handle_partial_batch_replacement.
  assert (Hnone : forall e, ApplyMergeResult_applied e = false -> checked_post since b res (b, e))
    by (intros e He; apply checked_output; unfold replace_post; simpl; by rewrite He).
  case_bool_decide; [by intros [= <-]; apply Hnone|].
  destruct (list_find _ _) as [[j p]|] eqn:Hfind; [|by intros [= <-]; apply Hnone].
  apply list_find_Some in Hfind as (Hj & Hid & _).
  intros ([] & Hlo & ([] & Hhi & Hr)%obind_Ret)%obind_Ret. unfold assert_ in Hlo, Hhi.
  case_bool_decide as Hlow; [|done]. case_bool_decide as Hup; [|done].
  destruct (negb _); [by simplify_eq; apply Hnone|].
  apply obind_Ret in Hr as ([h|e] & Hc & Hr).
  2: { simplify_eq. apply Hnone. unfold Replace.construct_batch_with_runs_replaced in Hc.
       case_bool_decide; [by simplify_eq|]. apply obind_Ret in Hc as (? & _ & Hc).
       destruct (negb _); [by simplify_eq|]. by apply obind_Ret in Hc as (? & _ & (? & _ & ?)%obind_Ret). }
  do 5 apply obind_Ret in Hr as (? & _ & Hr).
  assert (Hpo : part_ok p) by (eapply Forall_lookup_1; [apply (bw_parts _ _ Hb)|done]).
  destruct (construct_inv _ _ _ _ (ho_metas _ Hpo) (ho_metas _ (rf_output _ _ Hf)) Hc) as (Hd & Hl & Hm).
  exists h. split; [done|]. split; [right; exists p, runs; rewrite Hd; split_and!; [by eapply list_elem_of_lookup_2|done..]|].
  pose proof (rf_times _ _ Hf) as Hlt.
  pose proof (take_drop_middle _ _ _ Hj) as Hsplit.
  assert (Hlj : length (take j (sb_parts b)) = j) by (apply length_take_le; apply lookup_lt_Some in Hj; lia).
  destruct (perform_ok since b h (take j (sb_parts b)) [p] (drop (S j) (sb_parts b)) i (fres_new_active_compaction res))
    as (r' & He & _ & Hpost); try done.
  - apply less_than_iff in Hlt as [? ?]. split; [by rewrite Hd|right; by rewrite Hd|done|done].
  - rewrite Hd, <- Hid, Hlow, Hup. by split_and!.
  - rewrite Hlj in He. simpl in He. rewrite Nat.add_1_r in He. rewrite He in Hr. by simplify_eq.
Qed.

Lemma classic_post since b res r : batch_wf since b -> result_fits b res ->
  Replace.maybe_replace_checked_classic D b res = Ret r -> checked_post since b res r.
Proof.
  intros Hb Hf. destruct (unchecked_ok since b res Hb Hf) as (r' & He & Hpost).
  unfold Replace.maybe_replace_checked_classic, Replace.maybe_replace_unchecked in *.
  destruct (negb _); [intros [= <-]; by apply checked_output|].
  intros (new & _ & Hr)%obind_Ret. apply checked_output.
  assert (Hsame : r = r'); [|by subst]. destruct (Replace.exact_match _ _).
  - apply obind_Ret in Hr as (old & _ & (? & _ & Hr)%obind_Ret). destruct (_ <? _); congruence.
  - destruct (Replace.find_replacement_range _ _) as [[i range]|]; [|congruence].
    apply obind_Ret in Hr as (? & _ & (? & _ & (? & _ & Hr)%obind_Ret)%obind_Ret). congruence.
Qed.

Lemma checked_made since b res r : batch_wf since b -> result_fits b res ->
  Replace.maybe_replace_checked D b res = Ret r -> checked_post since b res r.
Proof.
  intros Hb Hf. unfold Replace.maybe_replace_checked.
  destruct (negb _); [intros [= <-]; by apply checked_output|].
  intros (new & _ & ([b' r'] & Hr & (_ & _ & [= <-])%obind_Ret)%obind_Ret)%obind_Ret.
  destruct (fres_input res) eqn:Hin; eauto using id_range_post, partial_post, classic_post.
Qed.

Lemma checked_ok since b res r : batch_wf since b -> result_fits b res ->
  Replace.maybe_replace_checked D b res = Ret r -> exists h, hb_desc h = hb_desc (fres_output res) /\ replace_post since b h r.
Proof. intros Hb Hf Hr. destruct (checked_made _ _ _ _ Hb Hf Hr) as (h & Hd & _ & Hp). by exists h. Qed.
End applying_checked.

(** ** Visiting the batches of a trace *)

Section visiting.
Context {T : Type} `{TimelyLaws T} {R : Type}.
Implicit Types (b : SpineBatch T) (bs : list (SpineBatch T)) (m : MergeState T) (ms xs ys : list (MergeState T)).
Context (f : SpineBatch T -> outcome (SpineBatch T * option R)).

(** A visit that stays with every batch it does not answer at. *)
Definition patient bs : Prop :=
  forall b b' r, b ∈ bs -> f b = Ret (b', r) -> r = None -> b' = b.

Lemma visit_batches_inv bs bs' r : patient bs -> Trace.visit_batches f bs = Ret (bs', r) ->
  match r with
  | None => bs' = bs
  | Some x => exists p b q b', bs = p ++ b :: q /\ f b = Ret (b', Some x) /\ bs' = p ++ b' :: q
  end.
Proof.
  revert bs' r. induction bs as [|b bs IH]; intros bs' r Hp; simpl; [by intros [= <- <-]|].
  intros ([bs1 r1] & Hv & Hr)%obind_Ret. assert (Hp' : patient bs) by (intros c c' rc Hc; apply Hp; by constructor).
  specialize (IH _ _ Hp' Hv). destruct r1 as [x|].
  - injection Hr as <- <-. destruct IH as (p & c & q & c' & -> & Hc & ->). by exists (b :: p), c, q, c'.
  - apply obind_Ret in Hr as ([b1 r2] & Hf & [= <- <-]). subst bs1. destruct r2 as [x|].
    + by exists [], b, bs, b1.
    + f_equal. eapply Hp; [by constructor|exact Hf|done].
Qed.

Lemma visit_levels_inv ms ms' r : patient (batches_of ms) -> Trace.visit_levels f ms = Ret (ms', r) ->
  match r with
  | None => ms' = ms
  | Some x => exists xs m ys p b q b', ms = xs ++ m :: ys /\ ms_batches m = p ++ b :: q /\ f b = Ret (b', Some x) /\
      ms' = xs ++ {| ms_batches := p ++ b' :: q; ms_merge := ms_merge m |} :: ys
  end.
Proof.
  revert ms' r. induction ms as [|m ms IH]; intros ms' r Hp; simpl; [by intros [= <- <-]|].
  intros ([bs r1] & Hv & Hr)%obind_Ret. rewrite batches_of_cons in Hp.
  apply visit_batches_inv in Hv; [|intros c c' rc Hc; apply Hp; apply elem_of_app; tauto].
  destruct r1 as [x|].
  - injection Hr as <- <-. destruct Hv as (p & b & q & b' & Hb & Hf & ->).
    by exists [], m, ms, p, b, q, b'.
  - apply obind_Ret in Hr as ([ms1 r2] & Hv' & [= <- <-]). subst bs.
    apply IH in Hv'; [|intros c c' rc Hc; apply Hp; apply elem_of_app; tauto].
    assert (Hm : {| ms_batches := ms_batches m; ms_merge := ms_merge m |} = m) by by destruct m.
    rewrite Hm. destruct r2 as [x|]; [|by subst].
    destruct Hv' as (xs & m' & ys & p & b & q & b' & -> & Hb & Hf & ->). by exists (m :: xs), m', ys, p, b, q, b'.
Qed.

(** A visit that panics nowhere returns. *)
Lemma visit_batches_total bs : Forall (fun b => is_ret (f b)) bs -> is_ret (Trace.visit_batches f bs).
Proof.
  induction 1 as [|b bs [[b' r] Hf] _ [[bs' r'] IH]]; [by eexists|]. simpl. rewrite IH. simpl.
  destruct r'; [by eexists|]. rewrite Hf. by eexists.
Qed.

Lemma visit_levels_total ms : Forall (fun b => is_ret (f b)) (batches_of ms) -> is_ret (Trace.visit_levels f ms).
Proof.
  induction ms as [|m ms IH]; [by eexists|]. rewrite batches_of_cons, Forall_app. intros [Hms Hm]. simpl.
  destruct (visit_batches_total _ Hm) as [[bs r] ->]. simpl. destruct r; [by eexists|].
  destruct (IH Hms) as [[ms' r'] ->]. by eexists.
Qed.
End visiting.

Section spine_replacement.
Context {T : Type} `{TimelyLaws T}.
Implicit Types (b : SpineBatch T) (bs : list (SpineBatch T)) (m : MergeState T) (ms xs ys : list (MergeState T)) (t : Trace T).

(** [b'] may stand in for [b] in a spine. *)
Definition stands_for (since : Antichain T) b b' : Prop :=
  batch_wf since b' /\ sb_id b' = sb_id b /\ SpineBatch.lower b' = SpineBatch.lower b /\
  SpineBatch.upper b' = SpineBatch.upper b /\ sb_len b' <= sb_len b.

Lemma stands_for_level since c n k m p b q b' : level_ok since c n k m -> ms_batches m = p ++ b :: q ->
  stands_for since b b' -> level_ok since c n k {| ms_batches := p ++ b' :: q; ms_merge := ms_merge m |}.
Proof.
  intros (Hs & Hf & Hb) E (Hw & Hid & _ & _ & Hlen). split_and!; [|done|].
  - unfold shape_ok in *. simpl. rewrite E in Hs. rewrite length_app in Hs |- *. simpl in Hs |- *.
    destruct (ms_merge m); [|done]. destruct Hs as (Hl & Hi & Hr). split_and!; try apply Hr; [done|].
    rewrite <- Hi. unfold MergeState.id. simpl. rewrite E, !last_app_cons.
    destruct p as [|b0 p]; simpl; (destruct q as [|b1 q]; [|rewrite !last_cons_cons]); unfold SpineBatch.id; simpl; by rewrite ?Hid.
  - simpl. rewrite E in Hb. rewrite Forall_app, Forall_cons in Hb |- *. destruct Hb as (? & [_ ?] & ?).
    split_and!; try done. lia.
Qed.

Lemma stands_for_levels since c k n xs m ys p b q b' :
  levels_ok since c k n (xs ++ m :: ys) -> ms_batches m = p ++ b :: q -> stands_for since b b' ->
  levels_ok since c k n (xs ++ {| ms_batches := p ++ b' :: q; ms_merge := ms_merge m |} :: ys).
Proof.
  rewrite !levels_ok_app. intros [Hx [Hm Hy]] E Hb. split; [done|]. split; [by eapply stands_for_level|].
  unfold level_records in *. simpl. rewrite E in Hy. rewrite length_app in Hy |- *. done.
Qed.

Lemma batches_of_middle xs m ys p b q : ms_batches m = p ++ b :: q ->
  batches_of (xs ++ m :: ys) = (batches_of ys ++ p) ++ b :: (q ++ batches_of xs).
Proof. intros E. rewrite batches_of_app, batches_of_cons, E. by rewrite <- !app_assoc. Qed.

(** Exchanging one batch of a spine. *)
Lemma stands_for_spine s xs m ys p b q b' :
  spine_ok s -> sp_merging s = xs ++ m :: ys -> ms_batches m = p ++ b :: q -> stands_for (sp_since s) b b' ->
  let m' := {| ms_batches := p ++ b' :: q; ms_merge := ms_merge m |} in
  spine_ok (Spine.with_merging s (xs ++ m' :: ys)) /\
  records 0 (xs ++ m' :: ys) = records 0 (sp_merging s).
Proof.
  intros [Hl Hc Ht He] E Em Hb. simpl. split; [split; simpl; try done|].
  - rewrite E in Hl. by eapply stands_for_levels.
  - unfold Spine.spine_batches in *. simpl. change (concat (ms_batches <$> rev ?l)) with (batches_of l) in *.
    rewrite E, (batches_of_middle _ _ _ _ _ _ Em) in Hc. rewrite (batches_of_middle _ _ _ p b' q) by done.
    rewrite fmap_app, fmap_cons in *. apply chain_app in Hc as (lo & g & Hc1 & Hlo & Hg & Hc2).
    apply chain_app. exists lo, g. split; [done|]. destruct Hb as (_ & Hid & Hlow & Hup & _).
    unfold batch_seg at 1. simpl in *. unfold SpineBatch.lower, SpineBatch.upper in *.
    rewrite Hid, Hlow, Hup. done.
  - rewrite E in Ht. destruct ys as [|y ys].
    + rewrite top_ok_snoc in Ht |- *. simpl. intros En. by apply app_eq_nil in En as [_ ?].
    + change (?a :: y :: ys) with ([a] ++ y :: ys) in *. rewrite app_assoc in Ht |- *.
      by rewrite top_ok_app in Ht |- *.
  - rewrite E, !records_app. simpl. unfold level_records. simpl. rewrite Em, !length_app. done.
Qed.

Lemma replaced_stands_for since b b' h : batch_wf since b' -> replaced_by b b' h -> stands_for since b b'.
Proof. intros Hw []. by split_and!. Qed.

(** What applying a compaction result does to a trace: nothing, or it
    replaces a stretch of hollow batches that tiles the times of the result
    by one batch. *)
Definition merge_post t h (tr : Trace T * ApplyMergeResult) : Prop :=
  let (t', r) := tr in
  spine_ok (tr_spine t') /\ Trace.since t' = Trace.since t /\ Trace.upper t' = Trace.upper t /\
  sp_next_id (tr_spine t') = sp_next_id (tr_spine t) /\
  records 0 (sp_merging (tr_spine t')) = records 0 (sp_merging (tr_spine t)) /\
  if ApplyMergeResult_applied r then
    exists pre mid post lo hi, Trace.batches t = pre ++ (ihb_batch <$> mid) ++ post /\
      Trace.batches t' = pre ++ h :: post /\ mid <> [] /\
      tiles lo (d_lower (hb_desc h)) mid hi (d_upper (hb_desc h))
  else t' = t.

Lemma with_spine_id t : Trace.with_spine t (Spine.with_merging (tr_spine t) (sp_merging (tr_spine t))) = t.
Proof. rewrite with_merging_id. by destruct t. Qed.

Lemma trace_batches_middle t xs m ys p b q :
  sp_merging (tr_spine t) = xs ++ m :: ys -> ms_batches m = p ++ b :: q ->
  Trace.batches t = (ihb_batch <$> concat (sb_parts <$> batches_of ys ++ p)) ++
    (ihb_batch <$> sb_parts b) ++ (ihb_batch <$> concat (sb_parts <$> q ++ batches_of xs)).
Proof.
  intros E Em. unfold Trace.batches, Spine.spine_batches. change (concat (ms_batches <$> rev ?l)) with (batches_of l).
  rewrite E, (batches_of_middle _ _ _ _ _ _ Em).
  rewrite fmap_app, fmap_cons, concat_app. cbn [concat]. by rewrite !fmap_app.
Qed.

Lemma apply_merge_post (F : SpineBatch T -> outcome (SpineBatch T * ApplyMergeResult))
    (Q : HollowBatch T -> Prop) h0 t tr :
  spine_ok (tr_spine t) -> Q h0 ->
  (forall b r, b ∈ Spine.spine_batches (tr_spine t) -> batch_wf (Trace.since t) b -> F b = Ret r ->
     exists h, Q h /\ replace_post (Trace.since t) b h r) ->
  Trace.apply_merge F t = Ret tr -> exists h, Q h /\ merge_post t h tr.
Proof.
  intros Hs Hq0 HF. unfold Trace.apply_merge, Trace.visit.
  intros ([t' r] & ([ms r1] & Hv & [= <- <-])%obind_Ret & [= <-])%obind_Ret.
  assert (Hwf : forall b, b ∈ Spine.spine_batches (tr_spine t) -> batch_wf (Trace.since t) b).
  { apply Forall_forall. apply (spine_batches_wf _ Hs). }
  assert (Hun : forall b b' r, b ∈ Spine.spine_batches (tr_spine t) -> F b = Ret (b', r) ->
    ApplyMergeResult_applied r = false -> b' = b).
  { intros b b' r Hb HFb Hr. destruct (HF _ _ Hb (Hwf _ Hb) HFb) as (h & _ & Hpost).
    unfold replace_post in Hpost. simpl in Hpost. by rewrite Hr in Hpost. }
  assert (Hsame : forall r, ApplyMergeResult_applied r = false -> merge_post t h0 (t, r)).
  { intros r Hr. simpl. rewrite Hr. by split_and!. }
  apply visit_levels_inv in Hv.
  2: { intros b b' r Hb Hf Hr. unfold Trace.until_matched in Hf.
       apply obind_Ret in Hf as ([b1 r2] & HFb & [= <- <-]). eapply Hun; [exact Hb|exact HFb|].
       by destruct r2. }
  destruct r1 as [r|]; [|subst ms; rewrite with_spine_id; exists h0; auto].
  destruct Hv as (xs & m & ys & p & b & q & b' & E & Em & Hf & ->).
  unfold Trace.until_matched in Hf. apply obind_Ret in Hf as ([b1 r2] & HFb & [= <- Hr]).
  destruct (ApplyMergeResult_matched r2) eqn:Hm; [|done]. injection Hr as <-.
  assert (Hin : b ∈ Spine.spine_batches (tr_spine t)).
  { unfold Spine.spine_batches. change (concat (ms_batches <$> rev ?l)) with (batches_of l).
    rewrite E, (batches_of_middle _ _ _ _ _ _ Em), elem_of_app, elem_of_cons. tauto. }
  destruct (ApplyMergeResult_applied r2) eqn:Ha.
  2: { rewrite (Hun _ _ _ Hin HFb Ha), <- Em. assert (Hmm : {| ms_batches := ms_batches m; ms_merge := ms_merge m |} = m) by by destruct m.
       rewrite Hmm, <- E, with_spine_id. exists h0. auto. }
  destruct (HF _ _ Hin (Hwf _ Hin) HFb) as (h & Hq & Hpost). unfold replace_post in Hpost. simpl in Hpost.
  rewrite Ha in Hpost. destruct Hpost as [Hw Hrep]. exists h. split; [done|].
  destruct (stands_for_spine _ _ _ _ _ _ _ _ Hs E Em (replaced_stands_for _ _ _ _ Hw Hrep)) as [Hok Hrec].
  simpl. rewrite Ha. split_and!; try done.
  destruct (rb_parts _ _ _ Hrep) as (pre & mid & post & i & Hp & Hne & Hp' & Ht).
  rewrite (trace_batches_middle t _ _ _ _ _ _ E Em), Hp.
  set (t' := Trace.with_spine _ _).
  rewrite (trace_batches_middle t' xs {| ms_batches := p ++ b1 :: q; ms_merge := ms_merge m |} ys p b1 q) by done.
  generalize (ihb_batch <$> concat (sb_parts <$> batches_of ys ++ p)) as l1.
  generalize (ihb_batch <$> concat (sb_parts <$> q ++ batches_of xs)) as l2. intros l2 l1.
  rewrite Hp', !fmap_app. exists (l1 ++ (ihb_batch <$> pre)), mid, ((ihb_batch <$> post) ++ l2), (sid_lo i), (sid_hi i).
  split_and!; try done; by rewrite <- !app_assoc.
Qed.
End spine_replacement.

(** ** The operations of a trace *)

Section trace_ops.
Context {T : Type} `{TimelyLaws T}.
Implicit Types (b : SpineBatch T) (t : Trace T) (h : HollowBatch T).

(** What readers of a trace see: its nonempty batches in order. *)
Definition trace_data t : list (HollowBatch T) := filter (fun h => hb_len h <> 0) (Trace.batches t).

Lemma trace_data_spine t : trace_data t = data_of (Spine.spine_batches (tr_spine t)).
Proof. done. Qed.

(** A batch that a trace accepts. *)
Record batch_fits t h : Prop := {
  bf_ok : hollow_ok h;
  bf_lower : d_lower (hb_desc h) = Trace.upper t;
  bf_since : less_equal (d_since (hb_desc h)) (Trace.since t) = true;
  bf_len : hb_len h <= 2 ^ 60;
  bf_room : records 0 (sp_merging (tr_spine t)) + 2 * 2 ^ Z.of_nat (Spine.level_of (hb_len h)) <= 2 ^ 60;
}.

Definition pushed t h t' : Prop :=
  spine_ok (tr_spine t') /\ Trace.since t' = Trace.since t /\ Trace.upper t' = d_upper (hb_desc h) /\
  trace_data t' = trace_data t ++ data_in h.

Lemma push_batch_ok t h : spine_ok (tr_spine t) -> batch_fits t h -> d_lower (hb_desc h) <> d_upper (hb_desc h) ->
  exists t' reqs, Trace.push_batch t h = Ret (t', reqs) /\ pushed t h t'.
Proof.
  intros Hs [Hok Hlow Hsin Hlen Hroom] Hne.
  destruct (insert_ok (tr_spine t) h (LogEnabled [])) as (s' & log & Hi & Hs' & Hsince & _ & Hup & Hd & _); try done.
  unfold Trace.push_batch. rewrite Hi. cbn [obind]. eexists _, _. split; [done|]. by split_and!.
Qed.

(** Claiming a compaction changes no batch that a reader sees. *)
Lemma claim_ok t i c : spine_ok (tr_spine t) ->
  exists t', Trace.claim_compaction t i c = Ret t' /\ spine_ok (tr_spine t') /\
    Trace.since t' = Trace.since t /\ Trace.upper t' = Trace.upper t /\ Trace.batches t' = Trace.batches t /\
    records 0 (sp_merging (tr_spine t')) = records 0 (sp_merging (tr_spine t)).
Proof.
  intros Hs. unfold Trace.claim_compaction, Trace.visit.
  destruct (visit_levels_total (Trace.claim_step i c) (sp_merging (tr_spine t))) as [[ms r] Hv].
  { apply Forall_forall. intros b _. unfold Trace.claim_step. case_bool_decide; by eexists. }
  rewrite Hv. cbn [obind]. eexists. split; [done|].
  apply visit_levels_inv in Hv.
  2: { intros b b' r' _ Hf Hr. unfold Trace.claim_step in Hf. case_bool_decide; by simplify_eq. }
  destruct r as [[]|]; [|subst ms; by rewrite with_spine_id].
  destruct Hv as (xs & m & ys & p & b & q & b' & E & Em & Hf & ->).
  unfold Trace.claim_step in Hf. case_bool_decide; [|done]. injection Hf as <-. set (b' := {| sb_id := sb_id b |}).
  assert (Hw : batch_wf (sp_since (tr_spine t)) b).
  { pose proof (spine_batches_wf _ Hs) as Hall. unfold Spine.spine_batches in Hall.
    change (concat (ms_batches <$> rev ?l)) with (batches_of l) in Hall.
    rewrite E, (batches_of_middle _ _ _ _ _ _ Em), Forall_app, Forall_cons in Hall. tauto. }
  assert (Hst : stands_for (sp_since (tr_spine t)) b b').
  { split_and!; [|done|done|done|simpl; lia]. destruct Hw. by split. }
  destruct (stands_for_spine _ _ _ _ _ _ _ _ Hs E Em Hst) as [Hok Hrec]. split_and!; try done.
  rewrite (trace_batches_middle t _ _ _ _ _ _ E Em). set (t' := Trace.with_spine _ _).
  by rewrite (trace_batches_middle t' xs {| ms_batches := p ++ b' :: q; ms_merge := ms_merge m |} ys p b' q).
Qed.

Lemma claims_ok {A} (f : A -> SpineId) (c : ActiveCompaction) (l : list A) t : spine_ok (tr_spine t) ->
  exists t', foldM (fun t a => Trace.claim_compaction t (f a) c) l t = Ret t' /\ spine_ok (tr_spine t') /\
    Trace.since t' = Trace.since t /\ Trace.upper t' = Trace.upper t /\ Trace.batches t' = Trace.batches t /\
    records 0 (sp_merging (tr_spine t')) = records 0 (sp_merging (tr_spine t)).
Proof.
  revert t. induction l as [|a l IH]; intros t Hs; [by exists t|]. simpl.
  destruct (claim_ok t (f a) c Hs) as (t1 & -> & Hs1 & ? & ? & ? & ?). cbn [obind].
  destruct (IH t1 Hs1) as (t2 & -> & Hs2 & ? & ? & ? & ?). exists t2. split_and!; congruence.
Qed.

Lemma trace_exert_ok t fuel : spine_ok (tr_spine t) -> 0 <= fuel <= 2 ^ 60 ->
  records 0 (sp_merging (tr_spine t)) + 2 * 2 ^ Z.of_nat (Spine.level_of fuel) <= 2 ^ 60 ->
  exists t' reqs worked, Trace.exert t fuel = Ret (t', reqs, worked) /\ spine_ok (tr_spine t') /\
    Trace.since t' = Trace.since t /\ Trace.upper t' = Trace.upper t /\ trace_data t' = trace_data t.
Proof.
  intros Hs Hf Hb. destruct (exert_ok (tr_spine t) fuel (LogEnabled []) Hs Hf Hb)
    as (s' & worked & log & He & Hs' & Hsince & _ & Hup & Hd & _).
  unfold Trace.exert. rewrite He. cbn [obind]. eexists _, _, _. split; [done|]. by split_and!.
Qed.
End trace_ops.

(** ** The times the batches of a trace cover *)

Section frontier_chain.
Context {T : Type} `{TimelyLaws T}.
Implicit Types (f u : Antichain T) (h : HollowBatch T) (hs pre post : list (HollowBatch T)) (t : Trace T).

(** The batches line up from [f] to [u]. *)
Fixpoint hchain f hs u : Prop :=
  match hs with
  | [] => f = u
  | h :: hs' => d_lower (hb_desc h) = f /\ hchain (d_upper (hb_desc h)) hs' u
  end.

Lemma hchain_app f pre post u : hchain f (pre ++ post) u <-> exists g, hchain f pre g /\ hchain g post u.
Proof.
  revert f. induction pre as [|h pre IH]; intros f; simpl.
  - split; [by exists f|]. by intros (g & -> & ?).
  - rewrite IH. split; [intros (? & g & ? & ?); by exists g|]. intros (g & [? ?] & ?). split; [done|by exists g].
Qed.

Lemma tiles_hchain lo f ps hi u : tiles lo f ps hi u -> hchain f (ihb_batch <$> ps) u.
Proof.
  revert lo f. induction ps as [|p ps IH]; intros lo f; [by intros [_ ->]|].
  intros (_ & <- & Ht). rewrite fmap_cons. split; [done|]. by eapply IH.
Qed.

Lemma hchain_le f hs u : hchain f hs u -> Forall hollow_ok hs ->
  less_equal f u = true /\ Forall (fun h => less_equal f (d_lower (hb_desc h)) = true /\
                                            less_equal (d_upper (hb_desc h)) u = true) hs.
Proof.
  revert f. induction hs as [|h hs IH]; intros f; simpl; [intros -> _; split; [apply le_refl|constructor]|].
  intros [<- Hc] Ho. inversion_clear Ho as [|?? Hh Ho']. destruct (IH _ Hc Ho') as [Hu Hall].
  pose proof (ho_ordered _ Hh) as Hle. split; [by eapply le_trans|]. constructor; [split; [apply le_refl|done]|].
  eapply Forall_impl; [exact Hall|]. intros x [? ?]. split; [by eapply le_trans|done].
Qed.

(** The parts of all batches tile what the batches tile. *)
Lemma parts_tile since bs lo f hi u : chain lo f (batch_seg <$> bs) hi u -> Forall (batch_wf since) bs ->
  tiles lo f (concat (sb_parts <$> bs)) hi u.
Proof.
  revert lo f. induction bs as [|b bs IH]; intros lo f; [done|]. intros (<- & <- & Hc) Hb.
  inversion_clear Hb as [|?? Hb1 Hb2]. rewrite fmap_cons. cbn [concat]. apply tiles_app.
  eexists _, _. split; [apply (bw_chain _ _ Hb1)|]. by apply IH.
Qed.

Lemma trace_hchain t : spine_ok (tr_spine t) -> hchain min_frontier (Trace.batches t) (Trace.upper t).
Proof.
  intros Hs. eapply tiles_hchain, (parts_tile (sp_since (tr_spine t))); [apply (so_chain _ Hs)|by apply spine_batches_wf].
Qed.

Lemma trace_hollow t : spine_ok (tr_spine t) -> Forall hollow_ok (Trace.batches t).
Proof.
  intros Hs. pose proof (spine_batches_wf _ Hs) as Hw. unfold Trace.batches. rewrite Forall_fmap.
  induction Hw as [|b bs Hb _ IH]; [constructor|]. rewrite fmap_cons. cbn [concat]. apply Forall_app.
  split; [apply (bw_parts _ _ Hb)|done].
Qed.

(** A nonempty range of times is where it is: a batch whose range a stretch
    covers lies in the stretch. *)
Lemma hchain_within f pre mid post u l r h : hchain f (pre ++ mid ++ post) u -> Forall hollow_ok (pre ++ mid ++ post) ->
  hchain l mid r -> mid <> [] -> h ∈ pre ++ mid ++ post -> d_lower (hb_desc h) = l -> d_upper (hb_desc h) = r ->
  less_than l r = true -> h ∈ mid.
Proof.
  intros Hc Ho Hm Hne Hin Hl Hr Hlt.
  apply hchain_app in Hc as (g & Hpre & (g' & Hmid & Hpost)%hchain_app).
  apply Forall_app in Ho as [Ho1 [Ho2 Ho3]%Forall_app].
  assert (g = l /\ g' = r) as [-> ->].
  { destruct mid as [|x mid]; [done|]. simpl in Hm, Hmid. destruct Hm as [<- Hm], Hmid as [<- Hmid]. split; [done|].
    revert Hm Hmid. generalize (d_upper (hb_desc x)). clear. induction mid as [|y mid IH]; intros a; simpl; [by intros <- <-|].
    intros [_ ?] [_ ?]. by eapply IH. }
  assert (Hno : less_equal r l = true -> False).
  { intros Hrl. pose proof (lt_le_trans _ _ _ Hlt Hrl) as Hll. by rewrite less_than_irrefl in Hll. }
  apply elem_of_app in Hin as [Hin|[Hin|Hin]%elem_of_app]; [|done|]; exfalso; apply Hno.
  - apply hchain_le in Hpre as [_ Hall]; [|done]. rewrite Forall_forall in Hall. destruct (Hall h Hin) as [_ Hle]. by rewrite Hr in Hle.
  - apply hchain_le in Hpost as [_ Hall]; [|done]. rewrite Forall_forall in Hall. destruct (Hall h Hin) as [Hle _]. by rewrite Hl in Hle.
Qed.
End frontier_chain.

(** ** Results that are not too long *)

Section applied.
Context {T : Type} `{TimelyLaws T}.
Implicit Types (b : SpineBatch T) (h : HollowBatch T).

Lemma perform_applied since b h pre mid post i nac r :
  batch_wf since b -> sb_parts b = pre ++ mid ++ post -> hb_len h <= SpineBatch.parts_len mid ->
  Replace.perform_subset_replacement b h i (length pre, length pre + length mid)%nat nac = Ret r ->
  ApplyMergeResult_applied r.2 = true.
Proof.
  intros Hb Hp Hlen. unfold Replace.perform_subset_replacement. rewrite Hp. simpl.
  rewrite !length_app, !(proj2 (Nat.leb_le _ _)) by lia. cbn [assert_ obind].
  rewrite take_app_length. replace (length pre + length mid)%nat with (length (pre ++ mid)) by by rewrite length_app.
  rewrite app_assoc, drop_app_length, length_app.
  rewrite (proj2 (Z.ltb_ge _ _)); [intros [= <-]; by case_match|].
  unfold SpineBatch.len. cbn [sb_len]. rewrite (bw_len _ _ Hb), Hp. unfold SpineBatch.parts_len in *.
  rewrite fmap_app, sumZ_app, fmap_cons, !fmap_app, !sumZ_app. simpl. unfold sumZ in *. simpl. lia.
Qed.

Lemma tombstone_applied since b desc r :
  batch_wf since b -> less_than (d_lower desc) (d_upper desc) = true ->
  Replace.maybe_replace_with_tombstone b desc = Ret r -> ApplyMergeResult_matched r.2 = true ->
  ApplyMergeResult_applied r.2 = true.
Proof.
  intros Hb Hlt. unfold Replace.maybe_replace_with_tombstone.
  destruct (Replace.exact_match b desc); [by intros [= <-]|].
  destruct (Replace.find_replacement_range b desc) as [[i range]|] eqn:E; [|by intros [= <-]].
  destruct (find_replacement_ok _ _ _ _ _ Hb Hlt E) as (pre & mid & post & Hp & _ & -> & _).
  intros Hr _. eapply (perform_applied since b); [done|exact Hp| |exact Hr]. simpl.
  pose proof (bw_nonneg _ _ Hb) as Hnn. rewrite Hp in Hnn. apply Forall_app in Hnn as [_ [Hnn _]%Forall_app].
  by apply parts_len_nonneg.
Qed.
End applied.
