(* ===== verification/FlatFacts.v ===== *)
(** * Flattened traces: the round trip

    Flattening a trace never fails one of its assertions, and the flattened
    trace is put together again as the same trace, level by level, whatever
    descriptions of the parts it carries as long as their bounds are right. *)

From S2P Require Import Prelude Compare Timely BTree Paths Batch BatchFacts Order Diff Spine SpineFacts SpineCorrect Trace TraceFacts FlatTrace.

Local Open Scope Z_scope.

(** ** Sorting *)

Section sorting.
Context {A : Type} (cmp : A -> A -> comparison).
Implicit Types l : list A.

Lemma insert_by_perm x l : Unflatten.insert_by cmp x l ≡ₚ x :: l.
Proof.
  induction l as [|y l IH]; simpl; [done|]. destruct (cmp x y); [done|done|]. rewrite IH. apply perm_swap.
Qed.

Lemma sort_by_perm l : Unflatten.sort_by cmp l ≡ₚ l.
Proof. induction l as [|x l IH]; simpl; [done|]. by rewrite insert_by_perm, IH. Qed.

(** The comparison orders the elements of [l] totally. *)
Record ordered_by l : Prop := {
  ob_opp : forall x y, x ∈ l -> y ∈ l -> cmp y x = CompOpp (cmp x y);
  ob_trans : forall x y z, x ∈ l -> y ∈ l -> z ∈ l -> cmp x y <> Gt -> cmp y z <> Gt -> cmp x z <> Gt;
}.

Lemma sort_by_sorted l : ordered_by l -> StronglySorted (fun x y => cmp x y <> Gt) (Unflatten.sort_by cmp l).
Proof.
  intros [Hopp Htr].
  assert (Hins : forall x l', x ∈ l -> (forall y, y ∈ l' -> y ∈ l) ->
    StronglySorted (fun x y => cmp x y <> Gt) l' -> StronglySorted (fun x y => cmp x y <> Gt) (Unflatten.insert_by cmp x l')).
  { intros x l' Hx. induction l' as [|y l' IH]; intros Hsub Hs; simpl; [by repeat constructor|].
    inversion_clear Hs as [|?? Hs' Hall]. assert (Hy : y ∈ l) by (apply Hsub, elem_of_cons; by left).
    assert (Hl' : forall z, z ∈ l' -> z ∈ l) by (intros; apply Hsub, elem_of_cons; by right).
    assert (Hin : cmp x y <> Gt -> StronglySorted (fun x y => cmp x y <> Gt) (x :: y :: l')).
    { intros E. constructor; [by constructor|]. constructor; [done|]. rewrite Forall_forall in *.
      intros z Hz. by apply (Htr x y z); auto. }
    destruct (cmp x y) eqn:E; [by apply Hin|by apply Hin|]. constructor; [by apply IH|].
    rewrite insert_by_perm. constructor; [|done]. by rewrite (Hopp x y), E. }
  assert (Hall : forall l', (forall y, y ∈ l' -> y ∈ l) -> StronglySorted (fun x y => cmp x y <> Gt) (Unflatten.sort_by cmp l')).
  { induction l' as [|x l' IH]; intros Hsub; simpl; [constructor|]. apply Hins.
    - apply Hsub, elem_of_cons. by left.
    - intros y Hy. rewrite sort_by_perm in Hy. apply Hsub, elem_of_cons. by right.
    - apply IH. intros y Hy. apply Hsub, elem_of_cons. by right. }
  by apply Hall.
Qed.
End sorting.

(** ** Maps that are filled one entry after the other *)

Section maps.
Context {K V : Type} `{KeyCmp K} `{!CmpLaws (key_cmp (K := K))}.
Implicit Types (m l : BTreeMap K V).

(** [m] holds exactly the entries of [l]. *)
Definition holds m l : Prop := CMap.sorted m /\ m ≡ₚ l.

Lemma holds_nil : holds [] [].
Proof. split; [constructor|done]. Qed.

Lemma holds_nil_inv m : holds m [] -> m = [].
Proof. intros [_ Hp]. by apply Permutation_nil_r. Qed.

Lemma holds_get_none m l k : holds m l -> Forall (fun kv => key_cmp k kv.1 <> Eq) l -> CMap.get k m = None.
Proof.
  intros [_ Hp] Hl. destruct (CMap.get k m) as [v|] eqn:E; [|done].
  apply CMap.get_elem_of in E as (k' & Ek & Hin). rewrite Hp in Hin. rewrite Forall_forall in Hl. by apply Hl in Hin.
Qed.

Lemma holds_insert m l k v : holds m l -> Forall (fun kv => key_cmp k kv.1 <> Eq) l ->
  holds (CMap.insert k v m) (l ++ [(k, v)]).
Proof.
  intros Hm Hl. pose proof (holds_get_none _ _ _ Hm Hl) as Hg. destruct Hm as [Hs Hp]. split; [by apply CMap.cmap_sorted_insert|].
  rewrite CMap.insert_perm by done. rewrite Hp. apply Permutation_cons_append.
Qed.

Lemma holds_get m l k v : holds m ((k, v) :: l) -> CMap.get k m = Some v.
Proof. intros [Hs Hp]. apply CMap.cmap_elem_of_get; [done|]. rewrite Hp. apply elem_of_cons. by left. Qed.

Lemma remove_filter k m : CMap.remove k m = filter (fun kv => key_cmp k kv.1 <> Eq) m.
Proof.
  induction m as [|[k' v'] m IH]; [done|]. rewrite filter_cons. simpl. rewrite IH.
  destruct (key_cmp k k') eqn:E.
  - by rewrite decide_False by auto.
  - by rewrite decide_True.
  - by rewrite decide_True.
Qed.

Lemma holds_remove_other m l k : holds m l -> Forall (fun kv => key_cmp k kv.1 <> Eq) l -> holds (CMap.remove k m) l.
Proof.
  intros [Hs Hp] Hl. split; [by apply CMap.cmap_sorted_remove|]. rewrite remove_filter, Hp. by rewrite filter_all.
Qed.

Lemma holds_remove m l k v : holds m ((k, v) :: l) -> Forall (fun kv => key_cmp k kv.1 <> Eq) l ->
  holds (CMap.remove k m) l.
Proof.
  intros [Hs Hp] Hl. split; [by apply CMap.cmap_sorted_remove|]. rewrite remove_filter, Hp.
  rewrite filter_cons_False; [by rewrite filter_all|]. simpl. rewrite (cmp_refl _). auto.
Qed.

Lemma holds_unique m l : holds m l -> CMap.sorted l -> m = l.
Proof. intros [Hs Hp] Hl. by apply CMap.sorted_unique. Qed.
End maps.

(** Keys that are not there, by equality. *)
Lemma fresh_keys {K V} `{KeyOrd K} (k : K) (l : BTreeMap K V) : k ∉ fst <$> l -> Forall (fun kv => key_cmp k kv.1 <> Eq) l.
Proof.
  intros Hk. apply Forall_forall. intros kv Hin E. apply cmp_eq in E as ->. apply Hk. by apply list_elem_of_fmap_2.
Qed.

(** ** What a flattened trace consists of *)

Section content.
Context {T : Type} `{TL : TimelyLaws T}.
Implicit Types (b : SpineBatch T) (m : MergeState T) (ms xs : list (MergeState T)) (ps : list (IdHollowBatch T)).

Definition range_empty (p : IdHollowBatch T) : Prop := d_lower (hb_desc (ihb_batch p)) = d_upper (hb_desc (ihb_batch p)).

#[export] Instance range_empty_dec p : Decision (range_empty p).
Proof. unfold range_empty. apply _. Defined.

(** The parts stored by id, and those stored by their range of times. *)
Definition by_id ps : BTreeMap SpineId (HollowBatch T) := (fun p => (ihb_id p, ihb_batch p)) <$> filter range_empty ps.
Definition by_range ps : list (HollowBatch T) := ihb_batch <$> filter (fun p => ~ range_empty p) ps.

Definition parts_of ms : list (IdHollowBatch T) := concat (sb_parts <$> batches_of ms).

(** The thin batches, oldest first. *)
Definition level_thins (k : nat) m : BTreeMap SpineId (ThinSpineBatch T) :=
  (fun b => (sb_id b, Flatten.thin k b)) <$> ms_batches m.
Definition thins_of ms : BTreeMap SpineId (ThinSpineBatch T) := concat (rev (imap level_thins ms)).

(** The ids under which a merge may be recorded, and the merges that are. *)
Definition batch_entry b : SpineId * option (ThinMerge T) := (sb_id b, (fun _ => ThinMerge.fueled b) <$> sb_active_compaction b).
Definition merge_entry m : list (SpineId * option (ThinMerge T)) :=
  match ms_merge m with Some im => [(ifm_id im, Some (ThinMerge.fueling (ifm_merge im)))] | None => [] end.
Definition level_entries m : list (SpineId * option (ThinMerge T)) := (batch_entry <$> ms_batches m) ++ merge_entry m.
Definition entries_of ms : list (SpineId * option (ThinMerge T)) := concat (level_entries <$> rev ms).
Definition entry_merge (e : SpineId * option (ThinMerge T)) : option (SpineId * ThinMerge T) := pair e.1 <$> e.2.
Definition recorded (es : list (SpineId * option (ThinMerge T))) : BTreeMap SpineId (ThinMerge T) := omap entry_merge es.

Lemma by_id_app ps ps' : by_id (ps ++ ps') = by_id ps ++ by_id ps'.
Proof. unfold by_id. by rewrite filter_app, fmap_app. Qed.
Lemma by_range_app ps ps' : by_range (ps ++ ps') = by_range ps ++ by_range ps'.
Proof. unfold by_range. by rewrite filter_app, fmap_app. Qed.
Lemma recorded_app es es' : recorded (es ++ es') = recorded es ++ recorded es'.
Proof. unfold recorded. by rewrite omap_app. Qed.

Lemma batches_of_snoc xs m : batches_of (xs ++ [m]) = ms_batches m ++ batches_of xs.
Proof. rewrite batches_of_app. f_equal. unfold batches_of. simpl. apply app_nil_r. Qed.

Lemma parts_of_snoc xs m : parts_of (xs ++ [m]) = concat (sb_parts <$> ms_batches m) ++ parts_of xs.
Proof. unfold parts_of. by rewrite batches_of_snoc, fmap_app, concat_app. Qed.

Lemma thins_of_snoc xs m : thins_of (xs ++ [m]) = level_thins (length xs) m ++ thins_of xs.
Proof.
  unfold thins_of. rewrite imap_app, rev_app_distr, concat_app. simpl. by rewrite Nat.add_0_r, app_nil_r.
Qed.

Lemma entries_of_snoc xs m : entries_of (xs ++ [m]) = level_entries m ++ entries_of xs.
Proof. unfold entries_of. rewrite rev_app_distr, fmap_app, concat_app. simpl. by rewrite app_nil_r. Qed.

Lemma recorded_keys es i : i ∉ es.*1 -> i ∉ (recorded es).*1.
Proof.
  intros Hi (x & -> & (e & He & Hx)%list_elem_of_omap)%list_elem_of_fmap. apply Hi.
  unfold entry_merge in Hx. destruct (e.2); [|done]. injection Hx as <-. simpl. by apply list_elem_of_fmap_2.
Qed.

(** *** Ids are in ascending order *)

Definition ascending (l : list (seg (T := T))) : Prop := StronglySorted (fun x y => (sid_hi x.1 <= sid_lo y.1)%N) l.

Lemma chain_ascending lo f l hi u : chain lo f l hi u -> Forall (fun s => (sid_lo s.1 < sid_hi s.1)%N) l ->
  ascending l /\ Forall (fun s => (lo <= sid_lo s.1 /\ sid_hi s.1 <= hi)%N) l.
Proof.
  revert lo f. induction l as [|[i d] l IH]; intros lo f Hc Hf; [split; constructor|].
  destruct Hc as (<- & _ & Hc). inversion_clear Hf as [|?? Hi Hl]. destruct (IH _ _ Hc Hl) as [Ha Hb].
  pose proof (chain_lo_hi _ _ _ _ _ Hc Hl) as [? _]. simpl in Hi. split; constructor; simpl; try done; try lia.
  - eapply Forall_impl; [exact Hb|]. simpl. lia.
  - eapply Forall_impl; [exact Hb|]. simpl. lia.
Qed.

Lemma ascending_nodup l : ascending l -> Forall (fun s => (sid_lo s.1 < sid_hi s.1)%N) l -> NoDup l.*1.
Proof.
  induction 1 as [|s l _ IH Hall]; intros Hf; simpl; [constructor|]. inversion_clear Hf as [|?? Hs Hl].
  constructor; [|by apply IH]. intros (s' & Heq & Hin)%list_elem_of_fmap. rewrite Forall_forall in Hall.
  apply Hall in Hin. rewrite <- Heq in Hin. lia.
Qed.

Lemma part_ids_nodup lo f ps hi u : tiles lo f ps hi u -> Forall id_ok ps -> NoDup (ihb_id <$> ps).
Proof.
  intros Ht Hid. assert (Hf : Forall (fun s => (sid_lo s.1 < sid_hi s.1)%N) (part_seg <$> ps)) by (by apply Forall_fmap).
  destruct (chain_ascending _ _ _ _ _ Ht Hf) as [Ha _]. apply ascending_nodup in Ha; [|done].
  by rewrite <- list_fmap_compose in Ha.
Qed.

(** The thin batches are in the order of their ids. *)
Lemma segs_sorted {V} (l : list (seg (T := T))) (m : BTreeMap SpineId V) :
  ascending l -> Forall (fun s => (sid_lo s.1 < sid_hi s.1)%N) l -> m.*1 = l.*1 -> CMap.sorted m.
Proof.
  intros Ha. revert m. induction Ha as [|s l _ IH Hall]; intros [|[k v] m] Hf Heq; try done; [constructor|].
  inversion_clear Hf as [|?? Hs Hl]. injection Heq as -> Heq. change (m.*1 = l.*1) in Heq. apply CMap.cmap_sorted_cons. split; [|by apply IH].
  apply Forall_forall. intros kv Hin. apply ord_key_lt. simpl.
  assert (Hin' : kv.1 ∈ m.*1) by (by apply list_elem_of_fmap_2). rewrite Heq in Hin'.
  apply list_elem_of_fmap in Hin' as (s' & Hk & Hs'). rewrite Forall_forall in Hall. apply Hall in Hs'.
  unfold SpineId_ltb. rewrite Hk. apply orb_true_iff. left. apply N.ltb_lt. lia.
Qed.

Lemma thins_keys ms : (thins_of ms).*1 = (batch_seg <$> batches_of ms).*1.
Proof.
  induction ms as [|m ms IH] using rev_ind; [done|]. rewrite thins_of_snoc, batches_of_snoc, !fmap_app, IH.
  f_equal. unfold level_thins. by rewrite <- !list_fmap_compose.
Qed.

(** The ids of a level are within its range, and no two are the same. *)
Lemma level_entries_ok since lo f m hi u : shape_ok since m -> Forall (batch_wf since) (ms_batches m) ->
  chain lo f (batch_seg <$> ms_batches m) hi u ->
  NoDup (level_entries m).*1 /\ Forall (fun e => (lo <= sid_lo e.1 < hi)%N) (level_entries m).
Proof.
  intros Hs Hb Hc. unfold level_entries, merge_entry, shape_ok, MergeState.id in *.
  destruct (ms_batches m) as [|b1 [|b2 [|]]]; destruct (ms_merge m) as [im|]; simpl in *; try lia.
  - split; constructor.
  - inversion_clear Hb as [|?? Hb1 _]. pose proof (bw_id _ _ Hb1). destruct Hc as (<- & _ & <- & _).
    split; [apply NoDup_singleton|]. apply Forall_singleton. simpl. lia.
  - inversion_clear Hb as [|?? Hb1 Hb']. inversion_clear Hb' as [|?? Hb2 _]. pose proof (bw_id _ _ Hb1). pose proof (bw_id _ _ Hb2).
    destruct Hc as (<- & _ & Hmid & _ & <- & _). destruct Hs as (_ & [= Hid] & _). unfold SpineBatch.id in Hid.
    split; [|repeat (constructor; simpl); rewrite <- ?Hid; simpl; lia].
    rewrite <- Hid. destruct (sb_id b1) as [x y], (sb_id b2) as [y' z]. simpl in *. subst y'.
    repeat (constructor; rewrite ?elem_of_cons, ?elem_of_nil); intros Hx; destruct_or?; simplify_eq; lia.
Qed.

Lemma entries_ok since lo f ms hi u : Forall (shape_ok since) ms -> Forall (batch_wf since) (batches_of ms) ->
  chain lo f (batch_seg <$> batches_of ms) hi u ->
  NoDup (entries_of ms).*1 /\ Forall (fun e => (lo <= sid_lo e.1 < hi)%N) (entries_of ms).
Proof.
  revert lo f. induction ms as [|m ms IH] using rev_ind; intros lo f Hs Hb Hc; [split; constructor|].
  rewrite batches_of_snoc in Hb, Hc.
  apply Forall_app in Hs as [Hs Hm], Hb as [Hbm Hb]. apply Forall_cons_1 in Hm as [Hm _].
  rewrite fmap_app in Hc. apply chain_app in Hc as (mid & g & Hc1 & Hc2).
  destruct (level_entries_ok since _ _ m _ _ Hm Hbm Hc1) as [Hn1 Hf1]. destruct (IH _ _ Hs Hb Hc2) as [Hn2 Hf2].
  assert (Hlm : (lo <= mid)%N /\ (mid <= hi)%N).
  { split.
    - eapply chain_lo_hi; [exact Hc1|]. apply Forall_fmap. eapply Forall_impl; [exact Hbm|]. intros b Hw. apply (bw_id _ _ Hw).
    - eapply chain_lo_hi; [exact Hc2|]. apply Forall_fmap. eapply Forall_impl; [exact Hb|]. intros b Hw. apply (bw_id _ _ Hw). }
  rewrite entries_of_snoc. split.
  - rewrite fmap_app. apply NoDup_app. split_and!; [done| |done].
    intros i (e & -> & He)%list_elem_of_fmap (e' & Heq & He')%list_elem_of_fmap.
    rewrite Forall_forall in Hf1, Hf2. apply Hf1 in He. apply Hf2 in He'. rewrite Heq in He. lia.
  - apply Forall_app. split; [eapply Forall_impl; [exact Hf1|]|eapply Forall_impl; [exact Hf2|]]; simpl; lia.
Qed.
End content.

(** ** Flattening *)

Section flattening.
Context {T : Type} `{TL : TimelyLaws T} `{TO : !TimelyOrd T} `{TOL : !TimelyOrdLaws T}.
Implicit Types (b : SpineBatch T) (m : MergeState T) (ms xs : list (MergeState T)) (ps : list (IdHollowBatch T)).
Implicit Types (f : FlatTrace T) (th : BTreeMap SpineId (ThinSpineBatch T)) (es : list (SpineId * option (ThinMerge T))).

(** [f] holds the parts, the thin batches and the merges given. *)
Record flat_holds (since : Antichain T) f ps th es : Prop := {
  fh_since : ft_since f = since;
  fh_legacy : holds (ft_legacy_batches f) ((fun h => (h, tt)) <$> by_range ps);
  fh_hollow : holds (ft_hollow_batches f) (by_id ps);
  fh_spine : holds (ft_spine_batches f) th;
  fh_merges : holds (ft_merges f) (recorded es);
}.

(** No id and no lower is used twice. *)
Record distinct ps th es : Prop := {
  di_parts : NoDup (ihb_id <$> ps);
  di_lowers : NoDup ((fun h => d_lower (hb_desc h)) <$> by_range ps);
  di_thins : NoDup th.*1;
  di_entries : NoDup es.*1;
}.

Lemma distinct_prefix ps ps' th th' es es' : distinct (ps ++ ps') (th ++ th') (es ++ es') -> distinct ps th es.
Proof.
  intros [H1 H2 H3 H4]. rewrite by_range_app in H2. rewrite !fmap_app in *.
  apply NoDup_app in H1 as (? & _ & _), H2 as (? & _ & _), H3 as (? & _ & _), H4 as (? & _ & _). done.
Qed.

Lemma snoc_fresh {A} (l : list A) x : NoDup (l ++ [x]) -> x ∉ l.
Proof. intros (_ & Hd & _)%NoDup_app Hin. apply (Hd x Hin). by apply list_elem_of_singleton. Qed.

Lemma push_part_holds since f ps th es p : flat_holds since f ps th es -> distinct (ps ++ [p]) th es ->
  flat_holds since (Flatten.push_part f p) (ps ++ [p]) th es.
Proof.
  intros [H0 H1 H2 H3 H4] [Hd1 Hd2 _ _]. rewrite fmap_app in Hd1. apply snoc_fresh in Hd1. unfold Flatten.push_part.
  destruct (decide (range_empty p)) as [He|Hne].
  - rewrite bool_decide_eq_true_2 by done. split; simpl; try done; rewrite ?by_range_app, ?by_id_app.
    + unfold by_range at 2. rewrite filter_cons_False by tauto. by rewrite app_nil_r.
    + unfold by_id at 2. rewrite filter_cons_True by done. simpl. apply holds_insert; [done|].
      apply fresh_keys. intros (kv & Heq & (q & -> & [_ Hq]%list_elem_of_filter)%list_elem_of_fmap)%list_elem_of_fmap.
      apply Hd1. simpl in Heq. rewrite Heq. by apply list_elem_of_fmap_2.
  - rewrite bool_decide_eq_false_2 by done. split; simpl; try done; rewrite ?by_range_app, ?by_id_app.
    + rewrite by_range_app, fmap_app in Hd2. unfold by_range at 2 in Hd2. unfold by_range at 2.
      rewrite filter_cons_True in * by done. simpl in *. rewrite fmap_app. apply holds_insert; [done|].
      apply snoc_fresh in Hd2. apply Forall_fmap, Forall_forall. intros h Hh E. apply Hd2.
      apply list_elem_of_fmap. exists h. split; [|done]. simpl in E.
      destruct (decide (d_lower (hb_desc (ihb_batch p)) = d_lower (hb_desc h))) as [->|Hl]; [done|].
      unfold key_cmp, batch_key_cmp in E. rewrite HollowBatch_cmp_lower in E by done. by apply elements_eq in E.
    + unfold by_id at 2. rewrite filter_cons_False by done. by rewrite app_nil_r.
Qed.

Lemma push_parts_holds since qs f ps th es : flat_holds since f ps th es -> distinct (ps ++ qs) th es ->
  flat_holds since (foldl Flatten.push_part f qs) (ps ++ qs) th es.
Proof.
  revert f ps. induction qs as [|q qs IH]; intros f ps Hf Hd; simpl; [by rewrite app_nil_r|].
  rewrite cons_middle, app_assoc in Hd |- *. apply IH; [|done]. apply push_part_holds; [done|].
  apply (distinct_prefix _ qs _ [] _ []). by rewrite !app_nil_r.
Qed.

Lemma recorded_entry i o : recorded [(i, o)] = match o with Some x => [(i, x)] | None => [] end.
Proof. by destruct o. Qed.

Lemma record_merge_holds since f ps th es i x : flat_holds since f ps th es -> distinct ps th (es ++ [(i, Some x)]) ->
  exists f', Flatten.record_merge f i x = Ret f' /\ flat_holds since f' ps th (es ++ [(i, Some x)]).
Proof.
  intros [H0 H1 H2 H3 H4] [_ _ _ Hd]. rewrite fmap_app in Hd. apply snoc_fresh in Hd. simpl in Hd. apply recorded_keys, fresh_keys in Hd.
  unfold Flatten.record_merge. rewrite (holds_get_none _ _ _ H4 Hd). simpl. eexists. split; [done|].
  split; simpl; try done. rewrite recorded_app. by apply holds_insert.
Qed.

Lemma flatten_batch_holds since f ps th es k b : flat_holds since f ps th es ->
  distinct (ps ++ sb_parts b) (th ++ [(sb_id b, Flatten.thin k b)]) (es ++ [batch_entry b]) ->
  exists f', Flatten.flatten_batch k f b = Ret f' /\
    flat_holds since f' (ps ++ sb_parts b) (th ++ [(sb_id b, Flatten.thin k b)])
      (es ++ [batch_entry b]).
Proof.
  intros Hf Hd. assert (Hp : flat_holds since (Flatten.push_spine_batch k f b) (ps ++ sb_parts b) (th ++ [(sb_id b, Flatten.thin k b)]) es).
  { destruct (push_parts_holds since (sb_parts b) f ps th es Hf) as [H0 H1 H2 H3 H4].
    { apply (distinct_prefix _ [] _ [(sb_id b, Flatten.thin k b)] _ [batch_entry b]).
      by rewrite app_nil_r. }
    split; simpl; try done. apply holds_insert; [done|]. apply fresh_keys. destruct Hd as [_ _ Hd _].
    rewrite fmap_app in Hd. by apply snoc_fresh in Hd. }
  unfold Flatten.flatten_batch, batch_entry in *. destruct (sb_active_compaction b) as [c|]; simpl in *.
  - by apply record_merge_holds.
  - eexists. split; [done|]. destruct Hp as [H0 H1 H2 H3 H4]. split; try done. rewrite recorded_app. simpl. by rewrite app_nil_r.
Qed.

(** A level, then all of them, from the newest batches to the oldest. *)
Lemma flatten_batches_holds since k bs f ps th es : flat_holds since f ps th es ->
  distinct (ps ++ concat (sb_parts <$> bs)) (th ++ ((fun b => (sb_id b, Flatten.thin k b)) <$> bs)) (es ++ (batch_entry <$> bs)) ->
  exists f', foldM (Flatten.flatten_batch k) bs f = Ret f' /\
    flat_holds since f' (ps ++ concat (sb_parts <$> bs)) (th ++ ((fun b => (sb_id b, Flatten.thin k b)) <$> bs)) (es ++ (batch_entry <$> bs)).
Proof.
  revert f ps th es. induction bs as [|b bs IH]; intros f ps th es Hf Hd.
  { exists f. by rewrite !app_nil_r. }
  rewrite !fmap_cons in *. cbn [concat foldM] in *. rewrite app_assoc, (cons_middle _ th), (cons_middle _ es), !app_assoc in Hd |- *.
  destruct (flatten_batch_holds since f ps th es k b Hf) as (f1 & -> & Hf1).
  { by eapply distinct_prefix. }
  cbn [obind]. by apply IH.
Qed.

Definition fwd_parts ms : list (IdHollowBatch T) := concat ((fun m => concat (sb_parts <$> ms_batches m)) <$> ms).
Definition fwd_thins (k : nat) ms : BTreeMap SpineId (ThinSpineBatch T) := concat (imap (fun i => level_thins (k + i)) ms).
Definition fwd_entries ms : list (SpineId * option (ThinMerge T)) := concat (level_entries <$> ms).

Lemma flatten_level_holds since k m f ps th es : flat_holds since f ps th es ->
  distinct (ps ++ concat (sb_parts <$> ms_batches m)) (th ++ level_thins k m) (es ++ level_entries m) ->
  exists f', Flatten.flatten_level f (k, m) = Ret f' /\
    flat_holds since f' (ps ++ concat (sb_parts <$> ms_batches m)) (th ++ level_thins k m) (es ++ level_entries m).
Proof.
  intros Hf Hd. unfold Flatten.flatten_level, level_entries in *. cbn [fst snd]. rewrite app_assoc in Hd |- *.
  destruct (flatten_batches_holds since k (ms_batches m) f ps th es Hf) as (f1 & -> & Hf1).
  { apply (distinct_prefix _ [] _ [] _ (merge_entry m)). by rewrite !app_nil_r. }
  cbn [obind]. unfold merge_entry in *. destruct (ms_merge m) as [im|].
  - by apply record_merge_holds.
  - exists f1. by rewrite app_nil_r.
Qed.

Lemma flatten_levels_holds since ms k f ps th es : flat_holds since f ps th es ->
  distinct (ps ++ fwd_parts ms) (th ++ fwd_thins k ms) (es ++ fwd_entries ms) ->
  exists f', foldM Flatten.flatten_level (imap (fun i m => ((k + i)%nat, m)) ms) f = Ret f' /\
    flat_holds since f' (ps ++ fwd_parts ms) (th ++ fwd_thins k ms) (es ++ fwd_entries ms).
Proof.
  revert k f ps th es. induction ms as [|m ms IH]; intros k f ps th es Hf Hd.
  { exists f. by rewrite !app_nil_r. }
  assert (Ht : fwd_thins k (m :: ms) = level_thins k m ++ fwd_thins (S k) ms).
  { unfold fwd_thins. rewrite imap_cons. simpl. rewrite Nat.add_0_r. do 2 f_equal. apply imap_ext. intros. simpl. f_equal. lia. }
  unfold fwd_parts, fwd_entries in *. rewrite !fmap_cons in *. cbn [concat] in *. rewrite Ht, !app_assoc in Hd |- *.
  rewrite imap_cons, Nat.add_0_r. cbn [foldM].
  destruct (flatten_level_holds since k m f ps th es Hf) as (f1 & -> & Hf1).
  { by eapply distinct_prefix. }
  cbn [obind]. destruct (IH (S k) f1 _ _ _ Hf1 Hd) as (f2 & Hr & Hf2). exists f2. split; [|done].
  rewrite <- Hr. f_equal. apply imap_ext. intros. simpl. f_equal. lia.
Qed.
(** *** What the invariant of the spine gives *)

Lemma range_ascending lo g ps hi u : tiles lo g ps hi u -> Forall part_ok ps ->
  StronglySorted (fun x y => less_than (d_lower (hb_desc x)) (d_lower (hb_desc y)) = true) (by_range ps) /\
  Forall (fun h => less_equal g (d_lower (hb_desc h)) = true) (by_range ps).
Proof.
  revert lo g. induction ps as [|p ps IH]; intros lo g Ht Hp; [split; constructor|].
  destruct Ht as (_ & <- & Ht). inversion_clear Hp as [|?? Hp1 Hp2]. destruct (IH _ _ Ht Hp2) as [Hs Hf].
  pose proof (ho_ordered _ Hp1) as Hle. change (p :: ps) with ([p] ++ ps). rewrite by_range_app.
  assert (Hf' : Forall (fun h => less_equal (d_lower (hb_desc (ihb_batch p))) (d_lower (hb_desc h)) = true) (by_range ps)).
  { eapply Forall_impl; [exact Hf|]. intros h Hh. by eapply le_trans. }
  unfold by_range at 1 3. destruct (decide (range_empty p)) as [He|Hne].
  - rewrite filter_cons_False by tauto. done.
  - rewrite filter_cons_True by done. simpl. split; constructor; [done| |apply le_refl|done].
    eapply Forall_impl; [exact Hf|]. intros h Hh. eapply lt_le_trans; [|exact Hh]. by apply less_than_iff.
Qed.

Lemma lowers_distinct (hs : list (HollowBatch T)) :
  StronglySorted (fun x y => less_than (d_lower (hb_desc x)) (d_lower (hb_desc y)) = true) hs ->
  NoDup ((fun h => d_lower (hb_desc h)) <$> hs).
Proof.
  induction 1 as [|h hs _ IH Hall]; simpl; [constructor|]. constructor; [|done].
  intros (h' & Heq & Hin)%list_elem_of_fmap. rewrite Forall_forall in Hall. apply Hall in Hin.
  rewrite Heq, less_than_irrefl in Hin. done.
Qed.

Lemma spine_shapes s : spine_ok s -> Forall (shape_ok (sp_since s)) (sp_merging s).
Proof.
  intros Hs. eapply Forall_impl; [eapply levels_ok_Forall, (so_levels _ Hs)|]. intros m (? & ? & ? & Hm & _). exact Hm.
Qed.

Lemma spine_tiles s : spine_ok s -> tiles 0 min_frontier (parts_of (sp_merging s)) (sp_next_id s) (sp_upper s).
Proof. intros Hs. eapply parts_tile; [apply (so_chain _ Hs)|by apply spine_batches_wf]. Qed.

Lemma spine_part_props s : spine_ok s -> Forall part_ok (parts_of (sp_merging s)) /\ Forall id_ok (parts_of (sp_merging s)).
Proof.
  intros Hs. pose proof (spine_batches_wf _ Hs) as Hw. unfold parts_of.
  change (batches_of (sp_merging s)) with (Spine.spine_batches s).
  induction Hw as [|b bs Hb _ [IH1 IH2]]; [split; constructor|]. rewrite fmap_cons. cbn [concat].
  split; apply Forall_app; split; try done; [apply (bw_parts _ _ Hb)|apply (bw_part_ids _ _ Hb)].
Qed.

Lemma spine_ids s : spine_ok s -> Forall (fun x => (sid_lo x.1 < sid_hi x.1)%N) (batch_seg <$> Spine.spine_batches s).
Proof.
  intros Hs. apply Forall_fmap. eapply Forall_impl; [by apply spine_batches_wf|]. intros b Hw. apply (bw_id _ _ Hw).
Qed.

Lemma thins_sorted s : spine_ok s -> CMap.sorted (thins_of (sp_merging s)).
Proof.
  intros Hs. eapply segs_sorted; [|by apply spine_ids|apply thins_keys].
  eapply chain_ascending; [apply (so_chain _ Hs)|by apply spine_ids].
Qed.

Lemma spine_distinct s : spine_ok s -> distinct (parts_of (sp_merging s)) (thins_of (sp_merging s)) (entries_of (sp_merging s)).
Proof.
  intros Hs. pose proof (spine_tiles s Hs) as Ht. destruct (spine_part_props s Hs) as [Hp Hi]. split.
  - by eapply part_ids_nodup.
  - eapply lowers_distinct, range_ascending; done.
  - rewrite thins_keys. apply ascending_nodup; [|by apply spine_ids].
    eapply chain_ascending; [apply (so_chain _ Hs)|by apply spine_ids].
  - eapply entries_ok; [by apply spine_shapes|by apply spine_batches_wf|apply (so_chain _ Hs)].
Qed.

(** *** The order of the levels does not matter *)

Lemma concat_rev_perm {A} (l : list (list A)) : concat (rev l) ≡ₚ concat l.
Proof.
  induction l as [|x l IH]; simpl; [done|]. rewrite concat_app, IH. simpl. rewrite app_nil_r. apply Permutation_app_comm.
Qed.

Lemma fwd_parts_perm ms : parts_of ms ≡ₚ fwd_parts ms.
Proof.
  induction ms as [|m ms IH] using rev_ind; [done|]. rewrite parts_of_snoc, IH. unfold fwd_parts.
  rewrite fmap_app, concat_app. simpl. rewrite app_nil_r. apply Permutation_app_comm.
Qed.

Lemma fwd_thins_perm ms : thins_of ms ≡ₚ fwd_thins 0 ms.
Proof. apply concat_rev_perm. Qed.

Lemma fwd_entries_perm ms : entries_of ms ≡ₚ fwd_entries ms.
Proof. unfold entries_of, fwd_entries. change (level_entries <$> rev ms) with (map level_entries (rev ms)). rewrite map_rev. apply concat_rev_perm. Qed.

#[export] Instance by_range_perm : Proper ((≡ₚ) ==> (≡ₚ)) (by_range (T := T)).
Proof. intros ps ps' Hp. unfold by_range. by rewrite Hp. Qed.
#[export] Instance by_id_perm : Proper ((≡ₚ) ==> (≡ₚ)) (by_id (T := T)).
Proof. intros ps ps' Hp. unfold by_id. by rewrite Hp. Qed.
#[export] Instance recorded_perm : Proper ((≡ₚ) ==> (≡ₚ)) (recorded (T := T)).
Proof. intros es es' Hp. unfold recorded. by rewrite Hp. Qed.

Lemma holds_perm {K V} `{KeyCmp K} (m l l' : BTreeMap K V) : holds m l -> l ≡ₚ l' -> holds m l'.
Proof. intros [Hs Hp] Hl. split; [done|]. by rewrite Hp. Qed.

Lemma flat_holds_perm since f ps ps' th th' es es' : flat_holds since f ps th es ->
  ps ≡ₚ ps' -> th ≡ₚ th' -> es ≡ₚ es' -> flat_holds since f ps' th' es'.
Proof.
  intros [H0 H1 H2 H3 H4] Hp Ht He. split; [done|..]; (eapply holds_perm; [eassumption|]); [by rewrite Hp|by rewrite Hp|done|by rewrite He].
Qed.

Lemma distinct_perm ps ps' th th' es es' : distinct ps th es ->
  ps ≡ₚ ps' -> th ≡ₚ th' -> es ≡ₚ es' -> distinct ps' th' es'.
Proof. intros [H1 H2 H3 H4] Hp Ht He. split; [by rewrite <- Hp|by rewrite <- Hp|by rewrite <- Ht|by rewrite <- He]. Qed.

(** [f] is the trace, flattened. *)
Definition flat_of f (t : Trace T) : Prop :=
  let ms := sp_merging (tr_spine t) in
  flat_holds (Trace.since t) f (parts_of ms) (thins_of ms) (entries_of ms).

Lemma flatten_ok (t : Trace T) : spine_ok (tr_spine t) -> tr_roundtrip_structure t = true ->
  exists f, Flatten.flatten t = Ret f /\ flat_of f t.
Proof.
  intros Hs Hr. pose proof (spine_distinct _ Hs) as Hd. unfold Flatten.flatten, flat_of.
  set (ms := sp_merging (tr_spine t)) in *.
  destruct (flatten_levels_holds (Trace.since t) ms 0 (Flatten.empty_flat (sp_since (tr_spine t))) [] [] []) as (f & Hf & Hh).
  - split; try done; apply holds_nil.
  - eapply distinct_perm; [exact Hd|apply fwd_parts_perm|apply fwd_thins_perm|apply fwd_entries_perm].
  - exists f. replace (imap (fun level m => (level, m)) ms) with (imap (fun i m => ((0 + i)%nat, m)) ms) by done.
    rewrite Hf. cbn [obind]. rewrite Hr. simpl. split; [done|].
    eapply flat_holds_perm; [exact Hh|by rewrite <- fwd_parts_perm|by rewrite <- fwd_thins_perm|by rewrite <- fwd_entries_perm].
Qed.

(** The legacy batches are popped from the oldest to the newest. *)
Lemma compare_chains_opp (x y : Antichain T) : Unflatten.compare_chains y x = CompOpp (Unflatten.compare_chains x y).
Proof.
  unfold Unflatten.compare_chains. destruct (less_than x y) eqn:E1, (less_than y x) eqn:E2; try done.
  apply less_than_le, le_not_lt in E1. congruence.
Qed.

Lemma compare_chains_nlt (x y : Antichain T) : less_equal x y = true \/ less_equal y x = true ->
  Unflatten.compare_chains x y <> Lt -> less_equal y x = true.
Proof.
  unfold Unflatten.compare_chains. intros Hc. destruct (less_than x y) eqn:E1; [done|]. intros _.
  destruct Hc as [Hc|]; [|done]. destruct (decide (x = y)) as [->|Hne]; [apply le_refl|].
  assert (less_than x y = true) by (by apply less_than_iff). congruence.
Qed.

Lemma ascending_comparable (hs : list (HollowBatch T)) :
  StronglySorted (fun x y => less_than (d_lower (hb_desc x)) (d_lower (hb_desc y)) = true) hs ->
  forall x y, x ∈ hs -> y ∈ hs -> x = y \/ less_than (d_lower (hb_desc x)) (d_lower (hb_desc y)) = true
    \/ less_than (d_lower (hb_desc y)) (d_lower (hb_desc x)) = true.
Proof.
  induction 1 as [|h hs _ IH Hall]; intros x y Hx Hy; [by apply not_elem_of_nil in Hx|].
  rewrite Forall_forall in Hall. apply elem_of_cons in Hx as [->|Hx], Hy as [->|Hy]; auto.
Qed.

Lemma rev_ascending (hs : list (HollowBatch T)) (c : HollowBatch T -> HollowBatch T -> comparison) :
  (forall x y, less_than (d_lower (hb_desc x)) (d_lower (hb_desc y)) = true -> c y x <> Gt) ->
  StronglySorted (fun x y => less_than (d_lower (hb_desc x)) (d_lower (hb_desc y)) = true) hs ->
  StronglySorted (fun x y => c x y <> Gt) (rev hs).
Proof.
  intros Hc. induction 1 as [|h hs _ IH Hall]; simpl; [constructor|].
  apply StronglySorted_app. split_and!; [|done|by repeat constructor].
  intros x y Hx ->%list_elem_of_singleton. apply Hc. rewrite Forall_forall in Hall. apply Hall.
  by rewrite list_elem_of_In, <- in_rev, <- list_elem_of_In in Hx.
Qed.

Lemma legacy_stack_ok (legacy : BTreeMap (HollowBatch T) unit) hs : legacy.*1 ≡ₚ hs ->
  StronglySorted (fun x y => less_than (d_lower (hb_desc x)) (d_lower (hb_desc y)) = true) hs ->
  Unflatten.legacy_stack legacy = hs.
Proof.
  intros Hp Hs. pose proof (ascending_comparable hs Hs) as Hcmp. unfold Unflatten.legacy_stack.
  set (c := fun x y : HollowBatch T => CompOpp (Unflatten.compare_chains (d_lower (hb_desc x)) (d_lower (hb_desc y)))).
  assert (Hle : forall x y, x ∈ hs -> y ∈ hs -> c x y <> Gt -> less_equal (d_lower (hb_desc y)) (d_lower (hb_desc x)) = true).
  { intros x y Hx Hy Hc. apply compare_chains_nlt.
    - destruct (Hcmp x y Hx Hy) as [->|[?|?]]; [left; apply le_refl|left; by apply less_than_le|right; by apply less_than_le].
    - unfold c in Hc. by destruct (Unflatten.compare_chains _ _). }
  assert (Hgt : forall x y, less_than (d_lower (hb_desc x)) (d_lower (hb_desc y)) = true -> c y x <> Gt).
  { intros x y Hlt. unfold c. rewrite compare_chains_opp. unfold Unflatten.compare_chains. by rewrite Hlt. }
  rewrite <- (rev_involutive hs). f_equal. apply (StronglySorted_unique_strong (fun x y => c x y <> Gt)).
  - intros x y Hx Hy H1 H2. rewrite sort_by_perm, Hp in Hx. rewrite list_elem_of_In, <- in_rev, <- list_elem_of_In in Hy.
    apply Hle in H1; [|done|done]. apply Hle in H2; [|done|done].
    destruct (Hcmp x y Hx Hy) as [->|[Hlt|Hlt]]; [done|apply lt_not_le in Hlt; congruence|apply lt_not_le in Hlt; congruence].
  - apply sort_by_sorted. split.
    + intros. unfold c. by rewrite compare_chains_opp.
    + intros x y z Hx Hy Hz H1 H2. rewrite Hp in Hx, Hy, Hz. apply Hle in H1; [|done|done]. apply Hle in H2; [|done|done].
      pose proof (le_trans _ _ _ H2 H1) as Hzx. apply le_not_lt in Hzx. unfold c, Unflatten.compare_chains. rewrite Hzx.
      by destruct (less_than (d_lower (hb_desc z)) (d_lower (hb_desc x))).
  - by apply rev_ascending.
  - rewrite sort_by_perm, Hp. apply Permutation_rev.
Qed.
End flattening.

(** ** Putting a trace together *)

Section unflattening.
Context {T : Type} `{TL : TimelyLaws T} `{TO : !TimelyOrd T} `{TOL : !TimelyOrdLaws T}.
Implicit Types (b : SpineBatch T) (m : MergeState T) (ms xs : list (MergeState T)) (ps : list (IdHollowBatch T)).
Implicit Types (f : FlatTrace T) (es : list (SpineId * option (ThinMerge T))) (p : IdHollowBatch T).

(** Descriptions with the same bounds. *)
Definition same_bounds (d d' : Description T) : Prop := d_lower d = d_lower d' /\ d_upper d = d_upper d'.

(** Thin batches that differ in their [descs], but not in the bounds. *)
Definition thin_like (x y : SpineId * ThinSpineBatch T) : Prop :=
  x.1 = y.1 /\ val_eqb x.2 y.2 = true /\ Forall2 same_bounds (tsb_descs x.2) (tsb_descs y.2).

(** A batch without parts has no runs. *)
Definition tidy (h : HollowBatch T) : Prop := hb_parts h = [] -> hb_run_meta h = [].

Lemma rearrange_id h legacy : tidy h -> Unflatten.rearrange h legacy (d_upper (hb_desc h)) = (h, legacy).
Proof.
  intros Ht. unfold Unflatten.rearrange.
  destruct (bool_decide (hb_parts h = [])) eqn:E1; [|done]. destruct (bool_decide (hb_run_splits h = [])) eqn:E2; [|done].
  destruct (hb_len h =? 0) eqn:E3; [|done]. simpl.
  apply bool_decide_eq_true in E1, E2. apply Z.eqb_eq in E3.
  assert (Hr : Unflatten.roll_in legacy (d_upper (hb_desc h)) (d_upper (hb_desc h)) = (d_upper (hb_desc h), legacy)).
  { destruct legacy; [done|]. simpl. by rewrite less_than_irrefl. }
  rewrite Hr, less_than_irrefl, desc_eta. f_equal. destruct h. simpl in *. unfold HollowBatch.empty. by rewrite E1, E2, E3, Ht.
Qed.

Lemma pop_batch_ok p ps d hollow : holds hollow (by_id (p :: ps)) -> NoDup (ihb_id <$> p :: ps) ->
  same_bounds d (hb_desc (ihb_batch p)) -> tidy (ihb_batch p) ->
  exists hollow', Unflatten.pop_batch (ihb_id p) (Some d) hollow (by_range (p :: ps)) = Ok (p, hollow', by_range ps) /\
    holds hollow' (by_id ps).
Proof.
  intros Hh Hd [Hl Hu] Ht. rewrite fmap_cons in Hd. apply NoDup_cons in Hd as [Hnew _].
  assert (Hfresh : Forall (fun kv => key_cmp (ihb_id p) kv.1 <> Eq) (by_id ps)).
  { apply fresh_keys. intros (kv & Heq & (q & -> & [_ Hq]%list_elem_of_filter)%list_elem_of_fmap)%list_elem_of_fmap.
    apply Hnew. simpl in Heq. rewrite Heq. by apply list_elem_of_fmap_2. }
  unfold Unflatten.pop_batch, by_id, by_range in *. rewrite !filter_cons in *. destruct (decide (range_empty p)) as [He|Hne].
  - rewrite decide_False by tauto. rewrite fmap_cons in Hh. rewrite (holds_get _ _ _ _ Hh), Hl, Hu, !bool_decide_eq_true_2 by done.
    simpl. eexists. split; [by destruct p|]. by eapply holds_remove.
  - rewrite decide_True by done. rewrite (holds_get_none _ _ _ Hh Hfresh), Hl, Hu, fmap_cons, bool_decide_eq_true_2 by done.
    simpl. rewrite rearrange_id by done. rewrite bool_decide_eq_true_2 by done. simpl. exists hollow. split; [by destruct p|done].
Qed.

Lemma pop_batches_ok qs ps ds hollow : holds hollow (by_id (qs ++ ps)) -> NoDup (ihb_id <$> qs ++ ps) ->
  Forall2 same_bounds ds ((fun p => hb_desc (ihb_batch p)) <$> qs) -> Forall (fun p => tidy (ihb_batch p)) qs ->
  exists hollow', Unflatten.pop_batches (ihb_id <$> qs) ds hollow (by_range (qs ++ ps)) = Ok (qs, hollow', by_range ps) /\
    holds hollow' (by_id ps).
Proof.
  revert ds hollow. induction qs as [|q qs IH]; intros ds hollow Hh Hd Hb Ht; [by exists hollow|].
  rewrite fmap_cons in Hb. inversion Hb as [|d ? ds' ? Hb1 Hb2]; subst. inversion_clear Ht as [|?? Ht1 Ht2].
  destruct (pop_batch_ok q (qs ++ ps) d hollow Hh Hd Hb1 Ht1) as (h1 & Hp & Hh1).
  rewrite fmap_cons. cbn [Unflatten.pop_batches head tail app]. rewrite Hp. cbn [rbind].
  rewrite <- app_comm_cons, fmap_cons in Hd. apply NoDup_cons in Hd as [_ Hd].
  destruct (IH ds' h1 Hh1 Hd Hb2 Ht2) as (h2 & -> & Hh2). by exists h2.
Qed.

Lemma tiles_no_gap lo g ps hi u : tiles lo g ps hi u -> Unflatten.any_gap ps = false.
Proof.
  revert lo g. induction ps as [|p [|q ps] IH]; intros lo g Ht; [done|done|].
  destruct Ht as (_ & _ & Ht). 
  change (negb (bool_decide (sid_hi (ihb_id p) = sid_lo (ihb_id q))) || Unflatten.any_gap (q :: ps) = false).
  rewrite (IH _ _ Ht). destruct Ht as (Hq & _). simpl in Hq.
  by rewrite bool_decide_eq_true_2.
Qed.

Lemma tiles_ends lo g ps hi u : tiles lo g ps hi u -> ps <> [] ->
  (fun p => sid_lo (ihb_id p)) <$> head ps = Some lo /\ (fun p => sid_hi (ihb_id p)) <$> last ps = Some hi.
Proof.
  intros Ht Hne. split.
  - destruct ps as [|p ps]; [done|]. destruct Ht as (Hlo & _). simpl in *. by rewrite Hlo.
  - destruct ps as [|p ps _] using rev_ind; [done|]. unfold tiles in Ht. rewrite fmap_app in Ht.
    apply chain_last in Ht as [Hhi _]. rewrite last_snoc. simpl. by rewrite Hhi.
Qed.

Lemma wf_parts_tile since b : batch_wf since b -> Unflatten.parts_tile (sb_id b) (sb_parts b) = true.
Proof.
  intros Hb. pose proof (wf_parts_nonempty _ _ Hb) as Hne. pose proof (bw_chain _ _ Hb) as Hc.
  destruct (tiles_ends _ _ _ _ _ Hc Hne) as [Hhd Hla]. unfold Unflatten.parts_tile.
  rewrite (tiles_no_gap _ _ _ _ _ Hc). rewrite !bool_decide_eq_true_2; done.
Qed.

(** *** Merges *)

Lemma entries_get i o es (M : BTreeMap SpineId (ThinMerge T)) : holds M (recorded ((i, o) :: es)) -> NoDup (i :: es.*1) ->
  CMap.get i M = o /\ holds (CMap.remove i M) (recorded es).
Proof.
  intros HM [Hi _]%NoDup_cons. apply recorded_keys, fresh_keys in Hi.
  destruct o as [x|]; cbn in HM.
  - split; [by eapply holds_get|]. by eapply holds_remove.
  - split; [by eapply holds_get_none|]. by apply holds_remove_other.
Qed.

Lemma entries_get_none i es (M : BTreeMap SpineId (ThinMerge T)) : holds M (recorded es) -> i ∉ es.*1 ->
  CMap.get i M = None /\ holds (CMap.remove i M) (recorded es).
Proof.
  intros HM Hi%recorded_keys%fresh_keys. split; [by eapply holds_get_none|]. by apply holds_remove_other.
Qed.

(** *** One batch *)

(** What is left to do: the parts and the entries that follow. *)
Record remains (p : Unflatten.Progress (T := T)) ps es : Prop := {
  rm_hollow : holds (Unflatten.pr_hollow p) (by_id ps);
  rm_legacy : Unflatten.pr_legacy p = by_range ps;
  rm_merges : holds (Unflatten.pr_merges p) (recorded es);
  rm_ids : NoDup (ihb_id <$> ps);
  rm_keys : NoDup es.*1;
}.

Lemma unflatten_batch_ok since pr k b x ps es st : batch_wf since b -> Forall (fun p => tidy (ihb_batch p)) (sb_parts b) ->
  thin_like x (sb_id b, Flatten.thin k b) -> remains pr (sb_parts b ++ ps) (batch_entry b :: es) ->
  Unflatten.pr_merging pr !! k = Some st ->
  MergeState.try_push_batch st b = Ok {| ms_batches := ms_batches st ++ [b]; ms_merge := None |} ->
  exists hollow M, holds hollow (by_id ps) /\ holds M (recorded es) /\
    Unflatten.unflatten_batch x pr =
      let '(st', M') := Unflatten.resume_merge {| ms_batches := ms_batches st ++ [b]; ms_merge := None |} M in
      Ok {| Unflatten.pr_hollow := hollow; Unflatten.pr_legacy := by_range ps; Unflatten.pr_merges := M';
            Unflatten.pr_merging := <[k := st']> (Unflatten.pr_merging pr) |}.
Proof.
  intros Hb Ht (Hk & Hv & Hds) [Hh Hl HM Hi Hn] Hst Hpush. destruct x as [i thin]. simpl in Hk, Hv. cbn [snd tsb_descs Flatten.thin] in Hds. subst i.
  unfold val_eqb, ThinSpineBatch_eq in Hv. rewrite !andb_true_iff, !bool_decide_eq_true in Hv. destruct Hv as [[Hlev Hdesc] Hparts].
  simpl in Hlev, Hdesc, Hparts. unfold Unflatten.unflatten_batch.
  destruct (pop_batches_ok (sb_parts b) ps (tsb_descs thin) (Unflatten.pr_hollow pr)) as (hollow & Hpop & Hh'); try done.
  destruct (entries_get _ _ _ _ HM Hn) as [Hg HM']. exists hollow, (CMap.remove (sb_id b) (Unflatten.pr_merges pr)).
  split; [done|]. split; [done|].
  rewrite Hparts, Hl, Hpop. apply Forall2_length in Hds. rewrite length_fmap in Hds. rewrite length_fmap.
  rewrite (proj2 (Nat.ltb_ge _ _)) by lia. cbn [rbind]. rewrite (wf_parts_tile _ _ Hb), Hg, Hlev, Hst, Hdesc. cbn [negb].
  replace {| sb_id := sb_id b; sb_desc := sb_desc b; sb_parts := sb_parts b;
             sb_active_compaction := _; sb_len := _ |} with b; [by rewrite Hpush|].
  rewrite <- (bw_len _ _ Hb). destruct b as [? ? ? [c|] ?]; done.
Qed.
(** *** One level *)

Lemma try_push_first b : MergeState.try_push_batch MergeState.default b = Ok {| ms_batches := [b]; ms_merge := None |}.
Proof. done. Qed.

Lemma try_push_second b1 b2 : sid_lo (sb_id b2) = sid_hi (sb_id b1) -> d_lower (sb_desc b2) = d_upper (sb_desc b1) ->
  MergeState.try_push_batch {| ms_batches := [b1]; ms_merge := None |} b2 = Ok {| ms_batches := [b1; b2]; ms_merge := None |}.
Proof.
  intros Hi Hl. unfold MergeState.try_push_batch. simpl. unfold SpineBatch.id, SpineBatch.upper, SpineBatch.lower.
  by rewrite Hi, Hl, !bool_decide_eq_true_2.
Qed.

(** A single batch resumes no merge: its own entry is gone. *)
Lemma resume_single b (M : BTreeMap SpineId (ThinMerge T)) es : holds M (recorded es) -> sb_id b ∉ es.*1 ->
  exists M', Unflatten.resume_merge {| ms_batches := [b]; ms_merge := None |} M = ({| ms_batches := [b]; ms_merge := None |}, M') /\
    holds M' (recorded es).
Proof.
  intros HM Hi. destruct (entries_get_none _ _ _ HM Hi) as [Hg HM'].
  exists (CMap.remove (sb_id b) M). split; [|done]. unfold Unflatten.resume_merge, MergeState.id. simpl.
  unfold SpineBatch.id. destruct (sb_id b) as [l h] eqn:E. simpl. by rewrite Hg.
Qed.

Lemma resume_pair b1 b2 im (M : BTreeMap SpineId (ThinMerge T)) es :
  SId (sid_lo (sb_id b1)) (sid_hi (sb_id b2)) = ifm_id im ->
  holds M (recorded ((ifm_id im, Some (ThinMerge.fueling (ifm_merge im))) :: es)) -> NoDup (ifm_id im :: es.*1) ->
  exists M', Unflatten.resume_merge {| ms_batches := [b1; b2]; ms_merge := None |} M = ({| ms_batches := [b1; b2]; ms_merge := Some im |}, M') /\
    holds M' (recorded es).
Proof.
  intros Hid HM Hn. destruct (entries_get _ _ _ _ HM Hn) as [Hg HM']. exists (CMap.remove (ifm_id im) M). split; [|done].
  unfold Unflatten.resume_merge, MergeState.id. simpl. unfold SpineBatch.id. rewrite Hid, Hg. simpl.
  by destruct im as [? []].
Qed.

Lemma remains_tail pr qs ps es e : remains pr (qs ++ ps) (e :: es) -> NoDup (ihb_id <$> ps) /\ (e.1 ∉ es.*1) /\ NoDup es.*1.
Proof.
  intros [_ _ _ Hi Hn]. rewrite fmap_app in Hi. apply NoDup_app in Hi as (_ & _ & Hi). by apply NoDup_cons in Hn as [? ?].
Qed.

Lemma first_batch_ok since pr k b x ps es : batch_wf since b -> Forall (fun p => tidy (ihb_batch p)) (sb_parts b) ->
  thin_like x (sb_id b, Flatten.thin k b) -> remains pr (sb_parts b ++ ps) (batch_entry b :: es) ->
  Unflatten.pr_merging pr !! k = Some MergeState.default ->
  exists pr', Unflatten.unflatten_batch x pr = Ok pr' /\ remains pr' ps es /\
    Unflatten.pr_merging pr' = <[k := {| ms_batches := [b]; ms_merge := None |}]> (Unflatten.pr_merging pr).
Proof.
  intros Hb Ht Hx Hrem Hk. destruct (remains_tail _ _ _ _ _ Hrem) as (Hi & Hn1 & Hn2).
  destruct (unflatten_batch_ok since pr k b x ps es MergeState.default) as (hollow & M & Hh & HM & Heq); try done.
  destruct (resume_single b M es HM Hn1) as (M' & Hres & HM'). simpl in Heq. rewrite Hres in Heq. by eexists.
Qed.

Lemma second_batch_ok since pr k b1 b2 im x ps es : batch_wf since b2 -> Forall (fun p => tidy (ihb_batch p)) (sb_parts b2) ->
  thin_like x (sb_id b2, Flatten.thin k b2) ->
  remains pr (sb_parts b2 ++ ps) (batch_entry b2 :: (ifm_id im, Some (ThinMerge.fueling (ifm_merge im))) :: es) ->
  Unflatten.pr_merging pr !! k = Some {| ms_batches := [b1]; ms_merge := None |} ->
  sid_lo (sb_id b2) = sid_hi (sb_id b1) -> d_lower (sb_desc b2) = d_upper (sb_desc b1) ->
  SId (sid_lo (sb_id b1)) (sid_hi (sb_id b2)) = ifm_id im ->
  exists pr', Unflatten.unflatten_batch x pr = Ok pr' /\ remains pr' ps es /\
    Unflatten.pr_merging pr' = <[k := {| ms_batches := [b1; b2]; ms_merge := Some im |}]> (Unflatten.pr_merging pr).
Proof.
  intros Hb Ht Hx Hrem Hk Hi1 Hi2 Hid. destruct (remains_tail _ _ _ _ _ Hrem) as (Hi & _ & Hn2).
  edestruct (unflatten_batch_ok since pr k b2 x) as (hollow & M & Hh & HM & Heq); try done; [by apply try_push_second|].
  destruct (resume_pair b1 b2 im M es Hid HM Hn2) as (M' & Hres & HM'). simpl in Heq. rewrite Hres in Heq.
  apply NoDup_cons in Hn2 as [_ Hn2]. by eexists.
Qed.

Lemma unflatten_level_ok since pr m S ps es k ys lo g hi u :
  shape_ok since m -> Forall (batch_wf since) (ms_batches m) ->
  Forall (fun p => tidy (ihb_batch p)) (concat (sb_parts <$> ms_batches m)) ->
  chain lo g (batch_seg <$> ms_batches m) hi u -> Forall2 thin_like S (level_thins k m) ->
  remains pr (concat (sb_parts <$> ms_batches m) ++ ps) (level_entries m ++ es) ->
  Unflatten.pr_merging pr = replicate k MergeState.default ++ MergeState.default :: ys ->
  exists pr', apply_each Unflatten.unflatten_batch S pr = Ok pr' /\ remains pr' ps es /\
    Unflatten.pr_merging pr' = replicate k MergeState.default ++ m :: ys.
Proof.
  intros Hs Hb Ht Hc HS Hrem Hmg. unfold level_thins, level_entries, merge_entry, shape_ok, MergeState.id in *.
  destruct m as [bs im]. cbn [ms_batches ms_merge] in *. pose proof (length_replicate k (MergeState.default (T := T))) as Hlen.
  assert (Hk : Unflatten.pr_merging pr !! k = Some MergeState.default) by (rewrite Hmg; by apply list_lookup_middle).
  destruct bs as [|b1 [|b2 [|]]]; [| | |destruct im; simpl in Hs; lia].
  - destruct im as [im|]; [simpl in Hs; lia|]. inversion HS; subst. by exists pr.
  - destruct im as [im|]; [simpl in Hs; lia|]. inversion_clear Hb as [|?? Hb1 _].
    inversion HS as [|x ? S' ? Hx HS']; subst. inversion HS'; subst. cbn in Ht, Hrem. rewrite app_nil_r in Ht, Hrem.
    destruct (first_batch_ok since pr k b1 x ps es) as (pr1 & Heq & Hrem1 & Hmg1); try done.
    exists pr1. cbn [apply_each]. rewrite Heq. cbn [rbind apply_each]. split; [done|]. split; [done|].
    by rewrite Hmg1, Hmg, list_insert_middle.
  - destruct im as [im|]; [|simpl in Hs; lia]. destruct Hs as (_ & [= Hid] & _).
    inversion_clear Hb as [|?? Hb1 Hb']. inversion_clear Hb' as [|?? Hb2 _].
    inversion HS as [|x1 ? S1 ? Hx1 HS1]; subst. inversion HS1 as [|x2 ? S2 ? Hx2 HS2]; subst. inversion HS2; subst.
    cbn in Ht, Hrem. rewrite app_nil_r in Ht, Hrem. rewrite <- app_assoc in Hrem. apply Forall_app in Ht as [Ht1 Ht2].
    destruct Hc as (_ & _ & Hc1 & Hc2 & _). simpl in Hc1, Hc2.
    edestruct (first_batch_ok since pr k b1 x1) as (pr1 & Heq & Hrem1 & Hmg1); try done.
    rewrite Hmg, list_insert_middle in Hmg1 by done.
    destruct (second_batch_ok since pr1 k b1 b2 im x2 ps es) as (pr2 & Heq2 & Hrem2 & Hmg2); try done.
    { rewrite Hmg1. by apply list_lookup_middle. }
    exists pr2. cbn [apply_each]. rewrite Heq. cbn [rbind apply_each]. rewrite Heq2. cbn [rbind apply_each].
    split; [done|]. split; [done|]. by rewrite Hmg2, Hmg1, list_insert_middle.
Qed.

(** *** All levels, from the oldest batches to the newest *)

Lemma unflatten_levels_ok since xs pr S ys lo g hi u :
  Forall (shape_ok since) xs -> Forall (batch_wf since) (batches_of xs) ->
  Forall (fun p => tidy (ihb_batch p)) (parts_of xs) -> chain lo g (batch_seg <$> batches_of xs) hi u ->
  Forall2 thin_like S (thins_of xs) -> remains pr (parts_of xs) (entries_of xs) ->
  Unflatten.pr_merging pr = replicate (length xs) MergeState.default ++ ys ->
  exists pr', apply_each Unflatten.unflatten_batch S pr = Ok pr' /\ remains pr' [] [] /\
    Unflatten.pr_merging pr' = xs ++ ys.
Proof.
  revert pr S ys lo g. induction xs as [|m xs IH] using rev_ind; intros pr S ys lo g Hs Hb Ht Hc HS Hrem Hmg.
  { inversion HS; subst. by exists pr. }
  rewrite batches_of_snoc in Hb, Hc. rewrite parts_of_snoc in Ht, Hrem. rewrite entries_of_snoc in Hrem. rewrite thins_of_snoc in HS.
  apply Forall_app in Hs as [Hs Hm], Hb as [Hbm Hb], Ht as [Htm Ht]. apply Forall_cons_1 in Hm as [Hm _].
  rewrite fmap_app in Hc. apply chain_app in Hc as (mid & h & Hc1 & Hc2).
  apply Forall2_app_inv_r in HS as (S1 & S2 & HS1 & HS2 & ->).
  rewrite length_app, Nat.add_comm in Hmg. simpl in Hmg.
  destruct (unflatten_level_ok since pr m S1 (parts_of xs) (entries_of xs) (length xs) ys lo g mid h) as (pr1 & Heq1 & Hrem1 & Hmg1); try done.
  { rewrite Hmg. rewrite app_comm_cons. change (MergeState.default :: replicate (length xs) MergeState.default)
      with (replicate (1 + length xs) (MergeState.default (T := T))).
    by rewrite Nat.add_comm, replicate_add, <- app_assoc. }
  destruct (IH pr1 S2 (m :: ys) mid h) as (pr2 & Heq2 & Hrem2 & Hmg2); try done.
  exists pr2. rewrite apply_each_app, Heq1. cbn [rbind]. rewrite Heq2. split; [done|]. split; [done|].
  by rewrite Hmg2, <- app_assoc.
Qed.

(** ** The bounds that [unflatten] checks *)

Lemma total_len_ok_sum (hs : list (HollowBatch T)) total : 0 <= total -> Forall (fun h => 0 <= hb_len h) hs ->
  total + sumZ (hb_len <$> hs) <= MAX_TOTAL_LEN -> Unflatten.total_len_ok total hs = true.
Proof.
  revert total. induction hs as [|h hs IH]; intros total H0 Hf Hle; [done|]. inversion_clear Hf as [|?? Hh Hf'].
  rewrite fmap_cons in Hle. change (sumZ (hb_len h :: (hb_len <$> hs))) with (hb_len h + sumZ (hb_len <$> hs)) in Hle.
  assert (0 <= sumZ (hb_len <$> hs)) by (by apply sumZ_nonneg, Forall_fmap).
  assert (Hmax : MAX_TOTAL_LEN <= usize_max) by (by vm_compute).
  cbn [Unflatten.total_len_ok]. unfold usize_checked_add. rewrite (proj2 (Z.leb_le _ usize_max)) by lia.
  simpl. rewrite (proj2 (Z.leb_le _ MAX_TOTAL_LEN)) by lia. apply IH; [lia|done|lia].
Qed.

Lemma sumZ_perm (l l' : list Z) : l ≡ₚ l' -> sumZ l = sumZ l'.
Proof. unfold sumZ. induction 1; simpl; lia. Qed.

Lemma level_len since c n k m : level_ok since c n k m -> sumZ (sb_len <$> ms_batches m) <= level_records k m.
Proof.
  intros (_ & _ & Hb). unfold level_records. induction Hb as [|b bs [_ Hle] _ IH]; [done|].
  rewrite fmap_cons. change (sumZ (sb_len b :: (sb_len <$> bs))) with (sb_len b + sumZ (sb_len <$> bs)). simpl length. lia.
Qed.

Lemma levels_len since c k n ms : levels_ok since c k n ms -> sumZ (sb_len <$> batches_of ms) <= records k ms.
Proof.
  revert k n. induction ms as [|m ms IH]; intros k n Hl; [done|]. destruct Hl as [Hm Hl]. apply IH in Hl.
  apply level_len in Hm. rewrite batches_of_cons, fmap_app, sumZ_app. simpl. lia.
Qed.

Lemma parts_total since bs : Forall (batch_wf since) bs ->
  sumZ (hb_len <$> (ihb_batch <$> concat (sb_parts <$> bs))) = sumZ (sb_len <$> bs).
Proof.
  induction 1 as [|b bs Hb _ IH]; [done|]. rewrite !fmap_cons. cbn [concat]. rewrite !fmap_app, sumZ_app, IH.
  change (sumZ (sb_len b :: (sb_len <$> bs))) with (sb_len b + sumZ (sb_len <$> bs)). f_equal.
  rewrite (bw_len _ _ Hb). unfold SpineBatch.parts_len. by rewrite <- list_fmap_compose.
Qed.

(** A trace that can be flattened and put together again. *)
Record flattable (t : Trace T) : Prop := {
  fl_spine : spine_ok (tr_spine t);
  fl_roundtrip : tr_roundtrip_structure t = true;
  fl_tidy : Forall tidy (Trace.batches t);
  fl_records : records 0 (sp_merging (tr_spine t)) <= 2 ^ 60;
}.

(** A flattened form of the trace, up to the descriptions of the parts. *)
Record flat_like f (t : Trace T) : Prop := {
  fk_since : ft_since f = Trace.since t;
  fk_legacy : holds (ft_legacy_batches f) ((fun h => (h, tt)) <$> by_range (parts_of (sp_merging (tr_spine t))));
  fk_hollow : holds (ft_hollow_batches f) (by_id (parts_of (sp_merging (tr_spine t))));
  fk_spine : Forall2 thin_like (ft_spine_batches f) (thins_of (sp_merging (tr_spine t)));
  fk_merges : holds (ft_merges f) (recorded (entries_of (sp_merging (tr_spine t))));
}.

Lemma thins_segs ms : (fun x => (x.1, tsb_desc x.2)) <$> thins_of ms = batch_seg <$> batches_of ms.
Proof.
  induction ms as [|m ms IH] using rev_ind; [done|]. rewrite thins_of_snoc, batches_of_snoc, !fmap_app, IH.
  f_equal. unfold level_thins. by rewrite <- list_fmap_compose.
Qed.

Lemma chain_end lo g (l : list (seg (T := T))) hi u : chain lo g l hi u ->
  match last l with Some (i, d) => (d_upper d, sid_hi i) | None => (g, lo) end = (u, hi).
Proof.
  intros Hc. destruct l as [|[i d] l _] using rev_ind; [by destruct Hc as [-> ->]|].
  apply chain_last in Hc as [<- <-]. by rewrite last_snoc.
Qed.

Lemma last_thin t S : spine_ok (tr_spine t) -> Forall2 thin_like S (thins_of (sp_merging (tr_spine t))) ->
  match BTree.last_key_value S with Some (i, b) => (d_upper (tsb_desc b), sid_hi i) | None => (min_frontier, 0%N) end
  = (Trace.upper t, sp_next_id (tr_spine t)).
Proof.
  intros Hs HS. pose proof (chain_end _ _ _ _ _ (so_chain _ Hs)) as He. unfold BTree.last_key_value.
  change (Spine.spine_batches (tr_spine t)) with (batches_of (sp_merging (tr_spine t))) in He.
  rewrite <- thins_segs, fmap_last in He. apply Forall2_last in HS.
  destruct HS as [[i b] [j c] (Hk & Hv & _)|]; [|done]. simpl in *. subst j.
  unfold val_eqb, ThinSpineBatch_eq in Hv. rewrite !andb_true_iff, !bool_decide_eq_true in Hv. destruct Hv as [[_ Hdesc] _].
  by rewrite Hdesc.
Qed.

Lemma first_thin t S : spine_ok (tr_spine t) -> Forall2 thin_like S (thins_of (sp_merging (tr_spine t))) ->
  match BTree.first_key_value S with Some (_, b) => Datatypes.S (tsb_level b) | None => 0%nat end = length (sp_merging (tr_spine t)).
Proof.
  intros Hs HS. pose proof (so_top _ Hs) as Ht. unfold top_ok in Ht.
  destruct (sp_merging (tr_spine t)) as [|m ms _] using rev_ind; [by inversion HS|].
  rewrite last_snoc in Ht. rewrite thins_of_snoc in HS. unfold level_thins in HS.
  destruct (ms_batches m) as [|b bs]; [done|]. inversion HS as [|[i c] ? ? ? (_ & Hv & _) _]; subst.
  unfold val_eqb, ThinSpineBatch_eq in Hv. rewrite !andb_true_iff, !bool_decide_eq_true in Hv. destruct Hv as [[Hlev _] _].
  simpl in *. rewrite Hlev, length_app. simpl. lia.
Qed.

Lemma levels_bound s : spine_ok s -> records 0 (sp_merging s) <= 2 ^ 60 -> (length (sp_merging s) <= MAX_LEVELS)%nat.
Proof.
  intros Hs Hr. pose proof (so_top _ Hs) as Ht. unfold top_ok in Ht.
  destruct (sp_merging s) as [|m ms _] using rev_ind; [simpl; lia|]. rewrite last_snoc in Ht.
  rewrite records_app in Hr. simpl in Hr. pose proof (records_nonneg 0 ms). rewrite length_app. simpl.
  assert (2 ^ Z.of_nat (length ms) <= level_records (length ms) m).
  { unfold level_records. pose proof (pow2_pos (length ms)). destruct (ms_batches m); [done|]. simpl length. nia. }
  assert (length ms < 61)%nat by (apply pow2_lt_inv; change (2 ^ Z.of_nat 61) with (2 * 2 ^ 60); lia).
  unfold MAX_LEVELS. lia.
Qed.

Lemma unit_keys {A} (l : list A) : ((fun h => (h, tt)) <$> l).*1 = l.
Proof. induction l as [|x l IH]; [done|]. rewrite !fmap_cons, IH. done. Qed.

Lemma total_len_bound f t : flattable t -> flat_like f t ->
  Unflatten.total_len_ok 0 ((ft_legacy_batches f).*1 ++ (ft_hollow_batches f).*2) = true.
Proof.
  intros [Hs _ _ Hr] [_ [_ Hl] [_ Hh] _ _]. set (ps := parts_of (sp_merging (tr_spine t))) in *.
  assert (Hp : (ft_legacy_batches f).*1 ++ (ft_hollow_batches f).*2 ≡ₚ ihb_batch <$> ps).
  { rewrite Hl, Hh, unit_keys. unfold by_range, by_id. rewrite <- list_fmap_compose.
    change (snd ∘ (fun p => (ihb_id p, ihb_batch p))) with (ihb_batch (T := T)). rewrite <- fmap_app. f_equiv. rewrite Permutation_app_comm. apply filter_app_complement. }
  pose proof (spine_batches_wf _ Hs) as Hw. pose proof (levels_len _ _ _ _ _ (so_levels _ Hs)) as Hlen.
  apply total_len_ok_sum; [lia| |].
  - rewrite Hp. apply Forall_fmap. destruct (spine_part_props _ Hs) as [Hok _].
    eapply Forall_impl; [exact Hok|]. intros p Hpok. apply (ho_len _ Hpok).
  - rewrite (sumZ_perm _ (hb_len <$> (ihb_batch <$> ps))) by (by rewrite Hp).
    unfold ps, parts_of. erewrite parts_total by exact Hw. unfold Spine.spine_batches, batches_of in *.
    assert (2 ^ 60 <= MAX_TOTAL_LEN) by (by vm_compute). lia.
Qed.

Lemma unflatten_ok f t : flattable t -> flat_like f t -> Unflatten.unflatten f = Ret (Ok t).
Proof.
  intros Hfl Hlike. pose proof Hfl as [Hs Hrt Htidy Hr]. pose proof Hlike as [Hsi Hle Hho Hsp Hme].
  unfold Unflatten.unflatten. rewrite (total_len_bound f t Hfl Hlike). cbn [negb].
  rewrite (last_thin t _ Hs Hsp), (first_thin t _ Hs Hsp).
  rewrite (proj2 (Nat.ltb_ge _ _)) by (by apply levels_bound).
  destruct (spine_distinct _ Hs) as [Hd1 Hd2 Hd3 Hd4]. destruct (spine_part_props _ Hs) as [Hok Hids].
  match goal with |- context [apply_each _ _ ?pr] => destruct (unflatten_levels_ok (sp_since (tr_spine t)) (sp_merging (tr_spine t))
    pr (ft_spine_batches f) [] 0%N min_frontier (sp_next_id (tr_spine t)) (sp_upper (tr_spine t))) as (pr' & -> & Hrem & Hmg) end; try done.
  - by apply spine_shapes.
  - by apply spine_batches_wf.
  - unfold Trace.batches in Htidy. by rewrite Forall_fmap in Htidy.
  - apply (so_chain _ Hs).
  - split; simpl; try done. apply legacy_stack_ok.
    + destruct Hle as [_ ->]. by rewrite unit_keys.
    + eapply range_ascending; [by apply spine_tiles|done].
  - simpl. by rewrite app_nil_r.
  - destruct Hrem as [Hh0 Hl0 Hm0 _ _]. apply holds_nil_inv in Hh0, Hm0. rewrite Hl0, Hmg, app_nil_r, Hsi. cbn [by_range filter].
    assert (Hround : negb (BTree.is_empty (ft_spine_batches f)) || BTree.is_empty (ft_legacy_batches f) = true).
    { destruct (ft_spine_batches f) as [|x S]; [|done]. simpl. apply Forall2_nil_inv_l in Hsp.
      pose proof (thins_segs (sp_merging (tr_spine t))) as Hsegs. rewrite Hsp in Hsegs. symmetry in Hsegs. apply fmap_nil_inv in Hsegs.
      destruct Hle as [_ Hle]. unfold parts_of in Hle. rewrite Hsegs in Hle. by apply Permutation_nil_r in Hle as ->. }
    rewrite Hround. unfold Unflatten.finish. rewrite Hh0, Hm0. cbn [negb BTree.is_empty].
    replace {| tr_spine := _; tr_roundtrip_structure := _ |} with t; [by rewrite (validate_ok _ Hs : Trace.validate t = Ok tt)|].
    destruct t as [[] ?]. simpl in *. rewrite <- (so_effort _ Hs). by rewrite Hrt.
Qed.

Lemma thin_like_refl x : thin_like x x.
Proof.
  split; [done|]. split; [unfold val_eqb, ThinSpineBatch_eq; by rewrite !bool_decide_eq_true_2|].
  induction (tsb_descs x.2); by constructor.
Qed.

Lemma flat_of_spine f t : spine_ok (tr_spine t) -> flat_of f t -> ft_spine_batches f = thins_of (sp_merging (tr_spine t)).
Proof. intros Hs [_ _ _ Hsp _]. apply (holds_unique _ _ Hsp), (thins_sorted _ Hs). Qed.

Lemma flat_of_like f t : spine_ok (tr_spine t) -> flat_of f t -> flat_like f t.
Proof.
  intros Hs Hf. pose proof (flat_of_spine f t Hs Hf) as Hsp. destruct Hf as [H0 H1 H2 _ H4]. split; try done.
  rewrite Hsp. generalize (thins_of (sp_merging (tr_spine t))) as l. induction l; constructor; [apply thin_like_refl|done].
Qed.
End unflattening.
