(* ===== verification/SpineKeep.v ===== *)
(** * What the operations of the spine do to its batches

    Whatever the levels do, a batch of the spine is kept, put together from
    batches that were there ([FuelingMerge.done]), exchanged for another by a
    compaction, or new.  A property of batches that these steps respect holds
    of all batches at all times.  [Tracked] is the one that the differences
    of states rely on. *)

From S2P Require Import Prelude Timely Paths Batch BatchFacts Spine SpineFacts SpineCorrect Trace TraceFacts FlatTrace FlatFacts.

Local Open Scope Z_scope.

Section keep.
Context {T : Type} `{Timely T} (P : SpineBatch T -> Prop).
Hypothesis P_done : forall fm bs log x log', Forall P bs -> FuelingMerge.done fm bs log = Ret (Some x, log') -> P x.
Implicit Types (b : SpineBatch T) (m : MergeState T) (ms : list (MergeState T)) (s : Spine T).

Definition level_keeps m : Prop := Forall P (ms_batches m).
Definition keeps ms : Prop := Forall level_keeps ms.

Lemma keeps_batches ms : keeps ms <-> Forall P (batches_of ms).
Proof.
  unfold keeps. induction ms as [|m ms IH]; [split; constructor|].
  rewrite batches_of_cons, Forall_app, Forall_cons, IH. unfold level_keeps. tauto.
Qed.

Lemma default_keeps : level_keeps MergeState.default.
Proof. constructor. Qed.

Lemma pad_keeps ms i : keeps ms -> keeps (Spine.pad ms i).
Proof. intros Hm. apply Forall_app. split; [done|]. apply Forall_replicate, default_keeps. Qed.

Lemma insert_keeps ms i m : keeps ms -> level_keeps m -> keeps (<[i := m]> ms).
Proof. intros. by apply Forall_insert. Qed.

Lemma index_keeps ms i m : keeps ms -> index ms i = Ret m -> level_keeps m.
Proof.
  intros Hm. unfold index, expect. destruct (ms !! i) as [m'|] eqn:E; [|done]. intros [= <-].
  by eapply Forall_lookup_1.
Qed.

Lemma complete_keeps m log r log' : level_keeps m -> MergeState.complete m log = Ret (r, log') ->
  match r with Some x => P x | None => True end.
Proof.
  intros Hm. unfold MergeState.complete. destruct (_ <=? _)%nat.
  - intros [= <- _]. destruct (last (ms_batches m)) as [x|] eqn:E; [|done].
    apply last_Some in E as (l & E). unfold level_keeps in Hm. rewrite E in Hm. apply Forall_app in Hm as [_ Hm]. by inversion Hm.
  - destruct (ms_merge m) as [im|]; [|simpl; by intros [= <- _]].
    destruct r as [x|]; [|done]. intros He. by eapply P_done.
Qed.

Lemma push_keeps m b m' : level_keeps m -> P b -> MergeState.push_batch m b = Ret m' -> level_keeps m'.
Proof.
  intros Hm Hb. unfold MergeState.push_batch, MergeState.try_push_batch.
  destruct (match last (ms_batches m) with Some _ => _ | None => _ end); [done|].
  destruct (ms_merge m); [done|]. destruct (MergeState.is_full m); [done|]. intros [= <-].
  apply Forall_app. split; [done|]. by constructor.
Qed.

Lemma insert_at_keeps s b i s' : keeps (sp_merging s) -> P b -> Spine.insert_at s b i = Ret s' -> keeps (sp_merging s').
Proof.
  intros Hs Hb. unfold Spine.insert_at. intros (m & Hi & (m' & Hp & [= <-])%obind_Ret)%obind_Ret.
  apply (pad_keeps _ i) in Hs. apply index_keeps in Hi; [|done]. apply push_keeps in Hp; [|done|done].
  apply insert_keeps; [done|]. by destruct (MergeState.is_full m').
Qed.

Lemma complete_at_keeps s i log s' r log' : keeps (sp_merging s) -> Spine.complete_at s i log = Ret (s', r, log') ->
  keeps (sp_merging s') /\ match r with Some x => P x | None => True end.
Proof.
  intros Hs. unfold Spine.complete_at. intros (m & Hi & ([c l] & Hc & [= <- <- <-])%obind_Ret)%obind_Ret.
  apply index_keeps in Hi; [|done]. split; [apply insert_keeps; [done|apply default_keeps]|]. by eapply complete_keeps.
Qed.

Lemma foldM_keeps {A St} (f : St -> A -> outcome St) (Q : St -> Prop) l st st' :
  (forall st a st', Q st -> f st a = Ret st' -> Q st') -> Q st -> foldM f l st = Ret st' -> Q st'.
Proof.
  intros Hf. revert st. induction l as [|a l IH]; intros st Hst; simpl; [by intros [= <-]|].
  intros (st1 & H1 & H2)%obind_Ret. eapply IH; [|exact H2]. by eapply Hf.
Qed.

Lemma insert_some_keeps s r i s' : keeps (sp_merging s) -> match r with Some x => P x | None => True end ->
  match r with Some b => Spine.insert_at s b i | None => Ret s end = Ret s' -> keeps (sp_merging s').
Proof. intros Hs Hr. destruct r as [x|]; [by apply insert_at_keeps|]. by intros [= <-]. Qed.

Lemma apply_fuel_keeps s fuel log s' log' : keeps (sp_merging s) -> Spine.apply_fuel s fuel log = Ret (s', log') -> keeps (sp_merging s').
Proof.
  intros Hs He. apply (foldM_keeps _ (fun st => keeps (sp_merging st.1)) _ (s, log) (s', log')) in He; [done| |done].
  clear -P_done. intros [s log] i [s' log'] Hs. unfold Spine.apply_fuel_step. simpl in *. intros (m & Hi & He)%obind_Ret.
  apply index_keeps in Hi; [|done].
  assert (Hw : level_keeps (MergeState.work m fuel).1).
  { unfold MergeState.work. destruct (ms_merge m) as [im|]; [|done]. by destruct (FuelingMerge.work _ _). }
  set (s1 := Spine.with_merging s _) in He. assert (Hs1 : keeps (sp_merging s1)) by (by apply insert_keeps).
  destruct (MergeState.is_complete _); [|by injection He as <- _].
  apply obind_Ret in He as ([[s2 c] log2] & Hc & (x & Hx & (s3 & Hi3 & [= <- _])%obind_Ret)%obind_Ret).
  apply complete_at_keeps in Hc as [Hs2 Hp]; [|done]. unfold expect in Hx. destruct c; [|done]. injection Hx as <-.
  by eapply insert_at_keeps; [exact Hs2|exact Hp|exact Hi3].
Qed.

Lemma roll_up_keeps s i log s' log' : keeps (sp_merging s) -> Spine.roll_up s i log = Ret (s', log') -> keeps (sp_merging s').
Proof.
  intros Hs. unfold Spine.roll_up. set (s0 := Spine.with_merging s _).
  assert (Hs0 : keeps (sp_merging s0)) by (by apply pad_keeps). clearbody s0. clear s Hs.
  destruct (existsb _ _); [|by intros [= <- _]].
  intros ([[s1 r] log1] & Hf & (s2 & Hi & (m & _ & He)%obind_Ret)%obind_Ret)%obind_Ret.
  apply (foldM_keeps _ (fun st => keeps (sp_merging st.1.1) /\ match st.1.2 with Some x => P x | None => True end)
           _ (s0, None, log) (s1, r, log1)) in Hf; [|clear -P_done|done].
  - destruct Hf as [Hs1 Hr]. apply insert_some_keeps in Hi; [|done|done].
    destruct (MergeState.is_full m); [|by injection He as <- _].
    apply obind_Ret in He as ([[s3 c] log3] & Hc & (x & Hx & (s4 & Hi4 & [= <- _])%obind_Ret)%obind_Ret).
    apply complete_at_keeps in Hc as [Hs3 Hp]; [|done]. unfold expect in Hx. destruct c; [|done]. injection Hx as <-.
    by eapply insert_at_keeps; [exact Hs3|exact Hp|exact Hi4].
  - intros [[s r] log] j [[s' r'] log'] [Hs Hr]. unfold Spine.roll_up_step. simpl in *. intros (s1 & Hi & Hc)%obind_Ret.
    apply insert_some_keeps in Hi; [|done|done]. by eapply complete_at_keeps.
Qed.

Lemma insert_each_keeps bs i s s' : keeps (sp_merging s) -> Forall P bs ->
  foldM (fun s b => Spine.insert_at s b i) bs s = Ret s' -> keeps (sp_merging s').
Proof.
  intros Hs Hb. revert s Hs. induction Hb as [|b bs Hb _ IH]; intros s Hs; simpl; [by intros [= <-]|].
  intros (s1 & H1 & H2)%obind_Ret. eapply IH; [|exact H2]. by eapply insert_at_keeps.
Qed.

Lemma tidy_step_keeps s s' c : keeps (sp_merging s) -> Spine.tidy_step s = Ret (s', c) -> keeps (sp_merging s').
Proof.
  intros Hs. unfold Spine.tidy_step. intros (m & Hi & He)%obind_Ret. apply index_keeps in Hi; [|done].
  assert (Hd : keeps (delete (length (sp_merging s) - 2)%nat (sp_merging s))) by (by apply Forall_delete).
  destruct (MergeState.is_vacant m); [by injection He as <- _|]. destruct (negb _); [|by injection He as <- _].
  destruct (_ <=? _); [|by injection He as <- _].
  apply obind_Ret in He as (_ & _ & (s1 & Hf & [= <- _])%obind_Ret). by eapply insert_each_keeps; [|exact Hi|exact Hf].
Qed.

Lemma tidy_layers_keeps s s' : keeps (sp_merging s) -> Spine.tidy_layers s = Ret s' -> keeps (sp_merging s').
Proof.
  intros Hs. unfold Spine.tidy_layers. destruct (last (sp_merging s)) as [top|]; [|by intros [= <-]].
  destruct (MergeState.is_single top); [|by intros [= <-]].
  generalize (length (sp_merging s)) as n. generalize (Spine.level_of (MergeState.len top)) as k. intros k n.
  revert s Hs. induction n as [|n IH]; intros s Hs; simpl; [by intros [= <-]|].
  destruct (_ <? _)%nat; [|by intros [= <-]]. intros ([s1 c] & H1 & H2)%obind_Ret. apply tidy_step_keeps in H1; [|done].
  destruct c; [by eapply IH|by injection H2 as <-].
Qed.

Lemma introduce_keeps s b i log s' log' : keeps (sp_merging s) -> P b -> Spine.introduce_batch s b i log = Ret (s', log') ->
  keeps (sp_merging s').
Proof.
  intros Hs Hb. unfold Spine.introduce_batch.
  intros ([s1 l1] & H1 & ([s2 l2] & H2 & (s3 & H3 & (s4 & H4 & [= <- _])%obind_Ret)%obind_Ret)%obind_Ret)%obind_Ret.
  eapply tidy_layers_keeps; [|exact H4]. eapply insert_at_keeps; [|exact Hb|exact H3].
  eapply roll_up_keeps; [|exact H2]. by eapply apply_fuel_keeps.
Qed.

Lemma insert_batch_keeps s h log s' log' : keeps (sp_merging s) ->
  P (SpineBatch.merged {| ihb_id := SId (sp_next_id s) (sp_next_id s + 1); ihb_batch := h |}) ->
  Spine.insert s h log = Ret (s', log') -> keeps (sp_merging s').
Proof.
  intros Hs Hb. unfold Spine.insert. intros (_ & _ & (_ & _ & He)%obind_Ret)%obind_Ret. simpl in He.
  destruct (if SpineBatch.is_empty _ then _ else _) as [i|]; [|by eapply introduce_keeps; [..|exact He]].
  apply obind_Ret in He as (s1 & H1 & ([[s2 c] log2] & H2 & He)%obind_Ret).
  apply insert_at_keeps in H1; [|done|done]. apply complete_at_keeps in H2 as [H2 Hc]; [|done].
  destruct c as [x|]; [|by injection He as <- _].
  injection He as <- _. apply insert_keeps; [done|]. by constructor.
Qed.

(** Tidying changes nothing but the levels. *)
Definition same_frame s s' : Prop := sp_next_id s' = sp_next_id s /\ sp_upper s' = sp_upper s /\ sp_since s' = sp_since s.

Lemma insert_at_frame s b i s' : Spine.insert_at s b i = Ret s' -> same_frame s s'.
Proof. unfold Spine.insert_at. by intros (m & _ & (m' & _ & [= <-])%obind_Ret)%obind_Ret. Qed.

Lemma same_frame_trans s1 s2 s3 : same_frame s1 s2 -> same_frame s2 s3 -> same_frame s1 s3.
Proof. unfold same_frame. intros (-> & -> & ->) (-> & -> & ->). done. Qed.

Lemma tidy_step_frame s s' c : Spine.tidy_step s = Ret (s', c) -> same_frame s s'.
Proof.
  unfold Spine.tidy_step. intros (m & _ & He)%obind_Ret. destruct (MergeState.is_vacant m); [by injection He as <- _|].
  destruct (negb _); [|by injection He as <- _]. destruct (_ <=? _); [|by injection He as <- _].
  apply obind_Ret in He as (_ & _ & (s1 & Hf & [= <- _])%obind_Ret).
  apply (foldM_keeps _ (same_frame s) _ (Spine.with_merging s (delete (length (sp_merging s) - 2)%nat (sp_merging s))) s1) in Hf; [done| |done].
  intros s2 b s3 Hs2 Hi%insert_at_frame. by eapply same_frame_trans.
Qed.

Lemma tidy_layers_frame s s' : Spine.tidy_layers s = Ret s' -> same_frame s s'.
Proof.
  unfold Spine.tidy_layers. destruct (last (sp_merging s)) as [top|]; [|by intros [= <-]].
  destruct (MergeState.is_single top); [|by intros [= <-]].
  generalize (length (sp_merging s)) as n. generalize (Spine.level_of (MergeState.len top)) as k. intros k n.
  revert s. induction n as [|n IH]; intros s; simpl; [by intros [= <-]|].
  destruct (_ <? _)%nat; [|by intros [= <-]]. intros ([s1 c] & H1 & H2)%obind_Ret. apply tidy_step_frame in H1.
  destruct c; [eapply same_frame_trans; [exact H1|by apply IH]|by injection H2 as <-].
Qed.

Lemma exert_keeps s effort log s' w log' : keeps (sp_merging s) ->
  P (SpineBatch.empty (SId (sp_next_id s) (sp_next_id s + 1)) (sp_upper s) (sp_upper s) (sp_since s)) ->
  Spine.exert s effort log = Ret (s', w, log') -> keeps (sp_merging s').
Proof.
  intros Hs Hb. unfold Spine.exert. intros (s1 & H1 & He)%obind_Ret.
  destruct (tidy_layers_frame _ _ H1) as (Hn & Hu & Hsi).
  apply tidy_layers_keeps in H1; [|done]. destruct (Spine.reduced s1); [by injection He as <- _ _|].
  destruct (existsb _ _).
  - apply obind_Ret in He as ([s2 l2] & H2 & [= <- _ _]). by eapply apply_fuel_keeps.
  - apply obind_Ret in He as ([s2 l2] & H2 & [= <- _ _]). eapply introduce_keeps; [..|exact H2]; [done|].
    simpl. by rewrite Hn, Hu, Hsi.
Qed.
End keep.

(** ** Visits *)

Section visits.
Context {T : Type} `{Timely T} (P : SpineBatch T -> Prop) {R : Type}.
Context (f : SpineBatch T -> outcome (SpineBatch T * option R)).
Implicit Types (b : SpineBatch T) (ms : list (MergeState T)).

Lemma visit_batches_keeps bs bs' r : (forall b b' r, b ∈ bs -> P b -> f b = Ret (b', r) -> P b') -> Forall P bs ->
  Trace.visit_batches f bs = Ret (bs', r) -> Forall P bs'.
Proof.
  intros Hf Hb. revert bs' r. induction bs as [|b bs IH]; intros bs' r; simpl; [by intros [= <- _]|].
  apply Forall_cons in Hb as [Hb Hbs]. intros ([bs1 r1] & Hv & Hr)%obind_Ret.
  assert (Hbs1 : Forall P bs1) by (eapply IH; [|done|exact Hv]; intros c c' rc Hc; apply Hf; by constructor).
  destruct r1 as [x|]; [injection Hr as <- _; by constructor|].
  apply obind_Ret in Hr as ([b1 r2] & Hfb & [= <- _]). constructor; [|done]. by eapply Hf; [constructor|..].
Qed.

Lemma visit_levels_keeps ms ms' r : (forall b b' r, b ∈ batches_of ms -> P b -> f b = Ret (b', r) -> P b') -> keeps P ms ->
  Trace.visit_levels f ms = Ret (ms', r) -> keeps P ms'.
Proof.
  intros Hf Hk. revert ms' r. induction ms as [|m ms IH]; intros ms' r; simpl; [by intros [= <- _]|].
  apply Forall_cons in Hk as [Hm Hk]. rewrite batches_of_cons in Hf. intros ([bs r1] & Hv & Hr)%obind_Ret.
  assert (Hbs : Forall P bs) by (eapply visit_batches_keeps; [|exact Hm|exact Hv]; intros c c' rc Hc; apply Hf; apply elem_of_app; by right).
  destruct r1 as [x|]; [injection Hr as <- _; by constructor|].
  apply obind_Ret in Hr as ([ms1 r2] & Hv1 & [= <- _]). constructor; [done|]. eapply IH; [|done|exact Hv1].
  intros c c' rc Hc. apply Hf. apply elem_of_app. by left.
Qed.
End visits.

(** ** Ids, times and runs *)

Section tracked.
Context {T : Type} `{TL : TimelyLaws T}.
Implicit Types (F : N -> Antichain T) (R : RunPart T -> Prop) (b : SpineBatch T) (p : IdHollowBatch T) (h : HollowBatch T).

(** The description of an id is given by a frontier for every end of an id. *)
Definition bounds_at F (i : SpineId) (d : Description T) : Prop := d_lower d = F (sid_lo i) /\ d_upper d = F (sid_hi i).

Definition refs_in R h : Prop := forall q, q ∈ hb_parts h -> R q.

Record part_tracked F R p : Prop := {
  pt_bounds : bounds_at F (ihb_id p) (hb_desc (ihb_batch p));
  pt_tidy : tidy (ihb_batch p);
  pt_refs : refs_in R (ihb_batch p);
}.

Definition tracked F R b : Prop := bounds_at F (sb_id b) (sb_desc b) /\ Forall (part_tracked F R) (sb_parts b).

Lemma empty_tracked F R i (l u s : Antichain T) : l = F (sid_lo i) -> u = F (sid_hi i) -> tracked F R (SpineBatch.empty i l u s).
Proof.
  intros -> ->. assert (Hb : bounds_at F i (desc_new (F (sid_lo i)) (F (sid_hi i)) s)) by (split; by rewrite ?lower_new, ?upper_new).
  split; [done|]. apply Forall_singleton. split; [done|done|]. by intros r ?%not_elem_of_nil.
Qed.

Lemma merged_tracked F R i h : bounds_at F i (hb_desc h) -> tidy h -> refs_in R h ->
  tracked F R (SpineBatch.merged {| ihb_id := i; ihb_batch := h |}).
Proof. intros. split; [done|]. by apply Forall_singleton. Qed.

Lemma concat_parts_tracked F R bs : Forall (tracked F R) bs -> Forall (part_tracked F R) (concat (sb_parts <$> bs)).
Proof. induction 1 as [|b bs [_ Hp] _ IH]; [constructor|]. rewrite fmap_cons. cbn [concat]. by apply Forall_app. Qed.

Lemma tracked_done F R (fm : FuelingMerge T) bs log x log' : Forall (tracked F R) bs ->
  FuelingMerge.done fm bs log = Ret (Some x, log') -> tracked F R x.
Proof.
  intros Hb. unfold FuelingMerge.done. destruct (head bs) as [b1|] eqn:E1; [|done]. destruct (last bs) as [b2|] eqn:E2; [|done].
  intros (_ & _ & He)%obind_Ret.
  assert (Hb1 : tracked F R b1) by (destruct bs; [done|]; injection E1 as <-; by inversion Hb).
  assert (Hb2 : tracked F R b2) by (apply last_Some in E2 as (l & ->); apply Forall_app in Hb as [_ Hb]; by inversion Hb).
  destruct Hb1 as [[Hl _] _], Hb2 as [[_ Hu] _]. destruct (forallb _ _).
  - injection He as <- _. by apply empty_tracked.
  - injection He as <- _. split; [split; simpl; rewrite ?lower_new, ?upper_new; done|]. by apply concat_parts_tracked.
Qed.

(** A compaction replaces parts that tile the times of its result. *)
Lemma tracked_replaced F R b b' h : tracked F R b -> replaced_by b b' h -> tidy h -> refs_in R h -> tracked F R b'.
Proof.
  intros [[Hl Hu] Hp] [Hid Hlow Hup _ (pre & mid & post & i & Hparts & Hne & Hparts' & Ht)] Htidy Hrefs.
  split; [split; rewrite Hid; [by rewrite <- Hl|by rewrite <- Hu]|]. rewrite Hparts in Hp. rewrite Hparts'.
  apply Forall_app in Hp as [Hpre [Hmid Hpost]%Forall_app]. apply Forall_app. split; [done|]. apply Forall_cons. split; [|done].
  split; [|done|done]. split; simpl.
  - destruct mid as [|p mid]; [done|]. destruct Ht as (<- & <- & _). inversion_clear Hmid as [|?? [[? _] _ _]]. done.
  - destruct mid as [|p mid _] using rev_ind; [done|]. unfold tiles in Ht. rewrite fmap_app in Ht. apply chain_last in Ht as [<- <-].
    apply Forall_app in Hmid as [_ Hmid]. inversion_clear Hmid as [|?? [[_ ?] _ _]]. done.
Qed.

(** Frontiers beyond the ids in use can be chosen freely. *)
Lemma tracked_ext F F' R b n : tracked F R b -> (sid_hi (sb_id b) <= n)%N -> (sid_lo (sb_id b) < sid_hi (sb_id b))%N ->
  Forall (fun p => (sid_lo (ihb_id p) < sid_hi (ihb_id p) <= n)%N) (sb_parts b) -> (forall m, (m <= n)%N -> F' m = F m) -> tracked F' R b.
Proof.
  intros [[Hl Hu] Hp] Hn Hlt Hids HF. split; [split; rewrite HF by lia; done|].
  rewrite Forall_forall in Hp, Hids. apply Forall_forall. intros p Hin. specialize (Hids p Hin). destruct (Hp p Hin) as [[? ?] ? ?].
  split; try done. split; rewrite HF by lia; done.
Qed.
End tracked.

(** ** Traces *)

Section linked.
Context {T : Type} `{TL : TimelyLaws T}.
Implicit Types (F : N -> Antichain T) (R : RunPart T -> Prop) (b : SpineBatch T) (t : Trace T) (h : HollowBatch T).

Definition trace_keeps F R t : Prop := keeps (tracked F R) (sp_merging (tr_spine t)).

(** The ids mean the same times in both traces, and their parts are in [R]. *)
Definition linked R t t' : Prop := exists F, trace_keeps F R t /\ trace_keeps F R t'.

(** A tiling gives a frontier for every end of an id. *)
Lemma chain_frontiers lo g (l : list (seg (T := T))) hi u : chain lo g l hi u -> Forall (fun s => (sid_lo s.1 < sid_hi s.1)%N) l ->
  exists F, F lo = g /\ F hi = u /\ Forall (fun s => bounds_at F s.1 s.2) l.
Proof.
  revert lo g. induction l as [|[i d] l IH]; intros lo g Hc Hlt.
  - destruct Hc as [-> ->]. by exists (fun _ => u).
  - destruct Hc as (<- & <- & Hc). inversion_clear Hlt as [|?? Hi Hl]. simpl in Hi. destruct (IH _ _ Hc Hl) as (F & Hlo & Hhi & Hall).
    destruct (chain_ascending _ _ _ _ _ Hc Hl) as [_ Hb]. destruct (chain_lo_hi _ _ _ _ _ Hc Hl) as [Hle _].
    exists (fun n => if (n <=? sid_lo i)%N then d_lower d else F n). split_and!.
    + by rewrite (proj2 (N.leb_le _ _)) by lia.
    + by rewrite (proj2 (N.leb_gt _ _)) by lia.
    + constructor.
      * split; simpl; [by rewrite (proj2 (N.leb_le _ _)) by lia|by rewrite (proj2 (N.leb_gt _ _)) by lia].
      * rewrite Forall_forall in *. intros s Hs. destruct (Hall s Hs) as [H1 H2]. specialize (Hl s Hs). specialize (Hb s Hs).
        split; rewrite (proj2 (N.leb_gt _ _)) by lia; done.
Qed.

Lemma batch_in_tiling s b p : spine_ok s -> b ∈ Spine.spine_batches s -> p ∈ sb_parts b ->
  p ∈ parts_of (sp_merging s).
Proof.
  intros _ Hb Hp. unfold parts_of. apply list_elem_of_In, in_concat. exists (sb_parts b).
  rewrite <- !list_elem_of_In. split; [by apply list_elem_of_fmap_2|done].
Qed.

Lemma frontiers_exist t R : spine_ok (tr_spine t) -> Forall tidy (Trace.batches t) -> Forall (refs_in R) (Trace.batches t) ->
  exists F, F (sp_next_id (tr_spine t)) = Trace.upper t /\ trace_keeps F R t.
Proof.
  intros Hs Htidy Hrefs. pose proof (spine_tiles _ Hs) as Ht. destruct (spine_part_props _ Hs) as [_ Hids].
  destruct (chain_frontiers _ _ _ _ _ Ht) as (F & _ & Hu & Hall); [by apply Forall_fmap|].
  exists F. split; [done|]. apply keeps_batches, Forall_forall. intros b Hb.
  unfold Trace.batches in *. rewrite Forall_fmap, Forall_forall in Htidy, Hrefs. rewrite Forall_fmap, Forall_forall in Hall.
  pose proof (spine_batches_wf _ Hs) as Hw. rewrite Forall_forall in Hw. specialize (Hw b Hb).
  assert (Hp : Forall (part_tracked F R) (sb_parts b)).
  { apply Forall_forall. intros p Hp. pose proof (batch_in_tiling _ _ _ Hs Hb Hp) as Hin. split; [by apply Hall|by apply Htidy|by apply Hrefs]. }
  split; [|done]. pose proof (bw_chain _ _ Hw) as Hc. pose proof (wf_parts_nonempty _ _ Hw) as Hne. split.
  - destruct (sb_parts b) as [|p ps]; [done|]. change (d_lower (sb_desc b)) with (SpineBatch.lower b).
    destruct Hc as (<- & <- & _). inversion_clear Hp as [|?? [[? _] _ _]]. done.
  - change (d_upper (sb_desc b)) with (SpineBatch.upper b).
    destruct (sb_parts b) as [|p ps _] using rev_ind; [done|]. rewrite fmap_app in Hc. apply chain_last in Hc as [<- <-].
    apply Forall_app in Hp as [_ Hp]. inversion_clear Hp as [|?? [[_ ?] _ _]]. done.
Qed.

Lemma trace_keeps_ext F F' R t : spine_ok (tr_spine t) -> trace_keeps F R t ->
  (forall m, (m <= sp_next_id (tr_spine t))%N -> F' m = F m) -> trace_keeps F' R t.
Proof.
  intros Hs Hk HF. apply keeps_batches. apply keeps_batches in Hk. rewrite Forall_forall in *. intros b Hb.
  pose proof (spine_batches_wf _ Hs) as Hw. rewrite Forall_forall in Hw. specialize (Hw b Hb). pose proof (bw_id _ _ Hw) as Hlt.
  destruct (chain_ascending _ _ _ _ _ (so_chain _ Hs) (spine_ids _ Hs)) as [_ Hbound]. rewrite Forall_fmap, Forall_forall in Hbound.
  specialize (Hbound b Hb). simpl in Hbound.
  apply (tracked_ext F F' R b (sp_next_id (tr_spine t))); [by apply Hk|lia|done| |done].
  pose proof (bw_part_ids _ _ Hw) as Hids. destruct (chain_ascending _ _ _ _ _ (bw_chain _ _ Hw)) as [_ Hpb]; [by apply Forall_fmap|].
  rewrite Forall_fmap, Forall_forall in Hpb. rewrite Forall_forall in *. intros p Hp. specialize (Hpb p Hp). specialize (Hids p Hp).
  simpl in Hpb, Hids. lia.
Qed.

(** The frontier of the next id. *)
Lemma next_frontier F R t u : spine_ok (tr_spine t) -> trace_keeps F R t -> F (sp_next_id (tr_spine t)) = Trace.upper t ->
  exists F', trace_keeps F' R t /\ F' (sp_next_id (tr_spine t)) = Trace.upper t /\ F' (sp_next_id (tr_spine t) + 1)%N = u.
Proof.
  intros Hs Hk Hu. exists (fun n => if (n <=? sp_next_id (tr_spine t))%N then F n else u). split_and!.
  - eapply trace_keeps_ext; [done|exact Hk|]. intros m Hm. by rewrite (proj2 (N.leb_le _ _)).
  - by rewrite (proj2 (N.leb_le _ _)) by lia.
  - by rewrite (proj2 (N.leb_gt _ _)) by lia.
Qed.

Lemma push_linked F R t h t' reqs : spine_ok (tr_spine t) -> trace_keeps F R t -> F (sp_next_id (tr_spine t)) = Trace.upper t ->
  tidy h -> refs_in R h -> Trace.push_batch t h = Ret (t', reqs) -> linked R t t'.
Proof.
  intros Hs Hk Hu Htidy Hrefs. unfold Trace.push_batch. intros ([s log] & Hi & [= <- _])%obind_Ret.
  destruct (next_frontier F R t (d_upper (hb_desc h)) Hs Hk Hu) as (F' & Hk' & Hn & Hn1). exists F'. split; [done|].
  eapply (insert_batch_keeps _ (tracked_done F' R)); [exact Hk'| |exact Hi]. apply merged_tracked; [|done|done].
  assert (Hlow : d_lower (hb_desc h) = Trace.upper t).
  { unfold Spine.insert in Hi. apply obind_Ret in Hi as (_ & _ & ([] & Ha & _)%obind_Ret). unfold assert_ in Ha.
    case_bool_decide; done. }
  split; simpl; [by rewrite Hlow, Hn|done].
Qed.

Lemma exert_linked F R t fuel t' reqs w : spine_ok (tr_spine t) -> trace_keeps F R t -> F (sp_next_id (tr_spine t)) = Trace.upper t ->
  Trace.exert t fuel = Ret (t', reqs, w) -> linked R t t'.
Proof.
  intros Hs Hk Hu. unfold Trace.exert. intros ([[s w'] log] & Hi & [= <- _ _])%obind_Ret.
  destruct (next_frontier F R t (Trace.upper t) Hs Hk Hu) as (F' & Hk' & Hn & Hn1). exists F'. split; [done|].
  eapply (exert_keeps _ (tracked_done F' R)); [exact Hk'| |exact Hi]. by apply empty_tracked.
Qed.

Lemma claim_keeps F R t i c t' : trace_keeps F R t -> Trace.claim_compaction t i c = Ret t' -> trace_keeps F R t'.
Proof.
  intros Hk. unfold Trace.claim_compaction, Trace.visit.
  intros ([t1 r] & ([ms r'] & Hv & [= <- _])%obind_Ret & [= <-])%obind_Ret.
  eapply (visit_levels_keeps (tracked F R)); [|exact Hk|exact Hv].
  intros b b' r1 _ Hb. unfold Trace.claim_step. case_bool_decide; by intros [= <- _].
Qed.

Lemma claims_keep {A} F R (f : A -> SpineId) c (l : list A) t t' : trace_keeps F R t ->
  foldM (fun t a => Trace.claim_compaction t (f a) c) l t = Ret t' -> trace_keeps F R t'.
Proof. intros Hk He. eapply (foldM_keeps _ (trace_keeps F R)); [|exact Hk|exact He]. intros t1 a t2 H1 H2. exact (claim_keeps _ _ _ _ _ _ H1 H2). Qed.

(** Replacements that keep the ids and times. *)
Lemma merge_keeps F R t (f : SpineBatch T -> outcome (SpineBatch T * ApplyMergeResult)) t' r : trace_keeps F R t ->
  (forall b b' r, b ∈ Spine.spine_batches (tr_spine t) -> tracked F R b -> f b = Ret (b', r) -> tracked F R b') ->
  Trace.apply_merge f t = Ret (t', r) -> trace_keeps F R t'.
Proof.
  intros Hk Hf. unfold Trace.apply_merge, Trace.visit.
  intros ([t1 r1] & ([ms r2] & Hv & [= <- _])%obind_Ret & [= <- _])%obind_Ret.
  eapply (visit_levels_keeps (tracked F R)); [|exact Hk|exact Hv].
  intros b b' r3 Hb Htr. unfold Trace.until_matched. intros ([b1 r4] & Hfb & [= <- _])%obind_Ret. by eapply Hf.
Qed.

(** *** The batch that a compaction puts in place *)

Lemma slices_sound (parts : list (RunPart T)) ranges metas rs : Forall (fun r => r.1 < r.2)%nat ranges ->
  omapM (fun r => r) (HollowBatch.zip_eq metas (HollowBatch.slice parts <$> ranges)) = Ret rs ->
  Forall (fun r : RunMeta * list (RunPart T) => r.2 <> [] /\ forall p, p ∈ r.2 -> p ∈ parts) rs.
Proof.
  intros Hr. revert metas rs. induction Hr as [|[a e] ranges Hlt _ IH]; intros [|x metas] rs; simpl; try done.
  { intros [= <-]. constructor. }
  intros (y & (ps & Hs & [= <-])%obind_Ret & (rs' & Hrs & [= <-])%obind_Ret)%obind_Ret. constructor; [|by eapply IH].
  unfold HollowBatch.slice in Hs. simpl in *. destruct (Nat.leb_spec e (length parts)) as [Hle|]; [|done]. injection Hs as <-.
  split.
  - intros E. apply (f_equal length) in E. rewrite length_take, length_drop in E. simpl in E. lia.
  - intros p Hp. by apply subseteq_take, subseteq_drop in Hp.
Qed.

Lemma collect_runs_sound h rs : Replace.collect_runs h = Ret rs ->
  Forall (fun r : RunMeta * list (RunPart T) => r.2 <> [] /\ forall p, p ∈ r.2 -> p ∈ hb_parts h) rs.
Proof. apply slices_sound, Forall_forall. by intros r [Hr _]%list_elem_of_filter. Qed.

Lemma made_tracked F R b res h : tracked F R b -> tidy (fres_output res) -> refs_in R (fres_output res) -> made_of b res h ->
  tidy h /\ refs_in R h.
Proof.
  intros [_ Hp] Ht Hr [->|(p & ids & Hin & _ & _ & Hc)]; [done|]. rewrite Forall_forall in Hp. destruct (Hp p Hin) as [_ _ Hpr].
  unfold Replace.construct_batch_with_runs_replaced in Hc. case_bool_decide; [done|].
  apply obind_Ret in Hc as (rs & Hrs & Hc). destruct (negb _); [done|].
  apply obind_Ret in Hc as (ks & Hks & (rs' & Hrs' & [= <-])%obind_Ret).
  apply collect_runs_sound in Hrs, Hrs'. rewrite Forall_forall in Hrs, Hrs'.
  assert (Hall : forall r, r ∈ ks ++ rs' -> r.2 <> [] /\ forall q, q ∈ r.2 -> q ∈ hb_parts (ihb_batch p) \/ q ∈ hb_parts (fres_output res)).
  { intros r [Hk|Hk]%elem_of_app.
    - apply (keep_runs_sub _ _ _ Hks) in Hk. destruct (Hrs r Hk). auto.
    - destruct (Hrs' r Hk). auto. }
  split.
  - intros He. simpl in *. destruct (ks ++ rs') as [|r l]; [done|]. destruct (Hall r) as [Hne _]; [by apply elem_of_cons; left|].
    rewrite fmap_cons in He. cbn [concat] in He. by apply app_nil in He as [? _].
  - intros r Hm. simpl in Hm. apply list_elem_of_In, in_concat in Hm as (l & Hl & Hm). apply list_elem_of_In in Hl. apply list_elem_of_In in Hm.
    apply list_elem_of_fmap in Hl as (run & -> & Hrun). destruct (Hall _ Hrun) as [_ Hq]. destruct (Hq _ Hm); [by apply Hpr|by apply Hr].
Qed.
End linked.
