(* ===== verification/State.v ===== *)
(** * Shard state (src/src/persist-client/src/internal/state.rs)

    [StateCollections] and the commands that change it; [State] wraps it with
    the sequence number and the wall clock.  A command returns the changed
    collections with [Continue], which are then committed, or [Break], after
    which they are dropped.  The theorems are in [StateFacts]. *)

From S2P Require Import Prelude Timely BTree Schema Paths Batch Spine Trace.

Local Open Scope Z_scope.

(** ** Identifiers: 16 bytes, ordered as such *)

Record LeasedReaderId := { leased_reader_uuid : Uuid }.
Record CriticalReaderId := { critical_reader_uuid : Uuid }.
Record IdempotencyToken := { token_uuid : Uuid }.

#[export] Instance LeasedReaderId_eqdec : EqDecision LeasedReaderId.
Proof. solve_decision. Defined.
#[export] Instance CriticalReaderId_eqdec : EqDecision CriticalReaderId.
Proof. solve_decision. Defined.
#[export] Instance IdempotencyToken_eqdec : EqDecision IdempotencyToken.
Proof. solve_decision. Defined.

Lemma uuid_bits_inj (a b : Uuid) : uuid_bits a = uuid_bits b -> a = b.
Proof. destruct a as [a Ha], b as [b Hb]. simpl. intros ->. f_equal. apply Eqdep_dec.UIP_dec, bool_eq_dec. Qed.

(** The byte-wise order of an identifier that wraps a [Uuid]. *)
Definition uuid_keyord {K} `{EqDecision K} (f : K -> Uuid) (Hf : forall a b, f a = f b -> a = b) : KeyOrd K.
Proof.
  refine {| key_ltb := fun a b => (uuid_bits (f a) <? uuid_bits (f b))%N |}.
  - intros k. apply N.ltb_irrefl.
  - intros a b c. rewrite !N.ltb_lt. lia.
  - intros a b. rewrite !N.ltb_ge. intros. apply Hf, uuid_bits_inj. lia.
Defined.

#[export] Instance LeasedReaderId_ord : KeyOrd LeasedReaderId.
Proof. apply (uuid_keyord leased_reader_uuid). by intros [] []; simpl; intros ->. Defined.
#[export] Instance CriticalReaderId_ord : KeyOrd CriticalReaderId.
Proof. apply (uuid_keyord critical_reader_uuid). by intros [] []; simpl; intros ->. Defined.
#[export] Instance WriterId_ord : KeyOrd WriterId.
Proof. apply (uuid_keyord writer_uuid). by intros [] []; simpl; intros ->. Defined.

#[export] Program Instance SchemaId_ord : KeyOrd SchemaId :=
  {| key_ltb a b := (schema_id_num a <? schema_id_num b)%N |}.
Next Obligation. intros k. apply N.ltb_irrefl. Qed.
Next Obligation. intros a b c. rewrite !N.ltb_lt. lia. Qed.
Next Obligation. intros [a] [b]. rewrite !N.ltb_ge. simpl. intros. f_equal. lia. Qed.

(** [IdempotencyToken::SENTINEL]: sixteen bytes 17. *)
Definition SENTINEL : IdempotencyToken :=
  {| token_uuid := {| uuid_bits := 0x11111111111111111111111111111111; uuid_ok := eq_refl |} |}.

(** ** The data *)

(** [SeqNo(u64)] *)
Abbreviation SeqNo := Z (only parsing).

Definition SeqNo_next (s : SeqNo) : SeqNo := s + 1.
Definition SeqNo_minimum : SeqNo := 0.

Record HandleDebugState := { debug_hostname : string; debug_purpose : string }.

(** [Opaque(codec_name, [u8; 8])] *)
Record Opaque := { opaque_codec : string; opaque_bytes : Bytes }.

#[export] Instance Opaque_eqdec : EqDecision Opaque.
Proof. solve_decision. Defined.

Record HollowRollup := { rollup_key : str; rollup_encoded_size_bytes : option Z }.
Record ActiveRollup := { ar_seqno : SeqNo; ar_start_ms : Z }.
Record ActiveGc := { ag_seqno : SeqNo; ag_start_ms : Z }.

Record EncodedSchemas := {
  es_key : Bytes;
  es_key_data_type : Bytes;
  es_val : Bytes;
  es_val_data_type : Bytes;
}.

Section types.
Context (T : Type) `{Timely T} (Version : Type).

Record LeasedReaderState := {
  lr_seqno : SeqNo;
  lr_since : Antichain T;
  lr_last_heartbeat_timestamp_ms : Z;
  lr_lease_duration_ms : Z;
  lr_debug : HandleDebugState;
}.

Record CriticalReaderState := {
  cr_since : Antichain T;
  cr_opaque : Opaque;
  cr_debug : HandleDebugState;
}.

Record WriterState := {
  ws_last_heartbeat_timestamp_ms : Z;
  ws_lease_duration_ms : Z;
  ws_most_recent_write_token : IdempotencyToken;
  ws_most_recent_write_upper : Antichain T;
  ws_debug : HandleDebugState;
}.

Record StateCollections := {
  sc_version : Version;
  sc_last_gc_req : SeqNo;
  sc_rollups : BTreeMap SeqNo HollowRollup;
  sc_active_rollup : option ActiveRollup;
  sc_active_gc : option ActiveGc;
  sc_leased_readers : BTreeMap LeasedReaderId LeasedReaderState;
  sc_critical_readers : BTreeMap CriticalReaderId CriticalReaderState;
  sc_writers : BTreeMap WriterId WriterState;
  sc_schemas : BTreeMap SchemaId EncodedSchemas;
  sc_trace : Trace T;
}.

Record State := {
  st_shard_id : ShardId;
  st_seqno : SeqNo;
  st_walltime_ms : Z;
  st_hostname : string;
  st_collections : StateCollections;
}.

Inductive InvalidUsage :=
| InvalidBounds (lower upper : Antichain T)
| InvalidEmptyTimeInterval (lower upper : Antichain T) (keys : list str).

Inductive CompareAndAppendBreak :=
| CaaAlreadyCommitted
| CaaUpper (shard_upper writer_upper : Antichain T)
| CaaInvalidUsage (u : InvalidUsage)
| CaaInlineBackpressure.

Inductive SnapshotErr :=
| AsOfNotYetAvailable (seqno : SeqNo) (upper : Antichain T)
| AsOfHistoricalDistinctionsLost (since : Antichain T).
End types.

Arguments lr_seqno {T _}.
Arguments lr_since {T _}.
Arguments lr_last_heartbeat_timestamp_ms {T _}.
Arguments lr_lease_duration_ms {T _}.
Arguments lr_debug {T _}.
Arguments cr_since {T _}.
Arguments cr_opaque {T _}.
Arguments cr_debug {T _}.
Arguments ws_last_heartbeat_timestamp_ms {T _}.
Arguments ws_lease_duration_ms {T _}.
Arguments ws_most_recent_write_token {T _}.
Arguments ws_most_recent_write_upper {T _}.
Arguments ws_debug {T _}.
Arguments sc_version {T _ Version}.
Arguments sc_last_gc_req {T _ Version}.
Arguments sc_rollups {T _ Version}.
Arguments sc_active_rollup {T _ Version}.
Arguments sc_active_gc {T _ Version}.
Arguments sc_leased_readers {T _ Version}.
Arguments sc_critical_readers {T _ Version}.
Arguments sc_writers {T _ Version}.
Arguments sc_schemas {T _ Version}.
Arguments sc_trace {T _ Version}.
Arguments st_shard_id {T _ Version}.
Arguments st_seqno {T _ Version}.
Arguments st_walltime_ms {T _ Version}.
Arguments st_hostname {T _ Version}.
Arguments st_collections {T _ Version}.
Arguments InvalidBounds {T _}.
Arguments InvalidEmptyTimeInterval {T _}.
Arguments CaaAlreadyCommitted {T _}.
Arguments CaaUpper {T _}.
Arguments CaaInvalidUsage {T _}.
Arguments CaaInlineBackpressure {T _}.
Arguments AsOfNotYetAvailable {T _}.
Arguments AsOfHistoricalDistinctionsLost {T _}.

(** The derived equalities. *)
#[export] Instance HandleDebugState_eqdec : EqDecision HandleDebugState.
Proof. solve_decision. Defined.
#[export] Instance HollowRollup_eqdec : EqDecision HollowRollup.
Proof. solve_decision. Defined.
#[export] Instance ActiveRollup_eqdec : EqDecision ActiveRollup.
Proof. solve_decision. Defined.
#[export] Instance ActiveGc_eqdec : EqDecision ActiveGc.
Proof. solve_decision. Defined.
#[export] Instance EncodedSchemas_eqdec : EqDecision EncodedSchemas.
Proof. solve_decision. Defined.
#[export] Instance LeasedReaderState_eqdec {T} `{Timely T} : EqDecision (LeasedReaderState T).
Proof. solve_decision. Defined.
#[export] Instance CriticalReaderState_eqdec {T} `{Timely T} : EqDecision (CriticalReaderState T).
Proof. solve_decision. Defined.
#[export] Instance WriterState_eqdec {T} `{Timely T} : EqDecision (WriterState T).
Proof. solve_decision. Defined.

(** ** Schemas of a shard: the codecs of keys and values *)

Class SchemaCodec (Schema : Type) : Type := {
  schema_eqdec :: EqDecision Schema;
(** [Codec::encode_schema] and [Codec::decode_schema] *)
encode_schema : Schema -> Bytes;
decode_schema : Bytes -> Schema;
(** The data type an empty encoder finishes with; invalid schemas panic. *)
schema_data_type : Schema -> outcome DataType;
}.

(** The protobuf encoding of data types. *)
Class DataTypeCodec : Type := {
  encode_data_type : DataType -> Bytes;
  decode_data_type : Bytes -> outcome DataType;
}.

Inductive CaESchema (K V : Type) :=
| CaEOk (i : SchemaId)
| CaEIncompatible
| CaEExpectedMismatch (i : SchemaId) (key : K) (val : V).
Arguments CaEOk {K V}.
Arguments CaEIncompatible {K V}.
Arguments CaEExpectedMismatch {K V}.

(** ** The commands *)

Module StateCollections.
Section ops.
Context {T : Type} `{Timely T} {Version : Type}.
Implicit Types (s : StateCollections T Version).

Definition with_rollups s r : StateCollections T Version := {|
  sc_version := sc_version s; sc_last_gc_req := sc_last_gc_req s; sc_rollups := r;
  sc_active_rollup := sc_active_rollup s; sc_active_gc := sc_active_gc s;
  sc_leased_readers := sc_leased_readers s; sc_critical_readers := sc_critical_readers s;
  sc_writers := sc_writers s; sc_schemas := sc_schemas s; sc_trace := sc_trace s |}.

Definition with_active_rollup s r : StateCollections T Version := {|
  sc_version := sc_version s; sc_last_gc_req := sc_last_gc_req s; sc_rollups := sc_rollups s;
  sc_active_rollup := r; sc_active_gc := sc_active_gc s;
  sc_leased_readers := sc_leased_readers s; sc_critical_readers := sc_critical_readers s;
  sc_writers := sc_writers s; sc_schemas := sc_schemas s; sc_trace := sc_trace s |}.

Definition with_active_gc s g : StateCollections T Version := {|
  sc_version := sc_version s; sc_last_gc_req := sc_last_gc_req s; sc_rollups := sc_rollups s;
  sc_active_rollup := sc_active_rollup s; sc_active_gc := g;
  sc_leased_readers := sc_leased_readers s; sc_critical_readers := sc_critical_readers s;
  sc_writers := sc_writers s; sc_schemas := sc_schemas s; sc_trace := sc_trace s |}.

Definition with_last_gc_req s g : StateCollections T Version := {|
  sc_version := sc_version s; sc_last_gc_req := g; sc_rollups := sc_rollups s;
  sc_active_rollup := sc_active_rollup s; sc_active_gc := sc_active_gc s;
  sc_leased_readers := sc_leased_readers s; sc_critical_readers := sc_critical_readers s;
  sc_writers := sc_writers s; sc_schemas := sc_schemas s; sc_trace := sc_trace s |}.

Definition with_leased_readers s l : StateCollections T Version := {|
  sc_version := sc_version s; sc_last_gc_req := sc_last_gc_req s; sc_rollups := sc_rollups s;
  sc_active_rollup := sc_active_rollup s; sc_active_gc := sc_active_gc s;
  sc_leased_readers := l; sc_critical_readers := sc_critical_readers s;
  sc_writers := sc_writers s; sc_schemas := sc_schemas s; sc_trace := sc_trace s |}.

Definition with_critical_readers s c : StateCollections T Version := {|
  sc_version := sc_version s; sc_last_gc_req := sc_last_gc_req s; sc_rollups := sc_rollups s;
  sc_active_rollup := sc_active_rollup s; sc_active_gc := sc_active_gc s;
  sc_leased_readers := sc_leased_readers s; sc_critical_readers := c;
  sc_writers := sc_writers s; sc_schemas := sc_schemas s; sc_trace := sc_trace s |}.

Definition with_writers s w : StateCollections T Version := {|
  sc_version := sc_version s; sc_last_gc_req := sc_last_gc_req s; sc_rollups := sc_rollups s;
  sc_active_rollup := sc_active_rollup s; sc_active_gc := sc_active_gc s;
  sc_leased_readers := sc_leased_readers s; sc_critical_readers := sc_critical_readers s;
  sc_writers := w; sc_schemas := sc_schemas s; sc_trace := sc_trace s |}.

Definition with_schemas s x : StateCollections T Version := {|
  sc_version := sc_version s; sc_last_gc_req := sc_last_gc_req s; sc_rollups := sc_rollups s;
  sc_active_rollup := sc_active_rollup s; sc_active_gc := sc_active_gc s;
  sc_leased_readers := sc_leased_readers s; sc_critical_readers := sc_critical_readers s;
  sc_writers := sc_writers s; sc_schemas := x; sc_trace := sc_trace s |}.

Definition with_trace s t : StateCollections T Version := {|
  sc_version := sc_version s; sc_last_gc_req := sc_last_gc_req s; sc_rollups := sc_rollups s;
  sc_active_rollup := sc_active_rollup s; sc_active_gc := sc_active_gc s;
  sc_leased_readers := sc_leased_readers s; sc_critical_readers := sc_critical_readers s;
  sc_writers := sc_writers s; sc_schemas := sc_schemas s; sc_trace := t |}.

(** [Antichain::is_empty] *)
Definition frontier_is_empty (a : Antichain T) : bool := bool_decide (a = antichain_new).

Definition is_tombstone s : bool :=
  frontier_is_empty (Trace.upper (sc_trace s)) && frontier_is_empty (Trace.since (sc_trace s))
  && BTree.is_empty (sc_writers s) && BTree.is_empty (sc_leased_readers s)
  && BTree.is_empty (sc_critical_readers s).

Definition seqno_since s (seqno : SeqNo) : SeqNo :=
  foldl (fun acc cap => Z.min acc (lr_seqno cap)) seqno (BTree.values (sc_leased_readers s)).

Definition critical_since s : option (Antichain T) :=
  match cr_since <$> BTree.values (sc_critical_readers s) with
  | [] => None
  | since :: rest => Some (foldl fmeet since rest)
  end.

(** Without readers the since stays as it is. *)
Definition update_since s : StateCollections T Version :=
  match (lr_since <$> BTree.values (sc_leased_readers s)) ++ (cr_since <$> BTree.values (sc_critical_readers s)) with
  | [] => s
  | since :: rest => with_trace s (Trace.downgrade_since (sc_trace s) (foldl fmeet since rest))
  end.

Definition add_rollup s (rollup_seqno : SeqNo) (rollup : HollowRollup) :
    StateCollections T Version * ControlFlow bool bool :=
  match BTree.get rollup_seqno (sc_rollups s) with
  | Some x => (s, Continue (bool_decide (rollup_key x = rollup_key rollup)))
  | None =>
      if match BTree.keys (sc_rollups s) with
         | min_kept :: _ => rollup_seqno <? min_kept
         | [] => false
         end
      then (s, Continue false)
      else
        let s := with_active_rollup s None in
        (with_rollups s (BTree.insert rollup_seqno rollup (sc_rollups s)), Continue true)
  end.

(** Removes each rollup asked for and reports those that were there. *)
Fixpoint remove_each (rs : list (SeqNo * str)) (rollups : BTreeMap SeqNo HollowRollup) (removed : list SeqNo) :
    BTreeMap SeqNo HollowRollup * list SeqNo :=
  match rs with
  | [] => (rollups, removed)
  | (seqno, _) :: rs' =>
      remove_each rs' (BTree.remove seqno rollups)
        (if BTree.contains seqno rollups then removed ++ [seqno] else removed)
  end.

Definition remove_rollups s (rs : list (SeqNo * str)) :
    StateCollections T Version * ControlFlow (list SeqNo) (list SeqNo) :=
  if is_tombstone s then (s, Break [])
  else
    let active_gc_was_set := match sc_active_gc s with Some _ => true | None => false end in
    let s := with_active_gc s None in
    match rs with
    | [] => (s, if active_gc_was_set then Continue [] else Break [])
    | _ =>
        let (rollups, removed) := remove_each rs (sc_rollups s) [] in
        (with_rollups s rollups, Continue removed)
    end.

(** [lease_duration] is the duration in milliseconds, of any size. *)
Definition register_leased_reader s (hostname : string) (reader_id : LeasedReaderId) (purpose : string)
    (seqno : SeqNo) (lease_duration heartbeat_timestamp_ms : Z) (use_critical_since : bool) :
    outcome (StateCollections T Version * ControlFlow (LeasedReaderState T * SeqNo) (LeasedReaderState T * SeqNo)) :=
  let since := if use_critical_since then default (Trace.since (sc_trace s)) (critical_since s)
               else Trace.since (sc_trace s) in
  let! _ := assert_ (lease_duration <=? u64_max) in
  let reader_state := {|
    lr_debug := {| debug_hostname := hostname; debug_purpose := purpose |};
    lr_seqno := seqno; lr_since := since;
    lr_last_heartbeat_timestamp_ms := heartbeat_timestamp_ms;
    lr_lease_duration_ms := lease_duration |} in
  if is_tombstone s then Ret (s, Break (reader_state, seqno_since s seqno))
  else
    let s := with_leased_readers s (BTree.insert reader_id reader_state (sc_leased_readers s)) in
    Ret (s, Continue (reader_state, seqno_since s seqno)).

Definition register_critical_reader s (hostname : string) (reader_id : CriticalReaderId) (opaque : Opaque)
    (purpose : string) :
    StateCollections T Version * ControlFlow (CriticalReaderState T) (CriticalReaderState T) :=
  let state := {|
    cr_debug := {| debug_hostname := hostname; debug_purpose := purpose |};
    cr_since := Trace.since (sc_trace s); cr_opaque := opaque |} in
  if is_tombstone s then (s, Break state)
  else match BTree.get reader_id (sc_critical_readers s) with
       | Some existing_state =>
           let existing_state := {| cr_since := cr_since existing_state; cr_opaque := cr_opaque existing_state;
                                    cr_debug := cr_debug state |} in
           (with_critical_readers s (BTree.update reader_id (fun _ => existing_state) (sc_critical_readers s)),
            Continue existing_state)
       | None =>
           (with_critical_readers s (BTree.insert reader_id state (sc_critical_readers s)), Continue state)
       end.
End ops.

Section schemas.
Context {T : Type} `{Timely T} {Version : Type} {K V : Type} `{!SchemaCodec K} `{!SchemaCodec V} `{!DataTypeCodec}.
Implicit Types (s : StateCollections T Version).

Definition matches_schema (key_schema : K) (val_schema : V) (kv : SchemaId * EncodedSchemas) : bool :=
  bool_decide (decode_schema (es_key kv.2) = key_schema) && bool_decide (decode_schema (es_val kv.2) = val_schema).

Definition register_schema s (key_schema : K) (val_schema : V) :
    outcome (StateCollections T Version * ControlFlow (option SchemaId) (option SchemaId)) :=
  match find (matches_schema key_schema val_schema) (rev (sc_schemas s)) with
  | Some (schema_id, _) => Ret (s, Break (Some schema_id))
  | None =>
      if is_tombstone s then Ret (s, Break None)
      else if BTree.is_empty (sc_schemas s) then
        let i := {| schema_id_num := N.of_nat (length (sc_schemas s)) |} in
        let! key_data_type := schema_data_type key_schema in
        let! val_data_type := schema_data_type val_schema in
        let es := {| es_key := encode_schema key_schema; es_key_data_type := encode_data_type key_data_type;
                     es_val := encode_schema val_schema; es_val_data_type := encode_data_type val_data_type |} in
        let! _ := assert_ (negb (BTree.contains i (sc_schemas s))) in
        Ret (with_schemas s (BTree.insert i es (sc_schemas s)), Continue (Some i))
      else Ret (s, Break None)
  end.

Definition compare_and_evolve_schema s (expected : SchemaId) (key_schema : K) (val_schema : V) :
    outcome (StateCollections T Version * ControlFlow (CaESchema K V) (CaESchema K V)) :=
  let! (current_id, current) := expect (BTree.last_key_value (sc_schemas s)) in
  let current_key : K := decode_schema (es_key current) in
  let! current_key_dt := decode_data_type (es_key_data_type current) in
  let current_val : V := decode_schema (es_val current) in
  let! current_val_dt := decode_data_type (es_val_data_type current) in
  let! key_dt := schema_data_type key_schema in
  let! val_dt := schema_data_type val_schema in
  if bool_decide (current_key = key_schema) && bool_decide (current_key_dt = key_dt)
     && bool_decide (current_val = val_schema) && bool_decide (current_val_dt = val_dt)
  then Ret (s, Break (CaEOk current_id))
  else if negb (bool_decide (current_id = expected)) then
    Ret (s, Break (CaEExpectedMismatch current_id current_key current_val))
  else
    let! key_fn := backward_compatible current_key_dt key_dt in
    let! val_fn := backward_compatible current_val_dt val_dt in
    match key_fn, val_fn with
    | Some key_fn, Some val_fn =>
        if contains_drop key_fn || contains_drop val_fn then Ret (s, Break CaEIncompatible)
        else
          let i := {| schema_id_num := N.of_nat (length (sc_schemas s)) |} in
          let es := {| es_key := encode_schema key_schema; es_key_data_type := encode_data_type key_dt;
                       es_val := encode_schema val_schema; es_val_data_type := encode_data_type val_dt |} in
          Ret (with_schemas s (BTree.insert i es (sc_schemas s)), Continue (CaEOk i))
    | _, _ => Ret (s, Break CaEIncompatible)
    end.
End schemas.

Section writes.
Context {T : Type} `{Timely T} {Version : Type} `{!SemVer Version} `{UuidCodec}.
(** [Hashable::hashed] of differential dataflow. *)
Context (hashed : IdempotencyToken -> Z).
Implicit Types (s : StateCollections T Version).

Definition new_writer (heartbeat_timestamp_ms lease_duration_ms : Z) (debug_info : HandleDebugState) : WriterState T := {|
  ws_last_heartbeat_timestamp_ms := heartbeat_timestamp_ms;
  ws_lease_duration_ms := lease_duration_ms;
  ws_most_recent_write_token := SENTINEL;
  ws_most_recent_write_upper := min_frontier;
  ws_debug := debug_info |}.

(** The number of unclaimed compactions a write takes on. *)
Definition reqs_to_take (token : IdempotencyToken) (claim_compaction_percent : Z) : nat :=
  Z.to_nat (claim_compaction_percent / 100
            + if hashed token mod 100 <? claim_compaction_percent mod 100 then 1 else 0).

Definition extra_reqs (t : Trace T) (token : IdempotencyToken)
    (heartbeat_timestamp_ms lease_duration_ms claim_compaction_percent : Z)
    (claim_compaction_min_version : option Version) : outcome (list (FueledMergeReq T)) :=
  let threshold_ms := u64_saturating_sub heartbeat_timestamp_ms lease_duration_ms in
  let! min_writer := match claim_compaction_min_version with
                     | Some v => let! k := for_version v in Ret (Some k)
                     | None => Ret None
                     end in
  Trace.take_reqs (reqs_to_take token claim_compaction_percent)
    (Trace.fueled_merge_reqs_before_ms t threshold_ms min_writer).

(** The part of [compare_and_append] after its checks: the writes to the
    trace. *)
Definition append_batch (t : Trace T) (batch : HollowBatch T) (token : IdempotencyToken)
    (heartbeat_timestamp_ms lease_duration_ms claim_compaction_percent : Z)
    (claim_compaction_min_version : option Version) : outcome (Trace T * list (FueledMergeReq T)) :=
  let! (t, merge_reqs) :=
    (if negb (bool_decide (d_upper (hb_desc batch) = d_lower (hb_desc batch)))
     then Trace.push_batch t batch else Ret (t, [])) in
  let all_empty_reqs :=
    forallb (fun req => forallb (fun b => HollowBatch.is_empty (ihb_batch b)) (fmr_inputs req)) merge_reqs in
  let! merge_reqs :=
    (if all_empty_reqs && negb (HollowBatch.is_empty batch) then
       let! extra := extra_reqs t token heartbeat_timestamp_ms lease_duration_ms
                       claim_compaction_percent claim_compaction_min_version in
       Ret (merge_reqs ++ extra)
     else Ret merge_reqs) in
  let! t := foldM (fun t req => Trace.claim_compaction t (fmr_id req)
                                  {| ac_start_ms := heartbeat_timestamp_ms |}) merge_reqs t in
  Ret (t, merge_reqs).

Definition compare_and_append s (batch : HollowBatch T) (writer_id : WriterId)
    (heartbeat_timestamp_ms lease_duration_ms : Z) (idempotency_token : IdempotencyToken)
    (debug_info : HandleDebugState) (inline_writes_total_max_bytes claim_compaction_percent : Z)
    (claim_compaction_min_version : option Version) :
    outcome (StateCollections T Version * ControlFlow (CompareAndAppendBreak T) (list (FueledMergeReq T))) :=
  if is_tombstone s then
    let! _ := assert_ (bool_decide (Trace.upper (sc_trace s) = antichain_new)) in
    Ret (s, Break (CaaUpper antichain_new antichain_new))
  else
    let writer_state := default (new_writer heartbeat_timestamp_ms lease_duration_ms debug_info)
                          (BTree.get writer_id (sc_writers s)) in
    let s := with_writers s (BTree.insert writer_id writer_state (sc_writers s)) in
    let lower := d_lower (hb_desc batch) in
    let upper := d_upper (hb_desc batch) in
    if less_than upper lower then Ret (s, Break (CaaInvalidUsage (InvalidBounds lower upper)))
    else if bool_decide (upper = lower) && negb (HollowBatch.is_empty batch) then
      Ret (s, Break (CaaInvalidUsage
             (InvalidEmptyTimeInterval lower upper (RunPart.printable_name <$> hb_parts batch))))
    else if bool_decide (idempotency_token = ws_most_recent_write_token writer_state) then
      let! _ := assert_ (bool_decide (upper = ws_most_recent_write_upper writer_state)) in
      let! _ := assert_ (less_equal upper (Trace.upper (sc_trace s))) in
      Ret (s, Break CaaAlreadyCommitted)
    else
      let shard_upper := Trace.upper (sc_trace s) in
      if negb (bool_decide (shard_upper = lower)) then
        Ret (s, Break (CaaUpper shard_upper (ws_most_recent_write_upper writer_state)))
      else
        let new_inline_bytes := HollowBatch.inline_bytes batch in
        let existing_inline_bytes := sumZ (HollowBatch.inline_bytes <$> Trace.batches (sc_trace s)) in
        if (0 <? new_inline_bytes)
           && (inline_writes_total_max_bytes <=? existing_inline_bytes + new_inline_bytes)
        then Ret (s, Break CaaInlineBackpressure)
        else
          let! (t, merge_reqs) := append_batch (sc_trace s) batch idempotency_token heartbeat_timestamp_ms
                                    lease_duration_ms claim_compaction_percent claim_compaction_min_version in
          let! _ := assert_ (less_equal (ws_most_recent_write_upper writer_state) upper) in
          let writer_state := {|
            ws_last_heartbeat_timestamp_ms :=
              Z.max heartbeat_timestamp_ms (ws_last_heartbeat_timestamp_ms writer_state);
            ws_lease_duration_ms := ws_lease_duration_ms writer_state;
            ws_most_recent_write_token := idempotency_token;
            ws_most_recent_write_upper := upper;
            ws_debug := ws_debug writer_state |} in
          let s := with_trace s t in
          Ret (with_writers s (BTree.insert writer_id writer_state (sc_writers s)), Continue merge_reqs).
End writes.

Section maintenance.
Context {T : Type} `{Timely T} {Version : Type}.
Implicit Types (s : StateCollections T Version).

Definition apply_merge_res (D : Type) `{!PartCodec D} s (res : FueledMergeRes T) :
    outcome (StateCollections T Version * ControlFlow ApplyMergeResult ApplyMergeResult) :=
  if is_tombstone s then Ret (s, Break NotAppliedNoMatch)
  else
    let! (t, r) := Trace.apply_merge_res_checked D (sc_trace s) res in
    Ret (with_trace s t, Continue r).

Definition spine_exert s (fuel : Z) :
    outcome (StateCollections T Version * ControlFlow (list (FueledMergeReq T)) (list (FueledMergeReq T))) :=
  let! (t, merge_reqs, did_work) := Trace.exert (sc_trace s) fuel in
  let s := with_trace s t in
  if did_work : bool then Ret (s, Continue merge_reqs)
  else
    let! _ := assert_ (match merge_reqs with [] => true | _ => false end) in
    Ret (s, Break []).

Definition downgrade_since s (reader_id : LeasedReaderId) (seqno outstanding_seqno : SeqNo)
    (new_since : Antichain T) (heartbeat_timestamp_ms : Z) :
    outcome (StateCollections T Version * ControlFlow (Antichain T) (Antichain T)) :=
  if is_tombstone s then Ret (s, Break antichain_new)
  else match BTree.get reader_id (sc_leased_readers s) with
       | None => Ret (s, Break antichain_new)
       | Some reader_state =>
           let! _ := assert_ (lr_seqno reader_state <=? outstanding_seqno) in
           let advance := less_than (lr_since reader_state) new_since in
           let reader_state' := {|
             lr_seqno := Z.min outstanding_seqno seqno;
             lr_since := if advance then new_since else lr_since reader_state;
             lr_last_heartbeat_timestamp_ms :=
               Z.max heartbeat_timestamp_ms (lr_last_heartbeat_timestamp_ms reader_state);
             lr_lease_duration_ms := lr_lease_duration_ms reader_state;
             lr_debug := lr_debug reader_state |} in
           let s := with_leased_readers s (BTree.update reader_id (fun _ => reader_state') (sc_leased_readers s)) in
           Ret (if advance then update_since s else s, Continue (lr_since reader_state'))
       end.

Definition compare_and_downgrade_since s (reader_id : CriticalReaderId) (expected_opaque new_opaque : Opaque)
    (new_since : Antichain T) :
    outcome (StateCollections T Version *
             ControlFlow (result (Antichain T) (Opaque * Antichain T)) (result (Antichain T) (Opaque * Antichain T))) :=
  if is_tombstone s then Ret (s, Break (Ok antichain_new))
  else
    let! reader_state := expect (BTree.get reader_id (sc_critical_readers s)) in
    if negb (bool_decide (cr_opaque reader_state = expected_opaque)) then
      Ret (s, Continue (Err (cr_opaque reader_state, cr_since reader_state)))
    else
      let advance := less_equal (cr_since reader_state) new_since in
      let reader_state' := {|
        cr_since := if advance then new_since else cr_since reader_state;
        cr_opaque := new_opaque; cr_debug := cr_debug reader_state |} in
      let s := with_critical_readers s
                 (BTree.update reader_id (fun _ => reader_state') (sc_critical_readers s)) in
      Ret (if advance then update_since s else s, Continue (Ok (cr_since reader_state'))).

(** Expiring a reader does not move the since (see the comment there). *)
Definition expire_leased_reader s (reader_id : LeasedReaderId) :
    StateCollections T Version * ControlFlow bool bool :=
  if is_tombstone s then (s, Break false)
  else (with_leased_readers s (BTree.remove reader_id (sc_leased_readers s)),
        Continue (BTree.contains reader_id (sc_leased_readers s))).

Definition expire_critical_reader s (reader_id : CriticalReaderId) :
    StateCollections T Version * ControlFlow bool bool :=
  if is_tombstone s then (s, Break false)
  else (with_critical_readers s (BTree.remove reader_id (sc_critical_readers s)),
        Continue (BTree.contains reader_id (sc_critical_readers s))).

Definition expire_writer s (writer_id : WriterId) :
    StateCollections T Version * ControlFlow bool bool :=
  if is_tombstone s then (s, Break false)
  else (with_writers s (BTree.remove writer_id (sc_writers s)),
        Continue (BTree.contains writer_id (sc_writers s))).

Definition tombstone_batch : HollowBatch T :=
  HollowBatch.empty (desc_new min_frontier antichain_new antichain_new).

Definition is_single_empty_batch s : bool :=
  let bs := Trace.batches (sc_trace s) in
  (length bs <=? 1)%nat && forallb HollowBatch.is_empty bs.

(** The collections without any reader or writer. *)
Definition clear_handles s : StateCollections T Version :=
  with_critical_readers (with_leased_readers (with_writers s []) []) [].

Definition become_tombstone_and_shrink s :
    outcome (StateCollections T Version * ControlFlow unit unit) :=
  let! _ := assert_ (bool_decide (Trace.upper (sc_trace s) = antichain_new)) in
  let! _ := assert_ (bool_decide (Trace.since (sc_trace s) = antichain_new)) in
  let was_tombstone := is_tombstone s in
  let s := clear_handles s in
  let bs := Trace.batches (sc_trace s) in
  match find (fun b => negb (HollowBatch.is_empty b)) bs with
  | Some b =>
      let! (t, result) := Trace.apply_tombstone_merge (sc_trace s) (hb_desc b) in
      let! _ := assert_ (ApplyMergeResult_matched result) in
      Ret (with_trace s t, Continue tt)
  | None =>
      if (1 <? length bs)%nat then
        let new_trace := Trace.downgrade_since Trace.default antichain_new in
        let! (new_trace, merge_reqs) := Trace.push_batch new_trace tombstone_batch in
        let! _ := assert_ (match merge_reqs with [] => true | _ => false end) in
        Ret (with_trace s new_trace, Continue tt)
      else if negb was_tombstone then Ret (s, Continue tt)
      else Ret (s, Break tt)
  end.
End maintenance.
End StateCollections.

(** ** The state of a shard *)

Module State.
Section ops.
Context {T : Type} `{Timely T} {Version : Type}.
Implicit Types (x : State T Version).

Definition with_collections x c : State T Version := {|
  st_shard_id := st_shard_id x; st_seqno := st_seqno x; st_walltime_ms := st_walltime_ms x;
  st_hostname := st_hostname x; st_collections := c |}.

(** [TypedState::new] *)
Definition new (applier_version : Version) (shard_id : ShardId) (hostname : string) (walltime_ms : Z) :
    State T Version := {|
  st_shard_id := shard_id; st_seqno := SeqNo_minimum; st_walltime_ms := walltime_ms;
  st_hostname := hostname;
  st_collections := {|
    sc_version := applier_version; sc_last_gc_req := SeqNo_minimum; sc_rollups := [];
    sc_active_rollup := None; sc_active_gc := None; sc_leased_readers := [];
    sc_critical_readers := []; sc_writers := []; sc_schemas := []; sc_trace := Trace.default |} |}.

(** [TypedState::clone_apply]: the next state under a command, which sees
    the new sequence number; [now] is the wall clock. *)
Definition clone_apply {R E} x (now : Z) (hostname : string)
    (work_fn : SeqNo -> StateCollections T Version -> outcome (StateCollections T Version * ControlFlow E R)) :
    outcome (ControlFlow E (R * State T Version)) :=
  let seqno := SeqNo_next (st_seqno x) in
  let walltime_ms := if now <=? st_walltime_ms x then st_walltime_ms x + 1 else now in
  let! (collections, work_ret) := work_fn seqno (st_collections x) in
  Ret (match work_ret with
       | Break e => Break e
       | Continue r => Continue (r, {| st_shard_id := st_shard_id x; st_seqno := seqno;
                                       st_walltime_ms := walltime_ms; st_hostname := hostname;
                                       st_collections := collections |})
       end).

Definition since x : Antichain T := Trace.since (sc_trace (st_collections x)).
Definition upper x : Antichain T := Trace.upper (sc_trace (st_collections x)).
Definition seqno_since x : SeqNo := StateCollections.seqno_since (st_collections x) (st_seqno x).
Definition seqnos_held x : Z := u64_saturating_sub (st_seqno x) (seqno_since x).

Definition latest_rollup x : outcome (SeqNo * HollowRollup) :=
  expect (BTree.last_key_value (sc_rollups (st_collections x))).

Record GcConfig := {
  use_active_gc : bool;
  fallback_threshold_ms : Z;
  min_versions : Z;
  max_versions : Z;
}.

Record GcReq := { gc_shard_id : ShardId; gc_new_seqno_since : SeqNo }.

(** An active gc that has been running for too long. *)
Definition gc_stale (now threshold : Z) (active : ActiveGc) : bool :=
  threshold <? u64_saturating_sub now (ag_start_ms active).

Definition gc_threshold (cfg : GcConfig) (seqno : SeqNo) : Z :=
  if use_active_gc cfg then min_versions cfg
  else Z.max 1 (Z.of_nat (trailing_zeros (next_power_of_two seqno))).

Definition should_gc x (is_write : bool) (now : Z) (cfg : GcConfig) : bool :=
  let c := st_collections x in
  let due := gc_threshold cfg (st_seqno x) <=? u64_saturating_sub (seqno_since x) (sc_last_gc_req c) in
  let due := if use_active_gc cfg && negb due then
               match sc_active_gc c with
               | Some active => gc_stale now (fallback_threshold_ms cfg) active
               | None => false
               end
             else due in
  let due := due && (is_write || BTree.is_empty (sc_writers c)) in
  let due := due || StateCollections.is_tombstone c in
  if use_active_gc cfg then
    due && match sc_active_gc c with
           | Some active => gc_stale now (fallback_threshold_ms cfg) active
           | None => true
           end
  else due.

Definition maybe_gc x (is_write : bool) (now : Z) (cfg : GcConfig) : State T Version * option GcReq :=
  let gc_until_seqno := Z.min (seqno_since x)
                          (u64_saturating_add (sc_last_gc_req (st_collections x)) (max_versions cfg)) in
  if should_gc x is_write now cfg then
    (with_collections x (StateCollections.with_last_gc_req (st_collections x) gc_until_seqno),
     Some {| gc_shard_id := st_shard_id x; gc_new_seqno_since := gc_until_seqno |})
  else (x, None).

Record ExpiryMetrics := { readers_expired : Z; writers_expired : Z }.

(** The lease test; the sum wraps around in 64 bits. *)
Definition lease_holds (last_heartbeat lease_duration walltime_ms : Z) : bool :=
  walltime_ms <=? (last_heartbeat + lease_duration) mod 2 ^ 64.

Definition reader_holds (walltime_ms : Z) (_ : LeasedReaderId) (r : LeasedReaderState T) : bool :=
  lease_holds (lr_last_heartbeat_timestamp_ms r) (lr_lease_duration_ms r) walltime_ms.

Definition writer_holds (walltime_ms : Z) (_ : WriterId) (w : WriterState T) : bool :=
  lease_holds (ws_last_heartbeat_timestamp_ms w) (ws_lease_duration_ms w) walltime_ms.

Definition expire_at x (walltime_ms : Z) : State T Version * ExpiryMetrics :=
  let c := st_collections x in
  let readers := BTree.retain (reader_holds walltime_ms) (sc_leased_readers c) in
  let writers := BTree.retain (writer_holds walltime_ms) (sc_writers c) in
  (with_collections x (StateCollections.with_writers (StateCollections.with_leased_readers c readers) writers),
   {| readers_expired := Z.of_nat (length (sc_leased_readers c) - length readers);
      writers_expired := Z.of_nat (length (sc_writers c) - length writers) |}).

Definition snapshot x (as_of : Antichain T) : result (list (HollowBatch T)) (SnapshotErr T) :=
  let t := sc_trace (st_collections x) in
  if less_than as_of (Trace.since t) then Err (AsOfHistoricalDistinctionsLost (Trace.since t))
  else if less_equal (Trace.upper t) as_of then Err (AsOfNotYetAvailable (st_seqno x) (Trace.upper t))
  else Ok (filter (fun b => less_than as_of (d_lower (hb_desc b)) = false) (Trace.batches t)).

Definition verify_listen x (as_of : Antichain T) : result unit (Antichain T) :=
  if less_than as_of (since x) then Err (since x) else Ok tt.

Definition covers_frontier (frontier : Antichain T) (b : HollowBatch T) : bool :=
  less_equal (d_lower (hb_desc b)) frontier && less_than frontier (d_upper (hb_desc b)).

Definition next_listen_batch x (frontier : Antichain T) : result (HollowBatch T) SeqNo :=
  match find (covers_frontier frontier) (Trace.batches (sc_trace (st_collections x))) with
  | Some b => Ok b
  | None => Err (st_seqno x)
  end.

Definition DEFAULT_FALLBACK_ROLLUP_THRESHOLD_MULTIPLIER : Z := 3.

(** Panics without a rollup, and on a zero threshold in the mode without
    active rollups. *)
Definition need_rollup x (threshold : Z) (use_active_rollup : bool) (fallback_threshold_ms now : Z) :
    outcome (option SeqNo) :=
  let! (latest_rollup_seqno, _) := latest_rollup x in
  if StateCollections.is_tombstone (st_collections x) && (SeqNo_next latest_rollup_seqno <? st_seqno x)
  then Ret (Some (st_seqno x))
  else
    let seqnos_since_last_rollup := u64_saturating_sub (st_seqno x) latest_rollup_seqno in
    if use_active_rollup then
      Ret (if threshold <? seqnos_since_last_rollup then
             match sc_active_rollup (st_collections x) with
             | Some active => if fallback_threshold_ms <? u64_saturating_sub now (ar_start_ms active)
                              then Some (st_seqno x) else None
             | None => Some (st_seqno x)
             end
           else None)
    else
      let! every := (if 0 <? seqnos_since_last_rollup then
                       let! _ := assert_ (negb (threshold =? 0)) in
                       Ret (seqnos_since_last_rollup mod threshold =? 0)
                     else Ret false) in
      Ret (if every : bool then Some (st_seqno x)
           else if threshold * DEFAULT_FALLBACK_ROLLUP_THRESHOLD_MULTIPLIER <? seqnos_since_last_rollup
           then Some (st_seqno x) else None).

Inductive HollowBlobRef :=
| BlobBatch (b : HollowBatch T)
| BlobRollup (r : HollowRollup).

Definition blobs x : list HollowBlobRef :=
  (BlobBatch <$> Trace.batches (sc_trace (st_collections x)))
  ++ (BlobRollup <$> BTree.values (sc_rollups (st_collections x))).

Record StateSizeMetrics := {
  hollow_batch_count : Z;
  batch_part_count : Z;
  num_updates : Z;
  largest_batch_bytes : Z;
  state_batches_bytes : Z;
  state_rollups_bytes : Z;
  state_rollup_count : Z;
  inline_part_count : Z;
}.

Definition size_metrics_step (m : StateSizeMetrics) (b : HollowBlobRef) : StateSizeMetrics :=
  match b with
  | BlobBatch b => {|
      hollow_batch_count := hollow_batch_count m + 1;
      batch_part_count := batch_part_count m + Z.of_nat (HollowBatch.part_count b);
      num_updates := num_updates m + hb_len b;
      largest_batch_bytes := Z.max (largest_batch_bytes m) (HollowBatch.encoded_size_bytes b);
      state_batches_bytes := state_batches_bytes m + HollowBatch.encoded_size_bytes b;
      state_rollups_bytes := state_rollups_bytes m;
      state_rollup_count := state_rollup_count m;
      inline_part_count := inline_part_count m + Z.of_nat (length (filter (fun p => RunPart.is_inline p = true) (hb_parts b))) |}
  | BlobRollup r => {|
      hollow_batch_count := hollow_batch_count m;
      batch_part_count := batch_part_count m;
      num_updates := num_updates m;
      largest_batch_bytes := largest_batch_bytes m;
      state_batches_bytes := state_batches_bytes m;
      state_rollups_bytes := state_rollups_bytes m + default 0 (rollup_encoded_size_bytes r);
      state_rollup_count := state_rollup_count m + 1;
      inline_part_count := inline_part_count m |}
  end.

Definition size_metrics x : StateSizeMetrics :=
  foldl size_metrics_step
    {| hollow_batch_count := 0; batch_part_count := 0; num_updates := 0; largest_batch_bytes := 0;
       state_batches_bytes := 0; state_rollups_bytes := 0; state_rollup_count := 0; inline_part_count := 0 |}
    (blobs x).
End ops.
End State.
