(* ===== verification/StateDiff.v ===== *)
(** * State diffs (src/src/persist-client/src/internal/state_diff.rs)

    A version of a shard is stored as the difference to the version before
    it.  [from_diff] computes the difference of two states and [apply_diff]
    brings another copy of the first one up to date.  This file has the
    operations; the theorems are in [StateDiffFacts].  The encoding of a
    difference as bytes is left out: a version's data is the [StateDiff]. *)

From S2P Require Import Prelude Compare Timely BTree Schema Paths Consensus Batch Order Diff Spine Trace FlatTrace State.

Local Open Scope Z_scope.

Section types.
Context (T : Type) `{Timely T} (Version : Type).

Record StateDiff := {
  sd_applier_version : Version;
  sd_seqno_from : SeqNo;
  sd_seqno_to : SeqNo;
  sd_walltime_ms : Z;
  sd_latest_rollup_key : str;
  sd_rollups : list (StateFieldDiff SeqNo HollowRollup);
  sd_active_rollup : list (StateFieldDiff unit ActiveRollup);
  sd_active_gc : list (StateFieldDiff unit ActiveGc);
  sd_hostname : list (StateFieldDiff unit string);
  sd_last_gc_req : list (StateFieldDiff unit SeqNo);
  sd_leased_readers : list (StateFieldDiff LeasedReaderId (LeasedReaderState T));
  sd_critical_readers : list (StateFieldDiff CriticalReaderId (CriticalReaderState T));
  sd_writers : list (StateFieldDiff WriterId (WriterState T));
  sd_schemas : list (StateFieldDiff SchemaId EncodedSchemas);
  sd_since : list (StateFieldDiff unit (Antichain T));
  sd_legacy_batches : list (StateFieldDiff (HollowBatch T) unit);
  sd_hollow_batches : list (StateFieldDiff SpineId (HollowBatch T));
  sd_spine_batches : list (StateFieldDiff SpineId (ThinSpineBatch T));
  sd_merges : list (StateFieldDiff SpineId (ThinMerge T));
}.

(** The messages of [apply_diff]. *)
Inductive DiffErr :=
| WrongSeqNo
| BadField (e : FieldErr)
| SinceDidntMatch
| LenientFailed
| BadTrace (e : Unflatten.UnflattenErr).
End types.

Arguments sd_applier_version {T _ Version}.
Arguments sd_seqno_from {T _ Version}.
Arguments sd_seqno_to {T _ Version}.
Arguments sd_walltime_ms {T _ Version}.
Arguments sd_latest_rollup_key {T _ Version}.
Arguments sd_rollups {T _ Version}.
Arguments sd_active_rollup {T _ Version}.
Arguments sd_active_gc {T _ Version}.
Arguments sd_hostname {T _ Version}.
Arguments sd_last_gc_req {T _ Version}.
Arguments sd_leased_readers {T _ Version}.
Arguments sd_critical_readers {T _ Version}.
Arguments sd_writers {T _ Version}.
Arguments sd_schemas {T _ Version}.
Arguments sd_since {T _ Version}.
Arguments sd_legacy_batches {T _ Version}.
Arguments sd_hollow_batches {T _ Version}.
Arguments sd_spine_batches {T _ Version}.
Arguments sd_merges {T _ Version}.

(** [?] in a function that can also panic. *)
Definition orbind {A B E} (m : outcome (result A E)) (f : A -> outcome (result B E)) : outcome (result B E) :=
  let! r := m in match r with Ok a => f a | Err e => Ret (Err e) end.

Notation "'let+' x := m 'in' k" := (orbind m (fun x => k))
  (at level 10, x pattern, m at level 100, k at level 200,
   format "'[v' 'let+'  x  :=  m  'in' '/' k ']'") : outcome_scope.

Definition field {A} (r : result A FieldErr) : outcome (result A DiffErr) :=
  Ret (match r with Ok a => Ok a | Err e => Err (BadField e) end).

(** [opt.iter().map(|x| (&(), x))] *)
Definition once {V} (o : option V) : BTreeMap unit V := match o with Some v => [(tt, v)] | None => [] end.

(** ** Computing a difference *)

(** [code_can_read_data] *)
Definition code_can_read_data {Version} `{SemVer Version} (code_version data_version : Version) : bool :=
  precedence_leb data_version code_version.

Module StateDiff.
Section ops.
Context {T : Type} `{TimelyOrd T} {Version : Type}.
Implicit Types (d : StateDiff T Version).

Definition from_diff (from to : State T Version) : outcome (StateDiff T Version) :=
  let f := st_collections from in
  let t := st_collections to in
  let! _ := assert_ (bool_decide (st_shard_id from = st_shard_id to)) in
  let! (_, latest_rollup) := State.latest_rollup to in
  let! from_flat := Flatten.flatten (sc_trace f) in
  let! to_flat := Flatten.flatten (sc_trace t) in
  Ret {| sd_applier_version := sc_version t;
         sd_seqno_from := st_seqno from;
         sd_seqno_to := st_seqno to;
         sd_walltime_ms := st_walltime_ms to;
         sd_latest_rollup_key := rollup_key latest_rollup;
         sd_hostname := diff_field_single (st_hostname from) (st_hostname to);
         sd_last_gc_req := diff_field_single (sc_last_gc_req f) (sc_last_gc_req t);
         sd_active_rollup := diff_field_sorted_iter (once (sc_active_rollup f)) (once (sc_active_rollup t));
         sd_active_gc := diff_field_sorted_iter (once (sc_active_gc f)) (once (sc_active_gc t));
         sd_rollups := diff_field_sorted_iter (sc_rollups f) (sc_rollups t);
         sd_leased_readers := diff_field_sorted_iter (sc_leased_readers f) (sc_leased_readers t);
         sd_critical_readers := diff_field_sorted_iter (sc_critical_readers f) (sc_critical_readers t);
         sd_writers := diff_field_sorted_iter (sc_writers f) (sc_writers t);
         sd_schemas := diff_field_sorted_iter (sc_schemas f) (sc_schemas t);
         sd_since := diff_field_single (Trace.since (sc_trace f)) (Trace.since (sc_trace t));
         sd_legacy_batches := diff_field_sorted_iter (ft_legacy_batches from_flat) (ft_legacy_batches to_flat);
         sd_hollow_batches := diff_field_sorted_iter (ft_hollow_batches from_flat) (ft_hollow_batches to_flat);
         sd_spine_batches := diff_field_sorted_iter (ft_spine_batches from_flat) (ft_spine_batches to_flat);
         sd_merges := diff_field_sorted_iter (ft_merges from_flat) (ft_merges to_flat) |}.

(** ** What a difference says of the blobs *)

Definition legacy_batch_diff (diff : StateFieldDiff (HollowBatch T) unit) : option (StateFieldValDiff (HollowBatch T)) :=
  match fd_val diff with
  | Insert _ => Some (Insert (fd_key diff))
  | Update _ _ => None
  | Delete _ => Some (Delete (fd_key diff))
  end.

Definition referenced_batches d : list (StateFieldValDiff (HollowBatch T)) :=
  omap legacy_batch_diff (sd_legacy_batches d) ++ (fd_val <$> sd_hollow_batches d).

(** What is there after the change, and what was there before it. *)
Definition val_after {V} (x : StateFieldValDiff V) : option V :=
  match x with Insert v | Update _ v => Some v | Delete _ => None end.
Definition val_before {V} (x : StateFieldValDiff V) : option V :=
  match x with Insert _ => None | Update v _ | Delete v => Some v end.

Definition blob_inserts d : list (State.HollowBlobRef (T := T)) :=
  (State.BlobBatch <$> omap val_after (referenced_batches d))
  ++ (State.BlobRollup <$> omap (fun x => val_after (fd_val x)) (sd_rollups d)).

(** [added] is a [BTreeSet]: membership is by [Ord::cmp]. *)
Definition part_in (added : list (RunPart T)) (p : RunPart T) : bool :=
  existsb (fun q => match RunPart_cmp p q with Eq => true | _ => false end) added.

Definition part_deletes d : list (RunPart T) :=
  let removed := concat (hb_parts <$> omap val_before (referenced_batches d)) in
  let added := concat (hb_parts <$> omap val_after (referenced_batches d)) in
  filter (fun part => part_in added part = false) removed.

Definition rollup_deletes d : list HollowRollup :=
  omap (fun x => val_before (fd_val x)) (sd_rollups d).

(** [StateDiff::decode] after the protobuf message is read: the process
    halts on data from a later version of the code. *)
Definition decode `{!SemVer Version} (build_version : Version) d : outcome (StateDiff T Version) :=
  let! _ := assert_ (code_can_read_data build_version (sd_applier_version d)) in Ret d.
End ops.
End StateDiff.

(** ** Applying a difference to a trace without structure *)

Module SpineDiff.
Section ops.
Context {T : Type} `{TimelyOrd T}.

Definition BatchDiff : Type := StateFieldDiff (HollowBatch T) unit.

Definition is_insert (d : BatchDiff) : bool := match fd_val d with Insert _ => true | _ => false end.

(** Takes out the first insertion whose lower is the upper of the trace. *)
Fixpoint sniff_insert (diffs : list BatchDiff) (upper : Antichain T) : option (HollowBatch T) * list BatchDiff :=
  match diffs with
  | [] => (None, [])
  | d :: diffs' =>
      if is_insert d && bool_decide (d_lower (hb_desc (fd_key d)) = upper) then (Some (fd_key d), diffs')
      else let '(r, rest) := sniff_insert diffs' upper in (r, d :: rest)
  end.

(** One insertion, no updates: the batch a compaction has written.  The
    inputs are not used by the caller. *)
Definition sniff_compaction (diffs : list BatchDiff) : option (list (HollowBatch T) * HollowBatch T) :=
  match filter (fun d => is_insert d = true) diffs with
  | [compaction_output] =>
      if existsb (fun d => match fd_val d with Update _ _ => true | _ => false end) diffs then None
      else Some (fd_key <$> filter (fun d => is_insert d = false) diffs, fd_key compaction_output)
  | _ => None
  end.

Definition overlaps (replacement b : HollowBatch T) : bool :=
  negb (less_equal (d_upper (hb_desc b)) (d_lower (hb_desc replacement))
        || less_equal (d_upper (hb_desc replacement)) (d_lower (hb_desc b))).

Fixpoint lowers_line_up (expected_lower : Antichain T) (bs : list (HollowBatch T)) : bool :=
  match bs with
  | [] => true
  | b :: bs' => bool_decide (d_lower (hb_desc b) = expected_lower) && lowers_line_up (d_upper (hb_desc b)) bs'
  end.

(** The part of an empty batch that a replacement leaves. *)
Definition leftover (outside : bool) (b : HollowBatch T) (lower upper : Antichain T) : result (list (HollowBatch T)) DiffErr :=
  if outside then
    if 0 <? hb_len b then Err LenientFailed
    else Ok [HollowBatch.empty (desc_new lower upper (d_since (hb_desc b)))]
  else Ok [].

Definition apply_compaction_lenient (trace : list (HollowBatch T)) (replacement : HollowBatch T) :
    result (list (HollowBatch T)) DiffErr :=
  let overlapping_batches := filter (fun b => overlaps replacement b = true) trace in
  let trace := filter (fun b => overlaps replacement b = false) trace in
  match head overlapping_batches, last overlapping_batches with
  | Some first_, Some last_ =>
      let lower := d_lower (hb_desc replacement) in
      let upper := d_upper (hb_desc replacement) in
      let? before := leftover (less_than (d_lower (hb_desc first_)) lower) first_ (d_lower (hb_desc first_)) lower in
      let? after := leftover (less_than upper (d_upper (hb_desc last_))) last_ upper (d_upper (hb_desc last_)) in
      let trace := Unflatten.sort_by (fun a b => elements_cmp (d_lower (hb_desc a)) (d_lower (hb_desc b)))
                     (trace ++ before ++ after ++ [replacement]) in
      if lowers_line_up min_frontier trace then Ok trace else Err LenientFailed
  | _, _ => Err LenientFailed
  end.

(** A new trace from a list of batches. *)
Definition rebuild (t : Trace T) (since : Antichain T) (batches : list (HollowBatch T)) : outcome (Trace T) :=
  let new_trace := Trace.downgrade_since
                     {| tr_spine := Spine.new; tr_roundtrip_structure := tr_roundtrip_structure t |} since in
  foldM Trace.push_batch_no_merge_reqs batches new_trace.

(** [batches.insert(b.clone(), ())], which must be new. *)
Definition batch_map (bs : list (HollowBatch T)) : outcome (BTreeMap (HollowBatch T) unit) :=
  foldM (fun m b => let! _ := assert_ (match CMap.get b m with None => true | Some _ => false end) in
                    Ret (CMap.insert b tt m)) bs [].

(** The trace whose batches are changed by the map diffs; failing that, one
    rebuilt from the same batches. *)
Definition apply_slow (diffs : list BatchDiff) (t : Trace T) : outcome (result (Trace T) DiffErr) :=
  let! batches := batch_map (Trace.batches t) in
  let+ batches := match apply_diffs_map diffs batches with
                  | Ok batches => Ret (Ok batches)
                  | Err _ =>
                      let! reconstructed := rebuild t min_frontier (Trace.batches t) in
                      let! batches := batch_map (Trace.batches reconstructed) in
                      field (apply_diffs_map diffs batches)
                  end in
  let! t := rebuild t (Trace.since t) (fst <$> batches) in
  Ret (Ok t).

Definition apply_compaction (diffs : list BatchDiff) (t : Trace T) : outcome (result (Trace T) DiffErr) :=
  match sniff_compaction diffs with
  | Some (_, output) =>
      let res := {| fres_output := output; fres_input := CLegacy; fres_new_active_compaction := None |} in
      let! (t, r) := Trace.apply_merge_res_unchecked t res in
      if ApplyMergeResult_applied r then Ret (Ok t)
      else
        match apply_compaction_lenient (Trace.batches t) output with
        | Ok batches => let! t := rebuild t (Trace.since t) batches in Ret (Ok t)
        | Err e => Ret (Err e)
        end
  | None => apply_slow diffs t
  end.

(** A batch appended to an empty one. *)
Definition grows_empty (del ins : HollowBatch T) : bool :=
  HollowBatch.is_empty del && HollowBatch.is_empty ins
  && bool_decide (d_lower (hb_desc del) = d_lower (hb_desc ins))
  && less_than (d_upper (hb_desc del)) (d_upper (hb_desc ins)).

Definition apply_rest (diffs : list BatchDiff) (t : Trace T) : outcome (result (Trace T) DiffErr) :=
  match diffs with
  | [] => Ret (Ok t)
  | [FieldDiff del (Delete _); FieldDiff ins (Insert _)] =>
      if grows_empty del ins then
        let! t := Trace.push_batch_no_merge_reqs t
                    (HollowBatch.empty (desc_new (d_upper (hb_desc del)) (d_upper (hb_desc ins)) min_frontier)) in
        Ret (Ok t)
      else apply_compaction diffs t
  | _ => apply_compaction diffs t
  end.

Definition apply_diffs_spine (diffs : list BatchDiff) (t : Trace T) : outcome (result (Trace T) DiffErr) :=
  let '(insert, diffs) := sniff_insert diffs (Trace.upper t) in
  match insert with
  | Some insert => let! t := Trace.push_batch_no_merge_reqs t insert in apply_rest diffs t
  | None => apply_rest diffs t
  end.

(** The diffs of the since of such a trace. *)
Definition apply_since (diffs : list (StateFieldDiff unit (Antichain T))) (t : Trace T) : result (Trace T) DiffErr :=
  apply_each (fun x t =>
    match fd_val x with
    | Update from to =>
        if negb (bool_decide (Trace.since t = from)) then Err SinceDidntMatch else Ok (Trace.downgrade_since t to)
    | Insert _ => Err (BadField CannotInsertField)
    | Delete _ => Err (BadField CannotDeleteField)
    end) diffs t.
End ops.
End SpineDiff.

(** ** Applying a difference to a state *)

Module ApplyDiff.
Section ops.
Context {T : Type} `{TimelyOrd T} {Version : Type}.
Implicit Types (d : StateDiff T Version) (x : State T Version).

Definition is_nil {A} (l : list A) : bool := match l with [] => true | _ => false end.

Definition structure_unchanged d : bool :=
  is_nil (sd_hollow_batches d) && is_nil (sd_spine_batches d) && is_nil (sd_merges d).

Definition spine_unchanged d : bool :=
  is_nil (sd_since d) && is_nil (sd_legacy_batches d) && structure_unchanged d.

(** The since and the legacy batches: on the flattened trace when it has
    its structure, otherwise on the trace itself. *)
Definition apply_legacy d (t : Trace T) : outcome (result (Trace T * option (FlatTrace T)) DiffErr) :=
  if tr_roundtrip_structure t then
    let! flat := Flatten.flatten t in
    let+ since := field (apply_diffs_single (sd_since d) (ft_since flat)) in
    let+ legacy := field (apply_diffs_map (sd_legacy_batches d) (ft_legacy_batches flat)) in
    Ret (Ok (t, Some {| ft_since := since; ft_legacy_batches := legacy; ft_hollow_batches := ft_hollow_batches flat;
                        ft_spine_batches := ft_spine_batches flat; ft_merges := ft_merges flat |}))
  else
    let+ t := Ret (SpineDiff.apply_since (sd_since d) t) in
    let+ t := if negb (is_nil (sd_legacy_batches d)) then SpineDiff.apply_diffs_spine (sd_legacy_batches d) t
              else Ret (Ok t) in
    Ret (Ok (t, None)).

Definition apply_structure d (flat : FlatTrace T) : outcome (result (FlatTrace T) DiffErr) :=
  let+ hollow := field (apply_diffs_map (sd_hollow_batches d) (ft_hollow_batches flat)) in
  let+ spine := field (apply_diffs_map (sd_spine_batches d) (ft_spine_batches flat)) in
  let+ merges := field (apply_diffs_map (sd_merges d) (ft_merges flat)) in
  Ret (Ok {| ft_since := ft_since flat; ft_legacy_batches := ft_legacy_batches flat;
             ft_hollow_batches := hollow; ft_spine_batches := spine; ft_merges := merges |}).

Definition apply_trace d (t : Trace T) : outcome (result (Trace T) DiffErr) :=
  if spine_unchanged d then Ret (Ok t)
  else
    let+ (t, flat) := apply_legacy d t in
    let+ flat := if negb (structure_unchanged d) then
                   let! flat := match flat with Some flat => Ret flat | None => Flatten.flatten t end in
                   let+ flat := apply_structure d flat in
                   Ret (Ok (Some flat))
                 else Ret (Ok flat) in
    match flat with
    | Some flat =>
        let! r := Unflatten.unflatten flat in
        Ret (match r with Ok t => Ok t | Err e => Err (BadTrace e) end)
    | None => Ret (Ok t)
    end.

Definition apply_diff d x : outcome (result (State T Version) DiffErr) :=
  if bool_decide (st_seqno x = sd_seqno_to d) then Ret (Ok x)
  else if negb (bool_decide (st_seqno x = sd_seqno_from d)) then Ret (Err WrongSeqNo)
  else
    let c := st_collections x in
    let+ hostname := field (force_apply_diffs_single (sd_hostname d) (st_hostname x)) in
    let+ rollups := field (apply_diffs_map (sd_rollups d) (sc_rollups c)) in
    let+ last_gc_req := field (apply_diffs_single (sd_last_gc_req d) (sc_last_gc_req c)) in
    let+ active_rollup := field (apply_diffs_single_option (sd_active_rollup d) (sc_active_rollup c)) in
    let+ active_gc := field (apply_diffs_single_option (sd_active_gc d) (sc_active_gc c)) in
    let+ leased_readers := field (apply_diffs_map (sd_leased_readers d) (sc_leased_readers c)) in
    let+ critical_readers := field (apply_diffs_map (sd_critical_readers d) (sc_critical_readers c)) in
    let+ writers := field (apply_diffs_map (sd_writers d) (sc_writers c)) in
    let+ schemas := field (apply_diffs_map (sd_schemas d) (sc_schemas c)) in
    let+ trace := apply_trace d (sc_trace c) in
    Ret (Ok {| st_shard_id := st_shard_id x; st_seqno := sd_seqno_to d; st_walltime_ms := sd_walltime_ms d;
               st_hostname := hostname;
               st_collections := {| sc_version := sd_applier_version d; sc_last_gc_req := last_gc_req;
                                    sc_rollups := rollups; sc_active_rollup := active_rollup;
                                    sc_active_gc := active_gc; sc_leased_readers := leased_readers;
                                    sc_critical_readers := critical_readers; sc_writers := writers;
                                    sc_schemas := schemas; sc_trace := trace |} |}).

(** One turn of the loop of [apply_diffs]: an error is a panic. *)
Definition apply_or_panic x d : outcome (State T Version) :=
  let! r := apply_diff d x in
  match r with Ok x => Ret x | Err _ => Panic end.

Definition apply_diffs (diffs : list (StateDiff T Version)) x : outcome (State T Version) :=
  foldM apply_or_panic diffs x.

(** The versions that do not continue the state are skipped. *)
Definition encoded_step `{!SemVer Version} (build_version : Version) (st : SeqNo * State T Version)
    (v : VersionedData (StateDiff T Version)) : outcome (SeqNo * State T Version) :=
  let '(state_seqno, x) := st in
  if negb (bool_decide (vd_seqno v = SeqNo_next state_seqno)) then Ret (state_seqno, x)
  else
    let! d := StateDiff.decode build_version (vd_data v) in
    let! _ := assert_ (bool_decide (sd_seqno_from d = state_seqno)) in
    let! x := apply_or_panic x d in
    Ret (sd_seqno_to d, x).

Definition apply_encoded_diffs `{!SemVer Version} (build_version : Version)
    (diffs : list (VersionedData (StateDiff T Version))) x : outcome (State T Version) :=
  let! (_, x) := foldM (encoded_step build_version) diffs (st_seqno x, x) in Ret x.
End ops.
End ApplyDiff.
