(* ===== verification/StateDiffFacts.v ===== *)
(** * State diffs: the round trip

    The difference of two states, applied to the first, gives the second.
    What the code relies on is stated as [comparable_states]: both states
    satisfy their invariants, a key names one run in both, and an id of the
    spine covers the same times in both. *)

From S2P Require Import Prelude Compare Timely BTree Schema Paths Consensus Batch Order Diff Spine SpineFacts SpineCorrect Trace TraceFacts FlatTrace FlatFacts State StateDiff.

Local Open Scope Z_scope.

(** ** Fields *)

Lemma single_roundtrip {V} `{EqDecision V} (a b : V) : apply_diffs_single (diff_field_single a b) a = Ok b.
Proof.
  unfold diff_field_single, val_eqb, derived_eq. destruct (bool_decide (a = b)) eqn:E.
  - by apply bool_decide_eq_true in E as ->.
  - unfold apply_diffs_single. simpl. unfold apply_diff_single, val_eqb, derived_eq. simpl. by rewrite bool_decide_eq_true_2.
Qed.

Lemma forced_roundtrip {V} `{EqDecision V} (a b : V) : force_apply_diffs_single (diff_field_single a b) a = Ok b.
Proof.
  unfold diff_field_single, val_eqb, derived_eq. destruct (bool_decide (a = b)) eqn:E; [|done].
  by apply bool_decide_eq_true in E as ->.
Qed.

Lemma option_roundtrip {V} `{EqDecision V} (a b : option V) :
  apply_diffs_single_option (diff_field_sorted_iter (once a) (once b)) a = Ok b.
Proof.
  unfold apply_diffs_single_option. destruct a as [a|], b as [b|]; simpl; try done.
  - unfold val_eqb, derived_eq. destruct (bool_decide (a = b)) eqn:E; simpl.
    + by apply bool_decide_eq_true in E as ->.
    + unfold apply_diff_single_option. simpl. unfold val_eqb, derived_eq. by rewrite bool_decide_eq_true_2.
  - unfold apply_diff_single_option. simpl. unfold val_eqb, derived_eq. by rewrite bool_decide_eq_true_2.
Qed.

Lemma map_roundtrip {K V} `{KeyOrd K} `{EqDecision V} (a b : BTreeMap K V) : BTree.sorted a -> BTree.sorted b ->
  apply_diffs_map (diff_field_sorted_iter a b) a = Ok b.
Proof.
  intros Ha%CMap.sorted_btree Hb%CMap.sorted_btree. apply diff_apply_exact; [done|done|].
  intros x y _ _ E. by apply cmp_eq in E.
Qed.

(** Maps without a difference are the same. *)
Lemma no_diff {K V} `{KeyCmp K} `{!CmpLaws (key_cmp (K := K))} `{ValEq V} (a b : BTreeMap K V) :
  diff_field_sorted_iter a b = [] -> Forall2 (entry_from a) a b.
Proof.
  revert b. induction a as [|[k v] a IH]; intros [|[k' v'] b]; simpl; [constructor|done|done|].
  destruct (key_cmp k k') eqn:E; [|done|done]. destruct (val_eqb v v') eqn:Ev; [|done]. simpl. intros Hd.
  constructor; [right; split_and!; [by apply elem_of_cons; left|done|done]|].
  eapply entry_from_mono; [|by apply IH]. intros. by apply elem_of_cons; right.
Qed.

Lemma no_diff_single {V} `{EqDecision V} (a b : V) : diff_field_single a b = [] -> a = b.
Proof. unfold diff_field_single, val_eqb, derived_eq. destruct (bool_decide (a = b)) eqn:E; [|done]. by apply bool_decide_eq_true in E. Qed.

(** ** Traces *)

Section traces.
Context {T : Type} `{TL : TimelyLaws T} `{TO : !TimelyOrd T} `{TOL : !TimelyOrdLaws T}.
Implicit Types (t : Trace T) (f : FlatTrace T).

(** Batches that a diff does not tell apart have parts with the same bounds. *)
Definition parts_agree t t' : Prop := forall b b',
  b ∈ Spine.spine_batches (tr_spine t) -> b' ∈ Spine.spine_batches (tr_spine t') ->
  sb_desc b = sb_desc b' -> ihb_id <$> sb_parts b = ihb_id <$> sb_parts b' ->
  Forall2 same_bounds ((fun p => hb_desc (ihb_batch p)) <$> sb_parts b) ((fun p => hb_desc (ihb_batch p)) <$> sb_parts b').

(** A key names one run in both traces. *)
Definition runs_agree t t' : Prop :=
  forall h h', h ∈ Trace.batches t -> h' ∈ Trace.batches t' -> refs_agree (hb_parts h) (hb_parts h').

Lemma elem_of_thins ms x : x ∈ thins_of (T := T) ms -> exists k b, b ∈ batches_of ms /\ x = (sb_id b, Flatten.thin k b).
Proof.
  induction ms as [|m ms IH] using rev_ind; [by intros ?%not_elem_of_nil|].
  rewrite thins_of_snoc, batches_of_snoc, elem_of_app. intros [Hx|Hx].
  - apply list_elem_of_fmap in Hx as (b & -> & Hb). exists (length ms), b. rewrite elem_of_app. auto.
  - apply IH in Hx as (k & b & Hb & ->). exists k, b. rewrite elem_of_app. auto.
Qed.

Lemma entry_thin_like t t' x y : parts_agree t t' -> entry_from (thins_of (sp_merging (tr_spine t))) x y ->
  y ∈ thins_of (sp_merging (tr_spine t')) -> thin_like x y.
Proof.
  intros Hag [->|(Hx & Ek & Ev)] Hy; [apply thin_like_refl|]. apply cmp_eq in Ek. split; [done|]. split; [done|].
  apply elem_of_thins in Hx as (k & b & Hb & ->), Hy as (k' & b' & Hb' & ->). simpl.
  unfold val_eqb, ThinSpineBatch_eq in Ev. rewrite !andb_true_iff, !bool_decide_eq_true in Ev. destruct Ev as [[_ Hdesc] Hids].
  by apply Hag.
Qed.

Lemma spine_entries_like t t' S : parts_agree t t' -> Forall2 (entry_from (thins_of (sp_merging (tr_spine t)))) S (thins_of (sp_merging (tr_spine t'))) ->
  Forall2 thin_like S (thins_of (sp_merging (tr_spine t'))).
Proof.
  intros Hag HS. apply Forall2_same_length_lookup. split; [by eapply Forall2_length|].
  intros i x y Hx Hy. eapply entry_thin_like; [done|by eapply Forall2_lookup_lr|by eapply list_elem_of_lookup_2].
Qed.

Lemma legacy_keys_agree t t' f f' : runs_agree t t' -> flat_of f t -> flat_of f' t' ->
  keys_agree (ft_legacy_batches f) (ft_legacy_batches f').
Proof.
  intros Hag Hf Hf' [a []] [b []] Ha Hb E. simpl in *. apply HollowBatch_cmp_Eq; [done|].
  destruct Hf as [_ [_ Hp] _ _ _], Hf' as [_ [_ Hp'] _ _ _]. rewrite Hp in Ha. rewrite Hp' in Hb.
  assert (Hin : forall t h, (h, tt) ∈ (fun h => (h, tt)) <$> by_range (parts_of (sp_merging (tr_spine t))) -> h ∈ Trace.batches (T := T) t).
  { intros s h (h' & [= ->] & (p & -> & [_ Hin]%list_elem_of_filter)%list_elem_of_fmap)%list_elem_of_fmap. by apply list_elem_of_fmap_2. }
  apply Hag; by apply Hin.
Qed.

Lemma thin_eq_refl (x : ThinSpineBatch T) : val_eqb x x = true.
Proof. unfold val_eqb, ThinSpineBatch_eq. by rewrite !bool_decide_eq_true_2. Qed.

Lemma forall2_exact {K V} `{KeyCmp K} `{EqDecision V} (a m b : BTreeMap K V) : keys_agree a b ->
  Forall2 (entry_from a) m b -> m = b.
Proof.
  intros Hk Hall. assert (Hin : Forall (fun y => y ∈ b) b) by (by apply Forall_forall).
  revert Hall Hin. generalize b at 1 3 4 as b'. intros b'.
  induction 1 as [|x y m' b' Hxy _ IH]; intros Hin; [done|]. inversion_clear Hin. f_equal; [|by apply IH].
  destruct Hxy as [->|(Ha & Ek & Ev)]; [done|]. apply bool_decide_eq_true in Ev.
  apply Hk in Ek; [|done|done]. destruct x, y. simpl in *. congruence.
Qed.

(** The flattened trace after the diffs. *)
Lemma apply_structure_ok t t' f f' S : flat_of f t -> flat_of f' t' -> spine_ok (tr_spine t') ->
  parts_agree t t' -> spine_ok (tr_spine t) -> 
  Forall2 (entry_from (ft_spine_batches f)) S (ft_spine_batches f') ->
  flat_like {| ft_since := ft_since f'; ft_legacy_batches := ft_legacy_batches f'; ft_hollow_batches := ft_hollow_batches f';
               ft_spine_batches := S; ft_merges := ft_merges f' |} t'.
Proof.
  intros Hf Hf' Hs' Hag Hs HS. rewrite (flat_of_spine f t), (flat_of_spine f' t') in HS by done.
  destruct Hf' as [H0 H1 H2 _ H4]. split; try done. by eapply spine_entries_like.
Qed.

Lemma id_keys_agree {V} (a b : BTreeMap SpineId V) : keys_agree a b.
Proof. intros x y _ _ E. by apply cmp_eq in E. Qed.

Context {Version : Type}.

(** The part of a difference that concerns the trace. *)
Record trace_diff (d : StateDiff T Version) t t' f f' : Prop := {
  td_since : sd_since d = diff_field_single (Trace.since t) (Trace.since t');
  td_legacy : sd_legacy_batches d = diff_field_sorted_iter (ft_legacy_batches f) (ft_legacy_batches f');
  td_hollow : sd_hollow_batches d = diff_field_sorted_iter (ft_hollow_batches f) (ft_hollow_batches f');
  td_spine : sd_spine_batches d = diff_field_sorted_iter (ft_spine_batches f) (ft_spine_batches f');
  td_merges : sd_merges d = diff_field_sorted_iter (ft_merges f) (ft_merges f');
}.

Lemma is_nil_true {A} (l : list A) : ApplyDiff.is_nil l = true -> l = [].
Proof. by destruct l. Qed.

(** Nothing is recorded when the structure is the same. *)
Lemma structure_same d t t' f f' : trace_diff d t t' f f' -> ApplyDiff.structure_unchanged d = true ->
  ft_hollow_batches f = ft_hollow_batches f' /\ ft_merges f = ft_merges f' /\
  Forall2 (entry_from (ft_spine_batches f)) (ft_spine_batches f) (ft_spine_batches f').
Proof.
  intros [_ _ Hh Hs Hm]. unfold ApplyDiff.structure_unchanged. rewrite !andb_true_iff, Hh, Hs, Hm.
  intros [[H1%is_nil_true%no_diff H2%is_nil_true%no_diff] H3%is_nil_true%no_diff].
  split_and!; [exact (forall2_exact _ _ _ (id_keys_agree _ _) H1)|exact (forall2_exact _ _ _ (id_keys_agree _ _) H3)|done].
Qed.

(** The structure after the diffs, changed or not. *)
Lemma structure_applied d t t' f f' since legacy : trace_diff d t t' f f' -> flat_of f t -> flat_of f' t' ->
  exists S, Forall2 (entry_from (ft_spine_batches f)) S (ft_spine_batches f') /\
    ApplyDiff.apply_structure d {| ft_since := since; ft_legacy_batches := legacy; ft_hollow_batches := ft_hollow_batches f;
                                   ft_spine_batches := ft_spine_batches f; ft_merges := ft_merges f |}
    = Ret (Ok {| ft_since := since; ft_legacy_batches := legacy; ft_hollow_batches := ft_hollow_batches f';
                 ft_spine_batches := S; ft_merges := ft_merges f' |}).
Proof.
  intros [_ _ Hh Hs Hm] Hf Hf'. destruct Hf as [_ _ [Hh1 _] [Hs1 _] [Hm1 _]], Hf' as [_ _ [Hh2 _] [Hs2 _] [Hm2 _]].
  destruct (diff_apply_map thin_eq_refl (ft_spine_batches f) (ft_spine_batches f') Hs1 Hs2 (id_keys_agree _ _)) as (S & HS & Hall).
  exists S. split; [done|]. unfold ApplyDiff.apply_structure, field. simpl. rewrite Hh, Hs, Hm.
  by rewrite (diff_apply_exact _ _ Hh1 Hh2 (id_keys_agree _ _)), HS, (diff_apply_exact _ _ Hm1 Hm2 (id_keys_agree _ _)).
Qed.

Lemma apply_trace_ok d t t' f f' : flattable t -> flattable t' -> parts_agree t t' -> runs_agree t t' ->
  Flatten.flatten t = Ret f -> flat_of f t -> flat_of f' t' -> trace_diff d t t' f f' ->
  ApplyDiff.apply_trace d t = Ret (Ok t').
Proof.
  intros Ht Ht' Hids Hruns Hfl Hf Hf' Hd. pose proof Ht as [Hs Hr _ _]. pose proof Ht' as [Hs' _ _ _].
  pose proof (legacy_keys_agree t t' f f' Hruns Hf Hf') as Hk.
  assert (Hput : forall S, Forall2 (entry_from (ft_spine_batches f)) S (ft_spine_batches f') ->
    Unflatten.unflatten {| ft_since := ft_since f'; ft_legacy_batches := ft_legacy_batches f'; ft_hollow_batches := ft_hollow_batches f';
                           ft_spine_batches := S; ft_merges := ft_merges f' |} = Ret (Ok t')).
  { intros S HS. apply unflatten_ok; [done|]. exact (apply_structure_ok t t' f f' S Hf Hf' Hs' Hids Hs HS). }
  pose proof (fh_since _ _ _ _ _ Hf) as Hsi. pose proof (fh_since _ _ _ _ _ Hf') as Hsi'.
  unfold ApplyDiff.apply_trace, ApplyDiff.spine_unchanged. destruct (_ && _) eqn:Eu.
  - rewrite !andb_true_iff in Eu. destruct Eu as [[E1 E2] E3]. destruct (structure_same _ _ _ _ _ Hd E3) as (H1 & H2 & HS).
    rewrite (td_since _ _ _ _ _ Hd) in E1. rewrite (td_legacy _ _ _ _ _ Hd) in E2. apply is_nil_true, no_diff_single in E1.
    apply is_nil_true, no_diff, (forall2_exact _ _ _ Hk) in E2. apply Hput in HS. rewrite <- H1, <- H2, <- E2, Hsi', <- E1, <- Hsi in HS.
    pose proof (unflatten_ok f t Ht (flat_of_like f t Hs Hf)) as Hback. destruct f. simpl in *. rewrite HS in Hback. congruence.
  - unfold ApplyDiff.apply_legacy. rewrite Hr, Hfl. cbn [obind]. rewrite (td_since _ _ _ _ _ Hd), (td_legacy _ _ _ _ _ Hd), Hsi.
    rewrite single_roundtrip, diff_apply_exact; [|apply (fh_legacy _ _ _ _ _ Hf)|apply (fh_legacy _ _ _ _ _ Hf')|done].
    cbn [field orbind obind]. destruct (structure_applied d t t' f f' (Trace.since t') (ft_legacy_batches f') Hd Hf Hf') as (S & HS & Happ).
    destruct (ApplyDiff.structure_unchanged d) eqn:E; cbn [negb].
    + destruct (structure_same _ _ _ _ _ Hd E) as (H1 & H2 & HS'). cbn [orbind obind]. rewrite H1, H2, <- Hsi', (Hput _ HS'). done.
    + rewrite Happ. cbn [orbind obind]. rewrite <- Hsi', (Hput _ HS). done.
Qed.
End traces.

(** ** States *)

Section states.
Context {T : Type} `{TL : TimelyLaws T} `{TO : !TimelyOrd T} `{TOL : !TimelyOrdLaws T} {Version : Type}.
Implicit Types (x : State T Version) (c : StateCollections T Version).

(** All maps of the collections are in order. *)
Record maps_sorted c : Prop := {
  mo_rollups : BTree.sorted (sc_rollups c);
  mo_leased : BTree.sorted (sc_leased_readers c);
  mo_critical : BTree.sorted (sc_critical_readers c);
  mo_writers : BTree.sorted (sc_writers c);
  mo_schemas : BTree.sorted (sc_schemas c);
}.

(** A state whose differences can be taken. *)
Record diffable x : Prop := {
  df_trace : flattable (sc_trace (st_collections x));
  df_maps : maps_sorted (st_collections x);
  df_rollups : sc_rollups (st_collections x) <> [];
}.

Record comparable_states x x' : Prop := {
  cs_from : diffable x;
  cs_to : diffable x';
  cs_shard : st_shard_id x = st_shard_id x';
  cs_parts : parts_agree (sc_trace (st_collections x)) (sc_trace (st_collections x'));
  cs_runs : runs_agree (sc_trace (st_collections x)) (sc_trace (st_collections x'));
}.

Lemma latest_rollup_ok x : diffable x -> exists r, State.latest_rollup x = Ret r.
Proof.
  intros Hx. unfold State.latest_rollup, BTree.last_key_value. pose proof (df_rollups _ Hx) as Hne.
  destruct (last (sc_rollups (st_collections x))) as [r|] eqn:E; [by exists r|]. by apply last_None in E.
Qed.

Lemma diff_roundtrip_ok x x' : comparable_states x x' -> st_seqno x <> st_seqno x' ->
  exists d, StateDiff.from_diff x x' = Ret d /\ ApplyDiff.apply_diff d x = Ret (Ok x') /\
    sd_seqno_from d = st_seqno x /\ sd_seqno_to d = st_seqno x'.
Proof.
  intros [Hx Hx' Hsh Hids Hruns] Hseq. destruct (latest_rollup_ok x' Hx') as ([rs r] & Hr).
  pose proof (df_trace _ Hx) as Ht. pose proof (df_trace _ Hx') as Ht'.
  destruct (flatten_ok _ (fl_spine _ Ht) (fl_roundtrip _ Ht)) as (f & Hf & Hof).
  destruct (flatten_ok _ (fl_spine _ Ht') (fl_roundtrip _ Ht')) as (f' & Hf' & Hof').
  unfold StateDiff.from_diff. rewrite bool_decide_eq_true_2, Hr, Hf, Hf' by done. cbn [assert_ obind].
  eexists. split; [done|]. split; [|done]. destruct (df_maps _ Hx) as [], (df_maps _ Hx') as [].
  unfold ApplyDiff.apply_diff, field. cbn [sd_seqno_to sd_seqno_from sd_hostname sd_rollups sd_last_gc_req sd_active_rollup sd_active_gc
    sd_leased_readers sd_critical_readers sd_writers sd_schemas sd_walltime_ms sd_applier_version].
  rewrite bool_decide_eq_false_2, bool_decide_eq_true_2 by done. cbn [negb].
  rewrite forced_roundtrip, !map_roundtrip, single_roundtrip, !option_roundtrip by done. cbn [orbind obind].
  erewrite apply_trace_ok; try done. cbn [orbind obind]. rewrite Hsh. by destruct x' as [? ? ? ? []].
Qed.
End states.
