(* ===== verification/StateFacts.v ===== *)
(** The invariant of a shard's state, and that every command preserves it:
    the trace upholds its own invariant, its since is in no reader's way and
    never regresses, its upper never regresses, writers remember frontiers
    the shard has reached, the gc watermark stays below what readers hold. *)

From S2P Require Import Prelude Timely BTree Schema Paths Batch Spine SpineFacts SpineCorrect Trace TraceFacts State.

Local Open Scope Z_scope.

(** ** Folds over the handles *)

Section folds.
Context {T : Type} `{TimelyLaws T}.
Implicit Types (a b c : Antichain T) (l : list (Antichain T)).

Lemma meet_all_le a l : less_equal (foldl fmeet a l) a = true /\ Forall (fun b => less_equal (foldl fmeet a l) b = true) l.
Proof.
  revert a. induction l as [|b l IH]; intros a; simpl; [split; [apply le_refl|constructor]|].
  destruct (IH (fmeet a b)) as [Hm Hl].
  split; [eapply le_trans; [exact Hm|apply meet_l]|]. constructor; [eapply le_trans; [exact Hm|apply meet_r]|done].
Qed.

Lemma meet_all_glb c a l : less_equal c a = true -> Forall (fun b => less_equal c b = true) l ->
  less_equal c (foldl fmeet a l) = true.
Proof.
  intros Ha Hl. revert a Ha. induction Hl as [|b l Hb _ IH]; intros a Ha; simpl; [done|]. apply IH. eauto with timely.
Qed.

Lemma min_all_le (f : LeasedReaderState T -> Z) (n : Z) (l : list (LeasedReaderState T)) :
  foldl (fun acc x => Z.min acc (f x)) n l <= n /\ Forall (fun x => foldl (fun acc x => Z.min acc (f x)) n l <= f x) l.
Proof.
  revert n. induction l as [|x l IH]; intros n; simpl; [split; [lia|constructor]|].
  destruct (IH (Z.min n (f x))) as [Hm Hl]. split; [lia|]. constructor; [lia|done].
Qed.

Lemma min_all_glb (f : LeasedReaderState T -> Z) (m n : Z) (l : list (LeasedReaderState T)) : m <= n -> Forall (fun x => m <= f x) l ->
  m <= foldl (fun acc x => Z.min acc (f x)) n l.
Proof. intros Hn Hl. revert n Hn. induction Hl as [|x l Hx _ IH]; intros n Hn; simpl; [done|]. apply IH. lia. Qed.
End folds.

(** ** The invariant *)

Section invariant.
Context {T : Type} `{TimelyLaws T} {Version : Type}.
Implicit Types (c : StateCollections T Version) (x : State T Version) (t : Trace T).

Record coll_ok (seqno : SeqNo) c : Prop := {
  co_spine : spine_ok (tr_spine (sc_trace c));
  co_leased : Forall (fun r => less_equal (Trace.since (sc_trace c)) (lr_since r) = true /\
                               sc_last_gc_req c <= lr_seqno r <= seqno) (BTree.values (sc_leased_readers c));
  co_critical : Forall (fun r => less_equal (Trace.since (sc_trace c)) (cr_since r) = true)
                  (BTree.values (sc_critical_readers c));
  co_writers : Forall (fun w => less_equal (ws_most_recent_write_upper w) (Trace.upper (sc_trace c)) = true)
                 (BTree.values (sc_writers c));
  co_gc : 0 <= sc_last_gc_req c <= seqno;
  co_rollups : BTree.sorted (sc_rollups c);
  co_schemas : BTree.keys (sc_schemas c) = (fun i => {| schema_id_num := N.of_nat i |}) <$> seq 0 (length (sc_schemas c));
}.

(** Frontiers and watermarks do not regress. *)
Record advances c c' : Prop := {
  ad_since : less_equal (Trace.since (sc_trace c)) (Trace.since (sc_trace c')) = true;
  ad_upper : less_equal (Trace.upper (sc_trace c)) (Trace.upper (sc_trace c')) = true;
  ad_gc : sc_last_gc_req c <= sc_last_gc_req c';
}.

Definition state_ok x : Prop := 0 <= st_seqno x /\ coll_ok (st_seqno x) (st_collections x).

Lemma advances_refl c : advances c c.
Proof. split; [apply le_refl|apply le_refl|lia]. Qed.

Lemma advances_trans c1 c2 c3 : advances c1 c2 -> advances c2 c3 -> advances c1 c3.
Proof. intros [] []. split; [by eapply le_trans|by eapply le_trans|lia]. Qed.

(** The next sequence number is fine as well. *)
Lemma coll_ok_later seqno seqno' c : coll_ok seqno c -> seqno <= seqno' -> coll_ok seqno' c.
Proof.
  intros [] Hle. split; try done; [|lia].
  eapply Forall_impl; [exact co_leased0|]. simpl. intros r [? ?]. split; [done|lia].
Qed.

Lemma values_insert {K V} `{KeyOrd K} (P : V -> Prop) k v (m : BTreeMap K V) :
  P v -> Forall P (BTree.values m) -> Forall P (BTree.values (BTree.insert k v m)).
Proof.
  intros Hv Hm. unfold BTree.values in *. rewrite Forall_fmap, Forall_forall in *.
  intros kv [->|Hin]%BTree.elem_of_insert; [done|by apply Hm].
Qed.

Lemma values_remove {K V} `{KeyOrd K} (P : V -> Prop) k (m : BTreeMap K V) :
  Forall P (BTree.values m) -> Forall P (BTree.values (BTree.remove k m)).
Proof.
  intros Hm. unfold BTree.values in *. rewrite Forall_fmap, Forall_forall in *.
  intros kv [Hin _]%BTree.elem_of_remove. by apply Hm.
Qed.

Lemma values_update {K V} `{KeyOrd K} (P : V -> Prop) k v (m : BTreeMap K V) :
  P v -> Forall P (BTree.values m) -> Forall P (BTree.values (BTree.update k (fun _ => v) m)).
Proof.
  intros Hv Hm. unfold BTree.values in *. rewrite Forall_fmap, Forall_forall in *.
  intros kv [Hin|(w & _ & ->)]%BTree.elem_of_update; [by apply Hm|done].
Qed.

Lemma values_retain {K V} `{KeyOrd K} (P : V -> Prop) f (m : BTreeMap K V) :
  Forall P (BTree.values m) -> Forall P (BTree.values (BTree.retain f m)).
Proof.
  intros Hm. unfold BTree.values in *. rewrite Forall_fmap, Forall_forall in *.
  intros kv [_ Hin]%list_elem_of_filter. by apply Hm.
Qed.

Lemma values_get {K V} `{KeyOrd K} (P : V -> Prop) k v (m : BTreeMap K V) :
  BTree.get k m = Some v -> Forall P (BTree.values m) -> P v.
Proof.
  intros Hg%BTree.elem_of_get Hm. unfold BTree.values in *. rewrite Forall_fmap, Forall_forall in Hm.
  by apply (Hm (k, v)).
Qed.

(** *** What readers hold *)

Lemma seqno_since_spec seqno c : coll_ok seqno c ->
  sc_last_gc_req c <= StateCollections.seqno_since c seqno <= seqno /\
  Forall (fun r => StateCollections.seqno_since c seqno <= lr_seqno r) (BTree.values (sc_leased_readers c)).
Proof.
  intros Hc. unfold StateCollections.seqno_since.
  destruct (min_all_le lr_seqno seqno (BTree.values (sc_leased_readers c))) as [Hn Hl].
  split; [|done]. split; [|done]. apply min_all_glb; [apply (co_gc _ _ Hc)|].
  eapply Forall_impl; [apply (co_leased _ _ Hc)|]. simpl. lia.
Qed.

(** The since that [update_since] installs. *)
Lemma update_since_ok seqno c : coll_ok seqno c ->
  coll_ok seqno (StateCollections.update_since c) /\ advances c (StateCollections.update_since c).
Proof.
  intros Hc. unfold StateCollections.update_since.
  set (l := (lr_since <$> _) ++ (cr_since <$> _)).
  assert (Hl : Forall (fun a => less_equal (Trace.since (sc_trace c)) a = true) l).
  { apply Forall_app. rewrite !Forall_fmap. split; [|apply (co_critical _ _ Hc)].
    eapply Forall_impl; [apply (co_leased _ _ Hc)|]. by intros r [? _]. }
  destruct l as [|a l'] eqn:E; [split; [done|apply advances_refl]|].
  inversion_clear Hl as [|?? Ha Hl']. pose proof (meet_all_glb _ _ _ Ha Hl') as Hge.
  destruct (meet_all_le a l') as [Hle Hles].
  assert (Hall : Forall (fun b => less_equal (foldl fmeet a l') b = true) l) by (rewrite E; by constructor).
  unfold l in Hall. rewrite Forall_app, !Forall_fmap in Hall. destruct Hall as [Hlr Hcr].
  split; [destruct Hc; split; try done; simpl|split; [done|apply le_refl|done]].
  - by apply with_since_ok.
  - rewrite Forall_forall in *. intros r Hr. split; [by apply Hlr|by apply co_leased0].
Qed.

Lemma critical_since_ge seqno c a : coll_ok seqno c -> StateCollections.critical_since c = Some a ->
  less_equal (Trace.since (sc_trace c)) a = true.
Proof.
  intros Hc. unfold StateCollections.critical_since. 
  assert (Hcr : Forall (fun b => less_equal (Trace.since (sc_trace c)) b = true) (cr_since <$> BTree.values (sc_critical_readers c)))
    by (rewrite Forall_fmap; apply (co_critical _ _ Hc)).
  destruct (cr_since <$> _) as [|b l]; [done|]. intros [= <-].
  inversion_clear Hcr. by apply meet_all_glb.
Qed.
End invariant.

(** ** The commands *)

Section commands.
Context {T : Type} `{TimelyLaws T} {Version : Type}.
Implicit Types (c : StateCollections T Version) (x : State T Version) (t : Trace T).

(** A command keeps the invariant and moves forward. *)
Definition good_step (seqno : SeqNo) c c' : Prop := coll_ok seqno c' /\ advances c c'.

Lemma good_refl seqno c : coll_ok seqno c -> good_step seqno c c.
Proof. intros. split; [done|apply advances_refl]. Qed.

(** A new trace with the same or later frontiers. *)
Lemma with_trace_ok seqno c t : coll_ok seqno c -> spine_ok (tr_spine t) ->
  Trace.since t = Trace.since (sc_trace c) ->
  less_equal (Trace.upper (sc_trace c)) (Trace.upper t) = true ->
  good_step seqno c (StateCollections.with_trace c t).
Proof.
  intros Hc Hs Hsince Hup. split.
  - destruct Hc. split; simpl; try done; rewrite ?Hsince; try done.
    eapply Forall_impl; [exact co_writers0|]. simpl. intros w ?. by eapply le_trans.
  - split; simpl; [rewrite Hsince; apply le_refl|done|lia].
Qed.

Lemma add_rollup_ok seqno c n r c' ret : coll_ok seqno c ->
  StateCollections.add_rollup c n r = (c', ret) -> good_step seqno c c'.
Proof.
  intros Hc. unfold StateCollections.add_rollup. destruct (BTree.get _ _).
  { intros [= <- _]. by apply good_refl. }
  case_match; intros [= <- _]; [by apply good_refl|].
  split; [destruct Hc; split; try done|split; [apply le_refl|apply le_refl|simpl; lia]].
  simpl. by apply BTree.sorted_insert.
Qed.

Lemma remove_each_sorted rs m removed m' removed' : BTree.sorted m ->
  StateCollections.remove_each rs m removed = (m', removed') -> BTree.sorted m'.
Proof.
  revert m removed. induction rs as [|[s k] rs IH]; intros m removed Hm; simpl; [by intros [= <- _]|].
  apply IH. by apply BTree.sorted_remove.
Qed.

Lemma remove_rollups_ok seqno c rs c' ret : coll_ok seqno c ->
  StateCollections.remove_rollups c rs = (c', ret) -> good_step seqno c c'.
Proof.
  intros Hc. unfold StateCollections.remove_rollups. case_match; [intros [= <- _]; by apply good_refl|].
  destruct rs as [|r rs].
  { intros [= <- _]. split; [by destruct Hc; split|split; [apply le_refl|apply le_refl|simpl; lia]]. }
  destruct (StateCollections.remove_each _ _ _) as [m removed] eqn:E. intros [= <- _].
  split; [destruct Hc; split; try done|split; [apply le_refl|apply le_refl|simpl; lia]].
  by eapply remove_each_sorted.
Qed.

Lemma register_leased_ok seqno c host i purpose dur hb crit c' ret : coll_ok seqno c -> 0 <= seqno ->
  StateCollections.register_leased_reader c host i purpose seqno dur hb crit = Ret (c', ret) -> good_step seqno c c'.
Proof.
  intros Hc Hn. unfold StateCollections.register_leased_reader. intros (_ & _ & He)%obind_Ret.
  destruct (StateCollections.is_tombstone c); [injection He as <- _; by apply good_refl|].
  injection He as <- _. split; [|split; [apply le_refl|apply le_refl|simpl; lia]].
  destruct Hc; split; try done. simpl. apply values_insert; [|done]. simpl. split; [|lia].
  destruct crit; [|apply le_refl].
  destruct (StateCollections.critical_since c) as [a|] eqn:Ec; simpl; [|apply le_refl].
  eapply critical_since_ge; [by split|done].
Qed.

Lemma register_critical_ok seqno c host i o purpose c' ret : coll_ok seqno c ->
  StateCollections.register_critical_reader c host i o purpose = (c', ret) -> good_step seqno c c'.
Proof.
  intros Hc. unfold StateCollections.register_critical_reader.
  case_match; [intros [= <- _]; by apply good_refl|].
  destruct (BTree.get _ _) as [r|] eqn:Eg; intros [= <- _];
    (split; [destruct Hc; split; try done; simpl|split; [apply le_refl|apply le_refl|simpl; lia]]).
  - apply values_update; [|done]. apply (values_get _ _ _ _ Eg co_critical0).
  - apply values_insert; [|done]. simpl. apply le_refl.
Qed.

Lemma downgrade_since_ok seqno c i n out since hb c' ret : coll_ok seqno c ->
  sc_last_gc_req c <= n <= seqno ->
  StateCollections.downgrade_since c i n out since hb = Ret (c', ret) -> good_step seqno c c'.
Proof.
  intros Hc Hn. unfold StateCollections.downgrade_since.
  destruct (StateCollections.is_tombstone c); [intros [= <- _]; by apply good_refl|].
  destruct (BTree.get i _) as [r|] eqn:Eg; [|intros [= <- _]; by apply good_refl].
  intros ([] & Hout & He)%obind_Ret. unfold assert_ in Hout.
  destruct (Z.leb_spec (lr_seqno r) out) as [Hle|]; [|done].
  pose proof (values_get _ _ _ _ Eg (co_leased _ _ Hc)) as [Hsr Hqr].
  set (c1 := StateCollections.with_leased_readers c _) in He.
  assert (H1 : good_step seqno c c1).
  { split; [destruct Hc; split; try done|split; [apply le_refl|apply le_refl|simpl; lia]].
    simpl. apply values_update; [|done]. simpl. split; [|lia].
    destruct (less_than (lr_since r) since) eqn:E; [|done]. eapply le_trans; [exact Hsr|by apply less_than_le]. }
  injection He as <- _. destruct (less_than _ _); [|done]. destruct H1 as [H1 H1'].
  destruct (update_since_ok _ _ H1) as [H2 H2']. split; [done|]. by eapply advances_trans.
Qed.

Lemma compare_downgrade_ok seqno c i eo no since c' ret : coll_ok seqno c ->
  StateCollections.compare_and_downgrade_since c i eo no since = Ret (c', ret) -> good_step seqno c c'.
Proof.
  intros Hc. unfold StateCollections.compare_and_downgrade_since.
  destruct (StateCollections.is_tombstone c); [intros [= <- _]; by apply good_refl|].
  intros (r & Eg & He)%obind_Ret. unfold expect in Eg. destruct (BTree.get i _) as [r'|] eqn:Eg'; [|done]. injection Eg as ->.
  destruct (negb _); [injection He as <- _; by apply good_refl|].
  pose proof (values_get _ _ _ _ Eg' (co_critical _ _ Hc)) as Hsr. simpl in Hsr.
  set (c1 := StateCollections.with_critical_readers c _) in He.
  assert (H1 : good_step seqno c c1).
  { split; [destruct Hc; split; try done|split; [apply le_refl|apply le_refl|simpl; lia]].
    simpl. apply values_update; [|done]. simpl.
    destruct (less_equal (cr_since r) since) eqn:E; [|done]. by eapply le_trans. }
  injection He as <- _. destruct (less_equal _ _); [|done]. destruct H1 as [H1 H1'].
  destruct (update_since_ok _ _ H1) as [H2 H2']. split; [done|]. by eapply advances_trans.
Qed.

Lemma expire_leased_ok seqno c i c' ret : coll_ok seqno c ->
  StateCollections.expire_leased_reader c i = (c', ret) -> good_step seqno c c'.
Proof.
  intros Hc. unfold StateCollections.expire_leased_reader.
  case_match; intros [= <- _]; [by apply good_refl|].
  split; [destruct Hc; split; try done|split; [apply le_refl|apply le_refl|simpl; lia]]. simpl. by apply values_remove.
Qed.

Lemma expire_critical_ok seqno c i c' ret : coll_ok seqno c ->
  StateCollections.expire_critical_reader c i = (c', ret) -> good_step seqno c c'.
Proof.
  intros Hc. unfold StateCollections.expire_critical_reader.
  case_match; intros [= <- _]; [by apply good_refl|].
  split; [destruct Hc; split; try done|split; [apply le_refl|apply le_refl|simpl; lia]]. simpl. by apply values_remove.
Qed.

Lemma expire_writer_ok seqno c i c' ret : coll_ok seqno c ->
  StateCollections.expire_writer c i = (c', ret) -> good_step seqno c c'.
Proof.
  intros Hc. unfold StateCollections.expire_writer.
  case_match; intros [= <- _]; [by apply good_refl|].
  split; [destruct Hc; split; try done|split; [apply le_refl|apply le_refl|simpl; lia]]. simpl. by apply values_remove.
Qed.

Lemma spine_exert_ok seqno c fuel c' ret : coll_ok seqno c -> 0 <= fuel <= 2 ^ 60 ->
  records 0 (sp_merging (tr_spine (sc_trace c))) + 2 * 2 ^ Z.of_nat (Spine.level_of fuel) <= 2 ^ 60 ->
  StateCollections.spine_exert c fuel = Ret (c', ret) ->
  good_step seqno c c' /\ trace_data (sc_trace c') = trace_data (sc_trace c).
Proof.
  intros Hc Hf Hb. unfold StateCollections.spine_exert.
  destruct (trace_exert_ok (sc_trace c) fuel (co_spine _ _ Hc) Hf Hb) as (t' & reqs & worked & -> & Hs & Hsince & Hup & Hd).
  cbn [obind]. intros He. assert (Ec : c' = StateCollections.with_trace c t').
  { destruct worked; [by injection He as <- _|]. by apply obind_Ret in He as (_ & _ & [= <- _]). }
  subst c'. split; [|done]. apply with_trace_ok; try done. rewrite Hup. apply le_refl.
Qed.

Lemma apply_merge_res_ok (D : Type) `{!PartCodec D} seqno c res c' ret : coll_ok seqno c ->
  (forall b, b ∈ Spine.spine_batches (tr_spine (sc_trace c)) -> result_fits b res) ->
  StateCollections.apply_merge_res D c res = Ret (c', ret) -> good_step seqno c c'.
Proof.
  intros Hc Hf. unfold StateCollections.apply_merge_res.
  destruct (StateCollections.is_tombstone c); [intros [= <- _]; by apply good_refl|].
  intros ([t r] & Ht & [= <- _])%obind_Ret. unfold Trace.apply_merge_res_checked in Ht.
  eapply (apply_merge_post _ (fun h => hb_desc h = hb_desc (fres_output res)) (fres_output res)) in Ht
    as (h & _ & Hs & Hsince & Hup & _); [|apply (co_spine _ _ Hc)|done|].
  2: { intros b r' Hb Hw Hr'. apply (checked_ok D); auto. }
  apply with_trace_ok; try done. rewrite Hup. apply le_refl.
Qed.


Lemma maybe_gc_ok x w now cfg x' req : state_ok x -> st_seqno x <= u64_max -> 0 <= State.max_versions cfg ->
  State.maybe_gc x w now cfg = (x', req) ->
  state_ok x' /\ advances (st_collections x) (st_collections x') /\ st_seqno x' = st_seqno x.
Proof.
  intros [Hn Hc] Hu Hmax. unfold State.maybe_gc. destruct (seqno_since_spec _ _ Hc) as [[Hlo Hhi] Hr].
  destruct (State.should_gc _ _ _ _); intros [= <- _]; [|split_and!; try done; apply advances_refl].
  pose proof (co_gc _ _ Hc) as Hg. unfold State.seqno_since, u64_saturating_add.
  unfold state_ok. split_and!; [done|..|done].
  - destruct Hc. split; simpl; try done; [|lia].
    rewrite Forall_forall in *. intros r Hin. specialize (Hr r Hin). destruct (co_leased0 r Hin). split; [done|]. lia.
  - split; simpl; [apply le_refl|apply le_refl|lia].
Qed.

Lemma expire_at_ok x now x' m : state_ok x -> State.expire_at x now = (x', m) ->
  state_ok x' /\ advances (st_collections x) (st_collections x') /\ st_seqno x' = st_seqno x.
Proof.
  intros [Hn Hc]. unfold State.expire_at. intros [= <- _]. unfold state_ok. split_and!; [done|..|done].
  - destruct Hc. split; simpl; try done; by apply values_retain.
  - split; simpl; [apply le_refl|apply le_refl|lia].
Qed.
End commands.

(** ** Rollups, garbage collection, leases *)

Section maintenance.
Context {T : Type} `{TimelyLaws T} {Version : Type}.
Implicit Types (c : StateCollections T Version) (x : State T Version).

Lemma first_key_least (m : BTreeMap SeqNo HollowRollup) k k' v : BTree.sorted m -> head (BTree.keys m) = Some k ->
  BTree.get k' m = Some v -> k <= k'.
Proof.
  destruct m as [|[k0 v0] m]; [done|]. unfold BTree.keys. rewrite fmap_cons. simpl. intros [Hall _] [= <-].
  destruct (decide (k' = k0)) as [->|]; [lia|]. intros Hg%BTree.elem_of_get. rewrite Forall_forall in Hall.
  specialize (Hall _ Hg). simpl in Hall. apply Z.ltb_lt in Hall. lia.
Qed.

(** Below the oldest rollup nothing is added any more. *)
Lemma add_rollup_below c n r : sc_rollups c <> [] -> (forall k v, BTree.get k (sc_rollups c) = Some v -> n < k) ->
  StateCollections.add_rollup c n r = (c, Continue false).
Proof.
  intros Hne Hlt. unfold StateCollections.add_rollup. destruct (BTree.get n (sc_rollups c)) as [v|] eqn:E.
  { specialize (Hlt _ _ E). lia. }
  destruct (sc_rollups c) as [|[k v] m] eqn:Em; [done|]. unfold BTree.keys. rewrite fmap_cons. simpl.
  rewrite (proj2 (Z.ltb_lt n k)); [done|]. apply (Hlt k v). simpl. by rewrite decide_True.
Qed.

Lemma add_rollup_present c n r v : BTree.get n (sc_rollups c) = Some v ->
  StateCollections.add_rollup c n r = (c, Continue (bool_decide (rollup_key v = rollup_key r))).
Proof. intros E. unfold StateCollections.add_rollup. by rewrite E. Qed.

Lemma add_rollup_new c n r : BTree.sorted (sc_rollups c) -> BTree.get n (sc_rollups c) = None ->
  (sc_rollups c = [] \/ exists k v, BTree.get k (sc_rollups c) = Some v /\ k < n) ->
  exists c', StateCollections.add_rollup c n r = (c', Continue true) /\
    BTree.get n (sc_rollups c') = Some r /\ sc_active_rollup c' = None /\ sc_trace c' = sc_trace c /\
    forall k, k <> n -> BTree.get k (sc_rollups c') = BTree.get k (sc_rollups c).
Proof.
  intros Hs Hn Hold. unfold StateCollections.add_rollup. rewrite Hn.
  assert ((match BTree.keys (sc_rollups c) with min_kept :: _ => n <? min_kept | [] => false end) = false) as ->.
  { destruct (BTree.keys (sc_rollups c)) as [|k0 ks] eqn:Ek; [done|]. apply Z.ltb_ge.
    destruct Hold as [E|(k & v & Hk & Hlt)]; [by rewrite E in Ek|].
    pose proof (first_key_least _ k0 k v Hs ltac:(by rewrite Ek) Hk). lia. }
  eexists. split; [done|]. simpl. split_and!; try done; [apply BTree.get_insert_eq|]. intros k Hk. by apply BTree.get_insert_ne.
Qed.

(** What a garbage collection may remove. *)
Lemma gc_bounds x w now cfg x' req : state_ok x -> st_seqno x <= u64_max -> 0 <= State.max_versions cfg ->
  State.maybe_gc x w now cfg = (x', Some req) ->
  sc_last_gc_req (st_collections x) <= State.gc_new_seqno_since req <= st_seqno x /\
  State.gc_new_seqno_since req <= sc_last_gc_req (st_collections x) + State.max_versions cfg /\
  sc_last_gc_req (st_collections x') = State.gc_new_seqno_since req /\
  Forall (fun r => State.gc_new_seqno_since req <= lr_seqno r) (BTree.values (sc_leased_readers (st_collections x))).
Proof.
  intros [Hn Hc] Hu Hm. unfold State.maybe_gc. destruct (seqno_since_spec _ _ Hc) as [[Hlo Hhi] Hr].
  destruct (State.should_gc _ _ _ _); intros [= <- <-]. pose proof (co_gc _ _ Hc) as Hg. simpl.
  unfold State.seqno_since, u64_saturating_add. split_and!; try lia; try done.
  eapply Forall_impl; [exact Hr|]. simpl. intros r Hle. lia.
Qed.

(** Exactly the leases that are over go. *)
Lemma expire_at_spec x now : 
  (forall r, r ∈ sc_leased_readers (st_collections x) -> lr_last_heartbeat_timestamp_ms r.2 + lr_lease_duration_ms r.2 < 2 ^ 64) ->
  (forall r, r ∈ sc_leased_readers (st_collections x) -> 0 <= lr_last_heartbeat_timestamp_ms r.2 + lr_lease_duration_ms r.2) ->
  forall r, r ∈ sc_leased_readers (st_collections (State.expire_at x now).1) <->
    r ∈ sc_leased_readers (st_collections x) /\ now <= lr_last_heartbeat_timestamp_ms r.2 + lr_lease_duration_ms r.2.
Proof.
  intros Hu Hl r. unfold State.expire_at, BTree.retain. simpl. rewrite list_elem_of_filter.
  unfold State.reader_holds, State.lease_holds. split.
  - intros [Hh Hin]. specialize (Hu _ Hin). specialize (Hl _ Hin). rewrite Z.mod_small in Hh by lia. apply Z.leb_le in Hh. done.
  - intros [Hin Hle]. specialize (Hu _ Hin). specialize (Hl _ Hin). split; [|done]. rewrite Z.mod_small by lia. by apply Z.leb_le.
Qed.
End maintenance.

(** ** Appends *)

Section appends.
Context {T : Type} `{TimelyLaws T} {Version : Type} `{!SemVer Version} `{UuidCodec} (hashed : IdempotencyToken -> Z).
Implicit Types (c : StateCollections T Version) (t : Trace T) (h : HollowBatch T).

(** What a writer promises about a batch, besides its bounds, which are
    checked: lengths that are not negative, a since that the shard has
    reached, and a size the spine has room for. *)
Record writable t h : Prop := {
  wr_len : 0 <= hb_len h <= 2 ^ 60;
  wr_metas : Forall (fun rm => 0 <= default 0 (rm_len rm)) (hb_run_meta h);
  wr_since : less_equal (d_since (hb_desc h)) (Trace.since t) = true;
  wr_room : records 0 (sp_merging (tr_spine t)) + 2 * 2 ^ Z.of_nat (Spine.level_of (hb_len h)) <= 2 ^ 60;
}.

(** The data an append adds: none for an empty range of times. *)
Definition appended h : list (HollowBatch T) :=
  if bool_decide (d_upper (hb_desc h) = d_lower (hb_desc h)) then [] else data_in h.

Lemma writable_fits t h : writable t h -> d_lower (hb_desc h) = Trace.upper t ->
  less_equal (d_lower (hb_desc h)) (d_upper (hb_desc h)) = true ->
  hb_parts h = [] \/ d_lower (hb_desc h) <> d_upper (hb_desc h) -> batch_fits t h.
Proof. intros [[]] ? ? ?. by split; [split|..]. Qed.

(** The first step of an append. *)
Lemma push_step_ok t h : spine_ok (tr_spine t) -> batch_fits t h ->
  exists t' reqs, (if negb (bool_decide (d_upper (hb_desc h) = d_lower (hb_desc h)))
                   then Trace.push_batch t h else Ret (t, [])) = Ret (t', reqs) /\
    spine_ok (tr_spine t') /\ Trace.since t' = Trace.since t /\ Trace.upper t' = d_upper (hb_desc h) /\
    trace_data t' = trace_data t ++ appended h.
Proof.
  intros Hs Hf. unfold appended. case_bool_decide as E; simpl.
  - exists t, []. rewrite app_nil_r. split_and!; try done. by rewrite E, (bf_lower _ _ Hf).
  - destruct (push_batch_ok t h Hs Hf) as (t' & reqs & He & Hp); [congruence|]. by exists t', reqs.
Qed.

Lemma append_batch_inv t h tok hb ld pct ver t' reqs : spine_ok (tr_spine t) -> batch_fits t h ->
  StateCollections.append_batch hashed t h tok hb ld pct ver = Ret (t', reqs) ->
  spine_ok (tr_spine t') /\ Trace.since t' = Trace.since t /\ Trace.upper t' = d_upper (hb_desc h) /\
  trace_data t' = trace_data t ++ appended h.
Proof.
  intros Hs Hf. unfold StateCollections.append_batch.
  destruct (push_step_ok t h Hs Hf) as (t1 & reqs1 & -> & Hs1 & Hsince & Hup & Hd). cbn [obind].
  intros (reqs2 & _ & (t2 & Ht2 & [= <- _])%obind_Ret)%obind_Ret.
  destruct (claims_ok fmr_id {| ac_start_ms := hb |} reqs2 t1 Hs1) as (t3 & He & Hs3 & ? & ? & Hb & _).
  rewrite He in Ht2. injection Ht2 as <-. split_and!; try done; try congruence.
  unfold trace_data in *. by rewrite Hb, Hd.
Qed.

Lemma take_reqs_total n (items : list (outcome (option (FueledMergeReq T)))) :
  Forall is_ret items -> is_ret (Trace.take_reqs n items).
Proof.
  intros Hi. revert n. induction Hi as [|item items [r ->] _ IH]; intros [|n]; try by eexists.
  simpl. destruct r as [r|]; [|apply IH]. destruct (IH n) as [rs ->]. by eexists.
Qed.

(** Without a version threshold an append cannot panic. *)
Lemma append_batch_total t h tok hb ld pct : spine_ok (tr_spine t) -> batch_fits t h ->
  exists t' reqs, StateCollections.append_batch hashed t h tok hb ld pct None = Ret (t', reqs).
Proof.
  intros Hs Hf. unfold StateCollections.append_batch.
  destruct (push_step_ok t h Hs Hf) as (t1 & reqs1 & -> & Hs1 & _). cbn [obind].
  assert (Htake : forall n, is_ret (StateCollections.extra_reqs hashed t1 tok hb ld n None)).
  { intros n. unfold StateCollections.extra_reqs. cbn [obind].
    apply take_reqs_total. unfold Trace.fueled_merge_reqs_before_ms. apply Forall_fmap, Forall_forall.
    intros b _. by eexists. }
  destruct (Htake pct) as [extra Hextra].
  match goal with |- context [if ?b then _ else _] => destruct b end; rewrite ?Hextra; cbn [obind];
    match goal with |- context [foldM _ ?l t1] =>
      destruct (claims_ok fmr_id {| ac_start_ms := hb |} l t1 Hs1) as (t3 & -> & _) end; by eexists _, _.
Qed.

Lemma append_state_ok seqno c w ws ws' h t' : coll_ok seqno c ->
  less_equal (ws_most_recent_write_upper ws) (Trace.upper (sc_trace c)) = true ->
  less_equal (ws_most_recent_write_upper ws') (Trace.upper t') = true ->
  spine_ok (tr_spine t') -> Trace.since t' = Trace.since (sc_trace c) ->
  Trace.upper t' = d_upper (hb_desc h) -> less_equal (Trace.upper (sc_trace c)) (d_upper (hb_desc h)) = true ->
  good_step seqno c (StateCollections.with_writers
    (StateCollections.with_trace (StateCollections.with_writers c (BTree.insert w ws (sc_writers c))) t')
    (BTree.insert w ws' (BTree.insert w ws (sc_writers c)))).
Proof.
  intros Hc Hw Hw' Hs Hsince Hup Hle. split.
  - destruct Hc. split; simpl; try done; rewrite ?Hsince; try done.
    apply values_insert; [done|].
    assert (Hle' : forall a, less_equal a (Trace.upper (sc_trace c)) = true -> less_equal a (Trace.upper t') = true)
      by (intros a Ha; rewrite Hup; by eapply le_trans).
    apply values_insert; [by apply Hle'|]. eapply Forall_impl; [exact co_writers0|]. simpl. auto.
  - split; simpl; [rewrite Hsince; apply le_refl|by rewrite Hup|lia].
Qed.

(** The writer of an append, known or new, remembers a frontier that the
    shard has reached. *)
Lemma writer_upper_ok seqno c w hb ld dbg : coll_ok seqno c ->
  less_equal (ws_most_recent_write_upper (default (StateCollections.new_writer hb ld dbg) (BTree.get w (sc_writers c))))
    (Trace.upper (sc_trace c)) = true.
Proof.
  intros Hc. destruct (BTree.get w (sc_writers c)) as [ws|] eqn:E; simpl; [|apply le_min].
  apply (values_get _ _ _ _ E (co_writers _ _ Hc)).
Qed.

Lemma with_writer_ok seqno c w ws : coll_ok seqno c ->
  less_equal (ws_most_recent_write_upper ws) (Trace.upper (sc_trace c)) = true ->
  good_step seqno c (StateCollections.with_writers c (BTree.insert w ws (sc_writers c))).
Proof.
  intros Hc Hw. split; [|split; simpl; [apply le_refl|apply le_refl|lia]].
  destruct Hc. split; simpl; try done. by apply values_insert.
Qed.

(** What a committed append did. *)
Record committed c h (w : WriterId) (tok : IdempotencyToken) c' : Prop := {
  cm_upper_was : Trace.upper (sc_trace c) = d_lower (hb_desc h);
  cm_upper_is : Trace.upper (sc_trace c') = d_upper (hb_desc h);
  cm_since : Trace.since (sc_trace c') = Trace.since (sc_trace c);
  cm_data : trace_data (sc_trace c') = trace_data (sc_trace c) ++ appended h;
  cm_writer : exists ws, BTree.get w (sc_writers c') = Some ws /\ ws_most_recent_write_token ws = tok /\
                ws_most_recent_write_upper ws = d_upper (hb_desc h);
}.

Lemma compare_and_append_ok `{!TimelyTotal T} seqno c h w hb ld tok dbg max pct ver c' ret : coll_ok seqno c -> writable (sc_trace c) h ->
  StateCollections.compare_and_append hashed c h w hb ld tok dbg max pct ver = Ret (c', ret) ->
  good_step seqno c c' /\ (forall reqs, ret = Continue reqs -> committed c h w tok c').
Proof.
  intros Hc Hwr. unfold StateCollections.compare_and_append.
  destruct (StateCollections.is_tombstone c).
  { intros (_ & _ & [= <- <-])%obind_Ret. split; [by apply good_refl|done]. }
  pose proof (writer_upper_ok seqno c w hb ld dbg Hc) as Hw. set (ws := default _ _) in *.
  pose proof (with_writer_ok _ _ w ws Hc Hw) as Hgw. set (c1 := StateCollections.with_writers c _) in *.
  destruct (less_than _ _) eqn:Hlt; [intros [= <- <-]; by split|].
  destruct (bool_decide _ && _) eqn:Hem; [intros [= <- <-]; by split|].
  assert (Hti : hb_parts h = [] \/ d_lower (hb_desc h) <> d_upper (hb_desc h)).
  { apply andb_false_iff in Hem as [E%bool_decide_eq_false|E%negb_false_iff]; [right; congruence|].
    left. by apply bool_decide_eq_true in E. }
  clear Hem. case_bool_decide.
  { intros (_ & _ & (_ & _ & [= <- <-])%obind_Ret)%obind_Ret. by split. }
  case_bool_decide as Hup; simpl negb; cbn match; [|intros [= <- <-]; by split].
  destruct (_ && _); [intros [= <- <-]; by split|].
  assert (Hle : less_equal (d_lower (hb_desc h)) (d_upper (hb_desc h)) = true).
  { destruct (le_total (d_lower (hb_desc h)) (d_upper (hb_desc h))) as [|Hge]; [done|].
    by apply not_less_than in Hlt. }
  intros ([t' reqs] & Ha & (_ & _ & [= <- <-])%obind_Ret)%obind_Ret.
  apply append_batch_inv in Ha as (Hs & Hsince & Hup' & Hd); [|apply (co_spine _ _ Hc)|by apply writable_fits].
  split.
  - apply (append_state_ok seqno c w ws _ h t'); try done; simpl; [|change (Trace.upper (sc_trace c)) with (Trace.upper (sc_trace c1)); by rewrite Hup].
    rewrite Hup'. apply le_refl.
  - intros reqs' _. split; try done. eexists. split; [apply BTree.get_insert_eq|done].
Qed.
End appends.

(** ** Schemas *)

Section schemas.
Context {T : Type} `{TimelyLaws T} {Version : Type} {K V : Type} `{!SchemaCodec K} `{!SchemaCodec V} `{!DataTypeCodec}.
Implicit Types (c : StateCollections T Version).

Definition nth_schema (i : nat) : SchemaId := {| schema_id_num := N.of_nat i |}.

Lemma insert_schema (m : BTreeMap SchemaId EncodedSchemas) es :
  BTree.keys m = nth_schema <$> seq 0 (length m) -> BTree.insert (nth_schema (length m)) es m = m ++ [(nth_schema (length m), es)].
Proof.
  intros Hk. apply BTree.insert_last. apply Forall_forall. intros [k v] (i & Hi)%list_elem_of_lookup_1.
  assert (Hki : BTree.keys m !! i = Some k) by (unfold BTree.keys; by rewrite list_lookup_fmap, Hi).
  rewrite Hk, list_lookup_fmap in Hki. apply fmap_Some in Hki as (j & [-> Hlt]%lookup_seq & ->).
  simpl. apply N.ltb_lt. lia.
Qed.

Lemma add_schema_ok seqno c es : coll_ok seqno c ->
  good_step seqno c (StateCollections.with_schemas c
    (BTree.insert (nth_schema (length (sc_schemas c))) es (sc_schemas c))).
Proof.
  intros Hc. split; [|split; simpl; [apply le_refl|apply le_refl|lia]].
  pose proof (insert_schema (sc_schemas c) es (co_schemas _ _ Hc)) as E.
  destruct Hc. split; simpl; try done. rewrite E. unfold BTree.keys in *.
  rewrite fmap_app, length_app, co_schemas0. simpl. rewrite Nat.add_1_r, seq_S, fmap_app. done.
Qed.

Lemma register_schema_ok seqno c (k : K) (v : V) c' ret : coll_ok seqno c ->
  StateCollections.register_schema c k v = Ret (c', ret) -> good_step seqno c c'.
Proof.
  intros Hc. unfold StateCollections.register_schema. destruct (find _ _) as [[]|]; [intros [= <- _]; by apply good_refl|].
  destruct (StateCollections.is_tombstone c); [intros [= <- _]; by apply good_refl|].
  destruct (BTree.is_empty _); [|intros [= <- _]; by apply good_refl].
  intros (kt & _ & (vt & _ & (_ & _ & [= <- _])%obind_Ret)%obind_Ret)%obind_Ret. by apply add_schema_ok.
Qed.

Lemma evolve_schema_ok seqno c e (k : K) (v : V) c' ret : coll_ok seqno c ->
  StateCollections.compare_and_evolve_schema c e k v = Ret (c', ret) -> good_step seqno c c'.
Proof.
  intros Hc. unfold StateCollections.compare_and_evolve_schema.
  intros ([ci cur] & _ & (kt & _ & (vt & _ & (kt' & _ & (vt' & _ & He)%obind_Ret)%obind_Ret)%obind_Ret)%obind_Ret)%obind_Ret.
  destruct (_ && _); [injection He as <- _; by apply good_refl|].
  destruct (negb _); [injection He as <- _; by apply good_refl|].
  apply obind_Ret in He as (kf & _ & (vf & _ & He)%obind_Ret).
  destruct kf as [kf|]; [|injection He as <- _; by apply good_refl].
  destruct vf as [vf|]; [|injection He as <- _; by apply good_refl].
  destruct (_ || _); injection He as <- _; [by apply good_refl|by apply add_schema_ok].
Qed.
(** *** Retries *)

(** A codec reads back what it wrote. *)
Definition codec_roundtrip {S} `{!SchemaCodec S} (s : S) : Prop :=
  decode_schema (encode_schema s) = s /\
  exists t, schema_data_type s = Ret t /\ decode_data_type (encode_data_type t) = Ret t.

Lemma matches_own (k : K) (v : V) i kt vt : codec_roundtrip k -> codec_roundtrip v ->
  StateCollections.matches_schema k v
    (i, {| es_key := encode_schema k; es_key_data_type := kt; es_val := encode_schema v; es_val_data_type := vt |}) = true.
Proof. intros [Hk _] [Hv _]. unfold StateCollections.matches_schema. simpl. rewrite Hk, Hv. by rewrite !bool_decide_eq_true_2. Qed.

(** Registering a schema again finds it. *)
Lemma register_twice seqno c (k : K) (v : V) c' i : coll_ok seqno c -> codec_roundtrip k -> codec_roundtrip v ->
  StateCollections.register_schema c k v = Ret (c', Continue (Some i)) ->
  StateCollections.register_schema c' k v = Ret (c', Break (Some i)).
Proof.
  intros Hc Hk Hv. unfold StateCollections.register_schema.
  destruct (find _ _) as [[]|]; [done|]. destruct (StateCollections.is_tombstone c); [done|].
  destruct (BTree.is_empty _) eqn:Ee; [|done].
  intros (kt & _ & (vt & _ & (_ & _ & [= <- <-])%obind_Ret)%obind_Ret)%obind_Ret.
  simpl. destruct (sc_schemas c); [|done]. simpl. by rewrite (matches_own k v).
Qed.

Lemma evolve_twice seqno c e (k : K) (v : V) c' i : coll_ok seqno c -> codec_roundtrip k -> codec_roundtrip v ->
  StateCollections.compare_and_evolve_schema c e k v = Ret (c', Continue (CaEOk i)) ->
  StateCollections.compare_and_evolve_schema c' e k v = Ret (c', Break (CaEOk i)).
Proof.
  intros Hc [Hk (kt & Hkt & Hkr)] [Hv (vt & Hvt & Hvr)]. unfold StateCollections.compare_and_evolve_schema. rewrite Hkt, Hvt.
  intros ([ci cur] & _ & (okt & _ & (ovt & _ & He)%obind_Ret)%obind_Ret)%obind_Ret. cbn [obind] in He.
  destruct (_ && _); [done|]. destruct (negb _); [done|].
  apply obind_Ret in He as (kf & _ & (vf & _ & He)%obind_Ret).
  destruct kf as [kf|]; [|done]. destruct vf as [vf|]; [|done]. destruct (_ || _); [done|].
  injection He as <- <-. simpl. change {| schema_id_num := N.of_nat ?n |} with (nth_schema n).
  rewrite (insert_schema _ _ (co_schemas _ _ Hc)). unfold BTree.last_key_value. rewrite last_snoc. cbn [expect obind]. simpl.
  rewrite Hk, Hv, Hkr. cbn [obind]. rewrite Hvr. cbn [obind]. by rewrite (bool_decide_eq_true_2 (k = k)), (bool_decide_eq_true_2 (kt = kt)), (bool_decide_eq_true_2 (v = v)), (bool_decide_eq_true_2 (vt = vt)).
Qed.
End schemas.
