(* ===== verification/Reads.v ===== *)
(** * Reads of a shard: snapshots and listens

    The batches [State.snapshot] and [State.next_listen_batch] hand out
    (src/src/persist-client/src/internal/state.rs), for totally ordered
    times as the handles that call them require. *)

From S2P Require Import Prelude Timely BTree Schema Paths Batch BatchFacts Spine SpineFacts SpineCorrect Trace TraceFacts State StateFacts.

Local Open Scope Z_scope.

Section chains.
Context {T : Type} `{TimelyLaws T}.
Implicit Types (f u : Antichain T) (h : HollowBatch T) (hs : list (HollowBatch T)).

(** The batches that do not start after a time are the first ones. *)
Lemma hchain_prefix f hs u as_of : hchain f hs u -> Forall hollow_ok hs ->
  exists pre post, hs = pre ++ post /\
    filter (fun h => less_than as_of (d_lower (hb_desc h)) = false) hs = pre /\
    Forall (fun h => less_than as_of (d_lower (hb_desc h)) = false) pre /\
    Forall (fun h => less_than as_of (d_lower (hb_desc h)) = true) post.
Proof.
  revert f. induction hs as [|h hs IH]; intros f; simpl; [exists [], []; repeat split; constructor|].
  intros [<- Hc] Ho. inversion_clear Ho as [|?? Hh Ho'].
  rewrite filter_cons. destruct (decide _) as [Hd|Hd].
  - destruct (IH _ Hc Ho') as (pre & post & -> & -> & Hpre & Hpost). exists (h :: pre), post. by repeat constructor.
  - apply not_false_is_true in Hd. destruct (hchain_le _ _ _ Hc Ho') as [_ Hle].
    assert (Hall : Forall (fun h => less_than as_of (d_lower (hb_desc h)) = true) hs).
    { eapply Forall_impl; [exact Hle|]. simpl. intros x [Hx _]. eapply lt_le_trans; [exact Hd|].
      eapply le_trans; [apply (ho_ordered _ Hh)|exact Hx]. }
    exists [], (h :: hs). split_and!; [done| |constructor|by constructor].
    apply elem_of_nil_inv. intros x [Hx Hin]%list_elem_of_filter.
    rewrite Forall_forall in Hall. specialize (Hall x Hin). congruence.
Qed.

(** Before the end of a chain, exactly one batch covers a frontier. *)
Lemma hchain_covers `{!TimelyTotal T} f hs u g : hchain f hs u -> Forall hollow_ok hs ->
  less_equal f g = true -> less_than g u = true ->
  exists pre h post, hs = pre ++ h :: post /\ State.covers_frontier g h = true /\
    Forall (fun h => State.covers_frontier g h = false) pre /\
    Forall (fun h => less_than g (d_lower (hb_desc h)) = true) post /\ hchain (d_upper (hb_desc h)) post u.
Proof.
  revert f. induction hs as [|h hs IH]; intros f; simpl.
  - intros -> _ Hle Hlt. apply le_not_lt in Hle. congruence.
  - intros [<- Hc] Ho Hle Hlt. inversion_clear Ho as [|?? Hh Ho'].
    destruct (less_than g (d_upper (hb_desc h))) eqn:E.
    + exists [], h, hs. unfold State.covers_frontier at 1. rewrite Hle, E. split_and!; try done.
      destruct (hchain_le _ _ _ Hc Ho') as [_ Hall]. eapply Forall_impl; [exact Hall|]. simpl.
      intros x [Hx _]. by eapply lt_le_trans.
    + destruct (IH _ Hc Ho' (not_less_than _ _ E) Hlt) as (pre & h' & post & -> & Hcov & Hpre & Hpost).
      exists (h :: pre), h', post. split_and!; try done; [|by destruct Hpost|by destruct Hpost].
      constructor; [|done]. unfold State.covers_frontier. by rewrite E, andb_false_r.
Qed.

Lemma hchain_end f hs u g : hchain f hs u -> Forall hollow_ok hs -> less_equal u g = true ->
  Forall (fun h => State.covers_frontier g h = false) hs.
Proof.
  intros Hc Ho Hle. destruct (hchain_le _ _ _ Hc Ho) as [_ Hall]. eapply Forall_impl; [exact Hall|]. simpl.
  intros h [_ Hh]. unfold State.covers_frontier. apply andb_false_iff. right.
  apply le_not_lt. by eapply le_trans.
Qed.

Lemma find_first {A} (p : A -> bool) pre x post : Forall (fun y => p y = false) pre -> p x = true ->
  find p (pre ++ x :: post) = Some x.
Proof. induction 1 as [|y pre Hy _ IH]; intros Hx; simpl; [by rewrite Hx|]. rewrite Hy. auto. Qed.

Lemma find_nothing {A} (p : A -> bool) l : Forall (fun y => p y = false) l -> find p l = None.
Proof. induction 1 as [|y l Hy _ IH]; simpl; [done|]. by rewrite Hy. Qed.
End chains.

Section reads.
Context {T : Type} `{TimelyLaws T} `{!TimelyTotal T} {Version : Type}.
Implicit Types (x : State T Version) (as_of frontier : Antichain T) (h : HollowBatch T).

Lemma state_chain x : state_ok x ->
  hchain min_frontier (Trace.batches (sc_trace (st_collections x))) (State.upper x) /\
  Forall hollow_ok (Trace.batches (sc_trace (st_collections x))).
Proof. intros [_ Hc]. split; [apply trace_hchain|apply trace_hollow]; apply (co_spine _ _ Hc). Qed.

(** What a snapshot promises: the batches up to a frontier past the asked
    time, and none that starts after it. *)
Definition snapshot_spec x as_of (bs : list (HollowBatch T)) : Prop :=
  exists post hi, Trace.batches (sc_trace (st_collections x)) = bs ++ post /\
    hchain min_frontier bs hi /\ less_than as_of hi = true /\
    Forall (fun h => less_equal (d_lower (hb_desc h)) as_of = true) bs /\
    Forall (fun h => less_than as_of (d_lower (hb_desc h)) = true) post.

Lemma snapshot_reads x as_of : state_ok x -> less_equal (State.since x) as_of = true ->
  less_than as_of (State.upper x) = true ->
  exists bs, State.snapshot x as_of = Ok bs /\ snapshot_spec x as_of bs.
Proof.
  intros Hx Hs Hu. destruct (state_chain x Hx) as [Hc Ho]. unfold State.snapshot.
  change (Trace.since _) with (State.since x). change (Trace.upper _) with (State.upper x).
  rewrite (le_not_lt _ _ Hs), (lt_not_le _ _ Hu).
  destruct (hchain_prefix _ _ _ as_of Hc Ho) as (pre & post & Hb & -> & Hpre & Hpost). exists pre. split; [done|].
  rewrite Hb in Hc. apply hchain_app in Hc as (hi & Hc1 & Hc2). exists post, hi. split_and!; try done.
  - destruct post as [|h post]; simpl in Hc2; [by subst|]. destruct Hc2 as [<- _]. by inversion Hpost.
  - eapply Forall_impl; [exact Hpre|]. simpl. intros h. apply not_less_than.
Qed.

Lemma snapshot_lost x as_of : less_than as_of (State.since x) = true ->
  State.snapshot x as_of = Err (AsOfHistoricalDistinctionsLost (State.since x)).
Proof. intros Hs. unfold State.snapshot. change (Trace.since _) with (State.since x). by rewrite Hs. Qed.

Lemma snapshot_not_yet x as_of : less_equal (State.since x) as_of = true -> less_equal (State.upper x) as_of = true ->
  State.snapshot x as_of = Err (AsOfNotYetAvailable (st_seqno x) (State.upper x)).
Proof.
  intros Hs Hu. unfold State.snapshot. change (Trace.since _) with (State.since x). change (Trace.upper _) with (State.upper x).
  by rewrite (le_not_lt _ _ Hs), Hu.
Qed.

(** A listener that has reached [frontier] finds its next batch as soon as
    the upper of the shard is past it. *)
Lemma next_batch_found x frontier : state_ok x -> less_than frontier (State.upper x) = true ->
  exists pre h post, State.next_listen_batch x frontier = Ok h /\
    Trace.batches (sc_trace (st_collections x)) = pre ++ h :: post /\ State.covers_frontier frontier h = true /\
    Forall (fun h => less_than frontier (d_lower (hb_desc h)) = true) post /\
    hchain (d_upper (hb_desc h)) post (State.upper x).
Proof.
  intros Hx Hlt. destruct (state_chain x Hx) as [Hc Ho].
  destruct (hchain_covers _ _ _ frontier Hc Ho (le_min _) Hlt) as (pre & h & post & Hb & Hcov & Hpre & Hpost & Hch).
  exists pre, h, post. split_and!; try done. unfold State.next_listen_batch. by rewrite Hb, find_first.
Qed.

Lemma next_batch_waits x frontier : state_ok x -> less_equal (State.upper x) frontier = true ->
  State.next_listen_batch x frontier = Err (st_seqno x).
Proof.
  intros Hx Hle. destruct (state_chain x Hx) as [Hc Ho]. unfold State.next_listen_batch.
  by rewrite find_nothing by by eapply hchain_end.
Qed.

(** The batches a listener sees on one state from a frontier on, and where
    they take it; [Listen::next] moves its frontier to the upper of the
    batch it was handed. *)
Fixpoint listen (fuel : nat) x frontier : list (HollowBatch T) * Antichain T :=
  match fuel with
  | O => ([], frontier)
  | S fuel =>
      match State.next_listen_batch x frontier with
      | Ok h => let '(hs, f) := listen fuel x (d_upper (hb_desc h)) in (h :: hs, f)
      | Err _ => ([], frontier)
      end
  end.

(** From the start of a batch, a listener sees it and all that follow,
    except those that cover no time. *)
Lemma listen_suffix x pre hs f fuel : state_ok x -> Trace.batches (sc_trace (st_collections x)) = pre ++ hs ->
  hchain f hs (State.upper x) -> (length hs <= fuel)%nat ->
  listen fuel x f = (filter (fun h => d_lower (hb_desc h) <> d_upper (hb_desc h)) hs, State.upper x).
Proof.
  intros Hx. destruct (state_chain x Hx) as [Hch Ho]. revert pre f fuel.
  induction hs as [|h hs IH]; intros pre f fuel Hb Hc Hf.
  - simpl in Hc. subst f. destruct fuel; simpl; [done|]. by rewrite (next_batch_waits x _ Hx (le_refl _)).
  - destruct Hc as [<- Hc]. rewrite Hb in Ho. apply Forall_app in Ho as [Ho1 Ho2]. inversion_clear Ho2 as [|?? Hh Ho'].
    destruct (hchain_le _ _ _ Hc Ho') as [Hle _]. rewrite filter_cons. destruct (decide _) as [Hne|He].
    + destruct fuel as [|fuel]; simpl in Hf; [lia|].
      assert (Hlt : less_than (d_lower (hb_desc h)) (d_upper (hb_desc h)) = true)
        by (apply less_than_iff; split; [apply Hh|done]).
      rewrite Hb in Hch. pose proof Hch as (g & Hpre & Hmid)%hchain_app. destruct Hmid as [<- _].
      assert (Hnext : State.next_listen_batch x (d_lower (hb_desc h)) = Ok h).
      { unfold State.next_listen_batch. rewrite Hb. rewrite find_first; [done| |].
        - eapply hchain_end; [exact Hpre|done|apply le_refl].
        - unfold State.covers_frontier. by rewrite le_refl, Hlt. }
      simpl. rewrite Hnext. rewrite (IH (pre ++ [h]) _ fuel); [done|by rewrite <- app_assoc|done|lia].
    + assert (He' : d_lower (hb_desc h) = d_upper (hb_desc h)) by (destruct (decide (d_lower (hb_desc h) = d_upper (hb_desc h))); tauto).
      rewrite He'. apply (IH (pre ++ [h])); [by rewrite <- app_assoc|done|simpl in Hf; lia].
Qed.

(** A snapshot and a listen from the same time fit together: the listen
    starts with the last batch of the snapshot, which covers the time, and
    goes on with the batches the snapshot left out. *)
Lemma listen_after_snapshot x as_of : state_ok x -> less_equal (State.since x) as_of = true ->
  less_than as_of (State.upper x) = true ->
  exists pre h post,
    State.snapshot x as_of = Ok (pre ++ [h]) /\
    Trace.batches (sc_trace (st_collections x)) = pre ++ [h] ++ post /\
    State.covers_frontier as_of h = true /\
    listen (length (Trace.batches (sc_trace (st_collections x)))) x as_of
      = (h :: filter (fun h => d_lower (hb_desc h) <> d_upper (hb_desc h)) post, State.upper x).
Proof.
  intros Hx Hs Hu. destruct (next_batch_found x as_of Hx Hu) as (pre & h & post & Hn & Hb & Hcov & Hpost & Hc).
  exists pre, h, post. split_and!; try done.
  - unfold State.snapshot. change (Trace.since _) with (State.since x). change (Trace.upper _) with (State.upper x).
    rewrite (le_not_lt _ _ Hs), (lt_not_le _ _ Hu), Hb. apply andb_true_iff in Hcov as [Hcov _].
    destruct (state_chain x Hx) as [Hch Ho]. rewrite Hb in Hch, Ho. pose proof Hch as (g & Hpre & [<- _])%hchain_app.
    apply Forall_app in Ho as [Ho _]. destruct (hchain_le _ _ _ Hpre Ho) as [_ Hall].
    rewrite filter_app, filter_cons_True by by apply le_not_lt. f_equal. f_equal.
    + apply filter_all. rewrite Forall_forall in Hall, Ho |- *. intros y Hin. apply le_not_lt.
      eapply le_trans; [apply (ho_ordered _ (Ho y Hin))|]. by eapply le_trans; [apply Hall|].
    + f_equal. apply filter_none. eapply Forall_impl; [exact Hpost|]. simpl. intros y ->. done.
  - rewrite Hb, length_app. simpl length. rewrite Nat.add_succ_r. simpl. rewrite Hn.
    rewrite (listen_suffix x (pre ++ [h]) post _ (length pre + length post) Hx); [done|by rewrite Hb, <- app_assoc|done|lia].
Qed.
End reads.
