(* ===== verification/Tombstone.v ===== *)
(** A finished shard shrinks to nothing: [become_tombstone_and_shrink] never
    panics on a shard whose since and upper are empty, every transition it
    commits makes the state smaller, and it stops at a single empty batch. *)

From S2P Require Import Prelude Timely BTree Schema Paths Batch Spine SpineFacts SpineCorrect Trace TraceFacts State StateFacts.

Local Open Scope Z_scope.

Section finding.
Context {T : Type} `{TimelyLaws T}.
Implicit Types (b : SpineBatch T) (p : IdHollowBatch T) (ps : list (IdHollowBatch T)) (h : HollowBatch T) (t : Trace T).

(** A part with exactly the bounds is found, or something else is. *)
Lemma find_bounds_complete desc i ps lo up p :
  p ∈ ps -> d_lower (hb_desc (ihb_batch p)) = d_lower desc -> d_upper (hb_desc (ihb_batch p)) = d_upper desc ->
  exists l u, Replace.find_bounds desc i ps lo up = (Some l, Some u).
Proof.
  intros Hin Hl Hu. revert i lo up. induction ps as [|q ps IH]; intros i lo up; [by apply not_elem_of_nil in Hin|].
  cbn [Replace.find_bounds]. apply elem_of_cons in Hin as [<-|Hin].
  - rewrite !bool_decide_eq_true_2 by done. by eexists _, _.
  - destruct (if bool_decide _ then _ else lo), (if bool_decide _ then _ else up); [by eexists _, _|..]; by apply IH.
Qed.

(** The batch that holds a part with the tombstone's bounds matches. *)
Lemma tombstone_matches since b desc p :
  batch_wf since b -> less_than (d_lower desc) (d_upper desc) = true ->
  p ∈ sb_parts b -> d_lower (hb_desc (ihb_batch p)) = d_lower desc -> d_upper (hb_desc (ihb_batch p)) = d_upper desc ->
  exists r, Replace.maybe_replace_with_tombstone b desc = Ret r /\ ApplyMergeResult_matched r.2 = true.
Proof.
  intros Hb Hlt Hin Hl Hu. unfold Replace.maybe_replace_with_tombstone.
  destruct (Replace.exact_match b desc); [by eexists|].
  destruct (Replace.find_replacement_range b desc) as [[i range]|] eqn:E.
  - destruct (find_replacement_ok _ _ _ _ _ Hb Hlt E) as (pre & mid & post & Hp & Hne & -> & Ht).
    destruct (perform_ok since b (HollowBatch.empty desc) pre mid post i None) as (r & He & Hm & _); try done;
      [by apply empty_ok, less_than_le|]. by exists r.
  - exfalso. unfold Replace.find_replacement_range in E.
    destruct (find_bounds_complete desc 0 (sb_parts b) None None p Hin Hl Hu) as ([li l] & [ui u] & Hf).
    by rewrite Hf in E.
Qed.

(** A visit that ends without an answer asked every batch. *)
Lemma visit_batches_none {R} (f : SpineBatch T -> outcome (SpineBatch T * option R)) bs bs' :
  Trace.visit_batches f bs = Ret (bs', None) -> forall b, b ∈ bs -> exists b', f b = Ret (b', None).
Proof.
  revert bs'. induction bs as [|b bs IH]; intros bs' Hv c Hc; [by apply not_elem_of_nil in Hc|]. simpl in Hv.
  apply obind_Ret in Hv as ([bs1 r1] & Hv & Hr). destruct r1; [done|].
  apply obind_Ret in Hr as ([b1 r2] & Hf & [= <- ->]). apply elem_of_cons in Hc as [->|Hc]; [by exists b1|by eapply IH].
Qed.

Lemma visit_levels_none {R} (f : SpineBatch T -> outcome (SpineBatch T * option R)) ms ms' :
  Trace.visit_levels f ms = Ret (ms', None) -> forall b, b ∈ batches_of ms -> exists b', f b = Ret (b', None).
Proof.
  revert ms'. induction ms as [|m ms IH]; intros ms' Hv c Hc; [by apply not_elem_of_nil in Hc|]. simpl in Hv.
  apply obind_Ret in Hv as ([bs1 r1] & Hv & Hr). destruct r1; [done|].
  apply obind_Ret in Hr as ([ms1 r2] & Hv' & [= <- ->]). rewrite batches_of_cons in Hc.
  apply elem_of_app in Hc as [Hc|Hc]; [by eapply IH|by eapply visit_batches_none].
Qed.

Lemma elem_of_batches t h : h ∈ Trace.batches t <->
  exists b p, b ∈ Spine.spine_batches (tr_spine t) /\ p ∈ sb_parts b /\ ihb_batch p = h.
Proof.
  unfold Trace.batches. rewrite list_elem_of_fmap. split.
  - intros (p & -> & Hp). apply list_elem_of_In, in_concat in Hp as (l & Hl & Hp).
    apply list_elem_of_In, list_elem_of_fmap in Hl as (b & -> & Hb). exists b, p. split_and!; try done.
    by apply list_elem_of_In.
  - intros (b & p & Hb & Hp & <-). exists p. split; [done|]. apply list_elem_of_In, in_concat.
    exists (sb_parts b). split; [|by apply list_elem_of_In]. apply list_elem_of_In, list_elem_of_fmap. by exists b.
Qed.

(** Every hollow batch of a trace is well-formed. *)
Lemma trace_hollow_ok t h : spine_ok (tr_spine t) -> h ∈ Trace.batches t -> hollow_ok h.
Proof.
  intros Hs (b & p & Hb & Hp & <-)%elem_of_batches. pose proof (spine_batches_wf _ Hs) as Hw.
  rewrite Forall_forall in Hw. pose proof (bw_parts _ _ (Hw b Hb)) as Hps. rewrite Forall_forall in Hps. by apply Hps.
Qed.

(** The tombstone of a batch in the trace is always applied. *)
Lemma apply_tombstone_ok t h : spine_ok (tr_spine t) -> h ∈ Trace.batches t -> hb_parts h <> [] ->
  Trace.since t = antichain_new ->
  exists t' r, Trace.apply_tombstone_merge t (hb_desc h) = Ret (t', r) /\ ApplyMergeResult_applied r = true /\
    merge_post t (HollowBatch.empty (hb_desc h)) (t', r).
Proof.
  intros Hs Hin Hne Hsince. pose proof (trace_hollow_ok _ _ Hs Hin) as Hh.
  assert (Hlt : less_than (d_lower (hb_desc h)) (d_upper (hb_desc h)) = true).
  { apply less_than_iff. split; [apply Hh|]. by destruct (ho_times _ Hh). }
  pose proof (spine_batches_wf _ Hs) as Hw. rewrite Forall_forall in Hw.
  set (F := fun b => Replace.maybe_replace_with_tombstone b (hb_desc h)).
  assert (HF : forall b, b ∈ Spine.spine_batches (tr_spine t) ->
    exists r, F b = Ret r /\ replace_post (Trace.since t) b (HollowBatch.empty (hb_desc h)) r).
  { intros b Hb. apply tombstone_ok; [by apply Hw|done|]. rewrite Hsince. apply le_empty. }
  destruct (visit_levels_total (Trace.until_matched F) (sp_merging (tr_spine t))) as [[ms r] Hv].
  { apply Forall_forall. intros b Hb. destruct (HF b Hb) as ([b' r'] & He & _). unfold Trace.until_matched. rewrite He. by eexists. }
  assert (Hr : exists r', r = Some r' /\ ApplyMergeResult_applied r' = true).
  { destruct r as [r'|].
    - exists r'. split; [done|]. apply visit_levels_inv in Hv.
      + destruct Hv as (xs & m & ys & p & b & q & b' & E1 & E2 & Hf & _).
        assert (Hb : b ∈ Spine.spine_batches (tr_spine t)).
        { unfold Spine.spine_batches. change (concat (ms_batches <$> rev ?l)) with (batches_of l).
          rewrite E1, (batches_of_middle _ _ _ _ _ _ E2), elem_of_app, elem_of_cons. tauto. }
        unfold Trace.until_matched in Hf.
        apply obind_Ret in Hf as ([b1 r1] & HFb & [= _ Hr]). destruct (ApplyMergeResult_matched r1) eqn:E; [|done].
        injection Hr as <-. eapply (tombstone_applied _ b (hb_desc h) (b1, r1)); [by apply Hw|done|exact HFb|done].
      + intros b b' r Hb Hf Hr. unfold Trace.until_matched in Hf. apply obind_Ret in Hf as ([b1 r1] & HFb & [= <- <-]).
        destruct (HF b Hb) as (r2 & He & Hpost). rewrite He in HFb. simplify_eq. unfold replace_post in Hpost. simpl in Hpost.
        by destruct r1.
    - exfalso. apply elem_of_batches in Hin as (b & p & Hb & Hp & <-).
      destruct (visit_levels_none _ _ _ Hv b Hb) as (b' & Hf).
      destruct (tombstone_matches _ _ (hb_desc (ihb_batch p)) p (Hw b Hb) Hlt Hp eq_refl eq_refl) as ([b1 r1] & He & Hm).
      unfold Trace.until_matched, F in Hf. rewrite He in Hf. simpl in Hf, Hm. rewrite Hm in Hf. by simplify_eq. }
  destruct Hr as (r' & -> & Hm). unfold Trace.apply_tombstone_merge. fold F.
  assert (He : Trace.apply_merge F t = Ret (Trace.with_spine t (Spine.with_merging (tr_spine t) ms), r')).
  { unfold Trace.apply_merge, Trace.visit. rewrite Hv. done. }
  eexists _, _. split; [exact He|]. split; [done|].
  eapply (apply_merge_post F (fun h' => h' = HollowBatch.empty (hb_desc h)) _) in He as (h' & -> & Hpost); try done.
  intros b r Hb _ HFb. eexists. split; [done|]. destruct (HF b Hb) as (r2 & He2 & Hpost).
  rewrite He2 in HFb. by injection HFb as <-.
Qed.
End finding.

Section shrinking.
Context {T : Type} `{TimelyLaws T} {Version : Type}.
Implicit Types (c : StateCollections T Version) (t : Trace T) (h : HollowBatch T) (hs : list (HollowBatch T)).

Definition nonempty_count hs : nat := length (filter (fun h => hb_parts h <> []) hs).

Lemma nonempty_count_app hs hs' : nonempty_count (hs ++ hs') = (nonempty_count hs + nonempty_count hs')%nat.
Proof. unfold nonempty_count. by rewrite filter_app, length_app. Qed.

Lemma nonempty_count_in h hs : h ∈ hs -> hb_parts h <> [] -> (0 < nonempty_count hs)%nat.
Proof.
  intros Hin Hne. unfold nonempty_count. assert (h ∈ filter (fun h => hb_parts h <> []) hs) as Hf by by apply list_elem_of_filter.
  destruct (filter _ hs); [by apply not_elem_of_nil in Hf|simpl; lia].
Qed.

(** Replacing a batch by its tombstone leaves fewer batches with data. *)
Lemma tombstone_count t t' h r : spine_ok (tr_spine t) -> h ∈ Trace.batches t -> hb_parts h <> [] ->
  ApplyMergeResult_applied r = true -> merge_post t (HollowBatch.empty (hb_desc h)) (t', r) ->
  (nonempty_count (Trace.batches t') < nonempty_count (Trace.batches t))%nat.
Proof.
  intros Hs Hin Hne Hr. unfold merge_post. rewrite Hr.
  intros (_ & _ & _ & _ & _ & pre & mid & post & lo & hi & Hb & Hb' & Hmid & Ht).
  pose proof (trace_hollow _ Hs) as Ho. pose proof (trace_hchain _ Hs) as Hc.
  rewrite Forall_forall in Ho. pose proof (Ho h Hin) as Hh. rewrite <- Forall_forall in Ho.
  rewrite Hb in Ho, Hc, Hin. apply tiles_hchain in Ht.
  assert (Hm : h ∈ ihb_batch <$> mid).
  { eapply hchain_within; try done; [by destruct mid|]. simpl. apply less_than_iff. split; [apply Hh|]. by destruct (ho_times _ Hh). }
  pose proof (nonempty_count_in _ _ Hm Hne) as Hpos. rewrite Hb, Hb'.
  change (HollowBatch.empty (hb_desc h) :: post) with ([HollowBatch.empty (hb_desc h)] ++ post).
  rewrite !nonempty_count_app. unfold nonempty_count at 2. simpl. lia.
Qed.

(** What is left to do for a finished shard. *)
Definition shrink_measure c : nat :=
  (3 * nonempty_count (Trace.batches (sc_trace c))
   + (if (1 <? length (Trace.batches (sc_trace c)))%nat then 2 else 0)
   + (if StateCollections.is_tombstone c then 0 else 1))%nat.

Definition finished c : Prop :=
  Trace.upper (sc_trace c) = antichain_new /\ Trace.since (sc_trace c) = antichain_new.

Lemma cleared_tombstone c : finished c -> StateCollections.is_tombstone (StateCollections.clear_handles c) = true.
Proof.
  intros [Hu Hs]. unfold StateCollections.is_tombstone, StateCollections.frontier_is_empty. simpl.
  by rewrite Hu, Hs, bool_decide_eq_true_2.
Qed.

Lemma cleared_ok seqno c : coll_ok seqno c -> coll_ok seqno (StateCollections.clear_handles c).
Proof. intros []. split; simpl; try done; constructor. Qed.

(** The replacement trace of a shard without data. *)
Lemma fresh_trace_ok : exists t,
  Trace.push_batch (Trace.downgrade_since (Trace.default (T := T)) antichain_new) StateCollections.tombstone_batch = Ret (t, []) /\
  spine_ok (tr_spine t) /\ Trace.upper t = antichain_new /\ Trace.since t = antichain_new /\
  Trace.batches t = [StateCollections.tombstone_batch].
Proof.
  set (t0 := Trace.downgrade_since _ _). set (h := StateCollections.tombstone_batch (T := T)).
  assert (Hs0 : spine_ok (tr_spine t0)) by (apply with_since_ok; [apply new_ok|apply le_empty]).
  assert (Hne : d_lower (hb_desc h) <> d_upper (hb_desc h)) by (simpl; rewrite lower_new, upper_new; apply min_not_empty).
  assert (Hf : batch_fits t0 h).
  { split; simpl; rewrite ?lower_new, ?since_new; try done; try apply le_refl.
    apply empty_ok. rewrite lower_new. apply le_min. }
  destruct (push_batch_ok t0 h Hs0 Hf Hne) as (t' & reqs & He & Hs & Hsince & Hup & _).
  assert (Hpush : exists t1, Trace.push_batch t0 h = Ret (t1, []) /\ Trace.batches t1 = [h]).
  { unfold Trace.push_batch, Spine.insert, assert_. rewrite bool_decide_eq_false_2 by done.
    rewrite bool_decide_eq_true_2 by (by rewrite (bf_lower _ _ Hf)). eexists. by split. }
  destruct Hpush as (t1 & He1 & Hb). rewrite He in He1. injection He1 as -> ->.
  exists t1. split_and!; try done. rewrite Hup. simpl. by rewrite upper_new.
Qed.

Lemma become_tombstone_ok seqno c : coll_ok seqno c -> finished c ->
  exists c' ret, StateCollections.become_tombstone_and_shrink c = Ret (c', ret) /\
    coll_ok seqno c' /\ finished c' /\ StateCollections.is_tombstone c' = true /\
    match ret with
    | Continue _ => (shrink_measure c' < shrink_measure c)%nat
    | Break _ => StateCollections.is_single_empty_batch c = true /\ StateCollections.is_tombstone c = true
    end.
Proof.
  intros Hc Hfin. pose proof (cleared_ok _ _ Hc) as Hc1. pose proof (cleared_tombstone _ Hfin) as Ht1.
  unfold StateCollections.become_tombstone_and_shrink, assert_. destruct Hfin as [Hu Hs].
  rewrite !bool_decide_eq_true_2 by done. cbn [obind]. set (c1 := StateCollections.clear_handles c) in *.
  assert (Hfin1 : finished c1) by done.
  change (Trace.batches (sc_trace c)) with (Trace.batches (sc_trace c1)).
  assert (Hmeasure : forall t', spine_ok (tr_spine t') -> Trace.upper t' = antichain_new -> Trace.since t' = antichain_new ->
    coll_ok seqno (StateCollections.with_trace c1 t') /\ finished (StateCollections.with_trace c1 t') /\
    StateCollections.is_tombstone (StateCollections.with_trace c1 t') = true).
  { intros t' Hok Hup Hsi. split_and!; try done.
    - eapply (with_trace_ok seqno c1); try done; simpl; [by rewrite Hsi, Hs|]. rewrite Hup. apply le_empty.
    - unfold StateCollections.is_tombstone, StateCollections.frontier_is_empty. simpl.
      by rewrite Hup, Hsi, bool_decide_eq_true_2. }
  destruct (find _ _) as [h|] eqn:Ef.
  - apply find_some in Ef as [Hin%list_elem_of_In Hne]. apply negb_true_iff, bool_decide_eq_false in Hne.
    destruct (apply_tombstone_ok (sc_trace c1) h (co_spine _ _ Hc1) Hin Hne Hs) as (t' & r & He & Hr & Hpost).
    rewrite He. cbn [obind]. assert (Hm : ApplyMergeResult_matched r = true) by by destruct r.
    rewrite Hm. cbn [obind]. pose proof (tombstone_count _ _ _ _ (co_spine _ _ Hc1) Hin Hne Hr Hpost) as Hcount.
    destruct Hpost as (Hok & Hsi & Hup & _). destruct (Hmeasure t') as (H1 & H2 & H3); [done|by rewrite Hup|by rewrite Hsi|].
    eexists _, _. split; [done|]. split_and!; try done. unfold shrink_measure. rewrite H3. simpl in Hcount |- *.
    destruct (1 <? length (Trace.batches t'))%nat; lia.
  - assert (Hall : nonempty_count (Trace.batches (sc_trace c1)) = 0%nat /\ forallb HollowBatch.is_empty (Trace.batches (sc_trace c1)) = true).
    { pose proof (find_none _ _ Ef) as Hn. split.
      - unfold nonempty_count. destruct (filter _ _) as [|h l] eqn:E; [done|]. exfalso.
        assert (Hh : h ∈ filter (fun h => hb_parts h <> []) (Trace.batches (sc_trace c1))) by (rewrite E; by constructor).
        apply list_elem_of_filter in Hh as [Hp Hh%list_elem_of_In]. specialize (Hn h Hh). apply negb_false_iff in Hn.
        by apply bool_decide_eq_true in Hn.
      - apply forallb_forall. intros h Hh. specialize (Hn h Hh). by apply negb_false_iff in Hn. }
    destruct Hall as [Hz Hall]. destruct (Nat.ltb_spec 1 (length (Trace.batches (sc_trace c1)))) as [Hlen|Hlen].
    + destruct fresh_trace_ok as (t' & He & Hok & Hup & Hsi & Hb). rewrite He. cbn [obind].
      destruct (Hmeasure t' Hok Hup Hsi) as (H1 & H2 & H3). eexists _, _. split; [done|]. split_and!; try done.
      unfold shrink_measure. rewrite H3. simpl sc_trace. rewrite Hb. simpl.
      rewrite (proj2 (Nat.ltb_lt 1 (length (Trace.batches (sc_trace c))))) by done. lia.
    + destruct (StateCollections.is_tombstone c) eqn:Et; simpl negb; cbn match; eexists _, _; (split; [done|]); split_and!; try done.
      * unfold StateCollections.is_single_empty_batch. change (sc_trace c) with (sc_trace c1). rewrite Hall.
        by rewrite (proj2 (Nat.leb_le _ _)).
      * unfold shrink_measure. rewrite Et, Ht1. change (sc_trace c) with (sc_trace c1). lia.
Qed.
(** [Machine::become_tombstone]: steps until one changes nothing. *)
Fixpoint become_tombstone (fuel : nat) c : outcome (option (StateCollections T Version)) :=
  match fuel with
  | O => Ret None
  | S fuel =>
      let! (c', made_progress) := StateCollections.become_tombstone_and_shrink c in
      match made_progress with
      | Continue _ => become_tombstone fuel c'
      | Break _ => Ret (Some c)
      end
  end.

Lemma become_tombstone_ends seqno c fuel : coll_ok seqno c -> finished c -> (shrink_measure c < fuel)%nat ->
  exists c', become_tombstone fuel c = Ret (Some c') /\ coll_ok seqno c' /\
    StateCollections.is_tombstone c' = true /\ StateCollections.is_single_empty_batch c' = true.
Proof.
  revert c. induction fuel as [|fuel IH]; intros c Hc Hfin Hm; [lia|]. simpl.
  destruct (become_tombstone_ok seqno c Hc Hfin) as (c' & ret & -> & Hc' & Hfin' & Ht' & Hret). cbn [obind].
  destruct ret as [[]|[]]; [|by apply IH; try done; lia]. destruct Hret. by exists c.
Qed.
End shrinking.
