(* ===== verification/Machine.v ===== *)
(** * Commands on a shard (src/src/persist-client/src/internal/apply.rs, machine.rs)

    [Applier.compute_next_state_locked] is the only place where a command
    meets the shared state: it runs the command on a copy, expires leases,
    and decides on rollups and garbage collection.  [Command] lists what
    [machine.rs] passes to it.  The theorems are in [MachineFacts]. *)

From S2P Require Import Prelude Timely BTree Schema Paths Batch Spine Trace State.

Local Open Scope Z_scope.

(** The commands by the name of their metrics. *)
Inductive CmdName :=
| cmd_add_rollup
| cmd_remove_rollups
| cmd_upgrade_version
| cmd_register
| cmd_spine_exert
| cmd_compare_and_append
| cmd_merge_res
| cmd_downgrade_since
| cmd_compare_and_downgrade_since
| cmd_expire_reader
| cmd_expire_writer
| cmd_compare_and_evolve_schema
| cmd_become_tombstone.

#[export] Instance CmdName_eqdec : EqDecision CmdName.
Proof. solve_decision. Defined.

(** What [PersistConfig] holds for the applier. *)
Record Config := {
  cfg_gc : State.GcConfig;
  cfg_use_active_rollup : bool;
  cfg_rollup_threshold : Z;
  cfg_rollup_fallback_threshold_ms : Z;
  cfg_hostname : string;
}.

(** The readings of the wall clock while a command is applied. *)
Record Clock := {
  now_apply : Z;
  now_expire : Z;
  now_maintenance : Z;
}.

Section types.
Context (T : Type) `{Timely T} (Version R : Type).

Record NextState := {
  ns_state : State T Version;
  ns_expiry_metrics : State.ExpiryMetrics;
  ns_write_rollup : option SeqNo;
  ns_garbage_collection : option State.GcReq;
  ns_work_ret : R;
}.
End types.
Arguments ns_state {T _ Version R}.
Arguments ns_expiry_metrics {T _ Version R}.
Arguments ns_write_rollup {T _ Version R}.
Arguments ns_garbage_collection {T _ Version R}.
Arguments ns_work_ret {T _ Version R}.

Module Applier.
Section ops.
Context {T : Type} `{Timely T} {Version : Type}.
Implicit Types (x : State T Version) (c : StateCollections T Version).

(** [trace.roundtrip_structure = true] *)
Definition set_roundtrip c : StateCollections T Version :=
  StateCollections.with_trace c
    {| tr_spine := tr_spine (sc_trace c); tr_roundtrip_structure := true |}.

(** The rollup the new state asks for, and the mark it leaves. *)
Definition plan_rollup x (cfg : Config) (now : Z) : outcome (State T Version * option SeqNo) :=
  let! write_rollup := State.need_rollup x (cfg_rollup_threshold cfg) (cfg_use_active_rollup cfg)
                         (cfg_rollup_fallback_threshold_ms cfg) now in
  Ret (match write_rollup with
       | Some seqno =>
           if cfg_use_active_rollup cfg then
             State.with_collections x (StateCollections.with_active_rollup (st_collections x)
                                         (Some {| ar_seqno := seqno; ar_start_ms := now |}))
           else x
       | None => x
       end, write_rollup).

(** The garbage collection the new state asks for, and the mark it leaves. *)
Definition plan_gc x (is_write : bool) (cfg : Config) (now : Z) : State T Version * option State.GcReq :=
  let '(x, gc) := State.maybe_gc x is_write now (cfg_gc cfg) in
  (match gc with
   | Some req =>
       if State.use_active_gc (cfg_gc cfg) then
         State.with_collections x (StateCollections.with_active_gc (st_collections x)
                                     (Some {| ag_seqno := State.gc_new_seqno_since req; ag_start_ms := now |}))
       else x
   | None => x
   end, gc).

Definition compute_next_state_locked {R E} x
    (work_fn : SeqNo -> StateCollections T Version -> outcome (StateCollections T Version * ControlFlow E R))
    (cmd : CmdName) (cfg : Config) (clock : Clock) : outcome (result (NextState T Version R) (SeqNo * E)) :=
  let is_write := bool_decide (cmd = cmd_compare_and_append) in
  let is_rollup := bool_decide (cmd = cmd_add_rollup) in
  let is_become_tombstone := bool_decide (cmd = cmd_become_tombstone) in
  let expected := st_seqno x in
  let was_tombstone_before := StateCollections.is_tombstone (st_collections x) in
  let! applied := State.clone_apply x (now_apply clock) (cfg_hostname cfg) work_fn in
  match applied with
  | Break err => Ret (Err (expected, err))
  | Continue (work_ret, new_state) =>
      let '(new_state, expiry_metrics) := State.expire_at new_state (now_expire clock) in
      let new_state := State.with_collections new_state (set_roundtrip (st_collections new_state)) in
      let! _ := assert_ (negb (was_tombstone_before && negb (is_rollup || is_become_tombstone))) in
      let! (new_state, write_rollup) := plan_rollup new_state cfg (now_maintenance clock) in
      let '(new_state, garbage_collection) := plan_gc new_state is_write cfg (now_maintenance clock) in
      let! _ := assert_ (SeqNo_next expected =? st_seqno new_state) in
      Ret (Ok {| ns_state := new_state; ns_expiry_metrics := expiry_metrics;
                 ns_write_rollup := write_rollup; ns_garbage_collection := garbage_collection;
                 ns_work_ret := work_ret |})
  end.

(** [Applier::update_state]: the cached state only moves forward. *)
Definition update_state x new_state : State T Version :=
  if st_seqno x <? st_seqno new_state then new_state else x.
End ops.
End Applier.

(** ** The commands of [machine.rs] *)

Section commands.
Context (T : Type) `{Timely T} (Version K V : Type).

Inductive Command :=
| AddRollup (rollup_seqno : SeqNo) (rollup : HollowRollup)
| RemoveRollups (rollups : list (SeqNo * str))
| UpgradeVersion (build_version : Version)
| RegisterLeasedReader (hostname : string) (reader_id : LeasedReaderId) (purpose : string)
    (lease_duration now : Z) (use_critical_since : bool)
| RegisterCriticalReader (hostname : string) (reader_id : CriticalReaderId) (opaque : Opaque) (purpose : string)
| RegisterSchema (key_schema : K) (val_schema : V)
| SpineExert (fuel : Z)
| CompareAndAppend (batch : HollowBatch T) (writer_id : WriterId) (now lease_duration_ms : Z)
    (idempotency_token : IdempotencyToken) (debug_info : HandleDebugState)
    (inline_writes_total_max_bytes claim_compaction_percent : Z) (claim_compaction_min_version : option Version)
| DowngradeSince (reader_id : LeasedReaderId) (outstanding_seqno : SeqNo) (new_since : Antichain T) (now : Z)
| CompareAndDowngradeSince (reader_id : CriticalReaderId) (expected_opaque new_opaque : Opaque) (new_since : Antichain T)
| ExpireLeasedReader (reader_id : LeasedReaderId)
| ExpireCriticalReader (reader_id : CriticalReaderId)
| ExpireWriter (writer_id : WriterId)
| CompareAndEvolveSchema (expected : SchemaId) (key_schema : K) (val_schema : V)
| BecomeTombstone
| MergeRes (res : FueledMergeRes T).
End commands.

Arguments AddRollup {T _ Version K V}.
Arguments RemoveRollups {T _ Version K V}.
Arguments UpgradeVersion {T _ Version K V}.
Arguments RegisterLeasedReader {T _ Version K V}.
Arguments RegisterCriticalReader {T _ Version K V}.
Arguments RegisterSchema {T _ Version K V}.
Arguments SpineExert {T _ Version K V}.
Arguments CompareAndAppend {T _ Version K V}.
Arguments DowngradeSince {T _ Version K V}.
Arguments CompareAndDowngradeSince {T _ Version K V}.
Arguments ExpireLeasedReader {T _ Version K V}.
Arguments ExpireCriticalReader {T _ Version K V}.
Arguments ExpireWriter {T _ Version K V}.
Arguments CompareAndEvolveSchema {T _ Version K V}.
Arguments BecomeTombstone {T _ Version K V}.
Arguments MergeRes {T _ Version K V}.

Module Machine.
Section ops.
Context {T : Type} `{Timely T} {Version K V : Type} `{!SemVer Version} `{UuidCodec}
  `{!SchemaCodec K} `{!SchemaCodec V} `{!DataTypeCodec} (D : Type) `{!PartCodec D}.
Context (hashed : IdempotencyToken -> Z).
Implicit Types (c : StateCollections T Version) (x : State T Version).

Definition cmd_name (cmd : Command T Version K V) : CmdName :=
  match cmd with
  | AddRollup _ _ => cmd_add_rollup
  | RemoveRollups _ => cmd_remove_rollups
  | UpgradeVersion _ => cmd_upgrade_version
  | RegisterLeasedReader _ _ _ _ _ _ => cmd_register
  | RegisterCriticalReader _ _ _ _ => cmd_register
  | RegisterSchema _ _ => cmd_register
  | SpineExert _ => cmd_spine_exert
  | CompareAndAppend _ _ _ _ _ _ _ _ _ => cmd_compare_and_append
  | DowngradeSince _ _ _ _ => cmd_downgrade_since
  | CompareAndDowngradeSince _ _ _ _ => cmd_compare_and_downgrade_since
  | ExpireLeasedReader _ => cmd_expire_reader
  | ExpireCriticalReader _ => cmd_expire_reader
  | ExpireWriter _ => cmd_expire_writer
  | CompareAndEvolveSchema _ _ _ => cmd_compare_and_evolve_schema
  | BecomeTombstone => cmd_become_tombstone
  | MergeRes _ => cmd_merge_res
  end.

(** The closure of [Machine::upgrade_version]. *)
Definition upgrade_version c (build_version : Version) :
    StateCollections T Version * ControlFlow (result unit Version) (result unit Version) :=
  if StateCollections.is_tombstone c then (c, Break (Ok tt))
  else if version_leb (sc_version c) build_version then
    ({| sc_version := build_version; sc_last_gc_req := sc_last_gc_req c; sc_rollups := sc_rollups c;
        sc_active_rollup := sc_active_rollup c; sc_active_gc := sc_active_gc c;
        sc_leased_readers := sc_leased_readers c; sc_critical_readers := sc_critical_readers c;
        sc_writers := sc_writers c; sc_schemas := sc_schemas c; sc_trace := sc_trace c |}, Continue (Ok tt))
  else (c, Break (Err (sc_version c))).

(** Whether a command wants its new state committed, its answer dropped. *)
Definition forget {E R} (r : StateCollections T Version * ControlFlow E R) :
    StateCollections T Version * ControlFlow unit unit :=
  (r.1, match r.2 with Continue _ => Continue tt | Break _ => Break tt end).

(** The closures [machine.rs] passes to the applier. *)
Definition run_command (cmd : Command T Version K V) (seqno : SeqNo) c :
    outcome (StateCollections T Version * ControlFlow unit unit) :=
  match cmd with
  | AddRollup rollup_seqno rollup => Ret (forget (StateCollections.add_rollup c rollup_seqno rollup))
  | RemoveRollups rollups => Ret (forget (StateCollections.remove_rollups c rollups))
  | UpgradeVersion build_version => Ret (forget (upgrade_version c build_version))
  | RegisterLeasedReader hostname reader_id purpose lease_duration now use_critical_since =>
      let! r := StateCollections.register_leased_reader c hostname reader_id purpose seqno
                  lease_duration now use_critical_since in
      Ret (forget r)
  | RegisterCriticalReader hostname reader_id opaque purpose =>
      Ret (forget (StateCollections.register_critical_reader c hostname reader_id opaque purpose))
  | RegisterSchema key_schema val_schema =>
      let! r := StateCollections.register_schema c key_schema val_schema in Ret (forget r)
  | SpineExert fuel => let! r := StateCollections.spine_exert c fuel in Ret (forget r)
  | CompareAndAppend batch writer_id now lease_duration_ms token debug_info max_bytes percent min_version =>
      let! r := StateCollections.compare_and_append hashed c batch writer_id now lease_duration_ms token
                  debug_info max_bytes percent min_version in
      Ret (forget r)
  | DowngradeSince reader_id outstanding_seqno new_since now =>
      let! r := StateCollections.downgrade_since c reader_id seqno outstanding_seqno new_since now in
      Ret (forget r)
  | CompareAndDowngradeSince reader_id expected_opaque new_opaque new_since =>
      let! r := StateCollections.compare_and_downgrade_since c reader_id expected_opaque new_opaque new_since in
      Ret (forget r)
  | ExpireLeasedReader reader_id => Ret (forget (StateCollections.expire_leased_reader c reader_id))
  | ExpireCriticalReader reader_id => Ret (forget (StateCollections.expire_critical_reader c reader_id))
  | ExpireWriter writer_id => Ret (forget (StateCollections.expire_writer c writer_id))
  | CompareAndEvolveSchema expected key_schema val_schema =>
      let! r := StateCollections.compare_and_evolve_schema c expected key_schema val_schema in Ret (forget r)
  | BecomeTombstone => let! r := StateCollections.become_tombstone_and_shrink c in Ret (forget r)
  | MergeRes res => let! r := StateCollections.apply_merge_res D c res in Ret (forget r)
  end.

(** A command computes the next state of the shard. *)
Definition next_state x (cmd : Command T Version K V) (cfg : Config) (clock : Clock) :
    outcome (result (NextState T Version unit) (SeqNo * unit)) :=
  Applier.compute_next_state_locked x (run_command cmd) (cmd_name cmd) cfg clock.
End ops.

(** ** Appends with retries *)

Section appends.
Context {T : Type} `{Timely T}.

Inductive CompareAndAppendRes :=
| CaaResSuccess (seqno : SeqNo) (compaction : list (FueledMergeReq T))
| CaaResInvalidUsage (u : InvalidUsage T)
| CaaResUpperMismatch (seqno : SeqNo) (upper : Antichain T)
| CaaResInlineBackpressure.

(** The end of the loop in [compare_and_append_idempotent]: what to make of
    an answer, given whether an earlier attempt had an unknown outcome. *)
Definition handle_append (batch : HollowBatch T) (indeterminate : bool) (seqno : SeqNo)
    (res : result (list (FueledMergeReq T)) (CompareAndAppendBreak T)) : outcome CompareAndAppendRes :=
  match res with
  | Ok merge_reqs => Ret (CaaResSuccess seqno merge_reqs)
  | Err CaaAlreadyCommitted =>
      let! _ := assert_ indeterminate in
      Ret (CaaResSuccess seqno [])
  | Err (CaaInvalidUsage err) =>
      let! _ := assert_ (negb indeterminate) in
      Ret (CaaResInvalidUsage err)
  | Err CaaInlineBackpressure => Ret CaaResInlineBackpressure
  | Err (CaaUpper shard_upper writer_upper) =>
      let! _ := assert_ (less_equal writer_upper shard_upper) in
      if less_than writer_upper (d_upper (hb_desc batch)) then Ret (CaaResUpperMismatch seqno shard_upper)
      else if negb indeterminate then Ret (CaaResUpperMismatch seqno shard_upper)
      else Panic
  end.
End appends.

(** [StateVersions::write_initial_rollup]: the first state of a shard, which
    holds its own rollup. *)
Definition write_initial_rollup {T} `{Timely T} {Version} `{UuidCodec} (build_version : Version)
    (shard_id : ShardId) (hostname : string) (now : Z) (rollup_id : RollupId) : outcome (State T Version) :=
  let empty_state := State.new build_version shard_id hostname now in
  let rollup_seqno := st_seqno empty_state in
  let rollup := {| rollup_key := PartialRollupKey_new (Z.to_N rollup_seqno) rollup_id;
                   rollup_encoded_size_bytes := None |} in
  let '(c, ret) := StateCollections.add_rollup (st_collections empty_state) rollup_seqno rollup in
  match ret with
  | Continue applied => let! _ := assert_ applied in Ret (State.with_collections empty_state c)
  | Break _ => Panic
  end.
End Machine.
