(* ===== verification/MachineFacts.v ===== *)
(** * What commands do to a shard

    Every command of [Machine] keeps the invariant of [StateFacts], never
    moves a frontier or the sequence number back, and refines the abstract
    shard [Shard]: a since, an upper, and the batches with data in order of
    time. *)

From S2P Require Import Prelude Timely BTree Schema Paths Batch BatchFacts Spine SpineFacts SpineCorrect Trace TraceFacts State StateFacts Tombstone Machine.

Local Open Scope Z_scope.

(** ** The abstract shard *)

Section abstract.
Context {T : Type} `{TimelyLaws T} {Version K V : Type}.
Implicit Types (c : StateCollections T Version) (h : HollowBatch T) (t : Trace T).

Record Shard := {
  sh_since : Antichain T;
  sh_upper : Antichain T;
  sh_data : list (HollowBatch T);
}.

Definition shard_of_trace t : Shard :=
  {| sh_since := Trace.since t; sh_upper := Trace.upper t; sh_data := trace_data t |}.

Definition shard_of c : Shard := shard_of_trace (sc_trace c).

Definition within (d : Description T) h : Prop :=
  less_equal (d_lower d) (d_lower (hb_desc h)) = true /\ less_equal (d_upper (hb_desc h)) (d_upper d) = true.

(** One batch with description [d] takes the place of batches in its range
    of times. *)
Definition compacts (d : Description T) (s s' : Shard) : Prop :=
  sh_since s' = sh_since s /\ sh_upper s' = sh_upper s /\
  exists pre mid post h, sh_data s = pre ++ mid ++ post /\ hb_desc h = d /\ Forall (within d) mid /\
    sh_data s' = pre ++ data_in h ++ post.

(** What a command that is committed may do. *)
Definition evolves (cmd : Command T Version K V) (s s' : Shard) : Prop :=
  match cmd with
  | CompareAndAppend h _ _ _ _ _ _ _ _ =>
      sh_upper s = d_lower (hb_desc h) /\
      s' = {| sh_since := sh_since s; sh_upper := d_upper (hb_desc h); sh_data := sh_data s ++ appended h |}
  | DowngradeSince _ _ _ _ | CompareAndDowngradeSince _ _ _ _ =>
      less_equal (sh_since s) (sh_since s') = true /\ sh_upper s' = sh_upper s /\ sh_data s' = sh_data s
  | MergeRes res => s' = s \/ compacts (hb_desc (fres_output res)) s s'
  | BecomeTombstone =>
      sh_since s = antichain_new /\ sh_upper s = antichain_new /\
      sh_since s' = antichain_new /\ sh_upper s' = antichain_new /\ sh_data s' `sublist_of` sh_data s
  | _ => s' = s
  end.

(** *** Traces *)

Lemma hollow_data_app l1 l2 : filter (fun h => hb_len h <> 0) (l1 ++ l2)
  = filter (fun h => hb_len h <> 0) l1 ++ filter (fun h => hb_len h <> 0) l2.
Proof. apply filter_app. Qed.

Lemma data_of_one h : filter (fun h => hb_len h <> 0) [h] = data_in h.
Proof.
  unfold data_in. rewrite filter_cons. destruct (Z.eqb_spec (hb_len h) 0), (decide _); try done; tauto.
Qed.

Lemma merge_compacts t h t' r : spine_ok (tr_spine t) -> merge_post t h (t', r) ->
  shard_of_trace t' = shard_of_trace t \/ compacts (hb_desc h) (shard_of_trace t) (shard_of_trace t').
Proof.
  intros Hs (_ & Hsi & Hup & _ & _ & Hp). destruct (ApplyMergeResult_applied r); [|left; by subst].
  right. destruct Hp as (pre & mid & post & lo & hi & Hb & Hb' & _ & Ht). split_and!; [done|done|].
  pose proof (trace_hollow _ Hs) as Ho. rewrite Hb in Ho. apply Forall_app in Ho as [_ [Ho _]%Forall_app].
  destruct (hchain_le _ _ _ (tiles_hchain _ _ _ _ _ Ht) Ho) as [_ Hw].
  exists (filter (fun h => hb_len h <> 0) pre), (filter (fun h => hb_len h <> 0) (ihb_batch <$> mid)),
    (filter (fun h => hb_len h <> 0) post), h.
  simpl. unfold trace_data. rewrite Hb, Hb'. split_and!; [by rewrite !hollow_data_app|done| |].
  - apply Forall_forall. intros x [_ Hx]%list_elem_of_filter. rewrite Forall_forall in Hw. by apply Hw.
  - change (h :: post) with ([h] ++ post). by rewrite !hollow_data_app, data_of_one.
Qed.

Lemma merge_empties t d t' r : merge_post t (HollowBatch.empty d) (t', r) -> trace_data t' `sublist_of` trace_data t.
Proof.
  intros (_ & _ & _ & _ & _ & Hp). destruct (ApplyMergeResult_applied r); [|by subst].
  destruct Hp as (pre & mid & post & lo & hi & Hb & Hb' & _ & _). unfold trace_data. rewrite Hb, Hb'.
  change (HollowBatch.empty d :: post) with ([HollowBatch.empty d] ++ post).
  rewrite !hollow_data_app, data_of_one. simpl. apply sublist_app; [done|]. by apply sublist_inserts_l.
Qed.

Lemma update_since_evolves seqno c : coll_ok seqno c ->
  less_equal (Trace.since (sc_trace c)) (Trace.since (sc_trace (StateCollections.update_since c))) = true /\
  Trace.upper (sc_trace (StateCollections.update_since c)) = Trace.upper (sc_trace c) /\
  trace_data (sc_trace (StateCollections.update_since c)) = trace_data (sc_trace c).
Proof.
  intros Hc. split; [apply (update_since_ok _ _ Hc)|]. unfold StateCollections.update_since. by case_match.
Qed.
End abstract.

(** ** The commands *)

(** Takes the run of a command apart, one branch at a time. *)
Ltac inv_run :=
  repeat match goal with
  | H : obind _ _ = Ret _ |- _ => apply obind_Ret in H as (? & ? & ?)
  | H : Ret _ = Ret _ |- _ => injection H as H
  | H : (_, _) = (_, _) |- _ => injection H as ??
  | H : Panic = Ret _ |- _ => discriminate H
  | H : assert_ _ = Ret _ |- _ => clear H
  | H : (match ?x with _ => _ end) = _ |- _ => destruct x eqn:?
  | H : context [let '(_, _) := ?x in _] |- _ => destruct x eqn:?
  end.

Section commands.
Context {T : Type} `{TimelyLaws T} `{!TimelyTotal T} {Version K V : Type} `{!SemVer Version} `{UuidCodec}
  `{!SchemaCodec K} `{!SchemaCodec V} `{!DataTypeCodec} (D : Type) `{!PartCodec D}.
Context (hashed : IdempotencyToken -> Z).
Implicit Types (c : StateCollections T Version) (x : State T Version) (cmd : Command T Version K V).

(** What the callers of a command promise. *)
Definition command_fits c cmd : Prop :=
  match cmd with
  | RemoveRollups rollups => exists k, BTree.contains k (sc_rollups c) = true /\ k ∉ rollups.*1
  | SpineExert fuel =>
      0 <= fuel <= 2 ^ 60 /\
      records 0 (sp_merging (tr_spine (sc_trace c))) + 2 * 2 ^ Z.of_nat (Spine.level_of fuel) <= 2 ^ 60
  | CompareAndAppend h _ _ _ _ _ _ _ _ => writable (sc_trace c) h
  | MergeRes res => forall b, b ∈ Spine.spine_batches (tr_spine (sc_trace c)) -> result_fits b res
  | _ => True
  end.

Lemma downgrade_data seqno c i n out since hb c' ret : StateCollections.downgrade_since (T := T) c i n out since hb = Ret (c', ret) ->
  coll_ok seqno c -> Trace.upper (sc_trace c') = Trace.upper (sc_trace c) /\ trace_data (sc_trace c') = trace_data (sc_trace c).
Proof.
  intros He Hc. unfold StateCollections.downgrade_since, StateCollections.update_since in He. inv_run; subst; by simplify_eq.
Qed.

Lemma compare_downgrade_data c i eo no since c' ret :
  StateCollections.compare_and_downgrade_since (T := T) (Version := Version) c i eo no since = Ret (c', ret) ->
  Trace.upper (sc_trace c') = Trace.upper (sc_trace c) /\ trace_data (sc_trace c') = trace_data (sc_trace c).
Proof.
  intros He. unfold StateCollections.compare_and_downgrade_since, StateCollections.update_since in He. inv_run; by simplify_eq.
Qed.

Lemma become_tombstone_data seqno c c' ret : coll_ok seqno c ->
  StateCollections.become_tombstone_and_shrink c = Ret (c', ret) ->
  finished c /\ trace_data (sc_trace c') `sublist_of` trace_data (sc_trace c).
Proof.
  intros Hc He. unfold StateCollections.become_tombstone_and_shrink, assert_ in He.
  destruct (bool_decide (Trace.upper (sc_trace c) = _)) eqn:Hu; [|done]. apply bool_decide_eq_true in Hu. cbn [obind] in He.
  destruct (bool_decide (Trace.since (sc_trace c) = _)) eqn:Hs; [|done]. apply bool_decide_eq_true in Hs. cbn [obind] in He.
  split; [done|]. set (c1 := StateCollections.clear_handles c) in He.
  destruct (find _ _) as [h|] eqn:Ef.
  - apply find_some in Ef as [Hin%list_elem_of_In Hne]. apply negb_true_iff, bool_decide_eq_false in Hne.
    destruct (apply_tombstone_ok (sc_trace c1) h (co_spine _ _ (cleared_ok _ _ Hc)) Hin Hne Hs) as (t' & r & Ht & _ & Hp).
    rewrite Ht in He. cbn [obind] in He. inv_run. simplify_eq. by eapply merge_empties.
  - destruct (1 <? _)%nat; [|destruct (negb _); by simplify_eq].
    destruct fresh_trace_ok as (t' & Ht & _ & _ & _ & Hb). rewrite Ht in He. cbn [obind] in He. inv_run. simplify_eq.
    simpl. unfold trace_data. rewrite Hb. apply sublist_nil_l.
Qed.
(** *** Rollups stay *)

Lemma insert_nonempty {A} k (v : A) (m : BTreeMap SeqNo A) : BTree.insert k v m <> [].
Proof. intros He. assert (Hx : (k, v) ∈ BTree.insert k v m) by (apply BTree.elem_of_get, BTree.get_insert_eq). by rewrite He in Hx; apply not_elem_of_nil in Hx. Qed.

Lemma add_rollup_some c n r c' ret : sc_rollups c <> [] -> StateCollections.add_rollup c n r = (c', ret) -> sc_rollups c' <> [].
Proof.
  intros Hne He. unfold StateCollections.add_rollup in He. repeat case_match; simplify_eq; try done; apply insert_nonempty.
Qed.

Lemma remove_each_keeps k rs m removed m' removed' : BTree.contains k m = true -> k ∉ rs.*1 ->
  StateCollections.remove_each rs m removed = (m', removed') -> BTree.contains k m' = true.
Proof.
  revert m removed. induction rs as [|[s x] rs IH]; intros m removed Hk Hn; simpl; [by intros [= <- _]|].
  rewrite fmap_cons, not_elem_of_cons in Hn. simpl in Hn. destruct Hn as [Hne Hn]. apply IH; [|done].
  unfold BTree.contains in *. by rewrite BTree.get_remove_ne.
Qed.

Lemma contains_nonempty {A} k (m : BTreeMap SeqNo A) : BTree.contains k m = true -> m <> [].
Proof. by destruct m. Qed.

Lemma remove_rollups_some c rs c' ret : (exists k, BTree.contains k (sc_rollups c) = true /\ k ∉ rs.*1) ->
  StateCollections.remove_rollups c rs = (c', ret) -> sc_rollups c' <> [].
Proof.
  intros (k & Hk & Hn) He. pose proof (contains_nonempty _ _ Hk) as Hne. unfold StateCollections.remove_rollups in He.
  destruct (StateCollections.is_tombstone c); [by simplify_eq|]. destruct rs as [|r rs]; [by simplify_eq|].
  destruct (StateCollections.remove_each _ _ _) as [m removed] eqn:Er. simplify_eq. simpl.
  by eapply contains_nonempty, remove_each_keeps.
Qed.

Lemma update_since_rollups c : sc_rollups (StateCollections.update_since c) = sc_rollups c.
Proof. unfold StateCollections.update_since. by case_match. Qed.

Lemma forget_inv {A B} (r : StateCollections T Version * ControlFlow A B) c' (w : ControlFlow unit unit) :
  Ret (Machine.forget r) = Ret (c', w) -> exists ret, r = (c', ret).
Proof. destruct r as [c1 ret]. intros [= -> _]. by exists ret. Qed.

Lemma run_rollups cmd seqno c c' w : command_fits c cmd -> sc_rollups c <> [] ->
  Machine.run_command D hashed cmd seqno c = Ret (c', w) -> sc_rollups c' <> [].
Proof.
  intros Hf Hne He. destruct cmd; simpl in He;
    try (apply obind_Ret in He as (r & Hr & He)); apply forget_inv in He as [ret Hc]; try subst r;
    try (by eapply add_rollup_some); try (by eapply remove_rollups_some).
  all: try (unfold Machine.upgrade_version, StateCollections.register_critical_reader, StateCollections.expire_leased_reader,
    StateCollections.expire_critical_reader, StateCollections.expire_writer in Hc; repeat case_match; by simplify_eq).
  all: unfold StateCollections.register_leased_reader, StateCollections.register_schema, StateCollections.spine_exert,
    StateCollections.compare_and_append, StateCollections.downgrade_since, StateCollections.compare_and_downgrade_since,
    StateCollections.compare_and_evolve_schema, StateCollections.become_tombstone_and_shrink, StateCollections.apply_merge_res in Hr;
    inv_run; simplify_eq; simpl; rewrite ?update_since_rollups; done.
Qed.
(** *** Every command keeps the invariant *)

Lemma upgrade_ok seqno c v c' ret : coll_ok seqno c -> Machine.upgrade_version c v = (c', ret) -> good_step seqno c c'.
Proof.
  intros Hc. unfold Machine.upgrade_version. repeat case_match; intros [= <- _]; try by apply good_refl.
  split; [by destruct Hc; split|split; [apply le_refl|apply le_refl|simpl; lia]].
Qed.

Lemma become_tombstone_step seqno c c' ret : coll_ok seqno c ->
  StateCollections.become_tombstone_and_shrink c = Ret (c', ret) -> good_step seqno c c'.
Proof.
  intros Hc He. destruct (become_tombstone_data _ _ _ _ Hc He) as [Hfin _].
  destruct (become_tombstone_ok _ _ Hc Hfin) as (c1 & ret1 & He1 & Hc1 & [Hu1 Hs1] & _). rewrite He in He1.
  injection He1 as -> ->. destruct Hfin as [Hu Hs]. split; [done|].
  split; [rewrite Hs, Hs1; apply le_refl|rewrite Hu, Hu1; apply le_refl|].
  assert (Hg : sc_last_gc_req c1 = sc_last_gc_req c); [|lia].
  clear -He. unfold StateCollections.become_tombstone_and_shrink in He. inv_run; by simplify_eq.
Qed.

Lemma run_good cmd seqno c c' w : coll_ok seqno c -> 0 <= seqno -> command_fits c cmd ->
  Machine.run_command D hashed cmd seqno c = Ret (c', w) -> good_step seqno c c'.
Proof.
  intros Hc Hn Hf He. pose proof (co_gc _ _ Hc) as Hg.
  destruct cmd; simpl in He, Hf; try (apply obind_Ret in He as (r & Hr & He)); apply forget_inv in He as [ret Hret]; try subst r;
    eauto using add_rollup_ok, remove_rollups_ok, upgrade_ok, register_leased_ok, register_critical_ok,
      compare_downgrade_ok, expire_leased_ok, expire_critical_ok, expire_writer_ok, become_tombstone_step,
      apply_merge_res_ok.
  - by eapply (register_schema_ok (K := K) (V := V)).
  - destruct Hf as [Hf1 Hf2]. apply (spine_exert_ok _ _ _ _ _ Hc Hf1 Hf2 Hr).
  - apply (compare_and_append_ok hashed _ _ _ _ _ _ _ _ _ _ _ _ _ Hc Hf Hr).
  - eapply downgrade_since_ok; [exact Hc| |exact Hr]. lia.
  - by eapply (evolve_schema_ok (K := K) (V := V)).
Qed.

(** *** Every command refines its abstract counterpart *)

Lemma forget_continue {A B} (r : StateCollections T Version * ControlFlow A B) c' :
  Ret (Machine.forget r) = Ret (c', Continue tt) -> exists a, r = (c', Continue a).
Proof. destruct r as [c1 []]; unfold Machine.forget; simpl; try done. intros [= ->]. by eexists. Qed.

Lemma merge_res_evolves seqno c res c' ret : coll_ok seqno c ->
  (forall b, b ∈ Spine.spine_batches (tr_spine (sc_trace c)) -> result_fits b res) ->
  StateCollections.apply_merge_res D c res = Ret (c', ret) ->
  shard_of c' = shard_of c \/ compacts (hb_desc (fres_output res)) (shard_of c) (shard_of c').
Proof.
  intros Hc Hf. unfold StateCollections.apply_merge_res.
  destruct (StateCollections.is_tombstone c); [intros [= <- _]; by left|].
  intros ([t r] & Ht & [= <- _])%obind_Ret. unfold Trace.apply_merge_res_checked in Ht.
  eapply (apply_merge_post _ (fun h => hb_desc h = hb_desc (fres_output res)) (fres_output res)) in Ht
    as (h & <- & Hp); [|apply (co_spine _ _ Hc)|done|].
  - by eapply merge_compacts; [apply (co_spine _ _ Hc)|].
  - intros b r' Hb Hw Hr'. apply (checked_ok D); auto.
Qed.

Lemma run_evolves cmd seqno c c' : coll_ok seqno c -> 0 <= seqno -> command_fits c cmd ->
  Machine.run_command D hashed cmd seqno c = Ret (c', Continue tt) -> evolves cmd (shard_of c) (shard_of c').
Proof.
  intros Hc Hn Hf He. pose proof (run_good _ _ _ _ _ Hc Hn Hf He) as [_ Hadv]. unfold shard_of, shard_of_trace.
  destruct cmd; simpl in He, Hf; try (apply obind_Ret in He as (r & Hr & He)); apply forget_continue in He as [a Hret]; try subst r;
    simpl evolves.
  1-6, 11-13: try (unfold StateCollections.add_rollup, StateCollections.remove_rollups, Machine.upgrade_version,
    StateCollections.register_critical_reader, StateCollections.expire_leased_reader, StateCollections.expire_critical_reader,
    StateCollections.expire_writer in Hret; repeat case_match; by simplify_eq);
    unfold StateCollections.register_leased_reader, StateCollections.register_schema in Hr; inv_run; by simplify_eq.
  - destruct Hf as [Hf1 Hf2]. destruct (trace_exert_ok (sc_trace c) fuel (co_spine _ _ Hc) Hf1 Hf2)
      as (t' & reqs & worked & Ht & _ & Hs & Hu & Hd). unfold StateCollections.spine_exert in Hr. rewrite Ht in Hr.
    cbn [obind] in Hr. destruct worked; inv_run; simplify_eq. simpl. by rewrite Hs, Hu, Hd.
  - destruct (compare_and_append_ok hashed _ _ _ _ _ _ _ _ _ _ _ _ _ Hc Hf Hr) as [_ Hcm].
    destruct (Hcm a eq_refl) as [Hu Hu' Hs Hd _]. split; [done|]. by rewrite Hs, Hu', Hd.
  - destruct (downgrade_data _ _ _ _ _ _ _ _ _ Hr Hc) as [Hu Hd]. split_and!; [apply Hadv|done|done].
  - destruct (compare_downgrade_data _ _ _ _ _ _ _ Hr) as [Hu Hd]. split_and!; [apply Hadv|done|done].
  - unfold StateCollections.compare_and_evolve_schema in Hr. inv_run; by simplify_eq.
  - destruct (become_tombstone_data _ _ _ _ Hc Hr) as [[Hu Hs] Hd].
    destruct (become_tombstone_ok _ _ Hc (conj Hu Hs)) as (c1 & ret1 & He1 & _ & [Hu1 Hs1] & _). rewrite Hr in He1.
    injection He1 as -> _. by split_and!.
  - by eapply merge_res_evolves.
Qed.

(** *** The applier *)

Lemma plan_rollup_ok x cfg now : state_ok x -> sc_rollups (st_collections x) <> [] ->
  (cfg_use_active_rollup cfg = false -> cfg_rollup_threshold cfg <> 0) ->
  exists x' w, Applier.plan_rollup x cfg now = Ret (x', w) /\ state_ok x' /\
    advances (st_collections x) (st_collections x') /\ shard_of (st_collections x') = shard_of (st_collections x) /\
    sc_rollups (st_collections x') = sc_rollups (st_collections x) /\ st_seqno x' = st_seqno x /\ st_walltime_ms x' = st_walltime_ms x.
Proof.
  intros Hx Hne Hth. unfold Applier.plan_rollup.
  assert (Hw : exists w, State.need_rollup x (cfg_rollup_threshold cfg) (cfg_use_active_rollup cfg)
    (cfg_rollup_fallback_threshold_ms cfg) now = Ret w).
  { unfold State.need_rollup, State.latest_rollup, BTree.last_key_value, expect.
    destruct (last (sc_rollups _)) as [[n r]|] eqn:El; [|by apply last_None in El]. cbn [obind].
    destruct (_ && _); [by eexists|]. destruct (cfg_use_active_rollup cfg); [by eexists|].
    assert ((cfg_rollup_threshold cfg =? 0) = false) as -> by by apply Z.eqb_neq, Hth.
    destruct (0 <? _); simpl; by eexists. }
  destruct Hw as [w ->]. cbn [obind]. eexists _, _. split; [done|].
  assert (Hr : forall r, advances (st_collections x) (StateCollections.with_active_rollup (st_collections x) r))
    by (intros r; split; simpl; [apply le_refl|apply le_refl|lia]).
  destruct Hx as [Hn Hc]. destruct w as [w|]; [destruct (cfg_use_active_rollup cfg)|]; unfold state_ok;
    split_and!; try done; try apply advances_refl; try apply Hr. by destruct Hc; split.
Qed.

Lemma plan_gc_ok x w cfg now x' req : state_ok x -> st_seqno x <= u64_max -> 0 <= State.max_versions (cfg_gc cfg) ->
  Applier.plan_gc x w cfg now = (x', req) -> state_ok x' /\
    advances (st_collections x) (st_collections x') /\ shard_of (st_collections x') = shard_of (st_collections x) /\
    sc_rollups (st_collections x') = sc_rollups (st_collections x) /\ st_seqno x' = st_seqno x /\ st_walltime_ms x' = st_walltime_ms x.
Proof.
  intros Hx Hu Hm. unfold Applier.plan_gc. destruct (State.maybe_gc x w now (cfg_gc cfg)) as [x1 r] eqn:Eg.
  destruct (maybe_gc_ok _ _ _ _ _ _ Hx Hu Hm Eg) as ([Hn Hc] & Hadv & Hs).
  assert (Hsame : shard_of (st_collections x1) = shard_of (st_collections x) /\
    sc_rollups (st_collections x1) = sc_rollups (st_collections x) /\ st_walltime_ms x1 = st_walltime_ms x).
  { unfold State.maybe_gc in Eg. destruct (State.should_gc _ _ _ _); by simplify_eq. }
  destruct Hsame as (Hsh & Hro & Hwt). intros [= <- _].
  destruct r as [r|]; [destruct (State.use_active_gc _)|]; unfold state_ok; split_and!; try done;
    [by destruct Hc; split|by destruct Hadv; split].
Qed.
(** What the configuration has to be. *)
Record config_ok (cfg : Config) : Prop := {
  ck_versions : 0 <= State.max_versions (cfg_gc cfg);
  ck_threshold : cfg_use_active_rollup cfg = false -> cfg_rollup_threshold cfg <> 0;
}.

(** Commands that return a new state even on a tombstone, or that the
    applier lets through. *)
Definition allowed_on_tombstone (name : CmdName) : bool :=
  match name with cmd_add_rollup | cmd_become_tombstone => true | _ => false end.

(** What a computed state promises. *)
Record next_ok x cmd x' : Prop := {
  nx_ok : state_ok x';
  nx_rollups : sc_rollups (st_collections x') <> [];
  nx_seqno : st_seqno x' = st_seqno x + 1;
  nx_walltime : st_walltime_ms x < st_walltime_ms x';
  nx_advances : advances (st_collections x) (st_collections x');
  nx_evolves : evolves cmd (shard_of (st_collections x)) (shard_of (st_collections x'));
}.

Lemma set_roundtrip_ok seqno c : coll_ok seqno c ->
  good_step seqno c (Applier.set_roundtrip c) /\ shard_of (Applier.set_roundtrip c) = shard_of c.
Proof. intros []. split; [split; split; try done; simpl; try lia; apply le_refl|done]. Qed.

Lemma expire_at_shard x now x' m : State.expire_at x now = (x', m) ->
  shard_of (st_collections x') = shard_of (st_collections x) /\
  sc_rollups (st_collections x') = sc_rollups (st_collections x) /\ st_walltime_ms x' = st_walltime_ms x.
Proof. unfold State.expire_at. by intros [= <- _]. Qed.

(** What the applier makes of a command that asks for a new state: it adds
    no panic of its own, as long as the shard is not a tombstone or the
    command is made for it. *)
Record computed {R} x c' (r : R) (clock : Clock) (ns : NextState T Version R) : Prop := {
  cp_ret : ns_work_ret ns = r;
  cp_ok : state_ok (ns_state ns);
  cp_rollups : sc_rollups (st_collections (ns_state ns)) = sc_rollups c';
  cp_seqno : st_seqno (ns_state ns) = st_seqno x + 1;
  cp_walltime : st_walltime_ms x < st_walltime_ms (ns_state ns);
  cp_advances : advances c' (st_collections (ns_state ns));
  cp_shard : shard_of (st_collections (ns_state ns)) = shard_of c';
  cp_writers : sc_writers (st_collections (ns_state ns)) = BTree.retain (State.writer_holds (now_expire clock)) (sc_writers c');
}.

Lemma plan_rollup_writers x cfg now x' o : Applier.plan_rollup x cfg now = Ret (x', o) ->
  sc_writers (st_collections x') = sc_writers (st_collections x).
Proof. unfold Applier.plan_rollup. intros (r & _ & [= <- _])%obind_Ret. by repeat case_match. Qed.

Lemma plan_gc_writers x b cfg now x' o : Applier.plan_gc x b cfg now = (x', o) ->
  sc_writers (st_collections x') = sc_writers (st_collections x).
Proof. unfold Applier.plan_gc, State.maybe_gc. repeat case_match; intros; by simplify_eq. Qed.

Lemma compute_ok {R E} x (work_fn : SeqNo -> StateCollections T Version -> outcome (StateCollections T Version * ControlFlow E R))
    name cfg clock c' r : state_ok x -> st_seqno x < u64_max -> config_ok cfg ->
  StateCollections.is_tombstone (st_collections x) = false \/ allowed_on_tombstone name = true ->
  work_fn (st_seqno x + 1) (st_collections x) = Ret (c', Continue r) -> coll_ok (st_seqno x + 1) c' -> sc_rollups c' <> [] ->
  exists ns, Applier.compute_next_state_locked x work_fn name cfg clock = Ret (Ok ns) /\ computed x c' r clock ns.
Proof.
  intros [Hn _] Hu [Hv Hth] Htomb Hrun Hc2 Hne2.
  unfold Applier.compute_next_state_locked, State.clone_apply, SeqNo_next.
  rewrite Hrun. cbn [obind]. set (x1 := {| st_shard_id := _ |}).
  destruct (State.expire_at x1 (now_expire clock)) as [x2 m] eqn:Ee.
  assert (Hx1 : state_ok x1) by (split; [simpl; lia|done]).
  destruct (expire_at_ok x1 _ _ _ Hx1 Ee) as ([Hn3 Hc3] & Hadv3 & Hs3).
  destruct (expire_at_shard _ _ _ _ Ee) as (Hsh3 & Hro3 & Hwt3).
  assert (Hwr3 : sc_writers (st_collections x2) = BTree.retain (State.writer_holds (now_expire clock)) (sc_writers c'))
    by (unfold State.expire_at in Ee; by injection Ee as <- _).
  destruct (set_roundtrip_ok _ _ Hc3) as [[Hc4 Hadv4] Hsh4].
  assert (negb (StateCollections.is_tombstone (st_collections x) && negb (bool_decide (name = cmd_add_rollup)
    || bool_decide (name = cmd_become_tombstone))) = true) as ->
    by (destruct Htomb as [->|Ha]; [done|]; destruct name; try done; by rewrite andb_false_r).
  cbn [obind assert_]. set (x3 := State.with_collections x2 _).
  destruct (plan_rollup_ok x3 cfg (now_maintenance clock)) as (x4 & w & Ew & Hx4 & Hadv5 & Hsh5 & Hro5 & Hs5 & Hwt5); [done|by simpl; rewrite Hro3|done|].
  rewrite Ew. cbn [obind]. destruct (Applier.plan_gc x4 _ cfg _) as [x5 req] eqn:Eg.
  assert (Hs4 : st_seqno x4 = st_seqno x + 1) by (rewrite Hs5; simpl; by rewrite Hs3).
  destruct (plan_gc_ok _ _ _ _ _ _ Hx4 ltac:(lia) Hv Eg) as (Hx5 & Hadv6 & Hsh6 & Hro6 & Hs6 & Hwt6).
  assert (Hseq : st_seqno x5 = st_seqno x + 1) by congruence.
  rewrite Hseq, Z.eqb_refl. cbn [obind]. eexists. split; [done|]. split; simpl ns_state; try done.
  - by rewrite Hro6, Hro5.
  - rewrite Hwt6, Hwt5. simpl. rewrite Hwt3. simpl. destruct (Z.leb_spec (now_apply clock) (st_walltime_ms x)); lia.
  - eapply advances_trans; [exact Hadv3|]. eapply advances_trans; [exact Hadv4|]. by eapply advances_trans.
  - rewrite Hsh6, Hsh5. unfold x3. simpl st_collections. by rewrite Hsh4, Hsh3.
  - by rewrite (plan_gc_writers _ _ _ _ _ _ Eg), (plan_rollup_writers _ _ _ _ _ Ew).
Qed.

(** Conversely, a new state comes from a command that asked for it, and a
    command that did not is passed on. *)
Lemma compute_inv {R E} x (work_fn : SeqNo -> StateCollections T Version -> outcome (StateCollections T Version * ControlFlow E R))
    name cfg clock res : Applier.compute_next_state_locked x work_fn name cfg clock = Ret res ->
  match res with
  | Ok _ => (exists c' r, work_fn (st_seqno x + 1) (st_collections x) = Ret (c', Continue r)) /\
      (StateCollections.is_tombstone (st_collections x) = false \/ allowed_on_tombstone name = true)
  | Err (seqno, e) => seqno = st_seqno x /\ exists c', work_fn (st_seqno x + 1) (st_collections x) = Ret (c', Break e)
  end.
Proof.
  unfold Applier.compute_next_state_locked, State.clone_apply, SeqNo_next.
  intros (r & ([c' w] & Hw & [= <-])%obind_Ret & Hr)%obind_Ret. destruct w as [e|a].
  { injection Hr as <-. split; [done|]. by exists c'. }
  destruct (State.expire_at _ _) as [x1 m]. apply obind_Ret in Hr as ([] & Ha & ([x2 o] & _ & Hr)%obind_Ret).
  destruct (Applier.plan_gc _ _ _ _) as [x3 g]. apply obind_Ret in Hr as (_ & _ & [= <-]).
  split; [by exists c', a|]. unfold assert_ in Ha. destruct (StateCollections.is_tombstone _); [right|by left].
  by destruct name.
Qed.

Lemma next_state_ok x cmd cfg clock c' : state_ok x -> sc_rollups (st_collections x) <> [] ->
  st_seqno x < u64_max -> config_ok cfg -> command_fits (st_collections x) cmd ->
  StateCollections.is_tombstone (st_collections x) = false \/ allowed_on_tombstone (Machine.cmd_name cmd) = true ->
  Machine.run_command D hashed cmd (st_seqno x + 1) (st_collections x) = Ret (c', Continue tt) ->
  exists ns, Machine.next_state D hashed x cmd cfg clock = Ret (Ok ns) /\ next_ok x cmd (ns_state ns).
Proof.
  intros Hx Hne Hu Hk Hf Htomb Hrun. pose proof Hx as [Hn Hc].
  pose proof (coll_ok_later _ (st_seqno x + 1) _ Hc ltac:(lia)) as Hc1.
  pose proof (run_good _ _ _ _ _ Hc1 ltac:(lia) Hf Hrun) as [Hc2 Hadv2].
  pose proof (run_evolves _ _ _ _ Hc1 ltac:(lia) Hf Hrun) as Hev.
  pose proof (run_rollups _ _ _ _ _ Hf Hne Hrun) as Hne2.
  destruct (compute_ok x (Machine.run_command D hashed cmd) (Machine.cmd_name cmd) cfg clock c' tt) as (ns & Hns & Hcp); try done.
  exists ns. split; [done|]. destruct Hcp. split; try done; [congruence|by eapply advances_trans|by rewrite cp_shard0].
Qed.

(** *** Tombstones are final *)

(** The commands that check for a tombstone before anything else. *)
Definition minds_tombstones cmd : bool :=
  match cmd with
  | AddRollup _ _ | BecomeTombstone | SpineExert _ | CompareAndEvolveSchema _ _ _ => false
  | _ => true
  end.

Lemma tombstone_frontiers c : StateCollections.is_tombstone c = true ->
  Trace.upper (sc_trace c) = antichain_new /\ Trace.since (sc_trace c) = antichain_new.
Proof.
  unfold StateCollections.is_tombstone, StateCollections.frontier_is_empty. rewrite !andb_true_iff.
  intros [[[[Hu Hs] _] _] _]. by apply bool_decide_eq_true in Hu, Hs.
Qed.

Lemma tombstone_breaks cmd seqno c c' w : StateCollections.is_tombstone c = true -> minds_tombstones cmd = true ->
  Machine.run_command D hashed cmd seqno c = Ret (c', w) -> c' = c /\ w = Break tt.
Proof.
  intros Ht Hm He. destruct cmd; try done; simpl in He;
    unfold StateCollections.remove_rollups, Machine.upgrade_version, StateCollections.register_leased_reader,
      StateCollections.register_critical_reader, StateCollections.register_schema, StateCollections.compare_and_append,
      StateCollections.downgrade_since, StateCollections.compare_and_downgrade_since, StateCollections.expire_leased_reader,
      StateCollections.expire_critical_reader, StateCollections.expire_writer, StateCollections.apply_merge_res in He;
    rewrite ?Ht in He; inv_run; by simplify_eq.
Qed.

(** *** All states of a shard *)

Inductive reachable : State T Version -> Prop :=
| reach_init v shard host now rollup_id x :
    Machine.write_initial_rollup v shard host now rollup_id = Ret x -> reachable x
| reach_step x cmd cfg clock ns :
    reachable x -> st_seqno x < u64_max -> config_ok cfg -> command_fits (st_collections x) cmd ->
    Machine.next_state D hashed x cmd cfg clock = Ret (Ok ns) -> reachable (ns_state ns).

Lemma initial_state v shard host now rollup_id : exists x,
  Machine.write_initial_rollup (T := T) (Version := Version) v shard host now rollup_id = Ret x /\
  state_ok x /\ sc_rollups (st_collections x) <> [] /\
  shard_of (st_collections x) = {| sh_since := min_frontier; sh_upper := min_frontier; sh_data := [] |}.
Proof.
  eexists. split; [done|]. split_and!; [|done|done]. split; [done|].
  pose proof (new_ok (T := T)) as Hs. split; simpl; try done; try constructor; try constructor.
Qed.

Lemma step_next x cmd cfg clock ns : state_ok x -> sc_rollups (st_collections x) <> [] -> st_seqno x < u64_max ->
  config_ok cfg -> command_fits (st_collections x) cmd ->
  Machine.next_state D hashed x cmd cfg clock = Ret (Ok ns) -> next_ok x cmd (ns_state ns).
Proof.
  intros Hx Hr Hu Hk Hf Hn. destruct (compute_inv _ _ _ _ _ _ Hn) as [(c' & [] & Hrun) Ht].
  destruct (next_state_ok x cmd cfg clock c') as (ns' & Hn' & Hok); try done. rewrite Hn in Hn'. by injection Hn' as ->.
Qed.

Lemma reachable_ok x : reachable x -> state_ok x /\ sc_rollups (st_collections x) <> [].
Proof.
  induction 1 as [v shard host now rollup_id x Hi|x cmd cfg clock ns _ [Hx Hr] Hu Hk Hf Hn].
  - destruct (initial_state v shard host now rollup_id) as (x' & Hi' & ? & ? & _). rewrite Hi in Hi'. by injection Hi' as ->.
  - by destruct (step_next _ _ _ _ _ Hx Hr Hu Hk Hf Hn).
Qed.
End commands.
