(* ===== verification/DiffChain.v ===== *)
(** * Consecutive states of a shard

    The difference that a command leaves in the log says all there is to say
    about its new state: between a state and the next one nothing changes
    that [StateDiff.from_diff] cannot see.  Hence applying the differences of
    a log, one by one, takes any of its states to the last. *)

From S2P Require Import Prelude Compare Timely BTree Schema Paths Consensus Batch Order Blob Diff BatchFacts Spine SpineFacts SpineCorrect Trace FlatTrace TraceFacts FlatFacts SpineKeep State StateDiff StateDiffFacts StateFacts Tombstone Machine MachineFacts.

Local Open Scope Z_scope.

(** ** Traces *)

Section traces.
Context {T : Type} `{TL : TimelyLaws T} `{TO : !TimelyOrd T} `{TOL : !TimelyOrdLaws T}.
Implicit Types (t : Trace T) (h : HollowBatch T) (hs : list (HollowBatch T)) (b : SpineBatch T) (p : IdHollowBatch T).
Implicit Types (R : RunPart T -> Prop).

(** Every key of a run stands for one run. *)
Definition named hs : Prop := forall h h', h ∈ hs -> h' ∈ hs -> refs_agree (hb_parts h) (hb_parts h').

(** The parts of batches. *)
Definition refs_of hs (q : RunPart T) : Prop := exists h, h ∈ hs /\ q ∈ hb_parts h.

Record trace_sound t : Prop := {
  ts_spine : spine_ok (tr_spine t);
  ts_tidy : Forall tidy (Trace.batches t);
  ts_named : named (Trace.batches t);
  ts_records : records 0 (sp_merging (tr_spine t)) <= 2 ^ 60;
}.

Lemma refs_of_named hs h h' : named hs -> refs_in (refs_of hs) h -> refs_in (refs_of hs) h' ->
  refs_agree (hb_parts h) (hb_parts h').
Proof.
  intros Hn Hh Hh' r r' Hr Hr' He. destruct (Hh _ Hr) as (g & Hg & Hgr), (Hh' _ Hr') as (g' & Hg' & Hgr').
  exact (Hn g g' Hg Hg' r r' Hgr Hgr' He).
Qed.

Lemma same_ids_bounds (ps qs : list (IdHollowBatch T)) : ihb_id <$> ps = ihb_id <$> qs ->
  (forall p q, p ∈ ps -> q ∈ qs -> ihb_id p = ihb_id q -> same_bounds (hb_desc (ihb_batch p)) (hb_desc (ihb_batch q))) ->
  Forall2 same_bounds ((fun p => hb_desc (ihb_batch p)) <$> ps) ((fun p => hb_desc (ihb_batch p)) <$> qs).
Proof.
  revert qs. induction ps as [|p ps IH]; intros [|q qs] He Hall; try done.
  injection He as Hpq He. constructor.
  - refine (Hall p q _ _ Hpq); apply elem_of_cons; by left.
  - apply IH; [done|]. intros p' q' Hp Hq. apply Hall; apply elem_of_cons; by right.
Qed.

Lemma tracked_part F R t b p : trace_keeps F R t -> b ∈ Spine.spine_batches (tr_spine t) -> p ∈ sb_parts b -> part_tracked F R p.
Proof.
  intros Hk Hb Hp. apply keeps_batches in Hk. rewrite Forall_forall in Hk. destruct (Hk b Hb) as [_ Hps].
  rewrite Forall_forall in Hps. by apply Hps.
Qed.

Lemma linked_parts R t t' : linked R t t' -> parts_agree t t'.
Proof.
  intros (F & Hk & Hk') b b' Hb Hb' _ Hids. apply same_ids_bounds; [done|]. intros p q Hp Hq Hpq.
  destruct (tracked_part _ _ _ _ _ Hk Hb Hp) as [[Hl Hu] _ _], (tracked_part _ _ _ _ _ Hk' Hb' Hq) as [[Hl' Hu'] _ _].
  split; congruence.
Qed.

Lemma keeps_hollow F R t h : trace_keeps F R t -> h ∈ Trace.batches t -> tidy h /\ refs_in R h.
Proof.
  intros Hk (b & p & Hb & Hp & <-)%elem_of_batches. by destruct (tracked_part _ _ _ _ _ Hk Hb Hp).
Qed.

(** A trace of a single part. *)
Definition single_part t : Prop := exists b p, Spine.spine_batches (tr_spine t) = [b] /\ sb_parts b = [p] /\
  hb_desc (ihb_batch p) = sb_desc b /\ hb_parts (ihb_batch p) = [] /\ tidy (ihb_batch p) /\ hb_run_splits (ihb_batch p) = [].

Lemma single_agrees t t' : spine_ok (tr_spine t) -> single_part t' -> parts_agree t t'.
Proof.
  intros Hs (b' & q & Hb' & Hq & Hd & _ & _) b b1 Hb Hb1 Hdesc Hids. rewrite Hb', list_elem_of_singleton in Hb1. subst b1.
  rewrite Hq in Hids |- *. pose proof (spine_batches_wf _ Hs) as Hw. rewrite Forall_forall in Hw.
  pose proof (bw_chain _ _ (Hw b Hb)) as Hc. destruct (sb_parts b) as [|p [|p' ps]]; try done.
  destruct Hc as (_ & Hl & _ & Hu). constructor; [|constructor]. unfold same_bounds, part_seg in *. simpl in *.
  unfold SpineBatch.lower, SpineBatch.upper in *. rewrite Hd, <- Hdesc. by split.
Qed.

(** *** What one command may do to a trace, given the batches it brings *)

Definition steady hs t t' : Prop :=
  linked (refs_of (hs ++ Trace.batches t)) t t' /\ records 0 (sp_merging (tr_spine t')) <= 2 ^ 60.

Definition trace_step hs t t' : Prop :=
  steady hs t t' \/ single_part t' /\ records 0 (sp_merging (tr_spine t')) <= 2 ^ 60.

Lemma step_sound hs t t' : trace_sound t -> named (hs ++ Trace.batches t) -> spine_ok (tr_spine t') -> trace_step hs t t' ->
  trace_sound t' /\ parts_agree t t' /\ runs_agree t t'.
Proof.
  intros Ht Hn Hs' [[(F & Hk & Hk') Hr]|[Hone Hr]]; split_and!.
  - split; try done.
    + apply Forall_forall. intros h Hh. by destruct (keeps_hollow _ _ _ _ Hk' Hh).
    + intros h h' Hh Hh'. apply (refs_of_named _ _ _ Hn); [apply (keeps_hollow _ _ _ _ Hk' Hh)|apply (keeps_hollow _ _ _ _ Hk' Hh')].
  - apply (linked_parts (refs_of (hs ++ Trace.batches t))). by exists F.
  - intros h h' Hh Hh'. apply (refs_of_named _ _ _ Hn); [apply (keeps_hollow _ _ _ _ Hk Hh)|apply (keeps_hollow _ _ _ _ Hk' Hh')].
  - assert (Hall : forall h, h ∈ Trace.batches t' -> tidy h /\ hb_parts h = []).
    { intros h (b & p & Hb & Hp & <-)%elem_of_batches. destruct Hone as (b' & q & E & Eq & _ & Hp' & Ht' & _).
      rewrite E in Hb. apply list_elem_of_singleton in Hb as ->. rewrite Eq in Hp. by apply list_elem_of_singleton in Hp as ->. }
    split; try done; [apply Forall_forall; intros h Hh; by apply Hall|].
    intros h h' Hh Hh' r r' Hr1. destruct (Hall h Hh) as [_ E]. rewrite E in Hr1. by apply not_elem_of_nil in Hr1.
  - apply single_agrees; [apply Ht|done].
  - intros h h' Hh (b & p & Hb & Hp & <-)%elem_of_batches r r' _ Hr'. destruct Hone as (b' & q & E & Eq & _ & Hp' & _).
    rewrite E in Hb. apply list_elem_of_singleton in Hb as ->. rewrite Eq in Hp. apply list_elem_of_singleton in Hp as ->.
    rewrite Hp' in Hr'. by apply not_elem_of_nil in Hr'.
Qed.

Lemma brought_in hs t h : h ∈ hs -> refs_in (refs_of (hs ++ Trace.batches t)) h.
Proof. intros Hh r Hr. exists h. split; [|done]. apply elem_of_app. by left. Qed.

Lemma step_start hs t : trace_sound t ->
  exists F, F (sp_next_id (tr_spine t)) = Trace.upper t /\ trace_keeps F (refs_of (hs ++ Trace.batches t)) t.
Proof.
  intros [Hs Ht _ _]. apply frontiers_exist; [done|done|]. apply Forall_forall. intros h Hh r Hr. exists h. split; [|done].
  apply elem_of_app. by right.
Qed.

Lemma step_same hs t t' : trace_sound t -> sp_merging (tr_spine t') = sp_merging (tr_spine t) -> steady hs t t'.
Proof.
  intros Ht E. split; [|rewrite E; apply Ht]. destruct (step_start hs t Ht) as (F & _ & Hk). exists F.
  split; [done|]. unfold trace_keeps in *. by rewrite E.
Qed.

Lemma push_step t h t' reqs : trace_sound t -> tidy h -> batch_fits t h ->
  (if negb (bool_decide (d_upper (hb_desc h) = d_lower (hb_desc h))) then Trace.push_batch t h else Ret (t, [])) = Ret (t', reqs) ->
  spine_ok (tr_spine t') /\ steady [h] t t'.
Proof.
  intros Ht Htidy Hf He. case_bool_decide as E; simpl in He.
  { injection He as <- _. split; [apply Ht|by apply step_same]. }
  pose proof (push_batch_ok t h (ts_spine _ Ht) Hf ltac:(congruence)) as (t1 & reqs1 & He1 & Hp). rewrite He in He1. injection He1 as -> _.
  destruct Hp as (Hs & _). split; [done|]. split.
  - destruct (step_start [h] t Ht) as (F & Hn & Hk). eapply push_linked; [apply Ht|exact Hk|exact Hn|done| |exact He].
    apply brought_in. by apply list_elem_of_singleton.
  - destruct Hf as [Hok Hlow Hsin Hlen Hroom].
    destruct (insert_ok (tr_spine t) h (LogEnabled []) (ts_spine _ Ht) ltac:(congruence) Hlow Hsin Hok Hlen Hroom)
      as (s' & log & Hi & _ & _ & _ & _ & _ & Hr). unfold Trace.push_batch in He. rewrite Hi in He. injection He as <- _. simpl. lia.
Qed.

Lemma claims_step {A} hs (f : A -> SpineId) c l t t1 t2 : steady hs t t1 -> spine_ok (tr_spine t1) ->
  foldM (fun t a => Trace.claim_compaction t (f a) c) l t1 = Ret t2 -> steady hs t t2.
Proof.
  intros [(F & Hk & Hk1) Hr] Hs He. split.
  - exists F. split; [done|]. by eapply claims_keep.
  - destruct (claims_ok f c l t1 Hs) as (t3 & He3 & _ & _ & _ & _ & Hr3). rewrite He in He3. injection He3 as ->. lia.
Qed.

Lemma append_step {Version} `{!SemVer Version} `{UuidCodec} hashed t h tok hb ld pct (ver : option Version) t' reqs :
  trace_sound t -> tidy h -> batch_fits t h ->
  StateCollections.append_batch hashed t h tok hb ld pct ver = Ret (t', reqs) -> steady [h] t t'.
Proof.
  intros Ht Htidy Hf. unfold StateCollections.append_batch.
  intros ([t1 reqs1] & Hp & (reqs2 & _ & (t2 & Ht2 & [= <- _])%obind_Ret)%obind_Ret)%obind_Ret.
  destruct (push_step _ _ _ _ Ht Htidy Hf Hp) as [Hs1 Hst]. by eapply claims_step.
Qed.

Lemma exert_step t fuel t' reqs w : trace_sound t -> 0 <= fuel <= 2 ^ 60 ->
  records 0 (sp_merging (tr_spine t)) + 2 * 2 ^ Z.of_nat (Spine.level_of fuel) <= 2 ^ 60 ->
  Trace.exert t fuel = Ret (t', reqs, w) -> steady [] t t'.
Proof.
  intros Ht Hf Hb He. split.
  - destruct (step_start [] t Ht) as (F & Hn & Hk). by eapply exert_linked; [apply Ht|exact Hk|..].
  - destruct (exert_ok (tr_spine t) fuel (LogEnabled []) (ts_spine _ Ht) Hf Hb) as (s' & w' & log & Hi & _ & _ & _ & _ & _ & Hr).
    unfold Trace.exert in He. rewrite Hi in He. injection He as <- _ _. simpl. lia.
Qed.

(** Replacements by batches among the ones the command brings. *)
Lemma merge_step (f : SpineBatch T -> outcome (SpineBatch T * ApplyMergeResult)) hs t t' r :
  trace_sound t -> Trace.apply_merge f t = Ret (t', r) ->
  (forall F b b' r, b ∈ Spine.spine_batches (tr_spine t) -> batch_wf (Trace.since t) b ->
     tracked F (refs_of (hs ++ Trace.batches t)) b -> f b = Ret (b', r) ->
     exists h, tidy h /\ refs_in (refs_of (hs ++ Trace.batches t)) h /\ replace_post (Trace.since t) b h (b', r)) ->
  steady hs t t'.
Proof.
  intros Ht He Hf. destruct (step_start hs t Ht) as (F & _ & Hk).
  pose proof (spine_batches_wf _ (ts_spine _ Ht)) as Hw. rewrite Forall_forall in Hw.
  pose proof Hk as Hk0. apply keeps_batches in Hk0. rewrite Forall_forall in Hk0. split.
  - exists F. split; [done|]. eapply merge_keeps; [exact Hk| |exact He]. intros b b' r' Hb Htr Hfb.
    destruct (Hf F b b' r' Hb (Hw b Hb) Htr Hfb) as (h & Hti & Hre & Hp). unfold replace_post in Hp. simpl in Hp.
    destruct (ApplyMergeResult_applied r'); [|by subst]. by eapply tracked_replaced; [exact Htr|apply Hp|..].
  - eapply (apply_merge_post f (fun _ => True) StateCollections.tombstone_batch) in He as (h & _ & _ & _ & _ & _ & -> & _); [apply Ht|apply Ht|done|].
    intros b [b' r'] Hb Hwf Hfb. destruct (Hf F b b' r' Hb Hwf (Hk0 b Hb) Hfb) as (h & _ & _ & Hp). by exists h.
Qed.
End traces.

(** ** Maps *)

Create HintDb maps.
#[export] Hint Resolve BTree.sorted_insert BTree.sorted_remove BTree.sorted_filter sorted_update : maps.

(** ** Commands *)

Section commands.
Context {T : Type} `{TL : TimelyLaws T} `{TT : !TimelyTotal T} `{TO : !TimelyOrd T} `{TOL : !TimelyOrdLaws T}.
Context {Version K V : Type} `{!SemVer Version} `{UuidCodec} `{!SchemaCodec K} `{!SchemaCodec V} `{!DataTypeCodec}.
Context (D : Type) `{!PartCodec D} (hashed : IdempotencyToken -> Z).
Implicit Types (c : StateCollections T Version) (x : State T Version) (cmd : Command T Version K V) (t : Trace T) (h : HollowBatch T).

(** The batch a command brings to the trace. *)
Definition brings cmd : list (HollowBatch T) :=
  match cmd with
  | CompareAndAppend h _ _ _ _ _ _ _ _ => [h]
  | MergeRes res => [fres_output res]
  | _ => []
  end.

(** What the differences need of it: no metadata without parts, and keys of
    runs that are not in use for something else. *)
Definition command_named c cmd : Prop :=
  Forall tidy (brings cmd) /\ named (brings cmd ++ Trace.batches (sc_trace c)).

Lemma caa_trace c h w hb ld tok dbg max pct ver c' ret : writable (sc_trace c) h ->
  StateCollections.compare_and_append hashed c h w hb ld tok dbg max pct ver = Ret (c', ret) ->
  sc_trace c' = sc_trace c \/
  batch_fits (sc_trace c) h /\ exists reqs, StateCollections.append_batch hashed (sc_trace c) h tok hb ld pct ver = Ret (sc_trace c', reqs).
Proof.
  intros Hwr. unfold StateCollections.compare_and_append. destruct (StateCollections.is_tombstone c).
  { intros (_ & _ & [= <- <-])%obind_Ret. by left. }
  destruct (less_than _ _) eqn:Hlt; [intros [= <- <-]; by left|].
  destruct (bool_decide _ && _) eqn:Hem; [intros [= <- <-]; by left|].
  assert (Hti : hb_parts h = [] \/ d_lower (hb_desc h) <> d_upper (hb_desc h)).
  { apply andb_false_iff in Hem as [E%bool_decide_eq_false|E%negb_false_iff]; [right; congruence|].
    left. by apply bool_decide_eq_true in E. }
  clear Hem. case_bool_decide.
  { intros (_ & _ & (_ & _ & [= <- <-])%obind_Ret)%obind_Ret. by left. }
  case_bool_decide as Hup; simpl negb; cbn match; [|intros [= <- <-]; by left].
  destruct (_ && _) in |- *; [intros [= <- <-]; by left|].
  intros ([t' reqs] & Ha & (_ & _ & [= <- <-])%obind_Ret)%obind_Ret. right. split; [|by exists reqs].
  apply writable_fits; [done|done| |done].
  destruct (le_total (d_lower (hb_desc h)) (d_upper (hb_desc h))) as [|Hge]; [done|]. by apply not_less_than in Hlt.
Qed.

Lemma fresh_step t reqs : Trace.push_batch (Trace.downgrade_since (Trace.default (T := T)) antichain_new) StateCollections.tombstone_batch = Ret (t, reqs) ->
  single_part t /\ records 0 (sp_merging (tr_spine t)) <= 2 ^ 60.
Proof.
  unfold Trace.push_batch, Spine.insert, assert_.
  rewrite bool_decide_eq_false_2 by (simpl; rewrite lower_new, upper_new; apply min_not_empty).
  rewrite bool_decide_eq_true_2 by (simpl; by rewrite lower_new). intros [= <- _]. split; [|done].
  eexists _, _. split_and!; done.
Qed.

Lemma tombstone_trace seqno c c' ret : coll_ok seqno c -> trace_sound (sc_trace c) ->
  StateCollections.become_tombstone_and_shrink c = Ret (c', ret) -> trace_step [] (sc_trace c) (sc_trace c').
Proof.
  intros Hc Ht. unfold StateCollections.become_tombstone_and_shrink, assert_ at 1 2. intros (_ & _ & He)%obind_Ret.
  apply obind_Ret in He as ([] & Hs & He). case_bool_decide as Hsince; [|done]. clear Hs.
  destruct (find _ _) as [h|] eqn:Ef.
  - apply find_some in Ef as [Hin%list_elem_of_In Hne]. apply negb_true_iff, bool_decide_eq_false in Hne.
    apply obind_Ret in He as ([t r] & Hm & (_ & _ & [= <- _])%obind_Ret).
    assert (Hlt : less_than (d_lower (hb_desc h)) (d_upper (hb_desc h)) = true).
    { destruct (trace_hollow_ok _ _ (ts_spine _ Ht) Hin) as [Hle Hti _ _]. apply less_than_iff. split; [done|]. by destruct Hti. }
    left. eapply merge_step; [done|exact Hm|]. intros F b b' r' Hb Hw _ Hf.
    exists (HollowBatch.empty (hb_desc h)). split_and!; [done|by intros ? ?%not_elem_of_nil|].
    destruct (tombstone_ok (Trace.since (sc_trace c)) b (hb_desc h)) as (r1 & He1 & Hp); [done|done|rewrite Hsince; apply le_empty|].
    rewrite Hf in He1. by injection He1 as <-.
  - destruct (1 <? _)%nat; [|left; apply step_same; [done|]; destruct (negb _); by simplify_eq].
    apply obind_Ret in He as ([t reqs] & Hp & (_ & _ & [= <- _])%obind_Ret). right. by eapply fresh_step.
Qed.

Lemma merge_res_trace seqno c res c' ret : coll_ok seqno c -> trace_sound (sc_trace c) ->
  (forall b, b ∈ Spine.spine_batches (tr_spine (sc_trace c)) -> result_fits b res) -> tidy (fres_output res) ->
  StateCollections.apply_merge_res D c res = Ret (c', ret) -> steady [fres_output res] (sc_trace c) (sc_trace c').
Proof.
  intros Hc Ht Hf Htidy. unfold StateCollections.apply_merge_res.
  destruct (StateCollections.is_tombstone c); [intros [= <- _]; by apply step_same|].
  intros ([t r] & Hm & [= <- _])%obind_Ret. unfold Trace.apply_merge_res_checked in Hm.
  eapply merge_step; [done|exact Hm|]. intros F b b' r' Hb Hw Htr Hfb.
  destruct (checked_made D _ _ _ _ Hw (Hf b Hb) Hfb) as (h & _ & Hmade & Hp). exists h.
  assert (Hin : refs_in (refs_of ([fres_output res] ++ Trace.batches (sc_trace c))) (fres_output res))
    by (apply brought_in; by apply list_elem_of_singleton).
  by destruct (made_tracked _ _ _ _ _ Htr Htidy Hin Hmade).
Qed.

Lemma update_since_merging c : sp_merging (tr_spine (sc_trace (StateCollections.update_since c))) = sp_merging (tr_spine (sc_trace c)).
Proof. unfold StateCollections.update_since. by case_match. Qed.

Lemma run_trace cmd seqno c c' w : coll_ok seqno c -> trace_sound (sc_trace c) -> command_fits c cmd -> Forall tidy (brings cmd) ->
  Machine.run_command D hashed cmd seqno c = Ret (c', w) -> trace_step (brings cmd) (sc_trace c) (sc_trace c').
Proof.
  intros Hc Ht Hf Hb He.
  assert (Hsame : sp_merging (tr_spine (sc_trace c')) = sp_merging (tr_spine (sc_trace c)) -> trace_step (brings cmd) (sc_trace c) (sc_trace c'))
    by (intros E; left; by apply step_same).
  destruct cmd; simpl in He, Hf, Hb, Hsame |- *; try (apply obind_Ret in He as (r & Hr & He)); apply forget_inv in He as [ret Hret]; try subst r.
  1-6, 9-14: try (apply Hsame; unfold StateCollections.add_rollup, StateCollections.remove_rollups, Machine.upgrade_version,
    StateCollections.register_critical_reader, StateCollections.expire_leased_reader, StateCollections.expire_critical_reader,
    StateCollections.expire_writer in Hret; repeat case_match; by simplify_eq);
    apply Hsame; unfold StateCollections.register_leased_reader, StateCollections.register_schema,
      StateCollections.downgrade_since, StateCollections.compare_and_downgrade_since, StateCollections.compare_and_evolve_schema in Hr;
    inv_run; simplify_eq; simpl; by rewrite ?update_since_merging.
  - left. destruct Hf as [Hf1 Hf2]. unfold StateCollections.spine_exert in Hr. apply obind_Ret in Hr as ([[t reqs] worked] & Hex & Hr).
    assert (E : sc_trace c' = t); [destruct worked; inv_run; by simplify_eq|]. rewrite E. by eapply exert_step.
  - destruct (caa_trace _ _ _ _ _ _ _ _ _ _ _ _ Hf Hr) as [E|(Hfit & reqs & Ha)]; [apply Hsame; by rewrite E|].
    left. inversion_clear Hb. by eapply append_step.
  - by eapply tombstone_trace.
  - left. inversion_clear Hb. by eapply merge_res_trace.
Qed.

Lemma update_since_maps c : maps_sorted c -> maps_sorted (StateCollections.update_since c).
Proof. unfold StateCollections.update_since. case_match; [done|]. by intros []. Qed.

Lemma run_maps cmd seqno c c' w : maps_sorted c -> Machine.run_command D hashed cmd seqno c = Ret (c', w) -> maps_sorted c'.
Proof.
  intros Hm He. destruct cmd; simpl in He; try (apply obind_Ret in He as (r & Hr & He)); apply forget_inv in He as [ret Hret]; try subst r.
  2: { unfold StateCollections.remove_rollups in Hret. destruct (StateCollections.is_tombstone c); [by simplify_eq|].
       destruct rollups; [by simplify_eq; destruct Hm|]. destruct (StateCollections.remove_each _ _ _) as [m rm] eqn:Er. simplify_eq.
       destruct Hm. apply remove_each_sorted in Er; [|done]. by split. }
  all: try (unfold StateCollections.add_rollup, Machine.upgrade_version,
    StateCollections.register_critical_reader, StateCollections.expire_leased_reader, StateCollections.expire_critical_reader,
    StateCollections.expire_writer in Hret; repeat case_match; simplify_eq; destruct Hm; split; simpl; by auto with maps).
  all: unfold StateCollections.register_leased_reader, StateCollections.register_schema, StateCollections.spine_exert,
    StateCollections.compare_and_append, StateCollections.downgrade_since, StateCollections.compare_and_downgrade_since,
    StateCollections.compare_and_evolve_schema, StateCollections.become_tombstone_and_shrink, StateCollections.apply_merge_res in Hr;
    inv_run; simplify_eq; try apply update_since_maps; destruct Hm; split; simpl; by auto with maps.
Qed.

(** *** The applier *)

Lemma plan_rollup_frame x cfg now x' o : Applier.plan_rollup x cfg now = Ret (x', o) ->
  st_shard_id x' = st_shard_id x /\ sc_trace (st_collections x') = sc_trace (st_collections x) /\
  (maps_sorted (st_collections x) -> maps_sorted (st_collections x')).
Proof.
  unfold Applier.plan_rollup. intros (r & _ & [= <- _])%obind_Ret. repeat case_match; split_and!; try done. by intros [].
Qed.

Lemma plan_gc_frame x b cfg now x' o : Applier.plan_gc x b cfg now = (x', o) ->
  st_shard_id x' = st_shard_id x /\ sc_trace (st_collections x') = sc_trace (st_collections x) /\
  (maps_sorted (st_collections x) -> maps_sorted (st_collections x')).
Proof. unfold Applier.plan_gc, State.maybe_gc. repeat case_match; intros; simplify_eq; split_and!; try done; by intros []. Qed.

Lemma compute_frame {R E} x (work_fn : SeqNo -> StateCollections T Version -> outcome (StateCollections T Version * ControlFlow E R))
    name cfg clock ns : Applier.compute_next_state_locked x work_fn name cfg clock = Ret (Ok ns) ->
  exists c' r, work_fn (st_seqno x + 1) (st_collections x) = Ret (c', Continue r) /\
    st_shard_id (ns_state ns) = st_shard_id x /\
    sc_trace (st_collections (ns_state ns)) = {| tr_spine := tr_spine (sc_trace c'); tr_roundtrip_structure := true |} /\
    (maps_sorted c' -> maps_sorted (st_collections (ns_state ns))).
Proof.
  unfold Applier.compute_next_state_locked, State.clone_apply, SeqNo_next.
  intros (r & ([c' w] & Hw & [= <-])%obind_Ret & Hr)%obind_Ret. destruct w as [e|a]; [done|].
  destruct (State.expire_at _ _) as [x1 m] eqn:Ee. unfold State.expire_at in Ee. injection Ee as <- _.
  apply obind_Ret in Hr as (_ & _ & ([x2 o] & Hp & Hr)%obind_Ret). destruct (Applier.plan_gc _ _ _ _) as [x3 g] eqn:Eg.
  apply obind_Ret in Hr as (_ & _ & [= <-]). exists c', a. split; [done|]. simpl ns_state.
  apply plan_rollup_frame in Hp as (Hs2 & Ht2 & Hm2). apply plan_gc_frame in Eg as (Hs3 & Ht3 & Hm3).
  split_and!; [by rewrite Hs3, Hs2|by rewrite Ht3, Ht2|]. intros []. apply Hm3, Hm2.
  split; simpl; try done; unfold BTree.retain; by auto with maps.
Qed.

(** *** States of which differences can be taken *)

Record chain_ok x : Prop := {
  ch_state : state_ok x;
  ch_rollups : sc_rollups (st_collections x) <> [];
  ch_maps : maps_sorted (st_collections x);
  ch_trace : trace_sound (sc_trace (st_collections x));
  ch_roundtrip : tr_roundtrip_structure (sc_trace (st_collections x)) = true;
}.

Lemma chain_diffable x : chain_ok x -> diffable x.
Proof. intros [_ Hr Hm [] Ht]. by split. Qed.

Lemma initial_chain v shard host now rollup_id x :
  Machine.write_initial_rollup (T := T) (Version := Version) v shard host now rollup_id = Ret x -> chain_ok x.
Proof.
  intros Hi. destruct (initial_state (T := T) v shard host now rollup_id) as (x' & Hi' & Hs & Hr & _).
  rewrite Hi in Hi'. injection Hi' as <-. unfold Machine.write_initial_rollup in Hi. simpl in Hi. injection Hi as <-.
  split; try done. split; [apply new_ok| | |done]; simpl.
  - constructor.
  - by intros h h' Hh%not_elem_of_nil.
Qed.

(** A command takes such a state to another one, of which the difference
    tells everything. *)
Lemma chain_step x cmd cfg clock ns : chain_ok x -> st_seqno x < u64_max -> config_ok cfg ->
  command_fits (st_collections x) cmd -> command_named (st_collections x) cmd ->
  Machine.next_state D hashed x cmd cfg clock = Ret (Ok ns) ->
  chain_ok (ns_state ns) /\ comparable_states x (ns_state ns) /\ next_ok x cmd (ns_state ns).
Proof.
  intros Hx Hu Hk Hf [Htidy Hnamed] Hn. pose proof (ch_state _ Hx) as Hok. pose proof Hok as [Hn0 Hc].
  pose proof (step_next _ _ _ _ _ _ _ Hok (ch_rollups _ Hx) Hu Hk Hf Hn) as Hnext.
  destruct (compute_frame _ _ _ _ _ _ Hn) as (c' & [] & Hrun & Hsh & Ht & Hm).
  pose proof (coll_ok_later _ (st_seqno x + 1) _ Hc ltac:(lia)) as Hc1.
  pose proof (run_trace _ _ _ _ _ Hc1 (ch_trace _ Hx) Hf Htidy Hrun) as Hst.
  pose proof (run_good D hashed _ _ _ _ _ Hc1 ltac:(lia) Hf Hrun) as [Hc2 _].
  pose proof (run_maps _ _ _ _ _ (ch_maps _ Hx) Hrun) as Hm2.
  destruct (step_sound _ _ _ (ch_trace _ Hx) Hnamed (co_spine _ _ Hc2) Hst) as (Hs' & Hp & Hr).
  assert (Hx' : chain_ok (ns_state ns)).
  { destruct Hnext. split; [done|done|by apply Hm| |by rewrite Ht]. rewrite Ht. by destruct Hs'. }
  split_and!; [done| |done]. split; [by apply chain_diffable|by apply chain_diffable|done|..]; by rewrite Ht.
Qed.
End commands.

(** ** Logs of differences *)

Section logs.
Context {T : Type} `{TL : TimelyLaws T} `{TO : !TimelyOrd T} `{TOL : !TimelyOrdLaws T} {Version : Type}.
Implicit Types (x y : State T Version) (hist : list (State T Version)) (ds : list (VersionedData (StateDiff T Version))).

(** States that follow each other, numbered from zero. *)
Record chain_of hist : Prop := {
  cn_ok : forall i x, hist !! i = Some x -> chain_ok x;
  cn_seqno : forall i x, hist !! i = Some x -> st_seqno x = Z.of_nat i;
  cn_next : forall i x x', hist !! i = Some x -> hist !! S i = Some x' -> comparable_states x x';
}.

(** The version of a state: what [try_compare_and_set_current] writes. *)
Record version_of x (v : VersionedData (StateDiff T Version)) : Prop := {
  vo_seqno : vd_seqno v = st_seqno x;
  vo_to : sd_seqno_to (vd_data v) = st_seqno x;
  vo_version : sd_applier_version (vd_data v) = sc_version (st_collections x);
  vo_rollup : exists n r, State.latest_rollup x = Ret (n, r) /\ sd_latest_rollup_key (vd_data v) = rollup_key r;
}.

(** The versions that a history leaves behind; the first comes from an empty
    state with the same number. *)
Record diff_log hist ds : Prop := {
  dl_versions : Forall2 version_of hist ds;
  dl_diffs : forall i x x' v, hist !! i = Some x -> hist !! S i = Some x' -> ds !! S i = Some v ->
    StateDiff.from_diff x x' = Ret (vd_data v);
}.

Lemma from_diff_version x x' d : StateDiff.from_diff x x' = Ret d -> version_of x' {| vd_seqno := st_seqno x'; vd_data := d |}.
Proof.
  unfold StateDiff.from_diff. intros (_ & _ & ([n r] & Hr & (f & _ & (f' & _ & [= <-])%obind_Ret)%obind_Ret)%obind_Ret)%obind_Ret.
  split; try done. by exists n, r.
Qed.

Lemma chain_snoc hist x x' : chain_of hist -> last hist = Some x -> chain_ok x' -> comparable_states x x' ->
  st_seqno x' = st_seqno x + 1 -> chain_of (hist ++ [x']).
Proof.
  intros [Ho Hs Hn] Hl Hx Hc He. rewrite last_lookup in Hl. pose proof (lookup_lt_Some _ _ _ Hl) as Hlen.
  assert (Hlt : forall i y, (hist ++ [x']) !! i = Some y -> hist !! i = Some y \/ i = length hist /\ y = x').
  { intros i y [Hi|[Hge Hi]]%lookup_app_Some; [by left|]. apply list_lookup_singleton_Some in Hi as [? <-]. right. split; [lia|done]. }
  split.
  - intros i y [Hi|[-> ->]]%Hlt; [by eapply Ho|done].
  - intros i y [Hi|[-> ->]]%Hlt; [by apply Hs|]. rewrite He, (Hs _ _ Hl). lia.
  - intros i y y' [Hi|[-> ->]]%Hlt [Hi'|[Hl' ->]]%Hlt; [by eapply Hn| | |].
    + assert (i = pred (length hist)) as -> by lia. rewrite Hl in Hi. by injection Hi as <-.
    + apply lookup_lt_Some in Hi'. lia.
    + lia.
Qed.

Lemma diff_log_snoc hist ds x x' d : diff_log hist ds -> last hist = Some x -> StateDiff.from_diff x x' = Ret d ->
  diff_log (hist ++ [x']) (ds ++ [{| vd_seqno := st_seqno x'; vd_data := d |}]).
Proof.
  intros [Hv Hd] Hl Hfd. rewrite last_lookup in Hl. pose proof (lookup_lt_Some _ _ _ Hl) as Hlen.
  pose proof (Forall2_length _ _ _ Hv) as Hlens. split.
  - apply Forall2_app; [done|]. constructor; [by eapply from_diff_version|constructor].
  - intros i y y' v Hy Hy' Hvi. destruct (decide (S i < length hist)%nat) as [Hlt|Hge].
    + rewrite lookup_app_l in Hy, Hy' by lia. rewrite lookup_app_l in Hvi by lia. by eapply Hd.
    + pose proof (lookup_lt_Some _ _ _ Hy') as Hb. rewrite length_app in Hb. simpl in Hb.
      assert (i = pred (length hist)) as -> by lia. rewrite lookup_app_l in Hy by lia. rewrite lookup_app_r in Hy' by lia. rewrite lookup_app_r in Hvi by lia.
      rewrite Hl in Hy. injection Hy as <-. apply list_lookup_singleton_Some in Hy' as [_ <-], Hvi as [_ <-]. done.
Qed.

Lemma log_seqno hist ds i v : chain_of hist -> diff_log hist ds -> ds !! i = Some v -> vd_seqno v = Z.of_nat i.
Proof.
  intros Hc [Hv _] Hi. destruct (Forall2_lookup_r _ _ _ _ _ Hv Hi) as (x & Hx & Hxv).
  rewrite (vo_seqno _ _ Hxv). by apply (cn_seqno _ Hc).
Qed.

(** The code can read everything in a history. *)
Definition readable `{!SemVer Version} (build : Version) hist : Prop :=
  forall i x, hist !! i = Some x -> code_can_read_data build (sc_version (st_collections x)) = true.

Lemma decode_ok `{!SemVer Version} build hist ds i x v : readable build hist -> diff_log hist ds -> hist !! i = Some x -> ds !! i = Some v ->
  StateDiff.decode build (vd_data v) = Ret (vd_data v).
Proof.
  intros Hr Hl Hx Hv. pose proof (Forall2_lookup_lr _ _ _ _ _ _ (dl_versions _ _ Hl) Hx Hv) as Hxv.
  unfold StateDiff.decode. by rewrite (vo_version _ _ Hxv), (Hr _ _ Hx).
Qed.

(** One turn of the loop of [apply_encoded_diffs]. *)
Lemma encoded_skip `{!SemVer Version} build (v : VersionedData (StateDiff T Version)) (n : SeqNo) x : vd_seqno v <> SeqNo_next n ->
  ApplyDiff.encoded_step build (n, x) v = Ret (n, x).
Proof. intros Hv. unfold ApplyDiff.encoded_step. by rewrite bool_decide_eq_false_2. Qed.

Lemma encoded_apply `{!SemVer Version} build hist ds i x x' v : chain_of hist -> diff_log hist ds -> readable build hist ->
  hist !! i = Some x -> hist !! S i = Some x' -> ds !! S i = Some v ->
  ApplyDiff.encoded_step build (st_seqno x, x) v = Ret (st_seqno x', x').
Proof.
  intros Hc Hl Hrd Hx Hx' Hv. pose proof (log_seqno _ _ _ _ Hc Hl Hv) as Hseq.
  pose proof (cn_seqno _ Hc _ _ Hx) as Hn. pose proof (cn_seqno _ Hc _ _ Hx') as Hn'.
  destruct (diff_roundtrip_ok x x' (cn_next _ Hc _ _ _ Hx Hx') ltac:(lia)) as (d & Hd & Ha & Hf & Ht).
  rewrite (dl_diffs _ _ Hl _ _ _ _ Hx Hx' Hv) in Hd. injection Hd as <-.
  unfold ApplyDiff.encoded_step, SeqNo_next, ApplyDiff.apply_or_panic.
  rewrite bool_decide_eq_true_2 by lia. cbn [negb]. rewrite (decode_ok build hist ds (S i) x' v) by done. cbn [obind].
  rewrite bool_decide_eq_true_2 by done. cbn [assert_ obind]. by rewrite Ha, Ht.
Qed.

Lemma encoded_skips `{!SemVer Version} build ds n x : Forall (fun v => vd_seqno v <= n) ds ->
  foldM (ApplyDiff.encoded_step (T := T) (Version := Version) build) ds (n, x) = Ret (n, x).
Proof.
  induction 1 as [|v ds Hv _ IH]; [done|]. cbn [foldM]. rewrite encoded_skip by (unfold SeqNo_next; lia). exact IH.
Qed.

Lemma encoded_all `{!SemVer Version} build hist ds i n x y : chain_of hist -> diff_log hist ds -> readable build hist -> hist !! i = Some x -> hist !! (i + n)%nat = Some y ->
  foldM (ApplyDiff.encoded_step build) (take n (drop (S i) ds)) (st_seqno x, x) = Ret (st_seqno y, y).
Proof.
  intros Hc Hl Hrd. revert i x. induction n as [|n IH]; intros i x Hx Hy.
  { rewrite Nat.add_0_r in Hy. rewrite Hx in Hy. injection Hy as <-. done. }
  assert (HS : (S i < length hist)%nat) by (apply lookup_lt_Some in Hy; lia).
  destruct (lookup_lt_is_Some_2 _ _ HS) as [x' Hx'].
  destruct (Forall2_lookup_l _ _ _ _ _ (dl_versions _ _ Hl) Hx') as (v & Hv & _).
  rewrite (drop_S _ _ _ Hv). cbn [take foldM]. rewrite (encoded_apply _ _ _ _ _ _ _ Hc Hl Hrd Hx Hx' Hv). cbn [obind].
  apply IH; [done|]. by rewrite Nat.add_succ_comm.
Qed.

Lemma encoded_gap `{!SemVer Version} build ds n x : Forall (fun v => SeqNo_next n < vd_seqno v) ds ->
  foldM (ApplyDiff.encoded_step (T := T) (Version := Version) build) ds (n, x) = Ret (n, x).
Proof.
  induction 1 as [|v ds Hv _ IH]; [done|]. cbn [foldM]. rewrite encoded_skip by lia. exact IH.
Qed.

(** Any part of a log that goes back to a state takes that state to the
    last one of the part. *)
Lemma catch_up `{!SemVer Version} build hist ds k i n x y : chain_of hist -> diff_log hist ds -> readable build hist -> 
  hist !! i = Some x -> hist !! (i + n)%nat = Some y -> (k <= S i)%nat ->
  ApplyDiff.apply_encoded_diffs build (drop k (take (S (i + n)) ds)) x = Ret y.
Proof.
  intros Hc Hl Hrd Hx Hy Hk. pose proof (Forall2_length _ _ _ (dl_versions _ _ Hl)) as Hlen.
  pose proof (lookup_lt_Some _ _ _ Hy) as Hlt. unfold ApplyDiff.apply_encoded_diffs.
  assert (E : drop k (take (S (i + n)) ds) = drop k (take (S i) ds) ++ take n (drop (S i) ds)).
  { replace (S (i + n)) with (S i + n)%nat by lia. rewrite <- take_take_drop, drop_app_le; [done|]. rewrite length_take. lia. }
  rewrite E, foldM_app. rewrite encoded_skips.
  - cbn [obind]. by rewrite (encoded_all build hist ds i n x y).
  - apply Forall_forall. intros v [j Hj]%list_elem_of_lookup_1. rewrite lookup_drop in Hj.
    apply lookup_take_Some in Hj as [Hj Hb]. rewrite (log_seqno _ _ _ _ Hc Hl Hj), (cn_seqno _ Hc _ _ Hx). lia.
Qed.
End logs.
