(* ===== verification/PartKeys.v ===== *)
(** * The keys of the parts of a trace

    A part in blob storage is written once, under a key that nothing else
    has (src/src/persist-client/src/internal/paths.rs, [PartId::new]).  Hence
    the parts of a trace have different keys, and a part that has left the
    trace never returns.  Garbage collection relies on both. *)

From Stdlib Require Import Sorted.
From S2P Require Import Prelude Compare Timely BTree Schema Paths Consensus Batch Order Blob Diff BatchFacts Spine SpineFacts SpineCorrect Trace FlatTrace TraceFacts FlatFacts SpineKeep State StateDiff StateDiffFacts StateFacts Tombstone Machine MachineFacts DiffChain.

Local Open Scope Z_scope.

Section keys.
Context {T : Type} `{TL : TimelyLaws T}.
Implicit Types (t : Trace T) (h : HollowBatch T) (hs : list (HollowBatch T)) (b : SpineBatch T) (p : IdHollowBatch T) (k : str).

(** The key of a part in blob storage; inline parts have none. *)
Definition part_key (q : RunPart T) : option str :=
  match q with
  | Single (Hollow x) => Some (hbp_key x)
  | Single (Inline _ _ _ _) => None
  | Many r => Some (hrr_key r)
  end.

Definition part_keys (qs : list (RunPart T)) : list str := omap part_key qs.
Definition batch_keys h : list str := part_keys (hb_parts h).
Definition keys_of hs : list str := concat (batch_keys <$> hs).
Definition trace_keys t : list str := keys_of (Trace.batches t).

(** The runs of a batch are in order. *)
Definition orderly h : Prop := StronglySorted le (hb_run_splits h ++ [length (hb_parts h)]).

Record keyed t : Prop := {
  ky_once : NoDup (trace_keys t);
  ky_runs : Forall orderly (Trace.batches t);
}.

Lemma keys_of_app hs hs' : keys_of (hs ++ hs') = keys_of hs ++ keys_of hs'.
Proof. unfold keys_of. by rewrite fmap_app, concat_app. Qed.

Lemma elem_of_keys hs k : k ∈ keys_of hs <-> exists h, h ∈ hs /\ k ∈ batch_keys h.
Proof.
  unfold keys_of. rewrite list_elem_of_In, in_concat. split.
  - intros (l & Hl & Hk). apply list_elem_of_In, list_elem_of_fmap in Hl as (h & -> & Hh). exists h. split; [done|by apply list_elem_of_In].
  - intros (h & Hh & Hk). exists (batch_keys h). split; [|by apply list_elem_of_In]. apply list_elem_of_In, list_elem_of_fmap. by exists h.
Qed.

(** *** Spines: every key has its place *)

(** [G] tells for every key where in the ids its part is. *)
Definition home (G : str -> N) p : Prop :=
  NoDup (batch_keys (ihb_batch p)) /\ orderly (ihb_batch p) /\
  forall k, k ∈ batch_keys (ihb_batch p) -> (sid_lo (ihb_id p) <= G k < sid_hi (ihb_id p))%N.

Definition housed G b : Prop := Forall (home G) (sb_parts b).

Lemma housed_empty G i (l u s : Antichain T) : housed G (SpineBatch.empty i l u s).
Proof.
  apply Forall_singleton. split_and!; [constructor|repeat constructor|]. by intros k ?%not_elem_of_nil.
Qed.

Lemma housed_done G (fm : FuelingMerge T) bs log x log' : Forall (housed G) bs ->
  FuelingMerge.done fm bs log = Ret (Some x, log') -> housed G x.
Proof.
  intros Hb. unfold FuelingMerge.done. destruct (head bs) as [b1|]; [|done]. destruct (last bs) as [b2|]; [|done].
  intros (_ & _ & He)%obind_Ret. destruct (forallb _ _); injection He as <- _; [apply housed_empty|].
  unfold housed. simpl. clear -Hb. induction Hb as [|b bs Hb _ IH]; [constructor|]. rewrite fmap_cons. cbn [concat]. by apply Forall_app.
Qed.

Definition housed_trace G t : Prop := keeps (housed G) (sp_merging (tr_spine t)).

Lemma housed_parts G t : housed_trace G t <-> Forall (home G) (parts_of (sp_merging (tr_spine t))).
Proof.
  unfold housed_trace. rewrite keeps_batches. unfold parts_of. generalize (batches_of (sp_merging (tr_spine t))) as bs.
  induction bs as [|b bs IH]; [by split; constructor|]. rewrite fmap_cons. cbn [concat]. by rewrite Forall_cons, Forall_app, IH.
Qed.

Lemma homes_once G (ps : list (IdHollowBatch T)) lo f hi u : tiles lo f ps hi u -> Forall id_ok ps -> Forall (home G) ps ->
  NoDup (keys_of (ihb_batch <$> ps)) /\ forall k, k ∈ keys_of (ihb_batch <$> ps) -> (lo <= G k < hi)%N.
Proof.
  intros Ht Hi Hh. revert lo f Ht. induction Hh as [|p ps (Hn & _ & Hg) _ IH]; intros lo f Ht; [split; [constructor|by intros k ?%not_elem_of_nil]|].
  destruct Ht as (<- & _ & Ht). inversion_clear Hi as [|?? Hp Hi']. destruct (IH Hi' _ _ Ht) as [Hn' Hg'].
  assert (Hle : (sid_hi (ihb_id p) <= hi)%N) by (apply chain_lo_hi in Ht as [? _]; [done|by apply Forall_fmap]).
  unfold keys_of in *. rewrite !fmap_cons. cbn [concat]. unfold id_ok in Hp. split.
  - apply NoDup_app. split_and!; [done| |done]. intros k Hk Hk'. specialize (Hg k Hk). specialize (Hg' k Hk'). lia.
  - intros k [Hk|Hk]%elem_of_app; [specialize (Hg k Hk); simpl; lia|specialize (Hg' k Hk); simpl; lia].
Qed.

Lemma homes_exist (ps : list (IdHollowBatch T)) : NoDup (keys_of (ihb_batch <$> ps)) -> Forall orderly (ihb_batch <$> ps) -> Forall id_ok ps ->
  exists G, Forall (home G) ps.
Proof.
  intros Hn Ho Hi. induction Hi as [|p ps Hp _ IH]; [by exists (fun _ => 0%N)|].
  unfold keys_of in *. rewrite !fmap_cons in Hn. cbn [concat] in Hn. rewrite fmap_cons in Ho. inversion_clear Ho as [|?? Hop Ho'].
  apply NoDup_app in Hn as (Hn & Hd & Hn'). destruct (IH Hn' Ho') as [G HG].
  exists (fun k => if decide (k ∈ batch_keys (ihb_batch p)) then sid_lo (ihb_id p) else G k). constructor.
  - split_and!; [done|done|]. intros k Hk. rewrite decide_True by done. unfold id_ok in Hp. lia.
  - rewrite Forall_forall in *. intros q Hq. destruct (HG q Hq) as (? & ? & Hg). split_and!; [done|done|]. intros k Hk.
    rewrite decide_False; [by apply Hg|]. intros Hk'. apply (Hd k Hk'). apply list_elem_of_In, in_concat.
    exists (batch_keys (ihb_batch q)). split; [|by apply list_elem_of_In]. apply list_elem_of_In. by do 2 apply list_elem_of_fmap_2.
Qed.

Lemma housed_keyed G t : spine_ok (tr_spine t) -> housed_trace G t -> keyed t.
Proof.
  intros Hs Hh%housed_parts. destruct (spine_part_props _ Hs) as [_ Hi].
  destruct (homes_once G _ _ _ _ _ (spine_tiles _ Hs) Hi Hh) as [Hn _]. split; [exact Hn|].
  unfold Trace.batches. apply Forall_fmap. eapply Forall_impl; [exact Hh|]. by intros p (_ & ? & _).
Qed.

Lemma keyed_housed t : spine_ok (tr_spine t) -> keyed t -> exists G, housed_trace G t.
Proof.
  intros Hs [Hn Ho]. destruct (spine_part_props _ Hs) as [_ Hi]. destruct (homes_exist _ Hn Ho Hi) as [G HG].
  exists G. by apply housed_parts.
Qed.

Lemma exert_keyed t fuel t' reqs w : spine_ok (tr_spine t) -> spine_ok (tr_spine t') -> keyed t -> Trace.exert t fuel = Ret (t', reqs, w) -> keyed t'.
Proof.
  intros Hs Hs' Hk. unfold Trace.exert. intros ([[s w'] log] & Hi & [= <- _ _])%obind_Ret.
  destruct (keyed_housed t Hs Hk) as [G HG]. apply (housed_keyed G); [done|].
  eapply (exert_keeps _ (housed_done G)); [exact HG|apply housed_empty|exact Hi].
Qed.

Lemma push_keyed t h t' reqs : spine_ok (tr_spine t) -> spine_ok (tr_spine t') -> keyed t -> orderly h -> NoDup (batch_keys h) ->
  (forall k, k ∈ batch_keys h -> k ∉ trace_keys t) -> Trace.push_batch t h = Ret (t', reqs) -> keyed t'.
Proof.
  intros Hs Hs' Hk Ho Hn Hf. unfold Trace.push_batch. intros ([s log] & Hi & [= <- _])%obind_Ret.
  destruct (keyed_housed t Hs Hk) as [G HG]. rewrite housed_parts, Forall_forall in HG.
  set (G' := fun k => if decide (k ∈ batch_keys h) then sp_next_id (tr_spine t) else G k). apply (housed_keyed G'); [done|].
  eapply (insert_batch_keeps _ (housed_done G')); [| |exact Hi].
  - apply housed_parts, Forall_forall. intros p Hp. destruct (HG p Hp) as (? & ? & Hg). split_and!; [done|done|]. intros k Hkp.
    unfold G'. rewrite decide_False; [by apply Hg|]. intros Hkh. apply (Hf k Hkh). apply elem_of_keys.
    exists (ihb_batch p). split; [|done]. by apply list_elem_of_fmap_2.
  - apply Forall_singleton. split_and!; [done|done|]. intros k Hkh. unfold G'. rewrite decide_True by done. simpl. lia.
Qed.

Lemma claims_keyed {A} (f : A -> SpineId) c (l : list A) t t' : spine_ok (tr_spine t) -> spine_ok (tr_spine t') -> keyed t ->
  foldM (fun t a => Trace.claim_compaction t (f a) c) l t = Ret t' -> keyed t'.
Proof.
  intros Hs Hs' Hk He. destruct (keyed_housed t Hs Hk) as [G HG]. apply (housed_keyed G); [done|].
  eapply (foldM_keeps _ (housed_trace G)); [|exact HG|exact He]. clear. intros t a t' Hk. unfold Trace.claim_compaction, Trace.visit.
  intros ([t1 r] & ([ms r'] & Hv & [= <- _])%obind_Ret & [= <-])%obind_Ret.
  eapply (visit_levels_keeps (housed G)); [|exact Hk|exact Hv].
  intros b b' r1 _ Hb. unfold Trace.claim_step. case_bool_decide; by intros [= <- _].
Qed.

(** *** Replacing runs *)

Lemma ranges_concat {A} (parts : list A) ends start (metas : list RunMeta) rs : StronglySorted le (start :: ends) ->
  omapM (fun r => r) (HollowBatch.zip_eq metas (HollowBatch.slice parts <$> filter (fun r => r.1 < r.2)%nat (HollowBatch.scan_ranges start ends))) = Ret rs ->
  concat (snd <$> rs) = drop start (take (default start (last ends)) parts).
Proof.
  revert start metas rs. induction ends as [|e ends IH]; intros start metas rs Hs.
  { destruct metas; [|done]. intros [= <-]. simpl. by rewrite drop_ge by (rewrite length_take; lia). }
  inversion_clear Hs as [|?? Hs' Hall]. inversion_clear Hall as [|?? Hle _].
  assert (Hlast : default start (last (e :: ends)) = default e (last ends)) by (destruct ends; [done|]; by destruct (last _) eqn:E; [|apply last_None in E]).
  assert (He : (e <= default e (last ends))%nat).
  { destruct (last ends) as [l|] eqn:E; simpl; [|done]. inversion_clear Hs' as [|?? _ Hall]. rewrite Forall_forall in Hall.
    apply Hall. apply last_Some in E as [l' ->]. apply elem_of_app. right. by apply list_elem_of_singleton. }
  rewrite Hlast. cbn [HollowBatch.scan_ranges]. destruct (decide (start < e)%nat) as [Hlt|Hge].
  - rewrite filter_cons_True by done. rewrite fmap_cons. destruct metas as [|m metas]; [done|]. cbn [HollowBatch.zip_eq omapM].
    intros (y & (ps & Hsl & [= <-])%obind_Ret & (rs' & Hrs & [= <-])%obind_Ret)%obind_Ret. rewrite fmap_cons. cbn [concat snd].
    rewrite (IH e metas rs' Hs' Hrs). unfold HollowBatch.slice in Hsl. simpl in Hsl. destruct (Nat.leb_spec e (length parts)); [|done].
    injection Hsl as <-. set (l := default e (last ends)) in *. replace l with (e + (l - e))%nat by lia. rewrite <- take_take_drop.
    rewrite !drop_app, !length_take, !Nat.min_l by lia. rewrite (drop_ge (take e parts) e) by (rewrite length_take; lia).
    replace (start - e)%nat with 0%nat by lia. rewrite Nat.sub_diag, !drop_0. simpl. f_equal. rewrite take_drop_commute. do 2 f_equal. lia.
  - rewrite filter_cons_False by (simpl; lia). intros Hrs. rewrite (IH e metas rs Hs' Hrs). f_equal. lia.
Qed.

Lemma collect_concat h rs : orderly h -> Replace.collect_runs h = Ret rs -> concat (snd <$> rs) = hb_parts h.
Proof.
  intros Ho Hc. assert (Hs : StronglySorted le (0%nat :: hb_run_splits h ++ [length (hb_parts h)])).
  { constructor; [exact Ho|]. apply Forall_forall. intros. lia. }
  rewrite (ranges_concat _ _ _ _ _ Hs Hc), last_snoc. simpl. by rewrite drop_0, firstn_all.
Qed.

Lemma splits_orderly n i q (rs : list (RunMeta * list (RunPart T))) :
  StronglySorted le (Replace.splits_of n i q rs ++ [q + length (concat (snd <$> rs))]%nat) /\
  Forall (le q) (Replace.splits_of n i q rs ++ [q + length (concat (snd <$> rs))]%nat).
Proof.
  revert i q. induction rs as [|[m ps] rs IH]; intros i q; [simpl; split; [repeat constructor|repeat constructor; lia]|].
  cbn [Replace.splits_of]. rewrite fmap_cons. cbn [concat snd]. rewrite length_app, Nat.add_assoc. case_bool_decide as E.
  - subst ps. simpl. rewrite Nat.add_0_r. apply IH.
  - destruct (IH (S i) (q + length ps)%nat) as [Hs Ha].
    assert (Ha' : Forall (le q) (Replace.splits_of n (S i) (q + length ps) rs ++ [q + length ps + length (concat (snd <$> rs))]%nat))
      by (eapply Forall_impl; [exact Ha|]; intros; simpl in *; lia).
    destruct (_ <? _)%nat; [|done]. simpl. split; constructor; try done. lia.
Qed.

Lemma kept_keys ids (rs ks : list (RunMeta * list (RunPart T))) : Replace.keep_runs ids rs = Ret ks ->
  sublist (concat (part_keys <$> (snd <$> ks))) (concat (part_keys <$> (snd <$> rs))).
Proof.
  revert ks. induction rs as [|[m ps] rs IH]; intros ks; simpl; [by intros [= <-]|].
  intros (i & _ & (ks' & Hks & [= <-])%obind_Ret)%obind_Ret. specialize (IH _ Hks). case_bool_decide; [by apply sublist_inserts_l|].
  simpl. by apply sublist_app.
Qed.

Lemma part_keys_app qs qs' : part_keys (qs ++ qs') = part_keys qs ++ part_keys qs'.
Proof. apply omap_app. Qed.

Lemma part_keys_concat (l : list (list (RunPart T))) : part_keys (concat l) = concat (part_keys <$> l).
Proof. induction l as [|x l IH]; [done|]. rewrite fmap_cons. cbn [concat]. by rewrite part_keys_app, IH. Qed.

(** A batch with runs replaced has keys of the batch and of the replacement. *)
Lemma construct_keys h ids out h' : orderly h -> orderly out ->
  Replace.construct_batch_with_runs_replaced h ids out = Ret (Ok h') ->
  orderly h' /\ exists ks, sublist ks (batch_keys h) /\ batch_keys h' = ks ++ batch_keys out.
Proof.
  intros Ho Hout. unfold Replace.construct_batch_with_runs_replaced. case_bool_decide; [done|].
  intros (rs & Hrs & Hc)%obind_Ret. destruct (negb _); [done|]. apply obind_Ret in Hc as (ks & Hks & (rs' & Hrs' & [= <-])%obind_Ret).
  split; [unfold orderly; simpl; apply (splits_orderly _ 0 0)|].
  exists (concat (part_keys <$> (snd <$> ks))). apply kept_keys in Hks. split.
  - unfold batch_keys. by rewrite <- (collect_concat _ _ Ho Hrs), part_keys_concat.
  - unfold batch_keys at 1. simpl. rewrite fmap_app, concat_app, part_keys_app, !part_keys_concat. f_equal.
    unfold batch_keys. by rewrite <- (collect_concat _ _ Hout Hrs'), part_keys_concat.
Qed.

(** *** Compaction *)

Lemma tiles_upper lo f (ps : list (IdHollowBatch T)) hi u p : tiles lo f ps hi u -> Forall part_ok ps -> p ∈ ps ->
  less_equal (d_upper (hb_desc (ihb_batch p))) u = true.
Proof.
  intros Ht Hp (l & r & ->)%list_elem_of_split. apply tiles_app in Ht as (m & g & _ & (_ & _ & Ht)).
  apply Forall_app in Hp as [_ Hp]. inversion_clear Hp. by apply (chain_le _ _ _ _ _ Ht).
Qed.

(** The times of a tiling are those of its batches. *)
Lemma tiles_times (ps ps' : list (IdHollowBatch T)) lo f hi u lo' hi' u' : ihb_batch <$> ps = ihb_batch <$> ps' ->
  tiles lo f ps hi u -> tiles lo' f ps' hi' u' -> u = u'.
Proof.
  revert ps' lo lo' f. induction ps as [|p ps IH]; intros [|p' ps'] lo lo' f E; try done.
  { intros [_ <-] [_ <-]. done. }
  rewrite !fmap_cons in E. injection E as Ep E. intros (_ & _ & Ht) (_ & _ & Ht'). simpl in *. rewrite <- Ep in Ht'. by eapply IH.
Qed.

(** A batch of a trace with the times of a stretch of it is in the stretch. *)
Lemma in_stretch t pre (mid : list (IdHollowBatch T)) post lo hi h g : spine_ok (tr_spine t) ->
  Trace.batches t = pre ++ (ihb_batch <$> mid) ++ post -> mid <> [] -> tiles lo (d_lower (hb_desc h)) mid hi (d_upper (hb_desc h)) ->
  g ∈ Trace.batches t -> d_lower (hb_desc g) = d_lower (hb_desc h) -> d_upper (hb_desc g) = d_upper (hb_desc h) ->
  less_than (d_lower (hb_desc h)) (d_upper (hb_desc h)) = true -> g ∈ ihb_batch <$> mid.
Proof.
  intros Hs E Hne Hm Hp Hl Hu Hlt. pose proof (spine_tiles _ Hs) as Ht. destruct (spine_part_props _ Hs) as [Hok _].
  change (ihb_batch <$> parts_of (sp_merging (tr_spine t)) = pre ++ (ihb_batch <$> mid) ++ post) in E.
  change (g ∈ ihb_batch <$> parts_of (sp_merging (tr_spine t))) in Hp.
  rewrite E in Hp. apply fmap_app_inv in E as (l1 & l & -> & E & El). symmetry in E. apply fmap_app_inv in E as (l2 & l3 & E & -> & ->).
  rewrite El in Ht, Hok. apply tiles_app in Ht as (m1 & g1 & Ht1 & (m2 & g2 & Ht2 & Ht3)%tiles_app).
  apply Forall_app in Hok as [Hok1 [_ Hok3]%Forall_app].
  assert (g1 = d_lower (hb_desc h)) as ->.
  { destruct mid as [|q mid], l2 as [|q' l2]; try done. injection E as Eq _. destruct Hm as (_ & <- & _), Ht2 as (_ & <- & _). simpl. by rewrite Eq. }
  pose proof (tiles_times _ _ _ _ _ _ _ _ _ E Hm Ht2) as <-.
  apply elem_of_app in Hp as [Hp|[Hp|Hp]%elem_of_app]; [exfalso|done|exfalso];
    apply list_elem_of_fmap in Hp as (q & -> & Hq).
  - pose proof (tiles_upper _ _ _ _ _ _ Ht1 Hok1 Hq) as Hle. rewrite Hu in Hle.
    pose proof (lt_le_trans _ _ _ Hlt Hle) as Hc. by rewrite less_than_irrefl in Hc.
  - destruct (chain_le _ _ _ _ _ Ht3 Hok3) as [_ Hall]. rewrite Forall_forall in Hall. specialize (Hall q Hq). simpl in Hall. rewrite Hl in Hall.
    pose proof (lt_le_trans _ _ _ Hlt Hall) as Hc. by rewrite less_than_irrefl in Hc.
Qed.

Lemma keys_sublist h hs : h ∈ hs -> sublist (batch_keys h) (keys_of hs).
Proof.
  intros (l & r & ->)%list_elem_of_split. rewrite keys_of_app. unfold keys_of at 2. rewrite fmap_cons. cbn [concat].
  by apply sublist_inserts_l, sublist_inserts_r.
Qed.

(** Replacing a stretch of a trace by new keys and keys of the stretch. *)
Lemma stretch_keyed t t' pre mid post h ks new : keyed t -> Trace.batches t = pre ++ mid ++ post -> Trace.batches t' = pre ++ h :: post ->
  orderly h -> batch_keys h = ks ++ new -> sublist ks (keys_of mid) -> NoDup new -> (forall k, k ∈ new -> k ∉ trace_keys t) -> keyed t'.
Proof.
  intros [Hn Ho] E E' Hh Hk Hks Hnew Hf. unfold trace_keys in Hn, Hf. rewrite E, !keys_of_app in Hn, Hf. rewrite E in Ho. split.
  - unfold trace_keys. rewrite E', keys_of_app. unfold keys_of at 2. rewrite fmap_cons. cbn [concat]. rewrite Hk.
    change (concat (batch_keys <$> post)) with (keys_of post).
    assert (Hp : keys_of pre ++ (ks ++ new) ++ keys_of post ≡ₚ new ++ keys_of pre ++ ks ++ keys_of post) by solve_Permutation.
    rewrite Hp. apply NoDup_app. split_and!; [done| |].
    + intros k Hkn Hin. apply (Hf k Hkn). rewrite !elem_of_app in Hin |- *. destruct Hin as [?|[Hin|?]]; [tauto| |tauto].
      right. left. by eapply elem_of_sublist.
    + eapply sublist_NoDup; [exact Hn|]. by apply sublist_app, sublist_app.
  - rewrite E'. apply Forall_app in Ho as [Hpre [_ Hpost]%Forall_app]. apply Forall_app. split; [done|]. by constructor.
Qed.
End keys.

(** ** Commands *)

Section commands.
Context {T : Type} `{TL : TimelyLaws T} `{TT : !TimelyTotal T} `{TO : !TimelyOrd T} `{TOL : !TimelyOrdLaws T}.
Context {Version K V : Type} `{!SemVer Version} `{UuidCodec} `{!SchemaCodec K} `{!SchemaCodec V} `{!DataTypeCodec}.
Context (D : Type) `{!PartCodec D} (hashed : IdempotencyToken -> Z).
Implicit Types (c : StateCollections T Version) (x : State T Version) (cmd : Command T Version K V) (t : Trace T) (h : HollowBatch T).

(** The parts a command brings have keys that were never used. *)
Record command_fresh (used : str -> Prop) cmd : Prop := {
  cf_orderly : Forall orderly (brings cmd);
  cf_once : NoDup (keys_of (brings cmd));
  cf_new : forall k, k ∈ keys_of (brings cmd) -> ~ used k;
}.

Lemma same_keyed t t' : sp_merging (tr_spine t') = sp_merging (tr_spine t) -> keyed t -> keyed t'.
Proof.
  intros E [Hn Ho]. assert (Eb : Trace.batches t' = Trace.batches t) by (unfold Trace.batches, Spine.spine_batches; by rewrite E).
  split; [|by rewrite Eb]. unfold trace_keys. by rewrite Eb.
Qed.

Lemma single_keyed t : single_part t -> keyed t.
Proof.
  intros (b & p & Hb & Hp & _ & He & _ & Hs). assert (E : Trace.batches t = [ihb_batch p]).
  { unfold Trace.batches. rewrite Hb. simpl. by rewrite Hp. }
  split.
  - unfold trace_keys, keys_of. rewrite E. simpl. unfold batch_keys. rewrite He. constructor.
  - rewrite E. apply Forall_singleton. unfold orderly. rewrite He, Hs. repeat constructor.
Qed.

Lemma append_keyed t h tok hb ld pct (ver : option Version) t' reqs : spine_ok (tr_spine t) -> spine_ok (tr_spine t') -> keyed t -> batch_fits t h ->
  orderly h -> NoDup (batch_keys h) -> (forall k, k ∈ batch_keys h -> k ∉ trace_keys t) ->
  StateCollections.append_batch hashed t h tok hb ld pct ver = Ret (t', reqs) -> keyed t'.
Proof.
  intros Hs Hs' Hk Hfit Ho Hn Hf. unfold StateCollections.append_batch.
  intros ([t1 reqs1] & Hp & (reqs2 & _ & (t2 & Ht2 & [= <- _])%obind_Ret)%obind_Ret)%obind_Ret.
  assert (Hk1 : spine_ok (tr_spine t1) /\ keyed t1).
  { case_bool_decide as E; simpl in Hp; [by injection Hp as <- _|].
    pose proof (push_batch_ok t h Hs Hfit ltac:(congruence)) as (t3 & reqs3 & He3 & (Hs3 & _)). rewrite Hp in He3. injection He3 as <- _.
    split; [done|]. by apply (push_keyed t h t1 reqs1). }
  destruct Hk1. eapply (claims_keyed _ _ _ t1); [done|exact Hs'|done|exact Ht2].
Qed.

(** What a compaction puts in place: its output, or a batch with runs
    replaced. *)
Definition compacted t (out h : HollowBatch T) : Prop := hb_desc h = hb_desc out /\
  (h = out \/ exists g ids, g ∈ Trace.batches t /\ d_lower (hb_desc g) = d_lower (hb_desc h) /\ d_upper (hb_desc g) = d_upper (hb_desc h) /\
     Replace.construct_batch_with_runs_replaced g ids out = Ret (Ok h)).

Lemma compacted_keyed t out h t' r : spine_ok (tr_spine t) -> keyed t -> orderly out -> NoDup (batch_keys out) ->
  (forall k, k ∈ batch_keys out -> k ∉ trace_keys t) -> less_than (d_lower (hb_desc out)) (d_upper (hb_desc out)) = true ->
  compacted t out h -> merge_post t h (t', r) -> keyed t'.
Proof.
  intros Hs Hk Ho Hn Hf Hlt [Hd Hh] (_ & _ & _ & _ & _ & Hm). destruct (ApplyMergeResult_applied r); [|by subst].
  destruct Hm as (pre & mid & post & lo & hi & E & E' & Hne & Ht). destruct Hh as [->|(g & ids & Hg & Hgl & Hgu & Hc)].
  - eapply (stretch_keyed _ _ pre (ihb_batch <$> mid) post out []); try done. apply sublist_nil_l.
  - pose proof (ky_runs _ Hk) as Hall. rewrite Forall_forall in Hall. destruct (construct_keys g ids out h (Hall g Hg) Ho Hc) as (Hoh & ks & Hks & Hkh).
    rewrite <- Hd in Hlt. pose proof (in_stretch _ _ _ _ _ _ h g Hs E Hne Ht Hg Hgl Hgu Hlt) as Hin.
    eapply (stretch_keyed _ _ pre (ihb_batch <$> mid) post h ks); try done. etrans; [exact Hks|]. by apply keys_sublist.
Qed.

Lemma merge_res_keyed c res c' ret : spine_ok (tr_spine (sc_trace c)) -> keyed (sc_trace c) ->
  (forall b, b ∈ Spine.spine_batches (tr_spine (sc_trace c)) -> result_fits b res) ->
  orderly (fres_output res) -> NoDup (batch_keys (fres_output res)) -> (forall k, k ∈ batch_keys (fres_output res) -> k ∉ trace_keys (sc_trace c)) ->
  StateCollections.apply_merge_res D c res = Ret (c', ret) -> keyed (sc_trace c').
Proof.
  intros Hs Hk Hf Ho Hn Hnew. unfold StateCollections.apply_merge_res.
  destruct (StateCollections.is_tombstone c); [by intros [= <- _]|].
  intros ([t r] & Hm & [= <- _])%obind_Ret. unfold Trace.apply_merge_res_checked in Hm.
  assert (Hlt : Spine.spine_batches (tr_spine (sc_trace c)) = [] \/ less_than (d_lower (hb_desc (fres_output res))) (d_upper (hb_desc (fres_output res))) = true).
  { destruct (Spine.spine_batches _) as [|b bs]; [by left|right]. apply (rf_times b res), Hf. by left. }
  eapply (apply_merge_post _ (compacted (sc_trace c) (fres_output res)) (fres_output res)) in Hm as (h & Hh & Hp); [|done|by split; [|left]|].
  - destruct Hlt as [He|Hlt]; [|by eapply compacted_keyed].
    destruct Hp as (_ & _ & _ & _ & _ & Hp). destruct (ApplyMergeResult_applied r); [|by subst].
    destruct Hp as (pre & mid & post & lo & hi & E & _ & Hne & _). unfold Trace.batches in E. rewrite He in E. simpl in E.
    symmetry in E. apply app_eq_nil in E as [_ [E _]%app_eq_nil]. by apply fmap_nil_inv in E.
  - intros b [b' r'] Hb Hw Hfb. destruct (checked_made D _ _ _ _ Hw (Hf b Hb) Hfb) as (h & Hd & Hmade & Hp). exists h. split; [|done]. split; [done|].
    destruct Hmade as [->|(p & ids & Hp' & Hl & Hu & Hc)]; [by left|right]. exists (ihb_batch p), ids. split_and!; try done.
    apply elem_of_batches. by exists b, p.
Qed.

Lemma tombstone_keyed seqno c c' ret : coll_ok seqno c -> trace_sound (sc_trace c) -> keyed (sc_trace c) ->
  StateCollections.become_tombstone_and_shrink c = Ret (c', ret) -> keyed (sc_trace c').
Proof.
  intros Hc Ht Hk. unfold StateCollections.become_tombstone_and_shrink, assert_ at 1 2. intros (_ & _ & He)%obind_Ret.
  apply obind_Ret in He as ([] & Hs & He). case_bool_decide as Hsince; [|done]. clear Hs.
  destruct (find _ _) as [h|] eqn:Ef.
  - apply find_some in Ef as [Hin%list_elem_of_In Hne]. apply negb_true_iff, bool_decide_eq_false in Hne.
    apply obind_Ret in He as ([t r] & Hm & (_ & _ & [= <- _])%obind_Ret).
    change (sc_trace (StateCollections.clear_handles c)) with (sc_trace c) in Hm.
    destruct (apply_tombstone_ok _ _ (ts_spine _ Ht) Hin Hne Hsince) as (t1 & r1 & Hm1 & _ & Hp). rewrite Hm in Hm1. injection Hm1 as -> ->. simpl.
    assert (Hlt : less_than (d_lower (hb_desc h)) (d_upper (hb_desc h)) = true).
    { destruct (trace_hollow_ok _ _ (ts_spine _ Ht) Hin) as [Hle Hti _ _]. apply less_than_iff. split; [done|]. by destruct Hti. }
    eapply (compacted_keyed (sc_trace c) (HollowBatch.empty (hb_desc h))); [apply Ht|done|repeat constructor|constructor| |done|by split; [|left]|exact Hp].
    by intros k ?%not_elem_of_nil.
  - destruct (1 <? _)%nat; [|apply (same_keyed (sc_trace c)); [|done]; destruct (negb _); by simplify_eq].
    apply obind_Ret in He as ([t reqs] & Hp & (_ & _ & [= <- _])%obind_Ret). apply single_keyed. by eapply fresh_step.
Qed.

Lemma run_keyed cmd seqno c c' w used : coll_ok seqno c -> 0 <= seqno -> trace_sound (sc_trace c) -> keyed (sc_trace c) -> command_fits c cmd ->
  command_fresh used cmd -> (forall k, k ∈ trace_keys (sc_trace c) -> used k) ->
  Machine.run_command D hashed cmd seqno c = Ret (c', w) -> keyed (sc_trace c').
Proof.
  intros Hc Hz Ht Hk Hf [Ho Hn Hnew] Hused He. pose proof (run_good D hashed _ _ _ _ _ Hc Hz Hf He) as [Hc' _].
  assert (Hsame : sp_merging (tr_spine (sc_trace c')) = sp_merging (tr_spine (sc_trace c)) -> keyed (sc_trace c'))
    by (intros E; by eapply same_keyed).
  assert (Hone : forall h, brings cmd = [h] -> orderly h /\ NoDup (batch_keys h) /\ forall k, k ∈ batch_keys h -> k ∉ trace_keys (sc_trace c)).
  { intros h E. rewrite E in Ho, Hn, Hnew. inversion_clear Ho as [|?? Hoh _]. unfold keys_of in Hn, Hnew. simpl in Hn, Hnew. rewrite app_nil_r in Hn, Hnew.
    split_and!; [done|done|]. intros k Hkh Hkt. by apply (Hnew k Hkh), Hused. }
  destruct cmd; simpl in He, Hf, Hone |- *; try (apply obind_Ret in He as (r & Hr & He)); apply forget_inv in He as [ret Hret]; try subst r.
  1-6, 9-14: try (apply Hsame; unfold StateCollections.add_rollup, StateCollections.remove_rollups, Machine.upgrade_version,
    StateCollections.register_critical_reader, StateCollections.expire_leased_reader, StateCollections.expire_critical_reader,
    StateCollections.expire_writer in Hret; repeat case_match; by simplify_eq);
    apply Hsame; unfold StateCollections.register_leased_reader, StateCollections.register_schema,
      StateCollections.downgrade_since, StateCollections.compare_and_downgrade_since, StateCollections.compare_and_evolve_schema in Hr;
    inv_run; simplify_eq; simpl; by rewrite ?update_since_merging.
  - unfold StateCollections.spine_exert in Hr. apply obind_Ret in Hr as ([[t reqs] worked] & Hex & Hr).
    assert (E : sc_trace c' = t); [destruct worked; inv_run; by simplify_eq|]. pose proof (co_spine _ _ Hc') as Hs'. rewrite E in Hs' |- *.
    eapply (exert_keyed (sc_trace c)); [apply Ht|exact Hs'|exact Hk|exact Hex].
  - destruct (Hone _ eq_refl) as (Hoh & Hnh & Hfh).
    destruct (caa_trace hashed _ _ _ _ _ _ _ _ _ _ _ _ Hf Hr) as [E|(Hfit & reqs & Ha)]; [apply Hsame; by rewrite E|].
    eapply (append_keyed (sc_trace c) batch); [apply Ht|apply (co_spine _ _ Hc')|exact Hk|exact Hfit|exact Hoh|exact Hnh|exact Hfh|exact Ha].
  - exact (tombstone_keyed seqno c c' _ Hc Ht Hk Hr).
  - destruct (Hone _ eq_refl) as (Hoh & Hnh & Hfh). eapply merge_res_keyed; [apply Ht|exact Hk|exact Hf|exact Hoh|exact Hnh|exact Hfh|exact Hr].
Qed.
End commands.
