(* ===== verification/Versions.v ===== *)
(** * State versions (src/src/persist-client/src/internal/state_versions.rs)

    The versions of the state of a shard are kept in two places: consensus
    has the differences, one per version, and blob storage has rollups,
    copies of whole states.  [StateVersions] reads and writes both.  Values
    are stored as they are: the protobuf encodings of [encoding.rs] are left
    out, but for the checks that decoding makes.  Calls that are retried
    until they succeed are single calls; loops that read the stores again
    take the stores they see as arguments.  The theorems are in
    [VersionsFacts]. *)

From S2P Require Import Prelude Compare Timely BTree Schema Paths Consensus Batch Order Blob Diff Spine Trace FlatTrace State StateDiff Machine.

Local Open Scope Z_scope.

(** The names of the codecs of a shard. *)
Record Codecs := {
  key_codec : string;
  val_codec : string;
  ts_codec : string;
  diff_codec : string;
}.

#[export] Instance Codecs_eqdec : EqDecision Codecs.
Proof. solve_decision. Defined.

Section types.
Context (T : Type) `{Timely T} (Version : Type).

Abbreviation Diffs := (list (VersionedData (StateDiff T Version))).

(** A state as it was stored, before the codecs are checked. *)
Record UntypedState := {
  us_codecs : Codecs;
  us_state : State T Version;
}.

(** The differences since the rollup before. *)
Record InlinedDiffs := {
  id_lower : SeqNo;
  id_upper : SeqNo;
  id_diffs : Diffs;
}.

Record Rollup := {
  ro_state : UntypedState;
  ro_diffs : option InlinedDiffs;
}.

(** What a shard keeps in blob storage. *)
Inductive Object :=
| ObjRollup (r : Rollup)
| ObjRun (parts : list (RunPart T))
| ObjData (data : Bytes).

Record EncodedRollup := {
  er_shard_id : ShardId;
  er_seqno : SeqNo;
  er_key : str;
  er_buf : Object;
}.

(** An iterator over consecutive versions of a state; [it_diffs] is in
    ascending order. *)
Record StateVersionsIter := {
  it_state : State T Version;
  it_diffs : Diffs;
}.

Inductive InspectDiff :=
| FromInitial (x : State T Version)
| InspectChange (d : StateDiff T Version).
End types.

Arguments us_codecs {T _ Version}.
Arguments us_state {T _ Version}.
Arguments id_lower {T _ Version}.
Arguments id_upper {T _ Version}.
Arguments id_diffs {T _ Version}.
Arguments ro_state {T _ Version}.
Arguments ro_diffs {T _ Version}.
Arguments ObjRollup {T _ Version}.
Arguments ObjRun {T _ Version}.
Arguments ObjData {T _ Version}.
Arguments er_shard_id {T _ Version}.
Arguments er_seqno {T _ Version}.
Arguments er_key {T _ Version}.
Arguments er_buf {T _ Version}.
Arguments it_state {T _ Version}.
Arguments it_diffs {T _ Version}.
Arguments FromInitial {T _ Version}.
Arguments InspectChange {T _ Version}.

Module UntypedState.
Section ops.
Context {T : Type} `{TimelyOrd T} {Version : Type} `{!SemVer Version}.
(** [T::codec_name()] and the other codecs that the caller asks for. *)
Context (codecs : Codecs).
Implicit Types (u : UntypedState T Version).

(** A silent no-op when the codec of the times is not the expected one. *)
Definition apply_encoded_diffs (build_version : Version) u (diffs : list (VersionedData (StateDiff T Version))) :
    outcome (UntypedState T Version) :=
  if negb (bool_decide (ts_codec codecs = ts_codec (us_codecs u))) then Ret u
  else
    let! x := ApplyDiff.apply_encoded_diffs build_version diffs (us_state u) in
    Ret {| us_codecs := us_codecs u; us_state := x |}.

Definition check_codecs u (shard_id : ShardId) : outcome (result (State T Version) (Codecs * Codecs)) :=
  let! _ := assert_ (bool_decide (shard_id = st_shard_id (us_state u))) in
  Ret (if negb (bool_decide (codecs = us_codecs u)) then Err (codecs, us_codecs u) else Ok (us_state u)).

Definition check_ts_codec u (shard_id : ShardId) : outcome (result (State T Version) (string * string)) :=
  let! _ := assert_ (bool_decide (shard_id = st_shard_id (us_state u))) in
  Ret (if negb (bool_decide (ts_codec codecs = ts_codec (us_codecs u)))
       then Err (ts_codec codecs, ts_codec (us_codecs u)) else Ok (us_state u)).

(** Anything but a rollup does not decode. *)
Definition decode (build_version : Version) (buf : Object T Version) : outcome (UntypedState T Version) :=
  match buf with
  | ObjRollup r =>
      let! _ := assert_ (code_can_read_data build_version (sc_version (st_collections (us_state (ro_state r))))) in
      Ret (ro_state r)
  | _ => Panic
  end.
End ops.
End UntypedState.

Module Rollup.
Section ops.
Context {T : Type} `{TimelyOrd T} {Version : Type}.
Implicit Types (diffs : list (VersionedData (StateDiff T Version))).

(** The loop that checks that nothing is missing. *)
Definition verify_step (verify_seqno : SeqNo) (diff : VersionedData (StateDiff T Version)) : outcome SeqNo :=
  let! _ := assert_ (SeqNo_next verify_seqno =? vd_seqno diff) in Ret (vd_seqno diff).

Definition inlined_from (lower upper : SeqNo) diffs : outcome (InlinedDiffs T Version) :=
  let! _ := assert_ (forallb (fun v => (lower <=? vd_seqno v) && (vd_seqno v <? upper)) diffs) in
  Ret {| id_lower := lower; id_upper := upper; id_diffs := diffs |}.

Definition from (state : UntypedState T Version) diffs : outcome (Rollup T Version) :=
  let x := us_state state in
  let! (latest_rollup_seqno, _) := State.latest_rollup x in
  let! verify_seqno := foldM verify_step diffs latest_rollup_seqno in
  let! _ := assert_ (verify_seqno =? st_seqno x) in
  let! inlined := inlined_from (SeqNo_next latest_rollup_seqno) (SeqNo_next (st_seqno x)) diffs in
  Ret {| ro_state := state; ro_diffs := Some inlined |}.
End ops.
End Rollup.

Module StateVersionsIter.
Section ops.
Context {T : Type} `{TimelyOrd T} {Version : Type} `{!SemVer Version}.
Implicit Types (it : StateVersionsIter T Version).

Definition new (state : State T Version) (diffs : list (VersionedData (StateDiff T Version))) :
    outcome (StateVersionsIter T Version) :=
  let! _ := assert_ (match head diffs with Some v => vd_seqno v =? st_seqno state | None => true end) in
  Ret {| it_state := state; it_diffs := diffs |}.

(** The next version, with what it shows to its callback. *)
Definition next (build_version : Version) it : outcome (option (InspectDiff T Version * StateVersionsIter T Version)) :=
  match it_diffs it with
  | [] => Ret None
  | v :: rest =>
      let! diff := StateDiff.decode build_version (vd_data v) in
      let inspect := if sd_seqno_to diff =? st_seqno (it_state it) then FromInitial (it_state it)
                     else InspectChange diff in
      let! x := ApplyDiff.apply_diffs [diff] (it_state it) in
      let! _ := assert_ (st_seqno x =? sd_seqno_to diff) in
      Ret (Some (inspect, {| it_state := x; it_diffs := rest |}))
  end.
End ops.
End StateVersionsIter.

(** The two stores. *)
Record Stores (T : Type) `{Timely T} (Version : Type) `{!Consensus (StateDiff T Version)} `{!Blob (Object T Version)} := {
  vs_consensus : cs_store;
  vs_blob : bl_store;
}.
Arguments vs_consensus {T _ Version _ _}.
Arguments vs_blob {T _ Version _ _}.

Module StateVersions.
Section ops.
Context {T : Type} `{TimelyOrd T} {Version : Type} `{!SemVer Version} `{UuidCodec}.
Context `{!Consensus (StateDiff T Version)} `{!Blob (Object T Version)}.
(** The codecs and the version of the code. *)
Context (codecs : Codecs) (build_version : Version).
(** [STATE_VERSIONS_RECENT_LIVE_DIFFS_LIMIT] *)
Context (scan_limit : Z).
Implicit Types (s : Stores T Version) (shard_id : ShardId).

Abbreviation Diffs := (list (VersionedData (StateDiff T Version))) (only parsing).

Definition with_consensus s c : Stores T Version := {| vs_consensus := c; vs_blob := vs_blob s |}.
Definition with_blob s b : Stores T Version := {| vs_consensus := vs_consensus s; vs_blob := b |}.

Definition latest_diff (live_diffs : Diffs) : outcome (StateDiff T Version) :=
  let! v := expect (last live_diffs) in StateDiff.decode build_version (vd_data v).

Definition fetch_rollup_at_key s shard_id (rollup_key : str) : outcome (option (UntypedState T Version)) :=
  match bl_get (vs_blob s) (complete_key rollup_key shard_id) with
  | None => Ret None
  | Some buf => let! u := UntypedState.decode build_version buf in Ret (Some u)
  end.

Definition delete_rollup s shard_id (key : str) : Stores T Version :=
  with_blob s (bl_delete (vs_blob s) (complete_key key shard_id)).1.

Definition fetch_all_live_diffs s shard_id : Diffs := cs_scan (vs_consensus s) (ShardId_fmt shard_id) 0 SCAN_ALL.

Definition fetch_live_diffs s shard_id (from : SeqNo) (limit : Z) : Diffs :=
  cs_scan (vs_consensus s) (ShardId_fmt shard_id) from limit.

(** The loop of [fetch_live_diffs_through]; each turn reads the store as it
    is then.  [None]: the loop is still going on. *)
Fixpoint fetch_more (stores : list (Stores T Version)) shard_id (through : SeqNo) (versions : Diffs) : option (outcome Diffs) :=
  match stores with
  | [] => None
  | s :: stores =>
      match last versions with
      | None => Some (Ret versions)
      | Some v =>
          let last_seqno := vd_seqno v in
          if through <=? last_seqno then Some (Ret versions)
          else
            let from := SeqNo_next last_seqno in
            let limit := Z.min (Z.max (through - last_seqno) 1) (10 * scan_limit) in
            let more_versions := fetch_live_diffs s shard_id from limit in
            if match head more_versions with Some first => last_seqno <? vd_seqno first | None => true end then
              if Z.of_nat (length more_versions) <? limit then Some (Ret (versions ++ more_versions))
              else fetch_more stores shard_id through (versions ++ more_versions)
            else Some Panic
      end
  end.

Definition fetch_live_diffs_through (s : Stores T Version) (stores : list (Stores T Version)) shard_id (through : SeqNo) :
    option (outcome Diffs) :=
  let versions := fetch_live_diffs s shard_id 0 scan_limit in
  let fetched := if Z.of_nat (length versions) =? scan_limit then fetch_more stores shard_id through versions
                 else Some (Ret versions) in
  match fetched with
  | None => None
  | Some Panic => Some Panic
  | Some (Ret versions) => Some (Ret (take (MemConsensus.partition_point (fun v => vd_seqno v <=? through) versions) versions))
  end.

(** The stores when the oldest versions are read, when the head is, and when
    the versions since the rollup are. *)
Definition fetch_recent_live_diffs (s0 s1 s2 : Stores T Version) shard_id : outcome Diffs :=
  let oldest_diffs := fetch_live_diffs s0 shard_id 0 scan_limit in
  if Z.of_nat (length oldest_diffs) <? scan_limit then Ret oldest_diffs
  else
    let! head := expect (cs_head (vs_consensus s1) (ShardId_fmt shard_id)) in
    let! latest_diff := StateDiff.decode build_version (vd_data head) in
    let! ids := parse_ids (complete_key (sd_latest_rollup_key latest_diff) shard_id) in
    match ids with
    | Some (_, PBKRollup seqno _) => Ret (fetch_live_diffs s2 shard_id (Z.of_N seqno) SCAN_ALL)
    | _ => Panic
    end.

Definition fetch_all_live_diffs_gt_seqno s shard_id (seqno : SeqNo) : Diffs :=
  cs_scan (vs_consensus s) (ShardId_fmt shard_id) (SeqNo_next seqno) SCAN_ALL.

(** [None]: the truncation is refused, and retried forever. *)
Definition truncate_diffs s shard_id (seqno : SeqNo) : option (Stores T Version) :=
  match cs_truncate (vs_consensus s) (ShardId_fmt shard_id) seqno with
  | (c, Ok _) => Some (with_consensus s c)
  | (_, Err _) => None
  end.

(** The stores that a turn of [fetch_current_state] sees: when it looks for
    the rollup and, if that is gone, when it reads the versions again. *)
Record View := {
  vw_rollup : Stores T Version;
  vw_oldest : Stores T Version;
  vw_head : Stores T Version;
  vw_recent : Stores T Version;
}.

(** [None]: the loop is still going on. *)
Fixpoint fetch_current_state (views : list View) shard_id (live_diffs : Diffs) : option (outcome (UntypedState T Version)) :=
  match views with
  | [] => None
  | view :: views =>
      match (let! latest_diff := latest_diff live_diffs in
             fetch_rollup_at_key (vw_rollup view) shard_id (sd_latest_rollup_key latest_diff)) with
      | Panic => Some Panic
      | Ret (Some state) => Some (UntypedState.apply_encoded_diffs codecs build_version state live_diffs)
      | Ret None =>
          match fetch_recent_live_diffs (vw_oldest view) (vw_head view) (vw_recent view) shard_id with
          | Panic => Some Panic
          | Ret live_diffs =>
              match head live_diffs with
              | None => Some Panic
              | Some _ => fetch_current_state views shard_id live_diffs
              end
          end
      end
  end.

Definition encode_rollup_blob (state : State T Version) (diffs : Diffs) (key : str) : outcome (EncodedRollup T Version) :=
  let! rollup := Rollup.from {| us_codecs := codecs; us_state := state |} diffs in
  Ret {| er_shard_id := st_shard_id state; er_seqno := st_seqno state; er_key := key; er_buf := ObjRollup rollup |}.

Definition write_rollup_blob s (rollup : EncodedRollup T Version) : Stores T Version :=
  with_blob s (bl_set (vs_blob s) (complete_key (er_key rollup) (er_shard_id rollup)) (er_buf rollup)).

Definition to_hollow (rollup : EncodedRollup T Version) : HollowRollup :=
  {| rollup_key := er_key rollup; rollup_encoded_size_bytes := Some (bl_len (er_buf rollup)) |}.

(** The rollup is written before the version that refers to it. *)
Definition write_initial_rollup s (shard_id : ShardId) (hostname : string) (now : Z) (rollup_id : RollupId) :
    outcome (Stores T Version * State T Version * StateDiff T Version) :=
  let empty_state := State.new build_version shard_id hostname now in
  let rollup_seqno := st_seqno empty_state in
  let rollup := {| rollup_key := PartialRollupKey_new (Z.to_N rollup_seqno) rollup_id;
                   rollup_encoded_size_bytes := None |} in
  let '(c, ret) := StateCollections.add_rollup (st_collections empty_state) rollup_seqno rollup in
  let! applied := match ret with Continue x => Ret x | Break _ => Panic end in
  let! _ := assert_ applied in
  let initial_state := State.with_collections empty_state c in
  let! rollup := encode_rollup_blob initial_state [] (rollup_key rollup) in
  let s := write_rollup_blob s rollup in
  let! _ := assert_ (st_seqno initial_state =? er_seqno rollup) in
  let! diff := StateDiff.from_diff empty_state initial_state in
  Ret (s, initial_state, diff).

(** [Err]: the outcome is unknown to the caller. *)
Definition try_compare_and_set_current s (shard_id : ShardId) (new_state : State T Version) (diff : StateDiff T Version) :
    outcome (Stores T Version * result (CaSResult * VersionedData (StateDiff T Version)) unit) :=
  let! _ := assert_ (bool_decide (shard_id = st_shard_id new_state)) in
  let new := {| vd_seqno := st_seqno new_state; vd_data := diff |} in
  let! _ := assert_ (vd_seqno new =? sd_seqno_to diff) in
  let '(c, cas_res) := cs_compare_and_set (vs_consensus s) (ShardId_fmt (st_shard_id new_state)) new in
  Ret (with_consensus s c, match cas_res with Ok r => Ok (r, new) | Err e => Err e end).

(** Whether the rollup of a shard that another process created first is
    removed again. *)
Definition should_delete_rollup (rollup : HollowRollup) (state : result (State T Version) (Codecs * Codecs)) : bool :=
  match state with
  | Ok x => negb (existsb (fun r => bool_decide (rollup_key r = rollup_key rollup)) (BTree.values (sc_rollups (st_collections x))))
  | Err _ => true
  end.

(** [s]: when the versions since the last rollup are read and the blob is
    written. *)
Definition write_rollup_for_state s (state : State T Version) (rollup_id : RollupId) :
    outcome (Stores T Version * option (EncodedRollup T Version)) :=
  let! (latest_rollup_seqno, _) := State.latest_rollup state in
  let seqno := st_seqno state in
  let diffs := fetch_all_live_diffs_gt_seqno s (st_shard_id state) latest_rollup_seqno in
  match head diffs with
  | None =>
      let! _ := assert_ (seqno =? latest_rollup_seqno) in
      Ret (s, None)
  | Some first =>
      if negb (vd_seqno first =? SeqNo_next latest_rollup_seqno) then
        let! _ := assert_ (SeqNo_next latest_rollup_seqno <? vd_seqno first) in
        Ret (s, None)
      else
        let diffs := filter (fun v => vd_seqno v <= seqno) diffs in
        let! _ := assert_ (bool_decide (vd_seqno <$> head diffs = Some (SeqNo_next latest_rollup_seqno))) in
        let! _ := assert_ (bool_decide (vd_seqno <$> last diffs = Some (st_seqno state))) in
        let! rollup := encode_rollup_blob state diffs (PartialRollupKey_new (Z.to_N (st_seqno state)) rollup_id) in
        Ret (write_rollup_blob s rollup, Some rollup)
  end.

(** The rollup that some version mentions for a sequence number. *)
Definition rollup_for_migration (live_diffs : Diffs) (seqno : SeqNo) : outcome (option HollowRollup) :=
  foldM (fun (found : option HollowRollup) (v : VersionedData (StateDiff T Version)) =>
    match found with
    | Some r => Ret (Some r)
    | None =>
        let! diff := StateDiff.decode build_version (vd_data v) in
        Ret (match find (fun d => bool_decide (fd_key d = seqno)) (sd_rollups diff) with
             | Some d => Some (match fd_val d with Insert x => x | Update _ x => x | Delete x => x end)
             | None => None
             end)
    end) live_diffs None.

Definition fetch_rollup_at_seqno (views : list View) (s : Stores T Version) shard_id
    (live_diffs : Diffs) (seqno : SeqNo) : option (outcome (option (UntypedState T Version))) :=
  match rollup_for_migration live_diffs seqno with
  | Panic => Some Panic
  | Ret for_migration =>
      match fetch_current_state views shard_id live_diffs with
      | None => None
      | Some Panic => Some Panic
      | Some (Ret state) =>
          match BTree.get seqno (sc_rollups (st_collections (us_state state))) with
          | Some rollup => Some (fetch_rollup_at_key s shard_id (rollup_key rollup))
          | None => Some (let! rollup := expect for_migration in fetch_rollup_at_key s shard_id (rollup_key rollup))
          end
      end
  end.

(** The stores a turn of [fetch_all_live_states] sees. *)
Record LiveView := {
  lv_current : list View;
  lv_rollup : Stores T Version;
  lv_again : Stores T Version;
}.

Fixpoint live_states_loop (views : list LiveView) shard_id (all_live_diffs : Diffs) :
    option (outcome (option (UntypedState T Version * Diffs))) :=
  match views with
  | [] => None
  | view :: views =>
      match head all_live_diffs with
      | None => Some (Ret None)
      | Some earliest_live_diff =>
          match fetch_rollup_at_seqno (lv_current view) (lv_rollup view) shard_id all_live_diffs (vd_seqno earliest_live_diff) with
          | None => None
          | Some Panic => Some Panic
          | Some (Ret (Some state)) =>
              Some (let! _ := assert_ (vd_seqno earliest_live_diff =? st_seqno (us_state state)) in
                    Ret (Some (state, all_live_diffs)))
          | Some (Ret None) =>
              let all_live_diffs := fetch_all_live_diffs (lv_again view) shard_id in
              match head all_live_diffs with
              | None => Some Panic
              | Some _ => live_states_loop views shard_id all_live_diffs
              end
          end
      end
  end.

Definition fetch_all_live_states (s : Stores T Version) (views : list LiveView) shard_id :
    option (outcome (option (UntypedState T Version * Diffs))) :=
  live_states_loop views shard_id (fetch_all_live_diffs s shard_id).

(** [Applier::fetch_and_update_state].  Other handles share the cached
    state: [x] is what it is at first, [locked] what it is when the lock is
    taken to apply the differences, and [relocked] what it is when it is taken
    again. *)
Definition fetch_and_update_state (s : Stores T Version) (views : list View) shard_id (seqno_hint : option SeqNo)
    (x locked relocked : State T Version) : option (outcome (State T Version)) :=
  let seqno_before := st_seqno x in
  if match seqno_hint with Some hint => hint <? seqno_before | None => false end then Some (Ret x)
  else
    let diffs_to_current := fetch_all_live_diffs_gt_seqno s shard_id seqno_before in
    match diffs_to_current with
    | [] => Some (Ret x)
    | _ =>
        match ApplyDiff.apply_encoded_diffs build_version diffs_to_current locked with
        | Panic => Some Panic
        | Ret x' =>
            if negb (seqno_before <=? st_seqno x') then Some Panic
            else if seqno_before <? st_seqno x' then Some (Ret x')
            else match fetch_current_state views shard_id diffs_to_current with
                 | None => None
                 | Some fetched => Some (
                     let! u := fetched in
                     let! checked := UntypedState.check_codecs codecs u shard_id in
                     match checked with
                     | Err _ => Panic
                     | Ok new_state =>
                         let x' := if st_seqno relocked <? st_seqno new_state then new_state else relocked in
                         let! _ := assert_ (seqno_before <=? st_seqno x') in
                         Ret x'
                     end)
                 end
        end
    end.

(** What a process that lost the race to create a shard sees: the stores when
    it reads the versions, the turns of [fetch_current_state], and the stores
    when it may delete its rollup. *)
Record Contended := {
  ct_oldest : Stores T Version;
  ct_head : Stores T Version;
  ct_recent : Stores T Version;
  ct_views : list View;
  ct_delete : Stores T Version;
}.

Definition init_contended (ct : Contended) shard_id (initial_state : State T Version) :
    option (outcome (Stores T Version * result (State T Version) (Codecs * Codecs))) :=
  match fetch_recent_live_diffs (ct_oldest ct) (ct_head ct) (ct_recent ct) shard_id with
  | Panic => Some Panic
  | Ret recent_live_diffs =>
      match fetch_current_state (ct_views ct) shard_id recent_live_diffs with
      | None => None
      | Some fetched => Some (
          let! u := fetched in
          let! state := UntypedState.check_codecs codecs u shard_id in
          let! (_, rollup) := State.latest_rollup initial_state in
          Ret (if should_delete_rollup rollup state then delete_rollup (ct_delete ct) shard_id (rollup_key rollup) else ct_delete ct, state))
      end
  end.

(** [s] is what the stores are when the rollup is written, [others] what
    other processes, and earlier attempts with an unknown outcome, make of them
    before the version is, and [later] what is seen after that.  [None]: some
    loop is still going on. *)
Definition maybe_init_shard (s0 s1 s2 : Stores T Version) (views : list View) (s : Stores T Version)
    (others : Stores T Version -> Stores T Version) (later : Stores T Version -> Contended)
    (shard_id : ShardId) (hostname : string) (now : Z) (rollup_id : RollupId) :
    option (outcome (Stores T Version * result (State T Version) (Codecs * Codecs))) :=
  match fetch_recent_live_diffs s0 s1 s2 shard_id with
  | Panic => Some Panic
  | Ret [] =>
      match (let! (s, initial_state, initial_diff) := write_initial_rollup s shard_id hostname now rollup_id in
             let! _ := assert_ (st_seqno initial_state =? SeqNo_minimum) in
             let! (s, cas_res) := try_compare_and_set_current (others s) shard_id initial_state initial_diff in
             Ret (s, initial_state, cas_res)) with
      | Panic => Some Panic
      | Ret (s, initial_state, Ok (Committed, _)) => Some (Ret (s, Ok initial_state))
      | Ret (s, initial_state, Ok (ExpectationMismatch, _)) => init_contended (later s) shard_id initial_state
      | Ret (_, _, Err _) => None
      end
  | Ret recent_live_diffs =>
      match fetch_current_state views shard_id recent_live_diffs with
      | None => None
      | Some fetched => Some (let! u := fetched in let! state := UntypedState.check_codecs codecs u shard_id in Ret (s, state))
      end
  end.
End ops.
End StateVersions.
