(* ===== verification/VersionsFacts.v ===== *)
(** * What the stores of a shard hold, and what is read from them

    [stored] is the invariant that the documentation of [StateVersions]
    states: the log has a difference for every version from the earliest
    live one on, the current state knows a rollup of the earliest live
    version, and the rollups of the current state are in blob storage.  From
    it follows that fetching a state, in every way the code does it, yields a
    state of the shard's history. *)

From S2P Require Import Prelude Compare Timely BTree Schema Paths Consensus Batch Order Blob Diff BatchFacts Spine SpineFacts SpineCorrect Trace FlatTrace TraceFacts FlatFacts SpineKeep State StateDiff StateDiffFacts StateFacts Machine MachineFacts DiffChain Versions.

Local Open Scope Z_scope.

Section facts.
Context {T : Type} `{TL : TimelyLaws T} `{TO : !TimelyOrd T} `{TOL : !TimelyOrdLaws T}.
Context {Version : Type} `{SV : !SemVer Version} `{UL : UuidLaws}.
Context `{C : !Consensus (StateDiff T Version)} `{CL : !ConsensusLaws (StateDiff T Version)}.
Context `{B : !Blob (Object T Version)} `{BL : !BlobLaws (Object T Version)}.
Context (codecs : Codecs) (build : Version) (scan_limit : Z) (shard : ShardId).
Implicit Types (s : Stores T Version) (x y : State T Version) (hist : list (State T Version)).
Implicit Types (ds : list (VersionedData (StateDiff T Version))) (r : HollowRollup).

Definition log_of s : list (VersionedData (StateDiff T Version)) := cs_log (vs_consensus s) (ShardId_fmt shard).
Definition rollup_blob s r : option (Object T Version) := bl_get (vs_blob s) (complete_key (rollup_key r) shard).

(** A rollup of a state, as it is written. *)
Definition rollup_of x (o : Object T Version) : Prop :=
  exists inlined, o = ObjRollup {| ro_state := {| us_codecs := codecs; us_state := x |}; ro_diffs := inlined |}.

(** The rollups that the states of a history refer to: what is found under
    their keys is the version they are of. *)
Definition rollups_sound hist s : Prop := forall x n r o, x ∈ hist -> (n, r) ∈ sc_rollups (st_collections x) -> rollup_blob s r = Some o ->
  exists y, hist !! Z.to_nat n = Some y /\ rollup_of y o.

(** A rollup is of an earlier version, which its key says; that of the
    initial version is known from the start. *)
Definition rollup_keys hist : Prop := forall i x n r, hist !! i = Some x -> (n, r) ∈ sc_rollups (st_collections x) ->
  0 <= n < Z.max 1 (Z.of_nat i) /\ exists id, rollup_key r = PartialRollupKey_new (Z.to_N n) id.

(** The latest rollup of a state only moves forward. *)
Definition latest_grows hist : Prop := forall i j x y n n' r r', hist !! i = Some x -> hist !! j = Some y -> (i <= j)%nat ->
  State.latest_rollup x = Ret (n, r) -> State.latest_rollup y = Ret (n', r') -> n <= n'.

(** A history with its versions, all in one shard. *)
Record recorded_history hist ds : Prop := {
  rh_chain : chain_of hist;
  rh_log : diff_log hist ds;
  rh_shard : forall i x, hist !! i = Some x -> st_shard_id x = shard;
  rh_latest : latest_grows hist;
  rh_keys : rollup_keys hist;
  rh_size : Z.of_nat (length hist) <= i64_max;
}.

(** [k]: the earliest live version. *)
Record stored hist ds (k : nat) s : Prop := {
  so_log : log_of s = drop k ds;
  so_rollups : rollups_sound hist s;
  so_current : forall x n r, last hist = Some x -> (n, r) ∈ sc_rollups (st_collections x) -> is_Some (rollup_blob s r);
  so_earliest : forall x, last hist = Some x -> BTree.contains (Z.of_nat k) (sc_rollups (st_collections x)) = true;
  so_blob_ok : bl_ok (vs_blob s);
}.

(** *** Logs *)

Lemma log_consecutive hist ds k : chain_of hist -> diff_log hist ds -> consecutive (Z.of_nat k) (drop k ds).
Proof.
  intros Hc Hl. remember (drop k ds) as l eqn:El. revert k El. induction l as [|v l IH]; intros k El; simpl; [done|].
  assert (Hv : ds !! k = Some v) by (by rewrite <- (Nat.add_0_r k), <- lookup_drop, <- El).
  split; [by apply (log_seqno hist ds)|]. replace (Z.of_nat k + 1) with (Z.of_nat (S k)) by lia. apply IH.
  rewrite <- (Nat.add_1_r k), <- drop_drop, <- El. done.
Qed.

Lemma log_filter hist ds k (n : nat) : chain_of hist -> diff_log hist ds ->
  filter (fun v => Z.of_nat n <= vd_seqno v) (drop k ds) = drop (Nat.max k n) ds.
Proof.
  intros Hc Hl. destruct (Nat.le_gt_cases n k) as [Hle|Hgt].
  - rewrite Nat.max_l by done. apply filter_all. apply Forall_forall. intros v [i Hi]%list_elem_of_lookup_1.
    rewrite lookup_drop in Hi. rewrite (log_seqno _ _ _ _ Hc Hl Hi). lia.
  - rewrite Nat.max_r by lia. rewrite <- (take_drop (n - k) (drop k ds)), filter_app, drop_drop.
    replace (k + (n - k))%nat with n by lia. rewrite filter_none, filter_all; [done|..]; apply Forall_forall; intros v [i Hi]%list_elem_of_lookup_1.
    + rewrite lookup_drop in Hi. rewrite (log_seqno _ _ _ _ Hc Hl Hi). lia.
    + apply lookup_take_Some in Hi as [Hi Hlt]. rewrite lookup_drop in Hi. rewrite (log_seqno _ _ _ _ Hc Hl Hi). lia.
Qed.

Lemma scan_ok hist k s ds (n : nat) limit : chain_of hist -> diff_log hist ds -> log_of s = drop k ds -> 0 <= limit ->
  cs_scan (vs_consensus s) (ShardId_fmt shard) (Z.of_nat n) limit = take (Z.to_nat limit) (drop (Nat.max k n) ds).
Proof.
  intros Hc Hl Hs Hlim. unfold log_of in Hs. rewrite cs_scan_log; [|rewrite Hs; eexists; split; [|by eapply log_consecutive]; lia|done].
  rewrite Hs. f_equal. by apply (log_filter hist).
Qed.

Lemma scan_all_ok hist k s ds (n : nat) : chain_of hist -> diff_log hist ds -> log_of s = drop k ds -> Z.of_nat (length hist) <= i64_max ->
  cs_scan (vs_consensus s) (ShardId_fmt shard) (Z.of_nat n) SCAN_ALL = drop (Nat.max k n) ds.
Proof.
  intros Hc Hl Hs Hsize. rewrite (scan_ok hist k s ds) by done. apply take_ge.
  pose proof (Forall2_length _ _ _ (dl_versions _ _ Hl)). rewrite length_drop. unfold SCAN_ALL. lia.
Qed.

(** *** Rollups of a state *)

Lemma latest_max x n r (m : SeqNo) : chain_ok x -> State.latest_rollup x = Ret (n, r) ->
  BTree.contains m (sc_rollups (st_collections x)) = true -> m <= n.
Proof.
  intros Hx Hl Hm. pose proof (mo_rollups _ (ch_maps _ Hx)) as Hs. unfold State.latest_rollup, BTree.last_key_value, expect in Hl.
  destruct (last (sc_rollups (st_collections x))) as [[n' r']|] eqn:El; [|done]. injection Hl as -> ->.
  apply last_Some in El as [l El]. unfold BTree.contains in Hm. destruct (BTree.get m _) as [v|] eqn:Eg; [|done].
  apply BTree.elem_of_get in Eg. rewrite El in Eg, Hs. clear El Hm Hx. induction l as [|[a b] l IH]; simpl in *.
  - apply list_elem_of_singleton in Eg. by injection Eg as -> ->.
  - destruct Hs as [Hall Hs]. apply elem_of_cons in Eg as [[= -> ->]|Eg]; [|by apply IH].
    rewrite Forall_forall in Hall. specialize (Hall (n, r)). simpl in Hall. rewrite Z.ltb_lt in Hall.
    apply Z.lt_le_incl, Hall, elem_of_app. right. by apply list_elem_of_singleton.
Qed.

Lemma latest_in x n r : State.latest_rollup x = Ret (n, r) -> (n, r) ∈ sc_rollups (st_collections x).
Proof.
  unfold State.latest_rollup, BTree.last_key_value, expect. destruct (last _) as [[n' r']|] eqn:El; [|done]. intros [= -> ->].
  apply last_Some in El as [l ->]. apply elem_of_app. right. by apply list_elem_of_singleton.
Qed.

Lemma latest_some x : chain_ok x -> exists n r, State.latest_rollup x = Ret (n, r).
Proof. intros Hx. destruct (latest_rollup_ok x (chain_diffable _ Hx)) as [[n r] Hr]. by exists n, r. Qed.
End facts.

(** ** Reading while others write *)

Section fetching.
Context {T : Type} `{TL : TimelyLaws T} `{TO : !TimelyOrd T} `{TOL : !TimelyOrdLaws T}.
Context {Version : Type} `{SV : !SemVer Version} `{UL : UuidLaws}.
Context `{C : !Consensus (StateDiff T Version)} `{CL : !ConsensusLaws (StateDiff T Version)}.
Context `{B : !Blob (Object T Version)} `{BL : !BlobLaws (Object T Version)}.
Context (codecs : Codecs) (build : Version) (scan_limit : Z) (shard : ShardId).
(** All that ever happens to the shard. *)
Context (hist : list (State T Version)) (ds : list (VersionedData (StateDiff T Version))).
Context (Hrec : recorded_history shard hist ds) (Hread : readable build hist) (Hlimit : 0 < scan_limit).
Implicit Types (s : Stores T Version) (x y : State T Version) (r : HollowRollup).

(** The stores when the history is [m] states long. *)
Definition snap (m k : nat) s : Prop := (0 < m <= length hist)%nat /\ stored codecs shard (take m hist) (take m ds) k s.

(** Versions read when the history was [m] states long, that go back to the
    latest rollup. *)
Definition hint (m j : nat) (live : list (VersionedData (StateDiff T Version))) : Prop :=
  (0 < m <= length hist)%nat /\ live = drop j (take m ds) /\
  exists x n r, hist !! pred m = Some x /\ State.latest_rollup x = Ret (n, r) /\ Z.of_nat j <= n < Z.of_nat m.

Lemma same_length : length ds = length hist.
Proof. symmetry. exact (Forall2_length _ _ _ (dl_versions _ _ (rh_log _ _ _ Hrec))). Qed.

Lemma prefix_chain m : chain_of (take m hist).
Proof.
  destruct (rh_chain _ _ _ Hrec) as [H1 H2 H3]. split.
  - intros i x [Hi _]%lookup_take_Some. by eapply H1.
  - intros i x [Hi _]%lookup_take_Some. by eapply H2.
  - intros i x x' [Hi _]%lookup_take_Some [Hi' _]%lookup_take_Some. by eapply H3.
Qed.

Lemma prefix_log m : diff_log (take m hist) (take m ds).
Proof.
  destruct (rh_log _ _ _ Hrec) as [H1 H2]. split; [by apply Forall2_take|].
  intros i x x' v [Hi _]%lookup_take_Some [Hi' _]%lookup_take_Some [Hv _]%lookup_take_Some. by eapply H2.
Qed.

Lemma last_take m : (0 < m <= length hist)%nat -> last (take m hist) = hist !! pred m.
Proof. intros Hm. rewrite last_lookup, length_take, Nat.min_l by lia. apply lookup_take_lt. lia. Qed.

Lemma snap_current m k s : snap m k s -> exists x n r, hist !! pred m = Some x /\ chain_ok x /\
  State.latest_rollup x = Ret (n, r) /\ Z.of_nat k <= n < Z.of_nat m /\ is_Some (rollup_blob shard s r).
Proof.
  intros [Hm Hs]. destruct (lookup_lt_is_Some_2 hist (pred m)) as [x Hx]; [lia|].
  pose proof (cn_ok _ (rh_chain _ _ _ Hrec) _ _ Hx) as Hok. destruct (latest_some x Hok) as (n & r & Hl).
  pose proof (last_take m Hm) as Hla. rewrite Hx in Hla. pose proof (so_earliest _ _ _ _ _ _ Hs _ Hla) as He.
  exists x, n, r. split_and!; try done.
  - by apply (latest_max x n r).
  - destruct (rh_keys _ _ _ Hrec _ x n r Hx (latest_in _ _ _ Hl)) as [Hn _]. lia.
  - by eapply (so_current _ _ _ _ _ _ Hs); [exact Hla|apply latest_in].
Qed.

Lemma snap_hint m k s : snap m k s -> hint m k (drop k (take m ds)).
Proof.
  intros Hs. destruct (snap_current _ _ _ Hs) as (x & n & r & Hx & _ & Hl & Hn & _). split; [apply Hs|]. split; [done|]. by exists x, n, r.
Qed.

(** One turn of [fetch_current_state], with versions that may be outdated. *)
Lemma fetch_turn m j live m' k' s x : hint m j live -> snap m' k' s -> (m <= m')%nat -> hist !! pred m = Some x ->
  exists o, (let! d := StateVersions.latest_diff build live in
             StateVersions.fetch_rollup_at_key build s shard (sd_latest_rollup_key d)) = Ret o /\
    match o with
    | Some u => UntypedState.apply_encoded_diffs codecs build u live = Ret {| us_codecs := codecs; us_state := x |}
    | None => (m < m')%nat
    end.
Proof.
  intros (Hm & -> & x0 & n & r & Hx & Hl & Hj) Hs Hle Hx'. rewrite Hx' in Hx. injection Hx as <-.
  pose proof same_length as Hlen. destruct (lookup_lt_is_Some_2 ds (pred m)) as [v Hv]; [lia|].
  pose proof (Forall2_lookup_lr _ _ _ _ _ _ (dl_versions _ _ (rh_log _ _ _ Hrec)) Hx' Hv) as Hxv.
  assert (Hlast : last (drop j (take m ds)) = Some v).
  { rewrite last_lookup, length_drop, length_take, Nat.min_l, lookup_drop by lia. rewrite <- Hv.
    rewrite lookup_take_lt by lia. f_equal. lia. }
  unfold StateVersions.latest_diff. rewrite Hlast. cbn [expect obind].
  rewrite (decode_ok build hist ds (pred m) x v) by (done || apply Hrec). cbn [obind].
  destruct (vo_rollup _ _ Hxv) as (n' & r' & Hl' & Hkey). rewrite Hl in Hl'. injection Hl' as <- <-. rewrite Hkey.
  unfold StateVersions.fetch_rollup_at_key. change (bl_get (vs_blob s) (complete_key (rollup_key r) shard)) with (rollup_blob shard s r).
  destruct Hs as [Hm' Hst].
  assert (Hin : x ∈ take m' hist) by (apply list_elem_of_lookup; exists (pred m); apply lookup_take_Some; split; [done|lia]).
  destruct (rollup_blob shard s r) as [o|] eqn:Eo.
  - destruct (so_rollups _ _ _ _ _ _ Hst x n r o Hin (latest_in _ _ _ Hl) Eo) as (y & Hy & inl & ->).
    apply lookup_take_Some in Hy as [Hy _]. cbn [UntypedState.decode ro_state us_state]. rewrite (Hread _ _ Hy). cbn [assert_ obind].
    eexists. split; [done|]. unfold UntypedState.apply_encoded_diffs. cbn [us_codecs us_state].
    rewrite bool_decide_eq_true_2 by done. cbn [negb].
    pose proof (catch_up build hist ds j (Z.to_nat n) (pred m - Z.to_nat n) y x (rh_chain _ _ _ Hrec) (rh_log _ _ _ Hrec) Hread Hy) as Hcu.
    replace (Z.to_nat n + (pred m - Z.to_nat n))%nat with (pred m) in Hcu by lia.
    replace (S (pred m)) with m in Hcu by lia. by rewrite Hcu by (done || lia).
  - exists None. split; [done|]. destruct (decide (m = m')) as [<-|]; [|lia].
    pose proof (last_take m Hm) as Hla. rewrite Hx' in Hla.
    destruct (so_current _ _ _ _ _ _ Hst x n r Hla (latest_in _ _ _ Hl)) as [o Ho]. congruence.
Qed.

Lemma prefix_size m : Z.of_nat (length (take m hist)) <= i64_max.
Proof. pose proof (rh_size _ _ _ Hrec). rewrite length_take. lia. Qed.

Lemma snap_scan m k s (n : nat) limit : snap m k s -> 0 <= limit ->
  StateVersions.fetch_live_diffs s shard (Z.of_nat n) limit = take (Z.to_nat limit) (drop (Nat.max k n) (take m ds)).
Proof.
  intros [_ Hs] Hl. unfold StateVersions.fetch_live_diffs.
  exact (scan_ok shard (take m hist) k s (take m ds) n limit (prefix_chain m) (prefix_log m) (so_log _ _ _ _ _ _ Hs) Hl).
Qed.

Lemma snap_scan_all m k s (n : nat) : snap m k s ->
  cs_scan (vs_consensus s) (ShardId_fmt shard) (Z.of_nat n) SCAN_ALL = drop (Nat.max k n) (take m ds).
Proof.
  intros [_ Hs]. exact (scan_all_ok shard (take m hist) k s (take m ds) n (prefix_chain m) (prefix_log m) (so_log _ _ _ _ _ _ Hs) (prefix_size m)).
Qed.

Lemma snap_head m k s x : snap m k s -> hist !! pred m = Some x ->
  exists v, cs_head (vs_consensus s) (ShardId_fmt shard) = Some v /\ version_of x v /\ ds !! pred m = Some v.
Proof.
  intros Hs Hx. pose proof same_length as Hlen. destruct (snap_current _ _ _ Hs) as (x' & n & r & _ & _ & _ & Hn & _).
  destruct Hs as [Hm Hs]. destruct (lookup_lt_is_Some_2 ds (pred m)) as [v Hv]; [lia|]. exists v.
  split_and!; [|exact (Forall2_lookup_lr _ _ _ _ _ _ (dl_versions _ _ (rh_log _ _ _ Hrec)) Hx Hv)|done].
  rewrite cs_head_log. change (last (log_of shard s) = Some v). rewrite (so_log _ _ _ _ _ _ Hs), last_lookup, length_drop, length_take, Nat.min_l, lookup_drop by lia.
  rewrite <- Hv, lookup_take_lt by lia. f_equal. lia.
Qed.

(** The recent versions go back to the latest rollup, even if the log grows
    and is truncated between the reads. *)
Lemma fetch_recent_ok m0 k0 s0 m1 k1 s1 m2 k2 s2 : snap m0 k0 s0 -> snap m1 k1 s1 -> snap m2 k2 s2 -> (m0 <= m1 <= m2)%nat ->
  exists m j live, StateVersions.fetch_recent_live_diffs build scan_limit s0 s1 s2 shard = Ret live /\ hint m j live /\ (m0 <= m <= m2)%nat.
Proof.
  intros Hs0 Hs1 Hs2 Hm. unfold StateVersions.fetch_recent_live_diffs.
  pose proof (snap_scan m0 k0 s0 0 scan_limit Hs0 ltac:(lia)) as Hold. change (Z.of_nat 0) with 0 in Hold. rewrite Hold.
  rewrite Nat.max_0_r. clear Hold. destruct (Z.ltb_spec (Z.of_nat (length (take (Z.to_nat scan_limit) (drop k0 (take m0 ds))))) scan_limit) as [Hlt|Hge].
  - exists m0, k0, (drop k0 (take m0 ds)). split; [|split; [by eapply snap_hint|lia]]. f_equal. apply take_ge.
    rewrite length_take in Hlt. lia.
  - destruct (snap_current _ _ _ Hs1) as (x & n & r & Hx & _ & Hl & Hn & _).
    destruct (snap_head _ _ _ _ Hs1 Hx) as (v & -> & Hxv & Hv). cbn [expect obind].
    rewrite (decode_ok build hist ds (pred m1) x v) by (done || apply Hrec). cbn [obind].
    destruct (vo_rollup _ _ Hxv) as (n' & r' & Hl' & ->). rewrite Hl in Hl'. injection Hl' as <- <-.
    destruct (rh_keys _ _ _ Hrec _ x n r Hx (latest_in _ _ _ Hl)) as [_ [id ->]].
    rewrite parse_rollup_key; [|pose proof (rh_size _ _ _ Hrec); destruct Hs1; unfold i64_max, u64_max in *; lia].
    cbn [obind]. destruct (snap_current _ _ _ Hs2) as (y & n2 & r2 & Hy & _ & Hl2 & Hn2 & _).
    exists m2, (Nat.max k2 (Z.to_nat n)), (drop (Nat.max k2 (Z.to_nat n)) (take m2 ds)). split; [|split; [|lia]].
    + f_equal. rewrite Z2N.id by lia. unfold StateVersions.fetch_live_diffs.
      rewrite <- (Z2Nat.id n) at 1 by lia. by apply (snap_scan_all m2 k2).
    + split; [apply Hs2|]. split; [done|]. exists y, n2, r2. split_and!; try done; [|lia].
      pose proof (rh_latest _ _ _ Hrec (pred m1) (pred m2) x y n n2 r r2 Hx Hy ltac:(lia) Hl Hl2). lia.
Qed.

(** The stores a turn of the loop sees, from the time [m] on. *)
Definition view_ok (m : nat) (v : StateVersions.View) (m' : nat) : Prop := exists ma ka m0 k0 m1 k1 m2 k2,
  snap ma ka (StateVersions.vw_rollup v) /\ snap m0 k0 (StateVersions.vw_oldest v) /\ snap m1 k1 (StateVersions.vw_head v) /\
  snap m2 k2 (StateVersions.vw_recent v) /\ (m <= ma <= m0)%nat /\ (m0 <= m1 <= m2)%nat /\ m2 = m'.

Inductive views_ok : nat -> list StateVersions.View -> Prop :=
| views_nil m : views_ok m []
| views_cons m m' v vs : view_ok m v m' -> views_ok m' vs -> views_ok m (v :: vs).

Lemma hint_current m j live : hint m j live -> exists x, hist !! pred m = Some x.
Proof. intros (_ & _ & x & n & r & Hx & _). by exists x. Qed.

Lemma hint_first m j live : hint m j live -> exists v, head live = Some v /\ vd_seqno v = Z.of_nat j.
Proof.
  intros (Hm & -> & x & n & r & _ & _ & Hj). pose proof same_length as Hlen. destruct (lookup_lt_is_Some_2 ds j) as [v Hv]; [lia|].
  exists v. assert (Hv' : take m ds !! j = Some v) by (apply lookup_take_Some; split; [done|lia]).
  rewrite (drop_S _ _ _ Hv'). split; [done|]. exact (log_seqno _ _ _ _ (rh_chain _ _ _ Hrec) (rh_log _ _ _ Hrec) Hv).
Qed.

(** The loop never panics; what it returns is a state at least as recent as
    the versions it started with, and a turn that fails means that the history
    has grown. *)
Lemma fetch_current_ok mh m j live vs : hint mh j live -> (mh <= m)%nat -> views_ok m vs ->
  StateVersions.fetch_current_state codecs build scan_limit vs shard live = None /\ (mh + length vs <= length hist)%nat \/
  exists m' x, (mh <= m')%nat /\ hist !! pred m' = Some x /\
    StateVersions.fetch_current_state codecs build scan_limit vs shard live = Some (Ret {| us_codecs := codecs; us_state := x |}).
Proof.
  intros Hh Hle Hv. revert mh j live Hh Hle. induction Hv as [m|m m' v vs Hv _ IH]; intros mh j live Hh Hle.
  { left. split; [done|]. destruct Hh as [? _]. simpl. lia. }
  destruct Hv as (ma & ka & m0 & k0 & m1 & k1 & m2 & k2 & Ha & Hs0 & Hs1 & Hs2 & Hma & Hm & ->).
  destruct (hint_current _ _ _ Hh) as [x Hx]. cbn [StateVersions.fetch_current_state].
  destruct (fetch_turn mh j live ma ka _ x Hh Ha ltac:(lia) Hx) as ([u|] & -> & Hu).
  - right. exists mh, x. by rewrite Hu.
  - destruct (fetch_recent_ok _ _ _ _ _ _ _ _ _ Hs0 Hs1 Hs2 Hm) as (m3 & j3 & live3 & -> & Hh3 & Hm3).
    destruct (hint_first _ _ _ Hh3) as (v3 & -> & _).
    destruct (IH m3 j3 live3 Hh3 ltac:(lia)) as [[-> Hl]|(m4 & y & Hm4 & Hy & ->)].
    + left. split; [done|]. simpl. lia.
    + right. exists m4, y. split_and!; [lia|done|done].
Qed.

(** *** Bringing a cached state up to date *)

Lemma window_seqnos k m v : v ∈ drop k (take m ds) -> Z.of_nat k <= vd_seqno v < Z.of_nat m.
Proof.
  intros [i Hi]%list_elem_of_lookup_1. rewrite lookup_drop in Hi. apply lookup_take_Some in Hi as [Hi Hlt].
  rewrite (log_seqno _ _ _ _ (rh_chain _ _ _ Hrec) (rh_log _ _ _ Hrec) Hi). lia.
Qed.

(** Versions take a state to the last of them, or leave it as it is when it
    is newer already or when there is a gap. *)
Lemma apply_window k m i x : (k < m <= length hist)%nat -> hist !! i = Some x ->
  exists i' y, ApplyDiff.apply_encoded_diffs build (drop k (take m ds)) x = Ret y /\ hist !! i' = Some y /\
    (if decide (k <= S i)%nat then i' = Nat.max i (pred m) else i' = i).
Proof.
  intros Hm Hx. pose proof (cn_seqno _ (rh_chain _ _ _ Hrec) _ _ Hx) as Hi. destruct (decide (k <= S i)%nat) as [Hk|Hk].
  - destruct (decide (m <= S i)%nat) as [Hle|Hgt].
    + exists i, x. split_and!; [|done|lia]. unfold ApplyDiff.apply_encoded_diffs. rewrite encoded_skips; [done|].
      apply Forall_forall. intros v Hv%window_seqnos. lia.
    + destruct (lookup_lt_is_Some_2 hist (pred m)) as [y Hy]; [lia|]. exists (pred m), y. split_and!; [|done|lia].
      pose proof (catch_up build hist ds k i (pred m - i) x y (rh_chain _ _ _ Hrec) (rh_log _ _ _ Hrec) Hread Hx) as Hcu.
      replace (i + (pred m - i))%nat with (pred m) in Hcu by lia. replace (S (pred m)) with m in Hcu by lia. by apply Hcu.
  - exists i, x. split_and!; [|done..]. unfold ApplyDiff.apply_encoded_diffs. rewrite encoded_gap; [done|].
    apply Forall_forall. intros v Hv%window_seqnos. unfold SeqNo_next. lia.
Qed.

(** A cached state is replaced by one that is at least as recent; when no
    other handle moves it meanwhile, by the latest state there was. *)
Lemma fetch_and_update_ok m k s vs h i1 i2 i3 x locked relocked : snap m k s -> views_ok m vs ->
  hist !! i1 = Some x -> hist !! i2 = Some locked -> hist !! i3 = Some relocked -> (i1 <= i2 <= i3)%nat -> (i1 < m)%nat ->
  StateVersions.fetch_and_update_state codecs build scan_limit s vs shard h x locked relocked = None /\ (m + length vs <= length hist)%nat \/
  exists i' y, StateVersions.fetch_and_update_state codecs build scan_limit s vs shard h x locked relocked = Some (Ret y) /\
    hist !! i' = Some y /\ (i1 <= i')%nat /\
    (match h with Some n => Z.of_nat i1 <= n | None => True end -> i2 = i1 -> (pred m <= i')%nat).
Proof.
  intros Hs Hv Hx Hlk Hrl Hi Him. pose proof (rh_chain _ _ _ Hrec) as Hc. pose proof same_length as Hlen.
  destruct (snap_current _ _ _ Hs) as (_ & n & _ & _ & _ & _ & Hk & _).
  unfold StateVersions.fetch_and_update_state. rewrite (cn_seqno _ Hc _ _ Hx).
  destruct (match h with Some _ => _ | None => false end) eqn:Eh.
  { right. exists i1, x. split_and!; [done|done|done|]. destruct h as [n'|]; [|done]. apply Z.ltb_lt in Eh. lia. }
  unfold StateVersions.fetch_all_live_diffs_gt_seqno, SeqNo_next. replace (Z.of_nat i1 + 1) with (Z.of_nat (S i1)) by lia.
  rewrite (snap_scan_all m k s (S i1) Hs). destruct (decide (Nat.max k (S i1) < m)%nat) as [Hne|Hempty].
  2: { rewrite drop_ge by (rewrite length_take; lia). right. exists i1, x. split_and!; try done. lia. }
  destruct (drop _ _) as [|v l] eqn:El.
  { apply (f_equal length) in El. rewrite length_drop, length_take in El. destruct Hs as [? _]. simpl in El. lia. }
  rewrite <- El. clear El v l.
  destruct (apply_window (Nat.max k (S i1)) m i2 locked ltac:(destruct Hs; lia) Hlk) as (i' & y & -> & Hy & Hi').
  rewrite (cn_seqno _ Hc _ _ Hy). assert (i2 <= i')%nat by (case_decide; lia).
  destruct (Z.leb_spec (Z.of_nat i1) (Z.of_nat i')); [|lia]. cbn [negb].
  destruct (Z.ltb_spec (Z.of_nat i1) (Z.of_nat i')).
  { right. exists i', y. split_and!; [done|done|lia|]. intros _ ->. case_decide; lia. }
  assert (i2 = i1) as -> by lia. assert (Hkk : Nat.max k (S i1) = k) by (case_decide; lia). rewrite Hkk.
  destruct (fetch_current_ok m m k _ vs (snap_hint _ _ _ Hs) ltac:(lia) Hv) as [[-> Hl]|(m' & z & Hm' & Hz & ->)]; [by left|right].
  unfold UntypedState.check_codecs. cbn [obind us_state us_codecs]. rewrite (rh_shard _ _ _ Hrec _ _ Hz).
  rewrite !bool_decide_eq_true_2 by done. cbn [assert_ obind negb]. rewrite (cn_seqno _ Hc _ _ Hrl), (cn_seqno _ Hc _ _ Hz).
  destruct (Z.ltb_spec (Z.of_nat i3) (Z.of_nat (pred m'))).
  - exists (pred m'), z. rewrite (cn_seqno _ Hc _ _ Hz). destruct (Z.leb_spec (Z.of_nat i1) (Z.of_nat (pred m'))); [|lia].
    split_and!; [done|done|lia|lia].
  - exists i3, relocked. rewrite (cn_seqno _ Hc _ _ Hrl). destruct (Z.leb_spec (Z.of_nat i1) (Z.of_nat i3)); [|lia].
    split_and!; [done|done|lia|lia].
Qed.

(** *** Iterating over the live states *)

(** An iterator that has reached the state [i] of the first [m]. *)
Definition iter_at (m i : nat) (it : StateVersionsIter T Version) : Prop :=
  hist !! i = Some (it_state it) /\ it_diffs it = drop (S i) (take m ds).

Lemma window_cons m i : (i < m <= length hist)%nat -> exists v, ds !! i = Some v /\ drop i (take m ds) = v :: drop (S i) (take m ds).
Proof.
  intros Hm. pose proof same_length. destruct (lookup_lt_is_Some_2 ds i) as [v Hv]; [lia|]. exists v. split; [done|].
  apply drop_S, lookup_take_Some. split; [done|lia].
Qed.

Lemma iter_first m i x : (i < m <= length hist)%nat -> hist !! i = Some x ->
  exists it, StateVersionsIter.new x (drop i (take m ds)) = Ret it /\ it_state it = x /\
  exists it', StateVersionsIter.next build it = Ret (Some (FromInitial x, it')) /\ iter_at m i it'.
Proof.
  intros Hm Hx. destruct (window_cons m i Hm) as (v & Hv & E). pose proof (log_seqno _ _ _ _ (rh_chain _ _ _ Hrec) (rh_log _ _ _ Hrec) Hv) as Hn.
  pose proof (cn_seqno _ (rh_chain _ _ _ Hrec) _ _ Hx) as Hs.
  pose proof (Forall2_lookup_lr _ _ _ _ _ _ (dl_versions _ _ (rh_log _ _ _ Hrec)) Hx Hv) as Hxv.
  unfold StateVersionsIter.new. rewrite E. cbn [head hd_error]. rewrite Hn, Hs, Z.eqb_refl. cbn [assert_ obind].
  eexists. split; [done|]. split; [done|]. unfold StateVersionsIter.next. cbn [it_diffs it_state].
  rewrite (decode_ok build hist ds i x v) by (done || apply Hrec). cbn [obind]. rewrite (vo_to _ _ Hxv), Z.eqb_refl.
  unfold ApplyDiff.apply_diffs. cbn [foldM]. unfold ApplyDiff.apply_or_panic, ApplyDiff.apply_diff.
  rewrite bool_decide_eq_true_2 by (by rewrite (vo_to _ _ Hxv)). cbn [obind]. rewrite Z.eqb_refl. cbn [assert_ obind].
  eexists. split; [done|]. done.
Qed.

Lemma iter_next m i it x : iter_at m i it -> (m <= length hist)%nat -> hist !! S i = Some x -> (S i < m)%nat ->
  exists v it', StateVersionsIter.next build it = Ret (Some (InspectChange (vd_data v), it')) /\
    ds !! S i = Some v /\ it_state it' = x /\ iter_at m (S i) it'.
Proof.
  intros [Hi Hd] Hm Hx Hlt. destruct (window_cons m (S i) ltac:(lia)) as (v & Hv & E).
  pose proof (cn_seqno _ (rh_chain _ _ _ Hrec) _ _ Hx) as Hs. pose proof (cn_seqno _ (rh_chain _ _ _ Hrec) _ _ Hi) as Hs'.
  pose proof (Forall2_lookup_lr _ _ _ _ _ _ (dl_versions _ _ (rh_log _ _ _ Hrec)) Hx Hv) as Hxv.
  destruct (diff_roundtrip_ok (it_state it) x (cn_next _ (rh_chain _ _ _ Hrec) _ _ _ Hi Hx) ltac:(lia)) as (d & Hfd & Ha & _ & Ht).
  rewrite (dl_diffs _ _ (rh_log _ _ _ Hrec) _ _ _ _ Hi Hx Hv) in Hfd. injection Hfd as <-.
  exists v. unfold StateVersionsIter.next. rewrite Hd, E. rewrite (decode_ok build hist ds (S i) x v) by (done || apply Hrec). cbn [obind].
  rewrite Ht. destruct (Z.eqb_spec (st_seqno x) (st_seqno (it_state it))); [lia|].
  unfold ApplyDiff.apply_diffs. cbn [foldM]. unfold ApplyDiff.apply_or_panic. rewrite Ha. cbn [obind].
  rewrite Z.eqb_refl. cbn [assert_ obind]. eexists. split_and!; [done|done|done|]. done.
Qed.

Lemma iter_end m i it : iter_at m i it -> (m <= S i)%nat -> StateVersionsIter.next build it = Ret None.
Proof. intros [_ Hd] Hm. unfold StateVersionsIter.next. rewrite Hd, drop_ge by (rewrite length_take; lia). done. Qed.

(** *** Writing rollups *)

Lemma window_filter a m i : (i < m)%nat -> filter (fun v => vd_seqno v <= Z.of_nat i) (drop a (take m ds)) = drop a (take (S i) ds).
Proof.
  intros Hi. replace m with (S i + (m - S i))%nat by lia. rewrite <- take_take_drop.
  assert (Hall : forall b, Forall (fun v => vd_seqno v <= Z.of_nat i) (drop b (take (S i) ds))).
  { intros b. apply Forall_forall. intros v Hv%window_seqnos. lia. }
  assert (Hnone : forall b, Forall (fun v => ~ vd_seqno v <= Z.of_nat i) (drop b (take (m - S i) (drop (S i) ds)))).
  { intros b. apply Forall_drop. rewrite take_drop_commute. apply Forall_forall. intros v Hv%window_seqnos. lia. }
  rewrite drop_app, filter_app, filter_all, filter_none; [by rewrite app_nil_r|apply Hnone|apply Hall].
Qed.

Lemma verify_window n len : foldM Rollup.verify_step (take len (drop (S n) ds)) (Z.of_nat n) =
  Ret (Z.of_nat (n + length (take len (drop (S n) ds)))).
Proof.
  revert n. induction len as [|len IH]; intros n; [simpl; by rewrite Nat.add_0_r|].
  destruct (ds !! S n) as [v|] eqn:Ev; [|rewrite drop_ge by (by apply lookup_ge_None); simpl; by rewrite Nat.add_0_r].
  rewrite (drop_S _ _ _ Ev). cbn [take foldM length]. unfold Rollup.verify_step at 1, SeqNo_next.
  rewrite (log_seqno _ _ _ _ (rh_chain _ _ _ Hrec) (rh_log _ _ _ Hrec) Ev).
  destruct (Z.eqb_spec (Z.of_nat n + 1) (Z.of_nat (S n))); [|lia]. cbn [assert_ obind]. rewrite IH. do 2 f_equal. lia.
Qed.

(** The rollup of a state, with the versions since the rollup before. *)
Definition written_rollup x (n i : nat) (id : RollupId) : EncodedRollup T Version :=
  {| er_shard_id := shard; er_seqno := Z.of_nat i; er_key := PartialRollupKey_new (N.of_nat i) id;
     er_buf := ObjRollup {| ro_state := {| us_codecs := codecs; us_state := x |};
                            ro_diffs := Some {| id_lower := Z.of_nat n + 1; id_upper := Z.of_nat i + 1;
                                                id_diffs := drop (S n) (take (S i) ds) |} |} |}.

Lemma encode_rollup_ok x (n i : nat) r id : hist !! i = Some x -> State.latest_rollup x = Ret (Z.of_nat n, r) -> (n <= i)%nat ->
  StateVersions.encode_rollup_blob codecs x (drop (S n) (take (S i) ds)) (PartialRollupKey_new (N.of_nat i) id) =
  Ret (written_rollup x n i id).
Proof.
  intros Hx Hl Hn. pose proof (cn_seqno _ (rh_chain _ _ _ Hrec) _ _ Hx) as Hs. pose proof same_length as Hlen.
  pose proof (lookup_lt_Some _ _ _ Hx) as Hlt. unfold StateVersions.encode_rollup_blob, Rollup.from. cbn [us_state]. rewrite Hl. cbn [obind].
  assert (E : drop (S n) (take (S i) ds) = take (i - n) (drop (S n) ds)) by (rewrite take_drop_commute; do 2 f_equal; lia).
  rewrite E, verify_window, <- E, length_drop, length_take, Nat.min_l, Hs by lia. cbn [obind].
  destruct (Z.eqb_spec (Z.of_nat (n + (S i - S n))) (Z.of_nat i)); [|lia]. cbn [assert_ obind].
  unfold Rollup.inlined_from. rewrite (proj2 (forallb_forall _ _)).
  - cbn [assert_ obind]. by rewrite (rh_shard _ _ _ Hrec _ _ Hx).
  - intros v Hv%list_elem_of_In%window_seqnos. unfold SeqNo_next. apply andb_true_iff. rewrite Z.leb_le, Z.ltb_lt. lia.
Qed.

(** A rollup is written of exactly the state that was asked for, with the
    versions that lead there, unless these have been truncated. *)
Lemma write_rollup_ok m k s x (n i : nat) r id : snap m k s -> hist !! i = Some x -> (n < i < m)%nat ->
  State.latest_rollup x = Ret (Z.of_nat n, r) ->
  StateVersions.write_rollup_for_state codecs s x id =
    Ret (if decide (k <= S n)%nat then (StateVersions.write_rollup_blob s (written_rollup x n i id), Some (written_rollup x n i id))
         else (s, None)).
Proof.
  intros Hs Hx Hi Hl. pose proof (cn_seqno _ (rh_chain _ _ _ Hrec) _ _ Hx) as Hseq. pose proof same_length as Hlen.
  destruct (snap_current _ _ _ Hs) as (_ & n' & _ & _ & _ & _ & Hk & _).
  pose proof (proj1 Hs) as Hm. unfold StateVersions.write_rollup_for_state. rewrite Hl. cbn [obind]. rewrite (rh_shard _ _ _ Hrec _ _ Hx), Hseq.
  unfold StateVersions.fetch_all_live_diffs_gt_seqno, SeqNo_next. replace (Z.of_nat n + 1) with (Z.of_nat (S n)) by lia.
  rewrite (snap_scan_all m k s (S n) Hs). destruct (window_cons m (Nat.max k (S n))) as (v & Hv & E); [destruct Hs; lia|].
  rewrite E. cbn [head hd_error]. rewrite <- E, (log_seqno _ _ _ _ (rh_chain _ _ _ Hrec) (rh_log _ _ _ Hrec) Hv).
  destruct (decide (k <= S n)%nat) as [Hle|Hgt].
  2: { destruct (Z.eqb_spec (Z.of_nat (k `max` S n)) (Z.of_nat (S n))); [lia|]. cbn [negb].
       destruct (Z.ltb_spec (Z.of_nat (S n)) (Z.of_nat (k `max` S n))); [done|lia]. }
  rewrite Nat.max_r in * by done. rewrite Z.eqb_refl. cbn [negb]. rewrite window_filter by lia.
  destruct (window_cons (S i) (S n)) as (v' & Hv' & E'); [destruct Hs; lia|]. simplify_eq.
  assert (Hlast : last (drop (S n) (take (S i) ds)) = ds !! i).
  { rewrite last_lookup, length_drop, length_take, lookup_drop, Nat.min_l, lookup_take_lt by lia. f_equal. lia. }
  destruct (lookup_lt_is_Some_2 ds i) as [w Hw]; [destruct Hs; lia|].
  rewrite Hlast, Hw, E'. cbn [head hd_error fmap option_fmap option_map]. rewrite <- E'.
  rewrite (log_seqno _ _ _ _ (rh_chain _ _ _ Hrec) (rh_log _ _ _ Hrec) Hv), (log_seqno _ _ _ _ (rh_chain _ _ _ Hrec) (rh_log _ _ _ Hrec) Hw).
  rewrite !bool_decide_eq_true_2 by done. cbn [assert_ obind]. replace (Z.to_N (Z.of_nat i)) with (N.of_nat i) by lia.
  by rewrite (encode_rollup_ok x n i r id) by (done || lia).
Qed.

(** The versions in a rollup take the state of the rollup before to its own. *)
Lemma rollup_replay (n i : nat) x y : hist !! n = Some y -> hist !! i = Some x -> (n <= i)%nat ->
  ApplyDiff.apply_encoded_diffs build (drop (S n) (take (S i) ds)) y = Ret x.
Proof.
  intros Hy Hx Hn. pose proof (lookup_lt_Some _ _ _ Hx). destruct (decide (n = i)) as [->|].
  - rewrite drop_ge by (rewrite length_take; lia). by simplify_eq.
  - destruct (apply_window (S n) (S i) n y ltac:(lia) Hy) as (i' & x' & -> & Hx' & Hi'). case_decide; [|lia].
    assert (i' = i) as -> by lia. congruence.
Qed.

(** *** Reading the versions up to a number, page by page *)

(** The stores the pages are read from, while nothing is truncated. *)
Inductive pages_ok (k : nat) : nat -> list (Stores T Version) -> Prop :=
| pages_nil m : pages_ok k m []
| pages_cons m m' s ss : snap m' k s -> (m <= m')%nat -> pages_ok k m' ss -> pages_ok k m (s :: ss).

Lemma window_take e m len : (e <= m)%nat -> take len (drop e (take m ds)) = drop e (take (Nat.min m (e + len)) ds).
Proof. intros He. rewrite take_drop_commute, take_take. do 2 f_equal. lia. Qed.

Lemma window_app k e e' : (k <= e <= e')%nat -> (e <= length ds)%nat -> drop k (take e ds) ++ drop e (take e' ds) = drop k (take e' ds).
Proof.
  intros Hk Hlen. replace e' with (e + (e' - e))%nat by lia. rewrite <- take_take_drop, !drop_app, !length_take.
  rewrite (drop_ge (take e ds) e) by (rewrite length_take; lia). simpl. rewrite !Nat.min_l by lia.
  by replace (k - e)%nat with (e - e)%nat by lia.
Qed.

Lemma window_last k e : (k < e <= length ds)%nat -> exists v, last (drop k (take e ds)) = Some v /\ vd_seqno v = Z.of_nat (pred e).
Proof.
  intros He. destruct (lookup_lt_is_Some_2 ds (pred e)) as [v Hv]; [lia|]. exists v.
  rewrite (log_seqno _ _ _ _ (rh_chain _ _ _ Hrec) (rh_log _ _ _ Hrec) Hv). split; [|done].
  rewrite last_lookup, length_drop, length_take, Nat.min_l, lookup_drop, lookup_take_lt, <- Hv by lia. f_equal. lia.
Qed.

Lemma fetch_more_ok k m ss (thr e : nat) : pages_ok k m ss -> (k < e <= m)%nat -> (m <= length ds)%nat ->
  StateVersions.fetch_more scan_limit ss shard (Z.of_nat thr) (drop k (take e ds)) = None /\ (length ss <= S thr - e)%nat \/
  exists e', StateVersions.fetch_more scan_limit ss shard (Z.of_nat thr) (drop k (take e ds)) = Some (Ret (drop k (take e' ds))) /\
    (e <= e' <= length ds)%nat /\ ((thr < m)%nat -> (thr < e')%nat).
Proof.
  intros Hp. revert e. induction Hp as [m|m m' s ss Hs Hm Hp IH]; intros e He Hlen; [left; split; [done|simpl; lia]|].
  pose proof same_length as Hsame. pose proof (proj1 Hs) as Hm'.
  cbn [StateVersions.fetch_more]. destruct (window_last k e) as (v & -> & ->); [lia|].
  destruct (Z.leb_spec (Z.of_nat thr) (Z.of_nat (pred e))) as [|Hlt]; [right; exists e; split_and!; [done|lia|lia|lia]|].
  unfold SeqNo_next. replace (Z.of_nat (pred e) + 1) with (Z.of_nat e) by lia. set (limit := Z.min _ _).
  assert (Hl : 0 < limit) by (unfold limit; lia).
  rewrite (snap_scan m' k s e limit Hs) by lia. rewrite Nat.max_r, window_take by lia. set (e' := Nat.min _ _).
  assert (Hhead : match head (drop e (take e' ds)) with Some first => Z.of_nat (pred e) <? vd_seqno first | None => true end = true).
  { destruct (head _) as [w|] eqn:Ew; [|done]. apply head_Some in Ew as [l Ew].
    assert (Hw : w ∈ drop e (take e' ds)) by (rewrite Ew; by left). apply window_seqnos in Hw. apply Z.ltb_lt. lia. }
  rewrite Hhead, length_drop, length_take, window_app by lia.
  destruct (Z.ltb_spec (Z.of_nat (Nat.min e' (length ds) - e)) limit).
  - right. exists e'. split_and!; [done|lia|lia|]. lia.
  - destruct (IH e') as [[-> Hn]|(e2 & -> & He2 & Hthr)]; [lia|lia|left; split; [done|simpl; lia]|].
    right. exists e2. split_and!; [done|lia|lia|]. intros. apply Hthr. lia.
Qed.

(** The versions up to [through] are all there, in order, and no others,
    when that version has been written and none is truncated meanwhile; one
    page for each of them is enough. *)
Lemma fetch_through_ok k m s ss (thr : nat) : snap m k s -> pages_ok k m ss -> (k <= thr < m)%nat -> (thr < length ss)%nat ->
  StateVersions.fetch_live_diffs_through scan_limit s ss shard (Z.of_nat thr) = Some (Ret (drop k (take (S thr) ds))).
Proof.
  intros Hs Hp Hthr Hss. pose proof same_length as Hsame. pose proof (proj1 Hs) as Hm.
  destruct (snap_current _ _ _ Hs) as (_ & n & _ & _ & _ & _ & Hk & _).
  assert (Hcut : forall e, (thr < e)%nat ->
    take (MemConsensus.partition_point (fun v => vd_seqno v <=? Z.of_nat thr) (drop k (take e ds))) (drop k (take e ds)) = drop k (take (S thr) ds)).
  { intros e He. rewrite <- (window_app k (S thr) e) by lia. apply partition_point_app; apply Forall_forall; intros v Hv%window_seqnos.
    - apply Z.leb_le. lia.
    - apply Z.leb_gt. lia. }
  unfold StateVersions.fetch_live_diffs_through. change 0 with (Z.of_nat 0). rewrite (snap_scan m k s 0 scan_limit Hs) by lia.
  rewrite Nat.max_0_r, window_take by lia. set (e := Nat.min _ _).
  destruct (Z.eqb_spec (Z.of_nat (length (drop k (take e ds)))) scan_limit) as [Heq|Hne].
  - destruct (fetch_more_ok k m ss thr e Hp) as [[_ Hn]|(e' & -> & He' & Ht)]; [lia|lia|lia|]. rewrite Hcut by lia. done.
  - rewrite length_drop, length_take in Hne. rewrite Hcut; [done|lia].
Qed.
End fetching.
