(* ===== verification/Gc.v ===== *)
(** * Garbage collection (src/src/persist-client/src/internal/gc.rs, batch.rs)

    Blobs that no live state refers to are deleted, then the log is truncated,
    one rollup at a time, and at the end the old rollups are removed from the
    state.  This file has [PartDeletes] of batch.rs, which follows runs to the
    parts they list, and [GarbageCollector].  Deletions that the code makes
    concurrently are made in the order of their keys, and the worker that
    merges requests and spawns tasks is left out, but for how it merges them.
    The theorems are in [GcFacts]. *)

From S2P Require Import Prelude Compare Timely BTree Schema Paths Consensus Batch Order Blob Diff Spine Trace FlatTrace State StateDiff Machine Versions.

Local Open Scope Z_scope.

(** A [BTreeSet]. *)
Definition set_insert (k : str) (s : BTreeMap str unit) : BTreeMap str unit * bool :=
  (BTree.insert k tt s, negb (BTree.contains k s)).

(** ** Parts to delete *)

Record PartDeletes := {
  pd_blob_keys : BTreeMap str unit;
  pd_hollow_runs : BTreeMap str HollowRunRef;
}.

Module HollowRunRef.
Section ops.
Context {T : Type} `{Timely T} {Version : Type} `{UuidCodec} `{!Blob (Object T Version)}.

(** [HollowRunRef::get]: anything but a run does not decode. *)
Definition get (r : HollowRunRef) (shard_id : ShardId) (blob : bl_store) : outcome (option (list (RunPart T))) :=
  match bl_get blob (complete_key (hrr_key r) shard_id) with
  | None => Ret None
  | Some (ObjRun parts) => Ret (Some parts)
  | Some _ => Panic
  end.
End ops.
End HollowRunRef.

Module PartDeletes.
Section ops.
Context {T : Type} `{Timely T}.

Definition default : PartDeletes := {| pd_blob_keys := []; pd_hollow_runs := [] |}.

(** Whether the part was newly inserted. *)
Definition add (d : PartDeletes) (part : RunPart T) : PartDeletes * bool :=
  match part with
  | Many r =>
      ({| pd_blob_keys := pd_blob_keys d; pd_hollow_runs := BTree.insert (hrr_key r) r (pd_hollow_runs d) |},
       negb (BTree.contains (hrr_key r) (pd_hollow_runs d)))
  | Single (Hollow x) =>
      let '(keys, new) := set_insert (hbp_key x) (pd_blob_keys d) in
      ({| pd_blob_keys := keys; pd_hollow_runs := pd_hollow_runs d |}, new)
  | Single (Inline _ _ _ _) => (d, true)
  end.

Definition contains (d : PartDeletes) (part : RunPart T) : bool :=
  match part with
  | Many r => BTree.contains (hrr_key r) (pd_hollow_runs d)
  | Single (Hollow x) => BTree.contains (hbp_key x) (pd_blob_keys d)
  | Single (Inline _ _ _ _) => false
  end.

Definition len (d : PartDeletes) : Z := Z.of_nat (length (pd_blob_keys d)) + Z.of_nat (length (pd_hollow_runs d)).
Definition is_empty (d : PartDeletes) : bool := len d =? 0.
End ops.

Section deleting.
Context {T : Type} `{Timely T} {Version : Type} `{UuidCodec} `{!Blob (Object T Version)} (shard_id : ShardId).

Definition delete_key (blob : bl_store) (key : str) : bl_store := (bl_delete blob (complete_key key shard_id)).1.

(** The store and, for what interruptions leave behind, the keys deleted so
    far. *)
Abbreviation Deleting := (bl_store * list str)%type.

Definition delete_keys (st : Deleting) (keys : list str) : Deleting := (foldl delete_key st.1 keys, st.2 ++ keys).

(** The loop of [delete]; [fuel] bounds its turns, and [None] says that they
    were not enough. *)
Fixpoint delete_loop (fuel : nat) (st : Deleting) (d : PartDeletes) (run_keys : list str) :
    option (outcome (Deleting * list str)) :=
  let st := delete_keys st (BTree.keys (pd_blob_keys d)) in
  match pd_hollow_runs d with
  | [] => Some (Ret (st, run_keys))
  | (run_key, run_ref) :: hollow_runs =>
      let d := {| pd_blob_keys := []; pd_hollow_runs := hollow_runs |} in
      match fuel with
      | O => None
      | S fuel =>
          match HollowRunRef.get (T := T) (Version := Version) run_ref shard_id st.1 with
          | Panic => Some Panic
          | Ret (Some parts) => delete_loop fuel st (foldl (fun d part => (add d part).1) d parts) (run_keys ++ [run_key])
          | Ret None => delete_loop fuel st d run_keys
          end
      end
  end.

(** The runs go last, in the reverse of the order they were read in. *)
Definition delete (fuel : nat) (blob : bl_store) (d : PartDeletes) : option (outcome Deleting) :=
  match delete_loop fuel (blob, []) d [] with
  | None => None
  | Some r => Some (let! (st, run_keys) := r in Ret (delete_keys st (rev run_keys)))
  end.
End deleting.
End PartDeletes.

(** ** The collector *)

Record GcResults := {
  gr_batch_parts_deleted_from_blob : Z;
  gr_rollups_deleted_from_blob : Z;
  gr_truncated_consensus_to : list SeqNo;
}.

(** [GcResults::default]; what the command removes from the state is not
    known before it is run. *)
Definition GcResults_default : GcResults :=
  {| gr_batch_parts_deleted_from_blob := 0; gr_rollups_deleted_from_blob := 0; gr_truncated_consensus_to := [] |}.

Record GcRollups := {
  gc_rollups_lte_seqno_since : list (SeqNo * str);
  gc_rollup_seqnos : list SeqNo;
}.

Module GcRollups.
Definition new (rollups_lte_seqno_since : list (SeqNo * str)) (req : State.GcReq) : outcome GcRollups :=
  let! _ := assert_ (forallb (fun r : SeqNo * str => r.1 <=? State.gc_new_seqno_since req) rollups_lte_seqno_since) in
  Ret {| gc_rollups_lte_seqno_since := rollups_lte_seqno_since; gc_rollup_seqnos := fst <$> rollups_lte_seqno_since |}.

(** [binary_search_by_key] on ascending keys. *)
Definition get (g : GcRollups) (seqno : SeqNo) : option str :=
  snd <$> find (fun r : SeqNo * str => r.1 =? seqno) (gc_rollups_lte_seqno_since g).

Definition contains_seqno (g : GcRollups) (seqno : SeqNo) : bool := bool_decide (seqno ∈ gc_rollup_seqnos g).

Definition truncate_seqnos (g : GcRollups) : list SeqNo := fst <$> gc_rollups_lte_seqno_since g.

(** [split_last] *)
Definition rollups_to_remove_from_state (g : GcRollups) : list (SeqNo * str) := removelast (gc_rollups_lte_seqno_since g).
End GcRollups.

Module GarbageCollector.
Section ops.
Context {T : Type} `{TimelyOrd T} {Version : Type} `{!SemVer Version} `{UuidCodec}.
Context `{!Consensus (StateDiff T Version)} `{!Blob (Object T Version)}.
(** The codecs, the version of the code, the page size and the bound on the
    turns of [PartDeletes::delete]. *)
Context (codecs : Codecs) (build_version : Version) (scan_limit : Z) (fuel : nat).
Implicit Types (s : Stores T Version) (it : StateVersionsIter T Version) (x : State T Version).

(** Requests that have built up are merged. *)
Definition merge_reqs (req : State.GcReq) (more : list State.GcReq) : outcome State.GcReq :=
  foldM (fun acc r =>
    let! _ := assert_ (bool_decide (State.gc_shard_id r = State.gc_shard_id acc)) in
    Ret {| State.gc_shard_id := State.gc_shard_id acc;
           State.gc_new_seqno_since := Z.max (State.gc_new_seqno_since r) (State.gc_new_seqno_since acc) |}) more req.

(** [Applier::rollups_lte_seqno] *)
Definition rollups_lte_seqno x (seqno : SeqNo) : list (SeqNo * str) :=
  (fun r => (r.1, rollup_key r.2)) <$> filter (fun r => r.1 <= seqno) (sc_rollups (st_collections x)).

Definition add_rollup_delete (rollups : BTreeMap str unit) (rollup : HollowRollup) : outcome (BTreeMap str unit) :=
  let '(rollups, new) := set_insert (rollup_key rollup) rollups in
  let! _ := assert_ new in Ret rollups.

Definition add_part_delete (parts : PartDeletes) (part : RunPart T) : outcome PartDeletes :=
  let '(parts, new) := PartDeletes.add parts part in
  let! _ := assert_ new in Ret parts.

(** The callback of [find_removable_blobs]. *)
Definition inspect_removable (d : InspectDiff T Version) (parts : PartDeletes) (rollups : BTreeMap str unit) :
    outcome (PartDeletes * BTreeMap str unit) :=
  match d with
  | FromInitial _ => Ret (parts, rollups)
  | InspectChange diff =>
      let! rollups := foldM add_rollup_delete (StateDiff.rollup_deletes diff) rollups in
      let! parts := foldM add_part_delete (StateDiff.part_deletes diff) parts in
      Ret (parts, rollups)
  end.

(** The loop; there is a turn for each version that is left. *)
Fixpoint find_loop (turns : nat) it (truncate_lt : SeqNo) (parts : PartDeletes) (rollups : BTreeMap str unit) :
    outcome (StateVersionsIter T Version * PartDeletes * BTreeMap str unit) :=
  match turns with
  | O => Ret (it, parts, rollups)
  | S turns =>
      let! next := StateVersionsIter.next build_version it in
      match next with
      | None => Ret (it, parts, rollups)
      | Some (diff, it) =>
          let! (parts, rollups) := inspect_removable diff parts rollups in
          if st_seqno (it_state it) =? truncate_lt then Ret (it, parts, rollups)
          else find_loop turns it truncate_lt parts rollups
      end
  end.

Definition find_removable_blobs it (truncate_lt : SeqNo) (parts : PartDeletes) (rollups : BTreeMap str unit) :
    outcome (StateVersionsIter T Version * PartDeletes * BTreeMap str unit) :=
  let! _ := assert_ (st_seqno (it_state it) <? truncate_lt) in
  find_loop (length (it_diffs it)) it truncate_lt parts rollups.

(** [None]: a deletion is still going on, or a truncation is refused. *)
Definition delete_and_truncate s (shard_id : ShardId) (truncate_lt : SeqNo) (batch_parts : PartDeletes)
    (rollups : BTreeMap str unit) : option (outcome (Stores T Version)) :=
  match PartDeletes.delete (T := T) (Version := Version) shard_id fuel (vs_blob s) batch_parts with
  | None => None
  | Some Panic => Some Panic
  | Some (Ret (blob, _)) =>
      let blob := foldl (fun blob key => (bl_delete blob (complete_key key shard_id)).1) blob (BTree.keys rollups) in
      Ret <$> StateVersions.truncate_diffs (StateVersions.with_blob s blob) shard_id truncate_lt
  end.

(** The checks on the blobs of the state at the truncation point. *)
Definition check_live (shard_id : ShardId) (truncate_lt : SeqNo) (parts : PartDeletes) (rollups : BTreeMap str unit)
    (blob : State.HollowBlobRef (T := T)) : outcome unit :=
  match blob with
  | State.BlobBatch batch => assert_ (forallb (fun part => negb (PartDeletes.contains parts part)) (hb_parts batch))
  | State.BlobRollup live_rollup =>
      let! _ := assert_ (negb (BTree.contains (rollup_key live_rollup) rollups)) in
      let! ids := parse_ids (complete_key (rollup_key live_rollup) shard_id) in
      match ids with
      | Some (_, PBKRollup rollup_seqno _) => assert_ (Z.of_N rollup_seqno <? truncate_lt)
      | _ => Panic
      end
  end.

(** One turn of [incrementally_delete_and_truncate], up to the deletions. *)
Definition plan_truncation (g : GcRollups) it (truncate_lt : SeqNo) :
    outcome (option (StateVersionsIter T Version * PartDeletes * BTreeMap str unit)) :=
  if truncate_lt <=? st_seqno (it_state it) then Ret None
  else
    let! _ := assert_ (GcRollups.contains_seqno g (st_seqno (it_state it))) in
    let! (it, parts, rollups) := find_removable_blobs it truncate_lt PartDeletes.default [] in
    let! _ := assert_ (st_seqno (it_state it) =? truncate_lt) in
    let! _ := assert_ (GcRollups.contains_seqno g (st_seqno (it_state it))) in
    let! _ := foldM (fun _ => check_live (st_shard_id (it_state it)) truncate_lt parts rollups) (State.blobs (it_state it)) tt in
    Ret (Some (it, parts, rollups)).

Fixpoint incrementally_delete_and_truncate (seqnos : list SeqNo) (g : GcRollups) it s (results : GcResults) :
    option (outcome (StateVersionsIter T Version * Stores T Version * GcResults)) :=
  match seqnos with
  | [] => Some (Ret (it, s, results))
  | truncate_lt :: seqnos =>
      match plan_truncation g it truncate_lt with
      | Panic => Some Panic
      | Ret None => incrementally_delete_and_truncate seqnos g it s results
      | Ret (Some (it, parts, rollups)) =>
          let results := {|
            gr_batch_parts_deleted_from_blob := gr_batch_parts_deleted_from_blob results + PartDeletes.len parts;
            gr_rollups_deleted_from_blob := gr_rollups_deleted_from_blob results + Z.of_nat (length rollups);
            gr_truncated_consensus_to := gr_truncated_consensus_to results ++ [truncate_lt] |} in
          match delete_and_truncate s (st_shard_id (it_state it)) truncate_lt parts rollups with
          | None => None
          | Some Panic => Some Panic
          | Some (Ret s) => incrementally_delete_and_truncate seqnos g it s results
          end
      end
  end.

(** The states to go through: with [use_active_gc] only the versions up to
    the new since are read, and [Ret None] says that another collector is at
    work. *)
Definition active_states (g : GcRollups) (req : State.GcReq) s (pages : list (Stores T Version)) (s' : Stores T Version) :
    option (outcome (option (StateVersionsIter T Version))) :=
  match StateVersions.fetch_live_diffs_through scan_limit s pages (State.gc_shard_id req) (State.gc_new_seqno_since req) with
  | None => None
  | Some fetched => Some (
      let! diffs := fetched in
      let! first := expect (head diffs) in
      match GcRollups.get g (vd_seqno first) with
      | None => Ret None
      | Some initial_rollup =>
          let! state := StateVersions.fetch_rollup_at_key build_version s' (State.gc_shard_id req) initial_rollup in
          match state with
          | None => Ret None
          | Some u =>
              let! checked := UntypedState.check_ts_codec codecs u (State.gc_shard_id req) in
              match checked with
              | Err _ => Panic
              | Ok x => let! it := StateVersionsIter.new x diffs in Ret (Some it)
              end
          end
      end)
  end.

Definition all_states (req : State.GcReq) s (views : list (StateVersions.LiveView (T := T) (Version := Version))) :
    option (outcome (option (StateVersionsIter T Version))) :=
  match StateVersions.fetch_all_live_states codecs build_version scan_limit s views (State.gc_shard_id req) with
  | None => None
  | Some fetched => Some (
      let! o := fetched in
      let! (u, diffs) := expect o in
      let! checked := UntypedState.check_ts_codec codecs u (State.gc_shard_id req) in
      match checked with
      | Err _ => Panic
      | Ok x => let! it := StateVersionsIter.new x diffs in Ret (Some it)
      end)
  end.

(** [gc_and_truncate]: [x] is the state the process knows and [updated] what
    it knows when it had to fetch; [fetch g] reads the states to go through,
    and [s] is what the deletions find.  The result has the rollups to ask the
    state to remove, unless another collector was found.  What the code does
    after that command is for metrics and a logged check. *)
Definition gc_and_truncate (shard_id : ShardId) (req : State.GcReq) x (updated : State T Version)
    (fetch : GcRollups -> option (outcome (option (StateVersionsIter T Version)))) s :
    option (outcome (Stores T Version * GcResults * option (list (SeqNo * str)))) :=
  let checked :=
    let! _ := assert_ (bool_decide (State.gc_shard_id req = shard_id)) in
    let! x := (if State.seqno_since x <? State.gc_new_seqno_since req then
                 let! _ := assert_ (State.gc_new_seqno_since req <=? State.seqno_since updated) in Ret updated
               else Ret x) in
    GcRollups.new (rollups_lte_seqno x (State.gc_new_seqno_since req)) req in
  match checked with
  | Panic => Some Panic
  | Ret g =>
      match GcRollups.rollups_to_remove_from_state g with
      | [] => Some (Ret (s, GcResults_default, Some []))
      | remove =>
          match fetch g with
          | None => None
          | Some Panic => Some Panic
          | Some (Ret None) => Some (Ret (s, GcResults_default, None))
          | Some (Ret (Some it)) =>
              if negb (bool_decide (st_shard_id (it_state it) = shard_id)) then Some Panic
              else match incrementally_delete_and_truncate (GcRollups.truncate_seqnos g) g it s GcResults_default with
                   | None => None
                   | Some r => Some (let! (_, s, results) := r in Ret (s, results, Some remove))
                   end
          end
      end
  end.
End ops.
End GarbageCollector.
