(* ===== verification/DeleteFacts.v ===== *)
(** * Deleting parts and the runs that list them

    [PartDeletes::delete] deletes all that is reachable from the parts it is
    given, through any nesting of runs, and nothing else; and whenever it is
    interrupted, doing it again deletes the rest. *)

From S2P Require Import Prelude Compare Timely BTree Schema Paths Consensus Batch Order Blob Diff Spine Trace State StateDiff Versions Tombstone DiffChain PartKeys Gc.

Local Open Scope Z_scope.

Lemma elem_of_rev {A} (x : A) l : x ∈ rev l <-> x ∈ l.
Proof. by rewrite !list_elem_of_In, <- in_rev. Qed.

Section deletes.
Context {T : Type} `{Timely T} {Version : Type} `{UuidCodec} `{B : !Blob (Object T Version)} `{BL : !BlobLaws (Object T Version)}.
Context (shard : ShardId).
Implicit Types (blob : bl_store) (d : PartDeletes) (q : RunPart T) (k : str) (parts : list (RunPart T)).

Abbreviation delete_key := (PartDeletes.delete_key (T := T) (Version := Version) shard).
Abbreviation delete_loop := (PartDeletes.delete_loop (T := T) (Version := Version) shard).

Lemma complete_key_inj k k' : complete_key k shard = complete_key k' shard -> k = k'.
Proof. unfold complete_key. intros E. by simplify_list_eq. Qed.

Definition at_key blob k : option (Object T Version) := bl_get blob (complete_key k shard).

(** What a run lists. *)
Definition run_at blob k : option (list (RunPart T)) :=
  match at_key blob k with Some (ObjRun parts) => Some parts | _ => None end.

(** ** What deleting does to the store *)

Lemma delete_keys_ok ks blob : bl_ok blob -> bl_ok (foldl delete_key blob ks).
Proof. revert blob. induction ks as [|k ks IH]; intros blob Hb; [done|]. apply IH. by apply bl_delete_ok. Qed.

Lemma get_deleted ks blob k : bl_ok blob ->
  at_key (foldl delete_key blob ks) k = if decide (k ∈ ks) then None else at_key blob k.
Proof.
  revert blob. induction ks as [|k' ks IH]; intros blob Hb; [by rewrite decide_False by apply not_elem_of_nil|].
  simpl. rewrite IH by by apply bl_delete_ok. unfold at_key at 1. unfold PartDeletes.delete_key. rewrite bl_get_delete by done.
  destruct (decide (k ∈ ks)) as [Hin|Hin]; [by rewrite decide_True by (by apply elem_of_cons; right)|].
  destruct (decide (k = k')) as [->|Hne].
  - rewrite decide_True by done. by rewrite decide_True by (by apply elem_of_cons; left).
  - rewrite decide_False by (by intros ?%complete_key_inj). rewrite decide_False; [done|]. by intros [?|?]%elem_of_cons.
Qed.

Lemma get_deleted_at ks blob key : bl_ok blob ->
  bl_get (foldl delete_key blob ks) key = if decide (key ∈ (fun k => complete_key k shard) <$> ks) then None else bl_get blob key.
Proof.
  intros Hb. destruct (decide _) as [(k & -> & Hk)%list_elem_of_fmap|Hno].
  - change (at_key (foldl delete_key blob ks) k = None). rewrite get_deleted by done. by rewrite decide_True.
  - revert blob Hb. induction ks as [|k' ks IH]; intros blob Hb; [done|]. simpl. rewrite fmap_cons, not_elem_of_cons in Hno. destruct Hno as [Hne Hno].
    rewrite IH by (done || by apply bl_delete_ok). unfold PartDeletes.delete_key. rewrite bl_get_delete by done. by rewrite decide_False.
Qed.

(** ** What is reachable *)

Section reach.
Context (blob0 : bl_store) (parts0 : list (RunPart T)).

(** The parts below the given ones. *)
Inductive under : RunPart T -> Prop :=
| under_root q : q ∈ parts0 -> under q
| under_child r parts q : under (Many r) -> run_at blob0 (hrr_key r) = Some parts -> q ∈ parts -> under q.

Definition reached k : Prop := exists q, under q /\ part_key q = Some k.

(** What makes the parts below deletable: the keys of runs hold runs, and are
    not keys of parts; the runs nest finitely, with [W k] bounding the runs
    to be read for [k]. *)
Record forest (W : str -> nat) : Prop := {
  fo_runs : forall r o, under (Many r) -> at_key blob0 (hrr_key r) = Some o -> exists parts, o = ObjRun parts;
  fo_apart : forall x r, under (Single (Hollow x)) -> under (Many r) -> hbp_key x <> hrr_key r;
  fo_pos : forall k, (0 < W k)%nat;
  fo_finite : forall r parts, under (Many r) -> run_at blob0 (hrr_key r) = Some parts ->
    (sum_list (W <$> omap (fun q => match q with Many r' => Some (hrr_key r') | _ => None end) parts) < W (hrr_key r))%nat;
}.

(** *** The loop *)

Definition run_keys_of d : list str := BTree.keys (pd_hollow_runs d).
Definition leaf_keys_of d : list str := BTree.keys (pd_blob_keys d).

(** [ls] have been deleted and the runs [rk] read. *)
Definition settled d (ls rk : list str) q : Prop :=
  match q with
  | Single (Hollow x) => hbp_key x ∈ ls \/ hbp_key x ∈ leaf_keys_of d
  | Single (Inline _ _ _ _) => True
  | Many r => hrr_key r ∈ rk \/ run_at blob0 (hrr_key r) = None \/ hrr_key r ∈ run_keys_of d
  end.

Record sweep d (ls rk : list str) : Prop := {
  sw_sorted : BTree.sorted (pd_hollow_runs d);
  sw_refs : forall k r, (k, r) ∈ pd_hollow_runs d -> hrr_key r = k /\ under (Many r);
  sw_leaves : forall k, k ∈ ls ++ leaf_keys_of d -> exists x, under (Single (Hollow x)) /\ hbp_key x = k;
  sw_runs : forall k, k ∈ rk -> (exists r, under (Many r) /\ hrr_key r = k) /\ is_Some (run_at blob0 k);
  sw_roots : forall q, q ∈ parts0 -> settled d ls rk q;
  sw_listed : forall k parts q, k ∈ rk -> run_at blob0 k = Some parts -> q ∈ parts -> settled d ls rk q;
  sw_order : forall a k b parts r, rk = a ++ k :: b -> run_at blob0 k = Some parts -> Many r ∈ parts ->
    run_at blob0 (hrr_key r) = None \/ hrr_key r ∈ b \/ hrr_key r ∈ run_keys_of d;
}.

(** *** Adding parts *)

Abbreviation add_all := (foldl (fun d (q : RunPart T) => (PartDeletes.add d q).1)).

Lemma add_runs d q k : k ∈ run_keys_of (PartDeletes.add d q).1 <-> k ∈ run_keys_of d \/ exists r, q = Many r /\ hrr_key r = k.
Proof.
  unfold run_keys_of. destruct q as [[x|]|r]; simpl; [split; [by left|by intros [|(? & ? & _)]]..|].
  rewrite BTree.keys_insert. split; [intros [->|?]; [right; by exists r|by left]|]. intros [?|(? & [= <-] & <-)]; tauto.
Qed.

Lemma add_leaves d q k : k ∈ leaf_keys_of (PartDeletes.add d q).1 <-> k ∈ leaf_keys_of d \/ exists x, q = Single (Hollow x) /\ hbp_key x = k.
Proof.
  unfold leaf_keys_of. destruct q as [[x|]|r]; simpl; [|split; [by left|by intros [|(? & ? & _)]]..].
  rewrite BTree.keys_insert. split; [intros [->|?]; [right; by exists x|by left]|]. intros [?|(? & [= <-] & <-)]; tauto.
Qed.

Lemma add_entries d q k r : (k, r) ∈ pd_hollow_runs (PartDeletes.add d q).1 -> (k, r) ∈ pd_hollow_runs d \/ q = Many r /\ k = hrr_key r.
Proof.
  destruct q as [[x|]|r']; simpl; [by left..|]. intros [[= -> ->]|Hin]%BTree.elem_of_insert; [by right|by left].
Qed.

Lemma add_sorted d q : BTree.sorted (pd_hollow_runs d) -> BTree.sorted (pd_hollow_runs (PartDeletes.add d q).1).
Proof. destruct q as [[x|]|r]; simpl; [done..|]. apply BTree.sorted_insert. Qed.

Lemma adds_runs d parts k : k ∈ run_keys_of (add_all d parts) <-> k ∈ run_keys_of d \/ exists r, Many r ∈ parts /\ hrr_key r = k.
Proof.
  revert d. induction parts as [|q parts IH]; intros d; simpl.
  { split; [by left|]. by intros [|(r & ?%not_elem_of_nil & _)]. }
  rewrite IH, add_runs. split.
  - intros [[?|(r & -> & ?)]|(r & ? & ?)]; [by left|right; exists r; split; [by left|done]|right; exists r; split; [by right|done]].
  - intros [?|(r & [<-|?]%elem_of_cons & ?)]; [by left; left|left; right; by exists r|right; by exists r].
Qed.

Lemma adds_leaves d parts k : k ∈ leaf_keys_of (add_all d parts) <-> k ∈ leaf_keys_of d \/ exists x, Single (Hollow x) ∈ parts /\ hbp_key x = k.
Proof.
  revert d. induction parts as [|q parts IH]; intros d; simpl.
  { split; [by left|]. by intros [|(r & ?%not_elem_of_nil & _)]. }
  rewrite IH, add_leaves. split.
  - intros [[?|(x & -> & ?)]|(x & ? & ?)]; [by left|right; exists x; split; [by left|done]|right; exists x; split; [by right|done]].
  - intros [?|(x & [<-|?]%elem_of_cons & ?)]; [by left; left|left; right; by exists x|right; by exists x].
Qed.

Lemma adds_entries d parts k r : (k, r) ∈ pd_hollow_runs (add_all d parts) -> (k, r) ∈ pd_hollow_runs d \/ Many r ∈ parts /\ k = hrr_key r.
Proof.
  revert d. induction parts as [|q parts IH]; intros d; simpl; [by left|].
  intros [Hin|[? ?]]%IH; [|right; split; [by right|done]]. apply add_entries in Hin as [?|[-> ?]]; [by left|]. right. split; [by left|done].
Qed.

Lemma adds_sorted d parts : BTree.sorted (pd_hollow_runs d) -> BTree.sorted (pd_hollow_runs (add_all d parts)).
Proof. revert d. induction parts as [|q parts IH]; intros d Hd; simpl; [done|]. by apply IH, add_sorted. Qed.

Lemma settled_adds d parts ls rk q : q ∈ parts -> settled (add_all d parts) ls rk q.
Proof.
  intros Hq. destruct q as [[x|]|r]; simpl; [|done|].
  - right. apply adds_leaves. right. by exists x.
  - right. right. apply adds_runs. right. by exists r.
Qed.

(** The work that is left. *)
Definition weight (W : str -> nat) d : nat := sum_list (W <$> run_keys_of d).

Lemma weight_insert W (m : BTreeMap str HollowRunRef) k r :
  (sum_list (W <$> BTree.keys (BTree.insert k r m)) <= W k + sum_list (W <$> BTree.keys m))%nat.
Proof.
  unfold BTree.keys. induction m as [|[j w] m IH]; simpl; [lia|]. destruct (str_ltb k j); simpl; [lia|].
  destruct (str_ltb j k); simpl in *; unfold fmap in *; lia.
Qed.

Lemma weight_adds W d parts :
  (weight W (add_all d parts) <= weight W d + sum_list (W <$> omap (fun q => match q with Many r' => Some (hrr_key r') | _ => None end) parts))%nat.
Proof.
  revert d. induction parts as [|q parts IH]; intros d; simpl; [lia|]. specialize (IH (PartDeletes.add d q).1).
  destruct q as [[x|]|r]; simpl in *; try exact IH. pose proof (weight_insert W (pd_hollow_runs d) (hrr_key r) r).
  unfold weight, run_keys_of, fmap, omap in *. simpl in *. lia.
Qed.

Lemma sweep_start : sweep (add_all PartDeletes.default parts0) [] [].
Proof.
  split.
  - by apply adds_sorted.
  - intros k r [Hin|[Hin ->]]%adds_entries; [by apply not_elem_of_nil in Hin|]. split; [done|by constructor].
  - intros k [Hin|(x & Hx & <-)]%adds_leaves; [by apply not_elem_of_nil in Hin|]. exists x. split; [by constructor|done].
  - by intros k ?%not_elem_of_nil.
  - intros q Hq. by apply settled_adds.
  - by intros k parts q ?%not_elem_of_nil.
  - by intros [] k b parts r.
Qed.
(** One turn of the loop. *)
Lemma settled_later d ls rk d' rk' q : settled d ls rk q -> (forall k, k ∈ rk -> k ∈ rk') ->
  (forall k, k ∈ run_keys_of d -> k ∈ rk' \/ run_at blob0 k = None \/ k ∈ run_keys_of d') ->
  settled d' (ls ++ leaf_keys_of d) rk' q.
Proof.
  intros Hq Hrk Hrun. destruct q as [[x|]|r]; simpl in *; [|done|].
  - left. apply elem_of_app. tauto.
  - destruct Hq as [Hq|[Hq|Hq]]; [left; by apply Hrk|right; by left|by apply Hrun].
Qed.

Lemma sweep_skip k r rest bk ls rk : run_at blob0 k = None ->
  sweep {| pd_blob_keys := bk; pd_hollow_runs := (k, r) :: rest |} ls rk ->
  sweep {| pd_blob_keys := []; pd_hollow_runs := rest |} (ls ++ BTree.keys bk) rk.
Proof.
  intros Hn [Hs Hrefs Hls Hrk Hro Hli Hord]. destruct Hs as [_ Hs].
  assert (Hrun : forall j, j ∈ run_keys_of {| pd_blob_keys := bk; pd_hollow_runs := (k, r) :: rest |} ->
    j ∈ rk \/ run_at blob0 j = None \/ j ∈ run_keys_of {| pd_blob_keys := []; pd_hollow_runs := rest |}).
  { intros j [->|Hj]%elem_of_cons; [right; by left|right; by right]. }
  split.
  - done.
  - intros j r' Hin. apply Hrefs. by right.
  - intros j [Hj|Hj]%elem_of_app; [by apply Hls|by apply not_elem_of_nil in Hj].
  - done.
  - intros q Hq. by apply (settled_later _ _ _ _ _ _ (Hro q Hq)).
  - intros j parts q Hj Hp Hq. by apply (settled_later _ _ _ _ _ _ (Hli j parts q Hj Hp Hq)).
  - intros a j b parts r' E Hp Hr'. destruct (Hord a j b parts r' E Hp Hr') as [?|[?|Hin]]; [by left|right; by left|].
    apply elem_of_cons in Hin as [->|Hin]; [by left|right; by right].
Qed.

Lemma sweep_read k r rest bk ls rk parts : run_at blob0 k = Some parts ->
  sweep {| pd_blob_keys := bk; pd_hollow_runs := (k, r) :: rest |} ls rk ->
  sweep (add_all {| pd_blob_keys := []; pd_hollow_runs := rest |} parts) (ls ++ BTree.keys bk) (rk ++ [k]).
Proof.
  intros Hp [Hs Hrefs Hls Hrk Hro Hli Hord]. destruct Hs as [_ Hs]. set (d' := add_all _ _).
  destruct (Hrefs k r) as [Hkr Hur]; [by left|].
  assert (Hup : forall q, q ∈ parts -> under q) by (intros q Hq; apply (under_child r parts); [done|by rewrite Hkr|done]).
  assert (Hrest : forall j, j ∈ BTree.keys rest -> j ∈ run_keys_of d') by (intros j Hj; apply adds_runs; by left).
  assert (Hrun : forall j, j ∈ run_keys_of {| pd_blob_keys := bk; pd_hollow_runs := (k, r) :: rest |} ->
    j ∈ rk ++ [k] \/ run_at blob0 j = None \/ j ∈ run_keys_of d').
  { intros j [->|Hj]%elem_of_cons; [left; apply elem_of_app; right; by apply list_elem_of_singleton|right; right; by apply Hrest]. }
  assert (Hrk' : forall j, j ∈ rk -> j ∈ rk ++ [k]) by (intros; apply elem_of_app; by left).
  split.
  - by apply adds_sorted.
  - intros j r' [Hin|[Hin ->]]%adds_entries; [apply Hrefs; by right|]. split; [done|by apply Hup].
  - intros j [Hj|Hj]%elem_of_app; [by apply Hls|]. apply adds_leaves in Hj as [Hj|(x & Hx & <-)]; [by apply not_elem_of_nil in Hj|].
    exists x. split; [by apply Hup|done].
  - intros j [Hj|Hj]%elem_of_app; [by apply Hrk|]. apply list_elem_of_singleton in Hj as ->. split; [by exists r|by eexists].
  - intros q Hq. by apply (settled_later _ _ _ _ _ _ (Hro q Hq)).
  - intros j ps q [Hj|Hj]%elem_of_app Hps Hq; [by apply (settled_later _ _ _ _ _ _ (Hli j ps q Hj Hps Hq))|].
    apply list_elem_of_singleton in Hj as ->. rewrite Hp in Hps. injection Hps as <-. by apply settled_adds.
  - intros a j b ps r' E Hps Hr'. destruct b as [|b0 b _] using rev_ind.
    + apply app_inj_tail in E as [_ <-]. rewrite Hp in Hps. injection Hps as <-. right. right. apply adds_runs. right. by exists r'.
    + rewrite app_comm_cons, app_assoc in E. apply app_inj_tail in E as [E <-].
      destruct (Hord a j b ps r' E Hps Hr') as [?|[?|Hin]]; [by left|right; left; apply elem_of_app; by left|].
      apply elem_of_cons in Hin as [->|Hin]; right; [left; apply elem_of_app; right; by apply list_elem_of_singleton|right; by apply Hrest].
Qed.

(** What is left when the loop ends. *)
Record swept (ls rk : list str) : Prop := {
  sp_leaves : forall k, k ∈ ls -> exists x, under (Single (Hollow x)) /\ hbp_key x = k;
  sp_runs : forall k, k ∈ rk -> (exists r, under (Many r) /\ hrr_key r = k) /\ is_Some (run_at blob0 k);
  sp_hollow : forall x, under (Single (Hollow x)) -> hbp_key x ∈ ls;
  sp_many : forall r, under (Many r) -> hrr_key r ∈ rk \/ run_at blob0 (hrr_key r) = None;
  sp_order : forall a k b parts r, rk = a ++ k :: b -> run_at blob0 k = Some parts -> Many r ∈ parts ->
    run_at blob0 (hrr_key r) = None \/ hrr_key r ∈ b;
}.

Lemma sweep_end bk ls rk : sweep {| pd_blob_keys := bk; pd_hollow_runs := [] |} ls rk -> swept (ls ++ BTree.keys bk) rk.
Proof.
  intros [_ _ Hls Hrk Hro Hli Hord]. assert (Hset : forall q, under q -> settled {| pd_blob_keys := bk; pd_hollow_runs := [] |} ls rk q).
  { induction 1 as [q Hq|r parts q _ IH Hp Hq]; [by apply Hro|]. destruct IH as [IH|[IH|IH]]; [by eapply Hli|congruence|by apply not_elem_of_nil in IH]. }
  split.
  - exact Hls.
  - done.
  - intros x Hx. apply elem_of_app. exact (Hset _ Hx).
  - intros r Hr. destruct (Hset _ Hr) as [?|[?|Hin]]; [by left|by right|by apply not_elem_of_nil in Hin].
  - intros a k b parts r E Hp Hr. destruct (Hord a k b parts r E Hp Hr) as [?|[?|Hin]]; [by left|by right|by apply not_elem_of_nil in Hin].
Qed.

(** The loop ends with all parts deleted and all runs read. *)
Lemma delete_loop_ok W fuel d ls rk : forest W -> bl_ok blob0 -> sweep d ls rk -> (weight W d <= fuel)%nat ->
  exists ls' rk', swept ls' rk' /\
    delete_loop fuel (foldl delete_key blob0 ls, ls) d rk = Some (Ret ((foldl delete_key blob0 ls', ls'), rk')).
Proof.
  intros Hf Hb. revert d ls rk. induction fuel as [|fuel IH]; intros [bk [|[k r] rest]] ls rk Hsw Hw.
  1, 3: exists (ls ++ BTree.keys bk), rk; split; [by apply sweep_end|]; cbn [PartDeletes.delete_loop pd_hollow_runs pd_blob_keys]; unfold PartDeletes.delete_keys; cbn [fst snd]; by rewrite foldl_app.
  { pose proof (fo_pos _ Hf k). unfold weight, run_keys_of in Hw. simpl in Hw. lia. }
  cbn [PartDeletes.delete_loop pd_hollow_runs pd_blob_keys]. unfold PartDeletes.delete_keys. cbn [fst snd]. rewrite <- foldl_app.
  destruct (sw_refs _ _ _ Hsw k r) as [Hkr Hur]; [by left|].
  assert (Hget : at_key (foldl delete_key blob0 (ls ++ BTree.keys bk)) (hrr_key r) = at_key blob0 (hrr_key r)).
  { rewrite get_deleted by done. rewrite decide_False; [done|]. intros (x & Hx & E)%(sw_leaves _ _ _ Hsw). by apply (fo_apart _ Hf x r). }
  unfold HollowRunRef.get. fold (at_key (foldl delete_key blob0 (ls ++ BTree.keys bk)) (hrr_key r)). rewrite Hget.
  assert (Hweight : (weight W {| pd_blob_keys := []; pd_hollow_runs := rest |} + W k <= S fuel)%nat)
    by (unfold weight, run_keys_of, fmap in *; simpl in *; lia).
  destruct (at_key blob0 (hrr_key r)) as [o|] eqn:Eo.
  - destruct (fo_runs _ Hf r o Hur Eo) as [parts ->].
    assert (Hrun : run_at blob0 (hrr_key r) = Some parts) by (unfold run_at; by rewrite Eo).
    apply IH; [apply (sweep_read k r); [by rewrite <- Hkr|done]|].
    pose proof (weight_adds W {| pd_blob_keys := []; pd_hollow_runs := rest |} parts). pose proof (fo_finite _ Hf r parts Hur Hrun).
    rewrite Hkr in *. lia.
  - assert (Hrun : run_at blob0 (hrr_key r) = None) by (unfold run_at; by rewrite Eo).
    apply IH; [apply (sweep_skip k r); [by rewrite <- Hkr|done]|]. pose proof (fo_pos _ Hf k). lia.
Qed.

Lemma delete_ok W fuel : forest W -> bl_ok blob0 -> (weight W (add_all PartDeletes.default parts0) <= fuel)%nat ->
  exists ls rk, swept ls rk /\
    PartDeletes.delete (T := T) (Version := Version) shard fuel blob0 (add_all PartDeletes.default parts0) =
      Some (Ret (foldl delete_key blob0 (ls ++ rev rk), ls ++ rev rk)).
Proof.
  intros Hf Hb Hw. destruct (delete_loop_ok W fuel _ [] [] Hf Hb sweep_start Hw) as (ls & rk & Hsw & He). exists ls, rk. split; [done|].
  unfold PartDeletes.delete. simpl in He. rewrite He. cbn [obind]. unfold PartDeletes.delete_keys. cbn [fst snd]. by rewrite foldl_app.
Qed.

(** Deleted are the keys below the given parts. *)
Lemma deleted_reached W ls rk k : forest W -> bl_ok blob0 -> swept ls rk ->
  (k ∈ ls ++ rev rk -> reached k) /\ (reached k -> at_key (foldl delete_key blob0 (ls ++ rev rk)) k = None).
Proof.
  intros Hf Hb Hsw. split.
  - intros [Hk|Hk]%elem_of_app.
    + apply (sp_leaves _ _ Hsw) in Hk as (x & Hx & <-). by exists (Single (Hollow x)).
    + rewrite elem_of_rev in Hk. apply (sp_runs _ _ Hsw) in Hk as [(r & Hr & <-) _]. by exists (Many r).
  - intros (q & Hq & Hk). rewrite get_deleted by done. case_decide as Hd; [done|]. rewrite elem_of_app, elem_of_rev in Hd.
    destruct q as [[x|]|r]; [|done|]; injection Hk as <-.
    + destruct Hd. left. by apply (sp_hollow _ _ Hsw).
    + destruct (sp_many _ _ Hsw r Hq) as [?|Hn]; [tauto|]. destruct (at_key blob0 (hrr_key r)) as [o|] eqn:Eo; [|done].
      destruct (fo_runs _ Hf r o Hq Eo) as [parts ->]. unfold run_at in Hn. by rewrite Eo in Hn.
Qed.

(** *** Interruptions *)

(** When a run is gone, so is all that it lists. *)
Lemma gone_child W ls rk n r parts q k : forest W -> bl_ok blob0 -> swept ls rk -> under (Many r) ->
  at_key (foldl delete_key blob0 (take n (ls ++ rev rk))) (hrr_key r) = None -> run_at blob0 (hrr_key r) = Some parts ->
  q ∈ parts -> part_key q = Some k -> at_key (foldl delete_key blob0 (take n (ls ++ rev rk))) k = None.
Proof.
  intros Hf Hb Hsw Hr Hgone Hp Hq Hk. rewrite get_deleted in Hgone |- * by done.
  destruct (decide (hrr_key r ∈ take n (ls ++ rev rk))) as [Hin|Hin].
  2: { unfold run_at in Hp. by rewrite Hgone in Hp. }
  rewrite take_app in Hin. apply elem_of_app in Hin as [Hin|Hin].
  { apply subseteq_take in Hin. apply (sp_leaves _ _ Hsw) in Hin as (x & Hx & E). by destruct (fo_apart _ Hf x r). }
  assert (Hn : (length ls < n)%nat) by (destruct (n - length ls)%nat eqn:E; [by apply not_elem_of_nil in Hin|lia]).
  assert (Hall : take n (ls ++ rev rk) = ls ++ take (n - length ls) (rev rk)) by (rewrite take_app; f_equal; apply take_ge; lia).
  pose proof (under_child r parts q Hr Hp Hq) as Huq. case_decide as Hd; [done|]. rewrite Hall, elem_of_app in Hd.
  destruct q as [[x|]|r']; [|done|]; injection Hk as <-; [destruct Hd; left; by apply (sp_hollow _ _ Hsw)|].
  apply list_elem_of_split in Hin as (l1 & l2 & E).
  pose proof (take_drop (n - length ls) (rev rk)) as Htd. rewrite E, <- app_assoc in Htd. cbn [app] in Htd.
  apply (f_equal (@rev str)) in Htd. rewrite rev_involutive, rev_app_distr in Htd. cbn [rev] in Htd. rewrite <- app_assoc in Htd. cbn [app] in Htd.
  destruct (sp_order _ _ Hsw _ _ _ parts r' (eq_sym Htd) Hp Hq) as [Hno|Hin].
  - destruct (at_key blob0 (hrr_key r')) as [o|] eqn:Eo; [|done]. destruct (fo_runs _ Hf r' o Huq Eo) as [parts' ->].
    unfold run_at in Hno. by rewrite Eo in Hno.
  - destruct Hd. right. rewrite E. apply elem_of_app. left. by rewrite elem_of_rev in Hin.
Qed.
End reach.

(** After an interruption, what is still there is still reachable. *)
Lemma partial_run blob ks k parts : bl_ok blob -> run_at (foldl delete_key blob ks) k = Some parts -> run_at blob k = Some parts.
Proof. intros Hb. unfold run_at. rewrite get_deleted by done. by case_decide. Qed.

Lemma partial_under blob ks parts0 q : bl_ok blob -> under (foldl delete_key blob ks) parts0 q -> under blob parts0 q.
Proof.
  intros Hb. induction 1 as [q Hq|r parts q _ IH Hp Hq]; [by constructor|]. eapply under_child; [exact IH|by eapply partial_run|done].
Qed.

Lemma partial_forest blob ks parts0 W : bl_ok blob -> forest blob parts0 W -> forest (foldl delete_key blob ks) parts0 W.
Proof.
  intros Hb [Hr Ha Hp Hf]. split.
  - intros r o Hu Ho. rewrite get_deleted in Ho by done. case_decide; [done|]. apply (Hr r); [by eapply partial_under|done].
  - intros x r Hx Hu. apply Ha; by eapply partial_under.
  - done.
  - intros r parts Hu Hrun. apply Hf; [by eapply partial_under|by eapply partial_run].
Qed.

Lemma partial_reached blob parts0 W ls rk n q : bl_ok blob -> forest blob parts0 W -> swept blob parts0 ls rk -> under blob parts0 q ->
  under (foldl delete_key blob (take n (ls ++ rev rk))) parts0 q \/
  forall k, part_key q = Some k -> at_key (foldl delete_key blob (take n (ls ++ rev rk))) k = None.
Proof.
  intros Hb Hf Hsw. set (b1 := foldl delete_key blob (take n (ls ++ rev rk))).
  induction 1 as [q Hq|r parts q Hr IH Hp Hq]; [left; by constructor|].
  assert (Hgone : at_key b1 (hrr_key r) = None -> forall k, part_key q = Some k -> at_key b1 k = None).
  { intros Hn k Hk. by eapply (gone_child blob parts0 W ls rk n r parts q k). }
  destruct IH as [IH|IH]; [|right; apply Hgone; by apply IH].
  destruct (at_key b1 (hrr_key r)) as [o|] eqn:Eo; [left|right; by apply Hgone].
  apply (under_child b1 parts0 r parts); [done| |done]. unfold run_at. rewrite Eo. unfold run_at in Hp.
  unfold b1 in Eo. rewrite get_deleted in Eo by done. case_decide; [done|]. by rewrite Eo in Hp.
Qed.

(** Doing it again deletes the rest. *)
Lemma delete_again blob parts0 W fuel n : bl_ok blob -> forest blob parts0 W ->
  (weight W (foldl (fun d q => (PartDeletes.add d q).1) PartDeletes.default parts0) <= fuel)%nat ->
  let d := foldl (fun d q => (PartDeletes.add d q).1) PartDeletes.default parts0 in
  exists blob' order blob'' order', PartDeletes.delete (T := T) (Version := Version) shard fuel blob d = Some (Ret (blob', order)) /\
    PartDeletes.delete (T := T) (Version := Version) shard fuel (foldl delete_key blob (take n order)) d = Some (Ret (blob'', order')) /\
    forall key, bl_get blob'' key = bl_get blob' key.
Proof.
  intros Hb Hf Hw d. destruct (delete_ok blob parts0 W fuel Hf Hb Hw) as (ls & rk & Hsw & He).
  set (b1 := foldl delete_key blob (take n (ls ++ rev rk))).
  assert (Hb1 : bl_ok b1) by by apply delete_keys_ok. assert (Hf1 : forest b1 parts0 W) by by apply partial_forest.
  destruct (delete_ok b1 parts0 W fuel Hf1 Hb1 Hw) as (ls1 & rk1 & Hsw1 & He1).
  eexists _, _, _, _. split; [exact He|]. split; [exact He1|]. intros key.
  set (full := ls ++ rev rk) in *. set (full1 := ls1 ++ rev rk1).
  rewrite !get_deleted_at by done. destruct (decide (key ∈ _ <$> full)) as [Hin|Hout].
  - apply list_elem_of_fmap in Hin as (k & -> & Hk). case_decide as Hd; [done|].
    destruct (proj1 (deleted_reached blob parts0 W ls rk k Hf Hb Hsw) Hk) as (q & Hq & Hqk).
    destruct (partial_reached blob parts0 W ls rk n q Hb Hf Hsw Hq) as [Hu|Hgone]; [|by apply Hgone].
    pose proof (proj2 (deleted_reached b1 parts0 W ls1 rk1 k Hf1 Hb1 Hsw1) ltac:(by exists q)) as Hn.
    unfold at_key in Hn. rewrite get_deleted_at in Hn by done. by rewrite decide_False in Hn.
  - unfold b1. rewrite get_deleted_at by done. rewrite (decide_False (P := key ∈ _ <$> take n full)).
    2: { intros (k & -> & Hk)%list_elem_of_fmap. apply Hout. apply list_elem_of_fmap. exists k. split; [done|]. by eapply subseteq_take. }
    case_decide as Hd; [|done]. apply list_elem_of_fmap in Hd as (k & -> & Hk).
    destruct (proj1 (deleted_reached b1 parts0 W ls1 rk1 k Hf1 Hb1 Hsw1) Hk) as (q & Hq & Hqk).
    pose proof (proj2 (deleted_reached blob parts0 W ls rk k Hf Hb Hsw) ltac:(exists q; split; [by eapply partial_under|done])) as Hn.
    unfold at_key in Hn. rewrite get_deleted_at in Hn by done. by rewrite decide_False in Hn.
Qed.
End deletes.
