(* ===== verification/GcFacts.v ===== *)
(** * What garbage collection deletes

    A difference tells exactly which parts and rollups have left the state.
    Since keys are never used again, what has left the state between two
    rollups is what no later state needs; deleting it and truncating the log
    to the later rollup keeps the invariant of the stores, and nothing that a
    live state refers to is touched. *)

From S2P Require Import Prelude Compare Timely BTree Schema Paths Consensus Batch Order Blob Diff BatchFacts Spine SpineFacts SpineCorrect Trace FlatTrace TraceFacts FlatFacts SpineKeep State StateDiff StateDiffFacts StateFacts Tombstone Machine MachineFacts DiffChain PartKeys Versions VersionsFacts Gc DeleteFacts.

Local Open Scope Z_scope.

(** ** What a difference of maps says *)

Section differences.
Context {K V : Type} `{KeyCmp K} `{!CmpLaws (key_cmp (K := K))} `{ValEq V}.
Implicit Types (from to : BTreeMap K V) (d : StateFieldDiff K V).

Definition gone d : option K := match fd_val d with Delete _ => Some (fd_key d) | _ => None end.
Definition came d : option K := match fd_val d with Insert _ => Some (fd_key d) | _ => None end.

(** The entries of [m] that differ, by [p], from what [other] has. *)
Definition differing (p : option V -> V -> bool) (other m : BTreeMap K V) : BTreeMap K V :=
  filter (fun e => p (CMap.get e.1 other) e.2 = true) m.

Lemma differing_skip p (kv : K * V) other m : CMap.above kv.1 m -> differing p (kv :: other) m = differing p other m.
Proof.
  intros Ha. unfold differing. induction Ha as [|e m He _ IH]; [done|]. rewrite !filter_cons.
  assert (E : CMap.get e.1 (kv :: other) = CMap.get e.1 other) by (destruct kv as [j v]; simpl in *; by rewrite (CMap.key_gt _ _ He)).
  rewrite E. by case_decide; rewrite IH.
Qed.

Lemma differing_cons p other k v m : differing p other ((k, v) :: m) =
  (if p (CMap.get k other) v then [(k, v)] else []) ++ differing p other m.
Proof. unfold differing. rewrite filter_cons. simpl. destruct (p _ _); by case_decide. Qed.

Definition missing (o : option V) (_ : V) : bool := match o with None => true | Some _ => false end.
Definition altered (o : option V) (v : V) : bool := negb (match o with Some w => val_eqb v w | None => false end).

Lemma diff_parts from to : CMap.sorted from -> CMap.sorted to ->
  omap (fun d => StateDiff.val_before (fd_val d)) (diff_field_sorted_iter from to) = snd <$> differing altered to from /\
  omap gone (diff_field_sorted_iter from to) = fst <$> differing missing to from /\
  omap came (diff_field_sorted_iter from to) = fst <$> differing missing from to.
Proof.
  revert to. induction from as [|[fk fv] from IHf]; intros to Hf.
  { induction to as [|[tk tv] to IHt]; [done|]. intros [_ Ht]%CMap.cmap_sorted_cons. destruct (IHt Ht) as (H1 & H2 & H3).
    cbn [diff_field_sorted_iter]. rewrite differing_cons, fmap_app, <- H3. done. }
  apply CMap.cmap_sorted_cons in Hf as Hf'. destruct Hf' as [Ha Hf']. induction to as [|[tk tv] to IHt]; intros Ht.
  { destruct (IHf [] Hf' Ht) as (H1 & H2 & H3). cbn [diff_field_sorted_iter]. rewrite !differing_cons, !fmap_app, <- H1, <- H2. done. }
  apply CMap.cmap_sorted_cons in Ht as Ht'. destruct Ht' as [Ha' Ht']. cbn [diff_field_sorted_iter]. destruct (key_cmp fk tk) eqn:E.
  - destruct (IHf to Hf' Ht') as (H1 & H2 & H3). simpl in Ha, Ha'.
    assert (Htk : CMap.above tk from) by (eapply CMap.above_eq; [|exact Ha]; by rewrite (cmp_opp fk tk), E).
    assert (Hfk : CMap.above fk to) by (eapply CMap.above_eq; [exact E|exact Ha']).
    rewrite !omap_app, H1, H2, H3, !differing_cons, !differing_skip by done.
    rewrite (CMap.get_here fk tk) by done. rewrite (CMap.get_here tk fk) by (by rewrite (cmp_opp fk tk), E). unfold altered at 2.
    by destruct (val_eqb fv tv).
  - destruct (IHf ((tk, tv) :: to) Hf' Ht) as (H1 & H2 & H3).
    assert (Hfk : CMap.above fk ((tk, tv) :: to)) by (constructor; [done|by eapply CMap.above_trans]).
    rewrite (differing_skip missing (fk, fv)) by done. rewrite !(differing_cons _ _ fk fv), (CMap.get_above fk) by done. rewrite !fmap_app, <- H1, <- H2, <- H3. done.
  - destruct (IHt Ht') as (H1 & H2 & H3). assert (Hgt : key_cmp tk fk = Lt) by (by rewrite (cmp_opp fk tk), E).
    assert (Htk : CMap.above tk ((fk, fv) :: from)) by (constructor; [done|by eapply CMap.above_trans]).
    rewrite !(differing_skip _ (tk, tv) to) by done. rewrite !(differing_cons _ _ tk tv), (CMap.get_above tk) by done. rewrite !fmap_app, <- H1, <- H2, <- H3. done.
Qed.
End differences.

Lemma diff_values {K V} `{KeyCmp K} `{ValEq V} (from to : BTreeMap K V) e v : e ∈ diff_field_sorted_iter from to ->
  (StateDiff.val_before (fd_val e) = Some v -> v ∈ BTree.values from) /\ (StateDiff.val_after (fd_val e) = Some v -> v ∈ BTree.values to).
Proof.
  unfold BTree.values. revert to. induction from as [|[fk fv] from IHf].
  - induction to as [|[tk tv] to IHt]; cbn [diff_field_sorted_iter]; [by intros ?%not_elem_of_nil|].
    intros [->|Hin]%elem_of_cons; [split; [done|]; simpl; intros [= <-]; by left|]. destruct (IHt Hin) as [? Ha]. split; [done|]. intros. right. by apply Ha.
  - induction to as [|[tk tv] to IHt]; cbn [diff_field_sorted_iter].
    { intros [->|Hin]%elem_of_cons; [split; [|done]; simpl; intros [= <-]; by left|]. destruct (IHf [] Hin) as [Hb ?]. split; [|done]. intros. right. by apply Hb. }
    destruct (key_cmp fk tk).
    + intros [Hin|Hin]%elem_of_app.
      * destruct (negb _); [|by apply not_elem_of_nil in Hin]. apply list_elem_of_singleton in Hin as ->. split; simpl; intros [= <-]; by left.
      * destruct (IHf to Hin) as [Hb Ha]. split; intros; right; [by apply Hb|by apply Ha].
    + intros [->|Hin]%elem_of_cons; [split; [|done]; simpl; intros [= <-]; by left|]. destruct (IHf ((tk, tv) :: to) Hin) as [Hb Ha].
      split; [|done]. intros. right. by apply Hb.
    + intros [->|Hin]%elem_of_cons; [split; [done|]; simpl; intros [= <-]; by left|]. destruct (IHt Hin) as [Hb Ha]. split; [done|]. intros. right. by apply Ha.
Qed.

(** ** The parts that leave a trace *)

Section parts.
Context {T : Type} `{TL : TimelyLaws T} `{TO : !TimelyOrd T} `{TOL : !TimelyOrdLaws T} {Version : Type}.
Implicit Types (t : Trace T) (x : State T Version) (h : HollowBatch T) (hs : list (HollowBatch T)) (q : RunPart T) (k : str).

Definition trace_of x : Trace T := sc_trace (st_collections x).
Definition ranged t : list (HollowBatch T) := by_range (parts_of (sp_merging (tr_spine t))).

Lemma ranged_in t h : h ∈ ranged t <-> h ∈ Trace.batches t /\ d_lower (hb_desc h) <> d_upper (hb_desc h).
Proof.
  unfold ranged, by_range. change (Trace.batches t) with (ihb_batch <$> parts_of (sp_merging (tr_spine t))). rewrite !list_elem_of_fmap. split.
  - intros (p & -> & [Hne Hp]%list_elem_of_filter). split; [by exists p|done].
  - intros [(p & -> & Hp) Hne]. exists p. split; [done|]. by apply list_elem_of_filter.
Qed.

Lemma ranged_sub t : ranged t ⊆+ Trace.batches t.
Proof. unfold ranged, by_range. apply fmap_submseteq. apply sublist_submseteq, sublist_filter. Qed.

Lemma empty_parts (l : list (StateFieldDiff SpineId (HollowBatch T))) (f : StateFieldValDiff (HollowBatch T) -> option (HollowBatch T)) :
  (forall e h, e ∈ l -> f (fd_val e) = Some h -> hb_parts h = []) -> concat (hb_parts <$> omap f (fd_val <$> l)) = [].
Proof.
  intros Hl. induction l as [|e l IH]; [done|]. rewrite fmap_cons. cbn [omap list_omap]. destruct (f (fd_val e)) as [h|] eqn:E.
  - rewrite fmap_cons. cbn [concat]. rewrite (Hl e h) by (done || by left). apply IH. intros e' h' ?. apply Hl. by right.
  - apply IH. intros e' h' ?. apply Hl. by right.
Qed.

Lemma legacy_before (l : list (StateFieldDiff (HollowBatch T) unit)) : omap StateDiff.val_before (omap (StateDiff.legacy_batch_diff (T := T)) l) = omap gone l.
Proof. induction l as [|[h [?|? ?|?]] l IH]; simpl; [done|exact IH|exact IH|]. by f_equal. Qed.

Lemma legacy_after (l : list (StateFieldDiff (HollowBatch T) unit)) : omap StateDiff.val_after (omap (StateDiff.legacy_batch_diff (T := T)) l) = omap came l.
Proof. induction l as [|[h [?|? ?|?]] l IH]; simpl; [done| |exact IH|exact IH]. by f_equal. Qed.

(** The entries of one map of batches that another one lacks. *)
Lemma legacy_missing t t' (L L' : BTreeMap (HollowBatch T) unit) h : runs_agree t t' ->
  holds L ((fun h => (h, tt)) <$> ranged t) -> holds L' ((fun h => (h, tt)) <$> ranged t') ->
  h ∈ fst <$> differing missing L' L <-> h ∈ ranged t /\ h ∉ ranged t'.
Proof.
  intros Hr [_ Hp] [Hs' Hp']. unfold differing. rewrite list_elem_of_fmap.
  assert (Hin : forall g u, (g, u) ∈ L <-> g ∈ ranged t).
  { intros g []. rewrite Hp, list_elem_of_fmap. split; [by intros (? & [= ->] & ?)|]. intros. by exists g. }
  assert (Hin' : forall g u, (g, u) ∈ L' <-> g ∈ ranged t').
  { intros g []. rewrite Hp', list_elem_of_fmap. split; [by intros (? & [= ->] & ?)|]. intros. by exists g. }
  split.
  - intros ([g u] & -> & [Hm Hg]%list_elem_of_filter). simpl in *. apply Hin in Hg. split; [done|]. intros Hg'.
    apply (Hin' g tt) in Hg'. apply (CMap.cmap_elem_of_get _ _ _ Hs') in Hg'. by rewrite Hg' in Hm.
  - intros [Hg Hg']. exists (h, tt). split; [done|]. apply list_elem_of_filter. simpl. split; [|by apply Hin].
    destruct (CMap.get h L') as [u|] eqn:E; [|done]. apply CMap.get_elem_of in E as (g & E & Hgl). apply Hin' in Hgl as Hgr.
    apply HollowBatch_cmp_Eq in E; [subst g; done|]. apply ranged_in in Hg as [Hg _], Hgr as [Hgr _]. by apply Hr.
Qed.

Lemma holds_batches t (L : BTreeMap (HollowBatch T) unit) : holds L ((fun h => (h, tt)) <$> ranged t) -> fst <$> L ⊆+ Trace.batches t.
Proof.
  intros [_ Hp]. etrans; [|apply ranged_sub]. apply Permutation_submseteq. rewrite Hp, <- list_fmap_compose.
  apply Permutation_refl'. apply list_fmap_id.
Qed.

(** What [part_deletes] goes through: the batches that are not there any
    more, less the parts of those that are new. *)
Lemma deletes_spec x x' d : chain_ok x -> chain_ok x' -> comparable_states x x' -> StateDiff.from_diff x x' = Ret d ->
  exists rm ad, StateDiff.part_deletes d = filter (fun q => StateDiff.part_in (concat (hb_parts <$> ad)) q = false) (concat (hb_parts <$> rm)) /\
    rm ⊆+ Trace.batches (trace_of x) /\ (forall h, h ∈ rm <-> h ∈ ranged (trace_of x) /\ h ∉ ranged (trace_of x')) /\
    (forall h, h ∈ ad <-> h ∈ ranged (trace_of x') /\ h ∉ ranged (trace_of x)).
Proof.
  intros Hx Hx' [_ _ _ _ Hr] Hd. pose proof (df_trace _ (chain_diffable _ Hx)) as Ht. pose proof (df_trace _ (chain_diffable _ Hx')) as Ht'.
  destruct (flatten_ok _ (fl_spine _ Ht) (fl_roundtrip _ Ht)) as (f & Hf & Hof). destruct (flatten_ok _ (fl_spine _ Ht') (fl_roundtrip _ Ht')) as (f' & Hf' & Hof').
  unfold StateDiff.from_diff in Hd. apply obind_Ret in Hd as (_ & _ & ([n r] & _ & Hd)%obind_Ret). rewrite Hf, Hf' in Hd. cbn [obind] in Hd. injection Hd as <-.
  destruct Hof as [_ Hl Hh _ _], Hof' as [_ Hl' Hh' _ _]. fold (ranged (trace_of x)) in Hl. fold (ranged (trace_of x')) in Hl'.
  destruct (diff_parts _ _ (proj1 Hl) (proj1 Hl')) as (_ & Hgone & Hcame).
  assert (Hnone : forall t (m : BTreeMap SpineId (HollowBatch T)) h, spine_ok (tr_spine t) -> holds m (by_id (parts_of (sp_merging (tr_spine t)))) -> h ∈ BTree.values m -> hb_parts h = []).
  { clear. intros t m h Hs [_ Hp] Hh. unfold BTree.values in Hh. rewrite Hp in Hh. unfold by_id in Hh. rewrite <- list_fmap_compose in Hh.
    apply list_elem_of_fmap in Hh as (p & -> & [He Hin]%list_elem_of_filter). simpl. destruct (spine_part_props _ Hs) as [Hok _].
    rewrite Forall_forall in Hok. by destruct (ho_times _ (Hok p Hin)). }
  exists (fst <$> differing missing (ft_legacy_batches f') (ft_legacy_batches f)), (fst <$> differing missing (ft_legacy_batches f) (ft_legacy_batches f')).
  split_and!.
  - unfold StateDiff.part_deletes, StateDiff.referenced_batches. cbn [sd_legacy_batches sd_hollow_batches].
    rewrite !omap_app, !fmap_app, !concat_app, legacy_before, legacy_after, Hgone, Hcame.
    rewrite !empty_parts, !app_nil_r; [done|..]; intros e h He Hv.
    + exact (Hnone (trace_of x) _ _ (fl_spine _ Ht) Hh (proj1 (diff_values _ _ _ _ He) Hv)).
    + exact (Hnone (trace_of x') _ _ (fl_spine _ Ht') Hh' (proj2 (diff_values _ _ _ _ He) Hv)).
  - etrans; [|apply (holds_batches _ _ Hl)]. apply fmap_submseteq, sublist_submseteq, sublist_filter.
  - intros h. by apply legacy_missing.
  - intros h. apply legacy_missing; [|done|done]. intros g g' Hg Hg' r1 r2 Hr1 Hr2 E. symmetry. by apply (Hr g' g Hg' Hg r2 r1).
Qed.

(** *** Exactly the keys that are not used any more *)

#[export] Instance keys_of_perm : Proper ((≡ₚ) ==> (≡ₚ)) (keys_of (T := T)).
Proof.
  intros l l' Hp. induction Hp as [|h l l' _ IH|h g l|l1 l2 l3 _ IH1 _ IH2]; unfold keys_of in *; rewrite ?fmap_cons; cbn [concat].
  - done.
  - by rewrite IH.
  - rewrite !app_assoc. apply Permutation_app_tail, Permutation_app_comm.
  - by rewrite IH1.
Qed.

Lemma sub_NoDup {A} (l l' : list A) : l ⊆+ l' -> NoDup l' -> NoDup l.
Proof. intros (l2 & Hp)%submseteq_Permutation. rewrite Hp. by intros (? & _ & _)%NoDup_app. Qed.

Lemma keys_of_sub hs hs' : hs ⊆+ hs' -> keys_of hs ⊆+ keys_of hs'.
Proof. intros (l & ->)%submseteq_Permutation. rewrite keys_of_app. apply submseteq_inserts_r. done. Qed.

Lemma elem_of_part_keys k (qs : list (RunPart T)) : k ∈ part_keys qs <-> exists q, q ∈ qs /\ part_key q = Some k.
Proof. unfold part_keys. rewrite list_elem_of_omap. split; intros (q & ? & ?); by exists q. Qed.

Lemma keys_of_concat hs : part_keys (concat (hb_parts <$> hs)) = keys_of hs.
Proof. unfold keys_of. rewrite part_keys_concat, <- list_fmap_compose. done. Qed.

(** A key of a trace stands for one part in one batch. *)
Lemma keyed_unique t h h' q q' k : keyed t -> h ∈ Trace.batches t -> h' ∈ Trace.batches t -> q ∈ hb_parts h -> q' ∈ hb_parts h' ->
  part_key q = Some k -> part_key q' = Some k -> h = h' /\ q = q'.
Proof.
  intros [Hn _] Hh Hh' Hq Hq' Hk Hk'. unfold trace_keys in Hn. revert Hn Hh Hh'. generalize (Trace.batches t) as hs. intros hs. induction hs as [|g hs IH].
  { by intros _ ?%not_elem_of_nil. }
  unfold keys_of in *. rewrite fmap_cons. cbn [concat]. intros (Hn1 & Hd & Hn2)%NoDup_app.
  assert (Hkin : forall h q, h ∈ hs -> q ∈ hb_parts h -> part_key q = Some k -> k ∈ concat (batch_keys <$> hs)).
  { intros h0 q0 Hh0 Hq0 Hk0. apply (elem_of_keys hs). exists h0. split; [done|]. apply elem_of_part_keys. by exists q0. }
  assert (Hhead : forall q, q ∈ hb_parts g -> part_key q = Some k -> k ∈ batch_keys g).
  { intros q0 Hq0 Hk0. apply elem_of_part_keys. by exists q0. }
  intros [->|Hh]%elem_of_cons [->|Hh']%elem_of_cons.
  - split; [done|]. clear -Hn1 Hq Hq' Hk Hk'. unfold batch_keys in Hn1. induction (hb_parts g) as [|p ps IH]; [by apply not_elem_of_nil in Hq|].
    assert (Hkps : forall q, q ∈ ps -> part_key q = Some k -> k ∈ part_keys ps) by (intros q0 ? ?; apply elem_of_part_keys; by exists q0).
    unfold part_keys in *. cbn [omap list_omap] in Hn1. apply elem_of_cons in Hq as [->|Hq], Hq' as [->|Hq']; [done|..].
    + rewrite Hk in Hn1. apply NoDup_cons in Hn1 as [Hn1 _]. destruct Hn1. by eapply Hkps.
    + rewrite Hk' in Hn1. apply NoDup_cons in Hn1 as [Hn1 _]. destruct Hn1. by eapply Hkps.
    + apply IH; [done|done|]. destruct (part_key p); [by apply NoDup_cons in Hn1 as [_ ?]|done].
  - destruct (Hd k); [by eapply Hhead|by eapply Hkin].
  - destruct (Hd k); [by eapply Hhead|by eapply Hkin].
  - by apply IH.
Qed.

Lemma RunPart_cmp_key (p q : RunPart T) : RunPart_cmp p q = Eq -> part_key p = part_key q.
Proof.
  destruct p as [[x|]|r], q as [[y|]|r']; simpl; try done.
  - unfold HollowBatchPart_cmp. intros [E _]%then_cmp_Eq. unfold by_cmp in E. apply cmp_eq in E. by rewrite E.
  - unfold HollowRunRef_cmp, by_cmp. intros E%cmp_eq. by rewrite E.
Qed.

(** The parts of the next trace are old, or have keys that the trace does not. *)
Definition parts_step t t' : Prop := forall q k, refs_of (Trace.batches t') q -> part_key q = Some k ->
  refs_of (Trace.batches t) q \/ k ∉ trace_keys t.

Lemma in_trace_keys t k : k ∈ trace_keys t <-> exists h q, h ∈ Trace.batches t /\ q ∈ hb_parts h /\ part_key q = Some k.
Proof.
  unfold trace_keys. rewrite elem_of_keys. split.
  - intros (h & Hh & (q & Hq & Hk)%elem_of_part_keys). by exists h, q.
  - intros (h & q & Hh & Hq & Hk). exists h. split; [done|]. apply elem_of_part_keys. by exists q.
Qed.

Lemma part_in_spec (l : list (RunPart T)) q : q ∈ l -> StateDiff.part_in l q = true.
Proof.
  intros Hq. unfold StateDiff.part_in. apply existsb_exists. exists q. split; [by apply list_elem_of_In|]. by rewrite (cmp_refl RunPart_cmp).
Qed.

Lemma part_in_key (l : list (RunPart T)) q : StateDiff.part_in l q = true -> exists q', q' ∈ l /\ part_key q' = part_key q.
Proof.
  unfold StateDiff.part_in. intros (q' & Hq & E)%existsb_exists. exists q'. split; [by apply list_elem_of_In|].
  symmetry. apply RunPart_cmp_key. by destruct (RunPart_cmp q q').
Qed.

Lemma elem_of_concat_parts hs q : q ∈ concat (hb_parts <$> hs) <-> refs_of hs q.
Proof.
  unfold refs_of. rewrite list_elem_of_In, in_concat. split.
  - intros (l & Hl & Hq). apply list_elem_of_In, list_elem_of_fmap in Hl as (h & -> & Hh). exists h. split; [done|by apply list_elem_of_In].
  - intros (h & Hh & Hq). exists (hb_parts h). split; [|by apply list_elem_of_In]. apply list_elem_of_In, list_elem_of_fmap. by exists h.
Qed.

(** Batches with parts are stored by their range of times. *)
Lemma with_parts_ranged t h q : spine_ok (tr_spine t) -> h ∈ Trace.batches t -> q ∈ hb_parts h -> h ∈ ranged t.
Proof.
  intros Hs Hh Hq. apply ranged_in. split; [done|]. destruct (ho_times _ (trace_hollow_ok _ _ Hs Hh)) as [E|]; [|done].
  rewrite E in Hq. by apply not_elem_of_nil in Hq.
Qed.

Lemma part_keys_filter (P : RunPart T -> Prop) `{!forall q, Decision (P q)} (qs : list (RunPart T)) : part_keys (filter P qs) `sublist_of` part_keys qs.
Proof.
  unfold part_keys. induction qs as [|q qs IH]; [done|]. rewrite filter_cons. case_decide; cbn [omap list_omap]; destruct (part_key q); solve [done|by constructor].
Qed.

Lemma part_deletes_ok x x' d : chain_ok x -> chain_ok x' -> comparable_states x x' -> keyed (trace_of x) -> parts_step (trace_of x) (trace_of x') ->
  StateDiff.from_diff x x' = Ret d ->
  NoDup (part_keys (StateDiff.part_deletes d)) /\
  (forall q, q ∈ StateDiff.part_deletes d -> refs_of (Trace.batches (trace_of x)) q) /\
  (forall k, k ∈ part_keys (StateDiff.part_deletes d) <-> k ∈ trace_keys (trace_of x) /\ k ∉ trace_keys (trace_of x')).
Proof.
  intros Hx Hx' Hc Hk Hst Hd. destruct (deletes_spec x x' d Hx Hx' Hc Hd) as (rm & ad & -> & Hsub & Hrm & Had).
  pose proof (ts_spine _ (ch_trace _ Hx)) as Hs. pose proof (ts_spine _ (ch_trace _ Hx')) as Hs'. split_and!.
  - eapply sublist_NoDup; [|apply part_keys_filter]. rewrite keys_of_concat. eapply sub_NoDup; [by apply keys_of_sub|apply Hk].
  - intros q [_ (h & Hh & Hq)%elem_of_concat_parts]%list_elem_of_filter. apply Hrm in Hh as [[Hh _]%ranged_in _]. by exists h.
  - intros k. rewrite elem_of_part_keys. split.
    + intros (q & [Hno (h & Hh & Hq)%elem_of_concat_parts]%list_elem_of_filter & Hqk). apply Hrm in Hh as [Hhr Hhr'].
      apply ranged_in in Hhr as [Hh _]. split; [apply in_trace_keys; by exists h, q|]. intros (h' & q' & Hh' & Hq' & Hqk')%in_trace_keys.
      destruct (Hst q' k) as [(g & Hg & Hqg)|Hfr]; [by exists h'|done| |destruct Hfr; apply in_trace_keys; by exists h, q].
      destruct (keyed_unique _ _ _ _ _ _ Hk Hh Hg Hq Hqg Hqk Hqk') as [<- <-].
      pose proof (with_parts_ranged _ _ _ Hs' Hh' Hq') as Hr'.
      assert (Hin : h' ∈ ad).
      { apply Had. split; [done|]. intros [Hx2 _]%ranged_in. destruct (keyed_unique _ _ _ _ _ _ Hk Hh Hx2 Hq Hq' Hqk Hqk) as [<- _]. done. }
      rewrite part_in_spec in Hno; [done|]. apply elem_of_concat_parts. by exists h'.
    + intros [(h & q & Hh & Hq & Hqk)%in_trace_keys Hno]. exists q. split; [|done]. apply list_elem_of_filter. split.
      * apply not_true_iff_false. intros (q' & (h' & Hh' & Hq')%elem_of_concat_parts & E)%part_in_key. apply Had in Hh' as [[Hh' _]%ranged_in _].
        apply Hno, in_trace_keys. exists h', q'. split_and!; [done|done|congruence].
      * apply elem_of_concat_parts. exists h. split; [|done]. apply Hrm. split; [by eapply with_parts_ranged|]. intros [Hh' _]%ranged_in.
        apply Hno, in_trace_keys. by exists h, q.
Qed.
End parts.

(** ** Histories in which keys are never used again *)

Section histories.
Context {T : Type} `{TL : TimelyLaws T} `{TO : !TimelyOrd T} `{TOL : !TimelyOrdLaws T} {Version : Type} `{UL : UuidLaws}.
Context (shard : ShardId) (hist : list (State T Version)) (ds : list (VersionedData (StateDiff T Version))).
Implicit Types (x y : State T Version) (q : RunPart T) (k : str) (r : HollowRollup).

Definition rollups_of x : BTreeMap SeqNo HollowRollup := sc_rollups (st_collections x).
Definition rollup_names x : list str := rollup_key <$> BTree.values (rollups_of x).

(** New parts and rollups have keys that no earlier state had. *)
Record keyed_history : Prop := {
  kh_keyed : forall i x, hist !! i = Some x -> keyed (trace_of x);
  kh_parts : forall i x x' q k, hist !! i = Some x -> hist !! S i = Some x' -> refs_of (Trace.batches (trace_of x')) q -> part_key q = Some k ->
    refs_of (Trace.batches (trace_of x)) q \/ forall j y, hist !! j = Some y -> (j <= i)%nat -> k ∉ trace_keys (trace_of y);
  kh_rollups : forall i x x' n r, hist !! i = Some x -> hist !! S i = Some x' -> (n, r) ∈ rollups_of x' ->
    (n, r) ∈ rollups_of x \/ forall j y, hist !! j = Some y -> (j <= i)%nat -> rollup_key r ∉ rollup_names y;
}.

Context (Hrec : recorded_history shard hist ds) (Hkey : keyed_history).

Lemma history_step i x x' v : hist !! i = Some x -> hist !! S i = Some x' -> ds !! S i = Some v ->
  chain_ok x /\ chain_ok x' /\ comparable_states x x' /\ keyed (trace_of x) /\ parts_step (trace_of x) (trace_of x') /\
  StateDiff.from_diff x x' = Ret (vd_data v).
Proof.
  intros Hx Hx' Hv. pose proof (rh_chain _ _ _ Hrec) as Hc. split_and!.
  - by apply (cn_ok _ Hc i).
  - by apply (cn_ok _ Hc (S i)).
  - by apply (cn_next _ Hc i).
  - by apply (kh_keyed Hkey i).
  - intros q k Hq Hqk. destruct (kh_parts Hkey i x x' q k Hx Hx' Hq Hqk) as [?|Hfr]; [by left|right]. by apply (Hfr i).
  - by apply (dl_diffs _ _ (rh_log _ _ _ Hrec) i).
Qed.

(** What has left the state does not come back. *)
Lemma key_gone i j l x y z k : hist !! i = Some x -> hist !! j = Some y -> hist !! l = Some z -> (i <= j <= l)%nat ->
  k ∈ trace_keys (trace_of x) -> k ∉ trace_keys (trace_of y) -> k ∉ trace_keys (trace_of z).
Proof.
  intros Hx Hy Hz [Hij Hjl] Hkx Hky. revert z Hz. induction Hjl as [|l Hjl IH]; intros z Hz; [congruence|].
  destruct (lookup_lt_is_Some_2 hist l) as [z0 Hz0]; [apply lookup_lt_Some in Hz; lia|].
  intros (h & q & Hh & Hq & Hqk)%in_trace_keys. destruct (kh_parts Hkey l z0 z q k Hz0 Hz) as [(g & Hg & Hgq)|Hfr]; [by exists h|done| |].
  - apply (IH z0 Hz0), in_trace_keys. by exists g, q.
  - apply (Hfr i x Hx); [lia|done].
Qed.

Lemma rollup_named n r x : (n, r) ∈ rollups_of x -> rollup_key r ∈ rollup_names x.
Proof.
  intros Hin. unfold rollup_names, BTree.values. rewrite <- list_fmap_compose. apply list_elem_of_fmap. by exists (n, r).
Qed.

Lemma rollup_back i j l x y z n r : hist !! i = Some x -> hist !! j = Some y -> hist !! l = Some z -> (i <= j <= l)%nat ->
  rollup_key r ∈ rollup_names x -> (n, r) ∈ rollups_of z -> (n, r) ∈ rollups_of y.
Proof.
  intros Hx Hy Hz [Hij Hjl] Hnx. revert z Hz. induction Hjl as [|l Hjl IH]; intros z Hz Hin; [congruence|].
  destruct (lookup_lt_is_Some_2 hist l) as [z0 Hz0]; [apply lookup_lt_Some in Hz; lia|].
  destruct (kh_rollups Hkey l z0 z n r Hz0 Hz Hin) as [Hin0|Hfr]; [by apply (IH z0 Hz0)|]. destruct (Hfr i x Hx); [lia|done].
Qed.

(** A key names one rollup. *)
Lemma rollup_name_inj i j x y n n' r r' : hist !! i = Some x -> hist !! j = Some y -> (n, r) ∈ rollups_of x -> (n', r') ∈ rollups_of y ->
  rollup_key r = rollup_key r' -> n = n'.
Proof.
  intros Hx Hy Hn Hn' E. pose proof (rh_size _ _ _ Hrec) as Hsz. pose proof (lookup_lt_Some _ _ _ Hx). pose proof (lookup_lt_Some _ _ _ Hy).
  destruct (rh_keys _ _ _ Hrec _ _ _ _ Hx Hn) as [Hb [id Hid]], (rh_keys _ _ _ Hrec _ _ _ _ Hy Hn') as [Hb' [id' Hid']].
  rewrite Hid, Hid' in E. apply (f_equal (fun k => parse_ids (complete_key k shard))) in E.
  rewrite !parse_rollup_key in E by (unfold i64_max, u64_max in *; lia). injection E as E _. lia.
Qed.

(** *** Between two versions *)

Definition window (i j : nat) : list (StateDiff T Version) := vd_data <$> drop (S i) (take (S j) ds).
Definition dead_parts i j : list (RunPart T) := concat (StateDiff.part_deletes <$> window i j).
Definition dead_rollups i j : list HollowRollup := concat (StateDiff.rollup_deletes <$> window i j).

Lemma window_step i j : (i < j < length hist)%nat -> exists v, ds !! S i = Some v /\ window i j = vd_data v :: window (S i) j.
Proof.
  intros Hij. destruct (window_cons shard hist ds Hrec (S j) (S i)) as (v & Hv & E); [lia|]. exists v. split; [done|].
  unfold window. by rewrite E.
Qed.

Lemma window_none i j : (j <= i)%nat -> window i j = [].
Proof. intros Hij. unfold window. rewrite drop_ge; [done|]. rewrite length_take. lia. Qed.

Lemma dead_parts_ok i j x y : hist !! i = Some x -> hist !! j = Some y -> (i <= j)%nat ->
  NoDup (part_keys (dead_parts i j)) /\
  (forall q, q ∈ dead_parts i j -> exists a z, (i <= a < j)%nat /\ hist !! a = Some z /\ refs_of (Trace.batches (trace_of z)) q) /\
  (forall k, k ∈ part_keys (dead_parts i j) <->
    (exists a z, (i <= a < j)%nat /\ hist !! a = Some z /\ k ∈ trace_keys (trace_of z)) /\ k ∉ trace_keys (trace_of y)).
Proof.
  intros Hx Hy Hij. remember (j - i)%nat as len eqn:El. revert i x Hx Hij El. induction len as [|len IH]; intros i x Hx Hij El.
  { unfold dead_parts. rewrite window_none by lia. simpl. split_and!; [constructor|by intros q ?%not_elem_of_nil|].
    intros k. split; [by intros ?%not_elem_of_nil|]. intros [(a & z & Ha & _) _]. lia. }
  pose proof (lookup_lt_Some _ _ _ Hy) as Hlt. destruct (window_step i j ltac:(lia)) as (v & Hv & Ew).
  destruct (lookup_lt_is_Some_2 hist (S i)) as [x' Hx']; [lia|].
  destruct (history_step i x x' v Hx Hx' Hv) as (Hc & Hc' & Hcmp & Hk & Hst & Hd).
  destruct (part_deletes_ok x x' (vd_data v) Hc Hc' Hcmp Hk Hst Hd) as (Hn1 & Hp1 & Hk1).
  destruct (IH (S i) x' Hx' ltac:(lia) ltac:(lia)) as (Hn2 & Hp2 & Hk2).
  unfold dead_parts in *. rewrite Ew, fmap_cons. cbn [concat]. rewrite part_keys_app. split_and!.
  - apply NoDup_app. split_and!; [done| |done]. intros k [Hkx Hkx']%Hk1 [(a & z & Ha & Hz & Hkz) _]%Hk2.
    by apply (key_gone i (S i) a x x' z k Hx Hx' Hz ltac:(lia) Hkx Hkx').
  - intros q [Hq|Hq]%elem_of_app; [exists i, x; split_and!; [lia|lia|done|by apply Hp1]|].
    destruct (Hp2 q Hq) as (a & z & Ha & Hz & Hqz). exists a, z. split_and!; [lia|lia|done|done].
  - intros k. rewrite elem_of_app, Hk1, Hk2. split.
    + intros [[Hkx Hkx']|[(a & z & Ha & Hz & Hkz) Hky]].
      * split; [exists i, x; split_and!; [lia|lia|done|done]|]. by apply (key_gone i (S i) j x x' y k Hx Hx' Hy ltac:(lia)).
      * split; [|done]. exists a, z. split_and!; [lia|lia|done|done].
    + intros [(a & z & Ha & Hz & Hkz) Hky]. destruct (decide (a = i)) as [->|]; [|right; split; [|done]; exists a, z; split_and!; [lia|lia|done|done]].
      assert (z = x) as -> by congruence. destruct (decide (k ∈ trace_keys (trace_of x'))) as [Hin|Hout]; [right|by left].
      split; [|done]. destruct (decide (S i = j)) as [Ej|]; [|exists (S i), x'; split_and!; [lia|lia|done|done]].
      rewrite Ej in Hx'. assert (x' = y) as -> by congruence. done.
Qed.

Lemma rollup_deletes_ok x x' (d : StateDiff T Version) : chain_ok x -> chain_ok x' -> StateDiff.from_diff x x' = Ret d ->
  StateDiff.rollup_deletes d `sublist_of` BTree.values (rollups_of x) /\
  forall r, r ∈ StateDiff.rollup_deletes d <-> exists n, (n, r) ∈ rollups_of x /\ (n, r) ∉ rollups_of x'.
Proof.
  intros Hx Hx' Hd. pose proof (mo_rollups _ (ch_maps _ Hx)) as Hs. pose proof (mo_rollups _ (ch_maps _ Hx')) as Hs'.
  unfold StateDiff.from_diff in Hd. apply obind_Ret in Hd as (_ & _ & ([m r] & _ & (f & _ & (f' & _ & [= <-])%obind_Ret)%obind_Ret)%obind_Ret).
  unfold StateDiff.rollup_deletes. cbn [sd_rollups].
  destruct (diff_parts (sc_rollups (st_collections x)) (sc_rollups (st_collections x')) (proj2 (CMap.sorted_btree _) Hs) (proj2 (CMap.sorted_btree _) Hs')) as (-> & _ & _).
  split; [apply fmap_sublist, sublist_filter|]. intros r'. rewrite list_elem_of_fmap. unfold differing. split.
  - intros ([n r2] & -> & [Ha Hin]%list_elem_of_filter). exists n. split; [done|]. simpl in *. intros Hin'. rewrite CMap.get_btree in Ha.
    apply (sorted_get _ _ _ Hs') in Hin'. rewrite Hin' in Ha. unfold altered, val_eqb, derived_eq in Ha. by rewrite bool_decide_eq_true_2 in Ha.
  - intros (n & Hin & Hout). exists (n, r'). split; [done|]. apply list_elem_of_filter. simpl. split; [|done]. rewrite CMap.get_btree.
    destruct (BTree.get n (sc_rollups (st_collections x'))) as [r2|] eqn:E; [|done]. unfold altered, val_eqb, derived_eq.
    rewrite bool_decide_eq_false_2; [done|]. intros <-. apply Hout. by apply (sorted_get _ _ _ Hs').
Qed.

Lemma names_once i x : hist !! i = Some x -> NoDup (rollup_names x).
Proof.
  intros Hx. pose proof (mo_rollups _ (ch_maps _ (cn_ok _ (rh_chain _ _ _ Hrec) _ _ Hx))) as Hs. change (BTree.sorted (rollups_of x)) in Hs.
  assert (Hin : forall e, e ∈ rollups_of x -> e ∈ rollups_of x) by done. unfold rollup_names, BTree.values. revert Hs Hin.
  generalize (rollups_of x) at 1 2 4 as m. intros m. induction m as [|[n r] m IH]; intros Hs Hin; [constructor|].
  destruct Hs as [Ha Hs]. rewrite !fmap_cons. constructor; [|apply IH; [done|]; intros; apply Hin; by right].
  intros Hk. rewrite <- list_fmap_compose in Hk. apply list_elem_of_fmap in Hk as ([n' r'] & E & Hin'). simpl in E.
  assert (n = n') as <- by (eapply (rollup_name_inj i i x x n n' r r'); [done|done|apply Hin; by left|apply Hin; by right|done]).
  rewrite Forall_forall in Ha. specialize (Ha _ Hin'). simpl in Ha. lia.
Qed.

Lemma dead_rollups_ok i j x y : hist !! i = Some x -> hist !! j = Some y -> (i <= j)%nat ->
  NoDup (rollup_key <$> dead_rollups i j) /\
  (forall r, r ∈ dead_rollups i j -> exists a z n, (i <= a < j)%nat /\ hist !! a = Some z /\ (n, r) ∈ rollups_of z /\ (n, r) ∉ rollups_of y).
Proof.
  intros Hx Hy Hij. remember (j - i)%nat as len eqn:El. revert i x Hx Hij El. induction len as [|len IH]; intros i x Hx Hij El.
  { unfold dead_rollups. rewrite window_none by lia. simpl. split; [constructor|by intros q ?%not_elem_of_nil]. }
  pose proof (lookup_lt_Some _ _ _ Hy) as Hlt. destruct (window_step i j ltac:(lia)) as (v & Hv & Ew).
  destruct (lookup_lt_is_Some_2 hist (S i)) as [x' Hx']; [lia|].
  destruct (history_step i x x' v Hx Hx' Hv) as (Hc & Hc' & _ & _ & _ & Hd).
  destruct (rollup_deletes_ok x x' (vd_data v) Hc Hc' Hd) as (Hs1 & Hr1).
  destruct (IH (S i) x' Hx' ltac:(lia) ltac:(lia)) as (Hn2 & Hr2).
  assert (Hback : forall n r a z r', (n, r) ∈ rollups_of x -> (n, r) ∉ rollups_of x' -> hist !! a = Some z -> (S i <= a)%nat ->
    (exists n', (n', r') ∈ rollups_of z) -> rollup_key r = rollup_key r' -> False).
  { intros n r a z r' Hin Hout Hz Ha [n' Hin'] E. pose proof (rollup_named _ _ _ Hin) as Hnm. rewrite E in Hnm.
    pose proof (rollup_back i i a x x z n' r' Hx Hx Hz ltac:(lia) Hnm Hin') as Hin2.
    pose proof (rollup_back i (S i) a x x' z n' r' Hx Hx' Hz ltac:(lia) Hnm Hin') as Hin3.
    assert (n = n') as <- by by eapply (rollup_name_inj i i x x n n' r r').
    pose proof (mo_rollups _ (ch_maps _ Hc)) as Hs. apply (sorted_get _ _ _ Hs) in Hin, Hin2. congruence. }
  unfold dead_rollups in *. rewrite Ew, fmap_cons. cbn [concat]. rewrite fmap_app. split.
  - apply NoDup_app. split_and!; [|..|done].
    + eapply sublist_NoDup; [apply (names_once i x Hx)|]. by apply fmap_sublist.
    + intros k Hk Hk'. apply list_elem_of_fmap in Hk as (r & -> & (n & Hin & Hout)%Hr1). apply list_elem_of_fmap in Hk' as (r' & E & Hr').
      destruct (Hr2 r' Hr') as (a & z & n' & Ha & Hz & Hin' & _). eapply (Hback n r a z r'); [done|done|done|lia|by exists n'|done].
  - intros r [Hr|Hr]%elem_of_app.
    + apply Hr1 in Hr as (n & Hin & Hout). exists i, x, n. split_and!; [lia|lia|done|done|]. intros Hin'.
      eapply (Hback n r j y r); [done|done|done|lia|by exists n|done].
    + destruct (Hr2 r Hr) as (a & z & n & Ha & Hz & Hin & Hout). exists a, z, n. split_and!; [lia|lia|done|done|done].
Qed.

(** *** Collecting them *)

Abbreviation add_all := (foldl (fun d (q : RunPart T) => (PartDeletes.add d q).1)).
Abbreviation name_all := (foldl (fun (m : BTreeMap str unit) (r : HollowRollup) => BTree.insert (rollup_key r) tt m)).

Lemma added_keys d (l : list (RunPart T)) k : k ∈ leaf_keys_of (add_all d l) \/ k ∈ run_keys_of (add_all d l) ->
  k ∈ leaf_keys_of d \/ k ∈ run_keys_of d \/ k ∈ part_keys l.
Proof.
  intros [[?|(x & Hx & <-)]%adds_leaves|[?|(r & Hr & <-)]%adds_runs]; [tauto| |tauto|]; right; right; apply elem_of_part_keys; by eexists.
Qed.

Lemma adds_assert (l : list (RunPart T)) d : NoDup (part_keys l) -> (forall k, k ∈ part_keys l -> ~ (k ∈ leaf_keys_of d) /\ ~ (k ∈ run_keys_of d)) ->
  foldM GarbageCollector.add_part_delete l d = Ret (add_all d l).
Proof.
  revert d. induction l as [|q l IH]; intros d Hn Hd; [done|]. cbn [foldM foldl].
  assert (Hq : forall k, part_key q = Some k -> ~ (k ∈ part_keys l) /\ ~ (k ∈ leaf_keys_of d) /\ ~ (k ∈ run_keys_of d)).
  { intros k Hk. unfold part_keys in Hn, Hd. cbn [omap list_omap] in Hn, Hd. rewrite Hk in Hn, Hd. apply NoDup_cons in Hn as [Hn _]. split; [done|]. apply Hd. by left. }
  assert (Hnl : NoDup (part_keys l)) by (unfold part_keys in *; cbn [omap list_omap] in Hn; destruct (part_key q); [by apply NoDup_cons in Hn as [_ ?]|done]).
  assert (Hnew : (PartDeletes.add d q).2 = true).
  { destruct q as [[x|]|r]; simpl; [|done|]; apply negb_true_iff, not_true_iff_false; rewrite BTree.contains_keys; by apply Hq. }
  unfold GarbageCollector.add_part_delete at 1. destruct (PartDeletes.add d q) as [d' new] eqn:E. simpl in Hnew. subst new. cbn [assert_ obind].
  rewrite IH; [done|done|]. intros k Hk. assert (Hkd : ~ (k ∈ leaf_keys_of d) /\ ~ (k ∈ run_keys_of d)).
  { apply Hd. unfold part_keys. cbn [omap list_omap]. destruct (part_key q); [by right|done]. }
  assert (Hne : part_key q <> Some k) by (intros Eq; by destruct (Hq k Eq)).
  replace d' with (PartDeletes.add d q).1 by (by rewrite E). split.
  - intros [?|(x & -> & <-)]%add_leaves; [tauto|done].
  - intros [?|(r & -> & <-)]%add_runs; [tauto|done].
Qed.

Lemma names_assert (l : list HollowRollup) m : NoDup (rollup_key <$> l) -> (forall r, r ∈ l -> rollup_key r ∉ BTree.keys m) ->
  foldM GarbageCollector.add_rollup_delete l m = Ret (name_all m l).
Proof.
  revert m. induction l as [|r l IH]; intros m Hn Hm; [done|]. cbn [foldM foldl]. rewrite fmap_cons in Hn. apply NoDup_cons in Hn as [Hr Hn].
  unfold GarbageCollector.add_rollup_delete at 1, set_insert. cbn [fst snd].
  assert (E : BTree.contains (rollup_key r) m = false) by (apply not_true_iff_false; rewrite BTree.contains_keys; apply Hm; by left).
  rewrite E. cbn [negb assert_ obind]. apply IH; [done|]. intros r' Hr'. rewrite BTree.keys_insert. intros [Ek|Hin].
  - apply Hr. rewrite <- Ek. by apply list_elem_of_fmap_2.
  - apply (Hm r'); [by right|done].
Qed.

Lemma named_keys m (l : list HollowRollup) k : k ∈ BTree.keys (name_all m l) <-> k ∈ BTree.keys m \/ k ∈ rollup_key <$> l.
Proof.
  revert m. induction l as [|r l IH]; intros m; [split; [by left|intros [|?%not_elem_of_nil]; done]|].
  cbn [foldl]. rewrite IH, BTree.keys_insert, fmap_cons, elem_of_cons. tauto.
Qed.

Lemma window_snoc i j v : (i <= j)%nat -> ds !! S j = Some v -> window i (S j) = window i j ++ [vd_data v].
Proof.
  intros Hij Hv. unfold window. rewrite (take_S_r _ _ _ Hv), drop_app_le, fmap_app; [done|].
  apply lookup_lt_Some in Hv. rewrite length_take. lia.
Qed.

Lemma dead_parts_snoc i j v : (i <= j)%nat -> ds !! S j = Some v -> dead_parts i (S j) = dead_parts i j ++ StateDiff.part_deletes (vd_data v).
Proof. intros Hij Hv. unfold dead_parts. rewrite (window_snoc i j v) by done. rewrite fmap_app, concat_app. simpl. by rewrite app_nil_r. Qed.

Lemma dead_rollups_snoc i j v : (i <= j)%nat -> ds !! S j = Some v -> dead_rollups i (S j) = dead_rollups i j ++ StateDiff.rollup_deletes (vd_data v).
Proof. intros Hij Hv. unfold dead_rollups. rewrite (window_snoc i j v) by done. rewrite fmap_app, concat_app. simpl. by rewrite app_nil_r. Qed.

Section finding.
Context `{SV : !SemVer Version} (build : Version) (Hread : readable build hist).

(** What has been found when the iterator has gone from [i] to [a]. *)
Definition found i a : PartDeletes * BTreeMap str unit := (add_all PartDeletes.default (dead_parts i a), name_all [] (dead_rollups i a)).

Lemma inspect_ok i a x y v : hist !! i = Some x -> hist !! S a = Some y -> (i <= a)%nat -> ds !! S a = Some v ->
  GarbageCollector.inspect_removable (InspectChange (vd_data v)) (found i a).1 (found i a).2 = Ret (found i (S a)).
Proof.
  intros Hx Hy Hia Hv. destruct (dead_parts_ok i (S a) x y Hx Hy ltac:(lia)) as (Hn & _ & _). destruct (dead_rollups_ok i (S a) x y Hx Hy ltac:(lia)) as (Hnr & _).
  rewrite (dead_parts_snoc i a v) in Hn by done. rewrite (dead_rollups_snoc i a v) in Hnr by done. rewrite part_keys_app in Hn. rewrite fmap_app in Hnr.
  apply NoDup_app in Hn as (_ & Hd & Hn), Hnr as (_ & Hdr & Hnr).
  unfold GarbageCollector.inspect_removable, found. cbn [fst snd]. rewrite names_assert; [|done|].
  2: { intros r Hr. rewrite named_keys. intros [Hin|Hin]; [by apply not_elem_of_nil in Hin|]. apply (Hdr _ Hin). by apply list_elem_of_fmap_2. }
  cbn [obind]. rewrite adds_assert; [|done|].
  2: { intros k Hk. split; intros Hin; destruct (added_keys PartDeletes.default (dead_parts i a) k) as [Hz|[Hz|Hz]]; try tauto;
       try (by apply not_elem_of_nil in Hz); by apply (Hd k Hz). }
  cbn [obind]. by rewrite (dead_parts_snoc i a v), (dead_rollups_snoc i a v), !foldl_app by done.
Qed.

Lemma find_loop_ok m i a j x y it turns : hist !! i = Some x -> hist !! j = Some y -> (i <= a < j)%nat -> (j < m <= length hist)%nat -> iter_at hist ds m a it ->
  (j - a <= turns)%nat ->
  exists it', GarbageCollector.find_loop build turns it (Z.of_nat j) (found i a).1 (found i a).2 = Ret (it', (found i j).1, (found i j).2) /\ iter_at hist ds m j it'.
Proof.
  intros Hx Hy Hia Hm Hit Ht. remember (j - a)%nat as len eqn:El. revert a it turns Hia Hit Ht El. induction len as [|len IH]; intros a it turns Hia Hit Ht El; [lia|].
  destruct turns as [|turns]; [lia|]. destruct (lookup_lt_is_Some_2 hist (S a)) as [z Hz]; [lia|].
  destruct (iter_next build shard hist ds Hrec Hread m a it z Hit ltac:(lia) Hz ltac:(lia)) as (v & it' & Hnext & Hv & Hst & Hit').
  cbn [GarbageCollector.find_loop]. rewrite Hnext. cbn [obind]. rewrite (inspect_ok i a x z v) by (done || lia). cbn [obind]. rewrite (surjective_pairing (found i (S a))).
  rewrite Hst, (cn_seqno _ (rh_chain _ _ _ Hrec) _ _ Hz). destruct (Z.eqb_spec (Z.of_nat (S a)) (Z.of_nat j)) as [E|Hne].
  - assert (S a = j) as <- by lia. exists it'. by split.
  - apply IH; [lia|done|lia|lia].
Qed.

(** The iterator may still have to show its first state. *)
Definition iter_from (m i : nat) (it : StateVersionsIter T Version) : Prop :=
  iter_at hist ds m i it \/ hist !! i = Some (it_state it) /\ it_diffs it = drop i (take m ds).

Lemma find_removable_ok m i j x y it : hist !! i = Some x -> hist !! j = Some y -> (i < j < m)%nat -> (m <= length hist)%nat -> iter_from m i it ->
  exists it', GarbageCollector.find_removable_blobs build it (Z.of_nat j) PartDeletes.default [] = Ret (it', (found i j).1, (found i j).2) /\ iter_at hist ds m j it'.
Proof.
  intros Hx Hy Hij Hm Hit. pose proof (same_length _ _ _ Hrec) as Hlen.
  assert (Hfound : found i i = (PartDeletes.default, [])) by (unfold found, dead_parts, dead_rollups; by rewrite window_none).
  assert (Hst : st_seqno (it_state it) = Z.of_nat i) by (apply (cn_seqno _ (rh_chain _ _ _ Hrec)); destruct Hit as [[? _]|[? _]]; done).
  unfold GarbageCollector.find_removable_blobs. rewrite Hst. destruct (Z.ltb_spec (Z.of_nat i) (Z.of_nat j)); [|lia]. cbn [assert_ obind].
  destruct Hit as [Hit|[Hx' Hd]].
  - destruct (find_loop_ok m i i j x y it (length (it_diffs it)) Hx Hy ltac:(lia) ltac:(lia) Hit) as (it' & He & Hit').
    + destruct Hit as [_ ->]. rewrite length_drop, length_take. lia.
    + rewrite Hfound in He. by exists it'.
  - assert (it_state it = x) as Ex by congruence. destruct (iter_first build shard hist ds Hrec Hread m i x ltac:(lia) Hx) as (it0 & Hnew & Hx0 & it1 & Hnext & Hit1).
    assert (it = it0) as <-.
    { unfold StateVersionsIter.new in Hnew. apply obind_Ret in Hnew as (_ & _ & [= <-]). destruct it. simpl in *. congruence. }
    destruct (length (it_diffs it)) as [|turns] eqn:Elen; [rewrite Hd, length_drop, length_take in Elen; lia|].
    cbn [GarbageCollector.find_loop]. rewrite Hnext. cbn [obind GarbageCollector.inspect_removable].
    rewrite (cn_seqno _ (rh_chain _ _ _ Hrec) _ _ (proj1 Hit1)). destruct (Z.eqb_spec (Z.of_nat i) (Z.of_nat j)); [lia|].
    destruct (find_loop_ok m i i j x y it1 turns Hx Hy ltac:(lia) ltac:(lia) Hit1) as (it' & He & Hit').
    + rewrite Hd, length_drop, length_take in Elen. lia.
    + rewrite Hfound in He. by exists it'.
Qed.
End finding.

(** ** The stores *)

Section stores.
Context `{SV : !SemVer Version} (codecs : Codecs) (build : Version) (fuel : nat) (W : str -> nat).
Context `{C : !Consensus (StateDiff T Version)} `{CL : !ConsensusLaws (StateDiff T Version)}.
Context `{B : !Blob (Object T Version)} `{BL : !BlobLaws (Object T Version)}.
Context (Hread : readable build hist).
Implicit Types (s : Stores T Version) (blob : bl_store).

Abbreviation snap := (snap codecs shard hist ds).
Abbreviation delete_key := (PartDeletes.delete_key (T := T) (Version := Version) shard).
Abbreviation at_key := (at_key (T := T) (Version := Version) shard).
Abbreviation reached := (reached (T := T) (Version := Version) shard).

(** A part of some state. *)
Definition ever q : Prop := exists i x, hist !! i = Some x /\ refs_of (Trace.batches (trace_of x)) q.

(** Parts share no blobs with each other or with rollups, and runs nest
    finitely. *)
Record blob_sound blob : Prop := {
  bs_forest : forall l, (forall q, q ∈ l -> ever q) -> forest shard blob l W;
  bs_apart : forall q q' k k' c, ever q -> ever q' -> part_key q = Some k -> part_key q' = Some k' -> k <> k' ->
    reached blob [q] c -> ~ reached blob [q'] c;
  bs_names : forall i x n r q, hist !! i = Some x -> (n, r) ∈ rollups_of x -> ever q -> ~ reached blob [q] (rollup_key r);
}.

Lemma reached_deleted blob ks l c : bl_ok blob -> reached (foldl delete_key blob ks) l c -> reached blob l c.
Proof. intros Hb (q & Hq & Hc). exists q. split; [by eapply partial_under|done]. Qed.

Lemma sound_deleted blob ks : bl_ok blob -> blob_sound blob -> blob_sound (foldl delete_key blob ks).
Proof.
  intros Hb [Hf Ha Hn]. split.
  - intros l Hl. by apply partial_forest, Hf.
  - intros q q' k k' c Hq Hq' Hk Hk' Hne Hr Hr'. by eapply (Ha q q' k k' c); try done; eapply reached_deleted.
  - intros i x n r q Hx Hin Hq Hr. eapply (Hn i x n r q); try done. by eapply reached_deleted.
Qed.

(** Reachable from a list is reachable from one of its parts. *)
Lemma under_one blob l q : under shard blob l q -> exists q0, q0 ∈ l /\ under shard blob [q0] q.
Proof.
  induction 1 as [q Hq|r parts q _ (q0 & Hin & Hu) Hp Hq].
  - exists q. split; [done|]. constructor. by apply list_elem_of_singleton.
  - exists q0. split; [done|]. by eapply under_child.
Qed.

Lemma under_more blob q0 l q : q0 ∈ l -> under shard blob [q0] q -> under shard blob l q.
Proof.
  intros Hin. induction 1 as [q Hq|r parts q _ IH Hp Hq]; [|by eapply under_child]. apply list_elem_of_singleton in Hq as ->. by constructor.
Qed.

(** A part that can be reached has a key at its root. *)
Lemma reached_keyed blob q c : reached blob [q] c -> is_Some (part_key q).
Proof.
  intros (q' & Hu & Hc). apply under_one in Hu as (q0 & Hq0 & Hu). apply list_elem_of_singleton in Hq0 as ->.
  destruct q as [[x|]|r]; simpl; [by eexists| |by eexists]. exfalso. remember [Single (Inline updates ts_rewrite schema_id deprecated_schema_id)] as l eqn:El.
  clear -Hu Hc El. assert (Hall : q' = Single (Inline updates ts_rewrite schema_id deprecated_schema_id)); [|by subst q'].
  clear Hc. induction Hu as [q Hq|r parts q _ IH Hp Hq]; [subst l; by apply list_elem_of_singleton in Hq|done].
Qed.

(** A part that some state had is in a later one if its key is. *)
Lemma part_back i j x y q k : hist !! i = Some x -> hist !! j = Some y -> (i <= j)%nat -> refs_of (Trace.batches (trace_of x)) q ->
  part_key q = Some k -> k ∈ trace_keys (trace_of y) -> refs_of (Trace.batches (trace_of y)) q.
Proof.
  intros Hx Hy Hij Hq Hk Hin. revert y Hy Hin. induction Hij as [|j Hij IH]; intros y Hy Hin; [by assert (y = x) as -> by congruence|].
  destruct (lookup_lt_is_Some_2 hist j) as [z Hz]; [apply lookup_lt_Some in Hy; lia|]. apply in_trace_keys in Hin as (g & q' & Hg & Hq' & Hk').
  assert (Href : refs_of (Trace.batches (trace_of y)) q') by by exists g.
  assert (Hkx : k ∈ trace_keys (trace_of x)) by (destruct Hq as (h & Hh & Hqh); apply in_trace_keys; by exists h, q).
  destruct (kh_parts Hkey j z y q' k Hz Hy Href Hk') as [Hold|Hfr]; [|by destruct (Hfr i x Hx Hij)].
  assert (Hkz : k ∈ trace_keys (trace_of z)) by (destruct Hold as (h & Hh & Hqh); apply in_trace_keys; by exists h, q').
  specialize (IH z Hz Hkz). destruct Hold as (h & Hh & Hqh), IH as (h2 & Hh2 & Hqh2).
  assert (q = q') as -> by (eapply (keyed_unique (trace_of z) h2 h q q' k); try done; by apply (kh_keyed Hkey j)). done.
Qed.

(** *** One truncation *)

(** What is deleted when the versions from [i] to [j] have been gone through. *)
Definition doomed blob i j c : Prop := reached blob (dead_parts i j) c \/ c ∈ rollup_key <$> dead_rollups i j.

Lemma dead_ever i j x y q : hist !! i = Some x -> hist !! j = Some y -> (i <= j)%nat -> q ∈ dead_parts i j -> ever q.
Proof. intros Hx Hy Hij Hq. destruct (dead_parts_ok i j x y Hx Hy Hij) as (_ & Hp & _). destruct (Hp q Hq) as (a & z & _ & Hz & Href). by exists a, z. Qed.

(** No part of a later state is among it, *)
Lemma doomed_parts blob i j b x y z q c : blob_sound blob -> hist !! i = Some x -> hist !! j = Some y -> hist !! b = Some z -> (i <= j <= b)%nat ->
  refs_of (Trace.batches (trace_of z)) q -> reached blob [q] c -> ~ doomed blob i j c.
Proof.
  intros [_ Hapart Hnames] Hx Hy Hz Hij Hq Hr. assert (Hev : ever q) by by exists b, z. intros [(q1 & Hu & Hc)|Hc].
  - apply under_one in Hu as (q0 & Hq0 & Hu). assert (Hr0 : reached blob [q0] c) by by exists q1.
    destruct (reached_keyed _ _ _ Hr0) as [k0 Hk0], (reached_keyed _ _ _ Hr) as [k1 Hk1].
    refine (Hapart q q0 k1 k0 c Hev (dead_ever i j x y q0 Hx Hy ltac:(lia) Hq0) Hk1 Hk0 _ Hr Hr0). intros ->.
    destruct (dead_parts_ok i j x y Hx Hy ltac:(lia)) as (_ & _ & Hks).
    destruct (Hks k0) as [[(a & w & Ha & Hw & Hin) Hout] _]; [apply elem_of_part_keys; by exists q0|].
    apply (key_gone a j b w y z k0 Hw Hy Hz ltac:(lia) Hin Hout). destruct Hq as (h & Hh & Hqh). apply in_trace_keys. by exists h, q.
  - apply list_elem_of_fmap in Hc as (r & -> & Hr'). destruct (dead_rollups_ok i j x y Hx Hy ltac:(lia)) as [_ Hd].
    destruct (Hd r Hr') as (a & w & n & _ & Hw & Hin & _). by eapply (Hnames a w n r q).
Qed.

(** and none of its rollups. *)
Lemma dead_named i j b x y z n r : hist !! i = Some x -> hist !! j = Some y -> hist !! b = Some z -> (i <= j <= b)%nat ->
  (n, r) ∈ rollups_of z -> rollup_key r ∉ rollup_key <$> dead_rollups i j.
Proof.
  intros Hx Hy Hz Hij Hin Hc. apply list_elem_of_fmap in Hc as (r' & E & Hr'). destruct (dead_rollups_ok i j x y Hx Hy ltac:(lia)) as [_ Hd].
  destruct (Hd r' Hr') as (a & w & n' & Ha & Hw & Hin' & Hout).
  pose proof (rollup_named _ _ _ Hin') as Hnm. rewrite <- E in Hnm.
  pose proof (rollup_back a a b w w z n r Hw Hw Hz ltac:(lia) Hnm Hin) as Hin2.
  pose proof (rollup_back a j b w y z n r Hw Hy Hz ltac:(lia) Hnm Hin) as Hin3.
  assert (n = n') as <- by by eapply (rollup_name_inj a a w w n n' r r').
  pose proof (mo_rollups _ (ch_maps _ (cn_ok _ (rh_chain _ _ _ Hrec) _ _ Hw))) as Hs. apply (sorted_get _ _ _ Hs) in Hin', Hin2. congruence.
Qed.

Lemma doomed_rollups blob i j b x y z n r : blob_sound blob -> hist !! i = Some x -> hist !! j = Some y -> hist !! b = Some z -> (i <= j <= b)%nat ->
  (n, r) ∈ rollups_of z -> ~ doomed blob i j (rollup_key r).
Proof.
  intros [_ _ Hnames] Hx Hy Hz Hij Hin [(q1 & Hu & Hc)|Hc].
  - apply under_one in Hu as (q0 & Hq0 & Hu). apply (Hnames b z n r q0 Hz Hin (dead_ever i j x y q0 Hx Hy ltac:(lia) Hq0)). by exists q1.
  - by eapply (dead_named i j b x y z n r).
Qed.

Lemma delete_and_truncate_ok (m k i j : nat) x y s : snap m k s -> blob_sound (vs_blob s) -> hist !! i = Some x -> hist !! j = Some y -> (i < j < m)%nat ->
  (weight W (found i j).1 <= fuel)%nat ->
  exists s' ks, GarbageCollector.delete_and_truncate fuel s shard (Z.of_nat j) (found i j).1 (found i j).2 = Some (Ret s') /\
    vs_blob s' = foldl delete_key (vs_blob s) ks /\ log_of shard s' = drop (Nat.max k j) (take m ds) /\
    (forall c, c ∈ ks -> doomed (vs_blob s) i j c) /\ (forall c, doomed (vs_blob s) i j c -> at_key (vs_blob s') c = None).
Proof.
  intros Hsnap Hsound Hx Hy Hij Hw. destruct (snap_current codecs shard hist ds Hrec m k s Hsnap) as (_ & n0 & _ & _ & _ & _ & Hkm & _).
  destruct Hsnap as [Hm Hst]. pose proof (so_blob_ok _ _ _ _ _ _ Hst) as Hb.
  pose proof (bs_forest _ Hsound (dead_parts i j) (fun q Hq => dead_ever i j x y q Hx Hy ltac:(lia) Hq)) as Hf.
  destruct (delete_ok shard (vs_blob s) (dead_parts i j) W fuel Hf Hb Hw) as (ls & rk & Hsw & He).
  unfold GarbageCollector.delete_and_truncate, found. cbn [fst snd]. rewrite He.
  set (names := BTree.keys (name_all [] (dead_rollups i j))).
  change (foldl (fun blob key => (bl_delete blob (complete_key key shard)).1)) with (foldl delete_key). rewrite <- foldl_app. set (ks := (ls ++ rev rk) ++ names).
  assert (Hlen : length ds = length hist) by by eapply same_length.
  destruct (window_last shard hist ds Hrec k m) as (v & Hv & Hvs); [lia|].
  assert (Hlog : cs_log (vs_consensus s) (ShardId_fmt shard) = drop k (take m ds)) by exact (so_log _ _ _ _ _ _ Hst).
  destruct (cs_truncate_ok (vs_consensus s) (ShardId_fmt shard) (Z.of_nat j) v) as (c' & n & Ht & Hlog' & _); [by rewrite Hlog|lia|].
  unfold StateVersions.truncate_diffs. cbn [vs_consensus StateVersions.with_blob]. rewrite Ht.
  eexists _, ks. split; [reflexivity|]. cbn [vs_blob StateVersions.with_consensus StateVersions.with_blob]. split; [done|]. split.
  { unfold log_of. cbn [vs_consensus StateVersions.with_consensus]. rewrite Hlog', Hlog.
    by rewrite (log_filter (take m hist) (take m ds) k j) by (by eapply prefix_chain || by eapply prefix_log). }
  split; intros c Hc.
  - unfold ks in Hc. apply elem_of_app in Hc as [Hc|Hc]; [left; by apply (deleted_reached shard (vs_blob s) (dead_parts i j) W ls rk)|].
    right. unfold names in Hc. apply named_keys in Hc as [Hc|Hc]; [by apply not_elem_of_nil in Hc|done].
  - unfold ks. rewrite get_deleted by done. destruct (decide (c ∈ (ls ++ rev rk) ++ names)) as [?|Hno]; [done|].
    rewrite !elem_of_app in Hno. destruct Hc as [Hc|Hc].
    + apply (deleted_reached shard (vs_blob s) (dead_parts i j) W ls rk) in Hc; [|done..]. rewrite get_deleted in Hc by done.
      case_decide as Hd; [|done]. apply elem_of_app in Hd. tauto.
    + exfalso. apply Hno. right. unfold names. apply named_keys. by right.
Qed.

(** What a collection that truncates from [i] to [j] has done: nothing that
    the states from [j] on have, their parts and all below them and their
    rollups, has changed, and what the states before had, and [j] has not, is
    gone. *)
Record collected (m i j : nat) s s' : Prop := {
  co_snap : snap m j s';
  co_sound : blob_sound (vs_blob s');
  co_gone : forall key, bl_get (vs_blob s') key = bl_get (vs_blob s) key \/ bl_get (vs_blob s') key = None;
  co_kept : forall b z q c, hist !! b = Some z -> (j <= b)%nat -> refs_of (Trace.batches (trace_of z)) q -> reached (vs_blob s) [q] c ->
    reached (vs_blob s') [q] c /\ at_key (vs_blob s') c = at_key (vs_blob s) c;
  co_rollups : forall b z n r, hist !! b = Some z -> (j <= b)%nat -> (n, r) ∈ rollups_of z ->
    at_key (vs_blob s') (rollup_key r) = at_key (vs_blob s) (rollup_key r);
  co_swept : forall a z y q k c, hist !! a = Some z -> hist !! j = Some y -> (i <= a < j)%nat -> refs_of (Trace.batches (trace_of z)) q ->
    part_key q = Some k -> k ∉ trace_keys (trace_of y) -> reached (vs_blob s) [q] c -> at_key (vs_blob s') c = None;
}.

Lemma collected_none m i s : snap m i s -> blob_sound (vs_blob s) -> collected m i i s s.
Proof. intros Hs Hb. split; try done; [by left|intros; lia]. Qed.

(** What is below a part stays below it if none of it is deleted. *)
Lemma reached_kept blob ks q c : bl_ok blob -> (forall c', reached blob [q] c' -> c' ∉ ks) -> reached blob [q] c -> reached (foldl delete_key blob ks) [q] c.
Proof.
  intros Hb Hks (q1 & Hu & Hc). exists q1. split; [|done]. clear c Hc. induction Hu as [q' Hq'|r parts q' Hr IH Hp Hq']; [by constructor|].
  eapply under_child; [exact IH| |done]. unfold run_at. rewrite get_deleted by done. rewrite decide_False; [exact Hp|]. apply Hks. by exists (Many r).
Qed.

Lemma truncation_rollups i j b x y z s s' ks n r : bl_ok (vs_blob s) -> blob_sound (vs_blob s) -> hist !! i = Some x -> hist !! j = Some y -> hist !! b = Some z ->
  (i <= j <= b)%nat -> vs_blob s' = foldl delete_key (vs_blob s) ks -> (forall c, c ∈ ks -> doomed (vs_blob s) i j c) -> (n, r) ∈ rollups_of z ->
  at_key (vs_blob s') (rollup_key r) = at_key (vs_blob s) (rollup_key r).
Proof.
  intros Hb Hsound Hx Hy Hz Hij Hblob Hks Hin. rewrite Hblob, get_deleted by done. rewrite decide_False; [done|]. intros Hc%Hks.
  by eapply (doomed_rollups (vs_blob s) i j b x y z n r).
Qed.

Lemma truncation_parts i j b x y z s s' ks q c : bl_ok (vs_blob s) -> blob_sound (vs_blob s) -> hist !! i = Some x -> hist !! j = Some y -> hist !! b = Some z ->
  (i <= j <= b)%nat -> vs_blob s' = foldl delete_key (vs_blob s) ks -> (forall c, c ∈ ks -> doomed (vs_blob s) i j c) ->
  refs_of (Trace.batches (trace_of z)) q -> reached (vs_blob s) [q] c ->
  reached (vs_blob s') [q] c /\ at_key (vs_blob s') c = at_key (vs_blob s) c.
Proof.
  intros Hb Hsound Hx Hy Hz Hij Hblob Hks Hq Hc. assert (Hno : forall c', reached (vs_blob s) [q] c' -> c' ∉ ks).
  { intros c' Hc' Hin%Hks. by eapply (doomed_parts (vs_blob s) i j b x y z q c'). }
  split; rewrite Hblob; [by apply reached_kept|]. rewrite get_deleted by done. rewrite decide_False; [done|]. by apply Hno.
Qed.

(** The stores are in order, with the latest of the truncations. *)
Lemma truncation_snap (m k i j : nat) x y cur s s' ks : snap m k s -> blob_sound (vs_blob s) -> hist !! i = Some x -> hist !! j = Some y -> (i < j < m)%nat ->
  hist !! pred m = Some cur -> BTree.contains (Z.of_nat (Nat.max k j)) (rollups_of cur) = true ->
  vs_blob s' = foldl delete_key (vs_blob s) ks -> log_of shard s' = drop (Nat.max k j) (take m ds) ->
  (forall c, c ∈ ks -> doomed (vs_blob s) i j c) -> snap m (Nat.max k j) s'.
Proof.
  intros [Hm Hst] Hsound Hx Hy Hij Hcur Hroll Hblob Hlog Hks. pose proof (so_blob_ok _ _ _ _ _ _ Hst) as Hb.
  assert (Hla : last (take m hist) = Some cur) by (by rewrite (last_take hist m Hm)).
  split; [done|]. split; [done|..].
  - intros z n r o Hz Hin Ho. apply (so_rollups _ _ _ _ _ _ Hst z n r o Hz Hin). unfold rollup_blob in *.
    rewrite Hblob in Ho. change (at_key (foldl delete_key (vs_blob s) ks) (rollup_key r) = Some o) in Ho. rewrite get_deleted in Ho by done. by case_decide.
  - intros z n r Hz Hin. assert (z = cur) as -> by congruence. unfold rollup_blob. change (is_Some (at_key (vs_blob s') (rollup_key r))).
    erewrite (truncation_rollups i j (pred m) x y cur s s' ks n r) by (done || lia). by apply (so_current _ _ _ _ _ _ Hst cur n r).
  - intros z Hz. by assert (z = cur) as -> by congruence.
  - rewrite Hblob. by apply delete_keys_ok.
Qed.

Lemma part_unique i j x y q q' k : hist !! i = Some x -> hist !! j = Some y -> refs_of (Trace.batches (trace_of x)) q -> refs_of (Trace.batches (trace_of y)) q' ->
  part_key q = Some k -> part_key q' = Some k -> q = q'.
Proof.
  intros Hx Hy Hq Hq' Hk Hk'.
  assert (Hin : forall (z : State T Version) p, refs_of (Trace.batches (trace_of z)) p -> part_key p = Some k -> k ∈ trace_keys (trace_of z))
    by (intros z p (h & Hh & Hp) Hpk; apply in_trace_keys; by exists h, p).
  assert (Hsame : exists l w, hist !! l = Some w /\ refs_of (Trace.batches (trace_of w)) q /\ refs_of (Trace.batches (trace_of w)) q').
  { destruct (Nat.le_gt_cases i j); [exists j, y|exists i, x]; split_and!; try done;
      [by eapply (part_back i j x y q k), Hin|eapply (part_back j i y x q' k); try done; [lia|by eapply Hin]]. }
  destruct Hsame as (l & w & Hw & (h1 & Hh1 & Hq1) & (h2 & Hh2 & Hq2)).
  by eapply (keyed_unique (trace_of w) h1 h2 q q' k); try done; apply (kh_keyed Hkey l).
Qed.

Lemma truncation_ok m i j x y cur s s' ks : snap m i s -> blob_sound (vs_blob s) -> hist !! i = Some x -> hist !! j = Some y -> (i < j < m)%nat ->
  hist !! pred m = Some cur -> BTree.contains (Z.of_nat j) (rollups_of cur) = true ->
  vs_blob s' = foldl delete_key (vs_blob s) ks -> log_of shard s' = drop j (take m ds) ->
  (forall c, c ∈ ks -> doomed (vs_blob s) i j c) -> (forall c, doomed (vs_blob s) i j c -> at_key (vs_blob s') c = None) ->
  collected m i j s s'.
Proof.
  intros Hsnap Hsound Hx Hy Hij Hcur Hroll Hblob Hlog Hks Hgone. pose proof (so_blob_ok _ _ _ _ _ _ (proj2 Hsnap)) as Hb. split.
  - replace j with (Nat.max i j) by lia. eapply (truncation_snap m i i j x y cur s s' ks); try done; by replace (Nat.max i j) with j by lia.
  - rewrite Hblob. by apply sound_deleted.
  - intros key. rewrite Hblob, get_deleted_at by done. case_decide; [by right|by left].
  - intros b z q c Hz Hjb Hq Hc. eapply (truncation_parts i j b x y z s s' ks q c); try done; lia.
  - intros b z n r Hz Hjb Hin. eapply (truncation_rollups i j b x y z s s' ks n r); try done; lia.
  - intros a z y' q k c Hz Hy' Ha Hq Hk Hout Hc. assert (y' = y) as -> by congruence. apply Hgone. left.
    destruct (dead_parts_ok i j x y Hx Hy ltac:(lia)) as (_ & Hp & Hdk). destruct (Hdk k) as [_ Hin].
    assert (Hkz : k ∈ trace_keys (trace_of z)) by (destruct Hq as (h & Hh & Hqh); apply in_trace_keys; by exists h, q).
    destruct (proj1 (elem_of_part_keys _ _) (Hin (conj (ex_intro _ a (ex_intro _ z (conj Ha (conj Hz Hkz)))) Hout))) as (q0 & Hq0 & Hk0).
    destruct (Hp q0 Hq0) as (a0 & z0 & Ha0 & Hz0 & Hr0).
    assert (q0 = q) as -> by by eapply (part_unique a0 a z0 z q0 q k). destruct Hc as (q1 & Hu & Hc). exists q1. split; [by eapply under_more|done].
Qed.

Lemma collected_more m i j l s s1 s2 : (i <= j <= l)%nat -> (l < length hist)%nat -> collected m i j s s1 -> collected m j l s1 s2 -> collected m i l s s2.
Proof.
  intros Hij Hl [Hs1 Hb1 Hg1 Hk1 Hr1 Hw1] [Hs2 Hb2 Hg2 Hk2 Hr2 Hw2]. split; [done|done|..].
  - intros key. destruct (Hg2 key) as [->|?]; [apply Hg1|by right].
  - intros b z q c Hz Hb Hq Hc. destruct (Hk1 b z q c Hz ltac:(lia) Hq Hc) as [Hc1 E1]. destruct (Hk2 b z q c Hz Hb Hq Hc1) as [Hc2 E2].
    split; [done|congruence].
  - intros b z n r Hz Hb Hin. rewrite (Hr2 b z n r) by done. apply (Hr1 b z n r); [done|lia|done].
  - intros a z y q k c Hz Hy Ha Hq Hk Hout Hc. destruct (lookup_lt_is_Some_2 hist j) as [w Hw]; [lia|].
    assert (Hnone : forall c', at_key (vs_blob s1) c' = None -> at_key (vs_blob s2) c' = None).
    { intros c' Hc'. unfold DeleteFacts.at_key in *. destruct (Hg2 (complete_key c' shard)) as [E|E]; congruence. }
    destruct (Nat.lt_ge_cases a j) as [Haj|Haj].
    + destruct (decide (k ∈ trace_keys (trace_of w))) as [Hin|Hno]; [|apply Hnone; eapply (Hw1 a z w q k c); try done; lia].
      assert (Hqw : refs_of (Trace.batches (trace_of w)) q) by (eapply (part_back a j z w q k); try done; lia).
      destruct (Nat.eq_dec j l) as [->|Hne]; [by assert (y = w) as -> by congruence|].
      destruct (Hk1 j w q c Hw ltac:(lia) Hqw Hc) as [Hc1 _]. eapply (Hw2 j w y q k c); try done; lia.
    + destruct (Hk1 a z q c Hz ltac:(lia) Hq Hc) as [Hc1 _]. eapply (Hw2 a z y q k c); try done; lia.
Qed.

(** *** The checks and the loop *)

Lemma check_all_ok i j x y : hist !! i = Some x -> hist !! j = Some y -> (i < j)%nat ->
  foldM (fun _ => GarbageCollector.check_live shard (Z.of_nat j) (found i j).1 (found i j).2) (State.blobs y) tt = Ret tt.
Proof.
  intros Hx Hy Hij. destruct (dead_parts_ok i j x y Hx Hy ltac:(lia)) as (_ & _ & Hks).
  assert (Hone : forall b, b ∈ State.blobs y -> GarbageCollector.check_live shard (Z.of_nat j) (found i j).1 (found i j).2 b = Ret tt).
  { intros b [(h & -> & Hh)%list_elem_of_fmap|(r & -> & Hr)%list_elem_of_fmap]%elem_of_app; cbn [GarbageCollector.check_live].
    - assert (E : forallb (fun part => negb (PartDeletes.contains (found i j).1 part)) (hb_parts h) = true); [|by rewrite E].
      apply forallb_forall. intros q Hq%list_elem_of_In. apply negb_true_iff, not_true_iff_false. intros Hc.
      assert (Hk : exists k, part_key q = Some k /\ (k ∈ leaf_keys_of (found i j).1 \/ k ∈ run_keys_of (found i j).1)).
      { destruct q as [[p|]|r]; simpl in Hc; [|done|]; apply BTree.contains_keys in Hc; eexists; (split; [done|]); [by left|by right]. }
      destruct Hk as (k & Hqk & Hin). apply added_keys in Hin as [Hz|[Hz|Hz]]; [by apply not_elem_of_nil in Hz..|].
      apply Hks in Hz as [_ Hout]. apply Hout, in_trace_keys. by exists h, q.
    - apply list_elem_of_fmap in Hr as ([n r'] & -> & Hin). cbn [snd]. destruct (rh_keys _ _ _ Hrec j y n r' Hy Hin) as [Hn [id Hid]].
      assert (E : BTree.contains (rollup_key r') (found i j).2 = false).
      { apply not_true_iff_false. rewrite BTree.contains_keys. unfold found. cbn [snd]. rewrite named_keys. intros [Hz|Hz]; [by apply not_elem_of_nil in Hz|].
        by eapply (dead_named i j j x y y n r'); try done; lia. }
      rewrite E. cbn [negb assert_ obind]. pose proof (rh_size _ _ _ Hrec) as Hsz. pose proof (lookup_lt_Some _ _ _ Hy).
      rewrite Hid, parse_rollup_key by (unfold i64_max, u64_max in *; lia). cbn [obind].
      destruct (Z.ltb_spec (Z.of_N (Z.to_N n)) (Z.of_nat j)); [done|lia]. }
  revert Hone. induction (State.blobs y) as [|b bs IH]; intros Hone; [done|]. cbn [foldM]. rewrite Hone by by left. cbn [obind]. apply IH. intros b' Hb'. apply Hone. by right.
Qed.

Lemma plan_ok m i j x y g it : hist !! i = Some x -> hist !! j = Some y -> (i < j < m)%nat -> (m <= length hist)%nat -> iter_from m i it ->
  Z.of_nat i ∈ gc_rollup_seqnos g -> Z.of_nat j ∈ gc_rollup_seqnos g ->
  exists it', GarbageCollector.plan_truncation build g it (Z.of_nat j) = Ret (Some (it', (found i j).1, (found i j).2)) /\ iter_from m j it' /\ it_state it' = y.
Proof.
  intros Hx Hy Hij Hm Hit Hgi Hgj. destruct (find_removable_ok build Hread m i j x y it Hx Hy Hij Hm Hit) as (it' & Hf & Hit').
  assert (Hst : st_seqno (it_state it) = Z.of_nat i) by (apply (cn_seqno _ (rh_chain _ _ _ Hrec)); destruct Hit as [[? _]|[? _]]; done).
  assert (Ey : it_state it' = y) by (destruct Hit' as [Hs _]; congruence).
  assert (Hst' : st_seqno y = Z.of_nat j) by by apply (cn_seqno _ (rh_chain _ _ _ Hrec)).
  exists it'. split; [|split; [by left|done]]. unfold GarbageCollector.plan_truncation, GcRollups.contains_seqno. rewrite Hst.
  destruct (Z.leb_spec (Z.of_nat j) (Z.of_nat i)); [lia|]. rewrite bool_decide_eq_true_2 by done. cbn [assert_ obind]. rewrite Hf. cbn [obind].
  rewrite Ey, Hst', Z.eqb_refl, bool_decide_eq_true_2 by done. cbn [assert_ obind]. rewrite (rh_shard _ _ _ Hrec j y Hy).
  by rewrite (check_all_ok i j x y Hx Hy) by lia.
Qed.

(** [mi]: how many states the collector has read. *)
Lemma incremental_ok seqnos (mi m k : nat) s it g cur res : snap m k s -> blob_sound (vs_blob s) -> iter_from mi k it -> (k < mi <= m)%nat ->
  hist !! pred m = Some cur -> (forall i j, (i < j < length hist)%nat -> (weight W (found i j).1 <= fuel)%nat) ->
  Z.of_nat k ∈ gc_rollup_seqnos g ->
  (forall n, n ∈ seqnos -> 0 <= n < Z.of_nat mi /\ n ∈ gc_rollup_seqnos g /\ (Z.of_nat k <= n -> BTree.contains n (rollups_of cur) = true)) ->
  exists it' s' res' (k' : nat), GarbageCollector.incrementally_delete_and_truncate build fuel seqnos g it s res = Some (Ret (it', s', res')) /\
    collected m k k' s s' /\ (k <= k' < mi)%nat /\ (forall n, n ∈ seqnos -> n <= Z.of_nat k') /\ (k' = k \/ Z.of_nat k' ∈ seqnos).
Proof.
  intros Hs Hb Hit Hk Hcur Hfuel. revert k s it res Hs Hb Hit Hk. induction seqnos as [|n seqnos IH]; intros k s it res Hs Hb Hit Hk Hgk Hseq.
  { exists it, s, res, k. split_and!; [done|by apply collected_none|lia|lia|by intros ? ?%not_elem_of_nil|by left]. }
  pose proof (proj1 Hs) as Hm. cbn [GarbageCollector.incrementally_delete_and_truncate]. destruct (Hseq n) as (Hn & Hgn & Hin); [by left|].
  assert (Hrest : forall n', n' ∈ seqnos -> 0 <= n' < Z.of_nat mi /\ n' ∈ gc_rollup_seqnos g /\ (Z.of_nat k <= n' -> BTree.contains n' (rollups_of cur) = true))
    by (intros n' Hn'; apply Hseq; by right).
  destruct (Z.le_gt_cases n (Z.of_nat k)) as [Hle|Hgt].
  - assert (Hst : st_seqno (it_state it) = Z.of_nat k) by (apply (cn_seqno _ (rh_chain _ _ _ Hrec)); destruct Hit as [[? _]|[? _]]; done).
    unfold GarbageCollector.plan_truncation at 1. rewrite Hst. destruct (Z.leb_spec n (Z.of_nat k)); [|lia].
    destruct (IH k s it res Hs Hb Hit Hk Hgk Hrest) as (it' & s' & res' & k' & He & Hc & Hk' & Hall & Hor). exists it', s', res', k'. split_and!; try done; try lia.
    + intros n' [->|Hn']%elem_of_cons; [lia|by apply Hall].
    + destruct Hor as [?|?]; [by left|right; by right].
  - destruct (lookup_lt_is_Some_2 hist k) as [x Hx]; [lia|]. destruct (lookup_lt_is_Some_2 hist (Z.to_nat n)) as [y Hy]; [lia|].
    set (j := Z.to_nat n) in *. assert (En : n = Z.of_nat j) by lia. rewrite En in *.
    destruct (plan_ok mi k j x y g it Hx Hy ltac:(lia) ltac:(lia) Hit Hgk Hgn) as (it1 & Hp & Hit1 & Ey). rewrite Hp, Ey, (rh_shard _ _ _ Hrec j y Hy).
    destruct (delete_and_truncate_ok m k k j x y s Hs Hb Hx Hy ltac:(lia) (Hfuel k j ltac:(lia))) as (s1 & ks & Hd & Hblob & Hlog & Hks & Hgone). rewrite Hd.
    rewrite Nat.max_r in Hlog by lia.
    assert (Hc1 : collected m k j s s1) by (eapply (truncation_ok m k j x y cur s s1 ks); try done; [lia|apply Hin; lia]).
    edestruct (IH j s1 it1) as (it' & s' & res' & k' & He & Hc & Hk' & Hall & Hor); [apply Hc1|apply Hc1|exact Hit1|lia|done| |].
    { intros n' Hn'. destruct (Hrest n' Hn') as (? & ? & Hc'). split_and!; try done; try lia. intros ?. apply Hc'. lia. }
    exists it', s', res', k'. split_and!; [exact He| |lia|lia|..].
    + eapply (collected_more m k j k' s s1 s'); [lia|lia|done|done].
    + intros n' [->|Hn']%elem_of_cons; [lia|by apply Hall].
    + right. destruct Hor as [->|?]; [by left|by right].
Qed.

(** *** The routine *)

Lemma lte_in x n (since : SeqNo) : n ∈ fst <$> GarbageCollector.rollups_lte_seqno x since <-> n <= since /\ exists r, (n, r) ∈ rollups_of x.
Proof.
  unfold GarbageCollector.rollups_lte_seqno. rewrite <- list_fmap_compose, list_elem_of_fmap. split.
  - intros ([n' r] & -> & [Hle Hin]%list_elem_of_filter). split; [done|by exists r].
  - intros [Hle [r Hin]]. exists (n, r). split; [done|]. by apply list_elem_of_filter.
Qed.

Lemma lte_sorted x (since : SeqNo) : BTree.sorted (rollups_of x) -> BTree.sorted (GarbageCollector.rollups_lte_seqno x since).
Proof.
  intros Hs%(BTree.sorted_filter (fun r : SeqNo * HollowRollup => r.1 <= since)). unfold GarbageCollector.rollups_lte_seqno. change (sc_rollups (st_collections x)) with (rollups_of x).
  induction (filter _ _) as [|[n r] m IH]; [done|]. destruct Hs as [Hn Hs]. rewrite fmap_cons. split; [|by apply IH].
  apply Forall_fmap. eapply Forall_impl; [exact Hn|]. by intros [] ?.
Qed.

(** All but the last are before the last. *)
Lemma ascending_last (l : BTreeMap SeqNo str) (n : SeqNo) : BTree.sorted l -> n ∈ fst <$> l -> (forall n', n' ∈ fst <$> l -> n' <= n) ->
  forall e, e ∈ removelast l -> e.1 < n.
Proof.
  induction l as [|[a b] l IH]; intros Hs Hn Hmax e He; [by apply not_elem_of_nil in He|]. destruct Hs as [Ha Hs].
  destruct l as [|e' l]; [by apply not_elem_of_nil in He|]. remember (e' :: l) as l' eqn:El. assert (Hne : l' <> []) by by subst.
  assert (Hlt : forall n', n' ∈ fst <$> l' -> a < n').
  { intros n' (e1 & -> & He1)%list_elem_of_fmap. rewrite Forall_forall in Ha. specialize (Ha e1 He1). by apply Z.ltb_lt. }
  assert (Hn' : n ∈ fst <$> l').
  { rewrite fmap_cons in Hn. apply elem_of_cons in Hn as [->|?]; [|done]. exfalso. subst l'.
    assert (Hin : e'.1 ∈ fst <$> (e' :: l)) by (rewrite fmap_cons; by left). pose proof (Hlt _ Hin).
    assert (e'.1 <= (a, b).1) by (apply Hmax; rewrite fmap_cons; by right). simpl in *. lia. }
  assert (Hrl : removelast ((a, b) :: l') = (a, b) :: removelast l') by (by destruct l'). rewrite Hrl in He.
  apply elem_of_cons in He as [->|He]; [by apply Hlt|]. apply IH; try done. intros n' Hn''. apply Hmax. rewrite fmap_cons. by right.
Qed.

Lemma removelast_sublist {A} (l : list A) : removelast l `sublist_of` l.
Proof. induction l as [|e l IH]; [constructor|]. destruct l as [|e' l]; [apply sublist_nil_l|]. cbn [removelast]. by apply sublist_skip. Qed.

Definition known_rollups x (since : SeqNo) : GcRollups :=
  let l := GarbageCollector.rollups_lte_seqno x since in {| gc_rollups_lte_seqno_since := l; gc_rollup_seqnos := fst <$> l |}.

Lemma gc_rollups_new x req : let since := State.gc_new_seqno_since req in
  GcRollups.new (GarbageCollector.rollups_lte_seqno x since) req = Ret (known_rollups x since).
Proof.
  intros since. unfold GcRollups.new. set (l := GarbageCollector.rollups_lte_seqno x since).
  assert (E : forallb (fun r : SeqNo * str => r.1 <=? State.gc_new_seqno_since req) l = true); [|by rewrite E].
  apply forallb_forall. intros [n key] Hn%list_elem_of_In. apply Z.leb_le.
  apply (lte_in x n since). apply list_elem_of_fmap. by exists (n, key).
Qed.

Lemma remove_sublist x since :
  GcRollups.rollups_to_remove_from_state (known_rollups x since) `sublist_of` ((fun e : SeqNo * HollowRollup => (e.1, rollup_key e.2)) <$> rollups_of x).
Proof.
  unfold GcRollups.rollups_to_remove_from_state. cbn [gc_rollups_lte_seqno_since known_rollups]. etrans; [apply removelast_sublist|].
  apply fmap_sublist, sublist_filter.
Qed.

(** What the collector knows: its state [known] is one of the history, the
    request is allowed by it, and the rollups it goes by, from the earliest
    live version on, are still in the current state. *)
Record gc_knows (mi m k : nat) (known : State T Version) (since : SeqNo) : Prop := {
  gk_known : known ∈ hist;
  gk_since : since <= State.seqno_since known;
  gk_earliest : BTree.contains (Z.of_nat k) (rollups_of known) = true;
  gk_due : Z.of_nat k <= since;
  gk_current : forall n cur, BTree.contains n (rollups_of known) = true -> Z.of_nat k <= n <= since -> hist !! pred m = Some cur ->
    n < Z.of_nat mi /\ BTree.contains n (rollups_of cur) = true;
  gk_read : (k < mi <= m)%nat;
}.

Lemma known_seqnos x n since : n ∈ gc_rollup_seqnos (known_rollups x since) <-> n <= since /\ BTree.contains n (rollups_of x) = true.
Proof.
  cbn [gc_rollup_seqnos known_rollups]. rewrite lte_in, BTree.contains_keys. unfold BTree.keys. rewrite list_elem_of_fmap. split.
  - intros [? [r Hr]]. split; [done|by exists (n, r)].
  - intros [? ([n' r] & -> & Hr)]. split; [done|by exists r].
Qed.

(** What it does: it truncates to the last rollup up to [since]. *)
Definition last_due (x : State T Version) (since : SeqNo) (j : nat) : Prop :=
  (BTree.contains (Z.of_nat j) (rollups_of x) = true /\ Z.of_nat j <= since) /\
  forall n, BTree.contains n (rollups_of x) = true -> n <= since -> n <= Z.of_nat j.

Lemma incremental_due (mi m k : nat) s it x since res : gc_knows mi m k x since -> snap m k s -> blob_sound (vs_blob s) -> iter_from mi k it ->
  (forall i j, (i < j < length hist)%nat -> (weight W (found i j).1 <= fuel)%nat) ->
  exists it' s' res' (j : nat), GarbageCollector.incrementally_delete_and_truncate build fuel (GcRollups.truncate_seqnos (known_rollups x since)) (known_rollups x since) it s res =
      Some (Ret (it', s', res')) /\
    collected m k j s s' /\ (k <= j < mi)%nat /\ last_due x since j.
Proof.
  intros [Hx Hsince Hk Hks Hin Hmi] Hs Hb Hit Hfuel. pose proof (proj1 Hs) as Hm. destruct (lookup_lt_is_Some_2 hist (pred m)) as [cur Hcur]; [lia|].
  change (GcRollups.truncate_seqnos (known_rollups x since)) with (gc_rollup_seqnos (known_rollups x since)).
  edestruct (incremental_ok (gc_rollup_seqnos (known_rollups x since)) mi m k s it (known_rollups x since) cur res Hs Hb Hit Hmi Hcur Hfuel)
    as (it' & s' & res' & j & He & Hc & Hj & Hall & Hor); [by apply known_seqnos| |].
  { intros n Hn. pose proof (proj1 (known_seqnos x n since) Hn) as [Hle Hc]. apply list_elem_of_lookup in Hx as [b Hx].
    pose proof (proj1 (BTree.contains_keys _ _) Hc) as Hr. apply list_elem_of_fmap in Hr as ([n' r] & -> & Hr). cbn [fst] in *.
    pose proof (rh_keys _ _ _ Hrec _ _ _ _ Hx Hr) as [[H0n _] _].
    destruct (Z.le_gt_cases (Z.of_nat k) n'); [destruct (Hin n' cur Hc ltac:(lia) Hcur); split_and!; try done; lia|].
    split_and!; [lia|lia|done|lia]. }
  exists it', s', res', j. split_and!; [done|done|lia|lia|]. split.
  - apply and_comm, known_seqnos. destruct Hor as [->|?]; [by apply known_seqnos|done].
  - intros n Hn Hle. apply Hall. by apply known_seqnos.
Qed.

Lemma remove_before x i since j : hist !! i = Some x -> last_due x since j ->
  forall e, e ∈ GcRollups.rollups_to_remove_from_state (known_rollups x since) -> e.1 < Z.of_nat j.
Proof.
  intros Hx [[Hj Hle] Hmax]. pose proof (mo_rollups _ (ch_maps _ (cn_ok _ (rh_chain _ _ _ Hrec) _ _ Hx))) as Hsort.
  apply ascending_last; [by apply lte_sorted|..].
  - change (Z.of_nat j ∈ gc_rollup_seqnos (known_rollups x since)). by apply known_seqnos.
  - intros n Hn. change (n ∈ gc_rollup_seqnos (known_rollups x since)) in Hn. apply known_seqnos in Hn as [? ?]. by apply Hmax.
Qed.

(** A single rollup that is due is the one of the earliest live version. *)
Lemma nothing_due x i since (k : nat) : hist !! i = Some x -> BTree.contains (Z.of_nat k) (rollups_of x) = true -> Z.of_nat k <= since ->
  GcRollups.rollups_to_remove_from_state (known_rollups x since) = [] -> last_due x since k.
Proof.
  intros Hx Hk Hks Hrm. split; [done|]. intros n Hn Hle.
  assert (H1 : Z.of_nat k ∈ gc_rollup_seqnos (known_rollups x since)) by by apply known_seqnos.
  assert (H2 : n ∈ gc_rollup_seqnos (known_rollups x since)) by by apply known_seqnos.
  unfold GcRollups.rollups_to_remove_from_state in Hrm. cbn [known_rollups gc_rollups_lte_seqno_since gc_rollup_seqnos] in *.
  destruct (GarbageCollector.rollups_lte_seqno x since) as [|e [|e' l]]; [by apply not_elem_of_nil in H1| |done].
  apply list_elem_of_singleton in H1, H2. lia.
Qed.

Lemma gc_and_truncate_ok (mi m k : nat) s x updated known req fetch :
  known = (if State.seqno_since x <? State.gc_new_seqno_since req then updated else x) -> State.gc_shard_id req = shard ->
  gc_knows mi m k known (State.gc_new_seqno_since req) -> snap m k s -> blob_sound (vs_blob s) -> (forall i j, (i < j < length hist)%nat -> (weight W (found i j).1 <= fuel)%nat) ->
  (exists it, fetch (known_rollups known (State.gc_new_seqno_since req)) = Some (Ret (Some it)) /\ iter_from mi k it) ->
  exists s' res (j : nat) remove, GarbageCollector.gc_and_truncate build fuel shard req x updated fetch s = Some (Ret (s', res, Some remove)) /\
    collected m k j s s' /\ (k <= j < mi)%nat /\ last_due known (State.gc_new_seqno_since req) j /\
    remove `sublist_of` ((fun e : SeqNo * HollowRollup => (e.1, rollup_key e.2)) <$> rollups_of known) /\ forall e, e ∈ remove -> e.1 < Z.of_nat j.
Proof.
  intros Hknown Hshard Hgk Hs Hb Hfuel (it & Hfetch & Hit). set (since := State.gc_new_seqno_since req) in *. set (g := known_rollups known since) in *.
  pose proof (gk_known _ _ _ _ _ Hgk) as [i Hx]%list_elem_of_lookup.
  assert (Hgoal : exists s' res (j : nat),
    GarbageCollector.gc_and_truncate build fuel shard req x updated fetch s = Some (Ret (s', res, Some (GcRollups.rollups_to_remove_from_state g))) /\
    collected m k j s s' /\ (k <= j < mi)%nat /\ last_due known since j).
  2: { destruct Hgoal as (s' & res & j & He & Hc & Hj & Hdue). exists s', res, j, (GcRollups.rollups_to_remove_from_state g). split_and!; try done; try lia.
       - apply remove_sublist.
       - by eapply remove_before. }
  unfold GarbageCollector.gc_and_truncate. rewrite bool_decide_eq_true_2 by done. cbn [assert_ obind].
  assert (Eknown : (let! x0 := (if State.seqno_since x <? since then let! _ := assert_ (since <=? State.seqno_since updated) in Ret updated else Ret x) in
                    GcRollups.new (GarbageCollector.rollups_lte_seqno x0 since) req) = Ret g).
  { pose proof (gk_since _ _ _ _ _ Hgk) as Hle. destruct (State.seqno_since x <? since); subst known.
    - destruct (Z.leb_spec since (State.seqno_since updated)); [|lia]. cbn [assert_ obind]. apply gc_rollups_new.
    - cbn [obind]. apply gc_rollups_new. }
  fold since. rewrite Eknown. cbn beta iota. destruct (GcRollups.rollups_to_remove_from_state g) as [|e l] eqn:Erm.
  { exists s, GcResults_default, k. split_and!; [done|by apply collected_none|lia|apply Hgk|]. eapply nothing_due; try done; apply Hgk. }
  rewrite Hfetch. rewrite bool_decide_eq_true_2 by (destruct Hit as [[Hst _]|[Hst _]]; by apply (rh_shard _ _ _ Hrec k)). cbn [negb].
  destruct (incremental_due mi m k s it known since GcResults_default Hgk Hs Hb Hit Hfuel) as (it' & s' & res' & j & He & Hc & Hj & Hdue).
  fold g in He. rewrite He. cbn [obind]. by exists s', res', j.
Qed.

(** *** The states an active collector reads *)

Lemma gc_get x since n r : BTree.sorted (rollups_of x) -> (n, r) ∈ rollups_of x -> n <= since ->
  GcRollups.get (known_rollups x since) n = Some (rollup_key r).
Proof.
  intros Hs Hin Hn. unfold GcRollups.get, known_rollups, GarbageCollector.rollups_lte_seqno. cbn [gc_rollups_lte_seqno_since].
  change (sc_rollups (st_collections x)) with (rollups_of x).
  apply (BTree.sorted_filter (fun e : SeqNo * HollowRollup => e.1 <= since)) in Hs.
  assert (Hin' : (n, r) ∈ filter (fun e : SeqNo * HollowRollup => e.1 <= since) (rollups_of x)) by by apply list_elem_of_filter.
  induction (filter _ _) as [|[n' r'] l IH]; [by apply not_elem_of_nil in Hin'|]. destruct Hs as [Hlt Hs]. cbn [fmap list_fmap find fst].
  destruct (Z.eqb_spec n' n) as [->|Hne].
  - apply elem_of_cons in Hin' as [[= ->]|Hin']; [done|]. rewrite Forall_forall in Hlt. specialize (Hlt _ Hin'). apply Z.ltb_lt in Hlt. simpl in Hlt. lia.
  - apply IH; [done|]. apply elem_of_cons in Hin' as [[= -> _]|]; done.
Qed.

Lemma active_ok scan_limit (m0 m1 k thr : nat) s0 ps s1 x cur r req : 0 < scan_limit ->
  snap m0 k s0 -> pages_ok codecs shard hist ds k m0 ps -> snap m1 k s1 -> (k <= thr < m0)%nat -> (thr < length ps)%nat ->
  State.gc_shard_id req = shard -> State.gc_new_seqno_since req = Z.of_nat thr ->
  x ∈ hist -> hist !! pred m1 = Some cur -> (Z.of_nat k, r) ∈ rollups_of x -> (Z.of_nat k, r) ∈ rollups_of cur ->
  exists it, GarbageCollector.active_states codecs build scan_limit (known_rollups x (Z.of_nat thr)) req s0 ps s1 = Some (Ret (Some it)) /\ iter_from (S thr) k it.
Proof.
  intros Hlim Hs0 Hp Hs1 Hk Hlen Hsh Hthr [i Hx]%list_elem_of_lookup Hcur Hr Hrc. pose proof (mo_rollups _ (ch_maps _ (cn_ok _ (rh_chain _ _ _ Hrec) _ _ Hx))) as Hsort.
  unfold GarbageCollector.active_states. rewrite Hsh, Hthr.
  rewrite (fetch_through_ok codecs scan_limit shard hist ds Hrec Hlim k m0 s0 ps thr Hs0 Hp Hk Hlen). cbn [obind].
  destruct Hs1 as [Hm1 Hst1]. pose proof (proj1 Hs0) as Hm0.
  destruct (window_cons shard hist ds Hrec (S thr) k ltac:(lia)) as (v & Hv & Ew). rewrite Ew. cbn [head hd_error expect obind].
  rewrite (log_seqno _ _ _ _ (rh_chain _ _ _ Hrec) (rh_log _ _ _ Hrec) Hv). rewrite (gc_get x (Z.of_nat thr) (Z.of_nat k) r Hsort Hr) by lia.
  assert (Hla : last (take m1 hist) = Some cur) by (by rewrite (last_take hist m1 Hm1)).
  destruct (so_current _ _ _ _ _ _ Hst1 cur (Z.of_nat k) r Hla Hrc) as [o Ho].
  destruct (so_rollups _ _ _ _ _ _ Hst1 cur (Z.of_nat k) r o ltac:(by apply last_Some_elem_of) Hrc Ho) as (y & Hy & inl & ->).
  rewrite Nat2Z.id in Hy. apply lookup_take_Some in Hy as [Hy _].
  unfold StateVersions.fetch_rollup_at_key. unfold rollup_blob in Ho. rewrite Ho. cbn [UntypedState.decode ro_state us_state]. rewrite (Hread _ _ Hy). cbn [assert_ obind].
  unfold UntypedState.check_ts_codec. cbn [us_state us_codecs]. rewrite (rh_shard _ _ _ Hrec k y Hy), !bool_decide_eq_true_2 by done. cbn [assert_ obind negb].
  destruct (iter_first build shard hist ds Hrec Hread (S thr) k y ltac:(lia) Hy) as (it & Hnew & Hity & _). rewrite Ew in Hnew. rewrite Hnew. cbn [obind].
  exists it. split; [done|]. right. unfold StateVersionsIter.new in Hnew. apply obind_Ret in Hnew as (_ & _ & [= <-]). cbn [it_state it_diffs]. by rewrite Ew.
Qed.

(** When all versions are later than the ones asked for, none are found. *)
Lemma active_stale scan_limit (m0 k thr : nat) s0 ps s1 g req : 0 < scan_limit -> snap m0 k s0 -> pages_ok codecs shard hist ds k m0 ps -> ps <> [] -> (thr < k)%nat ->
  State.gc_shard_id req = shard -> State.gc_new_seqno_since req = Z.of_nat thr ->
  GarbageCollector.active_states codecs build scan_limit g req s0 ps s1 = Some Panic.
Proof.
  intros Hlim Hs0 Hp Hne Hk Hsh Hthr. unfold GarbageCollector.active_states. rewrite Hsh, Hthr. unfold StateVersions.fetch_live_diffs_through.
  destruct (snap_current codecs shard _ _ Hrec _ _ _ Hs0) as (_ & n & _ & _ & _ & _ & Hkm & _). pose proof (proj1 Hs0) as Hm.
  pose proof (snap_scan codecs shard hist ds Hrec m0 k s0 0 scan_limit Hs0 ltac:(lia)) as Hscan. change (Z.of_nat 0) with 0 in Hscan.
  rewrite Hscan, Nat.max_0_r, (window_take ds) by lia. set (e := Nat.min _ _). assert (He : (k < e)%nat) by lia.
  assert (Hlen : length ds = length hist) by by eapply same_length.
  assert (Hcut : take (MemConsensus.partition_point (fun v => vd_seqno v <=? Z.of_nat thr) (drop k (take e ds))) (drop k (take e ds)) = []).
  { apply (partition_point_app _ [] (drop k (take e ds))); [constructor|]. apply Forall_forall. intros v Hv.
    apply (window_seqnos shard hist ds Hrec) in Hv. apply Z.leb_gt. lia. }
  assert (Hmore : StateVersions.fetch_more scan_limit ps shard (Z.of_nat thr) (drop k (take e ds)) = Some (Ret (drop k (take e ds)))).
  { destruct ps as [|s ps]; [done|]. cbn [StateVersions.fetch_more]. destruct (window_last shard hist ds Hrec k e) as (v & -> & ->); [lia|].
    destruct (Z.leb_spec (Z.of_nat thr) (Z.of_nat (pred e))); [done|lia]. }
  rewrite Hmore. destruct (_ =? scan_limit); by rewrite Hcut.
Qed.
End stores.
End histories.
