(* ===== verification/History.v ===== *)
(** * The histories of commands

    A shard's states come from the initial one by commands that bring parts
    and rollups with new keys.  Such a history is a recorded one, with unique
    keys: what the readers and the garbage collector rely on. *)
From stdpp Require Import base list.
From S2P Require Import Prelude Compare Timely BTree Schema Paths Consensus Batch Order Blob Diff Spine SpineFacts Trace TraceFacts SpineKeep State StateDiff StateDiffFacts StateFacts Tombstone Machine MachineFacts DiffChain PartKeys Versions VersionsFacts Gc DeleteFacts GcFacts.

Local Open Scope Z_scope.

Section histories.
Context {T : Type} `{TL : TimelyLaws T} `{TT : !TimelyTotal T} `{TO : !TimelyOrd T} `{TOL : !TimelyOrdLaws T}.
Context {Version K V : Type} `{SV : !SemVer Version} `{UL : UuidLaws} `{SK : !SchemaCodec K} `{SCV : !SchemaCodec V} `{DT : !DataTypeCodec}.
Context (D : Type) `{PC : !PartCodec D} (hashed : IdempotencyToken -> Z) (shard : ShardId).
Implicit Types (c : StateCollections T Version) (x : State T Version) (cmd : Command T Version K V).
Implicit Types (hist : list (State T Version)) (ds : list (VersionedData (StateDiff T Version))).

(** ** What commands do to rollups *)

Lemma remove_each_in e rs m removed m' removed' : StateCollections.remove_each rs m removed = (m', removed') -> e ∈ m' -> e ∈ m.
Proof.
  revert m removed. induction rs as [|[s k] rs IH]; intros m removed; simpl; [by intros [= <- _]|]. intros He Hin.
  apply (IH _ _ He) in Hin. unfold BTree.remove in Hin. by apply list_elem_of_filter in Hin as [_ ?].
Qed.

Lemma run_rollup_from cmd seqno c c' w n r : Machine.run_command D hashed cmd seqno c = Ret (c', w) ->
  (n, r) ∈ sc_rollups c' -> (n, r) ∈ sc_rollups c \/ cmd = AddRollup n r.
Proof.
  intros He Hin. destruct cmd; simpl in He;
    try (apply obind_Ret in He as (rr & Hr & He)); apply forget_inv in He as [ret Hc]; try subst rr.
  3, 5, 11-13: left; unfold Machine.upgrade_version, StateCollections.register_critical_reader, StateCollections.expire_leased_reader,
    StateCollections.expire_critical_reader, StateCollections.expire_writer in Hc; repeat case_match; by simplify_eq.
  3-11: left; unfold StateCollections.register_leased_reader, StateCollections.register_schema, StateCollections.spine_exert,
    StateCollections.compare_and_append, StateCollections.downgrade_since, StateCollections.compare_and_downgrade_since,
    StateCollections.compare_and_evolve_schema, StateCollections.become_tombstone_and_shrink, StateCollections.apply_merge_res in Hr;
    inv_run; simplify_eq; simpl in Hin; rewrite ?update_since_rollups in Hin; done.
  - unfold StateCollections.add_rollup in Hc. repeat case_match; simplify_eq; try (by left); simpl in Hin;
      (apply BTree.elem_of_insert in Hin as [[= -> ->]|Hin]; [by right|by left]).
  - left. unfold StateCollections.remove_rollups in Hc. destruct (StateCollections.is_tombstone c); [by simplify_eq|].
    destruct rollups as [|e rs]; [by simplify_eq|]. destruct (StateCollections.remove_each _ _ _) as [m removed] eqn:Er. simplify_eq.
    by eapply (remove_each_in (n, r)) in Er.
Qed.

Lemma remove_each_get k (r : HollowRollup) rs m removed m' removed' : BTree.get k m = Some r -> k ∉ rs.*1 ->
  StateCollections.remove_each rs m removed = (m', removed') -> BTree.get k m' = Some r.
Proof.
  revert m removed. induction rs as [|[s x] rs IH]; intros m removed Hk Hn; simpl; [by intros [= <- _]|].
  rewrite fmap_cons, not_elem_of_cons in Hn. simpl in Hn. destruct Hn as [Hne Hn]. apply IH; [|done]. by rewrite BTree.get_remove_ne.
Qed.

Lemma run_rollup_kept cmd seqno c c' w n r : Machine.run_command D hashed cmd seqno c = Ret (c', w) -> BTree.get n (sc_rollups c) = Some r ->
  (forall rs, cmd = RemoveRollups rs -> n ∉ rs.*1) -> BTree.get n (sc_rollups c') = Some r.
Proof.
  intros He Hn Hrs. destruct cmd; simpl in He;
    try (apply obind_Ret in He as (rr & Hr & He)); apply forget_inv in He as [ret Hc]; try subst rr.
  3, 5, 11-13: unfold Machine.upgrade_version, StateCollections.register_critical_reader, StateCollections.expire_leased_reader,
    StateCollections.expire_critical_reader, StateCollections.expire_writer in Hc; repeat case_match; by simplify_eq.
  3-11: unfold StateCollections.register_leased_reader, StateCollections.register_schema, StateCollections.spine_exert,
    StateCollections.compare_and_append, StateCollections.downgrade_since, StateCollections.compare_and_downgrade_since,
    StateCollections.compare_and_evolve_schema, StateCollections.become_tombstone_and_shrink, StateCollections.apply_merge_res in Hr;
    inv_run; simplify_eq; simpl; rewrite ?update_since_rollups; done.
  - unfold StateCollections.add_rollup in Hc. destruct (BTree.get rollup_seqno (sc_rollups c)) as [r'|] eqn:Eg; [by simplify_eq|].
    destruct (match BTree.keys _ with [] => _ | _ :: _ => _ end); simplify_eq; [done|]. simpl. rewrite BTree.get_insert_ne; [done|congruence].
  - unfold StateCollections.remove_rollups in Hc. destruct (StateCollections.is_tombstone c); [by simplify_eq|].
    destruct rollups as [|e rs]; [by simplify_eq|]. destruct (StateCollections.remove_each _ _ _) as [m removed] eqn:Er. simplify_eq.
    eapply remove_each_get; [exact Hn|by apply Hrs|exact Er].
Qed.

Lemma compute_rollups {R E} x (work_fn : SeqNo -> StateCollections T Version -> outcome (StateCollections T Version * ControlFlow E R))
    name cfg clock ns : Applier.compute_next_state_locked x work_fn name cfg clock = Ret (Ok ns) ->
  exists c' r, work_fn (st_seqno x + 1) (st_collections x) = Ret (c', Continue r) /\ rollups_of (ns_state ns) = sc_rollups c'.
Proof.
  unfold Applier.compute_next_state_locked, State.clone_apply, SeqNo_next.
  intros (r & ([c' w] & Hw & [= <-])%obind_Ret & Hr)%obind_Ret. destruct w as [e|a]; [done|].
  destruct (State.expire_at _ _) as [x1 m] eqn:Ee. unfold State.expire_at in Ee. injection Ee as <- _.
  apply obind_Ret in Hr as (_ & _ & ([x2 o] & Hp & Hr)%obind_Ret). destruct (Applier.plan_gc _ _ _ _) as [x3 g] eqn:Eg.
  apply obind_Ret in Hr as (_ & _ & [= <-]). exists c', a. split; [done|]. simpl ns_state. unfold rollups_of.
  assert (E3 : sc_rollups (st_collections x3) = sc_rollups (st_collections x2))
    by (unfold Applier.plan_gc, State.maybe_gc in Eg; repeat case_match; by simplify_eq).
  rewrite E3. unfold Applier.plan_rollup in Hp. apply obind_Ret in Hp as (r & _ & [= <- _]). by repeat case_match.
Qed.

(** ** The steps of a shard *)

Section runs.
Context `{C : !Consensus (StateDiff T Version)} `{CL : !ConsensusLaws (StateDiff T Version)}.
Context `{B : !Blob (Object T Version)} `{BL : !BlobLaws (Object T Version)}.
Context (codecs : Codecs).
Implicit Types (s : Stores T Version).

Abbreviation at_key := (at_key (T := T) (Version := Version) shard).
Abbreviation reached := (reached (T := T) (Version := Version) shard).

(** What happened so far, the earliest live version and the stores. *)
Record World := {
  w_hist : list (State T Version);
  w_log : list (VersionedData (StateDiff T Version));
  w_earliest : nat;
  w_stores : Stores T Version;
}.

Definition used hist (k : str) : Prop := exists x, x ∈ hist /\ k ∈ trace_keys (trace_of x).

(** A rollup is added when it has been written, under a new key; rollups of
    live versions are not removed. *)
Definition rollups_fit (w : World) x cmd : Prop :=
  match cmd with
  | AddRollup n r => (n, r) ∈ rollups_of x \/
      (exists y id o, 0 <= n <= st_seqno x /\ w_hist w !! Z.to_nat n = Some y /\ rollup_key r = PartialRollupKey_new (Z.to_N n) id /\
         rollup_blob shard (w_stores w) r = Some o /\ rollup_of codecs y o) /\
      forall z, z ∈ w_hist w -> rollup_key r ∉ rollup_names z
  | RemoveRollups rs => forall e, e ∈ rs -> e.1 < Z.of_nat (w_earliest w)
  | _ => True
  end.

(** The blobs of what a command brings have been written. *)
Definition blobs_written s cmd : Prop := forall h q (c : str), h ∈ brings cmd -> q ∈ hb_parts h -> reached (vs_blob s) [q] c ->
  is_Some (at_key (vs_blob s) c).

Inductive world_step (w : World) : World -> Prop :=
(** a blob goes to a key that has nothing, and is not that of a rollup that
    some state had *)
| step_write key o :
    bl_get (vs_blob (w_stores w)) key = None ->
    (forall x r, x ∈ w_hist w -> r ∈ BTree.values (rollups_of x) -> key <> complete_key (rollup_key r) shard) ->
    world_step w {| w_hist := w_hist w; w_log := w_log w; w_earliest := w_earliest w;
                    w_stores := StateVersions.with_blob (w_stores w) (bl_set (vs_blob (w_stores w)) key o) |}
(** a command, by a process that has some state *)
| step_command x cmd cfg clock ns d s' v :
    x ∈ w_hist w -> st_seqno x + 2 < i64_max -> config_ok cfg -> command_fits (st_collections x) cmd ->
    command_named (st_collections x) cmd -> command_fresh (used (w_hist w)) cmd -> rollups_fit w x cmd -> blobs_written (w_stores w) cmd ->
    Machine.next_state D hashed x cmd cfg clock = Ret (Ok ns) -> StateDiff.from_diff x (ns_state ns) = Ret d ->
    StateVersions.try_compare_and_set_current (w_stores w) shard (ns_state ns) d = Ret (s', Ok (Committed, v)) ->
    world_step w {| w_hist := w_hist w ++ [ns_state ns]; w_log := w_log w ++ [v]; w_earliest := w_earliest w; w_stores := s' |}
(** a turn of a garbage collector, that has read the states up to [mi] and is
    at [i], to a rollup that it knows of *)
| step_collect (build : Version) fuel W known since mi i j it it' parts rollups s' :
    known ∈ w_hist w -> readable build (w_hist w) -> iter_from (w_hist w) (w_log w) mi i it -> (i < j < mi)%nat -> (mi <= length (w_hist w))%nat ->
    Z.of_nat i ∈ gc_rollup_seqnos (known_rollups known since) -> Z.of_nat j ∈ gc_rollup_seqnos (known_rollups known since) ->
    blob_sound shard (w_hist w) W (vs_blob (w_stores w)) -> (weight W parts <= fuel)%nat ->
    GarbageCollector.plan_truncation build (known_rollups known since) it (Z.of_nat j) = Ret (Some (it', parts, rollups)) ->
    GarbageCollector.delete_and_truncate fuel (w_stores w) shard (Z.of_nat j) parts rollups = Some (Ret s') ->
    world_step w {| w_hist := w_hist w; w_log := w_log w; w_earliest := Nat.max (w_earliest w) j; w_stores := s' |}.

(** A new shard. *)
Definition world_init (w : World) : Prop := exists (build : Version) s host now rollup_id s1 x d v,
  log_of shard s = [] /\ bl_ok (vs_blob s) /\
  StateVersions.write_initial_rollup codecs build s shard host now rollup_id = Ret (s1, x, d) /\
  StateVersions.try_compare_and_set_current s1 shard x d = Ret (w_stores w, Ok (Committed, v)) /\
  w_hist w = [x] /\ w_log w = [v] /\ w_earliest w = 0%nat.

(** ** What holds all along *)

Record world_ok (w : World) : Prop := {
  wo_recorded : recorded_history shard (w_hist w) (w_log w);
  wo_keyed : keyed_history (w_hist w);
  wo_some : w_hist w <> [];
  wo_stored : stored codecs shard (w_hist w) (w_log w) (w_earliest w) (w_stores w);
  (** the live states have all their blobs *)
  wo_live : forall i x q (c : str), w_hist w !! i = Some x -> (w_earliest w <= i)%nat -> refs_of (Trace.batches (trace_of x)) q ->
    reached (vs_blob (w_stores w)) [q] c -> is_Some (at_key (vs_blob (w_stores w)) c);
  (** rollups of live versions stay *)
  wo_stay : forall x cur n r, x ∈ w_hist w -> last (w_hist w) = Some cur -> (n, r) ∈ rollups_of x -> Z.of_nat (w_earliest w) <= n ->
    (n, r) ∈ rollups_of cur;
}.

Lemma write_ok w key o : world_ok w -> bl_get (vs_blob (w_stores w)) key = None ->
  (forall x r, x ∈ w_hist w -> r ∈ BTree.values (rollups_of x) -> key <> complete_key (rollup_key r) shard) ->
  world_ok {| w_hist := w_hist w; w_log := w_log w; w_earliest := w_earliest w;
              w_stores := StateVersions.with_blob (w_stores w) (bl_set (vs_blob (w_stores w)) key o) |}.
Proof.
  destruct w as [hist ds k s]. cbn [w_hist w_log w_earliest w_stores]. intros [Hrec Hkey Hne Hst Hlive Hstay] Hnew Hr. cbn [w_hist w_log w_earliest w_stores] in *.
  pose proof (so_blob_ok _ _ _ _ _ _ Hst) as Hb.
  assert (Hro : forall x n r, x ∈ hist -> (n, r) ∈ rollups_of x -> rollup_blob shard (StateVersions.with_blob s (bl_set (vs_blob s) key o)) r = rollup_blob shard s r).
  { intros x n r Hx Hin. unfold rollup_blob. cbn [vs_blob StateVersions.with_blob]. rewrite bl_get_set by done. rewrite decide_False; [done|].
    intros E. apply (Hr x r Hx); [|done]. apply list_elem_of_fmap. by exists (n, r). }
  split; cbn [w_hist w_log w_earliest w_stores]; try done.
  - destruct Hst as [Hlog Hrs Hcur Hear _]. split; [done| | |done|by apply bl_set_ok].
    + intros x n r o' Hx Hin Ho. rewrite (Hro x n r) in Ho by done. by eapply Hrs.
    + intros x n r Hx Hin. rewrite (Hro x n r); [by eapply Hcur| |done]. by apply last_Some_elem_of.
  - intros i x q c Hx Hi Hq Hc. cbn [vs_blob StateVersions.with_blob] in *.
    assert (Hold : reached (vs_blob s) [q] c).
    { destruct Hc as (q1 & Hu & Hc). exists q1. split; [|done]. clear c Hc. induction Hu as [q' Hq'|r parts q' Hu' IH Hp Hq']; [by constructor|].
      eapply under_child; [exact IH| |done]. unfold run_at, DeleteFacts.at_key in *. rewrite bl_get_set in Hp by done.
      destruct (decide (complete_key (hrr_key r) shard = key)) as [E|]; [|done]. exfalso.
      destruct (Hlive i x q (hrr_key r) Hx Hi Hq) as [o' Ho']; [by exists (Many r)|]. unfold DeleteFacts.at_key in Ho'. congruence. }
    pose proof (Hlive i x q c Hx Hi Hq Hold) as Hs. unfold DeleteFacts.at_key in *. rewrite bl_get_set by done. case_decide; [by eexists|done].
Qed.

(** *** A command *)

Lemma snoc_lookup hist x' i y : (hist ++ [x']) !! i = Some y -> hist !! i = Some y \/ i = length hist /\ y = x'.
Proof. intros [Hi|[Hge Hi]]%lookup_app_Some; [by left|]. apply list_lookup_singleton_Some in Hi as [? <-]. right. split; [lia|done]. Qed.

Lemma world_snap w : world_ok w -> snap codecs shard (w_hist w) (w_log w) (length (w_hist w)) (w_earliest w) (w_stores w).
Proof.
  intros Hw. destruct Hw as [Hrec _ Hne Hst _ _]. pose proof (same_length shard _ _ Hrec) as Hlen. split; [destruct (w_hist w); [done|simpl; lia]|].
  by rewrite firstn_all, <- Hlen, firstn_all.
Qed.

(** Only the next version is written. *)
Lemma committed_next w x x' d s' v : world_ok w -> x ∈ w_hist w -> st_seqno x' = st_seqno x + 1 -> st_seqno x' <= i64_max ->
  StateVersions.try_compare_and_set_current (w_stores w) shard x' d = Ret (s', Ok (Committed, v)) ->
  last (w_hist w) = Some x /\ v = {| vd_seqno := st_seqno x'; vd_data := d |} /\ log_of shard s' = log_of shard (w_stores w) ++ [v] /\
  vs_blob s' = vs_blob (w_stores w).
Proof.
  intros Hw [i Hx]%list_elem_of_lookup Hseq Hmax Hc. pose proof (world_snap w Hw) as Hsnap. pose proof (wo_recorded _ Hw) as Hrec.
  destruct (snap_current codecs shard _ _ Hrec _ _ _ Hsnap) as (_ & n & _ & _ & _ & _ & Hk & _). pose proof (same_length shard _ _ Hrec) as Hlen.
  pose proof (cn_seqno _ (rh_chain _ _ _ Hrec) _ _ Hx) as Hxs.
  destruct (window_last shard _ _ Hrec (w_earliest w) (length (w_hist w))) as (u & Hu & Hus); [lia|].
  unfold StateVersions.try_compare_and_set_current in Hc.
  apply obind_Ret in Hc as (u0 & Hsh & (u1 & _ & Hc)%obind_Ret). unfold assert_ in Hsh. case_bool_decide as Es; [|done]. rewrite <- Es in Hc.
  set (new := {| vd_seqno := st_seqno x'; vd_data := d |}) in *.
  assert (Hlog : cs_log (vs_consensus (w_stores w)) (ShardId_fmt shard) = drop (w_earliest w) (take (length (w_hist w)) (w_log w)))
    by exact (so_log _ _ _ _ _ _ (proj2 Hsnap)).
  destruct (decide (SeqNo_previous (vd_seqno new) = vd_seqno <$> last (cs_log (vs_consensus (w_stores w)) (ShardId_fmt shard)))) as [Heq|Hne].
  - destruct (cs_cas_ok (vs_consensus (w_stores w)) (ShardId_fmt shard) new) as (c1 & Hcas & Hlog1 & _); [simpl; lia|done|].
    rewrite Hcas in Hc. injection Hc as <- <-. split_and!; try done. rewrite Hlog, Hu in Heq. unfold SeqNo_previous in Heq. simpl in Heq.
    destruct (Z.eqb_spec (st_seqno x') 0); [lia|]. injection Heq as Heq. rewrite last_lookup, <- Hx. f_equal. lia.
  - rewrite cs_cas_mismatch in Hc by (done || (simpl; lia)). done.
Qed.

(** What a command has made of the rollups and the parts. *)
Lemma next_rollup_from w x cmd cfg clock ns n r : Machine.next_state D hashed x cmd cfg clock = Ret (Ok ns) -> rollups_fit w x cmd -> (n, r) ∈ rollups_of (ns_state ns) ->
  (n, r) ∈ rollups_of x \/
  (exists y id o, 0 <= n <= st_seqno x /\ w_hist w !! Z.to_nat n = Some y /\ rollup_key r = PartialRollupKey_new (Z.to_N n) id /\
     rollup_blob shard (w_stores w) r = Some o /\ rollup_of codecs y o) /\
  forall z, z ∈ w_hist w -> rollup_key r ∉ rollup_names z.
Proof.
  intros Hn Hfit Hin. destruct (compute_rollups _ _ _ _ _ _ Hn) as (c' & [] & Hrun & E). rewrite E in Hin.
  destruct (run_rollup_from _ _ _ _ _ _ _ Hrun Hin) as [?|Ecmd]; [by left|]. rewrite Ecmd in Hfit. exact Hfit.
Qed.

Lemma next_rollup_kept w x cmd cfg clock ns n r : chain_ok x -> chain_ok (ns_state ns) -> Machine.next_state D hashed x cmd cfg clock = Ret (Ok ns) -> rollups_fit w x cmd ->
  (n, r) ∈ rollups_of x -> Z.of_nat (w_earliest w) <= n -> (n, r) ∈ rollups_of (ns_state ns).
Proof.
  intros Hx Hx' Hn Hfit Hin Hk. destruct (compute_rollups _ _ _ _ _ _ Hn) as (c' & [] & Hrun & E).
  apply (sorted_get _ _ _ (mo_rollups _ (ch_maps _ Hx'))). change (sc_rollups (st_collections (ns_state ns))) with (rollups_of (ns_state ns)). rewrite E.
  eapply (run_rollup_kept _ _ _ _ _ n r Hrun); [by apply (sorted_get _ _ _ (mo_rollups _ (ch_maps _ Hx)))|].
  intros rs -> ([n' k] & -> & Hrs)%list_elem_of_fmap. specialize (Hfit _ Hrs). simpl in Hfit, Hk. lia.
Qed.

Lemma next_parts x cmd cfg clock ns q : chain_ok x -> st_seqno x < u64_max -> command_fits (st_collections x) cmd -> command_named (st_collections x) cmd ->
  Machine.next_state D hashed x cmd cfg clock = Ret (Ok ns) -> refs_of (Trace.batches (trace_of (ns_state ns))) q ->
  refs_of (Trace.batches (trace_of x)) q \/ exists h, h ∈ brings cmd /\ q ∈ hb_parts h.
Proof.
  intros Hx Hu Hf [Htidy _] Hn Hq. destruct (compute_frame _ _ _ _ _ _ Hn) as (c' & [] & Hrun & _ & Ht & _).
  pose proof (ch_state _ Hx) as [Hn0 Hc]. pose proof (coll_ok_later _ (st_seqno x + 1) _ Hc ltac:(lia)) as Hc1.
  pose proof (run_trace D hashed _ _ _ _ _ Hc1 (ch_trace _ Hx) Hf Htidy Hrun) as Hst. unfold trace_of in Hq. rewrite Ht in Hq.
  change (refs_of (Trace.batches (sc_trace c')) q) in Hq. destruct Hq as (h & Hh & Hq).
  destruct Hst as [[(F & _ & Hk') _]|[(b & p & Hb & Hp & _ & He & _) _]].
  - destruct (keeps_hollow _ _ _ _ Hk' Hh) as [_ Hr]. destruct (Hr q Hq) as (g & [Hg|Hg]%elem_of_app & Hqg); [right; by exists g|left; by exists g].
  - apply elem_of_batches in Hh as (b1 & p1 & Hb1 & Hp1 & <-). rewrite Hb in Hb1. apply list_elem_of_singleton in Hb1 as ->.
    rewrite Hp in Hp1. apply list_elem_of_singleton in Hp1 as ->. rewrite He in Hq. by apply not_elem_of_nil in Hq.
Qed.

Lemma next_keyed hist x cmd cfg clock ns : chain_ok x -> st_seqno x < u64_max -> command_fits (st_collections x) cmd -> command_fresh (used hist) cmd ->
  x ∈ hist -> keyed (trace_of x) -> Machine.next_state D hashed x cmd cfg clock = Ret (Ok ns) -> keyed (trace_of (ns_state ns)).
Proof.
  intros Hx Hu Hf Hfr Hin Hk Hn. destruct (compute_frame _ _ _ _ _ _ Hn) as (c' & [] & Hrun & _ & Ht & _).
  pose proof (ch_state _ Hx) as [Hn0 Hc]. pose proof (coll_ok_later _ (st_seqno x + 1) _ Hc ltac:(lia)) as Hc1.
  unfold trace_of. rewrite Ht. apply (same_keyed (sc_trace c')); [done|].
  eapply (run_keyed D hashed cmd _ _ _ _ (used hist) Hc1 ltac:(lia) (ch_trace _ Hx) Hk Hf Hfr); [|exact Hrun]. intros k Hkx. by exists x.
Qed.

Section command.
Context (w : World) (Hw : world_ok w) (x : State T Version) (cmd : Command T Version K V) (cfg : Config) (clock : Clock).
Context (ns : NextState T Version unit) (d : StateDiff T Version).
Context (Hlast : last (w_hist w) = Some x) (Hsize : st_seqno x + 2 < i64_max) (Hcfg : config_ok cfg).
Context (Hfits : command_fits (st_collections x) cmd) (Hnamed : command_named (st_collections x) cmd).
Context (Hfresh : command_fresh (used (w_hist w)) cmd) (Hroll : rollups_fit w x cmd).
Context (Hnext : Machine.next_state D hashed x cmd cfg clock = Ret (Ok ns)) (Hdiff : StateDiff.from_diff x (ns_state ns) = Ret d).

Abbreviation x' := (ns_state ns).
Abbreviation hist' := (w_hist w ++ [x']).

Lemma command_step : chain_ok x /\ chain_ok x' /\ comparable_states x x' /\ next_ok x cmd x' /\ w_hist w !! pred (length (w_hist w)) = Some x /\
  st_seqno x = Z.of_nat (pred (length (w_hist w))) /\ (0 < length (w_hist w))%nat.
Proof.
  pose proof Hlast as Hl. rewrite last_lookup in Hl. pose proof (rh_chain _ _ _ (wo_recorded _ Hw)) as Hc. pose proof (cn_ok _ Hc _ _ Hl) as Hx.
  assert (Hu : st_seqno x < u64_max) by (unfold i64_max, u64_max in *; lia).
  destruct (chain_step D hashed x cmd cfg clock ns Hx Hu Hcfg Hfits Hnamed Hnext) as (Hx' & Hcmp & Hn). apply lookup_lt_Some in Hl as Hlen.
  split_and!; try done; [by apply (cn_seqno _ Hc)|lia].
Qed.

(** The latest rollup is of a live version, and stays. *)
Lemma command_latest n r : State.latest_rollup x = Ret (n, r) -> Z.of_nat (w_earliest w) <= n /\ (n, r) ∈ rollups_of x'.
Proof.
  intros Hl. destruct command_step as (Hx & Hx' & _). assert (Hk : Z.of_nat (w_earliest w) <= n).
  { apply (latest_max x n r); [done|done|]. apply (so_earliest _ _ _ _ _ _ (wo_stored _ Hw)). exact Hlast. }
  split; [done|]. eapply (next_rollup_kept w x); try done. by apply latest_in.
Qed.

Lemma command_recorded : recorded_history shard hist' (w_log w ++ [{| vd_seqno := st_seqno x'; vd_data := d |}]).
Proof.
  destruct command_step as (Hx & Hx' & Hcmp & Hn & Hi & Hxi & Hpos). destruct (wo_recorded _ Hw) as [Hch Hlog Hsh Hlat Hkeys Hsz].
  split.
  - eapply chain_snoc; try done. apply Hn.
  - by eapply diff_log_snoc.
  - intros i y [Hy|[-> ->]]%snoc_lookup; [by eapply Hsh|]. destruct (compute_frame _ _ _ _ _ _ Hnext) as (c' & u & _ & -> & _). by eapply Hsh.
  - intros i j y z n n' r r' [Hy|[-> ->]]%snoc_lookup [Hz|[-> ->]]%snoc_lookup Hij Hl Hl'; [exact (Hlat i j y z n n' r r' Hy Hz Hij Hl Hl')| | |].
    + destruct (latest_some x Hx) as (n0 & r0 & Hl0). destruct (command_latest n0 r0 Hl0) as [_ Hin].
      assert (n <= n0) by (eapply (Hlat i (pred (length (w_hist w)))); try done; apply lookup_lt_Some in Hy; lia).
      assert (n0 <= n'); [|lia]. apply (latest_max x' n' r'); [done|done|]. apply BTree.contains_keys, list_elem_of_fmap. by exists (n0, r0).
    + apply lookup_lt_Some in Hz. lia.
    + rewrite Hl in Hl'. injection Hl' as <- _. lia.
  - intros i y n r [Hy|[-> ->]]%snoc_lookup Hin; [by eapply Hkeys|].
    destruct (next_rollup_from w x cmd cfg clock ns n r Hnext Hroll Hin) as [Hold|[(y & id & o & Hb & _ & Hid & _) _]].
    + destruct (Hkeys _ _ _ _ Hi Hold) as [Hb Hid]. split; [lia|done].
    + split; [lia|by exists id].
  - rewrite length_app. simpl. lia.
Qed.

Lemma command_keyed : keyed_history hist'.
Proof.
  destruct command_step as (Hx & Hx' & Hcmp & Hn & Hi & Hxi & Hpos). destruct (wo_keyed _ Hw) as [Hk Hp Hr].
  assert (Hu : st_seqno x < u64_max) by (unfold i64_max, u64_max in *; lia). assert (Hin : x ∈ w_hist w) by by apply last_Some_elem_of.
  assert (Hback : forall i y, (hist' !! S i = Some y) -> w_hist w !! S i = Some y \/ i = pred (length (w_hist w)) /\ y = x').
  { intros i y [?|[? ->]]%snoc_lookup; [by left|right; split; [lia|done]]. }
  assert (Hold : forall i y, hist' !! i = Some y -> (i <= pred (length (w_hist w)))%nat -> w_hist w !! i = Some y).
  { intros i y [?|[? _]]%snoc_lookup Hle; [done|lia]. }
  split.
  - intros i y [Hy|[-> ->]]%snoc_lookup; [by eapply Hk|]. eapply (next_keyed (w_hist w) x cmd cfg clock ns); try done. by eapply Hk.
  - intros i y y' q k Hy [Hy'|[-> ->]]%Hback Hq Hqk.
    + assert (Hyi : w_hist w !! i = Some y) by (apply Hold; [done|apply lookup_lt_Some in Hy'; lia]).
      destruct (Hp i y y' q k Hyi Hy' Hq Hqk) as [?|Hfr]; [by left|right]. intros j z Hz Hj. eapply (Hfr j z); [|done].
      apply Hold; [done|apply lookup_lt_Some in Hy'; lia].
    + apply Hold in Hy; [|lia]. rewrite Hi in Hy. injection Hy as <-.
      destruct (next_parts x cmd cfg clock ns q Hx Hu Hfits Hnamed Hnext Hq) as [?|(h & Hh & Hqh)]; [by left|right]. intros j z Hz Hj Hkz.
      apply (cf_new _ _ Hfresh k).
      * apply elem_of_keys. exists h. split; [done|]. apply elem_of_part_keys. by exists q.
      * exists z. split; [|done]. eapply list_elem_of_lookup_2, Hold; [done|lia].
  - intros i y y' n r Hy [Hy'|[-> ->]]%Hback Hr'.
    + assert (Hyi : w_hist w !! i = Some y) by (apply Hold; [done|apply lookup_lt_Some in Hy'; lia]).
      destruct (Hr i y y' n r Hyi Hy' Hr') as [?|Hfr]; [by left|right]. intros j z Hz Hj. eapply (Hfr j z); [|done].
      apply Hold; [done|apply lookup_lt_Some in Hy'; lia].
    + apply Hold in Hy; [|lia]. rewrite Hi in Hy. injection Hy as <-.
      destruct (next_rollup_from w x cmd cfg clock ns n r Hnext Hroll Hr') as [?|[_ Hnew]]; [by left|right]. intros j z Hz Hj.
      apply Hnew. eapply list_elem_of_lookup_2, Hold; [done|lia].
Qed.

Lemma command_stored s' : log_of shard s' = log_of shard (w_stores w) ++ [{| vd_seqno := st_seqno x'; vd_data := d |}] -> vs_blob s' = vs_blob (w_stores w) ->
  stored codecs shard hist' (w_log w ++ [{| vd_seqno := st_seqno x'; vd_data := d |}]) (w_earliest w) s'.
Proof.
  intros Hlog Hblob. destruct command_step as (Hx & Hx' & Hcmp & Hn & Hi & Hxi & Hpos). pose proof (world_snap w Hw) as Hsnap.
  pose proof (wo_recorded _ Hw) as Hrec. destruct (snap_current codecs shard _ _ Hrec _ _ _ Hsnap) as (_ & n0 & _ & _ & _ & _ & Hk & _).
  pose proof (same_length shard _ _ Hrec) as Hlen. destruct (wo_stored _ Hw) as [Hl Hrs Hcur Hear Hb].
  assert (Hrb : forall r, rollup_blob shard s' r = rollup_blob shard (w_stores w) r) by (intros r; unfold rollup_blob; by rewrite Hblob).
  assert (Hin : x ∈ w_hist w) by by apply last_Some_elem_of.
  assert (Hsound : forall y n r o, y ∈ w_hist w -> (n, r) ∈ rollups_of y -> rollup_blob shard s' r = Some o -> exists z, hist' !! Z.to_nat n = Some z /\ rollup_of codecs z o).
  { intros y n r o Hy Hr Ho. rewrite Hrb in Ho. destruct (Hrs y n r o Hy Hr Ho) as (z & Hz & Hzo). exists z. split; [|done].
    rewrite lookup_app_l; [done|by eapply lookup_lt_Some]. }
  split.
  - rewrite Hlog, Hl, drop_app_le by lia. done.
  - intros y n r o [Hy|Hy]%elem_of_app Hr Ho; [by eapply Hsound|]. apply list_elem_of_singleton in Hy as ->.
    destruct (next_rollup_from w x cmd cfg clock ns n r Hnext Hroll Hr) as [Hold|[(z & id & o' & Hb' & Hz & _ & Ho' & Hzo) _]]; [by eapply (Hsound x)|].
    rewrite Hrb, Ho' in Ho. injection Ho as <-. exists z. split; [|done]. rewrite lookup_app_l; [done|by eapply lookup_lt_Some].
  - intros y n r Hy Hr. rewrite last_snoc in Hy. injection Hy as <-. rewrite Hrb.
    destruct (next_rollup_from w x cmd cfg clock ns n r Hnext Hroll Hr) as [Hold|[(z & id & o' & _ & _ & _ & Ho' & _) _]]; [by eapply Hcur|by rewrite Ho'].
  - intros y Hy. rewrite last_snoc in Hy. injection Hy as <-. pose proof (Hear x Hlast) as Hc. apply BTree.contains_keys, list_elem_of_fmap in Hc as ([n r] & En & Hc).
    simpl in En. subst n. apply BTree.contains_keys, list_elem_of_fmap. eexists (_, r). split; [done|]. eapply (next_rollup_kept w x); try done.
  - by rewrite Hblob.
Qed.

Lemma command_ok s' : log_of shard s' = log_of shard (w_stores w) ++ [{| vd_seqno := st_seqno x'; vd_data := d |}] -> vs_blob s' = vs_blob (w_stores w) ->
  blobs_written (w_stores w) cmd ->
  world_ok {| w_hist := hist'; w_log := w_log w ++ [{| vd_seqno := st_seqno x'; vd_data := d |}]; w_earliest := w_earliest w; w_stores := s' |}.
Proof.
  intros Hlog Hblob Hwr. destruct command_step as (Hx & Hx' & Hcmp & Hn & Hi & Hxi & Hpos).
  assert (Hu : st_seqno x < u64_max) by (unfold i64_max, u64_max in *; lia). pose proof (world_snap w Hw) as Hsnap.
  destruct (snap_current codecs shard _ _ (wo_recorded _ Hw) _ _ _ Hsnap) as (_ & n0 & _ & _ & _ & _ & Hk & _).
  split; cbn [w_hist w_log w_earliest w_stores].
  - exact command_recorded.
  - exact command_keyed.
  - by destruct (w_hist w).
  - by apply command_stored.
  - intros i y q c [Hy|[-> ->]]%snoc_lookup Hle Hq; rewrite Hblob; [by apply (wo_live _ Hw i y q c)|]. intros Hc.
    destruct (next_parts x cmd cfg clock ns q Hx Hu Hfits Hnamed Hnext Hq) as [Hold|(h & Hh & Hqh)]; [|by apply (Hwr h q c)].
    apply (wo_live _ Hw (pred (length (w_hist w))) x q c); try done. lia.
  - intros y cur n r Hy Hcur Hr Hle. rewrite last_snoc in Hcur. injection Hcur as <-. apply elem_of_app in Hy as [Hy|Hy]; [|apply list_elem_of_singleton in Hy as ->; done].
    eapply (next_rollup_kept w x); try done. by eapply (wo_stay _ Hw y x n r).
Qed.
End command.

(** *** A collection *)

Lemma collect_ok (w : World) (build : Version) fuel W known since mi i j it it' parts rollups s' : world_ok w ->
  known ∈ w_hist w -> readable build (w_hist w) -> iter_from (w_hist w) (w_log w) mi i it -> (i < j < mi)%nat -> (mi <= length (w_hist w))%nat ->
  Z.of_nat i ∈ gc_rollup_seqnos (known_rollups known since) -> Z.of_nat j ∈ gc_rollup_seqnos (known_rollups known since) ->
  blob_sound shard (w_hist w) W (vs_blob (w_stores w)) -> (weight W parts <= fuel)%nat ->
  GarbageCollector.plan_truncation build (known_rollups known since) it (Z.of_nat j) = Ret (Some (it', parts, rollups)) ->
  GarbageCollector.delete_and_truncate fuel (w_stores w) shard (Z.of_nat j) parts rollups = Some (Ret s') ->
  world_ok {| w_hist := w_hist w; w_log := w_log w; w_earliest := Nat.max (w_earliest w) j; w_stores := s' |}.
Proof.
  intros Hw Hknown Hread Hit Hij Hmi Hgi Hgj Hsound Hwt Hplan Hdel. pose proof (world_snap w Hw) as Hsnap. destruct Hw as [Hrec Hkey Hne Hst Hlive Hstay].
  pose proof (same_length shard _ _ Hrec) as Hlen. destruct (lookup_lt_is_Some_2 (w_hist w) i) as [x Hx]; [lia|]. destruct (lookup_lt_is_Some_2 (w_hist w) j) as [y Hy]; [lia|].
  destruct (plan_ok shard _ _ Hrec Hkey build Hread mi i j x y (known_rollups known since) it Hx Hy ltac:(lia) Hmi Hit Hgi Hgj) as (it1 & Hp & _).
  rewrite Hplan in Hp. injection Hp as -> -> ->.
  destruct (delete_and_truncate_ok shard _ _ Hrec Hkey codecs fuel W (length (w_hist w)) (w_earliest w) i j x y (w_stores w) Hsnap Hsound Hx Hy ltac:(lia) Hwt)
    as (s1 & ks & Hd & Hblob & Hlog & Hks & _). unfold found in Hd. cbn [fst snd] in Hd. rewrite Hdel in Hd. injection Hd as <-.
  destruct (last (w_hist w)) as [cur|] eqn:Hcur; [|by apply last_None in Hcur]. pose proof Hcur as Hcur'. rewrite last_lookup in Hcur'.
  assert (Hroll : BTree.contains (Z.of_nat (Nat.max (w_earliest w) j)) (rollups_of cur) = true).
  { destruct (Nat.le_gt_cases j (w_earliest w)) as [Hle|Hgt]; [rewrite Nat.max_l by done; by apply (so_earliest _ _ _ _ _ _ Hst)|]. rewrite Nat.max_r by lia.
    apply (known_seqnos known (Z.of_nat j) since) in Hgj as [_ Hgj]. apply BTree.contains_keys, list_elem_of_fmap in Hgj as ([n r] & En & Hr). simpl in En.
    apply BTree.contains_keys, list_elem_of_fmap. exists (n, r). split; [done|]. apply (Hstay known cur n r); try done. lia. }
  pose proof (so_blob_ok _ _ _ _ _ _ Hst) as Hb.
  pose proof (truncation_snap shard _ _ Hrec Hkey codecs W _ _ i j x y cur _ _ ks Hsnap Hsound Hx Hy ltac:(lia) Hcur' Hroll Hblob Hlog Hks) as [_ Hst'].
  rewrite firstn_all, <- Hlen, firstn_all in Hst'.
  split; cbn [w_hist w_log w_earliest w_stores]; try done.
  - intros b z q c Hz Hle Hq Hc. assert (Hc0 : reached (vs_blob (w_stores w)) [q] c) by (rewrite Hblob in Hc; by eapply reached_deleted).
    destruct (truncation_parts shard _ _ Hrec Hkey W i j b x y z (w_stores w) s' ks q c Hb Hsound Hx Hy Hz ltac:(lia) Hblob Hks Hq Hc0) as [_ ->].
    apply (Hlive b z q c); try done. lia.
  - intros z cur0 n r Hz Hcur0 Hr Hle. apply (Hstay z cur0 n r); [done|congruence|done|lia].
Qed.

(** *** A new shard *)

Lemma init_ok w : world_init w -> world_ok w.
Proof.
  intros (build & s & host & now & id & s1 & x & d & v & Hlog & Hb & Hi & Hcas & Eh & Ed & Ek). destruct w as [hist ds k s2]. cbn [w_hist w_log w_earliest w_stores] in *. subst hist ds k.
  unfold StateVersions.write_initial_rollup in Hi. simpl in Hi. apply obind_Ret in Hi as (d' & Hfd & Hi).
  assert (Hm : Machine.write_initial_rollup build shard host now id = Ret x) by (unfold Machine.write_initial_rollup; simpl; by injection Hi as _ <- _).
  pose proof (initial_chain build shard host now id x Hm) as Hx.
  set (r := {| rollup_key := PartialRollupKey_new 0 id; rollup_encoded_size_bytes := None |}) in *.
  assert (Hfacts : st_seqno x = 0 /\ st_shard_id x = shard /\ rollups_of x = [(0, r)] /\ Trace.batches (trace_of x) = [] /\ version_of x {| vd_seqno := st_seqno x; vd_data := d |} /\
    vs_consensus s1 = vs_consensus s /\ exists o, vs_blob s1 = bl_set (vs_blob s) (complete_key (rollup_key r) shard) o /\ rollup_of codecs x o).
  { injection Hi as <- <- <-. split_and!; try done; [by eapply from_diff_version|]. eexists. split; [done|]. by eexists. }
  clear Hi Hfd Hm. destruct Hfacts as (Hseq & Hsh & Hro & Htr & Hv & Hcons & o & Hblob & Ho).
  assert (Hc : v = {| vd_seqno := st_seqno x; vd_data := d |} /\ log_of shard s2 = [v] /\ vs_blob s2 = vs_blob s1).
  { unfold StateVersions.try_compare_and_set_current in Hcas. apply obind_Ret in Hcas as (u0 & _ & (u1 & _ & Hcas)%obind_Ret). rewrite Hsh, Hcons in Hcas.
    unfold log_of in Hlog. edestruct (cs_cas_ok (vs_consensus s) (ShardId_fmt shard) {| vd_seqno := st_seqno x; vd_data := d |}) as (c1 & Hc1 & Hl1 & _).
    - simpl. rewrite Hseq. unfold i64_max. lia.
    - rewrite Hlog. cbn [vd_seqno]. by rewrite Hseq.
    - rewrite Hc1 in Hcas. injection Hcas as <- <-. split_and!; try done. unfold log_of. cbn [vs_consensus StateVersions.with_consensus]. by rewrite Hl1, Hlog. }
  destruct Hc as (-> & Hlog2 & Hblob2).
  assert (Hone : forall i (y : State T Version), [x] !! i = Some y -> i = 0%nat /\ y = x) by (intros i y [-> ->]%list_lookup_singleton_Some; done).
  assert (Hrb : rollup_blob shard s2 r = Some o) by (unfold rollup_blob; by rewrite Hblob2, Hblob, bl_get_set, decide_True).
  split; cbn [w_hist w_log w_earliest w_stores]; try done.
  - split; [split|split|..].
    + by intros i y [-> ->]%Hone.
    + intros i y [-> ->]%Hone. done.
    + intros i y y' [-> ->]%Hone [? _]%Hone. done.
    + by constructor.
    + intros i y y' v [-> ->]%Hone [? _]%Hone. done.
    + by intros i y [-> ->]%Hone.
    + intros i j y z n n' r1 r2 [-> ->]%Hone [-> ->]%Hone _ Hl Hl'. rewrite Hl in Hl'. injection Hl' as <- _. lia.
    + intros i y n r1 [-> ->]%Hone Hin. change (sc_rollups (st_collections x)) with (rollups_of x) in Hin. rewrite Hro in Hin.
      apply list_elem_of_singleton in Hin as [= -> ->]. split; [lia|by exists id].
    + simpl. unfold i64_max. lia.
  - split.
    + intros i y [-> ->]%Hone. split; [unfold trace_keys, keys_of; rewrite Htr; constructor|rewrite Htr; constructor].
    + intros i y y' q k [-> ->]%Hone [? _]%Hone. done.
    + intros i y y' n r1 [-> ->]%Hone [? _]%Hone. done.
  - split.
    + done.
    + intros y n r1 o1 ->%list_elem_of_singleton Hin Ho1. change (sc_rollups (st_collections x)) with (rollups_of x) in Hin. rewrite Hro in Hin.
      apply list_elem_of_singleton in Hin as [= -> ->]. rewrite Hrb in Ho1. injection Ho1 as <-. by exists x.
    + intros y n r1 [= <-] Hin. change (sc_rollups (st_collections x)) with (rollups_of x) in Hin. rewrite Hro in Hin.
      apply list_elem_of_singleton in Hin as [= -> ->]. by rewrite Hrb.
    + intros y [= <-]. change (sc_rollups (st_collections x)) with (rollups_of x). by rewrite Hro.
    + rewrite Hblob2, Hblob. by apply bl_set_ok.
  - intros i y q c [-> ->]%Hone _ (h & Hh & _). rewrite Htr in Hh. by apply not_elem_of_nil in Hh.
  - intros y cur n r1 ->%list_elem_of_singleton [= <-]. done.
Qed.

(** *** All of them *)

Lemma step_ok w w' : world_ok w -> world_step w w' -> world_ok w'.
Proof.
  intros Hw. destruct 1 as [key o Hnew Hr|x cmd cfg clock ns d s' v Hx Hsz Hcfg Hf Hn Hfr Hro Hwr Hns Hd Hcas|
    build fuel W known since mi i j it it' parts rollups s' Hk Hrd Hit Hij Hmi Hgi Hgj Hs Hwt Hp Hd].
  - by apply write_ok.
  - pose proof (wo_recorded _ Hw) as Hrec. pose proof Hx as [i Hi]%list_elem_of_lookup. pose proof (cn_ok _ (rh_chain _ _ _ Hrec) _ _ Hi) as Hxo.
    assert (Hu : st_seqno x < u64_max) by (unfold i64_max, u64_max in *; lia).
    destruct (chain_step D hashed x cmd cfg clock ns Hxo Hu Hcfg Hf Hn Hns) as (_ & _ & Hnext).
    destruct (committed_next w x (ns_state ns) d s' v Hw Hx (nx_seqno _ _ _ Hnext)) as (Hla & -> & Hlog & Hblob); [rewrite (nx_seqno _ _ _ Hnext); lia|done|].
    by eapply command_ok.
  - by eapply collect_ok.
Qed.

Lemma runs_ok w w' : world_ok w -> rtc world_step w w' -> world_ok w'.
Proof. intros Hw Hr. induction Hr as [|w1 w2 w3 Hs _ IH]; [done|]. apply IH. by eapply step_ok. Qed.

(** History only grows, and the earliest live version moves forward. *)
Lemma runs_grow w w' : rtc world_step w w' -> w_hist w `prefix_of` w_hist w' /\ w_log w `prefix_of` w_log w' /\ (w_earliest w <= w_earliest w')%nat.
Proof.
  induction 1 as [w|w1 w2 w3 Hs _ (IH1 & IH2 & IH3)]; [done|].
  assert (Hone : w_hist w1 `prefix_of` w_hist w2 /\ w_log w1 `prefix_of` w_log w2 /\ (w_earliest w1 <= w_earliest w2)%nat).
  { destruct Hs; cbn [w_hist w_log w_earliest]; split_and!; try done; try lia; by apply prefix_app_r. }
  destruct Hone as (H1 & H2 & H3). split_and!; [by etrans|by etrans|lia].
Qed.

(** The stores at some time, as a part of all that happens. *)
Lemma earlier_snap w w' : world_ok w -> rtc world_step w w' ->
  snap codecs shard (w_hist w') (w_log w') (length (w_hist w)) (w_earliest w) (w_stores w).
Proof.
  intros Hw Hr. destruct (runs_grow w w' Hr) as ([l Eh] & [l' Ed] & _). destruct (world_snap w Hw) as [Hm Hst]. pose proof (same_length shard _ _ (wo_recorded _ Hw)) as Hlen.
  rewrite firstn_all, <- Hlen, firstn_all in Hst. split; [rewrite Eh, length_app; lia|]. rewrite Eh, Ed, take_app_length, <- Hlen, take_app_length. done.
Qed.

(** ** Reading while others go on *)

Abbreviation runs_to := (rtc world_step).

(** What the turns of [fetch_current_state] see. *)
Inductive seen : World -> list (StateVersions.View (T := T) (Version := Version)) -> World -> Prop :=
| seen_nil w : seen w [] w
| seen_cons w wa w0 w1 w2 vs w' : runs_to w wa -> runs_to wa w0 -> runs_to w0 w1 -> runs_to w1 w2 -> seen w2 vs w' ->
    seen w ({| StateVersions.vw_rollup := w_stores wa; StateVersions.vw_oldest := w_stores w0;
               StateVersions.vw_head := w_stores w1; StateVersions.vw_recent := w_stores w2 |} :: vs) w'.

Lemma seen_runs w vs w' : seen w vs w' -> runs_to w w'.
Proof. induction 1; [done|]. repeat (etrans; [eassumption|]). done. Qed.

Lemma runs_longer w w' : runs_to w w' -> (length (w_hist w) <= length (w_hist w'))%nat.
Proof. intros Hr. destruct (runs_grow w w' Hr) as (Hp & _). by apply prefix_length. Qed.

Lemma seen_views w vs w' : world_ok w -> seen w vs w' -> views_ok codecs shard (w_hist w') (w_log w') (length (w_hist w)) vs.
Proof.
  intros Hw Hs. revert Hw. induction Hs as [w|w wa w0 w1 w2 vs w' Ha H0w H1w H2w Hs IH]; intros Hw; [constructor|].
  pose proof (runs_ok _ _ Hw Ha) as Hwa. pose proof (runs_ok _ _ Hwa H0w) as Hw0. pose proof (runs_ok _ _ Hw0 H1w) as Hw1. pose proof (runs_ok _ _ Hw1 H2w) as Hw2.
  pose proof (seen_runs _ _ _ Hs) as Hl. pose proof (runs_longer _ _ Ha). pose proof (runs_longer _ _ H0w). pose proof (runs_longer _ _ H1w). pose proof (runs_longer _ _ H2w).
  eapply views_cons; [|by apply IH]. exists (length (w_hist wa)), (w_earliest wa), (length (w_hist w0)), (w_earliest w0), (length (w_hist w1)), (w_earliest w1),
    (length (w_hist w2)), (w_earliest w2). cbn [StateVersions.vw_rollup StateVersions.vw_oldest StateVersions.vw_head StateVersions.vw_recent].
  split_and!; try lia; apply earlier_snap; try done; repeat (etrans; [eassumption|]); done.
Qed.

Lemma world_fetch wa wb wc vs w' build scan_limit : world_ok wa -> runs_to wa wb -> runs_to wb wc -> seen wc vs w' -> readable build (w_hist w') -> 0 < scan_limit ->
  exists live, StateVersions.fetch_recent_live_diffs build scan_limit (w_stores wa) (w_stores wb) (w_stores wc) shard = Ret live /\
    (StateVersions.fetch_current_state codecs build scan_limit vs shard live = None /\ (length (w_hist wa) + length vs <= length (w_hist w'))%nat \/
     exists m x, StateVersions.fetch_current_state codecs build scan_limit vs shard live = Some (Ret {| us_codecs := codecs; us_state := x |}) /\
       w_hist w' !! m = Some x /\ (pred (length (w_hist wa)) <= m)%nat).
Proof.
  intros Hwa Hb Hc Hs Hread Hlim.
  pose proof (runs_ok _ _ Hwa Hb) as Hwb. pose proof (runs_ok _ _ Hwb Hc) as Hwc.
  pose proof (seen_runs _ _ _ Hs) as Hl. pose proof (runs_ok _ _ Hwc Hl) as Hw'.
  pose proof (wo_recorded _ Hw') as Hrec. pose proof (runs_longer _ _ Hb). pose proof (runs_longer _ _ Hc).
  assert (Hbl : rtc world_step wb w') by by etrans. assert (Hal : rtc world_step wa w') by by etrans.
  destruct (fetch_recent_ok codecs build scan_limit shard _ _ Hrec Hread Hlim _ _ _ _ _ _ _ _ _ (earlier_snap wa w' Hwa Hal)
    (earlier_snap wb w' Hwb Hbl) (earlier_snap wc w' Hwc Hl)) as (m & j & live & -> & Hh & Hm); [lia|].
  exists live. split; [done|].
  destruct (fetch_current_ok codecs build scan_limit shard _ _ Hrec Hread Hlim m _ j live vs Hh (proj2 Hm) (seen_views wc vs w' Hwc Hs)) as [[-> Hn]|(m' & x & Hm' & Hx & ->)].
  - left. split; [done|lia].
  - right. exists (pred m'), x. split_and!; [done|done|lia].
Qed.

(** ** Cleaning up *)

(** A blob that nothing refers to can be deleted. *)
Lemma delete_unused w key : world_ok w -> (forall cur, last (w_hist w) = Some cur -> key ∉ rollup_names cur) ->
  (forall i x q, w_hist w !! i = Some x -> (w_earliest w <= i)%nat -> refs_of (Trace.batches (trace_of x)) q -> ~ reached (vs_blob (w_stores w)) [q] key) ->
  world_ok {| w_hist := w_hist w; w_log := w_log w; w_earliest := w_earliest w; w_stores := StateVersions.delete_rollup (w_stores w) shard key |}.
Proof.
  destruct w as [hist ds k s]. cbn [w_hist w_log w_earliest w_stores]. intros [Hrec Hkey Hne Hst Hlive Hstay] Hcur Hpart. cbn [w_hist w_log w_earliest w_stores] in *.
  pose proof (so_blob_ok _ _ _ _ _ _ Hst) as Hb. set (s' := StateVersions.delete_rollup s shard key).
  assert (Hdel : vs_blob s' = foldl (PartDeletes.delete_key (T := T) (Version := Version) shard) (vs_blob s) [key]) by done.
  assert (Hget : forall c : str, at_key (vs_blob s') c = if decide (c ∈ [key]) then None else at_key (vs_blob s) c) by (intros c; rewrite Hdel; by apply get_deleted).
  split; cbn [w_hist w_log w_earliest w_stores]; try done.
  - destruct Hst as [Hlog Hrs Hc Hear _]. split; [done| | |done|rewrite Hdel; by apply delete_keys_ok].
    + intros x n r o Hx Hin Ho. eapply Hrs; try done. change (at_key (vs_blob s') (rollup_key r) = Some o) in Ho. rewrite Hget in Ho. by case_decide.
    + intros x n r Hx Hin. change (is_Some (at_key (vs_blob s') (rollup_key r))). rewrite Hget. case_decide as Hd; [|by eapply Hc].
      apply list_elem_of_singleton in Hd. exfalso. apply (Hcur x Hx). rewrite <- Hd. by eapply rollup_named.
  - intros i x q c Hx Hi Hq Hc. assert (Hc0 : reached (vs_blob s) [q] c) by (rewrite Hdel in Hc; by eapply reached_deleted).
    rewrite Hget. case_decide as Hd; [|by eapply Hlive]. apply list_elem_of_singleton in Hd as ->. by destruct (Hpart i x q Hx Hi Hq).
Qed.

(** ** A whole collection *)

Lemma world_collects w build scan_limit x req n W fuel : world_ok w -> readable build (w_hist w) -> 0 < scan_limit ->
  last (w_hist w) = Some x -> State.gc_shard_id req = shard -> Z.of_nat (w_earliest w) <= State.gc_new_seqno_since req <= State.seqno_since x ->
  State.gc_new_seqno_since req < Z.of_nat n -> blob_sound shard (w_hist w) W (vs_blob (w_stores w)) -> (forall i j, (i < j < length (w_hist w))%nat -> (weight W (found (w_log w) i j).1 <= fuel)%nat) ->
  exists s' res j remove,
    GarbageCollector.gc_and_truncate build fuel shard req x x
      (fun g => GarbageCollector.active_states codecs build scan_limit g req (w_stores w) (replicate n (w_stores w)) (w_stores w)) (w_stores w) =
      Some (Ret (s', res, Some remove)) /\
    collected shard (w_hist w) (w_log w) codecs W (length (w_hist w)) (w_earliest w) j (w_stores w) s' /\
    last_due x (State.gc_new_seqno_since req) j /\ forall e, e ∈ remove -> e.1 < Z.of_nat j.
Proof.
  intros Hw Hread Hlim Hx Hsh Hsince Hn Hsound Hfuel.
  pose proof (wo_recorded _ Hw) as Hrec. pose proof (world_snap w Hw) as Hsnap. pose proof (wo_stored _ Hw) as Hst.
  assert (Hxi : x ∈ w_hist w) by by apply last_Some_elem_of. pose proof Hx as Hi. rewrite last_lookup in Hi.
  pose proof (cn_seqno _ (rh_chain _ _ _ Hrec) _ _ Hi) as Hseq. pose proof (cn_ok _ (rh_chain _ _ _ Hrec) _ _ Hi) as Hok.
  destruct (ch_state _ Hok) as [Hn0 Hc]. destruct (seqno_since_spec _ _ Hc) as [[_ Hle] _].
  change (StateCollections.seqno_since (st_collections x) (st_seqno x)) with (State.seqno_since x) in Hle.
  set (since := State.gc_new_seqno_since req) in *. set (thr := Z.to_nat since). assert (Ethr : since = Z.of_nat thr) by lia.
  pose proof (lookup_lt_Some _ _ _ Hi) as Hlt. pose proof (so_earliest _ _ _ _ _ _ Hst x Hx) as Hear.
  assert (Hgk : gc_knows (w_hist w) (S thr) (length (w_hist w)) (w_earliest w) x since).
  { split; [done|lia|done|lia| |lia]. intros m cur Hm Hkm Hcur. assert (cur = x) as -> by congruence. split; [lia|done]. }
  apply BTree.contains_keys, list_elem_of_fmap in Hear as ([m r] & Em & Hin). simpl in Em. subst m.
  destruct (active_ok shard _ _ Hrec codecs build Hread scan_limit (length (w_hist w)) (length (w_hist w)) (w_earliest w) thr (w_stores w) (replicate n (w_stores w)) (w_stores w) x x r req Hlim Hsnap)
    as (it & Hact & Hit); try done; [|lia|rewrite length_replicate; lia|].
  { assert (Hall : forall k, pages_ok codecs shard (w_hist w) (w_log w) (w_earliest w) (length (w_hist w)) (replicate k (w_stores w))).
    { intros k. induction k as [|k IH]; [constructor|]. by eapply pages_cons. }
    apply Hall. }
  rewrite <- Ethr in Hact.
  destruct (gc_and_truncate_ok shard _ _ Hrec (wo_keyed _ Hw) codecs build fuel W Hread (S thr) (length (w_hist w)) (w_earliest w) (w_stores w) x x x req
    (fun g => GarbageCollector.active_states codecs build scan_limit g req (w_stores w) (replicate n (w_stores w)) (w_stores w))) as (s' & res & j & remove & He & Hco & Hj & Hdue & _ & Hrm); try done.
  { by destruct (_ <? _). }
  { by exists it. }
  by exists s', res, j, remove.
Qed.

(** A turn of the collector is always possible. *)
Lemma collect_possible w (build : Version) fuel W known since mi i j it : world_ok w -> known ∈ w_hist w -> readable build (w_hist w) ->
  iter_from (w_hist w) (w_log w) mi i it -> (i < j < mi)%nat -> (mi <= length (w_hist w))%nat ->
  Z.of_nat i ∈ gc_rollup_seqnos (known_rollups known since) -> Z.of_nat j ∈ gc_rollup_seqnos (known_rollups known since) ->
  blob_sound shard (w_hist w) W (vs_blob (w_stores w)) -> (weight W (found (w_log w) i j).1 <= fuel)%nat ->
  exists w', world_step w w' /\ w_hist w' = w_hist w /\ w_earliest w' = Nat.max (w_earliest w) j.
Proof.
  intros Hw Hknown Hread Hit Hij Hmi Hgi Hgj Hsound Hwt. pose proof (world_snap w Hw) as Hsnap. pose proof (wo_recorded _ Hw) as Hrec. pose proof (wo_keyed _ Hw) as Hkey.
  destruct (lookup_lt_is_Some_2 (w_hist w) i) as [x Hx]; [lia|]. destruct (lookup_lt_is_Some_2 (w_hist w) j) as [y Hy]; [lia|].
  destruct (plan_ok shard _ _ Hrec Hkey build Hread mi i j x y (known_rollups known since) it Hx Hy ltac:(lia) Hmi Hit Hgi Hgj) as (it1 & Hp & _).
  destruct (delete_and_truncate_ok shard _ _ Hrec Hkey codecs fuel W (length (w_hist w)) (w_earliest w) i j x y (w_stores w) Hsnap Hsound Hx Hy ltac:(lia) Hwt)
    as (s1 & ks & Hd & _). exists {| w_hist := w_hist w; w_log := w_log w; w_earliest := Nat.max (w_earliest w) j; w_stores := s1 |}. split; [|done].
  by eapply (step_collect w build fuel W known since mi i j it it1 _ _ s1).
Qed.
End runs.
End histories.
