(* ===== verification/System.v ===== *)
(** * Several processes on one shard

    Each process applies commands to the state it has cached and commits the
    result with compare-and-set (src/src/persist-client/src/internal/apply.rs,
    [apply_unbatched_cmd], [fetch_and_update_state]; state_versions.rs,
    [maybe_init_shard]).  A response may be lost.  Whatever the
    interleaving, there is one history of the shard, and every cached state
    is in it.  Consensus is used through its class; here a version holds the
    state it stands for, and [History] has the runs with differences and
    rollups in the stores. *)

From stdpp Require Import gmap.
From S2P Require Import Prelude Timely BTree Schema Paths Consensus Batch Spine SpineFacts Trace State StateFacts Machine MachineFacts.

Local Open Scope Z_scope.

Section system.
Context {T : Type} `{TimelyLaws T} `{!TimelyTotal T} {Version K V : Type} `{!SemVer Version} `{UuidCodec}
  `{!SchemaCodec K} `{!SchemaCodec V} `{!DataTypeCodec} (D : Type) `{!PartCodec D}.
Context (hashed : IdempotencyToken -> Z).
Context `{!Consensus (State T Version)} `{!ConsensusLaws (State T Version)} (key : str).
Implicit Types (x y : State T Version) (cmd : Command T Version K V) (hist : list (State T Version)) (p : nat).

Record System := {
  sy_store : cs_store;
  sy_cache : gmap nat (State T Version);
}.

Definition versioned x : VersionedData (State T Version) := {| vd_seqno := st_seqno x; vd_data := x |}.

(** What [update_state] leaves in the cache of a process. *)
Definition cached (o : option (State T Version)) x : State T Version :=
  match o with None => x | Some y => Applier.update_state y x end.

Inductive sys_step : System -> System -> Prop :=
| sys_init sy p v shard host now rollup_id x s' r :
    Machine.write_initial_rollup v shard host now rollup_id = Ret x ->
    cs_compare_and_set (sy_store sy) key (versioned x) = (s', r) ->
    sys_step sy {| sy_store := s';
                   sy_cache := match r with
                               | Ok Committed => <[p := cached (sy_cache sy !! p) x]> (sy_cache sy)
                               | _ => sy_cache sy
                               end |}
| sys_fetch sy p v :
    cs_head (sy_store sy) key = Some v ->
    sys_step sy {| sy_store := sy_store sy; sy_cache := <[p := cached (sy_cache sy !! p) (vd_data v)]> (sy_cache sy) |}
| sys_apply sy p x cmd cfg clock ns s' r (confirmed : bool) :
    sy_cache sy !! p = Some x -> st_seqno x < i64_max -> config_ok cfg -> command_fits (st_collections x) cmd ->
    Machine.next_state D hashed x cmd cfg clock = Ret (Ok ns) ->
    cs_compare_and_set (sy_store sy) key (versioned (ns_state ns)) = (s', r) ->
    sys_step sy {| sy_store := s';
                   sy_cache := match r with
                               | Ok Committed => if confirmed then <[p := Applier.update_state x (ns_state ns)]> (sy_cache sy)
                                                 else sy_cache sy
                               | _ => sy_cache sy
                               end |}
| sys_truncate sy n s' r :
    cs_truncate (sy_store sy) key n = (s', r) -> sys_step sy {| sy_store := s'; sy_cache := sy_cache sy |}.

(** One command takes [x] to [x']. *)
Definition follows x x' : Prop := exists cmd, next_ok x cmd x'.

(** A history: its states are reachable, numbered from zero, and each comes
    from the one before. *)
Record history hist : Prop := {
  hi_reach : Forall (reachable (K := K) (V := V) D hashed) hist;
  hi_seqno : forall i x, hist !! i = Some x -> st_seqno x = Z.of_nat i;
  hi_next : forall i x x', hist !! i = Some x -> hist !! S i = Some x' -> follows x x';
}.

(** The log is what is left of the history, and caches are part of it. *)
Definition tells hist (sy : System) : Prop :=
  history hist /\ (exists k, cs_log (sy_store sy) key = versioned <$> drop k hist /\ (hist <> [] -> (k < length hist)%nat)) /\
  forall p x, sy_cache sy !! p = Some x -> x ∈ hist.

Lemma history_last hist x : history hist -> x ∈ hist -> (exists y, last hist = Some y /\ st_seqno y = st_seqno x) ->
  last hist = Some x.
Proof.
  intros Hh [i Hi]%list_elem_of_lookup_1 (y & Hy & Hs). rewrite Hy. f_equal. rewrite last_lookup in Hy.
  pose proof (hi_seqno _ Hh _ _ Hi). pose proof (hi_seqno _ Hh _ _ Hy). assert (i = pred (length hist)) as -> by lia. congruence.
Qed.

Lemma history_snoc hist x x' : history hist -> last hist = Some x -> reachable (K := K) (V := V) D hashed x' ->
  follows x x' -> history (hist ++ [x']).
Proof.
  intros [Hr Hs Hn] Hl Hx Hf. pose proof Hl as Hl'. rewrite last_lookup in Hl'. pose proof (lookup_lt_Some _ _ _ Hl') as Hlen.
  assert (Hlt : forall i y, (hist ++ [x']) !! i = Some y -> hist !! i = Some y \/ i = length hist /\ y = x').
  { intros i y [Hi|[Hge Hi]]%lookup_app_Some; [by left|]. apply list_lookup_singleton_Some in Hi as [? <-]. right. split; [lia|done]. }
  split.
  - apply Forall_app. split; [done|]. by constructor.
  - intros i y [Hi|[-> ->]]%Hlt; [by apply Hs|]. destruct Hf as [cmd Hf]. rewrite (nx_seqno _ _ _ Hf), (Hs _ _ Hl'). lia.
  - intros i y y' [Hi|[-> ->]]%Hlt [Hi'|[Hlen' ->]]%Hlt; [by eapply Hn| | |].
    + assert (i = pred (length hist)) as -> by lia. rewrite Hl' in Hi. by injection Hi as <-.
    + apply lookup_lt_Some in Hi'. lia.
    + lia.
Qed.

Lemma cached_in (o : option (State T Version)) x hist : (forall y, o = Some y -> y ∈ hist) -> x ∈ hist -> cached o x ∈ hist.
Proof. intros Ho Hx. destruct o as [y|]; simpl; [|done]. unfold Applier.update_state. case_match; auto. Qed.

Lemma insert_caches (m : gmap nat (State T Version)) p x hist : (forall q y, m !! q = Some y -> y ∈ hist) -> x ∈ hist ->
  forall q y, <[p := x]> m !! q = Some y -> y ∈ hist.
Proof. intros Hm Hx q y [[<- <-]|[? ?]]%lookup_insert_Some; eauto. Qed.
(** The head of the log is the last state of the history. *)
Lemma tells_head hist sy : tells hist sy -> last (cs_log (sy_store sy) key) = versioned <$> last hist.
Proof.
  intros (_ & (k & -> & Hk) & _). rewrite fmap_last. f_equal. destruct hist as [|x hist]; [by rewrite drop_nil|].
  specialize (Hk ltac:(done)). rewrite !last_lookup, lookup_drop, length_drop. f_equal. lia.
Qed.

Lemma history_consecutive hist k : history hist -> consecutive (Z.of_nat k) (versioned <$> drop k hist).
Proof.
  intros [_ Hs _]. remember (drop k hist) as l eqn:El. revert k El. induction l as [|x l IH]; intros k El; simpl; [done|].
  assert (Hx : hist !! k = Some x) by (by rewrite <- (Nat.add_0_r k), <- lookup_drop, <- El).
  split; [by apply Hs|]. replace (Z.of_nat k + 1) with (Z.of_nat (S k)) by lia. apply IH.
  rewrite <- (Nat.add_1_r k), <- drop_drop, <- El. done.
Qed.

Lemma truncate_tells hist (sy : System) n s' r : tells hist sy -> cs_truncate (sy_store sy) key n = (s', r) ->
  exists k, cs_log s' key = versioned <$> drop k hist /\ (hist <> [] -> (k < length hist)%nat).
Proof.
  intros Ht He. pose proof Ht as (Hh & (k & Hl & Hk) & _). pose proof (tells_head _ _ Ht) as Hlast.
  destruct (last hist) as [x|] eqn:Ex; simpl in Hlast.
  2:{ rewrite cs_truncate_high in He by by rewrite Hlast. injection He as <- _. by exists k. }
  destruct (Z.ltb_spec (st_seqno x) n) as [Hlt|Hge].
  { rewrite cs_truncate_high in He by by rewrite Hlast. injection He as <- _. by exists k. }
  destruct (cs_truncate_ok _ key n _ Hlast Hge) as (s1 & m & Hs1 & Hlog & _ & _). rewrite Hs1 in He. injection He as <- _.
  destruct (consecutive_split _ _ n (history_consecutive hist k Hh)) as (j & Hf & Htake & _).
  exists (k + j)%nat. rewrite Hlog, Hl, Hf, <- fmap_drop, drop_drop. split; [done|]. intros Hne. specialize (Hk Hne).
  destruct (Nat.lt_ge_cases (k + j) (length hist)) as [|Hge']; [done|exfalso].
  rewrite take_ge in Htake by (rewrite length_fmap, length_drop; lia). rewrite Forall_fmap, Forall_forall in Htake.
  assert (Hin : x ∈ drop k hist).
  { apply list_elem_of_lookup. exists (pred (length hist) - k)%nat. rewrite lookup_drop. rewrite last_lookup in Ex. rewrite <- Ex. f_equal. lia. }
  specialize (Htake _ Hin). simpl in Htake. lia.
Qed.

Lemma log_extends hist (sy : System) x s' : tells hist sy -> cs_log s' key = cs_log (sy_store sy) key ++ [versioned x] ->
  exists k, cs_log s' key = versioned <$> drop k (hist ++ [x]) /\ (k < length (hist ++ [x]))%nat.
Proof.
  intros (_ & (k & Hl & Hk) & _) ->. exists (if decide (hist = []) then O else k).
  destruct (decide (hist = [])) as [->|Hne]; [rewrite Hl, drop_nil; split; [done|simpl; lia]|]. specialize (Hk Hne).
  rewrite length_app, drop_app_le, fmap_app, Hl by lia. split; [done|simpl; lia].
Qed.

Lemma in_snoc {A} (l : list A) (x y : A) : x ∈ l -> x ∈ l ++ [y].
Proof. intros. apply elem_of_app. by left. Qed.

Lemma in_last {A} (l : list A) (y : A) : y ∈ l ++ [y].
Proof. apply elem_of_app. right. by apply list_elem_of_singleton. Qed.

Lemma caches_later (m : gmap nat (State T Version)) hist x : (forall q y, m !! q = Some y -> y ∈ hist) ->
  forall q y, m !! q = Some y -> y ∈ hist ++ [x].
Proof. intros Hm q y Hq. eauto using in_snoc. Qed.

(** Committing the successor of a cached state, or losing the race. *)
Lemma commit_tells hist (sy : System) x cmd cfg clock ns s' r : tells hist sy -> x ∈ hist -> st_seqno x < i64_max ->
  config_ok cfg -> command_fits (st_collections x) cmd -> Machine.next_state D hashed x cmd cfg clock = Ret (Ok ns) ->
  cs_compare_and_set (sy_store sy) key (versioned (ns_state ns)) = (s', r) ->
  r = Ok ExpectationMismatch /\ s' = sy_store sy \/
  r = Ok Committed /\ history (hist ++ [ns_state ns]) /\
    cs_log s' key = cs_log (sy_store sy) key ++ [versioned (ns_state ns)].
Proof.
  intros Ht Hx Hi Hk Hf Hn He. pose proof Ht as (Hh & _ & _).
  assert (Hr : reachable (K := K) (V := V) D hashed x) by (pose proof (hi_reach _ Hh) as Hr; rewrite Forall_forall in Hr; auto).
  assert (Hu : st_seqno x < u64_max) by (unfold i64_max, u64_max in *; lia).
  destruct (reachable_ok _ _ _ Hr) as [Hok Hro]. pose proof (step_next _ _ _ _ _ _ _ Hok Hro Hu Hk Hf Hn) as Hnext.
  pose proof (nx_seqno _ _ _ Hnext) as Hs. assert (0 <= st_seqno x) by apply Hok.
  assert (Hrange : 0 <= vd_seqno (versioned (ns_state ns)) <= i64_max) by (simpl; lia).
  assert (Hp : SeqNo_previous (vd_seqno (versioned (ns_state ns))) = Some (st_seqno x)).
  { unfold SeqNo_previous. simpl. destruct (Z.eqb_spec (st_seqno (ns_state ns)) 0); [lia|]. f_equal. lia. }
  destruct (decide (SeqNo_previous (vd_seqno (versioned (ns_state ns))) = vd_seqno <$> last (cs_log (sy_store sy) key))) as [E|E].
  - right. destruct (cs_cas_ok _ key _ Hrange E) as (s1 & Hs1 & Hlog & _). rewrite Hs1 in He. injection He as <- <-.
    split_and!; [done| |done]. rewrite Hp, (tells_head _ _ Ht) in E.
    assert (Hlast : last hist = Some x).
    { apply history_last; [done..|]. destruct (last hist) as [y|]; [|done]. injection E as E. by exists y. }
    eapply history_snoc; [done|exact Hlast|by eapply reach_step|by exists cmd].
  - left. rewrite cs_cas_mismatch in He by done. by injection He as <- <-.
Qed.

Lemma init_tells hist (sy : System) v shard host now rollup_id x s' r : tells hist sy ->
  Machine.write_initial_rollup v shard host now rollup_id = Ret x ->
  cs_compare_and_set (sy_store sy) key (versioned x) = (s', r) ->
  r = Ok ExpectationMismatch /\ s' = sy_store sy \/
  r = Ok Committed /\ history (hist ++ [x]) /\ cs_log s' key = cs_log (sy_store sy) key ++ [versioned x].
Proof.
  intros Ht Hi He. assert (Hx : reachable (K := K) (V := V) D hashed x) by by eapply reach_init.
  assert (Hs : st_seqno x = 0) by (unfold Machine.write_initial_rollup in Hi; simpl in Hi; by injection Hi as <-).
  assert (Hrange : 0 <= vd_seqno (versioned x) <= i64_max) by (simpl; rewrite Hs; done).
  assert (Hp : SeqNo_previous (vd_seqno (versioned x)) = None) by (simpl; by rewrite Hs).
  destruct (decide (SeqNo_previous (vd_seqno (versioned x)) = vd_seqno <$> last (cs_log (sy_store sy) key))) as [E|E].
  - right. destruct (cs_cas_ok _ key _ Hrange E) as (s1 & Hs1 & Hlog & _). rewrite Hs1 in He. injection He as <- <-.
    split_and!; [done| |done]. rewrite Hp, (tells_head _ _ Ht) in E. destruct (last hist) as [y|] eqn:El; [done|].
    apply last_None in El as ->. split; simpl.
    + by constructor.
    + intros [|i] y; simpl; [intros [= <-]; lia|done].
    + by intros [|i].
  - left. rewrite cs_cas_mismatch in He by done. by injection He as <- <-.
Qed.

(** Every step extends the history by at most one state. *)
Lemma step_tells hist sy sy' : tells hist sy -> sys_step sy sy' -> exists more, tells (hist ++ more) sy'.
Proof.
  intros Ht Hstep. pose proof Ht as (Hh & Hl & Hc).
  destruct Hstep as [sy p v shard host now rid x s' r Hi He|sy p v Hv|sy p x cmd cfg clock ns s' r conf Hp Hn Hk Hf Hns He|sy n s' r He].
  - destruct (init_tells _ _ _ _ _ _ _ _ _ _ Ht Hi He) as [[-> ->]|(-> & Hh' & Hlog)]; [exists []; by rewrite app_nil_r|].
    exists [x]. destruct (log_extends _ _ _ _ Ht Hlog) as (k & Hk & Hk'). split_and!; [done|by exists k|]. simpl.
    apply insert_caches; [by apply caches_later|]. apply cached_in; [|apply in_last]. intros y Hy. by apply in_snoc, (Hc p).
  - exists []. rewrite app_nil_r. split_and!; [done|done|]. simpl.
    rewrite cs_head_log, (tells_head _ _ Ht) in Hv. destruct (last hist) as [y|] eqn:El; [|done]. injection Hv as <-.
    apply insert_caches; [done|]. apply cached_in; [intros z Hz; by eapply Hc|]. simpl. apply last_Some in El as [l ->]. apply in_last.
  - destruct (commit_tells _ _ _ _ _ _ _ _ _ Ht (Hc _ _ Hp) Hn Hk Hf Hns He) as [[-> ->]|(-> & Hh' & Hlog)]; [exists []; by rewrite app_nil_r|].
    exists [ns_state ns]. destruct (log_extends _ _ _ _ Ht Hlog) as (k & Hk1 & Hk2). split_and!; [done|by exists k|]. simpl.
    destruct conf; [|by apply caches_later]. apply insert_caches; [by apply caches_later|].
    unfold Applier.update_state. case_match; [apply in_last|]. by apply in_snoc, (Hc p).
  - exists []. rewrite app_nil_r. split_and!; [done|by eapply truncate_tells|done].
Qed.

(** *** Runs *)

Definition started : System := {| sy_store := cs_empty; sy_cache := ∅ |}.

Lemma started_tells : tells [] started.
Proof. split_and!; [by split|exists O; simpl; by rewrite cs_log_empty|done]. Qed.

Lemma run_tells sy : rtc sys_step started sy -> exists hist, tells hist sy.
Proof.
  revert sy. apply (rtc_ind_r (fun sy => exists hist, tells hist sy)); [exists []; apply started_tells|]. intros sy1 sy2 _ Hstep [hist Ht].
  destruct (step_tells _ _ _ Ht Hstep) as [more Hm]. by exists (hist ++ more).
Qed.

(** Along a history, things only move forward. *)
Lemma history_advances hist i j x y : history hist -> hist !! i = Some x -> hist !! j = Some y -> (i <= j)%nat ->
  advances (st_collections x) (st_collections y).
Proof.
  intros Hh Hx Hy Hle. revert y Hy. induction Hle as [|j Hle IH]; intros y Hy.
  - rewrite Hx in Hy. injection Hy as <-. apply advances_refl.
  - destruct (lookup_lt_is_Some_2 hist j) as [z Hz]; [apply lookup_lt_Some in Hy; lia|].
    destruct (hi_next _ Hh _ _ _ Hz Hy) as [cmd Hn]. eapply advances_trans; [by apply IH|apply Hn].
Qed.

(** Caches of any two processes agree on what they both have seen. *)
Lemma caches_agree sy p q x y : rtc sys_step started sy -> sy_cache sy !! p = Some x -> sy_cache sy !! q = Some y ->
  (st_seqno x = st_seqno y -> x = y) /\ (st_seqno x <= st_seqno y -> advances (st_collections x) (st_collections y)).
Proof.
  intros (hist & Hh & _ & Hc)%run_tells Hp Hq. apply Hc in Hp, Hq.
  apply list_elem_of_lookup_1 in Hp as [i Hi], Hq as [j Hj].
  pose proof (hi_seqno _ Hh _ _ Hi). pose proof (hi_seqno _ Hh _ _ Hj). split.
  - intros E. assert (i = j) as -> by lia. congruence.
  - intros E. eapply history_advances; [done..|lia].
Qed.
End system.
