(* ===== verification/Append.v ===== *)
(** * Appends with retries

    [compare_and_append_idempotent] (src/src/persist-client/src/internal/machine.rs)
    retries an append whose outcome it does not know.  The loop is a step
    relation over the shard, the state the process has cached, and whether
    an earlier attempt went unanswered; other processes move the shard in
    between. *)

From S2P Require Import Prelude Timely BTree Schema Paths Batch BatchFacts Spine SpineFacts SpineCorrect Trace TraceFacts State StateFacts Machine MachineFacts.

Local Open Scope Z_scope.

Section append.
Context {T : Type} `{TimelyLaws T} `{!TimelyTotal T} {Version : Type} `{!SemVer Version} `{UuidCodec}.
Context (hashed : IdempotencyToken -> Z).
(** The arguments of one call; the configuration does not change during it. *)
Context (h : HollowBatch T) (w : WriterId) (lease : Z) (tok : IdempotencyToken) (dbg : HandleDebugState)
  (max_bytes percent : Z) (min_version : option Version).
Implicit Types (c : StateCollections T Version) (x y : State T Version).

Definition append_at (now : Z) c :=
  StateCollections.compare_and_append hashed c h w now lease tok dbg max_bytes percent min_version.

Definition attempt x (now : Z) (cfg : Config) (clock : Clock) :=
  Applier.compute_next_state_locked x (fun _ c => append_at now c) cmd_compare_and_append cfg clock.

(** ** What decides an attempt *)

Definition last_token c : IdempotencyToken :=
  match BTree.get w (sc_writers c) with Some ws => ws_most_recent_write_token ws | None => SENTINEL end.

(** The checks before the write, which do not depend on the clock. *)
Definition passes c : bool :=
  negb (StateCollections.is_tombstone c)
  && negb (less_than (d_upper (hb_desc h)) (d_lower (hb_desc h)))
  && negb (bool_decide (d_upper (hb_desc h) = d_lower (hb_desc h)) && negb (HollowBatch.is_empty h))
  && negb (bool_decide (tok = last_token c))
  && bool_decide (Trace.upper (sc_trace c) = d_lower (hb_desc h))
  && negb ((0 <? HollowBatch.inline_bytes h) &&
           (max_bytes <=? sumZ (HollowBatch.inline_bytes <$> Trace.batches (sc_trace c)) + HollowBatch.inline_bytes h)).

Lemma token_default now c :
  ws_most_recent_write_token (default (StateCollections.new_writer now lease dbg) (BTree.get w (sc_writers c))) = last_token c.
Proof. unfold last_token. by destruct (BTree.get w (sc_writers c)). Qed.

Lemma append_passes now c c' ret : append_at now c = Ret (c', ret) ->
  if passes c then exists reqs, ret = Continue reqs else exists e, ret = Break e.
Proof.
  unfold append_at, StateCollections.compare_and_append, passes. rewrite token_default.
  destruct (StateCollections.is_tombstone c); simpl.
  { intros (_ & _ & [= <- <-])%obind_Ret. by eexists. }
  destruct (less_than _ _); simpl; [intros [= <- <-]; by eexists|].
  destruct (bool_decide _ && _); simpl; [intros [= <- <-]; by eexists|].
  destruct (bool_decide (tok = _)); simpl.
  { intros (_ & _ & (_ & _ & [= <- <-])%obind_Ret)%obind_Ret. by eexists. }
  destruct (bool_decide (Trace.upper _ = _)); simpl; [|intros [= <- <-]; by eexists].
  destruct (_ && _); simpl; [intros [= <- <-]; by eexists|].
  intros ([t reqs] & _ & (_ & _ & [= <- <-])%obind_Ret)%obind_Ret. by eexists.
Qed.

(** An append that passes the checks is carried out. *)
Lemma append_total seqno now c : coll_ok seqno c -> writable (sc_trace c) h -> passes c = true -> min_version = None ->
  exists c' reqs, append_at now c = Ret (c', Continue reqs).
Proof.
  intros Hc Hw Hp Hv. pose proof (writer_upper_ok seqno c w now lease dbg Hc) as Hwu.
  unfold passes in Hp. rewrite !andb_true_iff, !negb_true_iff in Hp. destruct Hp as [[[[[Ht Hlt] Hem] Htok] Hup] Hib].
  unfold append_at, StateCollections.compare_and_append. rewrite token_default, Ht, Hlt, Hem, Htok. simpl sc_trace.
  rewrite Hup, Hib. cbn [negb]. apply bool_decide_eq_true in Hup.
  assert (Hle : less_equal (d_lower (hb_desc h)) (d_upper (hb_desc h)) = true) by by apply not_less_than.
  assert (Hti : hb_parts h = [] \/ d_lower (hb_desc h) <> d_upper (hb_desc h)).
  { apply andb_false_iff in Hem as [E%bool_decide_eq_false|E%negb_false_iff]; [right; congruence|left; by apply bool_decide_eq_true in E]. }
  rewrite Hv. destruct (append_batch_total hashed (sc_trace c) h tok now lease percent (co_spine _ _ Hc)) as (t' & reqs & ->).
  { by apply writable_fits. }
  cbn [obind]. assert (less_equal _ (d_upper (hb_desc h)) = true) as -> by (eapply le_trans; [exact Hwu|by rewrite Hup]).
  simpl. by eexists _, _.
Qed.

(** What a writer left in the shard with this call. *)
Definition marked c : Prop :=
  exists ws, BTree.get w (sc_writers c) = Some ws /\ ws_most_recent_write_token ws = tok /\
    ws_most_recent_write_upper ws = d_upper (hb_desc h).

Lemma marked_alive c : marked c -> StateCollections.is_tombstone c = false.
Proof.
  intros (ws & Hg & _). destruct (StateCollections.is_tombstone c) eqn:E; [|done]. unfold StateCollections.is_tombstone in E.
  rewrite !andb_true_iff in E. destruct E as [[[_ E] _] _]. by destruct (sc_writers c).
Qed.

(** The call is accepted for what it is, whatever the shard holds. *)
Definition well_formed : Prop :=
  less_than (d_upper (hb_desc h)) (d_lower (hb_desc h)) = false /\
  (bool_decide (d_upper (hb_desc h) = d_lower (hb_desc h)) && negb (HollowBatch.is_empty h)) = false.

(** After the mark, another attempt finds it. *)
Lemma append_marked seqno now c : coll_ok seqno c -> well_formed -> marked c -> exists c', append_at now c = Ret (c', Break CaaAlreadyCommitted).
Proof.
  intros Hc [Hlt Hem] (ws & Hg & Ht & Hu). unfold append_at, StateCollections.compare_and_append. rewrite Hg, Hlt, Hem. simpl.
  assert (StateCollections.is_tombstone c = false) as -> by (apply marked_alive; by exists ws).
  rewrite Ht, Hu, !bool_decide_eq_true_2 by done. simpl.
  pose proof (values_get _ _ _ _ Hg (co_writers _ _ Hc)) as Hle. simpl in Hle. rewrite Hu in Hle. rewrite Hle. simpl. by eexists.
Qed.
(** What a refusal says. *)
Definition writer_upper c : Antichain T :=
  match BTree.get w (sc_writers c) with Some ws => ws_most_recent_write_upper ws | None => min_frontier end.

Lemma append_breaks now c c' e : append_at now c = Ret (c', Break e) -> StateCollections.is_tombstone c = false ->
  match e with
  | CaaAlreadyCommitted => last_token c = tok
  | CaaUpper su wu => su = Trace.upper (sc_trace c) /\ wu = writer_upper c
  | CaaInvalidUsage _ => ~ well_formed
  | CaaInlineBackpressure => True
  end.
Proof.
  unfold append_at, StateCollections.compare_and_append, well_formed. rewrite token_default. intros He Ht. rewrite Ht in He.
  destruct (less_than _ _); [injection He as _ <-; by intros [? _]|].
  destruct (bool_decide _ && _); [injection He as _ <-; by intros [_ ?]|].
  destruct (bool_decide (tok = last_token c)) eqn:Etok.
  { apply bool_decide_eq_true in Etok. by apply obind_Ret in He as (_ & _ & (_ & _ & [= _ <-])%obind_Ret). }
  destruct (bool_decide (Trace.upper _ = _)); simpl in He.
  2:{ injection He as _ <-. split; [done|]. unfold writer_upper. by destruct (BTree.get w (sc_writers c)). }
  destruct (_ && _); [by injection He as _ <-|].
  by apply obind_Ret in He as ([t reqs] & _ & (_ & _ & [=])%obind_Ret).
Qed.

(** ** The loop *)

Record Loop := {
  lp_shard : State T Version;
  lp_cache : State T Version;
  lp_indeterminate : bool;
  (** how often the batch went into the shard *)
  lp_commits : nat;
  lp_answer : option (outcome (Machine.CompareAndAppendRes (T := T)));
}.

Definition is_shard x : Prop :=
  state_ok x /\ st_seqno x < u64_max /\ sc_rollups (st_collections x) <> [] /\
  StateCollections.is_tombstone (st_collections x) = false.

(** The lease of the writer outlasts the attempt. *)
Definition lease_kept x now (clock : Clock) : Prop :=
  forall c' r ws, append_at now (st_collections x) = Ret (c', r) -> BTree.get w (sc_writers c') = Some ws ->
    State.writer_holds (now_expire clock) w ws = true.

(** A step of the loop, or of somebody else. *)
Inductive loop_step : Loop -> Loop -> Prop :=
| loop_other x y i n x' :
    (* another process commits, without touching this writer *)
    is_shard x' -> st_seqno x < st_seqno x' ->
    BTree.get w (sc_writers (st_collections x')) = BTree.get w (sc_writers (st_collections x)) ->
    loop_step {| lp_shard := x; lp_cache := y; lp_indeterminate := i; lp_commits := n; lp_answer := None |}
              {| lp_shard := x'; lp_cache := y; lp_indeterminate := i; lp_commits := n; lp_answer := None |}
| loop_fetch x y i n :
    loop_step {| lp_shard := x; lp_cache := y; lp_indeterminate := i; lp_commits := n; lp_answer := None |}
              {| lp_shard := x; lp_cache := x; lp_indeterminate := i; lp_commits := n; lp_answer := None |}
| loop_unsent x y i n now cfg clock ns (lost : bool) :
    (* the new state is not committed: a conflict, or a request that is lost *)
    attempt y now cfg clock = Ret (Ok ns) ->
    loop_step {| lp_shard := x; lp_cache := y; lp_indeterminate := i; lp_commits := n; lp_answer := None |}
              {| lp_shard := x; lp_cache := y; lp_indeterminate := i || lost; lp_commits := n; lp_answer := None |}
| loop_unanswered x y i n now cfg clock ns :
    (* the new state is committed, but the answer is lost *)
    attempt y now cfg clock = Ret (Ok ns) -> st_seqno y = st_seqno x ->
    config_ok cfg -> writable (sc_trace (st_collections y)) h -> lease_kept y now clock -> st_seqno (ns_state ns) < u64_max ->
    loop_step {| lp_shard := x; lp_cache := y; lp_indeterminate := i; lp_commits := n; lp_answer := None |}
              {| lp_shard := ns_state ns; lp_cache := y; lp_indeterminate := true; lp_commits := S n; lp_answer := None |}
| loop_confirmed x y i n now cfg clock ns :
    attempt y now cfg clock = Ret (Ok ns) -> st_seqno y = st_seqno x ->
    loop_step {| lp_shard := x; lp_cache := y; lp_indeterminate := i; lp_commits := n; lp_answer := None |}
              {| lp_shard := ns_state ns; lp_cache := ns_state ns; lp_indeterminate := i; lp_commits := S n;
                 lp_answer := Some (Machine.handle_append h i (st_seqno (ns_state ns)) (Ok (ns_work_ret ns))) |}
| loop_break x y i n now cfg clock seqno e :
    attempt y now cfg clock = Ret (Err (seqno, e)) ->
    loop_step {| lp_shard := x; lp_cache := y; lp_indeterminate := i; lp_commits := n; lp_answer := None |}
              {| lp_shard := x; lp_cache := y; lp_indeterminate := i; lp_commits := n;
                 lp_answer := Some (Machine.handle_append h i seqno (Err e)) |}.

(** ** The invariant of the loop *)

(** The writer has not written this batch, nor anything later. *)
Definition clean c : Prop := last_token c <> tok /\ less_than (writer_upper c) (d_upper (hb_desc h)) = true.

(** The batch is in the shard at most once; if it is, the shard says so and
    the cache is either older than that or says so as well. *)
Definition progress (l : Loop) : Prop :=
  lp_commits l = O /\ clean (st_collections (lp_shard l)) /\ clean (st_collections (lp_cache l)) \/
  lp_commits l = 1%nat /\ lp_indeterminate l = true /\ marked (st_collections (lp_shard l)) /\
    (marked (st_collections (lp_cache l)) \/
     passes (st_collections (lp_cache l)) = true /\ st_seqno (lp_cache l) < st_seqno (lp_shard l)).

Record running (l : Loop) : Prop := {
  ru_shard : is_shard (lp_shard l);
  ru_cache : is_shard (lp_cache l);
  ru_seqno : st_seqno (lp_cache l) <= st_seqno (lp_shard l);
  ru_agree : st_seqno (lp_cache l) = st_seqno (lp_shard l) -> lp_cache l = lp_shard l;
  ru_formed : lp_indeterminate l = true -> well_formed;
  ru_progress : progress l;
}.

(** Success is answered when the batch is in the shard, once; any other
    answer when it is not. *)
Definition answer_ok (l : Loop) : Prop :=
  match lp_answer l with
  | None => running l
  | Some (Ret (Machine.CaaResSuccess _ _)) => lp_commits l = 1%nat
  | Some (Ret _) => lp_commits l = O
  | Some Panic => False
  end.

Lemma passes_formed c : passes c = true -> well_formed.
Proof.
  unfold passes, well_formed. rewrite !andb_true_iff, !negb_true_iff. tauto.
Qed.

Lemma attempt_passes x now cfg clock ns : attempt x now cfg clock = Ret (Ok ns) ->
  passes (st_collections x) = true /\ exists c' reqs, append_at now (st_collections x) = Ret (c', Continue reqs).
Proof.
  intros [(c' & reqs & Ha) _]%compute_inv. split; [|by exists c', reqs]. pose proof (append_passes _ _ _ _ Ha) as Hp.
  destruct (passes _); [done|]. by destruct Hp.
Qed.

Lemma marked_fails x now cfg clock ns : is_shard x -> marked (st_collections x) -> attempt x now cfg clock = Ret (Ok ns) -> False.
Proof.
  intros ([Hn Hc] & _) Hm Ha. destruct (attempt_passes _ _ _ _ _ Ha) as [Hp (c' & reqs & He)].
  destruct (append_marked _ now _ Hc (passes_formed _ Hp) Hm) as [c1 He1]. congruence.
Qed.

(** A committed attempt leaves its mark. *)
Lemma attempt_marks x now cfg clock ns : is_shard x -> attempt x now cfg clock = Ret (Ok ns) -> config_ok cfg ->
  writable (sc_trace (st_collections x)) h -> lease_kept x now clock -> st_seqno (ns_state ns) < u64_max ->
  marked (st_collections (ns_state ns)) /\ is_shard (ns_state ns).
Proof.
  intros (Hx & Hu & Hro & Ht) Ha Hk Hw Hl Hu'. destruct (attempt_passes _ _ _ _ _ Ha) as [_ (c' & reqs & He)].
  pose proof Hx as [Hn Hc]. pose proof (coll_ok_later _ (st_seqno x + 1) _ Hc ltac:(lia)) as Hc1.
  destruct (compare_and_append_ok hashed _ _ _ _ _ _ _ _ _ _ _ _ _ Hc1 Hw He) as [[Hc' _] Hcm].
  destruct (cm_writer _ _ _ _ _ (Hcm _ eq_refl)) as (ws & Hg & Htok & Hup).
  assert (Hro' : sc_rollups c' <> []).
  { clear -He Hro. unfold append_at, StateCollections.compare_and_append in He. inv_run; by simplify_eq. }
  destruct (compute_ok x (fun _ c => append_at now c) cmd_compare_and_append cfg clock c' reqs) as (ns' & Hns & Hcp);
    [done..|by left|done|done|done|].
  unfold attempt in Ha. rewrite Ha in Hns. injection Hns as <-.
  assert (Hm : marked (st_collections (ns_state ns))).
  { exists ws. split_and!; [|done|done]. rewrite (cp_writers _ _ _ _ _ Hcp). apply BTree.get_retain; [done|]. by eapply Hl. }
  split; [done|]. split_and!; [apply Hcp|done|by rewrite (cp_rollups _ _ _ _ _ Hcp)|by apply marked_alive].
Qed.
(** An attempt moves the sequence number. *)
Lemma attempt_seqno x now cfg clock ns : attempt x now cfg clock = Ret (Ok ns) -> st_seqno (ns_state ns) = st_seqno x + 1.
Proof.
  unfold attempt, Applier.compute_next_state_locked. intros (r & _ & Hr)%obind_Ret. destruct r as [e|[reqs x1]]; [done|].
  destruct (State.expire_at _ _) as [x2 m]. apply obind_Ret in Hr as ([] & _ & ([x3 o] & _ & Hr)%obind_Ret).
  destruct (Applier.plan_gc _ _ _ _) as [x4 g]. apply obind_Ret in Hr as ([] & Ha & [= <-]). simpl.
  unfold assert_, SeqNo_next in Ha. destruct (Z.eqb_spec (st_seqno x + 1) (st_seqno x4)); [lia|done].
Qed.

(** A refusal that is passed on. *)
Lemma break_ok x y i n now cfg clock seqno e :
  running {| lp_shard := x; lp_cache := y; lp_indeterminate := i; lp_commits := n; lp_answer := None |} ->
  attempt y now cfg clock = Ret (Err (seqno, e)) ->
  answer_ok {| lp_shard := x; lp_cache := y; lp_indeterminate := i; lp_commits := n;
               lp_answer := Some (Machine.handle_append h i seqno (Err e)) |}.
Proof.
  intros [Hs (Hy & _ & _ & Ht) _ _ Hform Hp] Ha. simpl in *. apply compute_inv in Ha as [-> [c' He]].
  pose proof Hy as [Hn Hc]. unfold answer_ok. simpl. destruct Hp as [(Hn0 & _ & [Htok Hup])|(Hn1 & Hi & _ & Hp)]; simpl in *; subst.
  - pose proof (append_breaks _ _ _ _ He Ht) as Hb. destruct e as [|su wu|u|]; [done| | |done].
    + destruct Hb as [-> ->]. unfold Machine.handle_append.
      assert (less_equal (writer_upper (st_collections y)) (Trace.upper (sc_trace (st_collections y))) = true) as ->.
      { unfold writer_upper. destruct (BTree.get w _) as [ws|] eqn:E; [|apply le_min].
        apply (values_get _ _ _ _ E (co_writers _ _ Hc)). }
      simpl. by rewrite Hup.
    + simpl. destruct i; [|done]. by destruct Hb, Hform.
  - destruct Hp as [Hm|[Hp _]].
    + destruct (append_marked _ now _ Hc (Hform eq_refl) Hm) as [c1 He1]. rewrite He in He1. by injection He1 as -> ->.
    + pose proof (append_passes _ _ _ _ He) as Hps. rewrite Hp in Hps. by destruct Hps.
Qed.

Lemma loop_step_ok l l' : running l -> loop_step l l' -> answer_ok l'.
Proof.
  intros Hr Hstep. destruct Hstep as [x y i n x' Hx' Hlt Hg|x y i n|x y i n now cfg clock ns lost Ha
    |x y i n now cfg clock ns Ha Hseq Hk Hw Hl Hsh|x y i n now cfg clock ns Ha Hseq|x y i n now cfg clock seqno e Ha].
  6: by eapply break_ok.
  all: destruct Hr as [Hs Hc Hle Hag Hform Hp]; simpl in *.
  - split; simpl; try done; try lia. unfold progress in *. simpl in *.
    assert (Hcl : clean (st_collections x) -> clean (st_collections x')) by (unfold clean, last_token, writer_upper; by rewrite Hg).
    assert (Hmk : marked (st_collections x) -> marked (st_collections x')) by (unfold marked; by rewrite Hg).
    destruct Hp as [(? & ? & ?)|(? & ? & ? & [?|[? ?]])]; [left; auto|right; auto|right]. split_and!; auto. right. split; [done|lia].
  - split; simpl; try done. unfold progress in *. simpl in *. tauto.
  - destruct (attempt_passes _ _ _ _ _ Ha) as [Hps _]. split; simpl; try done; [intros _; by eapply passes_formed|].
    unfold progress in *. simpl in *. destruct Hp as [?|(? & -> & ?)]; [by left|by right].
  - specialize (Hag Hseq). subst y. pose proof (attempt_seqno _ _ _ _ _ Ha) as Hns.
    destruct (attempt_passes _ _ _ _ _ Ha) as [Hps _].
    destruct (attempt_marks x now cfg clock ns) as [Hmk Hsh']; [done..|].
    split; simpl; try done; [lia|lia|intros _; by eapply passes_formed|]. right. simpl.
    destruct Hp as [(Hn0 & _)|(_ & _ & Hm & _)]; simpl in *; [|by destruct (marked_fails _ _ _ _ _ Hs Hm Ha)].
    subst n. split_and!; [done|done|done|right; split; [done|lia]].
  - specialize (Hag Hseq). subst y. simpl.
    destruct Hp as [(Hn0 & _)|(_ & _ & Hm & _)]; simpl in *; [by subst|by destruct (marked_fails _ _ _ _ _ Hs Hm Ha)].
Qed.

Lemma loop_ok l l' : running l -> lp_answer l = None -> rtc loop_step l l' -> answer_ok l'.
Proof.
  intros Hr Hn Hs. revert l' Hs. apply (rtc_ind_r answer_ok); [by unfold answer_ok; rewrite Hn|].
  intros l1 l2 _ Hstep Hok. eapply loop_step_ok; [|exact Hstep]. by destruct Hstep.
Qed.
End append.
