(* ===== verification/Examples.v ===== *)
(** * A concrete shard

    Instances of everything the development is parametric in, and a shard
    with 64-bit times that has gone through a few commands.  The witnesses
    of the theorems are evaluated on it. *)

From Stdlib Require Import Ascii.
From Stdlib.Strings Require Import Byte.
From S2P Require Import Prelude Timely BTree Schema Paths Consensus Batch BatchFacts Spine SpineFacts SpineCorrect Trace TraceFacts State StateFacts Tombstone Machine MachineFacts System Append.

Local Open Scope Z_scope.

(** ** Third-party code *)

(** Identifiers are printed as their 128 bits, the lowest first. *)
Fixpoint bits_of (k : nat) (n : N) : str :=
  match k with
  | O => []
  | S k => (if N.odd n then "1"%char else "0"%char) :: bits_of k (N.div2 n)
  end.

Fixpoint of_bits (s : str) : N :=
  match s with
  | [] => 0%N
  | c :: s => (N.b2n (bool_decide (c = "1"%char)) + 2 * of_bits s)%N
  end.

Lemma of_bits_of k n : (n < 2 ^ N.of_nat k)%N -> of_bits (bits_of k n) = n.
Proof.
  revert n. induction k as [|k IH]; intros n Hn; cbn [bits_of of_bits].
  - change (2 ^ N.of_nat 0)%N with 1%N in Hn. lia.
  - rewrite IH.
    + pose proof (N.div2_odd n) as Hd. destruct (N.odd n); cbn [N.b2n] in Hd;
        [rewrite bool_decide_eq_true_2 by done|rewrite bool_decide_eq_false_2 by done]; cbn [N.b2n]; lia.
    + rewrite Nat2N.inj_succ, N.pow_succ_r' in Hn. pose proof (N.div2_odd n) as Hd. destruct (N.odd n); cbn [N.b2n] in Hd; lia.
Qed.

Lemma bits_of_no_slash k n : "/"%char ∉ bits_of k n.
Proof.
  revert n. induction k as [|k IH]; intros n; cbn [bits_of]; [apply not_elem_of_nil|].
  apply not_elem_of_cons. split; [by destruct (N.odd n)|apply IH].
Qed.

Definition uuid_of (n : N) : option Uuid :=
  match decide ((n <? 2 ^ 128)%N = true) with
  | left H => Some {| uuid_bits := n; uuid_ok := H |}
  | right _ => None
  end.

#[export] Instance ex_uuid : UuidCodec := {|
  uuid_to_string u := bits_of 128 (uuid_bits u);
  uuid_parse_str s := uuid_of (of_bits s);
|}.

#[export] Instance ex_uuid_laws : UuidLaws.
Proof.
  split.
  - intros [n Hn]. change (uuid_of (of_bits (bits_of 128 n)) = Some {| uuid_bits := n; uuid_ok := Hn |}).
    rewrite of_bits_of by (apply N.ltb_lt, Hn).
    unfold uuid_of. destruct (decide _) as [H|]; [|done]. f_equal. by apply uuid_bits_inj.
  - intros u. apply bits_of_no_slash.
Qed.

Record version := { v_major : N; v_minor : N; v_patch : N }.

Definition ex_version_leb (a b : version) : bool :=
  if (v_major a =? v_major b)%N then
    if (v_minor a =? v_minor b)%N then (v_patch a <=? v_patch b)%N else (v_minor a <? v_minor b)%N
  else (v_major a <? v_major b)%N.

#[export] Instance ex_semver : SemVer version := {|
  major := v_major; minor := v_minor; patch := v_patch;
  version_leb := ex_version_leb; precedence_leb := ex_version_leb;
|}.

(** Keys have no columns, or (once evolved) a nullable one. *)
Definition ex_type (evolved : bool) : DataType :=
  TStruct (if evolved then [mkField "a" (TPrim PInt64) true] else []).

#[export] Instance ex_schema : SchemaCodec bool := {|
  schema_eqdec := bool_eq_dec;
  encode_schema (b : bool) := [if b then x01 else x00];
  decode_schema (s : Bytes) := match s with [x01] => true | _ => false end;
  schema_data_type (b : bool) := Ret (ex_type b);
|}.

#[export] Instance ex_data_type : DataTypeCodec := {|
  encode_data_type (t : DataType) := [if bool_decide (t = ex_type true) then x01 else x00];
  decode_data_type (s : Bytes) := Ret (ex_type (match s with [x01] => true | _ => false end));
|}.

(** Diffs are integers, encoded by their length in unary. *)
#[export] Instance ex_diff : PartCodec Z := {|
  decode_bool (s : Bytes) := match s with [x01] => Some true | [x00] => Some false | _ => None end;
  encode_bool (b : bool) := [if b then x01 else x00];
  diff_eqdec := Z.eq_dec;
  diff_zero := 0;
  diff_plus := Z.add;
  diff_decode (s : Bytes) := Z.of_nat (length s);
  inline_diffs_sum (s : Bytes) := Some (Z.of_nat (length s));
  inline_structured (s : Bytes) := Some false;
|}.

Definition ex_hashed (t : IdempotencyToken) : Z := 0.

(** ** Names *)

Definition ex_id (n : N) (H : (n <? 2 ^ 128)%N = true) : Uuid := {| uuid_bits := n; uuid_ok := H |}.
Definition ex_shard : ShardId := {| shard_uuid := ex_id 1 eq_refl |}.
Definition ex_rollup : RollupId := {| rollup_uuid := ex_id 2 eq_refl |}.
Definition ex_writer : WriterId := {| writer_uuid := ex_id 3 eq_refl |}.
Definition ex_reader : LeasedReaderId := {| leased_reader_uuid := ex_id 4 eq_refl |}.
Definition ex_critical : CriticalReaderId := {| critical_reader_uuid := ex_id 5 eq_refl |}.
Definition ex_token (n : N) (H : (n <? 2 ^ 128)%N = true) : IdempotencyToken := {| token_uuid := ex_id n H |}.
Definition ex_version : version := {| v_major := 0; v_minor := 150; v_patch := 1 |}.
Definition ex_debug : HandleDebugState := {| debug_hostname := "host"; debug_purpose := "test" |}.
Definition ex_opaque : Opaque := {| opaque_codec := "i64"; opaque_bytes := [x00] |}.

(** ** Batches *)

Definition ex_part (key : string) (diffs : Bytes) : RunPart N :=
  Single (Hollow {|
    hbp_key := String.list_ascii_of_string key; hbp_meta := ∅; hbp_encoded_size_bytes := 100; hbp_key_lower := [];
    hbp_structured_key_lower := None; hbp_stats := None; hbp_ts_rewrite := None; hbp_diffs_sum := Some diffs;
    hbp_format := None; hbp_schema_id := None; hbp_deprecated_schema_id := None |}).

(** A batch of one part with [len] updates at the times from [lo] to [hi]. *)
Definition ex_batch (lo hi : N) (len : Z) (key : string) (diffs : Bytes) : HollowBatch N := {|
  hb_desc := desc_new (from_elem lo) (from_elem hi) (from_elem 0%N);
  hb_len := len; hb_parts := [ex_part key diffs]; hb_run_splits := []; hb_run_meta := [RunMeta_default] |}.

(** The batch that closes the shard. *)
Definition ex_end : HollowBatch N := HollowBatch.empty (desc_new (from_elem 10%N) antichain_new (from_elem 0%N)).

(** ** Commands *)

Definition ex_cfg : Config := {|
  cfg_gc := {| State.use_active_gc := false; State.fallback_threshold_ms := 900000; State.min_versions := 32; State.max_versions := 128000 |};
  cfg_use_active_rollup := false; cfg_rollup_threshold := 128; cfg_rollup_fallback_threshold_ms := 5000; cfg_hostname := "host" |}.

Definition ex_clock (now : Z) : Clock := {| now_apply := now; now_expire := now; now_maintenance := now |}.

Abbreviation ex_state := (State N version) (only parsing).
Abbreviation ex_command := (Command N version bool bool) (only parsing).

Definition ex_append (lo hi : N) (len : Z) (key : string) (tok : IdempotencyToken) (now : Z) : ex_command :=
  CompareAndAppend (ex_batch lo hi len key (replicate (Z.to_nat len) x01)) ex_writer now 3600000 tok ex_debug 1000000 100 None.

Definition ex_commands : list (ex_command * Z) := [
  (RegisterSchema false false, 1000);
  (RegisterLeasedReader "host" ex_reader "read" 300000 1001 false, 1001);
  (RegisterCriticalReader "host" ex_critical ex_opaque "hold", 1002);
  (ex_append 0 5 3 "p0" (ex_token 100 eq_refl) 1003, 1003);
  (ex_append 5 10 2 "p1" (ex_token 101 eq_refl) 1004, 1004);
  (DowngradeSince ex_reader 5 (from_elem 4%N) 1005, 1005);
  (CompareAndDowngradeSince ex_critical ex_opaque ex_opaque (from_elem 3%N), 1006);
  (CompareAndAppend ex_end ex_writer 1007 3600000 (ex_token 102 eq_refl) ex_debug 1000000 100 None, 1007);
  (DowngradeSince ex_reader 8 antichain_new 1008, 1008);
  (CompareAndDowngradeSince ex_critical ex_opaque ex_opaque antichain_new, 1009);
  (BecomeTombstone, 1010)].

Definition ex_next (x : ex_state) (cmd : ex_command) (now : Z) : outcome (State N version) :=
  let! r := Machine.next_state Z ex_hashed x cmd ex_cfg (ex_clock now) in
  match r with Ok ns => Ret (ns_state ns) | Err _ => Panic end.

Definition ex_init : outcome ex_state := Machine.write_initial_rollup ex_version ex_shard "host" 999 ex_rollup.

Definition ex_run (n : nat) : outcome (State N version) :=
  let! x := ex_init in
  foldM (fun x (c : ex_command * Z) => ex_next x c.1 c.2) (take n ex_commands) x.

Definition ex_value (o : outcome (State N version)) (d : State N version) : State N version :=
  match o with Ret x => x | Panic => d end.

Definition ex_empty : State N version := State.new ex_version ex_shard "host" 999.

(** The state after the first [n] commands. *)
Definition ex_at (n : nat) : State N version := ex_value (ex_run n) ex_empty.

(** ** The shard is reachable *)

Abbreviation ex_reachable := (reachable (T := N) (Version := version) (K := bool) (V := bool) Z ex_hashed) (only parsing).

Lemma ex_cfg_ok : config_ok ex_cfg.
Proof. by split. Qed.

Lemma ex_step x cmd now x' : ex_reachable x -> ex_next x cmd now = Ret x' -> st_seqno x < u64_max ->
  command_fits (st_collections x) cmd -> ex_reachable x'.
Proof.
  intros Hx Hn Hu Hf. unfold ex_next in Hn. apply obind_Ret in Hn as (r & Hr & He).
  destruct r as [ns|]; [|done]. injection He as <-. eapply (reach_step Z ex_hashed x cmd ex_cfg (ex_clock now)); done.
Qed.

Lemma ex_at_0 : ex_reachable (ex_at 0).
Proof. eapply (reach_init _ _ ex_version ex_shard "host" 999 ex_rollup). vm_compute. reflexivity. Qed.

(** A batch fits a trace when the numbers say so. *)
Lemma ex_writable (t : Trace N) (h : HollowBatch N) :
  (0 <=? hb_len h) && (hb_len h <=? 2 ^ 60) && forallb (fun rm => 0 <=? default 0 (rm_len rm)) (hb_run_meta h)
  && less_equal (d_since (hb_desc h)) (Trace.since t)
  && (records 0 (sp_merging (tr_spine t)) + 2 * 2 ^ Z.of_nat (Spine.level_of (hb_len h)) <=? 2 ^ 60) = true ->
  writable t h.
Proof.
  rewrite !andb_true_iff, !Z.leb_le, forallb_forall. intros [[[[? ?] Hm] ?] ?]. split; try done.
  apply Forall_forall. intros rm Hrm. apply Z.leb_le, Hm. by apply list_elem_of_In.
Qed.

Definition ex_cmd (n : nat) : ex_command * Z := nth n ex_commands (BecomeTombstone, 0).

Ltac ex_follow H n :=
  apply (ex_step (ex_at n) (ex_cmd n).1 (ex_cmd n).2); [exact H|vm_compute; reflexivity|vm_compute; reflexivity|].

Lemma ex_at_1 : ex_reachable (ex_at 1).
Proof. ex_follow ex_at_0 0%nat. exact I. Qed.

Lemma ex_at_2 : ex_reachable (ex_at 2).
Proof. ex_follow ex_at_1 1%nat. exact I. Qed.

Lemma ex_at_3 : ex_reachable (ex_at 3).
Proof. ex_follow ex_at_2 2%nat. exact I. Qed.

Lemma ex_at_4 : ex_reachable (ex_at 4).
Proof. ex_follow ex_at_3 3%nat. apply ex_writable. vm_compute. reflexivity. Qed.

Lemma ex_at_5 : ex_reachable (ex_at 5).
Proof. ex_follow ex_at_4 4%nat. apply ex_writable. vm_compute. reflexivity. Qed.

Lemma ex_at_6 : ex_reachable (ex_at 6).
Proof. ex_follow ex_at_5 5%nat. exact I. Qed.

Lemma ex_at_7 : ex_reachable (ex_at 7).
Proof. ex_follow ex_at_6 6%nat. exact I. Qed.

Lemma ex_at_8 : ex_reachable (ex_at 8).
Proof. ex_follow ex_at_7 7%nat. apply ex_writable. vm_compute. reflexivity. Qed.

Lemma ex_at_9 : ex_reachable (ex_at 9).
Proof. ex_follow ex_at_8 8%nat. exact I. Qed.

Lemma ex_at_10 : ex_reachable (ex_at 10).
Proof. ex_follow ex_at_9 9%nat. exact I. Qed.

Lemma ex_at_11 : ex_reachable (ex_at 11).
Proof. ex_follow ex_at_10 10%nat. exact I. Qed.

(** The collections a command leaves behind. *)
Definition ex_ran (x : State N version) (cmd : Command N version bool bool) : StateCollections N version :=
  match Machine.run_command Z ex_hashed cmd (st_seqno x + 1) (st_collections x) with
  | Ret (c, _) => c
  | Panic => st_collections x
  end.

Lemma ex_ok n : ex_reachable (ex_at n) -> state_ok (ex_at n) /\ sc_rollups (st_collections (ex_at n)) <> [].
Proof. apply reachable_ok. Qed.

(** ** A late append *)

Definition ex_late : HollowBatch N := ex_batch 10 15 4 "p2" (replicate 4 x01).
Definition ex_late_token : IdempotencyToken := ex_token 200 eq_refl.

Abbreviation ex_attempt x now :=
  (attempt ex_hashed ex_late ex_writer 3600000 ex_late_token ex_debug 1000000 100 None x now ex_cfg (ex_clock now)) (only parsing).

Definition ex_state_of {R E} (o : outcome (result (NextState N version R) E)) : State N version :=
  match o with Ret (Ok ns) => ns_state ns | _ => ex_empty end.

(** The append is committed; then the writer is expired. *)
Definition ex_committed : State N version := ex_state_of (ex_attempt (ex_at 7) 1010).
Definition ex_expired : State N version :=
  ex_state_of (Machine.next_state (K := bool) (V := bool) Z ex_hashed ex_committed (ExpireWriter ex_writer) ex_cfg (ex_clock 1011)).

Lemma ex_committed_reachable : ex_reachable ex_committed.
Proof.
  apply (ex_step (ex_at 7) (CompareAndAppend ex_late ex_writer 1010 3600000 ex_late_token ex_debug 1000000 100 None) 1010);
    [exact ex_at_7|vm_compute; reflexivity|vm_compute; reflexivity|apply ex_writable; vm_compute; reflexivity].
Qed.

Lemma ex_attempt_commits : exists ns, ex_attempt (ex_at 7) 1010 = Ret (Ok ns) /\ ns_state ns = ex_committed.
Proof. vm_compute. eexists. split; reflexivity. Qed.

Lemma ex_lease_kept :
  lease_kept ex_hashed ex_late ex_writer 3600000 ex_late_token ex_debug 1000000 100 None (ex_at 7) 1010 (ex_clock 1010).
Proof.
  assert (Hw : match append_at ex_hashed ex_late ex_writer 3600000 ex_late_token ex_debug 1000000 100 None 1010 (st_collections (ex_at 7)) with
    | Ret (c', _) => forallb (fun kv => State.writer_holds 1010 kv.1 kv.2) (sc_writers c')
    | Panic => true
    end = true) by (vm_compute; reflexivity).
  intros c' r ws He Hg. rewrite He in Hw. rewrite forallb_forall in Hw.
  apply BTree.elem_of_get, list_elem_of_In, Hw in Hg. exact Hg.
Qed.

(** The append is committed, its answer is lost, and the retry asks again. *)
Lemma ex_retry : rtc (loop_step ex_hashed ex_late ex_writer 3600000 ex_late_token ex_debug 1000000 100 None)
  {| lp_shard := ex_at 7; lp_cache := ex_at 7; lp_indeterminate := false; lp_commits := 0; lp_answer := None |}
  {| lp_shard := ex_committed; lp_cache := ex_committed; lp_indeterminate := true; lp_commits := 1;
     lp_answer := Some (Ret (Machine.CaaResSuccess 8 [])) |}.
Proof.
  destruct ex_attempt_commits as (ns & Ea & Hns). 
  assert (Eb : ex_attempt ex_committed 1012 = Ret (Err (8, CaaAlreadyCommitted))) by (vm_compute; reflexivity).
  assert (Hu : (st_seqno ex_committed <? u64_max) = true) by (vm_compute; reflexivity). 
  eapply rtc_l; [eapply (loop_unanswered _ _ _ _ _ _ _ _ _ _ _ _ _ 1010 ex_cfg (ex_clock 1010) ns)|].
  - exact Ea.
  - reflexivity.
  - exact ex_cfg_ok.
  - apply ex_writable. vm_compute. reflexivity.
  - exact ex_lease_kept.
  - rewrite Hns. by apply Z.ltb_lt.
  - rewrite Hns. eapply rtc_l; [apply loop_fetch|]. eapply rtc_l; [|apply rtc_refl].
    exact (loop_break _ _ _ _ _ _ _ _ _ _ _ _ _ _ _ _ _ _ Eb).
Qed.
