(* ===== verification/RunExamples.v ===== *)
(** * A concrete run

    The example shard on stores in memory: two appends, a compaction, a
    rollup and a garbage collection. *)
From Stdlib Require Import Ascii.
From Stdlib.Strings Require Import Byte.
From S2P Require Import Prelude Compare Timely BTree Schema Paths Consensus Batch Order Blob Diff BatchFacts Spine SpineFacts Trace TraceFacts SpineKeep State StateDiff StateDiffFacts StateFacts Tombstone Machine MachineFacts DiffChain PartKeys Versions VersionsFacts Gc DeleteFacts GcFacts History System Append Examples.

Local Open Scope Z_scope.

#[export] Instance ex_blob : Blob (Object N version) := mem_blob (fun _ => 1).
#[export] Instance ex_blob_laws : BlobLaws (Object N version) := mem_blob_laws (fun _ => 1).

Definition ex_codecs : Codecs := {| key_codec := "K"; val_codec := "V"; ts_codec := "u64"; diff_codec := "i64" |}.

Abbreviation ex_world := (World (T := N) (Version := version)) (only parsing).

(** ** The actions of the run *)

Inductive ex_action :=
| XWrite (key : str) (o : Object N version)
| XRollup (id : RollupId)
| XCommand (cmd : Command N version bool bool) (now : Z).

Definition ex_stores0 : Stores N version := {| vs_consensus := MemConsensus.default; vs_blob := {| mb_dataz := []; mb_tombstone := true |} |}.

Definition ex_born : outcome ex_world :=
  let! (s, x, d) := StateVersions.write_initial_rollup ex_codecs ex_version ex_stores0 ex_shard "host" 999 ex_rollup in
  let! (s, r) := StateVersions.try_compare_and_set_current s ex_shard x d in
  match r with
  | Ok (Committed, v) => Ret {| w_hist := [x]; w_log := [v]; w_earliest := 0; w_stores := s |}
  | _ => Panic
  end.

Definition ex_act (w : ex_world) (a : ex_action) : outcome ex_world :=
  match a with
  | XWrite key o => Ret {| w_hist := w_hist w; w_log := w_log w; w_earliest := w_earliest w;
                           w_stores := StateVersions.with_blob (w_stores w) (bl_set (vs_blob (w_stores w)) key o) |}
  | XRollup id =>
      let! x := expect (last (w_hist w)) in
      let! (s, r) := StateVersions.write_rollup_for_state ex_codecs (w_stores w) x id in
      let! _ := expect r in
      Ret {| w_hist := w_hist w; w_log := w_log w; w_earliest := w_earliest w; w_stores := s |}
  | XCommand cmd now =>
      let! x := expect (last (w_hist w)) in
      let! x' := ex_next x cmd now in
      let! d := StateDiff.from_diff x x' in
      let! (s, r) := StateVersions.try_compare_and_set_current (w_stores w) ex_shard x' d in
      match r with
      | Ok (Committed, v) => Ret {| w_hist := w_hist w ++ [x']; w_log := w_log w ++ [v]; w_earliest := w_earliest w; w_stores := s |}
      | _ => Panic
      end
  end.

Definition ex_key (key : string) : str := complete_key (String.list_ascii_of_string key) ex_shard.

Definition ex_merge : FueledMergeRes N := {|
  fres_output := ex_batch 0 5 3 "c0" [x01; x01; x01]; fres_input := CIdRange (SId 0 1); fres_new_active_compaction := None |}.

Definition ex_rollup_id (n : N) (H : (n <? 2 ^ 128)%N = true) : RollupId := {| rollup_uuid := ex_id n H |}.
Definition ex_rollup_ref (n : N) (id : RollupId) : HollowRollup := {| rollup_key := PartialRollupKey_new n id; rollup_encoded_size_bytes := Some 1 |}.

Definition ex_all : list ex_action := [
  XCommand (RegisterLeasedReader "host" ex_reader "read" 300000 1001 false) 1001;
  XRollup (ex_rollup_id 6 eq_refl);
  XCommand (AddRollup 1 (ex_rollup_ref 1 (ex_rollup_id 6 eq_refl))) 1002;
  XWrite (ex_key "p0") (ObjData [x00]);
  XCommand (ex_append 0 5 3 "p0" (ex_token 100 eq_refl) 1003) 1003;
  XWrite (ex_key "p1") (ObjData [x00]);
  XCommand (ex_append 5 10 2 "p1" (ex_token 101 eq_refl) 1004) 1004;
  XWrite (ex_key "c0") (ObjData [x00]);
  XCommand (MergeRes ex_merge) 1005;
  XRollup (ex_rollup_id 7 eq_refl);
  XCommand (AddRollup 5 (ex_rollup_ref 5 (ex_rollup_id 7 eq_refl))) 1006;
  XCommand (DowngradeSince ex_reader 7 (from_elem 4%N) 1007) 1007].

Definition ex_nothing : ex_world := {| w_hist := []; w_log := []; w_earliest := 0; w_stores := ex_stores0 |}.
Definition ex_the (o : outcome ex_world) : ex_world := match o with Ret w => w | Panic => ex_nothing end.
Definition ex_do (w : outcome ex_world) (l : list ex_action) : outcome ex_world := let! w := w in foldM ex_act l w.

(** The world after the first [n] actions. *)
Definition ex_w (n : nat) : ex_world := ex_the (ex_do ex_born (take n ex_all)).

Definition ex_req : State.GcReq := {| State.gc_shard_id := ex_shard; State.gc_new_seqno_since := 6 |}.

Definition ex_collect (w : ex_world) : option (outcome (Stores N version * GcResults * option (list (SeqNo * str)))) :=
  match last (w_hist w) with
  | None => None
  | Some x =>
      GarbageCollector.gc_and_truncate ex_version 10 ex_shard ex_req x x
        (fun g => GarbageCollector.active_states ex_codecs ex_version 2 g ex_req (w_stores w) (replicate 10 (w_stores w)) (w_stores w)) (w_stores w)
  end.

(** ** It is a run *)

(** Batches without references to runs. *)
Definition no_run (q : RunPart N) : bool := match q with Single _ => true | Many _ => false end.
Definition no_runs (h : HollowBatch N) : bool := forallb no_run (hb_parts h).

Lemma no_runs_named hs : forallb no_runs hs = true -> named hs.
Proof.
  rewrite forallb_forall. intros Hall h h' Hh%list_elem_of_In _ r r' Hr%list_elem_of_In. apply Hall in Hh. unfold no_runs in Hh.
  rewrite forallb_forall in Hh. by apply Hh in Hr.
Qed.


Abbreviation ex_world_step := (world_step (T := N) (Version := version) (K := bool) (V := bool) Z ex_hashed ex_shard ex_codecs) (only parsing).

Definition is_ret {A} (o : outcome A) : bool := match o with Ret _ => true | Panic => false end.

Lemma is_ret_the o : is_ret o = true -> o = Ret (ex_the o).
Proof. by destruct o. Qed.

Lemma ex_world_init : world_init ex_shard ex_codecs (ex_w 0).
Proof.
  unfold ex_w, ex_do. change (take 0 ex_all) with (@nil ex_action).
  assert (Hr : is_ret ex_born = true) by (vm_compute; reflexivity). pose proof (is_ret_the _ Hr) as E. rewrite E. cbn [obind foldM ex_the]. revert E.
  generalize (ex_the ex_born) as w. intros w E. unfold ex_born in E.
  apply obind_Ret in E as ([[s x] d] & Hw & ([s' r] & Hc & E)%obind_Ret). destruct r as [[[|] v]|]; [|done..]. injection E as <-.
  exists ex_version, ex_stores0, "host"%string, 999, ex_rollup, s, x, d, v. by split_and!.
Qed.

Lemma ex_w_next n a : ex_all !! n = Some a -> is_ret (ex_do ex_born (take (S n) ex_all)) = true -> ex_act (ex_w n) a = Ret (ex_w (S n)).
Proof.
  intros Ha Hr. pose proof (is_ret_the _ Hr) as E. change (ex_the (ex_do ex_born (take (S n) ex_all))) with (ex_w (S n)) in E. revert E.
  generalize (ex_w (S n)) as w'. intros w' E. unfold ex_w. rewrite (take_S_r _ _ _ Ha) in E. unfold ex_do in *.
  apply obind_Ret in E as (w & -> & E). cbn [obind]. rewrite foldM_app in E. apply obind_Ret in E as (w1 & -> & E). cbn [ex_the]. cbn [foldM] in E.
  by apply obind_Ret in E as (w2 & E & [= <-]).
Qed.

Lemma ex_write_step w key o : (match bl_get (vs_blob (w_stores w)) key with None => true | Some _ => false end) = true ->
  forallb (fun x => forallb (fun r => negb (bool_decide (key = complete_key (rollup_key r) ex_shard))) (BTree.values (rollups_of x))) (w_hist w) = true ->
  ex_world_step w (ex_the (ex_act w (XWrite key o))).
Proof.
  intros Hn Hf. apply step_write; [by destruct (bl_get _ _)|]. intros x r Hx Hr. rewrite forallb_forall in Hf. apply list_elem_of_In, Hf in Hx.
  rewrite forallb_forall in Hx. apply list_elem_of_In, Hx in Hr. apply negb_true_iff, bool_decide_eq_false in Hr. done.
Qed.

(** What a single part reaches is its own blob. *)
Lemma reached_single blob q c : no_run q = true -> reached (T := N) (Version := version) ex_shard blob [q] c -> part_key q = Some c.
Proof.
  intros Hq (q' & Hu & Hc). assert (q' = q) as ->; [|done]. clear Hc. induction Hu as [q' Hq'|r parts q' _ IH]; [by apply list_elem_of_singleton in Hq'|].
  by subst q.
Qed.

Definition ex_checks (w : ex_world) (x : State N version) (cmd : Command N version bool bool) : bool :=
  (st_seqno x + 2 <? i64_max)
  && forallb (fun h => negb (bool_decide (hb_parts h = [])) || bool_decide (hb_run_meta h = [])) (brings cmd)
  && forallb no_runs (brings cmd ++ Trace.batches (sc_trace (st_collections x)))
  && forallb (fun h => bool_decide (hb_run_splits h = [])) (brings cmd)
  && bool_decide (NoDup (keys_of (brings cmd)))
  && forallb (fun k => forallb (fun y => negb (bool_decide (k ∈ trace_keys (trace_of y)))) (w_hist w)) (keys_of (brings cmd))
  && forallb (fun k => match bl_get (vs_blob (w_stores w)) (complete_key k ex_shard) with Some _ => true | None => false end) (keys_of (brings cmd)).

Definition ex_last (w : ex_world) : State N version := match last (w_hist w) with Some x => x | None => ex_empty end.

Lemma ex_command_step w cmd now w' : ex_act w (XCommand cmd now) = Ret w' -> ex_checks w (ex_last w) cmd = true ->
  command_fits (st_collections (ex_last w)) cmd -> rollups_fit ex_shard ex_codecs w (ex_last w) cmd -> ex_world_step w w'.
Proof.
  unfold ex_last. intros Ha Hc Hf Hr. destruct (last (w_hist w)) as [x|] eqn:Hx; [|cbn [ex_act] in Ha; by rewrite Hx in Ha]. unfold ex_checks in Hc. rewrite !andb_true_iff in Hc. destruct Hc as [[[[[[Hsz Ht] Hnr] Hsp] Hnd] Hnew] Hbl].
  cbn [ex_act] in Ha. rewrite Hx in Ha. cbn [expect obind] in Ha. apply obind_Ret in Ha as (x' & Hn & (d & Hd & ([s r] & Hcas & Ha)%obind_Ret)%obind_Ret).
  unfold ex_next in Hn. apply obind_Ret in Hn as ([ns|] & Hns & Hn); [|done]. injection Hn as <-.
  destruct r as [[[|] v]|]; [|done..]. injection Ha as <-.
  assert (Hsingle : forall h q, h ∈ brings cmd -> q ∈ hb_parts h -> no_run q = true).
  { intros h q Hh Hq. rewrite forallb_forall in Hnr. assert (Hin : h ∈ brings cmd ++ Trace.batches (sc_trace (st_collections x))) by (apply elem_of_app; by left).
    apply list_elem_of_In, Hnr in Hin. unfold no_runs in Hin. rewrite forallb_forall in Hin. by apply Hin, list_elem_of_In. }
  eapply (step_command Z ex_hashed ex_shard ex_codecs w x cmd ex_cfg (ex_clock now) ns d s v); try done.
  - by apply last_Some_elem_of.
  - by apply Z.ltb_lt.
  - split; [|by apply no_runs_named]. apply Forall_forall. intros h Hh%list_elem_of_In Hp. rewrite forallb_forall in Ht.
    apply Ht in Hh. rewrite Hp in Hh. simpl in Hh. by apply bool_decide_eq_true in Hh.
  - split; [|by apply bool_decide_eq_true in Hnd|].
    + apply Forall_forall. intros h Hh%list_elem_of_In. rewrite forallb_forall in Hsp. apply Hsp, bool_decide_eq_true in Hh. unfold orderly. rewrite Hh. repeat constructor.
    + intros k Hk (y & Hy & Hky). rewrite forallb_forall in Hnew. apply list_elem_of_In, Hnew in Hk. rewrite forallb_forall in Hk.
      apply list_elem_of_In, Hk, negb_true_iff, bool_decide_eq_false in Hy. done.
  - intros h q c Hh Hq Hre. apply reached_single in Hre; [|by eapply Hsingle]. rewrite forallb_forall in Hbl.
    assert (Hin : c ∈ keys_of (brings cmd)) by (apply elem_of_keys; exists h; split; [done|]; apply elem_of_part_keys; by exists q).
    apply list_elem_of_In, Hbl in Hin. unfold at_key. destruct (bl_get _ _); [by eexists|done].
Qed.

Lemma ex_write_next n key o : ex_all !! n = Some (XWrite key o) -> is_ret (ex_do ex_born (take (S n) ex_all)) = true ->
  (match bl_get (vs_blob (w_stores (ex_w n))) key with None => true | Some _ => false end) = true ->
  forallb (fun x => forallb (fun r => negb (bool_decide (key = complete_key (rollup_key r) ex_shard))) (BTree.values (rollups_of x))) (w_hist (ex_w n)) = true ->
  ex_world_step (ex_w n) (ex_w (S n)).
Proof.
  intros Ha Hr Hn Hf. pose proof (ex_w_next n _ Ha Hr) as E. revert E Hn Hf. generalize (ex_w (S n)) as w', (ex_w n) as w. intros w' w E Hn Hf.
  injection E as <-. by apply (ex_write_step w key o).
Qed.

Ltac ex_write n := eapply (ex_write_next n); [reflexivity|vm_compute; reflexivity..].

Ltac ex_command n :=
  eapply (ex_command_step (ex_w n)); [apply (ex_w_next n); [reflexivity|vm_compute; reflexivity]|vm_compute; reflexivity| |].

Lemma ex_merge_fits (t : Trace N) b : forallb (fun b => forallb (fun p =>
    (negb (sid_lo (ihb_id p) =? 0)%N || bool_decide (d_lower (hb_desc (ihb_batch p)) = from_elem 0%N))
    && (negb (sid_hi (ihb_id p) =? 1)%N || bool_decide (d_upper (hb_desc (ihb_batch p)) = from_elem 5%N))) (sb_parts b))
  (Spine.spine_batches (tr_spine t)) = true -> b ∈ Spine.spine_batches (tr_spine t) -> result_fits b ex_merge.
Proof.
  intros Hall Hb. rewrite forallb_forall in Hall. apply list_elem_of_In, Hall in Hb. rewrite forallb_forall in Hb.
  split; [done| |].
  - split; [done|by right|done|]. by repeat constructor.
  - intros i p [= <-] Hp%list_elem_of_In. specialize (Hb p Hp).
    rewrite andb_true_iff, !orb_true_iff, !negb_true_iff, !N.eqb_neq, !bool_decide_eq_true in Hb.
    destruct Hb as [[?|Hlo] [?|Hhi]]; split; intros E; try done.
Qed.

(** What writing a rollup stores. *)
Lemma rollup_written s x id s' r : StateVersions.write_rollup_for_state (T := N) (Version := version) ex_codecs s x id = Ret (s', Some r) ->
  s' = StateVersions.write_rollup_blob s r /\ er_shard_id r = st_shard_id x /\ er_key r = PartialRollupKey_new (Z.to_N (st_seqno x)) id /\ rollup_of ex_codecs x (er_buf r).
Proof.
  unfold StateVersions.write_rollup_for_state. intros ([n h] & _ & He)%obind_Ret. destruct (head _) as [v|]; [|by apply obind_Ret in He as (? & _ & [=])].
  destruct (negb _); [by apply obind_Ret in He as (? & _ & [=])|].
  apply obind_Ret in He as (? & _ & (? & _ & (r' & Hr & [= <- <-])%obind_Ret)%obind_Ret).
  unfold StateVersions.encode_rollup_blob in Hr. apply obind_Ret in Hr as (ro & Hro & [= <-]). cbn [er_shard_id er_key er_buf]. split_and!; try done.
  unfold Rollup.from in Hro. apply obind_Ret in Hro as ([n' h'] & _ & (? & _ & (? & _ & (i & _ & [= <-])%obind_Ret)%obind_Ret)%obind_Ret). by eexists.
Qed.

(** A rollup is written and then added. *)
Lemma ex_rollup_steps w id w1 now w2 :
  let key := PartialRollupKey_new (Z.to_N (st_seqno (ex_last w))) id in
  let cmd := AddRollup (st_seqno (ex_last w)) {| rollup_key := key; rollup_encoded_size_bytes := Some 1 |} in
  ex_act w (XRollup id) = Ret w1 -> ex_act w1 (XCommand cmd now) = Ret w2 -> st_shard_id (ex_last w) = ex_shard -> ex_checks w1 (ex_last w1) cmd = true ->
  (match bl_get (vs_blob (w_stores w)) (complete_key key ex_shard) with None => true | Some _ => false end) = true ->
  forallb (fun x => forallb (fun r => negb (bool_decide (complete_key key ex_shard = complete_key (rollup_key r) ex_shard))) (BTree.values (rollups_of x))) (w_hist w) = true ->
  (0 <=? st_seqno (ex_last w)) && (st_seqno (ex_last w) =? Z.of_nat (pred (length (w_hist w)))) = true ->
  rtc ex_world_step w w2.
Proof.
  cbv zeta. set (key := PartialRollupKey_new _ id). set (cmd := AddRollup _ _). intros H1 H2 Hsh Hc Hnone Hf Hseq. cbn [ex_act] in H1.
  destruct (last (w_hist w)) as [x|] eqn:Hx; [|done]. cbn [expect obind] in H1. assert (El : ex_last w = x) by (unfold ex_last; by rewrite Hx).
  apply obind_Ret in H1 as ([s [r|]] & Hr & H1); [|done]. cbn [expect obind] in H1. injection H1 as <-.
  destruct (rollup_written _ _ _ _ _ Hr) as (-> & Hrs & Hrk & Hro). rewrite <- El in Hrs, Hrk, Hro. rewrite Hsh in Hrs. fold key in Hrk.
  set (w1 := {| w_hist := w_hist w |}) in *. assert (El1 : ex_last w1 = x) by (unfold ex_last; simpl; by rewrite Hx).
  eapply rtc_l; [|apply rtc_once].
  - pose proof (ex_write_step w (complete_key key ex_shard) (er_buf r) Hnone Hf) as Hs. cbn [ex_act ex_the] in Hs.
    assert (Ew : StateVersions.write_rollup_blob (w_stores w) r = StateVersions.with_blob (w_stores w) (bl_set (vs_blob (w_stores w)) (complete_key key ex_shard) (er_buf r)))
      by (unfold StateVersions.write_rollup_blob; by rewrite Hrk, Hrs). rewrite <- Ew in Hs. exact Hs.
  - apply (ex_command_step w1 cmd now w2 H2 Hc I). rewrite El1, <- El. right. apply andb_true_iff in Hseq as [Hz Hl]. apply Z.leb_le in Hz. apply Z.eqb_eq in Hl. split.
    + exists (ex_last w), id, (er_buf r). cbn [w_hist w_stores w1]. split_and!; [done|lia| |done| |done].
      * rewrite Hl, Nat2Z.id, <- last_lookup. by rewrite El.
      * unfold rollup_blob, StateVersions.write_rollup_blob. cbn [rollup_key vs_blob StateVersions.with_blob]. rewrite Hrk, Hrs.
        change (MemBlob.get (MemBlob.set (vs_blob (w_stores w)) (complete_key key ex_shard) (er_buf r)) (complete_key key ex_shard) = Some (er_buf r)).
        unfold MemBlob.get, MemBlob.set, MemBlob.with_dataz. cbn [mb_dataz]. by rewrite BTree.get_insert_eq.
    + cbn [w_hist w1 rollup_key]. intros z Hz' (r' & E & Hr')%list_elem_of_fmap. rewrite forallb_forall in Hf. apply list_elem_of_In, Hf in Hz'.
      rewrite forallb_forall in Hz'. apply list_elem_of_In, Hz', negb_true_iff, bool_decide_eq_false in Hr'. apply Hr'. by rewrite E.
Qed.

Ltac ex_rollup_at n :=
  eapply (ex_rollup_steps (ex_w n)); [apply (ex_w_next n); [reflexivity|vm_compute; reflexivity]|apply (ex_w_next (S n)); [reflexivity|vm_compute; reflexivity]|vm_compute; reflexivity..].

Lemma ex_s0 : rtc ex_world_step (ex_w 0) (ex_w 1). Proof. apply rtc_once. ex_command 0%nat; exact I. Qed.
Lemma ex_s1 : rtc ex_world_step (ex_w 1) (ex_w 3). Proof. ex_rollup_at 1%nat. Qed.
Lemma ex_s3 : rtc ex_world_step (ex_w 3) (ex_w 4). Proof. apply rtc_once. ex_write 3%nat. Qed.
Lemma ex_s4 : rtc ex_world_step (ex_w 4) (ex_w 5). Proof. apply rtc_once. ex_command 4%nat; [apply ex_writable; vm_compute; reflexivity|exact I]. Qed.
Lemma ex_s5 : rtc ex_world_step (ex_w 5) (ex_w 6). Proof. apply rtc_once. ex_write 5%nat. Qed.
Lemma ex_s6 : rtc ex_world_step (ex_w 6) (ex_w 7). Proof. apply rtc_once. ex_command 6%nat; [apply ex_writable; vm_compute; reflexivity|exact I]. Qed.
Lemma ex_s7 : rtc ex_world_step (ex_w 7) (ex_w 8). Proof. apply rtc_once. ex_write 7%nat. Qed.
Lemma ex_s8 : rtc ex_world_step (ex_w 8) (ex_w 9).
Proof. apply rtc_once. ex_command 8%nat; [intros b Hb; eapply ex_merge_fits; [|exact Hb]; vm_compute; reflexivity|exact I]. Qed.
Lemma ex_s9 : rtc ex_world_step (ex_w 9) (ex_w 11). Proof. ex_rollup_at 9%nat. Qed.
Lemma ex_s11 : rtc ex_world_step (ex_w 11) (ex_w 12). Proof. apply rtc_once. ex_command 11%nat; exact I. Qed.

(** The last append, and the end. *)
Lemma ex_to_7 : rtc ex_world_step (ex_w 0) (ex_w 7).
Proof. etrans; [exact ex_s0|]. etrans; [exact ex_s1|]. etrans; [exact ex_s3|]. etrans; [exact ex_s4|]. etrans; [exact ex_s5|exact ex_s6]. Qed.

Lemma ex_to_12 : rtc ex_world_step (ex_w 7) (ex_w 12).
Proof. etrans; [exact ex_s7|]. etrans; [exact ex_s8|]. etrans; [exact ex_s9|exact ex_s11]. Qed.

Lemma ex_whole : rtc ex_world_step (ex_w 0) (ex_w 12).
Proof. etrans; [exact ex_to_7|exact ex_to_12]. Qed.

Lemma ex_ok_12 : world_ok ex_shard ex_codecs (ex_w 12).
Proof. exact (runs_ok Z ex_hashed ex_shard ex_codecs (ex_w 0) (ex_w 12) (init_ok _ _ _ ex_world_init) ex_whole). Qed.

(** ** The blobs of the run *)

(** Without runs, and with keys of parts that are none of rollups, what the
    garbage collector relies on holds. *)
Definition ex_apart (hist : list (State N version)) : bool :=
  forallb (fun x => forallb no_runs (Trace.batches (trace_of x))) hist
  && forallb (fun x => forallb (fun y => forallb (fun k => negb (bool_decide (k ∈ rollup_names y))) (trace_keys (trace_of x))) hist) hist.

Lemma ex_sound hist blob : ex_apart hist = true -> blob_sound (T := N) (Version := version) ex_shard hist (fun _ => 1%nat) blob.
Proof.
  intros [Hnr Hk]%andb_true_iff. assert (Hsingle : forall q, ever hist q -> no_run q = true).
  { intros q (i & x & Hx & h & Hh & Hq). apply list_elem_of_lookup_2 in Hx. rewrite forallb_forall in Hnr. apply list_elem_of_In, Hnr in Hx.
    rewrite forallb_forall in Hx. apply list_elem_of_In, Hx in Hh. unfold no_runs in Hh. rewrite forallb_forall in Hh. by apply Hh, list_elem_of_In. }
  assert (Hmany : forall l r, (forall q, q ∈ l -> ever hist q) -> ~ under (T := N) (Version := version) ex_shard blob l (Many r)).
  { intros l r Hl Hu. remember (Many r) as q eqn:Eq. revert r Eq. induction Hu as [q Hq|r' parts q _ IH _ _]; intros r ->; [by apply Hl, Hsingle in Hq|by eapply IH]. }
  split.
  - intros l Hl. split; try (intros; exfalso; by eapply Hmany). lia.
  - intros q q' k k' c Hq Hq' Hkq Hkq' Hne Hc Hc'. apply reached_single in Hc; [|by apply Hsingle]. apply reached_single in Hc'; [|by apply Hsingle]. congruence.
  - intros i y n r q Hy Hin Hq Hc. apply reached_single in Hc; [|by apply Hsingle]. destruct Hq as (j & x & Hx & h & Hh & Hqh).
    apply list_elem_of_lookup_2 in Hx, Hy. rewrite forallb_forall in Hk. apply list_elem_of_In, Hk in Hx. rewrite forallb_forall in Hx.
    apply list_elem_of_In, Hx in Hy. rewrite forallb_forall in Hy. assert (Hin' : rollup_key r ∈ trace_keys (trace_of x)) by (apply in_trace_keys; by exists h, q).
    apply list_elem_of_In, Hy, negb_true_iff, bool_decide_eq_false in Hin'. apply Hin'. by eapply rollup_named.
Qed.

Lemma ex_readable hist : forallb (fun x : State N version => code_can_read_data ex_version (sc_version (st_collections x))) hist = true -> readable ex_version hist.
Proof. intros Hall i x Hx. rewrite forallb_forall in Hall. by apply Hall, list_elem_of_In, list_elem_of_lookup_2 with i. Qed.

(** Without runs there is nothing to be read. *)
Lemma ex_no_weight hist ds i j : ex_apart hist = true -> recorded_history ex_shard hist ds -> keyed_history hist -> (i < j < length hist)%nat ->
  weight (fun _ => 1%nat) (found (T := N) (Version := version) ds i j).1 = 0%nat.
Proof.
  intros Ha Hrec Hkey Hij. assert (Hruns : run_keys_of (found (T := N) (Version := version) ds i j).1 = []); [|unfold weight; by rewrite Hruns].
  apply elem_of_nil_inv. intros k Hk. unfold found in Hk. cbn [fst] in Hk. apply adds_runs in Hk as [Hk|(r & Hr & _)]; [by apply not_elem_of_nil in Hk|].
  destruct (lookup_lt_is_Some_2 hist i) as [x Hx]; [lia|]. destruct (lookup_lt_is_Some_2 hist j) as [y Hy]; [lia|].
  destruct (dead_parts_ok ex_shard hist ds Hrec Hkey i j x y Hx Hy ltac:(lia)) as (_ & Hp & _). destruct (Hp _ Hr) as (a & z & _ & Hz & h & Hh & Hq).
  apply andb_true_iff in Ha as [Hnr _]. rewrite forallb_forall in Hnr. apply list_elem_of_lookup_2, list_elem_of_In, Hnr in Hz.
  rewrite forallb_forall in Hz. apply list_elem_of_In, Hz in Hh. unfold no_runs in Hh. rewrite forallb_forall in Hh. by apply list_elem_of_In, Hh in Hq.
Qed.
