(* ===== verification/Migrate.v ===== *)
(** * Running a schema migration (src/src/persist-types/src/schema.rs)

    [migrate] turns an array of the old type into one of the new type.  Arrays
    belong to the arrow crate: the class [Arrow] has the constructors and
    accessors that the migration calls, [ArrowLaws] what arrow documents of
    them.  A row of an array is a [Value]; [project] says how a row of the old
    type reads at the new type, and the theorem of this file is that [migrate]
    does that to every row. *)

From S2P Require Import Prelude Schema.

Local Open Scope nat_scope.

(** ** Arrays *)

(** A row of an array; what a leaf holds is arrow's business. *)
Inductive Value :=
| VNull
| VLeaf (bytes : list N)
| VStruct (fields : list (string * Value))
| VList (items : list Value).

(** A [NullBuffer]: which rows are null. *)
Abbreviation Nulls := (option (list bool)).

Definition masked (nulls : Nulls) (i : nat) : bool :=
  match nulls with Some l => match l !! i with Some b => b | None => false end | None => false end.

Class Arrow : Type := {
  Array : Type;
  data_type : Array -> DataType;
  array_len : Array -> nat;
  row : Array -> nat -> Value;
  (** [StructArray::into_parts], [StructArray::new], [new_empty_fields] *)
  struct_parts : Array -> option (list Field * list Array * Nulls);
  struct_new : list Field -> list Array -> Nulls -> outcome Array;
  struct_new_empty : nat -> Nulls -> outcome Array;
  (** [as_list_opt] with [ListArray::into_parts]; the same through [as_map_opt]
      and the conversion of a map to a list; [ListArray::new] *)
  list_parts : Array -> option (Field * list nat * Array * Nulls);
  map_parts : Array -> option (Field * list nat * Array * Nulls);
  list_new : Field -> list nat -> Array -> Nulls -> outcome Array;
  (** [NullArray::new], [new_null_array] *)
  null_array : nat -> Array;
  new_null_array : DataType -> nat -> Array;
}.

(** The rows that go with a type. *)
Fixpoint has_type (t : DataType) (v : Value) {struct t} : Prop :=
  match t, v with
  | _, VNull => True
  | TNull, _ => False
  | TStruct fs, VStruct kvs =>
      (fix go (fs : list Field) (kvs : list (string * Value)) : Prop :=
         match fs, kvs with
         | [], [] => True
         | f :: fs, kv :: kvs => kv.1 = f_name f /\ has_type (f_type f) kv.2 /\ go fs kvs
         | _, _ => False
         end) fs kvs
  | TList f, VList vs | TMap f _, VList vs => Forall (has_type (f_type f)) vs
  | (TPrim _ | TFixedSizeBinary _ | TUnused _), VLeaf _ => True
  | _, _ => False
  end.

Definition nulls_len (nulls : Nulls) (n : nat) : Prop := match nulls with Some l => length l = n | None => True end.

Section columns.
Context `{Arrow}.

(** What [StructArray::new] checks of a column: its type and length, and
    that a column that is not nullable has no null but where the struct has. *)
Definition column_ok (n : nat) (nulls : Nulls) (f : Field) (c : Array) : Prop :=
  data_type c = f_type f /\ array_len c = n /\
  (f_nullable f = false -> forall i, i < n -> row c i = VNull -> masked nulls i = true).

Definition struct_row (fs : list Field) (cs : list Array) (nulls : Nulls) (i : nat) : Value :=
  if masked nulls i then VNull else VStruct (zip_with (fun f c => (f_name f, row c i)) fs cs).

(** What [ListArray::new] checks: the offsets ascend and stay within the
    entries, and entries that are not nullable have no null. *)
Definition entries_ok (f : Field) (offsets : list nat) (c : Array) (nulls : Nulls) : Prop :=
  offsets <> [] /\ nulls_len nulls (pred (length offsets)) /\
  (forall i o o', offsets !! i = Some o -> offsets !! S i = Some o' -> o <= o' <= array_len c) /\
  data_type c = f_type f /\ (f_nullable f = false -> forall i, i < array_len c -> row c i <> VNull).

Definition list_row (offsets : list nat) (c : Array) (nulls : Nulls) (i : nat) : Value :=
  if masked nulls i then VNull
  else match offsets !! i, offsets !! S i with
       | Some o, Some o' => VList (row c <$> seq o (o' - o))
       | _, _ => VNull
       end.
End columns.

Class ArrowLaws `{Arrow} : Prop := {
  row_typed : forall a i, i < array_len a -> has_type (data_type a) (row a i);
  struct_parts_ok : forall a fs, data_type a = TStruct fs -> exists cs nulls,
    struct_parts a = Some (fs, cs, nulls) /\ nulls_len nulls (array_len a) /\
    Forall2 (column_ok (array_len a) nulls) fs cs /\ forall i, i < array_len a -> row a i = struct_row fs cs nulls i;
  struct_new_ok : forall n fs cs nulls, cs <> [] -> nulls_len nulls n -> Forall2 (column_ok n nulls) fs cs -> exists a,
    struct_new fs cs nulls = Ret a /\ data_type a = TStruct fs /\ array_len a = n /\
    forall i, i < n -> row a i = struct_row fs cs nulls i;
  struct_new_empty_ok : forall n nulls, nulls_len nulls n -> exists a,
    struct_new_empty n nulls = Ret a /\ data_type a = TStruct [] /\ array_len a = n /\
    forall i, i < n -> row a i = struct_row [] [] nulls i;
  list_parts_ok : forall a f, data_type a = TList f -> exists offsets c nulls,
    list_parts a = Some (f, offsets, c, nulls) /\ entries_ok f offsets c nulls /\ length offsets = S (array_len a) /\
    forall i, i < array_len a -> row a i = list_row offsets c nulls i;
  list_parts_not : forall a f s, data_type a = TMap f s -> list_parts a = None;
  map_parts_ok : forall a f s, data_type a = TMap f s -> exists offsets c nulls,
    map_parts a = Some (f, offsets, c, nulls) /\ entries_ok f offsets c nulls /\ length offsets = S (array_len a) /\
    forall i, i < array_len a -> row a i = list_row offsets c nulls i;
  list_new_ok : forall f offsets c nulls, entries_ok f offsets c nulls -> exists a,
    list_new f offsets c nulls = Ret a /\ data_type a = TList f /\ S (array_len a) = length offsets /\
    forall i, i < array_len a -> row a i = list_row offsets c nulls i;
  null_array_ok : forall n, data_type (null_array n) = TNull /\ array_len (null_array n) = n;
  new_null_array_ok : forall t n, data_type (new_null_array t n) = t /\ array_len (new_null_array t n) = n /\
    forall i, i < n -> row (new_null_array t n) i = VNull;
}.

(** ** The migration *)

Section migrate.
Context `{Arrow}.

Definition is_add (m : StructArrayMigration) : bool := match m with AddFieldNullableAtEnd _ _ => true | _ => false end.

(** [Vec::remove] panics out of range. *)
Definition vec_remove {A} (l : list A) (i : nat) : outcome (list A) :=
  let! _ := assert_ (i <? length l) in Ret (delete i l).

(** [StructArrayMigration::migrate]; [migrate] is the call on the column of a
    field. *)
Definition migrate_field {M} (migrate : M -> Array -> outcome Array) (m : StructArrayMigrationOf M) (len : nat)
    (st : list Field * list Array) : outcome (list Field * list Array) :=
  let '(fields, arrays) := st in
  match m with
  | AddFieldNullableAtEnd name typ => Ret (fields ++ [mkField name typ true], arrays ++ [new_null_array typ len])
  | DropField name =>
      let! (idx, _) := expect (fields_find name fields) in
      let! arrays := vec_remove arrays idx in
      Ret (delete idx fields, arrays)
  | MakeNull name =>
      let! (idx, _) := expect (fields_find name fields) in
      let! array := index arrays idx in
      Ret (<[idx := mkField name TNull true]> fields, <[idx := null_array (array_len array)]> arrays)
  | AlterFieldNullable name =>
      let! (idx, field) := expect (fields_find name fields) in
      let! _ := assert_ (negb (f_nullable field)) in
      Ret (<[idx := mkField (f_name field) (f_type field) true]> fields, arrays)
  | Recurse name migration =>
      let! (idx, field) := expect (fields_find name fields) in
      let! array := index arrays idx in
      let! array := migrate migration array in
      Ret (<[idx := mkField name (data_type array) (f_nullable field)]> fields, <[idx := array]> arrays)
  end.

Fixpoint migrate (m : ArrayMigration) (array : Array) : outcome Array :=
  match m with
  | NoOp => Ret array
  | MStruct migrations =>
      let len := array_len array in
      let! (fields, arrays, nulls) :=
        match data_type array with
        | TNull => let! _ := assert_ (forallb is_add migrations) in Ret ([], [], None)
        | TStruct _ => expect (struct_parts array)
        | _ => Panic
        end in
      let! (fields, arrays) := foldM (fun st m => migrate_field migrate m len st) migrations (fields, arrays) in
      let! _ := assert_ (length fields =? length arrays) in
      match arrays with
      | [] => struct_new_empty len nulls
      | _ => struct_new fields arrays nulls
      end
  | MList field entry_migration =>
      let! (_, offsets, entries, nulls) :=
        match list_parts array with
        | Some list_array => Ret list_array
        | None => expect (map_parts array)
        end in
      let! entries := migrate entry_migration entries in
      list_new field offsets entries nulls
  end.
End migrate.

(** ** Comparing rows (src/src/persist-types/src/arrow.rs)

    [ArrayIdx::cmp] on the rows of two arrays of one type.  Leaves are compared
    as the values of their type: the parameter [leaf_cmp]. *)

(** The types that [ArrayOrd::new] accepts. *)
Fixpoint ord_supported (t : DataType) : bool :=
  match t with
  | TNull | TFixedSizeBinary _ => true
  | TPrim p => match p with
               | PBoolean | PInt8 | PInt16 | PInt32 | PInt64 | PUInt8 | PUInt16 | PUInt32 | PUInt64
               | PFloat32 | PFloat64 | PBinary | PUtf8 => true
               | _ => false
               end
  | TList f => ord_supported (f_type f)
  | TStruct fs => forallb (fun f => ord_supported (f_type f)) fs
  | TMap _ _ | TUnused _ => false
  end.

(** [Iterator::cmp] *)
Fixpoint iter_cmp {A} (cmp : A -> A -> outcome comparison) (xs ys : list A) : outcome comparison :=
  match xs, ys with
  | [], [] => Ret Eq
  | [], _ => Ret Lt
  | _, [] => Ret Gt
  | x :: xs, y :: ys => let! c := cmp x y in match c with Eq => iter_cmp cmp xs ys | c => Ret c end
  end.

(** The same on the columns of two structs. *)
Fixpoint columns_cmp (cmp : Field -> Value -> Value -> outcome comparison) (fs : list Field) (xs ys : list (string * Value)) :
    outcome comparison :=
  match fs, xs, ys with
  | [], [], [] => Ret Eq
  | f :: fs, x :: xs, y :: ys => let! c := cmp f x.2 y.2 in match c with Eq => columns_cmp cmp fs xs ys | c => Ret c end
  | _, _, _ => Panic
  end.

(** Nulls sort last. *)
Definition nulls_last (v w : Value) (cmp : outcome comparison) : outcome comparison :=
  match v, w with
  | VNull, VNull => Ret Eq
  | VNull, _ => Ret Gt
  | _, VNull => Ret Lt
  | _, _ => cmp
  end.

Section row_cmp.
Context (leaf_cmp : DataType -> list N -> list N -> comparison).

Fixpoint row_cmp (t : DataType) (v w : Value) {struct t} : outcome comparison :=
  match t with
  | TNull => Ret Eq
  | TPrim _ | TFixedSizeBinary _ =>
      nulls_last v w (match v, w with VLeaf a, VLeaf b => Ret (leaf_cmp t a b) | _, _ => Panic end)
  | TList f => nulls_last v w (match v, w with VList vs, VList ws => iter_cmp (row_cmp (f_type f)) vs ws | _, _ => Panic end)
  | TStruct fs =>
      nulls_last v w (match v, w with
                      | VStruct xs, VStruct ys => columns_cmp (fun f => row_cmp (f_type f)) fs xs ys
                      | _, _ => Panic
                      end)
  | TMap _ _ | TUnused _ => Panic
  end.
End row_cmp.
