(* ===== verification/MigrateFacts.v ===== *)
(** * A migration does what the two types say

    [project] reads a row of the old type at the new one: fields are matched
    by name, new ones are null, and what is nested is read the same way.  For
    types that [backward_compatible] accepts, [migrate] never panics and every
    row of its result is the projection of the row it was. *)

From S2P Require Import Prelude Schema Migrate.

Local Open Scope nat_scope.

(** ** The specification *)

Definition field_value (name : string) (kvs : list (string * Value)) : Value :=
  match list_find (fun kv => kv.1 = name) kvs with Some (_, kv) => kv.2 | None => VNull end.

Fixpoint project (new old : DataType) (v : Value) {struct new} : Value :=
  match old, new with
  | TNull, TStruct ns => VStruct ((fun n => (f_name n, VNull)) <$> ns)
  | TStruct os, TStruct ns =>
      match v with
      | VStruct kvs =>
          VStruct (map (fun n => (f_name n,
            match fields_find (f_name n) os with
            | Some (_, o) => project (f_type n) (f_type o) (field_value (f_name n) kvs)
            | None => VNull
            end)) ns)
      | v => v
      end
  | TStruct _, TNull => VNull
  | TList o, TList n | TMap o _, TList n =>
      match v with VList vs => VList (map (project (f_type n) (f_type o)) vs) | v => v end
  | _, _ => v
  end.

(** The fields of a struct have different names, and maps agree on whether
    they are sorted. *)
Fixpoint plain (s : bool) (t : DataType) : bool :=
  match t with
  | TStruct fs => bool_decide (NoDup (f_name <$> fs)) && forallb (fun f => plain s (f_type f)) fs
  | TList f => plain s (f_type f)
  | TMap f s' => Bool.eqb s s' && plain s (f_type f)
  | _ => true
  end.

Lemma plain_struct s fs : plain s (TStruct fs) = true <-> NoDup (f_name <$> fs) /\ forall f, f ∈ fs -> plain s (f_type f) = true.
Proof.
  cbn [plain]. rewrite andb_true_iff, bool_decide_eq_true, forallb_forall. split; intros [Hn Hf]; (split; [done|]); intros f Hin.
  - by apply Hf, list_elem_of_In.
  - by apply Hf, list_elem_of_In.
Qed.

(** ** Finding fields by name *)

Lemma find_named {A} (name : A -> string) (l1 : list A) x l2 : name x ∉ name <$> l1 ->
  list_find (fun y => name y = name x) (l1 ++ x :: l2) = Some (length l1, x).
Proof.
  intros Hn. apply list_find_Some. rewrite list_lookup_middle by done. split_and!; [done|done|].
  intros j y Hj Hlt Heq. rewrite lookup_app_l in Hj by done. apply Hn. rewrite <- Heq. by eapply list_elem_of_fmap_2, list_elem_of_lookup_2.
Qed.

Lemma find_in {A} (name : A -> string) (l : list A) x : NoDup (name <$> l) -> x ∈ l ->
  exists l1 l2, l = l1 ++ x :: l2 /\ list_find (fun y => name y = name x) l = Some (length l1, x).
Proof.
  intros Hnd (l1 & l2 & ->)%list_elem_of_split. exists l1, l2. split; [done|]. apply find_named.
  rewrite fmap_app, fmap_cons in Hnd. apply NoDup_app in Hnd as (_ & Hd & _). intros Hin. by apply (Hd _ Hin), list_elem_of_here.
Qed.

Lemma find_none {A} (name : A -> string) (l : list A) s : list_find (fun y => name y = s) l = None <-> s ∉ name <$> l.
Proof.
  rewrite list_find_None, Forall_forall. split.
  - by intros Hn (x & -> & Hx%Hn)%list_elem_of_fmap.
  - intros Hn x Hx <-. by apply Hn, list_elem_of_fmap_2.
Qed.

Lemma find_some {A} (name : A -> string) (l : list A) s i x : list_find (fun y => name y = s) l = Some (i, x) -> name x = s /\ x ∈ l /\ l !! i = Some x.
Proof. intros (Hi & Hn & _)%list_find_Some. split_and!; try done. by eapply list_elem_of_lookup_2. Qed.

Lemma filter_same {A} (P Q : A -> Prop) `{!forall x, Decision (P x)} `{!forall x, Decision (Q x)} (l : list A) :
  Forall (fun x => P x <-> Q x) l -> filter P l = filter Q l.
Proof.
  induction 1 as [|x l Hx _ IH]; [done|]. rewrite !filter_cons. destruct (decide (P x)), (decide (Q x)); [by f_equal|tauto..|done].
Qed.

Lemma filter_map {A B} (f : A -> B) (P : B -> Prop) `{!forall x, Decision (P x)} (l : list A) : filter P (f <$> l) = f <$> filter (fun x => P (f x)) l.
Proof. induction l as [|x l IH]; [done|]. rewrite fmap_cons, !filter_cons. case_decide; [|done]. by rewrite fmap_cons, IH. Qed.

(** Distinct names and the order of the names determine a list. *)
Lemma same_names {A} (name : A -> string) (l k : list A) : name <$> l = name <$> k -> (forall x, x ∈ l -> x ∈ k) -> NoDup (name <$> k) -> l = k.
Proof.
  revert k. induction l as [|x l IH]; intros [|y k] He Hin Hnd; try done. injection He as Hxy He'. assert (He : name <$> l = name <$> k) by exact He'. clear He'. rewrite fmap_cons in Hnd. apply NoDup_cons in Hnd as [Hy Hnd].
  assert (x = y) as ->.
  { destruct (proj1 (elem_of_cons _ _ _) (Hin x (list_elem_of_here _ _))) as [->|Hx]; [done|]. destruct Hy. rewrite <- Hxy. by apply list_elem_of_fmap_2. }
  f_equal. apply IH; [done| |done]. intros z Hz.
  destruct (proj1 (elem_of_cons _ _ _) (Hin z (list_elem_of_further _ _ _ Hz))) as [->|Hz']; [|done].
  destruct Hy. rewrite <- He. by apply list_elem_of_fmap_2.
Qed.

(** ** Reading a row at its own type *)

Lemma typed_struct fs v : has_type (TStruct fs) v -> v = VNull \/ exists kvs, v = VStruct kvs /\ Forall2 (fun f kv => kv.1 = f_name f /\ has_type (f_type f) kv.2) fs kvs.
Proof.
  destruct v as [|b|kvs|vs]; [by left|done| |done]. intros Ht. right. exists kvs. split; [done|]. revert kvs Ht.
  induction fs as [|f fs IH]; intros [|kv kvs] Ht; try done. destruct Ht as (Hn & Hv & Ht). constructor; [by split|]. by apply IH.
Qed.

Lemma find_zip {B} (R : Field -> B -> Prop) (name : B -> string) fs ks n o :
  (forall f k, R f k -> name k = f_name f) -> Forall2 R fs ks -> fields_find n fs = Some o ->
  exists k, list_find (fun k => name k = n) ks = Some (o.1, k) /\ ks !! o.1 = Some k /\ R o.2 k.
Proof.
  intros HR Hf. destruct o as [i o]. intros (Hi & Hn & Hfirst)%list_find_Some. cbn [fst snd].
  destruct (Forall2_lookup_l _ _ _ _ _ Hf Hi) as (k & Hk & Hok). exists k. split_and!; [|done|done].
  apply list_find_Some. split_and!; [done|by rewrite (HR o k)|]. intros j k' Hk' Hlt.
  destruct (Forall2_lookup_r _ _ _ _ _ Hf Hk') as (o' & Ho' & Hok'). rewrite (HR o' k') by done. by apply (Hfirst j o').
Qed.

Lemma field_lookup os (kvs : list (string * Value)) j o kv : NoDup (f_name <$> os) -> Forall2 (fun f kv => kv.1 = f_name f /\ has_type (f_type f) kv.2) os kvs ->
  os !! j = Some o -> kvs !! j = Some kv -> fields_find (f_name o) os = Some (j, o) /\ field_value (f_name o) kvs = kv.2.
Proof.
  intros Hnd Hf Ho Hk. destruct (find_in f_name os o Hnd (list_elem_of_lookup_2 _ _ _ Ho)) as (l1 & l2 & He & Hfd).
  assert (length l1 = j) as Hj. { eapply (NoDup_lookup _ _ _ (f_name o) Hnd); rewrite list_lookup_fmap; [by rewrite He, list_lookup_middle|by rewrite Ho]. }
  subst j. split; [done|]. destruct (find_zip _ (fun kv : string * Value => kv.1) _ kvs _ _ (fun f kv H => proj1 H) Hf Hfd) as (kv' & Hfk & Hk' & _).
  unfold field_value. rewrite Hfk. cbn in Hk'. congruence.
Qed.

Lemma project_refl s t v : plain s t = true -> has_type t v -> project t t v = v.
Proof.
  revert v. induction t as [|p|n|fs IH|f IH|f s' IH|n] using type_ind'; intros v Hp Hv; try done.
  - destruct (typed_struct fs v Hv) as [->|(kvs & -> & Hf)]; [done|]. apply plain_struct in Hp as [Hnd Hp]. cbn [project]. f_equal.
    apply list_eq_Forall2, Forall2_fmap_l. rewrite Forall_forall in IH.
    assert (Hall : Forall2 (fun f kv => f ∈ fs /\ kv.1 = f_name f /\ has_type (f_type f) kv.2 /\ field_value (f_name f) kvs = kv.2 /\ exists i, fields_find (f_name f) fs = Some (i, f)) fs kvs).
    { apply Forall2_same_length_lookup_2; [by eapply Forall2_length|]. intros i f kv Hi Hk.
      destruct (Forall2_lookup_lr _ _ _ _ _ _ Hf Hi Hk) as [Hn Ht]. pose proof (list_elem_of_lookup_2 _ _ _ Hi) as Hin. split_and!; try done.
      - by destruct (field_lookup fs kvs i f kv Hnd Hf Hi Hk).
      - exists i. by destruct (field_lookup fs kvs i f kv Hnd Hf Hi Hk). }
    eapply Forall2_impl; [exact Hall|]. intros f [k w] (Hin & Hn & Ht & Hfv & i & He). cbn in *. rewrite He, Hfv, IH; [by rewrite Hn|done|by apply Hp|done].
  - destruct v as [|b|kvs|vs]; try done. cbn [project]. f_equal. cbn [plain has_type] in *. induction Hv as [|v vs Hv _ IHv]; [done|]. cbn [map]. by rewrite IH, IHv.
Qed.

(** ** What [backward_compatible_struct] plans *)

(** What it plans for a field [n] that was [o]. *)
Definition kept_plan (o n : Field) (ms : list StructArrayMigration) : Prop :=
  ms = [MakeNull (f_name n)] /\ is_struct (f_type o) = true /\ f_type n = TNull /\ f_nullable n = true \/
  exists m, backward_compatible_typ (f_type n) (f_type o) = Ret (Some m) /\ (f_nullable o = true -> f_nullable n = true) /\
    ms = (if negb (f_nullable o) && f_nullable n then [AlterFieldNullable (f_name n)] else []) ++
         (if is_noop m then [] else [Recurse (f_name n) m]).

(** After the first field that was added, there are only such. *)
Inductive plan (os : list Field) : bool -> list Field -> list StructArrayMigration -> Prop :=
| plan_nil added : plan os added [] []
| plan_kept i o n ns ms ms' : fields_find (f_name n) os = Some (i, o) -> kept_plan o n ms -> plan os false ns ms' ->
    plan os false (n :: ns) (ms ++ ms')
| plan_added added n ns ms : fields_find (f_name n) os = None -> f_nullable n = true -> plan os true ns ms ->
    plan os added (n :: ns) (AddFieldNullableAtEnd (f_name n) (f_type n) :: ms).

Lemma loop_plan os ns added acc ms : field_migrations backward_compatible_typ os ns added acc = Ret (Some ms) ->
  exists ms', ms = acc ++ ms' /\ plan os added ns ms'.
Proof.
  revert added acc. induction ns as [|n ns IH]; intros added acc; cbn [field_migrations].
  { intros [= <-]. exists []. rewrite app_nil_r. split; [done|constructor]. }
  destruct (fields_find (f_name n) os) as [[i o]|] eqn:Ef.
  - destruct added; [done|]. destruct (f_nullable o && negb (f_nullable n)) eqn:En; [done|].
    assert (Ho : f_nullable o = true -> f_nullable n = true) by (by destruct (f_nullable o), (f_nullable n)).
    assert (Hgo : forall step, kept_plan o n step -> field_migrations backward_compatible_typ os ns false (acc ++ step) = Ret (Some ms) ->
      exists ms', ms = acc ++ ms' /\ plan os false (n :: ns) ms').
    { intros step Hs (ms' & -> & Hp)%IH. exists (step ++ ms'). split; [by rewrite app_assoc|]. by eapply plan_kept. }
    destruct (is_struct (f_type o) && f_nullable o && bool_decide (f_type n = TNull)) eqn:Es.
    { apply andb_prop in Es as [[Hs Hno]%andb_prop Ht%bool_decide_eq_true_1]. apply Hgo. left. split_and!; try done. by apply Ho. }
    destruct (backward_compatible_typ (f_type n) (f_type o)) as [[m|]|] eqn:Eb; [|done..]. cbn [obind].
    assert (Hk : kept_plan o n ((if negb (f_nullable o) && f_nullable n then [AlterFieldNullable (f_name n)] else []) ++
         (if is_noop m then [] else [Recurse (f_name n) m]))) by (right; by exists m).
    destruct m; destruct (negb (f_nullable o) && f_nullable n); try destruct (recursively_all_nullable _); try done;
      try (by apply (Hgo _ Hk)); intros Hf; apply (Hgo _ Hk); cbn [is_noop app]; by rewrite app_nil_r.
  - destruct (f_nullable n) eqn:En; cbn [negb]; [|done]. intros (ms' & -> & Hp)%IH.
    exists (AddFieldNullableAtEnd (f_name n) (f_type n) :: ms'). split; [by rewrite <- app_assoc|]. by apply plan_added.
Qed.

(** The fields that are kept come first, and the others are new. *)
Lemma plan_split os added ns ms : plan os added ns ms -> exists kept fresh, ns = kept ++ fresh /\ (added = true -> kept = []) /\
  Forall (fun n => f_name n ∈ f_name <$> os) kept /\ Forall (fun n => f_name n ∉ f_name <$> os) fresh.
Proof.
  induction 1 as [added|i o n ns ms ms' Hf Hk Hp IH|added n ns ms Hf Hn Hp IH].
  - exists [], []. split_and!; (done || constructor).
  - destruct IH as (kept & fresh & -> & _ & H1 & H2). exists (n :: kept), fresh. split_and!; try done. constructor; [|done].
    apply (find_some f_name) in Hf as (<- & Hin & _). by apply list_elem_of_fmap_2.
  - destruct IH as (kept & fresh & -> & Hk & H1 & H2). rewrite (Hk eq_refl) in *. exists [], (n :: fresh). split_and!; try done.
    constructor; [|done]. by apply (find_none f_name).
Qed.

(** ** Order *)

Definition position (l : list string) (x : string) : nat := default 0 (fst <$> list_find (fun y => y = x) l).
Definition earlier (l : list string) (x y : string) : Prop := position l x <= position l y.

#[export] Instance earlier_trans l : Transitive (earlier l).
Proof. intros x y z. unfold earlier. lia. Qed.

Lemma position_lookup l i x : NoDup l -> l !! i = Some x -> position l x = i.
Proof.
  intros Hnd Hi. destruct (find_in (fun y => y) l x) as (l1 & l2 & He & Hf); [by rewrite list_fmap_id|by eapply list_elem_of_lookup_2|].
  unfold position. rewrite Hf. cbn. eapply (NoDup_lookup _ _ _ x Hnd); [|done]. rewrite He. by apply list_lookup_middle.
Qed.

Lemma strongly_filter {A} (R : relation A) (P : A -> Prop) `{!forall x, Decision (P x)} l : StronglySorted R l -> StronglySorted R (filter P l).
Proof.
  induction 1 as [|x l Hs IH Hx]; [constructor|]. rewrite filter_cons. destruct (decide (P x)); [|done]. constructor; [done|].
  rewrite Forall_forall in *. intros y [_ Hy]%list_elem_of_filter. by apply Hx.
Qed.

Lemma sorted_lookup {A} (R : relation A) l : (forall i j x y, i < j -> l !! i = Some x -> l !! j = Some y -> R x y) -> StronglySorted R l.
Proof.
  induction l as [|x l IH]; intros Hl; constructor.
  - apply IH. intros i j y z Hij Hy Hz. apply (Hl (S i) (S j)); [lia|done..].
  - apply Forall_forall. intros y [j Hj]%list_elem_of_lookup_1. apply (Hl 0 (S j)); [lia|done..].
Qed.

Lemma windows_sorted l ks : windows_le (position l <$> ks) = true -> Sorted (earlier l) ks.
Proof.
  induction ks as [|x ks IH]; intros Hw; constructor.
  - apply IH. destruct ks; [done|]. by apply andb_prop in Hw as [_ Hw].
  - destruct ks as [|y ks]; constructor. apply andb_prop in Hw as [Hw _]. by apply Nat.leb_le.
Qed.

Lemma positions (os kept fresh : list Field) : Forall (fun n => f_name n ∈ f_name <$> os) kept -> Forall (fun n => f_name n ∉ f_name <$> os) fresh ->
  omap (fun n => fst <$> fields_find (f_name n) os) (kept ++ fresh) = position (f_name <$> os) <$> (f_name <$> kept).
Proof.
  intros Hk Hf. rewrite omap_app. replace (omap _ fresh) with (@nil nat).
  2: { induction Hf as [|n fresh Hn _ IH]; [done|]. cbn [omap list_omap]. apply (find_none f_name) in Hn. unfold fields_find. by rewrite Hn. }
  rewrite app_nil_r. induction Hk as [|n kept Hn _ IH]; [done|]. rewrite !fmap_cons, <- IH. cbn [omap list_omap].
  assert (Hp : fst <$> fields_find (f_name n) os = fst <$> list_find (fun y => y = f_name n) (f_name <$> os)).
  { unfold fields_find. rewrite list_find_fmap. by destruct (list_find _ os) as [[i o]|]. }
  unfold position. rewrite <- Hp. destruct (fields_find (f_name n) os) as [[i o]|] eqn:E; [done|]. by apply (find_none f_name) in E.
Qed.

Lemma kept_names (os ns kept fresh : list Field) : NoDup (f_name <$> os) -> NoDup (f_name <$> ns) -> same_order os ns = true -> ns = kept ++ fresh ->
  Forall (fun n => f_name n ∈ f_name <$> os) kept -> Forall (fun n => f_name n ∉ f_name <$> os) fresh ->
  filter (fun x => x ∈ f_name <$> ns) (f_name <$> os) = f_name <$> kept.
Proof.
  intros Hos Hns Hord -> Hk Hf. unfold same_order in Hord. rewrite positions in Hord by done.
  apply (StronglySorted_unique_strong (earlier (f_name <$> os))).
  - intros x y [_ [i Hi]%list_elem_of_lookup_1]%list_elem_of_filter (n & -> & Hn)%list_elem_of_fmap H1 H2.
    rewrite Forall_forall in Hk. destruct (list_elem_of_lookup_1 _ _ (Hk n Hn)) as [j Hj]. unfold earlier in H1, H2.
    rewrite (position_lookup _ _ _ Hos Hi), (position_lookup _ _ _ Hos Hj) in *. assert (i = j) as -> by lia. congruence.
  - apply strongly_filter, sorted_lookup. intros i j x y Hij Hx Hy. unfold earlier. rewrite (position_lookup _ _ _ Hos Hx), (position_lookup _ _ _ Hos Hy). lia.
  - apply Sorted_StronglySorted; [apply _|]. by apply windows_sorted.
  - rewrite fmap_app in *. apply NoDup_app in Hns as (Hnk & _ & _). apply NoDup_Permutation; [by apply NoDup_filter|done|]. intros x.
    rewrite list_elem_of_filter, elem_of_app. rewrite Forall_forall in Hk, Hf. split.
    + intros [[Hx|(n & -> & Hn)%list_elem_of_fmap] Ho]; [done|]. by destruct (Hf n Hn).
    + intros Hx. split; [by left|]. apply list_elem_of_fmap in Hx as (n & -> & Hn). by apply Hk.
Qed.

(** ** No migration means no change *)

Lemma plan_nothing os added ns ms : plan os added ns ms -> ms = [] -> Forall (fun n => exists i o, fields_find (f_name n) os = Some (i, o) /\
  backward_compatible_typ (f_type n) (f_type o) = Ret (Some NoOp) /\ f_nullable o = f_nullable n) ns.
Proof.
  induction 1 as [added|i o n ns ms ms' Hf Hk Hp IH|added n ns ms Hf Hn Hp IH]; intros He; [constructor| |done].
  apply app_eq_nil in He as [-> ->]. constructor; [|by apply IH]. exists i, o. split; [done|].
  destruct Hk as [(? & _)|(m & Hb & Hn & He)]; [done|]. destruct m; cbn [is_noop] in He; [|by destruct (negb _ && _)..].
  split; [done|]. destruct (f_nullable o), (f_nullable n); try done. by specialize (Hn eq_refl).
Qed.

Lemma dropped_name os ns o : o ∈ os -> f_name o ∉ f_name <$> ns -> DropField (f_name o) ∈ dropped_fields os ns.
Proof. intros Ho Hn. apply list_elem_of_omap. exists o. split; [done|]. apply (find_none f_name) in Hn. unfold fields_find. by rewrite Hn. Qed.

Lemma struct_noop os ns : NoDup (f_name <$> os) -> NoDup (f_name <$> ns) -> (forall n o, n ∈ ns -> o ∈ os ->
    backward_compatible_typ (f_type n) (f_type o) = Ret (Some NoOp) -> f_type o = f_type n) ->
  backward_compatible_struct backward_compatible_typ os ns = Ret (Some NoOp) -> os = ns.
Proof.
  intros Hos Hns IH Hb. unfold backward_compatible_struct in Hb. destruct (field_migrations _ _ _ _ _) as [[ms|]|] eqn:E; [|done..]. cbn [obind] in Hb.
  destruct (negb (same_order os ns)) eqn:Eo; [done|]. apply negb_false_iff in Eo. destruct (ms ++ dropped_fields os ns) eqn:Em; [|done].
  apply app_eq_nil in Em as [-> Hd]. apply loop_plan in E as (ms & He & Hp). symmetry in He. cbn in He. subst ms.
  destruct (plan_split _ _ _ _ Hp) as (kept & fresh & -> & _ & Hk & Hf). pose proof (plan_nothing _ _ _ _ Hp eq_refl) as Hno. rewrite Forall_forall in Hno.
  assert (fresh = []) as ->.
  { destruct fresh as [|n fresh]; [done|]. apply Forall_cons in Hf as [Hn _]. destruct (Hno n ltac:(apply elem_of_app; right; left)) as (i & o & Hfd & _).
    apply (find_some f_name) in Hfd as (Hnm & Ho & _). destruct Hn. rewrite <- Hnm. by apply list_elem_of_fmap_2. }
  rewrite app_nil_r in *. assert (Hall : forall o, o ∈ os -> f_name o ∈ f_name <$> kept).
  { intros o Ho. destruct (decide (f_name o ∈ f_name <$> kept)); [done|]. pose proof (dropped_name os kept o Ho n) as Hin. rewrite Hd in Hin. by apply not_elem_of_nil in Hin. }
  pose proof (kept_names os kept kept [] Hos Hns Eo ltac:(by rewrite app_nil_r) Hk ltac:(constructor)) as Hnames.
  rewrite filter_all in Hnames by (apply Forall_forall; intros x (o & -> & Ho)%list_elem_of_fmap; by apply Hall).
  symmetry. apply (same_names f_name); [done| |done]. intros n Hn. destruct (Hno n Hn) as (i & o & Hfd & Hb' & Hnl). apply (find_some f_name) in Hfd as (Hnm & Ho & _).
  replace n with o; [done|]. pose proof (IH n o Hn Ho Hb') as Ht. destruct n, o. cbn in *. congruence.
Qed.

Lemma noop_same s new old : plain s new = true -> plain s old = true -> backward_compatible_typ new old = Ret (Some NoOp) -> old = new.
Proof.
  revert old. induction new as [|p|n|ns IH|n IH|n s' IH|n] using type_ind'; intros old Hn Ho Hb; destruct old as [|q|k|os|o|o s''|k];
    cbn [backward_compatible_typ] in Hb; try done; try (by case_bool_decide).
  - by destruct (Z.eqb_spec k n); subst.
  - by destruct (forallb _ _).
  - apply plain_struct in Hn as [Hnn Hn], Ho as [Hon Ho]. rewrite Forall_forall in IH. f_equal. apply struct_noop; try done.
    intros n o Hin Hio. apply IH; [done|by apply Hn|by apply Ho].
  - unfold backward_compatible_list in Hb. destruct (f_nullable o && _); [done|]. destruct (backward_compatible_typ _ _) as [[m|]|]; [|done..]. cbn [obind] in Hb.
    destruct (true && bool_decide (o = n) && is_noop m) eqn:E; [|done]. apply andb_prop in E as [[_ E]%andb_prop _]. by apply bool_decide_eq_true_1 in E as ->.
  - unfold backward_compatible_list in Hb. destruct (f_nullable o && _); [done|]. destruct (backward_compatible_typ _ _) as [[m|]|]; [|done..]. done.
  - destruct (bool_decide (o = n)) eqn:E; [|done]. apply bool_decide_eq_true_1 in E as ->. cbn [plain] in Hn, Ho.
    apply andb_prop in Hn as [Hn%Bool.eqb_prop _], Ho as [Ho%Bool.eqb_prop _]. congruence.
Qed.

(** A value that is not null stays so. *)
Lemma project_null new old m v : backward_compatible_typ new old = Ret (Some m) -> project new old v = VNull -> v = VNull.
Proof. by destruct new, old, v. Qed.

(** ** Columns *)

Section columns.
Context `{AL : ArrowLaws}.

Abbreviation Column := (Field * Array)%type.
Definition col_name (c : Column) : string := f_name c.1.
Definition parts (cols : list Column) : list Field * list Array := (cols.*1, cols.*2).
Definition migrate_fields (len : nat) (ms : list StructArrayMigration) (cols : list Column) : outcome (list Field * list Array) :=
  foldM (fun st m => migrate_field migrate m len st) ms (parts cols).

Lemma insert_middle {A} (l1 : list A) x y l2 : <[length l1 := y]> (l1 ++ x :: l2) = l1 ++ y :: l2.
Proof. replace (length l1) with (length l1 + 0) by lia. by rewrite insert_app_r. Qed.

Lemma find_column (l1 : list Column) f c l2 name : name = f_name f -> name ∉ col_name <$> l1 ->
  fields_find name (l1 ++ (f, c) :: l2).*1 = Some (length l1, f) /\ (l1 ++ (f, c) :: l2).*2 !! length l1 = Some c.
Proof.
  intros -> Hn. rewrite !fmap_app, !fmap_cons. split.
  - rewrite <- (length_fmap fst l1). apply (find_named f_name). by rewrite <- list_fmap_compose.
  - apply list_lookup_middle. by rewrite length_fmap.
Qed.

Lemma set_column (l1 : list Column) f c f' c' l2 :
  (<[length l1 := f']> (l1 ++ (f, c) :: l2).*1, <[length l1 := c']> (l1 ++ (f, c) :: l2).*2) = parts (l1 ++ (f', c') :: l2).
Proof.
  unfold parts. rewrite !fmap_app, !fmap_cons. rewrite <- (length_fmap fst l1) at 1. rewrite insert_middle.
  rewrite <- (length_fmap snd l1). by rewrite insert_middle.
Qed.

Lemma make_null_column len l1 f c l2 (n : Field) : f_name f = f_name n -> f_name n ∉ col_name <$> l1 ->
  migrate_field migrate (MakeNull (f_name n)) len (parts (l1 ++ (f, c) :: l2)) =
    Ret (parts (l1 ++ (mkField (f_name n) TNull true, null_array (array_len c)) :: l2)).
Proof.
  intros He Hn. cbn [migrate_field parts]. destruct (find_column l1 f c l2 (f_name n) (eq_sym He) Hn) as [-> Hc].
  cbn [expect obind]. unfold index. rewrite Hc. cbn [expect obind]. by rewrite set_column.
Qed.

Lemma alter_column len l1 f c l2 (n : Field) : f_name f = f_name n -> f_name n ∉ col_name <$> l1 -> f_nullable f = false ->
  migrate_field migrate (AlterFieldNullable (f_name n)) len (parts (l1 ++ (f, c) :: l2)) = Ret (parts (l1 ++ (mkField (f_name n) (f_type f) true, c) :: l2)).
Proof.
  intros He Hn Hf. cbn [migrate_field parts]. destruct (find_column l1 f c l2 (f_name n) (eq_sym He) Hn) as [-> Hc].
  cbn [expect obind]. rewrite Hf. cbn [negb assert_ obind]. rewrite He. f_equal. rewrite <- (set_column l1 f c _ c). f_equal.
  symmetry. by apply list_insert_id.
Qed.

Lemma recurse_column len l1 f c l2 (n : Field) m c' : f_name f = f_name n -> f_name n ∉ col_name <$> l1 -> migrate m c = Ret c' ->
  migrate_field migrate (Recurse (f_name n) m) len (parts (l1 ++ (f, c) :: l2)) =
    Ret (parts (l1 ++ (mkField (f_name n) (data_type c') (f_nullable f), c') :: l2)).
Proof.
  intros He Hn Hm. cbn [migrate_field parts]. destruct (find_column l1 f c l2 (f_name n) (eq_sym He) Hn) as [-> Hc].
  cbn [expect obind]. unfold index. rewrite Hc. cbn [expect obind]. rewrite Hm. cbn [obind]. by rewrite set_column.
Qed.

Lemma drop_column len l1 f c l2 : f_name f ∉ col_name <$> l1 ->
  migrate_field migrate (DropField (f_name f)) len (parts (l1 ++ (f, c) :: l2)) = Ret (parts (l1 ++ l2)).
Proof.
  intros Hn. cbn [migrate_field parts]. destruct (find_column l1 f c l2 (f_name f) eq_refl Hn) as [-> Hc].
  cbn [expect obind]. unfold vec_remove. rewrite (proj2 (Nat.ltb_lt _ _)) by by eapply lookup_lt_Some. cbn [assert_ obind].
  unfold parts. rewrite !fmap_app, !fmap_cons. rewrite <- (length_fmap fst l1) at 1. rewrite delete_middle.
  rewrite <- (length_fmap snd l1). by rewrite delete_middle.
Qed.

Lemma find_fst (cols : list Column) name i o : fields_find name cols.*1 = Some (i, o) ->
  exists c, list_find (fun col => col_name col = name) cols = Some (i, (o, c)).
Proof.
  intros (Hi & Hn & Hfirst)%list_find_Some. rewrite list_lookup_fmap in Hi. destruct (cols !! i) as [[o' c]|] eqn:E; [|done]. injection Hi as ->.
  exists c. apply list_find_Some. split_and!; [done|done|]. intros j [f d] Hj. apply (Hfirst j f). by rewrite list_lookup_fmap, Hj.
Qed.

(** What migrating an array from one type to another means. *)
Definition moves (new old : DataType) (m : ArrayMigration) (a : Array) : Prop := exists a', migrate m a = Ret a' /\
  data_type a' = new /\ array_len a' = array_len a /\ forall i, i < array_len a -> row a' i = project new old (row a i).

Lemma noop_moves s new old a : plain s new = true -> plain s old = true -> backward_compatible_typ new old = Ret (Some NoOp) ->
  data_type a = old -> moves new old NoOp a.
Proof.
  intros Hn Ho Hb Ht. pose proof (noop_same s new old Hn Ho Hb) as Hs. rewrite Hs in Ht |- *. exists a. split_and!; try done.
  intros i Hi. symmetry. eapply project_refl; [done|]. rewrite <- Ht. by apply row_typed.
Qed.

(** ** The fields of a struct *)

Section fields.
(** The columns of a struct of length [len] that is null at [nulls]. *)
Context (s : bool) (len : nat) (nulls : Nulls) (cols0 : list Column).
Context (Hcols : Forall (fun col => column_ok len nulls col.1 col.2) cols0) (Hdistinct : NoDup (col_name <$> cols0)).

(** What a field of the new type reads in the old columns. *)
Definition old_row (n : Field) (i : nat) : Value :=
  match list_find (fun col => col_name col = f_name n) cols0 with
  | Some (_, (o, c)) => project (f_type n) (f_type o) (row c i)
  | None => VNull
  end.

Definition good (n : Field) (c : Array) : Prop := column_ok len nulls n c /\ forall i, i < len -> row c i = old_row n i.

(** The fields [done] are settled. *)
Definition settled (done : list Field) (cols : list Column) : Prop :=
  col_name <$> cols = (col_name <$> cols0) ++ filter (fun x => x ∉ (col_name <$> cols0)) (f_name <$> done) /\
  forall col, col ∈ cols -> ((col_name col ∉ f_name <$> done) /\ col ∈ cols0) \/ (col.1 ∈ done /\ good col.1 col.2).

Lemma settled_distinct done cols : settled done cols -> NoDup (f_name <$> done) -> NoDup (col_name <$> cols).
Proof.
  intros [-> _] Hd. apply NoDup_app. split_and!; [done| |by apply NoDup_filter]. by intros x Hx [Hn _]%list_elem_of_filter.
Qed.

Lemma settled_set done n l1 f c l2 c' : settled done (l1 ++ (f, c) :: l2) -> NoDup (f_name <$> (done ++ [n])) -> f_name f = f_name n ->
  f_name n ∈ col_name <$> cols0 -> good n c' -> settled (done ++ [n]) (l1 ++ ((n, c') :: l2)).
Proof.
  intros Hs Hd Hf Hin Hg. assert (Hdd : NoDup (f_name <$> done)) by (rewrite fmap_app in Hd; by apply NoDup_app in Hd as (? & _)).
  pose proof (settled_distinct _ _ Hs Hdd) as Hnd. destruct Hs as [Hnames Hall]. split.
  - assert (col_name <$> (l1 ++ (n, c') :: l2) = col_name <$> (l1 ++ (f, c) :: l2)) as -> by (rewrite !fmap_app, !fmap_cons; by unfold col_name at 2 5; cbn [fst]; rewrite Hf).
    rewrite Hnames, fmap_app, filter_app, (filter_none _ (f_name <$> [n])); [by rewrite app_nil_r|]. constructor; [by intros ?|constructor].
  - assert (Hother : forall col, col ∈ l1 ++ l2 -> col_name col <> f_name n).
    { intros col Hc He. rewrite fmap_app, fmap_cons in Hnd. apply NoDup_app in Hnd as (_ & Hd1 & [Hd2 _]%NoDup_cons). unfold col_name at 1 in Hd2. cbn [fst] in Hd2.
      apply elem_of_app in Hc as [Hc|Hc]; apply (list_elem_of_fmap_2 col_name) in Hc; rewrite He, <- Hf in Hc; [|done].
      apply (Hd1 _ Hc). by apply list_elem_of_here. }
    intros col Hc. assert (Hcs : col = (n, c') \/ col ∈ l1 ++ l2) by (rewrite elem_of_app in *; rewrite elem_of_cons in Hc; tauto).
    destruct Hcs as [->|Hc']; [right; split; [apply elem_of_app; right; by left|done]|].
    destruct (Hall col) as [[Hno Hc0]|[Hd' Hg']]; [rewrite elem_of_app in *; rewrite elem_of_cons; tauto| |].
    + left. split; [|done]. rewrite fmap_app. apply not_elem_of_app. split; [done|]. intros [He|He%not_elem_of_nil]%elem_of_cons; [by apply (Hother col)|done].
    + right. split; [|done]. apply elem_of_app. by left.
Qed.

(** The old column of a field is still there when its turn comes. *)
Lemma settled_find done n cols i o c : settled done cols -> NoDup (f_name <$> (done ++ [n])) -> list_find (fun col => col_name col = f_name n) cols0 = Some (i, (o, c)) ->
  exists l1 l2, cols = l1 ++ (o, c) :: l2 /\ f_name n ∉ col_name <$> l1.
Proof.
  intros Hs Hd Hf. assert (Hdd := Hd). rewrite fmap_app in Hdd. apply NoDup_app in Hdd as (Hdd & Hdn & _).
  pose proof (settled_distinct _ _ Hs Hdd) as Hnd. destruct Hs as [Hnames Hall]. apply find_some in Hf as (Hn & Hin & _).
  assert (Hc : f_name n ∈ col_name <$> cols) by (rewrite Hnames; apply elem_of_app; left; rewrite <- Hn; by apply list_elem_of_fmap_2).
  apply list_elem_of_fmap in Hc as (col & Hnc & Hc).
  assert (col = (o, c)) as ->.
  { destruct (Hall col Hc) as [[_ H0c]|[Hd' _]].
    - destruct (find_in col_name cols0 col Hdistinct H0c) as (k1 & k2 & _ & Hf1). destruct (find_in col_name cols0 (o, c) Hdistinct Hin) as (k3 & k4 & _ & Hf2).
      rewrite <- Hnc in Hf1. rewrite Hn in Hf2. rewrite Hf1 in Hf2. congruence.
    - destruct (Hdn (f_name n)); [rewrite Hnc; by apply (list_elem_of_fmap_2 f_name _ col.1)|]. cbn. by apply list_elem_of_here. }
  destruct (find_in col_name cols (o, c) Hnd Hc) as (l1 & l2 & -> & _). exists l1, l2. split; [done|]. rewrite Hnc.
  rewrite fmap_app, fmap_cons in Hnd. apply NoDup_app in Hnd as (_ & Hd1 & _). intros Hi. apply (Hd1 _ Hi). by apply list_elem_of_here.
Qed.

Lemma kept_good o c n m i : list_find (fun col => col_name col = f_name n) cols0 = Some (i, (o, c)) -> backward_compatible_typ (f_type n) (f_type o) = Ret (Some m) ->
  (f_nullable o = true -> f_nullable n = true) -> moves (f_type n) (f_type o) m c -> exists c', migrate m c = Ret c' /\ good n c'.
Proof.
  intros Hf Hb Hn (c' & Hm & Ht & Hl & Hrow). exists c'. split; [done|]. pose proof Hf as (_ & Hin & _)%find_some.
  rewrite Forall_forall in Hcols. destruct (Hcols _ Hin) as (Hto & Hlo & Hnull). cbn in *. rewrite Hlo in *. split; [split_and!; try done|].
  - intros Hnn j Hj He. apply Hnull; [by destruct (f_nullable o); [rewrite Hn in Hnn|]|done|]. rewrite Hrow in He by done. by eapply project_null.
  - intros j Hj. unfold old_row. rewrite Hf. by apply Hrow.
Qed.

Lemma null_good o c n i : list_find (fun col => col_name col = f_name n) cols0 = Some (i, (o, c)) -> is_struct (f_type o) = true -> f_type n = TNull ->
  f_nullable n = true -> good n (null_array (array_len c)).
Proof.
  intros Hf Hs Ht Hn. pose proof Hf as (_ & Hin & _)%find_some. rewrite Forall_forall in Hcols. destruct (Hcols _ Hin) as (Hto & Hlo & _). cbn in *.
  destruct (null_array_ok (array_len c)) as [Ha Hl]. rewrite Hlo in *. split; [split_and!; congruence|]. intros j Hj. unfold old_row. rewrite Hf, Ht.
  pose proof (row_typed (null_array len) j) as Hr. rewrite Ha, Hl in Hr. specialize (Hr Hj). destruct (f_type o); try done. cbn [project]. by destruct (row (null_array len) j).
Qed.

(** The migrations planned for a field that is kept settle it. *)
Lemma kept_settles done n cols i o c ms : settled done cols -> NoDup (f_name <$> (done ++ [n])) ->
  list_find (fun col => col_name col = f_name n) cols0 = Some (i, (o, c)) -> kept_plan o n ms -> plain s (f_type n) = true ->
  (forall m, backward_compatible_typ (f_type n) (f_type o) = Ret (Some m) -> moves (f_type n) (f_type o) m c) ->
  exists cols', migrate_fields len ms cols = Ret (parts cols') /\ settled (done ++ [n]) cols'.
Proof.
  intros Hs Hd Hf Hk Hp IH. destruct (settled_find _ _ _ _ _ _ Hs Hd Hf) as (l1 & l2 & -> & Hl1).
  pose proof Hf as (Hn & Hin & _)%find_some. unfold col_name in Hn. cbn [fst] in Hn.
  assert (Hin' : f_name n ∈ col_name <$> cols0) by (rewrite <- Hn; by apply (list_elem_of_fmap_2 col_name _ (o, c))).
  assert (Hset : forall c', good n c' -> settled (done ++ [n]) (l1 ++ (n, c') :: l2)) by (intros c' Hg; by eapply settled_set).
  unfold migrate_fields. destruct Hk as [(-> & Hst & Ht & Hnn)|(m & Hb & Hnn & ->)].
  - eexists. split; [|apply Hset, (null_good o c n i Hf); done]. cbn [foldM]. rewrite (make_null_column _ _ _ _ _ n Hn Hl1). cbn [obind]. destruct n. cbn in *. by subst.
  - destruct (kept_good o c n m i Hf Hb Hnn (IH m Hb)) as (c' & Hm & Hg). pose proof Hg as [(Htc & _ & _) _]. eexists. split; [|by apply Hset].
    rewrite foldM_app. assert (Hnoop : is_noop m = true -> m = NoOp) by by destruct m.
    assert (Hlast : forall f, f_name f = f_name n -> f_nullable f = f_nullable n -> f_type f = f_type o ->
      foldM (fun st m => migrate_field migrate m len st) (if is_noop m then [] else [Recurse (f_name n) m]) (parts (l1 ++ (f, c) :: l2)) = Ret (parts (l1 ++ (n, c') :: l2))).
    { intros f Hfn Hfnull Hft. destruct (is_noop m) eqn:Em; cbn [foldM].
      - rewrite (Hnoop eq_refl) in *. injection Hm as <-. do 4 f_equal. rewrite Forall_forall in Hcols. destruct (Hcols _ Hin) as (Hto & _ & _). cbn in Hto.
        destruct f, n; cbn in *; congruence.
      - rewrite (recurse_column _ _ _ _ _ n m c' Hfn Hl1 Hm). cbn [obind]. do 4 f_equal. destruct n; cbn in *; congruence. }
    destruct (negb (f_nullable o) && f_nullable n) eqn:Ea; cbn [foldM].
    + apply andb_prop in Ea as [Ea%negb_true_iff Eb]. rewrite (alter_column _ _ _ _ _ n Hn Hl1 Ea). cbn [obind]. by apply Hlast.
    + cbn [obind]. apply Hlast; try done. destruct (f_nullable o), (f_nullable n); try done. by specialize (Hnn eq_refl).
Qed.

(** A field that is added is null everywhere. *)
Lemma added_settles done n cols : settled done cols -> f_name n ∉ col_name <$> cols0 -> f_nullable n = true ->
  migrate_field migrate (AddFieldNullableAtEnd (f_name n) (f_type n)) len (parts cols) = Ret (parts (cols ++ [(n, new_null_array (f_type n) len)])) /\
  settled (done ++ [n]) (cols ++ [(n, new_null_array (f_type n) len)]).
Proof.
  intros [Hnames Hall] Hno Hn. split.
  { cbn [migrate_field parts]. unfold parts. rewrite !fmap_app. do 3 f_equal. destruct n; cbn in *; by subst. }
  destruct (new_null_array_ok (f_type n) len) as (Ht & Hl & Hr). split.
  - rewrite !fmap_app, Hnames, filter_app, <- app_assoc. do 2 f_equal. cbn [fmap list_fmap]. unfold col_name at 1. cbn [fst].
    rewrite filter_all; [done|]. constructor; [done|constructor].
  - intros col [Hc|Hc]%elem_of_app.
    + destruct (Hall col Hc) as [[Hx H0c]|[Hd Hg]]; [left|right; split; [by apply elem_of_app; left|done]]. split; [|done].
      rewrite fmap_app. apply not_elem_of_app. split; [done|]. intros [He|He%not_elem_of_nil]%elem_of_cons; [|done].
      apply Hno. change (f_name n) with (f_name n) in He. rewrite <- He. by apply list_elem_of_fmap_2.
    + apply elem_of_cons in Hc as [->|Hc%not_elem_of_nil]; [|done]. right. cbn [fst snd]. split; [by apply elem_of_app; right; left|].
      split; [split_and!; try done; congruence|]. intros i Hi. unfold old_row. apply (find_none col_name) in Hno. rewrite Hno. by apply Hr.
Qed.

Lemma plan_settles added ns ms done cols : plan cols0.*1 added ns ms -> settled done cols -> NoDup (f_name <$> (done ++ ns)) ->
  (forall n, n ∈ ns -> plain s (f_type n) = true) ->
  (forall n o c m, n ∈ ns -> (o, c) ∈ cols0 -> backward_compatible_typ (f_type n) (f_type o) = Ret (Some m) -> moves (f_type n) (f_type o) m c) ->
  exists cols', migrate_fields len ms cols = Ret (parts cols') /\ settled (done ++ ns) cols'.
Proof.
  intros Hp. revert done cols. induction Hp as [added|i o n ns ms ms' Hf Hk Hp IH|added n ns ms Hf Hn Hp IH]; intros done cols Hs Hd Hpl Hmv.
  - exists cols. rewrite app_nil_r. by split.
  - assert (Hfind : exists c, list_find (fun col => col_name col = f_name n) cols0 = Some (i, (o, c)) /\ (o, c) ∈ cols0).
    { destruct (find_fst cols0 (f_name n) i o Hf) as (c & Hc). exists c. split; [done|]. by apply find_some in Hc as (_ & ? & _). }
    destruct Hfind as (c & Hfc & Hc). rewrite (cons_middle n done ns), app_assoc in Hd.
    assert (Hd1 : NoDup (f_name <$> (done ++ [n]))) by (rewrite fmap_app in Hd; by apply NoDup_app in Hd as (? & _)).
    destruct (kept_settles done n cols i o c ms Hs Hd1 Hfc Hk) as (cols1 & H1 & Hs1).
    { apply Hpl. by left. } { intros m Hb. apply (Hmv n o c m); [by left|done|done]. }
    destruct (IH (done ++ [n]) cols1 Hs1 Hd) as (cols2 & H2 & Hs2).
    { intros n' Hn'. apply Hpl. by right. } { intros n' o' c' m Hn'. apply Hmv. by right. }
    exists cols2. unfold migrate_fields in *. rewrite foldM_app, H1. cbn [obind]. rewrite H2. split; [done|]. by rewrite <- app_assoc in Hs2.
  - assert (Hno : f_name n ∉ col_name <$> cols0) by (apply (find_none f_name) in Hf; by rewrite <- list_fmap_compose in Hf).
    destruct (added_settles done n cols Hs Hno Hn) as [H1 Hs1]. rewrite (cons_middle n done ns), app_assoc in Hd.
    destruct (IH (done ++ [n]) _ Hs1 Hd) as (cols2 & H2 & Hs2).
    { intros n' Hn'. apply Hpl. by right. } { intros n' o' c' m Hn'. apply Hmv. by right. }
    exists cols2. unfold migrate_fields in *. cbn [foldM]. rewrite H1. cbn [obind]. rewrite H2. split; [done|]. by rewrite <- app_assoc in Hs2.
Qed.

Lemma drops_ok ds cols : NoDup ds -> NoDup (col_name <$> cols) -> (forall x, x ∈ ds -> x ∈ col_name <$> cols) ->
  migrate_fields len (DropField <$> ds) cols = Ret (parts (filter (fun col => col_name col ∉ ds) cols)).
Proof.
  revert cols. induction ds as [|d ds IH]; intros cols Hds Hnd Hin.
  { rewrite filter_all; [done|]. apply Forall_forall. intros col _. apply not_elem_of_nil. }
  apply NoDup_cons in Hds as [Hd Hds]. destruct (proj1 (list_elem_of_fmap _ _ _) (Hin d (list_elem_of_here _ _))) as ([f c] & -> & Hc).
  destruct (list_elem_of_split _ _ Hc) as (l1 & l2 & ->). pose proof Hnd as Hnd'. rewrite fmap_app, fmap_cons in Hnd'. apply NoDup_app in Hnd' as (Hn1 & Hn12 & [Hn2 Hn3]%NoDup_cons).
  assert (Hl1 : f_name f ∉ col_name <$> l1) by (intros Hx; apply (Hn12 _ Hx); by apply list_elem_of_here).
  unfold migrate_fields. rewrite fmap_cons. cbn [foldM]. change (col_name (f, c)) with (f_name f). rewrite drop_column by done. cbn [obind].
  fold (migrate_fields len (DropField <$> ds) (l1 ++ l2)). rewrite IH; [|done| |].
  - do 2 f_equal. rewrite !filter_app. f_equal.
    + apply filter_same. rewrite Forall_forall. intros col Hcol. rewrite not_elem_of_cons. split; [|by intros [_ ?]]. split; [|done].
      intros He. apply Hl1. rewrite <- He. by apply list_elem_of_fmap_2.
    + rewrite filter_cons_False by (intros Hx; apply Hx; by apply list_elem_of_here). apply filter_same. rewrite Forall_forall. intros col Hcol.
      rewrite not_elem_of_cons. split; [|by intros [_ ?]]. split; [|done]. intros He. apply Hn2. change (col_name (f, c)) with (f_name f). rewrite <- He. by apply list_elem_of_fmap_2.
  - rewrite fmap_app. apply NoDup_app. split_and!; [done| |done]. intros x Hx Hx2. apply (Hn12 x Hx). by right.
  - intros x Hx. specialize (Hin x ltac:(by right)). rewrite fmap_app, fmap_cons, elem_of_app, elem_of_cons in Hin. rewrite fmap_app, elem_of_app.
    destruct Hin as [?|[->|?]]; [by left|done|by right].
Qed.

Lemma dropped_names os ns : dropped_fields os ns = DropField <$> filter (fun x => x ∉ f_name <$> ns) (f_name <$> os).
Proof.
  induction os as [|o os IH]; [done|]. rewrite fmap_cons, filter_cons. unfold dropped_fields in *. cbn [omap list_omap].
  destruct (fields_find (f_name o) ns) as [[i n]|] eqn:E.
  - apply (find_some f_name) in E as (He & Hn & _). rewrite decide_False; [done|]. intros Hx. apply Hx. rewrite <- He. by apply list_elem_of_fmap_2.
  - apply (find_none f_name) in E. rewrite decide_True by done. rewrite fmap_cons. by f_equal.
Qed.

(** What the planned migrations leave: the new fields, in order. *)
Lemma fields_ok ns ms : plan cols0.*1 false ns ms -> same_order cols0.*1 ns = true -> NoDup (f_name <$> ns) ->
  (forall n, n ∈ ns -> plain s (f_type n) = true) ->
  (forall n o c m, n ∈ ns -> (o, c) ∈ cols0 -> backward_compatible_typ (f_type n) (f_type o) = Ret (Some m) -> moves (f_type n) (f_type o) m c) ->
  exists cs, migrate_fields len (ms ++ dropped_fields cols0.*1 ns) cols0 = Ret (ns, cs) /\ Forall2 good ns cs.
Proof.
  intros Hp Hord Hns Hpl Hmv. assert (Hos : f_name <$> cols0.*1 = col_name <$> cols0) by by rewrite <- list_fmap_compose.
  assert (H0s : settled [] cols0) by (split; [by rewrite app_nil_r|]; intros col Hc; left; split; [apply not_elem_of_nil|done]).
  destruct (plan_settles false ns ms [] cols0 Hp H0s Hns Hpl Hmv) as (cols & Hrun & Hs). cbn [app] in Hs.
  pose proof (settled_distinct _ _ Hs Hns) as Hnd. destruct Hs as [Hnames Hall].
  unfold migrate_fields in *. rewrite foldM_app, Hrun. cbn [obind]. rewrite dropped_names, Hos.
  set (ds := filter (fun x => x ∉ f_name <$> ns) (col_name <$> cols0)).
  pose proof (drops_ok ds cols) as Hdr. unfold migrate_fields in Hdr. rewrite Hdr; [|by apply NoDup_filter|done|].
  2: { intros x [_ Hx]%list_elem_of_filter. rewrite Hnames. apply elem_of_app. by left. }
  assert (Hdec : forall x, x ∈ col_name <$> cols -> x ∉ ds <-> x ∈ f_name <$> ns).
  { intros x Hx. unfold ds. rewrite list_elem_of_filter. rewrite Hnames in Hx. apply elem_of_app in Hx as [Hx|[Hx Hx']%list_elem_of_filter]; [|tauto].
    destruct (decide (x ∈ f_name <$> ns)); tauto. }
  set (cols' := filter _ cols). assert (Hgood : Forall (fun col => col.1 ∈ ns /\ good col.1 col.2) cols').
  { apply Forall_forall. intros col [Hd Hc]%list_elem_of_filter. pose proof (list_elem_of_fmap_2 col_name _ _ Hc) as Hcn. apply (Hdec _ Hcn) in Hd.
    by destruct (Hall col Hc) as [[Hn _]|?]. }
  assert (Hn' : f_name <$> cols'.*1 = f_name <$> ns).
  { destruct (plan_split _ _ _ _ Hp) as (kept & fresh & -> & _ & Hk & Hf). rewrite <- list_fmap_compose. change (f_name ∘ fst) with col_name.
    unfold cols'. rewrite (filter_same _ (fun col => col_name col ∈ f_name <$> kept ++ fresh)).
    2: { apply Forall_forall. intros col Hc. apply Hdec. by apply list_elem_of_fmap_2. }
    transitivity (filter (fun x => x ∈ f_name <$> kept ++ fresh) (col_name <$> cols)); [symmetry; exact (filter_map col_name (fun x => x ∈ f_name <$> kept ++ fresh) cols)|].
    rewrite Hnames, filter_app.
    rewrite <- Hos at 1. rewrite (kept_names _ _ kept fresh) by (done || by rewrite Hos). rewrite fmap_app. f_equal.
    rewrite filter_all by (apply Forall_forall; intros x [_ Hx]%list_elem_of_filter; done). rewrite filter_app, filter_none.
    - apply filter_all, Forall_forall. intros x (n & -> & Hn)%list_elem_of_fmap. rewrite Forall_forall in Hf. rewrite <- Hos. by apply Hf.
    - apply Forall_forall. intros x (n & -> & Hn)%list_elem_of_fmap Hx. rewrite Forall_forall in Hk. apply Hx. rewrite <- Hos. by apply Hk. }
  assert (Hfs : cols'.*1 = ns).
  { apply (same_names f_name); [done| |done]. intros f (col & -> & Hc)%list_elem_of_fmap. rewrite Forall_forall in Hgood. by apply Hgood. }
  exists cols'.*2. unfold parts. rewrite Hfs. split; [done|]. rewrite <- Hfs, Forall2_fmap. apply Forall_Forall2_diag. eapply Forall_impl; [exact Hgood|]. by intros col [_ ?].
Qed.
End fields.

(** ** Whole arrays *)

Lemma value_of_column (cols : list Column) name j o c i : list_find (fun col => col_name col = name) cols = Some (j, (o, c)) ->
  field_value name (zip_with (fun f c => (f_name f, row c i)) cols.*1 cols.*2) = row c i.
Proof.
  intros (Hj & Hn & Hfirst)%list_find_Some. unfold field_value. rewrite zip_with_fst_snd.
  assert (list_find (fun kv : string * Value => kv.1 = name) (uncurry (fun f c => (f_name f, row c i)) <$> cols) = Some (j, (f_name o, row c i))) as ->; [|done].
  apply list_find_Some. rewrite list_lookup_fmap, Hj. split_and!; [done|done|]. intros k kv. rewrite list_lookup_fmap.
  destruct (cols !! k) as [[f d]|] eqn:Ek; [|done]. intros [= <-]. by apply (Hfirst k (f, d)).
Qed.

Lemma old_row_project cols ns cs nulls len i : i < len -> Forall2 (good len nulls cols) ns cs ->
  struct_row ns cs nulls i = project (TStruct ns) (TStruct cols.*1) (struct_row cols.*1 cols.*2 nulls i).
Proof.
  intros Hi Hg. unfold struct_row. destruct (masked nulls i); [done|]. cbn [project]. f_equal.
  assert (Hv : forall n, old_row cols n i = match fields_find (f_name n) cols.*1 with
    | Some (_, o) => project (f_type n) (f_type o) (field_value (f_name n) (zip_with (fun f c => (f_name f, row c i)) cols.*1 cols.*2))
    | None => VNull end).
  { intros n. unfold old_row. destruct (fields_find (f_name n) cols.*1) as [[j o]|] eqn:E.
    - destruct (find_fst cols (f_name n) j o E) as (c & Hc). rewrite Hc. by rewrite (value_of_column cols (f_name n) j o c i Hc).
    - apply (find_none f_name) in E. rewrite <- list_fmap_compose in E. apply (find_none col_name) in E. by rewrite E. }
  induction Hg as [|n c ns cs [_ Hr] _ IH]; [done|]. cbn [zip_with map]. by rewrite Hr, IH, Hv.
Qed.

(** The new array from its columns. *)
Lemma struct_built ns cs nulls len : nulls_len nulls len -> Forall2 (column_ok len nulls) ns cs -> exists a,
  match cs with [] => struct_new_empty len nulls | _ => struct_new ns cs nulls end = Ret a /\ data_type a = TStruct ns /\ array_len a = len /\
  forall i, i < len -> row a i = struct_row ns cs nulls i.
Proof.
  intros Hl Hf. destruct cs as [|c cs]; [|by apply struct_new_ok]. apply Forall2_nil_inv_r in Hf as ->. by apply struct_new_empty_ok.
Qed.

Lemma struct_moves s os ns a m : plain s (TStruct os) = true -> plain s (TStruct ns) = true -> data_type a = TStruct os ->
  backward_compatible_struct backward_compatible_typ os ns = Ret (Some m) -> m <> NoOp ->
  (forall n o c m, n ∈ ns -> plain s (f_type o) = true -> data_type c = f_type o -> backward_compatible_typ (f_type n) (f_type o) = Ret (Some m) ->
    moves (f_type n) (f_type o) m c) ->
  moves (TStruct ns) (TStruct os) m a.
Proof.
  intros [Hos Hpo]%plain_struct [Hns Hpn]%plain_struct Ht Hb Hm IH. unfold backward_compatible_struct in Hb.
  destruct (field_migrations _ _ _ _ _) as [[ms|]|] eqn:E; [|done..]. cbn [obind] in Hb. apply loop_plan in E as (ms' & -> & Hp). cbn [app] in Hb.
  destruct (negb (same_order os ns)) eqn:Eo; [done|]. apply negb_false_iff in Eo.
  assert (m = MStruct (ms' ++ dropped_fields os ns)) as -> by (destruct (ms' ++ dropped_fields os ns); by injection Hb as <-).
  destruct (struct_parts_ok a os Ht) as (cs & nulls & Hparts & Hnl & Hcs & Hrow). pose proof (Forall2_length _ _ _ Hcs) as Hlen.
  set (cols := zip os cs). assert (Hc1 : cols.*1 = os) by (apply fst_zip; lia). assert (Hc2 : cols.*2 = cs) by (apply snd_zip; lia).
  assert (Hcols : Forall (fun col => column_ok (array_len a) nulls col.1 col.2) cols).
  { unfold cols. generalize (array_len a) Hcs. clear. intros n Hcs. induction Hcs; by constructor. }
  destruct (fields_ok s (array_len a) nulls cols Hcols) with (ns := ns) (ms := ms') as (cs' & Hrun & Hgood).
  - rewrite <- Hc1, <- list_fmap_compose in Hos. exact Hos.
  - by rewrite Hc1.
  - by rewrite Hc1.
  - done.
  - done.
  - intros n o c m Hn Hin Hbm. rewrite Forall_forall in Hcols. destruct (Hcols _ Hin) as (Hto & _). cbn in Hto. apply IH; [done| |done|done].
    apply Hpo. rewrite <- Hc1. by apply (list_elem_of_fmap_2 fst _ (o, c)).
  - rewrite Hc1 in Hrun. destruct (struct_built ns cs' nulls (array_len a) Hnl) as (a' & Ha' & Hta & Hla & Hra).
    { eapply Forall2_impl; [exact Hgood|]. by intros n c [? _]. }
    exists a'. cbn [migrate]. rewrite Ht, Hparts. cbn [expect obind]. unfold migrate_fields, parts in Hrun. rewrite Hc1, Hc2 in Hrun. rewrite Hrun. cbn [obind].
    rewrite (Forall2_length _ _ _ Hgood), Nat.eqb_refl. cbn [assert_ obind]. rewrite Ha'. split_and!; try done.
    intros i Hi. rewrite Hra, Hrow by done. rewrite <- Hc1 at 2. rewrite <- Hc2 at 1. rewrite <- Hc1 at 1. by apply (old_row_project cols ns cs' nulls (array_len a)).
Qed.

(** From nothing: every field is added. *)
Lemma null_moves ns a : forallb f_nullable ns = true -> data_type a = TNull ->
  moves (TStruct ns) TNull (MStruct ((fun f => AddFieldNullableAtEnd (f_name f) (f_type f)) <$> ns)) a.
Proof.
  intros Hn Ht. set (len := array_len a). set (cs := (fun n => new_null_array (f_type n) len) <$> ns).
  assert (Hrun : forall ns0 cs0, foldM (fun st m => migrate_field migrate m len st) ((fun f => AddFieldNullableAtEnd (f_name f) (f_type f)) <$> ns) (ns0, cs0) = Ret (ns0 ++ ns, cs0 ++ cs)).
  { unfold cs. clear cs. induction ns as [|n ns IH]; intros ns0 cs0; [by rewrite !app_nil_r|]. apply andb_prop in Hn as [Hnn Hn]. rewrite !fmap_cons. cbn [foldM migrate_field obind].
    rewrite IH by done. rewrite <- !app_assoc. do 3 f_equal. destruct n; cbn in *; by subst. }
  assert (Hcs : Forall2 (column_ok len None) ns cs).
  { unfold cs. apply Forall2_fmap_r, Forall_Forall2_diag. rewrite forallb_forall in Hn. apply Forall_forall. intros n Hin. apply list_elem_of_In, Hn in Hin.
    destruct (new_null_array_ok (f_type n) len) as (? & ? & _). split_and!; try done. congruence. }
  destruct (struct_built ns cs None len I Hcs) as (a' & Ha' & Hta & Hla & Hra). exists a'. cbn [migrate]. rewrite Ht.
  assert (forallb is_add ((fun f => AddFieldNullableAtEnd (f_name f) (f_type f)) <$> ns) = true) as ->.
  { apply forallb_forall. by intros m (n & -> & _)%list_elem_of_In%list_elem_of_fmap. }
  cbn [assert_ obind]. fold len. rewrite Hrun. cbn [obind app]. rewrite (Forall2_length _ _ _ Hcs), Nat.eqb_refl. cbn [assert_ obind]. rewrite Ha'.
  split_and!; try done. intros i Hi. rewrite Hra by done. unfold struct_row. cbn [masked project]. f_equal. unfold cs. clear -AL Hi. induction ns as [|n ns IH]; [done|].
  rewrite !fmap_cons. cbn [zip_with]. rewrite IH. destruct (new_null_array_ok (f_type n) len) as (_ & _ & Hr). by rewrite Hr.
Qed.

(** Lists, and maps that become lists. *)
Lemma list_moves o n a m old : (old = TList o \/ exists s, old = TMap o s) -> data_type a = old -> (f_nullable o = true -> f_nullable n = true) ->
  backward_compatible_typ (f_type n) (f_type o) = Ret (Some m) -> (forall c, data_type c = f_type o -> moves (f_type n) (f_type o) m c) ->
  moves (TList n) old (MList n m) a.
Proof.
  intros Hold Ht Hn Hb IH.
  assert (Hparts : exists offsets c nulls, match list_parts a with Some l => Ret l | None => expect (map_parts a) end = Ret (o, offsets, c, nulls) /\
    entries_ok o offsets c nulls /\ length offsets = S (array_len a) /\ forall i, i < array_len a -> row a i = list_row offsets c nulls i).
  { destruct Hold as [->|[s ->]].
    - destruct (list_parts_ok a o Ht) as (offsets & c & nulls & Hp & H1 & H2 & H3). exists offsets, c, nulls. by rewrite Hp.
    - destruct (map_parts_ok a o s Ht) as (offsets & c & nulls & Hp & H1 & H2 & H3). exists offsets, c, nulls. by rewrite (list_parts_not a o s Ht), Hp. }
  destruct Hparts as (offsets & c & nulls & Hp & (Hne & Hnl & Hoff & Htc & Hnull) & Hlen & Hrow).
  destruct (IH c Htc) as (c' & Hm & Htc' & Hlc & Hrc).
  assert (Hok : entries_ok n offsets c' nulls).
  { split_and!; try done; [by rewrite Hlc|]. intros Hnn i Hi He. rewrite Hlc in Hi. rewrite Hrc in He by done. apply project_null with (m := m) in He; [|done].
    apply (Hnull ltac:(destruct (f_nullable o); [by rewrite Hn in Hnn|done]) i Hi He). }
  destruct (list_new_ok n offsets c' nulls Hok) as (a' & Ha' & Hta & Hla & Hra). exists a'. cbn [migrate]. rewrite Hp. cbn [obind]. rewrite Hm. cbn [obind].
  split_and!; [done|done|lia|]. intros i Hi. rewrite Hra by lia. rewrite Hrow by done.
  assert (Hpr : forall v, project (TList n) old v = match v with VList vs => VList (map (project (f_type n) (f_type o)) vs) | v => v end) by (by destruct Hold as [->|[s ->]]).
  rewrite Hpr. unfold list_row. destruct (masked nulls i); [done|]. destruct (offsets !! i) as [x|] eqn:Ex; [|done]. destruct (offsets !! S i) as [y|] eqn:Ey; [|done].
  f_equal. change (map (project (f_type n) (f_type o)) (row c <$> seq x (y - x))) with (project (f_type n) (f_type o) <$> (row c <$> seq x (y - x))). rewrite <- list_fmap_compose. apply list_fmap_ext. intros j k Hk%lookup_seq. destruct (Hoff i x y Ex Ey). cbn. apply Hrc. lia.
Qed.

Lemma migrate_moves s new old m a : plain s new = true -> plain s old = true -> backward_compatible_typ new old = Ret (Some m) -> data_type a = old ->
  moves new old m a.
Proof.
  revert old m a. induction new as [|p|n|ns IH|n IH|n s' IH|n] using type_ind'; intros old m a Hn Ho Hb Ht.
  all: match goal with |- ?G => assert (Hnoop : m = NoOp -> G) by (intros ->; by apply (noop_moves s)) end.
  all: destruct old as [|q|k|os|o|o s''|k]; cbn [backward_compatible_typ] in Hb; try done.
  all: try (by case_bool_decide; [injection Hb as <-; apply Hnoop|]).
  - destruct (k =? n)%Z; [injection Hb as <-; by apply Hnoop|done].
  - destruct (forallb f_nullable ns) eqn:E; [injection Hb as <-; by apply null_moves|by case_bool_decide].
  - destruct (decide (is_noop m = true)) as [E|E]; [destruct m; try done; by apply Hnoop|]. eapply struct_moves; try done; [by intros ->|].
    rewrite Forall_forall in IH. apply plain_struct in Hn as [_ Hn]. intros n o c m' Hin Hpo Hc Hb'. by apply (IH n Hin); [apply Hn|..].
  - unfold backward_compatible_list in Hb. destruct (f_nullable o && negb (f_nullable n)) eqn:En; [done|]. destruct (backward_compatible_typ _ _) as [[m'|]|] eqn:Eb; [|done..].
    cbn [obind] in Hb. destruct (true && _ && _); injection Hb as <-; [by apply Hnoop|].
    apply (list_moves o n); [by left|done| |done|intros c Hc; by apply IH]. by destruct (f_nullable o), (f_nullable n).
  - unfold backward_compatible_list in Hb. destruct (f_nullable o && negb (f_nullable n)) eqn:En; [done|]. destruct (backward_compatible_typ _ _) as [[m'|]|] eqn:Eb; [|done..].
    cbn [obind andb] in Hb. injection Hb as <-. cbn [plain] in Ho. apply andb_prop in Ho as [_ Ho].
    apply (list_moves o n); [right; by exists s''|done| |done|intros c Hc; by apply IH]. by destruct (f_nullable o), (f_nullable n).
Qed.
End columns.

(** ** Migrations that preserve the order *)

Section order.
Context (leaf_cmp : DataType -> list N -> list N -> comparison).
Abbreviation row_cmp := (row_cmp leaf_cmp).

Lemma null_cmp t : ord_supported t = true -> row_cmp t VNull VNull = Ret Eq.
Proof. by destruct t. Qed.

Lemma iter_cmp_map {A B} (cmp : A -> A -> outcome comparison) (cmp' : B -> B -> outcome comparison) (g : A -> B) xs ys :
  (forall x y, x ∈ xs -> y ∈ ys -> cmp' (g x) (g y) = cmp x y) -> iter_cmp cmp' (map g xs) (map g ys) = iter_cmp cmp xs ys.
Proof.
  revert ys. induction xs as [|x xs IH]; intros [|y ys] Hc; try done. cbn [map iter_cmp]. rewrite Hc by (by left).
  destruct (cmp x y) as [[]|]; try done. cbn [obind]. apply IH. intros a b Ha Hb. apply Hc; by right.
Qed.

Lemma columns_null fs : (forall f, f ∈ fs -> ord_supported (f_type f) = true) ->
  columns_cmp (fun f => row_cmp (f_type f)) fs (map (fun n => (f_name n, VNull)) fs) (map (fun n => (f_name n, VNull)) fs) = Ret Eq.
Proof.
  induction fs as [|f fs IH]; intros Hs; [done|]. cbn [map columns_cmp snd]. rewrite null_cmp by (apply Hs; by left). cbn [obind].
  apply IH. intros g Hg. apply Hs. by right.
Qed.

Lemma columns_app cmp fs gs xs xs' ys ys' : length xs = length fs -> length ys = length fs ->
  columns_cmp cmp (fs ++ gs) (xs ++ xs') (ys ++ ys') = (let! c := columns_cmp cmp fs xs ys in match c with Eq => columns_cmp cmp gs xs' ys' | c => Ret c end).
Proof.
  revert xs ys. induction fs as [|f fs IH]; intros [|x xs] [|y ys] Hx Hy; try done. cbn [app columns_cmp]. injection Hx as Hx. injection Hy as Hy.
  destruct (cmp f x.2 y.2) as [[]|]; cbn [obind]; try done. by apply IH.
Qed.

Lemma columns_ext cmp cmp' fs gs xs ys xs' ys' : length xs = length fs -> length ys = length fs -> length gs = length fs -> length xs' = length fs -> length ys' = length fs ->
  (forall j f g x y x' y', fs !! j = Some f -> gs !! j = Some g -> xs !! j = Some x -> ys !! j = Some y -> xs' !! j = Some x' -> ys' !! j = Some y' ->
    cmp' g x'.2 y'.2 = cmp f x.2 y.2) -> columns_cmp cmp' gs xs' ys' = columns_cmp cmp fs xs ys.
Proof.
  revert gs xs ys xs' ys'. induction fs as [|f fs IH]; intros [|g gs] [|x xs] [|y ys] [|x' xs'] [|y' ys'] H1 H2 H3 H4 H5 Hc; try done. cbn [columns_cmp].
  rewrite (Hc 0 f g x y x' y') by done. destruct (cmp f x.2 y.2) as [[]|]; try done. cbn [obind]. injection H1 as H1. injection H2 as H2. injection H3 as H3.
  injection H4 as H4. injection H5 as H5. apply IH; try done. intros j. apply (Hc (S j)).
Qed.

(** Without drops, the fields that are kept are all the old ones. *)
Lemma undropped_plan os added ns ms : plan os added ns ms -> existsb (struct_contains_drop contains_drop) ms = false -> Forall (fun n => forall i o, fields_find (f_name n) os = Some (i, o) ->
  exists m, backward_compatible_typ (f_type n) (f_type o) = Ret (Some m) /\ contains_drop m = false) ns.
Proof.
  induction 1 as [added|i o n ns ms ms' Hf Hk Hp IH|added n ns ms Hf Hn Hp IH]; intros He; constructor.
  - intros i' o' Hf'. rewrite Hf in Hf'. injection Hf' as <- <-. rewrite existsb_app in He. apply orb_false_iff in He as [He _].
    destruct Hk as [(-> & _)|(m & Hb & _ & ->)]; [done|]. exists m. split; [done|]. destruct m; [done|..]; rewrite existsb_app in He; cbn [is_noop existsb struct_contains_drop] in He;
      apply orb_false_iff in He as [_ He]; by rewrite orb_false_r in He.
  - rewrite existsb_app in He. apply orb_false_iff in He as [_ He]. by apply IH.
  - congruence.
  - by apply IH.
Qed.


Lemma undropped os ns m : NoDup (f_name <$> os) -> NoDup (f_name <$> ns) -> backward_compatible_struct backward_compatible_typ os ns = Ret (Some m) ->
  m <> NoOp -> contains_drop m = false -> exists kept fresh, ns = kept ++ fresh /\ f_name <$> os = f_name <$> kept /\ Forall (fun n => f_name n ∉ f_name <$> os) fresh /\
    forall n i o, n ∈ ns -> fields_find (f_name n) os = Some (i, o) -> exists m, backward_compatible_typ (f_type n) (f_type o) = Ret (Some m) /\ contains_drop m = false.
Proof.
  intros Hos Hns Hb Hm Hd. unfold backward_compatible_struct in Hb. destruct (field_migrations _ _ _ _ _) as [[ms|]|] eqn:E; [|done..]. cbn [obind] in Hb.
  apply loop_plan in E as (ms' & -> & Hp). cbn [app] in Hb. destruct (negb (same_order os ns)) eqn:Eo; [done|]. apply negb_false_iff in Eo.
  assert (m = MStruct (ms' ++ dropped_fields os ns)) as -> by (destruct (ms' ++ dropped_fields os ns); by injection Hb as <-).
  cbn [contains_drop] in Hd. rewrite existsb_app in Hd. apply orb_false_iff in Hd as [Hd Hd']. pose proof (undropped_plan _ _ _ _ Hp Hd) as Hno. rewrite Forall_forall in Hno.
  destruct (plan_split _ _ _ _ Hp) as (kept & fresh & -> & _ & Hk & Hf). pose proof (kept_names os (kept ++ fresh) kept fresh Hos Hns Eo eq_refl Hk Hf) as Hnames.
  exists kept, fresh. split_and!; [done| |done|intros n i o Hn; by apply Hno]. rewrite filter_all in Hnames; [done|].
  apply Forall_forall. intros x (o & -> & Ho)%list_elem_of_fmap. destruct (decide (f_name o ∈ f_name <$> kept ++ fresh)) as [?|Hx]; [done|].
  assert (existsb (struct_contains_drop contains_drop) (dropped_fields os (kept ++ fresh)) = true); [|congruence].
  apply existsb_exists. eexists. split; [by apply list_elem_of_In, (dropped_name os _ o Ho Hx)|done].
Qed.

Lemma struct_cmp s os ns kvs kws m : plain s (TStruct os) = true -> plain s (TStruct ns) = true -> ord_supported (TStruct ns) = true ->
  backward_compatible_struct backward_compatible_typ os ns = Ret (Some m) -> m <> NoOp -> contains_drop m = false ->
  Forall2 (fun f kv => kv.1 = f_name f /\ has_type (f_type f) kv.2) os kvs -> Forall2 (fun f kv => kv.1 = f_name f /\ has_type (f_type f) kv.2) os kws ->
  (forall n o m v w, n ∈ ns -> o ∈ os -> backward_compatible_typ (f_type n) (f_type o) = Ret (Some m) -> contains_drop m = false -> has_type (f_type o) v -> has_type (f_type o) w ->
    row_cmp (f_type n) (project (f_type n) (f_type o) v) (project (f_type n) (f_type o) w) = row_cmp (f_type o) v w) ->
  row_cmp (TStruct ns) (project (TStruct ns) (TStruct os) (VStruct kvs)) (project (TStruct ns) (TStruct os) (VStruct kws)) = row_cmp (TStruct os) (VStruct kvs) (VStruct kws).
Proof.
  intros [Hos _]%plain_struct [Hns _]%plain_struct Hsn Hb Hm Hd Hk1 Hk2 IH. destruct (undropped os ns m Hos Hns Hb Hm Hd) as (kept & fresh & -> & Hnames & Hf & Hno).
  set (g := fun kvs (n : Field) => (f_name n, match fields_find (f_name n) os with Some (_, o) => project (f_type n) (f_type o) (field_value (f_name n) kvs) | None => VNull end)).
  change (columns_cmp (fun f => row_cmp (f_type f)) (kept ++ fresh) (map (g kvs) (kept ++ fresh)) (map (g kws) (kept ++ fresh)) = columns_cmp (fun f => row_cmp (f_type f)) os kvs kws).
  assert (Hlen : length kept = length os) by (rewrite <- (length_fmap f_name kept), <- Hnames; by rewrite length_fmap).
  rewrite !map_app, columns_app by by rewrite length_map.
  assert (Hfresh : forall ks, map (g ks) fresh = map (fun n => (f_name n, VNull)) fresh).
  { intros ks. apply map_ext_in. intros n Hn%list_elem_of_In. unfold g. rewrite Forall_forall in Hf. pose proof (Hf n Hn) as Hx. apply (find_none f_name) in Hx. unfold fields_find. by rewrite Hx. }
  rewrite !Hfresh, columns_null.
  2: { intros f Hin. cbn [ord_supported] in Hsn. rewrite forallb_forall in Hsn. apply Hsn, list_elem_of_In, elem_of_app. by right. }
  pose proof (Forall2_length _ _ _ Hk1) as Hl1. pose proof (Forall2_length _ _ _ Hk2) as Hl2.
  rewrite (columns_ext (fun f => row_cmp (f_type f)) _ os kept kvs kws); [by destruct (columns_cmp _ os kvs kws) as [[]|]|rewrite ?length_map; congruence..|].
  intros j o n x y x' y' Ho Hn Hx Hy Hx' Hy'. rewrite (list_lookup_fmap (g kvs) kept j : map (g kvs) kept !! j = _) in Hx'; rewrite (list_lookup_fmap (g kws) kept j : map (g kws) kept !! j = _) in Hy'.
  assert (Hsame : f_name n = f_name o). { assert (Hj : (f_name <$> os) !! j = (f_name <$> kept) !! j) by by rewrite Hnames. rewrite !list_lookup_fmap, Ho, Hn in Hj. by injection Hj. }
  destruct (field_lookup os kvs j o x Hos Hk1 Ho Hx) as [Hfo Hvx], (field_lookup os kws j o y Hos Hk2 Ho Hy) as [_ Hvy].
  rewrite Hn in Hx', Hy'. injection Hx' as <-. injection Hy' as <-. unfold g. cbn [snd]. rewrite Hsame, Hfo, Hvx, Hvy.
  assert (Hin : n ∈ kept ++ fresh) by (apply elem_of_app; left; by eapply list_elem_of_lookup_2). destruct (Hno n j o Hin) as (m' & Hb' & Hd'); [by rewrite Hsame|].
  apply (IH n o m'); try done; [by eapply list_elem_of_lookup_2| |].
  - by destruct (Forall2_lookup_lr _ _ _ _ _ _ Hk1 Ho Hx).
  - by destruct (Forall2_lookup_lr _ _ _ _ _ _ Hk2 Ho Hy).
Qed.

Lemma items_cmp o n v w old : (old = TList o \/ exists s, old = TMap o s) -> ord_supported old = true -> has_type old v -> has_type old w ->
  (forall v w, has_type (f_type o) v -> has_type (f_type o) w ->
    row_cmp (f_type n) (project (f_type n) (f_type o) v) (project (f_type n) (f_type o) w) = row_cmp (f_type o) v w) ->
  row_cmp (TList n) (project (TList n) old v) (project (TList n) old w) = row_cmp old v w.
Proof.
  intros [->|[s ->]] Hs Hv Hw IH; [|done]. destruct v as [|?|?|vs], w as [|?|?|ws]; try done. cbn [project Migrate.row_cmp nulls_last]. apply iter_cmp_map.
  cbn [has_type] in Hv, Hw. rewrite Forall_forall in Hv, Hw. intros x y Hx Hy. apply IH; [by apply Hv|by apply Hw].
Qed.

(** A migration that drops nothing compares rows as before. *)
Lemma project_cmp s new old m v w : plain s new = true -> plain s old = true -> ord_supported new = true -> ord_supported old = true ->
  backward_compatible_typ new old = Ret (Some m) -> contains_drop m = false -> has_type old v -> has_type old w ->
  row_cmp new (project new old v) (project new old w) = row_cmp old v w.
Proof.
  revert old m v w. induction new as [|p|n|ns IH|n IH|n s' IH|n] using type_ind'; intros old m v w Hn Ho Hsn Hso Hb Hd Hv Hw.
  all: match goal with |- ?G => assert (Hnoop : m = NoOp -> G) by
    (intros ->; pose proof (noop_same s _ old Hn Ho Hb) as Hs; rewrite Hs in Hv, Hw |- *; by rewrite !(project_refl s)) end.
  all: destruct old as [|q|k|os|o|o s''|k]; cbn [backward_compatible_typ] in Hb; try done.
  all: try (by case_bool_decide; [injection Hb as <-; apply Hnoop|]).
  - destruct (k =? n)%Z; [injection Hb as <-; by apply Hnoop|done].
  - cbn [project Migrate.row_cmp nulls_last]. apply columns_null. cbn [ord_supported] in Hsn. rewrite forallb_forall in Hsn. intros f Hf. by apply Hsn, list_elem_of_In.
  - destruct (decide (is_noop m = true)) as [E|E]; [destruct m; try done; by apply Hnoop|].
    destruct (typed_struct os v Hv) as [->|(kvs & -> & Hk1)], (typed_struct os w Hw) as [->|(kws & -> & Hk2)]; try done.
    eapply struct_cmp; try done; [by intros ->|]. rewrite Forall_forall in IH. apply plain_struct in Hn as [_ Hn], Ho as [_ Ho]. cbn [ord_supported] in Hsn, Hso.
    rewrite forallb_forall in Hsn, Hso. intros n o m' v' w' Hin Hio Hb' Hd' Hv' Hw'.
    apply (IH n Hin _ m'); try done; [by apply Hn|by apply Ho|by apply Hsn, list_elem_of_In|by apply Hso, list_elem_of_In].
  - unfold backward_compatible_list in Hb. destruct (f_nullable o && negb (f_nullable n)) eqn:En; [done|]. destruct (backward_compatible_typ _ _) as [[m'|]|] eqn:Eb; [|done..].
    cbn [obind] in Hb. destruct (true && _ && _); injection Hb as <-; [by apply Hnoop|].
    apply (items_cmp o n); try done; [by left|]. intros v' w' Hv' Hw'. by apply (IH _ m').
Qed.
End order.
