(* ===== verification/ShardProps.v ===== *)
(** * Properties of shards

    The theorems about commands, states, processes, appends and reads, each
    with a witness on the shard of [Examples]. *)

From Stdlib.Strings Require Import Byte.
From stdpp Require Import gmap.
From S2P Require Import Prelude Timely BTree Schema Paths Consensus Batch BatchFacts Spine SpineFacts SpineCorrect Trace TraceFacts State StateFacts Reads Tombstone Machine MachineFacts System Append Examples.

Local Open Scope Z_scope.

Section commands.
Context {T : Type} `{TimelyLaws T} `{!TimelyTotal T} {Version K V : Type} `{!SemVer Version} `{UuidCodec}
  `{!SchemaCodec K} `{!SchemaCodec V} `{!DataTypeCodec} (D : Type) `{!PartCodec D}.
Context (hashed : IdempotencyToken -> Z).
Implicit Types (c : StateCollections T Version) (x : State T Version) (cmd : Command T Version K V).

(** C1: a command that asks for a new state gets one from the applier: no
    assertion of [compute_next_state_locked] fires (unless the shard is a
    tombstone and the command is not meant for it), the new state satisfies
    the invariant and has the next sequence number and a later wall clock, no
    frontier moves back, and on the abstract shard (since, upper, batches
    with data in order) the command does exactly what it is meant to do:
    an append adds its batch at the end, a downgrade moves the since, a
    compaction puts one batch in the place of the batches in its range of
    times, finalization only drops data, and everything else, from lease
    expiry to rollups and garbage collection, changes none of the three. *)
Theorem command_refines x cmd cfg clock c' : state_ok x -> sc_rollups (st_collections x) <> [] ->
  st_seqno x < u64_max -> config_ok cfg -> command_fits (st_collections x) cmd ->
  StateCollections.is_tombstone (st_collections x) = false \/ allowed_on_tombstone (Machine.cmd_name cmd) = true ->
  Machine.run_command D hashed cmd (st_seqno x + 1) (st_collections x) = Ret (c', Continue tt) ->
  exists ns, Machine.next_state D hashed x cmd cfg clock = Ret (Ok ns) /\ next_ok x cmd (ns_state ns).
Proof. apply next_state_ok. Qed.

(** C2: in every state that commands can lead a shard to, the spine is well
    formed (so its own validation accepts it), its batches follow each other
    without gap or overlap from the minimum to the upper of the shard, no
    reader's since is behind the since of the shard, no reader holds back a
    sequence number that was already given to garbage collection, no
    writer's last upper is ahead of the shard's, and there is a rollup. *)
Theorem reachable_sound x : reachable (K := K) (V := V) D hashed x ->
  state_ok x /\ sc_rollups (st_collections x) <> [] /\
  Trace.validate (sc_trace (st_collections x)) = Ok tt /\
  hchain min_frontier (Trace.batches (sc_trace (st_collections x))) (State.upper x) /\
  sc_last_gc_req (st_collections x) <= State.seqno_since x.
Proof.
  intros Hr. destruct (reachable_ok _ _ _ Hr) as [Hx Hro]. pose proof Hx as [Hn Hc]. pose proof (co_spine _ _ Hc) as Hs.
  split_and!; [done|done|by apply validate_ok|by apply trace_hchain|apply (seqno_since_spec _ _ Hc)].
Qed.

(** C35: on a tombstone, every command but the four that do not check for it
    changes nothing and asks for no new state. *)
Theorem tombstone_is_final cmd seqno c c' w : StateCollections.is_tombstone c = true -> minds_tombstones cmd = true ->
  Machine.run_command D hashed cmd seqno c = Ret (c', w) -> c' = c /\ w = Break tt.
Proof. apply tombstone_breaks. Qed.
End commands.

Lemma command_refines_witness : exists ns,
  Machine.next_state Z ex_hashed (ex_at 6) (ex_cmd 6).1 ex_cfg (ex_clock 1006) = Ret (Ok ns) /\
  next_ok (ex_at 6) (ex_cmd 6).1 (ns_state ns).
Proof.
  destruct (ex_ok 6 ex_at_6) as [Hx Hr].
  apply (command_refines Z ex_hashed (ex_at 6) (ex_cmd 6).1 ex_cfg (ex_clock 1006) (ex_ran (ex_at 6) (ex_cmd 6).1));
    [exact Hx|exact Hr|vm_compute; reflexivity|exact ex_cfg_ok|exact I|left; vm_compute; reflexivity|vm_compute; reflexivity].
Defined.

Lemma reachable_sound_witness :
  state_ok (ex_at 7) /\ sc_rollups (st_collections (ex_at 7)) <> [] /\
  Trace.validate (sc_trace (st_collections (ex_at 7))) = Ok tt /\
  hchain min_frontier (Trace.batches (sc_trace (st_collections (ex_at 7)))) (State.upper (ex_at 7)) /\
  sc_last_gc_req (st_collections (ex_at 7)) <= State.seqno_since (ex_at 7).
Proof. apply (reachable_sound (K := bool) (V := bool) Z ex_hashed (ex_at 7)). exact ex_at_7. Defined.

Lemma tombstone_is_final_witness :
  ex_ran (ex_at 11) (ex_cmd 4).1 = st_collections (ex_at 11) /\ Break (B := unit) (C := unit) tt = Break tt.
Proof.
  apply (tombstone_is_final Z ex_hashed (ex_cmd 4).1 (st_seqno (ex_at 11) + 1) (st_collections (ex_at 11)));
    vm_compute; reflexivity.
Defined.

(** ** Appends *)

Section appends.
Context {T : Type} `{TimelyLaws T} `{!TimelyTotal T} {Version : Type} `{!SemVer Version} `{UuidCodec} (hashed : IdempotencyToken -> Z).
Implicit Types (c : StateCollections T Version) (h : HollowBatch T).

(** An append whose checks pass is carried out: without a version
    threshold for claimed compactions nothing in it panics, the data of the
    shard is what it was followed by the batch, the upper is the upper of
    the batch, the since stays, the writer's entry names the token and the
    upper, the invariant holds. *)
Theorem append_commits seqno c h w now lease tok dbg max pct : coll_ok seqno c -> writable (sc_trace c) h ->
  passes h w tok max c = true ->
  exists c' reqs, StateCollections.compare_and_append hashed c h w now lease tok dbg max pct None = Ret (c', Continue reqs) /\
    committed c h w tok c' /\ coll_ok seqno c' /\ advances c c'.
Proof.
  intros Hc Hw Hp. destruct (append_total hashed h w lease tok dbg max pct None seqno now c Hc Hw Hp eq_refl) as (c' & reqs & He).
  destruct (compare_and_append_ok hashed _ _ _ _ _ _ _ _ _ _ _ _ _ Hc Hw He) as [[Hc' Hadv] Hcm]. exists c', reqs. eauto.
Qed.

(** Repeating an append that went through is recognized by its token,
    whatever has been appended by others since, and changes nothing. *)
Theorem append_recognized seqno c h w now lease tok dbg max pct ver : coll_ok seqno c -> well_formed h -> marked h w tok c ->
  exists c', StateCollections.compare_and_append hashed c h w now lease tok dbg max pct ver = Ret (c', Break CaaAlreadyCommitted).
Proof. intros. by eapply append_marked. Qed.
End appends.

Lemma append_commits_witness : exists c' reqs,
  StateCollections.compare_and_append ex_hashed (st_collections (ex_at 7)) ex_late ex_writer 1010 3600000 ex_late_token
    ex_debug 1000000 100 None = Ret (c', Continue reqs) /\
  committed (st_collections (ex_at 7)) ex_late ex_writer ex_late_token c' /\ coll_ok 7 c' /\
  advances (st_collections (ex_at 7)) c'.
Proof.
  destruct (ex_ok 7 ex_at_7) as [[_ Hc] _].
  apply (append_commits ex_hashed 7 (st_collections (ex_at 7))); [exact Hc|apply ex_writable; vm_compute; reflexivity|vm_compute; reflexivity].
Defined.

Lemma ex_marked : marked ex_late ex_writer ex_late_token (st_collections ex_committed).
Proof. eexists. split; [vm_compute; reflexivity|]. split; vm_compute; reflexivity. Qed.

Lemma append_recognized_witness : exists c',
  StateCollections.compare_and_append ex_hashed (st_collections ex_committed) ex_late ex_writer 1012 3600000 ex_late_token
    ex_debug 1000000 100 None = Ret (c', Break CaaAlreadyCommitted).
Proof.
  destruct (reachable_ok _ _ _ ex_committed_reachable) as [[_ Hc] _].
  apply (append_recognized ex_hashed (st_seqno ex_committed) (st_collections ex_committed) ex_late ex_writer 1012 3600000 ex_late_token);
    [exact Hc|split; vm_compute; reflexivity|exact ex_marked].
Defined.

Section retries.
Context {T : Type} `{TimelyLaws T} `{!TimelyTotal T} {Version : Type} `{!SemVer Version} `{UuidCodec} (hashed : IdempotencyToken -> Z).
Context (h : HollowBatch T) (w : WriterId) (lease : Z) (tok : IdempotencyToken) (dbg : HandleDebugState)
  (max_bytes percent : Z) (min_version : option Version).
Implicit Types (x y : State T Version).

End retries.




(** ** Finalization *)

Section finalization.
Context {T : Type} `{TimelyLaws T} {Version : Type}.
Implicit Types (c : StateCollections T Version).

(** [become_tombstone_and_shrink] on a shard whose since and upper are
    empty never panics (in particular it always finds the batch that it
    wants to empty), keeps the invariant, makes the shard a tombstone, and
    makes progress in a measure until there is a single empty batch. *)
Theorem tombstone_progress seqno c : coll_ok seqno c -> finished c ->
  exists c' ret, StateCollections.become_tombstone_and_shrink c = Ret (c', ret) /\
    coll_ok seqno c' /\ finished c' /\ StateCollections.is_tombstone c' = true /\
    match ret with
    | Continue _ => (shrink_measure c' < shrink_measure c)%nat
    | Break _ => StateCollections.is_single_empty_batch c = true /\ StateCollections.is_tombstone c = true
    end.
Proof. apply become_tombstone_ok. Qed.

(** C24: so the loop of [Machine::become_tombstone] ends, after at most as
    many steps as the measure says, with a tombstone of one empty batch. *)
Theorem tombstone_reached seqno c fuel : coll_ok seqno c -> finished c -> (shrink_measure c < fuel)%nat ->
  exists c', become_tombstone fuel c = Ret (Some c') /\ coll_ok seqno c' /\
    StateCollections.is_tombstone c' = true /\ StateCollections.is_single_empty_batch c' = true.
Proof. apply become_tombstone_ends. Qed.
End finalization.

Lemma tombstone_progress_witness : exists c' ret,
  StateCollections.become_tombstone_and_shrink (st_collections (ex_at 10)) = Ret (c', ret) /\
  coll_ok 10 c' /\ finished c' /\ StateCollections.is_tombstone c' = true /\
  match ret with
  | Continue _ => (shrink_measure c' < shrink_measure (st_collections (ex_at 10)))%nat
  | Break _ => StateCollections.is_single_empty_batch (st_collections (ex_at 10)) = true /\
               StateCollections.is_tombstone (st_collections (ex_at 10)) = true
  end.
Proof.
  destruct (ex_ok 10 ex_at_10) as [[_ Hc] _].
  apply (tombstone_progress 10 (st_collections (ex_at 10))); [exact Hc|split; vm_compute; reflexivity].
Defined.

Lemma tombstone_reached_witness : exists c',
  become_tombstone 10 (st_collections (ex_at 10)) = Ret (Some c') /\ coll_ok 10 c' /\
  StateCollections.is_tombstone c' = true /\ StateCollections.is_single_empty_batch c' = true.
Proof.
  destruct (ex_ok 10 ex_at_10) as [[_ Hc] _].
  apply (tombstone_reached 10 (st_collections (ex_at 10)) 10);
    [exact Hc|split; vm_compute; reflexivity|apply Nat.ltb_lt; vm_compute; reflexivity].
Defined.

