(* ===== verification/ReadProps.v ===== *)
(** * Properties of reads, maintenance and schemas *)

From Stdlib Require Import Ascii.
From Stdlib.Strings Require Import Byte.
From S2P Require Import Prelude Timely BTree Schema Paths Consensus Batch BatchFacts Spine SpineFacts SpineCorrect Trace TraceFacts State StateFacts Reads Tombstone Machine MachineFacts System Append Examples.

Local Open Scope Z_scope.

(** ** Reads *)

Section reads.
Context {T : Type} `{TimelyLaws T} `{!TimelyTotal T} {Version : Type}.
Implicit Types (x : State T Version) (as_of frontier : Antichain T).

(** C20: a snapshot at a time from the since on and before the upper hands
    out the batches from the minimum to a frontier past the time, without a
    gap: every batch that starts at or before the time, and none that starts
    after it. *)
Theorem snapshot_complete x as_of : state_ok x -> less_equal (State.since x) as_of = true ->
  less_than as_of (State.upper x) = true ->
  exists bs, State.snapshot x as_of = Ok bs /\ snapshot_spec x as_of bs.
Proof. apply snapshot_reads. Qed.

(** C21: a listen picks up where the snapshot at the same time ends.  The
    batches a listener is handed one after the other start with the last
    batch of the snapshot, the one that covers the time, and go on with all
    batches that the snapshot left out, up to the upper of the shard; it
    never waits for a batch that is there. *)
Theorem listen_continues_snapshot x as_of : state_ok x -> less_equal (State.since x) as_of = true ->
  less_than as_of (State.upper x) = true ->
  exists pre h post,
    State.snapshot x as_of = Ok (pre ++ [h]) /\
    Trace.batches (sc_trace (st_collections x)) = pre ++ [h] ++ post /\
    State.covers_frontier as_of h = true /\
    listen (length (Trace.batches (sc_trace (st_collections x)))) x as_of
      = (h :: filter (fun h => d_lower (hb_desc h) <> d_upper (hb_desc h)) post, State.upper x).
Proof. apply listen_after_snapshot. Qed.

(** C31: [next_listen_batch] answers a batch exactly when the upper of the
    shard is past the frontier, so the panic of [Listen::next] after it has
    waited for that is not reached; the batch is the one that covers the
    frontier. *)
Theorem listen_never_stuck x frontier : state_ok x ->
  if less_than frontier (State.upper x)
  then exists h, State.next_listen_batch x frontier = Ok h /\ State.covers_frontier frontier h = true
  else State.next_listen_batch x frontier = Err (st_seqno x).
Proof.
  intros Hx. destruct (less_than frontier (State.upper x)) eqn:E.
  - destruct (next_batch_found x frontier Hx E) as (pre & h & post & Hn & _ & Hc & _). by exists h.
  - by apply next_batch_waits, not_less_than.
Qed.

(** A snapshot is refused for the reason it gives: before the since the
    distinctions are lost, from the upper on the data is not there yet. *)
Theorem snapshot_refused x as_of :
  (less_than as_of (State.since x) = true ->
     State.snapshot x as_of = Err (AsOfHistoricalDistinctionsLost (State.since x))) /\
  (less_equal (State.since x) as_of = true -> less_equal (State.upper x) as_of = true ->
     State.snapshot x as_of = Err (AsOfNotYetAvailable (st_seqno x) (State.upper x))).
Proof. split; [apply snapshot_lost|apply snapshot_not_yet]. Qed.
End reads.

Lemma snapshot_complete_witness : exists bs,
  State.snapshot (ex_at 7) (from_elem 7%N) = Ok bs /\ snapshot_spec (ex_at 7) (from_elem 7%N) bs.
Proof.
  apply (snapshot_complete (ex_at 7) (from_elem 7%N)); [exact (proj1 (ex_ok 7 ex_at_7))|vm_compute; reflexivity..].
Defined.

Lemma listen_continues_snapshot_witness : exists pre h post,
  State.snapshot (ex_at 7) (from_elem 4%N) = Ok (pre ++ [h]) /\
  Trace.batches (sc_trace (st_collections (ex_at 7))) = pre ++ [h] ++ post /\
  State.covers_frontier (from_elem 4%N) h = true /\
  listen (length (Trace.batches (sc_trace (st_collections (ex_at 7))))) (ex_at 7) (from_elem 4%N)
    = (h :: filter (fun h => d_lower (hb_desc h) <> d_upper (hb_desc h)) post, State.upper (ex_at 7)).
Proof.
  apply (listen_continues_snapshot (ex_at 7) (from_elem 4%N)); [exact (proj1 (ex_ok 7 ex_at_7))|vm_compute; reflexivity..].
Defined.

Lemma listen_never_stuck_witness :
  exists h, State.next_listen_batch (ex_at 7) (from_elem 5%N) = Ok h /\ State.covers_frontier (from_elem 5%N) h = true.
Proof.
  pose proof (listen_never_stuck (ex_at 7) (from_elem 5%N) (proj1 (ex_ok 7 ex_at_7))) as Hl.
  assert (E : less_than (from_elem 5%N) (State.upper (ex_at 7)) = true) by (vm_compute; reflexivity).
  rewrite E in Hl. exact Hl.
Defined.

Lemma snapshot_refused_witness :
  State.snapshot (ex_at 7) (from_elem 2%N) = Err (AsOfHistoricalDistinctionsLost (State.since (ex_at 7))) /\
  State.snapshot (ex_at 7) (from_elem 10%N) = Err (AsOfNotYetAvailable 7 (State.upper (ex_at 7))).
Proof.
  split; [apply (snapshot_refused (ex_at 7) (from_elem 2%N)); vm_compute; reflexivity|].
  apply (snapshot_refused (ex_at 7) (from_elem 10%N)); vm_compute; reflexivity.
Defined.

(** ** Readers *)

Section readers.
Context {T : Type} `{TimelyLaws T} {Version : Type}.
Implicit Types (c : StateCollections T Version) (x : State T Version).


(** C32: a request for garbage collection asks for no sequence number that a
    leased reader holds, does not go back, advances by at most the
    configured number of versions, and is remembered. *)
Theorem gc_respects_holds x w now cfg x' req : state_ok x -> st_seqno x <= u64_max -> 0 <= State.max_versions cfg ->
  State.maybe_gc x w now cfg = (x', Some req) ->
  sc_last_gc_req (st_collections x) <= State.gc_new_seqno_since req <= st_seqno x /\
  State.gc_new_seqno_since req <= sc_last_gc_req (st_collections x) + State.max_versions cfg /\
  sc_last_gc_req (st_collections x') = State.gc_new_seqno_since req /\
  Forall (fun r => State.gc_new_seqno_since req <= lr_seqno r) (BTree.values (sc_leased_readers (st_collections x))).
Proof. apply gc_bounds. Qed.

(** Expiry removes exactly the leased readers whose lease ran out before
    the given time, as long as the end of the lease fits in 64 bits. *)
Theorem expiry_exact x now :
  (forall r, r ∈ sc_leased_readers (st_collections x) ->
     0 <= lr_last_heartbeat_timestamp_ms r.2 + lr_lease_duration_ms r.2 < 2 ^ 64) ->
  forall r, r ∈ sc_leased_readers (st_collections (State.expire_at x now).1) <->
    r ∈ sc_leased_readers (st_collections x) /\ now <= lr_last_heartbeat_timestamp_ms r.2 + lr_lease_duration_ms r.2.
Proof. intros Hl. apply expire_at_spec; intros r Hr; apply (Hl r Hr). Qed.

(** A rollup is added where it is new and not older than every rollup
    there is; adding the same one again succeeds without a change, a
    different one for the same sequence number is refused, and once garbage
    collection has removed all rollups below some kept one, nothing is added
    below it, so a delayed retry cannot bring back a rollup that is gone. *)
Theorem rollups_added_once c n r : BTree.sorted (sc_rollups c) ->
  (forall v, BTree.get n (sc_rollups c) = Some v ->
     StateCollections.add_rollup c n r = (c, Continue (bool_decide (rollup_key v = rollup_key r)))) /\
  (sc_rollups c <> [] -> (forall k v, BTree.get k (sc_rollups c) = Some v -> n < k) ->
     StateCollections.add_rollup c n r = (c, Continue false)) /\
  (BTree.get n (sc_rollups c) = None -> (sc_rollups c = [] \/ exists k v, BTree.get k (sc_rollups c) = Some v /\ k < n) ->
     exists c', StateCollections.add_rollup c n r = (c', Continue true) /\ BTree.get n (sc_rollups c') = Some r /\
       sc_active_rollup c' = None /\ sc_trace c' = sc_trace c /\
       (forall k, k <> n -> BTree.get k (sc_rollups c') = BTree.get k (sc_rollups c)) /\
       StateCollections.add_rollup c' n r = (c', Continue true)).
Proof.
  intros Hs. split_and!.
  - intros v. apply add_rollup_present.
  - intros Hne Hlt. by apply add_rollup_below.
  - intros Hn Hold. destruct (add_rollup_new c n r Hs Hn Hold) as (c' & He & Hg & Ha & Ht & Hk). exists c'. split_and!; try done.
    rewrite (add_rollup_present _ _ _ _ Hg). by rewrite bool_decide_eq_true_2.
Qed.
End readers.


Definition ex_gc : State.GcConfig := {|
  State.use_active_gc := true; State.fallback_threshold_ms := 900000; State.min_versions := 1; State.max_versions := 2 |}.

Definition ex_gc_state : State N version := (State.maybe_gc (ex_at 7) true 2000 ex_gc).1.

Lemma gc_respects_holds_witness :
  sc_last_gc_req (st_collections (ex_at 7)) <= 4 <= st_seqno (ex_at 7) /\
  4 <= sc_last_gc_req (st_collections (ex_at 7)) + 2 /\ sc_last_gc_req (st_collections ex_gc_state) = 4 /\
  Forall (fun r => 4 <= lr_seqno r) (BTree.values (sc_leased_readers (st_collections (ex_at 7)))).
Proof.
  apply (gc_respects_holds (ex_at 7) true 2000 ex_gc ex_gc_state {| State.gc_shard_id := ex_shard; State.gc_new_seqno_since := 4 |}).
  - exact (proj1 (ex_ok 7 ex_at_7)).
  - vm_compute. discriminate.
  - vm_compute. discriminate.
  - vm_compute. reflexivity.
Defined.

Lemma expiry_exact_witness :
  sc_leased_readers (st_collections (ex_at 7)) <> [] /\ forall r,
  r ∈ sc_leased_readers (st_collections (State.expire_at (ex_at 7) 400000).1) <->
  r ∈ sc_leased_readers (st_collections (ex_at 7)) /\
  400000 <= lr_last_heartbeat_timestamp_ms r.2 + lr_lease_duration_ms r.2.
Proof.
  split; [vm_compute; discriminate|].
  apply (expiry_exact (ex_at 7) 400000). intros r Hr.
  assert (Hl : forallb (fun r : LeasedReaderId * LeasedReaderState N =>
    (0 <=? lr_last_heartbeat_timestamp_ms r.2 + lr_lease_duration_ms r.2)
    && (lr_last_heartbeat_timestamp_ms r.2 + lr_lease_duration_ms r.2 <? 2 ^ 64))
    (sc_leased_readers (st_collections (ex_at 7))) = true) by (vm_compute; reflexivity).
  rewrite forallb_forall in Hl. apply list_elem_of_In, Hl, andb_true_iff in Hr as [Hr Hu].
  split; [by apply Z.leb_le|by apply Z.ltb_lt].
Defined.

Definition ex_new_rollup : HollowRollup := {| rollup_key := ["r"%char]; rollup_encoded_size_bytes := Some 10 |}.

Lemma rollups_added_once_witness : exists c',
  StateCollections.add_rollup (st_collections (ex_at 7)) 7 ex_new_rollup = (c', Continue true) /\
  BTree.get 7 (sc_rollups c') = Some ex_new_rollup /\ sc_active_rollup c' = None /\
  sc_trace c' = sc_trace (st_collections (ex_at 7)) /\
  (forall k, k <> 7 -> BTree.get k (sc_rollups c') = BTree.get k (sc_rollups (st_collections (ex_at 7)))) /\
  StateCollections.add_rollup c' 7 ex_new_rollup = (c', Continue true).
Proof.
  destruct (ex_ok 7 ex_at_7) as [[_ Hc] _].
  apply (rollups_added_once (st_collections (ex_at 7)) 7 ex_new_rollup (co_rollups _ _ Hc)); [vm_compute; reflexivity|].
  right. exists 0. eexists. split; [vm_compute; reflexivity|lia].
Defined.

(** ** Schemas *)

Section schemas.
Context {T : Type} `{TimelyLaws T} {Version K V : Type} `{!SchemaCodec K} `{!SchemaCodec V} `{!DataTypeCodec}.
Implicit Types (c : StateCollections T Version).

(** Registering and evolving schemas can be retried.  A schema that was
    registered, or evolved to, is found by the same request, with the same
    id and without a change, even though an evolution no longer finds the
    id it expected, as long as the codecs read back what they wrote. *)
Theorem schemas_retriable seqno c (k : K) (v : V) e c' i : coll_ok seqno c -> codec_roundtrip k -> codec_roundtrip v ->
  (StateCollections.register_schema c k v = Ret (c', Continue (Some i)) ->
     StateCollections.register_schema c' k v = Ret (c', Break (Some i))) /\
  (StateCollections.compare_and_evolve_schema c e k v = Ret (c', Continue (CaEOk i)) ->
     StateCollections.compare_and_evolve_schema c' e k v = Ret (c', Break (CaEOk i))).
Proof. intros Hc Hk Hv. split; [by apply (register_twice seqno)|by apply (evolve_twice seqno)]. Qed.
End schemas.

Definition ex_evolved : StateCollections N version :=
  ex_ran (ex_at 7) (CompareAndEvolveSchema {| schema_id_num := 0 |} true false).

Lemma ex_codec_roundtrip b : codec_roundtrip b.
Proof. split; [by destruct b|]. exists (ex_type b). by destruct b. Qed.

Lemma schemas_retriable_witness :
  StateCollections.compare_and_evolve_schema ex_evolved {| schema_id_num := 0 |} true false
    = Ret (ex_evolved, Break (CaEOk {| schema_id_num := 1 |})).
Proof.
  apply (schemas_retriable 7 (st_collections (ex_at 7)) true false {| schema_id_num := 0 |} ex_evolved {| schema_id_num := 1 |}).
  - exact (proj2 (proj1 (ex_ok 7 ex_at_7))).
  - apply ex_codec_roundtrip.
  - apply ex_codec_roundtrip.
  - vm_compute. reflexivity.
Defined.
