(* ===== verification/SystemProps.v ===== *)
(** * Properties of processes that share a shard, of consensus, and of keys *)

From Stdlib Require Import Ascii.
From stdpp Require Import gmap.
From S2P Require Import Prelude Timely BTree Schema Paths Consensus Batch BatchFacts Spine SpineFacts SpineCorrect Trace TraceFacts State StateFacts Machine MachineFacts System Append Examples.

Local Open Scope Z_scope.

Section system.
Context {T : Type} `{TimelyLaws T} `{!TimelyTotal T} {Version K V : Type} `{!SemVer Version} `{UuidCodec}
  `{!SchemaCodec K} `{!SchemaCodec V} `{!DataTypeCodec} (D : Type) `{!PartCodec D} (hashed : IdempotencyToken -> Z).
Context `{!Consensus (State T Version)} `{!ConsensusLaws (State T Version)} (key : str).

(** C6: whatever processes do to a shard, in whatever order, with whatever
    answers lost, there is one history: a first state, numbered zero, and
    then each state the result of one command on the state before.  The log
    in consensus is what truncation has left of it, with the newest state,
    and every state that a process has cached is in it. *)
Theorem one_history sy : rtc (sys_step (K := K) (V := V) D hashed key) started sy ->
  exists hist, tells (K := K) (V := V) D hashed key hist sy.
Proof. intros Hr. exact (run_tells D hashed key sy Hr). Qed.

(** Two processes whose cached states have the same sequence number
    have the same state; and of two cached states the one with the greater
    sequence number has the later since, upper and garbage collection
    request. *)
Theorem caches_coherent sy p q x y : rtc (sys_step (K := K) (V := V) D hashed key) started sy ->
  sy_cache sy !! p = Some x -> sy_cache sy !! q = Some y ->
  (st_seqno x = st_seqno y -> x = y) /\ (st_seqno x <= st_seqno y -> advances (st_collections x) (st_collections y)).
Proof. intros Hr. exact (caches_agree D hashed key sy p q x y Hr). Qed.
End system.

(** *** Two processes: one creates the shard and registers a schema, the
    other has the first state and loses a race. *)

Abbreviation ex_store := (MemConsensus.store (State N version)) (only parsing).
Abbreviation ex_cas s x := (MemConsensus.compare_and_set s ["s"%char] (versioned x)) (only parsing).

Definition ex_store_1 : ex_store := (ex_cas ∅ (ex_at 0)).1.
Definition ex_store_2 : ex_store := (ex_cas ex_store_1 (ex_at 1)).1.
Definition ex_sys : System (T := N) (Version := version) :=
  {| sy_store := ex_store_2; sy_cache := <[0%nat := ex_at 1]> (<[1%nat := ex_at 0]> (<[0%nat := ex_at 0]> ∅)) |}.

Abbreviation ex_sys_step := (sys_step (T := N) (Version := version) (K := bool) (V := bool) Z ex_hashed ["s"%char]) (only parsing).

Lemma ex_init_ret : Machine.write_initial_rollup ex_version ex_shard "host" 999 ex_rollup = Ret (ex_at 0).
Proof. vm_compute. reflexivity. Qed.

Lemma ex_first : exists ns, Machine.next_state Z ex_hashed (ex_at 0) (ex_cmd 0).1 ex_cfg (ex_clock 1000) = Ret (Ok ns) /\ ns_state ns = ex_at 1.
Proof. vm_compute. eexists. split; reflexivity. Qed.

Lemma ex_cas_1 : ex_cas ∅ (ex_at 0) = (ex_store_1, Ok Committed).
Proof. vm_compute. reflexivity. Qed.

Lemma ex_cas_2 : ex_cas ex_store_1 (ex_at 1) = (ex_store_2, Ok Committed).
Proof. vm_compute. reflexivity. Qed.

Lemma ex_cas_lost : ex_cas ex_store_2 (ex_at 1) = (ex_store_2, Ok ExpectationMismatch).
Proof. vm_compute. reflexivity. Qed.

Lemma ex_sys_runs : rtc ex_sys_step started ex_sys.
Proof.
  destruct ex_first as (ns & Hn & Hs).
  eapply rtc_l; [exact (sys_init (Consensus0 := mem_consensus (State N version)) Z ex_hashed ["s"%char] started 0 _ _ _ _ _ (ex_at 0) ex_store_1 (Ok Committed) ex_init_ret ex_cas_1)|].
  eapply rtc_l; [apply (sys_fetch (Consensus0 := mem_consensus (State N version)) Z ex_hashed ["s"%char] _ 1 (versioned (ex_at 0))); vm_compute; reflexivity|].
  eapply rtc_l; [apply (sys_apply (Consensus0 := mem_consensus (State N version)) Z ex_hashed ["s"%char] _ 0 (ex_at 0) (ex_cmd 0).1 ex_cfg (ex_clock 1000) ns ex_store_2 (Ok Committed) true);
    [reflexivity|vm_compute; reflexivity|exact ex_cfg_ok|exact I|exact Hn|rewrite Hs; exact ex_cas_2]|].
  eapply rtc_l; [apply (sys_apply (Consensus0 := mem_consensus (State N version)) Z ex_hashed ["s"%char] _ 1 (ex_at 0) (ex_cmd 0).1 ex_cfg (ex_clock 1000) ns ex_store_2 (Ok ExpectationMismatch) true);
    [reflexivity|vm_compute; reflexivity|exact ex_cfg_ok|exact I|exact Hn|rewrite Hs; exact ex_cas_lost]|].
  rewrite Hs. unfold ex_sys. apply rtc_refl.
Qed.

Lemma one_history_witness : exists hist, tells (K := bool) (V := bool) Z ex_hashed ["s"%char] hist ex_sys.
Proof. apply (one_history (K := bool) (V := bool) Z ex_hashed ["s"%char] ex_sys). exact ex_sys_runs. Defined.

Lemma caches_coherent_witness :
  (st_seqno (ex_at 0) = st_seqno (ex_at 1) -> ex_at 0 = ex_at 1) /\
  (st_seqno (ex_at 0) <= st_seqno (ex_at 1) -> advances (st_collections (ex_at 0)) (st_collections (ex_at 1))).
Proof.
  apply (caches_coherent (K := bool) (V := bool) Z ex_hashed ["s"%char] ex_sys 1 0 (ex_at 0) (ex_at 1));
    [exact ex_sys_runs|vm_compute; reflexivity|vm_compute; reflexivity].
Defined.

(** ** Consensus *)

Section consensus.
Context {P : Type} `{ConsensusLaws P}.

(** The log under a key always has consecutive sequence numbers, and
    truncation takes away the oldest versions but never the head. *)
Theorem logs_consecutive (s : cs_store) key (new : VersionedData P) (n : Z) : log_ok (cs_log s key) -> 0 <= vd_seqno new ->
  log_ok (cs_log (cs_compare_and_set s key new).1 key) /\
  log_ok (cs_log (cs_truncate s key n).1 key) /\ cs_head (cs_truncate s key n).1 key = cs_head s key.
Proof.
  intros Hl Hv. destruct (cs_compare_and_set s key new) as [s1 r1] eqn:E1, (cs_truncate s key n) as [s2 r2] eqn:E2. simpl.
  split; [by eapply cas_keeps_log|by eapply truncate_keeps_log].
Qed.
End consensus.

(** C34: [MemConsensus] keeps the contract of the [Consensus] trait: a version
    is added exactly when it is the next one, a scan returns the versions
    from a sequence number on in order and up to the limit, a truncation
    removes exactly the versions below its bound and is refused when that is
    above the head, and no operation touches another key. *)
Theorem mem_consensus_contract (P : Type) : @ConsensusLaws P (mem_consensus P).
Proof. exact (mem_consensus_laws P). Qed.

Lemma logs_consecutive_witness :
  log_ok (cs_log (cs_compare_and_set ex_store_2 ["s"%char] (versioned (ex_at 2))).1 ["s"%char]) /\
  log_ok (cs_log (cs_truncate ex_store_2 ["s"%char] 1).1 ["s"%char]) /\
  cs_head (cs_truncate ex_store_2 ["s"%char] 1).1 ["s"%char] = cs_head ex_store_2 ["s"%char].
Proof.
  apply (logs_consecutive (H := mem_consensus (State N version)) ex_store_2 ["s"%char] (versioned (ex_at 2)) 1).
  - exists 0. split; [lia|]. vm_compute. repeat split.
  - apply Z.leb_le. vm_compute. reflexivity.
Defined.

(** ** Keys *)

Lemma batch_key_roundtrip_witness :
  parse_ids (complete_key (PartialBatchKey_new (WKId ex_writer) {| part_uuid := ex_id 7 eq_refl |}) ex_shard)
    = Ret (Some (ex_shard, PBKBatch (WKId ex_writer) {| part_uuid := ex_id 7 eq_refl |})).
Proof. apply (batch_key_roundtrip (WKId ex_writer) {| part_uuid := ex_id 7 eq_refl |} ex_shard). exact I. Defined.

Lemma rollup_key_roundtrip_witness :
  parse_ids (complete_key (PartialRollupKey_new 1234 ex_rollup) ex_shard) = Ret (Some (ex_shard, PBKRollup 1234 ex_rollup)).
Proof. apply (rollup_key_roundtrip 1234 ex_rollup ex_shard). vm_compute. discriminate. Defined.

Lemma for_version_monotone_witness :
  WriterKey_leb (WKVersion (lit "0009901")) (WKVersion (lit "0015001")) = true.
Proof.
  apply (for_version_monotone {| v_major := 0; v_minor := 99; v_patch := 1 |} ex_version);
    [vm_compute; reflexivity|vm_compute; reflexivity|right; split; [reflexivity|left; reflexivity]].
Defined.
