(* ===== verification/SpineProps.v ===== *)
(** * Properties of the spine and of hollow batches

    What appends, background work, compaction results and claims do to a
    trace, and how the runs of a batch are taken apart and put together,
    each theorem with a witness on a small trace with 64-bit times. *)

From Stdlib.Strings Require Import Byte.
From S2P Require Import Prelude Timely Batch BatchFacts Spine SpineFacts SpineCorrect Trace TraceFacts Examples.

Local Open Scope Z_scope.

(** ** A small trace *)

(** The batch of one update at time [i]. *)
Definition ex_single (i : N) : HollowBatch N := ex_batch i (i + 1) 1 "p" [x01].

Definition ex_push (t : Trace N) (h : HollowBatch N) : Trace N :=
  match Trace.push_batch t h with Ret (t', _) => t' | Panic => t end.

(** The trace after [k] appends.  After five of them it has a spine batch of
    the first four and one of the last. *)
Definition ex_trace (k : nat) : Trace N :=
  foldl ex_push Trace.default (ex_single ∘ N.of_nat <$> seq 0 k).

(** A batch fits a trace when the numbers say so. *)
Lemma ex_fits (t : Trace N) (h : HollowBatch N) :
  less_than (d_lower (hb_desc h)) (d_upper (hb_desc h)) && (0 <=? hb_len h) && (hb_len h <=? 2 ^ 60)
  && forallb (fun rm => 0 <=? default 0 (rm_len rm)) (hb_run_meta h)
  && bool_decide (d_lower (hb_desc h) = Trace.upper t) && less_equal (d_since (hb_desc h)) (Trace.since t)
  && (records 0 (sp_merging (tr_spine t)) + 2 * 2 ^ Z.of_nat (Spine.level_of (hb_len h)) <=? 2 ^ 60) = true ->
  batch_fits t h /\ d_lower (hb_desc h) <> d_upper (hb_desc h).
Proof.
  rewrite !andb_true_iff, !Z.leb_le, bool_decide_eq_true, forallb_forall. intros [[[[[[Hlt ?] ?] Hm] ?] ?] ?].
  assert (Hne : d_lower (hb_desc h) <> d_upper (hb_desc h)).
  { intros E. rewrite E, less_than_irrefl in Hlt. done. }
  split; [|done]. split; try done. split; [by apply less_than_le|by right|done|].
  apply Forall_forall. intros rm Hrm. apply Z.leb_le, Hm. by apply list_elem_of_In.
Qed.

Lemma ex_push_ok t h : spine_ok (tr_spine t) -> batch_fits t h /\ d_lower (hb_desc h) <> d_upper (hb_desc h) ->
  spine_ok (tr_spine (ex_push t h)).
Proof.
  intros Hs [Hf Hne]. destruct (push_batch_ok t h Hs Hf Hne) as (t' & reqs & He & Ht & _). unfold ex_push. by rewrite He.
Qed.

Lemma ex_trace_ok : spine_ok (tr_spine (ex_trace 5)).
Proof.
  unfold ex_trace. cbn [seq fmap list_fmap foldl].
  do 5 (apply ex_push_ok; [|apply ex_fits; vm_compute; reflexivity]). apply new_ok.
Qed.

(** The spine batch of the first four. *)
Definition ex_merged : SpineBatch N :=
  match Spine.spine_batches (tr_spine (ex_trace 5)) with b :: _ => b | [] => SpineBatch.empty (SId 0 0) antichain_new antichain_new antichain_new end.

Lemma ex_merged_wf : batch_wf (Trace.since (ex_trace 5)) ex_merged.
Proof. pose proof (spine_batches_wf _ ex_trace_ok) as Hb. vm_compute in Hb |- *. by inversion Hb. Qed.

(** The compaction of the second and the third. *)
Definition ex_result : FueledMergeRes N := {|
  fres_output := ex_batch 1 3 2 "c" [x01; x01]; fres_input := CIdRange (SId 1 3); fres_new_active_compaction := None |}.

Lemma ex_result_fits b : b ∈ Spine.spine_batches (tr_spine (ex_trace 5)) -> result_fits b ex_result.
Proof.
  assert (Hall : forallb (fun b => forallb (fun p =>
      (negb (sid_lo (ihb_id p) =? 1)%N || bool_decide (d_lower (hb_desc (ihb_batch p)) = from_elem 1%N))
      && (negb (sid_hi (ihb_id p) =? 3)%N || bool_decide (d_upper (hb_desc (ihb_batch p)) = from_elem 3%N))) (sb_parts b))
    (Spine.spine_batches (tr_spine (ex_trace 5))) = true) by (vm_compute; reflexivity).
  intros Hb. rewrite forallb_forall in Hall. apply list_elem_of_In, Hall in Hb. rewrite forallb_forall in Hb.
  split; [done| |].
  - split; [done|by right|done|]. by repeat constructor.
  - intros i p [= <-] Hp%list_elem_of_In. specialize (Hb p Hp).
    rewrite andb_true_iff, !orb_true_iff, !negb_true_iff, !N.eqb_neq, !bool_decide_eq_true in Hb.
    destruct Hb as [[?|Hlo] [?|Hhi]]; split; intros E; try done.
Qed.

(** ** Traces *)

Section traces.
Context {T : Type} `{TimelyLaws T}.
Implicit Types (t : Trace T) (h : HollowBatch T).

(** C18: appending a batch that starts at the upper of the trace always
    returns, whatever merges it triggers: the spine stays well formed and
    passes its own validation, the upper becomes the batch's, and the batches
    with data are those from before followed by the new one.  The bounds say
    that the virtual records of the spine (each batch rounded up to its level)
    stay below 2^60. *)
Theorem push_appends t h : spine_ok (tr_spine t) -> batch_fits t h -> d_lower (hb_desc h) <> d_upper (hb_desc h) ->
  exists t' reqs, Trace.push_batch t h = Ret (t', reqs) /\ spine_ok (tr_spine t') /\ Trace.validate t' = Ok tt /\
    Trace.since t' = Trace.since t /\ Trace.upper t' = d_upper (hb_desc h) /\
    trace_data t' = trace_data t ++ data_in h.
Proof.
  intros Hs Hf Hne. destruct (push_batch_ok t h Hs Hf Hne) as (t' & reqs & He & Hs' & ? & ? & ?).
  exists t', reqs. split_and!; try done. by apply validate_ok.
Qed.

(** C30: background work always returns and changes nothing that a reader
    sees: the since, the upper and the batches with data are the same. *)
Theorem exert_invisible t fuel : spine_ok (tr_spine t) -> 0 <= fuel <= 2 ^ 60 ->
  records 0 (sp_merging (tr_spine t)) + 2 * 2 ^ Z.of_nat (Spine.level_of fuel) <= 2 ^ 60 ->
  exists t' reqs worked, Trace.exert t fuel = Ret (t', reqs, worked) /\ spine_ok (tr_spine t') /\
    Trace.since t' = Trace.since t /\ Trace.upper t' = Trace.upper t /\ trace_data t' = trace_data t.
Proof. apply trace_exert_ok. Qed.

(** C22: applying a checked compaction result, in any of its forms, leaves
    the trace as it is or puts one batch with the times of the result in the
    place of consecutive batches that tile exactly these times; the spine
    stays well formed. *)
Theorem merge_in_place (D : Type) `{!PartCodec D} t (res : FueledMergeRes T) tr : spine_ok (tr_spine t) ->
  (forall b, b ∈ Spine.spine_batches (tr_spine t) -> result_fits b res) ->
  Trace.apply_merge_res_checked D t res = Ret tr ->
  exists h, hb_desc h = hb_desc (fres_output res) /\ merge_post t h tr.
Proof.
  intros Hs Hf He. eapply apply_merge_post; [done|reflexivity| |exact He].
  intros b r Hin Hb Hr. by apply (checked_ok D _ _ _ _ Hb (Hf b Hin) Hr).
Qed.

(** Claiming a compaction always returns and changes no batch. *)
Theorem claim_invisible t i c : spine_ok (tr_spine t) ->
  exists t', Trace.claim_compaction t i c = Ret t' /\ spine_ok (tr_spine t') /\
    Trace.since t' = Trace.since t /\ Trace.upper t' = Trace.upper t /\ Trace.batches t' = Trace.batches t.
Proof. intros Hs. destruct (claim_ok t i c Hs) as (t' & ? & ? & ? & ? & ? & _). by exists t'. Qed.

(** Of a list of compaction requests, no request that is kept covers
    another one, and each one of the list is covered by one that is kept. *)
Theorem reqs_irredundant (qs : list (FueledMergeReq T)) :
  irredundant (Trace.remove_redundant_merge_reqs qs) /\
  (forall r, r ∈ Trace.remove_redundant_merge_reqs qs -> r ∈ qs) /\
  (forall x, x ∈ qs -> exists r, r ∈ Trace.remove_redundant_merge_reqs qs /\ Trace.req_covers r x = true).
Proof. apply remove_redundant_ok. Qed.

(** The range of parts found for the times of a compaction result tiles
    exactly these times and the ids reported for it. *)
Theorem replacement_range_exact since (b : SpineBatch T) desc i range :
  batch_wf since b -> less_than (d_lower desc) (d_upper desc) = true ->
  Replace.find_replacement_range b desc = Some (i, range) ->
  exists pre mid post, sb_parts b = pre ++ mid ++ post /\ mid <> [] /\
    range = (length pre, length pre + length mid)%nat /\
    tiles (sid_lo i) (d_lower desc) mid (sid_hi i) (d_upper desc).
Proof. apply find_replacement_ok. Qed.

(** The parts whose ids a compaction's id range covers are consecutive,
    so the assertion of [handle_id_range_replacement] that they are never
    fires: what is left of it is the comparison of the diff sums and the
    replacement of these parts. *)
Theorem id_range_contiguous (D : Type) `{!PartCodec D} since (b : SpineBatch T) res i new : batch_wf since b ->
  exists pre mid post, sb_parts b = pre ++ mid ++ post /\
    Forall (fun p => SpineId_covers i (ihb_id p) = true) mid /\
    Forall (fun p => SpineId_covers i (ihb_id p) = false) (pre ++ post) /\
    Replace.handle_id_range_replacement D b res i new = id_range_result D b res i new pre mid.
Proof. apply handle_id_range_eq. Qed.
End traces.

Lemma push_appends_witness : exists t' reqs, Trace.push_batch (ex_trace 5) (ex_single 5) = Ret (t', reqs) /\
  spine_ok (tr_spine t') /\ Trace.validate t' = Ok tt /\ Trace.since t' = Trace.since (ex_trace 5) /\
  Trace.upper t' = d_upper (hb_desc (ex_single 5)) /\ trace_data t' = trace_data (ex_trace 5) ++ data_in (ex_single 5).
Proof.
  assert (Hf : batch_fits (ex_trace 5) (ex_single 5) /\ d_lower (hb_desc (ex_single 5)) <> d_upper (hb_desc (ex_single 5)))
    by (apply ex_fits; vm_compute; reflexivity).
  apply (push_appends (ex_trace 5) (ex_single 5)); [exact ex_trace_ok|apply Hf|apply Hf].
Defined.

Lemma exert_invisible_witness : exists t' reqs worked, Trace.exert (ex_trace 5) 8 = Ret (t', reqs, worked) /\
  spine_ok (tr_spine t') /\ Trace.since t' = Trace.since (ex_trace 5) /\ Trace.upper t' = Trace.upper (ex_trace 5) /\
  trace_data t' = trace_data (ex_trace 5).
Proof.
  apply (exert_invisible (ex_trace 5) 8); [exact ex_trace_ok|lia|vm_compute; discriminate].
Defined.

Lemma merge_in_place_witness : exists tr h, Trace.apply_merge_res_checked Z (ex_trace 5) ex_result = Ret tr /\
  tr.2 = AppliedSubset /\ hb_desc h = hb_desc (fres_output ex_result) /\ merge_post (ex_trace 5) h tr.
Proof.
  assert (He : exists tr, Trace.apply_merge_res_checked Z (ex_trace 5) ex_result = Ret tr /\ tr.2 = AppliedSubset)
    by (vm_compute; eexists; split; reflexivity).
  destruct He as (tr & He & Hr).
  destruct (merge_in_place Z (ex_trace 5) ex_result tr ex_trace_ok ex_result_fits He) as (h & Hd & Hp).
  exists tr, h. exact (conj He (conj Hr (conj Hd Hp))).
Defined.

Lemma claim_invisible_witness : exists t', Trace.claim_compaction (ex_trace 5) (SId 0 4) {| ac_start_ms := 7 |} = Ret t' /\
  spine_ok (tr_spine t') /\ Trace.since t' = Trace.since (ex_trace 5) /\ Trace.upper t' = Trace.upper (ex_trace 5) /\
  Trace.batches t' = Trace.batches (ex_trace 5).
Proof. apply (claim_invisible (ex_trace 5) (SId 0 4) {| ac_start_ms := 7 |}). exact ex_trace_ok. Defined.

Lemma replacement_range_exact_witness : exists pre mid post, sb_parts ex_merged = pre ++ mid ++ post /\ mid <> [] /\
  (1, 3)%nat = (length pre, length pre + length mid)%nat /\ tiles 1 (from_elem 1%N) mid 3 (from_elem 3%N).
Proof.
  apply (replacement_range_exact (Trace.since (ex_trace 5)) ex_merged (hb_desc (fres_output ex_result)) (SId 1 3) (1, 3)%nat);
    [exact ex_merged_wf|reflexivity|vm_compute; reflexivity].
Defined.

Lemma id_range_contiguous_witness : exists pre mid post, sb_parts ex_merged = pre ++ mid ++ post /\
  Forall (fun p => SpineId_covers (SId 1 3) (ihb_id p) = true) mid /\
  Forall (fun p => SpineId_covers (SId 1 3) (ihb_id p) = false) (pre ++ post) /\
  Replace.handle_id_range_replacement Z ex_merged ex_result (SId 1 3) (Some 2) =
    id_range_result Z ex_merged ex_result (SId 1 3) (Some 2) pre mid.
Proof.
  apply (id_range_contiguous Z (Trace.since (ex_trace 5)) ex_merged ex_result (SId 1 3) (Some 2)). exact ex_merged_wf.
Defined.

(** ** Fuel *)

(** C37: the fuel a batch brings at a level, for every level: eight units for
    each record up to level 59, as much as there is at level 60 and from level
    64 on, but none at all at the levels 61 to 63, where the shift loses the
    bits and the shift amount is still in range. *)
Theorem fuel_by_level (idx : nat) : Spine.fuel_for 1 idx =
  if (idx <=? 59)%nat then 8 * 2 ^ Z.of_nat idx
  else if (61 <=? idx)%nat && (idx <=? 63)%nat then 0 else isize_max.
Proof.
  destruct (Nat.leb_spec idx 59) as [Hi|Hi]; [by apply fuel_for_exact|].
  destruct (decide (idx < 64)%nat) as [Hlt|Hge].
  - assert (idx = 60 \/ idx = 61 \/ idx = 62 \/ idx = 63)%nat as [-> | [-> | [-> | ->]]] by lia; vm_compute; reflexivity.
  - unfold Spine.fuel_for, usize_checked_shl. rewrite (proj2 (Nat.ltb_ge idx 64)) by lia.
    by rewrite (proj2 (Nat.leb_gt idx 63)), andb_false_r by lia.
Qed.

(** ** Runs *)

Section batches.
Context {T : Type} `{TimelyLaws T}.
Implicit Types (b h : HollowBatch T).

(** A batch that passes the checks of [HollowBatch::new] splits into
    nonempty runs that partition its parts in order, one for each entry of
    its run metadata; [runs] yields exactly these and never panics. *)
Theorem runs_partition b : runs_ok b ->
  exists rs, HollowBatch.runs b = Ret <$> rs /\ Forall (fun r => r.2 <> []) rs /\
    concat (snd <$> rs) = hb_parts b /\ fst <$> rs = hb_run_meta b.
Proof.
  intros Hb. destruct (runs_ok_assembled b Hb) as (rs & Hrs). exists rs.
  split; [by apply assembled_runs|]. by destruct Hrs as (? & -> & -> & _).
Qed.

(** Replacing runs of a batch by those of a compaction result keeps the
    other runs, in order and with their metadata, and puts the new ones after
    them; the length of the new batch is the sum of those of its runs. *)
Theorem runs_replaced original ids replacement rs rs' :
  assembled original rs -> assembled replacement rs' -> Forall (fun r => is_Some (rm_id r.1)) rs ->
  ids <> [] -> Forall (fun i => exists r, r ∈ rs /\ rm_id r.1 = Some i) ids ->
  exists h, Replace.construct_batch_with_runs_replaced original ids replacement = Ret (Ok h) /\
    HollowBatch.runs h = Ret <$> kept ids rs ++ rs' /\ hb_desc h = hb_desc replacement /\
    hb_len h = sumZ (omap (fun r => rm_len r.1) (kept ids rs ++ rs')).
Proof.
  intros Ho Hr Hid Hne Hin. destruct (construct_ok original ids replacement rs rs' Ho Hr Hid Hne Hin)
    as (h & He & Ha & Hd & Hl). exists h. split_and!; try done. by apply assembled_runs.
Qed.

(** Rewriting the timestamps of a batch forward twice gives what the
    second rewrite alone gives, whenever the first one was accepted. *)
Theorem rewrites_compose b f u b' f' u' :
  HollowBatch.rewrite_ts b f u = Ret (Ok b') -> less_equal f f' = true -> less_than f' u' = true ->
  less_equal u u' = true ->
  HollowBatch.rewrite_ts b' f' u' = HollowBatch.rewrite_ts b f' u' /\
  exists b'', HollowBatch.rewrite_ts b f' u' = Ret (Ok b'') /\ hb_len b'' = hb_len b /\
    hb_desc b'' = desc_new (d_lower (hb_desc b)) u' (d_since (hb_desc b)).
Proof.
  intros Hb Hf Hfu Hu. destruct (rewrite_twice b f u b' f' u' Hb Hf Hfu Hu) as [-> ->].
  split; [done|]. by eexists.
Qed.
End batches.

(** *** A batch of three runs *)

Definition ex_run_id (n : N) (H : (n <? 2 ^ 128)%N = true) : RunId := {| run_uuid := ex_id n H |}.

Definition ex_run_meta (i : RunId) (len : Z) : RunMeta := {|
  rm_order := None; rm_schema := None; rm_deprecated_schema := None; rm_id := Some i; rm_len := Some len; rm_meta := ∅ |}.

Definition ex_runs : list (RunMeta * list (RunPart N)) := [
  (ex_run_meta (ex_run_id 1 eq_refl) 2, [ex_part "a" [x01]; ex_part "b" [x01]]);
  (ex_run_meta (ex_run_id 2 eq_refl) 1, [ex_part "c" [x01]]);
  (ex_run_meta (ex_run_id 3 eq_refl) 3, [ex_part "d" [x01]; ex_part "e" [x01]])].

Definition ex_three_runs : HollowBatch N := {|
  hb_desc := desc_new (from_elem 0%N) (from_elem 4%N) (from_elem 0%N); hb_len := 6;
  hb_parts := concat (snd <$> ex_runs); hb_run_splits := [2; 3]%nat; hb_run_meta := fst <$> ex_runs |}.

(** The compaction of its second run. *)
Definition ex_one_run : HollowBatch N := {|
  hb_desc := desc_new (from_elem 0%N) (from_elem 4%N) (from_elem 0%N); hb_len := 1;
  hb_parts := [ex_part "f" [x01]]; hb_run_splits := []; hb_run_meta := [ex_run_meta (ex_run_id 4 eq_refl) 1] |}.

Lemma runs_partition_witness :
  exists rs : list (RunMeta * list (RunPart N)), HollowBatch.runs ex_three_runs = Ret <$> rs /\ Forall (fun r => r.2 <> []) rs /\
    concat (snd <$> rs) = hb_parts ex_three_runs /\ fst <$> rs = hb_run_meta ex_three_runs.
Proof. apply (runs_partition ex_three_runs). split; [vm_compute; reflexivity|discriminate]. Defined.

Lemma runs_replaced_witness :
  exists h, Replace.construct_batch_with_runs_replaced ex_three_runs [ex_run_id 2 eq_refl] ex_one_run = Ret (Ok h) /\
    HollowBatch.runs h = Ret <$> kept [ex_run_id 2 eq_refl] ex_runs ++ [(ex_run_meta (ex_run_id 4 eq_refl) 1, hb_parts ex_one_run)] /\
    hb_desc h = hb_desc ex_one_run /\
    hb_len h = sumZ (omap (fun r => rm_len r.1) (kept [ex_run_id 2 eq_refl] ex_runs ++ [(ex_run_meta (ex_run_id 4 eq_refl) 1, hb_parts ex_one_run)])).
Proof.
  apply (runs_replaced ex_three_runs [ex_run_id 2 eq_refl] ex_one_run ex_runs [(ex_run_meta (ex_run_id 4 eq_refl) 1, hb_parts ex_one_run)]).
  - split; [|done]. by repeat constructor.
  - split; [|done]. by repeat constructor.
  - by repeat constructor.
  - discriminate.
  - apply Forall_singleton. eexists. split; [apply list_elem_of_further, list_elem_of_here|reflexivity].
Defined.

Lemma rewrites_compose_witness : exists b',
  HollowBatch.rewrite_ts ex_three_runs (from_elem 4%N) (from_elem 5%N) = Ret (Ok b') /\
  HollowBatch.rewrite_ts b' (from_elem 6%N) (from_elem 7%N) = HollowBatch.rewrite_ts ex_three_runs (from_elem 6%N) (from_elem 7%N).
Proof.
  assert (He : exists b', HollowBatch.rewrite_ts ex_three_runs (from_elem 4%N) (from_elem 5%N) = Ret (Ok b'))
    by (vm_compute; eexists; reflexivity).
  destruct He as (b' & He). exists b'. split; [exact He|].
  apply (rewrites_compose ex_three_runs (from_elem 4%N) (from_elem 5%N) b' (from_elem 6%N) (from_elem 7%N) He eq_refl eq_refl eq_refl).
Defined.
