(* ===== verification/DiffProps.v ===== *)
(** * Properties of differences between states *)

From Stdlib.Strings Require Import Byte.
From S2P Require Import Prelude Compare Timely BTree Schema Paths Consensus Batch Order Diff BatchFacts Spine SpineFacts SpineCorrect Trace FlatTrace TraceFacts FlatFacts SpineKeep State StateDiff StateDiffFacts StateFacts Tombstone Machine MachineFacts DiffChain Versions Gc History System Append Examples RunExamples.

Local Open Scope Z_scope.

Section diffs.
Context {T : Type} `{TL : TimelyLaws T} `{TT : !TimelyTotal T} `{TO : !TimelyOrd T} `{TOL : !TimelyOrdLaws T}.
Context {Version K V : Type} `{!SemVer Version} `{UuidCodec} `{!SchemaCodec K} `{!SchemaCodec V} `{!DataTypeCodec}.
Context (D : Type) `{!PartCodec D} (hashed : IdempotencyToken -> Z).

(** C25: a well-formed trace can be flattened, whatever merges are in
    progress and whatever compactions are claimed, and [unflatten] brings
    back exactly the same trace: levels, merges with their fuel, claims and
    batches.  The trace has to carry its structure, hold at most 2^60 updates
    and no run metadata on batches without parts. *)
Theorem flatten_roundtrip (t : Trace T) : flattable t ->
  exists f, Flatten.flatten t = Ret f /\ Unflatten.unflatten f = Ret (Ok t).
Proof.
  intros Ht. destruct (flatten_ok t (fl_spine _ Ht) (fl_roundtrip _ Ht)) as (f & Hf & Hof). exists f. split; [done|].
  exact (unflatten_ok f t Ht (flat_of_like f t (fl_spine _ Ht) Hof)).
Qed.

(** C19: the difference between a state and the one a command makes of it
    says everything: [from_diff] does not panic, and [apply_diff] on the old
    state succeeds and returns the new state, every field of it and the exact
    structure of its spine.  The new state is again one for which this
    holds.  The command has to bring a batch without stray metadata and with
    keys of runs that do not stand for other runs already. *)
Theorem command_diff_roundtrip (x : State T Version) (cmd : Command T Version K V) cfg clock ns :
  chain_ok x -> st_seqno x < u64_max -> config_ok cfg -> command_fits (st_collections x) cmd ->
  command_named (st_collections x) cmd -> Machine.next_state D hashed x cmd cfg clock = Ret (Ok ns) ->
  chain_ok (ns_state ns) /\
  exists d, StateDiff.from_diff x (ns_state ns) = Ret d /\ ApplyDiff.apply_diff d x = Ret (Ok (ns_state ns)).
Proof.
  intros Hx Hu Hk Hf Hn Hs. destruct (chain_step D hashed x cmd cfg clock ns Hx Hu Hk Hf Hn Hs) as (Hx' & Hc & Hnext).
  split; [done|]. pose proof (nx_seqno _ _ _ Hnext) as Hseq.
  destruct (diff_roundtrip_ok x (ns_state ns) Hc ltac:(lia)) as (d & Hd & Ha & _). by exists d.
Qed.
End diffs.

(** ** On the example *)

Lemma ex_chain_step x (cmd : Command N version bool bool) now x' : chain_ok x -> ex_next x cmd now = Ret x' -> st_seqno x < u64_max ->
  command_fits (st_collections x) cmd ->
  forallb (fun h => negb (bool_decide (hb_parts h = [])) || bool_decide (hb_run_meta h = [])) (brings cmd) = true ->
  forallb no_runs (brings cmd ++ Trace.batches (sc_trace (st_collections x))) = true -> chain_ok x'.
Proof.
  intros Hx Hn Hu Hf Ht Hr. unfold ex_next in Hn. apply obind_Ret in Hn as (r & Hr' & He).
  destruct r as [ns|]; [|done]. injection He as <-.
  apply (chain_step Z ex_hashed x cmd ex_cfg (ex_clock now) ns); [done|done|exact ex_cfg_ok|done| |exact Hr'].
  split; [|by apply no_runs_named]. apply Forall_forall. intros h Hh%list_elem_of_In Hp. rewrite forallb_forall in Ht.
  apply Ht in Hh. rewrite Hp in Hh. simpl in Hh. by apply bool_decide_eq_true in Hh.
Qed.

Ltac ex_chain H n :=
  apply (ex_chain_step (ex_at n) (ex_cmd n).1 (ex_cmd n).2);
  [exact H|vm_compute; reflexivity|vm_compute; reflexivity| |vm_compute; reflexivity|vm_compute; reflexivity];
  try exact I; try (apply ex_writable; vm_compute; reflexivity).

Lemma ex_chain_0 : chain_ok (ex_at 0).
Proof. eapply (initial_chain ex_version ex_shard "host" 999 ex_rollup). vm_compute. reflexivity. Qed.
Lemma ex_chain_1 : chain_ok (ex_at 1). Proof. ex_chain ex_chain_0 0%nat. Qed.
Lemma ex_chain_2 : chain_ok (ex_at 2). Proof. ex_chain ex_chain_1 1%nat. Qed.
Lemma ex_chain_3 : chain_ok (ex_at 3). Proof. ex_chain ex_chain_2 2%nat. Qed.
Lemma ex_chain_4 : chain_ok (ex_at 4). Proof. ex_chain ex_chain_3 3%nat. Qed.
Lemma ex_chain_5 : chain_ok (ex_at 5). Proof. ex_chain ex_chain_4 4%nat. Qed.

Lemma flatten_roundtrip_witness : exists f,
  Flatten.flatten (sc_trace (st_collections (ex_at 5))) = Ret f /\ Unflatten.unflatten f = Ret (Ok (sc_trace (st_collections (ex_at 5)))).
Proof. apply (flatten_roundtrip (sc_trace (st_collections (ex_at 5)))). exact (df_trace _ (chain_diffable _ ex_chain_5)). Defined.

Lemma command_diff_roundtrip_witness : exists d,
  StateDiff.from_diff (ex_at 4) (ex_at 5) = Ret d /\ ApplyDiff.apply_diff d (ex_at 4) = Ret (Ok (ex_at 5)).
Proof.
  assert (Hn : exists ns, Machine.next_state Z ex_hashed (ex_at 4) (ex_cmd 4).1 ex_cfg (ex_clock (ex_cmd 4).2) = Ret (Ok ns) /\ ns_state ns = ex_at 5)
    by (vm_compute; eexists; split; reflexivity).
  destruct Hn as (ns & Hn & <-).
  apply (command_diff_roundtrip Z ex_hashed (ex_at 4) (ex_cmd 4).1 ex_cfg (ex_clock (ex_cmd 4).2) ns);
    [exact ex_chain_4|vm_compute; reflexivity|exact ex_cfg_ok|apply ex_writable; vm_compute; reflexivity| |exact Hn].
  split; [apply Forall_singleton; intros Hp; discriminate Hp|apply no_runs_named; vm_compute; reflexivity].
Defined.
