(* ===== verification/VersionProps.v ===== *)
(** * Properties of the stored versions and of garbage collection

    What holds for every run of a shard: for its stores, for a process that
    reads them while others write, and for the garbage collector. *)

From Stdlib.Strings Require Import Byte.
From S2P Require Import Prelude Compare Timely BTree Schema Paths Consensus Batch Order Blob Diff BatchFacts Spine SpineFacts Trace TraceFacts SpineKeep State StateDiff StateDiffFacts StateFacts Tombstone Machine MachineFacts DiffChain PartKeys Versions VersionsFacts Gc DeleteFacts GcFacts History System Append Examples RunExamples.

Local Open Scope Z_scope.

Section runs.
Context {T : Type} `{TL : TimelyLaws T} `{TT : !TimelyTotal T} `{TO : !TimelyOrd T} `{TOL : !TimelyOrdLaws T}.
Context {Version K V : Type} `{SV : !SemVer Version} `{UL : UuidLaws} `{SK : !SchemaCodec K} `{SCV : !SchemaCodec V} `{DT : !DataTypeCodec}.
Context (D : Type) `{PC : !PartCodec D} (hashed : IdempotencyToken -> Z) (shard : ShardId) (codecs : Codecs).
Context `{C : !Consensus (StateDiff T Version)} `{CL : !ConsensusLaws (StateDiff T Version)}.
Context `{B : !Blob (Object T Version)} `{BL : !BlobLaws (Object T Version)}.
Context (build : Version) (scan_limit : Z).

Abbreviation step := (world_step (K := K) (V := V) D hashed shard codecs).
Abbreviation reached := (reached (T := T) (Version := Version) shard).
Abbreviation at_key := (at_key (T := T) (Version := Version) shard).

(** C8: whatever blobs are written, commands committed and garbage collected
    since a shard was created: the log holds exactly the differences from the
    earliest live version on, each between two consecutive states; the current
    state refers to a rollup of that version; every rollup it refers to is
    stored and is one of the right version; and every live state has all its
    blobs, those of the parts listed in runs included. *)
Theorem runs_keep_live w0 w : world_init shard codecs w0 -> rtc step w0 w -> exists cur, last (w_hist w) = Some cur /\
  log_of shard (w_stores w) = drop (w_earliest w) (w_log w) /\ diff_log (w_hist w) (w_log w) /\
  BTree.contains (Z.of_nat (w_earliest w)) (rollups_of cur) = true /\
  (forall n r, (n, r) ∈ rollups_of cur -> exists y o, w_hist w !! Z.to_nat n = Some y /\ rollup_blob shard (w_stores w) r = Some o /\ rollup_of codecs y o) /\
  forall i x q c, w_hist w !! i = Some x -> (w_earliest w <= i)%nat -> refs_of (Trace.batches (trace_of x)) q -> reached (vs_blob (w_stores w)) [q] c ->
    is_Some (at_key (vs_blob (w_stores w)) c).
Proof.
  intros H0w Hr. pose proof (runs_ok D hashed shard codecs _ _ (init_ok _ _ _ H0w) Hr) as Hw. destruct (last (w_hist w)) as [cur|] eqn:E; [|by apply last_None in E; destruct Hw].
  exists cur. pose proof (wo_stored _ _ _ Hw) as [Hlog Hrs Hcur Hear _]. split_and!; [done|done|apply (rh_log _ _ _ (wo_recorded _ _ _ Hw))|by apply Hear| |apply Hw].
  intros n r Hin. destruct (Hcur cur n r E Hin) as [o Ho]. destruct (Hrs cur n r o ltac:(by apply last_Some_elem_of) Hin Ho) as (y & Hy & Hyo). by exists y, o.
Qed.

(** C17: a process that fetches the current state, while others commit
    commands, write rollups and collect garbage, never panics, and what it
    returns is a state of the history at least as recent as the one that was
    current when it began.  As long as it has not returned, every turn of its
    loop is paid for by a version that others have committed: it cannot be
    held up unless the shard makes progress. *)
Theorem fetch_current_recent w0 wa wb wc vs w' : world_init shard codecs w0 -> rtc step w0 wa -> rtc step wa wb -> rtc step wb wc ->
  seen (K := K) (V := V) D hashed shard codecs wc vs w' -> readable build (w_hist w') -> 0 < scan_limit ->
  exists live, StateVersions.fetch_recent_live_diffs build scan_limit (w_stores wa) (w_stores wb) (w_stores wc) shard = Ret live /\
    (StateVersions.fetch_current_state codecs build scan_limit vs shard live = None /\ (length (w_hist wa) + length vs <= length (w_hist w'))%nat \/
     exists m x, StateVersions.fetch_current_state codecs build scan_limit vs shard live = Some (Ret {| us_codecs := codecs; us_state := x |}) /\
       w_hist w' !! m = Some x /\ (pred (length (w_hist wa)) <= m)%nat).
Proof.
  intros H0w Ha Hb Hc Hs Hread Hlim. exact (world_fetch D hashed shard codecs wa wb wc vs w' build scan_limit (runs_ok D hashed shard codecs _ _ (init_ok _ _ _ H0w) Ha) Hb Hc Hs Hread Hlim).
Qed.

(** Refreshing a cached state never takes it back, and when no other
    handle of the process moves the cache meanwhile, it ends at least at the
    state that was current when the log was read, even if what separates
    the two has been truncated. *)
Theorem cache_refreshed w0 w vs w' h i1 i2 i3 x locked relocked : world_init shard codecs w0 -> rtc step w0 w ->
  seen (K := K) (V := V) D hashed shard codecs w vs w' -> readable build (w_hist w') -> 0 < scan_limit ->
  w_hist w' !! i1 = Some x -> w_hist w' !! i2 = Some locked -> w_hist w' !! i3 = Some relocked -> (i1 <= i2 <= i3)%nat -> (i1 < length (w_hist w))%nat ->
  StateVersions.fetch_and_update_state codecs build scan_limit (w_stores w) vs shard h x locked relocked = None /\ (length (w_hist w) + length vs <= length (w_hist w'))%nat \/
  exists i' y, StateVersions.fetch_and_update_state codecs build scan_limit (w_stores w) vs shard h x locked relocked = Some (Ret y) /\
    w_hist w' !! i' = Some y /\ (i1 <= i')%nat /\
    (match h with Some n => Z.of_nat i1 <= n | None => True end -> i2 = i1 -> (pred (length (w_hist w)) <= i')%nat).
Proof.
  intros H0w Ha Hs Hread Hlim Hx Hlk Hrl Hi Hlt. pose proof (runs_ok D hashed shard codecs _ _ (init_ok _ _ _ H0w) Ha) as Hw.
  pose proof (seen_runs D hashed shard codecs _ _ _ Hs) as Hl. pose proof (wo_recorded _ _ _ (runs_ok D hashed shard codecs _ _ Hw Hl)) as Hrec.
  eapply (fetch_and_update_ok codecs build scan_limit shard _ _ Hrec Hread Hlim (length (w_hist w)) (w_earliest w) (w_stores w) vs h i1 i2 i3); try done.
  - exact (earlier_snap D hashed shard codecs w w' Hw Hl).
  - exact (seen_views D hashed shard codecs w vs w' Hw Hs).
Qed.

(** C28: writing a rollup of a state of the history stores exactly that state,
    together with the differences since the rollup before, and these take the
    earlier state to this one; when some of them are truncated already,
    nothing is written. *)
Theorem rollup_replays w0 w x y (n i : nat) r id : world_init shard codecs w0 -> rtc step w0 w -> readable build (w_hist w) ->
  w_hist w !! i = Some x -> State.latest_rollup x = Ret (Z.of_nat n, r) -> w_hist w !! n = Some y -> (n < i)%nat ->
  StateVersions.write_rollup_for_state codecs (w_stores w) x id =
    Ret (if decide (w_earliest w <= S n)%nat
         then (StateVersions.write_rollup_blob (w_stores w) (written_rollup codecs shard (w_log w) x n i id), Some (written_rollup codecs shard (w_log w) x n i id))
         else (w_stores w, None)) /\
  exists ds, er_buf (written_rollup codecs shard (w_log w) x n i id) =
      ObjRollup {| ro_state := {| us_codecs := codecs; us_state := x |};
                   ro_diffs := Some {| id_lower := Z.of_nat n + 1; id_upper := Z.of_nat i + 1; id_diffs := ds |} |} /\
    ApplyDiff.apply_encoded_diffs build ds y = Ret x.
Proof.
  intros H0w Hr Hread Hx Hl Hy Hn. pose proof (runs_ok D hashed shard codecs _ _ (init_ok _ _ _ H0w) Hr) as Hw. pose proof (wo_recorded _ _ _ Hw) as Hrec. split.
  - apply (write_rollup_ok codecs shard _ _ Hrec (length (w_hist w)) _ _ x n i r id (world_snap shard codecs w Hw)); try done. split; [done|]. by eapply lookup_lt_Some.
  - eexists. split; [done|]. apply (rollup_replay build shard _ _ Hrec Hread n i x y); try done. lia.
Qed.

(** C7: a garbage collection for the current state, with the versions up to
    the requested number, succeeds.  It truncates the log to the last rollup up
    to that number, the one the state keeps; nothing that the states from
    there on refer to is touched (parts, what is below runs, rollups); of the
    parts that only earlier live states refer to, everything is deleted; and
    the rollups it then removes from the state are all older.  The blobs of
    different parts have to be different ones. *)
Theorem gc_collects w0 w x req n W fuel : world_init shard codecs w0 -> rtc step w0 w -> readable build (w_hist w) -> 0 < scan_limit ->
  last (w_hist w) = Some x -> State.gc_shard_id req = shard -> Z.of_nat (w_earliest w) <= State.gc_new_seqno_since req <= State.seqno_since x ->
  State.gc_new_seqno_since req < Z.of_nat n -> blob_sound shard (w_hist w) W (vs_blob (w_stores w)) -> (forall i j, (i < j < length (w_hist w))%nat -> (weight W (found (w_log w) i j).1 <= fuel)%nat) ->
  exists s' res j remove,
    GarbageCollector.gc_and_truncate build fuel shard req x x
      (fun g => GarbageCollector.active_states codecs build scan_limit g req (w_stores w) (replicate n (w_stores w)) (w_stores w)) (w_stores w) =
      Some (Ret (s', res, Some remove)) /\
    last_due x (State.gc_new_seqno_since req) j /\ log_of shard s' = drop j (w_log w) /\
    (forall b z q c, w_hist w !! b = Some z -> (j <= b)%nat -> refs_of (Trace.batches (trace_of z)) q -> reached (vs_blob (w_stores w)) [q] c ->
       at_key (vs_blob s') c = at_key (vs_blob (w_stores w)) c) /\
    (forall b z m r, w_hist w !! b = Some z -> (j <= b)%nat -> (m, r) ∈ rollups_of z -> rollup_blob shard s' r = rollup_blob shard (w_stores w) r) /\
    (forall a z y q k c, w_hist w !! a = Some z -> w_hist w !! j = Some y -> (w_earliest w <= a < j)%nat -> refs_of (Trace.batches (trace_of z)) q ->
       part_key q = Some k -> k ∉ trace_keys (trace_of y) -> reached (vs_blob (w_stores w)) [q] c -> at_key (vs_blob s') c = None) /\
    forall e, e ∈ remove -> e.1 < Z.of_nat j.
Proof.
  intros H0w Hr Hread Hlim Hx Hsh Hsince Hn Hsound Hfuel. pose proof (runs_ok D hashed shard codecs _ _ (init_ok _ _ _ H0w) Hr) as Hw.
  destruct (world_collects shard codecs w build scan_limit x req n W fuel Hw Hread Hlim Hx Hsh Hsince Hn Hsound Hfuel) as (s' & res & j & remove & He & Hco & Hdue & Hrm).
  exists s', res, j, remove. destruct Hco as [[_ Hst] _ _ Hkept Hro Hsw]. pose proof (so_log _ _ _ _ _ _ Hst) as Hlog.
  rewrite <- (same_length shard _ _ (wo_recorded _ _ _ Hw)), firstn_all in Hlog. split_and!; try done.
  intros b z q c Hz Hb Hq Hc. by destruct (Hkept b z q c Hz Hb Hq Hc).
Qed.

(** C39: a collector with a request that another one has overtaken panics: when
    the log has been truncated past the number of the request, but the state
    still has older rollups to be removed, no version up to that number is
    found, which the code takes for a shard without a state. *)
Theorem stale_collector_panics w0 w x (since : nat) n fuel : world_init shard codecs w0 -> rtc step w0 w -> 0 < scan_limit ->
  (since < w_earliest w)%nat -> Z.of_nat since <= State.seqno_since x -> (1 < length (GarbageCollector.rollups_lte_seqno x (Z.of_nat since)))%nat ->
  let req := {| State.gc_shard_id := shard; State.gc_new_seqno_since := Z.of_nat since |} in
  GarbageCollector.gc_and_truncate build fuel shard req x x
    (fun g => GarbageCollector.active_states codecs build scan_limit g req (w_stores w) (replicate (S n) (w_stores w)) (w_stores w)) (w_stores w) = Some Panic.
Proof.
  intros H0w Hr Hlim Hk Hsince Hlen req. pose proof (runs_ok D hashed shard codecs _ _ (init_ok _ _ _ H0w) Hr) as Hw. pose proof (world_snap shard codecs w Hw) as Hsnap.
  assert (Hp : pages_ok codecs shard (w_hist w) (w_log w) (w_earliest w) (length (w_hist w)) (replicate (S n) (w_stores w))).
  { generalize (S n) as k. intros k. induction k as [|k IH]; [constructor|]. by eapply pages_cons. }
  unfold GarbageCollector.gc_and_truncate. rewrite bool_decide_eq_true_2 by done. cbn [assert_ obind State.gc_new_seqno_since req].
  destruct (Z.ltb_spec (State.seqno_since x) (Z.of_nat since)); [lia|]. cbn [obind]. pose proof (gc_rollups_new x req) as Hg. cbv zeta in Hg. cbn [State.gc_new_seqno_since req] in Hg.
  rewrite Hg. unfold GcRollups.rollups_to_remove_from_state. cbn [known_rollups gc_rollups_lte_seqno_since].
  destruct (GarbageCollector.rollups_lte_seqno x (Z.of_nat since)) as [|e [|e' l]]; [simpl in Hlen; lia..|]. cbn [removelast].
  rewrite (active_stale shard _ _ (wo_recorded _ _ _ Hw) codecs build scan_limit _ _ since _ _ _ _ req Hlim Hsnap Hp) by done. done.
Qed.

(** C29: a process that loses the race to create a shard ends with a state of
    the shard, and what it cleans up is never in use: deleting its rollup
    leaves the stores in order, also when its own first attempt had gone
    through after all. *)
Theorem lost_race_cleaned w0 wa wb wc vs w wd x0 r0 : world_init shard codecs w0 -> rtc step w0 wa -> rtc step wa wb -> rtc step wb wc ->
  seen (K := K) (V := V) D hashed shard codecs wc vs w -> rtc step w wd -> readable build (w_hist w) -> 0 < scan_limit ->
  State.latest_rollup x0 = Ret (0, r0) -> (forall i x, w_hist wd !! i = Some x -> rollup_key r0 ∈ rollup_names x -> w_hist wd !! 0%nat = Some x0) ->
  (forall x q, x ∈ w_hist wd -> refs_of (Trace.batches (trace_of x)) q -> ~ reached (vs_blob (w_stores wd)) [q] (rollup_key r0)) ->
  let ct := {| StateVersions.ct_oldest := w_stores wa; StateVersions.ct_head := w_stores wb; StateVersions.ct_recent := w_stores wc;
               StateVersions.ct_views := vs; StateVersions.ct_delete := w_stores wd |} in
  StateVersions.init_contended codecs build scan_limit ct shard x0 = None /\ (length (w_hist wa) + length vs <= length (w_hist w))%nat \/
  exists s x, StateVersions.init_contended codecs build scan_limit ct shard x0 = Some (Ret (s, Ok x)) /\ x ∈ w_hist w /\
    world_ok shard codecs {| w_hist := w_hist wd; w_log := w_log wd; w_earliest := w_earliest wd; w_stores := s |}.
Proof.
  intros H0w Ha Hb Hc Hs Hd Hread Hlim Hr0 Hown Hpart ct. pose proof (runs_ok D hashed shard codecs _ _ (init_ok _ _ _ H0w) Ha) as Hwa.
  pose proof (seen_runs D hashed shard codecs _ _ _ Hs) as Hl. assert (Hall : rtc step wa wd) by (etrans; [exact Hb|]; etrans; [exact Hc|]; by etrans).
  pose proof (runs_ok D hashed shard codecs _ _ Hwa Hall) as Hwd.
  destruct (runs_grow D hashed shard codecs _ _ Hd) as (Hpre & _).
  destruct (world_fetch D hashed shard codecs wa wb wc vs w build scan_limit Hwa Hb Hc Hs Hread Hlim) as (live & Hlive & [[Hf Hn]|(m & x & Hf & Hx & Hm)]);
    unfold StateVersions.init_contended; cbn [StateVersions.ct_oldest StateVersions.ct_head StateVersions.ct_recent StateVersions.ct_views StateVersions.ct_delete ct]; rewrite Hlive, Hf; [by left|right].
  pose proof (prefix_lookup_Some _ _ _ _ Hx Hpre) as Hxd. cbn [obind]. unfold UntypedState.check_codecs. cbn [us_state us_codecs]. rewrite (rh_shard _ _ _ (wo_recorded _ _ _ Hwd) _ _ Hxd).
  rewrite !bool_decide_eq_true_2 by done. cbn [assert_ obind negb]. rewrite Hr0. cbn [obind]. eexists _, x. split; [done|]. split; [by eapply list_elem_of_lookup_2|].
  destruct (StateVersions.should_delete_rollup r0 (Ok x)) eqn:Edel; [|by destruct wd]. apply delete_unused; [done| |intros i z q Hz _ Hq; apply (Hpart z q); [by eapply list_elem_of_lookup_2|done]].
  intros cur Hcur Hin. rewrite last_lookup in Hcur. pose proof (Hown _ _ Hcur Hin) as H0x. apply list_elem_of_fmap in Hin as (r & Er & Hin).
  apply list_elem_of_fmap in Hin as ([n' r'] & -> & Hin). cbn [snd] in Er.
  assert (Hin0 : rollup_key r' ∈ rollup_names x0) by (rewrite <- Er; eapply rollup_named; by apply latest_in).
  assert (Hinx : (n', r') ∈ rollups_of x) by (eapply (rollup_back (w_hist wd) (wo_keyed _ _ _ Hwd) 0 m _ x0 x cur n' r' H0x Hxd Hcur); [apply lookup_lt_Some in Hxd; lia|done|done]).
  apply negb_true_iff, not_true_iff_false in Edel. apply Edel. apply existsb_exists. exists r'. split; [apply list_elem_of_In, list_elem_of_fmap; by exists (n', r')|].
  by apply bool_decide_eq_true.
Qed.

End runs.

Section deletes.
Context {T : Type} `{Timely T} {Version : Type} `{UuidCodec} `{B : !Blob (Object T Version)} `{BL : !BlobLaws (Object T Version)} (shard : ShardId).

(** C23: deleting parts deletes exactly the blobs below them, through runs of
    any depth, and nothing else; and a deletion that was interrupted after any
    number of blobs can be started over: it does not panic, and leaves the
    same blobs as one that was never interrupted, because a run goes only
    after all that it lists. *)
Theorem delete_resumes blob (parts : list (RunPart T)) W fuel n : bl_ok blob -> forest (Version := Version) shard blob parts W ->
  let d := foldl (fun d q => (PartDeletes.add d q).1) PartDeletes.default parts in (weight W d <= fuel)%nat ->
  exists blob' order blob'' order', PartDeletes.delete (T := T) (Version := Version) shard fuel blob d = Some (Ret (blob', order)) /\
    PartDeletes.delete (T := T) (Version := Version) shard fuel (foldl (PartDeletes.delete_key (T := T) (Version := Version) shard) blob (take n order)) d =
      Some (Ret (blob'', order')) /\
    (forall key, bl_get blob'' key = bl_get blob' key) /\
    (forall c, reached shard blob parts c -> at_key (Version := Version) shard blob' c = None) /\
    (forall c, ~ reached shard blob parts c -> at_key (Version := Version) shard blob' c = at_key shard blob c).
Proof.
  intros Hb Hf d Hw. destruct (delete_again shard blob parts W fuel n Hb Hf Hw) as (blob' & order & blob'' & order' & H1 & H2 & H3).
  destruct (delete_ok shard blob parts W fuel Hf Hb Hw) as (ls & rk & Hsw & He). fold d in H1, He. rewrite H1 in He. injection He as -> ->.
  eexists _, _, blob'', order'. split_and!; try done.
  - intros c Hc. by apply (deleted_reached shard blob parts W ls rk).
  - intros c Hc. rewrite get_deleted by done. case_decide as Hin; [|done]. destruct Hc. by apply (deleted_reached shard blob parts W ls rk c Hf Hb Hsw).
Qed.
End deletes.

(** ** On the example *)

Abbreviation ex_world_step := (world_step (T := N) (Version := version) (K := bool) (V := bool) Z ex_hashed ex_shard ex_codecs) (only parsing).

Lemma runs_keep_live_witness : exists cur, last (w_hist (ex_w 12)) = Some cur /\
  log_of ex_shard (w_stores (ex_w 12)) = drop (w_earliest (ex_w 12)) (w_log (ex_w 12)) /\ diff_log (w_hist (ex_w 12)) (w_log (ex_w 12)) /\
  BTree.contains (Z.of_nat (w_earliest (ex_w 12))) (rollups_of cur) = true /\
  (forall n r, (n, r) ∈ rollups_of cur -> exists y o, w_hist (ex_w 12) !! Z.to_nat n = Some y /\ rollup_blob ex_shard (w_stores (ex_w 12)) r = Some o /\ rollup_of ex_codecs y o) /\
  forall i x q c, w_hist (ex_w 12) !! i = Some x -> (w_earliest (ex_w 12) <= i)%nat -> refs_of (Trace.batches (trace_of x)) q ->
    reached (Version := version) ex_shard (vs_blob (w_stores (ex_w 12))) [q] c -> is_Some (at_key (T := N) (Version := version) ex_shard (vs_blob (w_stores (ex_w 12))) c).
Proof. exact (runs_keep_live Z ex_hashed ex_shard ex_codecs (ex_w 0) (ex_w 12) ex_world_init ex_whole). Defined.

Lemma ex_readable_12 : readable ex_version (w_hist (ex_w 12)).
Proof. apply ex_readable. vm_compute. reflexivity. Qed.

(** One turn, that sees the example at its end. *)
Definition ex_view : StateVersions.View (T := N) (Version := version) :=
  {| StateVersions.vw_rollup := w_stores (ex_w 12); StateVersions.vw_oldest := w_stores (ex_w 12);
     StateVersions.vw_head := w_stores (ex_w 12); StateVersions.vw_recent := w_stores (ex_w 12) |}.

Lemma ex_seen w : rtc ex_world_step w (ex_w 12) -> seen (K := bool) (V := bool) Z ex_hashed ex_shard ex_codecs w [ex_view] (ex_w 12).
Proof. intros Hr. by eapply (seen_cons _ _ _ _ w (ex_w 12) (ex_w 12) (ex_w 12) (ex_w 12)); [|reflexivity..|constructor]. Qed.

Lemma fetch_current_recent_witness : exists live,
  StateVersions.fetch_recent_live_diffs ex_version 2 (w_stores (ex_w 7)) (w_stores (ex_w 7)) (w_stores (ex_w 12)) ex_shard = Ret live /\
  (StateVersions.fetch_current_state ex_codecs ex_version 2 [ex_view] ex_shard live = None /\ (length (w_hist (ex_w 7)) + 1 <= length (w_hist (ex_w 12)))%nat \/
   exists m x, StateVersions.fetch_current_state ex_codecs ex_version 2 [ex_view] ex_shard live = Some (Ret {| us_codecs := ex_codecs; us_state := x |}) /\
     w_hist (ex_w 12) !! m = Some x /\ (pred (length (w_hist (ex_w 7))) <= m)%nat).
Proof.
  exact (fetch_current_recent Z ex_hashed ex_shard ex_codecs ex_version 2 (ex_w 0) (ex_w 7) (ex_w 7) (ex_w 12) [ex_view] (ex_w 12) ex_world_init ex_to_7
    (rtc_refl _ _) ex_to_12 (ex_seen (ex_w 12) (rtc_refl _ _)) ex_readable_12 ltac:(lia)).
Defined.

Definition ex_state_at (n : nat) : State N version := match w_hist (ex_w 12) !! n with Some x => x | None => ex_empty end.

Lemma ex_state_lookup n : (n <? length (w_hist (ex_w 12)))%nat = true -> w_hist (ex_w 12) !! n = Some (ex_state_at n).
Proof. intros Hn%Nat.ltb_lt. unfold ex_state_at. destruct (lookup_lt_is_Some_2 _ _ Hn) as [x ->]. done. Qed.

Lemma cache_refreshed_witness :
  StateVersions.fetch_and_update_state ex_codecs ex_version 2 (w_stores (ex_w 12)) [ex_view] ex_shard None (ex_state_at 2) (ex_state_at 2) (ex_state_at 2) = None /\
    (length (w_hist (ex_w 12)) + 1 <= length (w_hist (ex_w 12)))%nat \/
  exists i' y, StateVersions.fetch_and_update_state ex_codecs ex_version 2 (w_stores (ex_w 12)) [ex_view] ex_shard None (ex_state_at 2) (ex_state_at 2) (ex_state_at 2) = Some (Ret y) /\
    w_hist (ex_w 12) !! i' = Some y /\ (2 <= i')%nat /\ (True -> 2%nat = 2%nat -> (pred (length (w_hist (ex_w 12))) <= i')%nat).
Proof.
  assert (Hl : w_hist (ex_w 12) !! 2%nat = Some (ex_state_at 2)) by (apply ex_state_lookup; vm_compute; reflexivity).
  apply (cache_refreshed Z ex_hashed ex_shard ex_codecs ex_version 2 (ex_w 0) (ex_w 12) [ex_view] (ex_w 12) None 2 2 2 (ex_state_at 2) (ex_state_at 2) (ex_state_at 2));
    [exact ex_world_init|exact ex_whole|exact (ex_seen (ex_w 12) (rtc_refl _ _))|exact ex_readable_12|lia|exact Hl|exact Hl|exact Hl|lia|].
  apply Nat.ltb_lt. vm_compute. reflexivity.
Defined.

Lemma rollup_replays_witness :
  StateVersions.write_rollup_for_state ex_codecs (w_stores (ex_w 12)) (ex_state_at 5) (ex_rollup_id 8 eq_refl) =
    Ret (StateVersions.write_rollup_blob (w_stores (ex_w 12)) (written_rollup ex_codecs ex_shard (w_log (ex_w 12)) (ex_state_at 5) 1 5 (ex_rollup_id 8 eq_refl)),
         Some (written_rollup ex_codecs ex_shard (w_log (ex_w 12)) (ex_state_at 5) 1 5 (ex_rollup_id 8 eq_refl))) /\
  exists ds, er_buf (written_rollup ex_codecs ex_shard (w_log (ex_w 12)) (ex_state_at 5) 1 5 (ex_rollup_id 8 eq_refl)) =
      ObjRollup {| ro_state := {| us_codecs := ex_codecs; us_state := ex_state_at 5 |};
                   ro_diffs := Some {| id_lower := 2; id_upper := 6; id_diffs := ds |} |} /\
    ApplyDiff.apply_encoded_diffs ex_version ds (ex_state_at 1) = Ret (ex_state_at 5).
Proof.
  assert (Hk : (w_earliest (ex_w 12) <= 2)%nat) by (apply Nat.leb_le; vm_compute; reflexivity).
  destruct (rollup_replays Z ex_hashed ex_shard ex_codecs ex_version (ex_w 0) (ex_w 12) (ex_state_at 5) (ex_state_at 1) 1 5 (ex_rollup_ref 1 (ex_rollup_id 6 eq_refl))
    (ex_rollup_id 8 eq_refl) ex_world_init ex_whole ex_readable_12 (ex_state_lookup 5 ltac:(vm_compute; reflexivity)) ltac:(vm_compute; reflexivity)
    (ex_state_lookup 1 ltac:(vm_compute; reflexivity)) ltac:(lia)) as [Hw Hr]. split; [|exact Hr].
  rewrite Hw. destruct (decide _) as [|Hn]; [reflexivity|destruct (Hn Hk)].
Defined.

Lemma ex_apart_12 : ex_apart (w_hist (ex_w 12)) = true.
Proof. vm_compute. reflexivity. Qed.

Lemma ex_light i j : (i < j < length (w_hist (ex_w 12)))%nat -> (weight (fun _ => 1%nat) (found (w_log (ex_w 12)) i j).1 <= 10)%nat.
Proof.
  intros Hij. rewrite (ex_no_weight (w_hist (ex_w 12)) (w_log (ex_w 12)) i j ex_apart_12 (wo_recorded _ _ _ ex_ok_12) (wo_keyed _ _ _ ex_ok_12) Hij). lia.
Qed.

Lemma ex_last_12 : last (w_hist (ex_w 12)) = Some (ex_last (ex_w 12)).
Proof.
  unfold ex_last. assert (Hs : (match last (w_hist (ex_w 12)) with Some _ => true | None => false end) = true) by (vm_compute; reflexivity).
  by destruct (last (w_hist (ex_w 12))).
Qed.

Lemma gc_collects_witness : exists s' res j remove,
  GarbageCollector.gc_and_truncate ex_version 10 ex_shard ex_req (ex_last (ex_w 12)) (ex_last (ex_w 12))
    (fun g => GarbageCollector.active_states ex_codecs ex_version 2 g ex_req (w_stores (ex_w 12)) (replicate 10 (w_stores (ex_w 12))) (w_stores (ex_w 12))) (w_stores (ex_w 12)) =
    Some (Ret (s', res, Some remove)) /\
  last_due (ex_last (ex_w 12)) 6 j /\ log_of ex_shard s' = drop j (w_log (ex_w 12)) /\ forall e, e ∈ remove -> e.1 < Z.of_nat j.
Proof.
  destruct (gc_collects Z ex_hashed ex_shard ex_codecs ex_version 2 (ex_w 0) (ex_w 12) (ex_last (ex_w 12)) ex_req 10 (fun _ => 1%nat) 10 ex_world_init ex_whole ex_readable_12
    ltac:(lia) ex_last_12 eq_refl ltac:(vm_compute; split; discriminate) ltac:(vm_compute; reflexivity) (ex_sound _ _ ex_apart_12) ex_light)
    as (s' & res & j & remove & He & Hdue & Hlog & _ & _ & _ & Hrm).
  exists s', res, j, remove. exact (conj He (conj Hdue (conj Hlog Hrm))).
Defined.

(** The example after a collection. *)
Lemma ex_collected : exists w, rtc ex_world_step (ex_w 0) w /\ w_hist w = w_hist (ex_w 12) /\ w_earliest w = 5%nat.
Proof.
  pose proof (wo_recorded _ _ _ ex_ok_12) as Hrec.
  assert (Hlen : length (w_hist (ex_w 12)) = 8%nat) by (vm_compute; reflexivity).
  destruct (iter_first ex_version ex_shard _ _ Hrec ex_readable_12 8 0 (ex_state_at 0) ltac:(lia) (ex_state_lookup 0 ltac:(vm_compute; reflexivity))) as (it & Hnew & _).
  destruct (collect_possible Z ex_hashed ex_shard ex_codecs (ex_w 12) ex_version 10 (fun _ => 1%nat) (ex_last (ex_w 12)) 6 8 0 5 it) as (w & Hs & Hh & Hk);
    [exact ex_ok_12|apply last_Some_elem_of; exact ex_last_12|exact ex_readable_12| |lia|lia| | |exact (ex_sound _ _ ex_apart_12)|apply ex_light; lia|].
  - right. unfold StateVersionsIter.new in Hnew. apply obind_Ret in Hnew as (_ & _ & [= <-]). split; [|done]. apply ex_state_lookup. vm_compute. reflexivity.
  - eapply bool_decide_eq_true_1. vm_compute. reflexivity.
  - eapply bool_decide_eq_true_1. vm_compute. reflexivity.
  - exists w. split; [eapply rtc_r; [exact ex_whole|exact Hs]|]. split; [done|]. rewrite Hk. vm_compute. reflexivity.
Qed.

Lemma stale_collector_panics_witness : exists w : World (T := N) (Version := version),
  let req := {| State.gc_shard_id := ex_shard; State.gc_new_seqno_since := 3 |} in
  GarbageCollector.gc_and_truncate ex_version 10 ex_shard req (ex_last (ex_w 12)) (ex_last (ex_w 12))
    (fun g => GarbageCollector.active_states ex_codecs ex_version 2 g req (w_stores w) (replicate 1 (w_stores w)) (w_stores w)) (w_stores w) = Some Panic.
Proof.
  destruct ex_collected as (w & Hr & Hh & Hk). exists w.
  apply (stale_collector_panics Z ex_hashed ex_shard ex_codecs ex_version 2 (ex_w 0) w (ex_last (ex_w 12)) 3 0 10);
    [exact ex_world_init|exact Hr|lia|rewrite Hk; lia|vm_compute; discriminate|apply Nat.ltb_lt; vm_compute; reflexivity].
Defined.

(** Keys that are not in use. *)
Lemma ex_unnamed (hist : list (State N version)) key x : forallb (fun x => negb (bool_decide (key ∈ rollup_names x))) hist = true -> x ∈ hist -> key ∉ rollup_names x.
Proof. intros Hall Hx. rewrite forallb_forall in Hall. by apply list_elem_of_In, Hall, negb_true_iff, bool_decide_eq_false in Hx. Qed.

Lemma ex_unreached (hist : list (State N version)) blob key : ex_apart hist = true ->
  forallb (fun x => forallb (fun k => negb (bool_decide (k = key))) (trace_keys (trace_of x))) hist = true ->
  forall x q, x ∈ hist -> refs_of (Trace.batches (trace_of x)) q -> ~ reached (T := N) (Version := version) ex_shard blob [q] key.
Proof.
  intros [Hnr _]%andb_true_iff Hparts x q Hx (h & Hh & Hq) Hre. rewrite forallb_forall in Hnr, Hparts. pose proof Hx as Hx'.
  apply list_elem_of_In, Hnr in Hx'. rewrite forallb_forall in Hx'. pose proof Hh as Hh'. apply list_elem_of_In, Hx' in Hh'. unfold no_runs in Hh'. rewrite forallb_forall in Hh'.
  apply reached_single in Hre; [|by apply Hh', list_elem_of_In]. apply list_elem_of_In, Hparts in Hx. rewrite forallb_forall in Hx.
  assert (Hin : key ∈ trace_keys (trace_of x)) by (apply in_trace_keys; by exists h, q).
  by apply list_elem_of_In, Hx, negb_true_iff, bool_decide_eq_false in Hin.
Qed.

(** A process with another rollup loses the race. *)
Definition ex_loser : State N version :=
  match Machine.write_initial_rollup ex_version ex_shard "host" 999 (ex_rollup_id 9 eq_refl) with Ret x => x | Panic => ex_empty end.

Lemma lost_race_cleaned_witness :
  let ct := {| StateVersions.ct_oldest := w_stores (ex_w 12); StateVersions.ct_head := w_stores (ex_w 12); StateVersions.ct_recent := w_stores (ex_w 12);
               StateVersions.ct_views := [ex_view]; StateVersions.ct_delete := w_stores (ex_w 12) |} in
  StateVersions.init_contended ex_codecs ex_version 2 ct ex_shard ex_loser = None /\ (length (w_hist (ex_w 12)) + 1 <= length (w_hist (ex_w 12)))%nat \/
  exists s x, StateVersions.init_contended ex_codecs ex_version 2 ct ex_shard ex_loser = Some (Ret (s, Ok x)) /\ x ∈ w_hist (ex_w 12) /\
    world_ok ex_shard ex_codecs {| w_hist := w_hist (ex_w 12); w_log := w_log (ex_w 12); w_earliest := w_earliest (ex_w 12); w_stores := s |}.
Proof.
  assert (Hnone : forallb (fun x => negb (bool_decide (PartialRollupKey_new 0 (ex_rollup_id 9 eq_refl) ∈ rollup_names x))) (w_hist (ex_w 12)) = true) by (vm_compute; reflexivity).
  assert (Hparts : forallb (fun x => forallb (fun k => negb (bool_decide (k = PartialRollupKey_new 0 (ex_rollup_id 9 eq_refl)))) (trace_keys (trace_of x))) (w_hist (ex_w 12)) = true)
    by (vm_compute; reflexivity).
  apply (lost_race_cleaned Z ex_hashed ex_shard ex_codecs ex_version 2 (ex_w 0) (ex_w 12) (ex_w 12) (ex_w 12) [ex_view] (ex_w 12) (ex_w 12) ex_loser
    {| rollup_key := PartialRollupKey_new 0 (ex_rollup_id 9 eq_refl); rollup_encoded_size_bytes := None |} ex_world_init ex_whole (rtc_refl _ _) (rtc_refl _ _)
    (ex_seen (ex_w 12) (rtc_refl _ _)) (rtc_refl _ _) ex_readable_12 ltac:(lia)); [vm_compute; reflexivity| |].
  - intros i x Hx Hin. destruct (ex_unnamed _ _ x Hnone (list_elem_of_lookup_2 _ _ _ Hx) Hin).
  - exact (ex_unreached _ _ _ ex_apart_12 Hparts).
Defined.

(** *** A run within a run *)

Definition ex_ref (key : string) : RunPart N := Many {|
  hrr_key := String.list_ascii_of_string key; hrr_hollow_bytes := 100; hrr_max_part_bytes := 100; hrr_key_lower := [];
  hrr_structured_key_lower := None; hrr_diffs_sum := None |}.

Definition ex_nested : @bl_store (Object N version) ex_blob :=
  foldl (fun b (kv : string * Object N version) => MemBlob.set b (ex_key kv.1) kv.2) {| mb_dataz := []; mb_tombstone := false |}
    [("r1"%string, ObjRun [ex_ref "r2"; ex_part "p1" []]); ("r2"%string, ObjRun [ex_part "p0" []]); ("p0"%string, ObjData []); ("p1"%string, ObjData []); ("p2"%string, ObjData [])].

Lemma ex_nested_ok : bl_ok ex_nested.
Proof. unfold ex_nested. cbn [foldl]. do 5 apply mem_set_ok. by split; [|constructor]. Qed.

Definition ex_weight (k : str) : nat := if bool_decide (k = String.list_ascii_of_string "r1") then 2%nat else 1%nat.

Lemma ex_forest : forest (T := N) (Version := version) ex_shard ex_nested [ex_ref "r1"] ex_weight.
Proof.
  assert (Hall : forall q, under (T := N) (Version := version) ex_shard ex_nested [ex_ref "r1"] q -> q ∈ [ex_ref "r1"; ex_ref "r2"; ex_part "p1" []; ex_part "p0" []]).
  { induction 1 as [q Hq|r parts q _ IH Hp Hq]; [apply list_elem_of_singleton in Hq as ->; by left|].
    repeat (apply elem_of_cons in IH as [IH|IH]; [|]); [..|by apply not_elem_of_nil in IH]; try discriminate IH; injection IH as ->; vm_compute in Hp; injection Hp as <-.
    - apply elem_of_cons in Hq as [->|Hq]; [by right; left|]. apply list_elem_of_singleton in Hq as ->. by right; right; left.
    - apply list_elem_of_singleton in Hq as ->. by right; right; right; left. }
  assert (Hmany : forall r, under (T := N) (Version := version) ex_shard ex_nested [ex_ref "r1"] (Many r) -> Many r = ex_ref "r1" \/ Many r = ex_ref "r2").
  { intros r Hr%Hall. repeat (apply elem_of_cons in Hr as [Hr|Hr]; [tauto|discriminate Hr|]) || idtac.
    apply elem_of_cons in Hr as [Hr|Hr]; [by left|]. apply elem_of_cons in Hr as [Hr|Hr]; [by right|].
    apply elem_of_cons in Hr as [Hr|Hr]; [discriminate Hr|]. apply list_elem_of_singleton in Hr. discriminate Hr. }
  split.
  - intros r o [E|E]%Hmany Ho; injection E as ->; vm_compute in Ho; injection Ho as <-; by eexists.
  - intros x r Hx%Hall [E|E]%Hmany; injection E as ->; repeat (apply elem_of_cons in Hx as [Hx|Hx]; [try discriminate Hx; injection Hx as ->; vm_compute; discriminate|]); by apply not_elem_of_nil in Hx.
  - intros k. unfold ex_weight. case_bool_decide; lia.
  - intros r parts [E|E]%Hmany Hp; injection E as ->; vm_compute in Hp; injection Hp as <-; vm_compute; lia.
Qed.

Lemma delete_resumes_witness :
  let d := foldl (fun d (q : RunPart N) => (PartDeletes.add d q).1) PartDeletes.default [ex_ref "r1"] in
  exists blob' order blob'' order', PartDeletes.delete (T := N) (Version := version) ex_shard 10 ex_nested d = Some (Ret (blob', order)) /\
    PartDeletes.delete (T := N) (Version := version) ex_shard 10 (foldl (PartDeletes.delete_key (T := N) (Version := version) ex_shard) ex_nested (take 2 order)) d =
      Some (Ret (blob'', order')) /\
    (forall key, bl_get blob'' key = bl_get blob' key) /\
    (forall c, reached (T := N) (Version := version) ex_shard ex_nested [ex_ref "r1"] c -> at_key (T := N) (Version := version) ex_shard blob' c = None) /\
    (forall c, ~ reached (T := N) (Version := version) ex_shard ex_nested [ex_ref "r1"] c -> at_key (T := N) (Version := version) ex_shard blob' c = at_key (T := N) (Version := version) ex_shard ex_nested c).
Proof.
  refine (delete_resumes (T := N) (Version := version) ex_shard ex_nested [ex_ref "r1"] ex_weight 10 2 ex_nested_ok ex_forest _).
  apply Nat.leb_le. vm_compute. reflexivity.
Defined.
