(* ===== verification/MigrateProps.v ===== *)
(** * The property of schema migrations

    The theorem that a migration reads every row at the new type, and a
    concrete kind of array that obeys the laws of [ArrowLaws], on which it is
    applied to a struct that loses a field, gains one and has a nested list
    changed. *)

From S2P Require Import Prelude Compare Schema Migrate MigrateFacts.

Local Open Scope nat_scope.

(** ** Arrays as trees of columns *)

Inductive Arr :=
| ALeaf (t : DataType) (rows : list Value)
| AStruct (n : nat) (fs : list Field) (cs : list Arr) (nulls : Nulls)
| AItems (f : Field) (map_sorted : option bool) (offsets : list nat) (c : Arr) (nulls : Nulls).

Definition arr_type (a : Arr) : DataType :=
  match a with
  | ALeaf t _ => t
  | AStruct _ fs _ _ => TStruct fs
  | AItems f None _ _ _ => TList f
  | AItems f (Some s) _ _ _ => TMap f s
  end.

Definition arr_len (a : Arr) : nat :=
  match a with
  | ALeaf _ rows => length rows
  | AStruct n _ _ _ => n
  | AItems _ _ offsets _ _ => pred (length offsets)
  end.

Fixpoint arr_row (a : Arr) (i : nat) : Value :=
  match a with
  | ALeaf _ rows => default VNull (rows !! i)
  | AStruct _ fs cs nulls =>
      if masked nulls i then VNull else VStruct (zip_with (fun f v => (f_name f, v)) fs (map (fun c => arr_row c i) cs))
  | AItems _ _ offsets c nulls =>
      if masked nulls i then VNull
      else match offsets !! i, offsets !! S i with
           | Some o, Some o' => VList (map (arr_row c) (seq o (o' - o)))
           | _, _ => VNull
           end
  end.

Definition leaf_type (t : DataType) : bool := match t with TStruct _ | TList _ | TMap _ _ => false | _ => true end.
Definition leaf_value (t : DataType) (v : Value) : bool :=
  match v with VNull => true | VLeaf _ => negb (bool_decide (t = TNull)) | _ => false end.
Definition is_null (v : Value) : bool := match v with VNull => true | _ => false end.
Definition nulls_fit (nulls : Nulls) (n : nat) : bool := match nulls with Some l => length l =? n | None => true end.
Definition column_fits (n : nat) (nulls : Nulls) (f : Field) (c : Arr) : bool :=
  bool_decide (arr_type c = f_type f) && (arr_len c =? n) &&
  (f_nullable f || forallb (fun i => negb (is_null (arr_row c i)) || masked nulls i) (seq 0 n)).
Fixpoint ascending (offsets : list nat) (bound : nat) : bool :=
  match offsets with
  | o :: ((o' :: _) as rest) => (o <=? o') && (o' <=? bound) && ascending rest bound
  | _ => true
  end.
Definition items_fit (f : Field) (offsets : list nat) (c : Arr) (nulls : Nulls) : bool :=
  negb (length offsets =? 0) && nulls_fit nulls (pred (length offsets)) && ascending offsets (arr_len c) &&
  bool_decide (arr_type c = f_type f) && (f_nullable f || forallb (fun i => negb (is_null (arr_row c i))) (seq 0 (arr_len c))).

Fixpoint all_fit (n : nat) (nulls : Nulls) (fs : list Field) (cs : list Arr) : bool :=
  match fs, cs with
  | [], [] => true
  | f :: fs, c :: cs => column_fits n nulls f c && all_fit n nulls fs cs
  | _, _ => false
  end.

Fixpoint valid (a : Arr) : bool :=
  match a with
  | ALeaf t rows => leaf_type t && forallb (leaf_value t) rows
  | AStruct n fs cs nulls => nulls_fit nulls n && all_fit n nulls fs cs && forallb valid cs
  | AItems f _ offsets c nulls => items_fit f offsets c nulls && valid c
  end.

Definition Tree : Type := { a : Arr | valid a = true }.
Definition tree (a : Arr) : option Tree := match Sumbool.sumbool_of_bool (valid a) with left H => Some (exist _ a H) | right _ => None end.

Fixpoint null_arr (t : DataType) (n : nat) : Arr :=
  match t with
  | TStruct fs => AStruct n fs (map (fun f => null_arr (f_type f) n) fs) (Some (replicate n true))
  | TList f => AItems f None (replicate (S n) 0) (null_arr (f_type f) 0) (Some (replicate n true))
  | TMap f s => AItems f (Some s) (replicate (S n) 0) (null_arr (f_type f) 0) (Some (replicate n true))
  | t => ALeaf t (replicate n VNull)
  end.

Lemma tree_some a : valid a = true -> exists t, tree a = Some t /\ proj1_sig t = a.
Proof. intros Hv. unfold tree. destruct (Sumbool.sumbool_of_bool (valid a)) as [H|H]; [by eexists|congruence]. Qed.

Section tree_ind.
Variable P : Arr -> Prop.
Hypothesis Hleaf : forall t rows, P (ALeaf t rows).
Hypothesis Hstruct : forall n fs cs nulls, Forall P cs -> P (AStruct n fs cs nulls).
Hypothesis Hitems : forall f s offsets c nulls, P c -> P (AItems f s offsets c nulls).

Fixpoint tree_ind' (a : Arr) : P a :=
  match a with
  | ALeaf t rows => Hleaf t rows
  | AStruct n fs cs nulls =>
      Hstruct n fs cs nulls ((fix go (l : list Arr) : Forall P l :=
        match l with [] => Forall_nil_2 _ | c :: l => Forall_cons_2 _ _ _ (tree_ind' c) (go l) end) cs)
  | AItems f s offsets c nulls => Hitems f s offsets c nulls (tree_ind' c)
  end.
End tree_ind.

(** ** What the checks mean *)

Lemma is_null_spec v : is_null v = true <-> v = VNull.
Proof. by destruct v. Qed.

Lemma column_fits_spec n nulls f c : column_fits n nulls f c = true <->
  arr_type c = f_type f /\ arr_len c = n /\ (f_nullable f = false -> forall i, i < n -> arr_row c i = VNull -> masked nulls i = true).
Proof.
  unfold column_fits. rewrite !andb_true_iff, orb_true_iff, bool_decide_eq_true, Nat.eqb_eq, forallb_forall. split.
  - intros [[Ht Hl] Hn]. split_and!; try done. intros Hf i Hi Hr. destruct Hn as [Hn|Hn]; [congruence|].
    specialize (Hn i ltac:(apply in_seq; lia)). rewrite Hr in Hn. done.
  - intros (Ht & Hl & Hn). split; [done|]. destruct (f_nullable f); [by left|right]. intros i Hi%in_seq. apply orb_true_iff.
    destruct (is_null (arr_row c i)) eqn:E; [right|by left]. apply is_null_spec in E. apply Hn; [done|lia|done].
Qed.

Lemma ascending_spec offsets bound : ascending offsets bound = true <->
  forall i o o', offsets !! i = Some o -> offsets !! S i = Some o' -> o <= o' <= bound.
Proof.
  induction offsets as [|o [|o' rest] IH]; [by split|split; [|done]; by intros _ [|i]|]. cbn [ascending] in *. rewrite !andb_true_iff, !Nat.leb_le, IH. split.
  - intros [[H1 H2] H3] [|i] x y Hx Hy; [cbn in *; simplify_eq; lia|]. by apply (H3 i).
  - intros Ha. split; [by apply (Ha 0)|]. intros i x y Hx Hy. by apply (Ha (S i)).
Qed.

Lemma nulls_fit_spec nulls n : nulls_fit nulls n = true <-> nulls_len nulls n.
Proof. destruct nulls; cbn; [apply Nat.eqb_eq|done]. Qed.

Lemma items_fit_spec f offsets c nulls : items_fit f offsets c nulls = true <->
  offsets <> [] /\ nulls_len nulls (pred (length offsets)) /\ (forall i o o', offsets !! i = Some o -> offsets !! S i = Some o' -> o <= o' <= arr_len c) /\
  arr_type c = f_type f /\ (f_nullable f = false -> forall i, i < arr_len c -> arr_row c i <> VNull).
Proof.
  unfold items_fit. rewrite !andb_true_iff, orb_true_iff, bool_decide_eq_true, nulls_fit_spec, ascending_spec, negb_true_iff, Nat.eqb_neq, forallb_forall. split.
  - intros [[[[H1 H2] H3] H4] H5]. split_and!; try done; [by intros ->|]. intros Hf i Hi Hr. destruct H5 as [H5|H5]; [congruence|].
    specialize (H5 i ltac:(apply in_seq; lia)). by rewrite Hr in H5.
  - intros (H1 & H2 & H3 & H4 & H5). split_and!; try done; [by destruct offsets|]. destruct (f_nullable f); [by left|right]. intros i Hi%in_seq.
    apply negb_true_iff, not_true_iff_false. intros E%is_null_spec. by apply (H5 eq_refl i); [lia|].
Qed.

(** ** The instance *)

Definition raw (t : Tree) : Arr := proj1_sig t.

#[export] Instance tree_arrow : Arrow := {|
  Array := Tree;
  data_type t := arr_type (raw t);
  array_len t := arr_len (raw t);
  row t := arr_row (raw t);
  struct_parts t := match raw t with AStruct _ fs cs nulls => (fun cs => (fs, cs, nulls)) <$> mapM tree cs | _ => None end;
  struct_new fs cs nulls := expect (tree (AStruct (match cs with c :: _ => arr_len (raw c) | [] => 0 end) fs (raw <$> cs) nulls));
  struct_new_empty n nulls := expect (tree (AStruct n [] [] nulls));
  list_parts t := match raw t with AItems f None offsets c nulls => (fun c => (f, offsets, c, nulls)) <$> tree c | _ => None end;
  map_parts t := match raw t with AItems f (Some _) offsets c nulls => (fun c => (f, offsets, c, nulls)) <$> tree c | _ => None end;
  list_new f offsets c nulls := expect (tree (AItems f None offsets (raw c) nulls));
  null_array n := match tree (ALeaf TNull (replicate n VNull)) with Some t => t | None => exist _ (ALeaf TNull []) eq_refl end;
  new_null_array ty n := match tree (null_arr ty n) with Some t => t | None => exist _ (ALeaf TNull []) eq_refl end;
|}.

Lemma all_fit_spec n nulls fs (cs : list Tree) : all_fit n nulls fs (raw <$> cs) = true <-> Forall2 (column_ok n nulls) fs cs.
Proof.
  revert cs. induction fs as [|f fs IH]; intros [|c cs]; cbn; try (by split; [done|inversion 1]).
  change (list_fmap _ _ raw cs) with (raw <$> cs). rewrite andb_true_iff, IH, column_fits_spec, Forall2_cons. done.
Qed.

Lemma struct_row_tree fs (cs : list Tree) nulls i n : arr_row (AStruct n fs (raw <$> cs) nulls) i = struct_row fs cs nulls i.
Proof.
  cbn [arr_row]. unfold struct_row. destruct (masked nulls i); [done|]. f_equal. revert cs. induction fs as [|f fs IH]; intros [|c cs]; try done.
  rewrite fmap_cons. cbn [map zip_with]. by rewrite IH.
Qed.

Lemma mapM_tree cs : forallb valid cs = true -> exists ts, mapM tree cs = Some ts /\ raw <$> ts = cs.
Proof.
  induction cs as [|c cs IH]; intros Hv; [by exists []|]. apply andb_prop in Hv as [Hc Hv]. destruct (tree_some c Hc) as (t & Ht & Hr), (IH Hv) as (ts & Hts & Hrs).
  exists (t :: ts). split; [cbn; rewrite Ht; cbn; by rewrite Hts|]. rewrite fmap_cons. unfold raw at 1. congruence.
Qed.

Lemma raws_valid (cs : list Tree) : forallb valid (raw <$> cs) = true.
Proof. apply forallb_forall. intros a ([a' Ha] & -> & _)%list_elem_of_In%list_elem_of_fmap. done. Qed.

Lemma arr_row_typed a : valid a = true -> forall i, i < arr_len a -> has_type (arr_type a) (arr_row a i).
Proof.
  induction a as [t rows|n fs cs nulls IH|f s offsets c nulls IH] using tree_ind'; intros Hv i Hi.
  - apply andb_prop in Hv as [Ht Hv]. rewrite forallb_forall in Hv. cbn in *. destruct (lookup_lt_is_Some_2 rows i Hi) as [v Ev]. rewrite Ev. cbn.
    specialize (Hv v (proj1 (list_elem_of_In _ _) (list_elem_of_lookup_2 _ _ _ Ev))). by destruct t, v.
  - cbn in Hv. apply andb_prop in Hv as [[_ Hf]%andb_prop Hv]. cbn [arr_type arr_row arr_len] in *. destruct (masked nulls i); [done|]. cbn [has_type].
    revert fs Hf. induction cs as [|c cs IHc]; intros [|f fs] Hf; try done. apply andb_prop in Hf as [Hfc Hf]. apply andb_prop in Hv as [Hvc Hv].
    apply Forall_cons in IH as [Hc IH]. apply column_fits_spec in Hfc as (Htc & Hlc & _). cbn [map zip_with fst snd]. split_and!; [done| |by apply IHc].
    rewrite <- Htc. apply Hc; [done|lia].
  - cbn in Hv. apply andb_prop in Hv as [Hf Hv]. apply items_fit_spec in Hf as (_ & _ & Ho & Ht & _). cbn [arr_type arr_row]. destruct (masked nulls i); [by destruct s|].
    destruct (offsets !! i) as [x|] eqn:Ex; [|by destruct s]. destruct (offsets !! S i) as [y|] eqn:Ey; [|by destruct s].
    assert (Hall : Forall (has_type (f_type f)) (map (arr_row c) (seq x (y - x)))); [|by destruct s].
    apply Forall_forall. intros v (j & <- & Hj%in_seq)%list_elem_of_In%in_map_iff. rewrite <- Ht. apply IH; [done|]. destruct (Ho i x y Ex Ey). lia.
Qed.

Lemma masked_all n i : i < n -> masked (Some (replicate n true)) i = true.
Proof. intros Hi. cbn. by rewrite lookup_replicate_2. Qed.

Lemma null_leaf_ok t n : leaf_type t = true -> valid (ALeaf t (replicate n VNull)) = true /\ arr_len (ALeaf t (replicate n VNull)) = n /\
  forall i, i < n -> arr_row (ALeaf t (replicate n VNull)) i = VNull.
Proof.
  intros Ht. cbn [valid arr_len arr_row]. rewrite Ht, length_replicate. split; [|split; [done|]; intros i Hi; by rewrite lookup_replicate_2].
  apply forallb_forall. intros v Hv%list_elem_of_In. apply elem_of_replicate in Hv as [-> _]. done.
Qed.

Lemma null_items_ok f s n c : valid c = true -> arr_type c = f_type f -> arr_len c = 0 ->
  let a := AItems f s (replicate (S n) 0) c (Some (replicate n true)) in valid a = true /\ arr_len a = n /\ forall i, i < n -> arr_row a i = VNull.
Proof.
  intros Hv Ht Hl a. split_and!; [|unfold a; cbn [arr_len]; by rewrite length_replicate|intros i Hi; cbn [a arr_row]; by rewrite masked_all].
  cbn [a valid]. rewrite Hv, andb_true_r. apply items_fit_spec. rewrite Hl, length_replicate. split_and!; try done; [cbn; by rewrite length_replicate| |intros _ i Hi; lia].
  intros i x y Hx%lookup_replicate_1 Hy%lookup_replicate_1. lia.
Qed.

Lemma null_arr_ok t n : valid (null_arr t n) = true /\ arr_type (null_arr t n) = t /\ arr_len (null_arr t n) = n /\ forall i, i < n -> arr_row (null_arr t n) i = VNull.
Proof.
  revert n. induction t as [|p|k|fs IH|f IH|f s IH|k] using type_ind'; intros n.
  all: try (by match goal with |- valid (null_arr ?t _) = true /\ _ => destruct (null_leaf_ok t n eq_refl) as (? & ? & ?) end).
  - cbn [null_arr arr_type arr_len]. split_and!; try done; [|intros i Hi; cbn [arr_row]; by rewrite masked_all]. cbn [valid nulls_fit]. rewrite length_replicate, Nat.eqb_refl. cbn [andb].
    apply andb_true_iff. split.
    + induction IH as [|f fs Hf _ IH]; [done|]. cbn [map all_fit]. rewrite IH, andb_true_r. destruct (Hf n) as (_ & Ht & Hl & _). apply column_fits_spec. split_and!; try done.
      intros _ i Hi _. by apply masked_all.
    + induction IH as [|f fs Hf _ IH]; [done|]. cbn [map forallb]. rewrite IH. by destruct (Hf n) as (-> & _).
  - destruct (null_items_ok f None n (null_arr (f_type f) 0)) as (? & ? & ?); [apply IH..|done].
  - destruct (null_items_ok f (Some s) n (null_arr (f_type f) 0)) as (? & ? & ?); [apply IH..|done].
Qed.

#[export] Instance tree_arrow_laws : ArrowLaws.
Proof.
  split.
  - intros [a Ha] i Hi. by apply arr_row_typed.
  - intros [[t rows|n fs cs nulls|f [s|] offsets c nulls] Ha] fs' Ht; cbn in Ht; try done.
    { exfalso. cbn [valid] in Ha. apply andb_prop in Ha as [Hl _]. by rewrite Ht in Hl. }
    injection Ht as ->. pose proof Ha as Ha'. cbn [valid] in Ha'. apply andb_prop in Ha' as [[Hn Hf]%andb_prop Hv]. destruct (mapM_tree cs Hv) as (ts & Hts & <-).
    exists ts, nulls. cbn [struct_parts tree_arrow raw proj1_sig]. rewrite Hts. split_and!; [done|by apply nulls_fit_spec|by apply all_fit_spec|]. intros i Hi. apply struct_row_tree.
  - intros n fs [|c cs] nulls Hne Hn Hcs; [done|].
    assert (Hl : arr_len (raw c) = n) by (inversion Hcs as [|f c' fs' cs' Hc _]; by apply Hc). cbn [struct_new tree_arrow]. rewrite Hl.
    destruct (tree_some (AStruct n fs (raw <$> c :: cs) nulls)) as (t & -> & Ht).
    { cbn [valid]. rewrite raws_valid, andb_true_r. apply andb_true_iff. split; [by apply nulls_fit_spec|by apply all_fit_spec]. }
    exists t. cbn [data_type array_len row tree_arrow]. unfold raw. rewrite Ht. split_and!; try done. intros i Hi. apply struct_row_tree.
  - intros n nulls Hn. cbn [struct_new_empty tree_arrow]. destruct (tree_some (AStruct n [] [] nulls)) as (t & -> & Ht).
    { cbn. rewrite andb_true_r. apply andb_true_iff. split; [by apply nulls_fit_spec|done]. }
    exists t. cbn [data_type array_len row tree_arrow]. unfold raw. rewrite Ht. by split_and!.
  - intros [[t rows|n fs cs nulls|f' [s|] offsets c nulls] Ha] f Ht; cbn in Ht; try done.
    { exfalso. cbn [valid] in Ha. apply andb_prop in Ha as [Hl _]. by rewrite Ht in Hl. }
    injection Ht as ->. pose proof Ha as Ha'. cbn [valid] in Ha'. apply andb_prop in Ha' as [Hf Hv]. destruct (tree_some c Hv) as (t & Et & <-). apply items_fit_spec in Hf.
    exists offsets, t, nulls. cbn [list_parts tree_arrow raw proj1_sig]. rewrite Et. split_and!; try done; [by apply Hf..|]. destruct Hf as (Hne & _). by destruct offsets.
  - by intros [[t rows|n fs cs nulls|f' [s'|] offsets c nulls] Ha] f s Ht; cbn in Ht.
  - intros [[t rows|n fs cs nulls|f' [s'|] offsets c nulls] Ha] f s Ht; cbn in Ht; try done.
    { exfalso. cbn [valid] in Ha. apply andb_prop in Ha as [Hl _]. by rewrite Ht in Hl. }
    injection Ht as -> ->. pose proof Ha as Ha'. cbn [valid] in Ha'. apply andb_prop in Ha' as [Hf Hv]. destruct (tree_some c Hv) as (t & Et & <-). apply items_fit_spec in Hf.
    exists offsets, t, nulls. cbn [map_parts tree_arrow raw proj1_sig]. rewrite Et. split_and!; try done; [by apply Hf..|]. destruct Hf as (Hne & _). by destruct offsets.
  - intros f offsets c nulls Hok. cbn [list_new tree_arrow]. destruct (tree_some (AItems f None offsets (raw c) nulls)) as (t & -> & Ht).
    { cbn [valid]. apply andb_true_iff. split; [by apply items_fit_spec|by destruct c]. }
    exists t. cbn [data_type array_len row tree_arrow]. unfold raw. rewrite Ht. split_and!; try done. destruct Hok as (Hne & _). by destruct offsets.
  - intros n. cbn [data_type array_len null_array tree_arrow]. destruct (null_leaf_ok TNull n eq_refl) as (Hv & Hl & _).
    destruct (tree_some _ Hv) as (t & -> & Ht). unfold raw. by rewrite Ht.
  - intros ty n. cbn [data_type array_len row new_null_array tree_arrow]. destruct (null_arr_ok ty n) as (Hv & H1 & H2 & H3). destruct (tree_some _ Hv) as (t & -> & Ht).
    unfold raw. by rewrite Ht.
Qed.

(** ** The properties *)

Section properties.
Context `{ArrowLaws}.

(** C15: running the migration that [backward_compatible] finds for two types
    never panics; the result has the new type and as many rows, and each row
    is the old one read at the new type: fields are matched by name, fields
    that are gone are left out, new ones are null, and what is nested in
    structs, lists and maps is read the same way.  Field names are distinct,
    and maps agree on whether they are sorted. *)
Theorem migrate_reads_at_new s old new m a : plain s old = true -> plain s new = true -> backward_compatible old new = Ret (Some m) -> data_type a = old ->
  exists a', migrate m a = Ret a' /\ data_type a' = new /\ array_len a' = array_len a /\ forall i, i < array_len a -> row a' i = project new old (row a i).
Proof. intros Ho Hn Hb Ht. exact (migrate_moves s new old m a Hn Ho Hb Ht). Qed.

(** C16: when [preserves_order] says so, the rows of the migrated array
    compare with each other exactly as the rows of the old one did, whatever
    the order of the leaves: sorted data stays sorted, and duplicates stay
    duplicates. *)
Theorem order_preserved (leaf_cmp : DataType -> list N -> list N -> comparison) s old new m a : plain s old = true -> plain s new = true ->
  ord_supported old = true -> ord_supported new = true -> backward_compatible old new = Ret (Some m) -> preserves_order m = true -> data_type a = old ->
  exists a', migrate m a = Ret a' /\ forall i j, i < array_len a -> j < array_len a ->
    row_cmp leaf_cmp new (row a' i) (row a' j) = row_cmp leaf_cmp old (row a i) (row a j).
Proof.
  intros Ho Hn Hso Hsn Hb Hp%negb_true_iff Ht. destruct (migrate_moves s new old m a Hn Ho Hb Ht) as (a' & Hm & _ & _ & Hrow). exists a'. split; [done|].
  intros i j Hi Hj. rewrite !Hrow by done. apply (project_cmp leaf_cmp s new old m); try done; rewrite <- Ht; by apply row_typed.
Qed.
End properties.

(** ** On an example *)

Definition ex_old_type : DataType := TStruct
  [mkField "id" (TPrim PUInt64) false; mkField "tags" (TList (mkField "item" (TPrim PInt64) false)) true; mkField "note" (TPrim PUtf8) true].
Definition ex_new_type : DataType := TStruct
  [mkField "id" (TPrim PUInt64) true; mkField "tags" (TList (mkField "item" (TPrim PInt64) true)) true; mkField "flag" (TPrim PBoolean) true].
Definition ex_wide_type : DataType := TStruct
  [mkField "id" (TPrim PUInt64) true; mkField "tags" (TList (mkField "item" (TPrim PInt64) true)) true; mkField "note" (TPrim PUtf8) true; mkField "flag" (TPrim PBoolean) true].

Definition ex_rows : @Array tree_arrow := exist (fun a => valid a = true) (AStruct 2
  [mkField "id" (TPrim PUInt64) false; mkField "tags" (TList (mkField "item" (TPrim PInt64) false)) true; mkField "note" (TPrim PUtf8) true]
  [ALeaf (TPrim PUInt64) [VLeaf [7%N]; VLeaf [9%N]];
   AItems (mkField "item" (TPrim PInt64) false) None [0; 2; 2] (ALeaf (TPrim PInt64) [VLeaf [1%N]; VLeaf [2%N]]) (Some [false; true]);
   ALeaf (TPrim PUtf8) [VNull; VLeaf [65%N]]] None) eq_refl.

Definition ex_migration (new : DataType) : ArrayMigration := match backward_compatible ex_old_type new with Ret (Some m) => m | _ => NoOp end.

Lemma migrate_reads_at_new_witness : exists a', migrate (ex_migration ex_new_type) ex_rows = Ret a' /\ data_type a' = ex_new_type /\ array_len a' = 2 /\
  forall i, i < 2 -> row a' i = project ex_new_type ex_old_type (row ex_rows i).
Proof. apply (migrate_reads_at_new false ex_old_type ex_new_type (ex_migration ex_new_type) ex_rows); reflexivity. Defined.

Lemma order_preserved_witness : exists a', migrate (ex_migration ex_wide_type) ex_rows = Ret a' /\ forall i j, i < 2 -> j < 2 ->
  row_cmp (fun _ => (list_cmp N.compare)) ex_wide_type (row a' i) (row a' j) = row_cmp (fun _ => (list_cmp N.compare)) ex_old_type (row ex_rows i) (row ex_rows j).
Proof. apply (order_preserved (fun _ => (list_cmp N.compare)) false ex_old_type ex_wide_type (ex_migration ex_wide_type) ex_rows); reflexivity. Defined.
