(* ===== verification/TxnCache.v ===== *)
(** * The cache of a txns shard (src/src/txn-wal/src/txn_cache.rs)

    Atomic writes to several shards go through a txns shard: it records which
    data shards are registered and which batches have been committed but not
    yet applied to their data shard.  [TxnsCacheState] is what a process knows
    of it.  Timestamps are [u64]s, as in all uses of the crate, and are kept
    decoded in the entries.  [soft] says whether soft assertions are enabled
    and [debug] whether debug assertions are.  The theorems are in
    [TxnCacheFacts]. *)

From S2P Require Import Prelude Timely BTree Paths Batch State.

Local Open Scope Z_scope.

#[export] Instance ShardId_ord : KeyOrd ShardId.
Proof. apply (uuid_keyord shard_uuid). by intros [] []; simpl; intros ->. Defined.

(** The order of pairs. *)
#[export] Instance pair_ord {A B} `{KeyOrd A} `{KeyOrd B} : KeyOrd (A * B).
Proof.
  refine {| key_ltb := fun x y => key_ltb x.1 y.1 || (bool_decide (x.1 = y.1) && key_ltb x.2 y.2) |}.
  - intros [a b]. simpl. by rewrite !key_irrefl, andb_false_r.
  - intros [a1 b1] [a2 b2] [a3 b3]. simpl. rewrite !orb_true_iff, !andb_true_iff, !bool_decide_eq_true.
    intros [H12|[-> H12]] [H23|[-> H23]]; [left; by eapply key_trans|by left|by left|right; split; [done|by eapply key_trans]].
  - intros [a1 b1] [a2 b2]. simpl. rewrite !orb_false_iff. intros [H1 H2] [H3 H4]. pose proof (key_total a1 a2 H1 H3). subst a2.
    rewrite bool_decide_true in H2, H4 by done. by rewrite (key_total b1 b2 H2 H4).
Defined.

(** [StepForward] for [u64]. *)
Definition step_forward (t : Z) : outcome Z := if t <? u64_max then Ret (t + 1) else Panic.

(** ** Entries (src/src/persist-types/src/txn.rs) *)

Inductive TxnsEntry :=
| Register (data_id : ShardId) (ts : Z)
| Append (data_id : ShardId) (ts : Z) (batch : str).

#[export] Instance TxnsEntry_eqdec : EqDecision TxnsEntry.
Proof. solve_decision. Defined.

Definition entry_data_id (e : TxnsEntry) : ShardId := match e with Register d _ | Append d _ _ => d end.
Definition entry_ts (e : TxnsEntry) : Z := match e with Register _ ts | Append _ ts _ => ts end.

Abbreviation Update := (TxnsEntry * Z * Z)%type.

(** What is known of [consolidate_updates] of the differential crate: it
    sorts the updates and adds up those of the same entry and time. *)
Class Consolidate : Type := { consolidate_updates : list Update -> list Update }.

Definition total (e : TxnsEntry) (t : Z) (l : list Update) : Z :=
  sumZ (snd <$> filter (fun u => u.1 = (e, t)) l).

Class ConsolidateLaws `{Consolidate} : Prop := {
  consolidate_total : forall l e t, total e t (consolidate_updates l) = total e t l;
  consolidate_distinct : forall l, NoDup (fst <$> consolidate_updates l);
  consolidate_nonzero : forall l u, u ∈ consolidate_updates l -> u.2 <> 0;
  (** updates of one entry are in order of time *)
  consolidate_sorted : forall l c1 c2 e t t' d d', consolidate_updates l = c1 ++ (e, t, d) :: c2 -> (e, t', d') ∈ c2 -> t <= t';
}.

(** [sort_by] on the times of the entries: stable. *)
Fixpoint insert_by_ts (u : Update) (l : list Update) : list Update :=
  match l with
  | [] => [u]
  | v :: l' => if entry_ts u.1.1 <=? entry_ts v.1.1 then u :: l else v :: insert_by_ts u l'
  end.
Definition sort_by_ts (l : list Update) : list Update := foldr insert_by_ts [] l.

(** ** State *)

Record DataRegistered := {
  register_ts : Z;
  forget_ts : option Z;
}.

Record DataTimes := {
  registered : list DataRegistered;
  writes : list Z;
}.

Definition DataTimes_default : DataTimes := {| registered := []; writes := [] |}.

Record TxnsCacheState := {
  init_ts : Z;
  progress_exclusive : Z;
  next_batch_id : Z;
  unapplied_batches : BTreeMap Z (ShardId * str * Z);
  batch_idx : gmap str Z;
  datas : BTreeMap ShardId DataTimes;
  unapplied_registers : list (ShardId * Z);
  only_data_id : option ShardId;
}.

(** ** What is read from the cache (src/src/txn-wal/src/txn_read.rs) *)

Record DataSnapshot := {
  ds_data_id : ShardId;
  latest_write : option Z;
  ds_as_of : Z;
  empty_to : Z;
}.

Inductive DataListenNext :=
| ReadDataTo (ts : Z)
| EmitLogicalProgress (ts : Z)
| WaitForTxnsProgress.

Record DataRemapEntry := {
  physical_upper : Z;
  logical_upper : Z;
}.

Record DataSubscribe := {
  sub_data_id : ShardId;
  sub_snapshot : option DataSnapshot;
  sub_remap : DataRemapEntry;
}.

Inductive Unapplied :=
| RegisterForget
| UnappliedBatch (batches : list str).

(** [DataSnapshot::validate] *)
Definition snapshot_valid (s : DataSnapshot) : bool :=
  match latest_write s with Some w => w <=? ds_as_of s | None => true end && (ds_as_of s <? empty_to s).

Module DataTimes.
Definition contains (r : DataRegistered) (ts : Z) : bool :=
  (register_ts r <=? ts) && match forget_ts r with Some x => ts <=? x | None => true end.

Definition last_reg (d : DataTimes) : outcome DataRegistered := expect (last (registered d)).
Definition first_reg (d : DataTimes) : outcome DataRegistered := expect (head (registered d)).

Definition latest_physical_ts (d : DataTimes) : outcome Z :=
  let! last_reg := last_reg d in
  let physical_ts := register_ts last_reg in
  let physical_ts := match forget_ts last_reg with Some f => Z.max physical_ts f | None => physical_ts end in
  Ret (match last (writes d) with Some w => Z.max physical_ts w | None => physical_ts end).

(** In order, from [prev] on. *)
Fixpoint ascending (prev : Z) (l : list Z) : bool :=
  match l with
  | [] => true
  | ts :: l => (prev <=? ts) && ascending ts l
  end.

(** Peels off the writes in an interval; [None]: one is before it. *)
Fixpoint peel (r : DataRegistered) (ws : list Z) : option (list Z) :=
  match ws with
  | [] => Some []
  | w :: ws' =>
      if w <? register_ts r then None
      else match forget_ts r with
           | Some f => if w <=? f then peel r ws' else Some ws
           | None => Some ws
           end
  end.

(** The writes after the last interval; [None]: an error. *)
Fixpoint check_regs (prev : Z) (rs : list DataRegistered) (ws : list Z) : option (list Z) :=
  match rs with
  | [] => Some ws
  | r :: rs =>
      if register_ts r <? prev then None
      else if match forget_ts r with Some f => negb (register_ts r <=? f) | None => false end then None
      else match peel r ws with
           | None => None
           | Some ws => check_regs (match forget_ts r with Some f => f | None => prev end) rs ws
           end
  end.

Definition validate (d : DataTimes) : bool :=
  ascending 0 (writes d) &&
  match check_regs 0 (registered d) (writes d), last (registered d) with
  | Some ws, Some reg_back =>
      negb (negb (match ws with [] => true | _ => false end) && match forget_ts reg_back with Some _ => true | None => false end)
  | _, _ => false
  end.
End DataTimes.

Module TxnsCacheState.
Section ops.
Context `{Consolidate} (soft debug : bool).
Implicit Types (s : TxnsCacheState) (data_id : ShardId) (ts : Z).

Definition soft_assert (b : bool) : outcome unit := if soft then assert_ b else Ret tt.
Definition debug_assert (b : bool) : outcome unit := if debug then assert_ b else Ret tt.

Definition new (init : Z) (only : option ShardId) : TxnsCacheState := {|
  init_ts := init; progress_exclusive := 0; next_batch_id := 0; unapplied_batches := []; batch_idx := ∅; datas := [];
  unapplied_registers := []; only_data_id := only |}.

Definition assert_only_data_id s data_id : outcome unit :=
  match only_data_id s with Some only => assert_ (bool_decide (data_id = only)) | None => Ret tt end.

Definition is_none {A} (o : option A) : bool := match o with None => true | Some _ => false end.

Definition registered_at_progress s data_id ts : outcome bool :=
  let! _ := assert_only_data_id s data_id in
  let! _ := assert_ (progress_exclusive s =? ts) in
  match BTree.get data_id (datas s) with
  | None => Ret false
  | Some data_times => let! r := DataTimes.last_reg data_times in Ret (is_none (forget_ts r))
  end.

Definition all_registered_at_progress s ts : outcome (list ShardId) :=
  let! _ := assert_ (bool_decide (only_data_id s = None)) in
  let! _ := assert_ (progress_exclusive s =? ts) in
  foldM (fun acc kv => let! r := DataTimes.last_reg kv.2 in Ret (if is_none (forget_ts r) then acc ++ [kv.1] else acc)) (datas s) [].

Definition min_batch_ts s : Z :=
  match BTree.first_key_value (unapplied_batches s) with Some (_, (_, _, ts)) => ts | None => progress_exclusive s end.

Definition data_snapshot s data_id (as_of : Z) : outcome DataSnapshot :=
  let! _ := assert_only_data_id s data_id in
  let! _ := assert_ (as_of <? progress_exclusive s) in
  let! next := step_forward as_of in
  let empty_to := Z.max next (init_ts s) in
  match BTree.get data_id (datas s) with
  | None => Ret {| ds_data_id := data_id; latest_write := None; ds_as_of := as_of; empty_to := empty_to |}
  | Some all =>
      let min_unapplied_ts := min_batch_ts s in
      let latest_write := find (fun x => (x <=? as_of) && (min_unapplied_ts <=? x)) (rev (writes all)) in
      let ret := {| ds_data_id := data_id; latest_write := latest_write; ds_as_of := as_of; empty_to := empty_to |} in
      let! _ := assert_ (snapshot_valid ret) in
      Ret ret
  end.

Definition data_listen_next s data_id ts : outcome DataListenNext :=
  let! _ := assert_only_data_id s data_id in
  let! _ := assert_ (ts <=? progress_exclusive s) in
  let! _ := assert_ (init_ts s <=? ts) in
  match BTree.get data_id (datas s) with
  | None => Ret (if ts <? progress_exclusive s then ReadDataTo (progress_exclusive s) else WaitForTxnsProgress)
  | Some data_times =>
      let! physical_ts := DataTimes.latest_physical_ts data_times in
      let! last_reg := DataTimes.last_reg data_times in
      if progress_exclusive s <=? ts then Ret WaitForTxnsProgress
      else if ts <=? physical_ts then let! next := step_forward physical_ts in Ret (ReadDataTo next)
      else if is_none (forget_ts last_reg) then
        let! _ := assert_ (DataTimes.contains last_reg ts) in
        Ret (EmitLogicalProgress (progress_exclusive s))
      else
        let! _ := assert_ ((register_ts last_reg <? ts) && negb (is_none (forget_ts last_reg))) in
        Ret (ReadDataTo (progress_exclusive s))
  end.

Definition data_subscribe s data_id (as_of : Z) : outcome DataSubscribe :=
  let! _ := assert_only_data_id s data_id in
  let! _ := assert_ (as_of <? progress_exclusive s) in
  let! snapshot := data_snapshot s data_id as_of in
  Ret {| sub_data_id := data_id; sub_snapshot := Some snapshot;
         sub_remap := {| physical_upper := empty_to snapshot; logical_upper := empty_to snapshot |} |}.

Definition min_unapplied_ts_inner s : Z :=
  Z.min (min_batch_ts s) (match unapplied_registers s with (_, ts) :: _ => ts | [] => progress_exclusive s end).

Definition min_unapplied_ts s : outcome Z :=
  let! _ := assert_ (bool_decide (only_data_id s = None)) in Ret (min_unapplied_ts_inner s).

(** The unapplied batches by time and shard. *)
Definition group_batches (bs : list (ShardId * str * Z)) : BTreeMap (Z * ShardId) (list str) :=
  foldl (fun accum b => let '(data_id, batch, ts) := b in
    BTree.insert (ts, data_id) (default [] (BTree.get (ts, data_id) accum) ++ [batch]) accum) [] bs.

(** [merge_by] of itertools: takes from the left as long as its times are
    not later. *)
Fixpoint merge_by (l r : list (ShardId * Unapplied * Z)) : list (ShardId * Unapplied * Z) :=
  match l with
  | [] => r
  | x :: l' =>
      (fix go r := match r with
                   | [] => l
                   | y :: r' => if x.2 <=? y.2 then x :: merge_by l' r else y :: go r'
                   end) r
  end.

Definition unapplied s : outcome (list (ShardId * Unapplied * Z)) :=
  let! _ := assert_ (bool_decide (only_data_id s = None)) in
  let registers := (fun r => (r.1, RegisterForget, r.2)) <$> unapplied_registers s in
  let batches := (fun g : Z * ShardId * list str => (g.1.2, UnappliedBatch g.2, g.1.1)) <$> group_batches (BTree.values (unapplied_batches s)) in
  Ret (merge_by registers batches).

Definition filter_retractions s (expected_txns_upper : Z) (retractions : BTreeMap str (Z * ShardId)) : outcome (BTreeMap str (Z * ShardId)) :=
  let! _ := assert_ (bool_decide (only_data_id s = None)) in
  let! _ := assert_ (expected_txns_upper <=? progress_exclusive s) in
  Ret (filter (fun r => is_Some (batch_idx s !! r.1)) retractions).

(** ** The checks of debug builds *)

Fixpoint batches_sorted (idx : gmap str Z) (prev : Z) (m : BTreeMap Z (ShardId * str * Z)) : bool :=
  match m with
  | [] => true
  | (i, (_, batch, ts)) :: m => bool_decide (idx !! batch = Some i) && (prev <=? ts) && batches_sorted idx ts m
  end.

Definition data_valid s (data_id : ShardId) (d : DataTimes) : bool :=
  DataTimes.validate d &&
  match head (writes d) with
  | Some ts => negb ((ts <? min_unapplied_ts_inner s) && (1 <? length (writes d))%nat)
  | None => true
  end &&
  match find (fun b : Z * (ShardId * str * Z) => bool_decide (b.2.1.1 = data_id)) (unapplied_batches s), head (writes d) with
  | Some (_, (_, _, unapplied_ts)), Some write_ts => write_ts <=? unapplied_ts
  | _, _ => true
  end &&
  match find (fun r : ShardId * Z => bool_decide (r.1 = data_id)) (unapplied_registers s) with
  | Some (_, unapplied_ts) => match head (registered d) with Some r => register_ts r <=? unapplied_ts | None => false end
  | None => true
  end.

Definition validate s : bool :=
  bool_decide (size (batch_idx s) = length (unapplied_batches s)) &&
  batches_sorted (batch_idx s) 0 (unapplied_batches s) &&
  DataTimes.ascending 0 (snd <$> unapplied_registers s) &&
  forallb (fun kv => data_valid s kv.1 kv.2) (datas s).

(** ** Updates *)

Definition with_datas s (ds : BTreeMap ShardId DataTimes) : TxnsCacheState := {|
  init_ts := init_ts s; progress_exclusive := progress_exclusive s; next_batch_id := next_batch_id s;
  unapplied_batches := unapplied_batches s; batch_idx := batch_idx s; datas := ds;
  unapplied_registers := unapplied_registers s; only_data_id := only_data_id s |}.
Definition with_registers s (rs : list (ShardId * Z)) : TxnsCacheState := {|
  init_ts := init_ts s; progress_exclusive := progress_exclusive s; next_batch_id := next_batch_id s;
  unapplied_batches := unapplied_batches s; batch_idx := batch_idx s; datas := datas s;
  unapplied_registers := rs; only_data_id := only_data_id s |}.
Definition with_progress s (p : Z) : TxnsCacheState := {|
  init_ts := init_ts s; progress_exclusive := p; next_batch_id := next_batch_id s;
  unapplied_batches := unapplied_batches s; batch_idx := batch_idx s; datas := datas s;
  unapplied_registers := unapplied_registers s; only_data_id := only_data_id s |}.
Definition with_batches s (next : Z) (bs : BTreeMap Z (ShardId * str * Z)) (idx : gmap str Z) : TxnsCacheState := {|
  init_ts := init_ts s; progress_exclusive := progress_exclusive s; next_batch_id := next;
  unapplied_batches := bs; batch_idx := idx; datas := datas s;
  unapplied_registers := unapplied_registers s; only_data_id := only_data_id s |}.

(** The cache tracks the shard. *)
Definition tracks s data_id : bool :=
  match only_data_id s with Some only => bool_decide (only = data_id) | None => true end.

(** The end of an update in debug builds. *)
Definition validated s : outcome TxnsCacheState := let! _ := debug_assert (validate s) in Ret s.

Fixpoint pop_writes (unapplied_write_ts : Z) (ws : list Z) : list Z :=
  match ws with
  | w :: ws' => if (length ws =? 1)%nat || (unapplied_write_ts <=? w) then ws else pop_writes unapplied_write_ts ws'
  | [] => []
  end.

Fixpoint pop_regs (min_reg_ts : Z) (rs : list DataRegistered) : outcome (list DataRegistered) :=
  match rs with
  | r :: rs' =>
      match forget_ts r with
      | Some f => if (min_reg_ts <=? f) || (length rs =? 1)%nat then Ret rs else pop_regs min_reg_ts rs'
      | None => if (length rs =? 1)%nat then Ret rs else Panic
      end
  | [] => Ret []
  end.

(** [drain(..len - 1)]: the subtraction underflows on an empty queue. *)
Definition drain_to_last {A} (l : list A) : outcome (list A) :=
  let! x := expect (last l) in Ret [x].

Definition compact_times s (times : DataTimes) : outcome DataTimes :=
  let! writes :=
    match BTree.first_key_value (unapplied_batches s) with
    | Some (_, (_, _, unapplied_write_ts)) => Ret (pop_writes unapplied_write_ts (writes times))
    | None => drain_to_last (writes times)
    end in
  let min_reg_ts :=
    match unapplied_registers s, writes with
    | (_, r) :: _, w :: _ => Some (Z.min r w)
    | (_, r) :: _, [] => Some r
    | [], w :: _ => Some w
    | [], [] => None
    end in
  let! registered :=
    match min_reg_ts with
    | Some min_reg_ts => pop_regs min_reg_ts (registered times)
    | None => drain_to_last (registered times)
    end in
  Ret {| registered := registered; writes := writes |}.

Definition compact_data_times s data_id : outcome TxnsCacheState :=
  match BTree.get data_id (datas s) with
  | None => Ret s
  | Some times => let! times := compact_times s times in Ret (with_datas s (BTree.update data_id (fun _ => times) (datas s)))
  end.

Definition register_times (times : DataTimes) (ts : Z) : outcome DataTimes :=
  let! _ := match last (registered times) with Some r => assert_ (negb (is_none (forget_ts r))) | None => Ret tt end in
  Ret {| registered := registered times ++ [{| register_ts := ts; forget_ts := None |}]; writes := writes times |}.

Definition forget_times (times : DataTimes) (ts : Z) : outcome DataTimes :=
  let! active_reg := expect (last (registered times)) in
  let! _ := assert_ (is_none (forget_ts active_reg)) in
  Ret {| registered := removelast (registered times) ++ [{| register_ts := register_ts active_reg; forget_ts := Some ts |}];
         writes := writes times |}.

Definition push_register s data_id ts (diff compacted_ts : Z) : outcome TxnsCacheState :=
  let! _ := assert_only_data_id s data_id in
  let! _ := soft_assert ((progress_exclusive s <=? ts) || (diff <? 0)) in
  if negb (tracks s data_id) then Ret s
  else
    let s := if ts =? compacted_ts then with_registers s (unapplied_registers s ++ [(data_id, ts)]) else s in
    if diff =? 1 then
      let entry := default DataTimes_default (BTree.get data_id (datas s)) in
      let! entry := register_times entry ts in
      validated (with_datas s (BTree.insert data_id entry (datas s)))
    else if diff =? -1 then
      let! times := expect (BTree.get data_id (datas s)) in
      let! times := forget_times times ts in
      validated (with_datas s (BTree.insert data_id times (datas s)))
    else Panic.

Definition append_times (times : DataTimes) (ts : Z) : outcome DataTimes :=
  let! last_reg := DataTimes.last_reg times in
  let! _ := assert_ (is_none (forget_ts last_reg)) in
  Ret {| registered := registered times;
         writes := if decide (last (writes times) = Some ts) then writes times else writes times ++ [ts] |}.

Definition push_append s data_id (batch : str) ts (diff : Z) : outcome TxnsCacheState :=
  let! _ := assert_only_data_id s data_id in
  let! _ := soft_assert ((progress_exclusive s <=? ts) || (diff <? 0)) in
  if negb (tracks s data_id) then Ret s
  else
    let! s :=
      if diff =? 1 then
        let idx := next_batch_id s in
        let! _ := assert_ (is_none (batch_idx s !! batch)) in
        let! _ := assert_ (is_none (BTree.get idx (unapplied_batches s))) in
        let s := with_batches s ((idx + 1) mod 2 ^ 64) (BTree.insert idx (data_id, batch, ts) (unapplied_batches s))
                   (<[batch := idx]> (batch_idx s)) in
        let! times := expect (BTree.get data_id (datas s)) in
        let! times := append_times times ts in
        Ret (with_datas s (BTree.insert data_id times (datas s)))
      else if diff =? -1 then
        let! idx := expect (batch_idx s !! batch) in
        let! prev := expect (BTree.get idx (unapplied_batches s)) in
        let s := with_batches s (next_batch_id s) (BTree.remove idx (unapplied_batches s)) (delete batch (batch_idx s)) in
        let! _ := soft_assert (bool_decide (data_id = prev.1.1)) in
        let! _ := soft_assert (bool_decide (batch = prev.1.2)) in
        let! _ := soft_assert (prev.2 <=? ts) in
        Ret s
      else Panic in
    let! s := compact_data_times s data_id in
    validated s.

Definition push_entry s (u : Update) : outcome TxnsCacheState :=
  let '(e, t, d) := u in
  match e with
  | Register data_id ts =>
      let! _ := soft_assert (ts <=? t) in push_register s data_id ts d t
  | Append data_id ts batch =>
      let! _ := soft_assert (ts <=? t) in push_append s data_id batch ts d
  end.

Definition push_entries s (entries : list Update) (progress : Z) : outcome TxnsCacheState :=
  let! s := foldM push_entry (sort_by_ts (consolidate_updates entries)) s in
  validated (with_progress s progress).

Definition mark_register_applied s ts : outcome TxnsCacheState :=
  validated (with_registers s (filter (fun r => ts < r.2) (unapplied_registers s))).
End ops.
End TxnsCacheState.
