(* ===== verification/TxnCacheFacts.v ===== *)
(** * What the cache of a txns shard knows

    The cache is compared with the list of the updates it has been given, in
    the order in which it processed them: [regs_of], [times_of], [live] and
    [events] are what that list says of the shards, and [rep] relates the
    cache to it.  A list that follows the rules of the txns shard,
    [ok_next], is processed without a panic. *)

From S2P Require Import Prelude BTree Paths TxnCache.

Local Open Scope Z_scope.

(** ** What a list of updates says *)

Definition open_reg (ts : Z) : DataRegistered := {| register_ts := ts; forget_ts := None |}.

Definition close_last (rs : list DataRegistered) (ts : Z) : list DataRegistered :=
  match last rs with
  | Some r => removelast rs ++ [{| register_ts := register_ts r; forget_ts := Some ts |}]
  | None => []
  end.

Definition regs_step (d : ShardId) (rs : list DataRegistered) (u : Update) : list DataRegistered :=
  match u with
  | (Register d' ts, _, k) =>
      if decide (d' = d) then if k =? 1 then rs ++ [open_reg ts] else close_last rs ts else rs
  | _ => rs
  end.
Definition regs_of (d : ShardId) (P : list Update) : list DataRegistered := foldl (regs_step d) [] P.

Definition times_step (d : ShardId) (ws : list Z) (u : Update) : list Z :=
  match u with
  | (Append d' ts _, _, k) =>
      if decide (d' = d /\ k = 1 /\ last ws <> Some ts) then ws ++ [ts] else ws
  | _ => ws
  end.
Definition times_of (d : ShardId) (P : list Update) : list Z := foldl (times_step d) [] P.

Definition live_step (bs : list (ShardId * str * Z)) (u : Update) : list (ShardId * str * Z) :=
  match u with
  | (Append d ts b, _, k) => if k =? 1 then bs ++ [(d, b, ts)] else filter (fun x => x.1.2 <> b) bs
  | _ => bs
  end.
Definition live (P : list Update) : list (ShardId * str * Z) := foldl live_step [] P.

Definition event (u : Update) : option (ShardId * Z) :=
  match u with (Register d ts, t, _) => if ts =? t then Some (d, ts) else None | _ => None end.
Definition events (P : list Update) : list (ShardId * Z) := omap event P.

Definition is_open (o : option DataRegistered) : Prop := exists r, o = Some r /\ forget_ts r = None.
Definition is_closed (o : option DataRegistered) : Prop := forall r, o = Some r -> forget_ts r <> None.

(** The rules: what may follow [P] when the cache has progressed to [lo]. *)
Definition ok_next (lo : Z) (P : list Update) (u : Update) : Prop :=
  entry_ts u.1.1 <= u.1.2 /\
  match u with
  | (Register d ts, t, k) =>
      lo <= ts /\ Forall (fun e => e.2 <= ts) (events P) /\
      ((k = 1 /\ is_closed (last (regs_of d P))) \/ (k = -1 /\ is_open (last (regs_of d P))))
  | (Append d ts b, t, k) =>
      (k = 1 /\ lo <= ts /\ is_open (last (regs_of d P)) /\ Forall (fun x => x.1.2 <> b) (live P) /\
       forall d', Forall (fun w => w <= ts) (times_of d' P)) \/
      (k = -1 /\ (d, b, ts) ∈ live P)
  end.

(** ** The state of a cache *)

Definition indexed (st : TxnsCacheState) : Prop :=
  forall b i, batch_idx st !! b = Some i <-> exists d ts, BTree.get i (unapplied_batches st) = Some (d, b, ts).

Definition times_rep (P : list Update) (d : ShardId) (dt : option DataTimes) : Prop :=
  match dt with
  | None => regs_of d P = [] /\ times_of d P = []
  | Some dt =>
      registered dt <> [] /\ (exists r0, regs_of d P = r0 ++ registered dt) /\
      (times_of d P <> [] -> writes dt <> []) /\
      exists w0, times_of d P = w0 ++ writes dt /\ forall x y, x ∈ w0 -> y ∈ live P -> x < y.2
  end.

Record rep (P : list Update) (m : Z) (st : TxnsCacheState) : Prop := {
  rep_values : BTree.values (unapplied_batches st) = live P;
  rep_sorted : BTree.sorted (unapplied_batches st);
  rep_keys : Forall (fun kv => kv.1 < next_batch_id st) (unapplied_batches st);
  rep_next : 0 <= next_batch_id st <= Z.of_nat (length P);
  rep_idx : indexed st;
  rep_datas : BTree.sorted (datas st);
  rep_times : forall d, times_rep P d (BTree.get d (datas st));
  rep_regs : unapplied_registers st = filter (fun r => m < r.2) (events P);
}.

(** What is true of every list that follows the rules. *)
Inductive ok_list : list Update -> Prop :=
| ok_nil : ok_list []
| ok_snoc lo P u : ok_list P -> ok_next lo P u -> ok_list (P ++ [u]).

Lemma regs_snoc d P u : regs_of d (P ++ [u]) = regs_step d (regs_of d P) u.
Proof. unfold regs_of. by rewrite foldl_app. Qed.
Lemma times_snoc d P u : times_of d (P ++ [u]) = times_step d (times_of d P) u.
Proof. unfold times_of. by rewrite foldl_app. Qed.
Lemma live_snoc P u : live (P ++ [u]) = live_step (live P) u.
Proof. unfold live. by rewrite foldl_app. Qed.
Lemma events_snoc P u : events (P ++ [u]) = events P ++ match event u with Some e => [e] | None => [] end.
Proof. unfold events. rewrite omap_app. simpl. by destruct (event u). Qed.

Create Rewrite HintDb txn.
#[export] Hint Rewrite regs_snoc times_snoc live_snoc events_snoc : txn.
Ltac snoc := autorewrite with txn in *; simpl in *.

Lemma close_last_snoc rs r ts :
  close_last (rs ++ [r]) ts = rs ++ [{| register_ts := register_ts r; forget_ts := Some ts |}].
Proof. unfold close_last. rewrite last_snoc. by rewrite removelast_app, app_nil_r. Qed.

Lemma last_open rs : is_open (last rs) -> exists rs' ts, rs = rs' ++ [open_reg ts].
Proof.
  intros ([ts f] & Hl & Hf). simpl in Hf. subst. apply last_Some in Hl as [rs' ->]. by exists rs', ts.
Qed.

Lemma is_open_regs rs r : is_open (last (rs ++ [r])) <-> forget_ts r = None.
Proof. rewrite last_snoc. split; [by intros (? & [= <-] & ?)|]. intros. by exists r. Qed.

Lemma Forall_snoc {A} (Q : A -> Prop) l x : Forall Q (l ++ [x]) <-> Forall Q l /\ Q x.
Proof. by rewrite Forall_app, Forall_singleton. Qed.

(** Only the last registration is open. *)
Lemma ok_regs P : ok_list P -> forall d r0 r1, regs_of d P = r0 ++ r1 -> r1 <> [] -> Forall (fun r => forget_ts r <> None) r0.
Proof.
  assert (Hsplit : forall (rs r0 r1 : list DataRegistered) x, rs ++ [x] = r0 ++ r1 -> r1 <> [] -> exists r1', r1 = r1' ++ [x] /\ rs = r0 ++ r1').
  { intros rs r0 r1 x He Hne. destruct (exists_last Hne) as (r1' & y & ->). rewrite app_assoc in He.
    apply app_inj_tail in He as [-> ->]. eauto. }
  induction 1 as [|lo P u Hok IH Hn]; intros d r0 r1 He Hne.
  { symmetry in He. by apply app_eq_nil in He as [-> _]. }
  snoc. destruct u as [[[d' ts|d' ts b] t] k]; simpl in *; [|by eapply IH]. destruct (decide (d' = d)) as [->|]; [|by eapply IH].
  destruct Hn as (_ & _ & _ & [[-> Hc]|[-> Ho]]); simpl in *.
  - apply Hsplit in He as (r1' & -> & He); [|done]. destruct (decide (r1' = [])) as [->|Hne']; [|by eapply IH].
    rewrite app_nil_r in He. destruct (decide (r0 = [])) as [->|Hne0]; [done|].
    rewrite He in Hc. destruct (exists_last Hne0) as (r0' & x & ->). apply Forall_app. split.
    + eapply IH; [exact He|done].
    + apply Forall_singleton, (Hc x). by rewrite last_snoc.
  - apply last_open in Ho as (rs & ts' & Ho). rewrite Ho, close_last_snoc in He.
    apply Hsplit in He as (r1' & -> & ->); [|done]. eapply (IH d r0 (r1' ++ [open_reg ts'])); [by rewrite app_assoc|].
    by destruct r1'.
Qed.

(** Writes are at ascending times, of registered shards, and the live ones are
    among them. *)
Lemma ok_times P : ok_list P -> forall d, StronglySorted Z.lt (times_of d P).
Proof.
  induction 1 as [|lo P u Hok IH Hn]; intros d; [constructor|]. snoc.
  destruct u as [[[d' ts|d' ts b] t] k]; simpl in *; [apply IH|]. case_decide as Hd; [|apply IH].
  destruct Hd as (-> & -> & Hl). destruct Hn as (_ & [(_ & _ & _ & _ & Hle)|[? _]]); [|done].
  apply StronglySorted_app. repeat split; [|apply IH|by repeat constructor].
  intros x y Hx Hy. apply list_elem_of_singleton in Hy as ->.
  specialize (Hle d). pose proof (proj1 (Forall_forall _ _) Hle x Hx) as Hxle. simpl in Hxle.
  destruct (decide (x = ts)) as [->|]; [|lia]. exfalso. apply Hl.
  apply list_elem_of_split in Hx as (l1 & l2 & He). specialize (IH d). rewrite He in *.
  destruct (decide (l2 = [])) as [->|Hne]; [by rewrite last_snoc|]. destruct (exists_last Hne) as (l2' & y & ->).
  apply StronglySorted_app in IH as (_ & _ & IH). inversion IH as [|? ? _ Hall]; subst.
  apply Forall_snoc in Hall as [_ Hall]. rewrite Forall_app, Forall_cons, Forall_snoc in Hle.
  destruct Hle as (_ & _ & _ & Hle). lia.
Qed.

Lemma ok_live_times P : ok_list P -> forall d b ts, (d, b, ts) ∈ live P -> ts ∈ times_of d P.
Proof.
  assert (Hmono : forall d u ws x, x ∈ ws -> x ∈ times_step d ws u).
  { intros d [[[d' ts|d' ts b] t] k] ws x Hx; simpl; [done|]. case_decide; [|done]. apply elem_of_app. by left. }
  induction 1 as [|lo P u Hok IH Hn]; intros d b ts Hin; [by apply not_elem_of_nil in Hin|]. snoc.
  destruct u as [[[d' ts'|d' ts' b'] t] k]; simpl in Hin; [by apply Hmono, (IH d b)|].
  destruct (Z.eqb_spec k 1) as [->|].
  - apply elem_of_app in Hin as [Hin|Hin%list_elem_of_singleton]; [by apply Hmono, (IH d b)|].
    injection Hin as -> -> ->. simpl. case_decide as Hd; [apply elem_of_app; right; by constructor|].
    destruct (decide (last (times_of d' P) = Some ts')) as [Hl|]; [|tauto].
    apply last_Some in Hl as [l ->]. apply elem_of_app. right. by constructor.
  - apply list_elem_of_filter in Hin as [_ Hin]. by apply Hmono, (IH d b).
Qed.

Lemma ok_times_regs P : ok_list P -> forall d, regs_of d P = [] -> times_of d P = [].
Proof.
  induction 1 as [|lo P u Hok IH Hn]; intros d Hr; [done|]. snoc.
  destruct u as [[[d' ts'|d' ts' b'] t] k]; simpl in *.
  - destruct (decide (d' = d)) as [->|]; [|by apply IH]. destruct Hn as (_ & _ & _ & [[-> _]|[-> Ho]]); simpl in Hr.
    + by apply app_eq_nil in Hr as [_ ?].
    + apply last_open in Ho as (rs & x & Ho). rewrite Ho, close_last_snoc in Hr. by apply app_eq_nil in Hr as [_ ?].
  - case_decide as Hd; [|by apply IH]. destruct Hd as (-> & -> & _). exfalso.
    destruct Hn as (_ & [(_ & _ & Ho & _)|[? _]]); [|done]. destruct Ho as (r & Ho & _). by rewrite Hr in Ho.
Qed.

Lemma ok_live P : ok_list P -> NoDup ((fun x => x.1.2) <$> live P) /\ StronglySorted (fun x y => x.2 <= y.2) (live P).
Proof.
  induction 1 as [|lo P u Hok [IH1 IH2] Hn]; [split; constructor|]. snoc.
  destruct u as [[[d' ts'|d' ts' b'] t] k]; simpl in *; [done|].
  destruct Hn as (_ & [(-> & _ & _ & Hf & Hle)|(-> & _)]); simpl.
  - rewrite fmap_app. split.
    + apply NoDup_app. repeat split; [done| |by apply NoDup_singleton]. intros x Hx Hx'%list_elem_of_singleton. simpl in Hx'. subst.
      apply list_elem_of_fmap in Hx as (y & -> & Hy). by apply (proj1 (Forall_forall _ _) Hf y Hy).
    + apply StronglySorted_app. repeat split; [|done|by repeat constructor].
      intros [[d b] w] y Hx Hy%list_elem_of_singleton. subst. simpl. pose proof (ok_live_times P Hok d b w Hx) as Hw.
      by apply (proj1 (Forall_forall _ _) (Hle d) w Hw).
  - split.
    + eapply sublist_NoDup; [exact IH1|]. apply fmap_sublist. apply sublist_filter.
    + clear -IH2. induction IH2 as [|x l Hs IH Hall]; [constructor|]. rewrite filter_cons. case_decide; [|done].
      constructor; [done|]. apply Forall_forall. intros y [_ Hy]%list_elem_of_filter. by apply (proj1 (Forall_forall _ _) Hall).
Qed.

Lemma ok_events P : ok_list P -> StronglySorted (fun x y => x.2 <= y.2) (events P).
Proof.
  induction 1 as [|lo P u Hok IH Hn]; [constructor|]. snoc.
  destruct u as [[[d' ts'|d' ts' b'] t] k]; simpl in *; [|by rewrite app_nil_r].
  destruct (ts' =? t); [|by rewrite app_nil_r]. destruct Hn as (_ & _ & Hle & _).
  apply StronglySorted_app. repeat split; [|done|by repeat constructor].
  intros x y Hx Hy%list_elem_of_singleton. subst. by apply (proj1 (Forall_forall _ _) Hle).
Qed.

(** ** Compaction *)

Lemma pop_writes_suffix x ws : exists pre, ws = pre ++ TxnsCacheState.pop_writes x ws /\ Forall (fun w => w < x) pre /\
  (ws <> [] -> TxnsCacheState.pop_writes x ws <> []).
Proof.
  induction ws as [|w ws IH]; [by exists []|]. cbn [TxnsCacheState.pop_writes]. destruct (_ || _) eqn:E; [by exists []|].
  apply orb_false_iff in E as [E1 E2]. apply Nat.eqb_neq in E1. apply Z.leb_gt in E2. destruct IH as (pre & He & Hp & Hne).
  exists (w :: pre). split_and!; [by rewrite <- app_comm_cons, <- He|by constructor|]. intros _. apply Hne. by destruct ws.
Qed.

Lemma removelast_cons' {A} (x : A) l : l <> [] -> removelast (x :: l) = x :: removelast l.
Proof. by destruct l. Qed.

Lemma pop_regs_suffix x rs : rs <> [] -> Forall (fun r => forget_ts r <> None) (removelast rs) ->
  exists pre rs', TxnsCacheState.pop_regs x rs = Ret rs' /\ rs = pre ++ rs' /\ rs' <> [].
Proof.
  induction rs as [|r rs IH]; [done|]. intros _ Hc. cbn [TxnsCacheState.pop_regs]. destruct (decide (rs = [])) as [->|Hne].
  { exists [], [r]. split_and!; [|done..]. destruct (forget_ts r); simpl; by rewrite ?orb_true_r. }
  assert (El : (length (r :: rs) =? 1)%nat = false) by (apply Nat.eqb_neq; simpl; by destruct rs).
  rewrite El. rewrite (removelast_cons' r rs) in Hc by done. apply Forall_cons in Hc as [Hr Hc].
  destruct (forget_ts r); [|done]. rewrite orb_false_r. destruct (_ <=? _); [by exists [], (r :: rs)|].
  destruct IH as (pre & rs' & -> & -> & ?); [done..|]. by exists (r :: pre), rs'.
Qed.

Lemma drain_last {A} (l : list A) : l <> [] -> exists pre x, TxnsCacheState.drain_to_last l = Ret [x] /\ l = pre ++ [x].
Proof.
  intros Hne. destruct (exists_last Hne) as (pre & x & ->). exists pre, x. unfold TxnsCacheState.drain_to_last. by rewrite last_snoc.
Qed.

Lemma removelast_suffix {A} (Q : A -> Prop) (l : list A) :
  (forall l0 l1, l = l0 ++ l1 -> l1 <> [] -> Forall Q l0) -> Forall Q (removelast l).
Proof.
  intros Hs. destruct (decide (l = [])) as [->|Hne]; [done|]. destruct (exists_last Hne) as (l0 & x & ->).
  rewrite removelast_app by done. simpl. rewrite app_nil_r. by apply (Hs l0 [x]).
Qed.

Lemma first_live P (st : TxnsCacheState) k d b ts : ok_list P -> BTree.values (unapplied_batches st) = live P ->
  BTree.first_key_value (unapplied_batches st) = Some (k, (d, b, ts)) -> (d, b, ts) ∈ live P /\ forall y, y ∈ live P -> ts <= y.2.
Proof.
  intros Hok Hv Hf. destruct (unapplied_batches st) as [|[k' v'] m]; [done|]. injection Hf as -> ->. simpl in Hv.
  destruct (ok_live P Hok) as [_ Hs]. rewrite <- Hv in *. inversion Hs as [|? ? _ Hall]; subst. split; [by constructor|].
  intros y [->|Hy]%elem_of_cons; [done|]. by apply (proj1 (Forall_forall _ _) Hall).
Qed.

Lemma compact_rep P st d dt : ok_list P -> BTree.values (unapplied_batches st) = live P ->
  times_of d P <> [] -> times_rep P d (Some dt) ->
  exists dt', TxnsCacheState.compact_times st dt = Ret dt' /\ times_rep P d (Some dt').
Proof.
  intros Hok Hv Hne (Hr & (r0 & Hr0) & Hw & w0 & Hw0 & Hlt). specialize (Hw Hne). unfold TxnsCacheState.compact_times.
  assert (exists pre ws, match BTree.first_key_value (unapplied_batches st) with
      | Some (_, (_, _, ts)) => Ret (TxnsCacheState.pop_writes ts (writes dt))
      | None => TxnsCacheState.drain_to_last (writes dt) end = Ret ws /\ writes dt = pre ++ ws /\ ws <> [] /\
      forall x y, x ∈ pre -> y ∈ live P -> x < y.2) as (pre & ws & -> & Hws & Hne' & Hpre).
  { destruct (BTree.first_key_value _) as [[k [[d' b] ts]]|] eqn:Hf.
    - destruct (first_live P st k d' b ts) as [_ Hmin]; [done..|]. destruct (pop_writes_suffix ts (writes dt)) as (pre & He & Hp & Hn).
      exists pre, (TxnsCacheState.pop_writes ts (writes dt)). split_and!; [done..|by apply Hn|]. intros x y Hx Hy.
      apply Hmin in Hy. apply (proj1 (Forall_forall _ _) Hp) in Hx. simpl in Hx. lia.
    - destruct (drain_last (writes dt) Hw) as (pre & x & -> & He). exists pre, [x]. split_and!; [done..|]. intros z y _ Hy.
      rewrite <- Hv in Hy. destruct (unapplied_batches st); [|done]. by apply not_elem_of_nil in Hy. }
  assert (exists pre' rs, match match unapplied_registers st, ws with
      | (_, r) :: _, w :: _ => Some (Z.min r w) | (_, r) :: _, [] => Some r | [], w :: _ => Some w | [], [] => None end with
      | Some x => TxnsCacheState.pop_regs x (registered dt)
      | None => TxnsCacheState.drain_to_last (registered dt) end = Ret rs /\ registered dt = pre' ++ rs /\ rs <> []) as (pre' & rs & Hrs & Hrr & Hrn).
  { destruct (match unapplied_registers st, ws with _ :: _, _ => _ | _, _ => _ end) as [x|].
    - apply pop_regs_suffix; [done|]. apply removelast_suffix. intros l0 l1 He Hl1.
      pose proof (ok_regs P Hok d (r0 ++ l0) l1) as Hc. rewrite Hr0, He, <- app_assoc in Hc.
      specialize (Hc eq_refl Hl1). by apply Forall_app in Hc as [_ ?].
    - destruct (drain_last (registered dt) Hr) as (p' & x & -> & ?). by exists p', [x]. }
  simpl. rewrite Hrs. simpl. eexists. split; [done|]. simpl. split_and!; [done| |done|].
  - exists (r0 ++ pre'). by rewrite Hr0, Hrr, app_assoc.
  - exists (w0 ++ pre). split; [by rewrite Hw0, Hws, app_assoc|]. intros x y [Hx|Hx]%elem_of_app; [by apply Hlt|by apply Hpre].
Qed.

(** ** Processing an update *)

(** The rest of the state does not change. *)
Definition frame (st st' : TxnsCacheState) : Prop :=
  init_ts st' = init_ts st /\ progress_exclusive st' = progress_exclusive st /\ only_data_id st' = only_data_id st.

Lemma get_insert {K V} `{KeyOrd K} (k k' : K) (v : V) m :
  BTree.get k (BTree.insert k' v m) = if decide (k = k') then Some v else BTree.get k m.
Proof. case_decide as Hd; [subst; apply BTree.get_insert_eq|by apply BTree.get_insert_ne]. Qed.

Lemma values_removed {V} (k : Z) (m : BTreeMap Z V) (Q : V -> Prop) `{!forall x, Decision (Q x)} :
  (forall k' v', (k', v') ∈ m -> k' <> k <-> Q v') -> BTree.values (BTree.remove k m) = filter Q (BTree.values m).
Proof.
  intros Hq. unfold BTree.values, BTree.remove. induction m as [|[j w] m IH]; [done|]. rewrite fmap_cons, !filter_cons. simpl.
  pose proof (Hq j w ltac:(by constructor)) as Hj. assert (IH' := IH ltac:(intros k' v' Hin; apply Hq; by constructor)).
  destruct (decide (Q w)); case_decide; try tauto; rewrite <- IH'; done.
Qed.

Section push.
Context (soft : bool).
Implicit Types (st : TxnsCacheState) (P : list Update).

Lemma soft_true b : b = true -> TxnsCacheState.soft_assert soft b = Ret tt.
Proof. intros ->. unfold TxnsCacheState.soft_assert. by destruct soft. Qed.

Lemma only_ok st d : TxnsCacheState.tracks st d = true -> TxnsCacheState.assert_only_data_id st d = Ret tt.
Proof.
  unfold TxnsCacheState.tracks, TxnsCacheState.assert_only_data_id. destruct (only_data_id st); [|done].
  intros ->%bool_decide_eq_true. by rewrite bool_decide_true.
Qed.

(** A change of one shard's times does not touch the others. *)
Lemma times_frame P u d : (forall d', entry_data_id u.1.1 = d' -> d' <> d) -> regs_of d (P ++ [u]) = regs_of d P /\ times_of d (P ++ [u]) = times_of d P.
Proof.
  intros Hd. snoc. destruct u as [[[d' ts|d' ts b] t] k]; simpl in *; specialize (Hd d' eq_refl).
  - by rewrite decide_False.
  - split; [done|]. rewrite decide_False; [done|]. tauto.
Qed.

Lemma register_ok P m lo st d ts t k : ok_list P -> rep P m st -> progress_exclusive st = lo -> m < lo ->
  ok_next lo P (Register d ts, t, k) -> TxnsCacheState.tracks st d = true ->
  exists st', TxnsCacheState.push_register soft false st d ts k t = Ret st' /\ rep (P ++ [(Register d ts, t, k)]) m st' /\ frame st st'.
Proof.
  intros Hok Hr Hlo Hm (Hle & Hlots & _ & Hk) Htr. unfold TxnsCacheState.push_register. rewrite only_ok, Htr by done. simpl.
  rewrite soft_true by (rewrite Hlo, (proj2 (Z.leb_le lo ts) Hlots); done). simpl.
  set (st1 := if ts =? t then _ else st).
  assert (Hst1 : frame st st1 /\ datas st1 = datas st /\ unapplied_batches st1 = unapplied_batches st /\ batch_idx st1 = batch_idx st /\
    next_batch_id st1 = next_batch_id st /\ unapplied_registers st1 = filter (fun r => m < r.2) (events (P ++ [(Register d ts, t, k)]))).
  { subst st1. snoc. rewrite filter_app, <- (rep_regs _ _ _ Hr). destruct (ts =? t).
    - rewrite filter_cons_True by (simpl; lia). split_and!; done.
    - rewrite filter_nil, app_nil_r. split_and!; done. }
  destruct Hst1 as (Hfr & Hd & Hb & Hi & Hn & Hu). rewrite Hd.
  assert (Hfin : forall dt, times_rep (P ++ [(Register d ts, t, k)]) d (Some dt) ->
    rep (P ++ [(Register d ts, t, k)]) m (TxnsCacheState.with_datas st1 (BTree.insert d dt (datas st)))).
  { intros dt Hdt. split; simpl; rewrite ?Hb, ?Hi, ?Hn, ?Hu.
    - snoc. apply Hr.
    - apply Hr.
    - apply Hr.
    - rewrite length_app. pose proof (rep_next _ _ _ Hr). simpl. lia.
    - unfold indexed. simpl. rewrite Hb, Hi. apply Hr.
    - apply BTree.sorted_insert, Hr.
    - intros d'. rewrite get_insert. case_decide as Hd'; [by subst|].
      pose proof (rep_times _ _ _ Hr d') as Ht. destruct (times_frame P (Register d ts, t, k) d') as [Hr1 Hr2].
      { simpl. intros ? <- <-. done. }
      unfold times_rep in *. rewrite Hr1, Hr2. snoc. exact Ht.
    - done. }
  pose proof (rep_times _ _ _ Hr d) as Ht.
  assert (Hfr' : forall ds, frame st (TxnsCacheState.with_datas st1 ds)) by (intros ds; exact Hfr).
  destruct Hk as [[-> Hc]|[-> Ho]]; simpl.
  - assert (exists rs ws, default DataTimes_default (BTree.get d (datas st)) = {| registered := rs; writes := ws |} /\
      (exists r0, regs_of d P = r0 ++ rs) /\ is_closed (last rs) /\ (times_of d P <> [] -> ws <> []) /\
      exists w0, times_of d P = w0 ++ ws /\ forall x y, x ∈ w0 -> y ∈ live P -> x < y.2) as (rs & ws & -> & (r0 & Hr0) & Hcl & Hw & w0 & Hw0 & Hlt).
    { destruct (BTree.get d (datas st)) as [[rs ws]|]; simpl in Ht |- *.
      - exists rs, ws. destruct Ht as (Hne & (r0 & He) & Hw & Hx). split_and!; eauto. rewrite He in Hc.
        destruct (exists_last Hne) as (rs' & x & ->). rewrite app_assoc, last_snoc in Hc. by rewrite last_snoc.
      - destruct Ht as [-> ->]. exists [], []. split_and!; try done; [by exists []|]. exists []. split; [done|]. by intros ? ? ?%not_elem_of_nil. }
    unfold TxnsCacheState.register_times. simpl.
    assert ((match last rs with Some r => assert_ (negb (TxnsCacheState.is_none (forget_ts r))) | None => Ret tt end) = Ret tt) as ->.
    { destruct (last rs) as [r|] eqn:El; [|done]. specialize (Hcl r eq_refl). by destruct (forget_ts r). }
    simpl. eexists. split; [done|]. split; [|done]. apply Hfin. unfold times_rep. snoc. rewrite decide_True by done.
    split_and!; [by destruct rs|exists r0; by rewrite Hr0, app_assoc|done|eauto].
  - destruct (BTree.get d (datas st)) as [[rs ws]|]; simpl in Ht |- *; [|destruct Ht as [Ht _]; rewrite Ht in Ho; by destruct Ho as (? & ? & _)].
    destruct Ht as (Hne & (r0 & He) & Hw & Hx). destruct (exists_last Hne) as (rs' & r & ->). rewrite app_assoc in He.
    rewrite He, is_open_regs in Ho. unfold TxnsCacheState.forget_times. simpl. rewrite last_snoc. simpl. rewrite Ho. simpl.
    eexists. split; [done|]. split; [|done]. apply Hfin. unfold times_rep. snoc. rewrite decide_True by done.
    rewrite removelast_app by done. simpl. rewrite app_nil_r. split_and!; [by destruct rs'| |done|done].
    exists r0. by rewrite He, close_last_snoc, app_assoc.
Qed.

Lemma get_update_all {K V} `{KeyOrd K} (k k' : K) (v v0 : V) m : BTree.get k m = Some v0 ->
  BTree.get k' (BTree.update k (fun _ => v) m) = if decide (k' = k) then Some v else BTree.get k' m.
Proof.
  intros Hg. case_decide as Hd; [subst; by rewrite BTree.get_update_eq, Hg|].
  clear Hg. unfold BTree.update. induction m as [|[j w] m IH]; [done|]. rewrite fmap_cons. simpl.
  destruct (decide (j = k)) as [->|]; simpl; [by rewrite !decide_False|]. by rewrite IH.
Qed.

Lemma update_sorted {K V} `{KeyOrd K} (k : K) (f : V -> V) m : BTree.sorted m -> BTree.sorted (BTree.update k f m).
Proof.
  unfold BTree.update. induction m as [|[j w] m IH]; [done|]. intros [Hall Hs]. rewrite fmap_cons. simpl.
  assert (Forall (fun kv => key_ltb j kv.1 = true) ((fun kv : K * V => if decide (kv.1 = k) then (kv.1, f kv.2) else kv) <$> m)).
  { apply Forall_fmap. eapply Forall_impl; [exact Hall|]. intros [] Hx. simpl in *. by case_decide. }
  case_decide; simpl; split; auto.
Qed.

Lemma compact_ok P m st d : ok_list P -> rep P m st -> times_of d P <> [] ->
  exists st', TxnsCacheState.compact_data_times st d = Ret st' /\ rep P m st' /\ frame st st'.
Proof.
  intros Hok Hr Hne. unfold TxnsCacheState.compact_data_times. pose proof (rep_times _ _ _ Hr d) as Ht.
  destruct (BTree.get d (datas st)) as [dt|] eqn:Hg; [|by destruct Ht].
  destruct (compact_rep P st d dt) as (dt' & -> & Ht'); [done|apply Hr|done..|]. simpl. eexists. split; [done|]. split; [|done].
  destruct Hr as [Hr1 Hr2 Hr3 Hr4 Hr5 Hr6 Hr7 Hr8]. split; simpl; [done..| | |done].
  - by apply update_sorted.
  - intros d'. rewrite (get_update_all _ _ _ dt) by done. case_decide; [by subst|]. apply Hr7.
Qed.

(** The dropped times are before every new write. *)
Lemma dropped_lt P d w0 ws ts : ok_list P -> times_of d P = w0 ++ ws -> ws <> [] -> Forall (fun w => w <= ts) (times_of d P) -> forall x, x ∈ w0 -> x < ts.
Proof.
  intros Hok He Hne Hle x Hx. pose proof (ok_times P Hok d) as Hs. rewrite He in Hs, Hle. destruct (exists_last Hne) as (ws' & y & ->).
  apply StronglySorted_app in Hs as (Hlt & _). specialize (Hlt x y Hx ltac:(apply elem_of_app; right; by constructor)).
  apply Forall_app in Hle as [_ Hle]. apply Forall_snoc in Hle as [_ Hle]. lia.
Qed.

Lemma values_in {V} (m : BTreeMap Z V) k v : BTree.get k m = Some v -> v ∈ BTree.values m.
Proof. intros Hg%BTree.elem_of_get. unfold BTree.values. apply list_elem_of_fmap. by exists (k, v). Qed.

Lemma get_sorted {K V} `{KeyOrd K} (m : BTreeMap K V) k v : BTree.sorted m -> (k, v) ∈ m -> BTree.get k m = Some v.
Proof.
  induction m as [|[j w] m IH]; [by intros _ ?%not_elem_of_nil|]. intros [Hall Hs] [[= -> ->]|Hin]%elem_of_cons; simpl; [by rewrite decide_True|].
  rewrite decide_False; [by apply IH|]. intros ->. pose proof (proj1 (Forall_forall _ _) Hall _ Hin) as Hlt. simpl in Hlt. by rewrite key_irrefl in Hlt.
Qed.

(** The writes dropped by compaction stay before the live ones. *)
Lemma live_commit P d' w0 ws d b ts : ok_list P -> times_of d' P = w0 ++ ws -> (times_of d' P <> [] -> ws <> []) ->
  (forall x y, x ∈ w0 -> y ∈ live P -> x < y.2) -> Forall (fun w => w <= ts) (times_of d' P) ->
  forall x y, x ∈ w0 -> y ∈ live P ++ [(d, b, ts)] -> x < y.2.
Proof.
  intros Hok He Hne Hlt Hle x y Hx [Hy|Hy%list_elem_of_singleton]%elem_of_app; [by apply Hlt|]. subst. simpl.
  eapply (dropped_lt P d' w0 ws); [done..| |done|done]. apply Hne. rewrite He. by destruct w0; [apply not_elem_of_nil in Hx|].
Qed.

Lemma commit_times P d b ts t dt : ok_list P -> is_open (last (regs_of d P)) -> Forall (fun w => w <= ts) (times_of d P) ->
  times_rep P d (Some dt) ->
  exists dt', TxnsCacheState.append_times dt ts = Ret dt' /\ times_rep (P ++ [(Append d ts b, t, 1)]) d (Some dt').
Proof.
  intros Hok Ho Hmax (Hne & (r0 & He) & Hw & w0 & Hw0 & Hlt). destruct dt as [rs ws]. simpl in *.
  destruct (exists_last Hne) as (rs' & r & ->). rewrite app_assoc in He. rewrite He, is_open_regs in Ho.
  unfold TxnsCacheState.append_times, DataTimes.last_reg. simpl. rewrite last_snoc. simpl. rewrite Ho. simpl. eexists. split; [done|].
  assert (Hlast : times_of d P <> [] -> last (times_of d P) = last ws).
  { intros Hws%Hw. rewrite Hw0. destruct (exists_last Hws) as (l & x & ->). by rewrite app_assoc, !last_snoc. }
  pose proof (live_commit P d w0 ws d b ts Hok Hw0 Hw Hlt Hmax) as Hlt'.
  snoc. split_and!; [by destruct rs'|exists r0; by rewrite He, app_assoc| |].
  - intros _. case_decide as Hl; [by intros ->|]. by destruct ws.
  - exists w0. destruct (decide (times_of d P = [])) as [Hn|Hn].
    + rewrite Hn in *. symmetry in Hw0. apply app_eq_nil in Hw0 as [-> ->]. by rewrite decide_True by done.
    + rewrite <- (Hlast Hn). case_decide as Hl.
      * rewrite (decide_False (P := last (times_of d P) = Some ts)) by tauto. split; [by rewrite Hw0, app_assoc|done].
      * rewrite (decide_True (P := last (times_of d P) = Some ts)); [done|]. destruct (decide (last (times_of d P) = Some ts)); tauto.
Qed.

Lemma commit_others P d b ts t d' o : ok_list P -> d' <> d -> Forall (fun w => w <= ts) (times_of d' P) -> times_rep P d' o ->
  times_rep (P ++ [(Append d ts b, t, 1)]) d' o.
Proof.
  intros Hok Hd Hmax Ht. destruct (times_frame P (Append d ts b, t, 1) d') as [Hr1 Hr2]; [by simpl; intros ? <- <-|].
  unfold times_rep in *. rewrite Hr1, Hr2. destruct o as [[rs ws]|]; [|done]. simpl in *. destruct Ht as (? & ? & Hw & w0 & Hw0 & Hlt). split_and!; [done..|].
  exists w0. split; [done|]. snoc. by eapply live_commit.
Qed.

Lemma indexed_insert st b i d ts : indexed st -> batch_idx st !! b = None -> BTree.get i (unapplied_batches st) = None ->
  indexed (TxnsCacheState.with_batches st (i + 1) (BTree.insert i (d, b, ts) (unapplied_batches st)) (<[b := i]> (batch_idx st))).
Proof.
  intros Hi Hb Hg b' j. simpl. rewrite get_insert. rewrite lookup_insert_Some. case_decide as Hj; subst.
  - split; [intros [[-> _]|[Hne Hb']]; [eauto|]|intros (? & ? & [= -> -> ->]); auto].
    apply Hi in Hb' as (? & ? & ?). congruence.
  - split; [intros [[_ ?]|[_ Hb']]; [done|by apply Hi]|]. intros Hb'. apply Hi in Hb'. right. split; [|done]. intros <-. congruence.
Qed.

Lemma fresh_next P m st b : rep P m st -> Forall (fun x => x.1.2 <> b) (live P) ->
  batch_idx st !! b = None /\ BTree.get (next_batch_id st) (unapplied_batches st) = None.
Proof.
  intros Hr Hfresh. split.
  - destruct (batch_idx st !! b) as [i|] eqn:E; [|done]. apply (rep_idx _ _ _ Hr) in E as (d' & ts' & E%values_in).
    rewrite (rep_values _ _ _ Hr) in E. by apply (proj1 (Forall_forall _ _) Hfresh) in E.
  - destruct (BTree.get _ _) as [v|] eqn:E; [|done]. apply BTree.elem_of_get in E.
    apply (proj1 (Forall_forall _ _) (rep_keys _ _ _ Hr)) in E. simpl in E. lia.
Qed.

Lemma commit_ok P m lo st d ts b t : ok_list P -> rep P m st -> progress_exclusive st = lo -> Z.of_nat (length P) < u64_max ->
  ok_next lo P (Append d ts b, t, 1) -> TxnsCacheState.tracks st d = true ->
  exists st', TxnsCacheState.push_append soft false st d b ts 1 = Ret st' /\ rep (P ++ [(Append d ts b, t, 1)]) m st' /\ frame st st'.
Proof.
  intros Hok Hr Hlo Hlen Hn Htr. pose proof (ok_snoc lo P _ Hok Hn) as Hok'. pose proof (rep_next _ _ _ Hr) as Hnb.
  destruct Hn as (Hle & [(_ & Hlots & Ho & Hfresh & Hmax)|[? _]]); [|done].
  unfold TxnsCacheState.push_append. rewrite only_ok, Htr by done. simpl.
  rewrite soft_true by (rewrite Hlo, (proj2 (Z.leb_le lo ts) Hlots); done). simpl.
  destruct (fresh_next P m st b) as [Hb Hg]; [done..|]. rewrite Hb, Hg. simpl.
  pose proof (rep_times _ _ _ Hr d) as Ht. destruct (BTree.get d (datas st)) as [dt|];
    [|destruct Ht as [Ht _]; rewrite Ht in Ho; by destruct Ho as (? & ? & _)].
  destruct (commit_times P d b ts t dt) as (dt' & Edt & Hdt'); [done..|apply Hmax|done|]. simpl. rewrite Edt. simpl.
  rewrite Z.mod_small by (unfold u64_max in Hlen; lia).
  match goal with |- context [TxnsCacheState.compact_data_times ?x d] => set (st1 := x) end.
  assert (Hr1 : rep (P ++ [(Append d ts b, t, 1)]) m st1).
  { destruct Hr as [Hr1 Hr2 Hr3 Hr4 Hr5 Hr6 Hr7 Hr8].
    assert (Hins : BTree.insert (next_batch_id st) (d, b, ts) (unapplied_batches st) = unapplied_batches st ++ [(next_batch_id st, (d, b, ts))]).
    { apply BTree.insert_last. eapply Forall_impl; [exact Hr3|]. intros [] Hx. simpl in *. by apply Z.ltb_lt. }
    split; simpl.
    - rewrite Hins. unfold BTree.values. snoc. by rewrite fmap_app, <- Hr1.
    - by apply BTree.sorted_insert.
    - rewrite Hins. apply Forall_snoc. split; [|simpl; lia]. eapply Forall_impl; [exact Hr3|]. intros [] Hx. simpl in *. lia.
    - rewrite length_app. simpl. lia.
    - apply (indexed_insert st b (next_batch_id st) d ts); done.
    - by apply BTree.sorted_insert.
    - intros d'. rewrite get_insert. case_decide; [by subst|]. by apply commit_others.
    - snoc. by rewrite app_nil_r. }
  destruct (compact_ok _ m st1 d Hok' Hr1) as (st' & -> & Hr' & Hf).
  { intros Hnil.
    assert (Hin : ts ∈ times_of d (P ++ [(Append d ts b, t, 1)])).
    { apply (ok_live_times _ Hok' d b). snoc. apply elem_of_app. right. by constructor. }
    rewrite Hnil in Hin. by apply not_elem_of_nil in Hin. }
  simpl. eexists. split; [done|]. split; [done|]. exact Hf.
Qed.

Lemma live_inj P d b ts d' ts' : ok_list P -> (d, b, ts) ∈ live P -> (d', b, ts') ∈ live P -> d' = d /\ ts' = ts.
Proof.
  intros Hok H1 H2. destruct (ok_live P Hok) as [Hn _].
  assert (forall l : list (ShardId * str * Z), NoDup ((fun x => x.1.2) <$> l) -> forall x y, x ∈ l -> y ∈ l -> x.1.2 = y.1.2 -> x = y) as Hinj.
  { clear. induction l as [|z l IH]; [by intros _ x y ?%not_elem_of_nil|]. rewrite fmap_cons, NoDup_cons. intros [Hz Hn] x y Hx Hy He.
    apply elem_of_cons in Hx as [->|Hx], Hy as [->|Hy]; [done| | |by apply IH].
    - destruct Hz. rewrite He. apply list_elem_of_fmap. eauto.
    - destruct Hz. rewrite <- He. apply list_elem_of_fmap. eauto. }
  specialize (Hinj _ Hn _ _ H1 H2 eq_refl). by simplify_eq.
Qed.

Lemma retract_ok P m lo st d ts b t : ok_list P -> rep P m st -> ok_next lo P (Append d ts b, t, -1) -> TxnsCacheState.tracks st d = true ->
  exists st', TxnsCacheState.push_append soft false st d b ts (-1) = Ret st' /\ rep (P ++ [(Append d ts b, t, -1)]) m st' /\ frame st st'.
Proof.
  intros Hok Hr Hn Htr. pose proof (ok_snoc lo P _ Hok Hn) as Hok'. destruct Hn as (Hle & [(? & _)|[_ Hin]]); [done|].
  unfold TxnsCacheState.push_append. rewrite only_ok, Htr by done. simpl. rewrite soft_true by (by rewrite orb_true_r). simpl.
  assert (exists i, BTree.get i (unapplied_batches st) = Some (d, b, ts)) as [i Hg].
  { rewrite <- (rep_values _ _ _ Hr) in Hin. apply list_elem_of_fmap in Hin as ([i v] & -> & Hin). exists i. apply get_sorted; [apply Hr|done]. }
  assert (Hb : batch_idx st !! b = Some i) by (apply (rep_idx _ _ _ Hr); eauto). rewrite Hb. simpl. rewrite Hg. simpl.
  rewrite !soft_true by (rewrite ?Z.leb_le; try done; by apply bool_decide_true). simpl.
  match goal with |- context [TxnsCacheState.compact_data_times ?x d] => set (st1 := x) end.
  assert (Hr1 : rep (P ++ [(Append d ts b, t, -1)]) m st1).
  { destruct Hr as [Hr1 Hr2 Hr3 Hr4 Hr5 Hr6 Hr7 Hr8].
    assert (Hi : forall k v, (k, v) ∈ unapplied_batches st -> k <> i <-> v.1.2 <> b).
    { intros k [[d' b'] ts'] Hkv. apply get_sorted in Hkv; [|done]. simpl. split.
      - intros Hne ->. apply Hne. assert (batch_idx st !! b = Some k) by (apply Hr5; eauto). congruence.
      - intros Hne ->. congruence. }
    split; simpl.
    - rewrite (values_removed i _ (fun x => x.1.2 <> b)) by done. snoc. by rewrite Hr1.
    - by apply BTree.sorted_remove.
    - apply Forall_forall. intros kv [Hkv _]%BTree.elem_of_remove. by apply (proj1 (Forall_forall _ _) Hr3).
    - rewrite length_app. lia.
    - intros b' j. simpl. rewrite lookup_delete_Some. destruct (decide (j = i)) as [->|Hj].
      + rewrite BTree.get_remove_eq. split; [|by intros (? & ? & ?)]. intros [Hne Hb']. apply Hr5 in Hb' as (? & ? & ?). congruence.
      + rewrite BTree.get_remove_ne by done. rewrite <- (Hr5 b' j). split; [tauto|]. intros Hb'. split; [|done]. intros <-. congruence.
    - done.
    - intros d'. specialize (Hr7 d'). unfold times_rep in *. snoc.
      rewrite decide_False by (intros (_ & ? & _); done). destruct (BTree.get d' (datas st)) as [dt|]; [|done].
      destruct Hr7 as (? & ? & ? & w0 & ? & Hlt). split_and!; [done..|]. exists w0. split; [done|]. intros x y Hx [_ Hy]%list_elem_of_filter. by apply Hlt.
    - snoc. by rewrite app_nil_r. }
  destruct (compact_ok _ m st1 d Hok' Hr1) as (st' & -> & Hr' & Hf).
  { snoc. rewrite decide_False by (intros (_ & ? & _); done). apply ok_live_times in Hin; [|done]. intros Hnil. rewrite Hnil in Hin. by apply not_elem_of_nil in Hin. }
  simpl. eexists. split; [done|]. split; [done|]. exact Hf.
Qed.

Lemma push_entry_ok P m lo st u : ok_list P -> rep P m st -> progress_exclusive st = lo -> m < lo -> Z.of_nat (length P) < u64_max ->
  ok_next lo P u -> TxnsCacheState.tracks st (entry_data_id u.1.1) = true ->
  exists st', TxnsCacheState.push_entry soft false st u = Ret st' /\ rep (P ++ [u]) m st' /\ frame st st'.
Proof.
  intros Hok Hr Hlo Hm Hlen Hn Htr. pose proof Hn as [Hle Hn']. destruct u as [[[d ts|d ts b] t] k]; simpl in *;
    rewrite soft_true by (by apply Z.leb_le); simpl.
  - by eapply register_ok.
  - destruct Hn' as [(-> & _)|(-> & _)]; [by eapply commit_ok|by eapply retract_ok].
Qed.
End push.
