(* ===== verification/TxnLog.v ===== *)
(** * The contents of a txns shard and what a cache learns of them

    [log_ok] says which updates the operations of the crate may write to a
    txns shard.  A cache reads the shard as of some time [s] and then follows
    it: its updates are those of the log with their times advanced to [s] and
    consolidated.  [follows] relates a cache to the log, and every batch of
    updates that persist hands to the cache keeps it. *)

From S2P Require Import Prelude BTree Paths TxnCache TxnCacheFacts.

Local Open Scope Z_scope.

Implicit Types (l : list Update) (d : ShardId) (b : str).

(** ** The log *)

(** An update at time [t] written together with [us] on top of [l]. *)
Definition may_write l (t : Z) (us : list Update) (u : Update) : Prop :=
  u.1.2 = t /\
  match u with
  | (Register d ts, _, k) =>
      ts = t /\ ((k = 1 /\ is_closed (last (regs_of d l))) \/ (k = -1 /\ is_open (last (regs_of d l))))
  | (Append d ts b, _, k) =>
      (k = 1 /\ ts = t /\ is_open (last (regs_of d l)) /\ (forall k', (Register d t, t, k') ∉ us) /\
       (forall d' ts' t' k', (Append d' ts' b, t', k') ∉ l) /\
       forall d' ts' t' k', (Append d' ts' b, t', k') ∈ us -> d' = d /\ ts' = t) \/
      (k = -1 /\ (d, b, ts) ∈ live l)
  end.

Inductive log_ok : list Update -> Prop :=
| log_nil : log_ok []
| log_snoc l t us : log_ok l -> (forall u, u ∈ l -> u.1.2 < t) -> 0 <= t ->
    NoDup ((fun u => u.1.1) <$> us) -> Forall (may_write l t us) us -> log_ok (l ++ us).

(** The updates of one entry. *)
Definition of_entry (e : TxnsEntry) l : list Update := filter (fun u => u.1.1 = e) l.

Lemma of_entry_app e l us : of_entry e (l ++ us) = of_entry e l ++ of_entry e us.
Proof. apply filter_app. Qed.

Lemma of_entry_batch e us : NoDup ((fun u => u.1.1) <$> us) -> of_entry e us = [] \/ exists u, of_entry e us = [u] /\ u.1.1 = e /\ u ∈ us.
Proof.
  induction us as [|u us IH]; [by left|]. rewrite fmap_cons, NoDup_cons. intros [Hn Hnd]. unfold of_entry in *. rewrite filter_cons.
  destruct (decide (u.1.1 = e)) as [<-|].
  - right. exists u. split_and!; [|done|by constructor]. rewrite filter_none; [done|]. apply Forall_forall. intros v Hv He.
    apply Hn. apply list_elem_of_fmap. by exists v.
  - destruct (IH Hnd) as [->|(v & -> & ? & ?)]; [by left|]. right. exists v. split_and!; [done..|by constructor].
Qed.

(** *** Shapes *)

Lemma live_mem L d b ts : (d, b, ts) ∈ live L -> exists t, (Append d ts b, t, 1) ∈ L.
Proof.
  induction L as [|u L IH] using rev_ind; [by intros ?%not_elem_of_nil|]. snoc. destruct u as [[[d' ts'|d' ts' b'] t] k]; simpl.
  - intros [t' Hin]%IH. exists t'. apply elem_of_app. by left.
  - destruct (Z.eqb_spec k 1) as [->|].
    + intros [[t' Hin]%IH|Hin%list_elem_of_singleton]%elem_of_app; [exists t'; apply elem_of_app; by left|].
      injection Hin as -> -> ->. exists t. apply elem_of_app. right. by constructor.
    + intros [_ [t' Hin]%IH]%list_elem_of_filter. exists t'. apply elem_of_app. by left.
Qed.

(** The batch named by an update. *)
Definition names (b : str) (u : Update) : Prop := match u.1.1 with Append _ _ b' => b' = b | _ => False end.

Lemma live_other b us acc d ts : Forall (fun u => ~ names b u) us -> (d, b, ts) ∈ foldl live_step acc us <-> (d, b, ts) ∈ acc.
Proof.
  intros Hall. revert acc. induction Hall as [|[[[d' ts'|d' ts' b'] t] k] us Hn _ IH]; intros acc; simpl; [done|apply IH|].
  rewrite IH. unfold names in Hn. simpl in Hn. destruct (k =? 1).
  - rewrite elem_of_app, list_elem_of_singleton. split; [|by left]. intros [?|[= -> -> ->]]; [done|]. by destruct Hn.
  - rewrite list_elem_of_filter. simpl. split; [tauto|]. intros ?. split; [|done]. intros ->. by apply Hn.
Qed.

(** A batch is named at most once in what is written together. *)
Definition named_once (b : str) (us : list Update) : Prop :=
  Forall (fun u => ~ names b u) us \/
  exists us1 u us2, us = us1 ++ u :: us2 /\ names b u /\ Forall (fun u => ~ names b u) us1 /\ Forall (fun u => ~ names b u) us2.

#[export] Instance names_dec b u : Decision (names b u).
Proof. unfold names. destruct u.1.1; apply _. Defined.

(** The entry under which the log knows a batch is unique. *)
Definition named_apart l : Prop := forall u v b, u ∈ l -> v ∈ l -> names b u -> names b v -> u.1.1 = v.1.1.

Lemma names_inv b u : names b u -> exists d ts t k, u = (Append d ts b, t, k).
Proof. destruct u as [[[d ts|d ts b'] t] k]; simpl; [done|]. unfold names. simpl. intros ->. eauto 6. Qed.

Lemma live_names l d b ts : (d, b, ts) ∈ live l -> exists u, u ∈ l /\ names b u /\ u.1.1 = Append d ts b.
Proof. intros [t Hin]%live_mem. by exists (Append d ts b, t, 1). Qed.

Lemma batch_apart l t us : named_apart l -> NoDup ((fun u => u.1.1) <$> us) -> Forall (may_write l t us) us ->
  forall u v b, u ∈ us -> v ∈ l ++ us -> names b u -> names b v -> u.1.1 = v.1.1.
Proof.
  intros Hl Hnd Hmw u v b Hu Hv Hnu Hnv. rewrite Forall_forall in Hmw. pose proof (Hmw u Hu) as [_ Hmu].
  apply names_inv in Hnu as (d & ts & t1 & k & ->), Hnv as (d' & ts' & t2 & k' & ->). simpl.
  destruct Hmu as [(-> & -> & _ & _ & Hfr & Hsame)|(-> & Hlive)].
  - apply elem_of_app in Hv as [Hv|Hv]; [by apply Hfr in Hv|]. by apply Hsame in Hv as [-> ->].
  - apply live_names in Hlive as (w & Hw & Hnw & Hew). apply elem_of_app in Hv as [Hv|Hv].
    + rewrite <- Hew. by apply (Hl w (Append d' ts' b, t2, k') b).
    + destruct (Hmw _ Hv) as [_ [(-> & -> & _ & _ & Hfr & Hsame)|(-> & Hlive)]].
      * apply names_inv in Hnw as (? & ? & ? & ? & ->). by apply Hfr in Hw.
      * apply live_names in Hlive as (w' & Hw' & Hnw' & Hew'). rewrite <- Hew, <- Hew'. by apply (Hl w w' b).
Qed.

Lemma log_apart l : log_ok l -> named_apart l.
Proof.
  induction 1 as [|l t us Hl IH Ht H0 Hnd Hmw]; [by intros u v b ?%not_elem_of_nil|].
  intros u v b Hu Hv Hnu Hnv. apply elem_of_app in Hu as [Hu|Hu]; [|by eapply batch_apart].
  pose proof Hv as Hv'. apply elem_of_app in Hv' as [Hv'|Hv']; [by apply (IH u v b)|]. symmetry. eapply batch_apart; [done..| | |]; [|done|done].
  apply elem_of_app. by left.
Qed.

Lemma once l t us b : named_apart l -> NoDup ((fun u => u.1.1) <$> us) -> Forall (may_write l t us) us -> named_once b us.
Proof.
  intros Hl Hnd Hmw. destruct (decide (Exists (names b) us)) as [He|He]; [right|left; by apply Forall_Exists_neg].
  apply Exists_exists in He as (u & Hu & Hn). pose proof Hu as (us1 & us2 & ->)%list_elem_of_split. exists us1, u, us2.
  assert (Hoth : forall v, v ∈ us1 ++ us2 -> ~ names b v).
  { intros v Hv Hnv. assert (u.1.1 = v.1.1) as He.
    { eapply batch_apart; [exact Hl|exact Hnd|exact Hmw|done| |done|done]. apply elem_of_app. right. rewrite elem_of_app, elem_of_cons.
      apply elem_of_app in Hv. tauto. }
    rewrite fmap_app, fmap_cons in Hnd. apply NoDup_app in Hnd as (_ & Hd & Hnd). apply NoDup_cons in Hnd as [Hnd _].
    apply elem_of_app in Hv as [Hv|Hv].
    - apply (Hd v.1.1); [apply list_elem_of_fmap; eauto|]. rewrite <- He. by constructor.
    - apply Hnd. rewrite He. apply list_elem_of_fmap. eauto. }
  split_and!; [done|done|apply Forall_forall; intros; apply Hoth, elem_of_app; by left|apply Forall_forall; intros; apply Hoth, elem_of_app; by right].
Qed.

(** The updates of a batch and whether it is live. *)
Lemma append_shape l : log_ok l -> forall d ts b, let e := Append d ts b in
  (of_entry e l = [] /\ (d, b, ts) ∉ live l) \/ (of_entry e l = [(e, ts, 1)] /\ (d, b, ts) ∈ live l) \/
  (exists t, ts < t /\ of_entry e l = [(e, ts, 1); (e, t, -1)] /\ (d, b, ts) ∉ live l).
Proof.
  induction 1 as [|l t us Hl IH Ht H0 Hnd Hmw]; intros d ts b e; [left; split; [done|apply not_elem_of_nil]|].
  pose proof (log_apart l Hl) as Hap. specialize (IH d ts b). simpl in IH. fold e in IH. pose proof (of_entry_app e l us) as Hof.
  assert (Hz : forall us, Forall (fun u => ~ names b u) us -> of_entry e us = []).
  { intros us' Hus. apply filter_none. eapply Forall_impl; [exact Hus|]. intros v Hv He. apply Hv. unfold names. by rewrite He. }
  assert (Hlive : live (l ++ us) = foldl live_step (live l) us) by (unfold live; apply foldl_app).
  destruct (once l t us b Hap Hnd Hmw) as [Hno|(us1 & u & us2 & -> & Hnu & Hn1 & Hn2)].
  - rewrite (Hz us Hno), app_nil_r in Hof. pose proof (live_other b us (live l) d ts Hno) as Hiff. rewrite <- Hlive in Hiff. rewrite Hof.
    destruct IH as [[? ?]|[[? ?]|(t1 & ? & ? & ?)]]; [left|right; left|right; right; exists t1]; rewrite Hiff; done.
  - apply names_inv in Hnu as (d' & ts' & t' & k & ->). rewrite foldl_app in Hlive. cbn [foldl] in Hlive.
    pose proof (live_other b us2 (live_step (foldl live_step (live l) us1) (Append d' ts' b, t', k)) d ts Hn2) as Hiff. rewrite <- Hlive in Hiff.
    assert (Hof' : of_entry e (us1 ++ (Append d' ts' b, t', k) :: us2) = of_entry e [(Append d' ts' b, t', k)]).
    { change ((Append d' ts' b, t', k) :: us2) with ([(Append d' ts' b, t', k)] ++ us2).
      by rewrite !of_entry_app, (Hz us1), (Hz us2), app_nil_r by done. }
    rewrite Hof' in Hof. clear Hof'.
    rewrite Forall_forall in Hmw. pose proof (Hmw (Append d' ts' b, t', k)) as [Ht' Hm]; [apply elem_of_app; right; by constructor|].
    simpl in Ht'. subst t'. rewrite Hof. clear Hof Hlive. unfold of_entry at 2 4 6. rewrite !filter_cons, !filter_nil. cbn [fst snd].
    destruct Hm as [(-> & -> & _ & _ & Hfr & _)|(-> & Hlv)]; cbn [live_step] in Hiff.
    + assert (of_entry e l = []) as He.
      { apply filter_none, Forall_forall. intros [[e' t1] k1] Hv He. simpl in He. subst e'. by apply Hfr in Hv. }
      destruct IH as [[_ IH]|[[IH _]|(? & _ & IH & _)]]; [|rewrite He in IH; done|rewrite He in IH; done]. rewrite He.
      simpl in Hiff. rewrite elem_of_app, list_elem_of_singleton, live_other in Hiff by done.
      destruct (decide (Append d' t b = e)) as [[= -> ->]|Hne].
      * right. left. split; [done|]. apply Hiff. by right.
      * left. split; [done|]. rewrite Hiff. intros [?|[= -> ->]]; [done|]. by apply Hne.
    + apply live_names in Hlv as Hw. simpl in Hiff. rewrite list_elem_of_filter in Hiff. simpl in Hiff.
      destruct (decide (Append d' ts' b = e)) as [[= -> ->]|Hne].
      * right. right. destruct IH as [[_ IH]|[[IH _]|(? & _ & _ & IH)]]; [done| |done]. exists t. rewrite IH. split_and!; [|done|tauto].
        apply Ht with (u := (e, ts, 1)). apply (list_elem_of_filter (fun u => u.1.1 = e)). fold (of_entry e l). rewrite IH. by constructor.
      * left. destruct Hw as (w & Hw & Hnw & Hew). assert (of_entry e l = []) as He.
        { apply filter_none, Forall_forall. intros v Hv He. apply Hne. rewrite <- Hew, <- He. apply (Hap w v b); [done..|].
          unfold names. by rewrite He. }
        rewrite He. split; [done|]. tauto.
Qed.

Lemma log_times l : log_ok l -> forall e t k, (e, t, k) ∈ l ->
  0 <= entry_ts e <= t /\ (k = 1 \/ k = -1) /\ (k = 1 -> t = entry_ts e) /\ (forall d ts, e = Register d ts -> t = ts).
Proof.
  induction 1 as [|l t us Hl IH Ht H0 Hnd Hmw]; intros e t' k Hin; [by apply not_elem_of_nil in Hin|].
  apply elem_of_app in Hin as [Hin|Hin]; [by apply IH|]. rewrite Forall_forall in Hmw. destruct (Hmw _ Hin) as [Et Hm]. simpl in Et. subst t'.
  destruct e as [d ts|d ts b]; simpl in *.
  - destruct Hm as (-> & [[-> _]|[-> _]]); split_and!; try lia; try (by intros ? ? [= -> ->]); auto.
  - destruct Hm as [(-> & -> & _)|(-> & Hlv)]; (split_and!; try lia; try done; auto).
    + apply live_mem in Hlv as (t1 & Hin1). apply IH in Hin1 as Hp. simpl in Hp. lia.
    + apply live_mem in Hlv as (t1 & Hin1). pose proof (Ht _ Hin1). apply IH in Hin1 as Hp. simpl in *. lia.
Qed.

Lemma register_shape l : log_ok l -> forall d ts, of_entry (Register d ts) l = [] \/
  exists k, of_entry (Register d ts) l = [(Register d ts, ts, k)].
Proof.
  induction 1 as [|l t us Hl IH Ht H0 Hnd Hmw]; intros d ts; [by left|]. rewrite of_entry_app. specialize (IH d ts).
  destruct (of_entry_batch (Register d ts) us Hnd) as [->|(u & -> & Hu & Hin)]; [by rewrite app_nil_r|].
  rewrite Forall_forall in Hmw. destruct (Hmw u Hin) as [Et Hm]. destruct u as [[e t'] k]. simpl in Hu, Et. subst. destruct Hm as [-> _].
  right. exists k. destruct IH as [->|[k' IH]]; [done|]. exfalso.
  assert (Hl' : (Register d t, t, k') ∈ l).
  { apply (list_elem_of_filter (fun u => u.1.1 = Register d t)). fold (of_entry (Register d t) l). rewrite IH. by constructor. }
  apply Ht in Hl'. simpl in Hl'. lia.
Qed.

(** ** What a reader sees *)

Definition window (p p' : Z) l : list Update := filter (fun u => p <= u.1.2 < p') l.
Definition upto (p : Z) l : list Update := filter (fun u => u.1.2 < p) l.
Definition advance (s : Z) (u : Update) : Update := (u.1.1, Z.max u.1.2 s, u.2).

Definition cancelled (s : Z) l (e : TxnsEntry) : Prop :=
  match e with Append _ _ _ => exists t, t <= s /\ (e, t, -1) ∈ l | _ => False end.

Lemma total_entry e t l : total e t l = total e t (of_entry e l).
Proof.
  unfold total, of_entry. do 2 f_equal. rewrite list_filter_filter. apply list_filter_iff. intros [[e' t'] k]. simpl.
  split; [by intros [= -> ->]|tauto].
Qed.

Lemma of_entry_window e s p p' l : of_entry e (advance s <$> window p p' l) = advance s <$> window p p' (of_entry e l).
Proof.
  unfold of_entry, window. induction l as [|u l IH]; [done|]. rewrite !filter_cons. destruct (decide (p <= u.1.2 < p')) as [Hw|Hw].
  - rewrite fmap_cons, filter_cons. simpl. destruct (decide (u.1.1 = e)); rewrite IH; [|done]. by rewrite filter_cons_True.
  - rewrite IH. destruct (decide (u.1.1 = e)); [|done]. by rewrite filter_cons_False.
Qed.

Lemma total_cons e t u l : total e t (u :: l) = (if decide (u.1 = (e, t)) then u.2 else 0) + total e t l.
Proof. unfold total. rewrite filter_cons. by case_decide. Qed.

Lemma elem_of_entry e l u : u ∈ of_entry e l <-> u.1.1 = e /\ u ∈ l.
Proof. unfold of_entry. by rewrite list_elem_of_filter. Qed.

(** The total of an entry at a time: what is in the log, unless it cancels. *)
Lemma window_single s p p' e t0 k0 t : (p = 0 /\ s < p') \/ s < p ->
  total e t (advance s <$> window p p' [(e, t0, k0)]) = if decide (p <= t0 < p' /\ t = Z.max t0 s) then k0 else 0.
Proof.
  intros Hs. unfold window. rewrite filter_cons, filter_nil. cbn [fst snd]. case_decide as Hw; cbn [fmap list_fmap advance fst snd]; rewrite ?total_cons; cbn [fst snd].
  - unfold total. simpl. destruct (decide (t = Z.max t0 s)) as [->|Hne].
    + rewrite !decide_True by done. lia.
    + rewrite !decide_False; [done|tauto|by intros [= ?]].
  - unfold total. simpl. rewrite decide_False; [done|]. tauto.
Qed.

Lemma total_window_app s p p' e t l1 l2 :
  total e t (advance s <$> window p p' (l1 ++ l2)) = total e t (advance s <$> window p p' l1) + total e t (advance s <$> window p p' l2).
Proof.
  unfold window. rewrite filter_app, fmap_app. generalize (advance s <$> filter (fun u => p <= u.1.2 < p') l1). intros l. induction l as [|u l IH]; [done|].
  simpl. rewrite !total_cons, IH. lia.
Qed.

Lemma window_total l s p p' : log_ok l -> (p = 0 /\ s < p') \/ s < p -> forall e t k, k <> 0 ->
  total e t (advance s <$> window p p' l) = k <-> exists t0, p <= t0 < p' /\ (e, t0, k) ∈ l /\ t = Z.max t0 s /\ ~ cancelled s l e.
Proof.
  intros Hl Hs e t k Hk. rewrite total_entry, of_entry_window.
  assert (Hmem : forall t0 k0, (e, t0, k0) ∈ l <-> (e, t0, k0) ∈ of_entry e l) by (intros; rewrite elem_of_entry; simpl; tauto).
  assert (Hcan : cancelled s l e <-> match e with Append _ _ _ => exists t, t <= s /\ (e, t, -1) ∈ of_entry e l | _ => False end).
  { destruct e; [done|]. simpl. by setoid_rewrite Hmem. }
  setoid_rewrite Hmem. setoid_rewrite Hcan. clear Hmem Hcan. destruct e as [d ts|d ts b].
  - destruct (register_shape l Hl d ts) as [->|[k' ->]]; [split; [by intros <-|]; intros (? & _ & ?%not_elem_of_nil & _); done|].
    setoid_rewrite list_elem_of_singleton. rewrite window_single by done. case_decide as Hw.
    + split; [intros ->; exists ts; tauto|]. intros (t0 & _ & [= _ ->] & _). done.
    + split; [intros <-; done|]. intros (t0 & ? & [= -> _] & -> & _). tauto.
  - set (e := Append d ts b) in *. destruct (append_shape l Hl d ts b) as [[He _]|[[He _]|(t2 & Ht2 & He & _)]]; fold e in He.
    + rewrite He. split; [by intros <-|]. intros (? & _ & ?%not_elem_of_nil & _). done.
    + rewrite He. rewrite window_single by done. setoid_rewrite list_elem_of_singleton. case_decide as Hw.
      * split; [intros <-; exists ts; split_and!; try tauto; by intros (? & _ & ?)|]. by intros (t0 & _ & [= _ ->] & _).
      * split; [by intros <-|]. intros (t0 & ? & [= -> _] & -> & _). tauto.
    + assert (Hts : 0 <= ts).
      { destruct (log_times l Hl e ts 1) as [? _]; [apply (elem_of_entry e); rewrite He; by constructor|simpl in *; lia]. }
      rewrite He. change [(e, ts, 1); (e, t2, -1)] with ([(e, ts, 1)] ++ [(e, t2, -1)]).
      rewrite total_window_app, !window_single by done. setoid_rewrite elem_of_app. setoid_rewrite list_elem_of_singleton.
      assert (Hc : (exists t, t <= s /\ ((e, t, -1) = (e, ts, 1) \/ (e, t, -1) = (e, t2, -1))) <-> t2 <= s).
      { split; [intros (x & ? & [[= ?]|[= ->]]); lia|]. intros. exists t2. auto. }
      setoid_rewrite Hc. clear Hc. split.
      * repeat case_decide; intros <-; [lia|exists ts|exists t2|done]; (split_and!; [lia|lia|auto|lia|lia]).
      * intros (t0 & ? & [[= -> ->]|[= -> ->]] & -> & ?); repeat case_decide; lia.
Qed.

(** *** Sorting *)

Lemma insert_ts_perm u L : insert_by_ts u L ≡ₚ u :: L.
Proof. induction L as [|v L IH]; [done|]. simpl. case_match; [done|]. rewrite IH. constructor. Qed.

Lemma sort_perm L : sort_by_ts L ≡ₚ L.
Proof. induction L as [|u L IH]; [done|]. simpl. by rewrite insert_ts_perm, IH. Qed.

Abbreviation by_ts := (fun u v : Update => entry_ts u.1.1 <= entry_ts v.1.1).

Lemma sort_sorted L : StronglySorted by_ts (sort_by_ts L).
Proof.
  induction L as [|u L IH]; [constructor|]. simpl. induction IH as [|v L' Hs IH Hall]; simpl; [by repeat constructor|].
  destruct (Z.leb_spec (entry_ts u.1.1) (entry_ts v.1.1)).
  - constructor; [by constructor|]. constructor; [done|]. eapply Forall_impl; [exact Hall|]. simpl. intros. lia.
  - constructor; [done|]. rewrite insert_ts_perm. constructor; [lia|done].
Qed.

(** Sorting is stable. *)
Lemma sort_stable e L : of_entry e (sort_by_ts L) = of_entry e L.
Proof.
  unfold of_entry. induction L as [|u L IH]; [done|]. simpl. rewrite filter_cons, <- IH. generalize (sort_by_ts L). clear. intros L.
  induction L as [|v L IH]; simpl; [by rewrite filter_cons|].
  destruct (Z.leb_spec (entry_ts u.1.1) (entry_ts v.1.1)); [by rewrite filter_cons|]. rewrite !(filter_cons _ v), IH.
  destruct (decide (u.1.1 = e)) as [<-|]; [|done]. destruct (decide (v.1.1 = u.1.1)) as [He|]; [rewrite He in *; lia|done].
Qed.

Lemma filter_after {A} (Q : A -> Prop) `{!forall x, Decision (Q x)} (L F1 F2 : list A) u v :
  filter Q L = F1 ++ u :: F2 -> v ∈ F2 -> exists L1 L2, L = L1 ++ u :: L2 /\ v ∈ L2.
Proof.
  revert F1. induction L as [|x L IH]; intros F1 Hf Hv; [by destruct F1|]. rewrite filter_cons in Hf. destruct (decide (Q x)) as [Hx|Hx].
  - destruct F1 as [|y F1]; simpl in Hf; injection Hf as -> Hf.
    + exists [], L. split; [done|]. assert (v ∈ filter Q L) as Hin by (by rewrite Hf). apply list_elem_of_filter in Hin. tauto.
    + destruct (IH F1 Hf Hv) as (L1 & L2 & -> & ?). by exists (y :: L1), L2.
  - destruct (IH F1 Hf Hv) as (L1 & L2 & -> & ?). by exists (x :: L1), L2.
Qed.

Section consolidated.
Context `{ConsolidateLaws}.

Lemma total_distinct L e t k : NoDup (fst <$> L) -> (e, t, k) ∈ L -> total e t L = k.
Proof.
  unfold total. induction L as [|[[e' t'] k'] L IH]; [by intros _ ?%not_elem_of_nil|]. rewrite fmap_cons, NoDup_cons. simpl.
  intros [Hn Hnd] [[= <- <- <-]|Hin]%elem_of_cons; rewrite filter_cons; simpl.
  - rewrite decide_True by done. rewrite filter_none; [simpl; lia|]. apply Forall_forall. intros [x k0] Hx Heq. simpl in Heq. subst.
    apply Hn. apply list_elem_of_fmap. by exists (e, t, k0).
  - rewrite decide_False; [by apply IH|]. intros [= -> ->]. apply Hn. apply list_elem_of_fmap. by exists (e, t, k).
Qed.

Lemma total_some L e t : total e t L <> 0 -> exists k, (e, t, k) ∈ L.
Proof.
  unfold total. destruct (filter (fun u : Update => u.1 = (e, t)) L) as [|[x k] F] eqn:E; [done|]. intros _. exists k.
  assert ((x, k) ∈ filter (fun u : Update => u.1 = (e, t)) L) as Hin by (rewrite E; by constructor).
  apply list_elem_of_filter in Hin as [Hx Hin]. simpl in Hx. by subst.
Qed.

Lemma elem_of_consolidated us e t k : (e, t, k) ∈ consolidate_updates us <-> total e t us = k /\ k <> 0.
Proof.
  split.
  - intros Hin. split; [|exact (consolidate_nonzero us _ Hin)]. rewrite <- consolidate_total. apply total_distinct; [apply consolidate_distinct|done].
  - intros [<- Hne]. rewrite <- consolidate_total in Hne |- *. destruct (total_some _ _ _ Hne) as [k Hin].
    by rewrite (total_distinct _ _ _ _ (consolidate_distinct us) Hin).
Qed.

(** What is processed: each update once, in the order of the entries' times,
    an addition before its retraction. *)
Lemma processed_order us es1 u es2 v : sort_by_ts (consolidate_updates us) = es1 ++ u :: es2 ->
  v ∈ es1 ++ u :: es2 -> v.1.1 = u.1.1 -> v.1.2 < u.1.2 -> v ∈ es1.
Proof.
  intros He Hv Hvu Hlt. apply elem_of_app in Hv as [?|[->|Hv]%elem_of_cons]; [done|lia|].
  pose proof (sort_stable u.1.1 (consolidate_updates us)) as Hst. rewrite He, of_entry_app in Hst. unfold of_entry in Hst at 2.
  rewrite filter_cons_True in Hst by done. symmetry in Hst. apply filter_after with (v := v) in Hst as (c1 & c2 & Hc & Hin).
  - destruct u as [[e t] k], v as [[e' t'] k']. simpl in *. subst. pose proof (consolidate_sorted _ _ _ _ _ _ _ _ Hc Hin). lia.
  - apply list_elem_of_filter. done.
Qed.

Lemma processed_distinct us : NoDup (fst <$> sort_by_ts (consolidate_updates us)).
Proof. rewrite sort_perm. apply consolidate_distinct. Qed.
End consolidated.

(** *** Registrations *)

Definition reg_of d (u : Update) : option (Z * Z) :=
  match u with (Register d' ts, _, k) => if decide (d' = d) then Some (ts, k) else None | _ => None end.
Definition reg_keys d (L : list Update) : list (Z * Z) := omap (reg_of d) L.
Definition regs_fold (ks : list (Z * Z)) : list DataRegistered :=
  foldl (fun rs x => if x.2 =? 1 then rs ++ [open_reg x.1] else close_last rs x.1) [] ks.
Definition before (ts : Z) (ks : list (Z * Z)) : list (Z * Z) := filter (fun x => x.1 < ts) ks.

Lemma regs_keys d L : regs_of d L = regs_fold (reg_keys d L).
Proof.
  induction L as [|u L IH] using rev_ind; [done|]. snoc. unfold reg_keys, regs_fold in *. rewrite omap_app, foldl_app, <- IH.
  destruct u as [[[d' ts|d' ts b] t] k]; simpl; [|done]. by destruct (decide (d' = d)).
Qed.

Lemma reg_keys_app d L1 L2 : reg_keys d (L1 ++ L2) = reg_keys d L1 ++ reg_keys d L2.
Proof. apply omap_app. Qed.

Lemma elem_of_reg_keys d L ts k : (ts, k) ∈ reg_keys d L <-> exists t, (Register d ts, t, k) ∈ L.
Proof.
  unfold reg_keys. rewrite list_elem_of_omap. split.
  - intros ([[[d' ts'|d' ts' b] t] k'] & Hin & He); simpl in He; [|done]. case_decide; [|done]. injection He as <- <-. subst. eauto.
  - intros [t Hin]. eexists. split; [exact Hin|]. simpl. by rewrite decide_True.
Qed.

Abbreviation ascending_keys := (StronglySorted (fun x y : Z * Z => x.1 < y.1)).

Lemma before_app ts k1 k2 : before ts (k1 ++ k2) = before ts k1 ++ before ts k2.
Proof. apply filter_app. Qed.

Lemma reg_keys_batch d l t us : Forall (may_write l t us) us -> NoDup ((fun u => u.1.1) <$> us) ->
  reg_keys d us = [] \/ exists k, reg_keys d us = [(t, k)] /\ (Register d t, t, k) ∈ us.
Proof.
  intros Hmw Hnd. assert (Hk : forall x, x ∈ reg_keys d us -> x.1 = t /\ (Register d t, t, x.2) ∈ us).
  { intros [ts k] [t' Hin]%elem_of_reg_keys. rewrite Forall_forall in Hmw. destruct (Hmw _ Hin) as [Et [Ets _]]. simpl in *. by subst. }
  clear Hmw. destruct (reg_keys d us) as [|x ks] eqn:E; [by left|right]. exists x.2. destruct (Hk x) as [Hx Hin]; [by constructor|].
  split; [|done]. destruct x as [ts k]. simpl in *. subst ts. f_equal. destruct ks as [|[ts' k'] ks]; [done|exfalso].
  destruct (Hk (ts', k')) as [Hx _]; [by do 2 constructor|]. simpl in Hx. subst ts'. clear Hk Hin.
  revert Hnd k k' ks E. induction us as [|u us IH]; [done|]. rewrite fmap_cons, NoDup_cons. intros [Hn Hnd] k k' ks E.
  unfold reg_keys in *. cbn [omap list_omap] in E. destruct (reg_of d u) as [y|] eqn:Eu; [|by eapply IH].
  injection E as -> E. assert (Hin : (t, k') ∈ reg_keys d us) by (unfold reg_keys; rewrite E; by constructor).
  apply elem_of_reg_keys in Hin as [t' Hin]. destruct u as [[[d' ts|d' ts b] t0] k0]; simpl in Eu; [|done]. case_decide; [|done].
  injection Eu as <- <-. subst. apply Hn. apply list_elem_of_fmap. by exists (Register d ts, t', k').
Qed.

Lemma log_regs l : log_ok l -> forall d, ascending_keys (reg_keys d l) /\
  (forall ts k, (ts, k) ∈ reg_keys d l -> (k = 1 /\ is_closed (last (regs_fold (before ts (reg_keys d l))))) \/
                                     (k = -1 /\ is_open (last (regs_fold (before ts (reg_keys d l)))))) /\
  (forall ts b, (Append d ts b, ts, 1) ∈ l -> is_open (last (regs_fold (before ts (reg_keys d l)))) /\ forall k, (ts, k) ∉ reg_keys d l).
Proof.
  induction 1 as [|l t us Hl IH Ht H0 Hnd Hmw]; intros d; [split_and!; [constructor|by intros ? ? ?%not_elem_of_nil..]|].
  destruct (IH d) as (Hs & Hk & Hc). clear IH. rewrite reg_keys_app.
  assert (Hlt : Forall (fun x => x.1 < t) (reg_keys d l)).
  { apply Forall_forall. intros [ts k] [t' Hin]%elem_of_reg_keys. pose proof (Ht _ Hin). apply log_times in Hin as (? & _); [|done]. simpl in *. lia. }
  assert (Hold : forall ts, ts <= t -> before ts (reg_keys d l ++ reg_keys d us) = before ts (reg_keys d l)).
  { intros ts Hts. rewrite before_app. destruct (reg_keys_batch d l t us Hmw Hnd) as [->|(k & -> & _)]; [apply app_nil_r|].
    unfold before at 2. rewrite filter_cons_False by (simpl; lia). apply app_nil_r. }
  assert (Hnow : before t (reg_keys d l) = reg_keys d l) by (by apply filter_all).
  pose proof (proj1 (Forall_forall _ _) Hmw) as Hmw'. split_and!.
  - destruct (reg_keys_batch d l t us Hmw Hnd) as [->|(k & -> & _)]; [by rewrite app_nil_r|].
    apply StronglySorted_app. split_and!; [|done|by repeat constructor]. intros x y Hx ->%list_elem_of_singleton. by apply (proj1 (Forall_forall _ _) Hlt).
  - intros ts k [Hin|Hin]%elem_of_app.
    + pose proof (proj1 (Forall_forall _ _) Hlt _ Hin) as Hx. simpl in Hx. rewrite Hold by lia. by apply Hk.
    + destruct (reg_keys_batch d l t us Hmw Hnd) as [Hb|(k' & Hb & Hin')]; rewrite Hb in Hin; [by apply not_elem_of_nil in Hin|].
      apply list_elem_of_singleton in Hin. injection Hin as -> ->. rewrite Hold, Hnow, <- regs_keys by lia. apply (Hmw' _ Hin').
  - intros ts b [Hin|Hin]%elem_of_app.
    + pose proof (Ht _ Hin) as Hx. simpl in Hx. rewrite Hold by lia. destruct (Hc ts b Hin) as [? Hn]. split; [done|]. intros k [?|Hin']%elem_of_app; [by eapply Hn|].
      destruct (reg_keys_batch d l t us Hmw Hnd) as [Hb|(k' & Hb & _)]; rewrite Hb in Hin'; [by apply not_elem_of_nil in Hin'|].
      apply list_elem_of_singleton in Hin'. injection Hin' as -> _. lia.
    + destruct (Hmw' _ Hin) as [Et [(_ & _ & Ho & Hno & _)|[? _]]]; [|done]. simpl in Et. subst ts.
      rewrite Hold, Hnow, <- regs_keys by lia. split; [done|]. intros k [Hin'|Hin']%elem_of_app.
      * apply (proj1 (Forall_forall _ _) Hlt) in Hin'. simpl in Hin'. lia.
      * destruct (reg_keys_batch d l t us Hmw Hnd) as [Hb|(k' & Hb & Hin2)]; rewrite Hb in Hin'; [by apply not_elem_of_nil in Hin'|]. by apply (Hno k').
Qed.

(** ** Following the log *)

Definition sees (only : option ShardId) d : Prop := match only with Some o => o = d | None => True end.

(** The updates before [p], for a reader that started at [s]. *)
Definition seen (only : option ShardId) (s p : Z) l (u : Update) : Prop :=
  sees only (entry_data_id u.1.1) /\
  exists t0, t0 < p /\ (u.1.1, t0, u.2) ∈ l /\ u.1.2 = Z.max t0 s /\ ~ cancelled s l u.1.1.

Record processed (only : option ShardId) (s p : Z) l (P : list Update) : Prop := {
  pr_ok : ok_list P;
  pr_mem : forall u, u ∈ P <-> seen only s p l u;
  pr_nodup : NoDup P;
  pr_keys : forall d, sees only d -> reg_keys d P = before p (reg_keys d l);
}.

(** A batch of updates from persist: any representation of the updates with
    times in [p, p'). *)
Definition delivers (only : option ShardId) (s p p' : Z) l (us : list Update) : Prop :=
  forall e t, (sees only (entry_data_id e) -> total e t us = total e t (advance s <$> window p p' l)) /\
         (~ sees only (entry_data_id e) -> total e t us = 0).

#[export] Instance sees_dec only d : Decision (sees only d).
Proof. destruct only; simpl; apply _. Defined.

Lemma times_mem d L w : w ∈ times_of d L -> exists b t, (Append d w b, t, 1) ∈ L.
Proof.
  induction L as [|u L IH] using rev_ind; [by intros ?%not_elem_of_nil|]. snoc. intros Hin.
  assert (Hcase : w ∈ times_of d L \/ exists b t, u = (Append d w b, t, 1)).
  { destruct u as [[[d' ts'|d' ts' b'] t] k]; simpl in Hin; [by left|]. case_decide as Hd; [|by left].
    apply elem_of_app in Hin as [?| ->%list_elem_of_singleton]; [by left|]. destruct Hd as (-> & -> & _). right. eauto. }
  destruct Hcase as [(b & t & ?)%IH|(b & t & ->)]; exists b, t; apply elem_of_app; [by left|right; by constructor].
Qed.

Lemma live_plus L d b ts t : (Append d ts b, t, 1) ∈ L -> (forall d' ts' t' k', (Append d' ts' b, t', k') ∈ L -> k' = 1) -> (d, b, ts) ∈ live L.
Proof.
  induction L as [|u L IH] using rev_ind; [by intros ?%not_elem_of_nil|]. snoc. intros Hin Hall.
  assert (Hall' : forall d' ts' t' k', (Append d' ts' b, t', k') ∈ L -> k' = 1).
  { intros d' ts' t' k' Hx. eapply Hall. apply elem_of_app. by left. }
  apply elem_of_app in Hin as [Hin|<-%list_elem_of_singleton]; [|simpl; apply elem_of_app; right; by constructor].
  specialize (IH Hin Hall'). destruct u as [[[d' ts'|d' ts' b'] t'] k]; simpl; [done|]. destruct (Z.eqb_spec k 1).
  - apply elem_of_app. by left.
  - apply list_elem_of_filter. split; [|done]. simpl. intros <-. destruct n. eapply Hall. apply elem_of_app. right. by constructor.
Qed.

Lemma keys_sorted d L : StronglySorted by_ts L -> NoDup L ->
  (forall ts t k t' k', (Register d ts, t, k) ∈ L -> (Register d ts, t', k') ∈ L -> t' = t /\ k' = k) -> ascending_keys (reg_keys d L).
Proof.
  intros Hs. induction Hs as [|u L Hs IH Hall]; intros Hnd Hu; [constructor|]. apply NoDup_cons in Hnd as [Hn Hnd].
  assert (IH' : ascending_keys (reg_keys d L)) by (apply IH; [done|]; intros; eapply Hu; by constructor).
  unfold reg_keys in *. cbn [omap list_omap]. destruct (reg_of d u) as [[ts k]|] eqn:Eu; [|done].
  constructor; [done|]. apply Forall_forall. intros [ts' k'] Hin. apply (elem_of_reg_keys d L) in Hin as [t' Hin]. simpl.
  destruct u as [[[d' ts0|d' ts0 b] t] k0]; simpl in Eu; [|done]. case_decide; [|done]. injection Eu as <- <-. subst.
  pose proof (proj1 (Forall_forall _ _) Hall _ Hin) as Hle. simpl in Hle. destruct (decide (ts0 = ts')) as [->|]; [|lia].
  destruct (Hu ts' t k0 t' k') as [-> ->]; [by constructor|by constructor|]. done.
Qed.

Lemma ascending_distinct ks : ascending_keys ks -> NoDup ks.
Proof.
  induction 1 as [|x ks Hs IH Hall]; constructor; [|done]. intros Hin. apply (proj1 (Forall_forall _ _) Hall) in Hin. lia.
Qed.

Lemma ascending_unique k1 k2 : ascending_keys k1 -> ascending_keys k2 -> (forall x, x ∈ k1 <-> x ∈ k2) -> k1 = k2.
Proof.
  intros H1 H2 He. eapply (StronglySorted_unique_strong (fun x y : Z * Z => x.1 < y.1)); [|done|done|].
  - intros x y _ _ ? ?. lia.
  - apply NoDup_Permutation; [by apply ascending_distinct..|done].
Qed.
