(* ===== verification/TxnFollow.v ===== *)
(** * A cache follows the log

    The updates that persist delivers to a cache in the log's windows are
    processed without a panic, and the cache then says of the log what its
    invariants promise: [follows]. *)

From S2P Require Import Prelude BTree Paths TxnCache TxnCacheFacts TxnLog.

Local Open Scope Z_scope.

Implicit Types (l : list Update) (d : ShardId) (b : str).

Lemma before_ascending B ks : ascending_keys ks -> ascending_keys (before B ks).
Proof.
  unfold before. induction 1 as [|x ks Hs IH Hall]; [constructor|]. rewrite filter_cons. case_decide; [|done]. constructor; [done|].
  apply Forall_forall. intros y [_ Hy]%list_elem_of_filter. by apply (proj1 (Forall_forall _ _) Hall).
Qed.

(** The times of an update in the log. *)
Lemma same_time l e t0 t1 k : log_ok l -> (e, t0, k) ∈ l -> (e, t1, k) ∈ l -> t0 = t1.
Proof.
  intros Hl Hi Hj. assert (Hsh : (e, t0, k) ∈ of_entry e l /\ (e, t1, k) ∈ of_entry e l) by (by rewrite !elem_of_entry). clear Hi Hj.
  destruct Hsh as [Hi Hj]. destruct e as [d ts|d ts b].
  - destruct (register_shape l Hl d ts) as [E|[k' E]]; rewrite E in *; [by apply not_elem_of_nil in Hi|].
    apply list_elem_of_singleton in Hi, Hj. congruence.
  - destruct (append_shape l Hl d ts b) as [[E _]|[[E _]|(t2 & _ & E & _)]]; rewrite E in *; [by apply not_elem_of_nil in Hi| |].
    + apply list_elem_of_singleton in Hi, Hj. congruence.
    + rewrite !elem_of_cons in Hi, Hj. rewrite !elem_of_nil in Hi, Hj. intuition congruence.
Qed.

Section deliver.
Context `{ConsolidateLaws} (only : option ShardId) (s p p' : Z) (l P us : list Update).
Hypothesis Hl : log_ok l.
Hypothesis Hwin : (p = 0 /\ s < p') \/ s < p.
Hypothesis Hpp : p <= p'.
Hypothesis HP : processed only s p l P.
Hypothesis Hus : delivers only s p p' l us.

Let es := sort_by_ts (consolidate_updates us).

Lemma delivered u : u ∈ es <-> sees only (entry_data_id u.1.1) /\
  exists t0, p <= t0 < p' /\ (u.1.1, t0, u.2) ∈ l /\ u.1.2 = Z.max t0 s /\ ~ cancelled s l u.1.1.
Proof.
  destruct u as [[e t] k]. simpl. unfold es. rewrite sort_perm, elem_of_consolidated. destruct (Hus e t) as [H1 H2]. split.
  - intros [Ht Hk]. destruct (decide (sees only (entry_data_id e))) as [Hs|Hs]; [|rewrite H2 in Ht by done; lia].
    split; [done|]. apply (window_total l s p p' Hl Hwin e t k Hk). by rewrite <- H1.
  - intros [Hs (t0 & Hw & Hin & Ht & Hc)]. assert (Hk : k <> 0) by (apply log_times in Hin as (_ & ? & _); [lia|done]). split; [|done].
    rewrite H1 by done. apply (window_total l s p p' Hl Hwin e t k Hk). by exists t0.
Qed.

Lemma es_nodup : NoDup es.
Proof. eapply NoDup_fmap_1, processed_distinct. Qed.

Lemma P_before u : u ∈ P -> exists t0, t0 < p /\ (u.1.1, t0, u.2) ∈ l /\ u.1.2 = Z.max t0 s.
Proof. intros (_ & t0 & ? & ? & ? & _)%(pr_mem _ _ _ _ _ HP). eauto. Qed.

Lemma P_es_disjoint u : u ∈ P -> u ∉ es.
Proof. intros (t0 & Hlt & Hin & _)%P_before (_ & t1 & Hw & Hin1 & _)%delivered. pose proof (same_time l _ _ _ _ Hl Hin Hin1). lia. Qed.

(** In the log. *)
Lemma part_log es1 es2 u : es = es1 ++ es2 -> u ∈ P ++ es1 -> exists t0, t0 < p' /\ (u.1.1, t0, u.2) ∈ l /\ u.1.2 = Z.max t0 s.
Proof.
  intros He [(t0 & ? & ? & ?)%P_before|Hin]%elem_of_app; [exists t0; split_and!; [lia|done..]|].
  assert (Hin' : u ∈ es) by (rewrite He; apply elem_of_app; by left). apply delivered in Hin' as (_ & t0 & ? & ? & ? & _). exists t0. split_and!; [lia|done..].
Qed.

Lemma part_nodup es1 es2 : es = es1 ++ es2 -> NoDup (P ++ es1).
Proof.
  intros He. apply NoDup_app. split_and!; [apply HP| |].
  - intros u Hu Hin. apply (P_es_disjoint u Hu). rewrite He. apply elem_of_app. by left.
  - pose proof es_nodup as Hn. rewrite He in Hn. by apply NoDup_app in Hn as (? & _).
Qed.

(** The registrations processed so far. *)
Lemma part_keys es1 es2 d B : es = es1 ++ es2 -> sees only d -> p <= B <= p' ->
  (forall ts t k, (Register d ts, t, k) ∈ es1 -> ts < B) ->
  (forall ts t k, (Register d ts, t, k) ∈ es -> ts < B -> (Register d ts, t, k) ∈ es1) ->
  reg_keys d (P ++ es1) = before B (reg_keys d l).
Proof.
  intros He Hsee HB H1 H2. destruct (log_regs l Hl d) as (Hasc & _ & _).
  assert (Hlog : forall ts t k, (Register d ts, t, k) ∈ es1 -> p <= ts /\ (Register d ts, ts, k) ∈ l /\ t = Z.max ts s).
  { intros ts t k Hin. assert (Hin' : (Register d ts, t, k) ∈ es) by (rewrite He; apply elem_of_app; by left).
    apply delivered in Hin' as (_ & t0 & Hw & Hl0 & Ht & _). simpl in *. pose proof (log_times l Hl _ _ _ Hl0) as (_ & _ & _ & Hts).
    specialize (Hts d ts eq_refl). subst. split_and!; [lia|done..]. }
  apply ascending_unique.
  - rewrite reg_keys_app, (pr_keys _ _ _ _ _ HP) by done. apply StronglySorted_app. split_and!.
    + intros [x kx] [y ky] [Hx _]%list_elem_of_filter [t Hy]%elem_of_reg_keys. apply Hlog in Hy as [? _]. simpl in *. lia.
    + by apply before_ascending.
    + apply keys_sorted.
      * pose proof (sort_sorted (consolidate_updates us)) as Hs. fold es in Hs. rewrite He in Hs. by apply StronglySorted_app in Hs as (_ & ? & _).
      * pose proof es_nodup as Hn. rewrite He in Hn. by apply NoDup_app in Hn as (? & _).
      * intros ts t k t' k' (_ & Hin & ->)%Hlog (_ & Hin' & ->)%Hlog. split; [done|].
        destruct (register_shape l Hl d ts) as [E|[k0 E]]; (assert (Hx : (Register d ts, ts, k) ∈ of_entry (Register d ts) l /\ (Register d ts, ts, k') ∈ of_entry (Register d ts) l) by (by rewrite !elem_of_entry));
          rewrite E in Hx; [by destruct Hx as [?%not_elem_of_nil _]|]. rewrite !list_elem_of_singleton in Hx. destruct Hx as [Hx Hx']. congruence.
  - by apply before_ascending.
  - intros [ts k]. rewrite reg_keys_app, (pr_keys _ _ _ _ _ HP) by done. unfold before. rewrite elem_of_app, !list_elem_of_filter. simpl. split.
    + intros [[? ?]|[t Hin]%elem_of_reg_keys]; [split; [lia|done]|]. pose proof (H1 _ _ _ Hin). apply Hlog in Hin as (_ & Hin & _). split; [done|].
      apply elem_of_reg_keys. eauto.
    + intros [Hlt Hin]. destruct (decide (ts < p)); [by left|right]. apply elem_of_reg_keys in Hin as [t0 Hin].
      pose proof (log_times l Hl _ _ _ Hin) as (_ & _ & _ & Hts). specialize (Hts d ts eq_refl). subst t0.
      apply elem_of_reg_keys. exists (Z.max ts s). apply H2; [|done]. apply delivered. simpl. split; [done|]. exists ts. split_and!; [lia|lia|done|done|tauto].
Qed.

Lemma part_sorted es1 u es2 v : es = es1 ++ u :: es2 -> v ∈ es -> (v ∈ es1 -> entry_ts v.1.1 <= entry_ts u.1.1) /\
  (entry_ts v.1.1 < entry_ts u.1.1 -> v ∈ es1).
Proof.
  intros He Hv. pose proof (sort_sorted (consolidate_updates us)) as Hs. fold es in Hs. rewrite He in Hs, Hv.
  apply StronglySorted_app in Hs as (Hlt & _ & Hs). inversion Hs as [|? ? _ Hall]; subst. split.
  - intros Hin. apply (Hlt v u Hin). by constructor.
  - intros Hvu. apply elem_of_app in Hv as [?|[->|Hv]%elem_of_cons]; [done|lia|].
    apply (proj1 (Forall_forall _ _) Hall) in Hv. simpl in Hv. lia.
Qed.

Lemma part_le es1 u es2 v : es = es1 ++ u :: es2 -> p <= entry_ts u.1.1 -> v ∈ P ++ es1 -> entry_ts v.1.1 <= entry_ts u.1.1.
Proof.
  intros He Hp [(t0 & Hlt & Hin & _)%P_before|Hin]%elem_of_app.
  - apply log_times in Hin as (? & _); [lia|done].
  - apply (part_sorted es1 u es2 v He); [|done]. rewrite He. apply elem_of_app. by left.
Qed.

Lemma part_regs es1 u es2 d : es = es1 ++ u :: es2 -> entry_data_id u.1.1 = d -> p <= entry_ts u.1.1 < p' ->
  (forall t k, (Register d (entry_ts u.1.1), t, k) ∉ es1) -> regs_of d (P ++ es1) = regs_fold (before (entry_ts u.1.1) (reg_keys d l)).
Proof.
  intros He Hd Hp Hno. rewrite regs_keys. f_equal.
  assert (Hu : u ∈ es) by (rewrite He; apply elem_of_app; right; by constructor). pose proof (proj1 (delivered u) Hu) as [Hsee _]. rewrite Hd in Hsee.
  apply (part_keys es1 (u :: es2)); [done..|lia| |].
  - intros ts t k Hin. assert (Hin' : (Register d ts, t, k) ∈ es) by (rewrite He; apply elem_of_app; by left).
    destruct (part_sorted es1 u es2 _ He Hin') as [Hle _]. specialize (Hle Hin). simpl in Hle.
    destruct (decide (ts = entry_ts u.1.1)) as [->|]; [|lia]. by apply Hno in Hin.
  - intros ts t k Hin Hlt. by apply (part_sorted es1 u es2 _ He Hin).
Qed.

Lemma part_fresh es1 u es2 : es = es1 ++ u :: es2 -> u ∉ P ++ es1.
Proof.
  intros He [Hin|Hin]%elem_of_app.
  - apply (P_es_disjoint u Hin). rewrite He. apply elem_of_app. right. by constructor.
  - pose proof es_nodup as Hn. rewrite He in Hn. apply NoDup_app in Hn as (_ & Hd & _). apply (Hd u Hin). by constructor.
Qed.

Lemma next_append es1 d ts b t es2 : es = es1 ++ (Append d ts b, t, 1) :: es2 -> ok_next p (P ++ es1) (Append d ts b, t, 1).
Proof.
  intros He. set (u := (Append d ts b, t, 1)) in *.
  assert (Hu : u ∈ es) by (rewrite He; apply elem_of_app; right; by constructor).
  apply delivered in Hu as (Hsee & t0 & Hw & Hin & Ht & Hc). simpl in Hsee, Hin, Ht. pose proof (log_times l Hl _ _ _ Hin) as (_ & _ & Hts & _).
  specialize (Hts eq_refl). simpl in Hts. subst t0. destruct (log_regs l Hl d) as (_ & _ & Hreg). destruct (Hreg ts b Hin) as [Hop Hno].
  split; [simpl; lia|]. left. split_and!; [done|lia| | |].
  - rewrite (part_regs es1 u es2 d He); [done|done|simpl; lia|]. intros t1 k1 Hx. simpl in Hx. apply (Hno k1).
    assert (Hx' : (Register d ts, t1, k1) ∈ es) by (rewrite He; apply elem_of_app; by left).
    apply delivered in Hx' as (_ & t2 & _ & Hx' & _). apply elem_of_reg_keys. eauto.
  - apply Forall_forall. intros [[d' b'] ts'] [t1 Hx]%live_mem Heq. simpl in Heq. subst b'. pose proof (part_log es1 (u :: es2) _ He Hx) as (t2 & _ & Hx2 & Ht2).
    simpl in Hx2, Ht2. pose proof (log_apart l Hl _ _ b Hx2 Hin eq_refl eq_refl) as Heq. simpl in Heq. injection Heq as -> ->.
    pose proof (same_time l _ _ _ _ Hl Hx2 Hin). subst t2. apply (part_fresh es1 u es2 He). unfold u. by rewrite Ht, <- Ht2.
  - intros d'. apply Forall_forall. intros w (b' & t1 & Hx)%times_mem. apply (part_le es1 u es2 _ He) in Hx; simpl in *; lia.
Qed.

Lemma next_retract es1 d ts b t es2 : es = es1 ++ (Append d ts b, t, -1) :: es2 -> ok_next p (P ++ es1) (Append d ts b, t, -1).
Proof.
  intros He. set (u := (Append d ts b, t, -1)) in *.
  assert (Hu : u ∈ es) by (rewrite He; apply elem_of_app; right; by constructor).
  apply delivered in Hu as (Hsee & t0 & Hw & Hin & Ht & Hc). simpl in Hsee, Hin, Ht.
  assert (Hs0 : s < t0) by (destruct (decide (t0 <= s)); [|lia]; destruct Hc; simpl; eauto). rewrite Z.max_l in Ht by lia. subst t0.
  pose proof (log_times l Hl _ _ _ Hin) as (Hle & _). split; [simpl in *; lia|]. right. split; [done|].
  assert (Hplus : (Append d ts b, ts, 1) ∈ l /\ ts < t).
  { assert (Hx : (Append d ts b, t, -1) ∈ of_entry (Append d ts b) l) by (by apply elem_of_entry).
    destruct (append_shape l Hl d ts b) as [[E _]|[[E _]|(t2 & ? & E & _)]]; rewrite E in Hx.
    - by apply not_elem_of_nil in Hx.
    - by apply list_elem_of_singleton in Hx.
    - split; [apply (elem_of_entry (Append d ts b)); rewrite E; by constructor|]. rewrite !elem_of_cons, elem_of_nil in Hx.
      destruct Hx as [[=]|[[= ->]|[]]]. done. }
  destruct Hplus as [Hplus Htt]. apply (live_plus _ d b ts (Z.max ts s)).
  - apply elem_of_app. destruct (decide (ts < p)) as [Hp|Hp].
    + left. apply (pr_mem _ _ _ _ _ HP). split; [done|]. exists ts. done.
    + right. assert (Hv : (Append d ts b, Z.max ts s, 1) ∈ es) by (apply delivered; split; [done|]; exists ts; split_and!; [lia|lia|done..]).
      rewrite He in Hv. by apply (processed_order us es1 u es2 _ He Hv); simpl; [|lia].
  - intros d' ts' t' k' Hx. pose proof (part_log es1 (u :: es2) _ He Hx) as (t2 & _ & Hx2 & Ht2). simpl in Hx2, Ht2.
    pose proof (log_apart l Hl _ _ b Hx2 Hin eq_refl eq_refl) as Heq. simpl in Heq. injection Heq as -> ->.
    pose proof (log_times l Hl _ _ _ Hx2) as (_ & [->| ->] & _); [done|]. exfalso. pose proof (same_time l _ _ _ _ Hl Hx2 Hin). subst t2.
    rewrite Z.max_l in Ht2 by lia. subst t'. by apply (part_fresh es1 u es2 He).
Qed.

Lemma next_ok es1 u es2 : es = es1 ++ u :: es2 -> ok_next p (P ++ es1) u.
Proof.
  intros He. assert (Hu : u ∈ es) by (rewrite He; apply elem_of_app; right; by constructor).
  apply delivered in Hu as (Hsee & t0 & Hw & Hin & Ht & Hc). pose proof (log_times l Hl _ _ _ Hin) as (Hle & Hk & Hk1 & Hreg).
  destruct u as [[[d ts|d ts b] t] k]; simpl in *.
  - specialize (Hreg d ts eq_refl). subst t0. destruct (log_regs l Hl d) as (_ & Hrule & _).
    assert (Hkey : (ts, k) ∈ reg_keys d l) by (apply elem_of_reg_keys; eauto). split_and!; [simpl; lia|lia| |].
    + apply Forall_forall. intros [d' ts'] Hev. unfold events in Hev. apply list_elem_of_omap in Hev as (v & Hv & Hev).
      apply (part_le es1 _ es2 v He) in Hv; [|simpl; lia]. destruct v as [[[d1 ts1|d1 ts1 b1] t1] k1]; simpl in *; [|done].
      destruct (ts1 =? t1); [|done]. by injection Hev as <- <-.
    + rewrite (part_regs es1 _ es2 d He); [by apply Hrule|done|simpl; lia|]. simpl. intros t1 k1 Hx.
      assert (Hx' : (Register d ts, t1, k1) ∈ es) by (rewrite He; apply elem_of_app; by left).
      apply delivered in Hx' as (_ & t2 & _ & Hx' & Ht1 & _). simpl in *. pose proof (log_times l Hl _ _ _ Hx') as (_ & _ & _ & Ht2).
      specialize (Ht2 d ts eq_refl). subst t2.
      assert (k1 = k) as ->.
      { destruct (register_shape l Hl d ts) as [E|[k0 E]];
          (assert (Hx2 : (Register d ts, ts, k) ∈ of_entry (Register d ts) l /\ (Register d ts, ts, k1) ∈ of_entry (Register d ts) l) by (by rewrite !elem_of_entry));
          rewrite E in Hx2; [by destruct Hx2 as [?%not_elem_of_nil _]|]. rewrite !list_elem_of_singleton in Hx2. destruct Hx2. congruence. }
      apply (part_fresh es1 _ es2 He). apply elem_of_app. right. congruence.
  - destruct Hk as [->| ->]; [by eapply next_append|by eapply next_retract].
Qed.

Lemma part_ok es1 es2 : es = es1 ++ es2 -> ok_list (P ++ es1).
Proof.
  revert es2. induction es1 as [|u es1 IH] using rev_ind; intros es2 He; [rewrite app_nil_r; apply HP|].
  rewrite <- app_assoc in He. rewrite app_assoc. eapply ok_snoc; [by eapply IH|]. by eapply next_ok.
Qed.

Lemma delivered_processed : processed only s p' l (P ++ es).
Proof.
  split.
  - apply (part_ok es []). by rewrite app_nil_r.
  - intros u. rewrite elem_of_app, (pr_mem _ _ _ _ _ HP), delivered. unfold seen. split.
    + intros [(? & t0 & ? & ?)|(? & t0 & ? & ?)]; (split; [done|]); exists t0; (split; [lia|done]).
    + intros (? & t0 & ? & ?). destruct (decide (t0 < p)); [left|right]; (split; [done|]); exists t0; (split; [lia|done]).
  - apply (part_nodup es []). by rewrite app_nil_r.
  - intros d Hsee. apply (part_keys es [] d p'); [by rewrite app_nil_r|done|lia| |done].
    intros ts t k (_ & t0 & ? & Hin & _)%delivered. apply log_times in Hin as (? & _); [simpl in *; lia|done].
Qed.

Lemma processed_length : (length (P ++ es) <= length l)%nat.
Proof.
  rewrite <- (length_fmap (advance s) l). apply submseteq_length, NoDup_submseteq; [apply (part_nodup es []); by rewrite app_nil_r|].
  intros u Hu. apply (part_log es []) in Hu as (t0 & _ & Hin & Ht); [|by rewrite app_nil_r]. apply list_elem_of_fmap.
  exists (u.1.1, t0, u.2). split; [|done]. unfold advance. simpl. rewrite <- Ht. by destruct u as [[] ].
Qed.
End deliver.

(** ** The relation *)

(** The cache started at [s] and has seen the log up to [p]; its registers up
    to [m] are marked as applied. *)
Definition follows (only : option ShardId) (s p : Z) l (m : Z) (st : TxnsCacheState) : Prop :=
  exists P, processed only s p l P /\ rep P m st /\ init_ts st = s /\ progress_exclusive st = p /\ only_data_id st = only.

Lemma follows_new only s l : log_ok l -> follows only s 0 l (-1) (TxnsCacheState.new s only).
Proof.
  intros Hl. exists []. split_and!; [|split; simpl; try done|done..].
  - split; [constructor| |constructor|].
    + intros [[e t] k]. unfold seen. simpl. split; [by intros ?%not_elem_of_nil|]. intros (_ & t0 & ? & Hin & _). apply log_times in Hin as (? & _); [lia|done].
    + intros d _. simpl. symmetry. apply filter_none, Forall_forall. intros [ts k] [t Hin]%elem_of_reg_keys. apply log_times in Hin as (? & _); [simpl in *; lia|done].
  - intros b i. simpl. rewrite lookup_empty. split; [done|]. by intros (? & ? & ?).
Qed.

Lemma tracks_sees st only d : only_data_id st = only -> TxnsCacheState.tracks st d = true <-> sees only d.
Proof. intros <-. unfold TxnsCacheState.tracks, sees. destruct (only_data_id st); [apply bool_decide_eq_true|done]. Qed.

Lemma push_follows `{ConsolidateLaws} soft only s p p' l m st us : log_ok l -> Z.of_nat (length l) <= u64_max ->
  (p = 0 /\ s < p') \/ s < p -> p <= p' -> m < p -> follows only s p l m st -> delivers only s p p' l us ->
  exists st', TxnsCacheState.push_entries soft false st us p' = Ret st' /\ follows only s p' l m st'.
Proof.
  intros Hl Hlen Hwin Hpp Hm (P & HP & Hrep & Hi & Hp & Ho) Hus. unfold TxnsCacheState.push_entries.
  set (es := sort_by_ts (consolidate_updates us)).
  pose proof (processed_length only s p p' l P us Hl Hwin Hpp HP Hus) as Hlen'. fold es in Hlen'.
  destruct (foldM_inv (TxnsCacheState.push_entry soft false) (fun i x => rep (P ++ take i es) m x /\ frame st x) es st) as (st1 & -> & Hr1 & Hf1).
  - simpl. rewrite app_nil_r. done.
  - intros i u st0 Hu [Hr0 Hf0]. pose proof (take_drop_middle es i u Hu) as He. symmetry in He. destruct Hf0 as (Hf1 & Hf2 & Hf3).
    destruct (push_entry_ok soft (P ++ take i es) m p st0 u) as (st1 & Hst1 & Hr1 & Hf).
    + by eapply (part_ok only s p p' l P us).
    + done.
    + by rewrite Hf2.
    + done.
    + rewrite length_app in Hlen' |- *. rewrite length_take. assert (i < length es)%nat by (by eapply lookup_lt_Some). lia.
    + by eapply (next_ok only s p p' l P us).
    + apply (tracks_sees st0 only); [congruence|]. apply (delivered only s p p' l us Hl Hwin Hus u). fold es. by eapply list_elem_of_lookup_2.
    + exists st1. split; [done|]. split.
      * by rewrite (take_S_r es i u Hu), app_assoc.
      * destruct Hf as (? & ? & ?). split_and!; congruence.
  - rewrite firstn_all in Hr1. simpl. eexists. split; [done|]. exists (P ++ es). destruct Hf1 as (Hf1 & Hf2 & Hf3). split_and!; [|split; apply Hr1|simpl; congruence..].
    by apply (delivered_processed only s p p' l P us).
Qed.

(** Later writes to the log do not matter. *)
Lemma cancelled_ext s l us e : (forall u, u ∈ us -> s < u.1.2) -> cancelled s (l ++ us) e <-> cancelled s l e.
Proof.
  intros Hus. destruct e; [done|]. simpl. split; intros (t & Ht & Hin); exists t; (split; [done|]).
  - apply elem_of_app in Hin as [?|Hin]; [done|]. apply Hus in Hin. simpl in Hin. lia.
  - apply elem_of_app. by left.
Qed.

Lemma seen_ext only s p l us u : (forall u, u ∈ us -> p <= u.1.2 /\ s < u.1.2) -> seen only s p (l ++ us) u <-> seen only s p l u.
Proof.
  intros Hus. unfold seen. setoid_rewrite (cancelled_ext s l us u.1.1); [|intros; by apply Hus]. apply and_iff_compat_l.
  split; intros (t0 & Ht & Hin & ?); exists t0; (split; [done|]); (split; [|done]).
  - apply elem_of_app in Hin as [?|Hin]; [done|]. apply Hus in Hin. simpl in Hin. lia.
  - apply elem_of_app. by left.
Qed.

Lemma follows_ext only s p l us m st : log_ok (l ++ us) -> (forall u, u ∈ us -> p <= u.1.2 /\ s < u.1.2) -> follows only s p l m st ->
  follows only s p (l ++ us) m st.
Proof.
  intros Hl Hus (P & [H1 H2 H3 H4] & ?). exists P. split; [|done]. split; [done| |done|].
  - intros u. rewrite seen_ext by done. apply H2.
  - intros d Hd. rewrite H4 by done. rewrite reg_keys_app, before_app. unfold before at 3. rewrite filter_none; [by rewrite app_nil_r|].
    apply Forall_forall. intros [ts k] [t Hin]%elem_of_reg_keys. destruct (Hus _ Hin) as [? _].
    destruct (log_times _ Hl (Register d ts) t k) as (_ & _ & _ & Ht); [apply elem_of_app; by right|]. specialize (Ht d ts eq_refl). simpl in *. lia.
Qed.

Lemma mark_follows only s p l m st ts : follows only s p l m st ->
  exists st', TxnsCacheState.mark_register_applied false st ts = Ret st' /\ follows only s p l (Z.max m ts) st'.
Proof.
  intros (P & HP & Hr & Hi & Hp & Ho). eexists. split; [done|]. exists P. split_and!; [done| |done..].
  destruct Hr as [H1 H2 H3 H4 H5 H6 H7 H8]. split; simpl; try done. rewrite H8, list_filter_filter. apply list_filter_iff. intros. lia.
Qed.

(** ** What the cache knows *)

Definition committed l d (w : Z) b : Prop := (Append d w b, w, 1) ∈ l.
Definition retracted l (p : Z) d (w : Z) b : Prop := exists t, t < p /\ (Append d w b, t, -1) ∈ l.
Definition reg_event l d (ts : Z) : Prop := exists k, (Register d ts, ts, k) ∈ l.

Lemma live_filtered b us acc d ts : (forall u, u ∈ us -> names b u -> u.2 <> 1) -> (d, b, ts) ∈ foldl live_step acc us -> (d, b, ts) ∈ acc.
Proof.
  revert acc. induction us as [|[[[d' ts'|d' ts' b'] t] k] us IH]; intros acc Hk; simpl; [done| |].
  - apply IH. intros. apply Hk; [by constructor|done].
  - intros Hin. apply IH in Hin; [|intros; apply Hk; [by constructor|done]]. destruct (Z.eqb_spec k 1) as [->|].
    + apply elem_of_app in Hin as [?|Hin%list_elem_of_singleton]; [done|]. injection Hin as -> -> ->.
      destruct (Hk (Append d' ts' b', t, 1)); [by constructor|done|done].
    + by apply list_elem_of_filter in Hin as [_ ?].
Qed.

Lemma ok_prefix P1 P2 : ok_list (P1 ++ P2) -> ok_list P1.
Proof.
  induction P2 as [|u P2 IH] using rev_ind; [by rewrite app_nil_r|]. rewrite app_assoc. intros Hok. inversion Hok as [He|lo P u' Hok' _ He].
  - by destruct (P1 ++ P2).
  - apply app_inj_tail in He as [-> _]. by apply IH.
Qed.

Lemma ok_middle P1 u P2 : ok_list (P1 ++ u :: P2) -> exists lo, ok_next lo P1 u.
Proof.
  intros Hok. change (u :: P2) with ([u] ++ P2) in Hok. rewrite app_assoc in Hok. apply ok_prefix in Hok. inversion Hok as [He|lo P u' _ Hn He].
  - by destruct P1.
  - apply app_inj_tail in He as [-> ->]. eauto.
Qed.

Section knows.
Context (only : option ShardId) (s p : Z) (l P : list Update).
Hypothesis Hl : log_ok l.
Hypothesis Hs : p = 0 \/ s < p.
Hypothesis HP : processed only s p l P.

Lemma processed_live d b w : (d, b, w) ∈ live P <-> sees only d /\ committed l d w b /\ w < p /\ ~ retracted l p d w b.
Proof.
  split.
  - intros Hlive. pose proof Hlive as [t Hin]%live_mem. pose proof Hin as Hin'. apply (pr_mem _ _ _ _ _ HP) in Hin' as (Hsee & t0 & Ht0 & Hl0 & _ & Hc).
    simpl in *. pose proof (log_times l Hl _ _ _ Hl0) as (_ & _ & Ht & _). specialize (Ht eq_refl). simpl in Ht. subst t0. split_and!; [done..|].
    intros (t2 & Ht2 & Hr). assert (Hrp : (Append d w b, Z.max t2 s, -1) ∈ P) by (apply (pr_mem _ _ _ _ _ HP); split; [done|]; exists t2; done).
    apply list_elem_of_split in Hrp as (P1 & P2 & HPe). destruct (ok_middle P1 (Append d w b, Z.max t2 s, -1) P2) as (lo & _ & Hnx); [rewrite <- HPe; apply HP|].
    destruct Hnx as [[? _]|[_ Hlv]]; [done|]. apply live_mem in Hlv as [t1 Hin1].
    rewrite HPe in Hlive. unfold live in Hlive. rewrite foldl_app in Hlive. simpl in Hlive. apply live_filtered in Hlive.
    + by apply list_elem_of_filter in Hlive as [Hne _].
    + intros [[e t3] k] Hu Hnm Hk1. simpl in Hk1. subst k. apply names_inv in Hnm as (d3 & w3 & t4 & k4 & Heq). injection Heq as -> <- <-.
      assert (HuP : (Append d3 w3 b, t3, 1) ∈ P) by (rewrite HPe; apply elem_of_app; right; by constructor).
      apply (pr_mem _ _ _ _ _ HP) in HuP as (_ & t5 & _ & Hl5 & Ht5 & _). simpl in Hl5, Ht5.
      pose proof (log_apart l Hl _ _ b Hl5 Hl0 eq_refl eq_refl) as Heq. simpl in Heq. injection Heq as -> ->.
      assert (t1 = t3) as ->.
      { assert (HuP : (Append d w b, t1, 1) ∈ P) by (rewrite HPe; apply elem_of_app; by left).
        apply (pr_mem _ _ _ _ _ HP) in HuP as (_ & t6 & _ & Hl6 & Ht6 & _). simpl in Hl6, Ht6. rewrite Ht5, Ht6. f_equal.
        by apply (same_time l (Append d w b) t6 t5 1). }
      pose proof (pr_nodup _ _ _ _ _ HP) as Hnd. rewrite HPe in Hnd. apply NoDup_app in Hnd as (_ & Hnd & _). apply (Hnd _ Hin1). by constructor.
  - intros (Hsee & Hc & Hw & Hnr). assert (H0 : 0 <= w) by (apply log_times in Hc as (? & _); [simpl in *; lia|done]).
    apply (live_plus P d b w (Z.max w s)).
    + apply (pr_mem _ _ _ _ _ HP). split; [done|]. exists w. split_and!; [done..|]. intros (t & Ht & Hin). apply Hnr. exists t. split; [lia|done].
    + intros d' ts' t' k' (_ & t0 & Ht0 & Hin & _)%(pr_mem _ _ _ _ _ HP). simpl in Hin.
      pose proof (log_apart l Hl _ _ b Hin Hc eq_refl eq_refl) as Heq. simpl in Heq. injection Heq as -> ->.
      pose proof (log_times l Hl _ _ _ Hin) as (_ & [->| ->] & _); [done|]. destruct Hnr. by exists t0.
Qed.

Lemma times_plus L d w b t : (Append d w b, t, 1) ∈ L -> w ∈ times_of d L.
Proof.
  induction L as [|u L IH] using rev_ind; [by intros ?%not_elem_of_nil|]. snoc. intros [Hin|<-%list_elem_of_singleton]%elem_of_app.
  - specialize (IH Hin). destruct u as [[[d' ts'|d' ts' b'] t'] k]; simpl; [done|]. case_decide; [|done]. apply elem_of_app. by left.
  - simpl. case_decide as Hd; [apply elem_of_app; right; by constructor|]. destruct (decide (last (times_of d L) = Some w)) as [Hla|]; [|tauto].
    apply last_Some in Hla as [ws ->]. apply elem_of_app. right. by constructor.
Qed.

(** Every write that is not before the start of the cache is seen. *)
Lemma processed_times d w b : sees only d -> committed l d w b -> s <= w < p -> w ∈ times_of d P.
Proof.
  intros Hsee Hc Hw. apply (times_plus P d w b (Z.max w s)). apply (pr_mem _ _ _ _ _ HP). split; [done|]. exists w. split_and!; [lia|done..|].
  intros (t & Ht & Hin). simpl in *.
  assert (Hx : (Append d w b, t, -1) ∈ of_entry (Append d w b) l) by (by apply elem_of_entry).
  destruct (append_shape l Hl d w b) as [[E _]|[[E _]|(t2 & ? & E & _)]]; rewrite E in Hx.
  - by apply not_elem_of_nil in Hx.
  - by apply list_elem_of_singleton in Hx.
  - rewrite !elem_of_cons, elem_of_nil in Hx. destruct Hx as [[=]|[[= ->]|[]]]. lia.
Qed.

Lemma processed_events d ts : (d, ts) ∈ events P <-> sees only d /\ reg_event l d ts /\ ts < p /\ s <= ts.
Proof.
  unfold events. rewrite list_elem_of_omap. split.
  - intros ([[[d' ts'|d' ts' b'] t] k] & Hin & He); simpl in He; [|done]. destruct (Z.eqb_spec ts' t) as [<-|]; [|done]. injection He as -> ->.
    apply (pr_mem _ _ _ _ _ HP) in Hin as (Hsee & t0 & Ht0 & Hl0 & Hm & _). simpl in *. pose proof (log_times l Hl _ _ _ Hl0) as (_ & _ & _ & Ht).
    specialize (Ht d ts eq_refl). subst t0. split_and!; [done|by exists k|done|lia].
  - intros (Hsee & [k Hin] & Hp & Hle). exists (Register d ts, ts, k). split; [|simpl; by rewrite Z.eqb_refl]. apply (pr_mem _ _ _ _ _ HP).
    split; [done|]. exists ts. split_and!; [done|done|simpl; lia|tauto].
Qed.

Lemma processed_regs d : sees only d -> regs_of d P = regs_fold (before p (reg_keys d l)).
Proof. intros Hsee. by rewrite regs_keys, (pr_keys _ _ _ _ _ HP). Qed.
End knows.
