(* ===== verification/TxnQuery.v ===== *)
(** * What the queries of a cache return

    For a cache that follows the log, the results of the queries of
    [TxnsCacheState] in terms of the log: which shards are registered, which
    batches need application, what a snapshot has to wait for and how far a
    listen may go. *)

From S2P Require Import Prelude BTree Paths TxnCache TxnCacheFacts TxnLog TxnFollow.

Local Open Scope Z_scope.

Implicit Types (l : list Update) (d : ShardId) (b : str).

(** The last registration of a shard before [p]. *)
Definition last_registration l (p : Z) d : option DataRegistered := last (regs_fold (before p (reg_keys d l))).

Definition registered_before l (p : Z) d : Prop := is_open (last_registration l p d).

(** Nothing happens to the shard in a range of times. *)
Definition quiet l d (lo hi : Z) : Prop :=
  (forall w b, committed l d w b -> ~ lo <= w < hi) /\ (forall ts, reg_event l d ts -> ~ lo <= ts < hi).

(** *** Registrations *)

Lemma before_all l p d : log_ok l -> (forall u, u ∈ l -> u.1.2 < p) -> before p (reg_keys d l) = reg_keys d l.
Proof.
  intros Hl Hp. apply filter_all, Forall_forall. intros [ts k] [t Hin]%elem_of_reg_keys. pose proof (Hp _ Hin) as Hlt.
  apply log_times in Hin as (? & _); [simpl in *; lia|done].
Qed.

Lemma last_all l p d : log_ok l -> (forall u, u ∈ l -> u.1.2 < p) -> last_registration l p d = last (regs_of d l).
Proof. intros. unfold last_registration. by rewrite before_all, regs_keys. Qed.

Lemma ascending_prefix ks x : ascending_keys (ks ++ [x]) -> forall y, y ∈ ks -> y.1 < x.1.
Proof. intros (Hlt & _)%StronglySorted_app y Hy. apply Hlt; [done|by constructor]. Qed.

Lemma regs_fold_snoc ks x : regs_fold (ks ++ [x]) = if x.2 =? 1 then regs_fold ks ++ [open_reg x.1] else close_last (regs_fold ks) x.1.
Proof. unfold regs_fold. by rewrite foldl_app. Qed.

Lemma regs_fold_times ks r : r ∈ regs_fold ks -> exists x, x ∈ ks /\ x.1 = register_ts r.
Proof.
  revert r. induction ks as [|x ks IH] using rev_ind; intros r Hin; [by apply not_elem_of_nil in Hin|].
  assert (Hcase : register_ts r = x.1 \/ exists r', r' ∈ regs_fold ks /\ register_ts r = register_ts r').
  { rewrite regs_fold_snoc in Hin. destruct (x.2 =? 1); [apply elem_of_app in Hin as [?| ->%list_elem_of_singleton]; eauto|].
    destruct (decide (regs_fold ks = [])) as [E|Hne]; [rewrite E in Hin; by apply not_elem_of_nil in Hin|]. destruct (exists_last Hne) as (rs & r1 & E).
    rewrite E, close_last_snoc in Hin. right. rewrite E. apply elem_of_app in Hin as [?| ->%list_elem_of_singleton].
    - exists r. split; [apply elem_of_app; by left|done].
    - exists r1. split; [apply elem_of_app; right; by constructor|done]. }
  destruct Hcase as [He|(r' & (y & ? & ?)%IH & He)].
  - exists x. split; [apply elem_of_app; right; by constructor|done].
  - exists y. split; [apply elem_of_app; by left|congruence].
Qed.

Lemma before_last l p d ks t k : log_ok l -> before p (reg_keys d l) = ks ++ [(t, k)] ->
  t < p /\ (t, k) ∈ reg_keys d l /\ (forall y, y ∈ ks -> y.1 < t) /\
  ((k = 1 /\ is_closed (last (regs_fold ks))) \/ (k = -1 /\ is_open (last (regs_fold ks)))).
Proof.
  intros Hl E. destruct (log_regs l Hl d) as (Hasc & Hrule & _). pose proof (before_ascending p _ Hasc) as Hasc'. rewrite E in Hasc'.
  pose proof (ascending_prefix ks (t, k) Hasc') as Hlt.
  assert (Hx : (t, k) ∈ before p (reg_keys d l)) by (rewrite E; apply elem_of_app; right; by constructor).
  apply list_elem_of_filter in Hx as [Htp Hin]. split_and!; [done..|].
  assert (Hb : before t (reg_keys d l) = ks).
  { transitivity (before t (before p (reg_keys d l))).
    - unfold before. rewrite list_filter_filter. apply list_filter_iff. simpl in *. intros. lia.
    - rewrite E, before_app. unfold before. rewrite filter_all, filter_cons_False by (try (simpl; lia); apply Forall_forall; apply Hlt). by rewrite filter_nil, app_nil_r. }
  pose proof (Hrule t k Hin) as Hk. by rewrite Hb in Hk.
Qed.

Lemma last_registration_some l p d : log_ok l -> before p (reg_keys d l) <> [] -> exists r, last_registration l p d = Some r.
Proof.
  intros Hl Hne. destruct (exists_last Hne) as (ks & [t k] & E). unfold last_registration. rewrite E, regs_fold_snoc.
  destruct (before_last l p d ks t k Hl E) as (_ & _ & _ & [[-> _]|[-> (rs & ts & ->)%last_open]]); simpl.
  - rewrite last_snoc. eauto.
  - rewrite close_last_snoc, last_snoc. eauto.
Qed.

(** The last registration has the last of the times. *)
Lemma last_reg_time l p d r : log_ok l -> last_registration l p d = Some r ->
  let t := match forget_ts r with Some f => f | None => register_ts r end in
  register_ts r <= t < p /\ reg_event l d t /\ forall ts, reg_event l d ts -> ts < p -> ts <= t.
Proof.
  intros Hl Hr. unfold last_registration in Hr.
  assert (Hev : forall ts, reg_event l d ts -> ts < p -> exists k, (ts, k) ∈ before p (reg_keys d l)).
  { intros ts [k Hin] Hp. exists k. apply list_elem_of_filter. split; [done|]. apply elem_of_reg_keys. eauto. }
  destruct (decide (before p (reg_keys d l) = [])) as [E|Hne]; [by rewrite E in Hr|].
  destruct (exists_last Hne) as (ks & [t k] & E). destruct (before_last l p d ks t k Hl E) as (Htp & Hin & Hlt & Hk). rewrite E in *.
  rewrite regs_fold_snoc in Hr.
  assert (Hlast : forall ts, reg_event l d ts -> ts < p -> ts <= t).
  { intros ts Hts Hp. destruct (Hev ts Hts Hp) as [k' [Hx|Hx%list_elem_of_singleton]%elem_of_app]; [apply Hlt in Hx; simpl in Hx; lia|injection Hx as -> _; lia]. }
  assert (Hret : reg_event l d t).
  { apply elem_of_reg_keys in Hin as [t' Hin]. pose proof (log_times l Hl _ _ _ Hin) as (_ & _ & _ & Ht). specialize (Ht d t eq_refl). subst. by exists k. }
  destruct Hk as [[-> _]|[-> (rs & ts & Hrs)%last_open]]; simpl in Hr.
  - rewrite last_snoc in Hr. injection Hr as <-. simpl. split_and!; [lia|done..].
  - rewrite Hrs, close_last_snoc, last_snoc in Hr. injection Hr as <-. simpl.
    destruct (regs_fold_times ks (open_reg ts)) as (x & Hx & Hxt); [rewrite Hrs; apply elem_of_app; right; by constructor|].
    apply Hlt in Hx. simpl in Hxt. split_and!; [lia|done..].
Qed.

(** A commit is after the start of a registration. *)
Lemma commit_registered l p d w b : log_ok l -> committed l d w b -> w < p -> before p (reg_keys d l) <> [].
Proof.
  intros Hl Hc Hw E. destruct (log_regs l Hl d) as (_ & _ & Hreg). destruct (Hreg w b Hc) as [(r & Hr & _) _].
  apply last_Some in Hr as [rs Hr]. destruct (regs_fold_times (before w (reg_keys d l)) r) as (x & Hx & _); [rewrite Hr; apply elem_of_app; right; by constructor|].
  apply list_elem_of_filter in Hx as [Hlt Hx]. assert (Hb : x ∈ before p (reg_keys d l)) by (apply list_elem_of_filter; split; [lia|done]).
  rewrite E in Hb. by apply not_elem_of_nil in Hb.
Qed.

Section query.
Context (only : option ShardId) (s p : Z) (l : list Update) (m : Z) (st : TxnsCacheState).
Hypothesis Hl : log_ok l.
Hypothesis Hs : p = 0 \/ s < p.
Hypothesis Hf : follows only s p l m st.

Lemma follows_live d b w : (d, b, w) ∈ BTree.values (unapplied_batches st) <-> sees only d /\ committed l d w b /\ w < p /\ ~ retracted l p d w b.
Proof. destruct Hf as (P & HP & Hr & _). rewrite (rep_values _ _ _ Hr). by apply (processed_live only s p l P). Qed.

Lemma follows_sorted : StronglySorted (fun x y => x.2 <= y.2) (BTree.values (unapplied_batches st)) /\
  NoDup ((fun x => x.1.2) <$> BTree.values (unapplied_batches st)).
Proof. destruct Hf as (P & HP & Hr & _). rewrite (rep_values _ _ _ Hr). destruct (ok_live P (pr_ok _ _ _ _ _ HP)). done. Qed.

Lemma follows_times d : sees only d ->
  match BTree.get d (datas st) with
  | None => last_registration l p d = None /\ forall w b, committed l d w b -> p <= w
  | Some dt => last (registered dt) = last_registration l p d /\ (exists r, last_registration l p d = Some r) /\
      (forall x, x ∈ writes dt -> x < p /\ exists b, committed l d x b) /\
      (forall w b, committed l d w b -> s <= w < p -> exists x, last (writes dt) = Some x /\ w <= x) /\
      (forall w b, committed l d w b -> w < p -> ~ retracted l p d w b -> w ∈ writes dt) /\ StronglySorted Z.lt (writes dt)
  end.
Proof.
  intros Hsee. destruct Hf as (P & HP & Hr & _). pose proof (rep_times _ _ _ Hr d) as Ht. pose proof (processed_regs only s p l P HP d Hsee) as Hregs.
  pose proof (pr_ok _ _ _ _ _ HP) as Hok. destruct (BTree.get d (datas st)) as [[rs ws]|]; simpl in Ht |- *.
  - destruct Ht as (Hne & (r0 & Hr0) & Hws & w0 & Hw0 & Hlt). unfold last_registration. rewrite <- Hregs, Hr0. destruct (exists_last Hne) as (rs' & r & ->).
    rewrite app_assoc, !last_snoc. split_and!; [done|by exists r| | | |].
    + intros x Hx. destruct (times_mem d P x) as (b & t & Hin); [rewrite Hw0; apply elem_of_app; by right|].
      apply (pr_mem _ _ _ _ _ HP) in Hin as (_ & t0 & Ht0 & Hl0 & _). simpl in Hl0. pose proof (log_times l Hl _ _ _ Hl0) as (_ & _ & Htx & _).
      specialize (Htx eq_refl). simpl in Htx. subst t0. eauto.
    + intros w b Hc Hw. pose proof (processed_times only s p l P Hl Hs HP d w b Hsee Hc Hw) as Hin.
      assert (Hne' : ws <> []) by (apply Hws; intros E; rewrite E in Hin; by apply not_elem_of_nil in Hin).
      destruct (exists_last Hne') as (ws' & x & ->). exists x. rewrite last_snoc. split; [done|]. rewrite Hw0, app_assoc in Hin.
      pose proof (ok_times P Hok d) as Hsrt. rewrite Hw0, app_assoc in Hsrt. apply StronglySorted_app in Hsrt as (Hsrt & _).
      apply elem_of_app in Hin as [Hin| ->%list_elem_of_singleton]; [|done]. specialize (Hsrt w x Hin ltac:(by constructor)). lia.
    + intros w b Hc Hw Hnr. assert (Hlive : (d, b, w) ∈ live P) by (by apply (processed_live only s p l P)).
      pose proof (ok_live_times P Hok d b w Hlive) as Hin. rewrite Hw0 in Hin. apply elem_of_app in Hin as [Hin|]; [|done].
      specialize (Hlt w _ Hin Hlive). simpl in Hlt. lia.
    + pose proof (ok_times P Hok d) as Hsrt. rewrite Hw0 in Hsrt. by apply StronglySorted_app in Hsrt as (_ & _ & ?).
  - destruct Ht as [Hr0 _]. rewrite Hr0 in Hregs. split; [unfold last_registration; by rewrite <- Hregs|].
    intros w b Hc. destruct (decide (w < p)) as [Hw|]; [|lia]. pose proof (commit_registered l p d w b Hl Hc Hw) as Hne.
    destruct (last_registration_some l p d Hl Hne) as [r Hx]. unfold last_registration in Hx. by rewrite <- Hregs in Hx.
Qed.

Lemma follows_registers d ts : (d, ts) ∈ unapplied_registers st <-> sees only d /\ reg_event l d ts /\ s <= ts < p /\ m < ts.
Proof.
  destruct Hf as (P & HP & Hr & _). rewrite (rep_regs _ _ _ Hr), list_elem_of_filter, (processed_events only s p l P Hl Hs HP). simpl. intuition lia.
Qed.

Lemma follows_registers_sorted : StronglySorted (fun x y => x.2 <= y.2) (unapplied_registers st).
Proof.
  destruct Hf as (P & HP & Hr & _). rewrite (rep_regs _ _ _ Hr). pose proof (ok_events P (pr_ok _ _ _ _ _ HP)) as Hsrt.
  clear -Hsrt. induction Hsrt as [|x ks Hsrt IH Hall]; [constructor|]. rewrite filter_cons. case_decide; [|done]. constructor; [done|].
  apply Forall_forall. intros y [_ Hy]%list_elem_of_filter. by apply (proj1 (Forall_forall _ _) Hall).
Qed.

Lemma follows_fields : init_ts st = s /\ progress_exclusive st = p /\ only_data_id st = only.
Proof. by destruct Hf as (P & _ & _ & ?). Qed.

Lemma follows_idx b : is_Some (batch_idx st !! b) <-> exists d w, (d, b, w) ∈ BTree.values (unapplied_batches st).
Proof.
  destruct Hf as (P & HP & Hr & _). split.
  - intros [i Hi]. apply (rep_idx _ _ _ Hr) in Hi as (d & ts & Hi%values_in). eauto.
  - intros (d & w & Hin). apply list_elem_of_fmap in Hin as ([i v] & Hv & Hin). simpl in Hv. subst v. exists i. apply (rep_idx _ _ _ Hr). exists d, w. apply get_sorted; [apply Hr|done].
Qed.

Lemma only_assert d : sees only d -> TxnsCacheState.assert_only_data_id st d = Ret tt.
Proof. intros Hsee. apply only_ok. destruct follows_fields as (_ & _ & Ho). by apply (tracks_sees st only). Qed.

Lemma registered_exact d : sees only d ->
  exists r, TxnsCacheState.registered_at_progress st d p = Ret r /\ (r = true <-> registered_before l p d).
Proof.
  intros Hsee. unfold TxnsCacheState.registered_at_progress. rewrite only_assert by done. simpl.
  destruct follows_fields as (_ & -> & _). rewrite Z.eqb_refl. simpl. pose proof (follows_times d Hsee) as Ht. unfold registered_before.
  destruct (BTree.get d (datas st)) as [dt|].
  - destruct Ht as (Hlast & [r Hr] & _). unfold DataTimes.last_reg. rewrite Hlast, Hr. simpl. eexists. split; [done|].
    unfold is_open. destruct (forget_ts r) eqn:E; simpl; split; try done; [intros (? & [= <-] & ?); congruence|eauto].
  - destruct Ht as [-> _]. exists false. split; [done|]. split; [done|]. by intros (? & ? & _).
Qed.

(** The time up to which everything is applied as far as the cache knows. *)
Lemma min_batch_le d b w : (d, b, w) ∈ BTree.values (unapplied_batches st) -> TxnsCacheState.min_batch_ts st <= w.
Proof.
  intros Hin. destruct follows_sorted as [Hsrt _]. unfold TxnsCacheState.min_batch_ts, BTree.first_key_value, BTree.values in *.
  destruct (unapplied_batches st) as [|[i [[d' b'] ts]] bs]; [by apply not_elem_of_nil in Hin|]. simpl in *.
  inversion Hsrt as [|? ? _ Hall]; subst. apply elem_of_cons in Hin as [[= -> -> ->]|Hin]; [done|]. apply (proj1 (Forall_forall _ _) Hall) in Hin. done.
Qed.

Lemma min_unapplied_le : only = None -> exists t, TxnsCacheState.min_unapplied_ts st = Ret t /\ t <= p /\
  (forall d b w, (d, b, w) ∈ BTree.values (unapplied_batches st) -> t <= w) /\ (forall d ts, (d, ts) ∈ unapplied_registers st -> t <= ts).
Proof.
  intros Ho. destruct follows_fields as (_ & Hp & Hon). unfold TxnsCacheState.min_unapplied_ts. rewrite Hon, Ho, bool_decide_true by done. simpl.
  eexists. split; [done|]. unfold TxnsCacheState.min_unapplied_ts_inner. rewrite Hp. split_and!.
  - destruct (unapplied_registers st) as [|[d ts] rs] eqn:E; [lia|]. assert (Hx : (d, ts) ∈ unapplied_registers st) by (rewrite E; by constructor).
    apply follows_registers in Hx. lia.
  - intros d b w Hin%min_batch_le. lia.
  - intros d ts Hin. pose proof follows_registers_sorted as Hsrt. destruct (unapplied_registers st) as [|[d' ts'] rs]; [by apply not_elem_of_nil in Hin|].
    inversion Hsrt as [|? ? _ Hall]; subst. apply elem_of_cons in Hin as [[= -> ->]|Hin]; [lia|]. apply (proj1 (Forall_forall _ _) Hall) in Hin. simpl in Hin. lia.
Qed.

(** The token of a snapshot: every write that may still be unapplied is at or
    before the one that the reader waits for. *)
Lemma find_rev_max (f : Z -> bool) ws w : StronglySorted Z.lt ws -> w ∈ ws -> f w = true -> exists x, find f (rev ws) = Some x /\ w <= x.
Proof.
  induction ws as [|y ws IH] using rev_ind; intros Hsrt Hin Hw; [by apply not_elem_of_nil in Hin|]. rewrite rev_app_distr. simpl.
  apply StronglySorted_app in Hsrt as (Hlt & Hsrt & _). apply elem_of_app in Hin as [Hin| ->%list_elem_of_singleton]; [|rewrite Hw; eauto with lia].
  destruct (f y); [|by apply IH]. exists y. split; [done|]. specialize (Hlt w y Hin ltac:(by constructor)). lia.
Qed.

Lemma snapshot_token d as_of : sees only d -> 0 <= as_of < p -> p <= u64_max ->
  exists snap, TxnsCacheState.data_snapshot st d as_of = Ret snap /\ ds_data_id snap = d /\ ds_as_of snap = as_of /\
    empty_to snap = Z.max (as_of + 1) s /\
    (forall w b, committed l d w b -> w <= as_of -> ~ retracted l p d w b -> exists x, latest_write snap = Some x /\ w <= x) /\
    (forall x, latest_write snap = Some x -> x <= as_of /\ exists b, committed l d x b).
Proof.
  intros Hsee Has Hp. unfold TxnsCacheState.data_snapshot. rewrite only_assert by done. destruct follows_fields as (Hi & Hpr & _). rewrite Hpr, Hi. simpl.
  rewrite (proj2 (Z.ltb_lt as_of p)) by lia. simpl. unfold step_forward. rewrite (proj2 (Z.ltb_lt as_of u64_max)) by lia. simpl.
  pose proof (follows_times d Hsee) as Ht. destruct (BTree.get d (datas st)) as [dt|].
  - destruct Ht as (_ & _ & Hw & _ & Hout & Hsrt). set (f := fun x => (x <=? as_of) && (TxnsCacheState.min_batch_ts st <=? x)).
    assert (Hfind : forall x, find f (rev (writes dt)) = Some x -> x <= as_of /\ x ∈ writes dt).
    { intros x Hx. apply find_some in Hx as [Hx Hfx]. apply andb_true_iff in Hfx as [Hfx%Z.leb_le _]. split; [done|]. apply list_elem_of_In. by apply in_rev. }
    assert (Hval : snapshot_valid {| ds_data_id := d; latest_write := find f (rev (writes dt)); ds_as_of := as_of; empty_to := Z.max (as_of + 1) s |} = true).
    { unfold snapshot_valid. simpl. apply andb_true_iff. split; [|apply Z.ltb_lt; lia]. destruct (find f _) as [x|]; [|done].
      destruct (Hfind x eq_refl). by apply Z.leb_le. }
    rewrite Hval. simpl. eexists. split; [done|]. simpl. split_and!; [done..| |].
    + intros w b Hc Hle Hnr. apply find_rev_max; [done|apply (Hout w b); [done|lia|done]|].
      apply andb_true_iff. rewrite !Z.leb_le. split; [done|]. apply (min_batch_le d b). apply follows_live. split_and!; [done..|lia|done].
    + intros x [? Hin]%Hfind. split; [done|]. by apply Hw in Hin as [_ ?].
  - destruct Ht as [_ Hno]. eexists. split; [done|]. simpl. split_and!; [done..| |done]. intros w b Hc Hle _. apply Hno in Hc. lia.
Qed.

(** The next action of a listen. *)
Lemma listen_next d ts : sees only d -> s <= ts <= p -> p <= u64_max ->
  exists r, TxnsCacheState.data_listen_next st d ts = Ret r /\
  match r with
  | WaitForTxnsProgress => ts = p
  | EmitLogicalProgress q => ts < q /\ q = p /\ registered_before l p d /\ quiet l d ts p
  | ReadDataTo q => ts < q <= p /\
      ((reg_event l d (q - 1) \/ exists b, committed l d (q - 1) b) \/ (q = p /\ ~ registered_before l p d /\ quiet l d ts p))
  end.
Proof.
  intros Hsee Hts Hp. unfold TxnsCacheState.data_listen_next. rewrite only_assert by done. destruct follows_fields as (Hi & Hpr & _). rewrite Hpr, Hi.
  cbn [obind]. rewrite (proj2 (Z.leb_le ts p)), (proj2 (Z.leb_le s ts)) by lia. cbn [assert_ obind].
  pose proof (follows_times d Hsee) as Ht. destruct (BTree.get d (datas st)) as [dt|].
  - destruct Ht as (Hlast & [r Hr] & Hw & Hmax & _). destruct (last_reg_time l p d r Hl Hr) as (Hrt & Hev & Hevs).
    assert (Hphys : exists ph, DataTimes.latest_physical_ts dt = Ret ph /\ register_ts r <= ph < p /\
      (reg_event l d ph \/ exists b, committed l d ph b) /\ quiet l d (Z.max s (ph + 1)) p).
    { unfold DataTimes.latest_physical_ts, DataTimes.last_reg. rewrite Hlast, Hr. cbn [expect obind]. eexists. split; [done|].
      set (a := match forget_ts r with Some f => Z.max (register_ts r) f | None => register_ts r end).
      assert (Ha : a = match forget_ts r with Some f => f | None => register_ts r end) by (subst a; destruct (forget_ts r); lia).
      rewrite <- Ha in Hrt, Hev, Hevs. clearbody a. clear Ha. destruct (last (writes dt)) as [x|] eqn:El.
      - destruct (Hw x) as [Hx [b Hb]]; [apply last_Some in El as [ws ->]; apply elem_of_app; right; by constructor|].
        split_and!; [lia|lia|destruct (Z.max_spec a x) as [[_ ->]|[_ ->]]; eauto|split].
        + intros w b' Hc Hr'. destruct (Hmax w b' Hc) as (x' & [= <-] & Hle); [lia|]. lia.
        + intros t' He Hr'. apply Hevs in He; lia.
      - split_and!; [lia|lia|by left|split].
        + intros w b' Hc Hr'. destruct (Hmax w b' Hc) as (x' & ? & _); [lia|done].
        + intros t' He Hr'. apply Hevs in He; lia. }
    destruct Hphys as (ph & -> & Hph & Hphe & Hq). unfold DataTimes.last_reg. rewrite Hlast, Hr. cbn [expect obind].
    destruct (Z.leb_spec p ts); [eexists; split; [done|]; simpl; lia|]. destruct (Z.leb_spec ts ph).
    { unfold step_forward. rewrite (proj2 (Z.ltb_lt ph u64_max)) by lia. cbn [obind]. eexists. split; [done|]. simpl. split; [lia|]. left.
      by replace (ph + 1 - 1) with ph by lia. }
    assert (Hq' : quiet l d ts p) by (destruct Hq as [Hq1 Hq2]; split; [intros w b Hc Hx; apply (Hq1 w b Hc); lia|intros t' He Hx; apply (Hq2 t' He); lia]).
    unfold registered_before, is_open. rewrite Hr. destruct (forget_ts r) as [f|] eqn:Ef; cbn [TxnsCacheState.is_none negb].
    + rewrite (proj2 (Z.ltb_lt (register_ts r) ts)) by lia. simpl. eexists. split; [done|]. simpl. split; [lia|]. right. split_and!; [done| |apply Hq'].
      intros (r' & [= <-] & ?). congruence.
    + unfold DataTimes.contains. rewrite Ef, (proj2 (Z.leb_le (register_ts r) ts)) by lia. simpl. eexists. split; [done|]. simpl. split_and!; [lia|done|eauto|apply Hq'].
  - destruct Ht as [Hno Hnc]. destruct (Z.ltb_spec ts p); eexists; (split; [done|]); simpl; [|lia]. split; [lia|]. right. unfold registered_before, is_open. rewrite Hno.
    split_and!; [done|by intros (? & ? & _)|split].
    + intros w b Hc%Hnc. lia.
    + intros t' [k He] Hx. assert (Hne : before p (reg_keys d l) <> []).
      { intros E. assert (Hb : (t', k) ∈ before p (reg_keys d l)) by (apply list_elem_of_filter; split; [simpl; lia|]; apply elem_of_reg_keys; eauto).
        rewrite E in Hb. by apply not_elem_of_nil in Hb. }
      destruct (last_registration_some l p d Hl Hne) as [r ?]. congruence.
Qed.

Lemma retractions_exact (rs : BTreeMap str (Z * ShardId)) up : only = None -> up <= p ->
  exists kept, TxnsCacheState.filter_retractions st up rs = Ret kept /\ kept `sublist_of` rs /\
    forall b v, (b, v) ∈ kept <-> (b, v) ∈ rs /\ exists d w, (d, b, w) ∈ BTree.values (unapplied_batches st).
Proof.
  intros Ho Hup. destruct follows_fields as (_ & Hpr & Hon). unfold TxnsCacheState.filter_retractions. rewrite Hon, Ho, bool_decide_true, Hpr by done. simpl.
  rewrite (proj2 (Z.leb_le up p)) by done. simpl. eexists. split; [done|]. split; [apply sublist_filter|]. intros b v.
  rewrite list_elem_of_filter. simpl. rewrite follows_idx. tauto.
Qed.
End query.
