(* ===== verification/Txns.v ===== *)
(** * Transactions across shards (src/src/txn-wal/src)

    The operations of a [TxnsHandle] as programs: [Prog] makes the calls to
    persist explicit, so that the operations of several processes can be
    interleaved at every call.  [Going] is a loop that has not finished,
    [Halted] a process that stops itself because another one has taken over.
    [TxnWorld] gives the calls their meaning. *)

From S2P Require Import Prelude BTree Paths Blob TxnCache.

Local Open Scope Z_scope.

(** ** Batches *)

(** A batch as it is passed around in its transmittable form: its bounds, the
    time its updates are rewritten to, if any, the schemas of its parts and
    its updates. *)
Record TBatch (Row : Type) := {
  tb_lower : Z;
  tb_upper : Z;
  tb_rewrite : option Z;
  tb_schemas : list N;
  tb_updates : list (Row * Z * Z);
}.
Arguments tb_lower {Row} _.
Arguments tb_upper {Row} _.
Arguments tb_rewrite {Row} _.
Arguments tb_schemas {Row} _.
Arguments tb_updates {Row} _.

(** [HollowBatch::rewrite_ts] for a batch whose since is the minimum. *)
Definition rewrite_ts {Row} (b : TBatch Row) (frontier new_upper : Z) : option (TBatch Row) :=
  if (frontier <? new_upper) && negb (new_upper <? tb_upper b) && negb (frontier <? tb_lower b) &&
     match tb_rewrite b with Some r => negb (frontier <? r) | None => true end
  then Some {| tb_lower := tb_lower b; tb_upper := new_upper; tb_rewrite := Some frontier; tb_schemas := tb_schemas b; tb_updates := tb_updates b |}
  else None.

(** The updates that readers of the batch see. *)
Definition contents {Row} (b : TBatch Row) : list (Row * Z * Z) :=
  match tb_rewrite b with
  | Some r => (fun u => (u.1.1, Z.max u.1.2 r, u.2)) <$> tb_updates b
  | None => tb_updates b
  end.

(** The encoding of a batch with a unique id, [ProtoIdBatch]. *)
Class IdBatchCodec (Row : Type) : Type := {
  encode_batch : N -> TBatch Row -> str;
  parse_batch : str -> TBatch Row;
}.
Class IdBatchLaws (Row : Type) `{IdBatchCodec Row} : Prop := {
  parse_encode : forall id b, parse_batch (encode_batch id b) = b;
  encode_id : forall id id' b b', encode_batch id b = encode_batch id' b' -> id = id';
}.

(** ** Programs *)

(** What a subscribe to the txns shard has handed out so far. *)
Record Subscribe := {
  sub_as_of : Z;
  sub_snapshot_pending : bool;
  sub_frontier : Z;
}.

(** A part of the txns shard: its statistics, the least and the greatest key,
    and its updates. *)
Record Part := {
  part_stats : option (str * str);
  part_updates : list Update;
}.

Inductive ListenEvent :=
| Progress (frontier : Z)
| Updates (parts : list Part).

(** The calls to persist.  [None] is the txns shard and [Some d] a data shard. *)
Inductive Eff (Row : Type) : Type -> Type :=
(** the upper last seen by the process; [None] if the shard is closed *)
| SharedUpper (shard : option ShardId) : Eff Row (option Z)
(** [compare_and_append]; an [Err] has the current upper *)
| CompareAndAppend (shard : option ShardId) (us : list Update) (expected new : Z) : Eff Row (option (result unit (option Z)))
| CompareAndAppendBatch (data_id : ShardId) (bs : list (TBatch Row)) (expected new : Z) : Eff Row (option (result unit (option Z)))
| WaitForUpperPast (data_id : ShardId) (ts : Z) : Eff Row unit
(** the since of a new reader of the txns shard *)
| OpenReader : Eff Row Z
| SubscribeNext (sub : Subscribe) : Eff Row (list ListenEvent * Subscribe)
(** the since of the critical handle, and its downgrade *)
| CriticalSince : Eff Row Z
| CompareAndDowngradeSince (since : Z) : Eff Row (result unit unit)
(** [Uuid::new_v4] *)
| NewUuid : Eff Row N
(** [snapshot_and_fetch] of a data shard; an [Err] has its since *)
| SnapshotAndFetch (data_id : ShardId) (as_of : Z) : Eff Row (result (list (Row * Z * Z)) Z)
(** which of two futures is polled next *)
| Poll : Eff Row bool.
Arguments SharedUpper {Row} shard.
Arguments CompareAndAppend {Row} shard us expected new.
Arguments CompareAndAppendBatch {Row} data_id bs expected new.
Arguments WaitForUpperPast {Row} data_id ts.
Arguments OpenReader {Row}.
Arguments SubscribeNext {Row} sub.
Arguments CriticalSince {Row}.
Arguments CompareAndDowngradeSince {Row} since.
Arguments NewUuid {Row}.
Arguments SnapshotAndFetch {Row} data_id as_of.
Arguments Poll {Row}.

Inductive Prog (Row A : Type) : Type :=
| Done (a : A)
| Panicked
| Halted
| Going
| Call {R : Type} (e : Eff Row R) (k : R -> Prog Row A).
Arguments Done {Row A} a.
Arguments Panicked {Row A}.
Arguments Halted {Row A}.
Arguments Going {Row A}.
Arguments Call {Row A R} e k.

Fixpoint bind {Row A B} (p : Prog Row A) (f : A -> Prog Row B) : Prog Row B :=
  match p with
  | Done a => f a
  | Panicked => Panicked
  | Halted => Halted
  | Going => Going
  | Call e k => Call e (fun r => bind (k r) f)
  end.

Declare Scope prog_scope.
Delimit Scope prog_scope with prog.
Notation "'do' x := p 'in' q" := (bind p (fun x => q))
  (at level 10, x pattern, p at level 100, q at level 200, format "'[v' 'do'  x  :=  p  'in' '/' q ']'") : prog_scope.
Local Open Scope prog_scope.

Definition lift {Row A} (o : outcome A) : Prog Row A := match o with Ret a => Done a | Panic => Panicked end.
Definition call {Row R} (e : Eff Row R) : Prog Row R := Call e Done.

(** [expect] on a value of a program. *)
Definition must {Row A} (o : option A) : Prog Row A := lift (expect o).

(** Two futures that run concurrently: whichever is polled runs up to its next
    call. *)
Fixpoint par {Row A B} (p : Prog Row A) : Prog Row B -> Prog Row (A * B) :=
  match p with
  | Done a => fun q => bind q (fun b => Done (a, b))
  | Panicked => fun _ => Panicked
  | Halted => fun _ => Halted
  | Going => fun _ => Going
  | Call e k =>
      fix par_call q :=
        match q with
        | Done b => Call e (fun r => bind (k r) (fun a => Done (a, b)))
        | Panicked => Panicked
        | Halted => Halted
        | Going => Going
        | Call e' k' =>
            Call Poll (fun first : bool => if first then Call e (fun r => par (k r) q) else Call e' (fun r => par_call (k' r)))
        end
  end.

(** [FuturesUnordered] *)
Fixpoint join {Row A} (ps : list (Prog Row A)) : Prog Row (list A) :=
  match ps with
  | [] => Done []
  | p :: ps => do (a, l) := par p (join ps) in Done (a :: l)
  end.

(** ** The cache that updates itself (txn_cache.rs) *)

Record TxnsCache := {
  txns_subscribe : Subscribe;
  buf : list Update;
  state : TxnsCacheState;
}.

(** ** Transactions in progress (txn_write.rs) *)

Record TxnWrite (Row : Type) := {
  batches : list (TBatch Row);
  staged : list (TBatch Row);
  tw_writes : list (Row * Z);
}.
Arguments batches {Row} _.
Arguments staged {Row} _.
Arguments tw_writes {Row} _.

Definition TxnWrite_default {Row} : TxnWrite Row := {| batches := []; staged := []; tw_writes := [] |}.

Definition TxnWrite_merge {Row} (self other : TxnWrite Row) : TxnWrite Row := {|
  batches := batches self ++ batches other; staged := staged self ++ staged other; tw_writes := tw_writes self ++ tw_writes other |}.

(** The retractions of applied batches that are still to be written (txns.rs). *)
Abbreviation Tidy := (BTreeMap str (Z * ShardId)).

Definition Tidy_merge (self other : Tidy) : Tidy := foldl (fun m kv => BTree.insert kv.1 kv.2 m) self other.

Record Txn (Row : Type) := {
  txn_writes : BTreeMap ShardId (TxnWrite Row);
  txn_tidy : Tidy;
}.
Arguments txn_writes {Row} _.
Arguments txn_tidy {Row} _.

Record TxnApply := {
  is_empty : bool;
  apply_commit_ts : Z;
}.

Module Txn.
Section txn.
Context {Row : Type}.
Implicit Types self : Txn Row.

Definition new : Txn Row := {| txn_writes := []; txn_tidy := [] |}.

(** [entry(data_id).or_default()] followed by an update *)
Definition entry self (data_id : ShardId) (f : TxnWrite Row -> TxnWrite Row) : Txn Row := {|
  txn_writes := BTree.insert data_id (f (default TxnWrite_default (BTree.get data_id (txn_writes self)))) (txn_writes self);
  txn_tidy := txn_tidy self |}.

Definition write self (data_id : ShardId) (row : Row) (diff : Z) : Txn Row :=
  entry self data_id (fun w => {| batches := batches w; staged := staged w; tw_writes := tw_writes w ++ [(row, diff)] |}).

Definition write_batch self (data_id : ShardId) (batch : TBatch Row) : Txn Row :=
  entry self data_id (fun w => {| batches := batches w; staged := staged w ++ [batch]; tw_writes := tw_writes w |}).

Definition tidy self (tidy : Tidy) : Txn Row := {| txn_writes := txn_writes self; txn_tidy := Tidy_merge (txn_tidy self) tidy |}.

Definition take_tidy self : Tidy * Txn Row := (txn_tidy self, {| txn_writes := txn_writes self; txn_tidy := [] |}).

Definition merge self (other : Txn Row) : Txn Row :=
  let self := foldl (fun self kv => entry self kv.1 (fun w => TxnWrite_merge w kv.2)) self (txn_writes other) in
  tidy self (txn_tidy other).
End txn.
End Txn.

Section ops.
Context {Row : Type} `{UuidCodec} `{Consolidate} `{IdBatchCodec Row} (soft debug apply_ensure_schema_match : bool) (fuel : nat).
Local Abbreviation Prog := (Prog Row).

(** [TxnsCodecDefault::should_fetch_part] on the statistics of the keys. *)
Definition codec_should_fetch_part (data_id : ShardId) (stats : str * str) : bool :=
  let data_id_str := ShardId_fmt data_id in
  negb (str_ltb data_id_str stats.1) && negb (str_ltb stats.2 data_id_str).

Definition should_fetch_part (only_data_id : option ShardId) (part : Part) : bool :=
  match only_data_id, part_stats part with
  | Some only_data_id, Some stats => codec_should_fetch_part only_data_id stats
  | _, _ => true
  end.

Definition fetch_parts (only_data_id : option ShardId) (parts : list Part) (updates : list Update) : list Update :=
  foldl (fun updates part =>
    if should_fetch_part only_data_id part then
      updates ++ match only_data_id with
                 | Some only_data_id => filter (fun u => entry_data_id u.1.1 = only_data_id) (part_updates part)
                 | None => part_updates part
                 end
    else updates) updates parts.

Definition on_event (only_data_id : option ShardId) (c : TxnsCache) (event : ListenEvent) : outcome TxnsCache :=
  match event with
  | Progress progress =>
      let! st := TxnsCacheState.push_entries soft debug (state c) (buf c) progress in
      Ret {| txns_subscribe := txns_subscribe c; buf := []; state := st |}
  | Updates parts =>
      Ret {| txns_subscribe := txns_subscribe c; buf := fetch_parts only_data_id parts (buf c); state := state c |}
  end.

Fixpoint update_loop (n : nat) (only_data_id : option ShardId) (c : TxnsCache) (done : Z -> bool) : Prog TxnsCache :=
  if done (progress_exclusive (state c)) then
    do _ := lift (TxnsCacheState.debug_assert debug (TxnsCacheState.validate (state c))) in Done c
  else
    match n with
    | O => Going
    | S n =>
        do (events, sub) := call (SubscribeNext (txns_subscribe c)) in
        do c := lift (foldM (on_event only_data_id) events {| txns_subscribe := sub; buf := buf c; state := state c |}) in
        update_loop n only_data_id c done
    end.

Definition update (only_data_id : option ShardId) (c : TxnsCache) (done : Z -> bool) : Prog TxnsCache :=
  update_loop fuel only_data_id c done.

Definition update_gt (c : TxnsCache) (ts : Z) : Prog TxnsCache :=
  do c := update (only_data_id (state c)) c (fun progress_exclusive => ts <? progress_exclusive) in
  do _ := lift (TxnsCacheState.soft_assert soft (ts <? progress_exclusive (state c))) in
  do _ := lift (TxnsCacheState.debug_assert debug (TxnsCacheState.validate (state c))) in
  Done c.

Definition update_ge (c : TxnsCache) (ts : Z) : Prog TxnsCache :=
  do c := update (only_data_id (state c)) c (fun progress_exclusive => ts <=? progress_exclusive) in
  do _ := lift (TxnsCacheState.soft_assert soft (ts <=? progress_exclusive (state c))) in
  do _ := lift (TxnsCacheState.debug_assert debug (TxnsCacheState.validate (state c))) in
  Done c.

(** [TxnsCacheState::init] *)
Definition state_init (only_data_id : option ShardId) : Prog (TxnsCacheState * Subscribe) :=
  do since_ts := call OpenReader in
  let sub := {| sub_as_of := since_ts; sub_snapshot_pending := true; sub_frontier := since_ts |} in
  let st := TxnsCacheState.new since_ts only_data_id in
  do c := update only_data_id {| txns_subscribe := sub; buf := []; state := st |} (fun progress_exclusive => since_ts <=? progress_exclusive) in
  do _ := lift (TxnsCacheState.debug_assert debug (TxnsCacheState.validate (state c))) in
  Done (state c, txns_subscribe c).

Definition from_read (only_data_id : option ShardId) : Prog TxnsCache :=
  do (st, sub) := state_init only_data_id in Done {| txns_subscribe := sub; buf := []; state := st |}.

(** ** Appends (lib.rs) *)

Definition small_caa (shard : option ShardId) (updates : list Update) (upper new_upper : Z) : Prog (result unit Z) :=
  do res := call (CompareAndAppend shard updates upper new_upper) in
  do res := must res in
  match res with
  | Ok _ => Done (Ok tt)
  | Err current => do current := must current in Done (Err current)
  end.

Fixpoint empty_caa_loop (n : nat) (shard : option ShardId) (init_ts upper : Z) : Prog unit :=
  if init_ts <? upper then Done tt
  else
    match n with
    | O => Going
    | S n =>
        do new_upper := lift (step_forward init_ts) in
        do res := small_caa shard [] upper new_upper in
        match res with
        | Ok _ => Done tt
        | Err current => empty_caa_loop n shard init_ts current
        end
    end.

Definition empty_caa (shard : option ShardId) (init_ts : Z) : Prog unit :=
  do upper := call (SharedUpper shard) in
  match upper with
  | None => Done tt
  | Some upper => empty_caa_loop fuel shard init_ts upper
  end.

(** [at_most_one_schema]; an error if there are two (txns.rs) *)
Fixpoint at_most_one_schema (schemas : list N) (schema : option N) : result (option N) (N * N) :=
  match schemas with
  | [] => Ok schema
  | s :: schemas =>
      match schema with
      | None => at_most_one_schema schemas (Some s)
      | Some x => if (s =? x)%N then at_most_one_schema schemas schema else Err (s, x)
      end
  end.

Definition maybe_replace_with_batch_schema (batches : list (TBatch Row)) : Prog unit :=
  if negb apply_ensure_schema_match then Done tt
  else
    match at_most_one_schema (mjoin (tb_schemas <$> batches)) None with
    | Ok _ => Done tt
    | Err _ => Panicked
    end.

Fixpoint apply_caa_loop (n : nat) (data_id : ShardId) (batches : list (TBatch Row)) (commit_ts upper : Z) : Prog unit :=
  if commit_ts <? upper then Done tt
  else
    match n with
    | O => Going
    | S n =>
        do _ := maybe_replace_with_batch_schema batches in
        do new_upper := lift (step_forward commit_ts) in
        do res := call (CompareAndAppendBatch data_id batches upper new_upper) in
        do res := must res in
        match res with
        | Ok _ => Done tt
        | Err current => do current := must current in apply_caa_loop n data_id batches commit_ts current
        end
    end.

Definition apply_caa (data_id : ShardId) (batch_raws : list str) (commit_ts : Z) : Prog unit :=
  let batches := parse_batch <$> batch_raws in
  do upper := call (SharedUpper (Some data_id)) in
  match upper with
  | None => Done tt
  | Some upper => apply_caa_loop fuel data_id batches commit_ts upper
  end.

Definition cads (new_since_ts : Z) : Prog unit :=
  do since := call CriticalSince in
  if negb (since <? new_since_ts) then Done tt
  else
    do res := call (CompareAndDowngradeSince new_since_ts) in
    match res with Ok _ => Done tt | Err _ => Halted end.

(** ** Handles (txns.rs) *)

(** A [WriteHandle] in [data_write_for_commit] is the id of its schema. *)
Record TxnsHandle := {
  txns_cache : TxnsCache;
  data_write_for_commit : BTreeMap ShardId N;
}.

Definition with_cache (h : TxnsHandle) (c : TxnsCache) : TxnsHandle :=
  {| txns_cache := c; data_write_for_commit := data_write_for_commit h |}.
Definition with_writes (h : TxnsHandle) (ds : BTreeMap ShardId N) : TxnsHandle :=
  {| txns_cache := txns_cache h; data_write_for_commit := ds |}.
Definition cache_state (h : TxnsHandle) : TxnsCacheState := state (txns_cache h).

(** [TxnsHandle::open] and [TxnsCache::init] *)
Definition open (init_ts : Z) : Prog TxnsHandle :=
  do _ := empty_caa None init_ts in
  do c := from_read None in
  do c := update_gt c init_ts in
  Done {| txns_cache := c; data_write_for_commit := [] |}.

(** One unapplied item of a shard, with what it allows to retract. *)
Definition apply_one (data_id : ShardId) (x : Unapplied * Z) : Prog (list (str * (Z * ShardId))) :=
  match x.1 with
  | RegisterForget => do _ := empty_caa (Some data_id) x.2 in Done []
  | UnappliedBatch batch_raws =>
      do _ := apply_caa data_id batch_raws x.2 in
      Done ((fun batch_raw => (batch_raw, (x.2, data_id))) <$> batch_raws)
  end.

Fixpoint apply_all (data_id : ShardId) (unapplied : list (Unapplied * Z)) (ret : list (str * (Z * ShardId))) : Prog (list (str * (Z * ShardId))) :=
  match unapplied with
  | [] => Done ret
  | x :: unapplied => do r := apply_one data_id x in apply_all data_id unapplied (ret ++ r)
  end.

(** The items up to [ts], by shard. *)
Fixpoint unapplied_le (ts : Z) (l : list (ShardId * Unapplied * Z)) (m : BTreeMap ShardId (list (Unapplied * Z))) : BTreeMap ShardId (list (Unapplied * Z)) :=
  match l with
  | [] => m
  | (data_id, unapplied, unapplied_ts) :: l =>
      if ts <? unapplied_ts then m
      else unapplied_le ts l (BTree.insert data_id (default [] (BTree.get data_id m) ++ [(unapplied, unapplied_ts)]) m)
  end.

Definition apply_le (h : TxnsHandle) (ts : Z) : Prog (Tidy * TxnsHandle) :=
  do c := update_gt (txns_cache h) ts in
  do items := lift (TxnsCacheState.unapplied (state c)) in
  let unapplied_by_data := unapplied_le ts items [] in
  do retractions := join ((fun du => apply_all du.1 du.2 []) <$> unapplied_by_data) in
  let retractions := Tidy_merge [] (mjoin retractions) in
  do st := lift (TxnsCacheState.mark_register_applied debug (state c) ts) in
  let c := {| txns_subscribe := txns_subscribe c; buf := buf c; state := st |} in
  Done (retractions, with_cache h c).

(** Runs a fallible program on every item: [iter().filter(..)]. *)
Fixpoint filterM (f : ShardId -> outcome bool) (l : list ShardId) : outcome (list ShardId) :=
  match l with
  | [] => Ret []
  | x :: l => let! r := f x in let! l := filterM f l in Ret (if r then x :: l else l)
  end.

Fixpoint register_loop (n : nat) (h : TxnsHandle) (register_ts : Z) (data_ids : list ShardId) (txns_upper : Z) : Prog (result TxnsHandle (Z * TxnsHandle)) :=
  match n with
  | O => Going
  | S n =>
      do c := update_ge (txns_cache h) txns_upper in
      let h := with_cache h c in
      let txns_upper := progress_exclusive (state c) in
      do unregistered := lift (filterM (fun data_id =>
        let! registered := TxnsCacheState.registered_at_progress (state c) data_id txns_upper in Ret (negb registered)) data_ids) in
      let updates := (fun data_id => (Register data_id register_ts, register_ts, 1)) <$> unregistered in
      if register_ts <? txns_upper then Done (Err (txns_upper, h))
      else
        do new_upper := lift (step_forward register_ts) in
        do res := small_caa None updates txns_upper new_upper in
        match res with
        | Ok _ => Done (Ok h)
        | Err new_txns_upper => register_loop n h register_ts data_ids new_txns_upper
        end
  end.

(** Keeps the write handle, unless there is one with a newer schema. *)
Definition keep_write (h : TxnsHandle) (data_write : ShardId * N) : outcome TxnsHandle :=
  match BTree.get data_write.1 (data_write_for_commit h) with
  | None => Ret (with_writes h (BTree.insert data_write.1 data_write.2 (data_write_for_commit h)))
  | Some prev_schema_id =>
      if (data_write.2 <? prev_schema_id)%N then let! _ := TxnsCacheState.soft_assert soft false in Ret h
      else Ret (with_writes h (BTree.insert data_write.1 data_write.2 (data_write_for_commit h)))
  end.

Definition register (h : TxnsHandle) (register_ts : Z) (data_writes : list (ShardId * N)) : Prog (result Tidy Z * TxnsHandle) :=
  let data_ids := fst <$> data_writes in
  do upper := call (SharedUpper None) in
  do txns_upper := must upper in
  do res := register_loop fuel h register_ts data_ids txns_upper in
  match res with
  | Err (txns_upper, h) => Done (Err txns_upper, h)
  | Ok h =>
      do h := lift (foldM keep_write data_writes h) in
      do (tidy, h) := apply_le h register_ts in
      Done (Ok tidy, h)
  end.

(** The latest write to one of the shards that is still unapplied. *)
Definition latest_unapplied (st : TxnsCacheState) (data_ids : list ShardId) : option Z :=
  (fun b : ShardId * str * Z => b.2) <$> find (fun b => bool_decide (b.1.1 ∈ data_ids)) (rev (BTree.values (unapplied_batches st))).

Fixpoint forget_loop (n : nat) (h : TxnsHandle) (forget_ts : Z) (data_ids : list ShardId) (txns_upper : Z) : Prog (result TxnsHandle (Z * TxnsHandle)) :=
  match n with
  | O => Going
  | S n =>
      do c := update_ge (txns_cache h) txns_upper in
      let h := with_cache h c in
      let txns_upper := progress_exclusive (state c) in
      do registered := lift (filterM (fun data_id => TxnsCacheState.registered_at_progress (state c) data_id txns_upper) data_ids) in
      let updates := (fun data_id => (Register data_id forget_ts, forget_ts, -1)) <$> registered in
      if forget_ts <? txns_upper then Done (Err (txns_upper, h))
      else
        do h := match latest_unapplied (state c) data_ids with
                | Some latest_write => do (_, h) := apply_le h latest_write in Done h
                | None => Done h
                end in
        do new_upper := lift (step_forward forget_ts) in
        do res := small_caa None updates txns_upper new_upper in
        match res with
        | Ok _ => Done (Ok h)
        | Err new_txns_upper => forget_loop n h forget_ts data_ids new_txns_upper
        end
  end.

Definition forget (h : TxnsHandle) (forget_ts : Z) (data_ids : list ShardId) : Prog (result Tidy Z * TxnsHandle) :=
  do upper := call (SharedUpper None) in
  do txns_upper := must upper in
  do res := forget_loop fuel h forget_ts data_ids txns_upper in
  match res with
  | Err (txns_upper, h) => Done (Err txns_upper, h)
  | Ok h =>
      do (tidy, h) := apply_le h forget_ts in
      Done (Ok tidy, with_writes h (foldl (fun m d => BTree.remove d m) (data_write_for_commit h) data_ids))
  end.

Fixpoint forget_all_loop (n : nat) (h : TxnsHandle) (forget_ts txns_upper : Z) : Prog (result (list ShardId * TxnsHandle) (Z * TxnsHandle)) :=
  match n with
  | O => Going
  | S n =>
      do c := update_ge (txns_cache h) txns_upper in
      let h := with_cache h c in
      let txns_upper := progress_exclusive (state c) in
      do registered := lift (TxnsCacheState.all_registered_at_progress (state c) txns_upper) in
      let updates := (fun data_id => (Register data_id forget_ts, forget_ts, -1)) <$> registered in
      if forget_ts <? txns_upper then Done (Err (txns_upper, h))
      else
        do h := match last (BTree.values (unapplied_batches (state c))) with
                | Some (_, _, latest_write) => do (_, h) := apply_le h latest_write in Done h
                | None => Done h
                end in
        do new_upper := lift (step_forward forget_ts) in
        do res := small_caa None updates txns_upper new_upper in
        match res with
        | Ok _ => Done (Ok (registered, h))
        | Err new_txns_upper => forget_all_loop n h forget_ts new_txns_upper
        end
  end.

Definition forget_all (h : TxnsHandle) (forget_ts : Z) : Prog (result (list ShardId * Tidy) Z * TxnsHandle) :=
  do upper := call (SharedUpper None) in
  do txns_upper := must upper in
  do res := forget_all_loop fuel h forget_ts txns_upper in
  match res with
  | Err (txns_upper, h) => Done (Err txns_upper, h)
  | Ok (registered, h) =>
      let h := with_writes h (foldl (fun m d => BTree.remove d m) (data_write_for_commit h) registered) in
      do (tidy, h) := apply_le h forget_ts in
      Done (Ok (registered, tidy), h)
  end.

Definition compact_to (h : TxnsHandle) (since_ts : Z) : Prog TxnsHandle :=
  do c := update_gt (txns_cache h) since_ts in
  do min_unapplied_ts := lift (TxnsCacheState.min_unapplied_ts (state c)) in
  let since_ts := if min_unapplied_ts <? since_ts then min_unapplied_ts else since_ts in
  do _ := cads since_ts in
  Done (with_cache h c).

(** *** Commits (txn_write.rs) *)

Definition take_write_for_commit (h : TxnsHandle) (data_id : ShardId) : option (N * TxnsHandle) :=
  match BTree.get data_id (data_write_for_commit h) with
  | Some schema_id => Some (schema_id, with_writes h (BTree.remove data_id (data_write_for_commit h)))
  | None => None
  end.

Definition put_write_for_commit (h : TxnsHandle) (data_write : ShardId * N) : outcome TxnsHandle :=
  let! _ := assert_ (negb (BTree.contains data_write.1 (data_write_for_commit h))) in
  Ret (with_writes h (BTree.insert data_write.1 data_write.2 (data_write_for_commit h))).

(** The batches of one shard, at the commit timestamp.  [schema_id] is the one
    of the handle that encodes the rows. *)
Definition form_batches (schema_id : N) (updates : TxnWrite Row) (commit_ts : Z) : outcome (list (TBatch Row)) :=
  let! new_upper := step_forward commit_ts in
  let built := match tw_writes updates with
               | [] => []
               | ws => [{| tb_lower := 0; tb_upper := new_upper; tb_rewrite := None; tb_schemas := [schema_id];
                           tb_updates := (fun w => (w.1, commit_ts, w.2)) <$> ws |}]
               end in
  omapM (fun b => expect (rewrite_ts b commit_ts new_upper)) (built ++ staged updates ++ batches updates).

(** A unique id for every batch. *)
Fixpoint encode_all (bs : list (TBatch Row)) : Prog (list (TBatch Row * str)) :=
  match bs with
  | [] => Done []
  | b :: bs =>
      do id := call NewUuid in
      do r := encode_all bs in
      Done ((b, encode_batch id b) :: r)
  end.

(** The write handles that were taken and the batches of every shard. *)
Fixpoint write_batches (h : TxnsHandle) (commit_ts : Z) (writes : BTreeMap ShardId (TxnWrite Row)) :
    Prog (TxnsHandle * list (ShardId * N) * list (ShardId * list (TBatch Row * str))) :=
  match writes with
  | [] => Done (h, [], [])
  | (data_id, updates) :: writes =>
      do (schema_id, h) := must (take_write_for_commit h data_id) in
      do bs := lift (form_batches schema_id updates commit_ts) in
      do bs := encode_all bs in
      do (h, data_writes, rest) := write_batches h commit_ts writes in
      Done (h, (data_id, schema_id) :: data_writes, (data_id, bs) :: rest)
  end.

Definition append_updates (commit_ts : Z) (bs : list (ShardId * list (TBatch Row * str))) : list Update :=
  mjoin ((fun x => (fun b : TBatch Row * str => (Append x.1 commit_ts b.2, commit_ts, 1)) <$> x.2) <$> bs).

Fixpoint commit_loop (n : nat) (txn : Txn Row) (h : TxnsHandle) (commit_ts txns_upper : Z) :
    Prog (result TxnApply Z * Txn Row * TxnsHandle) :=
  match n with
  | O => Going
  | S n =>
      do c := update_ge (txns_cache h) txns_upper in
      let h := with_cache h c in
      let txns_upper := progress_exclusive (state c) in
      if commit_ts <? txns_upper then Done (Err txns_upper, txn, h)
      else
        do _ := lift (foldM (fun _ kv => let! r := TxnsCacheState.registered_at_progress (state c) kv.1 txns_upper in assert_ r) (txn_writes txn) tt) in
        do (h, data_writes, txn_batches_updates) := write_batches h commit_ts (txn_writes txn) in
        let txns_updates := append_updates commit_ts txn_batches_updates in
        let apply_is_empty := match txns_updates with [] => true | _ => false end in
        do filtered_retractions := lift (TxnsCacheState.filter_retractions (state c) txns_upper (txn_tidy txn)) in
        let txns_updates := txns_updates ++ ((fun r : str * (Z * ShardId) => (Append r.2.2 r.2.1 r.1, commit_ts, -1)) <$> filtered_retractions) in
        do new_upper := lift (step_forward commit_ts) in
        do res := small_caa None txns_updates txns_upper new_upper in
        match res with
        | Ok _ =>
            do h := lift (foldM put_write_for_commit data_writes h) in
            Done (Ok {| is_empty := apply_is_empty; apply_commit_ts := commit_ts |}, {| txn_writes := []; txn_tidy := txn_tidy txn |}, h)
        | Err new_txns_upper =>
            do _ := lift (assert_ (txns_upper <? new_txns_upper)) in
            let writes := foldl (fun m x => BTree.insert x.1 {| tw_writes := []; staged := []; batches := fst <$> x.2 |} m) [] txn_batches_updates in
            do h := lift (foldM put_write_for_commit data_writes h) in
            do c := update_ge (txns_cache h) new_txns_upper in
            commit_loop n {| txn_writes := writes; txn_tidy := txn_tidy txn |} (with_cache h c) commit_ts new_txns_upper
        end
  end.

Definition commit_at (txn : Txn Row) (h : TxnsHandle) (commit_ts : Z) : Prog (result TxnApply Z * Txn Row * TxnsHandle) :=
  do upper := call (SharedUpper None) in
  do txns_upper := must upper in
  commit_loop fuel txn h commit_ts txns_upper.

(** [TxnApply::apply] *)
Definition apply (self : TxnApply) (h : TxnsHandle) : Prog (Tidy * TxnsHandle) := apply_le h (apply_commit_ts self).

(** *** Reads (txn_read.rs) *)

Fixpoint unblock_loop (n : nat) (self : DataSnapshot) (data_upper : Z) : Prog unit :=
  if data_upper <? empty_to self then
    match n with
    | O => Going
    | S n =>
        do _ := lift (match latest_write self with Some latest_write => assert_ (latest_write <? data_upper) | None => Ret tt end) in
        do _ := lift (assert_ (ds_as_of self <? empty_to self)) in
        do res := small_caa (Some (ds_data_id self)) [] data_upper (empty_to self) in
        match res with
        | Ok _ => Done tt
        | Err new_data_upper => unblock_loop n self new_data_upper
        end
    end
  else Done tt.

Definition unblock_read (self : DataSnapshot) : Prog unit :=
  do _ := match latest_write self with
          | Some latest_write => call (WaitForUpperPast (ds_data_id self) latest_write)
          | None => Done tt
          end in
  do data_upper := call (SharedUpper (Some (ds_data_id self))) in
  match data_upper with
  | None => Done tt
  | Some data_upper => unblock_loop fuel self data_upper
  end.

Definition snapshot_and_fetch (self : DataSnapshot) : Prog (result (list (Row * Z * Z)) Z) :=
  do _ := unblock_read self in
  call (SnapshotAndFetch (ds_data_id self) (ds_as_of self)).

(** A read of a data shard at [as_of] with a cache: the cache is brought past
    it, the token is taken and exchanged for the contents. *)
Definition read_at (c : TxnsCache) (data_id : ShardId) (as_of : Z) : Prog (result (list (Row * Z * Z)) Z * TxnsCache) :=
  do c := update_gt c as_of in
  do token := lift (TxnsCacheState.data_snapshot (state c) data_id as_of) in
  do res := snapshot_and_fetch token in
  Done (res, c).
End ops.
