(* ===== verification/TxnWorld.v ===== *)
(** * Processes that share a txns shard and its data shards

    The shards as persist promises them to behave, the meaning of the calls of
    a program, the invariant of the protocol and a logic for programs that run
    concurrently: [wp] demands of every call that it keeps the invariant, no
    matter what the other processes do in between, and [pool_inv] says that
    this is enough for any number of programs. *)

From S2P Require Import Prelude BTree Paths Blob TxnCache TxnCacheFacts TxnLog TxnFollow TxnQuery Txns.

Local Open Scope Z_scope.

Record World (Row : Type) := {
  txns : list Update;
  txns_upper : Z;
  txns_since : Z;
  data : ShardId -> list (Row * Z * Z);
  data_upper : ShardId -> Z;
  data_since : ShardId -> Z;
  (** the ids handed out so far *)
  ids : list N;
  (** the upper that a process has seen last *)
  view : nat -> option ShardId -> Z;
}.
Arguments txns {Row} _.
Arguments txns_upper {Row} _.
Arguments txns_since {Row} _.
Arguments data {Row} _.
Arguments data_upper {Row} _.
Arguments data_since {Row} _.
Arguments ids {Row} _.
Arguments view {Row} _.

Section world.
Context {Row : Type} `{EqDecision Row} `{UuidCodec} `{IdBatchCodec Row}.
Local Abbreviation World := (World Row).

Definition upper_of (w : World) (sh : option ShardId) : Z := match sh with None => txns_upper w | Some d => data_upper w d end.

Definition upd {A B} `{EqDecision A} (f : A -> B) (a : A) (b : B) : A -> B := fun x => if decide (x = a) then b else f x.

Definition set_view (w : World) (i : nat) (sh : option ShardId) (u : Z) : World := {|
  txns := txns w; txns_upper := txns_upper w; txns_since := txns_since w; data := data w; data_upper := data_upper w;
  data_since := data_since w; ids := ids w; view := upd (view w) i (upd (view w i) sh u) |}.
Definition set_txns (w : World) (us : list Update) (new : Z) : World := {|
  txns := txns w ++ us; txns_upper := new; txns_since := txns_since w; data := data w; data_upper := data_upper w;
  data_since := data_since w; ids := ids w; view := view w |}.
Definition set_data (w : World) (d : ShardId) (us : list (Row * Z * Z)) (new : Z) : World := {|
  txns := txns w; txns_upper := txns_upper w; txns_since := txns_since w; data := upd (data w) d (data w d ++ us);
  data_upper := upd (data_upper w) d new; data_since := data_since w; ids := ids w; view := view w |}.
Definition set_since (w : World) (s : Z) : World := {|
  txns := txns w; txns_upper := txns_upper w; txns_since := s; data := data w; data_upper := data_upper w;
  data_since := data_since w; ids := ids w; view := view w |}.
Definition set_data_since (w : World) (d : ShardId) (s : Z) : World := {|
  txns := txns w; txns_upper := txns_upper w; txns_since := txns_since w; data := data w; data_upper := data_upper w;
  data_since := upd (data_since w) d s; ids := ids w; view := view w |}.
Definition set_ids (w : World) (id : N) : World := {|
  txns := txns w; txns_upper := txns_upper w; txns_since := txns_since w; data := data w; data_upper := data_upper w;
  data_since := data_since w; ids := id :: ids w; view := view w |}.

(** ** The calls *)

(** Parts that hold the updates in [p, p') for a reader as of [s]; their
    statistics bound their keys. *)
Definition delivers_parts (s p p' : Z) (l : list Update) (parts : list Part) : Prop :=
  delivers None s p p' l (mjoin (part_updates <$> parts)) /\
  Forall (fun part => forall stats, part_stats part = Some stats ->
            Forall (fun u => let key := ShardId_fmt (entry_data_id u.1.1) in str_ltb key stats.1 = false /\ str_ltb stats.2 key = false) (part_updates part)) parts.

(** What a row adds up to. *)
Definition row_total (r : Row) (us : list (Row * Z * Z)) : Z := sumZ (snd <$> filter (fun u => u.1.1 = r) us).
Definition as_of_contents (w : World) (d : ShardId) (as_of : Z) : list (Row * Z * Z) := filter (fun u => u.1.2 <= as_of) (data w d).

(** A batch may be appended in [expected, new). *)
Definition appendable (expected new : Z) (b : TBatch Row) : Prop :=
  tb_lower b <= expected /\ tb_upper b = new /\ match tb_rewrite b with Some r => expected <= r | None => expected <= tb_lower b end.

(** The outcome of an append in [expected, new) by process [i]. *)
Definition append_step (i : nat) (sh : option ShardId) (valid : Prop) (expected new : Z) (w : World)
    (r : option (result unit (option Z))) (w' done : World) : Prop :=
  (~ (valid /\ expected < new) /\ r = None /\ w' = w) \/
  (valid /\ expected < new /\ expected = upper_of w sh /\ r = Some (Ok tt) /\ w' = set_view done i sh new) \/
  (valid /\ expected < new /\ expected <> upper_of w sh /\ r = Some (Err (Some (upper_of w sh))) /\ w' = set_view w i sh (upper_of w sh)).

Definition exec {R} (i : nat) (e : Eff Row R) : World -> R -> World -> Prop :=
  match e in Eff _ R return World -> R -> World -> Prop with
  | SharedUpper sh => fun w r w' => exists u, view w i sh <= u <= upper_of w sh /\ r = Some u /\ w' = set_view w i sh u
  | CompareAndAppend None us expected new => fun w r w' =>
      Z.of_nat (length (txns w ++ us)) <= u64_max /\
      append_step i None (Forall (fun u => expected <= u.1.2 < new) us) expected new w r w' (set_txns w us new)
  | CompareAndAppend (Some d) us expected new => fun w r w' =>
      append_step i (Some d) (us = []) expected new w r w' (set_data w d [] new)
  | CompareAndAppendBatch d bs expected new => fun w r w' =>
      append_step i (Some d) (Forall (appendable expected new) bs) expected new w r w' (set_data w d (mjoin (contents <$> bs)) new)
  | WaitForUpperPast d ts => fun w _ w' =>
      exists u, ts < u /\ view w i (Some d) <= u <= data_upper w d /\ w' = set_view w i (Some d) u
  | OpenReader => fun w s w' => s = txns_since w /\ w' = w
  | SubscribeNext sub => fun w r w' =>
      w' = w /\ (exists parts,
      (sub_snapshot_pending sub = true /\ sub_as_of sub < txns_upper w /\ delivers_parts (sub_as_of sub) 0 (sub_as_of sub + 1) (txns w) parts /\
       r = ([Updates parts], {| sub_as_of := sub_as_of sub; sub_snapshot_pending := false; sub_frontier := sub_frontier sub |})) \/
      (sub_snapshot_pending sub = false /\ exists p', sub_frontier sub < p' <= txns_upper w /\
       delivers_parts (sub_as_of sub) (Z.max (sub_as_of sub + 1) (sub_frontier sub)) p' (txns w) parts /\
       r = ([Updates parts; Progress p'], {| sub_as_of := sub_as_of sub; sub_snapshot_pending := false; sub_frontier := p' |})))
  | CriticalSince => fun w s w' => s <= txns_since w /\ w' = w
  | CompareAndDowngradeSince s => fun w r w' =>
      (r = Err tt /\ w' = w) \/ (r = Ok tt /\ exists s', txns_since w <= s' <= Z.max (txns_since w) s /\ w' = set_since w s')
  | NewUuid => fun w id w' => (id ∉ ids w) /\ w' = set_ids w id
  | SnapshotAndFetch d as_of => fun w r w' =>
      w' = w /\ ((as_of < data_since w d /\ r = Err (data_since w d)) \/
                 (data_since w d <= as_of < data_upper w d /\ exists rows, r = Ok rows /\
                  Forall (fun u => u.1.2 = as_of) rows /\ forall x, row_total x rows = row_total x (as_of_contents w d as_of)))
  | Poll => fun w _ w' => w' = w
  end.

(** What happens to data shards outside the protocol: direct writes to shards
    that are not registered, at times that the txns shard has passed, and
    their compaction. *)
Inductive env_step (w : World) : World -> Prop :=
| env_write d us new : ~ is_open (last (regs_of d (txns w))) -> (forall ts, reg_event (txns w) d ts -> ts < data_upper w d) ->
    data_upper w d < new <= txns_upper w -> Forall (fun u => data_upper w d <= u.1.2 < new) us -> env_step w (set_data w d us new)
| env_compact d s : data_since w d <= s -> env_step w (set_data_since w d s).

(** ** The invariant *)

(** The shard belongs to the txns shard at the time. *)
Definition in_txns (l : list Update) (d : ShardId) (t : Z) : Prop := registered_before l t d \/ reg_event l d t.

Definition batch_of (d : ShardId) (t : Z) (u : Update) : option str :=
  match u with (Append d' w b, _, k) => if decide (d' = d /\ w = t /\ k = 1) then Some b else None | _ => None end.
Definition batches_at (l : list Update) (d : ShardId) (t : Z) : list str := omap (batch_of d t) l.

(** What the transaction at [t] wrote to the shard. *)
Definition payload (l : list Update) (d : ShardId) (t : Z) : list (Row * Z * Z) := mjoin ((fun b => contents (parse_batch b)) <$> batches_at l d t).

Definition applied (w : World) (d : ShardId) (t : Z) : Prop := t < data_upper w d.

Definition batch_ok (t : Z) (b : TBatch Row) : Prop :=
  tb_lower b = 0 /\ tb_upper b = t + 1 /\ tb_rewrite b = Some t /\ Forall (fun u => 0 <= u.1.2 <= t) (tb_updates b).

Record Inv (w : World) : Prop := {
  inv_log : log_ok (txns w);
  inv_below : forall u, u ∈ txns w -> u.1.2 < txns_upper w;
  inv_bounds : 0 <= txns_since w <= txns_upper w /\ txns_upper w <= u64_max /\ Z.of_nat (length (txns w)) <= u64_max;
  inv_data : forall d, 0 <= data_upper w d <= txns_upper w;
  inv_times : forall d u, u ∈ data w d -> u.1.2 < data_upper w d;
  inv_view : forall i sh, 0 <= view w i sh <= upper_of w sh;
  inv_batch : forall d t b, committed (txns w) d t b -> batch_ok t (parse_batch b) /\ exists id x, id ∈ ids w /\ b = encode_batch id x;
  inv_schema : forall d t, exists s, forall b, committed (txns w) d t b -> Forall (eq s) (tb_schemas (parse_batch b));
  inv_contents : forall d t, applied w d t -> in_txns (txns w) d t -> filter (fun u => u.1.2 = t) (data w d) ≡ₚ payload (txns w) d t;
  inv_retracted : forall d t b p, retracted (txns w) p d t b -> applied w d t;
  inv_events : forall d ts t b, reg_event (txns w) d ts -> committed (txns w) d t b -> t < ts -> applied w d t;
  inv_since : forall d t b, committed (txns w) d t b -> ~ applied w d t -> txns_since w <= t;
  inv_since_reg : forall d ts, reg_event (txns w) d ts -> ~ applied w d ts -> txns_since w <= ts;
}.

(** What every step does. *)
Record evolve (w w' : World) : Prop := {
  ev_txns : exists us, txns w' = txns w ++ us /\ forall u, u ∈ us -> txns_upper w <= u.1.2;
  ev_upper : txns_upper w <= txns_upper w';
  ev_since : txns_since w <= txns_since w';
  ev_data : forall d, exists us, data w' d = data w d ++ us /\ forall u, u ∈ us -> data_upper w d <= u.1.2;
  ev_data_upper : forall d, data_upper w d <= data_upper w' d;
  ev_data_since : forall d, data_since w d <= data_since w' d;
  ev_ids : ids w ⊆ ids w';
  ev_view : forall i sh, view w i sh <= view w' i sh;
}.

(** ** Programs that run together *)

Fixpoint wp (pk : bool) (i : nat) {A} (p : Prog Row A) (w : World) (Q : A -> World -> Prop) : Prop :=
  match p with
  | Done a => Q a w
  | Panicked => pk = true
  | Halted => True
  | Going => False
  | Call e k => forall w1 r w2, evolve w w1 -> Inv w1 -> exec i e w1 r w2 -> evolve w1 w2 /\ Inv w2 /\ wp pk i (k r) w2 Q
  end.

Inductive pool_step {A} : list (Prog Row A) * World -> list (Prog Row A) * World -> Prop :=
| step_call ps w i R (e : Eff Row R) k r w' : ps !! i = Some (Call e k) -> exec i e w r w' -> pool_step (ps, w) (<[i := k r]> ps, w')
| step_crash ps w i : pool_step (ps, w) (<[i := Halted]> ps, w)
| step_env ps w w' : env_step w w' -> pool_step (ps, w) (ps, w').
End world.
