(* ===== verification/TxnWorldFacts.v ===== *)
(** * The invariant of the transaction protocol

    Steps preserve [Inv]: a write to the txns shard that follows its rules,
    filling a range of times in which nothing was committed, applying what was
    committed at a time, and what happens outside the protocol. *)

From S2P Require Import Prelude BTree Paths Blob TxnCache TxnCacheFacts TxnLog TxnFollow TxnQuery Txns TxnWorld.

Local Open Scope Z_scope.

Section facts.
Context {Row : Type} `{EqDecision Row} `{UuidCodec} `{IdBatchCodec Row}.
Implicit Types (w : World Row) (d : ShardId) (l : list Update).

Lemma upd_eq {A B} `{EqDecision A} (f : A -> B) a b : upd f a b a = b.
Proof. unfold upd. by rewrite decide_True. Qed.
Lemma upd_ne {A B} `{EqDecision A} (f : A -> B) a b x : x <> a -> upd f a b x = f x.
Proof. intros. unfold upd. by rewrite decide_False. Qed.

#[export] Instance applied_dec w d t : Decision (applied w d t) := Z_lt_dec _ _.

Lemma nothing_new {A} (x : list A) (P : A -> Prop) : exists us, x = x ++ us /\ forall u, u ∈ us -> P u.
Proof. exists []. split; [by rewrite app_nil_r|by intros ? ?%not_elem_of_nil]. Qed.

#[export] Instance evolve_refl : Reflexive (evolve (Row := Row)).
Proof. intros w. split; try done; [|intros d]; apply nothing_new. Qed.

#[export] Instance evolve_trans : Transitive (evolve (Row := Row)).
Proof.
  intros w1 w2 w3 [(u1 & E1 & H1) A1 B1 C1 D1 F1 G1 V1] [(u2 & E2 & H2) A2 B2 C2 D2 F2 G2 V2]. split; try lia.
  - exists (u1 ++ u2). split; [by rewrite E2, E1, app_assoc|]. intros u [?|Hu%H2]%elem_of_app; [by apply H1|lia].
  - intros d. destruct (C1 d) as (x1 & Ex1 & Hx1), (C2 d) as (x2 & Ex2 & Hx2). exists (x1 ++ x2). split; [by rewrite Ex2, Ex1, app_assoc|].
    intros u [?|Hu%Hx2]%elem_of_app; [by apply Hx1|]. specialize (D1 d). lia.
  - intros d. specialize (D1 d). specialize (D2 d). lia.
  - intros d. specialize (F1 d). specialize (F2 d). lia.
  - set_solver.
  - intros i sh. specialize (V1 i sh). specialize (V2 i sh). lia.
Qed.

(** Only the views differ. *)
Lemma set_view_ok w i sh u : Inv w -> view w i sh <= u <= upper_of w sh -> Inv (set_view w i sh u) /\ evolve w (set_view w i sh u).
Proof.
  intros [] Hu. split.
  - split; try done. intros j sh'. simpl. pose proof (inv_view j sh') as Hv. destruct (decide (j = i)) as [->|]; [rewrite upd_eq|by rewrite upd_ne].
    destruct (decide (sh' = sh)) as [->|]; [rewrite upd_eq; destruct sh; simpl in *; lia|by rewrite upd_ne].
  - split; simpl; try done.
    + apply nothing_new.
    + intros d. apply nothing_new.
    + intros j sh'. destruct (decide (j = i)) as [->|]; [rewrite upd_eq|by rewrite upd_ne].
      destruct (decide (sh' = sh)) as [->|]; [rewrite upd_eq; apply Hu|by rewrite upd_ne].
Qed.

(** ** The log and what was committed *)

Lemma committed_app l us d t b : committed (l ++ us) d t b <-> committed l d t b \/ (Append d t b, t, 1) ∈ us.
Proof. unfold committed. by rewrite elem_of_app. Qed.
Lemma reg_event_app l us d ts : reg_event (l ++ us) d ts <-> reg_event l d ts \/ exists k, (Register d ts, ts, k) ∈ us.
Proof.
  unfold reg_event. setoid_rewrite elem_of_app. split; [intros [k [?|?]]; eauto|intros [[k ?]|[k ?]]; eauto].
Qed.

Lemma registered_ext l us t d : log_ok (l ++ us) -> (forall u, u ∈ us -> t <= u.1.2) -> registered_before (l ++ us) t d <-> registered_before l t d.
Proof.
  intros Hl Hus. unfold registered_before, last_registration. rewrite reg_keys_app, before_app. unfold before at 2. rewrite (filter_none _ (reg_keys d us)); [by rewrite app_nil_r|].
  apply Forall_forall. intros [ts k] [t' Hin]%elem_of_reg_keys. pose proof (Hus _ Hin). destruct (log_times _ Hl (Register d ts) t' k) as (_ & _ & _ & Ht).
  { apply elem_of_app. by right. }
  specialize (Ht d ts eq_refl). simpl in *. lia.
Qed.

Lemma in_txns_ext l us t d : log_ok (l ++ us) -> (forall u, u ∈ us -> t < u.1.2) -> in_txns (l ++ us) d t <-> in_txns l d t.
Proof.
  intros Hl Hus. unfold in_txns. rewrite registered_ext by (try done; intros u Hu; apply Hus in Hu; lia). rewrite reg_event_app.
  split; [|tauto]. intros [?|[?|[k Hk]]]; [tauto..|]. apply Hus in Hk. simpl in Hk. lia.
Qed.

Lemma batches_at_app l us d t : batches_at (l ++ us) d t = batches_at l d t ++ batches_at us d t.
Proof. apply omap_app. Qed.

Lemma elem_of_batches_at l d t b : b ∈ batches_at l d t <-> exists t', (Append d t b, t', 1) ∈ l.
Proof.
  unfold batches_at. rewrite list_elem_of_omap. split.
  - intros ([[[d' ts'|d' ts' b'] t'] k'] & Hin & He); simpl in He; [done|]. case_decide as Hd; [|done]. destruct Hd as (-> & -> & ->). injection He as ->. eauto.
  - intros [t' Hin]. eexists. split; [exact Hin|]. simpl. by rewrite decide_True.
Qed.

Lemma payload_ext l us t d : log_ok (l ++ us) -> (forall u, u ∈ us -> t < u.1.2) -> payload (Row := Row) (l ++ us) d t = payload l d t.
Proof.
  intros Hl Hus. unfold payload. rewrite batches_at_app. assert (batches_at us d t = []) as ->; [|by rewrite app_nil_r].
  apply elem_of_nil_inv. intros b [t' Hin]%elem_of_batches_at. pose proof (Hus _ Hin). destruct (log_times _ Hl (Append d t b) t' 1) as (_ & _ & Ht & _).
  { apply elem_of_app. by right. }
  specialize (Ht eq_refl). simpl in *. lia.
Qed.

Lemma payload_nil l t d : log_ok l -> (forall b, ~ committed l d t b) -> payload (Row := Row) l d t = [].
Proof.
  intros Hl Hno. unfold payload. assert (batches_at l d t = []) as ->; [|done]. apply elem_of_nil_inv. intros b [t' Hin]%elem_of_batches_at.
  destruct (log_times _ Hl _ _ _ Hin) as (_ & _ & Ht & _). specialize (Ht eq_refl). simpl in Ht. subst. by apply (Hno b).
Qed.

Lemma log_nonneg l d t b : log_ok l -> committed l d t b -> 0 <= t.
Proof. intros Hl Hc. apply log_times in Hc as (? & _); [simpl in *; lia|done]. Qed.

(** A write to the txns shard that keeps the invariant. *)
Record write_ok w (t : Z) (us : list Update) : Prop := {
  wr_time : txns_upper w <= t < u64_max;
  wr_length : Z.of_nat (length (txns w ++ us)) <= u64_max;
  wr_distinct : NoDup ((fun u => u.1.1) <$> us);
  wr_rules : Forall (may_write (txns w) t us) us;
  wr_batch : forall d b, (Append d t b, t, 1) ∈ us -> batch_ok t (parse_batch b) /\ exists id x, id ∈ ids w /\ b = encode_batch id x;
  wr_schema : forall d, exists s, forall b, (Append d t b, t, 1) ∈ us -> Forall (eq s) (tb_schemas (parse_batch b));
  wr_retract : forall d t0 b, (Append d t0 b, t, -1) ∈ us -> applied w d t0;
  wr_regs : forall d k, (Register d t, t, k) ∈ us -> forall t0 b, committed (txns w) d t0 b -> applied w d t0;
}.

Lemma write_times w t us : Forall (may_write (txns w) t us) us -> forall u, u ∈ us -> u.1.2 = t.
Proof. intros Hall u Hu. by apply (proj1 (Forall_forall _ _) Hall) in Hu as [? _]. Qed.

Lemma write_ok_inv w t us : Inv w -> write_ok w t us -> Inv (set_txns w us (t + 1)) /\ evolve w (set_txns w us (t + 1)).
Proof.
  intros [] [Ht Hlen Hnd Hru Hba Hsc Hre Hrg]. pose proof (write_times w t us Hru) as Hus. destruct inv_bounds as (Hb1 & Hb2 & Hb3).
  assert (Hlog : log_ok (txns w ++ us)).
  { apply (log_snoc (txns w) t us); [done| |lia|done|done]. intros u Hu. apply inv_below in Hu. lia. }
  assert (Hnew : forall d t0 b, (Append d t0 b, t0, 1) ∈ us -> t0 = t) by (intros d t0 b Hin; by apply Hus in Hin).
  assert (Hnewr : forall d t0 k, (Register d t0, t0, k) ∈ us -> t0 = t) by (intros d t0 k Hin; by apply Hus in Hin).
  assert (Hap : forall d t0, applied (set_txns w us (t + 1)) d t0 <-> applied w d t0) by done.
  split.
  - split; simpl.
    + done.
    + intros u [Hu|Hu]%elem_of_app; [apply inv_below in Hu; lia|apply Hus in Hu; lia].
    + lia.
    + intros d. specialize (inv_data d). lia.
    + done.
    + intros i [d|]; [apply (inv_view i (Some d))|]. specialize (inv_view i None). simpl in inv_view |- *. lia.
    + intros d t0 b [Hc|Hc]%committed_app; [by apply (inv_batch d)|]. pose proof (Hnew _ _ _ Hc). subst. by apply (Hba d).
    + intros d t0. destruct (decide (t0 = t)) as [->|].
      * destruct (Hsc d) as [s Hs]. exists s. intros b [Hc|Hc]%committed_app; [|by apply Hs]. apply inv_below in Hc. simpl in Hc. lia.
      * destruct (inv_schema d t0) as [s Hs]. exists s. intros b [Hc|Hc]%committed_app; [by apply Hs|]. by apply Hnew in Hc.
    + intros d t0 Happ. assert (Hlt : forall u, u ∈ us -> t0 < u.1.2) by (intros u Hu; rewrite (Hus u Hu); specialize (inv_data d); unfold applied in Happ; simpl in Happ; lia).
      rewrite in_txns_ext, payload_ext by done. by apply inv_contents.
    + intros d t0 b p (t1 & _ & [Hin|Hin]%elem_of_app).
      * by apply (inv_retracted d t0 b (t1 + 1)); exists t1; split; [lia|].
      * pose proof (Hus _ Hin) as Hx. simpl in Hx. subst. by apply (Hre d t0 b).
    + intros d ts t0 b [Hr|[k Hr]]%reg_event_app [Hc|Hc]%committed_app Hlt.
      * by apply (inv_events d ts t0 b).
      * apply Hnew in Hc. destruct Hr as [k Hr]. apply inv_below in Hr. simpl in Hr. lia.
      * pose proof (Hnewr _ _ _ Hr). subst. by apply (Hrg d k Hr t0 b).
      * apply Hnew in Hc. apply Hnewr in Hr. lia.
    + intros d t0 b [Hc|Hc]%committed_app Hna; [by apply (inv_since d t0 b)|]. apply Hnew in Hc. lia.
    + intros d t0 [Hc|[k Hc]]%reg_event_app Hna; [by apply (inv_since_reg d)|]. apply Hnewr in Hc. lia.
  - split; simpl; try done; try lia.
    + exists us. split; [done|]. intros u Hu. rewrite (Hus u Hu). lia.
    + intros d. apply nothing_new.
Qed.

(** ** Data shards *)

Lemma set_data_evolve w d us new : data_upper w d <= new -> (forall u, u ∈ us -> data_upper w d <= u.1.2) -> evolve w (set_data w d us new).
Proof.
  intros Hn Hus. split; simpl; try done.
  - apply nothing_new.
  - intros d'. destruct (decide (d' = d)) as [->|]; [rewrite upd_eq; by exists us|]. rewrite upd_ne by done.
    apply nothing_new.
  - intros d'. destruct (decide (d' = d)) as [->|]; [rewrite upd_eq|rewrite upd_ne by done]; lia.
Qed.

(** Appending in [data_upper, new) keeps the invariant when the shard then has
    the payload of each of these times that belongs to the txns shard. *)
Lemma set_data_inv w d us new : Inv w -> data_upper w d <= new <= txns_upper w ->
  Forall (fun u => data_upper w d <= u.1.2 < new) us ->
  (forall t, data_upper w d <= t < new -> in_txns (txns w) d t -> filter (fun u => u.1.2 = t) us ≡ₚ payload (txns w) d t) ->
  Inv (set_data w d us new) /\ evolve w (set_data w d us new).
Proof.
  intros Hinv Hnew Hus Hpay. rewrite Forall_forall in Hus.
  assert (Hev : evolve w (set_data w d us new)) by (apply set_data_evolve; [lia|]; intros u Hu%Hus; lia).
  split; [|done]. destruct Hinv. assert (Hap : forall d' t, applied w d' t -> applied (set_data w d us new) d' t).
  { intros d' t Ha. unfold applied in *. pose proof (ev_data_upper _ _ Hev d'). lia. }
  split; simpl; try done.
  - intros d'. destruct (decide (d' = d)) as [->|]; [rewrite upd_eq; specialize (inv_data d); lia|rewrite upd_ne by done; apply inv_data].
  - intros d' u. destruct (decide (d' = d)) as [->|]; [rewrite !upd_eq|rewrite !upd_ne by done; apply inv_times].
    intros [Hu%inv_times|Hu%Hus]%elem_of_app; lia.
  - intros i [d'|]; [|apply (inv_view i None)]. simpl. specialize (inv_view i (Some d')). simpl in inv_view.
    destruct (decide (d' = d)) as [->|]; [rewrite upd_eq; lia|by rewrite upd_ne].
  - intros d' t Ha Hin. unfold applied in Ha. simpl in Ha. destruct (decide (d' = d)) as [->|].
    + rewrite upd_eq in Ha. rewrite upd_eq. rewrite filter_app. destruct (decide (t < data_upper w d)) as [Ht|Ht].
      * rewrite (filter_none _ us), app_nil_r; [by apply inv_contents|]. apply Forall_forall. intros u Hu%Hus. lia.
      * rewrite (filter_none _ (data w d)); [apply Hpay; [lia|done]|]. apply Forall_forall. intros u Hu%inv_times. lia.
    + rewrite upd_ne in Ha by done. rewrite upd_ne by done. by apply inv_contents.
  - intros d' t b p Hr. by eapply Hap, inv_retracted.
  - intros d' ts t b He Hc Ht. by eapply Hap, inv_events.
  - intros d' t b Hc Hna. eapply inv_since; [done|]. intros Ha. by apply Hna, Hap.
  - intros d' ts He Hna. eapply inv_since_reg; [done|]. intros Ha. by apply Hna, Hap.
Qed.

(** Nothing was committed to the shard from its upper on. *)
Lemma fill_inv w d new : Inv w -> data_upper w d <= new <= txns_upper w ->
  (forall t b, committed (txns w) d t b -> t < new -> applied w d t) -> Inv (set_data w d [] new) /\ evolve w (set_data w d [] new).
Proof.
  intros Hinv Hnew Hc. apply set_data_inv; [done|done|done|]. intros t Ht _. rewrite filter_nil, payload_nil; [done|apply Hinv|].
  intros b Hb. specialize (Hc t b Hb). unfold applied in Hc. lia.
Qed.

Lemma contents_times t (b : TBatch Row) : batch_ok t b -> Forall (fun u => u.1.2 = t) (contents b).
Proof.
  intros (_ & _ & Hr & Hall). unfold contents. rewrite Hr. apply Forall_fmap. eapply Forall_impl; [exact Hall|]. intros u Hu. simpl in *. lia.
Qed.

Lemma NoDup_batches_at l d t : log_ok l -> NoDup (batches_at l d t).
Proof.
  induction 1 as [|l t0 us Hl IH Ht H0' Hnd Hmw]; [constructor|]. rewrite batches_at_app. apply NoDup_app. split_and!; [done| |].
  - intros b [t1 Hin]%elem_of_batches_at [t2 Hin2]%elem_of_batches_at. apply (proj1 (Forall_forall _ _) Hmw) in Hin2 as [_ [(_ & _ & _ & _ & Hf & _)|[? _]]]; [|done].
    by apply Hf in Hin.
  - clear -Hnd. induction us as [|u us IH]; [constructor|]. rewrite fmap_cons, NoDup_cons in Hnd. destruct Hnd as [Hn Hnd]. specialize (IH Hnd).
    change (u :: us) with ([u] ++ us). rewrite batches_at_app. destruct u as [[[d' ts'|d' ts' b'] t1] k]; simpl; [done|].
    case_decide as Hd; [|done]. destruct Hd as (-> & -> & ->). constructor; [|done]. intros [t2 Hin]%elem_of_batches_at. apply Hn.
    apply list_elem_of_fmap. by exists (Append d t b', t2, 1).
Qed.

Lemma mjoin_perm {A B} (f : A -> list B) (x1 x2 : list A) : x1 ≡ₚ x2 -> mjoin (f <$> x1) ≡ₚ mjoin (f <$> x2).
Proof. induction 1 as [|x l1 l2 _ IH|x y l|l1 l2 l3 _ IH1 _ IH2]; simpl; [done|by rewrite IH|by rewrite !app_assoc, (Permutation_app_comm (f y))|by etrans]. Qed.

(** Applying everything that was committed at a time, after everything before. *)
Lemma apply_inv w d t bs : Inv w -> data_upper w d <= t -> (exists b, committed (txns w) d t b) -> NoDup bs ->
  (forall b, b ∈ bs <-> committed (txns w) d t b) -> (forall t0 b, committed (txns w) d t0 b -> t0 < t -> applied w d t0) ->
  Inv (set_data w d (mjoin (contents <$> (parse_batch <$> bs))) (t + 1)) /\
  evolve w (set_data w d (mjoin (contents <$> (parse_batch <$> bs))) (t + 1)).
Proof.
  intros Hinv Hle [b0 Hb0] Hnd Hbs Hprev. rewrite <- list_fmap_compose.
  assert (Hperm : bs ≡ₚ batches_at (txns w) d t).
  { apply NoDup_Permutation; [done|apply NoDup_batches_at, Hinv|]. intros b. rewrite Hbs, elem_of_batches_at. unfold committed. split; [eauto|].
    intros [t' Hin]. destruct (log_times _ (inv_log _ Hinv) _ _ _ Hin) as (_ & _ & Ht & _). specialize (Ht eq_refl). simpl in Ht. by subst. }
  assert (Htimes : Forall (fun u : Row * Z * Z => u.1.2 = t) (mjoin (contents ∘ parse_batch <$> bs))).
  { apply Forall_forall. intros u (l & Hu & Hl)%list_elem_of_join. apply list_elem_of_fmap in Hl as (b & -> & Hb).
    apply Hbs in Hb. destruct (inv_batch _ Hinv d t b Hb) as [Hok _]. by apply (proj1 (Forall_forall _ _) (contents_times t _ Hok)). }
  apply set_data_inv; [done| | |].
  - apply (inv_below _ Hinv) in Hb0. simpl in Hb0. lia.
  - eapply Forall_impl; [exact Htimes|]. intros u Hu. simpl in Hu. lia.
  - intros t1 Ht1 _. destruct (decide (t1 = t)) as [->|Hne].
    + rewrite filter_all by done. by apply mjoin_perm.
    + rewrite filter_none by (eapply Forall_impl; [exact Htimes|]; intros u Hu; simpl in *; lia). rewrite payload_nil; [done|apply Hinv|].
      intros b Hb. specialize (Hprev t1 b Hb). unfold applied in Hprev. lia.
Qed.

(** ** The rest *)

Lemma env_inv w w' : Inv w -> env_step w w' -> Inv w' /\ evolve w w'.
Proof.
  intros Hinv [d us new Hno Hev Hnew Hus|d s Hs].
  - apply set_data_inv; [done|lia|done|]. intros t Ht [Hin|Hin]; [|apply Hev in Hin; lia]. exfalso. apply Hno. unfold registered_before, last_registration in Hin.
    rewrite regs_keys. assert (before t (reg_keys d (txns w)) = reg_keys d (txns w)) as <-; [|done].
    apply filter_all, Forall_forall. intros [ts k] [t' Hx]%elem_of_reg_keys. destruct (log_times _ (inv_log _ Hinv) _ _ _ Hx) as (_ & _ & _ & Htx).
    specialize (Htx d ts eq_refl). subst t'. specialize (Hev ts (ex_intro _ k Hx)). simpl. lia.
  - split; [by destruct Hinv|]. split; simpl; try done.
    + apply nothing_new.
    + intros d'. apply nothing_new.
    + intros d'. destruct (decide (d' = d)) as [->|]; [by rewrite upd_eq|rewrite upd_ne by done; lia].
Qed.

Lemma since_inv w s : Inv w -> txns_since w <= s <= txns_upper w ->
  (forall d t b, committed (txns w) d t b -> ~ applied w d t -> s <= t) -> (forall d ts, reg_event (txns w) d ts -> ~ applied w d ts -> s <= ts) ->
  Inv (set_since w s) /\ evolve w (set_since w s).
Proof.
  intros [] Hs Hc Hr. split; [split; simpl; try done; lia|]. split; simpl; try done; try lia.
  - apply nothing_new.
  - intros d'. apply nothing_new.
Qed.

Lemma ids_inv w id : Inv w -> Inv (set_ids w id) /\ evolve w (set_ids w id).
Proof.
  intros []. split.
  - split; simpl; try done. intros d t b Hc. destruct (inv_batch d t b Hc) as [? (id' & x & Hid & ->)]. split; [done|]. exists id', x. split; [by constructor|done].
  - split; simpl; try done; try lia.
    + apply nothing_new.
    + intros d'. apply nothing_new.
    + intros x Hx. by constructor.
Qed.

(** A prefix of the log says the same about what it contains. *)
Lemma committed_evolve w w' d t b : evolve w w' -> committed (txns w) d t b -> committed (txns w') d t b.
Proof. intros [(us & -> & _)] Hc. apply committed_app. by left. Qed.
Lemma applied_evolve w w' d t : evolve w w' -> applied w d t -> applied w' d t.
Proof. intros Hev Ha. unfold applied in *. pose proof (ev_data_upper _ _ Hev d). lia. Qed.
Lemma committed_back w w' d t b : evolve w w' -> committed (txns w') d t b -> t < txns_upper w -> committed (txns w) d t b.
Proof. intros [(us & -> & Hus)] [?|Hc]%committed_app Ht; [done|]. apply Hus in Hc. simpl in Hc. lia. Qed.
Lemma reg_event_back w w' d t : evolve w w' -> reg_event (txns w') d t -> t < txns_upper w -> reg_event (txns w) d t.
Proof. intros [(us & -> & Hus)] [?|[k Hc]]%reg_event_app Ht; [done|]. apply Hus in Hc. simpl in Hc. lia. Qed.
End facts.
