(* ===== verification/TxnLogic.v ===== *)
(** * A logic for concurrent programs over shards

    Rules for [wp]: sequencing, loops of futures that run concurrently, each
    of the calls, and the theorem that programs which are verified one by one
    keep the invariant when they run together ([pool_inv]). *)

From S2P Require Import Prelude BTree Paths Blob TxnCache TxnCacheFacts TxnLog TxnFollow TxnQuery Txns TxnWorld TxnWorldFacts.

Local Open Scope Z_scope.

Section logic.
Context {Row : Type} `{EqDecision Row} `{UuidCodec} `{IdBatchCodec Row}.
Implicit Types (w : World Row) (d : ShardId) (pk : bool) (i : nat).

(** Facts that no step can undo. *)
Definition stable {A} (Q : A -> World Row -> Prop) : Prop := forall a w w', Inv w' -> evolve w w' -> Q a w -> Q a w'.

Lemma wp_mono pk i {A} (p : Prog Row A) w (Q Q' : A -> World Row -> Prop) : (forall a w', Q a w' -> Q' a w') -> wp pk i p w Q -> wp pk i p w Q'.
Proof.
  intros HQ. revert w. induction p as [a| | | |R e k IH]; intros w; simpl; auto.
  intros Hp w1 r w2 Hev Hinv Hex. destruct (Hp w1 r w2 Hev Hinv Hex) as (? & ? & ?). split_and!; auto.
Qed.

Lemma wp_evolve pk i {A} (p : Prog Row A) w w' Q : stable Q -> Inv w' -> evolve w w' -> wp pk i p w Q -> wp pk i p w' Q.
Proof.
  intros HQ Hinv Hev. destruct p as [a| | | |R e k]; simpl; try done; [by apply HQ|].
  intros Hp w1 r w2 Hev1 Hinv1 Hex. apply Hp; [by transitivity w'|done|done].
Qed.

Lemma wp_bind pk i {A B} (p : Prog Row A) (f : A -> Prog Row B) w Q : wp pk i p w (fun a w' => wp pk i (f a) w' Q) -> wp pk i (bind p f) w Q.
Proof.
  revert w. induction p as [a| | | |R e k IH]; intros w; simpl; auto.
  intros Hp w1 r w2 Hev Hinv Hex. destruct (Hp w1 r w2 Hev Hinv Hex) as (? & ? & ?). split_and!; auto.
Qed.

Lemma wp_lift pk i {A} (o : outcome A) a w (Q : A -> World Row -> Prop) : o = Ret a -> Q a w -> wp pk i (lift o) w Q.
Proof. by intros ->. Qed.

Lemma wp_must pk i {A} (o : option A) a w (Q : A -> World Row -> Prop) : o = Some a -> Q a w -> wp pk i (must o) w Q.
Proof. by intros ->. Qed.

Lemma wp_panics pk i {A} (o : outcome A) w (Q : A -> World Row -> Prop) : pk = true -> (forall a, o = Ret a -> Q a w) -> wp pk i (lift o) w Q.
Proof. intros Hpk HQ. destruct o as [a|]; simpl; [by apply HQ|done]. Qed.

(** The postcondition also has that the world has evolved and is fine. *)
Lemma wp_call pk i {R} (e : Eff Row R) w (Q : R -> World Row -> Prop) :
  (forall w1 r w2, evolve w w1 -> Inv w1 -> exec i e w1 r w2 -> evolve w1 w2 /\ Inv w2 /\ (evolve w w2 -> Q r w2)) -> wp pk i (call e) w Q.
Proof.
  intros HQ. simpl. intros w1 r w2 Hev Hinv Hex. destruct (HQ w1 r w2 Hev Hinv Hex) as (Hev2 & Hinv2 & Hq). split_and!; [done..|]. apply Hq. by transitivity w1.
Qed.

(** ** Calls *)

Lemma wp_shared_upper pk i sh w Q :
  (forall w' u, Inv w' -> evolve w w' -> view w i sh <= u <= upper_of w' sh -> Q (Some u) w') -> wp pk i (call (SharedUpper sh)) w Q.
Proof.
  intros HQ. apply wp_call. intros w1 r w2 Hev Hinv (u & Hu & -> & ->). destruct (set_view_ok w1 i sh u Hinv Hu) as [Hinv2 Hev2].
  split_and!; [done..|]. intros Hev3. apply HQ; [done..|]. pose proof (ev_view _ _ Hev i sh). destruct sh; simpl in *; lia.
Qed.

Lemma wp_wait pk i d ts w Q :
  (forall w', Inv w' -> evolve w w' -> ts < view w' i (Some d) -> Q tt w') -> wp pk i (call (WaitForUpperPast d ts)) w Q.
Proof.
  intros HQ. apply wp_call. intros w1 [] w2 Hev Hinv (u & Ht & Hu & ->). destruct (set_view_ok w1 i (Some d) u Hinv Hu) as [Hinv2 Hev2].
  split_and!; [done..|]. intros Hev3. apply HQ; [done..|]. simpl. by rewrite !upd_eq.
Qed.

(** A new id is one that nobody has seen. *)
Lemma wp_new_uuid pk i w Q : (forall w' id, Inv w' -> evolve w w' -> id ∉ ids w -> id ∈ ids w' -> Q id w') -> wp pk i (call NewUuid) w Q.
Proof.
  intros HQ. apply wp_call. intros w1 id w2 Hev Hinv [Hid ->]. destruct (ids_inv w1 id Hinv) as [Hinv2 Hev2]. split_and!; [done..|]. intros Hev3.
  apply HQ; [done..| |simpl; by constructor]. intros Hin. apply Hid. by apply (ev_ids _ _ Hev).
Qed.

(** The outcome of an append. *)
Lemma append_outcome i sh (valid : Prop) expected new w r w' (done : World Row) : Inv w -> append_step i sh valid expected new w r w' done ->
  valid -> expected < new -> (expected = upper_of w sh -> Inv done /\ evolve w done /\ upper_of done sh = new) ->
  Inv w' /\ evolve w w' /\ upper_of w sh <= upper_of w' sh /\
  ((expected = upper_of w sh /\ r = Some (Ok tt) /\ w' = set_view done i sh new) \/
   (expected <> upper_of w sh /\ r = Some (Err (Some (upper_of w sh))) /\ w' = set_view w i sh (upper_of w sh))).
Proof.
  intros Hinv Hst Hv Hlt Hok. destruct Hst as [(Hn & _)|[(_ & _ & He & -> & ->)|(_ & _ & He & -> & ->)]]; [by destruct Hn| |].
  - destruct (Hok He) as (Hinv' & Hev & Hup). assert (Hle : view done i sh <= new <= upper_of done sh) by (split; [|lia]; rewrite <- Hup; apply Hinv').
    destruct (set_view_ok done i sh new Hinv' Hle) as [? Hev2]. split_and!; [done|by transitivity done| |by left].
    assert (upper_of (set_view done i sh new) sh = upper_of done sh) as -> by (by destruct sh). lia.
  - destruct (set_view_ok w i sh (upper_of w sh) Hinv) as [? ?]; [split; [apply Hinv|lia]|]. split_and!; [done|done|by destruct sh|by right].
Qed.

(** Writing to the txns shard. *)
Lemma wp_caa_txns pk i us expected t w Q : expected <= t < u64_max -> Forall (fun u => u.1.2 = t) us ->
  (forall w', Inv w' -> evolve w w' -> txns_upper w' = expected -> Z.of_nat (length (txns w' ++ us)) <= u64_max -> write_ok w' t us) ->
  (forall w' w'', Inv w' -> evolve w w' -> txns_upper w' = expected -> txns w'' = txns w' ++ us -> txns_upper w'' = t + 1 ->
     data_upper w'' = data_upper w' -> Inv w'' -> evolve w w'' -> Q (Ok tt) w'') ->
  (forall w' cur, Inv w' -> evolve w w' -> cur <= txns_upper w' -> (expected <= txns_upper w -> expected < cur) -> Q (Err cur) w') ->
  wp pk i (small_caa None us expected (t + 1)) w Q.
Proof.
  intros Ht Hus Hwr Hok Herr. unfold small_caa. apply wp_bind, wp_call. intros w1 r w2 Hev Hinv [Hlen Hst].
  destruct (append_outcome _ _ _ _ _ _ _ _ _ Hinv Hst) as (Hinv2 & Hev2 & _ & Hcase); [|lia| |].
  - eapply Forall_impl; [exact Hus|]. simpl. intros. lia.
  - intros He. simpl in He. destruct (write_ok_inv w1 t us Hinv) as [? ?]; [by apply Hwr|]. by split_and!.
  - split_and!; [done..|]. intros Hev3. destruct Hcase as [(He & -> & ->)|(He & -> & ->)]; simpl.
    + by apply (Hok w1).
    + apply Herr; [done..|simpl; lia|]. simpl in He |- *. pose proof (ev_upper _ _ Hev). lia.
Qed.

(** Filling a data shard. *)
Lemma wp_fill pk i d expected new w Q : expected < new ->
  (forall w', Inv w' -> evolve w w' -> data_upper w' d = expected ->
     new <= txns_upper w' /\ forall t b, committed (txns w') d t b -> t < new -> applied w' d t) ->
  (forall w', Inv w' -> evolve w w' -> new <= data_upper w' d -> Q (Ok tt) w') ->
  (forall w' cur, Inv w' -> evolve w w' -> cur <= data_upper w' d -> (expected <= data_upper w d -> expected < cur) -> Q (Err cur) w') ->
  wp pk i (small_caa (Some d) [] expected new) w Q.
Proof.
  intros Hlt Hwr Hok Herr. unfold small_caa. apply wp_bind, wp_call. intros w1 r w2 Hev Hinv Hst. simpl in Hst.
  destruct (append_outcome _ _ _ _ _ _ _ _ _ Hinv Hst) as (Hinv2 & Hev2 & Hup & Hcase); [done|done| |].
  - intros He. simpl in He. destruct (Hwr w1 Hinv Hev (eq_sym He)) as [Hn Hc]. destruct (fill_inv w1 d new Hinv) as [? ?]; [lia|done|].
    split_and!; [done..|]. simpl. by rewrite upd_eq.
  - split_and!; [done..|]. intros Hev3. destruct Hcase as [(He & -> & ->)|(He & -> & ->)]; simpl.
    + apply Hok; [done..|]. simpl. rewrite upd_eq. lia.
    + apply Herr; [done..|simpl; lia|]. simpl in He |- *. pose proof (ev_data_upper _ _ Hev d). lia.
Qed.

(** Applying batches to a data shard. *)
Lemma wp_caa_batch pk i d bs expected t w Q : expected <= t ->
  (forall w', Inv w' -> evolve w w' -> data_upper w' d <= t -> (exists b, committed (txns w') d t b) /\ NoDup bs /\
     (forall b, b ∈ bs <-> committed (txns w') d t b) /\ forall t0 b, committed (txns w') d t0 b -> t0 < t -> applied w' d t0) ->
  (forall w', Inv w' -> evolve w w' -> Forall (appendable expected (t + 1)) (parse_batch <$> bs)) ->
  (forall w', Inv w' -> evolve w w' -> applied w' d t -> Q (Some (Ok tt)) w') ->
  (forall w' cur, Inv w' -> evolve w w' -> cur <= data_upper w' d -> (expected <= data_upper w d -> expected < cur) -> Q (Some (Err (Some cur))) w') ->
  wp pk i (call (CompareAndAppendBatch d (parse_batch <$> bs) expected (t + 1))) w Q.
Proof.
  intros Hlt Hwr Hap Hok Herr. apply wp_call. intros w1 r w2 Hev Hinv Hst. simpl in Hst.
  destruct (append_outcome _ _ _ _ _ _ _ _ _ Hinv Hst) as (Hinv2 & Hev2 & Hup & Hcase); [by apply (Hap w1)|lia| |].
  - intros He. simpl in He. destruct (Hwr w1 Hinv Hev) as (Hex & Hnd & Hbs & Hprev); [lia|].
    destruct (apply_inv w1 d t bs Hinv) as [? ?]; [lia|done..|]. split_and!; [done..|]. simpl. by rewrite upd_eq.
  - split_and!; [done..|]. intros Hev3. destruct Hcase as [(He & -> & ->)|(He & -> & ->)]; simpl.
    + apply Hok; [done..|]. unfold applied. simpl. rewrite upd_eq. lia.
    + apply Herr; [done..|simpl; lia|]. simpl in He |- *. pose proof (ev_data_upper _ _ Hev d). lia.
Qed.

Lemma wp_fetch pk i d as_of w Q :
  (forall w' rows, Inv w' -> evolve w w' -> applied w' d as_of -> data_since w' d <= as_of -> Forall (fun u => u.1.2 = as_of) rows ->
     (forall x, row_total x rows = row_total x (as_of_contents w' d as_of)) -> Q (Ok rows) w') ->
  (forall w', Inv w' -> evolve w w' -> as_of < data_since w' d -> Q (Err (data_since w' d)) w') ->
  wp pk i (call (SnapshotAndFetch d as_of)) w Q.
Proof.
  intros Hok Herr. apply wp_call. intros w1 r w2 Hev Hinv [-> Hx]. split_and!; [done..|]. intros _.
  destruct Hx as [[? ->]|[? (rows & -> & ? & ?)]]; [by apply Herr|]. apply Hok; [done|done|unfold applied; lia|lia|done..].
Qed.

Lemma wp_open_reader pk i w Q : (forall w', Inv w' -> evolve w w' -> Q (txns_since w') w') -> wp pk i (call OpenReader) w Q.
Proof. intros HQ. apply wp_call. intros w1 r w2 Hev Hinv [-> ->]. split_and!; [done..|]. intros. by apply HQ. Qed.

Lemma wp_critical_since pk i w Q : (forall w' s, Inv w' -> evolve w w' -> Q s w') -> wp pk i (call CriticalSince) w Q.
Proof. intros HQ. apply wp_call. intros w1 r w2 Hev Hinv [_ ->]. split_and!; [done..|]. intros. by apply HQ. Qed.

Lemma wp_downgrade pk i s w Q :
  (forall w', Inv w' -> evolve w w' -> s <= txns_upper w' /\ (forall d t b, committed (txns w') d t b -> ~ applied w' d t -> s <= t) /\
     (forall d ts, reg_event (txns w') d ts -> ~ applied w' d ts -> s <= ts)) ->
  (forall r w', Inv w' -> evolve w w' -> Q r w') -> wp pk i (call (CompareAndDowngradeSince s)) w Q.
Proof.
  intros Hs HQ. apply wp_call. intros w1 r w2 Hev Hinv [[-> ->]|[-> (s' & Hs' & ->)]]; [split_and!; [done..|]; intros; by apply HQ|].
  destruct (Hs w1 Hinv Hev) as (Hup & Hc & Hr). assert (Hcase : s' <= s \/ s' = txns_since w1) by lia.
  pose proof (inv_bounds _ Hinv) as (Hb & _). destruct (since_inv w1 s' Hinv) as [? ?].
  - lia.
  - intros d t b Hx Hna. pose proof (Hc d t b Hx Hna). pose proof (inv_since _ Hinv d t b Hx Hna). lia.
  - intros d ts Hx Hna. pose proof (Hr d ts Hx Hna). pose proof (inv_since_reg _ Hinv d ts Hx Hna). lia.
  - split_and!; [done..|]. intros. by apply HQ.
Qed.

(** ** Futures that run concurrently *)

Lemma wp_later pk i {A} (p : Prog Row A) w (Q Q' : A -> World Row -> Prop) : Inv w ->
  (forall a w', Inv w' -> evolve w w' -> Q a w' -> Q' a w') -> wp pk i p w Q -> wp pk i p w Q'.
Proof.
  revert w. induction p as [a| | | |T e k IH]; intros w Hinv HQ; simpl; try done; [by apply HQ|].
  intros Hp w1 r w2 Hev Hinv1 Hex. destruct (Hp w1 r w2 Hev Hinv1 Hex) as (Hev2 & Hinv2 & Hk). split_and!; [done..|]. apply IH; [done| |done].
  intros a w' ? Hev' ?. apply HQ; [done| |done]. transitivity w1; [done|]. by transitivity w2.
Qed.

Lemma wp_par pk i {A B} (p : Prog Row A) (q : Prog Row B) w QA QB (R : A * B -> World Row -> Prop) : Inv w -> stable QA -> stable QB ->
  wp pk i p w QA -> wp pk i q w QB -> (forall a b w', Inv w' -> evolve w w' -> QA a w' -> QB b w' -> R (a, b) w') -> wp pk i (par p q) w R.
Proof.
  intros Hinv HA HB. revert q w Hinv. induction p as [a| | | |T e k IHp]; intros q; try done.
  { intros w Hinv Hp Hq HR. apply wp_bind. eapply wp_later; [done| |exact Hq]. intros b w' Hi' Hev' Hb. apply HR; [done..|by apply (HA a w)|done]. }
  induction q as [b| | | |T' e' k' IHq]; intros w Hinv Hp Hq HR; try done; simpl.
  - intros w1 r w2 Hev Hinv1 Hex. destruct (Hp w1 r w2 Hev Hinv1 Hex) as (Hev2 & Hinv2 & Hk). split_and!; [done..|]. apply wp_bind. eapply wp_later; [done| |exact Hk].
    intros a w' Hi' Hev' Ha. assert (evolve w w') by (transitivity w1; [done|]; by transitivity w2). apply HR; [done..|by apply (HB b w)].
  - intros w0 first w0' Hev0 Hinv0 Hx. simpl in Hx. subst w0'. split_and!; [done..|]. destruct first; intros w1 r w2 Hev Hinv1 Hex.
    all: assert (Hev1 : evolve w w1) by (by transitivity w0).
    + destruct (Hp w1 r w2 Hev1 Hinv1 Hex) as (Hev2 & Hinv2 & Hk). split_and!; [done..|]. assert (evolve w w2) by (by transitivity w1).
      apply IHp; [done..|by apply (wp_evolve pk i (Call e' k') w w2)|]. intros a b w' ? ?. apply HR; [done|by transitivity w2].
    + destruct (Hq w1 r w2 Hev1 Hinv1 Hex) as (Hev2 & Hinv2 & Hk). split_and!; [done..|]. assert (evolve w w2) by (by transitivity w1).
      apply IHq; [done|by apply (wp_evolve pk i (Call e k) w w2)|done|]. intros a b w' ? ?. apply HR; [done|by transitivity w2].
Qed.

Lemma wp_join pk i {A} (ps : list (Prog Row A)) w (Q : nat -> A -> World Row -> Prop) (R : list A -> World Row -> Prop) : Inv w -> (forall j, stable (Q j)) ->
  (forall j p, ps !! j = Some p -> wp pk i p w (Q j)) ->
  (forall w' l, Inv w' -> evolve w w' -> length l = length ps -> (forall j a, l !! j = Some a -> Q j a w') -> R l w') ->
  wp pk i (join ps) w R.
Proof.
  intros Hinv. revert Q R. induction ps as [|p ps IH]; intros Q R Hst Hps HR; [by apply HR|]. apply wp_bind.
  eapply (wp_par pk i p (join ps) w (Q O) (fun l w' => length l = length ps /\ forall j a, l !! j = Some a -> Q (S j) a w')).
  - done.
  - apply Hst.
  - intros l w1 w2 Hi2 Hev2 [Hlen Hall]. split; [done|]. intros j a Hj. eapply Hst; [done..|by apply Hall].
  - by apply (Hps O).
  - apply (IH (fun j => Q (S j))); [intros j; apply Hst|intros j q Hj; by apply (Hps (S j))|]. by intros.
  - intros a l w' Hi' Hev' Ha [Hlen Hall]. apply HR; [done|done|simpl; by rewrite Hlen|]. intros [|j] a' Hj; simpl in Hj; [by injection Hj as <-|by apply Hall].
Qed.

(** ** Adequacy *)

Lemma pool_inv (pk : nat -> bool) {A} (Q : nat -> A -> World Row -> Prop) ps w ps' w' : (forall j, stable (Q j)) -> Inv w ->
  (forall j p, ps !! j = Some p -> wp (pk j) j p w (Q j)) -> rtc pool_step (ps, w) (ps', w') ->
  Inv w' /\ evolve w w' /\ forall j p, ps' !! j = Some p -> wp (pk j) j p w' (Q j).
Proof.
  intros Hst Hinv Hps Hrtc. remember (ps, w) as c eqn:Ec. remember (ps', w') as c' eqn:Ec'. revert ps w Hinv Hps Ec. 
  induction Hrtc as [c|c1 c2 c3 Hstep _ IH]; intros ps w Hinv Hps Ec; [rewrite Ec' in Ec; by injection Ec as -> ->|].
  assert (Hgo : forall ps2 w2, c2 = (ps2, w2) -> Inv w2 -> evolve w w2 -> (forall j p, ps2 !! j = Some p -> wp (pk j) j p w2 (Q j)) ->
    Inv w' /\ evolve w w' /\ forall j p, ps' !! j = Some p -> wp (pk j) j p w' (Q j)).
  { intros ps2 w2 E2 Hinv2 Hev2 Hps2. destruct (IH Ec' ps2 w2 Hinv2 Hps2 E2) as (? & ? & ?). split_and!; [done|by transitivity w2|done]. }
  destruct Hstep as [ps0 w0 j T e k r w2 Hj Hex|ps0 w0 j|ps0 w0 w2 Henv]; injection Ec as -> ->.
  - pose proof (Hps j _ Hj) as Hp. simpl in Hp. destruct (Hp w r w2) as (Hev2 & Hinv2 & Hk); [done..|]. apply (Hgo _ _ eq_refl Hinv2 Hev2).
    intros j' p' Hj'. destruct (decide (j' = j)) as [->|Hne].
    + rewrite list_lookup_insert_eq in Hj' by (by eapply lookup_lt_Some). by injection Hj' as <-.
    + rewrite list_lookup_insert_ne in Hj' by done. eapply wp_evolve; [done..|by apply Hps].
  - apply (Hgo _ _ eq_refl Hinv); [done|]. intros j' p' Hj'. destruct (decide (j' = j)) as [->|Hne].
    + destruct (decide (j < length ps)%nat); [rewrite list_lookup_insert_eq in Hj' by done; by injection Hj' as <-|].
      rewrite list_insert_ge in Hj' by lia. by apply Hps.
    + rewrite list_lookup_insert_ne in Hj' by done. by apply Hps.
  - destruct (env_inv w w2 Hinv Henv) as [Hinv2 Hev2]. apply (Hgo _ _ eq_refl Hinv2 Hev2). intros j p Hj. eapply wp_evolve; [done..|by apply Hps].
Qed.
End logic.
