(* ===== verification/TxnSync.v ===== *)
(** * Keeping a cache up to date

    [cache_ok] is what a process knows of its own cache, [update_wp] the loop
    that reads the txns shard until the cache has progressed far enough. *)

From S2P Require Import Prelude BTree Paths Blob TxnCache TxnCacheFacts TxnLog TxnFollow TxnQuery Txns TxnWorld TxnWorldFacts TxnLogic.

Local Open Scope Z_scope.

(** ** Batches of updates *)

Lemma total_app e t (x y : list Update) : total e t (x ++ y) = total e t x + total e t y.
Proof. induction x as [|u x IH]; [done|]. simpl. rewrite !total_cons, IH. lia. Qed.

Lemma window_split l s p q r e t : p <= q <= r ->
  total e t (advance s <$> window p r l) = total e t (advance s <$> window p q l) + total e t (advance s <$> window q r l).
Proof.
  intros Hr. unfold window. induction l as [|u l IH]; [done|]. rewrite !filter_cons.
  destruct (decide (p <= u.1.2 < r)), (decide (p <= u.1.2 < q)), (decide (q <= u.1.2 < r)); try lia; rewrite ?fmap_cons, ?total_cons; lia.
Qed.

Lemma delivers_app only s p q r l x y : p <= q <= r -> delivers only s p q l x -> delivers only s q r l y -> delivers only s p r l (x ++ y).
Proof.
  intros Hr Hx Hy e t. destruct (Hx e t) as [Hx1 Hx2], (Hy e t) as [Hy1 Hy2]. split; intros Hs; rewrite total_app.
  - rewrite Hx1, Hy1, (window_split l s p q r) by done. lia.
  - rewrite Hx2, Hy2 by done. lia.
Qed.

Lemma delivers_ext only s p q l us x : (forall u, u ∈ us -> q <= u.1.2) -> delivers only s p q l x -> delivers only s p q (l ++ us) x.
Proof.
  intros Hus Hx e t. destruct (Hx e t) as [Hx1 Hx2]. split; [|done]. intros Hs. rewrite Hx1 by done. do 2 f_equal. unfold window.
  rewrite filter_app, (filter_none _ us); [by rewrite app_nil_r|]. apply Forall_forall. intros u Hu%Hus. lia.
Qed.

Lemma delivers_none only s p l : delivers only s p p l [].
Proof.
  intros e t. split; [|done]. intros _. unfold window. rewrite filter_none; [done|]. apply Forall_forall. intros u _. lia.
Qed.

Section fetch.
Context `{UuidCodec}.

Lemma total_filter_id e t d (us : list Update) :
  total e t (filter (fun u => entry_data_id u.1.1 = d) us) = if decide (entry_data_id e = d) then total e t us else 0.
Proof.
  induction us as [|u us IH]; [by case_decide|]. rewrite filter_cons. destruct (decide (entry_data_id u.1.1 = d)) as [Hu|Hu].
  - rewrite !total_cons, IH. destruct (decide (u.1 = (e, t))) as [He|]; [|case_decide; lia]. rewrite He in Hu. by case_decide.
  - rewrite IH, total_cons. destruct (decide (u.1 = (e, t))) as [He|]; [|case_decide; lia]. rewrite He in Hu. case_decide; [done|lia].
Qed.

Lemma total_other e t (us : list Update) d : Forall (fun u => entry_data_id u.1.1 <> d) us -> entry_data_id e = d -> total e t us = 0.
Proof.
  induction 1 as [|u us Hu _ IH]; intros He; [done|]. rewrite total_cons, IH by done. rewrite decide_False; [lia|]. intros Hx. by rewrite Hx in Hu.
Qed.

Lemma fetch_app only parts x : fetch_parts only parts x = x ++ fetch_parts only parts [].
Proof.
  unfold fetch_parts. revert x. induction parts as [|part parts IH] using rev_ind; intros x; [by rewrite app_nil_r|].
  rewrite !foldl_app. simpl. rewrite IH. destruct (should_fetch_part only part); [by rewrite app_assoc|done].
Qed.

(** A part that is not fetched has nothing of the shard. *)
Lemma skipped_part d stats (us : list Update) : codec_should_fetch_part d stats = false ->
  Forall (fun u => let key := ShardId_fmt (entry_data_id u.1.1) in str_ltb key stats.1 = false /\ str_ltb stats.2 key = false) us ->
  Forall (fun u => entry_data_id u.1.1 <> d) us.
Proof.
  intros Hf Hall. eapply Forall_impl; [exact Hall|]. intros u [Hlo Hhi] <-. unfold codec_should_fetch_part in Hf. simpl in Hf. by rewrite Hlo, Hhi in Hf.
Qed.

Lemma fetch_delivers only s p q l parts : delivers_parts s p q l parts -> delivers only s p q l (fetch_parts only parts []).
Proof.
  intros [Hd Hst] e t. destruct (Hd e t) as [Hd1 _]. rewrite <- (Hd1 I). clear Hd Hd1.
  induction parts as [|part parts IH] using rev_ind; [done|]. apply Forall_snoc in Hst as [Hst Hpart].
  destruct (IH Hst) as [IH1 IH2]. unfold fetch_parts in *. rewrite foldl_app, fmap_app. rewrite join_app. simpl. rewrite app_nil_r, total_app.
  unfold should_fetch_part. destruct only as [o|]; simpl in *.
  - split; intros Hs.
    + rewrite <- IH1 by done. destruct (part_stats part) as [stats|]; [destruct (codec_should_fetch_part o stats) eqn:Ef|].
      * rewrite total_app, total_filter_id, decide_True by done. done.
      * rewrite (total_other e t (part_updates part) o); [lia|by apply (skipped_part o stats); [|apply Hpart]|done].
      * rewrite total_app, total_filter_id, decide_True by done. done.
    + destruct (match part_stats part with Some stats => codec_should_fetch_part o stats | None => true end); [|by apply IH2].
      rewrite total_app, total_filter_id, IH2, decide_False by (try done; by intros ->). done.
  - split; [|done]. intros _. by rewrite total_app, IH1.
Qed.
End fetch.

(** ** The state of a cache *)

Section sync.
Context {Row : Type} `{EqDecision Row} `{UuidCodec} `{IdBatchCodec Row} `{ConsolidateLaws} (soft : bool).
Implicit Types (w : World Row) (d : ShardId) (pk : bool) (i : nat).

(** Enough for every loop, since each turn raises a timestamp. *)
Definition fuel_ok (fuel : nat) : Prop := u64_max + 2 <= Z.of_nat fuel.

Context (fuel : nat) (Hfuel : fuel_ok fuel).

(** Everything before [t] is applied. *)
Definition settled w (t : Z) : Prop :=
  (forall d t0 b, committed (txns w) d t0 b -> t0 < t -> applied w d t0) /\ (forall d ts, reg_event (txns w) d ts -> ts < t -> applied w d ts).

(** What the subscribe of a cache has handed out, and what is buffered. *)
Definition sub_ok only w (s p : Z) (c : TxnsCache) : Prop :=
  sub_as_of (txns_subscribe c) = s /\
  ((sub_snapshot_pending (txns_subscribe c) = true /\ p = 0 /\ sub_frontier (txns_subscribe c) = s /\ buf c = []) \/
   (sub_snapshot_pending (txns_subscribe c) = false /\ p = 0 /\ sub_frontier (txns_subscribe c) = s /\ s < txns_upper w /\
    delivers only s 0 (s + 1) (txns w) (buf c)) \/
   (sub_snapshot_pending (txns_subscribe c) = false /\ s < p /\ sub_frontier (txns_subscribe c) = p /\ buf c = [])).

Record cache_rep (only : option ShardId) (s p m : Z) w (c : TxnsCache) : Prop := {
  cr_follows : follows only s p (txns w) m (state c);
  cr_sub : sub_ok only w s p c;
  cr_bounds : 0 <= s <= txns_upper w /\ 0 <= p <= txns_upper w /\ m < p;
  cr_settled : settled w s;
  cr_marked : forall d ts, reg_event (txns w) d ts -> ts <= m -> applied w d ts;
}.

Definition cache_ok only w (c : TxnsCache) : Prop := exists s p m, cache_rep only s p m w c.

Lemma cr_started only s p m w c : cache_rep only s p m w c -> p = 0 \/ s < p.
Proof. intros [_ (_ & [?|[?|?]]) _ _ _]; tauto. Qed.

Lemma cr_progress only s p m w c : cache_rep only s p m w c -> progress_exclusive (state c) = p /\ only_data_id (state c) = only.
Proof. intros Hr. by destruct (follows_fields _ _ _ _ _ _ (cr_follows _ _ _ _ _ _ Hr)) as (_ & ? & ?). Qed.

Lemma follows_zero only s l l' m st : log_ok l -> log_ok l' -> follows only s 0 l m st -> follows only s 0 l' m st.
Proof.
  intros Hl Hl' (P & HP & Hr & Hx). assert (P = []) as ->.
  { apply elem_of_nil_inv. intros u (_ & t0 & Ht & Hin & _)%(pr_mem _ _ _ _ _ HP). apply log_times in Hin as (? & _); [lia|done]. }
  destruct (follows_new only s l' Hl') as (P' & HP' & _). exists []. split; [|done]. assert (P' = []) as <-; [|done].
  apply elem_of_nil_inv. intros u (_ & t0 & Ht & Hin & _)%(pr_mem _ _ _ _ _ HP'). apply log_times in Hin as (? & _); [lia|done].
Qed.

Lemma settled_evolve w w' t : evolve w w' -> t <= txns_upper w -> settled w t -> settled w' t.
Proof.
  intros Hev Ht [Hco Hre]. split.
  - intros d t0 b Hc Hlt. eapply applied_evolve; [done|]. eapply Hco; [|done]. eapply committed_back; [done..|lia].
  - intros d ts He Hlt. eapply applied_evolve; [done|]. eapply Hre; [|done]. eapply reg_event_back; [done..|lia].
Qed.

Lemma follows_evolve only s p m w w' st : Inv w -> Inv w' -> evolve w w' -> p = 0 \/ s < p -> p <= txns_upper w ->
  follows only s p (txns w) m st -> follows only s p (txns w') m st.
Proof.
  intros Hi Hi' Hev Hst Hp Hf. destruct (ev_txns _ _ Hev) as (us & Hus & Hnew).
  destruct Hst as [->|Hst]; [eapply follows_zero; [apply Hi|apply Hi'|done]|]. rewrite Hus. apply follows_ext; [rewrite <- Hus; apply Hi'| |done].
  intros u Hu%Hnew. lia.
Qed.

Lemma delivers_evolve only s p q w w' x : evolve w w' -> q <= txns_upper w -> delivers only s p q (txns w) x -> delivers only s p q (txns w') x.
Proof. intros Hev Hq Hx. destruct (ev_txns _ _ Hev) as (us & -> & Hnew). apply delivers_ext; [|done]. intros u Hu%Hnew. lia. Qed.

Lemma sub_ok_evolve only s p w w' c : evolve w w' -> sub_ok only w s p c -> sub_ok only w' s p c.
Proof.
  intros Hev [Hs Hsub]. pose proof (ev_upper _ _ Hev). split; [done|]. destruct Hsub as [?|[(? & ? & ? & ? & ?)|?]]; [by left|right; left|by right; right].
  split_and!; [done..|lia|]. eapply delivers_evolve; [done|lia|done].
Qed.

Lemma cache_rep_evolve only s p m w w' c : Inv w -> Inv w' -> evolve w w' -> cache_rep only s p m w c -> cache_rep only s p m w' c.
Proof.
  intros Hi Hi' Hev Hr. pose proof (cr_started _ _ _ _ _ _ Hr) as Hst. destruct Hr as [Hf Hsub Hb Hset Hm]. pose proof (ev_upper _ _ Hev) as Hup. split.
  - apply (follows_evolve _ _ _ _ w); [done..|lia|done].
  - by eapply sub_ok_evolve.
  - lia.
  - eapply settled_evolve; [done|lia|done].
  - intros d ts He Hle. eapply applied_evolve; [done|]. apply Hm; [|done]. eapply reg_event_back; [done..|lia].
Qed.

Lemma cache_ok_evolve only w w' c : Inv w -> Inv w' -> evolve w w' -> cache_ok only w c -> cache_ok only w' c.
Proof. intros Hi Hi' Hev (s & p & m & Hr). exists s, p, m. by apply (cache_rep_evolve only s p m w w'). Qed.

(** The turns that are left until the progress is [g]. *)
Definition turns (g : Z) (c : TxnsCache) : Z := g - progress_exclusive (state c) + if sub_snapshot_pending (txns_subscribe c) then 1 else 0.

Lemma turns_le only s p m w c g : cache_rep only s p m w c -> turns g c <= g + 1.
Proof. intros Hr. pose proof (cr_bounds _ _ _ _ _ _ Hr). destruct (cr_progress _ _ _ _ _ _ Hr) as [Hp _]. unfold turns. rewrite Hp. destruct (sub_snapshot_pending _); lia. Qed.

(** One turn of the loop. *)
Lemma next_wp pk i {A} only s p m w c (k : TxnsCache -> Prog Row A) Q : Inv w -> cache_rep only s p m w c ->
  (forall w' c' p', Inv w' -> evolve w w' -> cache_rep only s p' m w' c' -> p <= p' -> (forall g, turns g c' < turns g c) -> wp pk i (k c') w' Q) ->
  wp pk i (do (events, sub) := call (SubscribeNext (txns_subscribe c)) in
           do c := lift (foldM (on_event soft false only) events {| txns_subscribe := sub; buf := buf c; state := state c |}) in k c)%prog w Q.
Proof.
  intros Hinv Hrep HQ. apply wp_bind, wp_call. intros w1 r w2 Hev Hinv1 [-> (parts & Hx)]. split_and!; [done..|]. intros _.
  apply (cache_rep_evolve _ _ _ _ _ w1) in Hrep; [|done..]. clear Hinv. pose proof (inv_bounds _ Hinv1) as (_ & _ & Hlen).
  pose proof Hrep as [Hf [Has Hsub] Hb Hset Hm].
  destruct Hx as [(Hp & Hlt & Hdel & ->)|(Hp & p' & Hp' & Hdel & ->)]; destruct Hsub as [(Hp0 & -> & Hfr & Hbuf)|[(Hp0 & -> & Hfr & Hlt' & Hbuf)|(Hp0 & Hsp & Hfr & Hbuf)]];
    try (exfalso; congruence); cbn [foldM on_event obind lift wp txns_subscribe buf state]; rewrite ?Has, ?Hfr in *.
  - apply (HQ w1 _ 0); [done|done| |lia|intros g; unfold turns; simpl; rewrite Hp0; lia]. split; simpl; [done| |done..]. split; [done|]. right. left. split_and!; [done..|].
    rewrite Hbuf. by apply fetch_delivers.
  - assert (Hall : delivers only s 0 p' (txns w1) (fetch_parts only parts (buf c))).
    { rewrite fetch_app. eapply (delivers_app only s 0 (s + 1)); [lia|done|]. rewrite Z.max_l in Hdel by lia. by apply fetch_delivers. }
    destruct (push_follows soft only s 0 p' (txns w1) m (state c) _ (inv_log _ Hinv1) Hlen ltac:(lia) ltac:(lia) ltac:(lia) Hf Hall) as (st' & -> & Hf'). simpl.
    destruct (follows_fields _ _ _ _ _ _ Hf) as (_ & Hpc & _). destruct (follows_fields _ _ _ _ _ _ Hf') as (_ & Hpc' & _).
    apply (HQ w1 _ p'); [done|done| |lia|intros g; unfold turns; simpl; rewrite Hpc, Hpc', Hp0; lia]. split; simpl; [done| |lia|done|done]. split; [done|]. right. right. split_and!; [done|lia|done|done].
  - assert (Hall : delivers only s p p' (txns w1) (fetch_parts only parts (buf c))) by (rewrite Z.max_r in Hdel by lia; rewrite Hbuf; by apply fetch_delivers).
    destruct (push_follows soft only s p p' (txns w1) m (state c) _ (inv_log _ Hinv1) Hlen ltac:(lia) ltac:(lia) ltac:(lia) Hf Hall) as (st' & -> & Hf'). simpl.
    destruct (follows_fields _ _ _ _ _ _ Hf) as (_ & Hpc & _). destruct (follows_fields _ _ _ _ _ _ Hf') as (_ & Hpc' & _).
    apply (HQ w1 _ p'); [done|done| |lia|intros g; unfold turns; simpl; rewrite Hpc, Hpc', Hp0; lia]. split; simpl; [done| |lia|done|done]. split; [done|]. right. right. split_and!; [done|lia|done|done].
Qed.

Lemma update_loop_wp pk i n only s p m w c g done (Q : TxnsCache -> World Row -> Prop) : Inv w -> cache_rep only s p m w c ->
  (forall p', g <= p' -> done p' = true) -> turns g c <= Z.of_nat n ->
  (forall w' c' p', Inv w' -> evolve w w' -> cache_rep only s p' m w' c' -> p <= p' -> done p' = true -> Q c' w') ->
  wp pk i (update_loop soft false n only c done) w Q.
Proof.
  intros Hinv Hrep Hg. revert w c p Hinv Hrep. induction n as [|n IH]; intros w c p Hinv Hrep Hn HQ; cbn [update_loop];
    destruct (cr_progress _ _ _ _ _ _ Hrep) as [Hp _]; rewrite Hp; (destruct (done p) eqn:Ed; [simpl; by apply (HQ w c p)|]).
  { rewrite Hg in Ed; [done|]. unfold turns in Hn. rewrite Hp in Hn. destruct (sub_snapshot_pending _); lia. }
  eapply next_wp; [done..|]. intros w' c' p' Hi' Hev' Hr' Hle Ht. specialize (Ht g). apply (IH w' c' p' Hi' Hr'); [lia|].
  intros w2 c2 p2 Hi2 Hev2 Hr2 Hle2 Hd. apply (HQ w2 c2 p2); [done|by transitivity w'|done|lia|done].
Qed.

(** [update_gt] and [update_ge]. *)
Lemma update_gt_wp pk i only s p m w c ts (Q : TxnsCache -> World Row -> Prop) : Inv w -> cache_rep only s p m w c -> ts <= u64_max ->
  (forall w' c' p', Inv w' -> evolve w w' -> cache_rep only s p' m w' c' -> p <= p' -> ts < p' -> Q c' w') ->
  wp pk i (update_gt soft false fuel c ts) w Q.
Proof.
  intros Hinv Hrep Hts HQ. unfold update_gt, update. destruct (cr_progress _ _ _ _ _ _ Hrep) as [_ ->]. apply wp_bind.
  eapply (update_loop_wp _ _ _ _ _ _ _ _ _ (ts + 1)); [done..|intros p' Hp'; apply Z.ltb_lt; lia|pose proof (turns_le _ _ _ _ _ _ (ts + 1) Hrep); unfold fuel_ok in Hfuel; lia|].
  intros w' c' p' Hi' Hev' Hr' Hle Hd. apply Z.ltb_lt in Hd. destruct (cr_progress _ _ _ _ _ _ Hr') as [Hp' _].
  apply wp_bind. eapply wp_lift; [apply soft_true; rewrite Hp'; by apply Z.ltb_lt|]. simpl. by apply (HQ w' c' p').
Qed.

Lemma update_ge_wp pk i only s p m w c ts (Q : TxnsCache -> World Row -> Prop) : Inv w -> cache_rep only s p m w c -> ts <= u64_max ->
  (forall w' c' p', Inv w' -> evolve w w' -> cache_rep only s p' m w' c' -> p <= p' -> ts <= p' -> Q c' w') ->
  wp pk i (update_ge soft false fuel c ts) w Q.
Proof.
  intros Hinv Hrep Hts HQ. unfold update_ge, update. destruct (cr_progress _ _ _ _ _ _ Hrep) as [_ ->]. apply wp_bind.
  eapply (update_loop_wp _ _ _ _ _ _ _ _ _ ts); [done..|intros p' Hp'; apply Z.leb_le; lia|pose proof (turns_le _ _ _ _ _ _ ts Hrep); unfold fuel_ok in Hfuel; lia|].
  intros w' c' p' Hi' Hev' Hr' Hle Hd. apply Z.leb_le in Hd. destruct (cr_progress _ _ _ _ _ _ Hr') as [Hp' _].
  apply wp_bind. eapply wp_lift; [apply soft_true; rewrite Hp'; by apply Z.leb_le|]. simpl. by apply (HQ w' c' p').
Qed.

(** A new cache. *)
Lemma new_rep only w sub : Inv w -> sub = {| sub_as_of := txns_since w; sub_snapshot_pending := true; sub_frontier := txns_since w |} ->
  cache_rep only (txns_since w) 0 (-1) w {| txns_subscribe := sub; buf := []; state := TxnsCacheState.new (txns_since w) only |}.
Proof.
  intros Hi ->. pose proof (inv_bounds _ Hi) as ((Hs0 & Hs1) & Hup1 & _). split; simpl; [apply follows_new, Hi| |lia| |].
  - split; [done|]. left. done.
  - split; [intros d t0 b Hc Hlt|intros d ts He Hlt].
    + destruct (decide (applied w d t0)) as [|Hn]; [done|]. pose proof (inv_since _ Hi d t0 b Hc Hn). lia.
    + destruct (decide (applied w d ts)) as [|Hn]; [done|]. pose proof (inv_since_reg _ Hi d ts He Hn). lia.
  - intros d ts [k He] Hle. apply (log_times _ (inv_log _ Hi)) in He as (? & _). simpl in *. lia.
Qed.

Lemma state_init_wp pk i only w (Q : TxnsCacheState * Subscribe -> World Row -> Prop) : Inv w ->
  (forall w' st sub s p, Inv w' -> evolve w w' -> cache_rep only s p (-1) w' {| txns_subscribe := sub; buf := []; state := st |} -> s <= p -> Q (st, sub) w') ->
  wp pk i (state_init soft false fuel only) w Q.
Proof.
  intros Hinv HQ. unfold state_init. apply wp_bind, wp_open_reader. intros w1 Hi1 Hev1.
  pose proof (inv_bounds _ Hi1) as ((Hs0 & Hs1) & Hup1 & _). apply wp_bind. pose proof (new_rep only w1 _ Hi1 eq_refl) as Hrep. set (s := txns_since w1) in *.
  match goal with |- context [update _ _ _ _ ?c0 _] => set (c := c0) in * end. change (cache_rep only s 0 (-1) w1 c) in Hrep.
  destruct (decide (s = 0)) as [E0|Hne].
  - unfold update. assert (update_loop soft false fuel only c (fun p => s <=? p) = Done (Row := Row) c) as ->.
    { destruct fuel; simpl; rewrite (proj2 (Z.leb_le s 0)) by lia; done. }
    simpl. apply (HQ w1 _ _ s 0); [done..|lia].
  - eapply (update_loop_wp _ _ _ _ _ _ _ _ _ s); [done..|intros p' Hp'; by apply Z.leb_le|pose proof (turns_le _ _ _ _ _ _ s Hrep); unfold fuel_ok in Hfuel; lia|].
    intros w2 c2 p2 Hi2 Hev2 Hr2 _ Hd. apply Z.leb_le in Hd. simpl. apply (HQ w2 _ _ s p2); [done|by transitivity w1| |done].
    destruct Hr2 as [Hf2 [Ha Hs2] Hb2 Hse2 Hm2]. split; simpl; try done. split; [done|]. right. right.
    destruct Hs2 as [(_ & -> & _)|[(_ & -> & _)|(? & ? & ? & ?)]]; [lia|lia|done].
Qed.

Lemma from_read_wp pk i only w (Q : TxnsCache -> World Row -> Prop) : Inv w ->
  (forall w' c' s p, Inv w' -> evolve w w' -> cache_rep only s p (-1) w' c' -> s <= p -> Q c' w') ->
  wp pk i (from_read soft false fuel only) w Q.
Proof.
  intros Hinv HQ. unfold from_read. apply wp_bind, state_init_wp; [done|]. intros w' st sub s p Hi' Hev' Hr' Hle. simpl. by apply (HQ w' _ s p).
Qed.
End sync.
