(* ===== verification/TxnApplyFacts.v ===== *)
(** * Applying what was committed

    [TxnsHandle::apply_le]: the items that need application are the ones of
    the log, every shard's items are applied in the order of their times, and
    afterwards everything up to the requested time is. *)

From S2P Require Import Prelude BTree Paths Blob TxnCache TxnCacheFacts TxnLog TxnFollow TxnQuery Txns TxnWorld TxnWorldFacts TxnLogic TxnSync.

Local Open Scope Z_scope.

(** ** The unapplied items *)

Definition names_of (d : ShardId) (t : Z) (bs : list (ShardId * str * Z)) : list str :=
  omap (fun x => if decide (x.1.1 = d /\ x.2 = t) then Some x.1.2 else None) bs.

Lemma elem_of_names_of d t bs b : b ∈ names_of d t bs <-> (d, b, t) ∈ bs.
Proof.
  unfold names_of. rewrite list_elem_of_omap. split.
  - intros ([[d' b'] t'] & Hin & He). simpl in He. case_decide as Hd; [|done]. destruct Hd as [-> ->]. by injection He as ->.
  - intros Hin. exists (d, b, t). split; [done|]. simpl. by rewrite decide_True.
Qed.

Lemma NoDup_names_of d t bs : NoDup ((fun x => x.1.2) <$> bs) -> NoDup (names_of d t bs).
Proof.
  induction bs as [|[[d' b'] t'] bs IH]; [constructor|]. rewrite fmap_cons, NoDup_cons. simpl. intros [Hn Hnd]. case_decide as Hd; [|by apply IH].
  constructor; [|by apply IH]. intros Hin%elem_of_names_of. apply Hn. apply list_elem_of_fmap. by exists (d, b', t).
Qed.

Lemma group_get d t bs : BTree.get (t, d) (TxnsCacheState.group_batches bs) = match names_of d t bs with [] => None | ns => Some ns end.
Proof.
  unfold TxnsCacheState.group_batches. induction bs as [|[[d' b'] t'] bs IH] using rev_ind; [done|]. rewrite foldl_app. simpl.
  unfold names_of in *. rewrite omap_app. simpl. rewrite get_insert. destruct (decide ((t, d) = (t', d'))) as [He|He].
  - injection He as <- <-. rewrite IH. rewrite decide_True by done. by destruct (omap _ bs).
  - rewrite IH, decide_False by (intros [-> ->]; by apply He). by rewrite app_nil_r.
Qed.

Lemma group_sorted bs : BTree.sorted (TxnsCacheState.group_batches bs).
Proof.
  unfold TxnsCacheState.group_batches. induction bs as [|[[d' b'] t'] bs IH] using rev_ind; [done|]. rewrite foldl_app. simpl. by apply BTree.sorted_insert.
Qed.

Lemma elem_of_group d t bs ns : (t, d, ns) ∈ TxnsCacheState.group_batches bs <-> ns = names_of d t bs /\ ns <> [].
Proof.
  split.
  - intros Hin%get_sorted; [|apply group_sorted]. rewrite group_get in Hin. destruct (names_of d t bs); [done|]. by injection Hin as <-.
  - intros [-> Hne]. apply BTree.elem_of_get. rewrite group_get. by destruct (names_of d t bs).
Qed.

Abbreviation by_time := (fun x y : ShardId * Unapplied * Z => x.2 <= y.2).

Lemma elem_of_merge x l r : x ∈ TxnsCacheState.merge_by l r <-> x ∈ l \/ x ∈ r.
Proof.
  revert r. induction l as [|y l IH]; intros r; simpl; [rewrite elem_of_nil; tauto|]. induction r as [|z r IHr]; [rewrite elem_of_nil; tauto|].
  destruct (y.2 <=? z.2); rewrite elem_of_cons; [rewrite IH|rewrite IHr]; rewrite !elem_of_cons; tauto.
Qed.

Lemma merge_sorted l r : StronglySorted by_time l -> StronglySorted by_time r -> StronglySorted by_time (TxnsCacheState.merge_by l r).
Proof.
  intros Hl. revert r. induction Hl as [|y l Hl IH Hall]; intros r Hr; simpl; [done|]. induction Hr as [|z r Hr IHr Hall']; [by constructor|].
  rewrite Forall_forall in Hall, Hall'. destruct (Z.leb_spec y.2 z.2).
  - constructor; [by apply IH; constructor; [|apply Forall_forall]|]. apply Forall_forall. intros x [Hx|[->|Hx]%elem_of_cons]%elem_of_merge; [by apply Hall|done|].
    apply Hall' in Hx. lia.
  - constructor; [done|]. apply Forall_forall. intros x Hx. change (x ∈ TxnsCacheState.merge_by (y :: l) r) in Hx.
    apply elem_of_merge in Hx as [[->|Hx]%elem_of_cons|Hx]; [lia| |by apply Hall']. apply Hall in Hx. lia.
Qed.

Lemma unapplied_spec s p l m st : log_ok l -> p = 0 \/ s < p -> follows None s p l m st ->
  exists items, TxnsCacheState.unapplied st = Ret items /\ StronglySorted by_time items /\
    (forall d ts, (d, RegisterForget, ts) ∈ items <-> (d, ts) ∈ unapplied_registers st) /\
    (forall d bs t, (d, UnappliedBatch bs, t) ∈ items <-> bs = names_of d t (BTree.values (unapplied_batches st)) /\ bs <> []).
Proof.
  intros Hl Hs Hf. destruct (follows_fields _ _ _ _ _ _ Hf) as (_ & _ & Ho). unfold TxnsCacheState.unapplied. rewrite Ho, bool_decide_true by done. simpl.
  eexists. split; [done|]. split_and!.
  - apply merge_sorted.
    + pose proof (follows_registers_sorted _ _ _ _ _ _ Hf) as Hsrt. induction Hsrt as [|x rs Hsrt IH Hall]; [constructor|]. rewrite fmap_cons.
      constructor; [done|]. apply Forall_fmap. eapply Forall_impl; [exact Hall|]. done.
    + pose proof (group_sorted (BTree.values (unapplied_batches st))) as Hsrt. induction (TxnsCacheState.group_batches _) as [|[[t d] ns] g IH]; [constructor|].
      destruct Hsrt as [Hall Hsrt]. rewrite fmap_cons. constructor; [by apply IH|]. apply Forall_fmap. eapply Forall_impl; [exact Hall|].
      intros [[t' d'] ns'] Hlt. simpl in *. apply orb_true_iff in Hlt as [Hlt%Z.ltb_lt|[Hlt%bool_decide_eq_true _]%andb_true_iff]; lia.
  - intros d ts. rewrite elem_of_merge, !list_elem_of_fmap. split.
    + intros [([d' ts'] & He & Hin)|([[t' d'] ns] & He & _)]; [|done]. by injection He as -> ->.
    + intros Hin. left. by exists (d, ts).
  - intros d bs t. rewrite elem_of_merge, !list_elem_of_fmap. split.
    + intros [([d' ts'] & He & Hin)|([[t' d'] ns] & He & Hin)]; [done|]. injection He as -> -> ->. by apply elem_of_group.
    + intros Hin%elem_of_group. right. by exists (t, d, bs).
Qed.

(** The items of a shard up to a time. *)
Definition items_of (d : ShardId) (T : Z) (l : list (ShardId * Unapplied * Z)) : list (Unapplied * Z) :=
  omap (fun x => if decide (x.1.1 = d /\ x.2 <= T) then Some (x.1.2, x.2) else None) l.

Lemma elem_of_items_of d T l u t : (u, t) ∈ items_of d T l <-> (d, u, t) ∈ l /\ t <= T.
Proof.
  unfold items_of. rewrite list_elem_of_omap. split.
  - intros ([[d' u'] t'] & Hin & He). simpl in He. case_decide as Hd; [|done]. destruct Hd as [-> ?]. by injection He as -> ->.
  - intros [Hin Ht]. exists (d, u, t). split; [done|]. simpl. by rewrite decide_True.
Qed.

Lemma items_of_sorted d T l : StronglySorted by_time l -> StronglySorted (fun x y => x.2 <= y.2) (items_of d T l).
Proof.
  induction 1 as [|[[d' u] t] l Hs IH Hall]; [constructor|]. unfold items_of in *. simpl. case_decide; [|done]. constructor; [done|].
  apply Forall_forall. intros [u' t'] Hin. apply (elem_of_items_of d T l) in Hin as [Hin _]. by apply (proj1 (Forall_forall _ _) Hall) in Hin.
Qed.

Lemma unapplied_le_get T l m d : StronglySorted by_time l ->
  BTree.get d (unapplied_le T l m) = match items_of d T l with [] => BTree.get d m | xs => Some (default [] (BTree.get d m) ++ xs) end.
Proof.
  intros Hs. revert m. induction Hs as [|[[d' u] t] l Hs IH Hall]; intros m; [done|]. cbn [unapplied_le]. destruct (Z.ltb_spec T t).
  - assert (items_of d T ((d', u, t) :: l) = []) as ->; [|done]. apply elem_of_nil_inv. intros [u' t'] [[[= -> -> ->]|Hin]%elem_of_cons Hle]%elem_of_items_of; [lia|].
    apply (proj1 (Forall_forall _ _) Hall) in Hin. simpl in Hin. lia.
  - rewrite IH, get_insert. destruct (decide (d = d')) as [->|Hne].
    + assert (items_of d' T ((d', u, t) :: l) = (u, t) :: items_of d' T l) as -> by (unfold items_of; simpl; rewrite decide_True by (split; [done|lia]); done).
      simpl. destruct (items_of d' T l); [done|]. by rewrite <- app_assoc.
    + assert (items_of d T ((d', u, t) :: l) = items_of d T l) as ->; [|done].
      unfold items_of. simpl. rewrite decide_False; [done|]. intros [? _]. by apply Hne.
Qed.

Lemma unapplied_le_sorted T l m : BTree.sorted m -> BTree.sorted (unapplied_le T l m).
Proof.
  revert m. induction l as [|[[d u] t] l IH]; intros m Hm; simpl; [done|]. destruct (T <? t); [done|]. apply IH. by apply BTree.sorted_insert.
Qed.

Lemma by_data_spec T l d xs : StronglySorted by_time l -> (d, xs) ∈ unapplied_le T l [] <-> xs = items_of d T l /\ xs <> [].
Proof.
  intros Hs. split.
  - intros Hin%get_sorted; [|by apply unapplied_le_sorted]. rewrite unapplied_le_get in Hin by done. destruct (items_of d T l); [done|]. by injection Hin as <-.
  - intros [-> Hne]. apply BTree.elem_of_get. rewrite unapplied_le_get by done. by destruct (items_of d T l).
Qed.

(** ** The appends *)

Section apply.
Context {Row : Type} `{EqDecision Row} `{UuidCodec} `{IdBatchLaws Row} `{ConsolidateLaws} (soft ensure : bool) (fuel : nat) (Hfuel : fuel_ok fuel).
Implicit Types (w : World Row) (d : ShardId) (pk : bool) (i n : nat).

Lemma step_forward_ok t : t < u64_max -> step_forward t = Ret (t + 1).
Proof. intros Ht. unfold step_forward. by rewrite (proj2 (Z.ltb_lt _ _)) by done. Qed.

Lemma event_below w d ts : Inv w -> reg_event (txns w) d ts -> ts < txns_upper w.
Proof. intros Hinv [k Hin]. by apply (inv_below _ Hinv) in Hin. Qed.
Lemma commit_below w d t b : Inv w -> committed (txns w) d t b -> t < txns_upper w.
Proof. intros Hinv Hin. by apply (inv_below _ Hinv) in Hin. Qed.
Lemma upper_bound w : Inv w -> txns_upper w <= u64_max.
Proof. intros Hinv. by destruct (inv_bounds _ Hinv) as (_ & ? & _). Qed.

Lemma reg_event_evolve w w' d ts : evolve w w' -> reg_event (txns w) d ts -> reg_event (txns w') d ts.
Proof. intros [(us & -> & _)] He. apply reg_event_app. by left. Qed.

Lemma no_commit_at_event w d ts b : Inv w -> reg_event (txns w) d ts -> ~ committed (txns w) d ts b.
Proof.
  intros Hinv [k Hk] Hc. destruct (log_regs _ (inv_log _ Hinv) d) as (_ & _ & Hr). destruct (Hr ts b Hc) as [_ Hn]. apply (Hn k).
  apply elem_of_reg_keys. eauto.
Qed.

(** Filling up to a registration. *)
Lemma empty_caa_wp pk i d ts w (Q : unit -> World Row -> Prop) : Inv w -> reg_event (txns w) d ts ->
  (forall w', Inv w' -> evolve w w' -> applied w' d ts -> Q tt w') -> wp pk i (empty_caa fuel (Some d) ts) w Q.
Proof.
  intros Hinv He HQ. unfold empty_caa. apply wp_bind, wp_shared_upper. intros w1 u Hi1 Hev1 [Hv Hu]. simpl in Hu.
  assert (H0u : 0 <= u) by (pose proof (inv_view _ Hinv i (Some d)); lia).
  assert (He1 : reg_event (txns w1) d ts) by (by eapply reg_event_evolve).
  assert (HQ1 : forall w', Inv w' -> evolve w1 w' -> applied w' d ts -> Q tt w') by (intros w' ? ? ?; apply HQ; [done|by transitivity w1|done]).
  assert (Hn : ts - u < Z.of_nat fuel) by (pose proof (event_below w1 d ts Hi1 He1); pose proof (upper_bound w1 Hi1); unfold fuel_ok in Hfuel; lia).
  clear Hev1 Hinv He HQ H0u Hv w. revert w1 u Hi1 Hu Hn He1 HQ1. generalize fuel. intros n. induction n as [|n IH]; intros w u Hinv Hu Hn He HQ; cbn [empty_caa_loop].
  all: destruct (Z.ltb_spec ts u); [apply HQ; [done|done|unfold applied; lia]|].
  { lia. }
  pose proof (event_below w d ts Hinv He). pose proof (upper_bound w Hinv).
  apply wp_bind. eapply wp_lift; [by apply step_forward_ok; lia|]. apply wp_bind, wp_fill; [lia| | |].
  - intros w' Hi' Hev' _. pose proof (ev_upper _ _ Hev'). split; [lia|]. intros t b Hc Ht.
    assert (He' : reg_event (txns w') d ts) by (by eapply reg_event_evolve). destruct (decide (t = ts)) as [->|]; [by apply no_commit_at_event in Hc|].
    apply (inv_events _ Hi' d ts t b); [done..|lia].
  - intros w' Hi' Hev' Hle. apply HQ; [done..|unfold applied; lia].
  - intros w' cur Hi' Hev' Hle Hlt. apply IH; [done..|lia|by eapply reg_event_evolve|]. intros w'' ? ? ?. apply HQ; [done|by transitivity w'|done].
Qed.

Lemma one_schema s l o : Forall (eq s) l -> o = None \/ o = Some s -> exists r, at_most_one_schema l o = Ok r.
Proof.
  intros Hl. revert o. induction Hl as [|x l <- _ IH]; intros o Ho; simpl; [eauto|]. destruct Ho as [->| ->]; [|rewrite N.eqb_refl]; apply IH; auto.
Qed.

(** The batches of the transaction at [t]. *)
Definition ready w d (t : Z) (bs : list str) : Prop :=
  NoDup bs /\ (exists b, b ∈ bs) /\ (forall b, b ∈ bs -> committed (txns w) d t b) /\
  (forall b, committed (txns w) d t b -> b ∈ bs \/ applied w d t) /\
  (forall t0 b, committed (txns w) d t0 b -> t0 < t -> applied w d t0).

Lemma ready_evolve w w' d t bs : Inv w -> evolve w w' -> ready w d t bs -> ready w' d t bs.
Proof.
  intros Hinv Hev (Hnd & [b0 Hb0] & Hc & Hall & Hprev). pose proof (commit_below w d t b0 Hinv (Hc b0 Hb0)) as Ht. split_and!; [done|by exists b0| | |].
  - intros b Hb. eapply committed_evolve; [done|]. by apply Hc.
  - intros b Hb. destruct (Hall b) as [?|?]; [by eapply committed_back|by left|right; by eapply applied_evolve].
  - intros t0 b Hb Hlt. eapply applied_evolve; [done|]. apply (Hprev t0 b); [|done]. eapply committed_back; [done..|lia].
Qed.

Lemma apply_caa_wp pk i d t bs w (Q : unit -> World Row -> Prop) : Inv w -> ready w d t bs ->
  (forall w', Inv w' -> evolve w w' -> applied w' d t -> Q tt w') -> wp pk i (apply_caa ensure fuel d bs t) w Q.
Proof.
  intros Hinv Hr HQ. unfold apply_caa. apply wp_bind, wp_shared_upper. intros w1 u Hi1 Hev1 Hu. simpl in Hu.
  assert (H0u : 0 <= u) by (pose proof (inv_view _ Hinv i (Some d)); lia). destruct Hu as [_ Hu].
  apply (ready_evolve w w1) in Hr; [|done..].
  assert (HQ1 : forall w', Inv w' -> evolve w1 w' -> applied w' d t -> Q tt w') by (intros w' ? ? ?; apply HQ; [done|by transitivity w1|done]).
  assert (Hn : t - u < Z.of_nat fuel).
  { destruct Hr as (_ & [b0 Hb0] & Hc & _). pose proof (commit_below w1 d t b0 Hi1 (Hc b0 Hb0)). pose proof (upper_bound w1 Hi1). unfold fuel_ok in Hfuel. lia. }
  clear Hev1 Hinv HQ w. revert w1 u Hi1 Hu Hn H0u Hr HQ1. generalize fuel. intros n. induction n as [|n IH]; intros w u Hinv Hu Hn H0u Hr HQ; cbn [apply_caa_loop].
  all: destruct (Z.ltb_spec t u); [apply HQ; [done|done|unfold applied; lia]|].
  { lia. }
  pose proof Hr as (Hnd & [b0 Hb0] & Hc & Hall & Hprev). pose proof (commit_below w d t b0 Hinv (Hc b0 Hb0)). pose proof (upper_bound w Hinv).
  assert (Hbok : forall w', Inv w' -> evolve w w' -> Forall (appendable u (t + 1)) (parse_batch <$> bs)).
  { intros w' Hi' Hev'. apply Forall_fmap, Forall_forall. intros b Hb%Hc. destruct (inv_batch _ Hinv d t b Hb) as [(Hlo & Hup & Hrw & _) _].
    unfold compose, appendable. rewrite Hlo, Hup, Hrw. done. }
  assert (maybe_replace_with_batch_schema (Row := Row) ensure (parse_batch <$> bs) = Done tt) as ->.
  { unfold maybe_replace_with_batch_schema. destruct (negb ensure); [done|]. destruct (inv_schema _ Hinv d t) as [s Hs].
    destruct (one_schema s (mjoin (tb_schemas <$> (parse_batch <$> bs))) None) as [r ->]; [|by left|done].
    apply Forall_forall. intros x (l & Hx & Hl)%list_elem_of_join. rewrite <- list_fmap_compose in Hl. apply list_elem_of_fmap in Hl as (b & -> & Hb).
    apply Hc, Hs in Hb. by apply (proj1 (Forall_forall _ _) Hb). }
  cbn [bind]. apply wp_bind. eapply wp_lift; [by apply step_forward_ok; lia|]. apply wp_bind. apply wp_caa_batch; [done| |exact Hbok| |].
  - intros w' Hi' Hev' Hle. pose proof (ready_evolve w w' d t bs Hinv Hev' Hr) as (_ & _ & Hc' & Hall' & Hprev').
    split_and!; [exists b0; by apply Hc'|done| |done]. intros b. split; [apply Hc'|]. intros Hb. destruct (Hall' b Hb) as [?|Ha]; [done|]. unfold applied in Ha. lia.
  - intros w' Hi' Hev' Ha. cbn. by apply HQ.
  - intros w' cur Hi' Hev' Hle Hlt. cbn. apply IH; [done|done|lia|lia|by apply (ready_evolve w)|].
    intros w'' ? ? ?. apply HQ; [done|by transitivity w'|done].
Qed.

(** *** The items of a shard *)

Definition item_ok w d (x : Unapplied * Z) : Prop :=
  match x.1 with
  | RegisterForget => reg_event (txns w) d x.2
  | UnappliedBatch bs => NoDup bs /\ (exists b, b ∈ bs) /\ (forall b, b ∈ bs -> committed (txns w) d x.2 b) /\
      (forall b, committed (txns w) d x.2 b -> b ∈ bs \/ applied w d x.2)
  end.

(** Everything up to [T] is applied or still to come. *)
Definition covered w d (T : Z) (xs : list (Unapplied * Z)) : Prop :=
  forall t b, committed (txns w) d t b -> t <= T -> applied w d t \/ exists bs, (UnappliedBatch bs, t) ∈ xs.

(** What may be retracted: batches that are applied. *)
Definition tidy_ok w (tidy : list (str * (Z * ShardId))) : Prop :=
  Forall (fun r => committed (txns w) r.2.2 r.2.1 r.1 /\ applied w r.2.2 r.2.1) tidy.

Lemma item_evolve w w' d x : Inv w -> evolve w w' -> item_ok w d x -> item_ok w' d x.
Proof.
  intros Hinv Hev. unfold item_ok. destruct x as [[|bs] t]; simpl; [by apply reg_event_evolve|]. intros (Hnd & [b0 Hb0] & Hc & Hall).
  pose proof (commit_below w d t b0 Hinv (Hc b0 Hb0)) as Ht. split_and!; [done|by exists b0| |].
  - intros b Hb. eapply committed_evolve; [done|]. by apply Hc.
  - intros b Hb. destruct (Hall b) as [?|?]; [by eapply committed_back|by left|right; by eapply applied_evolve].
Qed.

Lemma covered_evolve w w' d T xs : T < txns_upper w -> evolve w w' -> covered w d T xs -> covered w' d T xs.
Proof.
  intros HT Hev Hco t b Hc Ht. destruct (Hco t b) as [Ha|Hin]; [eapply committed_back; [done..|lia]|done|left; by eapply applied_evolve|by right].
Qed.

Lemma tidy_evolve w w' tidy : evolve w w' -> tidy_ok w tidy -> tidy_ok w' tidy.
Proof. intros Hev Ht. eapply Forall_impl; [exact Ht|]. intros r [? ?]. split; [by eapply committed_evolve|by eapply applied_evolve]. Qed.

Lemma apply_one_wp pk i d T x xs w (Q : list (str * (Z * ShardId)) -> World Row -> Prop) : Inv w -> x.2 <= T ->
  Forall (fun y => x.2 <= y.2) xs -> item_ok w d x -> covered w d T (x :: xs) ->
  (forall w' r, Inv w' -> evolve w w' -> applied w' d x.2 -> tidy_ok w' r -> Q r w') -> wp pk i (apply_one ensure fuel d x) w Q.
Proof.
  intros Hinv HT Hall Hok Hco HQ. unfold apply_one. destruct x as [[|bs] t]; cbn [fst snd] in *.
  - apply wp_bind, empty_caa_wp; [done..|]. intros w' Hi' Hev' Ha. simpl. apply HQ; [done..|constructor].
  - apply wp_bind, apply_caa_wp; [done| |].
    + destruct Hok as (? & ? & ? & ?). split_and!; try done. intros t0 b Hc Hlt. destruct (Hco t0 b Hc) as [?|[bs' Hin]]; [lia|done|].
      apply elem_of_cons in Hin as [[= _ ->]|Hin]; [lia|]. apply (proj1 (Forall_forall _ _) Hall) in Hin. simpl in Hin. lia.
    + intros w' Hi' Hev' Ha. simpl. apply HQ; [done..|]. apply Forall_fmap, Forall_forall. intros b Hb. simpl. split; [|done].
      eapply committed_evolve; [done|]. by apply Hok.
Qed.

Lemma apply_all_wp pk i d T xs ret w (Q : list (str * (Z * ShardId)) -> World Row -> Prop) : Inv w -> T < txns_upper w ->
  StronglySorted (fun x y => x.2 <= y.2) xs -> Forall (fun x => x.2 <= T) xs -> Forall (item_ok w d) xs -> covered w d T xs -> tidy_ok w ret ->
  (forall w' r, Inv w' -> evolve w w' -> Forall (fun x => applied w' d x.2) xs -> tidy_ok w' r -> Q r w') ->
  wp pk i (apply_all ensure fuel d xs ret) w Q.
Proof.
  intros Hinv HT Hsrt. revert w ret Hinv HT Q. induction Hsrt as [|x xs Hsrt IH Hall]; intros w ret Hinv HT Q Hle Hok Hco Hret HQ; simpl; [by apply HQ|].
  apply Forall_cons in Hle as [Hx Hle]. apply Forall_cons in Hok as [Hokx Hok]. apply wp_bind. eapply apply_one_wp; [done..|].
  intros w' r Hi' Hev' Ha Hr. pose proof (ev_upper _ _ Hev'). apply IH; [done|lia|done| | | |].
  - eapply Forall_impl; [exact Hok|]. intros y. by apply item_evolve.
  - intros t b Hc Ht. destruct (covered_evolve w w' d T (x :: xs) HT Hev' Hco t b Hc Ht) as [?|[bs [<-|Hin]%elem_of_cons]]; [by left|by left|right; eauto].
  - apply Forall_app. split; [by eapply tidy_evolve|done].
  - intros w2 r2 Hi2 Hev2 Hxs Hr2. apply HQ; [done|by transitivity w'| |done]. constructor; [by eapply applied_evolve|done].
Qed.

(** What a cache does not list is applied. *)
Lemma cr_live s p m w c d t b : Inv w -> cache_rep None s p m w c -> committed (txns w) d t b -> t < p ->
  (d, b, t) ∈ BTree.values (unapplied_batches (state c)) \/ applied w d t.
Proof.
  intros Hinv Hrep Hc Ht. pose proof (cr_started _ _ _ _ _ _ Hrep) as Hst. destruct (decide (applied w d t)) as [|Hna]; [by right|left].
  apply (follows_live None s p (txns w) m (state c) (inv_log _ Hinv) Hst (cr_follows _ _ _ _ _ _ Hrep)). split_and!; [done..|]. intros Hr. apply Hna.
  by eapply (inv_retracted _ Hinv).
Qed.

Lemma cr_register s p m w c d ts : Inv w -> cache_rep None s p m w c -> reg_event (txns w) d ts -> ts < p ->
  (d, ts) ∈ unapplied_registers (state c) \/ applied w d ts.
Proof.
  intros Hinv Hrep He Ht. pose proof (cr_started _ _ _ _ _ _ Hrep) as Hst. destruct Hrep as [Hf Hsub Hb [_ Hset] Hm].
  destruct (decide (ts < s)); [right; by apply Hset|]. destruct (decide (ts <= m)); [right; by apply Hm|]. left.
  apply (follows_registers None s p (txns w) m (state c) (inv_log _ Hinv) Hst Hf). split_and!; [done|done|lia..].
Qed.

(** The items of a cache. *)
Lemma cr_items s p m w c T : Inv w -> cache_rep None s p m w c -> T < p ->
  exists items, TxnsCacheState.unapplied (state c) = Ret items /\ StronglySorted by_time items /\
    forall d, Forall (item_ok w d) (items_of d T items) /\ covered w d T (items_of d T items) /\
      forall ts, reg_event (txns w) d ts -> ts <= T -> applied w d ts \/ (RegisterForget, ts) ∈ items_of d T items.
Proof.
  intros Hinv Hrep HT. pose proof (cr_started _ _ _ _ _ _ Hrep) as Hst. pose proof (cr_follows _ _ _ _ _ _ Hrep) as Hf. pose proof (inv_log _ Hinv) as Hl.
  destruct (unapplied_spec s p (txns w) m (state c) Hl Hst Hf) as (items & Hit & Hsrt & Hreg & Hbat). exists items. split_and!; [done..|].
  assert (Hnames : forall d t b, committed (txns w) d t b -> t < p -> b ∈ names_of d t (BTree.values (unapplied_batches (state c))) \/ applied w d t).
  { intros d t b Hc Ht. rewrite elem_of_names_of. by eapply cr_live. }
  intros d. split_and!.
  - apply Forall_forall. intros [[|bs] t] [Hin HtT]%elem_of_items_of; unfold item_ok; simpl.
    + apply Hreg, (follows_registers None s p (txns w) m (state c) Hl Hst Hf) in Hin. tauto.
    + apply Hbat in Hin as [-> Hne]. split_and!; [apply NoDup_names_of; by eapply follows_sorted| | |intros b Hc; apply Hnames; [done|lia]].
      * destruct (names_of d t _) as [|b bs]; [done|]. exists b. by constructor.
      * intros b Hin%elem_of_names_of. apply (follows_live None s p (txns w) m (state c) Hl Hst Hf) in Hin. tauto.
  - intros t b Hc Ht. destruct (Hnames d t b Hc) as [Hin|?]; [lia| |by left]. right. exists (names_of d t (BTree.values (unapplied_batches (state c)))).
    apply elem_of_items_of. split; [|done]. apply Hbat. split; [done|]. intros E. rewrite E in Hin. by apply not_elem_of_nil in Hin.
  - intros ts He Ht. destruct (cr_register s p m w c d ts Hinv Hrep He ltac:(lia)) as [Hin|?]; [right|by left].
    apply elem_of_items_of. split; [|done]. by apply Hreg.
Qed.

(** *** [apply_le] *)

Definition tidy_rep w (tidy : Tidy) : Prop := BTree.sorted tidy /\ tidy_ok w tidy.

Lemma tidy_rep_evolve w w' tidy : evolve w w' -> tidy_rep w tidy -> tidy_rep w' tidy.
Proof. intros Hev [? ?]. split; [done|]. by eapply tidy_evolve. Qed.

Lemma tidy_rep_nil w : tidy_rep w [].
Proof. by split; [|constructor]. Qed.

Lemma tidy_merge_rep w (t1 : Tidy) rs : tidy_rep w t1 -> tidy_ok w rs -> tidy_rep w (Tidy_merge t1 rs).
Proof.
  unfold Tidy_merge. intros Ht1 Hrs. revert t1 Ht1. induction Hrs as [|r rs Hr _ IH]; intros t1 [Hs Ht]; simpl; [done|]. apply IH. split; [by apply BTree.sorted_insert|].
  apply Forall_forall. intros x [->|Hx]%BTree.elem_of_insert; [by destruct r|]. by apply (proj1 (Forall_forall _ _) Ht).
Qed.

Lemma tidy_join w (rs : list (list (str * (Z * ShardId)))) : Forall (tidy_ok w) rs -> tidy_ok w (mjoin rs).
Proof. intros Hall. induction Hall as [|r rs Hr _ IH]; [constructor|]. simpl. apply Forall_app. done. Qed.

Lemma cr_mark s p m w c T : cache_rep None s p m w c -> T < p -> (forall d ts, reg_event (txns w) d ts -> ts <= T -> applied w d ts) ->
  exists st, TxnsCacheState.mark_register_applied false (state c) T = Ret st /\
    cache_rep None s p (Z.max m T) w {| txns_subscribe := txns_subscribe c; buf := buf c; state := st |}.
Proof.
  intros [Hf Hsub Hb Hset Hm] HT Hev. destruct (mark_follows None s p (txns w) m (state c) T Hf) as (st & -> & Hf'). exists st. split; [done|].
  split; simpl; [done|done|lia|done|]. intros d ts He Hle. destruct (decide (ts <= T)); [by apply Hev|]. apply Hm; [done|lia].
Qed.

Lemma apply_le_wp pk i s p m w h T (Q : Tidy * TxnsHandle -> World Row -> Prop) : Inv w -> cache_rep None s p m w (txns_cache h) -> T <= u64_max ->
  (forall w' tidy c' p', Inv w' -> evolve w w' -> cache_rep None s p' (Z.max m T) w' c' -> p <= p' -> T < p' -> settled w' (T + 1) -> tidy_rep w' tidy ->
     Q (tidy, with_cache h c') w') ->
  wp pk i (apply_le soft false ensure fuel h T) w Q.
Proof.
  intros Hinv Hrep HTm HQ. unfold apply_le. apply wp_bind. eapply update_gt_wp; [done..|]. intros w1 c1 p1 Hi1 Hev1 Hr1 Hp1 HT.
  destruct (cr_items s p1 m w1 c1 T Hi1 Hr1 HT) as (items & Hit & Hsrt & Hall). apply wp_bind. eapply wp_lift; [exact Hit|].
  pose proof (cr_bounds _ _ _ _ _ _ Hr1) as Hb1. set (jobs := unapplied_le T items []).
  apply wp_bind. apply (wp_join pk i _ w1 (fun j r w' => forall d xs, jobs !! j = Some (d, xs) -> Forall (fun x => applied w' d x.2) xs /\ tidy_ok w' r)).
  - done.
  - intros j r w2 w3 _ Hev Hq d xs Hj. destruct (Hq d xs Hj) as [Ha Ht]. split; [|by eapply tidy_evolve]. eapply Forall_impl; [exact Ha|]. intros x. by apply applied_evolve.
  - intros j pr Hj. rewrite list_lookup_fmap in Hj. destruct (jobs !! j) as [[d xs]|] eqn:Ej; [|done]. injection Hj as <-. cbn [fst snd].
    pose proof (list_elem_of_lookup_2 _ _ _ Ej) as Hin. apply by_data_spec in Hin as [-> Hne]; [|done]. destruct (Hall d) as (Hok & Hco & _).
    apply (apply_all_wp pk i d T); [done|lia|by apply items_of_sorted| |done|done|constructor|].
    + apply Forall_forall. intros [u t] [_ Ht]%elem_of_items_of. done.
    + intros w' r _ _ Ha Ht d' xs' [= <- <-]. done.
  - intros w2 rs Hi2 Hev2 Hlen Hrs. rewrite length_fmap in Hlen.
    assert (Hdone : forall d x, x ∈ items_of d T items -> applied w2 d x.2).
    { intros d x Hx. assert (Hin : (d, items_of d T items) ∈ jobs) by (apply by_data_spec; [done|]; split; [done|]; intros E; rewrite E in Hx; by apply not_elem_of_nil in Hx).
      apply list_elem_of_lookup_1 in Hin as [j Hj]. destruct (lookup_lt_is_Some_2 rs j) as [r Hr]; [rewrite Hlen; by eapply lookup_lt_Some|].
      destruct (Hrs j r Hr d _ Hj) as [Ha _]. by apply (proj1 (Forall_forall _ _) Ha). }
    assert (Hset : settled w2 (T + 1)).
    { split; [intros d t b Hc Ht|intros d ts He Ht].
      - destruct (proj1 (proj2 (Hall d)) t b) as [Ha|[bs Hin]]; [eapply committed_back; [done..|lia]|lia|by eapply applied_evolve|by apply Hdone in Hin].
      - destruct (proj2 (proj2 (Hall d)) ts) as [Ha|Hin]; [eapply reg_event_back; [done..|lia]|lia|by eapply applied_evolve|by apply Hdone in Hin]. }
    assert (Hr2 : cache_rep None s p1 m w2 c1) by (by apply (cache_rep_evolve None s p1 m w1)).
    destruct (cr_mark s p1 m w2 c1 T Hr2 HT) as (st & Hst & Hr3); [intros d ts He Ht; apply (proj2 Hset); [done|lia]|].
    apply wp_bind. eapply wp_lift; [exact Hst|]. cbn [wp]. apply (HQ w2 _ _ p1); [done|by transitivity w1|done|done|done|done|].
    apply tidy_merge_rep; [apply tidy_rep_nil|]. apply tidy_join, Forall_forall. intros r [j Hj]%list_elem_of_lookup_1.
    destruct (lookup_lt_is_Some_2 jobs j) as [[d xs] Hjx]; [rewrite <- Hlen; by eapply lookup_lt_Some|]. by apply (Hrs j r Hj d xs).
Qed.
End apply.
