(* ===== verification/TxnRegister.v ===== *)
(** * Registering, forgetting and compacting

    The operations of a [TxnsHandle] that change which shards belong to the
    txns shard, [compact_to] and [open], each with what it has done when it
    returns. *)

From S2P Require Import Prelude BTree Paths Blob TxnCache TxnCacheFacts TxnLog TxnFollow TxnQuery Txns TxnWorld TxnWorldFacts TxnLogic TxnSync TxnApplyFacts.

Local Open Scope Z_scope.

(** ** Registrations in the log *)

Lemma not_open o : ~ is_open o <-> is_closed o.
Proof.
  unfold is_open, is_closed. split.
  - intros Hn r -> Hf. apply Hn. by exists r.
  - intros Hc (r & -> & Hf). by apply (Hc r).
Qed.

Definition reg_update (t k : Z) (d : ShardId) : Update := (Register d t, t, k).

Lemma regs_of_other d t k ds l : d ∉ ds -> regs_of d (l ++ (reg_update t k <$> ds)) = regs_of d l.
Proof.
  revert l. induction ds as [|d' ds IH]; intros l Hn; [by rewrite app_nil_r|]. apply not_elem_of_cons in Hn as [Hne Hn]. rewrite fmap_cons.
  rewrite cons_middle, app_assoc, IH by done. snoc. by rewrite decide_False by done.
Qed.

Lemma regs_of_new d t k ds l : NoDup ds -> d ∈ ds ->
  regs_of d (l ++ (reg_update t k <$> ds)) = if k =? 1 then regs_of d l ++ [open_reg t] else close_last (regs_of d l) t.
Proof.
  revert l. induction ds as [|d' ds IH]; intros l Hnd Hin; [by apply not_elem_of_nil in Hin|]. apply NoDup_cons in Hnd as [Hn Hnd]. rewrite fmap_cons.
  rewrite cons_middle, app_assoc. apply elem_of_cons in Hin as [<-|Hin].
  - rewrite regs_of_other by done. snoc. by rewrite decide_True.
  - rewrite IH by done. snoc. rewrite decide_False; [done|]. by intros ->.
Qed.

Lemma close_last_closed rs t : ~ is_open (last (close_last rs t)).
Proof.
  unfold close_last. destruct (last rs) as [r|]; [|by intros (? & ? & _)]. rewrite is_open_regs. done.
Qed.

Lemma filterM_spec (f : ShardId -> outcome bool) (P : ShardId -> Prop) ds : (forall d, exists r, f d = Ret r /\ (r = true <-> P d)) ->
  exists xs, filterM f ds = Ret xs /\ xs `sublist_of` ds /\ forall d, d ∈ xs <-> d ∈ ds /\ P d.
Proof.
  intros Hf. induction ds as [|d ds (xs & Hxs & Hsub & Hin)]; simpl; [exists []; split_and!; [done..|]; intros d; rewrite elem_of_nil; tauto|].
  destruct (Hf d) as (r & -> & Hr). simpl. rewrite Hxs. simpl. eexists. split; [done|]. destruct r.
  - split; [by apply sublist_skip|]. intros d'. rewrite !elem_of_cons, Hin. intuition congruence.
  - split; [by apply sublist_cons|]. intros d'. rewrite elem_of_cons, Hin. split; [tauto|]. intros [[->|?] Hp]; [by apply Hr in Hp|tauto].
Qed.

Section register.
Context {Row : Type} `{EqDecision Row} `{UuidCodec} `{IdBatchLaws Row} `{ConsolidateLaws} (soft ensure : bool) (fuel : nat) (Hfuel : fuel_ok fuel) (schema : ShardId -> N).
Implicit Types (w : World Row) (d : ShardId) (pk : bool) (i n : nat).

Lemma registered_last w d : Inv w -> registered_before (txns w) (txns_upper w) d <-> is_open (last (regs_of d (txns w))).
Proof. intros Hinv. unfold registered_before. by rewrite last_all by apply Hinv. Qed.

Lemma registered_evolve w w' p d : Inv w' -> evolve w w' -> p <= txns_upper w -> registered_before (txns w') p d <-> registered_before (txns w) p d.
Proof.
  intros Hinv [(us & Hus & Hnew)] Hp. pose proof (inv_log _ Hinv) as Hl. rewrite Hus in Hl |- *. apply registered_ext; [done|]. intros u Hu%Hnew. lia.
Qed.

(** A shard that is not registered has everything applied. *)
Lemma unregistered_applied w p d t b : Inv w -> ~ registered_before (txns w) p d -> committed (txns w) d t b -> t < p -> applied w d t.
Proof.
  intros Hinv Hn Hc Ht. pose proof (inv_log _ Hinv) as Hl.
  destruct (last_registration_some (txns w) p d Hl) as [r Hr]; [by eapply commit_registered|].
  destruct (last_reg_time (txns w) p d r Hl Hr) as (Hrt & He & Hmax). destruct (forget_ts r) as [f|] eqn:Ef; [|by destruct Hn; exists r].
  destruct (Z.lt_trichotomy t f) as [?|[->|Hgt]]; [by eapply (inv_events _ Hinv)|by apply no_commit_at_event in Hc|]. exfalso.
  destruct (log_regs (txns w) Hl d) as (_ & _ & Hreg). destruct (Hreg t b Hc) as [Ho _]. apply Hn. unfold registered_before, last_registration.
  assert (before t (reg_keys d (txns w)) = before p (reg_keys d (txns w))) as <-; [|done]. transitivity (before t (before p (reg_keys d (txns w)))).
  - unfold before. rewrite list_filter_filter. apply list_filter_iff. intros. lia.
  - apply filter_all, Forall_forall. intros [ts k] [Hlt [t' Hin]%elem_of_reg_keys]%list_elem_of_filter. simpl in *.
    destruct (log_times _ Hl _ _ _ Hin) as (_ & _ & _ & Htx). specialize (Htx d ts eq_refl). subst t'. specialize (Hmax ts (ex_intro _ k Hin)). lia.
Qed.

(** Writing registrations. *)
Lemma regs_write_ok w t k ds : Inv w -> txns_upper w <= t < u64_max -> Z.of_nat (length (txns w ++ (reg_update t k <$> ds))) <= u64_max -> NoDup ds ->
  (forall d, d ∈ ds -> (k = 1 /\ ~ registered_before (txns w) (txns_upper w) d) \/ (k = -1 /\ registered_before (txns w) (txns_upper w) d)) ->
  (forall d t0 b, d ∈ ds -> committed (txns w) d t0 b -> applied w d t0) -> write_ok w t (reg_update t k <$> ds).
Proof.
  intros Hinv Ht Hlen Hnd Hds Happ. split; [done|done| | | | | |].
  - rewrite <- list_fmap_compose. apply NoDup_fmap_2; [|done]. by intros d d' [= ->].
  - apply Forall_fmap, Forall_forall. intros d Hd. split; [done|]. simpl. split; [done|]. rewrite <- not_open, <- registered_last by done. by apply Hds.
  - intros d b (d' & ? & _)%list_elem_of_fmap. done.
  - intros d. exists 0%N. intros b (d' & ? & _)%list_elem_of_fmap. done.
  - intros d t0 b (d' & ? & _)%list_elem_of_fmap. done.
  - intros d k' (d' & [= -> _] & Hd')%list_elem_of_fmap t0 b. by apply Happ.
Qed.

Lemma regs_after w w' t k ds : Inv w' -> txns w' = txns w ++ (reg_update t k <$> ds) -> txns_upper w' = t + 1 -> NoDup ds ->
  forall d, registered_before (txns w') (t + 1) d <-> if decide (d ∈ ds) then k = 1 else is_open (last (regs_of d (txns w))).
Proof.
  intros Hinv Htx Hup Hnd d. rewrite <- Hup, registered_last, Htx by done. case_decide; [rewrite regs_of_new by done|by rewrite regs_of_other].
  destruct (Z.eqb_spec k 1) as [->|Hne]; [by rewrite is_open_regs|]. split; [by intros ?%close_last_closed|done].
Qed.

(** Nothing is written while the upper is [p]. *)
Lemma commit_before w w' p d t b : Inv w' -> evolve w w' -> txns_upper w' = p -> p <= txns_upper w -> committed (txns w') d t b -> committed (txns w) d t b /\ t < p.
Proof. intros Hinv Hev Hup Hp Hc. pose proof (commit_below w' d t b Hinv Hc). split; [|lia]. eapply committed_back; [done..|lia]. Qed.

Lemma regs_caa_wp pk i k xs p t w Q : Inv w -> p <= txns_upper w -> p <= t < u64_max -> NoDup xs ->
  (forall d, d ∈ xs -> (k = 1 /\ ~ registered_before (txns w) p d) \/ (k = -1 /\ registered_before (txns w) p d)) ->
  (forall d t0 b, d ∈ xs -> committed (txns w) d t0 b -> t0 < p -> applied w d t0) ->
  (forall w', Inv w' -> evolve w w' -> t < txns_upper w' ->
     (forall d, registered_before (txns w') (t + 1) d <-> if decide (d ∈ xs) then k = 1 else registered_before (txns w) p d) -> Q (Ok tt) w') ->
  (forall w' cur, Inv w' -> evolve w w' -> cur <= txns_upper w' -> p < cur -> Q (Err cur) w') ->
  wp pk i (small_caa None (reg_update t k <$> xs) p (t + 1)) w Q.
Proof.
  intros Hinv Hp Ht Hnd Hreg Happ HOk HErr.
  assert (Hsame : forall w' d, Inv w' -> evolve w w' -> registered_before (txns w') p d <-> registered_before (txns w) p d) by (intros; by apply registered_evolve).
  apply wp_caa_txns; [lia|by apply Forall_fmap, Forall_forall| | |].
  - intros w' Hi' Hev' He Hlen. apply regs_write_ok; [done|lia|done|done| |].
    + intros d Hd. rewrite He, Hsame by done. by apply Hreg.
    + intros d t0 b Hd Hc. destruct (commit_before w w' p d t0 b Hi' Hev' He Hp Hc) as [Hc' Hlt]. eapply applied_evolve; [done|]. by eapply Happ.
  - intros w' w'' Hi' Hev' He Htx Hup'' _ Hi'' Hev''. apply HOk; [done|done|lia|]. intros d. rewrite (regs_after w' w'' t k xs) by done.
    case_decide; [done|]. by rewrite <- registered_last, He, Hsame.
  - intros w' cur Hi' Hev' Hcur Hlt. apply HErr; [done..|]. by apply Hlt.
Qed.

(** ** Handles *)

(** The write handles of a client have the schemas it uses. *)
Definition writes_ok (ws : BTreeMap ShardId N) : Prop := Forall (fun kv => kv.2 = schema kv.1) ws.

Definition handle_ok w (h : TxnsHandle) : Prop := cache_ok None w (txns_cache h) /\ writes_ok (data_write_for_commit h).

Lemma handle_intro s p m w c h : cache_rep None s p m w c -> txns_cache h = c -> writes_ok (data_write_for_commit h) -> handle_ok w h.
Proof. intros Hr <- Hw. split; [by exists s, p, m|done]. Qed.

Lemma handle_evolve w w' h : Inv w -> Inv w' -> evolve w w' -> handle_ok w h -> handle_ok w' h.
Proof. intros Hi Hi' Hev [Hc Hw]. split; [by apply (cache_ok_evolve None w)|done]. Qed.

Lemma writes_insert d ws : writes_ok ws -> writes_ok (BTree.insert d (schema d) ws).
Proof.
  intros Hw. apply Forall_forall. intros kv [->|Hin]%BTree.elem_of_insert; [done|]. by apply (proj1 (Forall_forall _ _) Hw).
Qed.

Lemma writes_removes ds ws : writes_ok ws -> writes_ok (foldl (fun m d => BTree.remove d m) ws ds).
Proof.
  revert ws. induction ds as [|d ds IH]; intros ws Hw; [done|]. simpl. apply IH. apply Forall_forall. intros kv [Hin _]%BTree.elem_of_remove.
  by apply (proj1 (Forall_forall _ _) Hw).
Qed.

Lemma keep_writes dws h : Forall (fun x => x.2 = schema x.1) dws -> writes_ok (data_write_for_commit h) ->
  exists h', foldM (keep_write soft) dws h = Ret h' /\ txns_cache h' = txns_cache h /\ writes_ok (data_write_for_commit h').
Proof.
  intros Hall. revert h. induction Hall as [|[d sc] dws Hd _ IH]; intros h Hw; simpl; [by exists h|]. simpl in Hd. subst sc.
  assert (keep_write soft h (d, schema d) = Ret (with_writes h (BTree.insert d (schema d) (data_write_for_commit h)))) as ->.
  { unfold keep_write. simpl. destruct (BTree.get d (data_write_for_commit h)) as [sc|] eqn:E; [|done]. apply BTree.elem_of_get in E.
    apply (proj1 (Forall_forall _ _) Hw) in E. simpl in E. subst sc. by rewrite N.ltb_irrefl. }
  simpl. destruct (IH (with_writes h (BTree.insert d (schema d) (data_write_for_commit h)))) as (h' & -> & Hc & Hw'); [by apply writes_insert|]. by exists h'.
Qed.

Lemma apply_le_ok pk i w h T (Q : Tidy * TxnsHandle -> World Row -> Prop) : Inv w -> handle_ok w h -> T <= u64_max ->
  (forall w' tidy h', Inv w' -> evolve w w' -> handle_ok w' h' -> data_write_for_commit h' = data_write_for_commit h -> T < txns_upper w' ->
     settled w' (T + 1) -> tidy_rep w' tidy -> Q (tidy, h') w') ->
  wp pk i (apply_le soft false ensure fuel h T) w Q.
Proof.
  intros Hinv [(s & p & m & Hr) Hws] HT HQ. eapply apply_le_wp; [done..|]. intros w' tidy c' p' Hi' Hev' Hr' _ Hp' Hset Ht. pose proof (cr_bounds _ _ _ _ _ _ Hr').
  apply HQ; [done|done|by eapply handle_intro|done|lia|done|done].
Qed.

(** The loops end, since every turn raises the upper. *)
Definition enough n (t u : Z) : Prop := 1 <= Z.of_nat n /\ t - u + 2 <= Z.of_nat n.

Lemma enough_fuel t u : t < u64_max -> 0 <= u -> enough fuel t u.
Proof. unfold enough. unfold fuel_ok in Hfuel. change u64_max with 18446744073709551615 in *. lia. Qed.
Lemma enough_S n t u p cur : enough (S n) t u -> u <= p -> p <= t -> p < cur -> enough n t cur.
Proof. unfold enough. lia. Qed.

(** What is known when the upper has not changed since the cache was updated. *)
Lemma cr_registered s p m w c d : Inv w -> cache_rep None s p m w c ->
  exists r, TxnsCacheState.registered_at_progress (state c) d p = Ret r /\ (r = true <-> registered_before (txns w) p d).
Proof.
  intros Hinv Hr. by apply (registered_exact None s p (txns w) m (state c) (inv_log _ Hinv) (cr_started _ _ _ _ _ _ Hr) (cr_follows _ _ _ _ _ _ Hr)).
Qed.

Lemma register_loop_wp pk i n h ts ds u w (Q : result TxnsHandle (Z * TxnsHandle) -> World Row -> Prop) : Inv w -> handle_ok w h -> u <= txns_upper w ->
  ts < u64_max -> NoDup ds -> enough n ts u ->
  (forall w' h', Inv w' -> evolve w w' -> handle_ok w' h' -> data_write_for_commit h' = data_write_for_commit h -> ts < txns_upper w' ->
     (forall d, d ∈ ds -> registered_before (txns w') (ts + 1) d) -> Q (Ok h') w') ->
  (forall w' h' u', Inv w' -> evolve w w' -> handle_ok w' h' -> data_write_for_commit h' = data_write_for_commit h -> ts < u' <= txns_upper w' ->
     Q (Err (u', h')) w') ->
  wp pk i (register_loop soft false fuel n h ts ds u) w Q.
Proof.
  intros Hinv Hh Hu Hts Hnd. revert w h u Hinv Hh Hu. induction n as [|n IH]; intros w h u Hinv [(s & p & m & Hr) Hws] Hu Hn HOk HErr; [by destruct Hn|].
  cbn [register_loop]. pose proof (upper_bound w Hinv). apply wp_bind. eapply update_ge_wp; [done|done|done|lia|]. intros w1 c1 p1 Hi1 Hev1 Hr1 _ Hup.
  destruct (cr_progress _ _ _ _ _ _ Hr1) as [Hp1 _]. pose proof (cr_bounds _ _ _ _ _ _ Hr1) as Hb1. cbn zeta. rewrite Hp1.
  destruct (filterM_spec (fun d => let! r := TxnsCacheState.registered_at_progress (state c1) d p1 in Ret (negb r)) (fun d => ~ registered_before (txns w1) p1 d) ds)
    as (xs & Hxs & Hsub & Hin).
  { intros d. destruct (cr_registered s p1 m w1 c1 d Hi1 Hr1) as (r & -> & Hreg). exists (negb r). split; [done|]. rewrite <- Hreg. by destruct r. }
  apply wp_bind. eapply wp_lift; [exact Hxs|]. assert (Hh1 : forall w', Inv w' -> evolve w1 w' -> handle_ok w' (with_cache h c1)).
  { intros w' Hi' Hev'. apply (handle_evolve w1); [done..|]. by eapply handle_intro. }
  destruct (Z.ltb_spec ts p1); [cbn [wp]; apply HErr; [done|done|by apply Hh1|done|lia]|].
  apply wp_bind. eapply wp_lift; [by apply step_forward_ok|]. apply wp_bind.
  apply (regs_caa_wp pk i 1 xs); [done|lia|lia|by eapply sublist_NoDup| | | |].
  - intros d [_ Hd]%Hin. by left.
  - intros d t0 b [_ Hd]%Hin. by apply unregistered_applied.
  - intros w' Hi' Hev' Hup' Hreg. cbn [wp]. apply HOk; [done|by transitivity w1|by apply Hh1|done|done|].
    intros d Hd. apply Hreg. case_decide as Hdx; [done|]. destruct (cr_registered s p1 m w1 c1 d Hi1 Hr1) as ([] & _ & Hr'); [by apply Hr'|].
    destruct Hdx. apply Hin. split; [done|]. by rewrite <- Hr'.
  - intros w' cur Hi' Hev' Hcur Hlt. assert (evolve w w') by (by transitivity w1). apply IH; [done|by apply Hh1|done|by eapply enough_S| |].
    + intros w2 h2 ? ?. apply HOk; [done|by transitivity w'].
    + intros w2 h2 u2 ? ?. apply HErr; [done|by transitivity w'].
Qed.

Lemma register_wp pk i h ts dws w (Q : result Tidy Z * TxnsHandle -> World Row -> Prop) : Inv w -> handle_ok w h -> ts < u64_max -> NoDup (fst <$> dws) ->
  Forall (fun x => x.2 = schema x.1) dws ->
  (forall w' h' tidy, Inv w' -> evolve w w' -> handle_ok w' h' -> ts < txns_upper w' ->
     (forall d, d ∈ fst <$> dws -> registered_before (txns w') (ts + 1) d) -> settled w' (ts + 1) -> tidy_rep w' tidy -> Q (Ok tidy, h') w') ->
  (forall w' h' u', Inv w' -> evolve w w' -> handle_ok w' h' -> ts < u' <= txns_upper w' -> Q (Err u', h') w') ->
  wp pk i (register soft false ensure fuel h ts dws) w Q.
Proof.
  intros Hinv Hh Hts Hnd Hdws HOk HErr. unfold register. apply wp_bind, wp_shared_upper. intros w1 u Hi1 Hev1 Hu. apply wp_bind. eapply wp_must; [done|].
  pose proof (inv_view _ Hinv i None). apply wp_bind. apply register_loop_wp; [done|by apply (handle_evolve w)|apply Hu|done|done|apply enough_fuel; lia| |].
  - intros w2 h2 Hi2 Hev2 [Hc2 Hw2] _ Hup2 Hreg. destruct (keep_writes dws h2 Hdws Hw2) as (h2' & Hk & Hc2' & Hw2'). apply wp_bind. eapply wp_lift; [exact Hk|].
    apply wp_bind. apply apply_le_ok; [done|by split; [rewrite Hc2'|]|lia|]. intros w3 tidy h3 Hi3 Hev3 Hh3 _ Hup3 Hset Htidy.
    cbn [wp]. apply HOk; try done.
    + transitivity w1; [done|]. by transitivity w2.
    + intros d Hd. apply (registered_evolve w2 w3); [done|done|lia|by apply Hreg].
  - intros w2 h2 u2 Hi2 Hev2 Hh2 _ Hu2. cbn [wp]. apply HErr; [done|by transitivity w1|done|done].
Qed.

(** ** Forgetting *)

Lemma find_latest (f : ShardId * str * Z -> bool) xs x : StronglySorted (fun y z => y.2 <= z.2) xs -> x ∈ xs -> f x = true ->
  exists y, find f (rev xs) = Some y /\ y ∈ xs /\ x.2 <= y.2.
Proof.
  induction xs as [|y xs IH] using rev_ind; intros Hsrt Hin Hx; [by apply not_elem_of_nil in Hin|]. rewrite rev_app_distr. simpl.
  apply StronglySorted_app in Hsrt as (Hle & Hsrt & _). destruct (f y) eqn:Ey.
  - exists y. split_and!; [done|apply elem_of_app; right; by constructor|]. apply elem_of_app in Hin as [Hin| ->%list_elem_of_singleton]; [|done]. apply Hle; [done|by constructor].
  - apply elem_of_app in Hin as [Hin| ->%list_elem_of_singleton]; [|congruence]. destruct (IH Hsrt Hin Hx) as (z & ? & ? & ?). exists z. split_and!; [done|apply elem_of_app; by left|done].
Qed.

(** Applying everything up to the latest write of some shards. *)
Definition catch_up (h : TxnsHandle) (latest : option Z) : Prog Row TxnsHandle :=
  match latest with Some t => (do (_, h) := apply_le soft false ensure fuel h t in Done h)%prog | None => Done h end.

Lemma catch_up_wp pk i s p m w h latest (ds : ShardId -> Prop) (Q : TxnsHandle -> World Row -> Prop) : Inv w -> cache_rep None s p m w (txns_cache h) ->
  writes_ok (data_write_for_commit h) -> (forall x, latest = Some x -> x < u64_max) ->
  (forall d b t, ds d -> (d, b, t) ∈ BTree.values (unapplied_batches (state (txns_cache h))) -> exists x, latest = Some x /\ t <= x) ->
  (forall w' h', Inv w' -> evolve w w' -> handle_ok w' h' -> data_write_for_commit h' = data_write_for_commit h ->
     (forall d t b, ds d -> committed (txns w') d t b -> t < p -> applied w' d t) -> Q h' w') ->
  wp pk i (catch_up h latest) w Q.
Proof.
  intros Hinv Hr Hws Hx Hlat HQ. pose proof (cr_bounds _ _ _ _ _ _ Hr) as Hb.
  assert (Hdone : forall w' d t b, Inv w' -> evolve w w' -> ds d -> committed (txns w') d t b -> t < p -> applied w' d t \/ exists x, latest = Some x /\ t <= x).
  { intros w' d t b Hi' Hev' Hd Hc Ht. destruct (cr_live s p m w (txns_cache h) d t b Hinv Hr) as [Hin|Ha]; [eapply committed_back; [done..|lia]|done| |].
    - right. by eapply Hlat.
    - left. by eapply applied_evolve. }
  unfold catch_up. destruct latest as [x|]; cbn [wp].
  - apply wp_bind. apply apply_le_ok; [done|by eapply handle_intro|specialize (Hx x eq_refl); lia|]. intros w' tidy h' Hi' Hev' Hh' Hw' _ [Hset _] _. cbn [wp]. apply HQ; try done.
    intros d t b Hd Hc Ht. destruct (Hdone w' d t b Hi' Hev' Hd Hc Ht) as [?|(y & [= <-] & Hy)]; [done|]. apply (Hset d t b); [done|lia].
  - apply HQ; [done|done|by eapply handle_intro|done|]. intros d t b Hd Hc Ht. by destruct (Hdone w d t b Hinv (reflexivity w) Hd Hc Ht) as [?|(y & ? & _)].
Qed.

Lemma cr_values s p m w c : Inv w -> cache_rep None s p m w c ->
  StronglySorted (fun x y => x.2 <= y.2) (BTree.values (unapplied_batches (state c))) /\
  forall x, x ∈ BTree.values (unapplied_batches (state c)) -> x.2 < u64_max.
Proof.
  intros Hinv Hr. pose proof (cr_started _ _ _ _ _ _ Hr) as Hst. pose proof (cr_follows _ _ _ _ _ _ Hr) as Hf. split; [by eapply follows_sorted|].
  intros [[d b] t] Hx%(follows_live None s p (txns w) m (state c) (inv_log _ Hinv) Hst Hf). destruct Hx as (_ & Hc & _).
  apply (commit_below w d t b Hinv) in Hc. pose proof (upper_bound w Hinv). simpl. lia.
Qed.

Lemma latest_spec s p m w c ds : Inv w -> cache_rep None s p m w c ->
  (forall x, latest_unapplied (state c) ds = Some x -> x < u64_max) /\
  (forall d b t, d ∈ ds -> (d, b, t) ∈ BTree.values (unapplied_batches (state c)) -> exists x, latest_unapplied (state c) ds = Some x /\ t <= x).
Proof.
  intros Hinv Hr. destruct (cr_values s p m w c Hinv Hr) as [Hsrt Hmax]. unfold latest_unapplied. split.
  - intros x Hx. destruct (find _ _) as [y|] eqn:E; [|done]. injection Hx as <-. apply find_some in E as [Hin _]. apply Hmax. apply list_elem_of_In. by apply in_rev.
  - intros d b t Hd Hin. destruct (find_latest (fun b => bool_decide (b.1.1 ∈ ds)) _ (d, b, t) Hsrt Hin) as (y & -> & _ & Hle); [by apply bool_decide_eq_true|]. by exists y.2.
Qed.

Lemma last_spec s p m w c : Inv w -> cache_rep None s p m w c -> let latest := (fun x => x.2) <$> last (BTree.values (unapplied_batches (state c))) in
  (forall x, latest = Some x -> x < u64_max) /\ (forall d b t, True -> (d, b, t) ∈ BTree.values (unapplied_batches (state c)) -> exists x, latest = Some x /\ t <= x).
Proof.
  intros Hinv Hr latest. destruct (cr_values s p m w c Hinv Hr) as [Hsrt Hmax]. subst latest. split.
  - intros x Hx. destruct (last _) as [y|] eqn:E; [|done]. injection Hx as <-. apply Hmax. apply last_Some in E as [xs ->]. apply elem_of_app. right. by constructor.
  - intros d b t _ Hin. destruct (BTree.values _) as [|y ys] using rev_ind; [by apply not_elem_of_nil in Hin|]. rewrite last_snoc. exists y.2. split; [done|].
    apply StronglySorted_app in Hsrt as (Hle & _ & _). apply elem_of_app in Hin as [Hin| <-%list_elem_of_singleton]; [|done]. apply (Hle (d, b, t) y Hin). by constructor.
Qed.

Lemma forget_loop_wp pk i n h ts ds u w (Q : result TxnsHandle (Z * TxnsHandle) -> World Row -> Prop) : Inv w -> handle_ok w h -> u <= txns_upper w ->
  ts < u64_max -> NoDup ds -> enough n ts u ->
  (forall w' h', Inv w' -> evolve w w' -> handle_ok w' h' -> ts < txns_upper w' -> (forall d, d ∈ ds -> ~ registered_before (txns w') (ts + 1) d) -> Q (Ok h') w') ->
  (forall w' h' u', Inv w' -> evolve w w' -> handle_ok w' h' -> ts < u' <= txns_upper w' -> Q (Err (u', h')) w') ->
  wp pk i (forget_loop soft false ensure fuel n h ts ds u) w Q.
Proof.
  intros Hinv Hh Hu Hts Hnd. revert w h u Hinv Hh Hu. induction n as [|n IH]; intros w h u Hinv [(s & p & m & Hr) Hws] Hu Hn HOk HErr; [by destruct Hn|].
  cbn [forget_loop]. pose proof (upper_bound w Hinv). apply wp_bind. eapply update_ge_wp; [done|done|done|lia|]. intros w1 c1 p1 Hi1 Hev1 Hr1 _ Hup.
  destruct (cr_progress _ _ _ _ _ _ Hr1) as [Hp1 _]. pose proof (cr_bounds _ _ _ _ _ _ Hr1) as Hb1. cbn zeta. rewrite Hp1.
  destruct (filterM_spec (fun d => TxnsCacheState.registered_at_progress (state c1) d p1) (registered_before (txns w1) p1) ds) as (xs & Hxs & Hsub & Hin).
  { intros d. by apply (cr_registered s p1 m w1 c1). }
  apply wp_bind. eapply wp_lift; [exact Hxs|].
  destruct (Z.ltb_spec ts p1); [cbn [wp]; apply HErr; [done|done|by eapply handle_intro|lia]|].
  destruct (latest_spec s p1 m w1 c1 ds Hi1 Hr1) as [Hmax Hlat]. apply wp_bind.
  apply (catch_up_wp pk i s p1 m w1 (with_cache h c1) _ (fun d => d ∈ ds)); [done..|]. intros w2 h2 Hi2 Hev2 Hh2 _ Happ. pose proof (ev_upper _ _ Hev2).
  assert (Hsame : forall d, registered_before (txns w2) p1 d <-> registered_before (txns w1) p1 d) by (intros; apply registered_evolve; [done..|lia]).
  assert (Hevw : evolve w w2) by (by transitivity w1). apply wp_bind. eapply wp_lift; [by apply step_forward_ok|]. apply wp_bind.
  apply (regs_caa_wp pk i (-1) xs); [done|lia|lia|by eapply sublist_NoDup| | | |].
  - intros d [_ Hd]%Hin. right. by rewrite Hsame.
  - intros d t0 b [Hd _]%Hin. by apply Happ.
  - intros w' Hi' Hev' Hup' Hreg. cbn [wp]. apply HOk; [done|by transitivity w2|by apply (handle_evolve w2)|done|].
    intros d Hd. rewrite Hreg. case_decide as Hdx; [done|]. rewrite Hsame. intros Hb. apply Hdx, Hin. done.
  - intros w' cur Hi' Hev' Hcur Hlt. assert (evolve w w') by (by transitivity w2). apply IH; [done|by apply (handle_evolve w2)|done|by eapply enough_S| |].
    + intros w3 h3 ? ?. apply HOk; [done|by transitivity w'].
    + intros w3 h3 u3 ? ?. apply HErr; [done|by transitivity w'].
Qed.

Lemma forget_wp pk i h ts ds w (Q : result Tidy Z * TxnsHandle -> World Row -> Prop) : Inv w -> handle_ok w h -> ts < u64_max -> NoDup ds ->
  (forall w' h' tidy, Inv w' -> evolve w w' -> handle_ok w' h' -> ts < txns_upper w' ->
     (forall d, d ∈ ds -> ~ registered_before (txns w') (ts + 1) d) -> settled w' (ts + 1) -> tidy_rep w' tidy -> Q (Ok tidy, h') w') ->
  (forall w' h' u', Inv w' -> evolve w w' -> handle_ok w' h' -> ts < u' <= txns_upper w' -> Q (Err u', h') w') ->
  wp pk i (forget soft false ensure fuel h ts ds) w Q.
Proof.
  intros Hinv Hh Hts Hnd HOk HErr. unfold forget. apply wp_bind, wp_shared_upper. intros w1 u Hi1 Hev1 Hu. apply wp_bind. eapply wp_must; [done|].
  pose proof (inv_view _ Hinv i None). apply wp_bind. apply forget_loop_wp; [done|by apply (handle_evolve w)|apply Hu|done|done|apply enough_fuel; lia| |].
  - intros w2 h2 Hi2 Hev2 Hh2 Hup2 Hreg. apply wp_bind. apply apply_le_ok; [done|done|lia|]. intros w3 tidy h3 Hi3 Hev3 [Hc3 Hw3] _ Hup3 Hset Htidy.
    cbn [wp]. apply HOk; try done.
    + transitivity w1; [done|]. by transitivity w2.
    + split; [done|]. by apply writes_removes.
    + intros d Hd. rewrite (registered_evolve w2 w3) by (try done; lia). by apply Hreg.
  - intros w2 h2 u2 Hi2 Hev2 Hh2 Hu2. cbn [wp]. apply HErr; [done|by transitivity w1|done|done].
Qed.

(** *** [forget_all] *)

Lemma open_datas kvs acc : Forall (fun kv : ShardId * DataTimes => exists r, last (registered kv.2) = Some r) kvs ->
  exists ds, foldM (fun acc kv => let! r := DataTimes.last_reg kv.2 in Ret (if TxnsCacheState.is_none (forget_ts r) then acc ++ [kv.1] else acc)) kvs acc = Ret (acc ++ ds) /\
    ds `sublist_of` (fst <$> kvs) /\ forall d, d ∈ ds <-> exists dt, (d, dt) ∈ kvs /\ is_open (last (registered dt)).
Proof.
  intros Hall. revert acc. induction Hall as [|[d dt] kvs [r Hr] _ IH]; intros acc; simpl.
  { exists []. rewrite app_nil_r. split_and!; [done..|]. intros d. rewrite elem_of_nil. split; [done|]. by intros (dt & ?%not_elem_of_nil & _). }
  simpl in Hr. unfold DataTimes.last_reg at 1. rewrite Hr. simpl. destruct (forget_ts r) as [f|] eqn:Ef; simpl.
  - destruct (IH acc) as (ds & -> & Hsub & Hin). exists ds. split_and!; [done|by apply sublist_cons|]. intros d'. rewrite Hin. setoid_rewrite elem_of_cons.
    split; [intros (dt' & ? & ?); eauto|]. intros (dt' & [[= -> ->]|?] & Ho); [|eauto]. destruct Ho as (r' & Hr' & Hf'). rewrite Hr in Hr'. injection Hr' as <-. congruence.
  - destruct (IH (acc ++ [d])) as (ds & -> & Hsub & Hin). exists (d :: ds). rewrite <- app_assoc. split_and!; [done|by apply sublist_skip|]. intros d'. rewrite elem_of_cons, Hin.
    setoid_rewrite elem_of_cons. split; [|intros (dt' & [[= -> ->]|?] & ?); eauto]. intros [->|(dt' & ? & ?)]; [exists dt; split; [by left|by exists r]|eauto].
Qed.

Lemma cr_all_registered s p m w c : Inv w -> cache_rep None s p m w c ->
  exists ds, TxnsCacheState.all_registered_at_progress (state c) p = Ret ds /\ NoDup ds /\ forall d, d ∈ ds <-> registered_before (txns w) p d.
Proof.
  intros Hinv Hr. pose proof (cr_started _ _ _ _ _ _ Hr) as Hst. pose proof (cr_follows _ _ _ _ _ _ Hr) as Hf. destruct (cr_progress _ _ _ _ _ _ Hr) as [Hp Ho].
  assert (Hsrt : BTree.sorted (datas (state c))) by (destruct Hf as (P & _ & Hrep & _); apply Hrep).
  pose proof (fun d => follows_times None s p (txns w) m (state c) (inv_log _ Hinv) Hst Hf d I) as Ht.
  unfold TxnsCacheState.all_registered_at_progress. rewrite Ho, Hp, bool_decide_true, Z.eqb_refl by done. simpl.
  destruct (open_datas (datas (state c)) []) as (ds & -> & Hsub & Hin).
  { apply Forall_forall. intros [d dt] Hd%get_sorted; [|done]. specialize (Ht d). rewrite Hd in Ht. destruct Ht as (Hl & [r Hx] & _). exists r. simpl. by rewrite Hl. }
  exists ds. split_and!; [done|eapply sublist_NoDup; [exact (sorted_nodup _ Hsrt)|done]|]. intros d. rewrite Hin. specialize (Ht d). unfold registered_before. split.
  - intros (dt & Hd%get_sorted & Hop); [|done]. rewrite Hd in Ht. by destruct Ht as (<- & _).
  - intros Hop. destruct (BTree.get d (datas (state c))) as [dt|] eqn:E; [|destruct Ht as [Hn _]; rewrite Hn in Hop; by destruct Hop as (? & ? & _)].
    exists dt. split; [by apply BTree.elem_of_get|]. by destruct Ht as (-> & _).
Qed.

Lemma forget_all_loop_wp pk i n h ts u w (Q : result (list ShardId * TxnsHandle) (Z * TxnsHandle) -> World Row -> Prop) : Inv w -> handle_ok w h ->
  u <= txns_upper w -> ts < u64_max -> enough n ts u ->
  (forall w' h' ds, Inv w' -> evolve w w' -> handle_ok w' h' -> ts < txns_upper w' -> (forall d, ~ registered_before (txns w') (ts + 1) d) -> Q (Ok (ds, h')) w') ->
  (forall w' h' u', Inv w' -> evolve w w' -> handle_ok w' h' -> ts < u' <= txns_upper w' -> Q (Err (u', h')) w') ->
  wp pk i (forget_all_loop soft false ensure fuel n h ts u) w Q.
Proof.
  intros Hinv Hh Hu Hts. revert w h u Hinv Hh Hu. induction n as [|n IH]; intros w h u Hinv [(s & p & m & Hr) Hws] Hu Hn HOk HErr; [by destruct Hn|].
  cbn [forget_all_loop]. pose proof (upper_bound w Hinv). apply wp_bind. eapply update_ge_wp; [done|done|done|lia|]. intros w1 c1 p1 Hi1 Hev1 Hr1 _ Hup.
  destruct (cr_progress _ _ _ _ _ _ Hr1) as [Hp1 _]. pose proof (cr_bounds _ _ _ _ _ _ Hr1) as Hb1. cbn zeta. rewrite Hp1.
  destruct (cr_all_registered s p1 m w1 c1 Hi1 Hr1) as (xs & Hxs & Hnd & Hin). apply wp_bind. eapply wp_lift; [exact Hxs|].
  destruct (Z.ltb_spec ts p1); [cbn [wp]; apply HErr; [done|done|by eapply handle_intro|lia]|].
  pose proof (last_spec s p1 m w1 c1 Hi1 Hr1) as [Hmax Hlat]. apply wp_bind.
  match goal with |- wp _ _ ?q _ _ => assert (q = catch_up (with_cache h c1) ((fun x => x.2) <$> last (BTree.values (unapplied_batches (state c1))))) as -> end.
  { by destruct (last _) as [[[? ?] ?]|]. }
  apply (catch_up_wp pk i s p1 m w1 (with_cache h c1) _ (fun _ => True)); [done..|]. intros w2 h2 Hi2 Hev2 Hh2 _ Happ. pose proof (ev_upper _ _ Hev2).
  assert (Hsame : forall d, registered_before (txns w2) p1 d <-> registered_before (txns w1) p1 d) by (intros; apply registered_evolve; [done..|lia]).
  assert (Hevw : evolve w w2) by (by transitivity w1). apply wp_bind. eapply wp_lift; [by apply step_forward_ok|]. apply wp_bind.
  apply (regs_caa_wp pk i (-1) xs); [done|lia|lia|done| | | |].
  - intros d Hd%Hin. right. by rewrite Hsame.
  - intros d t0 b _. by apply Happ.
  - intros w' Hi' Hev' Hup' Hreg. cbn [wp]. apply HOk; [done|by transitivity w2|by apply (handle_evolve w2)|done|].
    intros d. rewrite Hreg. case_decide as Hdx; [done|]. rewrite Hsame. intros Hb. by apply Hdx, Hin.
  - intros w' cur Hi' Hev' Hcur Hlt. assert (evolve w w') by (by transitivity w2). apply IH; [done|by apply (handle_evolve w2)|done|by eapply enough_S| |].
    + intros w3 h3 ds3 ? ?. apply HOk; [done|by transitivity w'].
    + intros w3 h3 u3 ? ?. apply HErr; [done|by transitivity w'].
Qed.

Lemma forget_all_wp pk i h ts w (Q : result (list ShardId * Tidy) Z * TxnsHandle -> World Row -> Prop) : Inv w -> handle_ok w h -> ts < u64_max ->
  (forall w' h' ds tidy, Inv w' -> evolve w w' -> handle_ok w' h' -> ts < txns_upper w' ->
     (forall d, ~ registered_before (txns w') (ts + 1) d) -> settled w' (ts + 1) -> tidy_rep w' tidy -> Q (Ok (ds, tidy), h') w') ->
  (forall w' h' u', Inv w' -> evolve w w' -> handle_ok w' h' -> ts < u' <= txns_upper w' -> Q (Err u', h') w') ->
  wp pk i (forget_all soft false ensure fuel h ts) w Q.
Proof.
  intros Hinv Hh Hts HOk HErr. unfold forget_all. apply wp_bind, wp_shared_upper. intros w1 u Hi1 Hev1 Hu. apply wp_bind. eapply wp_must; [done|].
  pose proof (inv_view _ Hinv i None). apply wp_bind. apply forget_all_loop_wp; [done|by apply (handle_evolve w)|apply Hu|done|apply enough_fuel; lia| |].
  - intros w2 h2 ds Hi2 Hev2 [Hc2 Hw2] Hup2 Hreg. apply wp_bind. apply apply_le_ok; [done|split; [done|by apply writes_removes]|lia|]. intros w3 tidy h3 Hi3 Hev3 Hh3 _ Hup3 Hset Htidy.
    cbn [wp]. apply HOk; try done.
    + transitivity w1; [done|]. by transitivity w2.
    + intros d. rewrite (registered_evolve w2 w3) by (try done; lia). by apply Hreg.
  - intros w2 h2 u2 Hi2 Hev2 Hh2 Hu2. cbn [wp]. apply HErr; [done|by transitivity w1|done|done].
Qed.

(** ** Compaction *)

Lemma compact_to_wp pk i h ts w (Q : TxnsHandle -> World Row -> Prop) : Inv w -> handle_ok w h -> ts <= u64_max ->
  (forall w' h', Inv w' -> evolve w w' -> handle_ok w' h' -> data_write_for_commit h' = data_write_for_commit h -> Q h' w') ->
  wp pk i (compact_to soft false fuel h ts) w Q.
Proof.
  intros Hinv [(s & p & m & Hr) Hws] Hts HQ. unfold compact_to. apply wp_bind. eapply update_gt_wp; [done..|]. intros w1 c1 p1 Hi1 Hev1 Hr1 _ Hlt.
  pose proof (cr_started _ _ _ _ _ _ Hr1) as Hst. pose proof (cr_bounds _ _ _ _ _ _ Hr1) as Hb.
  destruct (min_unapplied_le None s p1 (txns w1) m (state c1) (inv_log _ Hi1) Hst (cr_follows _ _ _ _ _ _ Hr1) eq_refl) as (t & Ht & Htp & Hbat & Hreg).
  apply wp_bind. eapply wp_lift; [exact Ht|]. cbn zeta. set (s' := if t <? ts then t else ts).
  assert (Hs' : s' <= t /\ s' < p1) by (subst s'; destruct (Z.ltb_spec t ts); lia). clearbody s'.
  assert (Hfin : forall w', Inv w' -> evolve w1 w' -> Q (with_cache h c1) w').
  { intros w' Hi' Hev'. apply HQ; [done|by transitivity w1| |done]. apply (handle_evolve w1); [done..|]. by eapply handle_intro. }
  apply wp_bind. unfold cads. apply wp_bind, wp_critical_since. intros w2 cs Hi2 Hev2. destruct (negb (cs <? s')); [by apply Hfin|].
  apply wp_bind, wp_downgrade.
  - intros w3 Hi3 Hev3. assert (Hev : evolve w1 w3) by (by transitivity w2). pose proof (ev_upper _ _ Hev). split_and!; [lia| |].
    + intros d t0 b Hc Hna. destruct (decide (t0 < p1)); [|lia]. destruct (cr_live s p1 m w1 c1 d t0 b Hi1 Hr1) as [Hin|Ha]; [eapply committed_back; [done..|lia]|done| |].
      * apply Hbat in Hin. lia.
      * destruct Hna. by eapply applied_evolve.
    + intros d t0 He Hna. destruct (decide (t0 < p1)); [|lia]. destruct (cr_register s p1 m w1 c1 d t0 Hi1 Hr1) as [Hin|Ha]; [eapply reg_event_back; [done..|lia]|done| |].
      * apply Hreg in Hin. lia.
      * destruct Hna. by eapply applied_evolve.
  - intros r w3 Hi3 Hev3. destruct r; [|done]. cbn [wp]. apply Hfin; [done|by transitivity w2].
Qed.

(** ** Opening a handle *)

Lemma write_nothing w t : Inv w -> txns_upper w <= t < u64_max -> write_ok w t [].
Proof.
  intros Hinv Ht. split; [done|rewrite app_nil_r; apply Hinv|constructor|constructor|..].
  - by intros d b ?%not_elem_of_nil.
  - intros d. exists 0%N. by intros b ?%not_elem_of_nil.
  - by intros d t0 b ?%not_elem_of_nil.
  - by intros d k ?%not_elem_of_nil.
Qed.

Lemma init_caa_wp pk i t w (Q : unit -> World Row -> Prop) : Inv w -> t < u64_max ->
  (forall w', Inv w' -> evolve w w' -> t < txns_upper w' -> Q tt w') -> wp pk i (empty_caa fuel None t) w Q.
Proof.
  intros Hinv Ht HQ. unfold empty_caa. apply wp_bind, wp_shared_upper. intros w1 u Hi1 Hev1 [Hv Hu]. simpl in Hu.
  assert (Hn : t - u < Z.of_nat fuel) by (pose proof (inv_view _ Hinv i None); unfold fuel_ok in Hfuel; lia).
  assert (HQ1 : forall w', Inv w' -> evolve w1 w' -> t < txns_upper w' -> Q tt w') by (intros w' ? ? ?; apply HQ; [done|by transitivity w1|done]).
  clear Hev1 Hinv HQ Hv w. revert w1 u Hi1 Hu Hn HQ1. generalize fuel. intros n. induction n as [|n IH]; intros w u Hinv Hu Hn HQ; cbn [empty_caa_loop].
  all: destruct (Z.ltb_spec t u); [apply HQ; [done|done|lia]|].
  { lia. }
  apply wp_bind. eapply wp_lift; [by apply step_forward_ok|]. apply wp_bind, wp_caa_txns; [lia|constructor| | |].
  - intros w' Hi' Hev' He _. apply write_nothing; [done|lia].
  - intros w' w'' _ _ _ _ Hup _ Hi'' Hev''. apply HQ; [done|done|lia].
  - intros w' cur Hi' Hev' Hle Hlt. apply IH; [done|done|lia|]. intros w'' ? ? ?. apply HQ; [done|by transitivity w'|done].
Qed.

Lemma open_wp pk i t w (Q : TxnsHandle -> World Row -> Prop) : Inv w -> t < u64_max ->
  (forall w' h, Inv w' -> evolve w w' -> handle_ok w' h -> t < txns_upper w' -> Q h w') -> wp pk i (open soft false fuel t) w Q.
Proof.
  intros Hinv Ht HQ. unfold open. apply wp_bind, init_caa_wp; [done..|]. intros w1 Hi1 Hev1 Hup. apply wp_bind, from_read_wp; [done..|].
  intros w2 c2 s p Hi2 Hev2 Hr2 _. apply wp_bind. eapply update_gt_wp; [done|done|done|lia|]. intros w3 c3 p3 Hi3 Hev3 Hr3 _ Hp3. cbn [wp].
  pose proof (cr_bounds _ _ _ _ _ _ Hr3). apply HQ; [done| |by eapply handle_intro; [..|constructor]|lia]. transitivity w1; [done|]. by transitivity w2.
Qed.
End register.
