(* ===== verification/TxnReads.v ===== *)
(** * Reads of data shards

    [DataSnapshot::unblock_read] and [snapshot_and_fetch]: what a read waits
    for, why it may fill the shard with empty time, and what it returns. *)

From S2P Require Import Prelude BTree Paths Blob TxnCache TxnCacheFacts TxnLog TxnFollow TxnQuery Txns TxnWorld TxnWorldFacts TxnLogic TxnSync TxnApplyFacts.

Local Open Scope Z_scope.

Section reads.
Context {Row : Type} `{EqDecision Row} `{UuidCodec} `{IdBatchLaws Row} `{ConsolidateLaws} (soft ensure : bool) (fuel : nat) (Hfuel : fuel_ok fuel).
Implicit Types (w : World Row) (d : ShardId) (pk : bool) (i n : nat).

(** The contents of the shard as of a time that it has passed. *)
Definition read_ok w d (as_of : Z) (rows : list (Row * Z * Z)) : Prop :=
  applied w d as_of /\ Forall (fun u => u.1.2 = as_of) rows /\ forall x, row_total x rows = row_total x (as_of_contents w d as_of).

Lemma as_of_evolve w w' d as_of : evolve w w' -> applied w d as_of -> as_of_contents w' d as_of = as_of_contents w d as_of.
Proof.
  intros Hev Ha. destruct (ev_data _ _ Hev d) as (us & Hus & Hnew). unfold as_of_contents, applied in *. rewrite Hus, filter_app, (filter_none _ us); [apply app_nil_r|].
  apply Forall_forall. intros u Hu%Hnew. lia.
Qed.

Lemma read_evolve w w' d as_of rows : evolve w w' -> read_ok w d as_of rows -> read_ok w' d as_of rows.
Proof. intros Hev (Ha & Ht & Hrow). split_and!; [by eapply applied_evolve|done|]. intros x. by rewrite (as_of_evolve w w') by done. Qed.

(** What makes a token sound: once the shard is past the latest write of the
    token, everything before the time it may be filled to is applied. *)
Definition token_ok w (snap : DataSnapshot) : Prop :=
  let d := ds_data_id snap in
  ds_as_of snap < empty_to snap <= txns_upper w /\
  (forall x, latest_write snap = Some x -> x < empty_to snap) /\
  forall t b, committed (txns w) d t b -> t < empty_to snap -> applied w d t \/ exists x, latest_write snap = Some x /\ t <= x.

Lemma token_evolve w w' snap : evolve w w' -> token_ok w snap -> token_ok w' snap.
Proof.
  intros Hev (Hb & Hx & Hc). pose proof (ev_upper _ _ Hev). split_and!; [lia|lia|done|]. intros t b Hco Ht.
  destruct (Hc t b) as [?|?]; [eapply committed_back; [done..|lia]|done|left; by eapply applied_evolve|by right].
Qed.

Lemma follows_token only s p m w st d as_of : Inv w -> p = 0 \/ s < p -> p <= txns_upper w -> settled w s -> follows only s p (txns w) m st ->
  sees only d -> 0 <= as_of < p ->
  exists snap, TxnsCacheState.data_snapshot st d as_of = Ret snap /\ ds_data_id snap = d /\ ds_as_of snap = as_of /\ empty_to snap = Z.max (as_of + 1) s /\ token_ok w snap.
Proof.
  intros Hinv Hst Hp Hset Hf Hsee Has. pose proof (upper_bound w Hinv).
  destruct (snapshot_token only s p (txns w) m st (inv_log _ Hinv) Hst Hf d as_of Hsee Has) as (snap & Hs & Hd & Ha & He & Hc & Hx); [lia|].
  exists snap. split_and!; [done..|]. split_and!; [rewrite Ha, He; lia|rewrite He; lia| |].
  - intros x Hlw. apply Hx in Hlw as [? _]. rewrite He. lia.
  - intros t b Hco Ht. rewrite Hd, He in *. destruct (decide (applied w d t)) as [|Hna]; [by left|right].
    destruct (decide (t <= as_of)); [|destruct Hna; eapply (proj1 Hset); [done|lia]].
    apply (Hc t b); [done..|]. intros Hre. apply Hna. by eapply (inv_retracted _ Hinv).
Qed.

Lemma cr_token only s p m w c d as_of : Inv w -> cache_rep only s p m w c -> sees only d -> 0 <= as_of < p ->
  exists snap, TxnsCacheState.data_snapshot (state c) d as_of = Ret snap /\ ds_data_id snap = d /\ ds_as_of snap = as_of /\ token_ok w snap.
Proof.
  intros Hinv Hr Hsee Has. pose proof (cr_started _ _ _ _ _ _ Hr) as Hst. pose proof (cr_bounds _ _ _ _ _ _ Hr) as Hb.
  destruct (follows_token only s p m w (state c) d as_of) as (snap & ? & ? & ? & _ & ?); [done..|lia|apply Hr|apply Hr|done|done|]. by exists snap.
Qed.

Lemma unblock_loop_wp pk i n snap u w (Q : unit -> World Row -> Prop) : Inv w -> token_ok w snap -> u <= data_upper w (ds_data_id snap) ->
  (forall x, latest_write snap = Some x -> x < u) -> empty_to snap - u <= Z.of_nat n ->
  (forall w', Inv w' -> evolve w w' -> applied w' (ds_data_id snap) (ds_as_of snap) -> Q tt w') ->
  wp pk i (unblock_loop n snap u) w Q.
Proof.
  revert w u. induction n as [|n IH]; intros w u Hinv Htok Hu Hx Hn HQ; cbn [unblock_loop]; pose proof Htok as (Hb & Hlw & Hco).
  all: destruct (Z.ltb_spec u (empty_to snap)) as [Hlt|Hge]; [|cbn [wp]; apply HQ; [done|done|unfold applied; lia]].
  { lia. }
  apply wp_bind. apply (wp_lift _ _ _ tt). { destruct (latest_write snap) as [x|]; [|done]. by rewrite (proj2 (Z.ltb_lt _ _)) by (by apply Hx). }
  apply wp_bind. apply (wp_lift _ _ _ tt). { by rewrite (proj2 (Z.ltb_lt _ _)) by lia. }
  apply wp_bind. apply wp_fill; [done| | |].
  - intros w' Hi' Hev' He. destruct (token_evolve w w' snap Hev' Htok) as (Hb' & _ & Hco'). split; [lia|]. intros t b Hc Ht.
    destruct (Hco' t b Hc Ht) as [?|(x & Hxw & Htx)]; [done|]. unfold applied. specialize (Hx x Hxw). lia.
  - intros w' Hi' Hev' Hup. cbn [wp]. apply HQ; [done|done|unfold applied; lia].
  - intros w' cur Hi' Hev' Hcur Hlt'. specialize (Hlt' Hu). apply IH; [done|by eapply token_evolve|done| |lia|].
    + intros x Hxw. specialize (Hx x Hxw). lia.
    + intros w'' ? ? ?. apply HQ; [done|by transitivity w'|done].
Qed.

Lemma unblock_read_wp pk i snap w (Q : unit -> World Row -> Prop) : Inv w -> token_ok w snap ->
  (forall w', Inv w' -> evolve w w' -> applied w' (ds_data_id snap) (ds_as_of snap) -> Q tt w') -> wp pk i (unblock_read fuel snap) w Q.
Proof.
  intros Hinv Htok HQ. unfold unblock_read. apply wp_bind.
  assert (Hgo : forall w1, Inv w1 -> evolve w w1 -> (forall x, latest_write snap = Some x -> x < view w1 i (Some (ds_data_id snap))) ->
    wp pk i (do data_upper := call (SharedUpper (Some (ds_data_id snap))) in match data_upper with None => Done tt | Some u => unblock_loop fuel snap u end)%prog w1 Q).
  { intros w1 Hi1 Hev1 Hv. apply wp_bind, wp_shared_upper. intros w2 u Hi2 Hev2 Hu. assert (Hev : evolve w w2) by (by transitivity w1). apply unblock_loop_wp; [done|by eapply token_evolve| | | |].
    - simpl in Hu. lia.
    - intros x Hx. specialize (Hv x Hx). lia.
    - pose proof (inv_view _ Hi1 i (Some (ds_data_id snap))). destruct (token_evolve w w2 snap Hev Htok) as (Hb & _). pose proof (upper_bound w2 Hi2). unfold fuel_ok in Hfuel. lia.
    - intros w' ? ? ?. apply HQ; [done|by transitivity w2|done]. }
  destruct (latest_write snap) as [x|] eqn:Ex.
  - apply wp_wait. intros w1 Hi1 Hev1 Hv. apply Hgo; [done..|]. by intros y [= <-].
  - cbn [wp]. by apply Hgo.
Qed.

(** Exchanging a token for the contents. *)
Lemma fetch_token_wp pk i snap w (Q : result (list (Row * Z * Z)) Z -> World Row -> Prop) : Inv w -> token_ok w snap ->
  (forall w' rows, Inv w' -> evolve w w' -> read_ok w' (ds_data_id snap) (ds_as_of snap) rows -> Q (Ok rows) w') ->
  (forall w' since, Inv w' -> evolve w w' -> ds_as_of snap < since <= data_since w' (ds_data_id snap) -> Q (Err since) w') ->
  wp pk i (snapshot_and_fetch fuel snap) w Q.
Proof.
  intros Hinv Htok HOk HErr. unfold snapshot_and_fetch. apply wp_bind, unblock_read_wp; [done..|]. intros w2 Hi2 Hev2 Happ. apply wp_fetch.
  - intros w3 rows Hi3 Hev3 Happ3 Hsi Ht Hrow. apply HOk; [done|by transitivity w2|done].
  - intros w3 Hi3 Hev3 Hsi. apply HErr; [done|by transitivity w2|lia].
Qed.

Lemma read_at_wp pk i only s p m w c d as_of (Q : result (list (Row * Z * Z)) Z * TxnsCache -> World Row -> Prop) : Inv w -> cache_rep only s p m w c -> sees only d ->
  0 <= as_of <= u64_max ->
  (forall w' rows c', Inv w' -> evolve w w' -> cache_ok only w' c' -> read_ok w' d as_of rows -> Q (Ok rows, c') w') ->
  (forall w' since c', Inv w' -> evolve w w' -> cache_ok only w' c' -> as_of < since <= data_since w' d -> Q (Err since, c') w') ->
  wp pk i (read_at soft false fuel c d as_of) w Q.
Proof.
  intros Hinv Hr Hsee Has HOk HErr. unfold read_at. apply wp_bind. eapply update_gt_wp; [done|done|done|lia|]. intros w1 c1 p1 Hi1 Hev1 Hr1 _ Hp1.
  destruct (cr_token only s p1 m w1 c1 d as_of Hi1 Hr1 Hsee) as (snap & Hs & Hd & Ha & Htok); [lia|]. apply wp_bind. eapply wp_lift; [exact Hs|].
  assert (Hco : forall w', Inv w' -> evolve w1 w' -> evolve w w' /\ cache_ok only w' c1).
  { intros w' Hi' Hev'. split; [by transitivity w1|]. exists s, p1, m. by apply (cache_rep_evolve _ _ _ _ w1). }
  apply wp_bind. apply fetch_token_wp; [done..| |]; rewrite Hd, Ha; cbn [wp].
  - intros w3 rows Hi3 Hev3 Hread. destruct (Hco w3 Hi3 Hev3). by apply HOk.
  - intros w3 since Hi3 Hev3 Hsi. destruct (Hco w3 Hi3 Hev3). by apply HErr.
Qed.
End reads.
