(* ===== verification/TxnReadTask.v ===== *)
(** * A cache that is shared by many readers (src/src/txn-wal/src/txn_read.rs)

    [TxnsRead] is a handle to two tasks: a [TxnsSubscribeTask] that follows the
    txns shard, and a [TxnsReadTask] that owns the cache, answers requests for
    tokens, keeps subscriptions of data shards up to date and wakes up those
    who wait for a time.  They are connected by a queue of [TxnsReadCmd].

    A channel is known by a number; what the task sends is the list of
    [Message]s, and [closed] says which receivers are gone when a command is
    handled (the code looks at each of them at most once per command). *)

From S2P Require Import Prelude BTree Paths Batch State TxnCache Txns.

Local Open Scope Z_scope.
Local Open Scope prog_scope.

Abbreviation Chan := N.

#[export] Instance Uuid_ord : KeyOrd Uuid.
Proof. by apply (uuid_keyord (fun x => x)). Defined.

(** ** What is waited for *)

Inductive WaitTs :=
| GreaterEqual (ts : Z)
| GreaterThan (ts : Z).

#[export] Instance WaitTs_eqdec : EqDecision WaitTs.
Proof. solve_decision. Defined.

Module WaitTs.
Definition ts_of (w : WaitTs) : Z := match w with GreaterEqual ts | GreaterThan ts => ts end.

Definition cmp (self other : WaitTs) : comparison :=
  let self_ts := ts_of self in
  let other_ts := ts_of other in
  if self_ts <? other_ts then Lt
  else if other_ts <? self_ts then Gt
  else match self, other with
       | GreaterEqual _, GreaterThan _ => Lt
       | GreaterThan _, GreaterEqual _ => Gt
       | _, _ => Eq
       end.

Definition is_ready (self : WaitTs) (frontier : Z) : bool :=
  match self with
  | GreaterEqual ts => ts <=? frontier
  | GreaterThan ts => ts <? frontier
  end.
End WaitTs.

#[export] Instance WaitTs_ord : KeyOrd WaitTs.
Proof.
  refine {| key_ltb := fun a b => match WaitTs.cmp a b with Lt => true | _ => false end |}; unfold WaitTs.cmp.
  - intros [a|a]; simpl; by rewrite Z.ltb_irrefl.
  - intros [a|a] [b|b] [c|c]; simpl; destruct (Z.ltb_spec a b), (Z.ltb_spec b a), (Z.ltb_spec b c), (Z.ltb_spec c b), (Z.ltb_spec a c), (Z.ltb_spec c a); try done; lia.
  - intros [a|a] [b|b]; simpl; destruct (Z.ltb_spec a b), (Z.ltb_spec b a); try done; intros; f_equal; lia.
Defined.

(** ** Messages *)

Inductive TxnsReadCmd :=
| UpdatesCmd (entries : list Update) (frontier : Z)
| DataSnapshotCmd (data_id : ShardId) (as_of : Z) (tx : Chan)
| DataSubscribeCmd (data_id : ShardId) (as_of : Z) (tx : Chan)
| WaitCmd (id : Uuid) (ts : WaitTs) (tx : Chan)
| CancelWaitCmd (id : Uuid).

(** What is sent by the task, and where to. *)
Inductive Message :=
| Notified (tx : Chan)
| SnapshotIs (tx : Chan) (snapshot : DataSnapshot)
| Remap (tx : Chan) (entry : DataRemapEntry)
| Subscribed (tx : Chan) (snapshot : option DataSnapshot) (rest : Chan).

Record PendingWait := {
  pw_ts : WaitTs;
  pw_tx : option Chan;
}.

Record DataSubscription := {
  subscribe : DataSubscribe;
  subscription_tx : Chan;
}.

Record TxnsReadTask := {
  rt_cache : TxnsCacheState;
  pending_waits_by_ts : BTreeMap (WaitTs * Uuid) unit;
  pending_waits_by_id : BTreeMap Uuid PendingWait;
  data_subscriptions : list DataSubscription;
}.

(** [PendingWait::maybe_complete] *)
Definition maybe_complete (closed : Chan -> bool) (self : PendingWait) (frontier : Z) : bool * PendingWait * list Message :=
  match pw_tx self with
  | None => (true, self, [])
  | Some tx =>
      let taken := {| pw_ts := pw_ts self; pw_tx := None |} in
      if WaitTs.is_ready (pw_ts self) frontier then (true, taken, [Notified tx])
      else if closed tx then (true, taken, [])
      else (false, self, [])
  end.

(** The loop that answers the waits whose time has come. *)
Fixpoint complete_waits (closed : Chan -> bool) (frontier : Z) (by_ts : BTreeMap (WaitTs * Uuid) unit) (by_id : BTreeMap Uuid PendingWait) :
    outcome (BTreeMap (WaitTs * Uuid) unit * BTreeMap Uuid PendingWait * list Message) :=
  match by_ts with
  | [] => Ret ([], by_id, [])
  | ((wait_ts, id), _) :: rest =>
      if WaitTs.is_ready wait_ts frontier then
        let! wait := expect (BTree.get id by_id) in
        let '(really_completed, _, sent) := maybe_complete closed wait frontier in
        let! _ := assert_ really_completed in
        let! r := complete_waits closed frontier rest (BTree.remove id by_id) in
        Ret (r.1, sent ++ r.2)
      else Ret (by_ts, by_id, [])
  end.

Section task.
Context {Row : Type} `{UuidCodec} `{Consolidate} (soft debug : bool) (fuel : nat).
Local Abbreviation Prog := (Prog Row).

Definition with_remap (s : DataSubscription) (r : DataRemapEntry) : DataSubscription := {|
  subscribe := {| sub_data_id := sub_data_id (subscribe s); sub_snapshot := sub_snapshot (subscribe s); sub_remap := r |};
  subscription_tx := subscription_tx s |}.

(** A subscription catches up in at most this many steps. *)
Definition listen_turns : nat := 2.

Fixpoint update_subscription_loop (n : nat) (s : DataSubscription) (cache : TxnsCacheState) : Prog (DataSubscription * list Message) :=
  let remap := sub_remap (subscribe s) in
  let send (remap : DataRemapEntry) :=
    match n with
    | O => Going
    | S n =>
        let s := with_remap s remap in
        do (s, sent) := update_subscription_loop n s cache in
        Done (s, Remap (subscription_tx s) remap :: sent)
    end in
  do next := lift (TxnsCacheState.data_listen_next cache (sub_data_id (subscribe s)) (logical_upper remap)) in
  match next with
  | ReadDataTo new_upper => send {| physical_upper := new_upper; logical_upper := new_upper |}
  | EmitLogicalProgress new_progress =>
      do _ := lift (assert_ (physical_upper remap <? new_progress)) in
      do _ := lift (assert_ (logical_upper remap <? new_progress)) in
      send {| physical_upper := physical_upper remap; logical_upper := new_progress |}
  | WaitForTxnsProgress => Done (s, [])
  end.

Definition update_subscription (s : DataSubscription) (cache : TxnsCacheState) : Prog (DataSubscription * list Message) :=
  do (s, sent) := update_subscription_loop listen_turns s cache in
  do _ := lift (assert_ (progress_exclusive cache =? logical_upper (sub_remap (subscribe s)))) in
  Done (s, sent).

Fixpoint update_subscriptions (ss : list DataSubscription) (cache : TxnsCacheState) : Prog (list DataSubscription * list Message) :=
  match ss with
  | [] => Done ([], [])
  | s :: ss =>
      do (s, sent) := update_subscription s cache in
      do (ss, rest) := update_subscriptions ss cache in
      Done (s :: ss, sent ++ rest)
  end.

(** One turn of [TxnsReadTask::run]; [fresh] is the channel that it may make. *)
Definition handle (closed : Chan -> bool) (fresh : Chan) (self : TxnsReadTask) (cmd : TxnsReadCmd) : Prog (TxnsReadTask * list Message) :=
  match cmd with
  | UpdatesCmd entries frontier =>
      do cache := lift (TxnsCacheState.push_entries soft debug (rt_cache self) entries frontier) in
      let open_ := filter (fun s => closed (subscription_tx s) = false) (data_subscriptions self) in
      do (subs, sent) := update_subscriptions open_ cache in
      do (by_ts, by_id, notified) := lift (complete_waits closed frontier (pending_waits_by_ts self) (pending_waits_by_id self)) in
      Done ({| rt_cache := cache; pending_waits_by_ts := by_ts; pending_waits_by_id := by_id; data_subscriptions := subs |}, sent ++ notified)
  | DataSnapshotCmd data_id as_of tx =>
      do res := lift (TxnsCacheState.data_snapshot (rt_cache self) data_id as_of) in
      Done (self, [SnapshotIs tx res])
  | DataSubscribeCmd data_id as_of tx =>
      do sub := lift (TxnsCacheState.data_subscribe (rt_cache self) data_id as_of) in
      let snapshot := sub_snapshot sub in
      let sub := {| sub_data_id := sub_data_id sub; sub_snapshot := None; sub_remap := sub_remap sub |} in
      do (subscription, sent) := update_subscription {| subscribe := sub; subscription_tx := fresh |} (rt_cache self) in
      Done ({| rt_cache := rt_cache self; pending_waits_by_ts := pending_waits_by_ts self; pending_waits_by_id := pending_waits_by_id self;
               data_subscriptions := data_subscriptions self ++ [subscription] |},
            Remap fresh (sub_remap sub) :: sent ++ [Subscribed tx snapshot fresh])
  | WaitCmd id ts tx =>
      let '(completed, pending_wait, sent) := maybe_complete closed {| pw_ts := ts; pw_tx := Some tx |} (progress_exclusive (rt_cache self)) in
      if completed then Done (self, sent)
      else
        Done ({| rt_cache := rt_cache self; pending_waits_by_ts := BTree.insert (pw_ts pending_wait, id) tt (pending_waits_by_ts self);
                 pending_waits_by_id := BTree.insert id pending_wait (pending_waits_by_id self); data_subscriptions := data_subscriptions self |}, sent)
  | CancelWaitCmd id =>
      match BTree.get id (pending_waits_by_id self) with
      | Some pending_wait =>
          Done ({| rt_cache := rt_cache self; pending_waits_by_ts := BTree.remove (pw_ts pending_wait, id) (pending_waits_by_ts self);
                   pending_waits_by_id := BTree.remove id (pending_waits_by_id self); data_subscriptions := data_subscriptions self |}, [])
      | None => Done (self, [])
      end
  end.

(** ** The task that follows the txns shard *)

Record TxnsSubscribeTask := {
  st_txns_subscribe : Subscribe;
  st_buf : list Update;
  st_only_data_id : option ShardId;
}.

(** [TxnsSubscribeTask::open] *)
Definition subscribe_open (only_data_id : option ShardId) : Prog (TxnsSubscribeTask * TxnsCacheState) :=
  do (state, txns_subscribe) := state_init soft debug fuel only_data_id in
  Done ({| st_txns_subscribe := txns_subscribe; st_buf := []; st_only_data_id := only_data_id |}, state).

Definition subscribe_event (x : TxnsSubscribeTask * list TxnsReadCmd) (event : ListenEvent) : TxnsSubscribeTask * list TxnsReadCmd :=
  let '(self, sent) := x in
  match event with
  | Progress frontier_ts =>
      ({| st_txns_subscribe := st_txns_subscribe self; st_buf := []; st_only_data_id := st_only_data_id self |}, sent ++ [UpdatesCmd (st_buf self) frontier_ts])
  | Updates parts =>
      ({| st_txns_subscribe := st_txns_subscribe self; st_buf := fetch_parts (st_only_data_id self) parts (st_buf self);
          st_only_data_id := st_only_data_id self |}, sent)
  end.

(** One turn of [TxnsSubscribeTask::run] and the commands that it sends. *)
Definition subscribe_turn (self : TxnsSubscribeTask) : Prog (TxnsSubscribeTask * list TxnsReadCmd) :=
  do (events, sub) := call (SubscribeNext (st_txns_subscribe self)) in
  Done (foldl subscribe_event ({| st_txns_subscribe := sub; st_buf := st_buf self; st_only_data_id := st_only_data_id self |}, []) events).

(** [TxnsRead::start] *)
Definition start : Prog (TxnsSubscribeTask * TxnsReadTask) :=
  do (subscribe_task, cache) := subscribe_open None in
  Done (subscribe_task, {| rt_cache := cache; pending_waits_by_ts := []; pending_waits_by_id := []; data_subscriptions := [] |}).
End task.

(** ** Callers *)

Record CancelWaitOnDrop := {
  guard_id : Uuid;
  guard_tx : bool; (** the sender has not been taken *)
}.

Module CancelWaitOnDrop.
Definition complete (self : CancelWaitOnDrop) : CancelWaitOnDrop := {| guard_id := guard_id self; guard_tx := false |}.

Definition drop (self : CancelWaitOnDrop) : list TxnsReadCmd := if guard_tx self then [CancelWaitCmd (guard_id self)] else [].
End CancelWaitOnDrop.
