(* ===== verification/TxnReadFacts.v ===== *)
(** * The tasks behind a shared cache

    What one turn of a [TxnsReadTask] does: the waits it answers, the entries
    it sends to subscribers and the tokens it hands out; and that the commands
    of a [TxnsSubscribeTask] bring the cache along the txns shard. *)

From S2P Require Import Prelude BTree Paths Blob TxnCache TxnCacheFacts TxnLog TxnFollow TxnQuery Txns TxnWorld TxnWorldFacts TxnLogic TxnSync TxnApplyFacts TxnReads TxnReadTask.

Local Open Scope Z_scope.

(** ** Waits *)

(** Who waits for less is ready first. *)
Lemma ready_mono a b f : key_ltb a b = true -> WaitTs.is_ready b f = true -> WaitTs.is_ready a f = true.
Proof.
  simpl. unfold WaitTs.cmp. destruct a as [a|a], b as [b|b]; simpl; destruct (Z.ltb_spec a b), (Z.ltb_spec b a); try done;
    rewrite ?Z.leb_le, ?Z.ltb_lt; lia.
Qed.

Lemma ready_later w f f' : f <= f' -> WaitTs.is_ready w f = true -> WaitTs.is_ready w f' = true.
Proof. destruct w; simpl; rewrite ?Z.leb_le, ?Z.ltb_lt; lia. Qed.

Definition waiting (ts : WaitTs) (tx : Chan) : PendingWait := {| pw_ts := ts; pw_tx := Some tx |}.

(** The set and the map of pending waits agree. *)
Record waits_rep (by_ts : BTreeMap (WaitTs * Uuid) unit) (by_id : BTreeMap Uuid PendingWait) : Prop := {
  wr_sorted : BTree.sorted by_ts;
  wr_keys : forall ts id, (ts, id) ∈ BTree.keys by_ts <-> exists tx, BTree.get id by_id = Some (waiting ts tx);
  wr_tx : forall id pw, BTree.get id by_id = Some pw -> exists ts tx, pw = waiting ts tx;
}.

Lemma sorted_head {K V} `{KeyOrd K} (k : K) (v : V) m : BTree.sorted ((k, v) :: m) -> k ∉ BTree.keys m.
Proof.
  intros [Hall _] Hin. apply list_elem_of_fmap in Hin as ([k' v'] & E & Hin). simpl in E. subst k'.
  apply (proj1 (Forall_forall _ _) Hall) in Hin. simpl in Hin. by rewrite key_irrefl in Hin.
Qed.

Lemma waits_pop ts id by_ts by_id : waits_rep (((ts, id), tt) :: by_ts) by_id -> waits_rep by_ts (BTree.remove id by_id).
Proof.
  intros [Hs Hk Htx]. pose proof (sorted_head _ _ _ Hs) as Hnot. split; [apply Hs| |].
  - intros ts' id'. split.
    + intros Hin. destruct (Hk ts' id') as [[tx Hg] _]; [by right|]. exists tx. rewrite BTree.get_remove_ne; [done|]. intros ->.
      destruct (Hk ts id) as [[tx' Hg'] _]; [by left|]. rewrite Hg in Hg'. injection Hg' as -> _. done.
    + intros [tx Hg]. destruct (decide (id' = id)) as [->|Hne]; [by rewrite BTree.get_remove_eq in Hg|]. rewrite BTree.get_remove_ne in Hg by done.
      assert (Hin : (ts', id') ∈ BTree.keys (((ts, id), tt) :: by_ts)) by (apply Hk; eauto). apply elem_of_cons in Hin as [[= -> ->]|Hin]; done.
  - intros id' pw Hg. destruct (decide (id' = id)) as [->|Hne]; [by rewrite BTree.get_remove_eq in Hg|]. rewrite BTree.get_remove_ne in Hg by done. by eapply Htx.
Qed.

Lemma waits_cancel ts tx id by_ts by_id : waits_rep by_ts by_id -> BTree.get id by_id = Some (waiting ts tx) ->
  waits_rep (BTree.remove (ts, id) by_ts) (BTree.remove id by_id).
Proof.
  intros [Hs Hk Htx] Hget. split; [by apply BTree.sorted_remove| |].
  - intros ts' id'. transitivity ((ts', id') <> (ts, id) /\ (ts', id') ∈ BTree.keys by_ts).
    { unfold BTree.keys, BTree.remove. rewrite !list_elem_of_fmap. split.
      - intros (kv & E & [Hne Hin]%list_elem_of_filter). rewrite E. eauto.
      - intros (Hne & kv & E & Hin). exists kv. split; [done|]. apply list_elem_of_filter. by rewrite <- E. }
    rewrite Hk. destruct (decide (id' = id)) as [->|Hne].
    + rewrite BTree.get_remove_eq. split; [|by intros [? ?]]. intros (Hne & tx' & Hg). rewrite Hget in Hg. injection Hg as -> ->. done.
    + rewrite BTree.get_remove_ne by done. split; [tauto|]. intros ?. split; [congruence|done].
  - intros id' pw Hg. destruct (decide (id' = id)) as [->|Hne]; [by rewrite BTree.get_remove_eq in Hg|]. rewrite BTree.get_remove_ne in Hg by done. by eapply Htx.
Qed.

Lemma waits_insert ts tx id by_ts by_id : waits_rep by_ts by_id -> BTree.get id by_id = None ->
  waits_rep (BTree.insert (ts, id) tt by_ts) (BTree.insert id (waiting ts tx) by_id).
Proof.
  intros [Hs Hk Htx] Hnone. split; [by apply BTree.sorted_insert| |].
  - intros ts' id'. rewrite BTree.keys_insert, Hk. destruct (decide (id' = id)) as [->|Hne].
    + rewrite BTree.get_insert_eq, Hnone. split; [intros [[= ->]|[? ?]]; [by exists tx|done]|]. intros [tx' [= -> _]]. by left.
    + rewrite BTree.get_insert_ne by done. split; [intros [[= -> ->]|?]; done|by right].
  - intros id' pw. destruct (decide (id' = id)) as [->|Hne]; [rewrite BTree.get_insert_eq; intros [= <-]; by exists ts, tx|].
    rewrite BTree.get_insert_ne by done. apply Htx.
Qed.

(** What is left when the waits up to a frontier are answered. *)
Definition answered f (by_id by_id' : BTreeMap Uuid PendingWait) : Prop :=
  forall id, BTree.get id by_id' = match BTree.get id by_id with Some pw => if WaitTs.is_ready (pw_ts pw) f then None else Some pw | None => None end.

(** The ids and the channels of the waits that are answered, in order. *)
Lemma complete_waits_ok closed f by_ts by_id : waits_rep by_ts by_id ->
  exists by_ts' by_id' done_, complete_waits closed f by_ts by_id = Ret (by_ts', by_id', (fun x => Notified x.2) <$> done_) /\
    waits_rep by_ts' by_id' /\ answered f by_id by_id' /\ NoDup (fst <$> done_) /\
    forall id tx, (id, tx) ∈ done_ <-> exists ts, BTree.get id by_id = Some (waiting ts tx) /\ WaitTs.is_ready ts f = true.
Proof.
  revert by_id. induction by_ts as [|[[ts id] []] by_ts IH]; intros by_id Hrep; cbn [complete_waits].
  { exists [], by_id, []. split_and!; [done|done| |constructor|].
    - intros id. destruct (BTree.get id by_id) as [pw|] eqn:E; [|done]. destruct (wr_tx _ _ Hrep id pw E) as (ts & tx & ->).
      assert (Hin : (ts, id) ∈ BTree.keys (V := unit) []) by (apply (wr_keys _ _ Hrep); eauto). by apply not_elem_of_nil in Hin.
    - intros id tx. split; [by intros ?%not_elem_of_nil|]. intros (ts & E & _).
      assert (Hin : (ts, id) ∈ BTree.keys (V := unit) []) by (apply (wr_keys _ _ Hrep); eauto). by apply not_elem_of_nil in Hin. }
  destruct (WaitTs.is_ready ts f) eqn:Er.
  - destruct (proj1 (wr_keys _ _ Hrep ts id)) as [tx Hg]; [by left|]. rewrite Hg. cbn [expect obind]. unfold maybe_complete. cbn [pw_tx pw_ts waiting]. rewrite Er. cbn [assert_ obind].
    destruct (IH _ (waits_pop _ _ _ _ Hrep)) as (by_ts' & by_id' & dn & -> & Hrep' & Hans & Hnd & Hdn). cbn [obind fst snd].
    exists by_ts', by_id', ((id, tx) :: dn). split_and!; [done|done| | |].
    + intros id'. rewrite Hans. destruct (decide (id' = id)) as [->|Hne]; [rewrite BTree.get_remove_eq, Hg; cbn [pw_ts waiting]; by rewrite Er|by rewrite BTree.get_remove_ne].
    + simpl. constructor; [|done]. intros Hin. apply list_elem_of_fmap in Hin as ([id' tx'] & E & Hin). simpl in E. subst id'.
      apply Hdn in Hin as (ts' & Hg' & _). by rewrite BTree.get_remove_eq in Hg'.
    + intros id' tx'. rewrite elem_of_cons, Hdn. destruct (decide (id' = id)) as [->|Hne].
      * rewrite BTree.get_remove_eq, Hg. split; [intros [[= ->]|(? & ? & _)]; [by exists ts|done]|]. intros (ts' & [= _ ->] & _). by left.
      * rewrite BTree.get_remove_ne by done. split; [intros [[= -> ->]|?]; done|by right].
  - exists (((ts, id), tt) :: by_ts), by_id, []. assert (Hnot : forall id' ts' tx', BTree.get id' by_id = Some (waiting ts' tx') -> WaitTs.is_ready ts' f = false).
    { intros id' ts' tx' Hg. assert (Hin : (ts', id') ∈ BTree.keys (((ts, id), tt) :: by_ts)) by (apply (wr_keys _ _ Hrep); eauto).
      apply elem_of_cons in Hin as [[= -> ->]|Hin]; [done|]. destruct (WaitTs.is_ready ts' f) eqn:Er'; [|done]. exfalso.
      pose proof (wr_sorted _ _ Hrep) as [Hall _]. apply list_elem_of_fmap in Hin as (kv & E & Hin). apply (proj1 (Forall_forall _ _) Hall) in Hin. rewrite <- E in Hin.
      apply orb_true_iff in Hin as [Hlt|[Heq%bool_decide_eq_true _]%andb_true_iff]; [|cbn [fst] in Heq; congruence].
      cbn [fst] in Hlt. pose proof (ready_mono _ _ _ Hlt Er'). congruence. }
    split_and!; [done|done| |constructor|].
    + intros id'. destruct (BTree.get id' by_id) as [pw|] eqn:E; [|done]. destruct (wr_tx _ _ Hrep id' pw E) as (ts' & tx' & ->). cbn [pw_ts waiting]. by rewrite (Hnot _ _ _ E).
    + intros id' tx'. split; [by intros ?%not_elem_of_nil|]. intros (ts' & E & Hr). rewrite (Hnot _ _ _ E) in Hr. done.
Qed.

(** ** Subscriptions *)

(** The shard is registered and nothing happens to it. *)
Definition idle (l : list Update) (d : ShardId) (lo hi : Z) : Prop :=
  forall t, lo <= t < hi -> registered_before l t d /\ (forall b, ~ committed l d t b) /\ ~ reg_event l d t.

Lemma registered_since l d lo p t : log_ok l -> registered_before l p d -> quiet l d lo p -> lo <= t <= p -> registered_before l t d.
Proof.
  intros Hl Hreg [_ Hq] Ht. unfold registered_before, last_registration in *. assert (before t (reg_keys d l) = before p (reg_keys d l)) as ->; [|done].
  transitivity (before t (before p (reg_keys d l))).
  - unfold before. rewrite list_filter_filter. apply list_filter_iff. intros. simpl. lia.
  - apply filter_all, Forall_forall. intros [ts k] [Hp [t' Hin]%elem_of_reg_keys]%list_elem_of_filter. simpl in *.
    destruct (log_times l Hl _ _ _ Hin) as (_ & _ & _ & Heq). specialize (Heq d ts eq_refl). destruct (decide (ts < t)); [done|]. destruct (Hq ts); [|lia]. exists k. by subst.
Qed.

Lemma idle_quiet l d lo p : log_ok l -> registered_before l p d -> quiet l d lo p -> idle l d lo p.
Proof.
  intros Hl Hreg Hq t Ht. split; [by apply (registered_since l d lo p); [..|lia]|]. destruct Hq as [Hc He]. split.
  - intros b Hb. by apply (Hc t b).
  - intros He'. by apply (He t).
Qed.

Lemma idle_app l d a b c : idle l d a b -> idle l d b c -> idle l d a c.
Proof. intros Ha Hb t Ht. destruct (decide (t < b)); [apply Ha|apply Hb]; lia. Qed.

(** One entry after the other. *)
Definition remap_next (l : list Update) (d : ShardId) (r r' : DataRemapEntry) : Prop :=
  logical_upper r < logical_upper r' /\
  ((physical_upper r' = logical_upper r') \/ (physical_upper r' = physical_upper r /\ idle l d (logical_upper r) (logical_upper r'))).

Fixpoint remap_path (l : list Update) (d : ShardId) (r : DataRemapEntry) (es : list DataRemapEntry) : Prop :=
  match es with
  | [] => True
  | e :: es => remap_next l d r e /\ remap_path l d e es
  end.

Definition entry_ok (l : list Update) (d : ShardId) (p : Z) (e : DataRemapEntry) : Prop :=
  physical_upper e <= logical_upper e <= p /\ idle l d (physical_upper e) (logical_upper e).

Lemma remap_entry l d p r r' : entry_ok l d p r -> remap_next l d r r' -> logical_upper r' <= p -> entry_ok l d p r'.
Proof.
  intros [Hb Hi] [Hlt Hc] Hp. split; [destruct Hc as [?|[? _]]; lia|]. destruct Hc as [->|[-> Hi']]; [intros t Ht; lia|by eapply idle_app].
Qed.

Section subscription.
Context {Row : Type} (only : option ShardId) (s p : Z) (l : list Update) (m : Z) (st : TxnsCacheState).
Hypothesis Hl : log_ok l.
Hypothesis Hs : p = 0 \/ s < p.
Hypothesis Hp : p <= u64_max.
Hypothesis Hf : follows only s p l m st.

(** After reading up to a new physical upper there is nothing more to read. *)
Lemma listen_after d ts q : TxnsCacheState.data_listen_next st d ts = Ret (ReadDataTo q) ->
  forall r, TxnsCacheState.data_listen_next st d q = Ret r -> match r with ReadDataTo q' | EmitLogicalProgress q' => q' = p | WaitForTxnsProgress => True end.
Proof.
  destruct (follows_fields _ _ _ _ _ _ Hf) as (_ & Hpr & _). unfold TxnsCacheState.data_listen_next. rewrite Hpr. intros Hn r Hr.
  destruct (TxnsCacheState.assert_only_data_id st d); [|done]. cbn [obind] in *.
  destruct (Z.leb_spec ts p), (Z.leb_spec q p); cbn [assert_ obind] in *; try done.
  destruct (Z.leb_spec (init_ts st) ts), (Z.leb_spec (init_ts st) q); cbn [assert_ obind] in *; try done.
  destruct (BTree.get d (datas st)) as [dt|].
  - destruct (DataTimes.latest_physical_ts dt) as [ph|]; [|done]. destruct (DataTimes.last_reg dt) as [lr|]; [|done]. cbn [obind] in *.
    destruct (Z.leb_spec p ts); [done|]. destruct (Z.leb_spec p q); [by injection Hr as <-|].
    destruct (Z.leb_spec q ph).
    + exfalso. destruct (Z.leb_spec ts ph).
      * unfold step_forward in Hn. destruct (ph <? u64_max); [|done]. cbn [obind] in Hn. injection Hn as Hn. lia.
      * destruct (TxnsCacheState.is_none (forget_ts lr)); [destruct (DataTimes.contains lr ts); done|]. destruct (_ && _); [|done]. cbn in Hn. injection Hn as Hn. lia.
    + destruct (TxnsCacheState.is_none (forget_ts lr)); [destruct (DataTimes.contains lr q)|destruct (_ && _) in Hr]; cbn in Hr; try done; by injection Hr as <-.
  - destruct (q <? p); by injection Hr as <-.
Qed.

Definition caught_up (d : ShardId) (sub sub' : DataSubscription) (es : list DataRemapEntry) : Prop :=
  sub_data_id (subscribe sub') = d /\ subscription_tx sub' = subscription_tx sub /\ remap_path l d (sub_remap (subscribe sub)) es /\
  last (sub_remap (subscribe sub) :: es) = Some (sub_remap (subscribe sub')) /\ logical_upper (sub_remap (subscribe sub')) = p /\
  Forall (fun e => logical_upper e <= p) es.

(** At most [n] steps are left. *)
Definition steps_left (n : nat) d (ts : Z) : Prop :=
  match n with
  | O => ts = p
  | S O => forall r, TxnsCacheState.data_listen_next st d ts = Ret r -> match r with ReadDataTo q | EmitLogicalProgress q => q = p | WaitForTxnsProgress => True end
  | _ => True
  end.

Lemma steps_next n d ts q : steps_left (S n) d ts -> q <= p ->
  TxnsCacheState.data_listen_next st d ts = Ret (ReadDataTo q) \/ (TxnsCacheState.data_listen_next st d ts = Ret (EmitLogicalProgress q) /\ q = p) -> steps_left n d q.
Proof.
  intros Hn Hq Hr. destruct n as [|[|n]]; [|destruct Hr as [Hr|[_ ->]]|done].
  - destruct Hr as [Hr|[Hr _]]; by apply (Hn _ Hr).
  - intros r Hr'. by apply (listen_after d ts q).
  - intros r Hr. unfold TxnsCacheState.data_listen_next in Hr. destruct (follows_fields _ _ _ _ _ _ Hf) as (_ & Hpr & _). rewrite Hpr in Hr.
    destruct (TxnsCacheState.assert_only_data_id st d); [|done]. cbn [obind] in Hr. rewrite Z.leb_refl, Z.ltb_irrefl in Hr. cbn [assert_ obind] in Hr.
    destruct (init_ts st <=? p); [|done]. cbn [assert_ obind] in Hr. destruct (BTree.get d (datas st)) as [dt|]; [|by injection Hr as <-].
    destruct (DataTimes.latest_physical_ts dt), (DataTimes.last_reg dt); cbn [obind] in Hr; try done. by injection Hr as <-.
Qed.

Lemma subscription_loop n sub : let d := sub_data_id (subscribe sub) in sees only d ->
  s <= logical_upper (sub_remap (subscribe sub)) <= p -> physical_upper (sub_remap (subscribe sub)) <= logical_upper (sub_remap (subscribe sub)) ->
  steps_left n d (logical_upper (sub_remap (subscribe sub))) ->
  exists sub' es, update_subscription_loop (Row := Row) n sub st = Done (sub', Remap (subscription_tx sub) <$> es) /\ caught_up d sub sub' es.
Proof.
  revert sub. induction n as [|n IH]; intros sub d Hsee Hb Hph Hn; cbn [update_subscription_loop];
    destruct (listen_next only s p l m st Hl Hs Hf d (logical_upper (sub_remap (subscribe sub))) Hsee Hb Hp) as (r & Hr & Hcase);
    fold d; rewrite Hr; cbn [lift bind].
  - destruct r as [q|q|]; [simpl in Hn; lia|simpl in Hn; lia|]. exists sub, []. split; [done|]. split_and!; [done..|]. constructor.
  - assert (Hstep : forall e, remap_next l d (sub_remap (subscribe sub)) e -> physical_upper e <= logical_upper e -> s <= logical_upper e <= p -> steps_left n d (logical_upper e) ->
      exists sub' es, (do (s, sent) := update_subscription_loop (Row := Row) n (with_remap sub e) st in Done (s, Remap (subscription_tx s) e :: sent))%prog =
        Done (sub', Remap (subscription_tx sub) <$> es) /\ caught_up d sub sub' es).
    { intros e He Hpe Hbe Hne. destruct (IH (with_remap sub e)) as (sub' & es & Hx & Hd & Htx & Hpath & Hlast & Hlog & Hall); [done..|].
      rewrite Hx. cbn [bind]. simpl in Htx. rewrite Htx. exists sub', (e :: es). split; [done|]. split_and!; [done..|by split|done|done|]. constructor; [lia|done]. }
    destruct r as [q|q|]; [| |exists sub, []; split; [done|]; split_and!; [done..|constructor]].
    + destruct Hcase as [Hq _]. apply Hstep; [split; [simpl; lia|by left]|done|simpl; lia|]. simpl. by apply (steps_next n d _ q Hn ltac:(lia)); left.
    + destruct Hcase as (Hq & -> & Hreg & Hquiet). rewrite (proj2 (Z.ltb_lt _ p)) by lia. cbn [assert_ lift bind]. rewrite (proj2 (Z.ltb_lt _ p)) by lia. cbn [assert_ lift bind].
      apply Hstep; [split; [simpl; lia|right; split; [done|by apply idle_quiet]]|simpl; lia|simpl; lia|]. simpl. apply (steps_next n d _ p Hn ltac:(lia)). by right.
Qed.

Lemma update_subscription_ok sub : let d := sub_data_id (subscribe sub) in sees only d ->
  s <= logical_upper (sub_remap (subscribe sub)) <= p -> physical_upper (sub_remap (subscribe sub)) <= logical_upper (sub_remap (subscribe sub)) ->
  exists sub' es, update_subscription (Row := Row) sub st = Done (sub', Remap (subscription_tx sub) <$> es) /\ caught_up d sub sub' es.
Proof.
  intros d Hsee Hb Hph. destruct (subscription_loop listen_turns sub Hsee Hb Hph I) as (sub' & es & Hx & Hc). exists sub', es.
  unfold update_subscription. rewrite Hx. cbn [bind]. pose proof Hc as (_ & _ & _ & _ & -> & _). destruct (follows_fields _ _ _ _ _ _ Hf) as (_ & -> & _).
  by rewrite Z.eqb_refl.
Qed.
End subscription.

(** ** From the txns shard to the cache *)

Section feed.
Context {Row : Type} `{EqDecision Row} `{UuidCodec} `{IdBatchCodec Row} `{ConsolidateLaws} (soft : bool).
Implicit Types (w : World Row) (st : TxnsCacheState) (sub : TxnsSubscribeTask) (queue cmds : list TxnsReadCmd).

(** The commands bring a cache that has progressed to [p] to [q]. *)
Fixpoint chain (s p q : Z) (l : list Update) cmds : Prop :=
  match cmds with
  | [] => p = q
  | UpdatesCmd us p' :: cmds => p <= p' /\ s < p' /\ delivers None s p p' l us /\ chain s p' q l cmds
  | _ :: cmds => chain s p q l cmds
  end.

Lemma feed_chain_app s p q r l x y : chain s p q l x -> chain s q r l y -> chain s p r l (x ++ y).
Proof. revert p. induction x as [|[] x IH]; intros p; simpl; [by intros ->|intros (? & ? & ? & ?) ?; split_and!; auto|apply IH..]. Qed.

Lemma feed_chain_le s p q l cmds : chain s p q l cmds -> p <= q.
Proof. revert p. induction cmds as [|[] cmds IH]; intros p; simpl; [lia|intros (? & _ & _ & ?%IH); lia|apply IH..]. Qed.

Lemma chain_evolve s p q w w' cmds : evolve w w' -> q <= txns_upper w -> chain s p q (txns w) cmds -> chain s p q (txns w') cmds.
Proof.
  intros Hev Hq. revert p. induction cmds as [|[] cmds IH]; intros p; simpl; [done| |apply IH..]. intros (? & ? & Hd & Hc). split_and!; [done..| |by apply IH].
  eapply delivers_evolve; [done| |done]. apply feed_chain_le in Hc. lia.
Qed.

Record feed_ok w (s p q : Z) st sub queue : Prop := {
  fo_follows : follows None s p (txns w) (-1) st;
  fo_started : p = 0 \/ s < p;
  fo_bounds : 0 <= s <= txns_upper w /\ 0 <= p /\ q <= txns_upper w;
  fo_settled : settled w s;
  fo_chain : chain s p q (txns w) queue;
  fo_sub : sub_ok None w s q {| txns_subscribe := st_txns_subscribe sub; buf := st_buf sub; state := st |};
  fo_only : st_only_data_id sub = None;
}.

Lemma feed_le w s p q st sub queue : feed_ok w s p q st sub queue -> 0 <= p <= txns_upper w.
Proof. intros Hf. pose proof (feed_chain_le _ _ _ _ _ (fo_chain _ _ _ _ _ _ _ Hf)). pose proof (fo_bounds _ _ _ _ _ _ _ Hf). lia. Qed.

Lemma feed_evolve w w' s p q st sub queue : Inv w -> Inv w' -> evolve w w' -> feed_ok w s p q st sub queue -> feed_ok w' s p q st sub queue.
Proof.
  intros Hi Hi' Hev Hf. pose proof (feed_le _ _ _ _ _ _ _ Hf). pose proof (ev_upper _ _ Hev). destruct Hf as [Hf Hst Hb Hse Hc Hsub Ho]. split; try done.
  - apply (follows_evolve _ _ _ _ w); [done..|lia|done].
  - lia.
  - eapply settled_evolve; [done|lia|done].
  - eapply chain_evolve; [done|lia|done].
  - by eapply sub_ok_evolve.
Qed.

(** A new pair of tasks. *)
Lemma feed_start s p w st (sub : Subscribe) : cache_rep None s p (-1) w {| txns_subscribe := sub; buf := []; state := st |} ->
  feed_ok w s p p st {| st_txns_subscribe := sub; st_buf := []; st_only_data_id := None |} [].
Proof.
  intros Hr. pose proof (cr_started _ _ _ _ _ _ Hr). destruct Hr as [Hf Hsub Hb Hse _]. by split; try done; lia.
Qed.

Definition is_updates (cmd : TxnsReadCmd) : bool := match cmd with UpdatesCmd _ _ => true | _ => false end.

(** A turn of the task that follows the txns shard. *)
Lemma feed_turn i w r w' s p q st sub queue : Inv w -> feed_ok w s p q st sub queue -> exec i (SubscribeNext (st_txns_subscribe sub)) w r w' ->
  let sub' := foldl subscribe_event ({| st_txns_subscribe := r.2; st_buf := st_buf sub; st_only_data_id := st_only_data_id sub |}, []) r.1 in
  w' = w /\ Forall (fun c => is_updates c = true) sub'.2 /\ exists q', q <= q' /\ feed_ok w s p q' st sub'.1 (queue ++ sub'.2).
Proof.
  intros Hi Hf [-> (parts & Hx)]. split; [done|]. destruct Hf as [Hf Hst Hb Hse Hc Hsub Ho]. destruct Hsub as [Has Hsub]. simpl in Has.
  destruct Hx as [(Hp & Hlt & Hdel & ->)|(Hp & p' & Hp' & Hdel & ->)];
    destruct Hsub as [(Hp0 & Hq & Hfr & Hbuf)|[(Hp0 & Hq & Hfr & Hlt' & Hbuf)|(Hp0 & Hsp & Hfr & Hbuf)]]; simpl in *; try (exfalso; congruence).
  - split; [constructor|]. exists q. split; [done|]. rewrite app_nil_r. split; simpl; try done. split; [done|]. right. left. simpl. split_and!; [done..|congruence|].
    rewrite Hbuf, Ho. apply fetch_delivers. by rewrite <- Has.
  - split; [by repeat constructor|]. exists p'. assert (Hall : delivers None s q p' (txns w) (fetch_parts (st_only_data_id sub) parts (st_buf sub))).
    { rewrite Ho, fetch_app, Hq. eapply (delivers_app None s 0 (s + 1)); [lia|done|]. rewrite Has, Hfr, Z.max_l in Hdel by lia. by apply fetch_delivers. }
    split; [lia|]. split; simpl; try done; [lia| |].
    + eapply feed_chain_app; [done|]. simpl. split_and!; [lia|lia|done|done].
    + split; [done|]. right. right. simpl. split_and!; [done|lia|done|done].
  - split; [by repeat constructor|]. exists p'. assert (Hall : delivers None s q p' (txns w) (fetch_parts (st_only_data_id sub) parts (st_buf sub))).
    { rewrite Ho, Hbuf. rewrite Has, Hfr, Z.max_r in Hdel by lia. by apply fetch_delivers. }
    split; [lia|]. split; simpl; try done; [lia| |].
    + eapply feed_chain_app; [done|]. simpl. split_and!; [lia|lia|done|done].
    + split; [done|]. right. right. simpl. split_and!; [done|lia|done|done].
Qed.

(** The task that owns the cache takes the next command. *)
Lemma feed_updates w s p q st sub us p' queue : Inv w -> feed_ok w s p q st sub (UpdatesCmd us p' :: queue) ->
  p <= p' /\ exists st', TxnsCacheState.push_entries soft false st us p' = Ret st' /\ feed_ok w s p' q st' sub queue.
Proof.
  intros Hi Hf. pose proof (feed_le _ _ _ _ _ _ _ Hf) as Hle. destruct Hf as [Hf Hst Hb Hse (Hpp & Hsp & Hd & Hc) Hsub Ho]. split; [done|].
  destruct (push_follows soft None s p p' (txns w) (-1) st us (inv_log _ Hi)) as (st' & Hpush & Hf'); [apply (inv_bounds _ Hi)|lia|done|lia|done|done|].
  exists st'. split; [done|]. split; try done; [by right|lia].
Qed.

Lemma chain_others s p q l cmds : Forall (fun c => is_updates c = false) cmds -> p = q -> chain s p q l cmds.
Proof. intros Hall ->. induction Hall as [|[] cmds]; simpl; done. Qed.

Lemma feed_queue w s p q st sub queue cmds : Forall (fun c => is_updates c = false) cmds -> feed_ok w s p q st sub queue -> feed_ok w s p q st sub (queue ++ cmds).
Proof. intros Hc [? ? ? ? ? ? ?]. split; try done. eapply feed_chain_app; [done|]. by apply chain_others. Qed.

Lemma feed_other w s p q st sub cmd queue : is_updates cmd = false -> feed_ok w s p q st sub (cmd :: queue) -> feed_ok w s p q st sub queue.
Proof. intros Hc [? ? ? ? Hch ? ?]. split; try done. by destruct cmd. Qed.
End feed.
