(* ===== verification/TxnReadSystem.v ===== *)
(** * Readers that share a cache

    A [TxnsRead] and its callers, next to any number of other processes: the
    two tasks, the queue between them, the calls in flight and what has been
    sent.  The step relation interleaves all of them. *)

From S2P Require Import Prelude BTree Paths Blob TxnCache TxnCacheFacts TxnLog TxnFollow TxnQuery Txns TxnWorld TxnWorldFacts TxnLogic TxnSync TxnApplyFacts TxnReads TxnReadTask TxnReadFacts.

Local Open Scope Z_scope.

(** A caller in [TxnsRead::update]. *)
Record Waiter := {
  f_id : Uuid;
  f_ts : WaitTs;
  f_tx : Chan;
  f_guard : CancelWaitOnDrop;
}.

(** The side of the callers. *)
Record Calls := {
  queue : list TxnsReadCmd;
  sent : list Message;
  (** every wait and every request for a token or a subscription so far *)
  waits : list (Uuid * WaitTs * Chan);
  requests : list (ShardId * Z * Chan);
  used : list Chan;
  closed : list Chan;
  (** who waits, and whose future was dropped but not yet its guard *)
  waiters : list Waiter;
  dropped : list Waiter;
}.

Definition no_calls : Calls := {|
  queue := []; sent := []; waits := []; requests := []; used := []; closed := []; waiters := []; dropped := [] |}.

Definition enqueue (c : Calls) (cmds : list TxnsReadCmd) : Calls := {|
  queue := queue c ++ cmds; sent := sent c; waits := waits c; requests := requests c; used := used c; closed := closed c;
  waiters := waiters c; dropped := dropped c |}.

Definition is_closed_chan (c : Calls) (tx : Chan) : bool := bool_decide (tx ∈ closed c).

(** The time is past what was waited for. *)
Definition past (ts : WaitTs) (as_of : Z) : Prop := match ts with GreaterEqual t => as_of < t | GreaterThan t => as_of <= t end.

(** Some wait for a later time has been answered. *)
Definition heard (c : Calls) (as_of : Z) : Prop := exists id ts tx, (id, ts, tx) ∈ waits c /\ Notified tx ∈ sent c /\ past ts as_of.

Inductive ask_step (c : Calls) : Calls -> Prop :=
(** [TxnsRead::update] sends the command and waits *)
| ask_wait id ts tx : (forall ts' tx', (id, ts', tx') ∉ waits c) -> tx ∉ used c ->
    ask_step c {| queue := queue c ++ [WaitCmd id ts tx]; sent := sent c; waits := (id, ts, tx) :: waits c; requests := requests c; used := tx :: used c;
                  closed := closed c; waiters := {| f_id := id; f_ts := ts; f_tx := tx; f_guard := {| guard_id := id; guard_tx := true |} |} :: waiters c;
                  dropped := dropped c |}
(** the answer is there: the guard is completed and dropped *)
| ask_finish f fs1 fs2 : waiters c = fs1 ++ f :: fs2 -> Notified (f_tx f) ∈ sent c ->
    ask_step c {| queue := queue c ++ CancelWaitOnDrop.drop (CancelWaitOnDrop.complete (f_guard f)); sent := sent c; waits := waits c; requests := requests c;
                  used := used c; closed := f_tx f :: closed c; waiters := fs1 ++ fs2; dropped := dropped c |}
(** the future is dropped while it waits: first the receiver, then the guard *)
| ask_drop f fs1 fs2 : waiters c = fs1 ++ f :: fs2 ->
    ask_step c {| queue := queue c; sent := sent c; waits := waits c; requests := requests c; used := used c; closed := f_tx f :: closed c;
                  waiters := fs1 ++ fs2; dropped := f :: dropped c |}
| ask_cancel f fs1 fs2 : dropped c = fs1 ++ f :: fs2 ->
    ask_step c {| queue := queue c ++ CancelWaitOnDrop.drop (f_guard f); sent := sent c; waits := waits c; requests := requests c;
                  used := used c; closed := closed c; waiters := waiters c; dropped := fs1 ++ fs2 |}
(** [TxnsRead::data_snapshot] and [TxnsRead::data_subscribe], for a time that
    the caller has waited for *)
| ask_snapshot d as_of tx : 0 <= as_of -> heard c as_of -> tx ∉ used c ->
    ask_step c {| queue := queue c ++ [DataSnapshotCmd d as_of tx]; sent := sent c; waits := waits c; requests := (d, as_of, tx) :: requests c;
                  used := tx :: used c; closed := closed c; waiters := waiters c; dropped := dropped c |}
| ask_subscribe d as_of tx : 0 <= as_of -> heard c as_of -> tx ∉ used c ->
    ask_step c {| queue := queue c ++ [DataSubscribeCmd d as_of tx]; sent := sent c; waits := waits c; requests := (d, as_of, tx) :: requests c;
                  used := tx :: used c; closed := closed c; waiters := waiters c; dropped := dropped c |}
(** the receiver of a subscription or of a request goes away *)
| ask_close tx : tx ∈ used c -> Forall (fun f => f_tx f <> tx) (waiters c) ->
    ask_step c {| queue := queue c; sent := sent c; waits := waits c; requests := requests c; used := used c; closed := tx :: closed c;
                  waiters := waiters c; dropped := dropped c |}.

(** The commands are taken in order; a new channel is made for each of them. *)
Definition taken (c : Calls) (rest : list TxnsReadCmd) (fresh : Chan) (msgs : list Message) : Calls := {|
  queue := rest; sent := sent c ++ msgs; waits := waits c; requests := requests c; used := fresh :: used c; closed := closed c;
  waiters := waiters c; dropped := dropped c |}.

Section system.
Context {Row : Type} `{EqDecision Row} `{UuidCodec} `{IdBatchCodec Row} `{Consolidate} (soft : bool) (fuel : nat) {A : Type}.

Inductive Reader :=
| Starting (p : Prog Row (TxnsSubscribeTask * TxnsReadTask))
| Running (sub : TxnsSubscribeTask) (task : Prog Row TxnsReadTask).

Definition messages (p : Prog Row (TxnsReadTask * list Message)) : list Message := match p with Done x => x.2 | _ => [] end.

(** The next call of a program. *)
Definition prog_step {B} (i : nat) (p : Prog Row B) (w : World Row) (p' : Prog Row B) (w' : World Row) : Prop :=
  match p with Call e k => exists r, exec i e w r w' /\ p' = k r | _ => False end.

Definition Sys : Type := list (Prog Row A) * World Row * Reader * Calls.

Inductive sys_step : Sys -> Sys -> Prop :=
| sys_pool ps w ps' w' rd c : pool_step (ps, w) (ps', w') -> sys_step (ps, w, rd, c) (ps', w', rd, c)
| sys_start ps w p p' w' c : prog_step (length ps) p w p' w' -> sys_step (ps, w, Starting p, c) (ps, w', Starting p', c)
| sys_run ps w sub task c : sys_step (ps, w, Starting (Done (sub, task)), c) (ps, w, Running sub (Done task), c)
| sys_follow ps w sub task w' sub' cmds c : prog_step (length ps) (subscribe_turn sub) w (Done (sub', cmds)) w' ->
    sys_step (ps, w, Running sub task, c) (ps, w', Running sub' task, enqueue c cmds)
| sys_handle ps w sub task cmd rest fresh c : queue c = cmd :: rest -> fresh ∉ used c ->
    let p := handle soft false (is_closed_chan c) fresh task cmd in
    sys_step (ps, w, Running sub (Done task), c) (ps, w, Running sub (bind p (fun x => Done x.1)), taken c rest fresh (messages p))
| sys_ask ps w sub task c c' : ask_step c c' -> sys_step (ps, w, Running sub task, c) (ps, w, Running sub task, c').

(** A [TxnsRead] is started next to processes that are already running. *)
Definition sys_start_state (ps : list (Prog Row A)) (w : World Row) : Sys := (ps, w, Starting (start soft false fuel), no_calls).
End system.
