(* ===== verification/TxnReadInv.v ===== *)
(** * What is true of readers that share a cache

    The invariant of [sys_step]: every wait is in exactly one place, what was
    sent is true, and the tasks never panic. *)

From S2P Require Import Prelude BTree Paths Blob TxnCache TxnCacheFacts TxnLog TxnFollow TxnQuery Txns TxnWorld TxnWorldFacts TxnLogic TxnSync TxnApplyFacts TxnReads TxnReadTask TxnReadFacts TxnReadSystem.

Local Open Scope Z_scope.

Definition wait_of (cmd : TxnsReadCmd) : option (Uuid * WaitTs * Chan) := match cmd with WaitCmd id ts tx => Some (id, ts, tx) | _ => None end.
Definition notified_of (m : Message) : option Chan := match m with Notified tx => Some tx | _ => None end.
Definition remap_of (ch : Chan) (m : Message) : option DataRemapEntry :=
  match m with Remap ch' e => if decide (ch' = ch) then Some e else None | _ => None end.
(** What was sent to a subscriber. *)
Definition remaps (ch : Chan) (msgs : list Message) : list DataRemapEntry := omap (remap_of ch) msgs.

Lemma elem_of_waits_of (cmds : list TxnsReadCmd) id ts tx : (id, ts, tx) ∈ omap wait_of cmds <-> WaitCmd id ts tx ∈ cmds.
Proof.
  rewrite list_elem_of_omap. split; [|intros Hin; by exists (WaitCmd id ts tx)]. intros (cmd & Hin & Hc). destruct cmd; try done. simpl in Hc. by injection Hc as -> -> ->.
Qed.
Lemma elem_of_notified (msgs : list Message) tx : tx ∈ omap notified_of msgs <-> Notified tx ∈ msgs.
Proof. rewrite list_elem_of_omap. split; [|intros Hin; by exists (Notified tx)]. intros (m & Hin & Hc). destruct m; try done. simpl in Hc. by injection Hc as ->. Qed.
Lemma elem_of_remaps ch (msgs : list Message) e : e ∈ remaps ch msgs <-> Remap ch e ∈ msgs.
Proof.
  unfold remaps. rewrite list_elem_of_omap. split.
  - intros (m & Hin & Hc). destruct m; try done. simpl in Hc. case_decide; [|done]. subst. by injection Hc as ->.
  - intros Hin. exists (Remap ch e). split; [done|]. simpl. by rewrite decide_True.
Qed.
Lemma remaps_app ch x y : remaps ch (x ++ y) = remaps ch x ++ remaps ch y.
Proof. apply omap_app. Qed.
Lemma remaps_cons ch m (msgs : list Message) : remaps ch (m :: msgs) = option_list (remap_of ch m) ++ remaps ch msgs.
Proof. unfold remaps. simpl. by destruct (remap_of ch m). Qed.
Lemma remaps_own ch es : remaps ch (Remap ch <$> es) = es.
Proof. induction es as [|e es IH]; [done|]. rewrite fmap_cons, remaps_cons, IH. simpl. by rewrite decide_True. Qed.
Lemma remaps_other ch ch' es : ch' <> ch -> remaps ch (Remap ch' <$> es) = [].
Proof. intros Hne. induction es as [|e es IH]; [done|]. rewrite fmap_cons, remaps_cons, IH. simpl. by rewrite decide_False. Qed.
Lemma remaps_none ch (msgs : list Message) : (forall e, Remap ch e ∉ msgs) -> remaps ch msgs = [].
Proof. intros Hno. apply elem_of_nil_inv. intros e He%elem_of_remaps. by apply (Hno e). Qed.

(** ** Waits *)

(** Where a wait is: in the queue, with the task, answered, or given up. *)
Record wait_status (c : Calls) (by_id : BTreeMap Uuid PendingWait) (p : Z) (id : Uuid) (ts : WaitTs) (tx : Chan) : Prop := {
  ws_queued : WaitCmd id ts tx ∈ queue c -> BTree.get id by_id = None /\ (Notified tx ∉ sent c);
  ws_pending : forall pw, BTree.get id by_id = Some pw -> pw = waiting ts tx /\ (Notified tx ∉ sent c) /\ WaitTs.is_ready ts p = false;
  ws_notified : Notified tx ∈ sent c -> WaitTs.is_ready ts p = true;
  ws_gone : WaitCmd id ts tx ∉ queue c -> BTree.get id by_id = None -> Notified tx ∉ sent c -> tx ∈ closed c;
}.

Definition waiter_ok (c : Calls) (f : Waiter) : Prop :=
  (f_id f, f_ts f, f_tx f) ∈ waits c /\ f_guard f = {| guard_id := f_id f; guard_tx := true |}.

Record waits_ok (c : Calls) (task : TxnsReadTask) (p : Z) : Prop := {
  wo_rep : waits_rep (pending_waits_by_ts task) (pending_waits_by_id task);
  wo_ids : NoDup ((fun x => x.1.1) <$> waits c);
  wo_txs : NoDup ((fun x => x.2) <$> waits c);
  wo_used : forall x, x ∈ waits c -> x.2 ∈ used c;
  wo_queue : NoDup (omap wait_of (queue c)) /\ omap wait_of (queue c) ⊆ waits c;
  wo_sent : NoDup (omap notified_of (sent c)) /\ forall tx, Notified tx ∈ sent c -> exists id ts, (id, ts, tx) ∈ waits c;
  wo_pending : forall id ts tx, BTree.get id (pending_waits_by_id task) = Some (waiting ts tx) -> (id, ts, tx) ∈ waits c;
  wo_status : forall id ts tx, (id, ts, tx) ∈ waits c -> wait_status c (pending_waits_by_id task) p id ts tx;
  wo_cancel : forall id, CancelWaitCmd id ∈ queue c -> exists ts tx, (id, ts, tx) ∈ waits c /\ tx ∈ closed c;
  wo_closed : closed c ⊆ used c;
  wo_waiters : forall f, f ∈ waiters c -> waiter_ok c f /\ f_tx f ∉ closed c;
  wo_waiters_nodup : NoDup (f_tx <$> waiters c);
  wo_dropped : forall f, f ∈ dropped c -> waiter_ok c f /\ f_tx f ∈ closed c;
}.

Lemma wait_unique c task p id ts tx ts' tx' : waits_ok c task p -> (id, ts, tx) ∈ waits c -> (id, ts', tx') ∈ waits c -> ts' = ts /\ tx' = tx.
Proof.
  intros Hw H1 H2. apply list_elem_of_lookup in H1 as [i Hi], H2 as [j Hj]. assert (i = j) as ->.
  { eapply (NoDup_lookup _ _ _ id (wo_ids _ _ _ Hw)); rewrite list_lookup_fmap; [by rewrite Hi|by rewrite Hj]. }
  rewrite Hi in Hj. injection Hj as -> ->. done.
Qed.

Lemma tx_unique c task p id ts tx id' ts' : waits_ok c task p -> (id, ts, tx) ∈ waits c -> (id', ts', tx) ∈ waits c -> id' = id /\ ts' = ts.
Proof.
  intros Hw H1 H2. apply list_elem_of_lookup in H1 as [i Hi], H2 as [j Hj]. assert (i = j) as ->.
  { eapply (NoDup_lookup _ _ _ tx (wo_txs _ _ _ Hw)); rewrite list_lookup_fmap; [by rewrite Hi|by rewrite Hj]. }
  rewrite Hi in Hj. injection Hj as -> ->. done.
Qed.

Lemma heard_past c task p as_of : waits_ok c task p -> heard c as_of -> as_of < p.
Proof.
  intros Hw (id & ts & tx & Hin & Hn & Hp). pose proof (ws_notified _ _ _ _ _ _ (wo_status _ _ _ Hw _ _ _ Hin) Hn) as Hr.
  destruct ts; simpl in *; [apply Z.leb_le in Hr|apply Z.ltb_lt in Hr]; lia.
Qed.

(** Commands that are not waits may be added to the queue. *)
Lemma waits_enqueue c task p cmds : waits_ok c task p -> omap wait_of cmds = [] ->
  (forall id, CancelWaitCmd id ∈ cmds -> exists ts tx, (id, ts, tx) ∈ waits c /\ tx ∈ closed c) -> waits_ok (enqueue c cmds) task p.
Proof.
  intros Hw Hno Hca. assert (Hq : forall id ts tx, WaitCmd id ts tx ∈ queue c ++ cmds <-> WaitCmd id ts tx ∈ queue c).
  { intros. rewrite <- !elem_of_waits_of, omap_app, Hno, app_nil_r. done. }
  destruct Hw. split; simpl; try done.
  - by rewrite omap_app, Hno, app_nil_r.
  - intros id ts tx Hin. destruct (wo_status0 id ts tx Hin). split; simpl; rewrite ?Hq; done.
  - intros id [Hin|Hin]%elem_of_app; eauto.
Qed.

(** More channels are used, and more are closed that nobody waits for. *)
Lemma waits_close c task p req use_ tx : waits_ok c task p -> used c ⊆ use_ -> (forall t, tx = Some t -> t ∈ use_ /\ Forall (fun f => f_tx f <> t) (waiters c)) ->
  waits_ok {| queue := queue c; sent := sent c; waits := waits c; requests := req; used := use_; closed := option_list tx ++ closed c;
              waiters := waiters c; dropped := dropped c |} task p.
Proof.
  intros Hw Hu Htx. assert (Hcl : closed c ⊆ option_list tx ++ closed c) by (intros x Hx; apply elem_of_app; by right).
  destruct Hw. split; simpl; try done.
  - intros x Hx. by apply Hu, wo_used0.
  - intros id ts t Hin. destruct (wo_status0 id ts t Hin). split; simpl; try done. intros. by apply Hcl, ws_gone0.
  - intros id (ts & t & ? & ?)%wo_cancel0. exists ts, t. split; [done|by apply Hcl].
  - intros x [Hx|Hx]%elem_of_app; [|by apply Hu, wo_closed0]. destruct tx as [t|]; [|by apply not_elem_of_nil in Hx].
    apply list_elem_of_singleton in Hx as ->. by apply Htx.
  - intros f Hf. destruct (wo_waiters0 f Hf) as [? ?]. split; [done|]. intros [Hx|Hx]%elem_of_app; [|done]. destruct tx as [t|]; [|by apply not_elem_of_nil in Hx].
    apply list_elem_of_singleton in Hx as <-. destruct (Htx (f_tx f) eq_refl) as [_ Hall]. by apply (proj1 (Forall_forall _ _) Hall) in Hf.
  - intros f Hf. destruct (wo_dropped0 f Hf) as [? ?]. split; [done|]. by apply Hcl.
Qed.

(** A waiter leaves. *)
Lemma waits_leave c task p f fs1 fs2 drops : waits_ok c task p -> waiters c = fs1 ++ f :: fs2 -> drops = dropped c \/ drops = f :: dropped c ->
  waits_ok {| queue := queue c; sent := sent c; waits := waits c; requests := requests c; used := used c; closed := f_tx f :: closed c;
              waiters := fs1 ++ fs2; dropped := drops |} task p.
Proof.
  intros Hw Hfs Hdr. destruct Hw. rewrite Hfs in *.
  assert (Hf : waiter_ok c f /\ f_tx f ∉ closed c) by (apply wo_waiters0, elem_of_app; right; by left).
  assert (Hin : forall g, g ∈ fs1 ++ fs2 -> g ∈ fs1 ++ f :: fs2) by (intros g; rewrite !elem_of_app, elem_of_cons; tauto).
  assert (Hne : forall g, g ∈ fs1 ++ fs2 -> f_tx g <> f_tx f).
  { intros g Hg E. rewrite fmap_app, fmap_cons in wo_waiters_nodup0. apply NoDup_app in wo_waiters_nodup0 as (_ & H1 & [H2 _]%NoDup_cons).
    apply elem_of_app in Hg as [Hg|Hg]; apply (list_elem_of_fmap_2 f_tx) in Hg; rewrite E in Hg; [|done]. apply (H1 _ Hg). by left. }
  split; simpl; try done.
  - intros id ts tx Hx. destruct (wo_status0 id ts tx Hx). split; simpl; try done. intros. right. by apply ws_gone0.
  - intros id (ts & t & ? & ?)%wo_cancel0. exists ts, t. split; [done|by right].
  - intros x [->|Hx]%elem_of_cons; [|by apply wo_closed0]. destruct Hf as [[Hw _] _]. by apply wo_used0 in Hw.
  - intros g Hg. destruct (wo_waiters0 g (Hin g Hg)) as [? ?]. split; [done|]. intros [E|?]%elem_of_cons; [by apply (Hne g Hg)|done].
  - rewrite fmap_app in *. rewrite fmap_cons in wo_waiters_nodup0. apply NoDup_app in wo_waiters_nodup0 as (? & H1 & [_ ?]%NoDup_cons).
    apply NoDup_app. split_and!; [done| |done]. intros x Hx Hx2. apply (H1 x Hx). by right.
  - intros g Hg. assert (Hg' : g = f \/ g ∈ dropped c) by (destruct Hdr as [->| ->]; [by right|by apply elem_of_cons in Hg]).
    destruct Hg' as [->|Hg']; [split; [apply Hf|by left]|]. destruct (wo_dropped0 g Hg'). split; [done|]. by right.
Qed.

Lemma waits_undrop c task p fs1 f fs2 : waits_ok c task p -> dropped c = fs1 ++ f :: fs2 ->
  waits_ok {| queue := queue c; sent := sent c; waits := waits c; requests := requests c; used := used c; closed := closed c;
              waiters := waiters c; dropped := fs1 ++ fs2 |} task p.
Proof.
  intros Hw Hd. destruct Hw. split; simpl; try done.
  - intros id ts tx Hin. by destruct (wo_status0 id ts tx Hin).
  - intros g Hg. apply wo_dropped0. rewrite Hd. revert Hg. rewrite !elem_of_app, elem_of_cons. tauto.
Qed.

Lemma waits_new c task p id ts tx : waits_ok c task p -> (forall ts' tx', (id, ts', tx') ∉ waits c) -> tx ∉ used c ->
  waits_ok {| queue := queue c ++ [WaitCmd id ts tx]; sent := sent c; waits := (id, ts, tx) :: waits c; requests := requests c; used := tx :: used c;
              closed := closed c; waiters := {| f_id := id; f_ts := ts; f_tx := tx; f_guard := {| guard_id := id; guard_tx := true |} |} :: waiters c;
              dropped := dropped c |} task p.
Proof.
  intros Hw Hid Htx. destruct Hw.
  assert (Hq : forall id' ts' tx', WaitCmd id' ts' tx' ∈ queue c ++ [WaitCmd id ts tx] <-> WaitCmd id' ts' tx' ∈ queue c \/ (id', ts', tx') = (id, ts, tx)).
  { intros. rewrite elem_of_app, list_elem_of_singleton. split; (intros [?|E]; [by left|right]); [by injection E as -> -> ->|by injection E as -> -> ->]. }
  assert (Hnew : forall x, x ∈ waits c -> x.2 <> tx) by (intros x Hx E; apply Htx; rewrite <- E; by apply wo_used0).
  assert (Hqid : WaitCmd id ts tx ∉ queue c) by (intros Hin; apply elem_of_waits_of in Hin; apply (Hid ts tx), (proj2 wo_queue0), Hin).
  assert (Hget : BTree.get id (pending_waits_by_id task) = None).
  { destruct (BTree.get id _) as [pw|] eqn:E; [|done]. destruct (wr_tx _ _ wo_rep0 id pw E) as (ts' & tx' & ->). by apply wo_pending0, Hid in E. }
  assert (Hno : Notified tx ∉ sent c) by (intros Hin; apply wo_sent0 in Hin as (id' & ts' & Hin); by apply (Hnew _ Hin)).
  split; simpl; try done.
  - constructor; [|done]. intros Hin. apply list_elem_of_fmap in Hin as ([[id' ts'] tx'] & E & Hin). simpl in E. subst id'. by apply (Hid ts' tx').
  - constructor; [|done]. intros Hin. apply list_elem_of_fmap in Hin as (x & E & Hin). by apply (Hnew x Hin).
  - intros x [->|Hx]%elem_of_cons; [by left|right; by apply wo_used0].
  - rewrite omap_app. simpl. split.
    + apply NoDup_app. split_and!; [apply wo_queue0| |constructor; [apply not_elem_of_nil|constructor]]. intros x Hx [= ->]%list_elem_of_singleton. apply elem_of_waits_of in Hx. done.
    + intros x [Hx|Hx]%elem_of_app; [right; by apply wo_queue0|]. apply list_elem_of_singleton in Hx as ->. by left.
  - split; [apply wo_sent0|]. intros t Ht. destruct (proj2 wo_sent0 t Ht) as (id' & ts' & Hin). exists id', ts'. by right.
  - intros. right. by apply wo_pending0.
  - intros id' ts' tx' Hin. rewrite elem_of_cons in Hin. destruct Hin as [[= -> -> ->]|Hin].
    + split; simpl; [done|by rewrite Hget|done|]. intros Hnq. exfalso. apply Hnq, Hq. by right.
    + destruct (wo_status0 id' ts' tx' Hin) as [H1 H2 H3 H4]. split; simpl; try done.
      * rewrite Hq. intros [Hx|[= -> -> ->]]; [by apply H1|by apply Hid in Hin].
      * intros Hnq. apply H4. intros Hx. apply Hnq, Hq. by left.
  - intros id' [Hc|Hc]%elem_of_app; [|by apply list_elem_of_singleton in Hc]. apply wo_cancel0 in Hc as (ts' & t & ? & ?). exists ts', t. split; [by right|done].
  - intros x Hx. right. by apply wo_closed0.
  - intros f [->|Hf]%elem_of_cons; [split; [split; [by left|done]|]|]; simpl.
    + intros Hx. by apply Htx, wo_closed0.
    + destruct (wo_waiters0 f Hf) as [[? ?] ?]. split; [split; [by right|done]|done].
  - constructor; [|done]. intros Hin. apply list_elem_of_fmap in Hin as (f & E & Hf). destruct (wo_waiters0 f Hf) as [[Hx _] _]. by apply (Hnew _ Hx).
  - intros f Hf. destruct (wo_dropped0 f Hf) as [[? ?] ?]. split; [split; [by right|done]|done].
Qed.

Lemma waits_ask c task p c' : waits_ok c task p -> ask_step c c' -> waits_ok c' task p.
Proof.
  intros Hw. destruct 1 as [id ts tx Hid Htx|f fs1 fs2 Hf Hn|f fs1 fs2 Hf|f fs1 fs2 Hf|d as_of tx H0 Hh Htx|d as_of tx H0 Hh Htx|tx Hu Hall].
  - by apply waits_new.
  - simpl. rewrite app_nil_r. by apply (waits_leave c task p f fs1 fs2); [..|left].
  - by apply (waits_leave c task p f fs1 fs2); [..|right].
  - destruct (wo_dropped _ _ _ Hw f) as [[Hin Hg] Hc]; [rewrite Hf; apply elem_of_app; right; by left|]. rewrite Hg. unfold CancelWaitOnDrop.drop. cbn [guard_tx guard_id].
    apply (waits_undrop (enqueue c [CancelWaitCmd (f_id f)]) task p fs1 f fs2); [|done]. apply waits_enqueue; [done|done|].
    intros id [= ->]%list_elem_of_singleton. eauto.
  - apply (waits_close (enqueue c [DataSnapshotCmd d as_of tx]) task p _ _ None); [|intros x Hx; by right|done]. apply waits_enqueue; [done|done|]. by intros id ?%list_elem_of_singleton.
  - apply (waits_close (enqueue c [DataSubscribeCmd d as_of tx]) task p _ _ None); [|intros x Hx; by right|done]. apply waits_enqueue; [done|done|]. by intros id ?%list_elem_of_singleton.
  - apply (waits_close c task p _ _ (Some tx)); [done|done|]. by intros t [= <-].
Qed.

(** A command is taken that leaves the waits as they are. *)
Lemma waits_taken c task task' p cmd rest fresh msgs : waits_ok c task p -> queue c = cmd :: rest -> wait_of cmd = None -> omap notified_of msgs = [] ->
  pending_waits_by_ts task' = pending_waits_by_ts task -> pending_waits_by_id task' = pending_waits_by_id task -> waits_ok (taken c rest fresh msgs) task' p.
Proof.
  intros Hw Hq Hc Hm Ht Hi.
  assert (Hqw : forall id ts tx, WaitCmd id ts tx ∈ queue c <-> WaitCmd id ts tx ∈ rest) by (intros; rewrite Hq, elem_of_cons; split; [intros [<-|?]; done|by right]).
  assert (Hqo : omap wait_of (queue c) = omap wait_of rest) by (rewrite Hq; simpl; by rewrite Hc).
  assert (Hs : forall tx, Notified tx ∈ sent c ++ msgs <-> Notified tx ∈ sent c) by (intros; rewrite <- !elem_of_notified, omap_app, Hm, app_nil_r; done).
  destruct Hw. split; simpl; rewrite ?Ht, ?Hi; try done.
  - intros x Hx. right. by apply wo_used0.
  - by rewrite <- Hqo.
  - rewrite omap_app, Hm, app_nil_r. split; [apply wo_sent0|]. intros tx. rewrite Hs. apply wo_sent0.
  - intros id ts tx Hin. destruct (wo_status0 id ts tx Hin) as [H1 H2 H3 H4]. split; simpl; intros *; rewrite <- ?Hqw, ?Hs; eauto.
  - intros id Hin. apply wo_cancel0. rewrite Hq. by right.
  - intros x Hx. right. by apply wo_closed0.
Qed.

(** A wait is taken: the queue no longer has it. *)
Lemma wait_taken c task p id ts tx rest : waits_ok c task p -> queue c = WaitCmd id ts tx :: rest ->
  (id, ts, tx) ∈ waits c /\ BTree.get id (pending_waits_by_id task) = None /\ (Notified tx ∉ sent c) /\ (WaitCmd id ts tx ∉ rest) /\
  forall id' ts' tx', id' <> id -> WaitCmd id' ts' tx' ∈ queue c <-> WaitCmd id' ts' tx' ∈ rest.
Proof.
  intros Hw Hq. assert (Hin : (id, ts, tx) ∈ waits c) by (apply (wo_queue _ _ _ Hw), elem_of_waits_of; rewrite Hq; by left).
  destruct (ws_queued _ _ _ _ _ _ (wo_status _ _ _ Hw _ _ _ Hin)) as [? ?]; [rewrite Hq; by left|]. split_and!; [done..| |].
  - destruct (wo_queue _ _ _ Hw) as [Hnd _]. rewrite Hq in Hnd. simpl in Hnd. apply NoDup_cons in Hnd as [Hnd _]. by rewrite elem_of_waits_of in Hnd.
  - intros id' ts' tx' Hne. rewrite Hq, elem_of_cons. split; [intros [[= -> -> ->]|?]; done|by right].
Qed.

(** The wait becomes pending, is answered at once, or nobody waits any more. *)
Lemma waits_wait c task p id ts tx rest fresh task' msgs : waits_ok c task p -> queue c = WaitCmd id ts tx :: rest ->
  (WaitTs.is_ready ts p = true /\ task' = task /\ msgs = [Notified tx]) \/
  (tx ∈ closed c /\ task' = task /\ msgs = []) \/
  (WaitTs.is_ready ts p = false /\ msgs = [] /\ pending_waits_by_ts task' = BTree.insert (ts, id) tt (pending_waits_by_ts task) /\
   pending_waits_by_id task' = BTree.insert id (waiting ts tx) (pending_waits_by_id task)) ->
  waits_ok (taken c rest fresh msgs) task' p.
Proof.
  intros Hw Hq Hcase. destruct (wait_taken c task p id ts tx rest Hw Hq) as (Hin & Hget & Hno & Hnq & Hqw).
  assert (Hother : forall id' ts' tx', (id', ts', tx') ∈ waits c -> id' <> id -> tx' <> tx).
  { intros id' ts' tx' Hx Hne ->. by destruct (tx_unique _ _ _ _ _ _ _ _ Hw Hin Hx). }
  assert (Hm : forall t, Notified t ∈ msgs -> t = tx /\ WaitTs.is_ready ts p = true).
  { intros t Ht. destruct Hcase as [(? & _ & ->)|[(_ & _ & ->)|(_ & -> & _)]]; try by apply not_elem_of_nil in Ht. by apply list_elem_of_singleton in Ht as [= ->]. }
  assert (Hgo : forall id', id' <> id -> BTree.get id' (pending_waits_by_id task') = BTree.get id' (pending_waits_by_id task)).
  { intros id' Hne. destruct Hcase as [(_ & -> & _)|[(_ & -> & _)|(_ & _ & _ & ->)]]; [done..|]. by rewrite BTree.get_insert_ne. }
  pose proof (wait_unique c task p id ts tx) as Huniq. destruct Hw. split; simpl; try done.
  - destruct Hcase as [(_ & -> & _)|[(_ & -> & _)|(_ & _ & -> & ->)]]; [done..|]. by apply waits_insert.
  - intros x Hx. right. by apply wo_used0.
  - rewrite Hq in wo_queue0. simpl in wo_queue0. destruct wo_queue0 as [[_ ?]%NoDup_cons Hsub]. split; [done|]. intros x Hx. apply Hsub. by right.
  - split.
    + rewrite omap_app. apply NoDup_app. split_and!; [apply wo_sent0| |destruct Hcase as [(_ & _ & ->)|[(_ & _ & ->)|(_ & -> & _)]]; repeat constructor; apply not_elem_of_nil].
      intros t Ht Hx. apply elem_of_notified in Ht, Hx. by apply Hm in Hx as [-> _].
    + intros t [Ht|Ht]%elem_of_app; [by apply wo_sent0|]. apply Hm in Ht as [-> _]. eauto.
  - intros id' ts' tx' Hg. destruct (decide (id' = id)) as [->|Hne]; [|rewrite Hgo in Hg by done; by apply wo_pending0].
    destruct Hcase as [(_ & -> & _)|[(_ & -> & _)|(_ & _ & _ & E)]]; [congruence..|]. rewrite E, BTree.get_insert_eq in Hg. by injection Hg as <- <-.
  - intros id' ts' tx' Hx. destruct (wo_status0 id' ts' tx' Hx) as [H1 H2 H3 H4]. destruct (decide (id' = id)) as [->|Hne].
    + destruct (Huniq ts' tx') as [-> ->]; [by split|done|done|]. clear H1 H2. split; simpl; [done| | |].
      * intros pw Hg. destruct Hcase as [(_ & -> & _)|[(_ & -> & _)|(Hr & -> & _ & E)]]; [congruence..|]. rewrite E, BTree.get_insert_eq in Hg. injection Hg as <-. by rewrite app_nil_r.
      * intros [Hn|Hn]%elem_of_app; [by apply H3|]. by apply Hm in Hn as [_ ?].
      * intros _ Hg Hn. destruct Hcase as [(_ & _ & ->)|[(? & _ & _)|(_ & _ & _ & E)]]; [destruct Hn; apply elem_of_app; right; by left|done|].
        by rewrite E, BTree.get_insert_eq in Hg.
    + assert (Hs : Notified tx' ∈ sent c ++ msgs <-> Notified tx' ∈ sent c).
      { rewrite elem_of_app. split; [|by left]. intros [?|Ht]; [done|]. apply Hm in Ht as [-> _]. by destruct (Hother id' ts' tx Hx Hne). }
      split; simpl; intros *; rewrite ?(Hgo id' Hne), <- ?(Hqw id' ts' tx' Hne), ?Hs; eauto.
  - intros id' Hx. apply wo_cancel0. rewrite Hq. by right.
  - intros x Hx. right. by apply wo_closed0.
Qed.

Lemma waits_cancelled c task p id rest fresh ts tx task' : waits_ok c task p -> queue c = CancelWaitCmd id :: rest ->
  BTree.get id (pending_waits_by_id task) = Some (waiting ts tx) ->
  pending_waits_by_ts task' = BTree.remove (ts, id) (pending_waits_by_ts task) -> pending_waits_by_id task' = BTree.remove id (pending_waits_by_id task) ->
  waits_ok (taken c rest fresh []) task' p.
Proof.
  intros Hw Hq Hg Ht Hi. pose proof (waits_taken c task task p _ rest fresh [] Hw Hq eq_refl eq_refl eq_refl eq_refl) as Hw'.
  pose proof (wo_pending _ _ _ Hw _ _ _ Hg) as Hin. destruct (wo_cancel _ _ _ Hw id) as (ts' & tx' & Hin' & Hcl); [rewrite Hq; by left|].
  destruct (wait_unique _ _ _ _ _ _ _ _ Hw Hin Hin') as [-> ->]. clear Hin'. assert (Huniq : forall ts' tx', (id, ts', tx') ∈ waits c -> ts' = ts /\ tx' = tx) by (intros; by eapply (wait_unique c task p)).
  destruct Hw'. split; rewrite ?Ht, ?Hi; try done.
  - by apply (waits_cancel ts tx).
  - intros id' ts' tx' Hg'. apply wo_pending0. destruct (decide (id' = id)) as [->|Hne]; [by rewrite BTree.get_remove_eq in Hg'|by rewrite BTree.get_remove_ne in Hg'].
  - intros id' ts' tx' Hx. destruct (wo_status0 id' ts' tx' Hx) as [H1 H2 H3 H4]. destruct (decide (id' = id)) as [->|Hne]; [|split; rewrite ?BTree.get_remove_ne by done; done].
    destruct (Huniq ts' tx' Hx) as [-> ->]. rewrite Hg in H1. split; rewrite ?BTree.get_remove_eq; try done. intros ?%H1. by destruct H.
Qed.

(** The progress reaches [p'] and the waits for it are answered. *)
Lemma waits_updates c task p us p' rest fresh rs by_ts' by_id' done_ task' : waits_ok c task p -> p <= p' -> queue c = UpdatesCmd us p' :: rest ->
  omap notified_of rs = [] -> waits_rep by_ts' by_id' -> answered p' (pending_waits_by_id task) by_id' -> NoDup (fst <$> done_) ->
  (forall id tx, (id, tx) ∈ done_ <-> exists ts, BTree.get id (pending_waits_by_id task) = Some (waiting ts tx) /\ WaitTs.is_ready ts p' = true) ->
  pending_waits_by_ts task' = by_ts' -> pending_waits_by_id task' = by_id' ->
  waits_ok (taken c rest fresh (rs ++ ((fun x => Notified x.2) <$> done_))) task' p'.
Proof.
  intros Hw Hle Hq Hrs Hrep Hans Hnd Hdn Ht Hi.
  pose proof (waits_taken c task task p _ rest fresh rs Hw Hq eq_refl Hrs eq_refl eq_refl) as Hw'. clear Hw Hq Hrs. rewrite <- Hi in Hans.
  assert (Hom : omap notified_of ((fun x : Uuid * Chan => Notified x.2) <$> done_) = snd <$> done_) by (clear; induction done_ as [|x l IH]; [done|]; cbn; f_equal; apply IH).
  assert (Hd : forall id tx, (id, tx) ∈ done_ -> exists ts, (id, ts, tx) ∈ waits c /\ BTree.get id (pending_waits_by_id task) = Some (waiting ts tx) /\ WaitTs.is_ready ts p' = true).
  { intros id tx (ts & Hg & Hr)%Hdn. exists ts. split; [|done]. by apply (wo_pending _ _ _ Hw'). }
  assert (Hn : forall tx, Notified tx ∈ (fun x : Uuid * Chan => Notified x.2) <$> done_ <-> exists id, (id, tx) ∈ done_).
  { intros tx. rewrite <- elem_of_notified, Hom, list_elem_of_fmap. split; [intros ([id t] & -> & ?); by exists id|intros [id ?]; by exists (id, tx)]. }
  assert (Htu : forall id ts tx id' ts', (id, ts, tx) ∈ waits c -> (id', ts', tx) ∈ waits c -> id' = id /\ ts' = ts) by (intros *; apply (tx_unique _ _ _ _ _ _ _ _ Hw')).
  set (c1 := taken c rest fresh rs) in *.
  assert (Hst : forall id ts tx, (id, ts, tx) ∈ waits c -> wait_status c1 (pending_waits_by_id task) p id ts tx) by (intros; by apply (wo_status _ _ _ Hw')).
  destruct Hw'. split; simpl; try done.
  - by rewrite Ht, Hi.
  - rewrite app_assoc, omap_app, Hom. split.
    + apply NoDup_app. split_and!; [apply wo_sent0| |].
      * intros tx Hs Hx. apply elem_of_notified in Hs. apply list_elem_of_fmap in Hx as ([id t] & -> & Hx). simpl in *. destruct (Hd _ _ Hx) as (ts & Hin & Hg & _).
        by destruct (ws_pending _ _ _ _ _ _ (Hst _ _ _ Hin) _ Hg) as (_ & ? & _).
      * apply NoDup_fmap_2_strong; [|by eapply NoDup_fmap_1]. intros [id tx] [id' tx'] Hx Hy. simpl. intros <-.
        destruct (Hd _ _ Hx) as (ts & H1 & _), (Hd _ _ Hy) as (ts' & H2 & _). destruct (Htu _ _ _ _ _ H1 H2) as [-> _]. done.
    + intros tx [Hs|[id Hx]%Hn]%elem_of_app; [by apply wo_sent0|]. destruct (Hd _ _ Hx) as (ts & ? & _). eauto.
  - intros id ts tx Hg. rewrite Hans in Hg. destruct (BTree.get id (pending_waits_by_id task)) as [pw|] eqn:E; [|done].
    destruct (WaitTs.is_ready (pw_ts pw) p'); [done|]. injection Hg as ->. by apply wo_pending0.
  - intros id ts tx Hin. destruct (Hst id ts tx Hin) as [H1 H2 H3 H4].
    assert (Hdone : forall id', (id', tx) ∈ done_ -> id' = id /\ BTree.get id (pending_waits_by_id task) = Some (waiting ts tx) /\ WaitTs.is_ready ts p' = true).
    { intros id' Hx. destruct (Hd _ _ Hx) as (ts' & Hin' & Hg & Hr). destruct (Htu _ _ _ _ _ Hin Hin') as [-> ->]. done. }
    split; simpl; rewrite ?Hans, ?app_assoc.
    + intros Hx. destruct (H1 Hx) as [Hg Hno]. rewrite Hg. split; [done|]. intros [?|[id' Hy]%Hn]%elem_of_app; [done|]. destruct (Hdone _ Hy) as (_ & ? & _). congruence.
    + intros pw Hg. destruct (BTree.get id (pending_waits_by_id task)) as [pw'|] eqn:E; [|done]. destruct (H2 _ eq_refl) as (-> & Hno & _). cbn [pw_ts waiting] in Hg.
      destruct (WaitTs.is_ready ts p') eqn:Er; [done|]. injection Hg as <-. split_and!; [done| |done].
      intros [?|[id' Hy]%Hn]%elem_of_app; [done|]. destruct (Hdone _ Hy) as (_ & _ & ?). congruence.
    + intros [Hs|[id' Hy]%Hn]%elem_of_app; [eapply ready_later; [done|by apply H3]|]. by apply (Hdone _ Hy).
    + intros Hx Hg Hno. apply H4; [done| |intros ?; apply Hno, elem_of_app; by left]. destruct (BTree.get id (pending_waits_by_id task)) as [pw'|] eqn:E; [|done].
      destruct (H2 _ eq_refl) as (-> & _). cbn [pw_ts waiting] in Hg. destruct (WaitTs.is_ready ts p') eqn:Er; [|done]. exfalso. apply Hno, elem_of_app. right.
      apply Hn. exists id. apply Hdn. by exists ts.
Qed.

(** ** No wait is kept without a caller *)

(** Whoever has a wait in the queue or with the task still waits, is about to
    cancel it, or has a cancellation behind it in the queue. *)
Definition accounted (c : Calls) (by_id : BTreeMap Uuid PendingWait) : Prop :=
  forall id ts tx, (id, ts, tx) ∈ waits c -> WaitCmd id ts tx ∈ queue c \/ is_Some (BTree.get id by_id) ->
    (exists f, f ∈ waiters c ++ dropped c /\ f_id f = id) \/ exists q1 q2, queue c = q1 ++ CancelWaitCmd id :: q2 /\ (WaitCmd id ts tx ∉ q2).

Lemma accounted_taken c by_id by_id' cmd rest fresh msgs : accounted c by_id -> queue c = cmd :: rest ->
  (forall id, is_Some (BTree.get id by_id') -> is_Some (BTree.get id by_id) \/ exists ts tx, cmd = WaitCmd id ts tx /\ (id, ts, tx) ∈ waits c) ->
  (forall id, cmd = CancelWaitCmd id -> BTree.get id by_id' = None) -> (forall id ts tx ts' tx', (id, ts, tx) ∈ waits c -> (id, ts', tx') ∈ waits c -> ts' = ts /\ tx' = tx) ->
  accounted (taken c rest fresh msgs) by_id'.
Proof.
  intros Ha Hq Hg Hc Huniq id ts tx Hin Hor. simpl in *. assert (Hor' : WaitCmd id ts tx ∈ queue c \/ is_Some (BTree.get id by_id)).
  { destruct Hor as [?|[?|(ts' & tx' & -> & Hin')]%Hg]; [left; rewrite Hq; by right|by right|]. left. destruct (Huniq _ _ _ _ _ Hin Hin') as [-> ->]. rewrite Hq. by left. }
  destruct (Ha id ts tx Hin Hor') as [?|(q1 & q2 & Hx & Hno)]; [by left|]. rewrite Hq in Hx. destruct q1 as [|cmd' q1]; simpl in Hx; injection Hx as -> ->.
  - exfalso. destruct Hor as [?|Hsome]; [done|]. rewrite (Hc id eq_refl) in Hsome. by destruct Hsome.
  - right. by exists q1, q2.
Qed.

(** The queue grows by commands that are not waits of the past. *)
Lemma accounted_more c c' by_id x : accounted c by_id -> queue c' = queue c ++ x -> waits c' = waits c -> (forall f, f ∈ waiters c ++ dropped c -> f ∈ waiters c' ++ dropped c') ->
  omap wait_of x = [] -> accounted c' by_id.
Proof.
  intros Ha Hq Hw Hf Hx id ts tx Hin Hor. rewrite Hw in Hin. assert (Hno : WaitCmd id ts tx ∉ x) by (rewrite <- elem_of_waits_of, Hx; apply not_elem_of_nil).
  destruct (Ha id ts tx Hin) as [(f & ? & ?)|(q1 & q2 & E & ?)].
  - destruct Hor as [Hor|?]; [|by right]. rewrite Hq in Hor. apply elem_of_app in Hor as [?|?]; [by left|done].
  - left. exists f. eauto.
  - right. exists q1, (q2 ++ x). rewrite Hq, E, <- app_assoc. split; [done|]. by rewrite not_elem_of_app.
Qed.

Lemma accounted_ask c task p c' : waits_ok c task p -> accounted c (pending_waits_by_id task) -> ask_step c c' -> accounted c' (pending_waits_by_id task).
Proof.
  intros Hw Ha Hst. destruct Hst as [id ts tx Hid Htx|f fs1 fs2 Hf Hn|f fs1 fs2 Hf|f fs1 fs2 Hf|d as_of tx H0 Hh Htx|d as_of tx H0 Hh Htx|tx Hu Hall].
  - intros id' ts' tx' Hin Hor. simpl in *. apply elem_of_cons in Hin as [[= -> -> ->]|Hin]; [left; eexists; split; [by left|done]|]. destruct (Ha id' ts' tx' Hin) as [(f & ? & ?)|(q1 & q2 & E & ?)].
    + destruct Hor as [[?|[= -> -> ->]%list_elem_of_singleton]%elem_of_app|?]; [by left|by apply Hid in Hin|by right].
    + left. exists f. split; [by right|done].
    + right. exists q1, (q2 ++ [WaitCmd id ts tx]). rewrite E, <- app_assoc. split; [done|]. rewrite not_elem_of_app. split; [done|]. intros [= -> -> ->]%list_elem_of_singleton. by apply Hid in Hin.
  - destruct (wo_waiters _ _ _ Hw f) as [[Hfin _] _]; [rewrite Hf; apply elem_of_app; right; by left|]. intros id ts tx Hin Hor. simpl in *. rewrite app_nil_r in *.
    destruct (Ha id ts tx Hin Hor) as [(g & Hg & <-)|?]; [|by right]. left. exists g. split; [|done]. rewrite Hf in Hg. destruct (decide (f_id g = f_id f)) as [E|Hne].
    + exfalso. rewrite E in *. destruct (wait_unique _ _ _ _ _ _ _ _ Hw Hfin Hin) as [-> ->]. destruct (wo_status _ _ _ Hw _ _ _ Hin) as [H1 H2 _ _].
      destruct Hor as [?|[pw Hp]]; [by destruct H1|by destruct (H2 pw Hp) as (_ & ? & _)].
    + revert Hg. rewrite !elem_of_app, elem_of_cons. intros [[?|[->|?]]|?]; tauto.
  - eapply (accounted_more c _ _ []); simpl; [done|by rewrite app_nil_r|done| |done]. intros g. rewrite Hf, !elem_of_app, !elem_of_cons. tauto.
  - destruct (wo_dropped _ _ _ Hw f) as [[Hfin Hg] _]; [rewrite Hf; apply elem_of_app; right; by left|]. intros id ts tx Hin Hor. simpl in *. rewrite Hg in *. cbn in Hor |- *.
    destruct (decide (id = f_id f)) as [->|Hne]; [right; exists (queue c), []; split; [done|apply not_elem_of_nil]|].
    destruct (Ha id ts tx Hin) as [(g & Hgin & <-)|(q1 & q2 & E & ?)].
    + destruct Hor as [[?|?%list_elem_of_singleton]%elem_of_app|?]; [by left|done|by right].
    + left. exists g. split; [|done]. rewrite Hf in Hgin. revert Hgin. rewrite !elem_of_app, elem_of_cons. intros [?|[?|[->|?]]]; tauto.
    + right. exists q1, (q2 ++ [CancelWaitCmd (f_id f)]). rewrite E, <- app_assoc. split; [done|]. rewrite not_elem_of_app. split; [done|]. by intros ?%list_elem_of_singleton.
  - by eapply (accounted_more c); simpl.
  - by eapply (accounted_more c); simpl.
  - by eapply (accounted_more c _ _ []); simpl; rewrite ?app_nil_r.
Qed.

(** ** Subscriptions *)

Lemma path_entries l d p r es : entry_ok l d p r -> remap_path l d r es -> Forall (fun e => logical_upper e <= p) es -> Forall (entry_ok l d p) es.
Proof.
  revert r. induction es as [|e es IH]; intros r Hr Hp Hall; [constructor|]. destruct Hp as [Hn Hp]. apply Forall_cons in Hall as [He Hall].
  assert (entry_ok l d p e) by (by eapply remap_entry). constructor; [done|]. by eapply IH.
Qed.

Lemma path_app l d r es1 r1 es2 : remap_path l d r es1 -> last (r :: es1) = Some r1 -> remap_path l d r1 es2 -> remap_path l d r (es1 ++ es2).
Proof.
  revert r. induction es1 as [|e es1 IH]; intros r Hp Hl Hp2; simpl; [simpl in Hl; by injection Hl as ->|]. destruct Hp as [Hn Hp]. split; [done|]. by apply IH.
Qed.

Section streams.
Context {Row : Type} `{EqDecision Row} `{UuidCodec} `{IdBatchCodec Row}.
Implicit Types (w : World Row).

Lemma idle_evolve w w' d lo hi : Inv w' -> evolve w w' -> hi <= txns_upper w -> idle (txns w) d lo hi -> idle (txns w') d lo hi.
Proof.
  intros Hi' Hev Hhi Hidle t Ht. destruct (Hidle t Ht) as (Hr & Hc & He). destruct (ev_txns _ _ Hev) as (us & Hus & Hnew). split_and!.
  - rewrite Hus. apply registered_ext; [rewrite <- Hus; apply Hi'| |done]. intros u Hu%Hnew. lia.
  - intros b Hb. apply (Hc b). eapply committed_back; [done..|lia].
  - intros Hx. apply He. eapply reg_event_back; [done..|lia].
Qed.

Lemma entry_evolve w w' d p e : Inv w' -> evolve w w' -> p <= txns_upper w -> entry_ok (txns w) d p e -> entry_ok (txns w') d p e.
Proof. intros Hi' Hev Hp [Hb Hi]. split; [done|]. apply (idle_evolve w); [done..|lia|done]. Qed.

Lemma path_evolve w w' d p r es : Inv w' -> evolve w w' -> p <= txns_upper w -> Forall (fun e => logical_upper e <= p) es ->
  remap_path (txns w) d r es -> remap_path (txns w') d r es.
Proof.
  intros Hi' Hev Hp Hall. revert r. induction Hall as [|e es He _ IH]; intros r; simpl; [done|]. intros [[Hlt Hn] Hpath]. split; [|by apply IH]. split; [done|].
  destruct Hn as [?|[? Hn]]; [by left|right]. split; [done|]. apply (idle_evolve w); [done..|lia|done].
Qed.

(** The entries sent to a subscriber with this token. *)
Definition first_entry (sn : DataSnapshot) : DataRemapEntry := {| physical_upper := empty_to sn; logical_upper := empty_to sn |}.

Definition stream_ok (l : list Update) (p : Z) (sn : DataSnapshot) (es : list DataRemapEntry) : Prop :=
  exists es', es = first_entry sn :: es' /\ remap_path l (ds_data_id sn) (first_entry sn) es' /\ Forall (entry_ok l (ds_data_id sn) p) es.

Lemma stream_evolve w w' p sn es : Inv w' -> evolve w w' -> p <= txns_upper w -> stream_ok (txns w) p sn es -> stream_ok (txns w') p sn es.
Proof.
  intros Hi' Hev Hp (es' & -> & Hpath & Hall). exists es'. split_and!; [done| |].
  - apply (path_evolve w _ _ p); [done..| |done]. apply Forall_cons in Hall as [_ Hall]. eapply Forall_impl; [exact Hall|]. intros e [? _]. lia.
  - eapply Forall_impl; [exact Hall|]. intros e He. by apply (entry_evolve w).
Qed.

Lemma stream_app l p p' sn es r es2 : p <= p' -> stream_ok l p sn es -> last es = Some r -> remap_path l (ds_data_id sn) r es2 ->
  Forall (fun e => logical_upper e <= p') es2 -> stream_ok l p' sn (es ++ es2).
Proof.
  intros Hp (es' & -> & Hpath & Hall) Hr Hpath2 Hle. exists (es' ++ es2). split_and!; [done|by eapply path_app|].
  assert (Hall' : Forall (entry_ok l (ds_data_id sn) p') (first_entry sn :: es')) by (eapply Forall_impl; [exact Hall|]; intros e [? ?]; split; [lia|done]).
  apply Forall_app. split; [done|]. apply (path_entries _ _ _ r); [|done..]. apply (proj1 (Forall_forall _ _) Hall'). by apply last_Some_elem_of.
Qed.

Record subs_ok w (s p : Z) (c : Calls) (subs : list DataSubscription) : Prop := {
  so_nodup : NoDup (subscription_tx <$> subs);
  so_live : forall sub, sub ∈ subs -> logical_upper (sub_remap (subscribe sub)) = p /\ s <= p /\
    last (remaps (subscription_tx sub) (sent c)) = Some (sub_remap (subscribe sub)) /\ (exists tx o, Subscribed tx o (subscription_tx sub) ∈ sent c) /\
    (forall tx sn, Subscribed tx (Some sn) (subscription_tx sub) ∈ sent c -> ds_data_id sn = sub_data_id (subscribe sub));
  so_subscribed : forall tx o ch, Subscribed tx o ch ∈ sent c -> ch ∈ used c /\ exists sn, o = Some sn /\ (ds_data_id sn, ds_as_of sn, tx) ∈ requests c /\
    token_ok w sn /\ stream_ok (txns w) p sn (remaps ch (sent c));
  so_remap : forall ch e, Remap ch e ∈ sent c -> exists tx o, Subscribed tx o ch ∈ sent c;
  so_tokens : forall tx sn, SnapshotIs tx sn ∈ sent c -> (ds_data_id sn, ds_as_of sn, tx) ∈ requests c /\ token_ok w sn;
  so_queue : forall d as_of tx, DataSnapshotCmd d as_of tx ∈ queue c \/ DataSubscribeCmd d as_of tx ∈ queue c -> (d, as_of, tx) ∈ requests c /\ 0 <= as_of < p;
}.

Lemma subs_evolve w w' s p c subs : Inv w' -> evolve w w' -> p <= txns_upper w -> subs_ok w s p c subs -> subs_ok w' s p c subs.
Proof.
  intros Hi' Hev Hp [H1 H2 H3 H4 H5 H6]. split; try done.
  - intros tx o ch Hin. destruct (H3 tx o ch Hin) as (? & sn & -> & ? & ? & ?). split; [done|]. exists sn. split_and!; [done|done|by apply (token_evolve w)|by apply (stream_evolve w)].
  - intros tx sn Hin. destruct (H5 tx sn Hin). split; [done|by apply (token_evolve w)].
Qed.

(** Nothing but the queue, the waits and the closed channels changes. *)
Lemma subs_calls w s p c c' subs : subs_ok w s p c subs -> sent c' = sent c -> requests c ⊆ requests c' -> used c ⊆ used c' ->
  (forall d as_of tx, DataSnapshotCmd d as_of tx ∈ queue c' \/ DataSubscribeCmd d as_of tx ∈ queue c' ->
     (DataSnapshotCmd d as_of tx ∈ queue c \/ DataSubscribeCmd d as_of tx ∈ queue c) \/ ((d, as_of, tx) ∈ requests c' /\ 0 <= as_of < p)) ->
  subs_ok w s p c' subs.
Proof.
  intros [H1 H2 H3 H4 H5 H6] Hs Hr Hu Hq. split; rewrite ?Hs; try done.
  - intros tx o ch Hin. destruct (H3 tx o ch Hin) as (? & sn & ? & ? & ? & ?). split; [by apply Hu|]. exists sn. split_and!; [done|by apply Hr|done|done].
  - intros tx sn Hin. destruct (H5 tx sn Hin). split; [by apply Hr|done].
  - intros d as_of tx [Hx|Hx]%Hq; [|done]. apply H6 in Hx as [? ?]. split; [by apply Hr|done].
Qed.

Lemma subs_ask w s p c task c' subs : waits_ok c task p -> subs_ok w s p c subs -> ask_step c c' -> subs_ok w s p c' subs.
Proof.
  intros Hw Hs Hst.
  assert (Hplain : forall x d as_of tx, Forall (fun cmd => match cmd with DataSnapshotCmd _ _ _ | DataSubscribeCmd _ _ _ => False | _ => True end) x ->
    DataSnapshotCmd d as_of tx ∈ queue c ++ x \/ DataSubscribeCmd d as_of tx ∈ queue c ++ x -> DataSnapshotCmd d as_of tx ∈ queue c \/ DataSubscribeCmd d as_of tx ∈ queue c).
  { intros x d as_of tx Hall. rewrite !elem_of_app. rewrite Forall_forall in Hall. intros [[?|Hx]|[?|Hx]]; [by left|by apply Hall in Hx|by right|by apply Hall in Hx]. }
  destruct Hst as [id ts tx Hid Htx|f fs1 fs2 Hf Hn|f fs1 fs2 Hf|f fs1 fs2 Hf|d as_of tx Hnn Hh Htx|d as_of tx Hnn Hh Htx|tx Hu Hall].
  - apply (subs_calls w s p c); simpl; [done|done|done|intros x ?; by right|]. intros d as_of tx' Hx. left. apply (Hplain _ _ _ _) in Hx; [done|]. by repeat constructor.
  - apply (subs_calls w s p c); simpl; [done|done|done|done|]. rewrite app_nil_r. intros. by left.
  - apply (subs_calls w s p c); simpl; [done|done|done|done|]. intros. by left.
  - apply (subs_calls w s p c); simpl; [done|done|done|done|]. intros d as_of tx' Hx. left. apply (Hplain _ _ _ _) in Hx; [done|].
    unfold CancelWaitOnDrop.drop. destruct (guard_tx _); by repeat constructor.
  - pose proof (heard_past _ _ _ _ Hw Hh). apply (subs_calls w s p c); simpl; [done|done|intros x ?; by right|intros x ?; by right|].
    intros d' as_of' tx' Hx. rewrite !elem_of_app, !list_elem_of_singleton in Hx. destruct Hx as [[?|[= -> -> ->]]|[?|?]]; [left; by left|right; split; [by left|lia]|left; by right|done].
  - pose proof (heard_past _ _ _ _ Hw Hh). apply (subs_calls w s p c); simpl; [done|done|intros x ?; by right|intros x ?; by right|].
    intros d' as_of' tx' Hx. rewrite !elem_of_app, !list_elem_of_singleton in Hx. destruct Hx as [[?|?]|[?|[= -> -> ->]]]; [left; by left|done|left; by right|right; split; [by left|lia]].
  - apply (subs_calls w s p c); simpl; [done|done|done|done|]. intros. by left.
Qed.
End streams.
