(* ===== verification/TxnReadSafe.v ===== *)
(** * The tasks behind a shared cache never panic

    Every turn of [TxnsReadTask::run] keeps the invariant of [TxnReadInv], and
    so does every step of the system. *)

From S2P Require Import Prelude BTree Paths Blob TxnCache TxnCacheFacts TxnLog TxnFollow TxnQuery Txns TxnWorld TxnWorldFacts TxnLogic TxnSync TxnApplyFacts TxnReads TxnReadTask TxnReadFacts TxnReadSystem TxnReadInv.

Local Open Scope Z_scope.

Section turns.
Context {Row : Type} `{EqDecision Row} `{UuidCodec} `{IdBatchCodec Row} `{ConsolidateLaws} (soft : bool).
Implicit Types (w : World Row).

(** Messages that are not for subscribers. *)
Lemma subs_plain w s p c subs cmd rest fresh msgs : subs_ok w s p c subs -> queue c = cmd :: rest -> (forall ch e, Remap ch e ∉ msgs) -> (forall tx o ch, Subscribed tx o ch ∉ msgs) ->
  (forall tx sn, SnapshotIs tx sn ∈ msgs -> (ds_data_id sn, ds_as_of sn, tx) ∈ requests c /\ token_ok w sn) -> subs_ok w s p (taken c rest fresh msgs) subs.
Proof.
  intros [H1' H2' H3 H4 H5 H6] Hq Hr Hs Ht. assert (Hre : forall ch, remaps ch (sent c ++ msgs) = remaps ch (sent c)) by (intros; by rewrite remaps_app, (remaps_none _ msgs), app_nil_r).
  assert (Hsu : forall tx o ch, Subscribed tx o ch ∈ sent c ++ msgs <-> Subscribed tx o ch ∈ sent c) by (intros; rewrite elem_of_app; split; [intros [?|?%Hs]; done|by left]).
  split; simpl.
  - done.
  - intros sub Hin. destruct (H2' sub Hin) as (? & ? & Hl & (tx & o & ?) & Hd). rewrite Hre. split_and!; [done..| |].
    + exists tx, o. by apply Hsu.
    + intros tx' sn Hx%Hsu. by eapply Hd.
  - intros tx o ch Hin%Hsu. rewrite Hre. destruct (H3 tx o ch Hin) as [? ?]. split; [by right|done].
  - intros ch e [Hin|Hin]%elem_of_app; [|by apply Hr in Hin]. destruct (H4 ch e Hin) as (tx & o & ?). exists tx, o. by apply Hsu.
  - intros tx sn [Hin|Hin]%elem_of_app; [by apply H5|by apply Ht].
  - intros d as_of tx Hin. apply H6. rewrite Hq, !elem_of_cons. tauto.
Qed.

Lemma fresh_unsent w s p c subs fresh : subs_ok w s p c subs -> fresh ∉ used c -> (forall tx o, Subscribed tx o fresh ∉ sent c) /\ remaps fresh (sent c) = [] /\ fresh ∉ subscription_tx <$> subs.
Proof.
  intros Hs Hf. assert (Hno : forall tx o, Subscribed tx o fresh ∉ sent c) by (intros tx o Hin; apply Hf; by destruct (so_subscribed _ _ _ _ _ Hs _ _ _ Hin)).
  split_and!; [done| |].
  - apply remaps_none. intros e (tx & o & Hin)%(so_remap _ _ _ _ _ Hs). by apply (Hno tx o).
  - intros Hin. apply list_elem_of_fmap in Hin as (sub & -> & Hin). destruct (so_live _ _ _ _ _ Hs sub Hin) as (_ & _ & _ & (tx & o & ?) & _). by apply (Hno tx o).
Qed.

(** A new subscription. *)
Lemma subs_subscribed w s p c subs d as_of tx rest fresh sn sub es : subs_ok w s p c subs -> queue c = DataSubscribeCmd d as_of tx :: rest -> fresh ∉ used c ->
  s <= p -> ds_data_id sn = d -> ds_as_of sn = as_of -> token_ok w sn -> empty_to sn <= p -> subscription_tx sub = fresh -> sub_data_id (subscribe sub) = d ->
  remap_path (txns w) d (first_entry sn) es -> last (first_entry sn :: es) = Some (sub_remap (subscribe sub)) -> logical_upper (sub_remap (subscribe sub)) = p ->
  Forall (fun e => logical_upper e <= p) es ->
  subs_ok w s p (taken c rest fresh (Remap fresh (first_entry sn) :: (Remap fresh <$> es) ++ [Subscribed tx (Some sn) fresh])) (subs ++ [sub]).
Proof.
  intros Hs Hq Hfr Hsp Hd Ha Htok He Htx Hdat Hpath Hlast Hlog Hall. destruct (fresh_unsent _ _ _ _ _ _ Hs Hfr) as (Hno & Hnr & Hnl).
  destruct (so_queue _ _ _ _ _ Hs d as_of tx) as [Hreq _]; [right; rewrite Hq; by left|].
  set (msgs := Remap fresh (first_entry sn) :: (Remap fresh <$> es) ++ [Subscribed tx (Some sn) fresh]).
  assert (Hmsgs : msgs = (Remap fresh <$> (first_entry sn :: es)) ++ [Subscribed tx (Some sn) fresh]) by done. clearbody msgs. subst msgs.
  assert (Hre : forall ch, remaps ch (sent c ++ (Remap fresh <$> (first_entry sn :: es)) ++ [Subscribed tx (Some sn) fresh]) =
    if decide (ch = fresh) then first_entry sn :: es else remaps ch (sent c)).
  { intros ch. rewrite !remaps_app, (remaps_none _ [Subscribed tx (Some sn) fresh]) by (by intros e ?%list_elem_of_singleton). rewrite app_nil_r. case_decide as Hc.
    - subst ch. by rewrite Hnr, remaps_own.
    - by rewrite remaps_other, app_nil_r by congruence. }
  assert (Hsu : forall t o ch, Subscribed t o ch ∈ sent c ++ (Remap fresh <$> (first_entry sn :: es)) ++ [Subscribed tx (Some sn) fresh] <->
    Subscribed t o ch ∈ sent c \/ (t = tx /\ o = Some sn /\ ch = fresh)).
  { intros t o ch. rewrite !elem_of_app, list_elem_of_singleton. split.
    - intros [?|[Hx|Hx]]; [by left| |by injection Hx as -> -> ->; right]. by apply list_elem_of_fmap in Hx as (? & ? & _).
    - intros [?|(-> & -> & ->)]; [by left|by right; right]. }
  assert (Hstream : stream_ok (txns w) p sn (first_entry sn :: es)).
  { exists es. rewrite Hd. split_and!; [done..|]. assert (entry_ok (txns w) d p (first_entry sn)) by (split; [simpl; lia|intros t Ht; simpl in Ht; lia]).
    constructor; [done|]. by apply (path_entries _ _ _ (first_entry sn)). }
  destruct Hs as [H1' H2' H3 H4 H5 H6]. split; cbn [sent used requests queue taken].
  - rewrite fmap_app. apply NoDup_app. split_and!; [done| |simpl; constructor; [apply not_elem_of_nil|constructor]]. simpl. intros x Hx ->%list_elem_of_singleton. by rewrite Htx in Hx.
  - intros sub' [Hin|Hin]%elem_of_app.
    + destruct (H2' sub' Hin) as (? & ? & ? & (t & o & ?) & Hx). assert (subscription_tx sub' <> fresh) by (intros E; apply Hnl; rewrite <- E; by apply list_elem_of_fmap_2).
      rewrite Hre, decide_False by done. split_and!; [done..|exists t, o; apply Hsu; by left|]. intros t' sn' [?|(_ & _ & ?)]%Hsu; [by eapply Hx|done].
    + apply list_elem_of_singleton in Hin as ->. rewrite Htx, Hre, decide_True by done. split_and!; [done..|exists tx, (Some sn); apply Hsu; by right|].
      intros t' sn' [Hx|(_ & [= ->] & _)]%Hsu; [by apply Hno in Hx|by rewrite Hdat].
  - intros t o ch [Hin|(-> & -> & ->)]%Hsu.
    + destruct (H3 t o ch Hin) as (Hu & sn' & Hx). split; [by right|]. exists sn'. rewrite Hre, decide_False; [done|]. by intros ->.
    + split; [by left|]. exists sn. rewrite Hre, decide_True, Hd, Ha by done. done.
  - intros ch e Hin%elem_of_remaps. rewrite Hre in Hin. case_decide as Hc; [subst ch; exists tx, (Some sn); apply Hsu; by right|].
    apply elem_of_remaps in Hin. destruct (H4 ch e Hin) as (t & o & ?). exists t, o. apply Hsu. by left.
  - intros t sn' [Hin|Hin]%elem_of_app; [by apply H5|]. apply elem_of_app in Hin as [Hin|Hin]; [by apply list_elem_of_fmap in Hin as (? & ? & _)|by apply list_elem_of_singleton in Hin].
  - intros d' as_of' t Hin. apply H6. rewrite Hq, !elem_of_cons. tauto.
Qed.

(** Bringing all subscriptions up to date. *)
Lemma update_subscriptions_ok s p l m st subs : log_ok l -> p = 0 \/ s < p -> p <= u64_max -> follows None s p l m st -> NoDup (subscription_tx <$> subs) ->
  (forall sub, sub ∈ subs -> s <= logical_upper (sub_remap (subscribe sub)) <= p /\ physical_upper (sub_remap (subscribe sub)) <= logical_upper (sub_remap (subscribe sub))) ->
  exists subs' msgs, update_subscriptions (Row := Row) subs st = Done (subs', msgs) /\ subscription_tx <$> subs' = subscription_tx <$> subs /\
    (forall m, m ∈ msgs -> exists ch e, m = Remap ch e) /\ (forall ch, ch ∉ subscription_tx <$> subs -> remaps ch msgs = []) /\
    forall sub', sub' ∈ subs' -> exists sub, sub ∈ subs /\ caught_up p l (sub_data_id (subscribe sub)) sub sub' (remaps (subscription_tx sub) msgs).
Proof.
  intros Hl Hst Hp Hf. induction subs as [|sub subs IH]; intros Hnd Hb; cbn [update_subscriptions].
  { exists [], []. split_and!; [done|done| |done|]; by intros ? ?%not_elem_of_nil. }
  apply NoDup_cons in Hnd as [Hnot Hnd]. destruct (Hb sub) as [Hb1 Hb2]; [by left|].
  destruct (update_subscription_ok (Row := Row) None s p l m st Hl Hst Hp Hf sub I Hb1 Hb2) as (sub' & es & Hx & Hc).
  destruct IH as (subs' & msgs & Hy & Htx & Hm & Hno & Hc'); [done|intros; apply Hb; by right|]. rewrite Hx. cbn [bind]. rewrite Hy. cbn [bind].
  exists (sub' :: subs'), ((Remap (subscription_tx sub) <$> es) ++ msgs). pose proof Hc as (_ & Htx' & _). split_and!.
  - done.
  - rewrite !fmap_cons. by f_equal.
  - intros m' [(e & -> & _)%list_elem_of_fmap|Hin]%elem_of_app; [eauto|by apply Hm].
  - intros ch Hch. rewrite fmap_cons, not_elem_of_cons in Hch. destruct Hch. by rewrite remaps_app, remaps_other, Hno.
  - intros sub'' [->|Hin]%elem_of_cons.
    + exists sub. split; [by left|]. by rewrite remaps_app, remaps_own, (Hno (subscription_tx sub)), app_nil_r.
    + destruct (Hc' _ Hin) as (sub1 & Hin1 & Hc1). exists sub1. split; [by right|]. rewrite remaps_app, remaps_other; [done|]. intros E. apply Hnot. rewrite E. by apply list_elem_of_fmap_2.
Qed.

Lemma subs_updated w s p p' c subs opens us rest fresh subs' msgs done_ : subs_ok w s p c subs -> p <= p' -> s <= p' -> queue c = UpdatesCmd us p' :: rest -> opens ⊆ subs ->
  NoDup (subscription_tx <$> opens) -> subscription_tx <$> subs' = subscription_tx <$> opens ->
  (forall m, m ∈ msgs -> exists ch e, m = Remap ch e) -> (forall ch, ch ∉ subscription_tx <$> opens -> remaps ch msgs = []) ->
  (forall sub', sub' ∈ subs' -> exists sub, sub ∈ opens /\ caught_up p' (txns w) (sub_data_id (subscribe sub)) sub sub' (remaps (subscription_tx sub) msgs)) ->
  subs_ok w s p' (taken c rest fresh (msgs ++ ((fun x : Uuid * Chan => Notified x.2) <$> done_))) subs'.
Proof.
  intros [H1' H2' H3 H4 H5 H6] Hp Hsp Hq Hop Hnd Htx Hm Hno Hc.
  assert (Hre : forall ch, remaps ch (sent c ++ msgs ++ ((fun x : Uuid * Chan => Notified x.2) <$> done_)) = remaps ch (sent c) ++ remaps ch msgs).
  { intros ch. rewrite !remaps_app, (remaps_none _ (_ <$> done_)), app_nil_r; [done|]. by intros e (? & ? & _)%list_elem_of_fmap. }
  assert (Hold : forall m, (forall tx, m <> Notified tx) -> (forall ch e, m <> Remap ch e) -> m ∈ sent c ++ msgs ++ ((fun x : Uuid * Chan => Notified x.2) <$> done_) <-> m ∈ sent c).
  { intros m Hn Hr. rewrite !elem_of_app. split; [|by left]. intros [?|[(ch & e & ->)%Hm|(x & -> & _)%list_elem_of_fmap]]; [done|by destruct (Hr ch e)|by destruct (Hn x.2)]. }
  assert (Hgrow : forall sub', sub' ∈ subs' -> exists sub, sub ∈ subs /\ subscription_tx sub' = subscription_tx sub /\
    caught_up p' (txns w) (sub_data_id (subscribe sub)) sub sub' (remaps (subscription_tx sub) msgs)).
  { intros sub' Hin. destruct (Hc sub' Hin) as (sub & Hin1 & Hc1). exists sub. split_and!; [by apply Hop|apply Hc1|done]. }
  split; cbn [sent used requests queue taken].
  - by rewrite Htx.
  - intros sub' Hin. destruct (Hgrow sub' Hin) as (sub & Hin1 & Et & Hd & _ & Hpath & Hlast & Hlog & _). destruct (H2' sub Hin1) as (_ & _ & Hl & (tx & o & Hs) & Hds).
    rewrite Hre, Et. split_and!; [done|done| |exists tx, o; by apply Hold|].
    + destruct (remaps (subscription_tx sub) msgs) as [|e es]; [rewrite app_nil_r; simpl in Hlast; by rewrite Hl|]. rewrite last_app. simpl in Hlast |- *. by rewrite Hlast.
    + intros tx' sn Hx%Hold; [|done..]. rewrite Hd. by eapply Hds.
  - intros tx o ch Hin%Hold; [|done..]. destruct (H3 tx o ch Hin) as (Hu & sn & -> & Hreq & Htok & Hstr). split; [by right|]. exists sn. split_and!; [done..|]. rewrite Hre.
    destruct (decide (ch ∈ subscription_tx <$> opens)) as [Hch|Hch].
    + rewrite <- Htx in Hch. apply list_elem_of_fmap in Hch as (sub' & -> & Hin'). destruct (Hgrow sub' Hin') as (sub & Hin1 & Et & _ & _ & Hpath & _ & _ & Hle).
      destruct (H2' sub Hin1) as (_ & _ & Hl & _ & Hds). rewrite Et in Hin, Hstr |- *. rewrite <- (Hds tx sn Hin) in Hpath. by apply (stream_app _ p p' _ _ (sub_remap (subscribe sub))).
    + rewrite Hno, app_nil_r by done. rewrite <- (app_nil_r (remaps ch (sent c))). destruct Hstr as (es' & Es & ? & ?).
      destruct (last (remaps ch (sent c))) as [r|] eqn:El; [|apply last_None in El; congruence]. apply (stream_app _ p p' _ _ r); [done|by exists es'|done|done|constructor].
  - intros ch e Hin%elem_of_remaps. rewrite Hre in Hin. assert (Hch : exists tx o, Subscribed tx o ch ∈ sent c).
    { apply elem_of_app in Hin as [Hin%elem_of_remaps|Hin]; [by apply (H4 ch e)|]. destruct (decide (ch ∈ subscription_tx <$> opens)) as [Hch|Hch]; [|rewrite Hno in Hin by done; by apply not_elem_of_nil in Hin].
      apply list_elem_of_fmap in Hch as (sub & -> & Hin'). apply Hop in Hin'. by destruct (H2' sub Hin') as (_ & _ & _ & ? & _). }
    destruct Hch as (tx & o & Hs). exists tx, o. by apply Hold.
  - intros tx sn Hin%Hold; [|done..]. by apply H5.
  - intros d as_of tx Hin. destruct (H6 d as_of tx) as [? ?]; [rewrite Hq, !elem_of_cons; tauto|]. split; [done|lia].
Qed.

Lemma live_bounds w s p c subs sub : subs_ok w s p c subs -> sub ∈ subs -> logical_upper (sub_remap (subscribe sub)) = p /\ s <= p /\
  physical_upper (sub_remap (subscribe sub)) <= logical_upper (sub_remap (subscribe sub)).
Proof.
  intros Hs Hin. destruct (so_live _ _ _ _ _ Hs sub Hin) as (Hl & Hsp & Hlast & (tx & o & Hx) & _). split_and!; [done..|].
  destruct (so_subscribed _ _ _ _ _ Hs _ _ _ Hx) as (_ & sn & _ & _ & _ & (es & _ & _ & Hall)).
  apply last_Some_elem_of, (proj1 (Forall_forall _ _) Hall) in Hlast as [? _]. lia.
Qed.

(** ** One turn of the task *)

Section turn.
Context (w : World Row) (s p q : Z) (task : TxnsReadTask) (sub : TxnsSubscribeTask) (c : Calls) (rest : list TxnsReadCmd) (fresh : Chan).

Definition turn_ok (r : Prog Row (TxnsReadTask * list Message)) : Prop :=
  exists task' msgs p', r = Done (task', msgs) /\ feed_ok w s p' q (rt_cache task') sub rest /\
    waits_ok (taken c rest fresh msgs) task' p' /\ subs_ok w s p' (taken c rest fresh msgs) (data_subscriptions task') /\
    accounted (taken c rest fresh msgs) (pending_waits_by_id task').

Hypothesis Hi : Inv w.
Hypothesis Hf : feed_ok w s p q (rt_cache task) sub (queue c).
Hypothesis Hw : waits_ok c task p.
Hypothesis Hs : subs_ok w s p c (data_subscriptions task).
Hypothesis Ha : accounted c (pending_waits_by_id task).

Lemma task_bounds : 0 <= p <= txns_upper w /\ txns_upper w <= u64_max /\ (p = 0 \/ s < p) /\ progress_exclusive (rt_cache task) = p.
Proof.
  split_and!; [apply (feed_le _ _ _ _ _ _ _ Hf)..|by apply upper_bound|apply (fo_started _ _ _ _ _ _ _ Hf)|].
  by destruct (follows_fields _ _ _ _ _ _ (fo_follows _ _ _ _ _ _ _ Hf)) as (_ & ? & _).
Qed.

Lemma turn_accounted cmd by_id' msgs : queue c = cmd :: rest ->
  (forall id, is_Some (BTree.get id by_id') -> is_Some (BTree.get id (pending_waits_by_id task)) \/ exists ts tx, cmd = WaitCmd id ts tx) ->
  (forall id, cmd = CancelWaitCmd id -> BTree.get id by_id' = None) -> accounted (taken c rest fresh msgs) by_id'.
Proof.
  intros Hq Hg Hc. eapply accounted_taken; [done|done| |done|].
  - intros id [?|(ts & tx & ->)]%Hg; [by left|right]. exists ts, tx. split; [done|]. apply (wo_queue _ _ _ Hw), elem_of_waits_of. rewrite Hq. by left.
  - intros id ts tx ts' tx' H1' H2'. by eapply wait_unique.
Qed.

(** The cache and the subscriptions stay as they are. *)
Lemma turn_same cmd task' msgs : queue c = cmd :: rest -> is_updates cmd = false -> waits_ok (taken c rest fresh msgs) task' p ->
  rt_cache task' = rt_cache task -> data_subscriptions task' = data_subscriptions task ->
  accounted (taken c rest fresh msgs) (pending_waits_by_id task') ->
  (forall m, m ∈ msgs -> (exists t, m = Notified t) \/ exists tx sn, m = SnapshotIs tx sn /\ (ds_data_id sn, ds_as_of sn, tx) ∈ requests c /\ token_ok w sn) ->
  turn_ok (Done (task', msgs)).
Proof.
  intros Hq Hu Hw' Hc' Hd' Hac Hm. exists task', msgs, p. rewrite Hc', Hd'. rewrite Hq in Hf. split_and!; [done|by eapply feed_other|done| |done].
  eapply subs_plain; [done|done| | |].
  - intros ch e [(? & ?)|(? & ? & ? & _)]%Hm; done.
  - intros ? ? ? [(? & ?)|(? & ? & ? & _)]%Hm; done.
  - intros tx sn [(? & ?)|(tx' & sn' & E & ?)]%Hm; [done|]. by injection E as -> ->.
Qed.

Lemma turn_token d as_of tx : DataSnapshotCmd d as_of tx ∈ queue c \/ DataSubscribeCmd d as_of tx ∈ queue c ->
  exists sn, TxnsCacheState.data_snapshot (rt_cache task) d as_of = Ret sn /\ ds_data_id sn = d /\ ds_as_of sn = as_of /\ empty_to sn = Z.max (as_of + 1) s /\ token_ok w sn /\
    (d, as_of, tx) ∈ requests c /\ 0 <= as_of < p.
Proof.
  intros Hq. destruct (so_queue _ _ _ _ _ Hs d as_of tx Hq) as [Hreq Has]. destruct task_bounds as (Hp & _ & Hst & _).
  destruct (follows_token None s p (-1) w (rt_cache task) d as_of Hi Hst ltac:(lia) (fo_settled _ _ _ _ _ _ _ Hf) (fo_follows _ _ _ _ _ _ _ Hf) I Has) as (sn & ? & ? & ? & ? & ?).
  by exists sn.
Qed.

Lemma turn_updates us p' : queue c = UpdatesCmd us p' :: rest -> turn_ok (handle soft false (is_closed_chan c) fresh task (UpdatesCmd us p')).
Proof.
  intros Hq. cbn [handle]. destruct task_bounds as (Hp & Hup & Hst & Hpr). rewrite Hq in Hf.
  destruct (feed_updates soft w s p q _ sub us p' rest Hi Hf) as (Hpp & st' & -> & Hf'). cbn [lift bind]. pose proof (feed_le _ _ _ _ _ _ _ Hf') as Hp'.
  pose proof (fo_chain _ _ _ _ _ _ _ Hf) as (_ & Hsp & _). set (opens := filter (fun s0 => is_closed_chan c (subscription_tx s0) = false) (data_subscriptions task)).
  assert (Hop : opens ⊆ data_subscriptions task) by (intros x [_ ?]%list_elem_of_filter; done).
  assert (Hnd : NoDup (subscription_tx <$> opens)) by (eapply sublist_NoDup; [apply Hs|apply fmap_sublist, sublist_filter]).
  destruct (update_subscriptions_ok s p' (txns w) (-1) st' opens) as (subs' & msgs & -> & Htx & Hm & Hno & Hc); [apply Hi|by right|lia|apply Hf'|done| |].
  { intros x Hx%Hop. destruct (live_bounds _ _ _ _ _ _ Hs Hx) as (? & ? & ?). lia. }
  cbn [bind]. destruct (complete_waits_ok (is_closed_chan c) p' _ _ (wo_rep _ _ _ Hw)) as (by_ts' & by_id' & dn & -> & Hrep & Hans & Hndn & Hdn). cbn [lift bind].
  eexists _, _, p'. split_and!; [done|done| | |].
  - eapply (waits_updates c task p us p'); [done|done|done| |done|done|done|done|done|done].
    apply elem_of_nil_inv. intros x Hx%elem_of_notified. by apply Hm in Hx as (? & ? & ?).
  - eapply (subs_updated w s p p'); [done|done|lia|done|done|done|done|done|done|done].
  - eapply turn_accounted; [done| |done]. simpl. intros id. rewrite Hans. destruct (BTree.get id (pending_waits_by_id task)); [by left|by intros []].
Qed.

Lemma turn_snapshot d as_of tx : queue c = DataSnapshotCmd d as_of tx :: rest -> turn_ok (handle soft false (is_closed_chan c) fresh task (DataSnapshotCmd d as_of tx)).
Proof.
  intros Hq. cbn [handle]. destruct (turn_token d as_of tx) as (sn & -> & Hd & Has & _ & Htok & Hreq & _); [left; rewrite Hq; by left|]. cbn [lift bind].
  eapply turn_same; [done|done|by eapply waits_taken|done|done|by eapply turn_accounted; [done|left|]|]. intros m ->%list_elem_of_singleton. right. exists tx, sn. by rewrite Hd, Has.
Qed.

Lemma turn_subscribe d as_of tx : queue c = DataSubscribeCmd d as_of tx :: rest -> fresh ∉ used c ->
  turn_ok (handle soft false (is_closed_chan c) fresh task (DataSubscribeCmd d as_of tx)).
Proof.
  intros Hq Hfr. cbn [handle]. destruct task_bounds as (Hp & Hup & Hst & Hpr).
  destruct (turn_token d as_of tx) as (sn & Hsn & Hd & Hao & He & Htok & Hreq & Has); [right; rewrite Hq; by left|]. pose proof Hf as Hf'. rewrite Hq in Hf'. apply feed_other in Hf'; [|done].
  unfold TxnsCacheState.data_subscribe. rewrite (only_assert None s p (txns w) (-1) _ (fo_follows _ _ _ _ _ _ _ Hf)) by done. cbn [obind].
  rewrite Hpr, (proj2 (Z.ltb_lt as_of p)) by lia. cbn [assert_ obind]. rewrite Hsn. cbn [obind lift bind sub_snapshot sub_data_id sub_remap].
  fold (first_entry sn). set (new := {| subscribe := _; subscription_tx := fresh |}).
  destruct (update_subscription_ok (Row := Row) None s p (txns w) (-1) (rt_cache task) (inv_log _ Hi) Hst ltac:(lia) (fo_follows _ _ _ _ _ _ _ Hf) new I) as (sub' & es & Hx & Hdat & Htx & Hpath & Hlast & Hlog & Hall);
    [simpl; lia|simpl; lia|]. rewrite Hx. cbn [bind]. eexists _, _, p. split_and!; [done|done| | |by eapply turn_accounted; [done|left|]].
  - eapply (waits_taken c task); [done|done|done| |done|done]. apply elem_of_nil_inv. intros x Hn%elem_of_notified.
    rewrite elem_of_cons, elem_of_app, list_elem_of_singleton in Hn. destruct Hn as [?|[(? & ? & _)%list_elem_of_fmap|?]]; done.
  - eapply (subs_subscribed w s p c _ d as_of tx); [done|done|done|lia|done|done|done|lia|done|done|done|done|done|done].
Qed.

Lemma turn_wait id ts tx : queue c = WaitCmd id ts tx :: rest -> turn_ok (handle soft false (is_closed_chan c) fresh task (WaitCmd id ts tx)).
Proof.
  intros Hq. cbn [handle]. destruct task_bounds as (_ & _ & _ & Hpr). unfold maybe_complete. cbn [pw_tx pw_ts]. rewrite Hpr.
  destruct (WaitTs.is_ready ts p) eqn:Er; [|unfold is_closed_chan; case_bool_decide as Hcl].
  all: eapply turn_same; [done|done|eapply waits_wait; [done|done|]|done|done|eapply turn_accounted; [done| |done]|].
  - by left.
  - by left.
  - intros m ->%list_elem_of_singleton. eauto.
  - by right; left.
  - by left.
  - by intros m ?%not_elem_of_nil.
  - by right; right.
  - simpl. intros id'. destruct (decide (id' = id)) as [->|Hne]; [right; eauto|rewrite BTree.get_insert_ne by done; by left].
  - by intros m ?%not_elem_of_nil.
Qed.

Lemma turn_cancel id : queue c = CancelWaitCmd id :: rest -> turn_ok (handle soft false (is_closed_chan c) fresh task (CancelWaitCmd id)).
Proof.
  intros Hq. cbn [handle]. destruct (BTree.get id (pending_waits_by_id task)) as [pw|] eqn:Eg.
  - destruct (wr_tx _ _ (wo_rep _ _ _ Hw) id pw Eg) as (ts & tx & ->). eapply turn_same; [done|done|by eapply waits_cancelled|done|done| |by intros m ?%not_elem_of_nil].
    eapply turn_accounted; [done| |intros id' [= ->]; simpl; apply BTree.get_remove_eq]. simpl. intros id' Hsome. left.
    destruct (decide (id' = id)) as [->|Hne]; [rewrite BTree.get_remove_eq in Hsome; by destruct Hsome|by rewrite BTree.get_remove_ne in Hsome].
  - eapply turn_same; [done|done|by eapply waits_taken|done|done|eapply turn_accounted; [done|by left|by intros id' [= ->]]|by intros m ?%not_elem_of_nil].
Qed.

Lemma handle_ok cmd : queue c = cmd :: rest -> fresh ∉ used c -> turn_ok (handle soft false (is_closed_chan c) fresh task cmd).
Proof. intros Hq Hfr. destruct cmd; [by apply turn_updates|by apply turn_snapshot|by apply turn_subscribe|by apply turn_wait|by apply turn_cancel]. Qed.
End turn.
End turns.

(** ** The system *)

Section safe.
Context {Row : Type} `{EqDecision Row} `{UuidCodec} `{IdBatchCodec Row} `{ConsolidateLaws} (soft : bool) (fuel : nat) (Hfuel : fuel_ok fuel) {A : Type}.
Implicit Types (w : World Row) (ps : list (Prog Row A)).

Definition task_ok w (c : Calls) (sub : TxnsSubscribeTask) (task : TxnsReadTask) : Prop :=
  exists s p q, feed_ok w s p q (rt_cache task) sub (queue c) /\ waits_ok c task p /\ subs_ok w s p c (data_subscriptions task) /\ accounted c (pending_waits_by_id task).

Definition started_ok (x : TxnsSubscribeTask * TxnsReadTask) w : Prop := Inv w /\ task_ok w no_calls x.1 x.2.

Definition reader_ok (i : nat) w (rd : Reader (Row := Row)) (c : Calls) : Prop :=
  match rd with
  | Starting p => c = no_calls /\ wp false i p w started_ok
  | Running sub task => exists t, task = Done t /\ task_ok w c sub t
  end.

Lemma task_evolve w w' c sub task : Inv w -> Inv w' -> evolve w w' -> task_ok w c sub task -> task_ok w' c sub task.
Proof.
  intros Hi Hi' Hev (s & p & q & Hf & Hw & Hs & Ha). exists s, p, q. split_and!; [by apply (feed_evolve w)|done| |done]. apply (subs_evolve w); [done|done| |done].
  apply (feed_le _ _ _ _ _ _ _ Hf).
Qed.

Lemma started_stable : stable started_ok.
Proof. intros x w w' Hi' Hev [Hi Hx]. split; [done|]. by apply (task_evolve w). Qed.

Lemma reader_evolve i w w' rd c : Inv w -> Inv w' -> evolve w w' -> reader_ok i w rd c -> reader_ok i w' rd c.
Proof.
  intros Hi Hi' Hev. destruct rd as [p|sub task]; simpl.
  - intros [-> Hp]. split; [done|]. eapply wp_evolve; [apply started_stable|done..].
  - intros (t & -> & Ht). exists t. split; [done|]. by apply (task_evolve w).
Qed.

Lemma waits_none st : waits_ok no_calls {| rt_cache := st; pending_waits_by_ts := []; pending_waits_by_id := []; data_subscriptions := [] |} (progress_exclusive st).
Proof.
  split; simpl; try (by intros * ?%not_elem_of_nil); try constructor; try done.
  - intros ts id. split; [by intros ?%not_elem_of_nil|by intros (? & ?)].
  - constructor.
  - constructor.
  - by intros tx ?%not_elem_of_nil.
Qed.

Lemma subs_none w s p : subs_ok w s p no_calls [].
Proof. split; simpl; try (by intros * ?%not_elem_of_nil); [constructor|]. intros d as_of tx [?%not_elem_of_nil|?%not_elem_of_nil]; done. Qed.

Lemma start_wp i w : Inv w -> wp false i (start soft false fuel) w started_ok.
Proof.
  intros Hi. unfold start, subscribe_open. apply wp_bind, wp_bind, state_init_wp; [done|done|]. intros w' st sub s p Hi' Hev' Hr Hle. simpl. split; [done|]. exists s, p, p.
  destruct (cr_progress _ _ _ _ _ _ Hr) as [Hp _]. simpl in Hp. split_and!; [by apply feed_start|rewrite <- Hp; apply waits_none|apply subs_none|].
  by intros id ts tx ?%not_elem_of_nil.
Qed.

Definition sys_ok (pk : nat -> bool) (Q : nat -> A -> World Row -> Prop) (x : Sys) : Prop :=
  let '(ps, w, rd, c) := x in Inv w /\ (forall j p, ps !! j = Some p -> wp (pk j) j p w (Q j)) /\ reader_ok (length ps) w rd c.

Lemma pool_length (x y : list (Prog Row A) * World Row) : pool_step x y -> length y.1 = length x.1.
Proof. destruct 1; simpl; by rewrite ?length_insert. Qed.

Lemma pool_later pk Q ps w w' : (forall j, stable (Q j)) -> Inv w' -> evolve w w' -> (forall j p, ps !! j = Some p -> wp (pk j) j p w (Q j)) ->
  forall j p, ps !! j = Some p -> wp (pk j) j p w' (Q j).
Proof. intros HQ ? ? Hall j p Hj. eapply wp_evolve; [done..|by apply Hall]. Qed.

(** The commands of a turn that follows the txns shard. *)
Lemma follow_ok w i c sub task sub' cmds w' : Inv w -> task_ok w c sub task -> prog_step i (subscribe_turn sub) w (Done (sub', cmds)) w' ->
  w' = w /\ task_ok w (enqueue c cmds) sub' task.
Proof.
  intros Hi (s & p & q & Hf & Hw & Hs & Ha) ([events sub0] & Hex & Hk). destruct (feed_turn i w _ w' s p q (rt_cache task) sub (queue c) Hi Hf Hex) as (-> & Hup & q' & Hqq & Hf').
  injection Hk as Hk. cbn [fst snd] in Hup, Hf'. rewrite <- Hk in Hup, Hf'. cbn [fst snd] in Hup, Hf'. rewrite Forall_forall in Hup. split; [done|]. exists s, p, q'.
  assert (Hno : omap wait_of cmds = []) by (apply elem_of_nil_inv; intros [[id ts] tx] Hin%elem_of_waits_of; by apply Hup in Hin).
  split_and!; [done|by apply waits_enqueue; [..|by intros id ?%Hup]| |by eapply (accounted_more c)].
  apply (subs_calls w s p c); simpl; [done|done|done|done|]. intros d as_of tx. rewrite !elem_of_app. intros [[?|Hx]|[?|Hx]]; [left; by left|by apply Hup in Hx|left; by right|by apply Hup in Hx].
Qed.

Lemma ask_ok w c sub task c' : task_ok w c sub task -> ask_step c c' -> task_ok w c' sub task.
Proof.
  intros (s & p & q & Hf & Hw & Hs & Ha) Hst. exists s, p, q. split_and!; [|by eapply waits_ask|by eapply subs_ask|by eapply accounted_ask].
  destruct Hst; simpl; try done; try (apply feed_queue; [by repeat constructor|done]).
  - unfold CancelWaitOnDrop.drop. destruct (guard_tx _); (apply feed_queue; [by repeat constructor|done]).
Qed.

Lemma sys_step_ok pk Q x y : (forall j, stable (Q j)) -> sys_ok pk Q x -> sys_step soft x y -> sys_ok pk Q y.
Proof.
  intros HQ Hx Hst. destruct Hst as [ps w ps' w' rd c Hst|ps w p p' w' c Hex|ps w sub task c|ps w sub task w' sub' cmds c Hex|ps w sub task cmd rest fresh c Hq Hfr p|ps w sub task c c' Hask];
    destruct Hx as (Hi & Hps & Hrd).
  - destruct (pool_inv pk Q ps w ps' w' HQ Hi Hps) as (Hi' & Hev & Hps'); [by apply rtc_once|]. split_and!; [done..|]. apply pool_length in Hst. simpl in Hst. rewrite Hst.
    by apply (reader_evolve _ w).
  - destruct Hrd as [-> Hp]. destruct p as [| | | |R e k]; try done. destruct Hex as (r & Hex & ->). destruct (Hp w r w') as (Hev & Hi' & Hk); [done..|].
    split_and!; [done|by apply (pool_later pk Q ps w)|done].
  - destruct Hrd as [-> [_ Hx]]. split_and!; [done..|]. by exists task.
  - destruct Hrd as (t & -> & Ht). destruct (follow_ok w _ c sub t sub' cmds w' Hi Ht Hex) as [-> Ht']. split_and!; [done..|]. by exists t.
  - destruct Hrd as (t & [= ->] & s & p0 & q & Hf & Hw & Hs & Ha). destruct (handle_ok soft w s p0 q t sub c rest fresh Hi Hf Hw Hs Ha cmd Hq Hfr) as (task' & msgs & p' & Hh & Hok).
    subst p. rewrite Hh. split_and!; [done..|]. exists task'. split; [done|]. by exists s, p', q.
  - destruct Hrd as (t & -> & Ht). split_and!; [done..|]. exists t. split; [done|]. by eapply ask_ok.
Qed.

(** Whatever happens, the tasks run. *)
Lemma sys_inv pk Q ps w x : (forall j, stable (Q j)) -> Inv w -> (forall j p, ps !! j = Some p -> wp (pk j) j p w (Q j)) ->
  rtc (sys_step soft) (sys_start_state soft fuel ps w) x -> sys_ok pk Q x.
Proof.
  intros HQ Hi Hps Hrtc. assert (Hx : sys_ok pk Q (sys_start_state soft fuel ps w)) by (split_and!; [done..|]; split; [done|]; by apply start_wp).
  revert Hx. induction Hrtc as [|x y z Hst _ IH]; [done|]. intros Hx. apply IH. by eapply sys_step_ok.
Qed.
End safe.
