(* ===== verification/TxnCommit.v ===== *)
(** * Commits

    [Txn::commit_at]: the batches that a transaction writes, and that they are
    written to all of its shards at one time or not at all. *)

From S2P Require Import Prelude BTree Paths Blob TxnCache TxnCacheFacts TxnLog TxnFollow TxnQuery Txns TxnWorld TxnWorldFacts TxnLogic TxnSync TxnApplyFacts TxnRegister.

Local Open Scope Z_scope.

Section forming.
Context {Row : Type}.
Implicit Types (b : TBatch Row) (t : Z).

(** ** The rows of a transaction *)

Definition rows_at t b : list (Row * Z * Z) := (fun u => (u.1.1, t, u.2)) <$> tb_updates b.
Definition txn_rows t (tw : TxnWrite Row) : list (Row * Z * Z) :=
  ((fun x => (x.1, t, x.2)) <$> tw_writes tw) ++ mjoin (rows_at t <$> staged tw) ++ mjoin (rows_at t <$> batches tw).
Definition rows_of t (txn : Txn Row) (d : ShardId) : list (Row * Z * Z) :=
  match BTree.get d (txn_writes txn) with Some tw => txn_rows t tw | None => [] end.

(** A batch that may be staged for a shard with the schema. *)
Definition staged_ok (schema_id : N) b : Prop :=
  tb_lower b = 0 /\ Forall (fun u => 0 <= u.1.2 < tb_upper b) (tb_updates b) /\ Forall (eq schema_id) (tb_schemas b).
Definition write_good (schema_id : N) (tw : TxnWrite Row) : Prop := Forall (staged_ok schema_id) (staged tw) /\ Forall (staged_ok schema_id) (batches tw).
Definition txn_ok (schema : ShardId -> N) (txn : Txn Row) : Prop :=
  BTree.sorted (txn_writes txn) /\ forall d tw, (d, tw) ∈ txn_writes txn -> write_good (schema d) tw.

Lemma rows_formed t b : batch_ok t b -> contents b = rows_at t b.
Proof.
  intros (_ & _ & Hr & Hall). unfold contents, rows_at. rewrite Hr. apply list_fmap_ext. intros j u Hu. apply list_elem_of_lookup_2 in Hu.
  apply (proj1 (Forall_forall _ _) Hall) in Hu. do 2 f_equal. lia.
Qed.

Lemma rewrite_formed t b b' sc : 0 <= t -> staged_ok sc b -> rewrite_ts b t (t + 1) = Some b' ->
  batch_ok t b' /\ staged_ok sc b' /\ rows_at t b' = rows_at t b.
Proof.
  intros Ht (Hlo & Hup & Hsc). unfold rewrite_ts. destruct (_ && _) eqn:E; [|done]. intros [= <-].
  apply andb_true_iff in E as [[[_ Hu]%andb_true_iff _]%andb_true_iff _]. apply negb_true_iff, Z.ltb_ge in Hu.
  assert (Hall : Forall (fun u => 0 <= u.1.2 <= t) (tb_updates b)) by (eapply Forall_impl; [exact Hup|]; intros u Hx; simpl in *; lia).
  split_and!; [by split_and!| |done]. split_and!; [done| |done]. simpl. eapply Forall_impl; [exact Hall|]. intros u Hx. simpl in *. lia.
Qed.

Lemma form_all t sc bs bs' : 0 <= t -> Forall (staged_ok sc) bs -> omapM (fun b => expect (rewrite_ts b t (t + 1))) bs = Ret bs' ->
  Forall (batch_ok t) bs' /\ Forall (staged_ok sc) bs' /\ mjoin (contents <$> bs') = mjoin (rows_at t <$> bs).
Proof.
  intros Ht Hall. revert bs'. induction Hall as [|b bs Hb _ IH]; intros bs'; simpl; [by intros [= <-]|].
  destruct (rewrite_ts b t (t + 1)) as [b1|] eqn:E; simpl; [|done]. destruct (omapM _ bs) as [bs1|]; simpl; [|done]. intros [= <-].
  destruct (IH bs1 eq_refl) as (H1 & H2 & H3). destruct (rewrite_formed t b b1 sc Ht Hb E) as (Hok & Hst & Hrow). split_and!; [by constructor..|].
  change (contents b1 ++ mjoin (contents <$> bs1) = rows_at t b ++ mjoin (rows_at t <$> bs)). by rewrite H3, (rows_formed t), Hrow.
Qed.

Lemma form_batches_spec t sc tw bs : 0 <= t -> write_good sc tw -> form_batches sc tw t = Ret bs ->
  Forall (batch_ok t) bs /\ Forall (staged_ok sc) bs /\ mjoin (contents <$> bs) = txn_rows t tw.
Proof.
  intros Ht [Hst Hba]. unfold form_batches, step_forward. destruct (t <? u64_max); [|done]. cbn [obind]. intros Hf.
  match type of Hf with omapM _ (?x ++ _) = _ => set (built := x) in Hf end.
  assert (Hbuilt : Forall (staged_ok sc) built /\ mjoin (rows_at t <$> built) = (fun x => (x.1, t, x.2)) <$> tw_writes tw).
  { subst built. destruct (tw_writes tw) as [|x xs]; [done|]. split.
    - constructor; [|constructor]. split_and!; [done| |by constructor]. simpl. constructor; [simpl; lia|]. apply Forall_fmap, Forall_forall. intros. simpl. lia.
    - simpl. rewrite app_nil_r. unfold rows_at. simpl. f_equal. by rewrite <- list_fmap_compose. }
  destruct Hbuilt as [Hb1 Hb2]. destruct (form_all t sc (built ++ staged tw ++ batches tw) bs Ht) as (H1 & H2 & H3); [by rewrite !Forall_app|done|].
  split_and!; [done..|]. rewrite H3. unfold txn_rows. by rewrite !fmap_app, !join_app, Hb2.
Qed.

(** The writes that are kept for the next attempt. *)
Lemma formed_rows t sc bs : Forall (batch_ok t) bs -> Forall (staged_ok sc) bs ->
  let tw := {| tw_writes := []; staged := []; batches := bs |} in txn_rows t tw = mjoin (contents <$> bs) /\ write_good sc tw.
Proof.
  intros Hok Hst tw. split; [|by split]. unfold txn_rows. simpl. f_equal. apply list_fmap_ext. intros j b Hb. apply list_elem_of_lookup_2 in Hb.
  symmetry. apply rows_formed. by apply (proj1 (Forall_forall _ _) Hok).
Qed.
End forming.

Section commit.
Context {Row : Type} `{EqDecision Row} `{UuidCodec} `{IdBatchLaws Row} `{ConsolidateLaws} (soft : bool) (fuel : nat) (Hfuel : fuel_ok fuel).
Implicit Types (w : World Row) (d : ShardId) (i n : nat) (schema : ShardId -> N) (t : Z).

(** ** Names of batches *)

(** Batches under names that nobody had before. *)
Definition named w w' (r : list (TBatch Row * str)) : Prop :=
  NoDup (snd <$> r) /\ Forall (fun x => exists id, x.2 = encode_batch id x.1 /\ (id ∉ ids w) /\ id ∈ ids w') r.

Lemma named_app w w1 w2 r1 r2 : evolve w w1 -> evolve w1 w2 -> named w w1 r1 -> named w1 w2 r2 -> named w w2 (r1 ++ r2).
Proof.
  intros Hev1 Hev2 [Hnd1 Hall1] [Hnd2 Hall2]. split.
  - rewrite fmap_app. apply NoDup_app. split_and!; [done| |done]. intros b (x & -> & Hx)%list_elem_of_fmap (y & Hxy & Hy)%list_elem_of_fmap.
    apply (proj1 (Forall_forall _ _) Hall1) in Hx as (id & Hid & _ & Hin). apply (proj1 (Forall_forall _ _) Hall2) in Hy as (id' & Hid' & Hn & _).
    rewrite Hid, Hid' in Hxy. apply encode_id in Hxy. by subst.
  - apply Forall_app. split; [eapply Forall_impl; [exact Hall1|]|eapply Forall_impl; [exact Hall2|]]; intros x (id & ? & ? & ?); exists id; split_and!; [done|done| |done| |done].
    + by apply (ev_ids _ _ Hev2).
    + intros Hin. by apply (ev_ids _ _ Hev1) in Hin.
Qed.

Lemma named_later w w1 w2 r : evolve w1 w2 -> named w w1 r -> named w w2 r.
Proof.
  intros Hev [Hnd Hall]. split; [done|]. eapply Forall_impl; [exact Hall|]. intros x (id & ? & ? & ?). exists id. split_and!; [done..|]. by apply (ev_ids _ _ Hev).
Qed.

Lemma encode_all_wp pk i bs w (Q : list (TBatch Row * str) -> World Row -> Prop) : Inv w ->
  (forall w' r, Inv w' -> evolve w w' -> fst <$> r = bs -> named w w' r -> Q r w') -> wp pk i (encode_all bs) w Q.
Proof.
  revert w Q. induction bs as [|b bs IH]; intros w Q Hinv HQ; cbn [encode_all]; [apply HQ; [done|done|done|by split; constructor]|].
  apply wp_bind, wp_new_uuid. intros w1 id Hi1 Hev1 Hn Hid. apply wp_bind, IH; [done|]. intros w2 r Hi2 Hev2 Hr Hnm. cbn [wp].
  apply HQ; [done|by transitivity w1|by rewrite fmap_cons, Hr|]. apply (named_app w w1 w2 [(b, encode_batch id b)] r); [done..| |done].
  split; [apply NoDup_singleton|]. constructor; [|constructor]. by exists id.
Qed.

(** ** Forming all batches *)

Definition formed schema t (kv : ShardId * TxnWrite Row) (x : ShardId * list (TBatch Row * str)) : Prop :=
  kv.1 = x.1 /\ form_batches (schema kv.1) kv.2 t = Ret (fst <$> x.2).

Lemma write_batches_wp i h schema t writes w (Q : TxnsHandle * list (ShardId * N) * list (ShardId * list (TBatch Row * str)) -> World Row -> Prop) : Inv w ->
  writes_ok schema (data_write_for_commit h) ->
  (forall w' h' dws rest, Inv w' -> evolve w w' -> txns_cache h' = txns_cache h -> writes_ok schema (data_write_for_commit h') -> writes_ok schema dws ->
     Forall2 (formed schema t) writes rest -> named w w' (mjoin (snd <$> rest)) -> Q (h', dws, rest) w') ->
  wp true i (write_batches h t writes) w Q.
Proof.
  revert h w Q. induction writes as [|[d tw] writes IH]; intros h w Q Hinv Hws HQ; cbn [write_batches]; [apply HQ; try done; [constructor|by split; constructor]|].
  apply wp_bind, wp_panics; [done|]. intros [sc h1] Hh1. unfold take_write_for_commit in Hh1. destruct (BTree.get d (data_write_for_commit h)) as [sc'|] eqn:E; [|done].
  injection Hh1 as <- <-. apply BTree.elem_of_get in E. apply (proj1 (Forall_forall _ _) Hws) in E. simpl in E. subst sc'.
  apply wp_bind, wp_panics; [done|]. intros bs Hbs. apply wp_bind, encode_all_wp; [done|]. intros w1 r Hi1 Hev1 Hr Hn1.
  apply wp_bind, IH; [done|by apply (writes_removes schema [d])|]. intros w2 h2 dws rest Hi2 Hev2 Hh2 Hw2 Hd2 Hrest Hn2. cbn [wp].
  apply HQ; [done|by transitivity w1|done|done|by constructor| |].
  - constructor; [|done]. split; [done|]. simpl. by rewrite Hr.
  - change (mjoin (snd <$> (d, r) :: rest)) with (r ++ mjoin (snd <$> rest)). by eapply named_app.
Qed.

(** What was formed for each shard. *)
Lemma formed_get schema t (writes : BTreeMap ShardId (TxnWrite Row)) rest d : Forall2 (formed schema t) writes rest ->
  match BTree.get d writes with
  | Some tw => exists bs, BTree.get d rest = Some bs /\ form_batches (schema d) tw t = Ret (fst <$> bs)
  | None => BTree.get d rest = None
  end.
Proof.
  induction 1 as [|[d1 tw] [d2 bs] writes rest [Hd Hf] _ IH]; [done|]. simpl in *. subst d2. case_decide; [|done]. subst d1. by exists bs.
Qed.

Lemma formed_keys schema t writes rest : Forall2 (formed schema t) writes rest -> fst <$> rest = fst <$> writes.
Proof. induction 1 as [|x y writes rest [Hd _] _ IH]; [done|]. rewrite !fmap_cons. by rewrite IH, Hd. Qed.

(** ** What is written to the txns shard *)

Definition entry_name (e : TxnsEntry) : str := match e with Append _ _ b => b | Register _ _ => [] end.
Definition retraction t (r : str * (Z * ShardId)) : Update := (Append r.2.2 r.2.1 r.1, t, -1).

Lemma log_committed l d ts b t k : log_ok l -> (Append d ts b, t, k) ∈ l -> committed l d ts b.
Proof.
  intros Hl Hin. assert (Hof : (Append d ts b, t, k) ∈ of_entry (Append d ts b) l) by (by apply list_elem_of_filter).
  assert (Hc : (Append d ts b, ts, 1) ∈ of_entry (Append d ts b) l); [|by apply list_elem_of_filter in Hc as [_ ?]].
  destruct (append_shape l Hl d ts b) as [[E _]|[[E _]|(t' & _ & E & _)]]; rewrite E in *; [by apply not_elem_of_nil in Hof|by constructor..].
Qed.

Lemma log_live l d ts b : log_ok l -> committed l d ts b -> (forall t, (Append d ts b, t, -1) ∉ l) -> (d, b, ts) ∈ live l.
Proof.
  intros Hl Hc Hn. assert (Hof : (Append d ts b, ts, 1) ∈ of_entry (Append d ts b) l) by (by apply list_elem_of_filter).
  destruct (append_shape l Hl d ts b) as [[E _]|[[E ?]|(t' & _ & E & _)]]; [rewrite E in Hof; by apply not_elem_of_nil in Hof|done|]. destruct (Hn t').
  assert (Hx : (Append d ts b, t', -1) ∈ of_entry (Append d ts b) l) by (rewrite E; by do 2 constructor). by apply list_elem_of_filter in Hx as [_ ?].
Qed.

Lemma elem_of_appends t (rest : list (ShardId * list (TBatch Row * str))) u :
  u ∈ append_updates t rest <-> exists d bs x, (d, bs) ∈ rest /\ x ∈ bs /\ u = (Append d t x.2, t, 1).
Proof.
  unfold append_updates. rewrite list_elem_of_join. split.
  - intros (us & Hu & ([d bs] & -> & Hin)%list_elem_of_fmap). apply list_elem_of_fmap in Hu as (x & -> & Hx). by exists d, bs, x.
  - intros (d & bs & x & Hin & Hx & ->). exists ((fun b : TBatch Row * str => (Append d t b.2, t, 1)) <$> bs). split; [|by apply list_elem_of_fmap; exists (d, bs)].
    apply list_elem_of_fmap. by exists x.
Qed.

Lemma append_updates_cons t d bs (rest : list (ShardId * list (TBatch Row * str))) :
  append_updates t ((d, bs) :: rest) = ((fun b : TBatch Row * str => (Append d t b.2, t, 1)) <$> bs) ++ append_updates t rest.
Proof. done. Qed.

Lemma names_appends t (rest : list (ShardId * list (TBatch Row * str))) :
  (fun u : Update => entry_name u.1.1) <$> append_updates t rest = snd <$> mjoin (snd <$> rest).
Proof.
  induction rest as [|[d bs] rest IH]; [done|]. change (mjoin (snd <$> (d, bs) :: rest)) with (bs ++ mjoin (snd <$> rest)).
  rewrite append_updates_cons, !fmap_app, IH. f_equal. by rewrite <- list_fmap_compose.
Qed.

Lemma NoDup_names_eq {A B} (f : A -> B) (l : list A) x y : NoDup (f <$> l) -> x ∈ l -> y ∈ l -> f x = f y -> x = y.
Proof.
  induction l as [|z l IH]; intros Hnd Hx Hy He; [by apply not_elem_of_nil in Hx|]. rewrite fmap_cons, NoDup_cons in Hnd. destruct Hnd as [Hn Hnd].
  apply elem_of_cons in Hx as [->|Hx], Hy as [->|Hy]; [done| | |by apply IH]; destruct Hn; apply list_elem_of_fmap; eauto.
Qed.

(** New names are not in the log. *)
Lemma fresh_log w d ts id x t k : Inv w -> id ∉ ids w -> (Append d ts (encode_batch id x), t, k) ∉ txns w.
Proof.
  intros Hinv Hid Hin. apply (log_committed _ _ _ _ _ _ (inv_log _ Hinv)) in Hin. apply (inv_batch _ Hinv) in Hin as [_ (id' & x' & Hin' & He)].
  apply encode_id in He. by subst.
Qed.

Lemma same_log w w' p : Inv w' -> evolve w w' -> txns_upper w' = p -> p <= txns_upper w -> txns w' = txns w.
Proof.
  intros Hinv [(us & Hus & Hnew)] Hup Hp. assert (us = []) as ->; [|by rewrite app_nil_r in Hus]. apply elem_of_nil_inv. intros u Hu.
  pose proof (Hnew u Hu). assert (Hin : u ∈ txns w') by (rewrite Hus; apply elem_of_app; by right). apply (inv_below _ Hinv) in Hin. lia.
Qed.

(** The retractions that a cache lets through. *)
Lemma kept_live s p m w c tidy kept : Inv w -> cache_rep None s p m w c -> p = txns_upper w -> tidy_rep w tidy ->
  TxnsCacheState.filter_retractions (state c) p tidy = Ret kept ->
  NoDup (fst <$> kept) /\ Forall (fun r => (r.2.2, r.1, r.2.1) ∈ live (txns w) /\ applied w r.2.2 r.2.1) kept.
Proof.
  intros Hinv Hr Hp [Hsrt Htidy] Hk. pose proof (cr_started _ _ _ _ _ _ Hr) as Hst. pose proof (cr_follows _ _ _ _ _ _ Hr) as Hf. pose proof (inv_log _ Hinv) as Hl.
  destruct (retractions_exact None s p (txns w) m (state c) Hst Hf tidy p eq_refl (Z.le_refl p)) as (kept' & Hk' & Hsub & Hin). rewrite Hk' in Hk. injection Hk as ->.
  split; [eapply sublist_NoDup; [exact (sorted_nodup _ Hsrt)|by apply fmap_sublist]|]. apply Forall_forall. intros [b [ts d]] [Ht (d' & ts' & Hv)]%Hin.
  apply (proj1 (Forall_forall _ _) Htidy) in Ht as [Hc Ha]. simpl in *. split; [|done].
  apply (follows_live None s p (txns w) m (state c) Hl Hst Hf) in Hv as (_ & Hc' & _ & Hnr).
  assert (He : Append d' ts' b = Append d ts b) by exact (log_apart _ Hl (Append d' ts' b, ts', 1) (Append d ts b, ts, 1) b Hc' Hc eq_refl eq_refl). injection He as -> ->.
  apply log_live; [done..|]. intros t Hin'. apply Hnr. exists t. split; [|done]. apply (inv_below _ Hinv) in Hin'. simpl in Hin'. lia.
Qed.

(** The batches of a commit at [t]. *)
Definition batches_ok schema t (rest : list (ShardId * list (TBatch Row * str))) : Prop :=
  forall d bs x, (d, bs) ∈ rest -> x ∈ bs -> batch_ok t x.1 /\ Forall (eq (schema d)) (tb_schemas x.1).

Lemma commit_write_ok w w' schema t rest kept : Inv w' -> txns_upper w' <= t < u64_max ->
  Z.of_nat (length (txns w' ++ append_updates t rest ++ (retraction t <$> kept))) <= u64_max ->
  (forall d bs, (d, bs) ∈ rest -> registered_before (txns w') (txns_upper w') d) -> batches_ok schema t rest -> txns w' = txns w -> Inv w ->
  named w w' (mjoin (snd <$> rest)) -> NoDup (fst <$> kept) -> Forall (fun r => (r.2.2, r.1, r.2.1) ∈ live (txns w') /\ applied w' r.2.2 r.2.1) kept ->
  write_ok w' t (append_updates t rest ++ (retraction t <$> kept)).
Proof.
  intros Hinv Ht Hlen Hreg Hbok Hlog Hinvw [Hnd Hall] Hndk Hkept. rewrite Forall_forall in Hall. rewrite Forall_forall in Hkept. pose proof (inv_log _ Hinv) as Hl.
  assert (Hname : forall d bs x, (d, bs) ∈ rest -> x ∈ bs -> exists id, x.2 = encode_batch id x.1 /\ (id ∉ ids w) /\ id ∈ ids w').
  { intros d bs x Hd Hx. apply Hall, list_elem_of_join. exists bs. split; [done|]. apply list_elem_of_fmap. by exists (d, bs). }
  assert (Hfresh : forall d bs x d' ts' t' k', (d, bs) ∈ rest -> x ∈ bs -> (Append d' ts' x.2, t', k') ∉ txns w').
  { intros d bs x d' ts' t' k' Hd Hx. destruct (Hname d bs x Hd Hx) as (id & -> & Hid & _). rewrite Hlog. by apply fresh_log. }
  assert (Hold : forall r, r ∈ kept -> committed (txns w') r.2.2 r.2.1 r.1).
  { intros r [Hr _]%Hkept. apply live_mem in Hr as [t' Hr]. by eapply log_committed. }
  set (us := append_updates t rest ++ (retraction t <$> kept)).
  assert (Hus : forall u, u ∈ us <-> (exists d bs x, (d, bs) ∈ rest /\ x ∈ bs /\ u = (Append d t x.2, t, 1)) \/ exists r, r ∈ kept /\ u = retraction t r).
  { intros u. subst us. rewrite elem_of_app, elem_of_appends, list_elem_of_fmap. split; (intros [?|(r & ? & ?)]; [by left|right; by exists r]). }
  assert (Hnames : NoDup ((fun u : Update => entry_name u.1.1) <$> us)).
  { subst us. rewrite fmap_app, names_appends. apply NoDup_app. rewrite <- list_fmap_compose. split_and!; [done| |done].
    intros b (x & -> & (bs & Hx & ([d bs'] & -> & Hd)%list_elem_of_fmap)%list_elem_of_join)%list_elem_of_fmap (r & Hb & Hr)%list_elem_of_fmap.
    apply Hold in Hr. unfold committed in Hr. simpl in Hb. rewrite <- Hb in Hr. by eapply Hfresh in Hr. }
  assert (Hone : forall u v, u ∈ us -> v ∈ us -> entry_name u.1.1 = entry_name v.1.1 -> u = v) by (intros; by eapply (NoDup_names_eq (fun u : Update => entry_name u.1.1) us)).
  split; [done|done| | | | | |].
  - eapply (NoDup_fmap_1 entry_name). by rewrite <- list_fmap_compose.
  - apply Forall_forall. intros u Hu. pose proof Hu as [(d & bs & x & Hd & Hx & ->)|(r & Hr & ->)]%Hus; (split; [done|]); simpl.
    + left. split_and!; [done|done|by eapply registered_last, Hreg| | |].
      * intros k' [(? & ? & ? & _ & _ & ?)|(? & _ & ?)]%Hus; done.
      * intros. by eapply Hfresh.
      * intros d' ts' t' k' Hin. by injection (Hone _ _ Hin Hu eq_refl) as -> -> _ _.
    + right. split; [done|]. by apply Hkept.
  - intros d b [(d' & bs & x & Hd & Hx & [= -> ->])|(r & _ & ?)]%Hus; [|done]. destruct (Hname d' bs x Hd Hx) as (id & He & _ & Hid). rewrite He, parse_encode.
    split; [by eapply Hbok|by exists id, x.1].
  - intros d. exists (schema d). intros b [(d' & bs & x & Hd & Hx & [= -> ->])|(r & _ & ?)]%Hus; [|done]. destruct (Hname d' bs x Hd Hx) as (id & He & _ & Hid). rewrite He, parse_encode.
    by eapply Hbok.
  - intros d t0 b [(? & ? & ? & _ & _ & ?)|(r & Hr & [= -> -> ->])]%Hus; [done|]. by apply Hkept.
  - intros d k [(? & ? & ? & _ & _ & ?)|(r & Hr & ?)]%Hus; done.
Qed.

(** ** What was committed *)

Lemma batches_appends t (rest : list (ShardId * list (TBatch Row * str))) d : NoDup (fst <$> rest) ->
  batches_at (append_updates t rest) d t = match BTree.get d rest with Some bs => snd <$> bs | None => [] end.
Proof.
  induction rest as [|[d1 bs] rest IH]; [done|]. rewrite fmap_cons, NoDup_cons. simpl fst. intros [Hn Hnd]. rewrite append_updates_cons, batches_at_app, IH by done. cbn [BTree.get fst].
  destruct (decide (d = d1)) as [->|Hne].
  - assert (BTree.get d1 rest = None) as ->; [|rewrite app_nil_r; clear IH; induction bs as [|x bs IH]; [done|]; rewrite !fmap_cons; unfold batches_at in *; simpl; rewrite decide_True by done; by f_equal].
    destruct (BTree.get d1 rest) as [v|] eqn:E; [|done]. destruct Hn. apply BTree.elem_of_get in E. apply list_elem_of_fmap. by exists (d1, v).
  - assert (batches_at ((fun b : TBatch Row * str => (Append d1 t b.2, t, 1)) <$> bs) d t = []) as ->; [|done]. clear IH. induction bs as [|x bs IH]; [done|].
    rewrite fmap_cons. unfold batches_at in *. simpl. rewrite decide_False by (by intros [-> _]). done.
Qed.

Lemma payload_commit w w0 t (rest : list (ShardId * list (TBatch Row * str))) kept d : Inv w -> txns_upper w <= t -> NoDup (fst <$> rest) ->
  named w0 w (mjoin (snd <$> rest)) -> payload (Row := Row) (txns w ++ append_updates t rest ++ (retraction t <$> kept)) d t =
    match BTree.get d rest with Some bs => mjoin (contents <$> (fst <$> bs)) | None => [] end.
Proof.
  intros Hinv Ht Hnd [_ Hall]. unfold payload. rewrite !batches_at_app, batches_appends by done.
  assert (batches_at (txns w) d t = []) as ->.
  { apply elem_of_nil_inv. intros b [t' Hin]%elem_of_batches_at. apply (log_committed _ _ _ _ _ _ (inv_log _ Hinv)), (commit_below w d t b Hinv) in Hin. lia. }
  assert (batches_at (retraction t <$> kept) d t = []) as ->.
  { apply elem_of_nil_inv. intros b [t' Hin]%elem_of_batches_at. apply list_elem_of_fmap in Hin as (r & ? & _). done. }
  rewrite app_nil_r, app_nil_l. destruct (BTree.get d rest) as [bs|] eqn:E; [|done]. rewrite <- !list_fmap_compose. f_equal. apply list_fmap_ext. intros j x Hx.
  apply list_elem_of_lookup_2 in Hx. simpl. assert (Hin : x ∈ mjoin (snd <$> rest)).
  { apply list_elem_of_join. exists bs. split; [done|]. apply list_elem_of_fmap. exists (d, bs). split; [done|by apply BTree.elem_of_get]. }
  apply (proj1 (Forall_forall _ _) Hall) in Hin as (id & -> & _). by rewrite parse_encode.
Qed.

Lemma formed_ok schema t txn rest : 0 <= t -> txn_ok schema txn -> Forall2 (formed schema t) (txn_writes txn) rest ->
  batches_ok schema t rest /\ NoDup (fst <$> rest) /\
  (forall d, match BTree.get d rest with Some bs => mjoin (contents <$> (fst <$> bs)) | None => [] end = rows_of t txn d) /\
  (forall d bs, BTree.get d rest = Some bs -> Forall (batch_ok t) (fst <$> bs) /\ Forall (staged_ok (schema d)) (fst <$> bs)).
Proof.
  intros Ht [Hsrt Hgood] Hf. assert (Hnd : NoDup (fst <$> rest)) by (rewrite (formed_keys _ _ _ _ Hf); by apply sorted_nodup).
  assert (Hspec : forall d bs, BTree.get d rest = Some bs -> exists tw, BTree.get d (txn_writes txn) = Some tw /\ Forall (batch_ok t) (fst <$> bs) /\
    Forall (staged_ok (schema d)) (fst <$> bs) /\ mjoin (contents <$> (fst <$> bs)) = txn_rows t tw).
  { intros d bs Hd. pose proof (formed_get schema t (txn_writes txn) rest d Hf) as Hg. destruct (BTree.get d (txn_writes txn)) as [tw|] eqn:E; [|congruence].
    destruct Hg as (bs' & Hd' & Hform). rewrite Hd in Hd'. injection Hd' as <-. exists tw. split; [done|]. apply (form_batches_spec t (schema d)); [done| |done].
    apply Hgood. by apply BTree.elem_of_get. }
  split_and!; [|done| |].
  - intros d bs x Hd Hx. assert (Hg : BTree.get d rest = Some bs).
    { destruct (BTree.get d rest) as [bs'|] eqn:E.
      - apply BTree.elem_of_get in E. f_equal. by injection (NoDup_names_eq fst rest (d, bs') (d, bs) Hnd E Hd eq_refl).
      - assert (Hk : d ∈ BTree.keys rest) by (apply list_elem_of_fmap; by exists (d, bs)). apply BTree.get_keys in Hk as [? Hk]. congruence. }
    destruct (Hspec d bs Hg) as (tw & _ & Hok & Hst & _). rewrite !Forall_fmap in Hok, Hst. rewrite Forall_forall in Hok. rewrite Forall_forall in Hst.
    split; [by apply Hok|]. by apply Hst.
  - intros d. unfold rows_of. pose proof (formed_get schema t (txn_writes txn) rest d Hf) as Hg. destruct (BTree.get d rest) as [bs|] eqn:E.
    + destruct (Hspec d bs E) as (tw & -> & _ & _ & ->). done.
    + destruct (BTree.get d (txn_writes txn)); [|done]. destruct Hg as (? & ? & _). congruence.
  - intros d bs (tw & _ & ? & ? & _)%Hspec. done.
Qed.

(** The next attempt has the same rows. *)
Definition retry_writes (rest : list (ShardId * list (TBatch Row * str))) : BTreeMap ShardId (TxnWrite Row) :=
  foldl (fun m x => BTree.insert x.1 {| tw_writes := []; staged := []; batches := fst <$> x.2 |} m) [] rest.

Lemma retry_sorted rest : BTree.sorted (retry_writes rest).
Proof.
  unfold retry_writes. induction rest as [|x rest IH] using rev_ind; [done|]. rewrite foldl_app. simpl. by apply BTree.sorted_insert.
Qed.

Lemma retry_get (rest : list (ShardId * list (TBatch Row * str))) d : NoDup (fst <$> rest) ->
  BTree.get d (retry_writes rest) = (fun bs => {| tw_writes := []; staged := []; batches := fst <$> bs |}) <$> BTree.get d rest.
Proof.
  intros Hnd. unfold retry_writes. assert (Hgen : forall acc,
    BTree.get d (foldl (fun m x => BTree.insert x.1 {| tw_writes := []; staged := []; batches := fst <$> x.2 |} m) acc rest) =
    match BTree.get d rest with Some bs => Some {| tw_writes := []; staged := []; batches := fst <$> bs |} | None => BTree.get d acc end); [|rewrite Hgen; by destruct (BTree.get d rest)].
  induction rest as [|[d1 bs] rest IH]; intros acc; simpl; [done|]. rewrite fmap_cons, NoDup_cons in Hnd. destruct Hnd as [Hn Hnd]. rewrite IH by done.
  destruct (decide (d = d1)) as [->|Hne]; [|by rewrite BTree.get_insert_ne].
  destruct (BTree.get d1 rest) as [v|] eqn:E; [|by rewrite BTree.get_insert_eq]. destruct Hn. apply BTree.elem_of_get in E. apply list_elem_of_fmap. by exists (d1, v).
Qed.

Lemma retry_ok schema t txn rest : 0 <= t -> txn_ok schema txn -> Forall2 (formed schema t) (txn_writes txn) rest ->
  let txn' := {| txn_writes := retry_writes rest; txn_tidy := txn_tidy txn |} in txn_ok schema txn' /\ forall d, rows_of t txn' d = rows_of t txn d.
Proof.
  intros Ht Htxn Hf txn'. destruct (formed_ok schema t txn rest Ht Htxn Hf) as (_ & Hnd & Hrows & Hspec). split.
  - split; [apply retry_sorted|]. intros d tw Hin%get_sorted; [|apply retry_sorted]. simpl in Hin. rewrite retry_get in Hin by done.
    destruct (BTree.get d rest) as [bs|] eqn:E; [|done]. injection Hin as <-. destruct (Hspec d bs E). by eapply formed_rows.
  - intros d. rewrite <- Hrows. unfold rows_of. simpl. rewrite retry_get by done. destruct (BTree.get d rest) as [bs|] eqn:E; [|done]. simpl.
    destruct (Hspec d bs E). by eapply formed_rows.
Qed.

(** ** The loop *)

Lemma asserts_all {A} (f : ShardId -> outcome bool) (l : list (ShardId * A)) : foldM (fun _ kv => let! r := f kv.1 in assert_ r) l tt = Ret tt ->
  forall d a, (d, a) ∈ l -> f d = Ret true.
Proof.
  induction l as [|[d0 a0] l IH]; simpl; [by intros _ d a ?%not_elem_of_nil|]. destruct (f d0) as [[]|] eqn:E; simpl; try done.
  intros Hl d a [[= -> ->]|Hin]%elem_of_cons; [done|by eapply IH].
Qed.

Lemma put_writes schema dws h h' : foldM put_write_for_commit dws h = Ret h' -> writes_ok schema dws -> writes_ok schema (data_write_for_commit h) ->
  txns_cache h' = txns_cache h /\ writes_ok schema (data_write_for_commit h').
Proof.
  revert h. induction dws as [|[d sc] dws IH]; intros h; simpl; [by intros [= <-]|]. unfold put_write_for_commit at 1. destruct (negb _); simpl; [|done].
  intros Hf [Hd Hdws]%Forall_cons Hw. simpl in Hd. subst sc. destruct (IH _ Hf Hdws) as [-> Hw']; [by apply writes_insert|done].
Qed.

Lemma commit_caa_wp pk i s p m w0 w c schema t txn rest kept Q : Inv w0 -> cache_rep None s p m w0 c -> Inv w -> evolve w0 w -> named w0 w (mjoin (snd <$> rest)) ->
  txn_ok schema txn -> Forall2 (formed schema t) (txn_writes txn) rest -> (forall d tw, (d, tw) ∈ txn_writes txn -> registered_before (txns w0) p d) ->
  tidy_rep w (txn_tidy txn) -> TxnsCacheState.filter_retractions (state c) p (txn_tidy txn) = Ret kept -> p <= t < u64_max ->
  (forall w', Inv w' -> evolve w w' -> t < txns_upper w' -> (forall d, payload (txns w') d t = rows_of t txn d) ->
     (append_updates t rest = [] -> forall d b, ~ committed (txns w') d t b) -> Q (Ok tt) w') ->
  (forall w' cur, Inv w' -> evolve w w' -> p < cur <= txns_upper w' -> Q (Err cur) w') ->
  wp pk i (small_caa None (append_updates t rest ++ (retraction t <$> kept)) p (t + 1)) w Q.
Proof.
  intros Hi0 Hr Hinv Hev0 Hnamed Htxn Hform Hreg Htidy Hkept Ht HOk HErr. pose proof (cr_bounds _ _ _ _ _ _ Hr) as Hb. pose proof (ev_upper _ _ Hev0).
  destruct (formed_ok schema t txn rest ltac:(lia) Htxn Hform) as (Hbok & Hnd & Hrows & _). apply wp_caa_txns; [lia| | | |].
  - apply Forall_app. split; [|by apply Forall_fmap, Forall_forall]. apply Forall_forall. intros v (d & bs & x & _ & _ & ->)%elem_of_appends. done.
  - intros w' Hi' Hev' He Hlen. assert (Hev : evolve w0 w') by (by transitivity w). pose proof (same_log w0 w' p Hi' Hev He ltac:(lia)) as Hlog.
    destruct (kept_live s p m w' c (txn_tidy txn) kept Hi') as [Hndk Hk]; [by apply (cache_rep_evolve _ _ _ _ w0)|done|by apply (tidy_rep_evolve w)|done|].
    apply (commit_write_ok w0 w' schema); [done|lia|done| |done|done|done|by apply (named_later w0 w)|done|done].
    intros d bs Hd. rewrite He, Hlog. assert (Hdw : d ∈ fst <$> txn_writes txn) by (rewrite <- (formed_keys _ _ _ _ Hform); apply list_elem_of_fmap; by exists (d, bs)).
    apply list_elem_of_fmap in Hdw as ([d' tw] & -> & Hdw). by eapply Hreg.
  - intros w' w'' Hi' Hev' He Htx Hup'' _ Hi'' Hev''. apply HOk; [done|done|lia| |].
    + intros d. rewrite Htx, <- Hrows. apply (payload_commit w' w0); [done|lia|done|by apply (named_later w0 w)].
    + intros Hempty d b Hc. rewrite Htx, Hempty in Hc. apply elem_of_app in Hc as [Hc|(r & ? & _)%list_elem_of_fmap]; [|done]. apply (commit_below w' d t b Hi') in Hc. lia.
  - intros w' cur Hi' Hev' Hcur Hlt. apply HErr; [done..|]. split; [apply Hlt; lia|done].
Qed.

(** What the outcome of a commit at [t] says; [R] are the rows of the
    transaction. *)
Definition commit_post w schema t (R : ShardId -> list (Row * Z * Z)) (tidy : Tidy) (x : result TxnApply Z * Txn Row * TxnsHandle) w' : Prop :=
  Inv w' /\ evolve w w' /\ handle_ok schema w' x.2 /\ txn_tidy x.1.2 = tidy /\
  match x.1.1 with
  | Ok a => t < txns_upper w' /\ (forall d, payload (txns w') d t = R d) /\ txn_writes x.1.2 = [] /\ apply_commit_ts a = t /\
      (is_empty a = true -> forall d b, ~ committed (txns w') d t b)
  | Err u => t < u <= txns_upper w' /\ txn_ok schema x.1.2 /\ forall d, rows_of t x.1.2 d = R d
  end.

Lemma commit_loop_wp i n schema txn h t u w : Inv w -> handle_ok schema w h -> u <= txns_upper w -> enough n t u -> txn_ok schema txn -> tidy_rep w (txn_tidy txn) ->
  wp true i (commit_loop soft false fuel n txn h t u) w (commit_post w schema t (rows_of t txn) (txn_tidy txn)).
Proof.
  revert txn h u w. induction n as [|n IH]; intros txn h u w Hinv [(s & p & m & Hr) Hws] Hu Hn Htxn Htidy; [by destruct Hn|].
  cbn [commit_loop]. pose proof (upper_bound w Hinv). apply wp_bind. eapply update_ge_wp; [done|done|done|lia|]. intros w1 c1 p1 Hi1 Hev1 Hr1 _ Hup.
  destruct (cr_progress _ _ _ _ _ _ Hr1) as [Hp1 _]. pose proof (cr_bounds _ _ _ _ _ _ Hr1) as Hb1. cbn zeta. rewrite Hp1.
  assert (Hh : forall w' h', Inv w' -> evolve w1 w' -> txns_cache h' = c1 -> writes_ok schema (data_write_for_commit h') -> handle_ok schema w' h').
  { intros w' h' Hi' Hev' Hc Hw. apply (handle_evolve schema w1); [done..|]. by eapply handle_intro. }
  destruct (Z.ltb_spec t p1); [cbn [wp]; unfold commit_post; cbn [fst snd]; split_and!; try done; [by apply Hh|lia]|].
  apply wp_bind, wp_panics; [done|]. intros [] Hreg. pose proof (asserts_all (fun d => TxnsCacheState.registered_at_progress (state c1) d p1) _ Hreg) as Hasrt.
  apply wp_bind, (write_batches_wp i _ schema); [done|done|]. intros w2 h2 dws rest Hi2 Hev2 Hh2 Hw2 Hdws Hform Hnamed. apply wp_bind, wp_panics; [done|]. intros kept Hkept.
  apply wp_bind, wp_panics; [done|]. intros new Hnew. assert (Htm : t < u64_max /\ new = t + 1).
  { unfold step_forward in Hnew. destruct (Z.ltb_spec t u64_max); [|done]. by injection Hnew as <-. }
  destruct Htm as [Htm ->]. pose proof (ev_upper _ _ Hev2). assert (Hevw2 : evolve w w2) by (by transitivity w1).
  apply wp_bind. apply (commit_caa_wp true i s p1 m w1 w2 c1 schema t txn rest kept); [done|done|done|done|done|done|done| |by eapply tidy_rep_evolve|done|lia| |].
  - intros d tw Hd. destruct (cr_registered s p1 m w1 c1 d Hi1 Hr1) as (r & Hrr & Hreg'). apply Hreg'. rewrite (Hasrt d tw Hd) in Hrr. by injection Hrr.
  - intros w' Hi' Hev' Hup' Hpay Hno. assert (Hev : evolve w1 w') by (by transitivity w2). apply wp_bind, wp_panics; [done|]. intros h3 Hput. destruct (put_writes schema dws h2 h3 Hput Hdws Hw2) as [Hh3 Hw3].
    cbn [wp]. unfold commit_post. cbn [fst snd]. split_and!; try done; [by transitivity w1|by apply Hh; [..|rewrite Hh3, Hh2|]|].
    cbn [is_empty]. intros Hempty. apply Hno. by destruct (append_updates t rest).
  - intros w' cur Hi' Hev' Hcur. apply wp_bind. eapply (wp_lift _ _ _ tt). { by rewrite (proj2 (Z.ltb_lt _ _)) by lia. }
    apply wp_bind, wp_panics; [done|]. intros h3 Hput. destruct (put_writes schema dws h2 h3 Hput Hdws Hw2) as [Hh3 Hw3].
    assert (Hev : evolve w1 w') by (by transitivity w2). pose proof (upper_bound w' Hi').
    apply wp_bind. eapply update_ge_wp; [done|done|rewrite Hh3, Hh2; by apply (cache_rep_evolve _ _ _ _ w1)|lia|]. intros w4 c4 p4 Hi4 Hev4 Hr4 _ _.
    destruct (retry_ok schema t txn rest ltac:(lia) Htxn Hform) as [Htxn' Hrows']. pose proof (ev_upper _ _ Hev4). assert (Hevw : evolve w w4) by (transitivity w1; [done|]; by transitivity w').
    eapply wp_mono; [|apply IH; [done|by eapply handle_intro|lia|eapply enough_S; [done..|lia]|exact Htxn'|by eapply tidy_rep_evolve]].
    intros x w5 (Hi5 & Hev5 & Hh5 & Ht5 & Hpost). split_and!; [done|by transitivity w4|done|done|]. destruct x.1.1 as [a|u'].
    + destruct Hpost as (? & Hpay & ? & ? & ?). split_and!; try done. intros d. by rewrite Hpay, Hrows'.
    + destruct Hpost as (? & ? & Hro). split_and!; try done; [lia|lia|]. intros d. by rewrite Hro, Hrows'.
Qed.

Lemma commit_at_wp i schema txn h t w : Inv w -> handle_ok schema w h -> t <= u64_max -> txn_ok schema txn -> tidy_rep w (txn_tidy txn) ->
  wp true i (commit_at soft false fuel txn h t) w (commit_post w schema t (rows_of t txn) (txn_tidy txn)).
Proof.
  intros Hinv Hh Ht Htxn Htidy. unfold commit_at. apply wp_bind, wp_shared_upper. intros w1 u Hi1 Hev1 Hu. apply wp_bind. eapply wp_must; [done|].
  pose proof (inv_view _ Hinv i None). eapply wp_mono; [|apply commit_loop_wp; [done|by apply (handle_evolve schema w)|apply Hu| |done|by eapply tidy_rep_evolve]].
  - intros x w2 (? & ? & ?). split_and!; [done|by transitivity w1|tauto..].
  - unfold enough. unfold fuel_ok in Hfuel. change u64_max with 18446744073709551615 in *. lia.
Qed.
End commit.
