(* ===== verification/TxnClients.v ===== *)
(** * Clients of a txns shard

    Any number of processes that open the same txns shard and use it in any
    order: what they were told stays true, no matter how their calls to
    persist interleave and who crashes. *)

From S2P Require Import Prelude BTree Paths Blob TxnCache TxnCacheFacts TxnLog TxnFollow TxnQuery Txns TxnWorld TxnWorldFacts TxnLogic TxnSync TxnApplyFacts TxnRegister TxnReads TxnCommit.

Local Open Scope Z_scope.

(** ** What clients do *)

Inductive Cmd (Row : Type) :=
| CRegister (ts : Z) (data_writes : list (ShardId * N))
| CForget (ts : Z) (data_ids : list ShardId)
| CForgetAll (ts : Z)
| CCommit (txn : Txn Row) (ts : Z)
| CApply (ts : Z)
| CCompact (ts : Z)
| CRead (data_id : ShardId) (as_of : Z).
Arguments CRegister {Row} ts data_writes.
Arguments CForget {Row} ts data_ids.
Arguments CForgetAll {Row} ts.
Arguments CCommit {Row} txn ts.
Arguments CApply {Row} ts.
Arguments CCompact {Row} ts.
Arguments CRead {Row} data_id as_of.

Inductive Answer (Row : Type) :=
| AUnit (r : result unit Z)
| ACommit (r : result TxnApply Z)
| ARead (r : result (list (Row * Z * Z)) Z).
Arguments AUnit {Row} r.
Arguments ACommit {Row} r.
Arguments ARead {Row} r.

Section clients.
Context {Row : Type} `{EqDecision Row} `{UuidCodec} `{IdBatchLaws Row} `{ConsolidateLaws} (soft ensure : bool) (fuel : nat) (schema : ShardId -> N).
Implicit Types (w : World Row) (d : ShardId) (i : nat) (cmd : Cmd Row).

(** A client keeps what it may retract for its next transaction. *)
Definition run_cmd (h : TxnsHandle) (tidy : Tidy) cmd : Prog Row (Answer Row * TxnsHandle * Tidy) :=
  match cmd with
  | CRegister ts ds => do (res, h) := register soft false ensure fuel h ts ds in
      match res with Ok t => Done (AUnit (Ok tt), h, Tidy_merge tidy t) | Err u => Done (AUnit (Err u), h, tidy) end
  | CForget ts ds => do (res, h) := forget soft false ensure fuel h ts ds in
      match res with Ok t => Done (AUnit (Ok tt), h, Tidy_merge tidy t) | Err u => Done (AUnit (Err u), h, tidy) end
  | CForgetAll ts => do (res, h) := forget_all soft false ensure fuel h ts in
      match res with Ok (_, t) => Done (AUnit (Ok tt), h, Tidy_merge tidy t) | Err u => Done (AUnit (Err u), h, tidy) end
  | CCommit txn ts => do (res, txn, h) := commit_at soft false fuel (Txn.tidy txn tidy) h ts in
      match res with Ok a => Done (ACommit (Ok a), h, []) | Err u => Done (ACommit (Err u), h, fst (Txn.take_tidy txn)) end
  | CApply ts => do (t, h) := apply_le soft false ensure fuel h ts in Done (AUnit (Ok tt), h, Tidy_merge tidy t)
  | CCompact ts => do h := compact_to soft false fuel h ts in Done (AUnit (Ok tt), h, tidy)
  | CRead d as_of => do (res, c) := read_at soft false fuel (txns_cache h) d as_of in Done (ARead res, with_cache h c, tidy)
  end%prog.

Fixpoint run_cmds (h : TxnsHandle) (tidy : Tidy) (cmds : list (Cmd Row)) : Prog Row (list (Cmd Row * Answer Row)) :=
  match cmds with
  | [] => Done []
  | cmd :: cmds => (do (a, h, tidy) := run_cmd h tidy cmd in do l := run_cmds h tidy cmds in Done ((cmd, a) :: l))%prog
  end.

Definition client (script : Z * list (Cmd Row)) : Prog Row (list (Cmd Row * Answer Row)) :=
  (do h := open soft false fuel script.1 in run_cmds h [] script.2)%prog.

(** Which commands a client may give. *)
Definition cmd_ok cmd : Prop :=
  match cmd with
  | CRegister ts dws => ts < u64_max /\ NoDup (fst <$> dws) /\ Forall (fun x => x.2 = schema x.1) dws
  | CForget ts ds => ts < u64_max /\ NoDup ds
  | CForgetAll ts => ts < u64_max
  | CCommit txn ts => ts <= u64_max /\ txn_ok schema txn /\ txn_tidy txn = []
  | CApply ts | CCompact ts => ts <= u64_max
  | CRead _ as_of => 0 <= as_of <= u64_max
  end.
Definition is_commit cmd : bool := match cmd with CCommit _ _ => true | _ => false end.
Definition script_ok (script : Z * list (Cmd Row)) : Prop := script.1 < u64_max /\ Forall cmd_ok script.2.

(** ** What the answers promise *)

Definition answer_ok w cmd (a : Answer Row) : Prop :=
  match cmd, a with
  | CRegister ts dws, AUnit (Ok _) => ts < txns_upper w /\ (forall d, d ∈ fst <$> dws -> registered_before (txns w) (ts + 1) d) /\ settled w (ts + 1)
  | CForget ts ds, AUnit (Ok _) => ts < txns_upper w /\ (forall d, d ∈ ds -> ~ registered_before (txns w) (ts + 1) d) /\ settled w (ts + 1)
  | CForgetAll ts, AUnit (Ok _) => ts < txns_upper w /\ (forall d, ~ registered_before (txns w) (ts + 1) d) /\ settled w (ts + 1)
  | CRegister ts _, AUnit (Err u) | CForget ts _, AUnit (Err u) | CForgetAll ts, AUnit (Err u) => ts < u <= txns_upper w
  | CCommit txn ts, ACommit (Ok a) => ts < txns_upper w /\ (forall d, payload (txns w) d ts = rows_of ts txn d) /\ apply_commit_ts a = ts
  | CCommit _ ts, ACommit (Err u) => ts < u <= txns_upper w
  | CApply ts, AUnit (Ok _) => ts < txns_upper w /\ settled w (ts + 1)
  | CCompact _, AUnit (Ok _) => True
  | CRead d as_of, ARead (Ok rows) => read_ok w d as_of rows
  | CRead d as_of, ARead (Err since) => as_of < since <= data_since w d
  | _, _ => False
  end.

Lemma payload_evolve w w' d t : Inv w' -> evolve w w' -> t < txns_upper w -> payload (Row := Row) (txns w') d t = payload (txns w) d t.
Proof.
  intros Hinv [(us & Hus & Hnew)] Ht. pose proof (inv_log _ Hinv) as Hl. rewrite Hus in Hl |- *. apply payload_ext; [done|]. intros u Hu%Hnew. lia.
Qed.

Lemma answer_evolve w w' cmd a : Inv w' -> evolve w w' -> answer_ok w cmd a -> answer_ok w' cmd a.
Proof.
  intros Hi' Hev. pose proof (ev_upper _ _ Hev). destruct cmd as [ts ds|ts ds|ts|txn ts|ts|ts|d as_of], a as [[[]|u]|[x|u]|[rows|u]]; simpl; try done; try lia.
  - intros (? & Hreg & Hset). split_and!; [lia| |by apply (settled_evolve w); [|lia|]]. intros d Hd. apply (registered_evolve w w'); [done|done|lia|by apply Hreg].
  - intros (? & Hreg & Hset). split_and!; [lia| |by apply (settled_evolve w); [|lia|]]. intros d Hd. rewrite (registered_evolve w w') by (try done; lia). by apply Hreg.
  - intros (? & Hreg & Hset). split_and!; [lia| |by apply (settled_evolve w); [|lia|]]. intros d. rewrite (registered_evolve w w') by (try done; lia). by apply Hreg.
  - intros (? & Hpay & ?). split_and!; [lia| |done]. intros d. by rewrite (payload_evolve w w').
  - intros (? & Hset). split; [lia|]. by apply (settled_evolve w); [|lia|].
  - by apply read_evolve.
  - pose proof (ev_data_since _ _ Hev d). lia.
Qed.

(** ** Every client *)

Context (Hfuel : fuel_ok fuel).

Lemma run_cmd_wp pk i h tidy cmd w (Q : Answer Row * TxnsHandle * Tidy -> World Row -> Prop) : Inv w -> handle_ok schema w h -> tidy_rep w tidy -> cmd_ok cmd ->
  (is_commit cmd = true -> pk = true) ->
  (forall w' a h' tidy', Inv w' -> evolve w w' -> handle_ok schema w' h' -> tidy_rep w' tidy' -> answer_ok w' cmd a -> Q (a, h', tidy') w') ->
  wp pk i (run_cmd h tidy cmd) w Q.
Proof.
  intros Hinv Hh Ht Hok Hpk HQ.
  assert (Hmerge : forall w' t, evolve w w' -> tidy_rep w' t -> tidy_rep w' (Tidy_merge tidy t)) by (intros w' t ? [_ ?]; apply tidy_merge_rep; [by eapply tidy_rep_evolve|done]).
  destruct cmd as [ts ds|ts ds|ts|txn ts|ts|ts|d as_of]; cbn [run_cmd cmd_ok answer_ok] in *; apply wp_bind.
  - destruct Hok as (? & ? & ?). apply (register_wp soft ensure fuel Hfuel schema); [done..| |]; intros; cbn [wp]; apply HQ; try done; [by apply Hmerge|by eapply tidy_rep_evolve].
  - destruct Hok. apply (forget_wp soft ensure fuel Hfuel schema); [done..| |]; intros; cbn [wp]; apply HQ; try done; [by apply Hmerge|by eapply tidy_rep_evolve].
  - apply (forget_all_wp soft ensure fuel Hfuel schema); [done..| |]; intros; cbn [wp]; apply HQ; try done; [by apply Hmerge|by eapply tidy_rep_evolve].
  - rewrite (Hpk eq_refl). destruct Hok as (Hts & Htxn & Hnil).
    assert (Htid : tidy_rep w (txn_tidy (Txn.tidy txn tidy))) by (simpl; rewrite Hnil; apply tidy_merge_rep; [apply tidy_rep_nil|apply Ht]).
    eapply wp_mono; [|apply commit_at_wp; [done|done|done|done|exact Htxn|exact Htid]].
    intros [[[a|u] txn'] h'] w' (Hi' & Hev' & Hh' & Ht' & Hpost); cbn [fst snd] in *; cbn [wp].
    + apply HQ; [done|done|done|apply tidy_rep_nil|]. destruct Hpost as (? & ? & _ & ? & _). done.
    + apply HQ; [done|done|done| |by destruct Hpost]. simpl. rewrite Ht'. by eapply tidy_rep_evolve.
  - apply (apply_le_ok soft ensure fuel Hfuel schema); [done..|]. intros. cbn [wp]. apply HQ; try done. by apply Hmerge.
  - apply (compact_to_wp soft fuel Hfuel schema); [done..|]. intros. cbn [wp]. apply HQ; try done. by eapply tidy_rep_evolve.
  - destruct Hh as [(s & p & m & Hr) Hws]. eapply read_at_wp; [done|done|done|done|done| |]; intros; cbn [wp]; apply HQ; try done; by eapply tidy_rep_evolve.
Qed.

Definition answers_ok (cmds : list (Cmd Row)) (l : list (Cmd Row * Answer Row)) w : Prop :=
  fst <$> l = cmds /\ Forall (fun x => answer_ok w x.1 x.2) l.

Lemma answers_stable cmds : stable (answers_ok cmds).
Proof.
  intros l w w' Hi' Hev [Hl Hall]. split; [done|]. eapply Forall_impl; [exact Hall|]. intros x. by apply answer_evolve.
Qed.

Lemma run_cmds_wp pk i h tidy cmds w : Inv w -> handle_ok schema w h -> tidy_rep w tidy -> Forall cmd_ok cmds -> (existsb is_commit cmds = true -> pk = true) ->
  wp pk i (run_cmds h tidy cmds) w (answers_ok cmds).
Proof.
  revert h tidy w. induction cmds as [|cmd cmds IH]; intros h tidy w Hinv Hh Ht Hok Hpk; cbn [run_cmds]; [by split|].
  apply Forall_cons in Hok as [Hc Hok]. simpl in Hpk. apply wp_bind, run_cmd_wp; try done; [intros E; apply Hpk; by rewrite E|].
  intros w1 a h1 tidy1 Hi1 Hev1 Hh1 Ht1 Ha. apply wp_bind. eapply wp_later; [done| |apply IH; try done; intros E; apply Hpk; rewrite E; apply orb_true_r].
  intros l w2 Hi2 Hev2 [Hl Hall]. cbn [wp]. split; [by rewrite fmap_cons, Hl|]. constructor; [|done]. by eapply answer_evolve.
Qed.

Lemma client_wp pk i script w : Inv w -> script_ok script -> (existsb is_commit script.2 = true -> pk = true) ->
  wp pk i (client script) w (answers_ok script.2).
Proof.
  intros Hinv [Ht Hok] Hpk. unfold client. apply wp_bind, (open_wp soft fuel Hfuel schema); [done..|]. intros w1 h Hi1 Hev1 Hh _. apply run_cmds_wp; [done|done|apply tidy_rep_nil|done|done].
Qed.

(** The beginning: a txns shard and data shards that nobody has written. *)
Definition initial : World Row := {|
  txns := []; txns_upper := 0; txns_since := 0; data := fun _ => []; data_upper := fun _ => 0; data_since := fun _ => 0; ids := []; view := fun _ _ => 0 |}.

Lemma initial_inv : Inv initial.
Proof.
  split; simpl; try done.
  - constructor.
  - by intros u ?%not_elem_of_nil.
  - by intros d u ?%not_elem_of_nil.
  - intros i sh. by destruct sh.
  - by intros d t b ?%not_elem_of_nil.
  - intros d t. exists 0%N. by intros b ?%not_elem_of_nil.
  - by intros d t b p (? & _ & ?%not_elem_of_nil).
  - by intros d ts t b [k ?%not_elem_of_nil].
  - by intros d t b ?%not_elem_of_nil.
  - by intros d ts [k ?%not_elem_of_nil].
Qed.

(** What is true whenever clients run.  Only commits may panic. *)
Definition may_panic (scripts : list (Z * list (Cmd Row))) i : bool :=
  match scripts !! i with Some script => existsb is_commit script.2 | None => false end.

Lemma clients_pool scripts ps w : Forall script_ok scripts -> rtc pool_step (client <$> scripts, initial) (ps, w) ->
  Inv w /\ forall i p, ps !! i = Some p -> wp (may_panic scripts i) i p w (fun l w => forall script, scripts !! i = Some script -> answers_ok script.2 l w).
Proof.
  intros Hok Hrtc. set (Q := fun i l w => forall script, scripts !! i = Some script -> answers_ok script.2 l w).
  destruct (pool_inv (may_panic scripts) Q (client <$> scripts) initial ps w) as (Hinv & _ & Hps).
  - intros i l w1 w2 Hi2 Hev Hq script Hs. eapply answers_stable; [done..|by apply Hq].
  - apply initial_inv.
  - intros i p Hp. rewrite list_lookup_fmap in Hp. destruct (scripts !! i) as [script|] eqn:E; [|done]. injection Hp as <-.
    eapply wp_mono; [|apply client_wp; [apply initial_inv| |]].
    + intros l w1 Hl script' Hs'. rewrite E in Hs'. by injection Hs' as <-.
    + by apply (Forall_lookup_1 _ _ _ _ Hok E).
    + unfold may_panic. by rewrite E.
  - done.
  - done.
Qed.

Lemma clients_wp scripts ps w : Forall script_ok scripts -> rtc pool_step (client <$> scripts, initial) (ps, w) ->
  Inv w /\ forall i p script, ps !! i = Some p -> scripts !! i = Some script -> wp (existsb is_commit script.2) i p w (answers_ok script.2).
Proof.
  intros Hok Hrtc. destruct (clients_pool scripts ps w Hok Hrtc) as [Hinv Hps]. split; [done|]. intros i p script Hp Hs.
  specialize (Hps i p Hp). unfold may_panic in Hps. rewrite Hs in Hps. eapply wp_mono; [|exact Hps]. intros l w' Hq. by apply Hq.
Qed.

(** Every client that has finished was told the truth. *)
Lemma clients_told scripts ps w i script l : Forall script_ok scripts -> rtc pool_step (client <$> scripts, initial) (ps, w) ->
  scripts !! i = Some script -> ps !! i = Some (Done l) -> Inv w /\ answers_ok script.2 l w.
Proof. intros Hok Hrtc Hs Hp. destruct (clients_wp scripts ps w Hok Hrtc) as [Hinv Hall]. split; [done|]. by apply (Hall i (Done l) script). Qed.

Lemma client_answer scripts ps w i script l cmd a : Forall script_ok scripts -> rtc pool_step (client <$> scripts, initial) (ps, w) ->
  scripts !! i = Some script -> ps !! i = Some (Done l) -> (cmd, a) ∈ l -> Inv w /\ answer_ok w cmd a.
Proof.
  intros Hok Hrtc Hs Hp Hin. destruct (clients_told scripts ps w i script l Hok Hrtc Hs Hp) as [Hinv [_ Hall]]. split; [done|].
  by apply (proj1 (Forall_forall _ _) Hall) in Hin.
Qed.

(** ** Totals *)

Lemma sum_app l1 l2 : sumZ (l1 ++ l2) = sumZ l1 + sumZ l2.
Proof. induction l1 as [|z l1 IH]; [done|]. simpl. rewrite IH. lia. Qed.

Lemma row_total_app x (us vs : list (Row * Z * Z)) : row_total x (us ++ vs) = row_total x us + row_total x vs.
Proof.
  unfold row_total. by rewrite filter_app, fmap_app, sum_app.
Qed.

Lemma row_total_cons x u (us : list (Row * Z * Z)) : row_total x (u :: us) = (if decide (u.1.1 = x) then u.2 else 0) + row_total x us.
Proof. unfold row_total. rewrite filter_cons. by case_decide. Qed.

Lemma row_total_perm x (us vs : list (Row * Z * Z)) : us ≡ₚ vs -> row_total x us = row_total x vs.
Proof. induction 1 as [|u us vs _ IH|u v us|us vs zs _ IH1 _ IH2]; [done| | |congruence]; rewrite !row_total_cons; lia. Qed.

Lemma row_total_split x (P Q R : Row * Z * Z -> Prop) `{!forall u, Decision (P u)} `{!forall u, Decision (Q u)} `{!forall u, Decision (R u)} us :
  (forall u, P u <-> Q u \/ R u) -> (forall u, Q u -> ~ R u) -> row_total x (filter P us) = row_total x (filter Q us) + row_total x (filter R us).
Proof.
  intros HP HQ. induction us as [|u us IH]; [done|]. rewrite !filter_cons. specialize (HP u). specialize (HQ u).
  destruct (decide (P u)), (decide (Q u)), (decide (R u)); try tauto; rewrite ?row_total_cons; lia.
Qed.

(** The contents, time by time. *)
Lemma totals_by_time x (us : list (Row * Z * Z)) r n : 0 <= n ->
  row_total x (filter (fun u => u.1.2 <= r + n - 1) us) =
  row_total x (filter (fun u => u.1.2 < r) us) + sumZ ((fun t => row_total x (filter (fun u => u.1.2 = t) us)) <$> seqZ r n).
Proof.
  revert n. apply natlike_ind; [|intros n Hn IH].
  - rewrite Z.add_0_r. cbn. rewrite Z.add_0_r. f_equal. apply list_filter_iff. intros. lia.
  - rewrite (row_total_split x _ (fun u => u.1.2 <= r + n - 1) (fun u => u.1.2 = r + n)) by (intros; lia). rewrite IH.
    rewrite <- Z.add_1_r, seqZ_app, fmap_app, sum_app by lia. simpl. change (Z.of_nat 0 + (r + n)) with (r + n). lia.
Qed.

(** What a read adds up to, while the shard was registered. *)
Lemma read_totals w d as_of rows r x : Inv w -> read_ok w d as_of rows -> r <= as_of + 1 -> (forall t, r <= t <= as_of -> in_txns (txns w) d t) ->
  row_total x rows = row_total x (filter (fun u => u.1.2 < r) (data w d)) + sumZ ((fun t => row_total x (payload (txns w) d t)) <$> seqZ r (as_of + 1 - r)).
Proof.
  intros Hinv (Ha & _ & Hrow) Hr Hin. rewrite Hrow. unfold as_of_contents. pose proof (totals_by_time x (data w d) r (as_of + 1 - r) ltac:(lia)) as Ht.
  replace (r + (as_of + 1 - r) - 1) with as_of in Ht by lia. rewrite Ht. do 2 f_equal. apply list_fmap_ext. intros j t [Hj Hlt]%lookup_seqZ. subst t.
  apply row_total_perm, (inv_contents _ Hinv); [unfold applied in *; lia|apply Hin; lia].
Qed.

Lemma payload_in_txns w d t : Inv w -> payload (Row := Row) (txns w) d t <> [] -> in_txns (txns w) d t.
Proof.
  intros Hinv Hp. left. destruct (batches_at (txns w) d t) as [|b bs] eqn:E; [unfold payload in Hp; by rewrite E in Hp|].
  assert (Hb : b ∈ batches_at (txns w) d t) by (rewrite E; by constructor). apply elem_of_batches_at in Hb as [t' Hb].
  apply (log_committed _ _ _ _ _ _ (inv_log _ Hinv)) in Hb. by destruct (log_regs _ (inv_log _ Hinv) d) as (_ & _ & [? _]%(fun H => H t b Hb)).
Qed.

(** A commit in a read. *)
Lemma read_commit w d as_of rows t R x : Inv w -> read_ok w d as_of rows -> t <= as_of -> payload (txns w) d t = R -> R <> [] ->
  row_total x rows = row_total x R + row_total x (filter (fun u => u.1.2 <> t) (as_of_contents w d as_of)).
Proof.
  intros Hinv (Ha & _ & Hrow) Ht Hpay Hne. rewrite Hrow. unfold as_of_contents. rewrite list_filter_filter.
  rewrite (row_total_split x _ (fun u => u.1.2 = t) (fun u => u.1.2 <> t /\ u.1.2 <= as_of)) by (intros; lia). f_equal. rewrite <- Hpay.
  apply row_total_perm, (inv_contents _ Hinv); [unfold applied in *; lia|]. apply payload_in_txns; [done|]. by rewrite Hpay.
Qed.
End clients.
