(* ===== verification/TxnBuild.v ===== *)
(** * Building transactions (txn-wal/src/txn_write.rs)

    [Txn::write], [Txn::write_batch] and [Txn::merge] collect rows: what a
    transaction holds for a shard is the multiset of what was written to it. *)

From S2P Require Import Prelude BTree Paths Blob TxnCache TxnCacheFacts Txns TxnWorld TxnCommit.

Local Open Scope Z_scope.

Section build.
Context {Row : Type}.
Implicit Types (self other : Txn Row) (d : ShardId) (t : Z) (schema : ShardId -> N).

Lemma rows_default t : txn_rows t (TxnWrite_default (Row := Row)) = [].
Proof. done. Qed.

Lemma rows_default_of t self d : txn_rows t (default TxnWrite_default (BTree.get d (txn_writes self))) = rows_of t self d.
Proof. unfold rows_of. by destruct (BTree.get d (txn_writes self)). Qed.

Lemma rows_entry t self d f d' : rows_of t (Txn.entry self d f) d' =
  if decide (d' = d) then txn_rows t (f (default TxnWrite_default (BTree.get d (txn_writes self)))) else rows_of t self d'.
Proof. unfold rows_of, Txn.entry. simpl. destruct (decide (d' = d)) as [->|]; [by rewrite BTree.get_insert_eq|by rewrite BTree.get_insert_ne]. Qed.

Lemma entry_ok schema self d f : txn_ok schema self -> (forall tw, write_good (schema d) tw -> write_good (schema d) (f tw)) -> txn_ok schema (Txn.entry self d f).
Proof.
  intros [Hs Hg] Hf. split; [by apply BTree.sorted_insert|]. intros d' tw [[= -> ->]|Hin]%BTree.elem_of_insert; [|by apply Hg]. apply Hf.
  destruct (BTree.get d (txn_writes self)) as [tw|] eqn:E; [|split; constructor]. apply Hg. by apply BTree.elem_of_get.
Qed.

Lemma rows_merge t (a b : TxnWrite Row) : txn_rows t (TxnWrite_merge a b) ≡ₚ txn_rows t a ++ txn_rows t b.
Proof. unfold txn_rows, TxnWrite_merge. simpl. rewrite !fmap_app, !join_app. solve_Permutation. Qed.

Lemma merge_good sc (a b : TxnWrite Row) : write_good sc a -> write_good sc b -> write_good sc (TxnWrite_merge a b).
Proof. intros [? ?] [? ?]. split; simpl; by apply Forall_app. Qed.

(** The writes of the other transaction, one shard at a time. *)
Lemma merge_writes schema t self ws : txn_ok schema self -> NoDup (fst <$> ws) -> (forall d tw, (d, tw) ∈ ws -> write_good (schema d) tw) ->
  let txn := foldl (fun self kv => Txn.entry self kv.1 (fun w => TxnWrite_merge w kv.2)) self ws in
  txn_ok schema txn /\ forall d, rows_of t txn d ≡ₚ rows_of t self d ++ match BTree.get d ws with Some tw => txn_rows t tw | None => [] end.
Proof.
  revert self. induction ws as [|[d0 tw] ws IH]; intros self Hok Hnd Hg; simpl; [split; [done|]; intros d; by rewrite app_nil_r|].
  rewrite fmap_cons, NoDup_cons in Hnd. destruct Hnd as [Hn Hnd].
  destruct (IH (Txn.entry self d0 (fun w => TxnWrite_merge w tw))) as [Hok' Hrows]; [|done|intros d tw' Hin; apply Hg; by constructor|].
  { apply entry_ok; [done|]. intros w Hw. apply merge_good; [done|]. apply Hg. by constructor. }
  split; [done|]. intros d. rewrite Hrows, rows_entry. case_decide as Hd; [subst d0|done]. rewrite rows_merge, rows_default_of.
  assert (BTree.get d ws = None) as ->; [|by rewrite app_nil_r]. destruct (BTree.get d ws) as [tw'|] eqn:E; [|done]. destruct Hn.
  apply BTree.elem_of_get in E. apply list_elem_of_fmap. by exists (d, tw').
Qed.

(** C27: a transaction holds what was written to it: [Txn::write] adds the row to
    its shard, [Txn::write_batch] the rows of the batch and [Txn::merge] the
    rows of the other transaction, shard by shard; every other shard keeps its
    rows, and each of them keeps the transaction fit to be committed. *)
Theorem txn_collects_writes schema t self : txn_ok schema self ->
  (forall d row k, txn_ok schema (Txn.write self d row k) /\
     forall d', rows_of t (Txn.write self d row k) d' ≡ₚ rows_of t self d' ++ if decide (d' = d) then [(row, t, k)] else []) /\
  (forall d b, staged_ok (schema d) b -> txn_ok schema (Txn.write_batch self d b) /\
     forall d', rows_of t (Txn.write_batch self d b) d' ≡ₚ rows_of t self d' ++ if decide (d' = d) then rows_at t b else []) /\
  (forall other, txn_ok schema other -> txn_ok schema (Txn.merge self other) /\
     forall d', rows_of t (Txn.merge self other) d' ≡ₚ rows_of t self d' ++ rows_of t other d').
Proof.
  intros Hok. split_and!.
  - intros d row k. split; [apply entry_ok; [done|]; by intros tw [? ?]|]. intros d'. unfold Txn.write. rewrite rows_entry. case_decide as Hd; [subst d'|by rewrite app_nil_r].
    rewrite <- rows_default_of. unfold txn_rows. simpl. rewrite fmap_app. simpl. solve_Permutation.
  - intros d b Hb. split; [apply entry_ok; [done|]; intros tw [? ?]; split; simpl; [by apply Forall_app; split; [|constructor]|done]|].
    intros d'. unfold Txn.write_batch. rewrite rows_entry. case_decide as Hd; [subst d'|by rewrite app_nil_r].
    rewrite <- rows_default_of. unfold txn_rows. simpl. rewrite fmap_app, join_app. simpl. rewrite app_nil_r. solve_Permutation.
  - intros other [Hs Hg]. destruct (merge_writes schema t self (txn_writes other) Hok (sorted_nodup _ Hs) Hg) as [Hm Hrows]. split; [exact Hm|]. intros d'. apply Hrows.
Qed.
End build.
