(* ===== verification/TxnCodec.v ===== *)
(** * The encoding of entries (txn-wal/src/lib.rs)

    [TxnsCodecDefault]: an entry is a key, the data shard, and a value, the
    batch followed by the eight bytes of the timestamp.  The value of a
    registration has the timestamp alone. *)

From Stdlib Require Import Ascii.
From S2P Require Import Prelude BTree Paths TxnCache.

Local Open Scope Z_scope.

(** [u64::to_le_bytes] and [u64::from_le_bytes] *)
Fixpoint le_bytes (n : nat) (z : Z) : str :=
  match n with
  | O => []
  | S n => ascii_of_N (Z.to_N (z mod 256)) :: le_bytes n (z / 256)
  end.
Definition u64_encode (ts : Z) : str := le_bytes 8 ts.
Definition u64_decode (buf : str) : Z := foldr (fun c acc => Z.of_N (N_of_ascii c) + 256 * acc) 0 buf.

Module TxnsCodecDefault.
Definition encode (e : TxnsEntry) : ShardId * str :=
  match e with
  | Register data_id ts => (data_id, u64_encode ts)
  | Append data_id ts batch => (data_id, batch ++ u64_encode ts)
  end.

Definition decode (key : ShardId) (val : str) : outcome TxnsEntry :=
  let! _ := assert_ (bool_decide (8 <= length val)%nat) in
  let ts_idx := (length val - 8)%nat in
  let ts := u64_decode (drop ts_idx val) in
  match take ts_idx val with
  | [] => Ret (Register key ts)
  | batch => Ret (Append key ts batch)
  end.
End TxnsCodecDefault.

Lemma length_le_bytes n z : length (le_bytes n z) = n.
Proof. revert z. induction n as [|n IH]; intros z; [done|]. simpl. by rewrite IH. Qed.

Lemma N_of_ascii_bound c : (N_of_ascii c < 256)%N.
Proof. apply N_ascii_bounded. Qed.

Lemma le_decode n z : 0 <= z < 256 ^ Z.of_nat n -> u64_decode (le_bytes n z) = z.
Proof.
  revert z. induction n as [|n IH]; intros z Hz; [simpl in *; lia|]. cbn [le_bytes u64_decode foldr]. fold (u64_decode (le_bytes n (z / 256))).
  rewrite Nat2Z.inj_succ, Z.pow_succ_r in Hz by lia. rewrite IH by (split; [apply Z.div_pos; lia|apply Z.div_lt_upper_bound; lia]).
  rewrite N_ascii_embedding by (pose proof (Z.mod_pos_bound z 256 ltac:(lia)); lia). rewrite Z2N.id by (apply Z.mod_pos_bound; lia).
  pose proof (Z.div_mod z 256 ltac:(lia)). lia.
Qed.

Lemma decode_le buf : le_bytes (length buf) (u64_decode buf) = buf /\ 0 <= u64_decode buf < 256 ^ Z.of_nat (length buf).
Proof.
  induction buf as [|c buf [IH Hb]]; [done|]. cbn [length le_bytes u64_decode foldr]. fold (u64_decode buf). pose proof (N_of_ascii_bound c).
  rewrite Nat2Z.inj_succ, Z.pow_succ_r by lia. split; [|lia].
  rewrite (Z.mul_comm 256), Z.mod_add, Z.mod_small, N2Z.id, ascii_N_embedding by lia. by rewrite Z.div_add, Z.div_small, Z.add_0_l, IH by lia.
Qed.

Lemma u64_bound z : 0 <= z <= u64_max -> 0 <= z < 256 ^ Z.of_nat 8.
Proof. change (256 ^ Z.of_nat 8) with (u64_max + 1). lia. Qed.

(** C26: decoding an encoded entry of the txns shard gives the entry back, if its
    timestamp is a [u64] and a batch is not empty, and every value of at least
    eight bytes is the encoding of exactly one such entry; shorter values panic. *)
Theorem txns_codec_roundtrip :
  (forall e, 0 <= entry_ts e <= u64_max -> (forall d ts b, e = Append d ts b -> b <> []) ->
     TxnsCodecDefault.decode (TxnsCodecDefault.encode e).1 (TxnsCodecDefault.encode e).2 = Ret e) /\
  (forall key val, match TxnsCodecDefault.decode key val with
     | Ret e => TxnsCodecDefault.encode e = (key, val) /\ 0 <= entry_ts e <= u64_max
     | Panic => (length val < 8)%nat end).
Proof.
  unfold TxnsCodecDefault.decode. split.
  - intros e Hts Hne. assert (Hgo : forall b, let val := b ++ u64_encode (entry_ts e) in
      (8 <= length val)%nat /\ take (length val - 8) val = b /\ u64_decode (drop (length val - 8) val) = entry_ts e).
    { intros b val. subst val. unfold u64_encode. rewrite length_app, length_le_bytes. replace (length b + 8 - 8)%nat with (length b) by lia.
      rewrite take_app_length, drop_app_length. split_and!; [lia|done|]. by apply le_decode, u64_bound. }
    destruct e as [d ts|d ts b]; cbn [TxnsCodecDefault.encode fst snd entry_ts] in *.
    + destruct (Hgo []) as (Hlen & Htk & Hdr). rewrite app_nil_l in *. rewrite bool_decide_true by done. cbn [assert_ obind]. by rewrite Htk, Hdr.
    + destruct (Hgo b) as (Hlen & Htk & Hdr). rewrite bool_decide_true by done. cbn [assert_ obind]. rewrite Htk, Hdr. destruct b; [by destruct (Hne d ts [])|done].
  - intros key val. case_bool_decide as Hlen; cbn [assert_ obind]; [|lia]. set (i := (length val - 8)%nat).
    assert (Hd : length (drop i val) = 8%nat) by (rewrite length_drop; lia). destruct (decode_le (drop i val)) as [Hle Hb]. rewrite Hd in Hle, Hb.
    change (256 ^ Z.of_nat 8) with (u64_max + 1) in Hb. pose proof (take_drop i val) as Htd.
    destruct (take i val) as [|c b] eqn:E; cbn [TxnsCodecDefault.encode entry_ts]; unfold u64_encode; rewrite Hle; (split; [by rewrite <- Htd at 2|lia]).
Qed.
