(* ===== verification/TxnExamples.v ===== *)
(** * A concrete txns shard

    Instances of what the model of txn-wal is parametric in, an interpreter
    that chooses an outcome for every call, and a run of two clients that
    register shards, commit to both of them and read them back. *)

From Stdlib Require Import Ascii.
From stdpp Require Import countable.
From S2P Require Import Prelude BTree Paths Blob TxnCache TxnCacheFacts TxnLog TxnFollow TxnQuery Txns TxnWorld TxnWorldFacts TxnLogic TxnSync TxnApplyFacts TxnRegister TxnReads TxnCommit TxnClients Examples.

Local Open Scope Z_scope.

(** ** Third-party code *)

(** Batches are written as the bits of a number. *)
Fixpoint pos_bits (p : positive) : str :=
  match p with xH => [] | xO p => "0"%char :: pos_bits p | xI p => "1"%char :: pos_bits p end.
Fixpoint bits_pos (s : str) : positive :=
  match s with [] => xH | c :: s => if bool_decide (c = "1"%char) then xI (bits_pos s) else xO (bits_pos s) end.

Lemma bits_pos_bits p : bits_pos (pos_bits p) = p.
Proof. induction p as [p IH|p IH|]; simpl; [by rewrite IH..|done]. Qed.

Definition tuple_of (b : TBatch Z) := (tb_lower b, tb_upper b, tb_rewrite b, tb_schemas b, tb_updates b).

Definition tx_parse (s : str) : TBatch Z :=
  match decode (A := N * (Z * Z * option Z * list N * list (Z * Z * Z))) (bits_pos s) with
  | Some (_, (lo, up, rw, sc, us)) => {| tb_lower := lo; tb_upper := up; tb_rewrite := rw; tb_schemas := sc; tb_updates := us |}
  | None => {| tb_lower := 0; tb_upper := 0; tb_rewrite := None; tb_schemas := []; tb_updates := [] |}
  end.

#[export] Instance tx_codec : IdBatchCodec Z := {| encode_batch id b := pos_bits (encode (id, tuple_of b)); parse_batch := tx_parse |}.

#[export] Instance tx_codec_laws : IdBatchLaws Z.
Proof.
  split.
  - intros id [lo up rw sc us]. unfold parse_batch, encode_batch, tx_codec, tx_parse. by rewrite bits_pos_bits, decode_encode.
  - intros id id' b b' He. unfold encode_batch, tx_codec in He. apply (f_equal bits_pos) in He. rewrite !bits_pos_bits in He. apply (inj encode) in He. by injection He.
Qed.

(** Consolidation: the sums by entry and time, in the order of time. *)
Fixpoint insert_time (k : TxnsEntry * Z) (l : list (TxnsEntry * Z)) : list (TxnsEntry * Z) :=
  match l with [] => [k] | k' :: l' => if k.2 <=? k'.2 then k :: l else k' :: insert_time k l' end.

#[export] Instance tx_consolidate : Consolidate := {|
  consolidate_updates l :=
    filter (fun u => u.2 <> 0) ((fun k => (k, total k.1 k.2 l)) <$> foldr insert_time [] (remove_dups (fst <$> l))) |}.

Lemma insert_time_perm k l : insert_time k l ≡ₚ k :: l.
Proof. induction l as [|k' l IH]; [done|]. simpl. case_match; [done|]. rewrite IH. apply Permutation_swap. Qed.

Lemma sort_time_perm l : foldr insert_time [] l ≡ₚ l.
Proof. induction l as [|k l IH]; [done|]. simpl. by rewrite insert_time_perm, IH. Qed.

Lemma insert_time_sorted k l : StronglySorted (fun x y : TxnsEntry * Z => x.2 <= y.2) l -> StronglySorted (fun x y => x.2 <= y.2) (insert_time k l).
Proof.
  induction 1 as [|k' l Hs IH Hall]; [repeat constructor|]. simpl. destruct (Z.leb_spec k.2 k'.2).
  - constructor; [by constructor|]. constructor; [done|]. eapply Forall_impl; [exact Hall|]. simpl. intros. lia.
  - constructor; [done|]. rewrite insert_time_perm. constructor; [lia|done].
Qed.

Lemma sort_time_sorted l : StronglySorted (fun x y : TxnsEntry * Z => x.2 <= y.2) (foldr insert_time [] l).
Proof. induction l as [|k l IH]; [constructor|]. by apply insert_time_sorted. Qed.

Lemma total_absent e t l : (e, t) ∉ fst <$> l -> total e t l = 0.
Proof.
  induction l as [|u l IH]; [done|]. rewrite fmap_cons, not_elem_of_cons. intros [Hne Hn]. rewrite total_cons, IH, decide_False by (try done; congruence). lia.
Qed.

Lemma total_keys e t l ks : NoDup ks -> total e t (filter (fun u => u.2 <> 0) ((fun k => (k, total k.1 k.2 l)) <$> ks)) = if decide ((e, t) ∈ ks) then total e t l else 0.
Proof.
  induction 1 as [|k ks Hn Hnd IH]; [done|]. rewrite fmap_cons, filter_cons. simpl. destruct (decide (k = (e, t))) as [->|Hne].
  - simpl. rewrite (decide_True (P := (e, t) ∈ (e, t) :: ks)) by (by constructor). rewrite decide_False in IH by done.
    destruct (decide (total e t l <> 0)) as [|Hz%dec_stable]; [|by rewrite IH, Hz]. rewrite total_cons, IH, decide_True by done. simpl. lia.
  - assert (Hiff : (e, t) ∈ k :: ks <-> (e, t) ∈ ks) by (rewrite elem_of_cons; split; [intros [?|?]; [congruence|done]|by right]).
    rewrite (decide_ext _ _ _ _ Hiff), <- IH. destruct (decide (total k.1 k.2 l <> 0)); [|done]. rewrite total_cons, decide_False by done. lia.
Qed.

#[export] Instance tx_consolidate_laws : ConsolidateLaws.
Proof.
  assert (Hnd : forall l : list Update, NoDup (foldr insert_time [] (remove_dups (fst <$> l)))) by (intros l; rewrite sort_time_perm; apply NoDup_remove_dups).
  split; unfold consolidate_updates, tx_consolidate.
  - intros l e t. rewrite total_keys by apply Hnd. case_decide as Hin; [done|]. symmetry. apply total_absent. by rewrite sort_time_perm, elem_of_remove_dups in Hin.
  - intros l. eapply sublist_NoDup; [apply (Hnd l)|]. etransitivity; [apply fmap_sublist, sublist_filter|]. rewrite <- list_fmap_compose.
    unfold compose. simpl. by rewrite list_fmap_id.
  - by intros l u [? _]%list_elem_of_filter.
  - intros l c1 c2 e t t' k k' He Hin. pose proof (sort_time_sorted (remove_dups (fst <$> l))) as Hs.
    assert (Hs2 : StronglySorted (fun x y : Update => x.1.2 <= y.1.2) (c1 ++ (e, t, k) :: c2)).
    { rewrite <- He. clear -Hs. induction Hs as [|y ys Hs IH Hall]; [constructor|]. rewrite fmap_cons, filter_cons. case_decide; [|done]. constructor; [done|].
      apply Forall_forall. intros x [_ (z & -> & Hz)%list_elem_of_fmap]%list_elem_of_filter. by apply (proj1 (Forall_forall _ _) Hall). }
    apply StronglySorted_app in Hs2 as (_ & _ & Hs2). inversion Hs2 as [|? ? _ Hall]; subst. by apply (proj1 (Forall_forall _ _) Hall) in Hin.
Qed.

(** ** An interpreter of calls *)

Implicit Types (w : World Z) (d : ShardId) (i : nat).

Definition append_of i (sh : option ShardId) (valid : bool) (expected new : Z) w (done : World Z) : option (option (result unit (option Z)) * World Z) :=
  if valid && (expected <? new) && (view w i sh <=? upper_of w sh) then
    if expected =? upper_of w sh then Some (Some (Ok tt), set_view done i sh new)
    else Some (Some (Err (Some (upper_of w sh))), set_view w i sh (upper_of w sh))
  else None.

Lemma append_sound i sh valid (P : Prop) expected new w done r w' : (valid = true -> P) ->
  append_of i sh valid expected new w done = Some (r, w') -> append_step i sh P expected new w r w' done.
Proof.
  intros HP. unfold append_of. destruct (_ && _) eqn:E; [|done]. apply andb_true_iff in E as [[Hv Hlt%Z.ltb_lt]%andb_true_iff _].
  destruct (Z.eqb_spec expected (upper_of w sh)); intros [= <- <-]; right; [left|right]; by split_and!; [apply HP|..].
Qed.

Definition appendableb (expected new : Z) (b : TBatch Z) : bool :=
  (tb_lower b <=? expected) && (tb_upper b =? new) && match tb_rewrite b with Some r => expected <=? r | None => expected <=? tb_lower b end.

Lemma appendableb_sound expected new bs : forallb (appendableb expected new) bs = true -> Forall (appendable expected new) bs.
Proof.
  induction bs as [|b bs IH]; simpl; [constructor|]. intros [Hb Hbs]%andb_true_iff. constructor; [|by apply IH]. unfold appendableb in Hb.
  apply andb_true_iff in Hb as [[Hlo%Z.leb_le Hup%Z.eqb_eq]%andb_true_iff Hr]. split_and!; [done..|]. by destruct (tb_rewrite b); apply Z.leb_le.
Qed.

Definition times_in (expected new : Z) (us : list Update) : bool := forallb (fun u => (expected <=? u.1.2) && (u.1.2 <? new)) us.

Lemma times_in_sound expected new us : times_in expected new us = true -> Forall (fun u => expected <= u.1.2 < new) us.
Proof.
  unfold times_in. induction us as [|u us IH]; simpl; [constructor|]. intros [[Hlo%Z.leb_le Hhi%Z.ltb_lt]%andb_true_iff Hus]%andb_true_iff. constructor; [done|by apply IH].
Qed.

(** All updates in one part without statistics. *)
Definition whole_part (us : list Update) : list Part := [{| part_stats := None; part_updates := us |}].

Lemma whole_delivers s p q l : delivers_parts s p q l (whole_part (advance s <$> window p q l)).
Proof.
  split; [|repeat constructor; done]. unfold whole_part. cbn [fmap list_fmap part_updates mjoin list_join]. rewrite app_nil_r. intros e t. split; [done|]. intros []. done.
Qed.

Definition interp i {R} (e : Eff Z R) w : option (R * World Z) :=
  match e in Eff _ R return option (R * World Z) with
  | SharedUpper sh => if view w i sh <=? upper_of w sh then Some (Some (upper_of w sh), set_view w i sh (upper_of w sh)) else None
  | CompareAndAppend None us expected new =>
      if Z.of_nat (length (txns w ++ us)) <=? u64_max then append_of i None (times_in expected new us) expected new w (set_txns w us new) else None
  | CompareAndAppend (Some d) us expected new => append_of i (Some d) (match us with [] => true | _ => false end) expected new w (set_data w d [] new)
  | CompareAndAppendBatch d bs expected new =>
      append_of i (Some d) (forallb (appendableb expected new) bs) expected new w (set_data w d (mjoin (contents <$> bs)) new)
  | WaitForUpperPast d ts =>
      if (ts <? data_upper w d) && (view w i (Some d) <=? data_upper w d) then Some (tt, set_view w i (Some d) (data_upper w d)) else None
  | OpenReader => Some (txns_since w, w)
  | SubscribeNext sub =>
      if sub_snapshot_pending sub then
        if sub_as_of sub <? txns_upper w then
          Some (([Updates (whole_part (advance (sub_as_of sub) <$> window 0 (sub_as_of sub + 1) (txns w)))],
                 {| sub_as_of := sub_as_of sub; sub_snapshot_pending := false; sub_frontier := sub_frontier sub |}), w)
        else None
      else if sub_frontier sub <? txns_upper w then
        Some (([Updates (whole_part (advance (sub_as_of sub) <$> window (Z.max (sub_as_of sub + 1) (sub_frontier sub)) (txns_upper w) (txns w))); Progress (txns_upper w)],
               {| sub_as_of := sub_as_of sub; sub_snapshot_pending := false; sub_frontier := txns_upper w |}), w)
      else None
  | CriticalSince => Some (txns_since w, w)
  | CompareAndDowngradeSince s => Some (Ok tt, set_since w (Z.max (txns_since w) s))
  | NewUuid => let id := (1 + foldr N.max 0 (ids w))%N in Some (id, set_ids w id)
  | SnapshotAndFetch d as_of =>
      if as_of <? data_since w d then Some (Err (data_since w d), w)
      else if as_of <? data_upper w d then Some (Ok ((fun u => (u.1.1, as_of, u.2)) <$> as_of_contents w d as_of), w) else None
  | Poll => Some (true, w)
  end.

Lemma row_total_retime x as_of (us : list (Z * Z * Z)) : row_total x ((fun u => (u.1.1, as_of, u.2)) <$> us) = row_total x us.
Proof. induction us as [|u us IH]; [done|]. rewrite fmap_cons, !row_total_cons, IH. done. Qed.

Lemma max_fresh (l : list N) : (1 + foldr N.max 0 l)%N ∉ l.
Proof.
  assert (Hmax : forall n, n ∈ l -> (n <= foldr N.max 0 l)%N).
  { induction l as [|m l IH]; intros n Hn; [by apply not_elem_of_nil in Hn|]. simpl. apply elem_of_cons in Hn as [->|Hn%IH]; lia. }
  intros Hin%Hmax. lia.
Qed.

Lemma interp_sound i {R} (e : Eff Z R) w r w' : interp i e w = Some (r, w') -> exec i e w r w'.
Proof.
  destruct e as [sh|[d|] us expected new|d bs expected new|d ts| |sub| |s| |d as_of|]; cbn [interp exec]; intros Hx.
  - destruct (Z.leb_spec (view w i sh) (upper_of w sh)); [|done]. injection Hx as <- <-. exists (upper_of w sh). split_and!; [done..|lia|done|done].
  - eapply append_sound; [|exact Hx]. by destruct us.
  - destruct (Z.leb_spec (Z.of_nat (length (txns w ++ us))) u64_max); [|done]. split; [done|]. eapply append_sound; [|exact Hx]. apply times_in_sound.
  - eapply append_sound; [|exact Hx]. apply appendableb_sound.
  - destruct (_ && _) eqn:E; [|done]. injection Hx as <- <-. apply andb_true_iff in E as [?%Z.ltb_lt ?%Z.leb_le]. exists (data_upper w d). split_and!; [done..|lia|done].
  - by injection Hx as <- <-.
  - destruct (sub_snapshot_pending sub) eqn:Ep.
    + destruct (Z.ltb_spec (sub_as_of sub) (txns_upper w)); [|done]. injection Hx as <- <-. split; [done|]. eexists. left. split_and!; [done|done|apply whole_delivers|done].
    + destruct (Z.ltb_spec (sub_frontier sub) (txns_upper w)); [|done]. injection Hx as <- <-. split; [done|]. eexists. right. split; [done|]. exists (txns_upper w).
      split_and!; [done|lia|apply whole_delivers|done].
  - injection Hx as <- <-. split; [lia|done].
  - injection Hx as <- <-. right. split; [done|]. eexists. split; [|done]. lia.
  - injection Hx as <- <-. split; [apply max_fresh|done].
  - destruct (Z.ltb_spec as_of (data_since w d)); [injection Hx as <- <-; split; [done|by left]|]. destruct (Z.ltb_spec as_of (data_upper w d)); [|done].
    injection Hx as <- <-. split; [done|]. right. split; [lia|]. eexists. split_and!; [done|by apply Forall_fmap, Forall_forall|]. intros x. apply row_total_retime.
  - by injection Hx as <- <-.
Qed.

(** ** Runs *)

Abbreviation Pool := (list (Prog Z (list (Cmd Z * Answer Z))) * World Z)%type.

Definition step_of i (c : Pool) : option Pool :=
  match c.1 !! i with
  | Some (Call e k) => match interp i e c.2 with Some (r, w') => Some (<[i := k r]> c.1, w') | None => None end
  | _ => None
  end.

Fixpoint run_schedule (turns : list nat) (c : Pool) : option Pool :=
  match turns with
  | [] => Some c
  | i :: turns => match step_of i c with Some c => run_schedule turns c | None => None end
  end.

Lemma run_sound turns c c' : run_schedule turns c = Some c' -> rtc pool_step c c'.
Proof.
  revert c. induction turns as [|i turns IH]; intros [ps w]; simpl; [intros [= <-]; constructor|]. unfold step_of at 1. simpl.
  destruct (ps !! i) as [[a| | | |R e k]|] eqn:E; try done. destruct (interp i e w) as [[r w1]|] eqn:Ei; [|done]. intros Hrun.
  econstructor; [|by apply IH]. eapply step_call; [exact E|by apply interp_sound].
Qed.

(** Shards [a] and [b]. *)
Definition tx_shard (n : N) (H : (n <? 2 ^ 128)%N = true) : ShardId := {| shard_uuid := {| uuid_bits := n; uuid_ok := H |} |}.
Definition tx_a : ShardId := tx_shard 10 eq_refl.
Definition tx_b : ShardId := tx_shard 11 eq_refl.

(** A transaction that moves 5 from row 1 of [a] to row 1 of [b]. *)
Definition tx_txn : Txn Z := Txn.write (Txn.write Txn.new tx_a 1 (-5)) tx_b 1 5.

Definition tx_scripts : list (Z * list (Cmd Z)) :=
  [(0, [CRegister 1 [(tx_a, 7%N); (tx_b, 7%N)]; CCommit (Txn.write Txn.new tx_a 1 7) 2; CCommit tx_txn 4; CApply 4; CCompact 4]);
   (0, [CRead tx_a 4; CRead tx_b 4; CForget 6 [tx_a]])].

Definition tx_fuel (n : nat) : nat := (20 + n)%nat.

Definition tx_start (n : nat) : Pool := (client true true (tx_fuel n) <$> tx_scripts, initial).

(** The second client opens the shard while the first one is about to commit. *)
Definition tx_schedule : list nat := repeat 0%nat 8 ++ repeat 1%nat 4 ++ repeat 0%nat 27 ++ repeat 1%nat 27.

Definition tx_answers0 : list (Cmd Z * Answer Z) :=
  [(CRegister 1 [(tx_a, 7%N); (tx_b, 7%N)], AUnit (Ok tt));
   (CCommit (Txn.write Txn.new tx_a 1 7) 2, ACommit (Ok {| is_empty := false; apply_commit_ts := 2 |}));
   (CCommit tx_txn 4, ACommit (Ok {| is_empty := false; apply_commit_ts := 4 |})); (CApply 4, AUnit (Ok tt)); (CCompact 4, AUnit (Ok tt))].
Definition tx_answers1 : list (Cmd Z * Answer Z) :=
  [(CRead tx_a 4, ARead (Ok [(1, 4, 7); (1, 4, -5)])); (CRead tx_b 4, ARead (Ok [(1, 4, 5)])); (CForget 6 [tx_a], AUnit (Ok tt))].

(** What the run leaves in the txns shard. *)
Definition tx_log : list Update := match run_schedule tx_schedule (tx_start 0) with Some c => txns c.2 | None => [] end.

Lemma tx_finished n : (fun c => (c.1, txns c.2)) <$> run_schedule tx_schedule (tx_start n) = Some ([Done tx_answers0; Done tx_answers1], tx_log).
Proof. vm_compute. reflexivity. Qed.

Lemma some_pair {A B} (a a' : A) (b b' : B) : Some (a, b) = Some (a', b') -> a = a' /\ b = b'.
Proof. by intros [= -> ->]. Qed.

Lemma tx_run n : exists w, rtc pool_step (tx_start n) ([Done tx_answers0; Done tx_answers1], w) /\ txns w = tx_log.
Proof.
  pose proof (tx_finished n) as Hf. destruct (run_schedule tx_schedule (tx_start n)) as [[ps w]|] eqn:E; [|discriminate Hf]. cbn [fmap option_fmap option_map fst snd] in Hf.
  destruct (some_pair _ _ _ _ Hf) as [Hps Hw]. exists w. split; [|exact Hw]. rewrite <- Hps. exact (run_sound _ _ _ E).
Qed.

(** Enough fuel, and the commands are fine. *)
Definition tx_more : nat := Z.to_nat u64_max.

Lemma tx_fuel_ok : fuel_ok (tx_fuel tx_more).
Proof. unfold fuel_ok, tx_fuel, tx_more. rewrite Nat2Z.inj_add, Z2Nat.id by done. lia. Qed.

Lemma tx_txn_ok ws : txn_ok (fun _ => 7%N) (foldl (fun txn x => Txn.write (Row := Z) txn x.1.1 x.1.2 x.2) Txn.new ws).
Proof.
  induction ws as [|x ws IH] using rev_ind; [split; [done|]; by intros d tw ?%not_elem_of_nil|]. rewrite foldl_app. simpl. destruct IH as [Hs Hg].
  split; [by apply BTree.sorted_insert|]. intros d tw [[= -> ->]|Hin]%BTree.elem_of_insert; [|by eapply Hg]. split; simpl; (destruct (BTree.get _ _) as [tw|] eqn:E; [|constructor]);
    apply BTree.elem_of_get in E; by destruct (Hg _ _ E).
Qed.

Lemma tx_scripts_ok : Forall (script_ok (fun _ => 7%N)) tx_scripts.
Proof.
  assert (Hnd : NoDup (fst <$> [(tx_a, 7%N); (tx_b, 7%N)])) by (apply (bool_decide_unpack _); by vm_compute).
  unfold tx_scripts. repeat apply Forall_cons_2; try apply Forall_nil_2; split; [done| |done|]; repeat apply Forall_cons_2; try apply Forall_nil_2; cbn [cmd_ok]; try split_and!; try done.
  - by repeat constructor.
  - apply (tx_txn_ok [(tx_a, 1, 7)]).
  - apply (tx_txn_ok [(tx_a, 1, -5); (tx_b, 1, 5)]).
  - apply NoDup_singleton.
Qed.

Lemma tx_log_ok : log_ok tx_log.
Proof.
  destruct (tx_run tx_more) as (w & Hrun & <-).
  by destruct (clients_wp true true (tx_fuel tx_more) (fun _ => 7%N) tx_fuel_ok tx_scripts _ w tx_scripts_ok Hrun) as [[Hl] _].
Qed.

(** Shard [a] is registered from 1 to 6. *)
Lemma tx_in_txns t : 1 <= t <= 4 -> in_txns tx_log tx_a t.
Proof.
  intros Ht. destruct (decide (t = 1)) as [->|Hne]; [right; exists 1; apply (bool_decide_unpack _); by vm_compute|left].
  exists {| register_ts := 1; forget_ts := None |}. assert (t = 2 \/ t = 3 \/ t = 4) as [->|[->| ->]] by lia; by vm_compute.
Qed.

(** A cache that has read all of it. *)
Definition tx_window : list Update := advance 0 <$> window 0 7 tx_log.
Definition tx_cache : TxnsCacheState :=
  match TxnsCacheState.push_entries true false (TxnsCacheState.new 0 None) tx_window 7 with Ret st => st | Panic => TxnsCacheState.new 0 None end.

Lemma tx_cache_pushed : TxnsCacheState.push_entries true false (TxnsCacheState.new 0 None) tx_window 7 = Ret tx_cache.
Proof.
  assert (Hret : match TxnsCacheState.push_entries true false (TxnsCacheState.new 0 None) tx_window 7 with Ret _ => true | Panic => false end = true) by (by vm_compute).
  unfold tx_cache. by destruct (TxnsCacheState.push_entries _ _ _ _ _).
Qed.
