(* ===== verification/TxnProps.v ===== *)
(** * Properties of txn-wal

    The theorems about transactions across shards: what reads return and when
    they see a transaction, what every answer promises, that the operations
    end, and what a cache knows of the txns shard. *)

From S2P Require Import Prelude BTree Paths Blob TxnCache TxnCacheFacts TxnLog TxnFollow TxnQuery Txns TxnWorld TxnWorldFacts TxnLogic TxnSync TxnApplyFacts TxnRegister TxnReads TxnCommit TxnClients TxnBuild TxnCodec Examples TxnExamples.

Local Open Scope Z_scope.

(** ** Clients *)

Section clients.
Context {Row : Type} `{EqDecision Row} `{UuidCodec} `{IdBatchLaws Row} `{ConsolidateLaws} (soft ensure : bool) (schema : ShardId -> N).

(** The program after its next call. *)
Definition calls {A} (q p : Prog Row A) : Prop := match p with Call e k => exists r, q = k r | _ => False end.

Lemma calls_wf {A} (p : Prog Row A) : Acc calls p.
Proof. induction p as [a| | | |R e k IH]; constructor; intros q Hq; simpl in Hq; try destruct Hq. subst. apply IH. Qed.

(** C4: any number of clients that open a txns shard and register, forget,
    commit, apply, compact and read, with their calls to persist interleaved in
    any way, with crashes of clients and with direct writes to and compactions
    of data shards in between: a read of a data shard at a time that has
    returned rows has exactly the contents of the shard up to that time, and for
    as long as the shard was registered these are what the transactions at each
    time have written to it and nothing else. *)
Theorem txn_reads_exact fuel scripts ps w i script l d as_of rows : fuel_ok fuel -> Forall (script_ok schema) scripts ->
  rtc pool_step (client soft ensure fuel <$> scripts, initial) (ps, w) -> scripts !! i = Some script -> ps !! i = Some (Done l) ->
  (CRead d as_of, ARead (Ok rows)) ∈ l ->
  as_of < data_upper w d /\ Forall (fun u => u.1.2 = as_of) rows /\
  forall x : Row, row_total x rows = row_total x (as_of_contents w d as_of) /\
  forall r, r <= as_of + 1 -> (forall t, r <= t <= as_of -> in_txns (txns w) d t) ->
    row_total x rows = row_total x (filter (fun u => u.1.2 < r) (data w d)) + sumZ ((fun t => row_total x (payload (txns w) d t)) <$> seqZ r (as_of + 1 - r)).
Proof.
  intros Hfuel Hok Hrtc Hs Hp Hin. destruct (client_answer soft ensure fuel schema Hfuel scripts ps w i script l _ _ Hok Hrtc Hs Hp Hin) as [Hinv Hread].
  pose proof Hread as (Ha & Ht & Hrow). split_and!; [done..|]. intros x. split; [by apply Hrow|]. intros r Hr Htx. by apply read_totals.
Qed.

(** C5: in the same runs, transactions are atomic and isolated: when one client
    was told that its transaction committed at a time, every read of any shard
    that the transaction wrote to, by any client, at that time or later has all
    rows of the transaction for that shard on top of what was written at other
    times; a read at an earlier time has only what was written up to then. *)
Theorem txn_commits_atomic fuel scripts ps w i si li j sj lj txn ts a d as_of rows : fuel_ok fuel -> Forall (script_ok schema) scripts ->
  rtc pool_step (client soft ensure fuel <$> scripts, initial) (ps, w) ->
  scripts !! i = Some si -> ps !! i = Some (Done li) -> (CCommit txn ts, ACommit (Ok a)) ∈ li ->
  scripts !! j = Some sj -> ps !! j = Some (Done lj) -> (CRead d as_of, ARead (Ok rows)) ∈ lj -> rows_of ts txn d <> [] ->
  forall x : Row,
    (ts <= as_of -> row_total x rows = row_total x (rows_of ts txn d) + row_total x (filter (fun u => u.1.2 <> ts) (as_of_contents w d as_of))) /\
    (as_of < ts -> row_total x rows = row_total x (filter (fun u => u.1.2 <> ts) (as_of_contents w d as_of))).
Proof.
  intros Hfuel Hok Hrtc Hsi Hpi Hini Hsj Hpj Hinj Hne x.
  destruct (client_answer soft ensure fuel schema Hfuel scripts ps w i si li _ _ Hok Hrtc Hsi Hpi Hini) as [Hinv (Hts & Hpay & _)].
  destruct (client_answer soft ensure fuel schema Hfuel scripts ps w j sj lj _ _ Hok Hrtc Hsj Hpj Hinj) as [_ Hread]. split; intros Hle.
  - by apply read_commit.
  - destruct Hread as (_ & _ & Hrow). rewrite Hrow. f_equal. unfold as_of_contents. rewrite list_filter_filter. apply list_filter_iff. intros. lia.
Qed.

(** C9: in the same runs, what any client was told is true from then on: a
    registration, a forget or an application up to a time leaves every
    transaction and every registration up to that time applied, the named shards
    are registered or no longer registered right after it, the batches of a
    committed transaction are in the txns shard at its time and no others are,
    and an error names a time that the txns shard has passed. *)
Theorem txn_answers_hold fuel scripts ps w i script l cmd a : fuel_ok fuel -> Forall (script_ok schema) scripts ->
  rtc pool_step (client soft ensure fuel <$> scripts, initial) (ps, w) -> scripts !! i = Some script -> ps !! i = Some (Done l) ->
  (cmd, a) ∈ l -> Inv w /\ answer_ok w cmd a.
Proof. intros Hfuel Hok Hrtc Hs Hp Hin. by eapply client_answer. Qed.

(** C10: in the same runs every operation ends: no retry loop runs out of its
    bound, since every turn of every loop raises a timestamp, a client makes
    finitely many calls whatever they return, answers each of its commands when
    it is done, and never panics unless it commits. *)
Theorem txn_clients_end fuel scripts ps w i script p : fuel_ok fuel -> Forall (script_ok schema) scripts ->
  rtc pool_step (client soft ensure fuel <$> scripts, initial) (ps, w) -> scripts !! i = Some script -> ps !! i = Some p ->
  p <> Going /\ Acc calls p /\ (p = Panicked -> existsb is_commit script.2 = true) /\ (forall l, p = Done l -> fst <$> l = script.2).
Proof.
  intros Hfuel Hok Hrtc Hs Hp. destruct (clients_wp soft ensure fuel schema Hfuel scripts ps w Hok Hrtc) as [_ Hall]. specialize (Hall i p script Hp Hs).
  split_and!; [by intros ->|apply calls_wf|by intros ->|]. intros l ->. by destruct Hall.
Qed.
End clients.

(** ** Caches *)

Section caches.
Context `{ConsolidateLaws} (soft : bool) (only : option ShardId) (s : Z) (l : list Update).

(** A cache that follows the log [l] as of [s]: it is given the updates of one
    range of times after the other, in any order and split in any way, and is
    told which registrations are applied. *)
Inductive fed : Z -> Z -> TxnsCacheState -> Prop :=
| fed_new : fed 0 (-1) (TxnsCacheState.new s only)
| fed_push p p' m st us st' : fed p m st -> p <= p' -> s < p' -> delivers only s p p' l us ->
    TxnsCacheState.push_entries soft false st us p' = Ret st' -> fed p' m st'
| fed_mark p m st ts st' : fed p m st -> ts < p -> TxnsCacheState.mark_register_applied false st ts = Ret st' -> fed p (Z.max m ts) st'.

Lemma fed_follows p m st : log_ok l -> Z.of_nat (length l) <= u64_max -> 0 <= s -> fed p m st ->
  follows only s p l m st /\ (p = 0 \/ s < p) /\ m < p /\ 0 <= p.
Proof.
  intros Hl Hlen Hs0. induction 1 as [|p p' m st us st' _ (IH & Hs & Hm & Hp0) Hpp Hsp Hd Hpush|p m st ts st' _ (IH & Hs & Hm & Hp0) Hts Hmark].
  - split_and!; [by apply follows_new|by left|lia|done].
  - destruct (push_follows soft only s p p' l m st us) as (st2 & Hpush2 & Hf); try done; [destruct Hs; [by left|by right]|].
    rewrite Hpush in Hpush2. injection Hpush2 as <-. split_and!; [done|by right|lia|lia].
  - destruct (mark_follows only s p l m st ts IH) as (st2 & Hmark2 & Hf). rewrite Hmark in Hmark2. injection Hmark2 as <-. split_and!; [done|done|lia|done].
Qed.

(** C11: a cache that follows a txns shard implements the shard's history: it
    never panics on what persist hands it, it knows a shard as registered
    exactly if the last registration before its progress is not forgotten, its
    unapplied batches are exactly the batches committed and not retracted before
    its progress, and its unapplied registrations the ones not yet marked. *)
Theorem txn_cache_refines p m st : log_ok l -> Z.of_nat (length l) <= u64_max -> 0 <= s -> fed p m st ->
  (forall d, sees only d -> exists r, TxnsCacheState.registered_at_progress st d p = Ret r /\ (r = true <-> registered_before l p d)) /\
  (forall d b t, (d, b, t) ∈ BTree.values (unapplied_batches st) <-> sees only d /\ committed l d t b /\ t < p /\ ~ retracted l p d t b) /\
  (forall d ts, (d, ts) ∈ unapplied_registers st <-> sees only d /\ reg_event l d ts /\ s <= ts < p /\ m < ts) /\
  (forall p' us, p <= p' -> s < p' -> delivers only s p p' l us -> is_ret (TxnsCacheState.push_entries soft false st us p')).
Proof.
  intros Hl Hlen Hs0 Hfed. destruct (fed_follows p m st Hl Hlen Hs0 Hfed) as (Hf & Hs & Hm & Hp0). split_and!.
  - intros d Hd. by apply (registered_exact only s p l m st).
  - intros d b t. by apply (follows_live only s p l m st).
  - intros d ts. by apply (follows_registers only s p l m st).
  - intros p' us Hpp Hsp Hd. destruct (push_follows soft only s p p' l m st us) as (st2 & -> & _); try done; [destruct Hs; [by left|by right]|]. by exists st2.
Qed.

(** C12: the advice for reading a data shard is sound: told to emit logical
    progress, the shard was written by no transaction and was neither registered
    nor forgotten in that range; told to read the data shard up to a time, the
    time is just past such an event, or the shard is not registered and had none;
    told to wait, there is nothing known beyond the given time.  The token for a
    snapshot names a latest write that no unretracted transaction up to the time
    of the snapshot is past. *)
Theorem txn_advice_sound p m st d : log_ok l -> Z.of_nat (length l) <= u64_max -> 0 <= s -> fed p m st -> sees only d -> p <= u64_max ->
  (forall ts, s <= ts <= p -> exists r, TxnsCacheState.data_listen_next st d ts = Ret r /\
    match r with
    | WaitForTxnsProgress => ts = p
    | EmitLogicalProgress q => ts < q /\ q = p /\ registered_before l p d /\ quiet l d ts p
    | ReadDataTo q => ts < q <= p /\
        ((reg_event l d (q - 1) \/ exists b, committed l d (q - 1) b) \/ (q = p /\ ~ registered_before l p d /\ quiet l d ts p))
    end) /\
  (forall as_of, 0 <= as_of < p -> exists snap, TxnsCacheState.data_snapshot st d as_of = Ret snap /\ ds_data_id snap = d /\ ds_as_of snap = as_of /\
    empty_to snap = Z.max (as_of + 1) s /\
    (forall t b, committed l d t b -> t <= as_of -> ~ retracted l p d t b -> exists x, latest_write snap = Some x /\ t <= x) /\
    (forall x, latest_write snap = Some x -> x <= as_of /\ exists b, committed l d x b)).
Proof.
  intros Hl Hlen Hs0 Hfed Hd Hp. destruct (fed_follows p m st Hl Hlen Hs0 Hfed) as (Hf & Hs & Hm & Hp0). split.
  - intros ts Hts. by apply (listen_next only s p l m st).
  - intros as_of Has. by apply (snapshot_token only s p l m st).
Qed.
End caches.

(** ** Witnesses *)

Lemma txn_reads_exact_witness : exists w : World Z, rtc pool_step (tx_start tx_more) ([Done tx_answers0; Done tx_answers1], w) /\ 4 < data_upper w tx_a /\
  row_total 1 [(1, 4, 7); (1, 4, -5)] = row_total 1 (filter (fun u => u.1.2 < 1) (data w tx_a)) + sumZ ((fun t => row_total 1 (payload (txns w) tx_a t)) <$> seqZ 1 4).
Proof.
  destruct (tx_run tx_more) as (w & Hrun & Hlog). exists w. split; [exact Hrun|].
  destruct (txn_reads_exact true true (fun _ => 7%N) (tx_fuel tx_more) tx_scripts _ w 1%nat _ tx_answers1 tx_a 4 [(1, 4, 7); (1, 4, -5)]
    tx_fuel_ok tx_scripts_ok Hrun eq_refl eq_refl) as (Ha & _ & Hx).
  - constructor.
  - split; [exact Ha|]. apply (proj2 (Hx 1) 1); [lia|]. intros t Ht. rewrite Hlog. apply tx_in_txns. lia.
Defined.

Lemma txn_commits_atomic_witness : exists w : World Z, rtc pool_step (tx_start tx_more) ([Done tx_answers0; Done tx_answers1], w) /\
  row_total 1 [(1, 4, 7); (1, 4, -5)] = row_total 1 (rows_of 4 tx_txn tx_a) + row_total 1 (filter (fun u => u.1.2 <> 4) (as_of_contents w tx_a 4)) /\
  row_total 1 [(1, 4, 5)] = row_total 1 (rows_of 4 tx_txn tx_b) + row_total 1 (filter (fun u => u.1.2 <> 4) (as_of_contents w tx_b 4)).
Proof.
  destruct (tx_run tx_more) as (w & Hrun & _). exists w. split; [exact Hrun|]. split.
  - refine (proj1 (txn_commits_atomic true true (fun _ => 7%N) (tx_fuel tx_more) tx_scripts _ w 0%nat _ tx_answers0 1%nat _ tx_answers1 tx_txn 4 _ tx_a 4 [(1, 4, 7); (1, 4, -5)]
      tx_fuel_ok tx_scripts_ok Hrun eq_refl eq_refl _ eq_refl eq_refl _ _ 1) _); [do 2 constructor; constructor|constructor|by vm_compute|lia].
  - refine (proj1 (txn_commits_atomic true true (fun _ => 7%N) (tx_fuel tx_more) tx_scripts _ w 0%nat _ tx_answers0 1%nat _ tx_answers1 tx_txn 4 _ tx_b 4 [(1, 4, 5)]
      tx_fuel_ok tx_scripts_ok Hrun eq_refl eq_refl _ eq_refl eq_refl _ _ 1) _); [do 2 constructor; constructor|do 2 constructor|by vm_compute|lia].
Defined.

Lemma txn_answers_hold_witness : exists w : World Z, rtc pool_step (tx_start tx_more) ([Done tx_answers0; Done tx_answers1], w) /\
  (4 < txns_upper w /\ settled w 5) /\ ~ registered_before (txns w) 7 tx_a.
Proof.
  destruct (tx_run tx_more) as (w & Hrun & _). exists w. split; [exact Hrun|]. split.
  - refine (proj2 (txn_answers_hold true true (fun _ => 7%N) (tx_fuel tx_more) tx_scripts _ w 0%nat _ tx_answers0 (CApply 4) (AUnit (Ok tt)) tx_fuel_ok tx_scripts_ok Hrun eq_refl eq_refl _)).
    do 4 constructor.
  - refine (proj1 (proj2 (proj2 (txn_answers_hold true true (fun _ => 7%N) (tx_fuel tx_more) tx_scripts _ w 1%nat _ tx_answers1 (CForget 6 [tx_a]) (AUnit (Ok tt))
      tx_fuel_ok tx_scripts_ok Hrun eq_refl eq_refl _))) tx_a _); [do 3 constructor|constructor].
Defined.

Lemma txn_clients_end_witness : exists w : World Z, rtc pool_step (tx_start tx_more) ([Done tx_answers0; Done tx_answers1], w) /\
  existsb is_commit [CRead (Row := Z) tx_a 4; CRead tx_b 4; CForget 6 [tx_a]] = false /\ Acc calls (Done (Row := Z) tx_answers1).
Proof.
  destruct (tx_run tx_more) as (w & Hrun & _). exists w. split; [exact Hrun|]. split; [reflexivity|].
  exact (proj1 (proj2 (txn_clients_end true true (fun _ => 7%N) (tx_fuel tx_more) tx_scripts _ w 1%nat _ (Done tx_answers1) tx_fuel_ok tx_scripts_ok Hrun eq_refl eq_refl))).
Defined.

Lemma tx_fed : fed true None 0 tx_log 7 (-1) tx_cache.
Proof.
  eapply (fed_push _ _ _ _ 0 7 (-1) _ tx_window); [constructor|lia|lia| |exact tx_cache_pushed]. intros e t. split; [done|]. by intros [].
Qed.

Lemma txn_cache_refines_witness : fed true None 0 tx_log 7 (-1) tx_cache /\
  (exists r, TxnsCacheState.registered_at_progress tx_cache tx_b 7 = Ret r /\ (r = true <-> registered_before tx_log 7 tx_b)).
Proof.
  split; [exact tx_fed|].
  refine (proj1 (txn_cache_refines true None 0 tx_log 7 (-1) tx_cache tx_log_ok _ _ tx_fed) tx_b I); [by vm_compute|lia].
Defined.

Lemma txn_advice_sound_witness : fed true None 0 tx_log 7 (-1) tx_cache /\
  exists r, TxnsCacheState.data_listen_next tx_cache tx_b 5 = Ret r /\
    match r with
    | WaitForTxnsProgress => 5 = 7
    | EmitLogicalProgress q => 5 < q /\ q = 7 /\ registered_before tx_log 7 tx_b /\ quiet tx_log tx_b 5 7
    | ReadDataTo q => 5 < q <= 7 /\
        ((reg_event tx_log tx_b (q - 1) \/ exists b, committed tx_log tx_b (q - 1) b) \/ (q = 7 /\ ~ registered_before tx_log 7 tx_b /\ quiet tx_log tx_b 5 7))
    end.
Proof.
  split; [exact tx_fed|].
  refine (proj1 (txn_advice_sound true None 0 tx_log 7 (-1) tx_cache tx_b tx_log_ok _ _ tx_fed I _) 5 _); [by vm_compute|lia|by vm_compute|lia].
Defined.

Lemma txns_codec_roundtrip_witness : TxnsCodecDefault.decode tx_a (TxnsCodecDefault.encode (Register tx_a 513)).2 = Ret (Register tx_a 513).
Proof. refine (proj1 txns_codec_roundtrip (Register tx_a 513) _ _); [by vm_compute|done]. Defined.

Lemma txn_collects_writes_witness : rows_of 4 (Txn.write (Txn.new (Row := Z)) tx_a 1 7) tx_a ≡ₚ [] ++ [(1, 4, 7)].
Proof.
  refine (proj2 (proj1 (txn_collects_writes (fun _ => 7%N) 4 (Txn.new (Row := Z)) _) tx_a 1 7) tx_a). exact (tx_txn_ok []).
Defined.
