(* ===== verification/TxnReadExamples.v ===== *)
(** * A concrete shared cache

    An interpreter for the steps of [sys_step], and a run next to the clients of
    [TxnExamples]: one caller waits, reads and subscribes, a second one waits for
    a time far ahead, and a third one gives up. *)

From S2P Require Import Prelude BTree Paths Blob TxnCache TxnLog Txns TxnWorld TxnLogic TxnSync TxnClients TxnReadTask TxnReadFacts TxnReadSystem TxnReadInv Examples TxnExamples.

Local Open Scope Z_scope.

Inductive Action :=
| DoStart
| DoRun
| DoFollow
| DoHandle (fresh : Chan)
| DoWait (id : Uuid) (ts : WaitTs) (tx : Chan)
| DoFinish
| DoDrop
| DoCancel
| DoSnapshot (d : ShardId) (as_of : Z) (tx : Chan)
| DoSubscribe (d : ShardId) (as_of : Z) (tx : Chan).

Definition heardb (c : Calls) (as_of : Z) : bool :=
  existsb (fun x : Uuid * WaitTs * Chan => bool_decide (x.2 ∈ omap notified_of (sent c)) &&
    match x.1.2 with GreaterEqual t => as_of <? t | GreaterThan t => as_of <=? t end) (waits c).

Lemma heardb_sound c as_of : heardb c as_of = true -> heard c as_of.
Proof.
  intros ([[id ts] tx] & Hin & Hx)%existsb_exists. apply andb_true_iff in Hx as [Hn%bool_decide_eq_true Hp]. exists id, ts, tx. split_and!.
  - by apply list_elem_of_In.
  - by apply elem_of_notified.
  - destruct ts; simpl in *; [by apply Z.ltb_lt|by apply Z.leb_le].
Qed.

Definition guarded {A} (b : bool) (x : A) : option A := if b then Some x else None.

Definition ask_of (a : Action) (c : Calls) : option Calls :=
  match a with
  | DoWait id ts tx =>
      guarded (bool_decide (id ∉ (fun x => x.1.1) <$> waits c) && bool_decide (tx ∉ used c))
        {| queue := queue c ++ [WaitCmd id ts tx]; sent := sent c; waits := (id, ts, tx) :: waits c; requests := requests c; used := tx :: used c;
           closed := closed c; waiters := {| f_id := id; f_ts := ts; f_tx := tx; f_guard := {| guard_id := id; guard_tx := true |} |} :: waiters c;
           dropped := dropped c |}
  | DoFinish =>
      match waiters c with
      | f :: fs => guarded (bool_decide (f_tx f ∈ omap notified_of (sent c)))
          {| queue := queue c ++ CancelWaitOnDrop.drop (CancelWaitOnDrop.complete (f_guard f)); sent := sent c; waits := waits c; requests := requests c;
             used := used c; closed := f_tx f :: closed c; waiters := fs; dropped := dropped c |}
      | [] => None
      end
  | DoDrop =>
      match waiters c with
      | f :: fs => Some {| queue := queue c; sent := sent c; waits := waits c; requests := requests c; used := used c; closed := f_tx f :: closed c;
                           waiters := fs; dropped := f :: dropped c |}
      | [] => None
      end
  | DoCancel =>
      match dropped c with
      | f :: fs => Some {| queue := queue c ++ CancelWaitOnDrop.drop (f_guard f); sent := sent c; waits := waits c; requests := requests c;
                           used := used c; closed := closed c; waiters := waiters c; dropped := fs |}
      | [] => None
      end
  | DoSnapshot d as_of tx =>
      guarded ((0 <=? as_of) && heardb c as_of && bool_decide (tx ∉ used c))
        {| queue := queue c ++ [DataSnapshotCmd d as_of tx]; sent := sent c; waits := waits c; requests := (d, as_of, tx) :: requests c;
           used := tx :: used c; closed := closed c; waiters := waiters c; dropped := dropped c |}
  | DoSubscribe d as_of tx =>
      guarded ((0 <=? as_of) && heardb c as_of && bool_decide (tx ∉ used c))
        {| queue := queue c ++ [DataSubscribeCmd d as_of tx]; sent := sent c; waits := waits c; requests := (d, as_of, tx) :: requests c;
           used := tx :: used c; closed := closed c; waiters := waiters c; dropped := dropped c |}
  | _ => None
  end.

Lemma guarded_some {A} b (x y : A) : guarded b x = Some y -> b = true /\ x = y.
Proof. destruct b; simpl; [by intros [= ->]|done]. Qed.

Lemma ask_sound a c c' : ask_of a c = Some c' -> ask_step c c'.
Proof.
  destruct a as [| | | |id ts tx| | | |d as_of tx|d as_of tx]; cbn [ask_of]; try done.
  - intros [[Hid%bool_decide_eq_true Htx%bool_decide_eq_true]%andb_true_iff <-]%guarded_some. constructor; [|done]. intros ts' tx' Hin. apply Hid.
    by apply (list_elem_of_fmap_2 (fun x => x.1.1)) in Hin.
  - destruct (waiters c) as [|f fs] eqn:E; [done|]. intros [Hn%bool_decide_eq_true <-]%guarded_some. apply (ask_finish c f [] fs); [done|by apply elem_of_notified].
  - destruct (waiters c) as [|f fs] eqn:E; [done|]. intros [= <-]. by apply (ask_drop c f [] fs).
  - destruct (dropped c) as [|f fs] eqn:E; [done|]. intros [= <-]. by apply (ask_cancel c f [] fs).
  - intros [[[?%Z.leb_le ?%heardb_sound]%andb_true_iff ?%bool_decide_eq_true]%andb_true_iff <-]%guarded_some. by constructor.
  - intros [[[?%Z.leb_le ?%heardb_sound]%andb_true_iff ?%bool_decide_eq_true]%andb_true_iff <-]%guarded_some. by constructor.
Qed.

Abbreviation ZSys := (Sys (Row := Z) (A := list (Cmd Z * Answer Z))).

Definition prog_of {B} (i : nat) (p : Prog Z B) (w : World Z) : option (Prog Z B * World Z) :=
  match p with Call e k => match interp i e w with Some (r, w') => Some (k r, w') | None => None end | _ => None end.

Lemma prog_sound {B} i (p : Prog Z B) w p' w' : prog_of i p w = Some (p', w') -> prog_step i p w p' w'.
Proof.
  destruct p as [| | | |R e k]; simpl; try done. destruct (interp i e w) as [[r w1]|] eqn:E; [|done]. intros [Hp Hw]%some_pair. exists r. rewrite <- Hp, <- Hw. split; [by apply interp_sound|done].
Qed.

Definition sys_of (a : Action) (x : ZSys) : option ZSys :=
  let '(ps, w, rd, c) := x in
  match a, rd with
  | DoStart, Starting p => match prog_of (length ps) p w with Some (p', w') => Some (ps, w', Starting p', c) | None => None end
  | DoRun, Starting (Done (sub, task)) => Some (ps, w, Running sub (Done task), c)
  | DoFollow, Running sub task =>
      match prog_of (length ps) (subscribe_turn sub) w with Some (Done (sub', cmds), w') => Some (ps, w', Running sub' task, enqueue c cmds) | _ => None end
  | DoHandle fresh, Running sub (Done task) =>
      match queue c with
      | cmd :: rest =>
          if bool_decide (fresh ∉ used c) then
            let p := handle true false (is_closed_chan c) fresh task cmd in
            Some (ps, w, Running sub (bind p (fun x => Done x.1)), taken c rest fresh (messages p))
          else None
      | [] => None
      end
  | _, Running sub task => match ask_of a c with Some c' => Some (ps, w, Running sub task, c') | None => None end
  | _, _ => None
  end.

Lemma ask_sys a ps w sub task c (y : ZSys) : match ask_of a c with Some c' => Some (ps, w, Running sub task, c') | None => None end = Some y ->
  sys_step true (ps, w, Running sub task, c) y.
Proof. destruct (ask_of a c) as [c'|] eqn:E; [|done]. intros [= <-]. constructor. by apply (ask_sound a). Qed.

Lemma sys_sound a x y : sys_of a x = Some y -> sys_step true x y.
Proof.
  destruct x as [[[ps w] [p|sub task]] c]; cbn [sys_of].
  - destruct a; try done.
    + destruct (prog_of (length ps) p w) as [[p' w']|] eqn:E; [|done]. intros [= <-]. constructor. by apply prog_sound.
    + destruct p as [[sub task]| | | |]; try done. intros [= <-]. constructor.
  - destruct a; try done; try (by apply ask_sys).
    + destruct (prog_of _ _ _) as [[[[sub' cmds]| | | |] w']|] eqn:E; try done. intros [= <-]. constructor. by apply prog_sound.
    + destruct task as [task| | | |]; try done. destruct (queue c) as [|cmd rest] eqn:Eq; [done|]. case_bool_decide; [|done]. intros [= <-]. by constructor.
Qed.

Fixpoint sys_schedule (acts : list Action) (x : ZSys) : option ZSys :=
  match acts with
  | [] => Some x
  | a :: acts => match sys_of a x with Some x => sys_schedule acts x | None => None end
  end.

Lemma schedule_sound acts x y : sys_schedule acts x = Some y -> rtc (sys_step true) x y.
Proof.
  revert x. induction acts as [|a acts IH]; intros x; cbn [sys_schedule]; [intros [= <-]; constructor|]. destruct (sys_of a x) as [x1|] eqn:E; [|done].
  intros Hrun. econstructor; [by eapply sys_sound|by apply IH].
Qed.

(** ** The run *)

Definition rd_id (n : N) (H : (n <? 2 ^ 128)%N = true) : Uuid := {| uuid_bits := n; uuid_ok := H |}.
Definition rd_id1 : Uuid := rd_id 1 eq_refl.
Definition rd_id2 : Uuid := rd_id 2 eq_refl.
Definition rd_id3 : Uuid := rd_id 3 eq_refl.

Definition rd_actions : list Action :=
  [DoStart; DoStart; DoStart; DoRun;
   DoWait rd_id2 (GreaterEqual 100) 2; DoWait rd_id3 (GreaterThan 50) 3; DoWait rd_id1 (GreaterThan 5) 1; DoHandle 11; DoHandle 12; DoHandle 13; DoFinish;
   DoDrop; DoCancel; DoHandle 14; DoSnapshot tx_a 5 4; DoSubscribe tx_b 4 5; DoHandle 15; DoHandle 16].

Definition rd_start (n : nat) : option ZSys :=
  match run_schedule tx_schedule (tx_start n) with Some (ps, w) => Some (sys_start_state true (tx_fuel n) ps w) | None => None end.

Definition rd_kind (x : ZSys) : bool := match x with (_, _, Running _ (Done _), _) => true | _ => false end.

Definition rd_calls : Calls := match x ← rd_start 0; sys_schedule rd_actions x with Some x => x.2 | None => no_calls end.

Lemma rd_finished n : (fun x => (rd_kind x, x.2)) <$> (x ← rd_start n; sys_schedule rd_actions x) = Some (true, rd_calls).
Proof. vm_compute. reflexivity. Qed.

Lemma bind_projected {A B C D} (o : option A) (f : A -> option B) (g : B -> C) (h : B -> D) r1 r2 : (fun x => (g x, h x)) <$> (x ← o; f x) = Some (r1, r2) ->
  exists a b, o = Some a /\ f a = Some b /\ g b = r1 /\ h b = r2.
Proof. destruct o as [a|]; [|done]. simpl. destruct (f a) as [b|] eqn:E; [|done]. intros [= <- <-]. eauto 6. Qed.

Lemma rd_started n x : rd_start n = Some x -> exists ps w, rtc pool_step (tx_start n) (ps, w) /\ x = sys_start_state true (tx_fuel n) ps w.
Proof.
  unfold rd_start. pose proof (run_sound tx_schedule (tx_start n)) as Hs. destruct (run_schedule tx_schedule (tx_start n)) as [[ps w]|]; [|discriminate].
  intros Hx. exists ps, w. split; [exact (Hs _ eq_refl)|]. by injection Hx as <-.
Qed.

Lemma rd_run n : exists ps0 w0 ps w sub task, rtc pool_step (tx_start n) (ps0, w0) /\
  rtc (sys_step true) (sys_start_state true (tx_fuel n) ps0 w0) (ps, w, Running sub task, rd_calls).
Proof.
  destruct (bind_projected (rd_start n) (sys_schedule rd_actions) rd_kind snd true rd_calls (rd_finished n)) as (x & y & Hx & Hy & Hk & Hc).
  pose proof (schedule_sound rd_actions x y Hy) as Hs. clear Hy. destruct (rd_started n x Hx) as (ps0 & w0 & Hpool & Ex).
  destruct y as [[[ps w] rd] c]. destruct rd as [p|sub task]; [discriminate Hk|]. cbn [snd] in Hc. subst c. subst x.
  exists ps0, w0, ps, w, sub, task. split; [exact Hpool|exact Hs].
Qed.
