(* ===== verification/TxnReadProps.v ===== *)
(** * Properties of shared caches

    What the callers of a [TxnsRead] can rely on. *)

From S2P Require Import Prelude BTree Paths Blob TxnCache TxnCacheFacts TxnLog TxnFollow TxnQuery Txns TxnWorld TxnWorldFacts TxnLogic TxnSync TxnApplyFacts TxnRegister TxnReads TxnCommit TxnClients TxnReadTask TxnReadFacts TxnReadSystem TxnReadInv TxnReadSafe Examples TxnExamples TxnReadExamples.

Local Open Scope Z_scope.

Section props.
Context {Row : Type} `{EqDecision Row} `{UuidCodec} `{IdBatchLaws Row} `{ConsolidateLaws} (soft ensure : bool) (schema : ShardId -> N).
Implicit Types (w : World Row).

(** Nothing is in the data shard while it is idle. *)
Lemma idle_data w d lo hi u : Inv w -> idle (txns w) d lo hi -> u ∈ data w d -> ~ lo <= u.1.2 < hi.
Proof.
  intros Hi Hidle Hu Ht. destruct (Hidle u.1.2 Ht) as (Hreg & Hc & _). pose proof (inv_times _ Hi d u Hu) as Happ.
  pose proof (inv_contents _ Hi d u.1.2 Happ (or_introl Hreg)) as Hperm. rewrite (payload_nil _ _ _ (inv_log _ Hi) Hc) in Hperm. apply Permutation_nil_r in Hperm.
  apply (not_elem_of_nil u). rewrite <- Hperm. by apply list_elem_of_filter.
Qed.

(** Exchanging the token returns the contents of the shard at its time, or an
    error because they were compacted, whatever runs at the same time. *)
Definition exchangeable (fuel : nat) w (sn : DataSnapshot) : Prop :=
  forall i, wp false i (snapshot_and_fetch fuel sn) w (fun r w' => match r with
    | Ok rows => read_ok w' (ds_data_id sn) (ds_as_of sn) rows
    | Err since => ds_as_of sn < since <= data_since w' (ds_data_id sn) end).

Lemma token_exchangeable fuel w sn : fuel_ok fuel -> Inv w -> token_ok w sn -> exchangeable fuel w sn.
Proof. intros Hf Hi Htok i. by apply fetch_token_wp. Qed.

Lemma path_sorted l d p r es : Forall (entry_ok l d p) (r :: es) -> remap_path l d r es ->
  StronglySorted (fun a b => physical_upper a <= physical_upper b /\ logical_upper a < logical_upper b) (r :: es).
Proof.
  revert r. induction es as [|e es IH]; intros r Hall Hpath; [by repeat constructor|]. destruct Hpath as [[Hlt Hn] Hpath].
  apply Forall_cons in Hall as [[Hr _] Hall]. pose proof (IH e Hall Hpath) as Hsrt. assert (Hre : physical_upper r <= physical_upper e) by (destruct Hn as [?|[? _]]; lia).
  constructor; [done|]. constructor; [done|]. inversion Hsrt as [|? ? _ Hrest]; subst. eapply Forall_impl; [exact Hrest|]. intros x [? ?]. simpl in *. lia.
Qed.

(** Clients run, a [TxnsRead] is started next to them, and they go on. *)
Definition shared_run (fuel : nat) (scripts : list (Z * list (Cmd Row))) (x : Sys) : Prop :=
  fuel_ok fuel /\ Forall (script_ok schema) scripts /\ exists ps0 w0, rtc pool_step (client soft ensure fuel <$> scripts, initial) (ps0, w0) /\
    rtc (sys_step soft) (sys_start_state soft fuel ps0 w0) x.

Lemma shared_ok fuel scripts ps w rd c : shared_run fuel scripts (ps, w, rd, c) -> Inv w /\ reader_ok (length ps) w rd c.
Proof.
  intros (Hfuel & Hok & ps0 & w0 & Hpool & Hsys). destruct (clients_wp soft ensure fuel schema Hfuel scripts ps0 w0 Hok Hpool) as [Hi0 _].
  set (Q := fun i l w => forall script, scripts !! i = Some script -> answers_ok script.2 l w).
  assert (HQ : forall j, stable (Q j)) by (intros i l w1 w2 Hi2 Hev Hq script Hs; eapply answers_stable; [done..|by apply Hq]).
  destruct (clients_pool soft ensure fuel schema Hfuel scripts ps0 w0 Hok Hpool) as [_ Hps0].
  destruct (sys_inv soft fuel Hfuel (may_panic scripts) Q ps0 w0 _ HQ Hi0 Hps0 Hsys) as (? & _ & ?). done.
Qed.

(** C13: a [TxnsRead] next to any number of clients, with its two tasks, its
    callers and the clients interleaved in any way: the task that owns the cache
    never panics.  A token that it hands out is for the shard and the time that
    were asked for, and exchanging it returns exactly the contents of the shard
    at that time.  The entries that a subscriber is sent start at the time of
    its token and move up, and the data shard has nothing between the physical
    and the logical upper of an entry, now or at any later time. *)
Theorem shared_cache_sound fuel scripts ps w sub task c : shared_run fuel scripts (ps, w, Running sub task, c) ->
  (exists t, task = Done t) /\
  (forall tx sn, SnapshotIs tx sn ∈ sent c -> (ds_data_id sn, ds_as_of sn, tx) ∈ requests c /\ exchangeable fuel w sn) /\
  (forall tx o ch, Subscribed tx o ch ∈ sent c -> exists sn es, o = Some sn /\ (ds_data_id sn, ds_as_of sn, tx) ∈ requests c /\ exchangeable fuel w sn /\
     remaps ch (sent c) = first_entry sn :: es /\
     StronglySorted (fun a b => physical_upper a <= physical_upper b /\ logical_upper a < logical_upper b) (first_entry sn :: es) /\
     forall e, e ∈ first_entry sn :: es -> physical_upper e <= logical_upper e <= txns_upper w /\
       forall u, u ∈ data w (ds_data_id sn) -> ~ physical_upper e <= u.1.2 < logical_upper e).
Proof.
  intros Hrun. pose proof Hrun as (Hfuel & _). destruct (shared_ok fuel scripts ps w _ c Hrun) as [Hi (t & -> & s & p & q & Hf & Hw & Hs & _)]. pose proof (feed_le _ _ _ _ _ _ _ Hf) as Hp.
  split_and!; [by exists t| |].
  - intros tx sn Hin. destruct (so_tokens _ _ _ _ _ Hs tx sn Hin). split; [done|by apply token_exchangeable].
  - intros tx o ch Hin. destruct (so_subscribed _ _ _ _ _ Hs tx o ch Hin) as (_ & sn & -> & Hreq & Htok & es & Hes & Hpath & Hall). exists sn, es. rewrite Hes in Hall.
    split_and!; [done|done|by apply token_exchangeable|done|by eapply path_sorted|]. intros e He. apply (proj1 (Forall_forall _ _) Hall) in He as [Hb Hidle].
    split; [lia|]. intros u. by apply idle_data.
Qed.

(** C14: in the same runs every wait is answered: each at most once, and only
    when the cache has progressed far enough; a caller that still waits and whose
    command was taken has its answer exactly if the cache has progressed that
    far.  Every subscriber has been told of all progress.  Waits that were given
    up are forgotten: once the queue is empty, the task keeps none without a
    caller. *)
Theorem shared_cache_answers fuel scripts ps w sub task c : shared_run fuel scripts (ps, w, Running sub task, c) -> exists t, task = Done t /\
  progress_exclusive (rt_cache t) <= txns_upper w /\
  NoDup (omap notified_of (sent c)) /\
  (forall tx, Notified tx ∈ sent c -> exists id ts, (id, ts, tx) ∈ waits c /\ WaitTs.is_ready ts (progress_exclusive (rt_cache t)) = true) /\
  (forall f, f ∈ waiters c -> WaitCmd (f_id f) (f_ts f) (f_tx f) ∉ queue c ->
     Notified (f_tx f) ∈ sent c <-> WaitTs.is_ready (f_ts f) (progress_exclusive (rt_cache t)) = true) /\
  (forall s, s ∈ data_subscriptions t -> exists e, last (remaps (subscription_tx s) (sent c)) = Some e /\ logical_upper e = progress_exclusive (rt_cache t)) /\
  (queue c = [] -> dropped c = [] -> forall id pw, BTree.get id (pending_waits_by_id t) = Some pw -> exists f, f ∈ waiters c /\ f_id f = id).
Proof.
  intros Hrun. destruct (shared_ok fuel scripts ps w _ c Hrun) as [Hi (t & -> & s & p & q & Hf & Hw & Hs & Ha)]. exists t. pose proof (feed_le _ _ _ _ _ _ _ Hf) as Hp.
  destruct (follows_fields _ _ _ _ _ _ (fo_follows _ _ _ _ _ _ _ Hf)) as (_ & -> & _). split_and!; [done|lia|apply (wo_sent _ _ _ Hw)| | | |].
  - intros tx Hn. destruct (proj2 (wo_sent _ _ _ Hw) tx Hn) as (id & ts & Hin). exists id, ts. split; [done|]. by apply (ws_notified _ _ _ _ _ _ (wo_status _ _ _ Hw _ _ _ Hin)).
  - intros f Hin Hq. destruct (wo_waiters _ _ _ Hw f Hin) as [[Hx _] Hcl]. destruct (wo_status _ _ _ Hw _ _ _ Hx) as [_ H2' H3' H4']. split; [done|]. intros Hr.
    destruct (BTree.get (f_id f) (pending_waits_by_id t)) as [pw|] eqn:Eg; [destruct (H2' pw eq_refl) as (_ & _ & ?); congruence|].
    destruct (decide (f_tx f ∈ omap notified_of (sent c))) as [?%elem_of_notified|Hn]; [done|]. destruct Hcl. apply H4'; [done|done|]. by rewrite <- elem_of_notified.
  - intros x Hx. destruct (so_live _ _ _ _ _ Hs x Hx) as (Hl & _ & Hlast & _). eauto.
  - intros Hq Hd id pw Hg. destruct (wr_tx _ _ (wo_rep _ _ _ Hw) id pw Hg) as (ts & tx & ->).
    destruct (Ha id ts tx) as [(f & Hfin & Hid)|(q1 & q2 & Hx & _)]; [by apply (wo_pending _ _ _ Hw)|right; rewrite Hg; eauto| |].
    + exists f. rewrite Hd, app_nil_r in Hfin. done.
    + rewrite Hq in Hx. by destruct q1.
Qed.
End props.

(** ** Witnesses *)

Lemma rd_shared : exists ps w sub task, shared_run true true (fun _ => 7%N) (tx_fuel tx_more) tx_scripts (ps, w, Running sub task, rd_calls).
Proof.
  destruct (rd_run tx_more) as (ps0 & w0 & ps & w & sub & task & Hpool & Hsys). exists ps, w, sub, task. split; [exact tx_fuel_ok|]. split; [exact tx_scripts_ok|].
  exists ps0, w0. split; [exact Hpool|exact Hsys].
Qed.

Definition rd_token : DataSnapshot := {| ds_data_id := tx_a; latest_write := Some 4; ds_as_of := 5; empty_to := 6 |}.

Lemma rd_sent : sent rd_calls = [Notified 1; SnapshotIs 4 rd_token; Remap 16 {| physical_upper := 5; logical_upper := 5 |}; Remap 16 {| physical_upper := 5; logical_upper := 7 |};
  Subscribed 5 (Some {| ds_data_id := tx_b; latest_write := Some 4; ds_as_of := 4; empty_to := 5 |}) 16].
Proof. vm_compute. reflexivity. Qed.

Lemma rd_idle : queue rd_calls = [] /\ dropped rd_calls = [].
Proof. split; vm_compute; reflexivity. Qed.

Lemma shared_cache_sound_witness : exists ps w sub task, shared_run true true (fun _ => 7%N) (tx_fuel tx_more) tx_scripts (ps, w, Running sub task, rd_calls) /\
  (exists t, task = Done t) /\ exchangeable (tx_fuel tx_more) w rd_token.
Proof.
  destruct rd_shared as (ps & w & sub & task & Hrun). exists ps, w, sub, task. split; [exact Hrun|].
  destruct (shared_cache_sound true true (fun _ => 7%N) (tx_fuel tx_more) tx_scripts ps w sub task rd_calls Hrun) as (Ht & Hsnap & _). split; [exact Ht|].
  refine (proj2 (Hsnap 4%N rd_token _)). rewrite rd_sent. right. left.
Defined.

Lemma shared_cache_answers_witness : exists ps w sub task, shared_run true true (fun _ => 7%N) (tx_fuel tx_more) tx_scripts (ps, w, Running sub task, rd_calls) /\
  exists t, task = Done t /\ forall id pw, BTree.get id (pending_waits_by_id t) = Some pw -> exists f, f ∈ waiters rd_calls /\ f_id f = id.
Proof.
  destruct rd_shared as (ps & w & sub & task & Hrun). exists ps, w, sub, task. split; [exact Hrun|].
  destruct (shared_cache_answers true true (fun _ => 7%N) (tx_fuel tx_more) tx_scripts ps w sub task rd_calls Hrun) as (t & Ht & _ & _ & _ & _ & _ & Hleft).
  exists t. split; [exact Ht|]. apply Hleft; [exact (proj1 rd_idle)|exact (proj2 rd_idle)].
Defined.
